(* ===== verification/_CoqProject ===== *)
-Q . S2P
Prelude.v
GoLib.v
Rpc.v
KvSpec.v
KvSrv.v
Dedup.v
Persister.v
BitCodec.v
Labrpc.v
LabrpcSafe.v
Demux.v
DemuxSafe.v
Tester.v
TesterSafe.v
TesterSim.v
Prog.v
KvTest.v
KvTestSafe.v
KvTestPuts.v
KvTestAppends.v
KvTestSim.v
Raft.v
RaftRPC.v
RaftLog.v
RaftFacts.v
RaftPersist.v
RaftCluster.v
RaftSim.v
RaftProps.v
RaftGhost.v
RaftApply.v
RaftEffect.v
RaftSafe.v
RaftSafeSim.v
RaftTotal.v
RaftWitness.v
Rsm.v
RaftDeliver.v
RsmCluster.v
RsmLinear.v
RfSrv.v
RfChecks.v
KvRaft.v
RsmSrv.v
ShardCfg.v
ShardGrp.v
Clerk.v
ClerkSafe.v
ClerkSystem.v
StoreOrder.v
ClerkLinear.v
ClerkSim.v
KvOrder.v
KvCluster.v
RsmSim.v
RfSim.v
KvClerk.v
ShardMove.v
ShardSim.v
ShardSystem.v
ShardOrder.v
ShardLinear.v
ShardClerkSim.v
ShardReplicas.v
ShardReplay.v
ShardReplicaLinear.v
ShardReplicaSim.v
KvSystem.v
KvLinear.v
KvSim.v
ShardCtrler.v
CtrlerSafe.v
CtrlerSim.v
Lock.v
MrCoord.v
MrWorker.v
MrSpec.v
MrSafe.v
MrApps.v
MrSim.v
