(* ===== verification/Prelude.v ===== *)
(** * A verification library for the Raft-based sharded key/value store

    The repository is a Go implementation of the layers of a fault-tolerant sharded
    key/value store, and of MapReduce: a single key/value server with its clerk and a
    lock on it ([kvsrv1]); the Raft consensus protocol ([raft1]); a replicated state
    machine layer on Raft and a replicated key/value service on that layer
    ([kvraft1]); groups of replicas that own shards, a controller that moves shards
    between groups, and the clerk that routes requests ([shardkv1]); and the
    MapReduce coordinator and worker ([mr]).  This library translates these parts
    into Rocq definitions and proves what makes them correct.  Paths below are
    relative to [src/src/].

    ** How the code is translated

    - One critical section (the code between taking and releasing a mutex, or between
      two remote calls) is one function on a record of the Go object's fields;
      goroutines appear as the interleaving of such sections in step relations.
    - A function that can panic returns an [option], [None] being the panic.
    - Sequential client code that waits for remote calls (clerks, lock, controller,
      MapReduce workers) is a tree of its atomic effects ([Prog]); everybody else
      acts between two effects.  Retry loops take fuel and stop as [Spin] when it
      runs out: as fuel is any number, every finite prefix of a run of the unbounded
      loop is covered.
    - [uint64] is [N] with increments reduced modulo 2^64, [int] is [Z], a Go map is
      [nil] or a finite map, byte slices are lists of bytes.
    - Clocks, random numbers and the order of map iteration are arguments or
      nondeterministic choices.  Timers are steps that may happen at any time.
    - Code outside the repository's sources (gob through [labgob], [encoding/json],
      the plugin's Map and Reduce, [sort.Sort], the Unicode tables) is a parameter
      with its documented laws as a class; every class has an instance
      ([BitCodec], [BitLog], [BitRf], [BitInt], [BitKv], [BitGrp], [BitJson], [sim_lib]), with
      which the witnesses of the theorems are evaluated.

    ** The parts

    - [Prelude] (this file): Go integers, maps and slices; [GoLib]: FNV, decimal
      printing, the contract of sorting; [Prog]: programs, their runs, and the
      predicate [safe] with its rules.
    - [Rpc], [KvSpec]: the data of [kvsrv1/rpc/rpc.go] and the contract of a
      conditional put, as an interface ([ConditionalStore]) with consequences.
    - [KvSrv]: [kvsrv1/server.go], and [models1/kv.go], the model the
      linearizability checker uses.  [KvClerk]: [kvsrv1/client.go].
      [Lock]: [kvsrv1/lock/lock.go].
    - [Dedup]: [kvraft1/dedup/dedup.go].
    - [Labrpc]: [labrpc/labrpc.go], the simulated network; [LabrpcSafe]: its proofs.
      [Demux]: [tester1/demux] and [tester1/sockrpc], calls over a connection;
      [DemuxSafe]: their proofs and a connection executed.
      [Tester]: [tester1/{srv,group,clnts,config}.go], the groups of servers and the
      clients a test has on the network; [TesterSafe]: their proofs; [TesterSim]: a group
      executed.
    - [Persister]: [tester1/persister.go].  [Raft], [RaftRPC]: every critical section
      of [raft1/raft.go].  [RaftFacts]: well-formedness of a node and what sections
      change.  [RaftPersist], [RaftTotal], [RaftProps], [RaftApply]: one node.
      [RaftCluster]: nodes, RPCs in flight, crashes and restarts.
      [RaftLog], [RaftGhost], [RaftEffect], [RaftSafe]: the safety of the logs across
      nodes (leaders' logs and acknowledgements, the ghost state and the invariant,
      the effect of each kind of section, every step and the theorems).
      [RaftSim], [RaftWitness], [RaftSafeSim]: executed schedules.
    - [RfSrv]: the server of Raft's tests, [raft1/server.go], its calls to the tester,
      [raft1/proxy.go], and the tester's checks, [raft1/test.go]; [RfChecks]: its proof;
      [RfSim]: three servers executed.
    - [Rsm]: [kvraft1/rsm/rsm.go]; [KvRaft]: [kvraft1/server.go]; [RsmSrv]:
      [kvraft1/rsm/server.go].  [RaftDeliver], [RsmCluster]: servers of [Rsm] on the
      nodes of a Raft cluster; [RsmLinear]: the calls of [Submit] on them;
      [KvCluster]: the store of [KvRaft] on them; [RsmSim]: three servers executed.
    - [ShardCfg]: [shardkv1/shardcfg/shardcfg.go]; [ShardGrp]:
      [shardkv1/shardgrp/server.go] and [shardrpc]; [ShardMove]: several groups under
      a plan of moves; [Clerk]: [kvraft1/client.go], [shardkv1/shardgrp/client.go],
      [shardkv1/client.go]; [ShardCtrler]:
      [shardkv1/shardctrler/shardctrler.go].  [ClerkSafe], [CtrlerSafe]: their proofs;
      [ShardSim], [CtrlerSim]: executed runs.
    - [ClerkSystem]: clerks with calls side by side and their requests in flight, on a
      service; two interfaces, [ClerkObject] and [Service], say what a clerk and a service
      are.  [StoreOrder]: from executions of a store to an order of calls; [ClerkLinear]:
      what clerks and services that keep their promises ([ClerkObjectLaws],
      [ServiceLaws]) give together; [ClerkSim]: their schedules.  Two instances:
      [KvSystem], the clerks of [kvraft1] on the servers of [RsmLinear], with [KvOrder],
      [KvLinear] (proof) and [KvSim] (two clerks executed); and [ShardSystem], the clerks
      of [shardkv1] on the groups of [ShardMove], with [ShardOrder], [ShardLinear]
      (proof) and [ShardClerkSim] (a put across a move executed).  [ShardReplicas]: the
      same clerks on groups that are clusters of [RsmLinear], with the requests of
      controllers; [ShardReplay], [ShardReplicaLinear]: they simulate [ShardMove], and
      the proof; [ShardReplicaSim]: two groups of three servers executed.
    - [KvTest]: [kvtest1], the clients and the checks of the key/value tests;
      [KvTestSafe]: a store as they see it; [KvTestPuts], [KvTestAppends]: their proofs;
      [KvTestSim]: two tests executed.
    - [MrCoord]: [mr/coordinator.go]; [MrWorker]: [mr/worker.go] and
      [main/mrsequential.go]; [MrSpec]: what a job computes; [MrSafe]: workers, files
      and crashes; [MrApps]: [mrapps/wc.go], [mrapps/indexer.go]; [MrSim]: a job
      executed.

    A Go method [T.M] is the definition [M], with a prefix where two types have a
    method of the same name ([kvsrv_Put], [kvraft_Clerk_Put], [grp_DoOp]); fields keep
    their names behind a short prefix.

    ** What is shown

    - Raft, in every run with lost, delayed and reordered RPCs, crashes and restarts:
      one leader per term, one vote per term and node, the disk holds the durable
      state between sections ([RaftCluster]); the persisted state is read back and
      damaged data is refused, a restart recovers ([RaftPersist], [RaftTotal]); no
      handler panics ([RaftTotal]); what AppendEntries, RequestVote,
      InstallSnapshot, Snapshot and the commit rule do ([RaftProps]); a node delivers
      in log order without gaps ([RaftApply]); logs match, later leaders have all
      committed entries, and no two nodes ever deliver different commands for one
      index, with compaction and InstallSnapshot included ([RaftSafe]).  The checks Raft's
      own tests make of what servers report, of snapshots and of leaders never fail,
      whenever the connections of the servers to the tester break ([RfChecks]).
    - The network: an RPC is executed at most once and a Call that returns true
      returns that execution's reply; a deleted server answers nothing any more; every
      Call returns ([LabrpcSafe]); over a connection that may break anywhere a call gets
      the reply of the one execution of its request, and once it broke every call returns
      ([DemuxSafe]).  The step relations of the clusters and the answers
      of the clerks' calls are these guarantees.
    - Replicated services: a replica's state is the replay of the log however it is
      caught up by snapshots, a Submit is answered by its own operation ([Rsm]); on a
      Raft cluster there is one log, of operations that were given to [Start], whose
      prefixes are the states of all servers and whose replay gives every reply
      ([RsmCluster]); the calls of Submit, wherever they are made and whatever crashes,
      are linearizable ([RsmLinear]), and so are the calls of the clerks, each of which
      takes effect once however often its requests are sent ([KvLinear]); puts take
      effect at most once and in log order ([KvRaft]), over all servers and whatever crashes
      ([KvCluster]); requests are de-duplicated over any network ([Dedup]).
    - Single server: histories against the checker's model, versions, and what each
      answer of the clerk tells ([KvSrv], [KvClerk]); mutual exclusion of the lock
      ([Lock]).
    - Shards: balancing terminates and balances ([ShardCfg]); in every run a shard is
      served by one group at most and all groups together are one conditional store
      ([ShardMove]); the calls of the sharded clerks, routed by configurations that may be
      old, are linearizable while shards move between groups of servers that run Raft
      ([ShardReplicaLinear]); configuration numbers fence ([ShardGrp]); controllers that take
      over from each other agree on one plan per configuration number and publish only
      installed configurations ([CtrlerSafe]); the clerks keep their leader index in
      range and the discipline of identities ([ClerkSafe]).
    - The tests: on a store that keeps the promise of its clerks, no check of the putting
      and appending clients and of what they leave fails, and their log is one the
      checker accepts ([KvTestPuts], [KvTestAppends]).  Partitions do separate servers, at
      any time and until they are connected again, the one made for a leader of an odd
      group leaves it in the minority, a server started again has the state its
      predecessor persisted, and a client reaches the servers it may call ([TesterSafe]).
    - MapReduce: a finished job's files hold the lines of the sequential program's
      output and stay so ([MrSafe]); phases ([MrCoord]); a lone worker finishes the
      job in a bounded number of requests ([MrCoord]).

    ** Bounds and fuel

    [rebalance_fuel] is 145: a move lowers the sum of the squares of the groups'
    loads, at most 144 for twelve shards.  [complete_loop] of [Dedup] recurses by the
    size of its map, [reduce_loop] and [groups] by the length of the list,
    [decode_all] by the length of the text, [fields_func] by the bytes; the theorems
    show the results for this fuel, so running out is never the reason of a result.
    The fuel of [prog] loops is universally quantified.

    ** What is not modelled

    The gob wrapper [labgob], the test harness
    ([tester1] but for the persister, the connections, the groups and the clients: the
    processes, the annotations and what is printed; what makes and cleans up the
    tests in [kvtest1] and draws their histories, the proxies and the [test.go] files but
    for Raft's checks), the daemons' command lines ([main]) and the applications that
    only exercise the MapReduce framework ([mrapps] but for two): they start processes,
    inject failures or sleep.  [RsmLinear] takes the restart epochs, drawn at random
    from 2^64, to be new, and [ClerkSystem] the identities of the clerks to be different.
    [RfSrv] lets the tester serve a request whose call failed until the server's next
    process starts, not after.
    In [ShardMove] and [ShardSystem] a group is one state machine that executes a request
    in one step, which [ShardReplay] justifies.  [ShardReplicas] lets controllers submit
    what the plan and the answers they got allow; that a controller's program does no
    more is shown in [CtrlerSafe], and that there is one plan.
    [ShardMove] moves shards between groups only; shards that come from or go to no
    group (0) are made and dropped by the first configuration. *)

From stdpp Require Export base tactics list numbers option strings gmap relations sorting.
From Stdlib Require Export ZArith Lia.

#[global] Set Default Proof Using "Type".

(** ** Go integers

    Go's [uint64] is [N] with every increment reduced modulo [2^64].  Go's
    [int] is [Z]; the places that convert it to 64 bits write the wrap-around
    out with [i64]. *)

Definition two64 : N := 18446744073709551616%N.

Definition u64_add (x y : N) : N := ((x + y) mod two64)%N.

Definition u64_inc (x : N) : N := u64_add x 1.

(** The conversions [uint64(int64(v))] and [int64(u)] of Go. *)
Definition to_u64 (v : Z) : N := Z.to_N (v mod 2 ^ 64)%Z.

Definition of_u64 (u : N) : Z :=
  let v := Z.of_N u in
  if (v <? 2 ^ 63)%Z then v else (v - 2 ^ 64)%Z.

Definition int64_range (v : Z) : Prop := (- 2 ^ 63 <= v < 2 ^ 63)%Z.

Lemma u64_inc_small x : (x + 1 < two64)%N -> u64_inc x = (x + 1)%N.
Proof. intros H. unfold u64_inc, u64_add. by apply N.mod_small. Qed.

Lemma u64_inc_bound x : (u64_inc x < two64)%N.
Proof. unfold u64_inc, u64_add. apply N.mod_upper_bound. done. Qed.

Lemma u64_inc_ne x : (x < two64)%N -> u64_inc x <> x.
Proof.
  intros H. unfold u64_inc, u64_add.
  destruct (decide (x + 1 < two64)%N) as [Hs|Hs].
  - rewrite N.mod_small by done. lia.
  - assert (x + 1 = two64)%N as -> by lia. rewrite N.Div0.mod_same.
    unfold two64 in *. lia.
Qed.

Lemma of_to_u64 v : int64_range v -> of_u64 (to_u64 v) = v.
Proof.
  unfold int64_range, of_u64, to_u64. intros Hv.
  pose proof (Z.mod_pos_bound v (2 ^ 64) ltac:(lia)) as Hm.
  rewrite Z2N.id by lia.
  destruct (decide (0 <= v)%Z) as [Hp|Hp].
  - rewrite (Z.mod_small v) by lia.
    destruct (Z.ltb_spec v (2 ^ 63)); lia.
  - assert (v mod 2 ^ 64 = v + 2 ^ 64)%Z as ->.
    { symmetry. apply (Z.mod_unique _ _ (-1)); lia. }
    destruct (Z.ltb_spec (v + 2 ^ 64) (2 ^ 63)); lia.
Qed.

Lemma to_u64_bound v : (to_u64 v < two64)%N.
Proof.
  unfold to_u64, two64. pose proof (Z.mod_pos_bound v (2 ^ 64) ltac:(lia)). lia.
Qed.

(** ** Go maps

    A Go map is [nil] or a finite map: reading a [nil] map finds nothing,
    writing to it panics.  A computation that can panic returns an [option],
    [None] being the panic. *)

Abbreviation gomap K V := (option (gmap K V)).

Section gomap.
Context `{Countable K} {V : Type}.

Definition map_get (m : gomap K V) (k : K) : option V := m ≫= (.!! k).

Definition map_set (m : gomap K V) (k : K) (v : V) : option (gomap K V) :=
  match m with
  | None => None
  | Some g => Some (Some (<[k:=v]> g))
  end.

Definition map_del (m : gomap K V) (k : K) : gomap K V := delete k <$> m.

Definition map_make : gomap K V := Some ∅.

Lemma map_get_Some (g : gmap K V) k : map_get (Some g) k = g !! k.
Proof. done. Qed.

Lemma map_get_nil k : map_get None k = None.
Proof. done. Qed.

Lemma map_get_make k : map_get map_make k = None.
Proof. apply lookup_empty. Qed.
End gomap.

(** ** Slices indexed by Go's [int] *)

Definition zlookup {A} (l : list A) (i : Z) : option A :=
  if (i <? 0)%Z then None else l !! Z.to_nat i.

Definition zlen {A} (l : list A) : Z := Z.of_nat (length l).

Lemma zlookup_lookup {A} (l : list A) i : (0 <= i)%Z -> zlookup l i = l !! Z.to_nat i.
Proof. intros H. unfold zlookup. by destruct (Z.ltb_spec i 0); [lia|]. Qed.

Lemma zlookup_Some_range {A} (l : list A) i x :
  zlookup l i = Some x -> (0 <= i < zlen l)%Z.
Proof.
  unfold zlookup, zlen. destruct (Z.ltb_spec i 0); [done|].
  intros Hl%lookup_lt_Some. lia.
Qed.

Lemma zlookup_elem {A} (l : list A) i x : zlookup l i = Some x -> x ∈ l.
Proof. unfold zlookup. destruct (Z.ltb_spec i 0); [done|]. apply list_elem_of_lookup_2. Qed.

Lemma zlookup_is_Some {A} (l : list A) i : is_Some (zlookup l i) <-> (0 <= i < zlen l)%Z.
Proof.
  unfold zlookup, zlen. destruct (Z.ltb_spec i 0); rewrite ?lookup_lt_is_Some.
  - split; [intros [? ?]; done|lia].
  - lia.
Qed.

(** ** Lists *)

Lemma lookup_snoc_cases {A} (l : list A) (x y : A) k :
  (l ++ [x]) !! k = Some y -> l !! k = Some y \/ (k = length l /\ y = x).
Proof.
  intros [?|[? [? ->]%list_lookup_singleton_Some]]%lookup_app_Some; [by left|right]. split; [lia|done].
Qed.


Lemma sorted_snoc (l : list nat) k : StronglySorted lt l -> (forall j, j ∈ l -> j < k) -> StronglySorted lt (l ++ [k]).
Proof.
  induction 1 as [|x l Hs IH Hf]; intros Hk; simpl; [repeat constructor|]. constructor.
  - apply IH. intros j Hj. apply Hk. by right.
  - apply Forall_app. split; [done|]. repeat constructor. apply Hk. left.
Qed.

Lemma sorted_lookup (l : list nat) : StronglySorted lt l ->
  forall i j p q, i < j -> l !! i = Some p -> l !! j = Some q -> p < q.
Proof.
  induction 1 as [|x l Hs IH Hf]; intros i j p q Hij Hi Hj; [done|]. destruct j as [|j]; [lia|].
  destruct i as [|i]; simpl in *; [|eapply (IH i j); eauto; lia].
  injection Hi as ->. rewrite Forall_forall in Hf. by eapply Hf, list_elem_of_lookup_2.
Qed.

(** ** Invariants along transition sequences *)

Lemma invariant_rtc {A} (R : relation A) (I : A -> Prop) x y :
  (forall a b, I a -> R a b -> I b) -> rtc R x y -> I x -> I y.
Proof. intros Hstep. induction 1; eauto. Qed.

(** Two majorities of the same finite set of nodes meet. *)
Lemma majority_intersect (n : nat) (Q1 Q2 : gset nat) :
  (forall x, x ∈ Q1 -> x < n) -> (forall x, x ∈ Q2 -> x < n) ->
  n `div` 2 + 1 <= size Q1 -> n `div` 2 + 1 <= size Q2 ->
  exists x, x ∈ Q1 /\ x ∈ Q2.
Proof.
  intros H1 H2 S1 S2.
  destruct (decide (Q1 ∩ Q2 = ∅)) as [He|Hne].
  - exfalso.
    assert (size (Q1 ∪ Q2) <= n) as Hle.
    { rewrite <- (size_set_seq (C:=gset nat) 0 n). apply subseteq_size.
      intros x. rewrite elem_of_union, elem_of_set_seq. intros [?%H1|?%H2]; lia. }
    rewrite size_union in Hle by set_solver.
    pose proof (Nat.div_mod n 2 ltac:(lia)).
    pose proof (Nat.mod_upper_bound n 2 ltac:(lia)). lia.
  - apply set_choose_L in Hne as [x Hx]. exists x. set_solver.
Qed.

(** ** Proof automation of the development *)

Create HintDb sharded.
Create Rewrite HintDb sharded.

#[export] Hint Rewrite @map_get_Some @map_get_nil @map_get_make : sharded.

(** Split a goal about a decided or matched value into its cases. *)
Ltac cases :=
  repeat (first [case_decide | case_match | case_bool_decide]; simplify_eq/=).

(** Turn boolean integer comparisons into propositions. *)
Ltac zbool :=
  repeat match goal with
  | H : (_ <? _)%Z = true |- _ => apply Z.ltb_lt in H
  | H : (_ <? _)%Z = false |- _ => apply Z.ltb_ge in H
  | H : (_ <=? _)%Z = true |- _ => apply Z.leb_le in H
  | H : (_ <=? _)%Z = false |- _ => apply Z.leb_gt in H
  | H : (_ =? _)%Z = true |- _ => apply Z.eqb_eq in H
  | H : (_ =? _)%Z = false |- _ => apply Z.eqb_neq in H
  | H : (_ <? _)%N = true |- _ => apply N.ltb_lt in H
  | H : (_ <? _)%N = false |- _ => apply N.ltb_ge in H
  | H : (_ <=? _)%N = true |- _ => apply N.leb_le in H
  | H : (_ <=? _)%N = false |- _ => apply N.leb_gt in H
  | H : (_ =? _)%N = true |- _ => apply N.eqb_eq in H
  | H : (_ =? _)%N = false |- _ => apply N.eqb_neq in H
  | H : (_ && _)%bool = true |- _ => apply andb_true_iff in H as [? ?]
  | H : (_ || _)%bool = false |- _ => apply orb_false_iff in H as [? ?]
  | H : negb _ = true |- _ => apply negb_true_iff in H
  | H : negb _ = false |- _ => apply negb_false_iff in H
  end.

(** Invert a computation in the option monad that returned. *)
Ltac binds :=
  repeat match goal with
  | H : (_ ≫= _) = Some _ |- _ => apply bind_Some in H as (? & ? & ?)
  | H : context [let '(_, _) := ?x in _] |- _ => destruct x as [? ?] eqn:?
  | H : Some _ = Some _ |- _ => injection H as H
  | H : None = Some _ |- _ => discriminate H
  | H : Some _ = None |- _ => discriminate H
  | H : (_, _) = (_, _) |- _ => injection H; clear H; intros
  end; simpl in *; subst.
