(* ===== verification/GoLib.v ===== *)
(** * Parts of Go's standard library

    Definitions of the library functions the sources call and that more than one
    component uses: the hash of [hash/fnv], decimal printing, and the contract of
    [sort.Sort]. *)

From S2P Require Import Prelude.
From Stdlib Require Import Ascii.
From stdpp Require Import pretty.

(** ** hash/fnv: FNV-1a, 32 bits *)

Definition fnv_step (h : Z) (b : ascii) : Z :=
  (Z.lxor h (Z.of_N (N_of_ascii b)) * 16777619) mod 2 ^ 32.

Definition fnv32a (s : list ascii) : Z := foldl fnv_step 2166136261%Z s.

Example fnv32a_empty : fnv32a [] = 0x811c9dc5%Z.
Proof. reflexivity. Qed.

Example fnv32a_foobar : fnv32a (String.list_ascii_of_string "foobar") = 0xbf9cf968%Z.
Proof. reflexivity. Qed.

Lemma fnv32a_range s : (0 <= fnv32a s < 2 ^ 32)%Z.
Proof.
  unfold fnv32a. destruct s as [|b s _] using rev_ind; [done|].
  rewrite foldl_snoc. unfold fnv_step at 1. apply Z.mod_pos_bound. done.
Qed.

(** ** Decimal numbers: [%d] and [strconv.Itoa] *)

Definition itoa (z : Z) : string := pretty z.

#[global] Instance itoa_inj : Inj (=) (=) itoa.
Proof. unfold itoa. apply _. Qed.

(** How often a character occurs: the dashes tell file names apart. *)
Fixpoint occurs (c : ascii) (s : string) : nat :=
  match s with
  | EmptyString => 0
  | String d s' => (if decide (d = c) then 1 else 0) + occurs c s'
  end.

Definition dashes : string -> nat := occurs "-".

Lemma occurs_app c s t : occurs c (s ++ t) = occurs c s + occurs c t.
Proof.
  induction s as [|d s IH]; [done|]. change (String d s ++ t)%string with (String d (s ++ t)).
  simpl. rewrite IH. lia.
Qed.

Lemma dashes_app s t : dashes (s ++ t) = dashes s + dashes t.
Proof. apply occurs_app. Qed.

(** Decimal numbers are made of digits. *)
Definition no_digit (c : ascii) : Prop := forall x, pretty_N_char x <> c.

Lemma occurs_pretty_N_go c x acc : no_digit c -> occurs c (pretty_N_go x acc) = occurs c acc.
Proof.
  intros Hc. revert acc. induction (N.lt_wf_0 x) as [x _ IH]. intros acc.
  destruct (decide (x = 0%N)) as [->|Hx]; [by rewrite pretty_N_go_0|].
  rewrite pretty_N_go_step by lia. rewrite IH by (apply N.div_lt; lia). simpl.
  by rewrite decide_False by apply Hc.
Qed.

Lemma occurs_itoa c z : no_digit c -> (0 <= z)%Z -> occurs c (itoa z) = 0.
Proof.
  intros Hc Hz. unfold itoa, pretty, pretty_Z. destruct z as [|p|p]; [| |lia].
  - simpl. rewrite decide_False; [done|]. apply (Hc 0%N).
  - unfold pretty, pretty_positive, pretty, pretty_N. rewrite decide_False by done.
    by apply occurs_pretty_N_go.
Qed.

Lemma dashes_itoa z : (0 <= z)%Z -> dashes (itoa z) = 0.
Proof. apply occurs_itoa. intros x. unfold pretty_N_char. by repeat case_match. Qed.

Lemma itoa_not_out z : (0 <= z)%Z -> itoa z <> "out".
Proof.
  intros Hz He. assert (occurs "o" (itoa z) = 0) as H.
  { apply occurs_itoa; [|done]. intros x. unfold pretty_N_char. by repeat case_match. }
  by rewrite He in H.
Qed.

(** Two texts without dashes, each closed by one, can be told apart. *)
Lemma dash_sep_inj a b x y :
  dashes a = 0 -> dashes b = 0 -> (a ++ "-" ++ x = b ++ "-" ++ y)%string -> a = b /\ x = y.
Proof.
  unfold dashes. revert b. induction a as [|c a IH]; intros [|d b]; simpl; intros Ha Hb He.
  - by injection He.
  - injection He as Hd _. subst d. by rewrite decide_True in Hb.
  - injection He as Hc _. subst c. by rewrite decide_True in Ha.
  - injection He as <- He. destruct (decide (c = "-"%char)); [done|].
    destruct (IH b Ha Hb He) as [-> ->]. done.
Qed.

(** ** sort

    What [sort.Sort] promises of a slice ordered by [Less]: the same elements in
    ascending order; equal elements may change places. *)
Definition sorted_copy {A} (le : relation A) (l l' : list A) : Prop := l' ≡ₚ l /\ StronglySorted le l'.

(** Concatenating strings. *)
Definition str_concat (l : list string) : string := foldr String.append "" l.

Lemma str_append_nil s : (s ++ "")%string = s.
Proof. induction s as [|c s IH]; [done|]. change (String c (s ++ "") = String c s)%string. by rewrite IH. Qed.

Lemma str_append_assoc s t u : ((s ++ t) ++ u)%string = (s ++ (t ++ u))%string.
Proof.
  induction s as [|c s IH]; [done|].
  change (String c ((s ++ t) ++ u) = String c (s ++ (t ++ u)))%string. by rewrite IH.
Qed.

Lemma str_concat_app l l' : str_concat (l ++ l') = (str_concat l ++ str_concat l')%string.
Proof. induction l as [|s l IH]; simpl; [done|]. by rewrite IH, str_append_assoc. Qed.
