(* ===== verification/Rpc.v ===== *)
(** * RPC types of the key/value services

    The argument and reply records of [kvsrv1/rpc/rpc.go], shared by the
    single-server store, the replicated store and the shard groups. *)

From S2P Require Import Prelude.

(** [rpc.Err] is a Go string; the code only ever stores the declared constants
    and the zero value [""] of a fresh reply, here [ErrNone]. *)
Inductive Err : Type :=
  | ErrNone
  | OK
  | ErrNoKey
  | ErrVersion
  | ErrMaybe
  | ErrWrongLeader
  | ErrWrongGroup
  | ErrStaleRequest.

#[global] Instance Err_eq_dec : EqDecision Err.
Proof. solve_decision. Defined.

(** [type Tversion uint64] *)
Abbreviation Tversion := N.

Record PutArgs : Type := mkPutArgs {
  pa_Key : string;
  pa_Value : string;
  pa_Version : Tversion;
  pa_ClientID : N;
  pa_Sequence : N;
  pa_Ack : N;
}.

Record PutReply : Type := mkPutReply { pr_Err : Err }.

Record GetArgs : Type := mkGetArgs { ga_Key : string }.

Record GetReply : Type := mkGetReply {
  gr_Value : string;
  gr_Version : Tversion;
  gr_Err : Err;
}.

#[global] Instance PutArgs_eq_dec : EqDecision PutArgs.
Proof. solve_decision. Defined.
#[global] Instance PutReply_eq_dec : EqDecision PutReply.
Proof. solve_decision. Defined.
#[global] Instance GetArgs_eq_dec : EqDecision GetArgs.
Proof. solve_decision. Defined.
#[global] Instance GetReply_eq_dec : EqDecision GetReply.
Proof. solve_decision. Defined.

(** The zero values a client allocates before a call. *)
Definition PutReply_zero : PutReply := mkPutReply ErrNone.
Definition GetReply_zero : GetReply := mkGetReply "" 0 ErrNone.
