(* ===== verification/KvSpec.v ===== *)
(** * The conditional-put store, as every server of the repository promises it

    [kvsrv1/server.go], [kvraft1/server.go] and [shardkv1/shardgrp/server.go]
    each implement a map from keys to versioned values whose [Put] succeeds
    only on a matching version.  This file states that contract once
    ([spec_put], [spec_get]), packages it as the interface
    [ConditionalStore], and proves the consequences clients rely on from the
    interface alone.  The servers instantiate it in their own files. *)

From S2P Require Import Prelude Rpc.

(** A stored value with its version. *)
Record entry : Type := mkEntry { Value : string; Version : Tversion }.

#[global] Instance entry_eq_dec : EqDecision entry.
Proof. solve_decision. Defined.

Abbreviation kvmap := (gmap string entry).

(** ** The contract *)

Definition spec_put (m : kvmap) (a : PutArgs) : kvmap * Err :=
  match m !! pa_Key a with
  | None =>
      if decide (pa_Version a = 0%N)
      then (<[pa_Key a := mkEntry (pa_Value a) 1]> m, OK)
      else (m, ErrNoKey)
  | Some e =>
      if decide (Version e = pa_Version a)
      then (<[pa_Key a := mkEntry (pa_Value a) (u64_inc (Version e))]> m, OK)
      else (m, ErrVersion)
  end.

Definition spec_get (m : kvmap) (k : string) : string * Tversion * Err :=
  match m !! k with
  | None => ("", 0%N, ErrNoKey)
  | Some e => (Value e, Version e, OK)
  end.

(** The version a conditional put has to name: 0 for an absent key. *)
Definition version_of (m : kvmap) (k : string) : Tversion :=
  match m !! k with Some e => Version e | None => 0%N end.

Definition value_of (m : kvmap) (k : string) : string :=
  match m !! k with Some e => Value e | None => "" end.

(** Keys are never removed and every stored version is a positive number of
    writes, as long as fewer than [2^64] writes happened. *)
Definition versions_below (n : N) (m : kvmap) : Prop :=
  forall k e, m !! k = Some e -> (1 <= Version e <= n)%N.

Lemma spec_put_err m a :
  snd (spec_put m a) = OK \/ snd (spec_put m a) = ErrNoKey \/ snd (spec_put m a) = ErrVersion.
Proof. unfold spec_put. cases; auto. Qed.

Lemma spec_put_fail m a : snd (spec_put m a) <> OK -> fst (spec_put m a) = m.
Proof. unfold spec_put. cases; done. Qed.

Lemma spec_put_ok_version m a :
  snd (spec_put m a) = OK -> version_of m (pa_Key a) = pa_Version a.
Proof. unfold spec_put, version_of. cases; done. Qed.

Lemma spec_put_ok_lookup m a :
  snd (spec_put m a) = OK ->
  fst (spec_put m a) !! pa_Key a = Some (mkEntry (pa_Value a) (u64_inc (pa_Version a))).
Proof.
  unfold spec_put. cases; intros; simplify_eq/=; rewrite lookup_insert_eq; repeat f_equal.
  all: try done; by match goal with H : pa_Version _ = 0%N |- _ => rewrite H end.
Qed.

Lemma spec_put_other m a k : k <> pa_Key a -> fst (spec_put m a) !! k = m !! k.
Proof. intros. unfold spec_put. cases; rewrite ?lookup_insert_ne; done. Qed.

Lemma spec_put_keeps_keys m a k : is_Some (m !! k) -> is_Some (fst (spec_put m a) !! k).
Proof.
  intros [e He]. unfold spec_put.
  cases; try (by eexists); destruct (decide (pa_Key a = k)); subst;
    rewrite ?lookup_insert_eq, ?lookup_insert_ne; eauto.
Qed.

Lemma spec_put_nokey m a :
  snd (spec_put m a) = ErrNoKey <-> m !! pa_Key a = None /\ pa_Version a <> 0%N.
Proof.
  unfold spec_put. destruct (m !! pa_Key a); case_decide; simpl; (split; [intros ?|intros [??]]);
    simplify_eq; auto.
Qed.

Lemma version_of_below n m k : versions_below n m -> (version_of m k <= n)%N.
Proof.
  intros Hb. unfold version_of. destruct (m !! k) as [e|] eqn:He; [|lia].
  apply Hb in He. lia.
Qed.

Lemma spec_put_versions_below n m a :
  (n + 1 < two64)%N -> versions_below n m -> versions_below (n + 1) (fst (spec_put m a)).
Proof.
  intros Hn Hb k e He. destruct (decide (k = pa_Key a)) as [->|Hk].
  - destruct (decide (snd (spec_put m a) = OK)) as [Hok|Hno].
    + rewrite spec_put_ok_lookup in He by done. simplify_eq/=.
      pose proof (version_of_below n m (pa_Key a) Hb) as Hle.
      rewrite (spec_put_ok_version _ _ Hok) in Hle. rewrite u64_inc_small; lia.
    + rewrite spec_put_fail in He by done. apply Hb in He. lia.
  - rewrite spec_put_other in He by done. apply Hb in He. lia.
Qed.

(** An OK put raises the version of its key by one; nothing lowers it. *)
Lemma spec_put_version_step n m a k :
  (n + 1 < two64)%N -> versions_below n m ->
  version_of (fst (spec_put m a)) k =
    if decide (k = pa_Key a /\ snd (spec_put m a) = OK)
    then (version_of m k + 1)%N else version_of m k.
Proof.
  intros Hn Hb. unfold version_of.
  destruct (decide (k = pa_Key a)) as [->|Hk].
  - destruct (decide (snd (spec_put m a) = OK)) as [Hok|Hno].
    + rewrite decide_True by done. rewrite spec_put_ok_lookup by done.
      rewrite <- (spec_put_ok_version _ _ Hok). unfold version_of. simpl.
      destruct (m !! pa_Key a) eqn:He; [|done].
      apply Hb in He. apply u64_inc_small. lia.
    + rewrite decide_False by (intros [? ?]; done). by rewrite spec_put_fail.
  - rewrite decide_False by (intros [? ?]; done). by rewrite spec_put_other.
Qed.

(** ** The interface

    [cs_view] reads the versioned map out of a server's state. *)
Class ConditionalStore (St : Type) := {
  cs_view : St -> kvmap;
  cs_put : St -> PutArgs -> St * Err;
  cs_put_spec s a :
    cs_view (fst (cs_put s a)) = fst (spec_put (cs_view s) a) /\
    snd (cs_put s a) = snd (spec_put (cs_view s) a);
}.

Section clients.
Context {St : Type} `{!ConditionalStore St}.

(** The replies to a sequence of puts, in order. *)
Fixpoint cs_puts (s : St) (l : list PutArgs) : St * list Err :=
  match l with
  | [] => (s, [])
  | a :: l' =>
      let '(s1, r) := cs_put s a in
      let '(s2, rs) := cs_puts s1 l' in
      (s2, r :: rs)
  end.

Lemma cs_puts_version_ok l : forall s n j a,
  (n + N.of_nat (length l) < two64)%N -> versions_below n (cs_view s) ->
  l !! j = Some a -> (snd (cs_puts s l)) !! j = Some OK ->
  (version_of (cs_view s) (pa_Key a) <= pa_Version a)%N.
Proof.
  induction l as [|b l IH]; intros s n j a Hn Hb Ha Hok; [done|].
  simpl in *. destruct (cs_put_spec s b) as [Hv Hr].
  destruct (cs_put s b) as [s1 r] eqn:E1. destruct (cs_puts s1 l) as [s2 rs] eqn:E2.
  simpl in *. subst r.
  destruct j as [|j]; simpl in *; simplify_eq.
  - rewrite (spec_put_ok_version (cs_view s) a) by congruence. lia.
  - specialize (IH s1 (n + 1)%N j a). rewrite Hv, E2 in IH.
    specialize (IH ltac:(lia) (spec_put_versions_below n _ b ltac:(lia) Hb) Ha Hok).
    rewrite (spec_put_version_step n) in IH by (done || lia).
    case_decide; lia.
Qed.

(** Of two successful puts to one key the later one named a larger version:
    a version is never accepted twice. *)
Lemma cs_puts_ok_increasing l : forall s n i j a b,
  (n + N.of_nat (length l) < two64)%N -> versions_below n (cs_view s) ->
  i < j -> l !! i = Some a -> l !! j = Some b -> pa_Key a = pa_Key b ->
  (snd (cs_puts s l)) !! i = Some OK -> (snd (cs_puts s l)) !! j = Some OK ->
  (pa_Version a < pa_Version b)%N.
Proof.
  induction l as [|c l IH]; intros s n i j a b Hn Hb Hij Ha Hbb Hk Hi Hj; [done|].
  simpl in *. destruct (cs_put_spec s c) as [Hv Hr].
  destruct (cs_put s c) as [s1 r] eqn:E1. destruct (cs_puts s1 l) as [s2 rs] eqn:E2.
  simpl in *. subst r.
  destruct j as [|j]; [lia|]. simpl in *.
  pose proof (spec_put_versions_below n (cs_view s) c ltac:(lia) Hb) as Hb1.
  destruct i as [|i]; simpl in *; simplify_eq.
  - assert (version_of (cs_view s1) (pa_Key b) <= pa_Version b)%N as Hle.
    { eapply (cs_puts_version_ok l s1 (n + 1) j); rewrite ?Hv, ?E2; auto; lia. }
    rewrite Hv, (spec_put_version_step n) in Hle by (done || lia).
    rewrite decide_True in Hle by (split; congruence).
    rewrite <- Hk, (spec_put_ok_version (cs_view s) a) in Hle by congruence. lia.
  - eapply (IH s1 (n + 1)%N i j); rewrite ?Hv, ?E2; eauto; lia.
Qed.
End clients.
