(* ===== verification/KvSrv.v ===== *)
(** * The single-server store ([kvsrv1/server.go]) and its checker model

    [kvsrv_Get] and [kvsrv_Put] are the two RPC handlers.  [KvModel_*] is the
    sequential model [models1/kv.go] hands to the linearizability checker of
    the tests.  The handlers are shown to implement the conditional-put
    contract of [KvSpec], and their histories are compared with the model. *)

From S2P Require Import Prelude.
From S2P Require Import Rpc.
From S2P Require Import KvSpec.

(** ** The server *)

(** [type KVServer struct { data map[string]entry }]; the mutex serialises the
    handlers, so each one is a function on [data]. *)
Record KVServer : Type := mkKVServer { kvs_data : kvmap }.

Definition MakeKVServer : KVServer := mkKVServer ∅.

Definition kvsrv_Get (kv : KVServer) (args : GetArgs) (reply : GetReply) : GetReply :=
  match kvs_data kv !! ga_Key args with
  | None => mkGetReply (gr_Value reply) (gr_Version reply) ErrNoKey
  | Some item => mkGetReply (Value item) (Version item) OK
  end.

Definition kvsrv_Put (kv : KVServer) (args : PutArgs) (reply : PutReply) : KVServer * PutReply :=
  match kvs_data kv !! pa_Key args with
  | None =>
      if decide (pa_Version args = 0%N)
      then (mkKVServer (<[pa_Key args := mkEntry (pa_Value args) 1]> (kvs_data kv)), mkPutReply OK)
      else (kv, mkPutReply ErrNoKey)
  | Some item =>
      if decide (Version item <> pa_Version args) then (kv, mkPutReply ErrVersion)
      else
        let item1 := mkEntry (pa_Value args) (u64_inc (Version item)) in
        (mkKVServer (<[pa_Key args := item1]> (kvs_data kv)), mkPutReply OK)
  end.

(** ** The checker's model ([models1/kv.go]) *)

Record KvInput : Type := mkKvInput {
  ki_Op : N;  (* uint8: 0 get, 1 put *)
  ki_Key : string;
  ki_Value : string;
  ki_Version : N;
}.

Record KvOutput : Type := mkKvOutput {
  ko_Value : string;
  ko_Version : N;
  ko_Err : Err;
}.

Record KvState : Type := mkKvState { ks_Value : string; ks_Version : N }.

Abbreviation Operation := (KvInput * KvOutput)%type.

Definition KvModel_Init : KvState := mkKvState "" 0.

(** The state after an unknown operation is the string ["<invalid>"], here
    [None]. *)
Definition KvModel_Step (st : KvState) (inp : KvInput) (out : KvOutput) : bool * option KvState :=
  if decide (ki_Op inp = 0%N) then (bool_decide (ko_Value out = ks_Value st), Some st)
  else if decide (ki_Op inp = 1%N) then
    if decide (ks_Version st = ki_Version inp)
    then (bool_decide (ko_Err out = OK) || bool_decide (ko_Err out = ErrMaybe),
          Some (mkKvState (ki_Value inp) (u64_inc (ks_Version st))))
    else (bool_decide (ko_Err out = ErrVersion) || bool_decide (ko_Err out = ErrMaybe), Some st)
  else (false, None).

(** [sort.Strings] orders byte strings lexicographically. *)
Definition string_le (a b : string) : Prop := String.leb a b = true.

#[global] Instance string_le_dec : RelDecision string_le.
Proof. intros a b. unfold string_le. apply _. Defined.

Definition KvModel_Partition (history : list Operation) : list (list Operation) :=
  let m := foldl (fun (m : gmap string (list Operation)) v =>
             <[ki_Key v.1 := default [] (m !! ki_Key v.1) ++ [v]]> m) ∅ history in
  let keys := merge_sort string_le (map_to_list m).*1 in
  (fun k => default [] (m !! k)) <$> keys.

(** What the checker does with one partition when the operations do not
    overlap: it steps the model and stops at the first refusal. *)
Fixpoint KvModel_accepts (st : KvState) (l : list Operation) : bool :=
  match l with
  | [] => true
  | (inp, out) :: l' =>
      match KvModel_Step st inp out with
      | (true, Some st') => KvModel_accepts st' l'
      | _ => false
      end
  end.

(** ** Histories of the server *)

Inductive request : Type := RGet (a : GetArgs) | RPut (a : PutArgs).

(** One request, with the operation [kvtest1/porcupine.go] logs for it. *)
Definition kvsrv_handle (kv : KVServer) (r : request) : KVServer * Operation :=
  match r with
  | RGet a =>
      let rep := kvsrv_Get kv a GetReply_zero in
      (kv, (mkKvInput 0 (ga_Key a) "" 0, mkKvOutput (gr_Value rep) (gr_Version rep) (gr_Err rep)))
  | RPut a =>
      let '(kv', rep) := kvsrv_Put kv a PutReply_zero in
      (kv', (mkKvInput 1 (pa_Key a) (pa_Value a) (pa_Version a), mkKvOutput "" 0 (pr_Err rep)))
  end.

Fixpoint kvsrv_history (kv : KVServer) (l : list request) : list Operation :=
  match l with
  | [] => []
  | r :: l' => let '(kv', op) := kvsrv_handle kv r in op :: kvsrv_history kv' l'
  end.

(** A put refused with [ErrNoKey]. *)
Definition put_nokey (op : Operation) : bool :=
  bool_decide (ki_Op op.1 = 1%N) && bool_decide (ko_Err op.2 = ErrNoKey).

(** ** The contract *)

Lemma kvsrv_Put_spec kv a rep :
  kvs_data (fst (kvsrv_Put kv a rep)) = fst (spec_put (kvs_data kv) a) /\
  pr_Err (snd (kvsrv_Put kv a rep)) = snd (spec_put (kvs_data kv) a).
Proof.
  unfold kvsrv_Put, spec_put. destruct (kvs_data kv !! pa_Key a);
    repeat case_decide; simpl; auto; congruence.
Qed.

Definition kvsrv_step (kv : KVServer) (a : PutArgs) : KVServer * Err :=
  let '(kv', r) := kvsrv_Put kv a PutReply_zero in (kv', pr_Err r).

Lemma kvsrv_step_spec kv a :
  kvs_data (fst (kvsrv_step kv a)) = fst (spec_put (kvs_data kv) a) /\
  snd (kvsrv_step kv a) = snd (spec_put (kvs_data kv) a).
Proof.
  unfold kvsrv_step. pose proof (kvsrv_Put_spec kv a PutReply_zero) as [Hv Hr].
  destruct (kvsrv_Put kv a PutReply_zero). done.
Qed.

#[global] Instance KVServer_store : ConditionalStore KVServer := {|
  cs_view := kvs_data;
  cs_put := kvsrv_step;
  cs_put_spec := kvsrv_step_spec;
|}.

(** The errors returned in order by a sequence of [Put] calls. *)
Definition kvsrv_puts (kv : KVServer) (l : list PutArgs) : list Err := snd (cs_puts kv l).

(** ** The model *)

(** The model state of one key: an absent key is an empty value at version 0. *)
Definition model_state (m : kvmap) (k : string) : KvState :=
  mkKvState (value_of m k) (version_of m k).

Lemma kvsrv_handle_key kv r k :
  ki_Key (snd (kvsrv_handle kv r)).1 <> k ->
  model_state (kvs_data (fst (kvsrv_handle kv r))) k = model_state (kvs_data kv) k.
Proof.
  destruct r as [a|a]; simpl; [done|].
  pose proof (kvsrv_Put_spec kv a PutReply_zero) as [Hv Hr].
  destruct (kvsrv_Put kv a PutReply_zero) as [kv' rep]. simpl in *. intros Hk.
  unfold model_state, value_of, version_of. rewrite Hv, spec_put_other by done. done.
Qed.

(** One request on its own key: the model accepts the operation and follows
    the server, except for a put answered [ErrNoKey]. *)
Lemma kvsrv_handle_step kv r :
  let '(kv', op) := kvsrv_handle kv r in
  let '(b, st') := KvModel_Step (model_state (kvs_data kv) (ki_Key op.1)) op.1 op.2 in
  b = negb (put_nokey op) /\ st' = Some (model_state (kvs_data kv') (ki_Key op.1)).
Proof.
  destruct r as [a|a]; simpl.
  - unfold KvModel_Step, put_nokey. simpl. split; [|done]. apply bool_decide_eq_true_2.
    unfold kvsrv_Get, value_of. by destruct (kvs_data kv !! ga_Key a).
  - pose proof (kvsrv_Put_spec kv a PutReply_zero) as [Hv Hr].
    destruct (kvsrv_Put kv a PutReply_zero) as [kv' [e]]. simpl in *. subst e.
    unfold KvModel_Step, put_nokey, model_state, value_of, version_of. simpl. rewrite Hv.
    unfold spec_put. destruct (kvs_data kv !! pa_Key a) as [e|] eqn:He; simpl.
    + destruct (decide (Version e = pa_Version a)); simpl;
        rewrite ?lookup_insert_eq, ?He; simpl; done.
    + destruct (decide (pa_Version a = 0%N)) as [Hz|Hz]; simpl.
      * rewrite decide_True by done. rewrite lookup_insert_eq. simpl. done.
      * rewrite decide_False by done. rewrite He. done.
Qed.

Definition on_key (k : string) (op : Operation) : Prop := ki_Key op.1 = k.
#[global] Instance on_key_dec k op : Decision (on_key k op).
Proof. unfold on_key. apply _. Defined.

Lemma kvsrv_accepts_key l : forall kv k,
  KvModel_accepts (model_state (kvs_data kv) k) (filter (on_key k) (kvsrv_history kv l)) =
  forallb (fun op => negb (put_nokey op)) (filter (on_key k) (kvsrv_history kv l)).
Proof.
  induction l as [|r l IH]; intros kv k; [done|]. simpl.
  pose proof (kvsrv_handle_step kv r) as Hstep.
  pose proof (kvsrv_handle_key kv r k) as Hkey.
  destruct (kvsrv_handle kv r) as [kv' [inp out]] eqn:E. simpl in *.
  rewrite filter_cons. destruct (decide (on_key k (inp, out))) as [Hk|Hk].
  - unfold on_key in Hk. simpl in Hk. rewrite Hk in Hstep. simpl.
    destruct (KvModel_Step _ inp out) as [b st']. destruct Hstep as [-> ->].
    destruct (put_nokey (inp, out)); simpl; [done|]. apply IH.
  - rewrite <- Hkey by done. apply IH.
Qed.

(** ** Partitioning by key *)

Lemma partition_lookup l : forall (m : gmap string (list Operation)) k,
  default [] (foldl (fun (m : gmap string (list Operation)) v =>
    <[ki_Key v.1 := default [] (m !! ki_Key v.1) ++ [v]]> m) m l !! k) =
  default [] (m !! k) ++ filter (on_key k) l.
Proof.
  induction l as [|v l IH]; intros m k; simpl; [by rewrite app_nil_r|].
  rewrite IH, filter_cons. unfold on_key at 2.
  destruct (decide (ki_Key v.1 = k)) as [<-|Hk].
  - rewrite lookup_insert_eq. simpl. by rewrite <- app_assoc.
  - by rewrite lookup_insert_ne.
Qed.

Lemma partition_keys l : forall (m : gmap string (list Operation)) k,
  is_Some (foldl (fun (m : gmap string (list Operation)) v =>
    <[ki_Key v.1 := default [] (m !! ki_Key v.1) ++ [v]]> m) m l !! k) <->
  is_Some (m !! k) \/ exists v, v ∈ l /\ ki_Key v.1 = k.
Proof.
  induction l as [|v l IH]; intros m k; simpl.
  - split; [by left|]. intros [?|(v & Hv & _)]; [done|]. by apply not_elem_of_nil in Hv.
  - rewrite IH. destruct (decide (ki_Key v.1 = k)) as [<-|Hk].
    + rewrite lookup_insert_eq. split; [intros _|by left; eauto].
      right. exists v. by split; [left|].
    + rewrite lookup_insert_ne by done. split; intros [?|(w & Hw & Hwk)]; auto.
      * right. exists w. by split; [right|].
      * right. apply elem_of_cons in Hw as [->|Hw]; [done|eauto].
Qed.

Lemma KvModel_Partition_elem h p :
  p ∈ KvModel_Partition h <-> exists v, v ∈ h /\ p = filter (on_key (ki_Key v.1)) h.
Proof.
  unfold KvModel_Partition. rewrite list_elem_of_fmap.
  setoid_rewrite merge_sort_Permutation. setoid_rewrite list_elem_of_fmap.
  split.
  - intros (k & -> & [k' l] & -> & Hk%elem_of_map_to_list). simpl in *.
    pose proof (proj1 (partition_keys h ∅ k') (ltac:(eauto))) as [[? Hn]|(v & Hv & <-)].
    { by rewrite lookup_empty in Hn. }
    exists v. split; [done|]. rewrite partition_lookup. done.
  - intros (v & Hv & ->). exists (ki_Key v.1). split.
    { by rewrite partition_lookup. }
    destruct (proj2 (partition_keys h ∅ (ki_Key v.1))) as [q Hq]; [eauto|].
    exists (ki_Key v.1, q). split; [done|]. by apply elem_of_map_to_list.
Qed.

(** ** Properties *)

(** C16. Every history of the single server, partitioned by key as the checker
    does, is accepted by the checker's sequential model if and only if no
    [Put] in it was answered [ErrNoKey]. *)
Theorem kvsrv_history_linearizable (l : list request) :
  Forall (fun p => KvModel_accepts KvModel_Init p = true)
    (KvModel_Partition (kvsrv_history MakeKVServer l)) <->
  Forall (fun op => put_nokey op = false) (kvsrv_history MakeKVServer l).
Proof.
  assert (forall k, model_state (kvs_data MakeKVServer) k = KvModel_Init) as Hinit.
  { intros k. unfold model_state, value_of, version_of. simpl. by rewrite lookup_empty. }
  pose proof (kvsrv_accepts_key l MakeKVServer) as Hacc. setoid_rewrite Hinit in Hacc.
  rewrite !Forall_forall. setoid_rewrite KvModel_Partition_elem. split.
  - intros Hall op Hop. specialize (Hall _ (ex_intro _ op (conj Hop eq_refl))).
    rewrite Hacc, forallb_forall in Hall. apply negb_true_iff, Hall.
    apply list_elem_of_In, list_elem_of_filter. done.
  - intros Hall p (v & Hv & ->). rewrite Hacc. apply forallb_forall.
    intros op Hop%list_elem_of_In. apply list_elem_of_filter in Hop as [_ Hop].
    by rewrite Hall.
Qed.

(** Version numbers fence concurrent writers: in any run of fewer than
    [2^64] puts, of two successful puts to one key the later one named the
    strictly larger version, so no version of a key is consumed twice. *)
Lemma kvsrv_put_version_once (l : list PutArgs) i j a b
    (Hlen : (N.of_nat (length l) < two64)%N)
    (Hij : i < j) (Ha : l !! i = Some a) (Hb : l !! j = Some b)
    (Hkey : pa_Key a = pa_Key b)
    (Hi : kvsrv_puts MakeKVServer l !! i = Some OK)
    (Hj : kvsrv_puts MakeKVServer l !! j = Some OK) :
  (pa_Version a < pa_Version b)%N.
Proof.
  refine (cs_puts_ok_increasing l MakeKVServer 0 i j a b Hlen _ Hij Ha Hb Hkey Hi Hj).
  intros k e He. simpl in He. by rewrite lookup_empty in He.
Qed.

Lemma kvsrv_put_version_once_witness :
  exists (l : list PutArgs) (a b : PutArgs),
    l !! 0 = Some a /\ l !! 1 = Some b /\ (pa_Version a < pa_Version b)%N.
Proof.
  exists [mkPutArgs "k" "x" 0 0 0 0; mkPutArgs "k" "y" 1 0 0 0],
    (mkPutArgs "k" "x" 0 0 0 0), (mkPutArgs "k" "y" 1 0 0 0).
  split; [reflexivity|]. split; [reflexivity|].
  apply (kvsrv_put_version_once
    [mkPutArgs "k" "x" 0 0 0 0; mkPutArgs "k" "y" 1 0 0 0] 0 1);
    vm_compute; auto.
Defined.
