(* ===== verification/Dedup.v ===== *)
(** * Request de-duplication ([kvraft1/dedup/dedup.go])

    [Client] numbers the writes of one clerk and tracks which of them are
    completed; [Table] is the replicated table that remembers the replies.  The
    theorem composes the two over a network that may lose, delay, reorder and
    duplicate requests: every write executes at most once, and every answer to a
    write that is still active is the answer of its one execution. *)

From S2P Require Import Prelude.
From S2P Require Import Rpc.

(** ** The client side *)

Record Client : Type := mkClient {
  dc_id : N;
  dc_next : N;
  dc_ack : N;
  dc_completed : gomap N bool;
}.

(** The zero value of the Go struct. *)
Definition Client_zero : Client := mkClient 0 0 0 None.

(** The identity of a put. *)
Definition put_id (a : PutArgs) : N * N := (pa_ClientID a, pa_Sequence a).

(** [for c.id == 0 { rand.Read ... }] on a stream of random words. *)
Fixpoint draw_id (id : N) (random : list N) : option N :=
  if (id =? 0)%N then
    match random with
    | [] => None
    | r :: random' => draw_id r random'
    end
  else Some id.

(** [None] is the panic on exhausted sequence numbers (or no usable random
    word among those given). *)
Definition Begin (random : list N) (c : Client) : option (Client * (N * N)) :=
  id ← draw_id (dc_id c) random;
  let next := u64_inc (dc_next c) in
  if (next =? 0)%N then None
  else Some (mkClient id next (dc_ack c) (dc_completed c), (id, next)).

Definition Client_Ack (c : Client) : N := dc_ack c.

(** [for c.completed[c.ack+1] { c.ack++; delete(c.completed, c.ack) }]; every
    round removes a key, so the size of the map bounds the rounds. *)
Fixpoint complete_loop (fuel : nat) (ack : N) (completed : gmap N bool) : N * gmap N bool :=
  match fuel with
  | O => (ack, completed)
  | S fuel' =>
      if default false (completed !! u64_inc ack)
      then complete_loop fuel' (u64_inc ack) (delete (u64_inc ack) completed)
      else (ack, completed)
  end.

Definition Complete (sequence : N) (c : Client) : Client :=
  if (sequence <=? dc_ack c)%N then c
  else
    let completed := <[sequence := true]> (default ∅ (dc_completed c)) in
    let '(ack, completed') := complete_loop (size completed) (dc_ack c) completed in
    mkClient (dc_id c) (dc_next c) ack (Some completed').

(** ** The table *)

Record Session : Type := mkSession { ss_Ack : N; ss_Replies : gomap N PutReply }.

Record Table : Type := mkTable { Sessions : gomap N Session }.

Definition Table_zero : Table := mkTable None.

(** The replies above the watermark. *)
Definition prune (ack : N) (replies : gomap N PutReply) : gomap N PutReply :=
  filter (fun p => ~ (p.1 <= ack)%N) <$> replies.

(** [Table.Do]; [apply] runs the write on the state [St] of the caller and may
    panic, as the method may (a [nil] map of replies). *)
Definition Table_Do {St} (t : Table) (args : PutArgs) (apply : St -> option (St * PutReply)) (s : St)
    : option (Table * St * PutReply) :=
  if (pa_ClientID args =? 0)%N then '(s', reply) ← apply s; Some (t, s', reply)
  else if (pa_Sequence args =? 0)%N || (pa_Sequence args <=? pa_Ack args)%N
  then Some (t, s, mkPutReply ErrStaleRequest)
  else
    let sessions := default ∅ (Sessions t) in
    let session0 := default (mkSession 0 map_make) (sessions !! pa_ClientID args) in
    let session := if (ss_Ack session0 <? pa_Ack args)%N
                   then mkSession (pa_Ack args) (prune (pa_Ack args) (ss_Replies session0))
                   else session0 in
    let table ses := mkTable (Some (<[pa_ClientID args := ses]> sessions)) in
    if (pa_Sequence args <=? ss_Ack session)%N
    then Some (table session, s, mkPutReply ErrStaleRequest)
    else
      match map_get (ss_Replies session) (pa_Sequence args) with
      | Some reply => Some (table session, s, reply)
      | None =>
          '(s', reply) ← apply s;
          replies ← map_set (ss_Replies session) (pa_Sequence args) reply;
          Some (table (mkSession (ss_Ack session) replies), s', reply)
      end.

(** ** The client's watermark *)

(** [done] are the completed sequence numbers. *)
Record client_inv (c : Client) (done : gset N) : Prop := {
  ci_next : (dc_next c < two64)%N;
  ci_done : forall s, s ∈ done -> (1 <= s <= dc_next c)%N;
  ci_ack : forall s, (1 <= s <= dc_ack c)%N -> s ∈ done;
  ci_gap : (dc_ack c + 1)%N ∉ done;
  ci_map : forall s, default ∅ (dc_completed c) !! s =
    if decide (s ∈ done /\ (dc_ack c < s)%N) then Some true else None;
}.

Lemma client_inv_zero : client_inv Client_zero ∅.
Proof.
  constructor; simpl.
  - done.
  - intros s Hs. by apply elem_of_empty in Hs.
  - intros s ?. lia.
  - apply not_elem_of_empty.
  - intros s. rewrite lookup_empty, decide_False; [done|]. intros [Hs _]. by apply elem_of_empty in Hs.
Qed.

Lemma client_ack_next c done : client_inv c done -> (dc_ack c <= dc_next c)%N.
Proof.
  intros [? Hd Ha _ _]. destruct (decide (dc_ack c = 0)%N) as [->|]; [lia|].
  apply Hd, Ha. lia.
Qed.

(** A sequence number that was handed out and is not completed is above the
    watermark. *)
Lemma client_active_above c done s :
  client_inv c done -> (1 <= s)%N -> s ∉ done -> (dc_ack c < s)%N.
Proof.
  intros HI Hs Hn. destruct (decide (dc_ack c < s)%N) as [|Hle]; [done|].
  destruct Hn. apply (ci_ack _ _ HI). lia.
Qed.

Lemma draw_id_spec random : forall j i,
  draw_id j random = Some i -> i <> 0%N /\ (j <> 0%N -> i = j).
Proof.
  induction random as [|r random IH]; intros j i Hi; simpl in Hi.
  - destruct (N.eqb_spec j 0); [done|]. by injection Hi as <-.
  - destruct (N.eqb_spec j 0) as [->|]; [|by injection Hi as <-].
    split; [by apply (IH r)|done].
Qed.

Lemma Begin_inv random c c' id s done :
  client_inv c done -> Begin random c = Some (c', (id, s)) ->
  client_inv c' done /\ s = dc_next c' /\ dc_next c' = (dc_next c + 1)%N /\ (s ∉ done) /\
  dc_ack c' = dc_ack c /\ dc_id c' = id /\ id <> 0%N /\ (dc_id c <> 0%N -> id = dc_id c).
Proof.
  intros [Hn Hd Ha Hg Hm] H. unfold Begin in H. apply bind_Some in H as (i & Hi & H).
  destruct (N.eqb_spec (u64_inc (dc_next c)) 0) as [|Hz]; [done|]. injection H as <- <- <-.
  assert (dc_next c + 1 < two64)%N as Hb.
  { destruct (decide (dc_next c + 1 < two64)%N) as [|Hge]; [done|]. destruct Hz.
    unfold u64_inc, u64_add. assert (dc_next c + 1 = two64)%N as -> by lia. apply N.Div0.mod_same. }
  rewrite u64_inc_small by done. simpl.
  assert (i <> 0%N /\ (dc_id c <> 0%N -> i = dc_id c)) as [Hi0 Hi1].
  { by eapply draw_id_spec. }
  split_and!; auto.
  - constructor; simpl; auto. intros s Hs. apply Hd in Hs. lia.
  - intros Hs. apply Hd in Hs. lia.
Qed.

(** The loop leaves the first gap right above the watermark. *)
Lemma complete_loop_spec fuel : forall ack m (done : gset N) next,
  size m <= fuel -> (next < two64)%N -> (forall s, s ∈ done -> (1 <= s <= next)%N) ->
  (forall s, (1 <= s <= ack)%N -> s ∈ done) ->
  (forall s, m !! s = if decide (s ∈ done /\ (ack < s)%N) then Some true else None) ->
  let '(ack', m') := complete_loop fuel ack m in
  (ack <= ack')%N /\ (forall s, (1 <= s <= ack')%N -> s ∈ done) /\ ((ack' + 1)%N ∉ done) /\
  (forall s, m' !! s = if decide (s ∈ done /\ (ack' < s)%N) then Some true else None).
Proof.
  induction fuel as [|fuel IH]; intros ack m done next Hf Hn Hd Ha Hm; simpl.
  - split; [lia|]. split; [done|]. split; [|done]. intros Hin.
    assert (m = ∅) as -> by (apply map_size_empty_inv; lia).
    specialize (Hm (ack + 1)%N). rewrite lookup_empty, decide_True in Hm by (split; [done|lia]). done.
  - destruct (decide ((ack + 1)%N ∈ done)) as [Hin|Hout].
    + assert (ack + 1 < two64)%N by (apply Hd in Hin; lia).
      rewrite u64_inc_small by done.
      assert (m !! (ack + 1)%N = Some true) as Hl by (rewrite Hm, decide_True; [done|split; [done|lia]]).
      rewrite Hl. simpl.
      specialize (IH (ack + 1)%N (delete (ack + 1)%N m) done next).
      destruct (complete_loop fuel (ack + 1) (delete (ack + 1)%N m)) as [ack' m'].
      destruct IH as (H1 & H2 & H3 & H4); auto.
      * rewrite map_size_delete, Hl. lia.
      * intros s Hs. destruct (decide (s = ack + 1)%N) as [->|]; [done|]. apply Ha. lia.
      * intros s. rewrite lookup_delete. case_decide as Hs.
        { subst s. rewrite decide_False; [done|]. intros [_ ?]. lia. }
        rewrite Hm. apply decide_ext. intuition lia.
      * split_and!; auto. lia.
    + assert (m !! u64_inc ack = None) as ->.
      { rewrite Hm. apply decide_False. intros [Hin Hlt].
        destruct (decide (ack + 1 < two64)%N) as [Hb|Hb].
        - rewrite u64_inc_small in Hin by done. done.
        - pose proof (Hd _ Hin). pose proof (u64_inc_bound ack). unfold u64_inc, u64_add in *.
          lia. }
      simpl. split; [lia|]. by split_and!.
Qed.

Lemma Complete_inv s c done :
  client_inv c done -> (1 <= s <= dc_next c)%N ->
  client_inv (Complete s c) ({[s]} ∪ done) /\ dc_id (Complete s c) = dc_id c /\
  dc_next (Complete s c) = dc_next c /\ (dc_ack c <= dc_ack (Complete s c))%N.
Proof.
  intros HI Hs. unfold Complete. destruct (N.leb_spec s (dc_ack c)) as [Hle|Hgt].
  - assert (s ∈ done) by (apply (ci_ack _ _ HI); lia).
    assert ({[s]} ∪ done = done) as -> by set_solver. split_and!; auto; lia.
  - destruct HI as [Hn Hd Ha Hg Hm].
    pose proof (complete_loop_spec (size (<[s:=true]> (default ∅ (dc_completed c)))) (dc_ack c)
      (<[s:=true]> (default ∅ (dc_completed c))) ({[s]} ∪ done) (dc_next c)) as H.
    destruct (complete_loop _ _ _) as [ack' m'].
    destruct H as (H1 & H2 & H3 & H4); simpl; auto.
    + intros x. rewrite elem_of_union, elem_of_singleton. intros [->|Hx]; [done|by apply Hd].
    + intros x Hx. apply elem_of_union_r. by apply Ha.
    + intros x. rewrite lookup_insert. case_decide as Hx.
      { subst x. rewrite decide_True; [done|]. split; [set_solver|done]. }
      rewrite Hm. apply decide_ext. set_solver.
    + split_and!; auto. constructor; simpl; auto.
      intros x. rewrite elem_of_union, elem_of_singleton. intros [->|Hx]; [done|by apply Hd].
Qed.

(** ** The table *)

Section table.
Context {St : Type} (apply : PutArgs -> St -> option (St * PutReply)).

(** The state of the caller with a log of the executions: client, sequence number
    and reply. *)
Definition logged : Type := St * list (N * N * PutReply).

Definition apply_logged (args : PutArgs) (s : logged) : option (logged * PutReply) :=
  '(s', r) ← apply args s.1;
  Some ((s', s.2 ++ [(pa_ClientID args, pa_Sequence args, r)]), r).

(** The log of client [id], as pairs of sequence number and reply. *)
Definition own (id : N) (log : list (N * N * PutReply)) : list (N * PutReply) :=
  (fun e => (e.1.2, e.2)) <$> filter (fun e => e.1.1 = id) log.

Definition session_of (t : Table) (id : N) : Session :=
  default (mkSession 0 map_make) (default ∅ (Sessions t) !! id).

Lemma own_snoc id log i s r :
  own id (log ++ [(i, s, r)]) = own id log ++ (if decide (i = id) then [(s, r)] else []).
Proof.
  unfold own. rewrite filter_app, fmap_app. f_equal.
  rewrite filter_cons. simpl. by case_decide.
Qed.

(** A session against the executions of its client: everything above the
    watermark is remembered, with its reply. *)
Definition session_ok (ses : Session) (execs : list (N * PutReply)) : Prop :=
  exists replies, ss_Replies ses = Some replies /\ NoDup execs.*1 /\
    (forall s r, replies !! s = Some r -> (s, r) ∈ execs) /\
    (forall s r, (s, r) ∈ execs -> (ss_Ack ses < s)%N -> replies !! s = Some r).

Lemma prune_ok ack ses execs :
  (ss_Ack ses < ack)%N -> session_ok ses execs ->
  session_ok (mkSession ack (prune ack (ss_Replies ses))) execs.
Proof.
  intros Hlt (replies & Hr & Hnd & H1 & H2).
  exists (filter (fun p => ~ (p.1 <= ack)%N) replies). simpl. rewrite Hr. split_and!; auto.
  - intros s r (Hs & _)%map_lookup_filter_Some. auto.
  - intros s r Hin Hs. apply map_lookup_filter_Some. simpl. split; [|lia]. apply H2; [done|lia].
Qed.

(** One call of [Do] for client [id]. *)
Lemma Table_Do_own t args s t' s' r id :
  id <> 0%N -> pa_ClientID args = id -> session_ok (session_of t id) (own id s.2) ->
  Table_Do t args (apply_logged args) s = Some (t', s', r) ->
  session_ok (session_of t' id) (own id s'.2) /\
  (ss_Ack (session_of t' id) <= N.max (ss_Ack (session_of t id)) (pa_Ack args))%N /\
  (forall x, x ∈ own id s.2 -> x ∈ own id s'.2) /\
  (s'.2 = s.2 \/ exists r', s'.2 = s.2 ++ [(id, pa_Sequence args, r')]) /\
  ((pa_Ack args < pa_Sequence args)%N -> (ss_Ack (session_of t id) < pa_Sequence args)%N ->
   (pa_Sequence args, r) ∈ own id s'.2).
Proof.
  intros Hid Hc Hok H. unfold Table_Do in H. rewrite Hc in H.
  destruct (N.eqb_spec id 0) as [|_]; [done|].
  destruct (_ || _) eqn:Hst.
  { injection H as <- <- <-. split_and!; auto; [lia|]. intros ? ?.
    apply orb_true_iff in Hst as [?%N.eqb_eq|?%N.leb_le]; lia. }
  set (ses := if (ss_Ack (session_of t id) <? pa_Ack args)%N
              then mkSession (pa_Ack args) (prune (pa_Ack args) (ss_Replies (session_of t id)))
              else session_of t id).
  change (default _ (_ !! id)) with (session_of t id) in H. fold ses in H.
  assert (session_ok ses (own id s.2) /\ ss_Ack ses = N.max (ss_Ack (session_of t id)) (pa_Ack args)) as [Hok' Hack].
  { unfold ses. destruct (N.ltb_spec (ss_Ack (session_of t id)) (pa_Ack args)).
    - split; [by apply prune_ok|simpl; lia].
    - split; [done|lia]. }
  clearbody ses.
  assert (forall x, session_of (mkTable (Some (<[id:=x]> (default ∅ (Sessions t))))) id = x) as Hses.
  { intros x. unfold session_of. simpl. by rewrite lookup_insert_eq. }
  destruct (N.leb_spec (pa_Sequence args) (ss_Ack ses)).
  { injection H as <- <- <-. rewrite Hses. split_and!; auto; lia. }
  destruct Hok' as (replies & Hr & Hnd & H1 & H2). rewrite Hr in H. simpl in H.
  destruct (replies !! pa_Sequence args) as [reply|] eqn:Hl.
  { injection H as <- <- <-. rewrite Hses. split_and!; auto; [|lia]. by exists replies. }
  apply bind_Some in H as ([s1 reply] & Ha & H). simpl in H. injection H as <- <- <-.
  unfold apply_logged in Ha. apply bind_Some in Ha as ([s2 r2] & Ha & Hx). injection Hx as <- <-.
  simpl. rewrite Hses, Hc, own_snoc, decide_True by done. simpl. split_and!; [|lia| | |].
  - exists (<[pa_Sequence args := r2]> replies). simpl. split_and!; auto.
    + rewrite fmap_app. simpl. apply NoDup_app. split_and!; [done| |apply NoDup_singleton].
      intros x ([sy ry] & Hx & Hy)%list_elem_of_fmap Hs%list_elem_of_singleton. simpl in Hx. subst x sy.
      apply H2 in Hy; [congruence|done].
    + intros x rx [[<- <-]|[? Hx]]%lookup_insert_Some; apply elem_of_app; [right; left|left; auto].
    + intros x rx [Hin|[= -> ->]%list_elem_of_singleton]%elem_of_app Hlt; [|by rewrite lookup_insert_eq].
      rewrite lookup_insert_ne; [auto|]. intros <-. apply H2 in Hin; [|done]. congruence.
  - intros x Hx. apply elem_of_app. by left.
  - right. by exists r2.
  - intros _ _. apply elem_of_app. right. left.
Qed.

(** A call for another client leaves this one alone. *)
Lemma Table_Do_other t args s t' s' r id :
  pa_ClientID args <> id -> id <> 0%N ->
  Table_Do t args (apply_logged args) s = Some (t', s', r) ->
  session_of t' id = session_of t id /\ own id s'.2 = own id s.2.
Proof.
  intros Hne Hid H. unfold Table_Do in H.
  assert (forall s1 r1, apply_logged args s = Some (s1, r1) -> own id s1.2 = own id s.2) as Hown.
  { intros s1 r1 Ha. unfold apply_logged in Ha. apply bind_Some in Ha as ([s2 r2] & Ha & Hx).
    injection Hx as <- <-. simpl. by rewrite own_snoc, decide_False, app_nil_r. }
  assert (forall x, session_of (mkTable (Some (<[pa_ClientID args:=x]> (default ∅ (Sessions t))))) id = session_of t id)
    as Hses.
  { intros x. unfold session_of. simpl. by rewrite lookup_insert_ne. }
  destruct (_ =? 0)%N.
  { apply bind_Some in H as ([s1 r1] & Ha & H). injection H as <- <- <-. eauto. }
  destruct (_ || _); [by injection H as <- <- <-|].
  destruct (_ <=? _)%N; [by injection H as <- <- <-; rewrite Hses|].
  destruct (map_get _ _); [by injection H as <- <- <-; rewrite Hses|].
  apply bind_Some in H as ([s1 r1] & Ha & H). apply bind_Some in H as (m & Hm & H).
  injection H as <- <- <-. rewrite Hses. eauto.
Qed.
End table.

(** ** Client and table together *)

Section world.
Context {St : Type} (apply : PutArgs -> St -> option (St * PutReply)).
Context (id : N).

(** The client, its completed writes, the requests it ever sent (each can be
    delivered any number of times, at any later time), and the server. *)
Record world : Type := mkWorld {
w_client : Client;
w_done : gset N;
w_sent : list PutArgs;
w_table : Table;
w_state : @logged St;
}.

(** A write that was begun and is not completed. *)
Definition active (w : world) (s : N) : Prop :=
  (1 <= s <= dc_next (w_client w))%N /\ (s ∉ w_done w).

Inductive world_step (w : world) : world -> Prop :=
| W_begin random c' s : Begin random (w_client w) = Some (c', (id, s)) ->
    world_step w (mkWorld c' (w_done w) (w_sent w) (w_table w) (w_state w))
| W_send args : pa_ClientID args = dc_id (w_client w) -> active w (pa_Sequence args) ->
    pa_Ack args = Client_Ack (w_client w) ->
    world_step w (mkWorld (w_client w) (w_done w) (args :: w_sent w) (w_table w) (w_state w))
| W_deliver args t' s' r : args ∈ w_sent w ->
    Table_Do (w_table w) args (apply_logged apply args) (w_state w) = Some (t', s', r) ->
    world_step w (mkWorld (w_client w) (w_done w) (w_sent w) t' s')
| W_other args t' s' r : pa_ClientID args <> id ->
    Table_Do (w_table w) args (apply_logged apply args) (w_state w) = Some (t', s', r) ->
    world_step w (mkWorld (w_client w) (w_done w) (w_sent w) t' s')
| W_complete s : active w s ->
    world_step w (mkWorld (Complete s (w_client w)) ({[s]} ∪ w_done w) (w_sent w) (w_table w) (w_state w)).

(** A fresh client with a random [id] no other client uses. *)
Definition world_init (w : world) : Prop :=
  id <> 0%N /\ w_client w = Client_zero /\ w_done w = ∅ /\ w_sent w = [] /\
  default ∅ (Sessions (w_table w)) !! id = None /\ own id (w_state w).2 = [].

Record world_inv (w : world) : Prop := {
wi_id0 : id <> 0%N;
wi_client : client_inv (w_client w) (w_done w);
wi_id : dc_id (w_client w) = id \/ dc_next (w_client w) = 0%N;
wi_sent : Forall (fun a => pa_ClientID a = id /\ (pa_Ack a < pa_Sequence a)%N /\
  (pa_Ack a <= dc_ack (w_client w))%N /\ (1 <= pa_Sequence a <= dc_next (w_client w))%N) (w_sent w);
wi_session : session_ok (session_of (w_table w) id) (own id (w_state w).2);
wi_ack : (ss_Ack (session_of (w_table w) id) <= dc_ack (w_client w))%N;
}.

Lemma world_inv_init w : world_init w -> world_inv w.
Proof.
  intros (Hid & Hc & Hd & Hs & Ht & Hl). constructor; rewrite ?Hc, ?Hd, ?Hs, ?Hl; auto.
  - apply client_inv_zero.
  - unfold session_of. rewrite Ht. simpl. exists ∅. split_and!; try done.
    + apply NoDup_nil_2.
    + intros s r Hx. by apply not_elem_of_nil in Hx.
  - unfold session_of. by rewrite Ht.
Qed.

Lemma world_inv_step w w' : world_inv w -> world_step w w' -> world_inv w'.
Proof.
  intros [Hid Hc Hi Hs Hses Hack] Hw. destruct Hw as [? c' s H|args H1 [H2 H3] H4|args t' s' r H1 H|args t' s' r H1 H|s [H1 H2]];
    constructor; simpl; auto.
  - by eapply Begin_inv in H as (? & _).
  - eapply Begin_inv in H as (_ & _ & _ & _ & _ & ? & _); [|done]. by left.
  - eapply Begin_inv in H as (_ & _ & Hn & _ & Ha & _); [|done]. rewrite Hn, Ha.
    eapply Forall_impl; [exact Hs|]. simpl. intros a (? & ? & ? & ?). split_and!; auto; lia.
  - eapply Begin_inv in H as (_ & _ & _ & _ & -> & _); done.
  - constructor; [|done]. unfold Client_Ack in H4. split_and!; auto; try lia.
    rewrite H4. eapply client_active_above; [done|lia|done].
  - rewrite Forall_forall in Hs. apply Hs in H1 as (Hcl & Hlt & Hle & _).
    by eapply Table_Do_own in H as (? & _).
  - rewrite Forall_forall in Hs. apply Hs in H1 as (Hcl & Hlt & Hle & _).
    eapply (Table_Do_own _ _ _ _ _ _ _ id) in H as (_ & ? & _); [lia|done..].
  - eapply Table_Do_other in H as [-> ->]; done.
  - eapply Table_Do_other in H as [-> _]; done.
  - eapply Complete_inv in Hc as (? & _); done.
  - eapply Complete_inv in Hc as (_ & -> & -> & _); done.
  - eapply Complete_inv in Hc as (_ & _ & -> & Ha); [|done].
    eapply Forall_impl; [exact Hs|]. simpl. intros a (? & ? & ? & ?). split_and!; auto; lia.
  - eapply Complete_inv in Hc as (_ & _ & _ & Ha); [|done]. lia.
Qed.

(** C15. Exactly-once writes: however requests are lost, delayed, reordered or
    duplicated between a clerk and the replicated table, and whatever other
    clients do meanwhile, each write of the clerk executes at most once; and an
    answer to a write the clerk still waits for is the reply of its one
    execution, never a refusal of the watermark. *)
Theorem dedup_exactly_once w0 w args t' s' r :
  world_init w0 -> rtc world_step w0 w -> args ∈ w_sent w ->
  Table_Do (w_table w) args (apply_logged apply args) (w_state w) = Some (t', s', r) ->
  NoDup (own id s'.2).*1 /\
  (forall s x, (s, x) ∈ own id (w_state w).2 -> (s, x) ∈ own id s'.2) /\
  (active w (pa_Sequence args) -> (pa_Sequence args, r) ∈ own id s'.2).
Proof.
  intros H0 Hr Hin H.
  assert (world_inv w) as [Hid Hc _ Hs Hses Hack].
  { eapply (invariant_rtc world_step world_inv); [apply world_inv_step|done|by apply world_inv_init]. }
  rewrite Forall_forall in Hs. apply Hs in Hin as (Hcl & Hlt & Hle & _).
  eapply Table_Do_own in H as ((? & _ & Hnd & _) & _ & Hkeep & _ & Hans); [|done..].
  split_and!; auto. intros [Hr1 Hr2]. apply Hans; [done|].
  pose proof (client_active_above _ _ _ Hc (proj1 Hr1) Hr2). lia.
Qed.
End world.

(** ** A concrete run: client 5 begins, sends and has its write delivered *)

Definition count_puts (args : PutArgs) (n : nat) : option (nat * PutReply) := Some (S n, mkPutReply OK).

Definition ex_put : PutArgs := mkPutArgs "k" "v" 0 5 1 0.

Definition ex_world0 : @world nat := mkWorld Client_zero ∅ [] Table_zero (0, []).
Definition ex_world1 : @world nat := mkWorld (mkClient 5 1 0 None) ∅ [] Table_zero (0, []).
Definition ex_world2 : @world nat := mkWorld (mkClient 5 1 0 None) ∅ [ex_put] Table_zero (0, []).

Lemma dedup_exactly_once_witness : exists t' s' r,
  rtc (world_step count_puts 5) ex_world0 ex_world2 /\
  Table_Do Table_zero ex_put (apply_logged count_puts ex_put) (0, []) = Some (t', s', r) /\
  (1%N, r) ∈ own 5 s'.2.
Proof.
  assert (is_Some (Table_Do Table_zero ex_put (apply_logged count_puts ex_put) (0, []))) as [[[t' s'] r] H]
    by (eexists; vm_compute; reflexivity).
  assert (world_step count_puts 5 ex_world0 ex_world1) as H1.
  { apply (W_begin count_puts 5 ex_world0 [0; 5]%N (mkClient 5 1 0 None) 1). reflexivity. }
  assert (active ex_world1 1) as Ha by (split; [simpl; lia|apply not_elem_of_empty]).
  assert (world_step count_puts 5 ex_world1 ex_world2) as H2.
  { apply (W_send count_puts 5 ex_world1 ex_put); [reflexivity|exact Ha|reflexivity]. }
  assert (world_init 5 ex_world0) as H0 by (split; [lia|by split_and!]).
  assert (rtc (world_step count_puts 5) ex_world0 ex_world2) as Hr by (eapply rtc_l; [exact H1|by apply rtc_once]).
  exists t', s', r. split; [exact Hr|]. split; [exact H|].
  assert (ex_put ∈ w_sent ex_world2) as Hin by left.
  destruct (dedup_exactly_once count_puts 5 ex_world0 ex_world2 ex_put t' s' r H0 Hr Hin H) as (_ & _ & Hans).
  apply Hans. exact Ha.
Defined.
