(* ===== verification/Persister.v ===== *)
(** * Stable storage ([tester1/persister.go]) and byte-level helpers

    [Persister] keeps the Raft state bytes and the service snapshot together.
    The little-endian 64-bit fields of [encoding/binary] are defined here with
    their round trip, since both the persisted Raft state and the client
    identities are read through them. *)

From S2P Require Import Prelude.
From Stdlib Require Import Strings.Byte.

Abbreviation bytes := (list byte).

#[global] Instance byte_dec : EqDecision byte := Byte.byte_eq_dec.

(** ** [binary.LittleEndian] *)

Definition byte_of_N (n : N) : byte := default x00 (Byte.of_N (n mod 256)).

Fixpoint le_bytes (n : nat) (v : N) : bytes :=
  match n with
  | O => []
  | S n' => byte_of_N v :: le_bytes n' (v / 256)
  end.

Fixpoint le_value (b : bytes) : N :=
  match b with
  | [] => 0
  | x :: b' => (Byte.to_N x + 256 * le_value b')%N
  end.

Definition PutUint64 (v : N) : bytes := le_bytes 8 v.

(** [binary.LittleEndian.Uint64(data[off:off+8])] on the bytes from [off] on:
    the slice expression panics when fewer than 8 bytes are left. *)
Definition Uint64 (b : bytes) : option (N * bytes) :=
  if decide (8 <= length b) then Some (le_value (take 8 b), drop 8 b) else None.

Lemma byte_of_N_to_N v : Byte.to_N (byte_of_N v) = (v mod 256)%N.
Proof.
  unfold byte_of_N. pose proof (N.mod_upper_bound v 256 ltac:(done)) as Hb.
  destruct (Byte.of_N (v mod 256)) as [b|] eqn:E; simpl.
  - by apply Byte.to_of_N.
  - apply Byte.of_N_None_iff in E. lia.
Qed.

Lemma le_bytes_length n v : length (le_bytes n v) = n.
Proof. revert v. induction n as [|n IH]; intros v; simpl; [done|]. by rewrite IH. Qed.

Lemma le_value_le_bytes n : forall v, le_value (le_bytes n v) = (v mod 256 ^ N.of_nat n)%N.
Proof.
  induction n as [|n IH]; intros v; simpl le_bytes; simpl le_value.
  - by rewrite N.mod_1_r.
  - rewrite IH, byte_of_N_to_N. rewrite Nat2N.inj_succ, N.pow_succ_r'.
    rewrite N.Div0.mod_mul_r. lia.
Qed.

Lemma Uint64_PutUint64 v rest :
  (v < two64)%N -> Uint64 (PutUint64 v ++ rest) = Some (v, rest).
Proof.
  intros Hv. unfold Uint64, PutUint64.
  rewrite decide_True by (rewrite length_app, le_bytes_length; lia).
  rewrite take_app_le, take_ge by (rewrite le_bytes_length; lia).
  rewrite drop_app_ge, le_bytes_length by (rewrite le_bytes_length; lia).
  rewrite le_value_le_bytes, N.mod_small by (unfold two64 in Hv; simpl; lia).
  done.
Qed.

Lemma PutUint64_length v : length (PutUint64 v) = 8.
Proof. apply le_bytes_length. Qed.

Lemma Uint64_short b : length b < 8 -> Uint64 b = None.
Proof. intros H. unfold Uint64. by rewrite decide_False by lia. Qed.

#[global] Opaque PutUint64 Uint64.

(** ** The persister *)

Record Persister : Type := mkPersister { ps_raftstate : bytes; ps_snapshot : bytes }.

Definition MakePersister : Persister := mkPersister [] [].

(** [clone] copies a slice; the model's byte lists are values already. *)
Definition clone (orig : bytes) : bytes := orig.

Definition Persister_Checkpoint (ps : Persister) : Persister :=
  mkPersister (clone (ps_raftstate ps)) (clone (ps_snapshot ps)).

Definition ReadRaftState (ps : Persister) : bytes := clone (ps_raftstate ps).

Definition RaftStateSize (ps : Persister) : Z := zlen (ps_raftstate ps).

(** Both parts are replaced in one critical section. *)
Definition Persister_Save (ps : Persister) (raftstate snapshot : bytes) : Persister :=
  mkPersister (clone raftstate) (clone snapshot).

Definition ReadSnapshot (ps : Persister) : bytes := clone (ps_snapshot ps).

Definition SnapshotSize (ps : Persister) : Z := zlen (ps_snapshot ps).
