(* ===== verification/BitCodec.v ===== *)
(** * A concrete byte codec

    [labgob] and [encoding/json] are outside the repository, so the components
    that store bytes take their codecs as parameters with laws.  This codec
    writes the bits of a countable value behind a terminator; the examples use it
    to show that the laws can hold. *)

From S2P Require Import Prelude.
From S2P Require Import Rpc.
From S2P Require Import KvSpec.
From S2P Require Import Dedup.
From S2P Require Import Persister.
From Stdlib Require Import Strings.Byte.

Fixpoint pos_bytes (p : positive) : bytes :=
  match p with
  | xH => []
  | xO p' => x00 :: pos_bytes p'
  | xI p' => x01 :: pos_bytes p'
  end.

Fixpoint bytes_pos (bs : bytes) : positive :=
  match bs with
  | [] => xH
  | b :: bs' => if decide (b = x01) then xI (bytes_pos bs') else xO (bytes_pos bs')
  end.

Lemma bytes_pos_bytes p : bytes_pos (pos_bytes p) = p.
Proof. induction p; simpl; by rewrite ?IHp. Qed.

(** The bytes before the first [x02], and those after it. *)
Fixpoint split_mark (bs : bytes) : option (bytes * bytes) :=
  match bs with
  | [] => None
  | b :: bs' =>
      if decide (b = x02) then Some ([], bs')
      else '(l, r) ← split_mark bs'; Some (b :: l, r)
  end.

Lemma split_mark_bytes p rest : split_mark (pos_bytes p ++ x02 :: rest) = Some (pos_bytes p, rest).
Proof. induction p as [p IH|p IH|]; simpl; rewrite ?IH; done. Qed.

Section codec.
Context {A : Type} `{Countable A}.

Definition bits_encode (a : A) : bytes := pos_bytes (encode a) ++ [x02].

Definition bits_decode (bs : bytes) : option (A * bytes) :=
  '(l, rest) ← split_mark bs; a ← decode (bytes_pos l); Some (a, rest).

Lemma bits_decode_encode a rest : bits_decode (bits_encode a ++ rest) = Some (a, rest).
Proof.
  unfold bits_decode, bits_encode. rewrite <- app_assoc. simpl. rewrite split_mark_bytes. simpl.
  by rewrite bytes_pos_bytes, decode_encode.
Qed.

Lemma bits_encode_nonempty a : bits_encode a <> [].
Proof. unfold bits_encode. by destruct (pos_bytes (encode a)). Qed.
End codec.

(** ** Countable data *)

#[global] Instance entry_countable : Countable entry.
Proof. apply (inj_countable' (fun e => (Value e, Version e)) (fun x => mkEntry x.1 x.2)). by intros []. Defined.

Definition Err_code (e : Err) : nat :=
  match e with
  | ErrNone => 0 | OK => 1 | ErrNoKey => 2 | ErrVersion => 3
  | ErrMaybe => 4 | ErrWrongLeader => 5 | ErrWrongGroup => 6 | ErrStaleRequest => 7
  end.

Definition Err_uncode (n : nat) : Err :=
  match n with
  | 1 => OK | 2 => ErrNoKey | 3 => ErrVersion | 4 => ErrMaybe
  | 5 => ErrWrongLeader | 6 => ErrWrongGroup | 7 => ErrStaleRequest | _ => ErrNone
  end.

#[global] Instance Err_countable : Countable Err.
Proof. apply (inj_countable' Err_code Err_uncode). by intros []. Defined.

#[global] Instance PutReply_countable : Countable PutReply.
Proof. apply (inj_countable' pr_Err mkPutReply). by intros []. Defined.

#[global] Instance Session_eq_dec : EqDecision Session.
Proof. solve_decision. Defined.

#[global] Instance Session_countable : Countable Session.
Proof. apply (inj_countable' (fun s => (ss_Ack s, ss_Replies s)) (fun x => mkSession x.1 x.2)). by intros []. Defined.

#[global] Instance Table_eq_dec : EqDecision Table.
Proof. solve_decision. Defined.

#[global] Instance Table_countable : Countable Table.
Proof. apply (inj_countable' Sessions mkTable). by intros []. Defined.
