(* ===== verification/Labrpc.v ===== *)
(** * The simulated network ([labrpc/labrpc.go])

    The channel-based RPC package all components talk through.  The first part are
    the tables of a [Network], a [Server] and a [Service] and every method on them;
    the second the goroutines of one RPC ([processReq]) as a state machine whose
    transitions are the critical sections, with every random draw and every delay an
    event of its own; the third all RPCs side by side.  [LabrpcSafe] has the theorems. *)

From S2P Require Import Prelude.
From S2P Require Import Persister.
From Stdlib Require Import Strings.Ascii.

(** ** Counters *)

(** [atomic.AddInt32] and [atomic.AddInt64]. *)
Definition AddInt32 (x d : Z) : Z := ((x + d + 2 ^ 31) mod 2 ^ 32 - 2 ^ 31)%Z.

Definition AddInt64 (x d : Z) : Z := ((x + d + 2 ^ 63) mod 2 ^ 64 - 2 ^ 63)%Z.

(** [strings.LastIndex(s, ".")] and the two slices around it; [None] where the slice
    expression panics because there is no dot. *)
Fixpoint split_last_dot (s : string) : option (string * string) :=
  match s with
  | EmptyString => None
  | String c s' =>
      match split_last_dot s' with
      | Some (a, b) => Some (String c a, b)
      | None => if decide (c = "."%char) then Some (EmptyString, s') else None
      end
  end.

Record replyMsg : Type := mkReplyMsg { rm_ok : bool; rm_reply : bytes }.

#[global] Instance replyMsg_eq_dec : EqDecision replyMsg.
Proof. solve_decision. Defined.

(** [replyMsg{false, nil}] *)
Definition no_reply : replyMsg := mkReplyMsg false [].

Section Labrpc.
(** Names of ends and servers are Go's [interface{}], used as map keys; [App] is the
    state of the objects whose methods are called. *)
Context {Name : Type} `{Countable Name} {App : Type}.

(** ** Services and servers *)

(** What decoding the argument, calling the method and encoding the reply does; [None]
    when it stops the process. *)
Definition handler : Type := bytes -> App -> option (App * bytes).

(** What [MakeService] asks [reflect] about a method of the receiver. *)
Record method : Type := mkMethod {
  mt_Name : string;
  mt_PkgPath : string;
  mt_NumIn : nat;
  mt_ptr_reply : bool;  (* mtype.In(2).Kind() == reflect.Ptr *)
  mt_NumOut : nat;
  mt_Func : handler;
}.

Record Service : Type := mkService { svc_name : string; svc_methods : gmap string handler }.

Definition suitable (m : method) : bool :=
  negb (bool_decide (mt_PkgPath m <> "") || bool_decide (mt_NumIn m <> 3) || negb (mt_ptr_reply m) ||
        bool_decide (mt_NumOut m <> 0)).

Definition MakeService (name : string) (methods : list method) : Service :=
  mkService name (foldl (fun ms m => if suitable m then <[mt_Name m := mt_Func m]> ms else ms) ∅ methods).

Definition Service_dispatch (svc : Service) (methname : string) (args : bytes) (app : App)
    : option (App * replyMsg) :=
  match svc_methods svc !! methname with
  | Some function => '(app', reply) ← function args app; Some (app', mkReplyMsg true reply)
  | None => None (* log.Fatalf: unknown method *)
  end.

Record Server : Type := mkServer {
  srv_services : gmap string Service;
  srv_count : Z;
  srv_dispatchf : option (string -> bytes -> App -> option (App * (bytes * bool)));
}.

Definition MakeServer : Server := mkServer ∅ 0 None.

Definition SetDispatch (f : string -> bytes -> App -> option (App * (bytes * bool))) (rs : Server) : Server :=
  mkServer (srv_services rs) (srv_count rs) (Some f).

Definition AddService (svc : Service) (rs : Server) : Server :=
  mkServer (<[svc_name svc := svc]> (srv_services rs)) (srv_count rs) (srv_dispatchf rs).

Definition Server_GetCount (rs : Server) : Z := srv_count rs.

(** [Server.dispatch]: its critical section, and what it goes on to run. *)
Definition dispatch (svcMeth : string) (args : bytes) (rs : Server)
    : option (Server * (App -> option (App * replyMsg))) :=
  let rs' := mkServer (srv_services rs) (srv_count rs + 1) (srv_dispatchf rs) in
  '(serviceName, methodName) ← split_last_dot svcMeth;
  let service := srv_services rs !! serviceName in
  Some (rs', fun app =>
    match srv_dispatchf rs with
    | Some dispatchf => '(app', (rep, ok)) ← dispatchf svcMeth args app; Some (app', mkReplyMsg ok rep)
    | None =>
        match service with
        | Some svc => Service_dispatch svc methodName args app
        | None => None (* log.Fatalf: unknown service *)
        end
    end).

(** [Server.Dispatch], with the state of the objects. *)
Definition Server_Dispatch (svcMeth : string) (args : bytes) (rs : Server) (app : App)
    : option (Server * App * (bytes * bool)) :=
  '(rs', run) ← dispatch svcMeth args rs;
  '(app', rep) ← run app;
  Some (rs', app', (rm_reply rep, rm_ok rep)).

(** ** The network's tables

    Servers are pointers, here numbers; [None] is [nil]. *)
Record Network : Type := mkNetwork {
  rn_reliable : bool;
  rn_longDelays : bool;
  rn_longReordering : bool;
  rn_ends : gset Name;
  rn_enabled : gmap Name bool;
  rn_servers : gmap Name (option nat);
  rn_connections : gmap Name (option Name);
  rn_done : bool;  (* closed *)
  rn_count : Z;
  rn_bytes : Z;
}.

Definition MakeNetwork : Network := mkNetwork true false false ∅ ∅ ∅ ∅ false 0 0.

Definition Cleanup (rn : Network) : option Network :=
  if rn_done rn then None (* close of closed channel *)
  else Some (mkNetwork (rn_reliable rn) (rn_longDelays rn) (rn_longReordering rn) (rn_ends rn) (rn_enabled rn)
         (rn_servers rn) (rn_connections rn) true (rn_count rn) (rn_bytes rn)).

Definition Reliable (yes : bool) (rn : Network) : Network :=
  mkNetwork yes (rn_longDelays rn) (rn_longReordering rn) (rn_ends rn) (rn_enabled rn)
    (rn_servers rn) (rn_connections rn) (rn_done rn) (rn_count rn) (rn_bytes rn).

Definition IsReliable (rn : Network) : bool := rn_reliable rn.

Definition LongReordering (yes : bool) (rn : Network) : Network :=
  mkNetwork (rn_reliable rn) (rn_longDelays rn) yes (rn_ends rn) (rn_enabled rn)
    (rn_servers rn) (rn_connections rn) (rn_done rn) (rn_count rn) (rn_bytes rn).

Definition LongDelays (yes : bool) (rn : Network) : Network :=
  mkNetwork (rn_reliable rn) yes (rn_longReordering rn) (rn_ends rn) (rn_enabled rn)
    (rn_servers rn) (rn_connections rn) (rn_done rn) (rn_count rn) (rn_bytes rn).

Definition IsLongDelays (rn : Network) : bool := rn_longDelays rn.

Definition set_tables (ends : gset Name) (enabled : gmap Name bool) (servers : gmap Name (option nat))
    (connections : gmap Name (option Name)) (rn : Network) : Network :=
  mkNetwork (rn_reliable rn) (rn_longDelays rn) (rn_longReordering rn) ends enabled servers connections
    (rn_done rn) (rn_count rn) (rn_bytes rn).

Definition MakeEnd (endname : Name) (rn : Network) : option Network :=
  if decide (endname ∈ rn_ends rn) then None (* log.Fatalf *)
  else Some (set_tables ({[endname]} ∪ rn_ends rn) (<[endname := false]> (rn_enabled rn)) (rn_servers rn)
         (<[endname := None]> (rn_connections rn)) rn).

Definition LookupEnd (endname : Name) (rn : Network) : option Name :=
  if decide (endname ∈ rn_ends rn) then Some endname else None.

Definition DeleteEnd (endname : Name) (rn : Network) : option Network :=
  if decide (endname ∈ rn_ends rn)
  then Some (set_tables (rn_ends rn ∖ {[endname]}) (delete endname (rn_enabled rn)) (rn_servers rn)
         (delete endname (rn_connections rn)) rn)
  else None.

Definition AddServer (servername : Name) (rs : nat) (rn : Network) : Network :=
  set_tables (rn_ends rn) (rn_enabled rn) (<[servername := Some rs]> (rn_servers rn)) (rn_connections rn) rn.

Definition DeleteServer (servername : Name) (rn : Network) : Network :=
  set_tables (rn_ends rn) (rn_enabled rn) (<[servername := None]> (rn_servers rn)) (rn_connections rn) rn.

Definition Connect (endname servername : Name) (rn : Network) : Network :=
  set_tables (rn_ends rn) (rn_enabled rn) (rn_servers rn) (<[endname := Some servername]> (rn_connections rn)) rn.

Definition Enable (endname : Name) (enabled : bool) (rn : Network) : Network :=
  set_tables (rn_ends rn) (<[endname := enabled]> (rn_enabled rn)) (rn_servers rn) (rn_connections rn) rn.

(** A missing server is [nil], whose mutex cannot be taken. *)
Definition GetCount (servername : Name) (heap : gmap nat Server) (rn : Network) : option Z :=
  svr ← default None (rn_servers rn !! servername);
  rs ← heap !! svr;
  Some (Server_GetCount rs).

Definition GetTotalCount (rn : Network) : Z := rn_count rn.

Definition GetTotalBytes (rn : Network) : Z := rn_bytes rn.

Definition count_request (args : bytes) (rn : Network) : Network :=
  mkNetwork (rn_reliable rn) (rn_longDelays rn) (rn_longReordering rn) (rn_ends rn) (rn_enabled rn) (rn_servers rn)
    (rn_connections rn) (rn_done rn) (AddInt32 (rn_count rn) 1) (AddInt64 (rn_bytes rn) (zlen args)).

Definition count_reply (rep : replyMsg) (rn : Network) : Network :=
  mkNetwork (rn_reliable rn) (rn_longDelays rn) (rn_longReordering rn) (rn_ends rn) (rn_enabled rn) (rn_servers rn)
    (rn_connections rn) (rn_done rn) (rn_count rn) (AddInt64 (rn_bytes rn) (zlen (rm_reply rep))).

(** ** The critical sections of [processReq] *)

Definition readEndnameInfo (endname : Name) (rn : Network) : bool * option Name * option nat * bool * bool :=
  let servername := default None (rn_connections rn !! endname) in
  (default false (rn_enabled rn !! endname), servername,
   match servername with Some sn => default None (rn_servers rn !! sn) | None => None end,
   rn_reliable rn, rn_longReordering rn).

Definition isServerDead (endname servername : Name) (server : nat) (rn : Network) : bool :=
  negb (default false (rn_enabled rn !! endname)) ||
  bool_decide (default None (rn_servers rn !! servername) <> Some server).

(** ** One RPC *)

Record reqMsg : Type := mkReqMsg { rq_endname : Name; rq_svcMeth : string; rq_args : bytes }.

(** What [readEndnameInfo] told about an end that is enabled and connected to a server. *)
Record target : Type := mkTarget {
  tg_servername : Name;
  tg_server : nat;
  tg_reliable : bool;
  tg_longreordering : bool;
}.

(** Where the goroutines of an RPC are. *)
Inductive pc : Type :=
  | Calling  (* Call, before the request is sent *)
  | Sent  (* processReq started *)
  | Looked (tg : target)  (* the end was looked up, the request may be delayed or dropped *)
  | Waiting (tg : target)  (* in the loop, waiting for the handler *)
  | GotReply (tg : target) (rep : replyMsg)  (* the loop was left with the reply *)
  | Replying (counted : bool) (rep : replyMsg)  (* about to send on replyCh, perhaps from a timer that counts the bytes first *)
  | Returned (res : option bytes).  (* Call returned true, with a reply, or false *)

(** The goroutine that calls the handler. *)
Inductive running : Type :=
  | NotStarted
  | Started (server : nat)  (* about to enter server.dispatch *)
  | Running (server : nat) (run : App -> option (App * replyMsg))
  | Ready (rep : replyMsg)  (* waiting to send on ech *)
  | Taken.

Record rpc : Type := mkRpc { c_req : reqMsg; c_pc : pc; c_run : running }.

(** [rand.Int()%1000 < 100] on an unreliable network. *)
Definition dropped (reliable : bool) (draw : Z) : bool := negb reliable && (draw mod 1000 <? 100)%Z.

(** The first section of [processReq]. *)
Definition process_look (endname : Name) (rn : Network) : pc :=
  match readEndnameInfo endname rn with
  | (true, Some servername, Some server, reliable, longreordering) =>
      Looked (mkTarget servername server reliable longreordering)
  | _ => Replying false no_reply  (* simulate no reply and eventual timeout *)
  end.

(** After the loop: the server may be dead, the reply dropped or delayed. *)
Definition process_finish (endname : Name) (tg : target) (rep : replyMsg) (drop : Z) (delay : Z) (rn : Network)
    : pc * Network :=
  if isServerDead endname (tg_servername tg) (tg_server tg) rn then (Replying false no_reply, rn)
  else if dropped (tg_reliable tg) drop then (Replying false no_reply, rn)
  else if tg_longreordering tg && (delay mod 900 <? 600)%Z then (Replying true rep, rn)
  else (Replying false rep, count_reply rep rn).

(** What [Call] returns for the message on its channel. *)
Definition Call_result (rep : replyMsg) : option bytes := if rm_ok rep then Some (rm_reply rep) else None.

(** ** All RPCs *)

(** [w_execs] records who executed which request, with the reply. *)
Record World : Type := mkWorld {
  w_net : Network;
  w_loop : bool;  (* the goroutine of MakeNetwork has not returned *)
  w_heap : gmap nat Server;
  w_app : App;
  w_calls : gmap nat rpc;
  w_execs : list (nat * nat * replyMsg);
}.

Definition set_net (rn : Network) (w : World) : World :=
  mkWorld rn (w_loop w) (w_heap w) (w_app w) (w_calls w) (w_execs w).

Definition set_call (id : nat) (c : rpc) (w : World) : World :=
  mkWorld (w_net w) (w_loop w) (w_heap w) (w_app w) (<[id := c]> (w_calls w)) (w_execs w).

Definition with_pc (p : pc) (c : rpc) : rpc := mkRpc (c_req c) p (c_run c).

Definition net_init (w : World) : Prop :=
  w_net w = MakeNetwork /\ w_loop w = true /\ w_heap w = ∅ /\ w_calls w = ∅ /\ w_execs w = [].

Inductive net_event : Type :=
  | NCall (id : nat) (req : reqMsg)  (* somebody calls Call *)
  | NDestroyed (id : nat)  (* the select of Call sees that the network is gone *)
  | NSend (id : nat)  (* the network's goroutine receives the request *)
  | NLook (id : nat)
  | NDispatch (id : nat) (drop : Z)  (* the short delay is over; the draw; the goroutine *)
  | NEnter (id : nat)  (* the critical section of Server.dispatch *)
  | NHandler (id : nat)  (* the handler runs *)
  | NTake (id : nat)  (* the loop receives the reply *)
  | NTick (id : nat)  (* 100 ms without one *)
  | NFinish (id : nat) (drop delay : Z)
  | NReturn (id : nat)  (* Call receives the reply *)
  | NLoopExit  (* the network's goroutine sees that the network is gone *)
  | NCleanup
  | NReliable (yes : bool)
  | NLongReordering (yes : bool)
  | NLongDelays (yes : bool)
  | NMakeEnd (endname : Name)
  | NDeleteEnd (endname : Name)
  | NNewServer (rs : nat) (s : Server)  (* MakeServer, with its services *)
  | NAddServer (servername : Name) (rs : nat)
  | NDeleteServer (servername : Name)
  | NConnect (endname servername : Name)
  | NEnable (endname : Name) (enabled : bool).

(** One step; [None] when it cannot happen, or stops the process. *)
Definition net_exec (ev : net_event) (w : World) : option World :=
  match ev with
  | NCall id req =>
      if decide (w_calls w !! id = None) then Some (set_call id (mkRpc req Calling NotStarted) w) else None
  | NDestroyed id =>
      c ← w_calls w !! id;
      match c_pc c with
      | Calling => if rn_done (w_net w) then Some (set_call id (with_pc (Returned None) c) w) else None
      | _ => None
      end
  | NSend id =>
      c ← w_calls w !! id;
      match c_pc c with
      | Calling =>
          if w_loop w
          then Some (set_call id (with_pc Sent c) (set_net (count_request (rq_args (c_req c)) (w_net w)) w))
          else None
      | _ => None
      end
  | NLook id =>
      c ← w_calls w !! id;
      match c_pc c with
      | Sent => Some (set_call id (with_pc (process_look (rq_endname (c_req c)) (w_net w)) c) w)
      | _ => None
      end
  | NDispatch id drop =>
      c ← w_calls w !! id;
      match c_pc c with
      | Looked tg =>
          if dropped (tg_reliable tg) drop then Some (set_call id (with_pc (Replying false no_reply) c) w)
          else Some (set_call id (mkRpc (c_req c) (Waiting tg) (Started (tg_server tg))) w)
      | _ => None
      end
  | NEnter id =>
      c ← w_calls w !! id;
      match c_run c with
      | Started server =>
          rs ← w_heap w !! server;
          '(rs', run) ← dispatch (rq_svcMeth (c_req c)) (rq_args (c_req c)) rs;
          Some (set_call id (mkRpc (c_req c) (c_pc c) (Running server run))
            (mkWorld (w_net w) (w_loop w) (<[server := rs']> (w_heap w)) (w_app w) (w_calls w) (w_execs w)))
      | _ => None
      end
  | NHandler id =>
      c ← w_calls w !! id;
      match c_run c with
      | Running server run =>
          '(app', rep) ← run (w_app w);
          Some (set_call id (mkRpc (c_req c) (c_pc c) (Ready rep))
            (mkWorld (w_net w) (w_loop w) (w_heap w) app' (w_calls w) (w_execs w ++ [(id, server, rep)])))
      | _ => None
      end
  | NTake id =>
      c ← w_calls w !! id;
      match c_pc c, c_run c with
      | Waiting tg, Ready rep => Some (set_call id (mkRpc (c_req c) (GotReply tg rep) Taken) w)
      | _, _ => None
      end
  | NTick id =>
      c ← w_calls w !! id;
      match c_pc c with
      | Waiting tg =>
          if isServerDead (rq_endname (c_req c)) (tg_servername tg) (tg_server tg) (w_net w)
          then Some (set_call id (with_pc (Replying false no_reply) c) w)
          else Some w
      | _ => None
      end
  | NFinish id drop delay =>
      c ← w_calls w !! id;
      match c_pc c with
      | GotReply tg rep =>
          let '(p, rn) := process_finish (rq_endname (c_req c)) tg rep drop delay (w_net w) in
          Some (set_call id (with_pc p c) (set_net rn w))
      | _ => None
      end
  | NReturn id =>
      c ← w_calls w !! id;
      match c_pc c with
      | Replying counted rep =>
          let rn := if counted then count_reply rep (w_net w) else w_net w in
          Some (set_call id (with_pc (Returned (Call_result rep)) c) (set_net rn w))
      | _ => None
      end
  | NLoopExit =>
      if rn_done (w_net w) then Some (mkWorld (w_net w) false (w_heap w) (w_app w) (w_calls w) (w_execs w)) else None
  | NCleanup => rn ← Cleanup (w_net w); Some (set_net rn w)
  | NReliable yes => Some (set_net (Reliable yes (w_net w)) w)
  | NLongReordering yes => Some (set_net (LongReordering yes (w_net w)) w)
  | NLongDelays yes => Some (set_net (LongDelays yes (w_net w)) w)
  | NMakeEnd e => rn ← MakeEnd e (w_net w); Some (set_net rn w)
  | NDeleteEnd e => rn ← DeleteEnd e (w_net w); Some (set_net rn w)
  | NNewServer rs s =>
      if decide (w_heap w !! rs = None)
      then Some (mkWorld (w_net w) (w_loop w) (<[rs := s]> (w_heap w)) (w_app w) (w_calls w) (w_execs w)) else None
  | NAddServer sn rs => _ ← w_heap w !! rs; Some (set_net (AddServer sn rs (w_net w)) w)
  | NDeleteServer sn => Some (set_net (DeleteServer sn (w_net w)) w)
  | NConnect e sn => Some (set_net (Connect e sn (w_net w)) w)
  | NEnable e b => Some (set_net (Enable e b (w_net w)) w)
  end.

(** The steps among the events [P]. *)
Definition net_step (P : net_event -> Prop) (w w' : World) : Prop := exists ev, P ev /\ net_exec ev w = Some w'.

Fixpoint net_exec_all (evs : list net_event) (w : World) : option World :=
  match evs with
  | [] => Some w
  | ev :: evs' => w' ← net_exec ev w; net_exec_all evs' w'
  end.

End Labrpc.
