(* ===== verification/LabrpcSafe.v ===== *)
(** * What the simulated network promises

    Proofs about [Labrpc]: an RPC is executed at most once and a successful Call
    returns the reply of that execution; a server that was deleted from the network
    answers no Call any more, whatever it still executes; and every Call returns. *)

From S2P Require Import Prelude.
From S2P Require Import Persister.
From S2P Require Import Labrpc.

(** Follow one step of [net_exec] to its end. *)
Ltac net_invert Hx :=
  simpl in Hx; unfold Cleanup, MakeEnd, DeleteEnd in Hx;
  repeat match type of Hx with
  | (_ ≫= _) = Some _ => let x := fresh "x" in let Hb := fresh "Hb" in apply bind_Some in Hx as (x & Hb & Hx); net_invert Hb
  | (if decide ?P then _ else _) = Some _ => case_decide; try done
  | (if ?b then _ else _) = Some _ => destruct b eqn:?; try done
  | (let '(_, _) := ?p in _) = Some _ => destruct p eqn:?
  | match ?x with _ => _ end = Some _ => destruct x eqn:?; try done
  end;
  try (injection Hx as <-).

Section LabrpcSafe.
Context {Name : Type} `{Countable Name} {App : Type}.

Abbreviation world := (World (Name := Name) (App := App)).
Abbreviation rpc_state := (rpc (Name := Name) (App := App)).

(** ** The invariant *)

Definition executed (w : world) (id : nat) (rep : replyMsg) : Prop := exists server, (id, server, rep) ∈ w_execs w.

(** The goroutines of an RPC fit together, and with what was executed. *)
Definition pc_ok (w : world) (id : nat) (c : rpc_state) : Prop :=
  match c_pc c with
  | Calling | Sent => c_run c = NotStarted
  | Looked tg => c_run c = NotStarted /\ is_Some (w_heap w !! tg_server tg)
  | Waiting tg => (c_run c = Started (tg_server tg) /\ is_Some (w_heap w !! tg_server tg)) \/
      (exists run, c_run c = Running (tg_server tg) run) \/
      exists rep, c_run c = Ready rep /\ (id, tg_server tg, rep) ∈ w_execs w
  | GotReply tg rep => c_run c = Taken /\ (id, tg_server tg, rep) ∈ w_execs w
  | Replying _ rep => rm_ok rep = true -> c_run c = Taken /\ executed w id rep
  | Returned res => forall r, res = Some r -> c_run c = Taken /\ executed w id (mkReplyMsg true r)
  end.

Definition run_ok (w : world) (id : nat) (c : rpc_state) : Prop :=
  match c_run c with
  | NotStarted | Started _ => forall rep, ~ executed w id rep
  | Running _ run => (forall rep, ~ executed w id rep) /\
      exists rs rs', dispatch (rq_svcMeth (c_req c)) (rq_args (c_req c)) rs = Some (rs', run)
  | _ => True
  end.

(** The reply of an execution is one of its own request. *)
Definition reply_of (req : reqMsg (Name := Name)) (rep : replyMsg) : Prop :=
  exists (rs rs' : Server (App := App)) run app app',
    dispatch (rq_svcMeth req) (rq_args req) rs = Some (rs', run) /\ run app = Some (app', rep).

Definition exec_id (x : nat * nat * replyMsg) : nat := x.1.1.

Record net_inv (w : world) : Prop := {
  ni_pc : forall id c, w_calls w !! id = Some c -> pc_ok w id c;
  ni_run : forall id c, w_calls w !! id = Some c -> run_ok w id c;
  ni_once : NoDup (exec_id <$> w_execs w);
  ni_reply : forall id rep, executed w id rep -> exists c, w_calls w !! id = Some c /\ reply_of (c_req c) rep;
  ni_servers : forall sn server, rn_servers (w_net w) !! sn = Some (Some server) -> is_Some (w_heap w !! server);
  ni_loop : w_loop w = false -> rn_done (w_net w) = true;
}.

Lemma net_inv_init w : net_init w -> net_inv w.
Proof.
  intros (Hn & Hl & Hh & Hc & He). constructor.
  - intros id c. by rewrite Hc, lookup_empty.
  - intros id c. by rewrite Hc, lookup_empty.
  - rewrite He. constructor.
  - intros id rep [server Hin]. rewrite He in Hin. by apply not_elem_of_nil in Hin.
  - intros sn server. by rewrite Hn.
  - by rewrite Hl.
Qed.

(** What another step changes without harm: counters, tables, more servers. *)
Lemma net_inv_tables w rn heap loop :
  net_inv w -> (forall s, is_Some (w_heap w !! s) -> is_Some (heap !! s)) ->
  (forall sn server, rn_servers rn !! sn = Some (Some server) -> is_Some (heap !! server)) ->
  (loop = false -> rn_done rn = true) ->
  net_inv (mkWorld rn loop heap (w_app w) (w_calls w) (w_execs w)).
Proof.
  intros [Hpc Hrun Honce Hrep Hsrv Hloop] Hh Hs Hl. constructor; simpl; auto.
  intros id c Hc. specialize (Hpc _ _ Hc). unfold pc_ok in *. destruct (c_pc c); auto; [by destruct Hpc; auto|].
  destruct Hpc as [[? ?]|?]; [left|right]; auto.
Qed.

(** A step of one RPC that executes nothing. *)
Lemma net_inv_call w id c c' :
  net_inv w -> w_calls w !! id = Some c -> c_req c' = c_req c -> pc_ok w id c' -> run_ok w id c' ->
  net_inv (set_call id c' w).
Proof.
  intros [Hpc Hrun Honce Hrep Hsrv Hloop] Hc Hreq Hp Hr. constructor; simpl; auto.
  - intros j cj [[<- <-]|[_ Hj]]%lookup_insert_Some; [exact Hp|exact (Hpc _ _ Hj)].
  - intros j cj [[<- <-]|[_ Hj]]%lookup_insert_Some; [exact Hr|exact (Hrun _ _ Hj)].
  - intros j rep (cj & Hj & Hrj)%Hrep. destruct (decide (j = id)) as [->|Hne].
    + exists c'. rewrite lookup_insert_eq. split; [done|]. rewrite Hreq. congruence.
    + exists cj. by rewrite lookup_insert_ne.
Qed.

(** The handler runs. *)
Lemma net_inv_handler w id c server run app' rep :
  net_inv w -> w_calls w !! id = Some c -> c_run c = Running server run -> run (w_app w) = Some (app', rep) ->
  net_inv (set_call id (mkRpc (c_req c) (c_pc c) (Ready rep))
    (mkWorld (w_net w) (w_loop w) (w_heap w) app' (w_calls w) (w_execs w ++ [(id, server, rep)]))).
Proof.
  intros [Hpc Hrun Honce Hrep Hsrv Hloop] Hc Hr Happ.
  pose proof (Hrun _ _ Hc) as Hro. unfold run_ok in Hro. rewrite Hr in Hro. destruct Hro as [Hnew (rs & rs' & Hd)].
  assert (forall j cj, pc_ok w j cj -> pc_ok (mkWorld (w_net w) (w_loop w) (w_heap w) app' (w_calls w)
    (w_execs w ++ [(id, server, rep)])) j cj) as Hmono.
  { intros j cj Hj. unfold pc_ok, executed in *. destruct (c_pc cj); simpl in *; auto.
    - destruct Hj as [?|[?|(r & ? & ?)]]; [by left|by right; left|right; right]. exists r. split; [done|]. apply elem_of_app. by left.
    - destruct Hj. split; [done|]. apply elem_of_app. by left.
    - intros Hok. destruct (Hj Hok) as [? [s Hs]]. split; [done|]. exists s. apply elem_of_app. by left.
    - intros r Hres. destruct (Hj r Hres) as [? [s Hs]]. split; [done|]. exists s. apply elem_of_app. by left. }
  constructor; simpl; auto.
  - intros j cj [[<- <-]|[_ Hj]]%lookup_insert_Some; [|exact (Hmono _ _ (Hpc _ _ Hj))].
    specialize (Hpc _ _ Hc). unfold pc_ok in *. simpl. destruct (c_pc c) as [| |tg|tg|tg r|b r|res]; simpl in *; try congruence.
    + destruct Hpc. congruence.
    + right. right. exists rep. split; [done|]. destruct Hpc as [[? _]|[[run' Hrun']|(r & Hr' & _)]]; [congruence| |congruence].
      rewrite Hr in Hrun'. injection Hrun' as -> _. apply elem_of_app. right. left.
    + destruct Hpc. congruence.
    + intros Hok. destruct (Hpc Hok). congruence.
    + intros r Hres. destruct (Hpc r Hres). congruence.
  - intros j cj [[<- <-]|[Hne Hj]]%lookup_insert_Some; [done|]. specialize (Hrun _ _ Hj). unfold run_ok in *.
    assert (forall r, ~ executed w j r -> ~ executed (mkWorld (w_net w) (w_loop w) (w_heap w) app' (w_calls w)
      (w_execs w ++ [(id, server, rep)])) j r) as Hex.
    { intros r Hno [s Hs]. simpl in Hs. apply elem_of_app in Hs as [Hs|Hs]; [apply Hno; by exists s|].
      apply list_elem_of_singleton in Hs. congruence. }
    destruct (c_run cj) as [|s0|s0 run0| |]; [intros r; apply Hex, Hrun..| |done|done].
    destruct Hrun as [Hno ?]. split; [intros r; apply Hex, Hno|done].
  - rewrite fmap_app. apply NoDup_app. split_and!; [done| |apply NoDup_singleton].
    intros x Hx ->%list_elem_of_singleton. apply list_elem_of_fmap in Hx as ([[j s] r] & Hj & Hin).
    unfold exec_id in Hj. simpl in Hj. subst j. apply (Hnew r). by exists s.
  - intros j r [s [Hin|Hin]%elem_of_app].
    + destruct (Hrep j r) as (cj & Hj & Hrj); [by exists s|]. destruct (decide (j = id)) as [->|Hne].
      * exists (mkRpc (c_req c) (c_pc c) (Ready rep)). rewrite lookup_insert_eq. split; [done|]. simpl. congruence.
      * exists cj. by rewrite lookup_insert_ne.
    + apply list_elem_of_singleton in Hin. injection Hin as -> -> ->.
      exists (mkRpc (c_req c) (c_pc c) (Ready rep)). rewrite lookup_insert_eq. split; [done|]. by exists rs, rs', run, (w_app w), app'.
Qed.

(** ** Every step keeps it *)

Definition counters_same (rn rn' : Network (Name := Name)) : Prop :=
  rn_servers rn' = rn_servers rn /\ rn_done rn' = rn_done rn.

Lemma net_inv_counters w rn : net_inv w -> counters_same (w_net w) rn -> net_inv (set_net rn w).
Proof.
  intros HI [Hs Hd]. apply net_inv_tables; [done|done| |]; rewrite ?Hs, ?Hd; apply HI.
Qed.

(** A step of one RPC that also counts bytes. *)
Lemma net_inv_count w id c c' rn :
  net_inv w -> w_calls w !! id = Some c -> counters_same (w_net w) rn -> c_req c' = c_req c ->
  pc_ok w id c' -> run_ok w id c' -> net_inv (set_call id c' (set_net rn w)).
Proof. intros HI Hc Hrn Hr Hp Hrun. eapply net_inv_call; eauto. by apply net_inv_counters. Qed.

Lemma process_look_ok w id c :
  net_inv w -> c_run c = NotStarted -> pc_ok w id (with_pc (process_look (rq_endname (c_req c)) (w_net w)) c).
Proof.
  intros HI Hr. unfold process_look, readEndnameInfo.
  destruct (default false _); [|by intros ?]. destruct (default None (rn_connections _ !! _)) as [sn|]; [|by intros ?].
  destruct (rn_servers (w_net w) !! sn) as [[server|]|] eqn:Hs; simpl; [|by intros ?..].
  split; [done|]. simpl. by apply (ni_servers _ HI sn).
Qed.

Lemma process_finish_spec endname tg rep drop delay (rn : Network (Name := Name)) p rn' :
  process_finish endname tg rep drop delay rn = (p, rn') ->
  counters_same rn rn' /\ exists b rep', p = Replying b rep' /\
    (rm_ok rep' = true -> rep' = rep /\ isServerDead endname (tg_servername tg) (tg_server tg) rn = false).
Proof.
  unfold process_finish. destruct (isServerDead _ _ _ _) eqn:Hd; [|destruct (dropped _ _); [|destruct (_ && _)]];
    intros Hx; injection Hx as <- <-; (split; [done|]); eexists _, _; (split; [done|]); done.
Qed.

Lemma net_inv_dispatch w id c drop tg w' :
  net_inv w -> w_calls w !! id = Some c -> c_pc c = Looked tg -> net_exec (NDispatch id drop) w = Some w' -> net_inv w'.
Proof.
  intros HI Hc Hpc Hx. pose proof (ni_pc _ HI _ _ Hc) as Hp. unfold pc_ok in Hp. rewrite Hpc in Hp. destruct Hp as [Hr Hh].
  pose proof (ni_run _ HI _ _ Hc) as Hrun. unfold run_ok in Hrun. rewrite Hr in Hrun.
  simpl in Hx. rewrite Hc in Hx. simpl in Hx. rewrite Hpc in Hx. destruct (dropped _ _); injection Hx as <-.
  - eapply net_inv_call; eauto; [by intros ?|]. unfold run_ok, with_pc. simpl. by rewrite Hr.
  - eapply net_inv_call; eauto; by left.
Qed.

(** Entering [Server.dispatch]. *)
Lemma net_inv_enter w id w' : net_inv w -> net_exec (NEnter id) w = Some w' -> net_inv w'.
Proof.
  intros HI Hx. simpl in Hx. apply bind_Some in Hx as (c & Hc & Hx).
  destruct (c_run c) as [|server|? ?|?|] eqn:Hr; try done.
  apply bind_Some in Hx as (rs & Hrs & Hx). apply bind_Some in Hx as ([rs' run] & Hd & Hx). injection Hx as <-.
  pose proof (ni_pc _ HI _ _ Hc) as Hp. pose proof (ni_run _ HI _ _ Hc) as Hrun. unfold run_ok in Hrun. rewrite Hr in Hrun.
  set (w1 := mkWorld (w_net w) (w_loop w) (<[server := rs']> (w_heap w)) (w_app w) (w_calls w) (w_execs w)).
  assert (forall s, is_Some (w_heap w !! s) -> is_Some (w_heap w1 !! s)) as Hgrow.
  { intros s Hs. simpl. apply lookup_insert_is_Some'. by right. }
  assert (net_inv w1) as HI1.
  { apply net_inv_tables; [done|exact Hgrow| |apply HI]. intros sn s Hs. by apply Hgrow, (ni_servers _ HI sn). }
  eapply net_inv_call; [done|exact Hc|done| |].
  - unfold pc_ok in *. simpl. destruct (c_pc c) as [| |tg|tg|tg r|b r|res]; try congruence.
    + destruct Hp. congruence.
    + right. left. destruct Hp as [[Heq _]|[[? ?]|(? & ? & _)]]; [|congruence..].
      exists run. congruence.
    + destruct Hp. congruence.
    + intros Hok. destruct (Hp Hok). congruence.
    + intros r Hres. destruct (Hp r Hres). congruence.
  - split; [exact Hrun|]. by exists rs, rs'.
Qed.

(** The events of one RPC. *)
Definition of_call (id : nat) (ev : net_event (Name := Name) (App := App)) : Prop :=
  match ev with
  | NCall i _ | NDestroyed i | NSend i | NLook i | NDispatch i _ | NEnter i | NHandler i | NTake i | NTick i
  | NFinish i _ _ | NReturn i => i = id
  | _ => False
  end.

Lemma net_inv_new w id req w' : net_inv w -> net_exec (NCall id req) w = Some w' -> net_inv w'.
Proof.
  intros HI Hx. simpl in Hx. case_decide as Hnew; [|done]. injection Hx as <-.
  assert (forall rep, ~ executed w id rep) as Hno.
  { intros rep (c & Hc & _)%(ni_reply _ HI). congruence. }
  destruct HI as [Hp Hr Honce Hrep Hsrv Hloop]. constructor; simpl; auto.
  - intros j cj [[<- <-]|[_ Hj]]%lookup_insert_Some; [done|exact (Hp _ _ Hj)].
  - intros j cj [[<- <-]|[_ Hj]]%lookup_insert_Some; [exact Hno|exact (Hr _ _ Hj)].
  - intros j rep Hj. destruct (decide (j = id)) as [->|Hne]; [by apply Hno in Hj|].
    rewrite lookup_insert_ne by done. by apply Hrep.
Qed.

(** The steps of one RPC. *)
Lemma net_inv_own w id ev w' : net_inv w -> of_call id ev -> net_exec ev w = Some w' -> net_inv w'.
Proof.
  intros HI Hof Hx. pose proof (ni_pc _ HI) as Hpcs. pose proof (ni_run _ HI) as Hruns.
  destruct ev as [j req|j|j|j|j drop|j|j|j|j|j drop delay|j| | |yes|yes|yes|e|e|rs s|sn rs|sn|e sn|e b]; try done; simpl in Hof; subst j;
    [by eapply net_inv_new|..];
    (pose proof Hx as Hx0; simpl in Hx; apply bind_Some in Hx as (c & Hc & Hx);
      pose proof (Hpcs _ _ Hc) as Hpc; pose proof (Hruns _ _ Hc) as Hrun; unfold pc_ok in Hpc).
  - destruct (c_pc c) eqn:Ep; try done. destruct (rn_done _); [|done]. injection Hx as <-.
    eapply net_inv_call; eauto. by intros r.
  - destruct (c_pc c) eqn:Ep; try done. destruct (w_loop w); [|done]. injection Hx as <-.
    by eapply net_inv_count.
  - destruct (c_pc c) eqn:Ep; try done. injection Hx as <-. eapply net_inv_call; eauto. by apply process_look_ok.
  - destruct (c_pc c) eqn:Ep; try done. by eapply net_inv_dispatch.
  - by eapply net_inv_enter.
  - destruct (c_run c) as [| |server run| |] eqn:Er; try done.
    apply bind_Some in Hx as ([app' rep] & Happ & Hx). injection Hx as <-. by eapply net_inv_handler.
  - destruct (c_pc c) as [| | |tg| | |] eqn:Ep; try done. destruct (c_run c) as [| | |rep|] eqn:Er; try done. injection Hx as <-.
    destruct Hpc as [[? _]|[[run Hr]|(rep' & Hr & Hin)]]; [congruence..|]. assert (rep' = rep) as -> by congruence.
    eapply net_inv_call; eauto; done.
  - destruct (c_pc c) as [| | |tg| | |] eqn:Ep; try done. destruct (isServerDead _ _ _ _); [|by injection Hx as <-].
    injection Hx as <-. eapply net_inv_call; eauto. by intros ?.
  - destruct (c_pc c) as [| | | |tg rep| |] eqn:Ep; try done. destruct Hpc as [Hr Hin].
    destruct (process_finish _ _ _ _ _ _) as [p rn] eqn:Ef. injection Hx as <-.
    apply process_finish_spec in Ef as (Hcs & b & rep' & -> & Hok). eapply net_inv_count; eauto.
    intros Hrep. destruct (Hok Hrep) as [-> _]. split; [done|]. by exists (tg_server tg).
  - destruct (c_pc c) as [| | | | |b rep|] eqn:Ep; try done. injection Hx as <-.
    eapply net_inv_count; eauto; [by destruct b|]. intros r Hr. unfold Call_result in Hr.
    destruct (rm_ok rep) eqn:Eok; [|done]. injection Hr as <-. destruct (Hpc eq_refl) as [? ?]. split; [done|].
    destruct rep as [ok rep]. simpl in *. by subst ok.
Qed.

Lemma net_inv_step P w w' : net_inv w -> net_step P w w' -> net_inv w'.
Proof.
  intros HI (ev & _ & Hx).
  assert ((exists id, of_call id ev) \/ forall id, ~ of_call id ev) as [[id Hof]|Hnone].
  { destruct ev; try (left; eexists; simpl; reflexivity); right; by intros ? []. }
  { by eapply net_inv_own. }
  destruct ev as [j req|j|j|j|j drop|j|j|j|j|j drop delay|j| | |yes|yes|yes|e|e|rs s|sn rs|sn|e sn|e b];
    try (by destruct (Hnone j)); net_invert Hx; try (by apply net_inv_counters).
  - apply net_inv_tables; [done|done|apply HI|done].
  - apply net_inv_tables; [done|done|apply HI|done].
  - assert (forall k, is_Some (w_heap w !! k) -> is_Some (<[rs:=s]> (w_heap w) !! k)) as Hgrow.
    { intros k Hk. apply lookup_insert_is_Some'. by right. }
    apply net_inv_tables; [done|done| |apply HI]. intros n k Hk. by apply Hgrow, (ni_servers _ HI n).
  - apply net_inv_tables; [done|done| |apply HI]. simpl. intros k srv [[<- [= <-]]|[_ Hk]]%lookup_insert_Some; [eauto|].
    by apply (ni_servers _ HI k).
  - apply net_inv_tables; [done|done| |apply HI].
    simpl. intros k srv [[<- ?]|[_ Hk]]%lookup_insert_Some; [done|]. by apply (ni_servers _ HI k).
Qed.

Lemma net_inv_run P w w' : net_inv w -> rtc (net_step P) w w' -> net_inv w'.
Proof. intros HI Hr. eapply (invariant_rtc (net_step P) net_inv); [|done|done]. intros a b Ha Hs. by eapply net_inv_step. Qed.

Definition any_event (ev : net_event (Name := Name) (App := App)) : Prop := True.

(** C34. At most once: in every run of the network - requests and replies dropped,
    delayed and reordered, ends and servers added, deleted, connected and disabled at
    will - no RPC is executed twice, whatever is executed is a request somebody made,
    on its own method and arguments, and a Call that returns true returns the reply
    of the one execution of its request. *)
Theorem rpc_at_most_once w0 w :
  net_init w0 -> rtc (net_step any_event) w0 w ->
  NoDup (exec_id <$> w_execs w) /\
  (forall id server rep, (id, server, rep) ∈ w_execs w ->
     exists c, w_calls w !! id = Some c /\ reply_of (c_req c) rep) /\
  (forall id c r, w_calls w !! id = Some c -> c_pc c = Returned (Some r) ->
     exists server, (id, server, mkReplyMsg true r) ∈ w_execs w).
Proof.
  intros H0 Hr. assert (net_inv w) as HI by (eapply net_inv_run; [by apply net_inv_init|done]).
  split_and!; [apply HI| |].
  - intros id server rep Hin. apply (ni_reply _ HI). by exists server.
  - intros id c r Hc Hp. pose proof (ni_pc _ HI _ _ Hc) as Hpc. unfold pc_ok in Hpc. rewrite Hp in Hpc.
    by destruct (Hpc r eq_refl) as [_ ?].
Qed.

(** ** Servers that are gone *)

(** The rest leaves it alone. *)
Lemma net_exec_other ev w w' id :
  ~ of_call id ev -> net_exec ev w = Some w' -> w_calls w' !! id = w_calls w !! id /\
    forall server rep, (id, server, rep) ∈ w_execs w' -> (id, server, rep) ∈ w_execs w.
Proof.
  intros Hne Hx.
  destruct ev; simpl in Hne; net_invert Hx; try (split; [by apply lookup_insert_ne|done]); try done.
  split; [by apply lookup_insert_ne|]. intros ?? [?|[= -> _ _]%list_elem_of_singleton]%elem_of_app; [done|]. by destruct Hne.
Qed.

Definition registered (server : nat) (rn : Network (Name := Name)) : Prop :=
  exists sn, rn_servers rn !! sn = Some (Some server).

(** The events but for those that add [server] again. *)
Definition not_added (server : nat) (ev : net_event (Name := Name) (App := App)) : Prop :=
  forall sn, ev <> NAddServer sn server.

Lemma registered_exec server ev w w' :
  not_added server ev -> net_exec ev w = Some w' -> registered server (w_net w') -> registered server (w_net w).
Proof.
  intros Hna Hx [sn Hsn].
  destruct ev; net_invert Hx; try (by exists sn); simpl in Hsn.
  - match goal with Hf : process_finish _ _ _ _ _ _ = _ |- _ => apply process_finish_spec in Hf as [[Hs _] _] end.
    rewrite Hs in Hsn. by exists sn.
  - match goal with _ : c_pc _ = Replying ?d _ |- _ => destruct d end; by exists sn.
  - apply lookup_insert_Some in Hsn as [[<- [= ->]]|[_ ?]]; [by destruct (Hna _ eq_refl)|by exists sn].
  - apply lookup_insert_Some in Hsn as [[_ ?]|[_ ?]]; [done|by exists sn].
Qed.

(** An RPC to [server] that has not returned true and never will. *)
Definition silent (server : nat) (p : pc (Name := Name)) : Prop :=
  match p with
  | Waiting tg | GotReply tg _ => tg_server tg = server
  | Replying _ rep => rm_ok rep = false
  | Returned res => res = None
  | _ => False
  end.

Lemma unregistered_dead e sn server (rn : Network (Name := Name)) :
  ~ registered server rn -> isServerDead e sn server rn = true.
Proof.
  intros Hno. unfold isServerDead. apply orb_true_iff. right. apply bool_decide_eq_true. intros Hs.
  apply Hno. exists sn. destruct (rn_servers rn !! sn) as [o|]; simpl in Hs; congruence.
Qed.

(** Own steps keep it so while the server is not registered. *)
Lemma silent_step w w' id ev server c c' :
  ~ registered server (w_net w) -> of_call id ev -> net_exec ev w = Some w' ->
  w_calls w !! id = Some c -> w_calls w' !! id = Some c' -> silent server (c_pc c) -> silent server (c_pc c').
Proof.
  intros Hno Hof Hx Hc Hc' Hs.
  assert (forall w1 (x : rpc_state), w_calls (set_call id x w1) !! id = Some c' -> c' = x) as Hset.
  { intros w1 x Hx1. simpl in Hx1. rewrite lookup_insert_eq in Hx1. congruence. }
  destruct ev; try done; simpl in Hof; subst; simpl in Hx; rewrite Hc in Hx; simpl in Hx;
    [done|..].
  - by destruct (c_pc c).
  - by destruct (c_pc c).
  - by destruct (c_pc c).
  - by destruct (c_pc c).
  - destruct (c_run c); try done. apply bind_Some in Hx as (rs & _ & Hx). apply bind_Some in Hx as ([rs' run] & _ & Hx).
    injection Hx as <-. by apply Hset in Hc' as ->.
  - destruct (c_run c); try done. apply bind_Some in Hx as ([app' rep] & _ & Hx). injection Hx as <-. by apply Hset in Hc' as ->.
  - destruct (c_pc c), (c_run c); try done. injection Hx as <-. by apply Hset in Hc' as ->.
  - destruct (c_pc c) as [| | |tg| | |] eqn:Ep; try done.
    destruct (isServerDead _ _ _ _); injection Hx as <-; [by apply Hset in Hc' as ->|].
    rewrite Hc in Hc'. injection Hc' as <-. by rewrite Ep.
  - destruct (c_pc c) as [| | | |tg rep| |] eqn:Ep; try done. simpl in Hs.
    unfold process_finish in Hx. rewrite Hs, unregistered_dead in Hx by done. injection Hx as <-. by apply Hset in Hc' as ->.
  - destruct (c_pc c) as [| | | | |d rep|] eqn:Ep; try done. injection Hx as <-. apply Hset in Hc' as ->. simpl in *.
    unfold Call_result. by rewrite Hs.
Qed.

(** A handler that starts to run belongs to a silent RPC or to one that waits for it. *)
Lemma running_silent w id c server run :
  pc_ok w id c -> c_run c = Running server run -> silent server (c_pc c).
Proof.
  unfold pc_ok, silent. intros Hp Hr. destruct (c_pc c) as [| |tg|tg|tg rep|b rep|res]; try congruence.
  - destruct Hp. congruence.
  - destruct Hp as [[? _]|[[run' ?]|(? & ? & _)]]; congruence.
  - destruct Hp. congruence.
  - destruct (rm_ok rep); [destruct (Hp eq_refl); congruence|done].
  - destruct res as [r|]; [destruct (Hp r eq_refl); congruence|done].
Qed.

Lemma late_exec w w' ev id server rep :
  net_inv w -> net_exec ev w = Some w' -> (id, server, rep) ∈ w_execs w' -> (id, server, rep) ∉ w_execs w ->
  exists c c', w_calls w !! id = Some c /\ silent server (c_pc c) /\ w_calls w' !! id = Some c' /\ c_pc c' = c_pc c.
Proof.
  intros HI Hx Hin Hnew.
  assert (of_call id ev) as Hof.
  { destruct ev; net_invert Hx; try done. simpl in Hin. apply elem_of_app in Hin as [?|Hin]; [done|].
    apply list_elem_of_singleton in Hin. simpl. congruence. }
  destruct ev; try done; simpl in Hof; subst; net_invert Hx; try done. simpl in Hin.
  apply elem_of_app in Hin as [?|Hin]; [done|]. apply list_elem_of_singleton in Hin. injection Hin as <- <-.
  match goal with Hc : w_calls w !! id = Some ?c, Hr : c_run ?c = Running _ _ |- _ =>
    exists c, (mkRpc (c_req c) (c_pc c) (Ready rep)); pose proof (ni_pc _ HI _ _ Hc) as Hp;
    pose proof (running_silent _ _ _ _ _ Hp Hr) end.
  split_and!; [done|done|simpl; by rewrite lookup_insert_eq|done].
Qed.

(** What [server] executed since [w1] is silent. *)
Definition late_silent (server : nat) (w1 w : world) : Prop :=
  forall id rep, (id, server, rep) ∈ w_execs w -> (id, server, rep) ∉ w_execs w1 ->
    exists c, w_calls w !! id = Some c /\ silent server (c_pc c).

Lemma late_silent_step server w1 w w' ev :
  net_inv w -> ~ registered server (w_net w) -> net_exec ev w = Some w' ->
  late_silent server w1 w -> late_silent server w1 w'.
Proof.
  intros HI Hreg Hx Hold id rep Hin Hnew. destruct (decide ((id, server, rep) ∈ w_execs w)) as [Hin0|Hnin].
  - destruct (Hold _ _ Hin0 Hnew) as (c & Hc & Hsil).
    assert (of_call id ev \/ ~ of_call id ev) as [Hof|Hof].
    { destruct ev as [j ?|j|j|j|j ?|j|j|j|j|j ? ?|j| | | | | | | | | | | |]; simpl;
        try (right; by intros []); destruct (decide (j = id)); auto. }
    + assert (net_inv w') as HI' by (eapply (net_inv_step any_event); [done|by exists ev]).
      destruct (ni_reply _ HI' id rep) as (c' & Hc' & _); [by exists server|].
      exists c'. split; [done|]. by eapply silent_step.
    + destruct (net_exec_other _ _ _ _ Hof Hx) as [-> _]. eauto.
  - destruct (late_exec _ _ _ _ _ _ HI Hx Hin Hnin) as (c & c' & _ & Hsil & Hc' & Hpc). exists c'. by rewrite Hpc.
Qed.

(** A deleted server is silent: once no name leads to a server any more, and as
    long as it is not added again, no RPC it executes from then on - its handlers may
    still be running - makes a Call return true.  So a server that is killed and
    replaced answers nothing that went into the state it leaves behind. *)
Theorem deleted_server_silent w0 w1 w2 server id rep c r :
  net_init w0 -> rtc (net_step any_event) w0 w1 -> ~ registered server (w_net w1) ->
  rtc (net_step (not_added server)) w1 w2 ->
  (id, server, rep) ∈ w_execs w2 -> (id, server, rep) ∉ w_execs w1 ->
  w_calls w2 !! id = Some c -> c_pc c <> Returned (Some r).
Proof.
  intros H0 Hr1 Hno Hr2 Hin Hnew Hc Hret.
  assert (net_inv w1) as HI1 by (eapply net_inv_run; [by apply net_inv_init|done]).
  assert (net_inv w2 /\ ~ registered server (w_net w2) /\ late_silent server w1 w2) as (_ & _ & Hs).
  { apply (invariant_rtc (net_step (not_added server)) (fun w => net_inv w /\ ~ registered server (w_net w) /\ late_silent server w1 w) w1);
      [|done|split_and!; [done|done|by intros j x ? ?]].
    intros w w' (HI & Hreg & Hold) (ev & Hna & Hx). split_and!; [|by intros Hr%(registered_exec _ _ _ _ Hna Hx)|].
    - eapply (net_inv_step any_event); [done|]. by exists ev.
    - by eapply late_silent_step. }
  destruct (Hs _ _ Hin Hnew) as (cj & Hj & Hsil). simplify_eq. by rewrite Hret in Hsil.
Qed.

(** ** Every Call returns *)

(** How many steps of its own an RPC is away from returning. *)
Definition rank (c : rpc_state) : nat :=
  match c_pc c with
  | Calling => 8
  | Sent => 7
  | Looked _ => 6
  | Waiting _ => match c_run c with Ready _ => 3 | Running _ _ => 4 | _ => 5 end
  | GotReply _ _ => 2
  | Replying _ _ => 1
  | Returned _ => 0
  end.

(** The service and the method are registered at every server, and the handler
    returns. *)
Definition well_served (w : world) (c : rpc_state) : Prop :=
  (forall server run, c_run c = Running server run -> forall app, is_Some (run app)) /\
  forall server rs, w_heap w !! server = Some rs ->
    exists rs' run, dispatch (rq_svcMeth (c_req c)) (rq_args (c_req c)) rs = Some (rs', run) /\
      forall app, is_Some (run app).

(** Dispatching changes only the count. *)
Lemma dispatch_again m args (rs rs' : Server (App := App)) run :
  dispatch m args rs = Some (rs', run) -> exists rs2, dispatch m args rs' = Some (rs2, run).
Proof.
  unfold dispatch. intros Hd. apply bind_Some in Hd as ([a b] & Hs & Hd). injection Hd as <- <-. rewrite Hs. simpl. eauto.
Qed.

Lemma process_look_cases e (rn : Network (Name := Name)) :
  (exists tg, process_look e rn = Looked tg) \/ process_look e rn = Replying false no_reply.
Proof.
  unfold process_look, readEndnameInfo. destruct (default false _); [|by right].
  destruct (default None (rn_connections rn !! e)) as [sn|]; [|by right].
  destruct (default None (rn_servers rn !! sn)); [left; eauto|by right].
Qed.

(** A step at hand: the RPC is there afterwards, nearer to its end. *)
Definition advances (w : world) (id : nat) (c : rpc_state) (ev : net_event) : Prop :=
  of_call id ev /\ exists w' c', net_exec ev w = Some w' /\ w_calls w' !! id = Some c' /\ rank c' < rank c /\
    well_served w' c'.

Lemma advances_enter w id c tg :
  w_calls w !! id = Some c -> well_served w c -> c_pc c = Waiting tg -> c_run c = Started (tg_server tg) ->
  is_Some (w_heap w !! tg_server tg) -> advances w id c (NEnter id).
Proof.
  intros Hc [Hrun Hserve] Hp Hr [rs Hrs]. split; [done|]. destruct (Hserve _ _ Hrs) as (rs' & run & Hd & Htot).
  eexists _, (mkRpc (c_req c) (Waiting tg) (Running (tg_server tg) run)). split_and!.
  - simpl. rewrite Hc. simpl. rewrite Hr, Hrs. simpl. rewrite Hd, Hp. simpl. reflexivity.
  - simpl. by rewrite lookup_insert_eq.
  - unfold rank. rewrite Hp, Hr. simpl. lia.
  - split; simpl.
    + intros s r [= _ <-]. done.
    + intros s rs2 [[<- <-]|[_ Hs]]%lookup_insert_Some; [|by eapply Hserve].
      apply dispatch_again in Hd as [rs3 Hd]. eauto.
Qed.

Lemma advances_some w id c :
  net_inv w -> w_calls w !! id = Some c -> well_served w c -> rank c <> 0 -> exists ev, advances w id c ev.
Proof.
  intros HI Hc Hw Hr. pose proof (ni_pc _ HI _ _ Hc) as Hpc. unfold pc_ok in Hpc.
  pose proof Hw as [Hrun Hserve].
  assert (forall ev w1 p run', of_call id ev ->
    net_exec ev w = Some (set_call id (mkRpc (c_req c) p run') w1) -> w_heap w1 = w_heap w ->
    rank (mkRpc (c_req c) p run') < rank c -> (forall s f, run' = Running s f -> c_run c = Running s f) ->
    advances w id c ev) as Hmk.
  { intros ev w1 p run' Hof Hx Hh Hlt Hrn. split; [done|]. eexists _, _. split_and!; [exact Hx|simpl; by rewrite lookup_insert_eq|done|].
    split; simpl; [intros s f Hf; by eapply Hrun, Hrn|]. by rewrite Hh. }
  unfold rank in *. destruct (c_pc c) as [| |tg|tg|tg rep|b rep|res] eqn:Ep; [| | | | | |done].
  - destruct (w_loop w) eqn:El; [exists (NSend id)|exists (NDestroyed id)]; eapply Hmk;
      [done|simpl; rewrite Hc; simpl; rewrite Ep, El; reflexivity|done|simpl; lia|done
      |done|simpl; rewrite Hc; simpl; rewrite Ep, (ni_loop _ HI El); reflexivity|done|simpl; lia|done].
  - exists (NLook id). eapply Hmk; [done|simpl; rewrite Hc; simpl; rewrite Ep; reflexivity|done| |done].
    simpl. destruct (process_look_cases (rq_endname (c_req c)) (w_net w)) as [[tg ->]| ->]; lia.
  - exists (NDispatch id 100). assert (dropped (tg_reliable tg) 100 = false) as Hdrop by (unfold dropped; by destruct (tg_reliable tg)).
    eapply Hmk; [done|simpl; rewrite Hc; simpl; rewrite Ep, Hdrop; reflexivity|done|simpl; lia|done].
  - destruct Hpc as [[Hr1 Hh1]|[[run Hr1]|(rep & Hr1 & _)]].
    + exists (NEnter id). by apply (advances_enter w id c tg).
    + destruct (Hrun _ _ Hr1 (w_app w)) as [[app' rep] Happ]. exists (NHandler id).
      eapply Hmk; [done|simpl; rewrite Hc; simpl; rewrite Hr1, Happ, Ep; reflexivity|done|simpl; rewrite Hr1; lia|done].
    + exists (NTake id). eapply Hmk; [done|simpl; rewrite Hc; simpl; rewrite Ep, Hr1; reflexivity|done|simpl; rewrite Hr1; lia|done].
  - exists (NFinish id 100 0).
    destruct (process_finish (rq_endname (c_req c)) tg rep 100 0 (w_net w)) as [p rn] eqn:Ef.
    pose proof (process_finish_spec _ _ _ _ _ _ _ _ Ef) as (_ & b & rep' & -> & _).
    eapply Hmk; [done|simpl; rewrite Hc; simpl; rewrite Ep, Ef; reflexivity|done|simpl; lia|done].
  - exists (NReturn id). eapply Hmk; [done|simpl; rewrite Hc; simpl; rewrite Ep; reflexivity|done|simpl; lia|done].
Qed.

Lemma returns_within n : forall w id c,
  net_inv w -> w_calls w !! id = Some c -> well_served w c -> rank c <= n ->
  exists evs w' c' res, length evs <= n /\ Forall (of_call id) evs /\ net_exec_all evs w = Some w' /\
    w_calls w' !! id = Some c' /\ c_pc c' = Returned res.
Proof.
  induction n as [|n IH]; intros w id c HI Hc Hw Hn;
    (destruct (decide (rank c = 0)) as [Hz|Hz];
      [exists [], w, c; unfold rank in Hz; destruct (c_pc c) eqn:Ep; try done;
         [by destruct (c_run c)|eexists; split_and!; try done; simpl; lia]|]); [lia|].
  destruct (advances_some _ _ _ HI Hc Hw Hz) as (ev & Hof & w1 & c1 & Hx & Hc1 & Hlt & Hw1).
  assert (net_inv w1) as HI1 by (eapply (net_inv_step any_event); [done|by exists ev]).
  destruct (IH w1 id c1 HI1 Hc1 Hw1 ltac:(lia)) as (evs & w' & c' & res & Hl & Hall & Hxs & Hc' & Hp).
  exists (ev :: evs), w', c', res. split_and!; [simpl; lia|by constructor|simpl; by rewrite Hx|done|done].
Qed.

(** No step moves an RPC away from its end. *)
Lemma rank_falls w w' id c ev :
  net_inv w -> w_calls w !! id = Some c -> net_exec ev w = Some w' ->
  exists c', w_calls w' !! id = Some c' /\ rank c' <= rank c.
Proof.
  intros HI Hc Hx. pose proof (ni_pc _ HI _ _ Hc) as Hpc. unfold pc_ok in Hpc.
  assert (of_call id ev \/ ~ of_call id ev) as [Hof|Hof].
  { destruct ev as [j ?|j|j|j|j ?|j|j|j|j|j ? ?|j| | | | | | | | | | | |]; simpl;
      try (right; by intros []); destruct (decide (j = id)); auto. }
  2:{ destruct (net_exec_other _ _ _ _ Hof Hx) as [-> _]. eauto. }
  destruct ev; try done; simpl in Hof; subst; simpl in Hx; rewrite Hc in Hx; simpl in Hx; [done|..]; unfold rank;
    net_invert Hx; try (eexists; split; [simpl; by rewrite lookup_insert_eq|simpl; try lia]).
  - destruct (process_look_cases (rq_endname (c_req c)) (w_net w)) as [[tg ->]| ->]; lia.
  - repeat case_match; simplify_eq; try lia.
  - repeat case_match; simplify_eq; try lia.
  - repeat case_match; lia.
  - exists c. split; [done|]. by match goal with Hp : c_pc c = _ |- _ => rewrite Hp end.
  - match goal with Hf : process_finish _ _ _ _ _ _ = _ |- _ =>
      apply process_finish_spec in Hf as (_ & b & rep' & -> & _) end. lia.
Qed.

(** Every Call returns: an RPC in progress at servers whose handlers return has
    at any time a way of at most eight steps of its own, whatever the others do not
    do, to the return of its Call, and no step of anybody moves it away from there. *)
Theorem call_returns w0 w id c :
  net_init w0 -> rtc (net_step any_event) w0 w -> w_calls w !! id = Some c -> well_served w c ->
  (exists evs w' c' res, length evs <= 8 /\ Forall (of_call id) evs /\ net_exec_all evs w = Some w' /\
     w_calls w' !! id = Some c' /\ c_pc c' = Returned res) /\
  (forall ev w', net_exec ev w = Some w' -> exists c', w_calls w' !! id = Some c' /\ rank c' <= rank c).
Proof.
  intros H0 Hr Hc Hw. assert (net_inv w) as HI by (eapply net_inv_run; [by apply net_inv_init|done]). split.
  - eapply returns_within; eauto. unfold rank. repeat case_match; lia.
  - intros ev w' Hx. by eapply rank_falls.
Qed.

End LabrpcSafe.

(** ** A small network

    One end, one server with one counting service; the first RPC is answered, the
    second finds its server deleted while the handler runs. *)

Abbreviation small_world := (World (Name := nat) (App := nat)).

Definition count_handler : handler (App := nat) := fun args n => Some (S n, args).

Definition count_service : Service (App := nat) :=
  MakeService "Counter" [mkMethod "Add" "" 3 true 0 count_handler; mkMethod "hidden" "labrpc" 3 true 0 count_handler].

Definition count_server : Server (App := nat) := AddService count_service MakeServer.

Definition net0 : small_world := mkWorld MakeNetwork true ∅ 0 ∅ [].

Definition add_req : reqMsg := mkReqMsg 7 "Counter.Add" [].

Definition net_after (evs : list (net_event (Name := nat) (App := nat))) (w : small_world) : small_world :=
  default w (net_exec_all evs w).

Lemma net_after_run P evs w : Forall P evs -> rtc (net_step P) w (net_after evs w).
Proof.
  unfold net_after. intros Hall. destruct (net_exec_all evs w) as [w'|] eqn:E; simpl; [|apply rtc_refl].
  revert w E. induction Hall as [|ev evs Hev _ IH]; intros w E; simpl in E; [injection E as <-; apply rtc_refl|].
  apply bind_Some in E as (w1 & H1 & E). eapply rtc_l; [by exists ev|by apply IH].
Qed.

Lemma any_events (evs : list (net_event (Name := nat) (App := nat))) : Forall any_event evs.
Proof. by apply Forall_forall. Qed.

Definition net_up : small_world := net_after
  [NNewServer 0 count_server; NAddServer 1 0; NMakeEnd 7; NConnect 7 1; NEnable 7 true;
   NReliable false; NCall 0 add_req] net0.

Definition net_answered : small_world := net_after
  [NSend 0; NLook 0; NDispatch 0 500; NEnter 0; NHandler 0; NTick 0; NTake 0; NFinish 0 500 0; NReturn 0] net_up.

Definition net_deleted : small_world := net_after
  [NCall 1 add_req; NSend 1; NLook 1; NDispatch 1 500; NEnter 1; NDeleteServer 1] net_answered.

Definition net_late : small_world := net_after [NHandler 1; NTake 1; NFinish 1 500 0; NReturn 1] net_deleted.

Definition call_at (w : small_world) (id : nat) : rpc :=
  default (mkRpc add_req Calling NotStarted) (w_calls w !! id).

Definition first_exec : nat * nat * replyMsg := (0, 0, mkReplyMsg true []).

Definition second_exec : nat * nat * replyMsg := (1, 0, mkReplyMsg true []).

Lemma net0_init : net_init net0.
Proof. by split_and!. Qed.

Lemma run_answered : rtc (net_step any_event) net0 net_answered.
Proof. etrans; apply net_after_run, any_events. Qed.

Lemma run_deleted : rtc (net_step any_event) net0 net_deleted.
Proof. etrans; [apply run_answered|apply net_after_run, any_events]. Qed.

Lemma net_answered_call : w_calls net_answered !! 0 = Some (call_at net_answered 0).
Proof. vm_compute. reflexivity. Qed.

Lemma net_answered_returned : c_pc (call_at net_answered 0) = Returned (Some []).
Proof. vm_compute. reflexivity. Qed.

Lemma net_deleted_execs : w_execs net_deleted = [first_exec].
Proof. vm_compute. reflexivity. Qed.

Lemma net_deleted_servers : map_to_list (rn_servers (w_net net_deleted)) = [(1, None)].
Proof. vm_compute. reflexivity. Qed.

Lemma net_late_execs : w_execs net_late = [first_exec; second_exec].
Proof. vm_compute. reflexivity. Qed.

Lemma net_late_call : w_calls net_late !! 1 = Some (call_at net_late 1).
Proof. vm_compute. reflexivity. Qed.

Lemma net_up_call : w_calls net_up !! 0 = Some (call_at net_up 0).
Proof. vm_compute. reflexivity. Qed.

Lemma net_up_not_started : c_run (call_at net_up 0) = NotStarted.
Proof. vm_compute. reflexivity. Qed.

Lemma net_up_heap : map_to_list (w_heap net_up) = [(0, count_server)].
Proof. vm_compute. reflexivity. Qed.

Lemma net_late_app : w_app net_late = 2.
Proof. vm_compute. reflexivity. Qed.

Lemma run_up : rtc (net_step any_event) net0 net_up.
Proof. apply net_after_run, any_events. Qed.

Lemma run_late : rtc (net_step (not_added 0)) net_deleted net_late.
Proof. apply net_after_run. by repeat constructor. Qed.

#[local] Opaque net0 net_up net_answered net_deleted net_late.

Lemma rpc_at_most_once_witness :
  w_execs net_late = [first_exec; second_exec] /\ w_app net_late = 2 /\
  NoDup (exec_id <$> w_execs net_answered) /\
  exists server, (0, server, mkReplyMsg true []) ∈ w_execs net_answered.
Proof.
  split; [exact net_late_execs|]. split; [exact net_late_app|].
  destruct (rpc_at_most_once net0 net_answered net0_init run_answered) as (Hnd & _ & Hret).
  split; [exact Hnd|]. exact (Hret 0 _ [] net_answered_call net_answered_returned).
Defined.

Lemma deleted_server_silent_witness :
  second_exec ∈ w_execs net_late /\ c_pc (call_at net_late 1) <> Returned (Some []).
Proof.
  assert (second_exec ∈ w_execs net_late) as Hin by (rewrite net_late_execs; right; left).
  split; [exact Hin|].
  apply (deleted_server_silent net0 net_deleted net_late 0 1 (mkReplyMsg true [])); [exact net0_init|exact run_deleted| | | | |].
  - intros [srv Hsrv%elem_of_map_to_list]. rewrite net_deleted_servers in Hsrv.
    apply list_elem_of_singleton in Hsrv. done.
  - exact run_late.
  - exact Hin.
  - rewrite net_deleted_execs. intros Hin'%list_elem_of_singleton. done.
  - exact net_late_call.
Defined.

Lemma call_returns_witness : exists evs w' c' res,
  length evs <= 8 /\ net_exec_all evs net_up = Some w' /\ w_calls w' !! 0 = Some c' /\ c_pc c' = Returned res.
Proof.
  destruct (call_returns net0 net_up 0 (call_at net_up 0)) as [(evs & w' & c' & res & Hl & _ & Hx & Hc & Hp) _].
  - exact net0_init.
  - exact run_up.
  - exact net_up_call.
  - split; [intros server run; rewrite net_up_not_started; done|]. intros server rs Hrs%elem_of_map_to_list.
    rewrite net_up_heap in Hrs. apply list_elem_of_singleton in Hrs. injection Hrs as -> ->.
    eexists _, _. split; [reflexivity|]. intros n. eexists. reflexivity.
  - exists evs, w', c', res. split; [exact Hl|]. split; [exact Hx|]. split; [exact Hc|exact Hp].
Defined.
