(* ===== verification/Demux.v ===== *)
(** * Calls over a connection ([tester1/demux], [tester1/sockrpc])

    The tester talks to the processes of the servers over sockets.  [transport.go] puts
    messages with a length in front on the connection; [dmxclnt.go] and [dmxsrv.go] run
    many calls over one connection and match the replies by tag ([callmap.go]);
    [rpcclnt.go] and [rpcsrv.go] are remote calls on top.  Every critical section is a
    step, every failure of the connection an event that may cut what is on its way
    anywhere.  [DemuxSafe] has the theorems. *)

From S2P Require Import Prelude.
From S2P Require Import Persister.
From S2P Require Import Labrpc.

(** ** Encoding

    [encoding/gob] on the types sent, and the law the code relies on. *)
Class Gob (A : Type) := {
  gob_encode : A -> option bytes;
  gob_decode : bytes -> option A;
}.

Class GobOk (A : Type) `{Gob A} : Prop := gob_ok (a : A) b : gob_encode a = Some b -> gob_decode b = Some a.

(** [labrpc.Marshall] and [labrpc.Unmarshall]; [None] is [log.Fatalf]. *)
Definition Marshall {A} `{Gob A} (args : A) : option bytes := gob_encode args.

Definition Unmarshall {A} `{Gob A} (b : bytes) : option A := gob_decode b.

(** ** [transport.go] *)

Abbreviation Ttag := N.

Record msg : Type := mkMsg { m_Tag : Ttag; m_Data : bytes; m_Ok : bool }.

Record InitMsg : Type := mkInitMsg { im_Clnt : string }.

(** [uint32(len(b))] *)
Definition len32 (b : bytes) : N := (N.of_nat (length b) mod 2 ^ 32)%N.

Section transport.
Context `{Gob msg, Gob InitMsg}.

(** What [WriteCall] writes. *)
Definition WriteCall (m : msg) : option bytes := b ← Marshall m; Some (le_bytes 4 (len32 b) ++ b).

(** What [ReadCall] does with the bytes that have arrived: it blocks for more, returns
    an error when there will be none - [io.EOF] at the beginning of a part - or the
    message; a message that cannot be decoded ends the process. *)
Inductive read_result : Type :=
  | RWait
  | RErr (eof : bool)
  | RMsg (m : msg) (rest : bytes)
  | RFatal.

Definition ReadCall (closed : bool) (bs : bytes) : read_result :=
  if decide (length bs < 4) then if closed then RErr (bool_decide (bs = [])) else RWait
  else
    let nbyte := N.to_nat (le_value (take 4 bs)) in
    let rest := drop 4 bs in
    if decide (length rest < nbyte) then if closed then RErr (bool_decide (rest = [])) else RWait
    else match Unmarshall (take nbyte rest) with Some m => RMsg m (drop nbyte rest) | None => RFatal end.

(** The bytes on their way in one direction; [pp_closed]: no more will come. *)
Record pipe : Type := mkPipe { pp_bytes : bytes; pp_closed : bool }.

Definition pipe_write (b : bytes) (p : pipe) : pipe :=
  if pp_closed p then p else mkPipe (pp_bytes p ++ b) false.

(** The connection breaks: only some of the bytes arrive. *)
Definition pipe_cut (k : nat) (p : pipe) : pipe := mkPipe (take k (pp_bytes p)) true.

(** ** [callmap.go] *)

Record callMap : Type := mkCallMap { cm_closed : bool; cm_calls : gmap Ttag nat }.

Definition newCallMap : callMap := mkCallMap false ∅.

Definition callMap_close (cm : callMap) : callMap := mkCallMap true (cm_calls cm).

Definition isClosed (cm : callMap) : bool := cm_closed cm.

Definition callMap_put (tag : Ttag) (ch : nat) (cm : callMap) : option callMap :=
  if cm_closed cm then None else Some (mkCallMap false (<[tag := ch]> (cm_calls cm))).

Definition callMap_remove (tag : Ttag) (cm : callMap) : callMap * option nat :=
  match cm_calls cm !! tag with
  | Some ch => (mkCallMap (cm_closed cm) (delete tag (cm_calls cm)), Some ch)
  | None => (cm, None)
  end.

(** In the order of a map's iteration. *)
Definition outstanding (cm : callMap) (ts : list Ttag) : bool :=
  bool_decide (Permutation ts (map_to_list (cm_calls cm)).*1).

(** ** [dmxclnt.go] *)

(** [reply]; [r_err]: the error is not nil. *)
Record reply : Type := mkReply { r_rep : bytes; r_ok : bool; r_err : bool }.

(** A call of [SendReceive], between its critical sections. *)
Inductive sender : Type :=
  | SrStart (b : bytes)
  | SrTagged (t : Ttag) (b : bytes)
  | SrPut (t : Ttag) (b : bytes)  (* its channel is in the map *)
  | SrSent (t : Ttag) (b : bytes)  (* waiting on its channel *)
  | SrDone (t : Ttag) (b : bytes) (r : reply).

(** The goroutine that reads replies. *)
Inductive reader : Type :=
  | RdLoop
  | RdReply (ch : nat) (r : reply) (failing : option (list Ttag))  (* sending on a channel *)
  | RdClosed  (* the map is closed *)
  | RdFailing (ts : list Ttag)  (* calls still to be answered with an error *)
  | RdEnd
  | RdFatal.  (* log.Fatalf *)

Record DemuxClnt : Type := mkDemuxClnt {
  dc_callmap : callMap;
  dc_nextTag : Ttag;
  dc_reader : reader;
  dc_senders : list sender;
}.

(** [tag]: a 32-bit counter. *)
Definition DemuxClnt_tag (dc : DemuxClnt) : Ttag * Ttag := (dc_nextTag dc, ((dc_nextTag dc + 1) mod 2 ^ 32)%N).

(** [reply], up to the channel. *)
Definition DemuxClnt_reply (tag : Ttag) (r : reply) (failing : option (list Ttag)) (dc : DemuxClnt) : DemuxClnt :=
  let '(cm, ch) := callMap_remove tag (dc_callmap dc) in
  mkDemuxClnt cm (dc_nextTag dc) (match ch with Some ch => RdReply ch r failing | None => RdFatal end) (dc_senders dc).

Definition set_reader (rd : reader) (dc : DemuxClnt) : DemuxClnt :=
  mkDemuxClnt (dc_callmap dc) (dc_nextTag dc) rd (dc_senders dc).

Definition set_sender (i : nat) (s : sender) (dc : DemuxClnt) : DemuxClnt :=
  mkDemuxClnt (dc_callmap dc) (dc_nextTag dc) (dc_reader dc) (<[i := s]> (dc_senders dc)).

(** ** [dmxsrv.go] *)

(** The goroutine of a request: its reply once it is served, and whether it was sent. *)
Record job : Type := mkJob { j_tag : Ttag; j_req : bytes; j_rep : option (bytes * bool); j_sent : bool }.

Inductive srv_reader : Type :=
  | SvInit  (* NewDemuxSrv *)
  | SvLoop
  | SvEnd
  | SvFatal.  (* log.Fatalf *)

(** [ds_served]: every request served with its reply. *)
Record DemuxSrv : Type := mkDemuxSrv {
  ds_closed : bool;
  ds_reader : srv_reader;
  ds_jobs : list job;
  ds_served : list (Ttag * bytes * (bytes * bool));
}.

Definition setClosed (ds : DemuxSrv) : DemuxSrv := mkDemuxSrv true (ds_reader ds) (ds_jobs ds) (ds_served ds).

(** ** Both sides *)

Record conn : Type := mkConn { cn_clnt : DemuxClnt; cn_srv : DemuxSrv; cn_c2s : pipe; cn_s2c : pipe }.

Definition set_clnt (dc : DemuxClnt) (w : conn) : conn := mkConn dc (cn_srv w) (cn_c2s w) (cn_s2c w).

Definition set_srv (ds : DemuxSrv) (w : conn) : conn := mkConn (cn_clnt w) ds (cn_c2s w) (cn_s2c w).

(** After [NewDemuxClnt]: the first message, under tag 0, is on its way. *)
Definition conn_init (clnt : string) : option conn :=
  b ← Marshall (mkInitMsg clnt);
  f ← WriteCall (mkMsg 0 b true);
  Some (mkConn (mkDemuxClnt newCallMap 1 RdLoop []) (mkDemuxSrv false SvInit [] []) (mkPipe f false) (mkPipe [] false)).

Inductive demux_event : Type :=
  | DCall (b : bytes)
  | DTag (i : nat)
  | DPut (i : nat)
  | DWrite (i : nat)
  | DRead
  | DOutstanding (ts : list Ttag)
  | DFail
  | DDeliver
  | DClose  (* Close, after the connection was closed *)
  | DSrvRead
  | DServe (j : nat) (rep : bytes) (ok : bool)
  | DSrvWrite (j : nat)
  | DSrvClose  (* then the connection breaks *)
  | DCutRequests (k : nat)
  | DCutReplies (k : nat).

(** The critical sections of [SendReceive]. *)
Definition SendReceive_tag (i : nat) (w : conn) : option conn :=
  let dc := cn_clnt w in
  s ← dc_senders dc !! i;
  match s with
  | SrStart b =>
      let '(t, next) := DemuxClnt_tag dc in
      Some (set_clnt (set_sender i (SrTagged t b) (mkDemuxClnt (dc_callmap dc) next (dc_reader dc) (dc_senders dc))) w)
  | _ => None
  end.

Definition SendReceive_put (i : nat) (w : conn) : option conn :=
  let dc := cn_clnt w in
  s ← dc_senders dc !! i;
  match s with
  | SrTagged t b =>
      match callMap_put t i (dc_callmap dc) with
      | Some cm => Some (set_clnt (set_sender i (SrPut t b) (mkDemuxClnt cm (dc_nextTag dc) (dc_reader dc) (dc_senders dc))) w)
      | None => Some (set_clnt (set_sender i (SrDone t b (mkReply [] false true)) dc) w)
      end
  | _ => None
  end.

Definition SendReceive_write (i : nat) (w : conn) : option conn :=
  let dc := cn_clnt w in
  s ← dc_senders dc !! i;
  match s with
  | SrPut t b =>
      f ← WriteCall (mkMsg t b true);
      Some (mkConn (set_sender i (SrSent t b) dc) (cn_srv w) (pipe_write f (cn_c2s w)) (cn_s2c w))
  | _ => None
  end.

(** [ch <- reply] meets [<-ch]. *)
Definition SendReceive_receive (w : conn) : option conn :=
  let dc := cn_clnt w in
  match dc_reader dc with
  | RdReply i r failing =>
      s ← dc_senders dc !! i;
      match s with
      | SrSent t b =>
          Some (set_clnt (set_sender i (SrDone t b r)
            (set_reader (match failing with Some ts => RdFailing ts | None => RdLoop end) dc)) w)
      | _ => None
      end
  | _ => None
  end.

(** The client's [reader]: the loop, and what follows it. *)
Definition DemuxClnt_reader (w : conn) : option conn :=
  let dc := cn_clnt w in
  match dc_reader dc with
  | RdLoop =>
      match ReadCall (pp_closed (cn_s2c w)) (pp_bytes (cn_s2c w)) with
      | RMsg m rest =>
          Some (mkConn (DemuxClnt_reply (m_Tag m) (mkReply (m_Data m) (m_Ok m) false) None dc) (cn_srv w) (cn_c2s w)
            (mkPipe rest (pp_closed (cn_s2c w))))
      | RErr _ =>
          Some (set_clnt (mkDemuxClnt (callMap_close (dc_callmap dc)) (dc_nextTag dc) RdClosed (dc_senders dc)) w)
      | RWait => None
      | RFatal => Some (set_clnt (set_reader RdFatal dc) w)
      end
  | _ => None
  end.

Definition DemuxClnt_outstanding (ts : list Ttag) (w : conn) : option conn :=
  let dc := cn_clnt w in
  match dc_reader dc with
  | RdClosed => if outstanding (dc_callmap dc) ts then Some (set_clnt (set_reader (RdFailing ts) dc) w) else None
  | _ => None
  end.

Definition DemuxClnt_fail (w : conn) : option conn :=
  let dc := cn_clnt w in
  match dc_reader dc with
  | RdFailing (t :: ts) => Some (set_clnt (DemuxClnt_reply t (mkReply [] false true) (Some ts) dc) w)
  | RdFailing [] => Some (set_clnt (set_reader RdEnd dc) w)
  | _ => None
  end.

(** [Close], when the connection is closed; a second one changes nothing. *)
Definition DemuxClnt_Close (w : conn) : option conn :=
  let dc := cn_clnt w in
  if pp_closed (cn_s2c w) then
    Some (set_clnt (mkDemuxClnt (callMap_close (dc_callmap dc)) (dc_nextTag dc) (dc_reader dc) (dc_senders dc)) w)
  else None.

(** [NewDemuxSrv] reads the first message, [reader] the others. *)
Definition DemuxSrv_reader (w : conn) : option conn :=
  let ds := cn_srv w in
  let c2s := cn_c2s w in
  let read rd jobs rest :=
    mkConn (cn_clnt w) (mkDemuxSrv (ds_closed ds) rd jobs (ds_served ds)) (mkPipe rest (pp_closed c2s)) (cn_s2c w) in
  match ds_reader ds, ReadCall (pp_closed c2s) (pp_bytes c2s) with
  | SvInit, RMsg m rest =>
      Some (read (match Unmarshall (A := InitMsg) (m_Data m) with Some _ => SvLoop | None => SvFatal end) (ds_jobs ds) rest)
  | SvInit, RErr _ | SvInit, RFatal | SvLoop, RFatal => Some (read SvFatal (ds_jobs ds) (pp_bytes c2s))
  | SvLoop, RMsg m rest => Some (read SvLoop (ds_jobs ds ++ [mkJob (m_Tag m) (m_Data m) None false]) rest)
  | SvLoop, RErr eof => Some (set_srv (mkDemuxSrv (ds_closed ds || eof) SvEnd (ds_jobs ds) (ds_served ds)) w)
  | _, _ => None
  end.

(** The goroutine of a request. *)
Definition DemuxSrv_serve (j : nat) (rep : bytes) (ok : bool) (w : conn) : option conn :=
  let ds := cn_srv w in
  x ← ds_jobs ds !! j;
  match j_rep x with
  | None => Some (set_srv (mkDemuxSrv (ds_closed ds) (ds_reader ds) (<[j := mkJob (j_tag x) (j_req x) (Some (rep, ok)) false]> (ds_jobs ds))
              (ds_served ds ++ [(j_tag x, j_req x, (rep, ok))])) w)
  | Some _ => None
  end.

Definition DemuxSrv_write (j : nat) (w : conn) : option conn :=
  let ds := cn_srv w in
  x ← ds_jobs ds !! j;
  match j_rep x, j_sent x with
  | Some (rep, ok), false =>
      f ← WriteCall (mkMsg (j_tag x) rep ok);
      Some (mkConn (cn_clnt w) (mkDemuxSrv (ds_closed ds) (ds_reader ds) (<[j := mkJob (j_tag x) (j_req x) (Some (rep, ok)) true]> (ds_jobs ds)) (ds_served ds))
        (cn_c2s w) (pipe_write f (cn_s2c w)))
  | _, _ => None
  end.

(** The first [Close]; the transport is closed too. *)
Definition DemuxSrv_Close (w : conn) : option conn := Some (set_srv (setClosed (cn_srv w)) w).

Definition demux_exec (ev : demux_event) (w : conn) : option conn :=
  let dc := cn_clnt w in
  match ev with
  | DCall b => Some (set_clnt (mkDemuxClnt (dc_callmap dc) (dc_nextTag dc) (dc_reader dc) (dc_senders dc ++ [SrStart b])) w)
  | DTag i => SendReceive_tag i w
  | DPut i => SendReceive_put i w
  | DWrite i => SendReceive_write i w
  | DRead => DemuxClnt_reader w
  | DOutstanding ts => DemuxClnt_outstanding ts w
  | DFail => DemuxClnt_fail w
  | DDeliver => SendReceive_receive w
  | DClose => DemuxClnt_Close w
  | DSrvRead => DemuxSrv_reader w
  | DServe j rep ok => DemuxSrv_serve j rep ok w
  | DSrvWrite j => DemuxSrv_write j w
  | DSrvClose => DemuxSrv_Close w
  | DCutRequests k => Some (mkConn dc (cn_srv w) (pipe_cut k (cn_c2s w)) (cn_s2c w))
  | DCutReplies k => Some (mkConn dc (cn_srv w) (cn_c2s w) (pipe_cut k (cn_s2c w)))
  end.

Definition demux_step (w w' : conn) : Prop := exists ev, demux_exec ev w = Some w'.

Fixpoint demux_exec_all (evs : list demux_event) (w : conn) : option conn :=
  match evs with
  | [] => Some w
  | ev :: evs' => w' ← demux_exec ev w; demux_exec_all evs' w'
  end.

Lemma demux_exec_run evs : forall w w', demux_exec_all evs w = Some w' -> rtc demux_step w w'.
Proof.
  induction evs as [|ev evs IH]; intros w w'; simpl; [intros [= <-]; apply rtc_refl|].
  intros (w1 & H1 & H2)%bind_Some. eapply rtc_l; [by exists ev|by apply IH].
Qed.

End transport.

(** ** [sockrpc] *)

Record RPCArgs : Type := mkRPCArgs { ra_Method : string; ra_Args : bytes }.

Section sockrpc.
Context `{Gob RPCArgs}.

(** [RPC]: what it sends, and what it makes of the reply. *)
Definition RPC_request (method : string) (args : bytes) : option bytes := Marshall (mkRPCArgs method args).

Definition RPC_reply (r : reply) : bytes * bool := if r_err r then ([], false) else (r_rep r, r_ok r).

(** [RPCMarshall]: what it sends, and the reply it decodes, if any. *)
Definition RPCMarshall_request {A} `{Gob A} (method : string) (args : A) : option bytes :=
  b ← Marshall args; RPC_request method b.

Definition RPCMarshall_reply {R} `{Gob R} (r : reply) : option (option R) :=
  let '(rep, ok) := RPC_reply r in
  if ok then x ← Unmarshall rep; Some (Some x) else Some None.

(** [RPCSrv.ServeRequest], on the services of [labrpc]. *)
Definition ServeRequest {App} (b : bytes) (rs : Server (App := App)) (app : App)
    : option (Server (App := App) * App * (bytes * bool)) :=
  req ← Unmarshall b;
  Server_Dispatch (ra_Method req) (ra_Args req) rs app.
End sockrpc.

#[global] Arguments SendReceive_tag i w /.
#[global] Arguments SendReceive_put i w /.
#[global] Arguments SendReceive_write {_} i w /.
#[global] Arguments SendReceive_receive w /.
#[global] Arguments DemuxClnt_reader {_} w /.
#[global] Arguments DemuxClnt_outstanding ts w /.
#[global] Arguments DemuxClnt_fail w /.
#[global] Arguments DemuxClnt_Close w /.
#[global] Arguments DemuxSrv_reader {_ _} w /.
#[global] Arguments DemuxSrv_Close w /.
#[global] Arguments DemuxSrv_serve j rep ok w /.
#[global] Arguments DemuxSrv_write {_} j w /.
