(* ===== verification/DemuxSafe.v ===== *)
(** * Calls over a connection are matched with their replies

    The proofs of [Demux]: messages survive the framing, and a connection that breaks
    anywhere loses messages only at its end; every call that is answered gets the reply
    of the one execution of its own request; and once the connection broke, every call
    returns.  At the end a connection is executed. *)

From S2P Require Import Prelude.
From S2P Require Import Persister.
From S2P Require Import Labrpc.
From S2P Require Import Demux.
From Stdlib Require Import Strings.Byte.

(** ** Frames *)

Section frames.
Context `{Gob msg, Gob InitMsg}.

(** What can be sent at all: a length fits into 32 bits. *)
Definition fits (m : msg) : Prop := exists b, Marshall m = Some b /\ (N.of_nat (length b) < 2 ^ 32)%N.

(** The bytes of a pipe are those of [ms], cut off somewhere when it is closed. *)
Definition carries (p : pipe) (ms : list msg) : Prop :=
  exists fs, Forall2 (fun m f => fits m /\ WriteCall m = Some f) ms fs /\ pp_bytes p `prefix_of` mjoin fs /\
    (pp_closed p = false -> pp_bytes p = mjoin fs).

Lemma WriteCall_frame m f : fits m -> WriteCall m = Some f ->
  exists b, Marshall m = Some b /\ f = le_bytes 4 (N.of_nat (length b)) ++ b /\ (N.of_nat (length b) < 2 ^ 32)%N.
Proof.
  intros (b & Hb & Hl) Hf. unfold WriteCall in Hf. rewrite Hb in Hf. simpl in Hf. injection Hf as <-.
  exists b. split; [done|]. split; [|done]. unfold len32. by rewrite N.mod_small.
Qed.

Lemma frame_header (b rest : bytes) : (N.of_nat (length b) < 2 ^ 32)%N ->
  take 4 (le_bytes 4 (N.of_nat (length b)) ++ rest) = le_bytes 4 (N.of_nat (length b)) /\
  drop 4 (le_bytes 4 (N.of_nat (length b)) ++ rest) = rest /\
  N.to_nat (le_value (le_bytes 4 (N.of_nat (length b)))) = length b.
Proof.
  intros Hl. assert (length (le_bytes 4 (N.of_nat (length b))) = 4) as H4 by apply le_bytes_length.
  split; [by apply take_app_length'|]. split; [by apply drop_app_length'|].
  rewrite le_value_le_bytes. simpl N.of_nat at 2. change (256 ^ 4)%N with (2 ^ 32)%N. rewrite N.mod_small by done. lia.
Qed.

(** A whole frame, and a part of one. *)
Lemma ReadCall_frame {GO : GobOk msg} m f rest closed :
  fits m -> WriteCall m = Some f -> ReadCall closed (f ++ rest) = RMsg m rest.
Proof.
  intros Hm Hf. destruct (WriteCall_frame _ _ Hm Hf) as (b & Hb & -> & Hl). rewrite <- app_assoc. unfold ReadCall.
  destruct (frame_header b (b ++ rest) Hl) as (-> & -> & ->).
  rewrite decide_False by (rewrite length_app, le_bytes_length; lia). rewrite decide_False by (rewrite length_app; lia).
  rewrite take_app_length, drop_app_length. unfold Unmarshall. by rewrite (gob_ok _ _ Hb).
Qed.

Lemma ReadCall_part m f p closed :
  fits m -> WriteCall m = Some f -> p `prefix_of` f -> length p < length f ->
  ReadCall closed p = RWait /\ closed = false \/ (exists eof, ReadCall closed p = RErr eof) /\ closed = true.
Proof.
  intros Hm Hf [q Hq] Hlt. destruct (WriteCall_frame _ _ Hm Hf) as (b & Hb & -> & Hl). unfold ReadCall.
  case_decide as H4; [destruct closed; [right; eauto|by left]|].
  destruct (frame_header b b Hl) as (Ht & Hd & Hv). rewrite Hq in Ht. rewrite take_app_le in Ht by lia. rewrite Ht, Hv.
  assert (length (drop 4 p) < length b) as Hlb.
  { rewrite length_drop. rewrite length_app, le_bytes_length in Hlt. lia. }
  rewrite decide_True by done. destruct closed; [right; eauto|by left].
Qed.

Lemma carries_read {GO : GobOk msg} p ms : carries p ms ->
  match ReadCall (pp_closed p) (pp_bytes p) with
  | RWait => pp_closed p = false
  | RErr _ => pp_closed p = true
  | RMsg m rest => exists ms', ms = m :: ms' /\ carries (mkPipe rest (pp_closed p)) ms'
  | RFatal => False
  end.
Proof.
  destruct p as [bs closed]. intros (fs & HF & Hpre & Heq). simpl in *. destruct HF as [|m f ms fs [Hm Hf] HF].
  - apply prefix_nil_inv in Hpre as ->. unfold ReadCall. rewrite decide_True by (simpl; lia). by destruct closed.
  - change (mjoin (f :: fs)) with (f ++ mjoin fs) in *.
    destruct (decide (length bs < length f)) as [Hlt|Hge].
    + assert (bs `prefix_of` f) as Hp.
      { destruct Hpre as [k Hk]. exists (drop (length bs) f).
        apply (f_equal (take (length f))) in Hk as Hk2. rewrite take_app_length in Hk2. rewrite take_app_ge in Hk2 by lia.
        rewrite Hk2 at 2. by rewrite drop_app_length, <- Hk2. }
      destruct (ReadCall_part m f bs closed Hm Hf Hp Hlt) as [[-> ->]|[[eof ->] ->]]; done.
    + destruct Hpre as [k Hk]. assert (exists rest, bs = f ++ rest) as [rest ->].
      { exists (drop (length f) bs). apply (f_equal (take (length f))) in Hk. rewrite take_app_length in Hk.
        rewrite take_app_le in Hk by lia. rewrite Hk at 1. by rewrite take_drop. }
      rewrite (ReadCall_frame m f rest closed Hm Hf). exists ms. split; [done|]. exists fs. split; [done|]. simpl.
      rewrite <- app_assoc in Hk. apply app_inv_head in Hk. split; [by exists k|].
      intros Hc. specialize (Heq Hc). by apply app_inv_head in Heq.
Qed.

Lemma carries_write p ms m f :
  carries p ms -> fits m -> WriteCall m = Some f -> carries (pipe_write f p) (if pp_closed p then ms else ms ++ [m]).
Proof.
  intros (fs & HF & Hpre & Heq) Hm Hf. unfold pipe_write. destruct (pp_closed p) eqn:Hc; [exists fs; by rewrite Hc|].
  exists (fs ++ [f]). split; [apply Forall2_app; [done|by repeat constructor]|]. simpl.
  rewrite join_app, Heq by done. simpl. rewrite app_nil_r. done.
Qed.

Lemma carries_cut p ms k : carries p ms -> carries (pipe_cut k p) ms.
Proof. intros (fs & HF & Hpre & _). exists fs. split; [done|]. simpl. split; [|done]. etrans; [apply prefix_take|done]. Qed.

Lemma carries_nil : carries (mkPipe [] false) [].
Proof. exists []. by split; [constructor|]. Qed.

End frames.

(** ** The client *)

Definition sr_tag (s : sender) : option Ttag :=
  match s with SrStart _ => None | SrTagged t _ | SrPut t _ | SrSent t _ | SrDone t _ _ => Some t end.

Definition sr_req (s : sender) : bytes :=
  match s with SrStart b | SrTagged _ b | SrPut _ b | SrSent _ b | SrDone _ b _ => b end.

(** The call's channel is in the map, or was. *)
Definition waits (s : sender) (t : Ttag) : Prop := exists b, s = SrPut t b \/ s = SrSent t b.

(** The call's request was sent. *)
Definition sent (s : sender) (t : Ttag) (b : bytes) : Prop := s = SrSent t b \/ exists r, s = SrDone t b r.

Definition asked (dc : DemuxClnt) (t : Ttag) (b : bytes) : Prop := exists i s, dc_senders dc !! i = Some s /\ sent s t b.

(** The calls still to be failed. *)
Definition failing_of (rd : reader) : option (list Ttag) :=
  match rd with RdReply _ _ fl => fl | RdFailing ts => Some ts | RdEnd => Some [] | _ => None end.

Definition looping (rd : reader) : Prop := rd = RdLoop \/ exists i r, rd = RdReply i r None.

Record clnt_inv (dc : DemuxClnt) : Prop := {
  ci_next : dc_nextTag dc = (1 + N.of_nat (length (omap sr_tag (dc_senders dc))))%N;
  ci_lt i s t : dc_senders dc !! i = Some s -> sr_tag s = Some t -> (0 < t < dc_nextTag dc)%N;
  ci_inj i j s s' t : dc_senders dc !! i = Some s -> dc_senders dc !! j = Some s' ->
    sr_tag s = Some t -> sr_tag s' = Some t -> i = j;
  ci_map t i : cm_calls (dc_callmap dc) !! t = Some i -> exists s, dc_senders dc !! i = Some s /\ waits s t;
  ci_waits i s t : dc_senders dc !! i = Some s -> waits s t ->
    cm_calls (dc_callmap dc) !! t = Some i \/ exists r fl, dc_reader dc = RdReply i r fl;
  ci_reply i r fl : dc_reader dc = RdReply i r fl -> exists s t, dc_senders dc !! i = Some s /\ waits s t /\
    cm_calls (dc_callmap dc) !! t = None;
  ci_failing ts : failing_of (dc_reader dc) = Some ts -> NoDup ts /\ cm_closed (dc_callmap dc) = true /\
    forall t, t ∈ ts <-> is_Some (cm_calls (dc_callmap dc) !! t);
  ci_loop i r : dc_reader dc = RdReply i r None -> r_err r = false;
  ci_closed : dc_reader dc = RdClosed -> cm_closed (dc_callmap dc) = true;
  ci_ok : dc_reader dc <> RdFatal;
}.

Lemma waits_tag s t : waits s t -> sr_tag s = Some t.
Proof. by intros [b [-> | ->]]. Qed.

Lemma sent_tag s t b : sent s t b -> sr_tag s = Some t.
Proof. by intros [-> |[r ->]]. Qed.

Lemma omap_insert_length {A B} (f : A -> option B) (l : list A) i x y :
  l !! i = Some x -> length (omap f (<[i := y]> l)) + length (option_list (f x)) = length (omap f l) + length (option_list (f y)).
Proof.
  intros Hi. rewrite insert_take_drop by (by eapply lookup_lt_Some). rewrite <- (take_drop_middle l i x Hi) at 3.
  rewrite !omap_app, !length_app. csimpl. destruct (f x), (f y); simpl; lia.
Qed.

Lemma omap_length_le {A B} (f : A -> option B) (l : list A) : length (omap f l) <= length l.
Proof. induction l as [|x l IH]; csimpl; [done|]. case_match; simpl; lia. Qed.

(** A call goes on without changing its tag. *)
Lemma clnt_sender dc i s s' :
  clnt_inv dc -> dc_senders dc !! i = Some s -> sr_tag s' = sr_tag s -> (forall t, waits s' t <-> waits s t) ->
  clnt_inv (set_sender i s' dc).
Proof.
  intros [Hn Hlt Hinj Hm Hw Hr Hf Hlp Hc Hok] Hi Ht Hwait.
  assert (forall j x, <[i := s']> (dc_senders dc) !! j = Some x -> exists y, dc_senders dc !! j = Some y /\
    sr_tag x = sr_tag y /\ forall t, waits x t <-> waits y t) as Hold.
  { intros j x [(-> & -> & _)|[_ Hj]]%list_lookup_insert_Some; [by exists s|by exists x]. }
  assert (forall j y, dc_senders dc !! j = Some y -> exists x, <[i := s']> (dc_senders dc) !! j = Some x /\
    sr_tag x = sr_tag y /\ forall t, waits x t <-> waits y t) as Hnew.
  { intros j y Hj. destruct (decide (i = j)) as [<-|Hne].
    - rewrite list_lookup_insert_eq by (by eapply lookup_lt_Some). rewrite Hi in Hj. injection Hj as <-. by exists s'.
    - rewrite list_lookup_insert_ne by done. by exists y. }
  constructor; simpl; try done.
  - rewrite Hn. pose proof (omap_insert_length sr_tag _ _ _ s' Hi) as Hl. rewrite Ht in Hl. do 2 f_equal. lia.
  - intros j x t (y & Hj & He & _)%Hold. rewrite He. by eapply Hlt.
  - intros j k x x' t (y & Hj & He & _)%Hold (y' & Hk & He' & _)%Hold. rewrite He, He'. by eapply Hinj.
  - intros t j (y & Hj & Hy)%Hm. destruct (Hnew _ _ Hj) as (x & ? & _ & ?). exists x. naive_solver.
  - intros j x t (y & Hj & _ & He)%Hold ?%He. by eapply Hw.
  - intros j r fl (y & t & Hj & Hy & ?)%Hr. destruct (Hnew _ _ Hj) as (x & ? & _ & ?). exists x, t. naive_solver.
Qed.

(** ** Both sides *)

(** Requests and replies on their way, and requests at the server: their tags. *)
Definition unsent (x : job) : bool := negb (j_sent x).

Definition live (ds : DemuxSrv) (qs rs : list msg) : list Ttag :=
  (m_Tag <$> qs) ++ (j_tag <$> filter unsent (ds_jobs ds)) ++ (m_Tag <$> rs).

Definition served_tags (ds : DemuxSrv) : list Ttag := (fun x => x.1.1) <$> ds_served ds.

Record link_inv (dc : DemuxClnt) (ds : DemuxSrv) (qs rs : list msg) : Prop := {
  lk_live : NoDup (live ds qs rs);
  lk_qs m : m ∈ qs -> asked dc (m_Tag m) (m_Data m) /\ m_Tag m ∉ served_tags ds;
  lk_jobs x : x ∈ ds_jobs ds -> asked dc (j_tag x) (j_req x) /\
    match j_rep x with
    | None => j_tag x ∉ served_tags ds /\ j_sent x = false
    | Some rep => (j_tag x, j_req x, rep) ∈ ds_served ds
    end;
  lk_rs m : m ∈ rs -> exists b, (m_Tag m, b, (m_Data m, m_Ok m)) ∈ ds_served ds;
  lk_served t b rep : (t, b, rep) ∈ ds_served ds -> asked dc t b;
  lk_once : NoDup (served_tags ds);
  lk_open t : looping (dc_reader dc) -> t ∈ live ds qs rs -> is_Some (cm_calls (dc_callmap dc) !! t);
  lk_reply i r fl : dc_reader dc = RdReply i r fl -> r_err r = false ->
    exists t b, dc_senders dc !! i = Some (SrSent t b) /\ (t, b, (r_rep r, r_ok r)) ∈ ds_served ds;
  lk_done i t b r : dc_senders dc !! i = Some (SrDone t b r) -> r_err r = false ->
    (t, b, (r_rep r, r_ok r)) ∈ ds_served ds;
}.

Section inv.
Context `{Gob msg, Gob InitMsg}.

Record conn_inv (w : conn) (qs rs : list msg) : Prop := {
  cn_clnt_ok : clnt_inv (cn_clnt w);
  cn_link : link_inv (cn_clnt w) (cn_srv w) qs rs;
  cn_requests : exists pre, carries (cn_c2s w) (pre ++ qs) /\
    match ds_reader (cn_srv w) with
    | SvInit => exists m, pre = [m] /\ is_Some (Unmarshall (A := InitMsg) (m_Data m))
    | SvLoop => pre = []
    | SvEnd => True
    | SvFatal => pp_closed (cn_c2s w) = true
    end;
  cn_replies : carries (cn_s2c w) rs;
  cn_end : dc_reader (cn_clnt w) = RdLoop \/ (exists i r, dc_reader (cn_clnt w) = RdReply i r None) \/ pp_closed (cn_s2c w) = true;
}.

End inv.

Lemma live_asked dc ds qs rs t : link_inv dc ds qs rs -> t ∈ live ds qs rs -> exists b, asked dc t b.
Proof.
  intros HL Ht. unfold live in Ht. rewrite !elem_of_app, !list_elem_of_fmap in Ht.
  destruct Ht as [(m & -> & Hm)|[(x & -> & Hx)|(m & -> & Hm)]].
  - destruct (lk_qs _ _ _ _ HL _ Hm). eauto.
  - apply list_elem_of_filter in Hx as [_ Hx]. destruct (lk_jobs _ _ _ _ HL _ Hx). eauto.
  - destruct (lk_rs _ _ _ _ HL _ Hm) as [b Hb]. exists b. by eapply (lk_served _ _ _ _ HL).
Qed.

Lemma asked_one dc t b i s : clnt_inv dc -> asked dc t b -> dc_senders dc !! i = Some s -> sr_tag s = Some t -> sent s t b.
Proof.
  intros HC (j & s' & Hj & Hs) Hi Ht. pose proof (sent_tag _ _ _ Hs) as Ht'.
  assert (i = j) as -> by by eapply (ci_inj _ HC). assert (s' = s) as -> by congruence. done.
Qed.

(** ** Steps of the client *)

Lemma clnt_call dc b :
  clnt_inv dc -> clnt_inv (mkDemuxClnt (dc_callmap dc) (dc_nextTag dc) (dc_reader dc) (dc_senders dc ++ [SrStart b])).
Proof.
  intros [Hn Hlt Hinj Hm Hw Hr Hf Hlp Hc Hok].
  assert (forall i s, (dc_senders dc ++ [SrStart b]) !! i = Some s -> sr_tag s <> None -> dc_senders dc !! i = Some s) as Hold.
  { intros i s [?|[-> ->]]%lookup_snoc_cases Hs; [done|by destruct Hs]. }
  constructor; simpl; try done.
  - rewrite omap_app, length_app, Hn. simpl. do 2 f_equal. lia.
  - intros i s t Hi Hs. eapply Hlt; [apply Hold|]; [done| |done]. congruence.
  - intros i j s s' t Hi Hj Hs Hs'. eapply Hinj; [apply Hold|apply Hold| |]; [done| |done| |done|done]; congruence.
  - intros t i (s & Hi & ?)%Hm. exists s. split; [by apply lookup_app_l_Some|done].
  - intros i s t Hi Hs. eapply Hw; [apply Hold|done]; [done|]. by rewrite (waits_tag _ _ Hs).
  - intros i r fl (s & t & Hi & ?)%Hr. exists s, t. split; [by apply lookup_app_l_Some|done].
Qed.

Lemma clnt_tag dc i b t next :
  clnt_inv dc -> dc_senders dc !! i = Some (SrStart b) -> (N.of_nat (length (dc_senders dc)) + 1 < 2 ^ 32)%N ->
  DemuxClnt_tag dc = (t, next) ->
  clnt_inv (set_sender i (SrTagged t b) (mkDemuxClnt (dc_callmap dc) next (dc_reader dc) (dc_senders dc))).
Proof.
  intros [Hn Hlt Hinj Hm Hw Hr Hf Hlp Hc Hok] Hi Hb Ht. injection Ht as <- <-.
  pose proof (omap_insert_length sr_tag _ _ _ (SrTagged (dc_nextTag dc) b) Hi) as Hl. simpl in Hl.
  pose proof (omap_length_le sr_tag (<[i := SrTagged (dc_nextTag dc) b]> (dc_senders dc))) as Hle. rewrite length_insert in Hle.
  assert ((dc_nextTag dc + 1) mod 2 ^ 32 = dc_nextTag dc + 1)%N as Hnext by (apply N.mod_small; lia).
  assert (forall j s, <[i := SrTagged (dc_nextTag dc) b]> (dc_senders dc) !! j = Some s ->
    (j = i /\ s = SrTagged (dc_nextTag dc) b) \/ dc_senders dc !! j = Some s) as Hold.
  { intros j s [(-> & -> & _)|[_ ?]]%list_lookup_insert_Some; [by left|by right]. }
  assert (forall j s t, dc_senders dc !! j = Some s -> waits s t -> <[i := SrTagged (dc_nextTag dc) b]> (dc_senders dc) !! j = Some s) as Hnew.
  { intros j s t Hj [b' Hs]. rewrite list_lookup_insert_ne; [done|]. intros ->. rewrite Hi in Hj. destruct Hs; congruence. }
  constructor; simpl; rewrite ?Hnext; try done.
  - rewrite Hn at 1. lia.
  - intros j s t [[-> ->]|Hj]%Hold Hs; [injection Hs as <-; lia|]. pose proof (Hlt _ _ _ Hj Hs). lia.
  - intros j k s s' t [[-> ->]|Hj]%Hold [[-> ->]|Hk]%Hold Hs Hs'; [done| | |by eapply Hinj].
    + injection Hs as <-. pose proof (Hlt _ _ _ Hk Hs'). lia.
    + injection Hs' as <-. pose proof (Hlt _ _ _ Hj Hs). lia.
  - intros t j (s & Hj & Hs)%Hm. exists s. split; [by eapply Hnew|done].
  - intros j s t [[-> ->]|Hj]%Hold Hs; [by destruct Hs as [? [?|?]]|by eapply Hw].
  - intros j r fl (s & t & Hj & Hs & ?)%Hr. exists s, t. split; [by eapply Hnew|done].
Qed.

Lemma clnt_put dc i t b cm :
  clnt_inv dc -> dc_senders dc !! i = Some (SrTagged t b) -> callMap_put t i (dc_callmap dc) = Some cm ->
  clnt_inv (set_sender i (SrPut t b) (mkDemuxClnt cm (dc_nextTag dc) (dc_reader dc) (dc_senders dc))).
Proof.
  intros [Hn Hlt Hinj Hm Hw Hr Hf Hlp Hc Hok] Hi Hp. unfold callMap_put in Hp.
  destruct (cm_closed (dc_callmap dc)) eqn:Hcl; [done|]. injection Hp as <-.
  pose proof (omap_insert_length sr_tag _ _ _ (SrPut t b) Hi) as Hl. simpl in Hl.
  assert (forall j s, <[i := SrPut t b]> (dc_senders dc) !! j = Some s ->
    (j = i /\ s = SrPut t b) \/ (j <> i /\ dc_senders dc !! j = Some s)) as Hold.
  { intros j s [(-> & -> & _)|[? ?]]%list_lookup_insert_Some; [by left|by right]. }
  assert (forall j s t', dc_senders dc !! j = Some s -> waits s t' -> j <> i /\ t' <> t) as Hne.
  { intros j s t' Hj Hs. assert (j <> i) as Hji by (intros ->; rewrite Hi in Hj; injection Hj as <-; by destruct Hs as [? [?|?]]).
    split; [done|]. intros ->. apply Hji. by eapply Hinj; [done|done|by apply waits_tag|]. }
  assert (forall j s t', dc_senders dc !! j = Some s -> waits s t' -> <[i := SrPut t b]> (dc_senders dc) !! j = Some s) as Hnew.
  { intros j s t' Hj Hs. rewrite list_lookup_insert_ne; [done|]. by destruct (Hne _ _ _ Hj Hs). }
  constructor; simpl; try done.
  - rewrite Hn. do 2 f_equal. lia.
  - intros j s t' [[-> ->]|[_ Hj]]%Hold Hs; [injection Hs as <-; by eapply Hlt|by eapply Hlt].
  - intros j k s s' t' [[-> ->]|[_ Hj]]%Hold [[-> ->]|[_ Hk]]%Hold Hs Hs'; [done| | |by eapply Hinj].
    + injection Hs as <-. by eapply Hinj.
    + injection Hs' as <-. by eapply Hinj.
  - intros t' j [[<- <-]|[? Hj]]%lookup_insert_Some.
    + exists (SrPut t b). split; [apply list_lookup_insert_eq; by eapply lookup_lt_Some|]. exists b. by left.
    + apply Hm in Hj as (s & Hj & Hs). exists s. split; [by eapply Hnew|done].
  - intros j s t' [[-> ->]|[Hji Hj]]%Hold Hs.
    + destruct Hs as [? [[= -> ->]|?]]; [|done]. left. apply lookup_insert_eq.
    + destruct (Hne _ _ _ Hj Hs) as [_ Ht]. rewrite lookup_insert_ne by done. by eapply Hw.
  - intros j r fl (s & t' & Hj & Hs & Hn')%Hr. exists s, t'. split; [by eapply Hnew|]. split; [done|].
    rewrite lookup_insert_ne; [done|]. by destruct (Hne _ _ _ Hj Hs).
  - intros ts Hts. apply Hf in Hts as (_ & ? & _). congruence.
Qed.

(** The reader takes a call out of the map. *)
Lemma clnt_reply dc t r fl i :
  clnt_inv dc -> cm_calls (dc_callmap dc) !! t = Some i -> (forall j r fl, dc_reader dc <> RdReply j r fl) ->
  (fl = None -> r_err r = false) ->
  (forall ts, fl = Some ts -> cm_closed (dc_callmap dc) = true /\ NoDup (t :: ts) /\
     forall x, x ∈ t :: ts <-> is_Some (cm_calls (dc_callmap dc) !! x)) ->
  clnt_inv (DemuxClnt_reply t r fl dc).
Proof.
  intros [Hn Hlt Hinj Hm Hw Hr Hf Hlp Hc Hok] Hi Hrd Hno Hfl. unfold DemuxClnt_reply, callMap_remove. rewrite Hi.
  constructor; simpl; try done.
  - intros t' j [_ Hj]%lookup_delete_Some. by apply Hm.
  - intros j s t' Hj Hs. destruct (Hw _ _ _ Hj Hs) as [Hx|(r' & fl' & Hx)]; [|by apply Hrd in Hx].
    destruct (decide (t = t')) as [<-|Hne]; [right; rewrite Hi in Hx; injection Hx as <-; eauto|left; by rewrite lookup_delete_ne].
  - intros j r' fl' [= <- <- <-]. destruct (Hm _ _ Hi) as (s & ? & ?). exists s, t. split_and!; [done|done|apply lookup_delete_eq].
  - intros ts ->. destruct (Hfl _ eq_refl) as (Hcl & Hnd & Hin). apply NoDup_cons in Hnd as [Hnt Hnd]. split_and!; [done|done|].
    intros x. specialize (Hin x). rewrite elem_of_cons in Hin. destruct (decide (x = t)) as [->|Hne].
    + rewrite lookup_delete_eq. split; [done|by intros [? ?]].
    + rewrite lookup_delete_ne by done. naive_solver.
  - intros j r' [= _ <- ->]. by apply Hno.
Qed.

(** ** Steps of both sides *)

Lemma asked_sender dc i s s' t b :
  dc_senders dc !! i = Some s -> (forall t b, sent s t b -> sent s' t b) -> asked dc t b -> asked (set_sender i s' dc) t b.
Proof.
  intros Hi Hs (j & x & Hj & Hx). destruct (decide (i = j)) as [<-|Hne].
  - exists i, s'. simpl. rewrite list_lookup_insert_eq by (by eapply lookup_lt_Some). split; [done|]. apply Hs. congruence.
  - exists j, x. simpl. by rewrite list_lookup_insert_ne.
Qed.

(** A step of the client that takes no message. *)
Lemma link_clnt dc dc' ds qs rs :
  link_inv dc ds qs rs -> (forall t b, asked dc t b -> asked dc' t b) ->
  (forall t, looping (dc_reader dc') -> t ∈ live ds qs rs -> is_Some (cm_calls (dc_callmap dc') !! t)) ->
  (forall i r fl, dc_reader dc' = RdReply i r fl -> r_err r = false ->
    exists t b, dc_senders dc' !! i = Some (SrSent t b) /\ (t, b, (r_rep r, r_ok r)) ∈ ds_served ds) ->
  (forall i t b r, dc_senders dc' !! i = Some (SrDone t b r) -> r_err r = false -> (t, b, (r_rep r, r_ok r)) ∈ ds_served ds) ->
  link_inv dc' ds qs rs.
Proof.
  intros [H1 H2 H3 H4 H5 H6 H7 H8 H9] Ha Ho Hr Hd. constructor; try done.
  - intros m Hm. destruct (H2 m Hm). auto.
  - intros x Hx. destruct (H3 x Hx). auto.
  - intros t b rep Hin. eauto.
Qed.

(** A call goes on; its request is not in the map's business. *)
Lemma link_sender dc i s s' ds qs rs :
  link_inv dc ds qs rs -> dc_senders dc !! i = Some s -> (forall t b, ~ sent s t b) ->
  (forall t b r, s' = SrDone t b r -> r_err r = true) -> link_inv (set_sender i s' dc) ds qs rs.
Proof.
  intros HL Hi Hs Hs'. eapply link_clnt; [exact HL| |apply HL| |].
  - intros t b. eapply asked_sender; [done|]. intros ? ? Hx. by apply Hs in Hx.
  - intros j r fl Hr He. destruct (lk_reply _ _ _ _ HL _ _ _ Hr He) as (t & b & Hj & Hx). exists t, b. split; [|done].
    simpl. rewrite list_lookup_insert_ne; [done|]. intros ->. rewrite Hi in Hj. injection Hj as ->. eapply Hs. by left.
  - intros j t b r Hj He. simpl in Hj. apply list_lookup_insert_Some in Hj as [(-> & -> & _)|[_ Hj]].
    + specialize (Hs' _ _ _ eq_refl). congruence.
    + by eapply (lk_done _ _ _ _ HL).
Qed.

(** The map closes, or the reader turns to it. *)
Lemma link_map dc cm rd ds qs rs next :
  link_inv dc ds qs rs -> (forall i r fl, rd = RdReply i r fl -> dc_reader dc = rd) -> (looping rd -> looping (dc_reader dc)) ->
  (forall t, is_Some (cm_calls (dc_callmap dc) !! t) -> is_Some (cm_calls cm !! t)) ->
  link_inv (mkDemuxClnt cm next rd (dc_senders dc)) ds qs rs.
Proof.
  intros HL Hr Hl Hm. eapply link_clnt; [exact HL|done| | |apply HL]; simpl.
  - intros t Hrd Hin. apply Hm. eapply (lk_open _ _ _ _ HL); auto.
  - intros i r fl Hrd. pose proof (Hr _ _ _ Hrd) as Hd. rewrite Hrd in Hd. by eapply (lk_reply _ _ _ _ HL).
Qed.

(** A request is on its way. *)
Lemma link_write dc i t b ds qs rs :
  clnt_inv dc -> link_inv dc ds qs rs -> dc_senders dc !! i = Some (SrPut t b) ->
  link_inv (set_sender i (SrSent t b) dc) ds qs rs /\
  link_inv (set_sender i (SrSent t b) dc) ds (qs ++ [mkMsg t b true]) rs.
Proof.
  intros HC HL Hi.
  assert (forall b', ~ asked dc t b') as Hno.
  { intros b' Ha. pose proof (asked_one _ _ _ _ _ HC Ha Hi eq_refl) as Hs. by destruct Hs as [?|[? ?]]. }
  assert (link_inv (set_sender i (SrSent t b) dc) ds qs rs) as HL'.
  { eapply link_sender; [done|done| |done]. by intros t' b' [?|[? ?]]. }
  split; [done|].
  assert (asked (set_sender i (SrSent t b) dc) t b) as Hask.
  { exists i, (SrSent t b). simpl. rewrite list_lookup_insert_eq by (by eapply lookup_lt_Some). split; [done|by left]. }
  assert (t ∉ live ds qs rs) as Hlive.
  { intros Ht. destruct (live_asked _ _ _ _ _ HL Ht) as [b' Hb']. by eapply Hno. }
  assert (Permutation (live ds (qs ++ [mkMsg t b true]) rs) (t :: live ds qs rs)) as Hperm.
  { unfold live. rewrite fmap_app, <- app_assoc. simpl. by rewrite <- Permutation_middle. }
  destruct HL' as [H1 H2 H3 H4 H5 H6 H7 H8 H9]. constructor; try done.
  - rewrite Hperm. by apply NoDup_cons.
  - intros m [Hm| ->%list_elem_of_singleton]%elem_of_app; [by apply H2|]. split; [done|]. simpl.
    intros ([[t' b'] rep] & Ht & Hin)%list_elem_of_fmap. simpl in Ht. subst t'. eapply Hno, (lk_served _ _ _ _ HL). exact Hin.
  - intros t' Hrd. rewrite Hperm. intros [->|Hin]%elem_of_cons; [|by apply H7]. simpl in *.
    destruct (ci_waits _ HC i _ t Hi) as [Hx|(r & fl & Hx)]; [exists b; by left|by eexists|].
    destruct Hrd as [Hrd|(i' & r' & Hrd)]; rewrite Hrd in Hx; [done|]. injection Hx as -> <- <-.
    destruct (lk_reply _ _ _ _ HL _ _ _ Hrd (ci_loop _ HC _ _ Hrd)) as (t2 & b2 & Hi2 & _). by rewrite Hi in Hi2.
Qed.

(** A reply arrives. *)
Lemma live_rs ds qs rs m : Permutation (live ds qs (m :: rs)) (m_Tag m :: live ds qs rs).
Proof. unfold live. rewrite fmap_cons. by rewrite <- !Permutation_middle. Qed.

Lemma link_read dc ds qs rs m i :
  clnt_inv dc -> link_inv dc ds qs (m :: rs) -> dc_reader dc = RdLoop -> cm_calls (dc_callmap dc) !! m_Tag m = Some i ->
  link_inv (DemuxClnt_reply (m_Tag m) (mkReply (m_Data m) (m_Ok m) false) None dc) ds qs rs.
Proof.
  intros HC HL Hrd Hi. pose proof HL as [H1 H2 H3 H4 H5 H6 H7 H8 H9].
  rewrite live_rs in H1. apply NoDup_cons in H1 as [Hnot Hnd].
  unfold DemuxClnt_reply, callMap_remove. rewrite Hi. constructor; simpl; try done.
  - intros x Hx. apply H4. by right.
  - intros t _ Ht. rewrite lookup_delete_ne by (by intros <-).
    apply H7; [by left|]. rewrite live_rs. by right.
  - intros j r fl [= <- <- <-] _. destruct (H4 m ltac:(left)) as [b Hb]. simpl. exists (m_Tag m), b. split; [|done].
    destruct (ci_map _ HC _ _ Hi) as (s & Hs & Hw). pose proof (asked_one _ _ _ _ _ HC (H5 _ _ _ Hb) Hs (waits_tag _ _ Hw)) as Hsent.
    destruct Hw as [b' [-> | ->]]; destruct Hsent as [[=]|[? [=]]]; by subst.
Qed.

(** The reader hands a reply over. *)
Lemma clnt_deliver dc i t b r fl :
  clnt_inv dc -> dc_reader dc = RdReply i r fl -> dc_senders dc !! i = Some (SrSent t b) ->
  clnt_inv (set_sender i (SrDone t b r) (set_reader (match fl with Some ts => RdFailing ts | None => RdLoop end) dc)).
Proof.
  intros [Hn Hlt Hinj Hm Hw Hr Hf Hlp Hc Hok] Hrd Hi.
  pose proof (omap_insert_length sr_tag _ _ _ (SrDone t b r) Hi) as Hl. simpl in Hl.
  assert (forall j x, <[i := SrDone t b r]> (dc_senders dc) !! j = Some x -> exists y, dc_senders dc !! j = Some y /\ sr_tag x = sr_tag y) as Hold.
  { intros j x [(-> & <- & _)|[_ Hj]]%list_lookup_insert_Some; eauto. }
  assert (failing_of (match fl with Some ts => RdFailing ts | None => RdLoop end) = failing_of (dc_reader dc)) as Hfl.
  { rewrite Hrd. by destruct fl. }
  constructor; simpl.
  - rewrite Hn. do 2 f_equal. lia.
  - intros j x t' (y & Hj & ->)%Hold. by eapply Hlt.
  - intros j k x x' t' (y & Hj & ->)%Hold (y' & Hk & ->)%Hold. by eapply Hinj.
  - intros t' j Hj. pose proof (Hm _ _ Hj) as (s & Hs & Hws). exists s. split; [|done]. rewrite list_lookup_insert_ne; [done|].
    intros <-. rewrite Hi in Hs. injection Hs as <-. destruct (Hr _ _ _ Hrd) as (s & t2 & Hs & Hw2 & Hno).
    rewrite Hi in Hs. injection Hs as <-. apply waits_tag in Hws, Hw2. simpl in *. congruence.
  - intros j x t' [(-> & <- & _)|[Hne Hj]]%list_lookup_insert_Some Hx; [by destruct Hx as [? [?|?]]|].
    destruct (Hw _ _ _ Hj Hx) as [?|(r' & fl' & Heq)]; [by left|]. rewrite Hrd in Heq. injection Heq as <-. done.
  - intros j r' fl'. by destruct fl.
  - intros ts. rewrite Hfl. apply Hf.
  - intros j r'. by destruct fl.
  - by destruct fl.
  - by destruct fl.
Qed.

Lemma link_deliver dc ds qs rs i t b r fl :
  link_inv dc ds qs rs -> dc_reader dc = RdReply i r fl -> dc_senders dc !! i = Some (SrSent t b) ->
  link_inv (set_sender i (SrDone t b r) (set_reader (match fl with Some ts => RdFailing ts | None => RdLoop end) dc)) ds qs rs.
Proof.
  intros HL Hrd Hi. eapply link_clnt; [exact HL| | | |].
  - intros t' b' Ha. eapply (asked_sender (set_reader _ dc)); [exact Hi| |exact Ha].
    intros t2 b2 [[= -> ->]|[? ?]]; [|done]. right. eauto.
  - simpl. intros t' Hlp. apply (lk_open _ _ _ _ HL). destruct fl; [by destruct Hlp as [?|(? & ? & ?)]|]. right. eauto.
  - intros j r' fl'. simpl. by destruct fl.
  - simpl. intros j t' b' r' [(-> & [= -> -> ->] & _)|[_ Hj]]%list_lookup_insert_Some He; [|by eapply (lk_done _ _ _ _ HL)].
    destruct (lk_reply _ _ _ _ HL _ _ _ Hrd He) as (t2 & b2 & Hi2 & Hx). rewrite Hi in Hi2. by injection Hi2 as -> ->.
Qed.

(** The map closes, or the reader turns to its calls. *)
Lemma clnt_map dc cm rd :
  clnt_inv dc -> cm_calls cm = cm_calls (dc_callmap dc) ->
  (forall i r fl, rd = RdReply i r fl <-> dc_reader dc = RdReply i r fl) -> rd <> RdFatal ->
  (rd = RdClosed -> cm_closed cm = true) ->
  (forall ts, failing_of rd = Some ts -> NoDup ts /\ cm_closed cm = true /\ forall t, t ∈ ts <-> is_Some (cm_calls cm !! t)) ->
  clnt_inv (mkDemuxClnt cm (dc_nextTag dc) rd (dc_senders dc)).
Proof.
  intros [Hn Hlt Hinj Hm Hw Hr Hf Hlp Hc Hok] Hcm Hrd Hfatal Hcl Hfl. constructor; simpl; rewrite ?Hcm in *; try done.
  - intros i s t Hi Hs. destruct (Hw _ _ _ Hi Hs) as [?|(r & fl & ?%Hrd)]; [by left|right; eauto].
  - intros i r fl ?%Hrd. by eapply Hr.
  - intros i r ?%Hrd. by eapply Hlp.
Qed.

(** ** Steps of the server *)

Lemma filter_insert {A B} (P : A -> bool) (f : A -> B) (l : list A) j x y :
  l !! j = Some x -> P x = true -> P y = false -> Permutation (f <$> filter P l) (f x :: (f <$> filter P (<[j := y]> l))).
Proof.
  intros Hj Hx Hy. rewrite insert_take_drop by (by eapply lookup_lt_Some). rewrite <- (take_drop_middle l j x) at 1 by done.
  rewrite !filter_app, !filter_cons. rewrite decide_True by (by rewrite Hx). rewrite decide_False by (rewrite Hy; by intros []).
  rewrite !fmap_app. simpl. by rewrite <- Permutation_middle.
Qed.

Lemma filter_same {A B} (P : A -> bool) (f : A -> B) (l : list A) j x y :
  l !! j = Some x -> P x = P y -> f x = f y -> f <$> filter P (<[j := y]> l) = f <$> filter P l.
Proof.
  intros Hj HP Hf. rewrite insert_take_drop by (by eapply lookup_lt_Some). rewrite <- (take_drop_middle l j x) at 3 by done.
  rewrite !filter_app, !filter_cons, !fmap_app, HP. f_equal. case_decide; [|done]. csimpl. by rewrite Hf.
Qed.

(** Two requests at the server have different tags. *)
Lemma filter_nodup {A B} (P : A -> bool) (f : A -> B) (l : list A) i j x y :
  NoDup (f <$> filter P l) -> l !! i = Some x -> l !! j = Some y -> P x = true -> P y = true -> f x = f y -> i = j.
Proof.
  revert i j. induction l as [|z l IH]; intros i j Hnd Hi Hj HPx HPy Hf; [done|]. rewrite filter_cons in Hnd.
  assert (forall k w, l !! k = Some w -> P w = true -> f w ∈ f <$> filter P l) as Hin.
  { intros k w Hk HPw. apply list_elem_of_fmap_2, list_elem_of_filter. split; [by rewrite HPw|by eapply list_elem_of_lookup_2]. }
  destruct i as [|i], j as [|j]; simpl in Hi, Hj; try done.
  - injection Hi as ->. rewrite decide_True in Hnd by (by rewrite HPx). csimpl in Hnd. apply NoDup_cons in Hnd as [Hn _].
    destruct Hn. rewrite Hf. by eapply Hin.
  - injection Hj as ->. rewrite decide_True in Hnd by (by rewrite HPy). csimpl in Hnd. apply NoDup_cons in Hnd as [Hn _].
    destruct Hn. rewrite <- Hf. by eapply Hin.
  - f_equal. eapply IH; try done. case_decide; [|done]. csimpl in Hnd. by apply NoDup_cons in Hnd as [_ ?].
Qed.

Lemma link_srv_read dc ds m qs rs closed :
  link_inv dc ds (m :: qs) rs ->
  link_inv dc (mkDemuxSrv closed SvLoop (ds_jobs ds ++ [mkJob (m_Tag m) (m_Data m) None false]) (ds_served ds)) qs rs.
Proof.
  intros [H1 H2 H3 H4 H5 H6 H7 H8 H9].
  assert (forall ds', ds_jobs ds' = ds_jobs ds ++ [mkJob (m_Tag m) (m_Data m) None false] ->
    Permutation (live ds' qs rs) (live ds (m :: qs) rs)) as Hp.
  { intros ds' Hj. unfold live. rewrite Hj, filter_app, fmap_app. simpl. rewrite <- app_assoc. simpl. by rewrite <- !Permutation_middle. }
  destruct (H2 m ltac:(left)) as [Ha Hs]. constructor; try done.
  - by rewrite Hp.
  - intros x Hx. apply H2. by right.
  - simpl. intros x [Hx| ->%list_elem_of_singleton]%elem_of_app; [by apply H3|done].
  - intros t Hrd. rewrite Hp by done. by apply H7.
Qed.

Lemma link_serve dc ds j x rep ok qs rs :
  link_inv dc ds qs rs -> ds_jobs ds !! j = Some x -> j_rep x = None ->
  link_inv dc (mkDemuxSrv (ds_closed ds) (ds_reader ds) (<[j := mkJob (j_tag x) (j_req x) (Some (rep, ok)) false]> (ds_jobs ds))
    (ds_served ds ++ [(j_tag x, j_req x, (rep, ok))])) qs rs.
Proof.
  intros [H1 H2 H3 H4 H5 H6 H7 H8 H9] Hj Hx.
  destruct (H3 _ (list_elem_of_lookup_2 _ _ _ Hj)) as [Hask Hns]. rewrite Hx in Hns. destruct Hns as [Hns Hsent].
  set (ds' := mkDemuxSrv _ _ _ _).
  assert (live ds' qs rs = live ds qs rs) as Hl.
  { unfold live. simpl. by rewrite (filter_same _ _ _ _ _ _ Hj) by (unfold unsent; simpl; rewrite ?Hsent; done). }
  assert (forall t, t ∉ served_tags ds -> t <> j_tag x -> t ∉ served_tags ds') as Hnot.
  { unfold served_tags. simpl. intros t Ht Hne. rewrite fmap_app, elem_of_app. simpl. rewrite list_elem_of_singleton. tauto. }
  assert (forall y, y ∈ ds_served ds -> y ∈ ds_served ds') as Hmore by (intros y Hy; apply elem_of_app; by left).
  pose proof H1 as Hnd. unfold live in Hnd. apply NoDup_app in Hnd as (_ & Hq & Hnd). apply NoDup_app in Hnd as (Hjobs & _ & _).
  assert (j_tag x ∈ j_tag <$> filter unsent (ds_jobs ds)) as Hin.
  { apply list_elem_of_fmap_2, list_elem_of_filter. split; [unfold unsent; by rewrite Hsent|by eapply list_elem_of_lookup_2]. }
  constructor; rewrite ?Hl; try done.
  - intros m Hm. destruct (H2 m Hm) as [? Hsv]. split; [done|]. apply Hnot; [done|]. intros He.
    apply (Hq (m_Tag m)); [by apply list_elem_of_fmap_2|]. apply elem_of_app. left. by rewrite He.
  - simpl. intros y [k Hk]%list_elem_of_lookup. apply list_lookup_insert_Some in Hk as [(-> & <- & _)|[Hne Hk]].
    + split; [done|]. simpl. apply elem_of_app. right. left.
    + destruct (H3 _ (list_elem_of_lookup_2 _ _ _ Hk)) as [Ha Hy]. split; [done|].
      destruct (j_rep y) as [r|] eqn:Hr; [by apply Hmore|]. destruct Hy as [Hy Hys]. split; [|done]. apply Hnot; [done|].
      intros He. apply Hne. symmetry. eapply (filter_nodup unsent j_tag); [exact Hjobs|done|done| | |done]; unfold unsent; [by rewrite Hys|by rewrite Hsent].
  - intros m Hm. destruct (H4 m Hm) as [b Hb]. eauto.
  - intros t b r [Hin'|[= -> -> ->]%list_elem_of_singleton]%elem_of_app; [by eapply H5|done].
  - unfold served_tags. simpl. rewrite fmap_app. apply NoDup_app. split_and!; [done| |by apply NoDup_singleton].
    intros t Ht ->%list_elem_of_singleton. done.
  - intros i r fl Hrd He. destruct (H8 i r fl Hrd He) as (t & b & ? & ?). eauto.
  - intros i t b r Hi He. eauto.
Qed.

Lemma link_srv_write dc ds j x rep ok qs rs :
  link_inv dc ds qs rs -> ds_jobs ds !! j = Some x -> j_rep x = Some (rep, ok) -> j_sent x = false ->
  let ds' := mkDemuxSrv (ds_closed ds) (ds_reader ds) (<[j := mkJob (j_tag x) (j_req x) (Some (rep, ok)) true]> (ds_jobs ds)) (ds_served ds) in
  link_inv dc ds' qs rs /\ link_inv dc ds' qs (rs ++ [mkMsg (j_tag x) rep ok]).
Proof.
  intros [H1 H2 H3 H4 H5 H6 H7 H8 H9] Hj Hx Hsent ds'.
  destruct (H3 _ (list_elem_of_lookup_2 _ _ _ Hj)) as [Hask Hserved]. rewrite Hx in Hserved.
  pose proof (filter_insert unsent j_tag (ds_jobs ds) j x (mkJob (j_tag x) (j_req x) (Some (rep, ok)) true) Hj) as Hp.
  unfold unsent in Hp at 1 2. rewrite Hsent in Hp. specialize (Hp eq_refl eq_refl).
  assert (Permutation (live ds qs rs) (j_tag x :: live ds' qs rs)) as Hp1.
  { unfold live. simpl. rewrite Hp. simpl. by rewrite <- Permutation_middle. }
  assert (Permutation (live ds qs rs) (live ds' qs (rs ++ [mkMsg (j_tag x) rep ok]))) as Hp2.
  { rewrite Hp1. unfold live. rewrite fmap_app. simpl. rewrite !app_assoc. by rewrite <- Permutation_cons_append. }
  assert (forall y, y ∈ ds_jobs ds' -> asked dc (j_tag y) (j_req y) /\
    match j_rep y with
    | None => j_tag y ∉ served_tags ds' /\ j_sent y = false
    | Some r => (j_tag y, j_req y, r) ∈ ds_served ds'
    end) as Hjobs.
  { simpl. intros y [k Hk]%list_elem_of_lookup. apply list_lookup_insert_Some in Hk as [(-> & <- & _)|[Hne Hk]]; [done|].
    by apply H3, (list_elem_of_lookup_2 _ k). }
  split; constructor; try done.
  - rewrite Hp1 in H1. by apply NoDup_cons in H1 as [_ ?].
  - intros t Hrd Ht. apply H7; [done|]. rewrite Hp1. by right.
  - by rewrite <- Hp2.
  - intros m [Hm| ->%list_elem_of_singleton]%elem_of_app; [by apply H4|]. simpl. eauto.
  - intros t Hrd. rewrite <- Hp2. by apply H7.
Qed.

(** ** Steps *)

Section steps.
Context `{Gob msg, Gob InitMsg} {GO : GobOk msg}.

(** Data that can be sent under every tag. *)
Definition sendable (b : bytes) : Prop := forall t ok, (t < 2 ^ 32)%N -> fits (mkMsg t b ok).

(** Fewer than 2^32 calls, all of them small. *)
Record small (w : conn) : Prop := {
  sm_calls : (N.of_nat (length (dc_senders (cn_clnt w))) + 1 < 2 ^ 32)%N;
  sm_req s : s ∈ dc_senders (cn_clnt w) -> sendable (sr_req s);
  sm_rep x rep ok : x ∈ ds_jobs (cn_srv w) -> j_rep x = Some (rep, ok) -> sendable rep;
}.

(** Calls and replies stay as they are. *)
Definition grows (w w' : conn) : Prop :=
  (forall i s, dc_senders (cn_clnt w) !! i = Some s -> exists s', dc_senders (cn_clnt w') !! i = Some s' /\ sr_req s' = sr_req s) /\
  forall j x rep, ds_jobs (cn_srv w) !! j = Some x -> j_rep x = Some rep ->
    exists x', ds_jobs (cn_srv w') !! j = Some x' /\ j_rep x' = Some rep.

Lemma grows_small w w' : grows w w' -> small w' -> small w.
Proof.
  intros [Hs Hj] [H1 H2 H3]. split.
  - assert (length (dc_senders (cn_clnt w)) <= length (dc_senders (cn_clnt w'))) as Hle; [|lia].
    destruct (dc_senders (cn_clnt w)) as [|s0 l] eqn:He using rev_ind; [simpl; lia|]. clear IHl.
    destruct (Hs (length l) s0) as (s' & ?%lookup_lt_Some & _); [by rewrite lookup_app_r, Nat.sub_diag|].
    rewrite length_app. simpl. lia.
  - intros s [i Hi]%list_elem_of_lookup. destruct (Hs _ _ Hi) as (s' & Hs' & <-). by eapply H2, list_elem_of_lookup_2.
  - intros x rep ok [j Hx]%list_elem_of_lookup Hr. destruct (Hj _ _ _ Hx Hr) as (x' & Hx' & Hr').
    by eapply H3; [eapply list_elem_of_lookup_2|].
Qed.

Lemma senders_insert (l : list sender) i s s' : l !! i = Some s -> sr_req s' = sr_req s ->
  forall k x, l !! k = Some x -> exists x', <[i := s']> l !! k = Some x' /\ sr_req x' = sr_req x.
Proof.
  intros Hi Hr k x Hk. destruct (decide (i = k)) as [<-|Hne].
  - exists s'. rewrite list_lookup_insert_eq by (by eapply lookup_lt_Some). rewrite Hi in Hk. by injection Hk as <-.
  - exists x. by rewrite list_lookup_insert_ne.
Qed.

Lemma jobs_insert (l : list job) i s s' : l !! i = Some s -> (j_rep s = None \/ j_rep s' = j_rep s) ->
  forall k x r, l !! k = Some x -> j_rep x = Some r -> exists x', <[i := s']> l !! k = Some x' /\ j_rep x' = Some r.
Proof.
  intros Hi Hr k x r Hk Hx. destruct (decide (i = k)) as [<-|Hne].
  - exists s'. rewrite list_lookup_insert_eq by (by eapply lookup_lt_Some). split; [done|]. rewrite Hi in Hk. injection Hk as <-.
    destruct Hr; congruence.
  - exists x. by rewrite list_lookup_insert_ne.
Qed.

Ltac dmx_step H :=
  unfold demux_exec in H; simpl in H;
  repeat match type of H with
  | mbind _ _ = Some _ => apply bind_Some in H; destruct H as (? & ? & H); simpl in H
  | (match ?x with _ => _ end) = Some _ => destruct x eqn:?; try discriminate H
  end; simplify_eq/=.

Lemma reply_senders t r fl dc : dc_senders (DemuxClnt_reply t r fl dc) = dc_senders dc.
Proof. unfold DemuxClnt_reply. by destruct (callMap_remove _ _). Qed.

Lemma exec_grows ev w w' : demux_exec ev w = Some w' -> grows w w'.
Proof.
  intros Hex. destruct w as [dc ds c2s s2c]. destruct ev; dmx_step Hex; split; simpl; rewrite ?reply_senders;
    try (intros ? ? ?; by eauto); try (intros ? ? ? ?; by eauto); try (intros; by eapply senders_insert);
    try (intros; eapply jobs_insert; [eassumption| |eassumption|eassumption]; simpl; by eauto).
  all: intros; eexists; split; [by apply lookup_app_l_Some|done].
Qed.

Lemma run_small w w' : rtc demux_step w w' -> small w' -> small w.
Proof. induction 1 as [|w w1 w2 [ev Hev] _ IH]; [done|]. intros Hs. eapply grows_small, IH, Hs. by eapply exec_grows. Qed.

Lemma fits_call w i s t ok : clnt_inv (cn_clnt w) -> small w -> dc_senders (cn_clnt w) !! i = Some s -> sr_tag s = Some t ->
  fits (mkMsg t (sr_req s) ok).
Proof.
  intros HC HS Hi Ht. apply (sm_req _ HS); [by eapply list_elem_of_lookup_2|].
  pose proof (ci_lt _ HC _ _ _ Hi Ht) as [_ Hlt]. rewrite (ci_next _ HC) in Hlt. pose proof (sm_calls _ HS).
  pose proof (omap_length_le sr_tag (dc_senders (cn_clnt w))). lia.
Qed.

Lemma asked_call dc t b : asked dc t b -> exists i s, dc_senders dc !! i = Some s /\ sr_tag s = Some t.
Proof. intros (i & s & Hi & Hs). exists i, s. split; [done|]. by eapply sent_tag. Qed.

Lemma step_DRead w w' qs rs : conn_inv w qs rs -> demux_exec DRead w = Some w' -> exists rs', conn_inv w' qs rs'.
Proof using GO.
  destruct w as [dc ds c2s s2c]. intros [HC HL HQ HR HE] Hex. simpl in *. destruct (dc_reader dc) eqn:Hrd; try done.
  pose proof (carries_read _ _ HR) as Hread. destruct (ReadCall _ _) as [|eof|m rest|]; [done| | |done].
  - injection Hex as <-. exists rs. constructor; simpl; [| |done|done|by right; right].
    + apply clnt_map; try done. by intros; rewrite Hrd.
    + apply link_map; try done. intros [?|(? & ? & ?)]; done.
  - injection Hex as <-. destruct Hread as (rs' & -> & HR'). exists rs'.
    destruct (lk_open _ _ _ _ HL (m_Tag m)) as [i Hi]; [by left|rewrite live_rs; by left|].
    constructor; simpl; [| |done|done|].
    + eapply clnt_reply; try done. intros j r fl. by rewrite Hrd.
    + by eapply link_read.
    + right. left. unfold DemuxClnt_reply, callMap_remove. rewrite Hi. simpl. eauto.
Qed.

Lemma step_reader ev w w' qs rs : ev = DDeliver \/ ev = DFail \/ ev = DClose \/ (exists ts, ev = DOutstanding ts) ->
  conn_inv w qs rs -> demux_exec ev w = Some w' -> conn_inv w' qs rs.
Proof.
  destruct w as [dc ds c2s s2c]. intros Hev [HC HL HQ HR HE] Hex. simpl in HC, HL, HQ, HR, HE. destruct Hev as [->|[->|[->|[ts ->]]]]; simpl in Hex.
  - destruct (dc_reader dc) as [|i r fl| | | |] eqn:Hrd; try done.
    apply bind_Some in Hex as (s & Hi & Hex). destruct s; try done. injection Hex as <-.
    constructor; simpl; [by eapply clnt_deliver|by eapply link_deliver|done|done|].
    simpl in HE. destruct fl; [|by left]. right; right. destruct HE as [HE|[(? & ? & HE)|HE]]; congruence.
  - destruct (dc_reader dc) as [| | |[|t ts]| |] eqn:Hrd; try done; injection Hex as <-.
    + constructor; simpl in *; [| |done|done|]; [| |destruct HE as [HE|[(? & ? & HE)|HE]]; try congruence; by right; right].
      * apply clnt_map; try done; [by intros; rewrite Hrd|]. intros ts' [= <-]. by apply (ci_failing _ HC); rewrite Hrd.
      * apply link_map; try done. intros [?|(? & ? & ?)]; done.
    + pose proof (ci_failing _ HC (t :: ts)) as Hfl.
      rewrite Hrd in Hfl. destruct (Hfl eq_refl) as (Hnd & Hcl & Hin).
      destruct (proj1 (Hin t) ltac:(left)) as [i Hi].
      assert (clnt_inv (DemuxClnt_reply t (mkReply [] false true) (Some ts) dc)) as HC'.
      { eapply clnt_reply; try done; [intros j r fl; by rewrite Hrd|]. by intros ? [= <-]. }
      constructor; simpl in *; [done| |done|done|destruct HE as [HE|[(? & ? & HE)|HE]]; try congruence; by right; right].
      eapply link_clnt; [exact HL| | | |]; unfold DemuxClnt_reply, callMap_remove; rewrite Hi; simpl; [done| | |apply HL].
      * intros t' [?|(? & ? & ?)]; done.
      * by intros ? ? ? [= <- <- <-].
  - destruct (pp_closed s2c) eqn:Hc; [|done]. injection Hex as <-. constructor; simpl in *; [| |done|done|by right; right].
    + apply clnt_map; try done; [apply HC|]. intros ts Hts. pose proof (ci_failing _ HC _ Hts) as (? & ? & ?). done.
    + by apply link_map.
  - destruct (dc_reader dc) eqn:Hrd; try done. destruct (outstanding _ _) eqn:Ho; [|done]. injection Hex as <-.
    apply bool_decide_eq_true in Ho.
    constructor; simpl in *; [| |done|done|destruct HE as [HE|[(? & ? & HE)|HE]]; try congruence; by right; right].
    + apply clnt_map; try done; [by intros; rewrite Hrd|]. intros ts' [= <-]. rewrite (ci_closed _ HC Hrd). split_and!; [|done|].
      * rewrite Ho. apply NoDup_fst_map_to_list.
      * intros t. rewrite Ho. split.
        -- intros ([t' i] & -> & Ht)%list_elem_of_fmap. apply elem_of_map_to_list in Ht. by exists i.
        -- intros [i Hi]. apply list_elem_of_fmap. exists (t, i). split; [done|]. by apply elem_of_map_to_list.
    + apply link_map; try done. intros [?|(? & ? & ?)]; done.
Qed.

Lemma step_caller ev w w' qs rs : (exists i, ev = DTag i \/ ev = DPut i) \/ (exists b, ev = DCall b) ->
  conn_inv w qs rs -> small w -> demux_exec ev w = Some w' -> conn_inv w' qs rs.
Proof.
  destruct w as [dc ds c2s s2c]. intros Hev [HC HL HQ HR HE] HS Hex. simpl in HC, HL, HQ, HR, HE.
  pose proof (sm_calls _ HS) as Hb. simpl in Hb.
  destruct Hev as [[i [-> | ->]]|[b ->]]; simpl in Hex.
  - apply bind_Some in Hex as (s & Hi & Hex). destruct s as [b| | | |]; try done. injection Hex as <-.
    constructor; simpl; [by eapply clnt_tag| |done|done|done].
    apply (link_sender (mkDemuxClnt _ _ _ _) _ (SrStart b)); [by apply link_map|done| |done]. by intros t' b' [?|[? ?]].
  - apply bind_Some in Hex as (s & Hi & Hex). destruct s as [|t b| | |]; try done.
    destruct (callMap_put _ _ _) as [cm|] eqn:Hp; injection Hex as <-.
    + constructor; simpl; [by eapply clnt_put| |done|done|done].
      apply (link_sender (mkDemuxClnt _ _ _ _) _ (SrTagged t b)); [|done|by intros t' b' [?|[? ?]]|done].
      apply link_map; try done. unfold callMap_put in Hp. destruct (cm_closed _); [done|]. injection Hp as <-. simpl.
      intros t' Ht. destruct (decide (t = t')) as [<-|Hne]; [by rewrite lookup_insert_eq|by rewrite lookup_insert_ne].
    + constructor; simpl; [|  |done|done|done].
      * eapply clnt_sender; [done|done|done|]. by intros t'; split; intros [? [?|?]].
      * eapply link_sender; [done|done| |by intros ? ? ? [= <- <- <-]]. by intros t' b' [?|[? ?]].
  - injection Hex as <-. constructor; simpl; [by apply clnt_call| |done|done|done].
    eapply link_clnt; [exact HL| |apply HL| |]; simpl.
    + intros t b' (i & s & Hi & Hs). exists i, s. split; [by apply lookup_app_l_Some|done].
    + intros i r fl Hrd He. destruct (lk_reply _ _ _ _ HL _ _ _ Hrd He) as (t & b' & Hi & ?). exists t, b'.
      split; [by apply lookup_app_l_Some|done].
    + intros i t b' r [Hi|[_ ?]]%lookup_snoc_cases; [|done]. by apply (lk_done _ _ _ _ HL _ _ _ _ Hi).
Qed.

Lemma step_DWrite i w w' qs rs : conn_inv w qs rs -> small w -> demux_exec (DWrite i) w = Some w' ->
  exists qs', conn_inv w' qs' rs.
Proof.
  destruct w as [dc ds c2s s2c]. intros [HC HL (pre & HQ & Hpre) HR HE] HS Hex. simpl in HC, HL, HQ, Hpre, HR, HE, Hex.
  apply bind_Some in Hex as (s & Hi & Hex). destruct s as [| |t b| |]; try done.
  apply bind_Some in Hex as (f & Hf & Hex). injection Hex as <-.
  assert (fits (mkMsg t b true)) as Hfit by by apply (fits_call (mkConn dc ds c2s s2c) i (SrPut t b) t).
  destruct (link_write _ _ _ _ _ _ _ HC HL Hi) as [HL1 HL2].
  assert (clnt_inv (set_sender i (SrSent t b) dc)) as HC'.
  { eapply clnt_sender; [done|done|done|]. intros t'. split; intros [b' [?|?]]; simplify_eq; exists b'; auto. }
  pose proof (carries_write _ _ _ _ HQ Hfit Hf) as HW. unfold pipe_write in *. destruct (pp_closed c2s) eqn:Hc.
  - exists qs. constructor; simpl; try done. exists pre. by rewrite Hc.
  - exists (qs ++ [mkMsg t b true]). constructor; simpl; try done. exists pre. rewrite app_assoc. split; [done|].
    destruct (ds_reader ds); try done.
Qed.

Lemma step_server ev w w' qs rs : (ev = DSrvClose \/ exists j, (exists rep ok, ev = DServe j rep ok)) ->
  conn_inv w qs rs -> demux_exec ev w = Some w' -> conn_inv w' qs rs.
Proof.
  destruct w as [dc ds c2s s2c]. intros Hev [HC HL HQ HR HE] Hex. simpl in HC, HL, HQ, HR, HE.
  destruct Hev as [->|(j & rep & ok & ->)]; simpl in Hex.
  - injection Hex as <-. constructor; try done. by destruct HL.
  - apply bind_Some in Hex as (x & Hj & Hex). destruct (j_rep x) eqn:Hx; [done|]. injection Hex as <-.
    constructor; try done. by apply link_serve.
Qed.

Lemma step_DSrvRead w w' qs rs : conn_inv w qs rs -> demux_exec DSrvRead w = Some w' -> exists qs', conn_inv w' qs' rs.
Proof using GO.
  destruct w as [dc ds c2s s2c]. intros [HC HL (pre & HQ & Hpre) HR HE] Hex. simpl in HC, HL, HQ, Hpre, HR, HE, Hex.
  pose proof (carries_read _ _ HQ) as Hread.
  destruct (ds_reader ds) eqn:Hrd; [| |done|done].
  - destruct Hpre as (m0 & -> & [im Him]). destruct (ReadCall _ _) as [|eof|m rest|]; [done| | |done]; injection Hex as <-.
    + exists qs. constructor; simpl; try done; [by destruct HL|]. exists [m0]. by destruct c2s.
    + destruct Hread as (ms & [= <- <-] & Hrest). exists qs. constructor; simpl; try done; [by destruct HL|].
      exists []. rewrite Him. done.
  - subst pre. destruct (ReadCall _ _) as [|eof|m rest|]; [done| | |done]; injection Hex as <-.
    + exists qs. constructor; simpl; try done; [by destruct HL|]. by exists [].
    + destruct Hread as (ms & Hms & Hrest). simpl in Hms. subst qs. exists ms. constructor; simpl; try done; [by apply link_srv_read|].
      by exists [].
Qed.

Lemma step_DSrvWrite j w w' qs rs : conn_inv w qs rs -> small w -> demux_exec (DSrvWrite j) w = Some w' ->
  exists rs', conn_inv w' qs rs'.
Proof.
  destruct w as [dc ds c2s s2c]. intros [HC HL HQ HR HE] HS Hex. simpl in HC, HL, HQ, HR, HE, Hex.
  apply bind_Some in Hex as (x & Hj & Hex). destruct (j_rep x) as [[rep ok]|] eqn:Hx; [|done].
  destruct (j_sent x) eqn:Hsent; [done|]. apply bind_Some in Hex as (f & Hf & Hex). injection Hex as <-.
  pose proof (list_elem_of_lookup_2 _ _ _ Hj) as Hin.
  destruct (lk_jobs _ _ _ _ HL _ Hin) as [Hask _]. destruct (asked_call _ _ _ Hask) as (i & s & Hi & Ht).
  assert (fits (mkMsg (j_tag x) rep ok)) as Hfit.
  { apply (sm_rep _ HS x rep ok Hin Hx). pose proof (ci_lt _ HC _ _ _ Hi Ht) as [_ Hlt]. rewrite (ci_next _ HC) in Hlt.
    pose proof (sm_calls _ HS). simpl in *. pose proof (omap_length_le sr_tag (dc_senders dc)). lia. }
  destruct (link_srv_write _ _ _ _ _ _ _ _ HL Hj Hx Hsent) as [HL1 HL2].
  pose proof (carries_write _ _ _ _ HR Hfit Hf) as HW. unfold pipe_write in *. destruct (pp_closed s2c) eqn:Hc.
  - exists rs. constructor; simpl; try done; by rewrite ?Hc; auto.
  - exists (rs ++ [mkMsg (j_tag x) rep ok]). by constructor.
Qed.

Lemma step_inv ev w w' qs rs : conn_inv w qs rs -> small w -> demux_exec ev w = Some w' -> exists qs' rs', conn_inv w' qs' rs'.
Proof using GO.
  intros HI HS Hex. destruct ev as [b|i|i|i| |ts| | | | |j rep ok|j| |k|k].
  - exists qs, rs. eapply step_caller; [|done..]. right. eauto.
  - exists qs, rs. eapply step_caller; [|done..]. left. eauto.
  - exists qs, rs. eapply step_caller; [|done..]. left. eauto.
  - destruct (step_DWrite _ _ _ _ _ HI HS Hex). eauto.
  - destruct (step_DRead _ _ _ _ HI Hex). eauto.
  - exists qs, rs. eapply step_reader; [|done..]. eauto.
  - exists qs, rs. eapply step_reader; [|done..]. auto.
  - exists qs, rs. eapply step_reader; [|done..]. auto.
  - exists qs, rs. eapply step_reader; [|done..]. auto.
  - destruct (step_DSrvRead _ _ _ _ HI Hex). eauto.
  - exists qs, rs. eapply step_server; [|done..]. eauto.
  - destruct (step_DSrvWrite _ _ _ _ _ HI HS Hex). eauto.
  - exists qs, rs. eapply step_server; [|done..]. auto.
  - exists qs, rs. destruct w as [dc ds c2s s2c], HI as [HC HL (pre & HQ & Hpre) HR HE]. injection Hex as <-.
    constructor; try done. simpl in *. exists pre. split; [by apply carries_cut|]. by destruct (ds_reader ds).
  - exists qs, rs. destruct w as [dc ds c2s s2c], HI as [HC HL HQ HR HE]. injection Hex as <-.
    constructor; try done; simpl in *; [by apply carries_cut|]. by right; right.
Qed.

(** The first message can be sent. *)
Definition greets (clnt : string) : Prop := forall b, Marshall (mkInitMsg clnt) = Some b -> fits (mkMsg 0 b true).

Lemma init_inv {GI : GobOk InitMsg} clnt w : greets clnt -> conn_init clnt = Some w -> conn_inv w [] [].
Proof.
  intros Hg (b & Hb & (f & Hf & Hw)%bind_Some)%bind_Some. simpl in Hw. injection Hw as <-. constructor; simpl.
  - constructor; simpl; try done; try (by intros; exfalso; eapply lookup_nil_Some).
  - constructor; simpl; try done; try (by constructor); try (intros; exfalso; by eapply not_elem_of_nil). by intros t _ ?%not_elem_of_nil.
  - exists [mkMsg 0 b true]. split; [|exists (mkMsg 0 b true); split; [done|]; simpl; unfold Unmarshall; by rewrite (gob_ok _ _ Hb)].
    exists [f]. simpl. rewrite app_nil_r. repeat split; [|done]. repeat constructor; [by apply Hg|done].
  - apply carries_nil.
  - by left.
Qed.

Lemma run_inv {GI : GobOk InitMsg} clnt w0 w : greets clnt -> conn_init clnt = Some w0 -> rtc demux_step w0 w -> small w ->
  exists qs rs, conn_inv w qs rs.
Proof using GO.
  intros Hg Hstart Hr. revert w Hr. apply (rtc_ind_r (fun w => small w -> exists qs rs, conn_inv w qs rs)).
  { intros _. exists [], []. by eapply init_inv. }
  intros w w' _ [ev Hev] IH HS. assert (small w) as HS1 by (eapply grows_small; [by eapply exec_grows|done]).
  destruct (IH HS1) as (qs & rs & HI). by eapply step_inv.
Qed.

(** ** A closed connection *)

Definition clnt_event (ev : demux_event) : bool :=
  match ev with DTag _ | DPut _ | DWrite _ | DRead | DOutstanding _ | DFail | DDeliver => true | _ => false end.

Definition new_call (ev : demux_event) : bool := match ev with DCall _ => true | _ => false end.

Definition returned (w : conn) : Prop := forall i s, dc_senders (cn_clnt w) !! i = Some s -> exists t b r, s = SrDone t b r.

(** What the calls and the reader still have to do. *)
Definition sr_work (s : sender) : nat :=
  match s with SrStart _ => 7 | SrTagged _ _ => 6 | SrPut _ _ => 2 | SrSent _ _ => 1 | SrDone _ _ _ => 0 end.

Definition rd_work (rd : reader) : nat :=
  match rd with RdLoop => 3 | RdReply _ _ None => 4 | RdReply _ _ (Some _) => 2 | RdClosed => 2 | RdFailing _ => 1 | _ => 0 end.

Definition work (w : conn) : nat :=
  sum_list (sr_work <$> dc_senders (cn_clnt w)) + 3 * size (cm_calls (dc_callmap (cn_clnt w))) +
  rd_work (dc_reader (cn_clnt w)) + length (pp_bytes (cn_s2c w)).

Lemma sum_insert (l : list sender) i s s' : l !! i = Some s ->
  sum_list (sr_work <$> <[i := s']> l) + sr_work s = sum_list (sr_work <$> l) + sr_work s'.
Proof.
  revert i. induction l as [|x l IH]; intros [|i] Hi; csimpl; simplify_eq/=; [lia|]. specialize (IH _ Hi). lia.
Qed.

Lemma exec_closed ev w w' : demux_exec ev w = Some w' -> pp_closed (cn_s2c w) = true -> pp_closed (cn_s2c w') = true.
Proof.
  intros Hex Hc. destruct w as [dc ds c2s [bs c]]. simpl in Hc. subst c. destruct ev; dmx_step Hex; done.
Qed.

Lemma ReadCall_shorter c bs m rest : ReadCall c bs = RMsg m rest -> length rest < length bs.
Proof.
  unfold ReadCall. repeat case_decide; try by destruct c. case_match; [|done]. intros [= <- <-].
  rewrite !length_drop. lia.
Qed.

Lemma callMap_remove_size t cm cm' ch : callMap_remove t cm = (cm', ch) ->
  size (cm_calls cm') + length (option_list ch) = size (cm_calls cm).
Proof.
  unfold callMap_remove. destruct (cm_calls cm !! t) eqn:Ht; intros [= <- <-]; simpl; [|lia].
  rewrite map_size_delete_Some by done. assert (size (cm_calls cm) <> 0); [|lia].
  intros Hs%map_size_empty_inv. rewrite Hs in Ht. done.
Qed.

Lemma exec_work ev w w' : demux_exec ev w = Some w' -> pp_closed (cn_s2c w) = true -> new_call ev = false ->
  work w' <= work w /\ (clnt_event ev = true -> work w' < work w).
Proof.
  intros Hex Hc Hn. destruct w as [dc ds c2s [bs c]]. simpl in Hc. subst c. unfold work in *.
  assert (forall i s s', dc_senders dc !! i = Some s -> sum_list (sr_work <$> <[i := s']> (dc_senders dc)) + sr_work s =
    sum_list (sr_work <$> dc_senders dc) + sr_work s') as Hsum by (intros; by apply sum_insert).
  destruct ev; try done; dmx_step Hex; unfold DemuxClnt_reply.
  all: repeat match goal with
    | H : dc_senders _ !! ?i = Some ?s |- context [<[?i := ?s']> _] => pose proof (Hsum i s s' H); clear H
    | H : callMap_put _ _ _ = Some _ |- _ => unfold callMap_put in H; destruct (cm_closed _); simplify_eq/=
    | H : ReadCall _ _ = RMsg _ _ |- _ => apply ReadCall_shorter in H
    | H : dc_reader _ = _ |- _ => rewrite H in *; clear H
    | |- context [callMap_remove ?t ?cm] => pose proof (callMap_remove_size t cm); destruct (callMap_remove t cm)
    | H : forall cm' ch, (?cm, ?o) = (cm', ch) -> _ |- _ => specialize (H _ _ eq_refl); destruct o
    | |- context [size (<[?t := ?i]> ?m)] => pose proof (map_size_insert t i m); set (size (<[t := i]> m)) in *
    | |- context [rd_work (match ?fl with _ => _ end)] => destruct fl
    end; simpl in *; rewrite ?length_take; repeat case_match; unfold id in *; try lia.
Qed.

(** A call that has not returned: someone can go on. *)
Lemma sender_goes w i s : (exists qs rs, conn_inv w qs rs) -> small w -> dc_senders (cn_clnt w) !! i = Some s ->
  (forall t b, s <> SrSent t b) -> (forall t b r, s <> SrDone t b r) ->
  exists ev w', clnt_event ev = true /\ demux_exec ev w = Some w'.
Proof.
  intros (qs & rs & HI) HS Hi Hs Hd. destruct s as [b|t b|t b|t b|t b r]; [| | |by destruct (Hs t b)|by destruct (Hd t b r)].
  - exists (DTag i). simpl. rewrite Hi. simpl. eauto.
  - exists (DPut i). simpl. rewrite Hi. simpl. destruct (callMap_put _ _ _); eauto.
  - exists (DWrite i). simpl. rewrite Hi. simpl.
    destruct (fits_call w i _ t true (cn_clnt_ok _ _ _ HI) HS Hi eq_refl) as (f & Hf & _). unfold WriteCall. simpl in *. rewrite Hf. simpl. eauto.
Qed.

Lemma clnt_goes w : (exists qs rs, conn_inv w qs rs) -> small w -> pp_closed (cn_s2c w) = true -> ~ returned w ->
  exists ev w', clnt_event ev = true /\ demux_exec ev w = Some w'.
Proof using GO.
  intros HI HS Hc Hnot.
  assert (exists i s, dc_senders (cn_clnt w) !! i = Some s /\ forall t b r, s <> SrDone t b r) as (i & s & Hi & Hs).
  { destruct (decide (Forall (fun s => sr_work s = 0) (dc_senders (cn_clnt w)))) as [HF|HF].
    - destruct Hnot. intros i s Hi. pose proof (Forall_lookup_1 _ _ _ _ HF Hi) as Hw. destruct s; eauto; done.
    - apply not_Forall_Exists in HF; [|intros x; apply _].
      apply Exists_exists in HF as (s & [i Hi]%list_elem_of_lookup & Hw). exists i, s. split; [done|]. intros t b r ->. by apply Hw. }
  destruct s as [b|t b|t b|t b|t b r] eqn:Es; [by eapply sender_goes|by eapply sender_goes|by eapply sender_goes| |by destruct (Hs t b r)].
  pose proof HI as (qs & rs & HI2). pose proof HI2 as [HC _ _ HR _].
  destruct (dc_reader (cn_clnt w)) as [|j r fl| |[|t' ts]| |] eqn:Hrd.
  - exists DRead. simpl. rewrite Hrd. pose proof (carries_read _ _ HR) as Hread. destruct (ReadCall _ _); eauto. congruence.
  - destruct (ci_reply _ HC _ _ _ Hrd) as (s' & t' & Hj & [b' [-> | ->]] & _); [by eapply sender_goes|].
    exists DDeliver. simpl. rewrite Hrd, Hj. simpl. eauto.
  - exists (DOutstanding (map_to_list (cm_calls (dc_callmap (cn_clnt w)))).*1). simpl. rewrite Hrd. unfold outstanding.
    rewrite bool_decide_true by done. eauto.
  - exists DFail. simpl. rewrite Hrd. eauto.
  - exists DFail. simpl. rewrite Hrd. eauto.
  - exfalso. destruct (ci_waits _ HC _ _ t Hi) as [Hm|(r & fl & Hr)]; [exists b; by right| |congruence].
    pose proof (ci_failing _ HC []) as Hfl. rewrite Hrd in Hfl. destruct (Hfl eq_refl) as (_ & _ & Hin).
    apply (not_elem_of_nil t). apply Hin. by exists i.
  - by destruct (ci_ok _ HC).
Qed.

Lemma sent_req s t b : sent s t b -> sr_req s = b.
Proof. by intros [-> |[r ->]]. Qed.

(** C37. Calls over one connection are matched with their replies: whatever the order of
    the critical sections of client and server, and wherever the connection breaks, the
    client never reads a reply it has no call for and the server ends only when the
    connection broke before the first message; a call that returns without an error got
    the reply of the execution of its own request, and no other request was executed
    under its tag; no two calls have the same tag, and only what a call asked is
    executed. *)
Theorem demux_matches {GI : GobOk InitMsg} clnt w0 w :
  greets clnt -> conn_init clnt = Some w0 -> rtc demux_step w0 w -> small w ->
  dc_reader (cn_clnt w) <> RdFatal /\ (ds_reader (cn_srv w) = SvFatal -> pp_closed (cn_c2s w) = true) /\
  (forall i t b r, dc_senders (cn_clnt w) !! i = Some (SrDone t b r) -> r_err r = false ->
     exists n, ds_served (cn_srv w) !! n = Some (t, b, (r_rep r, r_ok r)) /\
       forall n' b' rep, ds_served (cn_srv w) !! n' = Some (t, b', rep) -> n' = n) /\
  (forall i j s s' t, dc_senders (cn_clnt w) !! i = Some s -> dc_senders (cn_clnt w) !! j = Some s' ->
     sr_tag s = Some t -> sr_tag s' = Some t -> i = j) /\
  (forall t b rep, (t, b, rep) ∈ ds_served (cn_srv w) ->
     exists i s, dc_senders (cn_clnt w) !! i = Some s /\ sr_tag s = Some t /\ sr_req s = b).
Proof using GO.
  intros Hg Hstart Hr HS. destruct (run_inv _ _ _ Hg Hstart Hr HS) as (qs & rs & [HC HL (pre & _ & Hpre) _ _]).
  split_and!; [apply HC| |intros i t b r Hi He|apply HC|intros t b rep Hin].
  - intros Hrd. by rewrite Hrd in Hpre.
  - destruct (list_elem_of_lookup_1 _ _ (lk_done _ _ _ _ HL _ _ _ _ Hi He)) as [n Hn]. exists n. split; [done|].
    intros n' b' rep Hn'. eapply NoDup_lookup; [apply (lk_once _ _ _ _ HL)| |]; unfold served_tags;
      rewrite list_lookup_fmap; [rewrite Hn'|rewrite Hn]; done.
  - destruct (lk_served _ _ _ _ HL _ _ _ Hin) as (i & s & Hi & Hs). exists i, s. split_and!; [done|by eapply sent_tag|by eapply sent_req].
Qed.

(** C38. A connection that broke does not leave a call waiting: from the moment no more
    replies will come the goroutines of the client, however they interleave with the
    server and with what is lost, take at most [work w] steps for the calls made so far,
    and as long as one of those calls has not returned one of them can take a step. *)
Theorem demux_closed_returns {GI : GobOk InitMsg} clnt w0 w evs w' :
  greets clnt -> conn_init clnt = Some w0 -> rtc demux_step w0 w -> pp_closed (cn_s2c w) = true ->
  forallb (fun ev => negb (new_call ev)) evs = true -> demux_exec_all evs w = Some w' -> small w' ->
  length (filter clnt_event evs) + work w' <= work w /\
  (returned w' \/ exists ev w2, clnt_event ev = true /\ demux_exec ev w' = Some w2).
Proof using GO.
  intros Hg Hstart Hr Hc Hn Hex HS.
  assert (length (filter clnt_event evs) + work w' <= work w /\ pp_closed (cn_s2c w') = true) as [Hw Hc'].
  { clear Hr HS. revert w Hc Hn Hex. induction evs as [|ev evs IH]; intros w Hc Hn Hex; simpl in *.
    - injection Hex as <-. split; [lia|done].
    - apply bind_Some in Hex as (w1 & Hev & Hex). apply andb_prop in Hn as [Hn1 Hn].
      destruct (exec_work _ _ _ Hev Hc) as [Hle Hlt]; [by destruct (new_call ev)|].
      destruct (IH w1) as [Hw Hc']; [by eapply exec_closed|done|done|]. split; [|done].
      rewrite filter_cons. case_decide as Hd; simpl; [|lia]. destruct (clnt_event ev); [specialize (Hlt eq_refl); lia|done]. }
  split; [done|]. assert (rtc demux_step w0 w') as Hr' by (etrans; [done|by eapply demux_exec_run]).
  destruct (decide (Forall (fun s => sr_work s = 0) (dc_senders (cn_clnt w')))) as [HF|HF].
  - left. intros i s Hi. pose proof (Forall_lookup_1 _ _ _ _ HF Hi) as Hs. destruct s; eauto; done.
  - right. apply clnt_goes; [by eapply run_inv|done|done|]. intros Hret. apply HF, Forall_lookup_2. intros i s Hi.
    by destruct (Hret i s Hi) as (t & b & r & ->).
Qed.

End steps.

(** ** Remote calls

    The server executes the method called on the arguments given, and the caller decodes
    what the handler's reply encodes to. *)
Section rpc.
Context `{GA : Gob RPCArgs} {GAok : GobOk RPCArgs}.

Lemma RPC_served {A App} `{Gob A} method (args : A) b rs (app : App) :
  RPCMarshall_request method args = Some b ->
  ServeRequest b rs app = x ← Marshall args; Server_Dispatch method x rs app.
Proof using GAok.
  intros (x & Hx & Hb)%bind_Some. rewrite Hx. unfold ServeRequest. simpl. unfold Unmarshall. by rewrite (gob_ok _ _ Hb).
Qed.

Lemma RPC_answer {R} `{GobOk R} (r : R) b : Marshall r = Some b -> RPCMarshall_reply (mkReply b true false) = Some (Some r).
Proof. intros Hr. unfold RPCMarshall_reply, RPC_reply. simpl. unfold Unmarshall. by rewrite (gob_ok _ _ Hr). Qed.

End rpc.

(** ** An executed connection

    With an encoding of the messages two calls run over one connection, the second call's
    request being sent first; one is answered, then the connection breaks and the other
    returns an error. *)

(** A message as its tag, its flag and its data. *)
#[global] Instance RawMsg : Gob msg := {|
  gob_encode := fun m =>
    if decide (m_Tag m < 2 ^ 32)%N then Some (le_bytes 4 (m_Tag m) ++ (if m_Ok m then x01 else x00) :: m_Data m) else None;
  gob_decode := fun b =>
    match drop 4 b with
    | ok :: data => Some (mkMsg (le_value (take 4 b)) data (bool_decide (ok = x01)))
    | [] => None
    end |}.

#[global] Instance RawMsg_ok : GobOk msg.
Proof.
  intros [t d ok] b. unfold gob_encode, gob_decode, RawMsg, m_Tag, m_Ok, m_Data. case_decide as Ht; [|done]. intros [= <-].
  change (drop 4 _) with ((if ok then x01 else x00) :: d). change (take 4 _) with (le_bytes 4 t).
  rewrite le_value_le_bytes. change (256 ^ N.of_nat 4)%N with (2 ^ 32)%N. rewrite N.mod_small by done. by destruct ok.
Qed.

#[global] Instance RawInit : Gob InitMsg := {|
  gob_encode := fun m => Some (String.list_byte_of_string (im_Clnt m));
  gob_decode := fun b => Some (mkInitMsg (String.string_of_list_byte b)) |}.

#[global] Instance RawInit_ok : GobOk InitMsg.
Proof. intros [c] b [= <-]. simpl. by rewrite String.string_of_list_byte_of_string. Qed.

Lemma raw_sendable b : (N.of_nat (length b) + 5 < 2 ^ 32)%N -> sendable b.
Proof.
  intros Hb t ok Ht. eexists. split; [unfold Marshall; simpl; by rewrite decide_True|].
  simpl. lia.
Qed.

Lemma raw_greets : greets "c".
Proof. intros b [= <-]. by apply raw_sendable. Qed.

Definition ex_dmx_answered : list demux_event :=
  [DCall [x10]; DCall [x20; x21]; DTag 1; DTag 0; DPut 0; DPut 1; DWrite 1; DSrvRead; DWrite 0; DSrvRead; DSrvRead;
   DServe 1 [x11] true; DSrvWrite 1; DServe 0 [x22] true; DRead; DDeliver; DCutReplies 0].

Definition ex_dmx_failed : list demux_event := [DRead; DSrvWrite 0; DOutstanding [1%N]; DFail; DDeliver; DFail].

Definition ex_dmx (evs : list demux_event) : conn :=
  default (mkConn (mkDemuxClnt newCallMap 1 RdLoop []) (mkDemuxSrv false SvInit [] []) (mkPipe [] false) (mkPipe [] false))
    (conn_init "c" ≫= demux_exec_all evs).

Lemma ex_dmx_run evs w0 w : conn_init "c" = Some w0 -> demux_exec_all evs w0 = Some w -> rtc demux_step w0 w.
Proof. intros _. apply demux_exec_run. Qed.

Lemma ex_dmx_small : small (ex_dmx (ex_dmx_answered ++ ex_dmx_failed)).
Proof.
  constructor.
  - vm_compute. reflexivity.
  - intros s Hs. vm_compute in Hs. repeat (apply elem_of_cons in Hs as [->|Hs]; [by apply raw_sendable|]).
    by apply not_elem_of_nil in Hs.
  - intros x rep ok Hx. vm_compute in Hx.
    repeat (apply elem_of_cons in Hx as [->|Hx]; [intros [= <- <-]; by apply raw_sendable|]). by apply not_elem_of_nil in Hx.
Qed.

Lemma demux_matches_witness :
  ds_served (cn_srv (ex_dmx (ex_dmx_answered ++ ex_dmx_failed))) = [(2%N, [x10], ([x11], true)); (1%N, [x20; x21], ([x22], true))] /\
  dc_senders (cn_clnt (ex_dmx (ex_dmx_answered ++ ex_dmx_failed))) =
    [SrDone 2 [x10] (mkReply [x11] true false); SrDone 1 [x20; x21] (mkReply [] false true)] /\
  exists n, ds_served (cn_srv (ex_dmx (ex_dmx_answered ++ ex_dmx_failed))) !! n = Some (2%N, [x10], ([x11], true)).
Proof.
  split; [by vm_compute|]. split; [by vm_compute|].
  destruct (demux_matches "c" (default (ex_dmx []) (conn_init "c")) (ex_dmx (ex_dmx_answered ++ ex_dmx_failed)))
    as (_ & _ & Hdone & _); [exact raw_greets|reflexivity| |exact ex_dmx_small|].
  - apply (ex_dmx_run (ex_dmx_answered ++ ex_dmx_failed)); by vm_compute.
  - destruct (Hdone 0 2%N [x10] (mkReply [x11] true false)) as (n & Hn & _); [by vm_compute|done|]. by exists n.
Defined.

Lemma demux_closed_returns_witness :
  work (ex_dmx ex_dmx_answered) = 7 /\ returned (ex_dmx (ex_dmx_answered ++ ex_dmx_failed)) /\
  length (filter clnt_event ex_dmx_failed) + work (ex_dmx (ex_dmx_answered ++ ex_dmx_failed)) <= work (ex_dmx ex_dmx_answered).
Proof.
  split; [by vm_compute|]. split.
  { intros i s Hi. vm_compute in Hi. destruct i as [|[|i]]; [| |done]; injection Hi as <-; eauto. }
  destruct (demux_closed_returns "c" (default (ex_dmx []) (conn_init "c")) (ex_dmx ex_dmx_answered) ex_dmx_failed
    (ex_dmx (ex_dmx_answered ++ ex_dmx_failed))) as [Hw _]; [exact raw_greets|reflexivity| | | | |exact ex_dmx_small|exact Hw].
  - apply (ex_dmx_run ex_dmx_answered); by vm_compute.
  - by vm_compute.
  - by vm_compute.
  - by vm_compute.
Defined.
