(* ===== verification/Tester.v ===== *)
(** * Servers and clients on the simulated network ([tester1/{srv,group,clnts}.go])

    The tester runs groups of servers, each with one end per server of its group, and
    clients with an end per server they called; it connects, disconnects and partitions
    them by enabling ends of the network ([Labrpc]), and stops and restarts servers with
    the state they persisted.  A method that ends the process or indexes out of range is
    [None].  [TesterSafe] has the theorems. *)

From S2P Require Import Prelude.
From S2P Require Import GoLib.
From S2P Require Import Persister.
From S2P Require Import Labrpc.

Abbreviation net := (Network (Name := string)).

(** ** [daemonsrv.go], [daemonclnt.go]: the persister of a server's process

    The tester's calls to a process are taken to answer. *)
Definition DaemonSrv_Init (raftstate snapshot : bytes) : Persister := Persister_Save MakePersister raftstate snapshot.

Definition DaemonClnt_init (persister : Persister) : Persister :=
  DaemonSrv_Init (ReadRaftState persister) (ReadSnapshot persister).

Definition CheckpointPersister (persister : Persister) : bytes * bytes :=
  let p := Persister_Checkpoint persister in (ReadRaftState p, ReadSnapshot p).

Definition checkpointPersister (persister : Persister) : Persister :=
  let reply := CheckpointPersister persister in Persister_Save MakePersister reply.1 reply.2.

Definition StateSize (persister : Persister) : Z * Z := (RaftStateSize persister, SnapshotSize persister).

(** ** [srv.go]

    [dc]: the process of the server, here by the persister it runs on. *)
Record tserver : Type := mkTserver { ts_saved : option Persister; ts_endNames : list string; ts_dc : option Persister }.

Definition ServerName (gid : Z) (i : nat) : string :=
  String.append (String.append (String.append "server-" (itoa gid)) "-") (itoa (Z.of_nat i)).

(** [names]: what [Randstring] returned. *)
Fixpoint make_ends (gid : Z) (j : nat) (names : list string) (rn : net) : option net :=
  match names with
  | [] => Some rn
  | e :: names' => rn' ← MakeEnd e rn; make_ends gid (S j) names' (Connect e (ServerName gid j) rn')
  end.

Definition makeServer (gid : Z) (names : list string) (rn : net) : option (tserver * net) :=
  rn' ← make_ends gid 0 names rn; Some (mkTserver None names None, rn').

Definition startServer (gid : Z) (names : list string) (s : tserver) (rn : net) : option (tserver * net) :=
  '(srv, rn') ← makeServer gid names rn;
  Some (mkTserver (Some (default MakePersister (ts_saved s))) (ts_endNames srv) (ts_dc srv), rn').

(** Enabling the ends named. *)
Definition enable_end (b : bool) (rn : option net) (e : option string) : option net :=
  rn ← rn; e ← e; Some (Enable e b rn).

Definition enable_ends (b : bool) (es : list (option string)) (rn : net) : option net := foldl (enable_end b) (Some rn) es.

(** The servers of [to] that are connected. *)
Definition connected_of (connected : list bool) (to : list nat) : option (list nat) :=
  foldr (fun j acc => acc ← acc; c ← connected !! j; Some (if c : bool then j :: acc else acc)) (Some []) to.

Definition Server_connect (connected : list bool) (to : list nat) (s : tserver) (rn : net) : option net :=
  to' ← connected_of connected to; enable_ends true ((fun j => ts_endNames s !! j) <$> to') rn.

Definition Server_disconnect (from : list nat) (s : tserver) (rn : net) : option net :=
  enable_ends false ((fun j => ts_endNames s !! j) <$> from) rn.

Definition shutdownServer (s : tserver) : tserver :=
  match ts_dc s with
  | Some p => mkTserver (Some (checkpointPersister p)) (ts_endNames s) None
  | None => s
  end.

(** Both read the process's sizes, or those saved. *)
Definition raftSize (s : tserver) : option Z :=
  match ts_dc s with Some p => Some (StateSize p).1 | None => RaftStateSize <$> ts_saved s end.

Definition snapshotSize (s : tserver) : option Z :=
  match ts_dc s with Some p => Some (StateSize p).2 | None => SnapshotSize <$> ts_saved s end.

(** ** [group.go] *)

Record ServerGrp : Type := mkServerGrp {
  sg_srvs : list tserver;
  sg_servernames : list string;
  sg_gid : Z;
  sg_connected : list bool;
}.

Definition set_connected (i : nat) (b : bool) (sg : ServerGrp) : option ServerGrp :=
  if decide (i < length (sg_connected sg))
  then Some (mkServerGrp (sg_srvs sg) (sg_servernames sg) (sg_gid sg) (<[i := b]> (sg_connected sg))) else None.

Definition set_srv (i : nat) (s : tserver) (sg : ServerGrp) : ServerGrp :=
  mkServerGrp (<[i := s]> (sg_srvs sg)) (sg_servernames sg) (sg_gid sg) (sg_connected sg).

(** [names]: those of the ends of each server. *)
Fixpoint make_servers (gid : Z) (names : list (list string)) (rn : net) : option (list tserver * net) :=
  match names with
  | [] => Some ([], rn)
  | es :: names' =>
      '(s, rn1) ← makeServer gid es rn;
      '(ss, rn2) ← make_servers gid names' rn1;
      Some (s :: ss, rn2)
  end.

Definition makeSrvGrp (gid : Z) (names : list (list string)) (rn : net) : option (ServerGrp * net) :=
  let n := length names in
  '(srvs, rn') ← make_servers gid names rn;
  Some (mkServerGrp srvs (ServerName gid <$> seq 0 n) gid (replicate n false), rn').

Definition sg_N (sg : ServerGrp) : nat := length (sg_srvs sg).

Definition SrvNames (sg : ServerGrp) : list string := sg_servernames sg.

Definition SrvName (i : nat) (sg : ServerGrp) : option string := sg_servernames sg !! i.

Definition SrvNamesTo (to : list nat) (sg : ServerGrp) : option (list string) := mapM (fun i => sg_servernames sg !! i) to.

Definition all (sg : ServerGrp) : list nat := seq 0 (length (sg_srvs sg)).

Definition IsConnected (i : nat) (sg : ServerGrp) : option bool := sg_connected sg !! i.

Definition GetConnected (sg : ServerGrp) : list bool := sg_connected sg.

(** A group on the network. *)
Record grpnet : Type := mkGrpnet { gn_grp : ServerGrp; gn_net : net }.

(** The ends to [i] of the servers listed. *)
Definition ends_to (i : nat) (js : list nat) (sg : ServerGrp) : list (option string) :=
  (fun j => s ← sg_srvs sg !! j; ts_endNames s !! i) <$> js.

Definition connect (i : nat) (to : list nat) (g : grpnet) : option grpnet :=
  sg ← set_connected i true (gn_grp g);
  s ← sg_srvs sg !! i;
  rn ← Server_connect (sg_connected sg) to s (gn_net g);
  to' ← connected_of (sg_connected sg) to;
  rn ← enable_ends true (ends_to i to' sg) rn;
  Some (mkGrpnet sg rn).

Definition disconnect (i : nat) (from : list nat) (g : grpnet) : option grpnet :=
  sg ← set_connected i false (gn_grp g);
  s ← sg_srvs sg !! i;
  rn ← Server_disconnect from s (gn_net g);
  rn ← enable_ends false (ends_to i from sg) rn;
  Some (mkGrpnet sg rn).

(** [for _, i := range ids { f(i) }] *)
Definition for_each {A} (f : nat -> A -> option A) (ids : list nat) (a : A) : option A :=
  foldl (fun a i => a ← a; f i a) (Some a) ids.

Definition ConnectOne (i : nat) (g : grpnet) : option grpnet := connect i (all (gn_grp g)) g.

Definition ConnectAll (g : grpnet) : option grpnet := for_each ConnectOne (all (gn_grp g)) g.

Definition DisconnectAll (i : nat) (g : grpnet) : option grpnet := disconnect i (all (gn_grp g)) g.

Definition Partition (p1 p2 : list nat) (g : grpnet) : option grpnet :=
  g ← for_each (fun i g => g ← disconnect i p2 g; connect i p1 g) p1 g;
  for_each (fun i g => g ← disconnect i p1 g; connect i p2 g) p2 g.

(** The loop of [MakePartition], from [i] on. *)
Fixpoint partition_loop (ids : list nat) (l j : nat) (p1 p2 : list nat) : option (list nat * list nat) :=
  match ids with
  | [] => Some (p1, p2)
  | i :: ids' =>
      if decide (i <> l) then
        if decide (j < length p1) then partition_loop ids' l (S j) (<[j := i]> p1) p2
        else if decide (j - length p1 < length p2) then partition_loop ids' l (S j) p1 (<[j - length p1 := i]> p2)
        else None
      else partition_loop ids' l j p1 p2
  end.

Definition MakePartition (l : nat) (sg : ServerGrp) : option (list nat * list nat) :=
  let n := length (sg_srvs sg) in
  '(p1, p2) ← partition_loop (seq 0 n) l 0 (replicate (n / 2 + 1) 0) (replicate (n / 2) 0);
  if decide (p2 = []) then None else Some (p1, <[length p2 - 1 := l]> p2).

(** [names]: of the new ends; [rs]: the new [labrpc.Server]; the process is given the
    state saved. *)
Definition StartServer (names : list string) (rs i : nat) (g : grpnet) : option grpnet :=
  let sg := gn_grp g in
  s ← sg_srvs sg !! i;
  if decide (length names <> length (ts_endNames s)) then None
  else '(srv, rn) ← startServer (sg_gid sg) names s (gn_net g);
       p ← ts_saved srv;
       let srv' := mkTserver (ts_saved srv) (ts_endNames srv) (Some (DaemonClnt_init p)) in
       Some (mkGrpnet (set_srv i srv' sg) (AddServer (ServerName (sg_gid sg) i) rs rn)).

Definition ShutdownServer (i : nat) (g : grpnet) : option grpnet :=
  g ← disconnect i (all (gn_grp g)) g;
  let sg := gn_grp g in
  s ← sg_srvs sg !! i;
  Some (mkGrpnet (set_srv i (shutdownServer s) sg) (DeleteServer (ServerName (sg_gid sg) i) (gn_net g))).

Definition Kill (srvs : list nat) (g : grpnet) : option grpnet := for_each ShutdownServer srvs g.

Definition Shutdown (g : grpnet) : option grpnet := Kill (all (gn_grp g)) g.

(** The names and the [labrpc.Server] of each server started. *)
Fixpoint StartSrvs (fresh : list (list string * nat)) (srvs : list nat) (g : grpnet) : option grpnet :=
  match srvs, fresh with
  | [], _ => Some g
  | i :: srvs', (names, rs) :: fresh' => g ← StartServer names rs i g; StartSrvs fresh' srvs' g
  | _, [] => None
  end.

Definition StartServers (fresh : list (list string * nat)) (g : grpnet) : option grpnet :=
  g ← StartSrvs fresh (all (gn_grp g)) g; ConnectAll g.

Definition RaftSize (sg : ServerGrp) : option Z :=
  foldl (fun m s => m ← m; n ← raftSize s; Some (if decide (m < n)%Z then n else m)) (Some 0%Z) (sg_srvs sg).

Definition sg_SnapshotSize (sg : ServerGrp) : option Z :=
  foldl (fun m s => m ← m; n ← snapshotSize s; Some (if decide (m < n)%Z then n else m)) (Some 0%Z) (sg_srvs sg).

(** What happens to a group: its own operations, its processes persisting, the network's
    modes, and what is done with ends that are not the group's. *)
Inductive grp_event : Type :=
  | GConnectOne (i : nat)
  | GDisconnectAll (i : nat)
  | GPartition (p1 p2 : list nat)
  | GStart (names : list string) (rs i : nat)
  | GShutdown (i : nat)
  | GPersist (i : nat) (raftstate snapshot : bytes)
  | GReliable (yes : bool)
  | GLongReordering (yes : bool)
  | GMakeEnd (e : string)
  | GConnect (e server : string)
  | GEnable (e : string) (b : bool)
  | GDeleteEnd (e : string).

Definition grp_ends (sg : ServerGrp) : list string := mjoin (ts_endNames <$> sg_srvs sg).

Definition on_net (rn : option net) (g : grpnet) : option grpnet := rn ← rn; Some (mkGrpnet (gn_grp g) rn).

Definition grp_exec (ev : grp_event) (g : grpnet) : option grpnet :=
  match ev with
  | GConnectOne i => ConnectOne i g
  | GDisconnectAll i => DisconnectAll i g
  | GPartition p1 p2 => Partition p1 p2 g
  | GStart names rs i => StartServer names rs i g
  | GShutdown i => ShutdownServer i g
  | GPersist i raftstate snapshot =>
      s ← sg_srvs (gn_grp g) !! i;
      p ← ts_dc s;
      Some (mkGrpnet (set_srv i (mkTserver (ts_saved s) (ts_endNames s) (Some (Persister_Save p raftstate snapshot))) (gn_grp g)) (gn_net g))
  | GReliable yes => on_net (Some (Reliable yes (gn_net g))) g
  | GLongReordering yes => on_net (Some (LongReordering yes (gn_net g))) g
  | GMakeEnd e => on_net (MakeEnd e (gn_net g)) g
  | GConnect e server => if decide (e ∈ grp_ends (gn_grp g)) then None else on_net (Some (Connect e server (gn_net g))) g
  | GEnable e b => if decide (e ∈ grp_ends (gn_grp g)) then None else on_net (Some (Enable e b (gn_net g))) g
  | GDeleteEnd e => if decide (e ∈ grp_ends (gn_grp g)) then None else on_net (DeleteEnd e (gn_net g)) g
  end.

Fixpoint grp_exec_all (evs : list grp_event) (g : grpnet) : option grpnet :=
  match evs with
  | [] => Some g
  | ev :: evs' => g' ← grp_exec ev g; grp_exec_all evs' g'
  end.

(** ** [clnts.go]

    [cl_srvs]: nil, or the servers the client may call. *)
Record Clnt : Type := mkClnt { cl_ends : gmap string string; cl_srvs : option (list string) }.

Definition makeClntTo (srvs : option (list string)) : Clnt := mkClnt ∅ srvs.

Definition allowedL (server : string) (cl : Clnt) : bool :=
  match cl_srvs cl with None => true | Some srvs => bool_decide (server ∈ srvs) end.

(** [name]: what [Randstring] returned. *)
Definition makeEnd (server name : string) (cl : Clnt) (rn : net) : option (string * Clnt * net) :=
  match cl_ends cl !! server with
  | Some e => Some (e, cl, rn)
  | None =>
      rn ← MakeEnd name rn;
      let rn := Enable name (allowedL server cl) (Connect name server rn) in
      Some (name, mkClnt (<[server := name]> (cl_ends cl)) (cl_srvs cl), rn)
  end.

(** [for srv, e := range clnt.ends { if p(srv) { Enable(e, b) } }] *)
Definition enable_where (p : string -> bool) (b : bool) (cl : Clnt) (rn : net) : net :=
  map_fold (fun srv e rn => if p srv then Enable e b rn else rn) rn (cl_ends cl).

Definition Clnt_ConnectAll (cl : Clnt) (rn : net) : Clnt * net :=
  (mkClnt (cl_ends cl) None, enable_where (fun _ => true) true cl rn).

Definition Clnt_ConnectTo (srvs : list string) (cl : Clnt) (rn : net) : Clnt * net :=
  let cl := mkClnt (cl_ends cl) (Some srvs) in
  (cl, enable_where (fun srv => allowedL srv cl) true cl rn).

Definition Clnt_Disconnect (srv : string) (cl : Clnt) (rn : net) : net :=
  enable_where (fun s => bool_decide (s = srv)) false cl rn.

Definition Clnt_DisconnectAll (cl : Clnt) (rn : net) : Clnt * net :=
  (mkClnt (cl_ends cl) (Some []), enable_where (fun _ => true) false cl rn).

(** In some order of the map. *)
Definition Clnt_remove (cl : Clnt) (rn : net) : option net :=
  map_fold (fun _ e rn => rn ← rn; DeleteEnd e rn) (Some rn) (cl_ends cl).

(** What happens to a client's ends: its own operations, servers that come and go, and what
    is done with other ends. *)
Inductive clnt_event : Type :=
  | CMakeEnd (server name : string)
  | CConnectAll
  | CConnectTo (srvs : list string)
  | CDisconnectAll
  | CDisconnect (server : string)
  | CAddServer (server : string) (rs : nat)
  | CDeleteServer (server : string)
  | COtherMakeEnd (e : string)
  | COtherEnable (e : string) (b : bool).

Definition keeps (ev : clnt_event) : bool := match ev with CDisconnect _ => false | _ => true end.

Definition restricts (ev : clnt_event) : bool := match ev with CConnectTo _ => false | _ => true end.

Definition clnt_exec (ev : clnt_event) (c : Clnt * net) : option (Clnt * net) :=
  let '(cl, rn) := c in
  match ev with
  | CMakeEnd server name => '(_, cl', rn') ← makeEnd server name cl rn; Some (cl', rn')
  | CConnectAll => Some (Clnt_ConnectAll cl rn)
  | CConnectTo srvs => Some (Clnt_ConnectTo srvs cl rn)
  | CDisconnectAll => Some (Clnt_DisconnectAll cl rn)
  | CDisconnect server => Some (cl, Clnt_Disconnect server cl rn)
  | CAddServer server rs => Some (cl, AddServer server rs rn)
  | CDeleteServer server => Some (cl, DeleteServer server rn)
  | COtherMakeEnd e => rn' ← MakeEnd e rn; Some (cl, rn')
  | COtherEnable e b => if decide (e ∈ (map_img (cl_ends cl) : gset string)) then None else Some (cl, Enable e b rn)
  end.

Fixpoint clnt_exec_all (evs : list clnt_event) (c : Clnt * net) : option (Clnt * net) :=
  match evs with
  | [] => Some c
  | ev :: evs' => c' ← clnt_exec ev c; clnt_exec_all evs' c'
  end.

(** ** [kvtest.Partitioner]: one round, with the draws [a] *)
Definition Partitioner_round (a : list nat) (g : grpnet) : option grpnet :=
  let part v := filter (fun j => a !! j = Some v) (seq 0 (sg_N (gn_grp g))) in
  Partition (part 0) (part 1) g.

(** ** The clients, the groups and the configuration of a test

    [cs_clerks]: the clients by their addresses, nil after [cleanup]. *)
Record Clnts : Type := mkClnts { cs_clerks : option (gmap nat Clnt) }.

Definition makeClnts : Clnts := mkClnts (Some ∅).

Definition Clnts_makeEnd (servername name : string) (rn : net) : option (string * net) :=
  rn ← MakeEnd name rn; Some (name, Enable name true (Connect name servername rn)).

(** Storing into a nil map panics. *)
Definition MakeClientTo (addr : nat) (srvs : option (list string)) (cs : Clnts) : option Clnts :=
  m ← cs_clerks cs; Some (mkClnts (Some (<[addr := makeClntTo srvs]> m))).

Definition MakeClient (addr : nat) (cs : Clnts) : option Clnts := MakeClientTo addr None cs.

Definition Clnts_cleanup (cs : Clnts) (rn : net) : option (Clnts * net) :=
  rn ← map_fold (fun _ cl rn => rn ← rn; Clnt_remove cl rn) (Some rn) (default ∅ (cs_clerks cs));
  Some (mkClnts None, rn).

Definition DeleteClient (addr : nat) (cs : Clnts) (rn : net) : option (Clnts * net) :=
  match default ∅ (cs_clerks cs) !! addr with
  | Some cl => rn ← Clnt_remove cl rn; Some (mkClnts (delete addr <$> cs_clerks cs), rn)
  | None => Some (cs, rn)
  end.

Definition Groups : Type := gmap Z ServerGrp.

Definition MakeGroup (gid : Z) (names : list (list string)) (gs : Groups) (rn : net) : option (Groups * net) :=
  '(sg, rn) ← makeSrvGrp gid names rn; Some (<[gid := sg]> gs, rn).

Definition lookupGroup (gid : Z) (gs : Groups) : option ServerGrp := gs !! gid.

Definition Groups_delete (gid : Z) (gs : Groups) : Groups := delete gid gs.

(** An operation of the group looked up; a nil group panics. *)
Definition on_group (gid : Z) (f : grpnet -> option grpnet) (gs : Groups) (rn : net) : option (Groups * net) :=
  sg ← lookupGroup gid gs; g ← f (mkGrpnet sg rn); Some (<[gid := gn_grp g]> gs, gn_net g).

Definition Groups_cleanup (gs : Groups) (rn : net) : option (Groups * net) :=
  map_fold (fun gid _ acc => '(gs, rn) ← acc; on_group gid Shutdown gs rn) (Some (gs, rn)) gs.

Record Config : Type := mkConfig {
  cf_clnts : Clnts;
  cf_groups : Groups;
  cf_net : net;
  cf_rpcs0 : Z;
  cf_ops : Z;
}.

Definition cf_set (c : Config) (p : Groups * net) : Config := mkConfig (cf_clnts c) p.1 p.2 (cf_rpcs0 c) (cf_ops c).

(** [fresh]: what [StartSrvs] draws. *)
Definition MakeGroupStart (gid : Z) (names : list (list string)) (fresh : list (list string * nat)) (c : Config) : option Config :=
  '(gs, rn) ← MakeGroup gid names (cf_groups c) (cf_net c);
  p ← on_group gid (StartServers fresh) gs rn; Some (cf_set c p).

Definition MakeConfig (names : list (list string)) (fresh : list (list string * nat)) (reliable : bool) : option Config :=
  c ← MakeGroupStart 0 names fresh (mkConfig (mkClnts None) ∅ MakeNetwork 0 0);
  Some (mkConfig makeClnts (cf_groups c) (Reliable reliable (cf_net c)) 0 0).

Definition ExitGroup (gid : Z) (c : Config) : option Config :=
  '(gs, rn) ← on_group gid Shutdown (cf_groups c) (cf_net c); Some (cf_set c (Groups_delete gid gs, rn)).

(** With [TesterRPC.cleanup] left out. *)
Definition Config_Cleanup (c : Config) : option Config :=
  '(cs, rn) ← Clnts_cleanup (cf_clnts c) (cf_net c);
  '(gs, rn) ← Groups_cleanup (cf_groups c) rn;
  rn ← Cleanup rn;
  Some (mkConfig cs gs rn (cf_rpcs0 c) (cf_ops c)).

Definition RpcTotal (c : Config) : Z := GetTotalCount (cf_net c).

Definition BytesTotal (c : Config) : Z := GetTotalBytes (cf_net c).

Definition Config_Begin (c : Config) : Config := mkConfig (cf_clnts c) (cf_groups c) (cf_net c) (RpcTotal c) 0.

Definition OpInc (c : Config) : Config := mkConfig (cf_clnts c) (cf_groups c) (cf_net c) (cf_rpcs0 c) (AddInt32 (cf_ops c) 1).

(** The numbers [End] prints: of RPCs and of calls of clerks. *)
Definition Config_End (c : Config) : option (nat * Z * Z) :=
  sg ← lookupGroup 0 (cf_groups c); Some (sg_N sg, RpcTotal c - cf_rpcs0 c, cf_ops c)%Z.
