(* ===== verification/TesterSafe.v ===== *)
(** * What connecting and partitioning servers does

    The proofs of [Tester]: after [Partition] an end between two servers carries requests
    exactly if they are in the same part, whatever was done to the group before; a
    partition made for a leader leaves it in the minority; a restarted server has the
    state its predecessor persisted; and a client's ends are open to the servers it may
    call. *)

From S2P Require Import Prelude.
From S2P Require Import GoLib.
From S2P Require Import Persister.
From S2P Require Import Labrpc.
From S2P Require Import Tester.

(** ** Enabling ends *)

Definition on (rn : net) (e : string) : bool := default false (rn_enabled rn !! e).

(** Only enabling changed. *)
Definition only_enabled (rn rn' : net) : Prop :=
  rn' = set_tables (rn_ends rn) (rn_enabled rn') (rn_servers rn) (rn_connections rn) rn.

Lemma only_enabled_refl rn : only_enabled rn rn.
Proof. by destruct rn. Qed.

Lemma only_enabled_trans rn1 rn2 rn3 : only_enabled rn1 rn2 -> only_enabled rn2 rn3 -> only_enabled rn1 rn3.
Proof. intros H1 H2. unfold only_enabled in *. rewrite H2. rewrite H1. by destruct rn1. Qed.

Lemma on_Enable rn e b x : on (Enable e b rn) x = if decide (x = e) then b else on rn x.
Proof.
  unfold on, Enable. simpl. case_decide as Hd; [by rewrite Hd, lookup_insert_eq|by rewrite lookup_insert_ne].
Qed.

Lemma enable_ends_on b es : forall rn, exists rn', enable_ends b (Some <$> es) rn = Some rn' /\ only_enabled rn rn' /\
  forall x, on rn' x = if decide (x ∈ es) then b else on rn x.
Proof.
  unfold enable_ends. induction es as [|e es IH]; intros rn.
  - exists rn. split_and!; [done|apply only_enabled_refl|]. intros x. by rewrite decide_False by apply not_elem_of_nil.
  - csimpl. destruct (IH (Enable e b rn)) as (rn' & H1 & H2 & H3). exists rn'. split_and!; [done|by eapply only_enabled_trans; [|exact H2]|].
    intros x. rewrite H3, on_Enable. destruct (decide (x ∈ es)) as [Hin|Hnot].
    + by rewrite decide_True by by right.
    + destruct (decide (x = e)) as [->|Hne]; [by rewrite decide_True by left|].
      rewrite decide_False; [done|]. by intros [?|?]%elem_of_cons.
Qed.

Lemma connected_of_filter cs to : (forall j, j ∈ to -> j < length cs) ->
  connected_of cs to = Some (filter (fun j => default false (cs !! j) = true) to).
Proof.
  induction to as [|j to IH]; intros Hto; [done|].
  change (connected_of cs (j :: to)) with (acc ← connected_of cs to; c ← cs !! j; Some (if c : bool then j :: acc else acc)).
  rewrite IH by (intros; apply Hto; by right). simpl.
  destruct (lookup_lt_is_Some_2 cs j) as [c Hc]; [apply Hto; by left|]. rewrite Hc. simpl. rewrite filter_cons, Hc. by destruct c.
Qed.

(** ** A group *)

Definition link (g : grpnet) (i j : nat) : option string := s ← sg_srvs (gn_grp g) !! i; ts_endNames s !! j.

(** Every server has an end of its own to every server, and the network knows them. *)
Record wired (n : nat) (g : grpnet) : Prop := {
  wd_srvs : length (sg_srvs (gn_grp g)) = n;
  wd_connected : length (sg_connected (gn_grp g)) = n;
  wd_link i j : i < n -> j < n -> is_Some (link g i j);
  wd_inj i j i' j' e : link g i j = Some e -> link g i' j' = Some e -> i = i' /\ j = j';
  wd_ends i j e : link g i j = Some e -> e ∈ rn_ends (gn_net g);
  wd_conn i j e : link g i j = Some e -> rn_connections (gn_net g) !! e = Some (Some (ServerName (sg_gid (gn_grp g)) j));
  wd_len i s : sg_srvs (gn_grp g) !! i = Some s -> length (ts_endNames s) = n;
}.

Definition is_on (g : grpnet) (i j : nat) : bool := match link g i j with Some e => on (gn_net g) e | None => false end.

Definition conn (g : grpnet) (i : nat) : bool := default false (sg_connected (gn_grp g) !! i).

(** Only who is connected changed, and which ends of the group are enabled. *)
Record rewired (g g' : grpnet) : Prop := {
  rw_srvs : sg_srvs (gn_grp g') = sg_srvs (gn_grp g);
  rw_names : sg_servernames (gn_grp g') = sg_servernames (gn_grp g);
  rw_gid : sg_gid (gn_grp g') = sg_gid (gn_grp g);
  rw_connected : length (sg_connected (gn_grp g')) = length (sg_connected (gn_grp g));
  rw_net : only_enabled (gn_net g) (gn_net g');
  rw_others e : (forall i j, link g i j <> Some e) -> on (gn_net g') e = on (gn_net g) e;
}.

Lemma rewired_refl g : rewired g g.
Proof. constructor; try done. apply only_enabled_refl. Qed.

Lemma rewired_link g g' i j : rewired g g' -> link g' i j = link g i j.
Proof. intros H. unfold link. by rewrite (rw_srvs _ _ H). Qed.

Lemma rewired_trans g1 g2 g3 : rewired g1 g2 -> rewired g2 g3 -> rewired g1 g3.
Proof.
  intros H1 H2. pose proof (fun i j => rewired_link g1 g2 i j H1) as Hl. destruct H1 as [A1 B1 C1 D1 E1 F1], H2 as [A2 B2 C2 D2 E2 F2].
  constructor; try congruence; [by eapply only_enabled_trans|]. intros e He. rewrite F2, F1; [done|done|].
  intros i j. rewrite Hl. apply He.
Qed.

Lemma rewired_wired n g g' : rewired g g' -> wired n g -> wired n g'.
Proof.
  intros H [W1 W2 W3 W4 W5 W6 W7]. pose proof (fun i j => rewired_link g g' i j H) as Hl. destruct H as [A B C D E _].
  constructor; try (by rewrite A); try (by rewrite D).
  - intros i j. rewrite Hl. apply W3.
  - intros i j i' j' e. rewrite !Hl. apply W4.
  - intros i j e. rewrite Hl, E. simpl. apply W5.
  - intros i j e. rewrite Hl, E, C. simpl. apply W6.
Qed.

Lemma set_connected_spec n g i b : wired n g -> i < n -> exists sg,
  set_connected i b (gn_grp g) = Some sg /\ sg_srvs sg = sg_srvs (gn_grp g) /\ sg_servernames sg = sg_servernames (gn_grp g) /\
  sg_gid sg = sg_gid (gn_grp g) /\ sg_connected sg = <[i := b]> (sg_connected (gn_grp g)).
Proof.
  intros W Hi. unfold set_connected. rewrite decide_True by by rewrite (wd_connected _ _ W). by eexists.
Qed.

(** The ends of one server, and those to it. *)
Lemma ends_from n g i (js : list nat) s : wired n g -> sg_srvs (gn_grp g) !! i = Some s -> (forall j, j ∈ js -> j < n) ->
  exists es, (fun j => ts_endNames s !! j) <$> js = Some <$> (es : list string) /\ forall e, e ∈ es <-> exists j, j ∈ js /\ link g i j = Some e.
Proof.
  intros W Hs. induction js as [|j js IH]; intros Hjs.
  - exists []. split; [done|]. intros e. split; [by intros ?%not_elem_of_nil|by intros (j & ?%not_elem_of_nil & _)].
  - destruct IH as (es & He & Hes); [intros; apply Hjs; by right|].
    destruct (wd_link _ _ W i j) as [e Hl]; [rewrite <- (wd_srvs _ _ W); by eapply lookup_lt_Some|apply Hjs; by left|].
    exists (e :: es). split.
    + csimpl. rewrite He. f_equal. unfold link in Hl. by rewrite Hs in Hl.
    + intros x. rewrite elem_of_cons, Hes. split.
      * intros [->|(j' & ? & ?)]; [exists j; split; [left|done]|exists j'; split; [by right|done]].
      * intros (j' & [->|?]%elem_of_cons & Hx); [left; congruence|right; by exists j'].
Qed.

Lemma ends_to_spec n g i (js : list nat) : wired n g -> i < n -> (forall j, j ∈ js -> j < n) ->
  exists es, ends_to i js (gn_grp g) = Some <$> (es : list string) /\ forall e, e ∈ es <-> exists j, j ∈ js /\ link g j i = Some e.
Proof.
  intros W Hi. induction js as [|j js IH]; intros Hjs.
  - exists []. split; [done|]. intros e. split; [by intros ?%not_elem_of_nil|by intros (j & ?%not_elem_of_nil & _)].
  - destruct IH as (es & He & Hes); [intros; apply Hjs; by right|].
    destruct (wd_link _ _ W j i) as [e Hl]; [apply Hjs; by left|done|].
    exists (e :: es). split.
    + unfold ends_to in *. csimpl. rewrite He. f_equal. exact Hl.
    + intros x. rewrite elem_of_cons, Hes. split.
      * intros [->|(j' & ? & ?)]; [exists j; split; [left|done]|exists j'; split; [by right|done]].
      * intros (j' & [->|?]%elem_of_cons & Hx); [left; congruence|right; by exists j'].
Qed.

Lemma connect_spec n g i (to : list nat) : wired n g -> i < n -> (forall j, j ∈ to -> j < n) ->
  exists g', connect i to g = Some g' /\ rewired g g' /\
    (forall j, conn g' j = if decide (j = i) then true else conn g j) /\
    forall a b, a < n -> b < n -> is_on g' a b =
      if decide ((a = i /\ b ∈ to /\ conn g' b = true) \/ (b = i /\ a ∈ to /\ conn g' a = true)) then true else is_on g a b.
Proof.
  intros W Hi Hto. unfold connect. destruct (set_connected_spec n g i true W Hi) as (sg & -> & Hs & Hn & Hg & Hc). simpl.
  destruct (lookup_lt_is_Some_2 (sg_srvs (gn_grp g)) i) as [s Hsi]; [by rewrite (wd_srvs _ _ W)|]. rewrite Hs, Hsi. simpl.
  set (to' := filter (fun j => default false (sg_connected sg !! j) = true) to).
  assert (forall j, j ∈ to' -> j < n) as Hto' by (intros j [_ Hj]%list_elem_of_filter; by apply Hto).
  assert (connected_of (sg_connected sg) to = Some to') as Hco.
  { apply connected_of_filter. intros j Hj. rewrite Hc, length_insert, (wd_connected _ _ W). by apply Hto. }
  unfold Server_connect. rewrite Hco. simpl.
  destruct (ends_from n g i to' s W Hsi Hto') as (es1 & -> & He1).
  destruct (enable_ends_on true es1 (gn_net g)) as (rn1 & -> & Ho1 & On1). simpl.
  destruct (ends_to_spec n g i to' W Hi Hto') as (es2 & He2' & He2).
  assert (ends_to i to' sg = Some <$> es2) as -> by (rewrite <- He2'; unfold ends_to; by rewrite Hs).
  destruct (enable_ends_on true es2 rn1) as (rn2 & -> & Ho2 & On2). simpl.
  set (g' := mkGrpnet sg rn2). exists g'. split; [done|].
  assert (rewired g g') as R.
  { constructor; simpl; try done; [by rewrite Hc, length_insert|by eapply only_enabled_trans|]. intros e He. rewrite On2, On1.
    rewrite decide_False by (rewrite He2; intros (j & _ & Hl); by eapply He).
    by rewrite decide_False by (rewrite He1; intros (j & _ & Hl); by eapply He). }
  split; [done|].
  assert (forall j, conn g' j = if decide (j = i) then true else conn g j) as Hconn.
  { intros j. unfold conn. simpl. rewrite Hc. case_decide as Hj; [subst j; by rewrite list_lookup_insert_eq by by rewrite (wd_connected _ _ W)|].
    by rewrite list_lookup_insert_ne. }
  split; [done|]. intros a b Ha Hb. unfold is_on. rewrite !(rewired_link g g') by done.
  destruct (wd_link _ _ W a b Ha Hb) as [e He]. rewrite He. simpl. rewrite On2, On1.
  assert (forall j, j ∈ to' <-> j ∈ to /\ conn g' j = true) as Hin.
  { intros j. unfold to'. rewrite list_elem_of_filter. unfold conn. simpl. tauto. }
  assert (e ∈ es1 <-> a = i /\ b ∈ to /\ conn g' b = true) as Hes1.
  { rewrite He1. setoid_rewrite Hin. split; [intros (j & Hj & Hl); by destruct (wd_inj _ _ W _ _ _ _ _ He Hl) as [-> ->]|].
    intros (-> & ?). by exists b. }
  assert (e ∈ es2 <-> b = i /\ a ∈ to /\ conn g' a = true) as Hes2.
  { rewrite He2. setoid_rewrite Hin. split; [intros (j & Hj & Hl); by destruct (wd_inj _ _ W _ _ _ _ _ He Hl) as [-> ->]|].
    intros (-> & ?). by exists a. }
  destruct (decide (e ∈ es2)) as [H2|H2]; [rewrite decide_True; [done|right; by apply Hes2]|].
  destruct (decide (e ∈ es1)) as [H1|H1]; [rewrite decide_True; [done|left; by apply Hes1]|].
  rewrite decide_False; [done|]. tauto.
Qed.

Lemma disconnect_spec n g i (from : list nat) : wired n g -> i < n -> (forall j, j ∈ from -> j < n) ->
  exists g', disconnect i from g = Some g' /\ rewired g g' /\
    (forall j, conn g' j = if decide (j = i) then false else conn g j) /\
    forall a b, a < n -> b < n -> is_on g' a b =
      if decide ((a = i /\ b ∈ from) \/ (b = i /\ a ∈ from)) then false else is_on g a b.
Proof.
  intros W Hi Hto. unfold disconnect. destruct (set_connected_spec n g i false W Hi) as (sg & -> & Hs & Hn & Hg & Hc). simpl.
  destruct (lookup_lt_is_Some_2 (sg_srvs (gn_grp g)) i) as [s Hsi]; [by rewrite (wd_srvs _ _ W)|]. rewrite Hs, Hsi. simpl.
  unfold Server_disconnect.
  destruct (ends_from n g i from s W Hsi Hto) as (es1 & -> & He1).
  destruct (enable_ends_on false es1 (gn_net g)) as (rn1 & -> & Ho1 & On1). simpl.
  destruct (ends_to_spec n g i from W Hi Hto) as (es2 & He2' & He2).
  assert (ends_to i from sg = Some <$> es2) as -> by (rewrite <- He2'; unfold ends_to; by rewrite Hs).
  destruct (enable_ends_on false es2 rn1) as (rn2 & -> & Ho2 & On2). simpl.
  set (g' := mkGrpnet sg rn2). exists g'. split; [done|].
  assert (rewired g g') as R.
  { constructor; simpl; try done; [by rewrite Hc, length_insert|by eapply only_enabled_trans|]. intros e He. rewrite On2, On1.
    rewrite decide_False by (rewrite He2; intros (j & _ & Hl); by eapply He).
    by rewrite decide_False by (rewrite He1; intros (j & _ & Hl); by eapply He). }
  split; [done|]. split.
  { intros j. unfold conn. simpl. rewrite Hc. case_decide as Hj; [subst j; by rewrite list_lookup_insert_eq by by rewrite (wd_connected _ _ W)|].
    by rewrite list_lookup_insert_ne. }
  intros a b Ha Hb. unfold is_on. rewrite !(rewired_link g g') by done.
  destruct (wd_link _ _ W a b Ha Hb) as [e He]. rewrite He. simpl. rewrite On2, On1.
  assert (e ∈ es1 <-> a = i /\ b ∈ from) as Hes1.
  { rewrite He1. split; [intros (j & Hj & Hl); by destruct (wd_inj _ _ W _ _ _ _ _ He Hl) as [-> ->]|]. intros (-> & ?). by exists b. }
  assert (e ∈ es2 <-> b = i /\ a ∈ from) as Hes2.
  { rewrite He2. split; [intros (j & Hj & Hl); by destruct (wd_inj _ _ W _ _ _ _ _ He Hl) as [-> ->]|]. intros (-> & ?). by exists a. }
  destruct (decide (e ∈ es2)) as [H2|H2]; [rewrite decide_True; [done|right; by apply Hes2]|].
  destruct (decide (e ∈ es1)) as [H1|H1]; [rewrite decide_True; [done|left; by apply Hes1]|].
  rewrite decide_False; [done|]. tauto.
Qed.

(** ** Partitioning *)

Lemma for_each_cons {A} (f : nat -> A -> option A) i ids a : for_each f (i :: ids) a = a' ← f i a; for_each f ids a'.
Proof.
  unfold for_each. simpl. destruct (f i a); simpl; [done|]. induction ids; simpl; auto.
Qed.

(** One of the two loops. *)
Lemma partition_loop_spec n (p q : list nat) : (forall j, j ∈ p ++ q -> j < n) -> (forall j, j ∈ p -> j ∉ q) ->
  forall todo done g, wired n g -> p = done ++ todo ->
  (forall a, a ∈ done -> conn g a = true) ->
  (forall a b, a ∈ done -> b ∈ q -> is_on g a b = false /\ is_on g b a = false) ->
  (forall a b, a ∈ done -> b ∈ done -> is_on g a b = true) ->
  exists g', for_each (fun i g => g ← disconnect i q g; connect i p g) todo g = Some g' /\ rewired g g' /\
    (forall a, a ∈ p -> conn g' a = true) /\
    (forall a b, a ∈ p -> b ∈ q -> is_on g' a b = false /\ is_on g' b a = false) /\
    (forall a b, a ∈ p -> b ∈ p -> is_on g' a b = true) /\
    (forall a, a ∉ todo -> conn g' a = conn g a) /\
    (forall a b, a < n -> b < n -> a ∉ todo -> b ∉ todo -> is_on g' a b = is_on g a b).
Proof.
  intros Hn Hpq. induction todo as [|i todo IH]; intros done g W Hp Hc Hoff Hon.
  - exists g. rewrite app_nil_r in Hp. subst done. split_and!; try done. apply rewired_refl.
  - assert (i ∈ p) as Hip by (rewrite Hp; apply elem_of_app; right; left).
    assert (forall j, j ∈ p -> j < n) as Hpn by (intros j Hj; apply Hn; apply elem_of_app; by left).
    assert (forall j, j ∈ q -> j < n) as Hqn by (intros j Hj; apply Hn; apply elem_of_app; by right).
    assert (forall j, j ∈ done -> j ∈ p) as Hdp by (intros j Hj; rewrite Hp; apply elem_of_app; by left).
    destruct (disconnect_spec n g i q W (Hpn _ Hip) Hqn) as (g1 & Hd & R1 & C1 & O1).
    pose proof (rewired_wired _ _ _ R1 W) as W1.
    destruct (connect_spec n g1 i p W1 (Hpn _ Hip) Hpn) as (g2 & Hcn & R2 & C2 & O2).
    pose proof (rewired_wired _ _ _ R2 W1) as W2.
    assert (forall a, a ∈ done -> conn g2 a = true) as Hc2.
    { intros a Ha. rewrite C2, C1. case_decide; [done|]. by apply Hc. }
    assert (conn g2 i = true) as Hci by (rewrite C2; by rewrite decide_True).
    destruct (IH (done ++ [i]) g2 W2) as (g' & Hf & R' & C' & Off' & On' & Fc & Fo).
    + by rewrite <- app_assoc.
    + intros a [Ha| ->%list_elem_of_singleton]%elem_of_app; auto.
    + intros a b Ha Hb. assert (a ∈ p /\ b < n) as [Hap Hbn].
      { split; [|by apply Hqn]. apply elem_of_app in Ha as [Ha| ->%list_elem_of_singleton]; auto. }
      assert (b ∉ p) as Hbp by (intros Hbp; by apply (Hpq b Hbp)). assert (b <> i) as Hbi by (intros ->; done).
      assert (is_on g1 a b = false /\ is_on g1 b a = false) as [Hab Hba].
      { rewrite !O1 by auto. destruct (decide (a = i)) as [->|Hai].
        - rewrite (decide_True (P := (i = i /\ b ∈ q) \/ (b = i /\ i ∈ q))) by auto.
          by rewrite (decide_True (P := (b = i /\ i ∈ q) \/ (i = i /\ b ∈ q))) by auto.
        - apply elem_of_app in Ha as [Ha|Ha%list_elem_of_singleton]; [|done].
          destruct (Hoff a b Ha Hb) as [-> ->]. by split; case_decide. }
      rewrite !O2, Hab, Hba by auto. split; (rewrite decide_False; [done|]); tauto.
    + intros a b Ha Hb.
      assert (forall x, x ∈ done ++ [i] -> x ∈ p /\ conn g2 x = true) as Hdi.
      { intros x [Hx| ->%list_elem_of_singleton]%elem_of_app; auto. }
      destruct (Hdi a Ha) as [Hap Hac], (Hdi b Hb) as [Hbp Hbc]. rewrite O2 by auto.
      destruct (decide (a = i)) as [->|Hai]; [rewrite decide_True by auto; done|].
      destruct (decide (b = i)) as [->|Hbi]; [rewrite decide_True by auto; done|].
      rewrite decide_False by tauto. rewrite O1 by auto. rewrite decide_False by tauto.
      apply elem_of_app in Ha as [Ha|Ha%list_elem_of_singleton]; [|done].
      apply elem_of_app in Hb as [Hb|Hb%list_elem_of_singleton]; [|done]. by apply Hon.
    + exists g'. rewrite for_each_cons, Hd. simpl. rewrite Hcn. simpl. split_and!; [done| |done|done|done| |].
      * eapply rewired_trans; [|exact R']. by eapply rewired_trans.
      * intros a [Hai Ha]%not_elem_of_cons. rewrite Fc, C2, C1 by done. by rewrite !decide_False.
      * intros a b Han Hbn [Hai Ha]%not_elem_of_cons [Hbi Hb]%not_elem_of_cons. rewrite Fo, O2, O1 by done.
        by rewrite !decide_False by tauto.
Qed.

Lemma Partition_spec n g p1 p2 : wired n g -> Permutation (p1 ++ p2) (seq 0 n) ->
  exists g', Partition p1 p2 g = Some g' /\ rewired g g' /\ (forall a, a < n -> conn g' a = true) /\
    forall a b, a < n -> b < n -> is_on g' a b = bool_decide (a ∈ p1 <-> b ∈ p1).
Proof.
  intros W Hp. assert (NoDup (p1 ++ p2)) as Hnd by (rewrite Hp; apply NoDup_seq). apply NoDup_app in Hnd as (_ & Hd & _).
  assert (forall j, j ∈ p1 ++ p2 <-> j < n) as Hin by (intros j; rewrite Hp, elem_of_seq; lia).
  destruct (partition_loop_spec n p1 p2) with (todo := p1) (done := @nil nat) (g := g)
    as (g1 & E1 & R1 & C1 & Off1 & On1 & _ & _); try done; try (by intros ? ?%not_elem_of_nil); try (by intros ? ? ?%not_elem_of_nil).
  { intros j. apply Hin. }
  destruct (partition_loop_spec n p2 p1) with (todo := p2) (done := @nil nat) (g := g1)
    as (g2 & E2 & R2 & C2 & Off2 & On2 & F2 & G2); try done; try (by intros ? ?%not_elem_of_nil); try (by intros ? ? ?%not_elem_of_nil).
  { intros j Hj. apply Hin. rewrite elem_of_app in *. tauto. }
  { intros j Hj Hj1. by apply (Hd j). }
  { by eapply rewired_wired. }
  exists g2. unfold Partition. rewrite E1. simpl. split; [done|]. split; [by eapply rewired_trans|]. split.
  - intros a Ha. apply Hin, elem_of_app in Ha as [Ha|Ha]; [|by apply C2]. rewrite F2 by by apply Hd. by apply C1.
  - intros a b Ha Hb. pose proof Ha as Ha'. pose proof Hb as Hb'. apply Hin, elem_of_app in Ha. apply Hin, elem_of_app in Hb.
    assert (forall x, x ∈ p2 -> x ∉ p1) as Hd' by (intros x Hx Hx1; by apply (Hd x)).
    destruct Ha as [Ha|Ha], Hb as [Hb|Hb].
    + rewrite G2 by auto. rewrite bool_decide_true by done. by apply On1.
    + rewrite bool_decide_false by (pose proof (Hd' _ Hb); tauto). by apply (Off2 b a).
    + rewrite bool_decide_false by (pose proof (Hd' _ Ha); tauto). by apply (Off2 a b).
    + rewrite bool_decide_true by (pose proof (Hd' _ Ha); pose proof (Hd' _ Hb); tauto). by apply On2.
Qed.

(** ** Making groups, starting and stopping *)

Lemma make_ends_spec gid names : forall j rn rn', make_ends gid j names rn = Some rn' ->
  NoDup names /\ (forall e, e ∈ names -> e ∉ rn_ends rn) /\ (forall e, e ∈ rn_ends rn' <-> e ∈ names \/ e ∈ rn_ends rn) /\
  (forall k e, names !! k = Some e -> rn_connections rn' !! e = Some (Some (ServerName gid (j + k))) /\ on rn' e = false) /\
  (forall e, e ∉ names -> rn_connections rn' !! e = rn_connections rn !! e /\ on rn' e = on rn e) /\
  rn_servers rn' = rn_servers rn.
Proof.
  induction names as [|e names IH]; intros j rn rn' Hm.
  - injection Hm as <-. split_and!; try done; [by constructor|by intros ? ?%not_elem_of_nil|].
    intros e. rewrite elem_of_nil. tauto.
  - simpl in Hm. unfold MakeEnd in Hm. case_decide as He; [done|]. simpl in Hm.
    destruct (IH _ _ _ Hm) as (Hnd & Hnew & Hends & Hconn & Hold & Hsrv). simpl in *.
    assert (e ∉ names) as Hen by (intros Hin; apply (Hnew e Hin); set_solver).
    split_and!.
    + by constructor.
    + intros x [->|Hx]%elem_of_cons; [done|]. intros Hxe. apply (Hnew x Hx). set_solver.
    + intros x. rewrite Hends, elem_of_cons. set_solver.
    + intros [|k] x Hk; simpl in Hk.
      * injection Hk as <-. destruct (Hold e Hen) as [-> ->]. rewrite lookup_insert_eq, Nat.add_0_r. split; [done|].
        unfold on. simpl. by rewrite lookup_insert_eq.
      * rewrite <- Nat.add_succ_comm. by apply Hconn.
    + intros x [Hxe Hx]%not_elem_of_cons. destruct (Hold x Hx) as [-> ->]. rewrite !lookup_insert_ne by done. split; [done|].
      unfold on. simpl. by rewrite lookup_insert_ne.
    + done.
Qed.

Lemma make_servers_spec gid names : forall rn ss rn', make_servers gid names rn = Some (ss, rn') ->
  ts_endNames <$> ss = names /\ NoDup (mjoin names) /\ (forall e, e ∈ mjoin names -> e ∉ rn_ends rn) /\
  (forall e, e ∈ rn_ends rn' <-> e ∈ mjoin names \/ e ∈ rn_ends rn) /\
  (forall i es j e, names !! i = Some es -> es !! j = Some e -> rn_connections rn' !! e = Some (Some (ServerName gid j))) /\
  (forall e, e ∉ mjoin names -> rn_connections rn' !! e = rn_connections rn !! e).
Proof.
  induction names as [|es names IH]; intros rn ss rn' Hm.
  - injection Hm as <- <-. split_and!; try done; [by constructor|by intros ? ?%not_elem_of_nil|].
    intros e. csimpl. rewrite elem_of_nil. tauto.
  - simpl in Hm. apply bind_Some in Hm as ([s rn1] & H1 & Hm). apply bind_Some in Hm as ([ss' rn2] & H2 & Hm). injection Hm as <- <-.
    unfold makeServer in H1. apply bind_Some in H1 as (rn1' & H1 & [= <- <-]).
    destruct (make_ends_spec _ _ _ _ _ H1) as (A1 & A2 & A3 & A4 & A5 & _). destruct (IH _ _ _ H2) as (B1 & B2 & B3 & B4 & B5 & B6).
    change (mjoin (es :: names)) with (es ++ mjoin names).
    assert (forall e, e ∈ es -> e ∉ mjoin names) as Hd by (intros e He Hx; apply (B3 e Hx), A3; by left).
    split_and!.
    + csimpl. by rewrite B1.
    + apply NoDup_app. done.
    + intros e [He|He]%elem_of_app; [by apply A2|]. intros Hx. apply (B3 e He), A3. by right.
    + intros e. rewrite B4, A3, elem_of_app. tauto.
    + intros [|i] es' j e Hi Hj; simpl in Hi; [|by eapply B5]. injection Hi as <-.
      rewrite B6 by (apply Hd; by eapply list_elem_of_lookup_2). by destruct (A4 _ _ Hj) as [-> _].
    + intros e [He1 He2]%not_elem_of_app. rewrite B6 by done. by destruct (A5 e He1) as [-> _].
Qed.

Lemma mjoin_inj {A} (l : list (list A)) : NoDup (mjoin l) -> forall i j i' j' a a' e,
  l !! i = Some a -> a !! j = Some e -> l !! i' = Some a' -> a' !! j' = Some e -> i = i' /\ j = j'.
Proof.
  induction l as [|b l IH]; intros Hnd i j i' j' a a' e Hi Hj Hi' Hj'; [done|].
  change (mjoin (b :: l)) with (b ++ mjoin l) in Hnd. apply NoDup_app in Hnd as (Hb & Hd & Hl).
  assert (forall k c x y, l !! k = Some c -> c !! x = Some y -> y ∈ mjoin l) as Hin.
  { intros k c x y Hk Hx. apply list_elem_of_join. exists c. split; by eapply list_elem_of_lookup_2. }
  destruct i as [|i], i' as [|i']; simpl in *.
  - simplify_eq. split; [done|]. by eapply (NoDup_lookup _ _ _ e Hb).
  - simplify_eq. exfalso. eapply Hd; [by eapply list_elem_of_lookup_2|by eapply Hin].
  - simplify_eq. exfalso. eapply Hd; [by eapply list_elem_of_lookup_2|by eapply Hin].
  - destruct (IH Hl i j i' j' a a' e) as [-> ->]; done.
Qed.

Lemma makeSrvGrp_wired gid names rn sg rn' :
  (forall es, es ∈ names -> length es = length names) -> makeSrvGrp gid names rn = Some (sg, rn') ->
  wired (length names) (mkGrpnet sg rn') /\ sg_gid sg = gid.
Proof.
  intros Hlen Hm. unfold makeSrvGrp in Hm. apply bind_Some in Hm as ([ss rn1] & Hm & [= <- <-]).
  destruct (make_servers_spec _ _ _ _ _ Hm) as (B1 & B2 & _ & B4 & B5 & _).
  assert (forall i j e, link (mkGrpnet (mkServerGrp ss (ServerName gid <$> seq 0 (length names)) gid (replicate (length names) false)) rn1) i j = Some e <->
    exists es, names !! i = Some es /\ es !! j = Some e) as Hl.
  { intros i j e. unfold link. simpl. rewrite <- B1, bind_Some. setoid_rewrite list_lookup_fmap_Some. naive_solver. }
  split; [|done]. constructor; simpl.
  - by rewrite <- B1, length_fmap.
  - by rewrite length_replicate.
  - intros i j Hi Hj. destruct (lookup_lt_is_Some_2 names i Hi) as [es Hes].
    destruct (lookup_lt_is_Some_2 es j) as [e He]; [rewrite Hlen; [done|by eapply list_elem_of_lookup_2]|].
    exists e. apply Hl. eauto.
  - intros i j i' j' e (es & H1 & H2)%Hl (es' & H3 & H4)%Hl. by eapply mjoin_inj.
  - intros i j e (es & H1 & H2)%Hl. apply B4. left. apply list_elem_of_join. exists es. split; by eapply list_elem_of_lookup_2.
  - intros i j e (es & H1 & H2)%Hl. by eapply B5.
  - intros i s Hs. apply Hlen. rewrite <- B1. apply list_elem_of_fmap_2. by eapply list_elem_of_lookup_2.
Qed.

(** Out of range means [None]. *)
Lemma connected_of_range cs to l : connected_of cs to = Some l -> forall j, j ∈ to -> j < length cs.
Proof.
  revert l. induction to as [|i to IH]; intros l Hc j Hj; [by apply not_elem_of_nil in Hj|].
  change (connected_of cs (i :: to)) with (acc ← connected_of cs to; c ← cs !! i; Some (if c : bool then i :: acc else acc)) in Hc.
  apply bind_Some in Hc as (acc & Hacc & (c & Hi & _)%bind_Some). apply elem_of_cons in Hj as [->|Hj]; [by eapply lookup_lt_Some|].
  by eapply IH.
Qed.

Lemma enable_ends_some b es rn rn' : enable_ends b es rn = Some rn' -> forall o, o ∈ es -> is_Some o.
Proof.
  unfold enable_ends. revert rn. induction es as [|o es IH]; intros rn Hf x Hx; [by apply not_elem_of_nil in Hx|]. simpl in Hf.
  destruct o as [e|]; simpl in Hf.
  - apply elem_of_cons in Hx as [->|Hx]; [by eexists|by eapply IH].
  - exfalso. clear -Hf. induction es; simpl in Hf; [discriminate|auto].
Qed.

Lemma connect_rewired n g i to g' : wired n g -> connect i to g = Some g' -> rewired g g' /\ i < n.
Proof.
  intros W Hc. unfold connect in Hc. apply bind_Some in Hc as (sg & Hsc & Hc).
  assert (i < n) as Hi by (unfold set_connected in Hsc; case_decide; [|done]; by rewrite <- (wd_connected _ _ W)).
  destruct (set_connected_spec n g i true W Hi) as (sg' & Hs' & _ & _ & _ & Hcon). rewrite Hs' in Hsc. injection Hsc as ->.
  pose proof Hc as Hc2. apply bind_Some in Hc as (s & _ & Hc). apply bind_Some in Hc as (rn & Hsrv & _).
  unfold Server_connect in Hsrv. apply bind_Some in Hsrv as (to' & Hto & _).
  assert (forall j, j ∈ to -> j < n) as Hr.
  { intros j Hj. rewrite <- (wd_connected _ _ W). pose proof (connected_of_range _ _ _ Hto j Hj) as Hlt. by rewrite Hcon, length_insert in Hlt. }
  destruct (connect_spec n g i to W Hi Hr) as (g2 & Hg2 & R & _). unfold connect in Hg2. rewrite Hs' in Hg2. simpl in Hg2.
  rewrite Hc2 in Hg2. injection Hg2 as ->. done.
Qed.

Lemma disconnect_rewired n g i from g' : wired n g -> disconnect i from g = Some g' -> rewired g g' /\ i < n.
Proof.
  intros W Hc. unfold disconnect in Hc. apply bind_Some in Hc as (sg & Hsc & Hc).
  assert (i < n) as Hi by (unfold set_connected in Hsc; case_decide; [|done]; by rewrite <- (wd_connected _ _ W)).
  destruct (set_connected_spec n g i false W Hi) as (sg' & Hs' & Hss & _ & _ & Hcon). rewrite Hs' in Hsc. injection Hsc as ->.
  pose proof Hc as Hc2. apply bind_Some in Hc as (s & Hsi & Hc). apply bind_Some in Hc as (rn & Hsrv & _).
  assert (forall j, j ∈ from -> j < n) as Hr.
  { intros j Hj. unfold Server_disconnect in Hsrv. destruct (enable_ends_some _ _ _ _ Hsrv (ts_endNames s !! j)) as [e He].
    - by apply (list_elem_of_fmap_2 (fun j => ts_endNames s !! j)).
    - apply lookup_lt_Some in He. rewrite Hss in Hsi. by rewrite (wd_len _ _ W _ _ Hsi) in He. }
  destruct (disconnect_spec n g i from W Hi Hr) as (g2 & Hg2 & R & _). unfold disconnect in Hg2. rewrite Hs' in Hg2. simpl in Hg2.
  rewrite Hc2 in Hg2. injection Hg2 as ->. done.
Qed.

Lemma for_each_rewired n (f : nat -> grpnet -> option grpnet) ids :
  (forall i g g', wired n g -> f i g = Some g' -> rewired g g') ->
  forall g g', wired n g -> for_each f ids g = Some g' -> rewired g g'.
Proof.
  intros Hf. induction ids as [|i ids IH]; intros g g' W He; [injection He as <-; apply rewired_refl|].
  rewrite for_each_cons in He. apply bind_Some in He as (g1 & H1 & He). pose proof (Hf _ _ _ W H1) as R1.
  eapply rewired_trans; [exact R1|]. apply IH; [by eapply rewired_wired|done].
Qed.

Lemma Partition_rewired n p1 p2 g g' : wired n g -> Partition p1 p2 g = Some g' -> rewired g g'.
Proof.
  assert (forall q p i g g', wired n g -> (g ← disconnect i q g; connect i p g) = Some g' -> rewired g g') as Hone.
  { intros q p i g0 g0' W (g1 & H1 & H2)%bind_Some. destruct (disconnect_rewired _ _ _ _ _ W H1) as [R1 _].
    eapply rewired_trans; [exact R1|]. eapply (connect_rewired n); [by eapply rewired_wired|done]. }
  intros W (g1 & H1 & H2)%bind_Some. assert (rewired g g1) as R1.
  { eapply (for_each_rewired n); [|exact W|exact H1]. intros i0 g0 g0' W0 H0. eapply Hone; [exact W0|exact H0]. }
  eapply rewired_trans; [exact R1|]. eapply (for_each_rewired n); [|by eapply rewired_wired|exact H2]. intros i0 g0 g0' W0 H0. eapply Hone; [exact W0|exact H0].
Qed.

(** Started again, a server has new ends. *)
Lemma StartServer_spec n names rs i g g' : wired n g -> StartServer names rs i g = Some g' ->
  exists s p rn, sg_srvs (gn_grp g) !! i = Some s /\ p = default MakePersister (ts_saved s) /\
    make_ends (sg_gid (gn_grp g)) 0 names (gn_net g) = Some rn /\ length names = n /\
    g' = mkGrpnet (set_srv i (mkTserver (Some p) names (Some (DaemonClnt_init p))) (gn_grp g))
           (AddServer (ServerName (sg_gid (gn_grp g)) i) rs rn).
Proof.
  intros W (s & Hs & Hst)%bind_Some. case_decide as Hlen; [done|].
  apply bind_Some in Hst as ([srv rn] & Hst & Hg). apply bind_Some in Hst as ([srv' rn'] & Hmk & [= <- <-]).
  apply bind_Some in Hmk as (rn2 & Hmk & [= <- <-]). apply bind_Some in Hg as (p & [= <-] & [= <-]).
  exists s. eexists _, rn2. split_and!; try done. pose proof (wd_len _ _ W _ _ Hs). lia.
Qed.

Lemma grp_ends_link n g e : wired n g -> e ∈ grp_ends (gn_grp g) <-> exists i j, link g i j = Some e.
Proof.
  intros W. unfold grp_ends. rewrite list_elem_of_join. split.
  - intros (es & He & Hes). apply list_elem_of_fmap in Hes as (s & -> & [i Hi]%list_elem_of_lookup).
    apply list_elem_of_lookup in He as [j Hj]. exists i, j. unfold link. by rewrite Hi.
  - intros (i & j & Hl). unfold link in Hl. apply bind_Some in Hl as (s & Hs & Hj). exists (ts_endNames s).
    split; [by eapply list_elem_of_lookup_2|]. apply list_elem_of_fmap_2. by eapply list_elem_of_lookup_2.
Qed.

Lemma link_set_srv n g i s rn a b : wired n g -> i < n ->
  link (mkGrpnet (set_srv i s (gn_grp g)) rn) a b = if decide (a = i) then ts_endNames s !! b else link g a b.
Proof.
  intros W Hi. unfold link, set_srv. simpl. case_decide as Ha.
  - subst a. by rewrite list_lookup_insert_eq by by rewrite (wd_srvs _ _ W).
  - by rewrite list_lookup_insert_ne.
Qed.

(** A server changes, not its ends. *)
Lemma wired_set_srv n g i s0 s : wired n g -> sg_srvs (gn_grp g) !! i = Some s0 -> ts_endNames s = ts_endNames s0 ->
  wired n (mkGrpnet (set_srv i s (gn_grp g)) (gn_net g)) /\
  forall a b, link (mkGrpnet (set_srv i s (gn_grp g)) (gn_net g)) a b = link g a b.
Proof.
  intros W Hs He. assert (i < n) as Hi by (rewrite <- (wd_srvs _ _ W); by eapply lookup_lt_Some).
  assert (forall a b, link (mkGrpnet (set_srv i s (gn_grp g)) (gn_net g)) a b = link g a b) as Hl.
  { intros a b. rewrite (link_set_srv n) by done. case_decide as Ha; [|done]. subst a. unfold link. by rewrite Hs, He. }
  split; [|done]. destruct W as [W1 W2 W3 W4 W5 W6 W7]. constructor; try (setoid_rewrite Hl; done).
  - simpl. by rewrite length_insert.
  - done.
  - intros a x Ha. simpl in Ha. apply list_lookup_insert_Some in Ha as [(-> & <- & _)|[_ Ha]]; [rewrite He; by eapply W7|by eapply W7].
Qed.

(** The network changes, not the group's ends. *)
Lemma wired_net n g rn : wired n g ->
  (forall e, e ∈ grp_ends (gn_grp g) -> e ∈ rn_ends (gn_net g) ->
    e ∈ rn_ends rn /\ rn_connections rn !! e = rn_connections (gn_net g) !! e) ->
  wired n (mkGrpnet (gn_grp g) rn).
Proof.
  intros W H. pose proof (fun e => grp_ends_link n g e W) as He. destruct W as [W1 W2 W3 W4 W5 W6 W7]. constructor; try done.
  - intros i j e Hl. apply H; [apply He; eauto|by eapply W5].
  - intros i j e Hl. destruct (H e) as [_ Hc]; [apply He; eauto|by eapply W5|]. simpl. rewrite Hc. by eapply W6.
Qed.

Lemma wired_StartServer n names rs i g g' : wired n g -> StartServer names rs i g = Some g' -> wired n g'.
Proof.
  intros W Hst. destruct (StartServer_spec _ _ _ _ _ _ W Hst) as (s & p & rn & Hs & _ & Hmk & Hlen & ->).
  assert (i < n) as Hi by (rewrite <- (wd_srvs _ _ W); by eapply lookup_lt_Some).
  destruct (make_ends_spec _ _ _ _ _ Hmk) as (Hnd & Hnew & Hends & Hconn & Hold & _).
  match goal with |- wired _ (mkGrpnet (set_srv i ?x _) ?y) => set (s' := x); set (rn' := y) end.
  pose proof (fun a b => link_set_srv n g i s' rn' a b W Hi) as Hl. pose proof W as [W1 W2 W3 W4 W5 W6 W7]. constructor.
  - simpl. by rewrite length_insert.
  - done.
  - intros a b Ha Hb. rewrite Hl. case_decide; [|by apply W3]. simpl. apply lookup_lt_is_Some_2. lia.
  - intros a b a' b' e. rewrite !Hl. assert (forall a b c, link g a b = Some e -> names !! c = Some e -> False) as Hno.
    { intros x y c Hx Hc. apply (Hnew e); [by eapply list_elem_of_lookup_2|by eapply W5]. }
    repeat case_decide; simpl; intros H1 H2; subst; [|by exfalso; eapply Hno|by exfalso; eapply Hno|by eapply W4].
    split; [done|]. by eapply (NoDup_lookup names).
  - intros a b e. rewrite Hl. simpl. rewrite Hends. case_decide; simpl; intros He; [left; by eapply list_elem_of_lookup_2|right; by eapply W5].
  - intros a b e. rewrite Hl. simpl. case_decide; simpl; intros He; [by destruct (Hconn _ _ He)|].
    assert (e ∉ names) as Hne by (intros Hin; apply (Hnew _ Hin); by eapply W5). destruct (Hold _ Hne) as [-> _]. by eapply W6.
  - intros a x Ha. simpl in Ha. apply list_lookup_insert_Some in Ha as [(-> & <- & _)|[_ Ha]]; [done|by eapply W7].
Qed.

Lemma ShutdownServer_spec n i g g' : wired n g -> ShutdownServer i g = Some g' ->
  exists g1 s, disconnect i (all (gn_grp g)) g = Some g1 /\ rewired g g1 /\ sg_srvs (gn_grp g) !! i = Some s /\
    g' = mkGrpnet (set_srv i (shutdownServer s) (gn_grp g1)) (DeleteServer (ServerName (sg_gid (gn_grp g1)) i) (gn_net g1)).
Proof.
  intros W (g1 & Hd & Hg)%bind_Some. apply bind_Some in Hg as (s & Hs & [= <-]).
  destruct (disconnect_rewired _ _ _ _ _ W Hd) as [R _]. exists g1, s. split_and!; try done. by rewrite <- (rw_srvs _ _ R).
Qed.

Lemma shutdownServer_ends s : ts_endNames (shutdownServer s) = ts_endNames s.
Proof. unfold shutdownServer. by destruct (ts_dc s). Qed.

Lemma grp_exec_wired n ev g g' : wired n g -> grp_exec ev g = Some g' -> wired n g'.
Proof.
  intros W. destruct ev as [i|i|p1 p2|names rs i|i|i r s|yes|yes|e|e sn|e b|e]; simpl; intros He.
  - eapply rewired_wired; [|exact W]. by eapply connect_rewired.
  - eapply rewired_wired; [|exact W]. by eapply disconnect_rewired.
  - eapply rewired_wired; [|exact W]. by eapply Partition_rewired.
  - by eapply wired_StartServer.
  - destruct (ShutdownServer_spec _ _ _ _ W He) as (g1 & s & _ & R & Hs & ->). pose proof (rewired_wired _ _ _ R W) as W1.
    rewrite <- (rw_srvs _ _ R) in Hs. destruct (wired_set_srv n g1 i s (shutdownServer s) W1 Hs (shutdownServer_ends s)) as [W2 _].
    apply (wired_net n _ (DeleteServer (ServerName (sg_gid (gn_grp g1)) i) (gn_net g1)) W2). done.
  - apply bind_Some in He as (x & Hx & (p & _ & [= <-])%bind_Some). by eapply wired_set_srv.
  - injection He as <-. by apply wired_net.
  - injection He as <-. by apply wired_net.
  - apply bind_Some in He as (rn & Hrn & [= <-]). unfold MakeEnd in Hrn. case_decide as Hin; [done|]. injection Hrn as <-.
    apply wired_net; [done|]. intros x _ Hx. simpl. split; [set_solver|]. rewrite lookup_insert_ne; [done|]. by intros ->.
  - case_decide as Hin; [done|]. injection He as <-. apply wired_net; [done|]. intros x Hx Hxe. simpl. split; [done|].
    rewrite lookup_insert_ne; [done|]. by intros ->.
  - case_decide as Hin; [done|]. injection He as <-. by apply wired_net.
  - case_decide as Hin; [done|]. apply bind_Some in He as (rn & Hrn & [= <-]). unfold DeleteEnd in Hrn. case_decide as Hx; [|done]. injection Hrn as <-.
    apply wired_net; [done|]. intros x Hxg Hxe. simpl. assert (x <> e) by (by intros ->). split; [set_solver|]. by rewrite lookup_delete_ne.
Qed.

Lemma grp_exec_all_wired n evs : forall g g', wired n g -> grp_exec_all evs g = Some g' -> wired n g'.
Proof.
  induction evs as [|ev evs IH]; intros g g' W He; simpl in He; [by injection He as <-|].
  apply bind_Some in He as (g1 & H1 & He). eapply IH; [|exact He]. by eapply grp_exec_wired.
Qed.

(** ** What a request finds *)

(** The answer to a request from server [a] to [b]. *)
Definition reach (g : grpnet) (a b : nat) : option pc := e ← link g a b; Some (process_look e (gn_net g)).

(** What it finds when the end is enabled. *)
Definition found (g : grpnet) (b : nat) : pc :=
  match default None (rn_servers (gn_net g) !! ServerName (sg_gid (gn_grp g)) b) with
  | Some rs => Looked (mkTarget (ServerName (sg_gid (gn_grp g)) b) rs (rn_reliable (gn_net g)) (rn_longReordering (gn_net g)))
  | None => Replying false no_reply
  end.

Lemma reach_spec n g a b : wired n g -> a < n -> b < n ->
  reach g a b = Some (if is_on g a b then found g b else Replying false no_reply).
Proof.
  intros W Ha Hb. unfold reach, is_on, found. destruct (wd_link _ _ W a b Ha Hb) as [e He]. rewrite He. simpl. f_equal.
  unfold process_look, readEndnameInfo. rewrite (wd_conn _ _ W _ _ _ He). simpl. unfold on. by destruct (default false _).
Qed.

(** Events that enable no end of the group. *)
Definition apart (ev : grp_event) : bool :=
  match ev with GConnectOne _ | GPartition _ _ => false | _ => true end.

Lemma is_on_set_srv n g i s s0 a b : wired n g -> sg_srvs (gn_grp g) !! i = Some s0 -> ts_endNames s = ts_endNames s0 ->
  forall rn, rn_enabled rn = rn_enabled (gn_net g) -> is_on (mkGrpnet (set_srv i s (gn_grp g)) rn) a b = is_on g a b.
Proof.
  intros W Hs He rn Hrn. unfold is_on. destruct (wired_set_srv n g i s0 s W Hs He) as [_ Hl]. unfold link in *. simpl in *. rewrite Hl.
  unfold on. by rewrite Hrn.
Qed.

Lemma apart_off n ev g g' a b : wired n g -> apart ev = true -> grp_exec ev g = Some g' -> a < n -> b < n ->
  is_on g a b = false -> is_on g' a b = false.
Proof.
  intros W Hap He Ha Hb Hoff. destruct ev as [i|i|p1 p2|names rs i|i|i r s|yes|yes|e|e sn|e x|e]; try done; simpl in He.
  - destruct (disconnect_rewired _ _ _ _ _ W He) as [_ Hi].
    destruct (disconnect_spec n g i (all (gn_grp g)) W Hi) as (g2 & Hg2 & _ & _ & Hon).
    { intros j. unfold all. rewrite (wd_srvs _ _ W), elem_of_seq. lia. }
    unfold DisconnectAll in He. rewrite He in Hg2. injection Hg2 as <-. rewrite Hon by done. by case_decide.
  - destruct (StartServer_spec _ _ _ _ _ _ W He) as (s & p & rn & Hs & _ & Hmk & Hlen & ->).
    assert (i < n) as Hi by (rewrite <- (wd_srvs _ _ W); by eapply lookup_lt_Some).
    destruct (make_ends_spec _ _ _ _ _ Hmk) as (Hnd & Hnew & Hends & Hconn & Hold & _).
    unfold is_on. rewrite (link_set_srv n) by done. simpl. case_decide as Hai; simpl.
    + destruct (lookup_lt_is_Some_2 names b) as [e He']; [lia|]. rewrite He'. by destruct (Hconn _ _ He').
    + destruct (wd_link _ _ W a b Ha Hb) as [e Hl]. unfold is_on in Hoff. rewrite Hl in Hoff |- *.
      assert (e ∉ names) as Hne by (intros Hin; apply (Hnew _ Hin); by eapply wd_ends). destruct (Hold e Hne) as [_ Ho]. unfold on in *. simpl.
      by rewrite Ho.
  - destruct (ShutdownServer_spec _ _ _ _ W He) as (g1 & s & Hd & R & Hs & ->). pose proof (rewired_wired _ _ _ R W) as W1.
    rewrite <- (rw_srvs _ _ R) in Hs. rewrite (is_on_set_srv n g1 i _ s) by (done || apply shutdownServer_ends).
    destruct (disconnect_rewired _ _ _ _ _ W Hd) as [_ Hi]. destruct (disconnect_spec n g i (all (gn_grp g)) W Hi) as (g2 & Hg2 & _ & _ & Hon).
    { intros j. unfold all. rewrite (wd_srvs _ _ W), elem_of_seq. lia. }
    rewrite Hd in Hg2. injection Hg2 as <-. rewrite Hon by done. by case_decide.
  - apply bind_Some in He as (x & Hx & (p & _ & [= <-])%bind_Some). by rewrite (is_on_set_srv n g i _ x).
  - by injection He as <-.
  - by injection He as <-.
  - apply bind_Some in He as (rn & Hrn & [= <-]). unfold MakeEnd in Hrn. case_decide as Hin; [done|]. injection Hrn as <-.
    revert Hoff. unfold is_on, link, on. simpl. destruct (s ← sg_srvs (gn_grp g) !! a; ts_endNames s !! b) as [x|]; [|done].
    intros Hx. destruct (decide (e = x)) as [<-|Hne]; [by rewrite lookup_insert_eq|by rewrite lookup_insert_ne].
  - case_decide as Hin; [done|]. by injection He as <-.
  - case_decide as Hin; [done|]. injection He as <-. destruct (wd_link _ _ W a b Ha Hb) as [y Hl].
    revert Hoff. unfold is_on, on. change (link (mkGrpnet (gn_grp g) _) a b) with (link g a b). rewrite Hl. simpl.
    rewrite lookup_insert_ne; [done|]. intros ->. apply Hin. apply (grp_ends_link n); eauto.
  - case_decide as Hin; [done|]. apply bind_Some in He as (rn & Hrn & [= <-]). unfold DeleteEnd in Hrn. case_decide as Hx; [|done]. injection Hrn as <-.
    revert Hoff. unfold is_on, link, on. simpl. destruct (s ← sg_srvs (gn_grp g) !! a; ts_endNames s !! b) as [x|]; [|done].
    intros Hy. destruct (decide (e = x)) as [<-|Hne]; [by rewrite lookup_delete_eq|by rewrite lookup_delete_ne].
Qed.

Lemma apart_all n evs : forall g g' a b, wired n g -> forallb apart evs = true -> grp_exec_all evs g = Some g' -> a < n -> b < n ->
  is_on g a b = false -> is_on g' a b = false.
Proof.
  induction evs as [|ev evs IH]; intros g g' a b W Hap He Ha Hb Hoff; simpl in He; [by injection He as <-|].
  apply bind_Some in He as (g1 & H1 & He). simpl in Hap. apply andb_true_iff in Hap as [Hap1 Hap].
  apply (IH g1 g'); try done; [by eapply grp_exec_wired|by eapply apart_off].
Qed.

(** ** The partition made for a leader *)

Lemma partition_loop_fill l ids : forall j p1 p2, j + length (filter (fun i => i <> l) ids) <= length p1 + length p2 ->
  exists p1' p2', partition_loop ids l j p1 p2 = Some (p1', p2') /\ length p1' = length p1 /\ length p2' = length p2 /\
    p1' ++ p2' = take j (p1 ++ p2) ++ filter (fun i => i <> l) ids ++ drop (j + length (filter (fun i => i <> l) ids)) (p1 ++ p2).
Proof.
  induction ids as [|i ids IH]; intros j p1 p2 Hle.
  - exists p1, p2. split_and!; try done. rewrite filter_nil. simpl. by rewrite Nat.add_0_r, take_drop.
  - simpl partition_loop. rewrite filter_cons in Hle |- *. case_decide as Hil; [|by apply IH]. simpl in Hle.
    assert (forall q1 q2, length q1 = length p1 -> length q2 = length p2 -> q1 ++ q2 = <[j := i]> (p1 ++ p2) ->
      exists p1' p2', partition_loop ids l (S j) q1 q2 = Some (p1', p2') /\ length p1' = length p1 /\ length p2' = length p2 /\
        p1' ++ p2' = take j (p1 ++ p2) ++ (i :: filter (fun i => i <> l) ids) ++ drop (j + length (i :: filter (fun i => i <> l) ids)) (p1 ++ p2)) as Hset.
    { intros q1 q2 H1 H2 Hq. destruct (IH (S j) q1 q2) as (p1' & p2' & -> & L1 & L2 & Hp); [lia|].
      exists p1', p2'. split_and!; [done|congruence|congruence|]. rewrite Hp, Hq.
      assert (j < length (p1 ++ p2)) as Hj by (rewrite length_app; lia).
      rewrite (take_S_r _ j i) by by rewrite list_lookup_insert_eq.
      rewrite take_insert_ge by done. rewrite drop_insert_lt by lia. simpl. rewrite <- app_assoc. simpl.
      by rewrite <- Nat.add_succ_comm. }
    destruct (decide (j < length p1)) as [Hj|Hj].
    + apply Hset; [by rewrite length_insert|done|]. by rewrite insert_app_l.
    + destruct (decide (j - length p1 < length p2)) as [Hj2|Hj2]; [|lia].
      apply Hset; [done|by rewrite length_insert|]. rewrite insert_app_r_alt by lia. done.
Qed.

Lemma without_one l n : l < n -> Permutation (l :: filter (fun i => i <> l) (seq 0 n)) (seq 0 n).
Proof.
  intros Hl. apply NoDup_Permutation; [constructor| |].
  - rewrite list_elem_of_filter. naive_solver.
  - apply NoDup_filter, NoDup_seq.
  - apply NoDup_seq.
  - intros x. rewrite elem_of_cons, list_elem_of_filter, elem_of_seq. destruct (decide (x = l)); [|naive_solver lia]. naive_solver lia.
Qed.

Lemma MakePartition_spec sg l m : length (sg_srvs sg) = 2 * m + 1 -> l < 2 * m + 1 -> 0 < m ->
  exists p1 p2, MakePartition l sg = Some (p1, p2) /\ length p1 = m + 1 /\ length p2 = m /\ l ∈ p2 /\ Permutation (p1 ++ p2) (seq 0 (2 * m + 1)).
Proof.
  intros Hn Hl Hm. unfold MakePartition. rewrite Hn.
  assert ((2 * m + 1) / 2 = m) as -> by (rewrite Nat.mul_comm, Nat.div_add_l by done; simpl; lia).
  pose proof (without_one l (2 * m + 1) Hl) as Hp. pose proof (Permutation_length Hp) as Hlen.
  rewrite length_seq, length_cons in Hlen.
  destruct (partition_loop_fill l (seq 0 (2 * m + 1)) 0 (replicate (m + 1) 0) (replicate m 0)) as (p1 & p2 & -> & L1 & L2 & He).
  { rewrite !length_replicate. lia. }
  rewrite length_replicate in L1, L2. rewrite take_0, app_nil_l, Nat.add_0_l, <- replicate_add in He.
  assert (drop (length (filter (fun i => i <> l) (seq 0 (2 * m + 1)))) (replicate (m + 1 + m) 0) = [0]) as Hd.
  { rewrite drop_replicate. by replace (m + 1 + m - length (filter (fun i => i <> l) (seq 0 (2 * m + 1)))) with 1 by lia. }
  rewrite Hd in He. simpl. rewrite decide_False by (intros ->; simpl in L2; lia). rewrite L2.
  assert (p1 ++ <[m - 1:=l]> p2 = filter (fun i => i <> l) (seq 0 (2 * m + 1)) ++ [l]) as He2.
  { replace (m - 1) with (length p1 + (m - 1) - length p1) by lia. rewrite <- insert_app_r_alt by lia. rewrite He.
    rewrite insert_app_r_alt by lia. by replace (_ - _) with 0 by lia. }
  exists p1, (<[m - 1:=l]> p2). split_and!; try done; [by rewrite length_insert| |].
  - apply list_elem_of_lookup. exists (m - 1). rewrite list_lookup_insert_eq; [done|lia].
  - rewrite He2, Permutation_app_comm. exact Hp.
Qed.

(** Both are reached from a group just made. *)
Definition grp_reachable (gid : Z) (names : list (list string)) (rn : net) (evs : list grp_event) (g : grpnet) : Prop :=
  (forall es, es ∈ names -> length es = length names) /\
  (('(sg, rn') ← makeSrvGrp gid names rn; grp_exec_all evs (mkGrpnet sg rn')) = Some g).

Lemma reachable_wired gid names rn evs g : grp_reachable gid names rn evs g -> wired (length names) g.
Proof.
  intros [Hlen Hm]. apply bind_Some in Hm as ([sg rn'] & Hm & He).
  destruct (makeSrvGrp_wired _ _ _ _ _ Hlen Hm) as [W _]. by eapply grp_exec_all_wired.
Qed.

(** C39. Partitions separate: at any time in the life of a group of [n] servers, splitting
    them into two parts succeeds, connects every server, and a request between two servers
    finds what the network has for the other server if they are in the same part and nothing
    if they are not; and so it finds nothing however the processes persist, stop and restart
    and clients come and go, until the tester connects or partitions servers again. *)
Theorem partition_separates gid names rn evs g p1 p2 :
  grp_reachable gid names rn evs g -> Permutation (p1 ++ p2) (seq 0 (length names)) ->
  exists g', Partition p1 p2 g = Some g' /\
    (forall a, a < length names -> IsConnected a (gn_grp g') = Some true) /\
    (forall a b, a < length names -> b < length names ->
      reach g' a b = Some (if bool_decide (a ∈ p1 <-> b ∈ p1) then found g b else Replying false no_reply)) /\
    forall evs' g'', forallb apart evs' = true -> grp_exec_all evs' g' = Some g'' ->
      forall a b, a < length names -> b < length names -> ~ (a ∈ p1 <-> b ∈ p1) -> reach g'' a b = Some (Replying false no_reply).
Proof.
  intros Hr Hp. pose proof (reachable_wired _ _ _ _ _ Hr) as W.
  destruct (Partition_spec _ _ _ _ W Hp) as (g' & Hg' & R & Hc & Hon). pose proof (rewired_wired _ _ _ R W) as W'. exists g'. split; [done|]. split_and!.
  - intros a Ha. unfold IsConnected. specialize (Hc a Ha). unfold conn in Hc. by destruct (sg_connected (gn_grp g') !! a) as [[]|].
  - intros a b Ha Hb. rewrite (reach_spec _ _ _ _ W' Ha Hb), Hon by done. unfold found. rewrite (rw_gid _ _ R).
    by rewrite (rw_net _ _ R).
  - intros evs' g'' Hap He a b Ha Hb Hab. pose proof (grp_exec_all_wired _ _ _ _ W' He) as W''.
    rewrite (reach_spec _ _ _ _ W'' Ha Hb). rewrite (apart_all _ _ _ _ a b W' Hap He Ha Hb); [done|].
    rewrite Hon by done. by apply bool_decide_eq_false.
Qed.

(** C40. The leader is put in the minority: for a group of [2m+1] servers, [m >= 1], at any
    time in its life, the partition made for the leader [l] has [m+1] servers on the other
    side; partitioned so, the leader can reach none of them and each of them reaches every
    other one that runs. *)
Theorem leader_in_minority gid names rn evs g l m :
  grp_reachable gid names rn evs g -> length names = 2 * m + 1 -> 0 < m -> l < 2 * m + 1 ->
  exists p1 p2 g', MakePartition l (gn_grp g) = Some (p1, p2) /\ Partition p1 p2 g = Some g' /\
    length p1 = m + 1 /\ NoDup p1 /\
    (forall b, b ∈ p1 -> reach g' l b = Some (Replying false no_reply) /\ reach g' b l = Some (Replying false no_reply)) /\
    (forall a b, a ∈ p1 -> b ∈ p1 -> reach g' a b = Some (found g b)).
Proof.
  intros Hr Hn Hm Hl. pose proof (reachable_wired _ _ _ _ _ Hr) as W. rewrite Hn in W.
  destruct (MakePartition_spec (gn_grp g) l m (wd_srvs _ _ W) Hl Hm) as (p1 & p2 & HM & L1 & _ & Hl2 & Hp).
  destruct (Partition_spec _ _ _ _ W Hp) as (g' & Hg' & R & _ & Hon). pose proof (rewired_wired _ _ _ R W) as W'.
  assert (NoDup (p1 ++ p2)) as Hnd by (rewrite Hp; apply NoDup_seq). apply NoDup_app in Hnd as (Hnd & Hd & _).
  assert (forall a, a ∈ p1 -> a < 2 * m + 1) as Hlt.
  { intros a Ha. assert (a ∈ seq 0 (2 * m + 1)) as Hin by (rewrite <- Hp; apply elem_of_app; by left). apply elem_of_seq in Hin. lia. }
  assert (l ∉ p1) as Hl1 by (intros H1; by apply (Hd l)).
  exists p1, p2, g'. split_and!; try done.
  - intros b Hb. pose proof (Hlt _ Hb). rewrite !(reach_spec _ _ _ _ W'), !Hon by done.
    rewrite !bool_decide_false by tauto. done.
  - intros a b Ha Hb. pose proof (Hlt _ Ha). pose proof (Hlt _ Hb). rewrite (reach_spec _ _ _ _ W'), Hon by done.
    rewrite bool_decide_true by tauto. unfold found. by rewrite (rw_gid _ _ R), (rw_net _ _ R).
Qed.

(** ** Restarting *)

Definition starts (i : nat) (ev : grp_event) : bool := match ev with GStart _ _ j => bool_decide (j = i) | _ => false end.

Lemma srv_stopped n ev g g' i s : wired n g -> grp_exec ev g = Some g' -> starts i ev = false ->
  sg_srvs (gn_grp g) !! i = Some s -> ts_dc s = None -> sg_srvs (gn_grp g') !! i = Some s.
Proof.
  intros W He Hst Hs Hdc. assert (forall g1, rewired g g1 -> sg_srvs (gn_grp g1) !! i = Some s) as Hrw by (intros g1 R; by rewrite (rw_srvs _ _ R)).
  destruct ev as [j|j|p1 p2|names rs j|j|j r sn|yes|yes|e|e sn|e b|e]; simpl in He.
  - apply Hrw. by eapply connect_rewired.
  - apply Hrw. by eapply disconnect_rewired.
  - apply Hrw. by eapply Partition_rewired.
  - destruct (StartServer_spec _ _ _ _ _ _ W He) as (x & p & rn & Hx & _ & _ & _ & ->). simpl in Hst. apply bool_decide_eq_false in Hst.
    simpl. by rewrite list_lookup_insert_ne.
  - destruct (ShutdownServer_spec _ _ _ _ W He) as (g1 & x & Hd & R & Hx & ->). simpl. destruct (decide (j = i)) as [->|Hji].
    + rewrite list_lookup_insert_eq by (rewrite (rw_srvs _ _ R); by eapply lookup_lt_Some).
      rewrite Hs in Hx. injection Hx as <-. unfold shutdownServer. by rewrite Hdc.
    + rewrite list_lookup_insert_ne by done. by apply Hrw.
  - apply bind_Some in He as (x & Hx & (p & Hp & [= <-])%bind_Some). simpl. rewrite list_lookup_insert_ne; [done|]. intros ->. congruence.
  - by injection He as <-.
  - by injection He as <-.
  - by apply bind_Some in He as (rn & _ & [= <-]).
  - case_decide; [done|]. by injection He as <-.
  - case_decide; [done|]. by injection He as <-.
  - case_decide; [done|]. by apply bind_Some in He as (rn & _ & [= <-]).
Qed.

(** A restart keeps the state: whatever the processes persisted, what a server's process
    had persisted when it was shut down is what the process started for it gets, whatever
    happens in between; the new process has a fresh end to every server, none of them enabled. *)
Theorem restart_keeps_state gid names rn evs g i s p g1 evs' g2 fresh rs g3 :
  grp_reachable gid names rn evs g -> sg_srvs (gn_grp g) !! i = Some s -> ts_dc s = Some p ->
  ShutdownServer i g = Some g1 -> forallb (fun ev => negb (starts i ev)) evs' = true -> grp_exec_all evs' g1 = Some g2 ->
  StartServer fresh rs i g2 = Some g3 ->
  exists s' p', sg_srvs (gn_grp g3) !! i = Some s' /\ ts_dc s' = Some p' /\
    ReadRaftState p' = ReadRaftState p /\ ReadSnapshot p' = ReadSnapshot p /\
    ts_endNames s' = fresh /\ (forall e, e ∈ fresh -> e ∉ rn_ends (gn_net g2)) /\
    forall b, b < length names -> reach g3 i b = Some (Replying false no_reply).
Proof.
  intros Hr Hs Hdc Hsh Hev He Hst. pose proof (reachable_wired _ _ _ _ _ Hr) as W.
  destruct (ShutdownServer_spec _ _ _ _ W Hsh) as (g0 & x & Hd & R & Hx & Hg1). rewrite Hs in Hx. injection Hx as <-.
  assert (i < length names) as Hi by (rewrite <- (wd_srvs _ _ W); by eapply lookup_lt_Some).
  set (s1 := mkTserver (Some (checkpointPersister p)) (ts_endNames s) None).
  assert (sg_srvs (gn_grp g1) !! i = Some s1) as Hs1.
  { rewrite Hg1. simpl. rewrite list_lookup_insert_eq by (rewrite (rw_srvs _ _ R); by eapply lookup_lt_Some).
    unfold shutdownServer. by rewrite Hdc. }
  assert (wired (length names) g1) as W1 by exact (grp_exec_wired _ (GShutdown i) _ _ W Hsh).
  assert (wired (length names) g2 /\ sg_srvs (gn_grp g2) !! i = Some s1) as [W2 Hs2].
  { clear Hg1 Hsh Hst. revert g1 W1 Hs1 He Hev. induction evs' as [|ev evs' IH]; intros g1 W1 Hs1 He Hev; simpl in He; [by injection He as <-|].
    apply bind_Some in He as (g1' & H1 & He). simpl in Hev. apply andb_true_iff in Hev as [Hev1 Hev]. apply negb_true_iff in Hev1.
    apply (IH g1'); try done; [by eapply grp_exec_wired|by eapply srv_stopped]. }
  destruct (StartServer_spec _ _ _ _ _ _ W2 Hst) as (y & q & rn2 & Hy & Hq & Hmk & Hlen & ->).
  rewrite Hs2 in Hy. injection Hy as <-. destruct (make_ends_spec _ _ _ _ _ Hmk) as (Hnd & Hnew & Hends & Hconn & Hold & _).
  eexists _, _. split_and!.
  - simpl. rewrite list_lookup_insert_eq by (by eapply lookup_lt_Some). done.
  - done.
  - by rewrite Hq.
  - by rewrite Hq.
  - done.
  - done.
  - intros b Hb. rewrite (reach_spec (length names)) by (done || by exact (wired_StartServer _ _ _ _ _ _ W2 Hst)).
    unfold is_on. rewrite (link_set_srv (length names)) by done. rewrite decide_True by done. simpl.
    destruct (lookup_lt_is_Some_2 fresh b) as [e Hb']; [lia|]. rewrite Hb'. destruct (Hconn _ _ Hb') as [_ Hoff]. unfold on in *. simpl. by rewrite Hoff.
Qed.

(** ** The ends of a client *)

Lemma enable_where_spec p b cl rn :
  (forall srv srv' e, cl_ends cl !! srv = Some e -> cl_ends cl !! srv' = Some e -> srv = srv') ->
  only_enabled rn (enable_where p b cl rn) /\
  forall srv e, cl_ends cl !! srv = Some e -> on (enable_where p b cl rn) e = if p srv then b else on rn e.
Proof.
  unfold enable_where. intros Hinj.
  cut (only_enabled rn (map_fold (fun srv e rn => if p srv then Enable e b rn else rn) rn (cl_ends cl)) /\
       (forall e, (forall srv, cl_ends cl !! srv <> Some e) -> on (map_fold (fun srv e rn => if p srv then Enable e b rn else rn) rn (cl_ends cl)) e = on rn e) /\
       forall srv e, cl_ends cl !! srv = Some e ->
         on (map_fold (fun srv e rn => if p srv then Enable e b rn else rn) rn (cl_ends cl)) e = if p srv then b else on rn e); [tauto|].
  revert Hinj. generalize (cl_ends cl) as m. intros m.
  refine (map_fold_weak_ind (fun r m => (forall srv srv' e, m !! srv = Some e -> m !! srv' = Some e -> srv = srv') ->
    only_enabled rn r /\ (forall e, (forall srv, m !! srv <> Some e) -> on r e = on rn e) /\
    forall srv e, m !! srv = Some e -> on r e = if p srv then b else on rn e) _ rn _ _ m).
  - intros _. split_and!; [apply only_enabled_refl|done|]. intros srv e He. by rewrite lookup_empty in He.
  - intros srv e m' r Hnew IH Hinj.
    assert (forall s, m' !! s <> Some e) as Hne.
    { intros s Hs. assert (s = srv) as ->; [|congruence]. apply (Hinj s srv e); [|by rewrite lookup_insert_eq].
      rewrite lookup_insert_ne; [done|]. intros <-. congruence. }
    destruct IH as (H1 & H2 & H3).
    { intros s s' x Hs Hs'. apply (Hinj s s' x); rewrite lookup_insert_ne; try done; intros <-; congruence. }
    split_and!.
    + destruct (p srv); [|done]. eapply only_enabled_trans; [exact H1|]. done.
    + intros x Hx. assert (x <> e) as Hxe by (intros ->; apply (Hx srv); by rewrite lookup_insert_eq).
      assert (on r x = on rn x) as Hr by (apply H2; intros s Hs; apply (Hx s); rewrite lookup_insert_ne; [done|]; intros <-; congruence).
      destruct (p srv); [|done]. by rewrite on_Enable, decide_False.
    + intros s x Hs. apply lookup_insert_Some in Hs as [[<- <-]|[Hss Hs]].
      * destruct (p srv); [by rewrite on_Enable, decide_True|]. by apply H2.
      * assert (x <> e) as Hxe by (intros ->; by apply (Hne s)). destruct (p srv); [rewrite on_Enable, decide_False by done|]; by apply H3.
Qed.

(** Every end of the client is its own, known to the network and connected to its server;
    those to servers allowed are enabled, unless [Disconnect] was called, and, unless
    [ConnectTo] was, only those. *)
Record clnt_ok (f : bool * bool) (c : Clnt * net) : Prop := {
  ck_ends srv e : cl_ends c.1 !! srv = Some e -> e ∈ rn_ends c.2 /\ rn_connections c.2 !! e = Some (Some srv);
  ck_on srv e : cl_ends c.1 !! srv = Some e -> allowedL srv c.1 = true -> f.1 = true -> on c.2 e = true;
  ck_off srv e : cl_ends c.1 !! srv = Some e -> allowedL srv c.1 = false -> f.2 = true -> on c.2 e = false;
}.

Lemma clnt_ok_inj f c srv srv' e : clnt_ok f c -> cl_ends c.1 !! srv = Some e -> cl_ends c.1 !! srv' = Some e -> srv = srv'.
Proof. intros [H _ _] H1 H2. destruct (H _ _ H1) as [_ H3], (H _ _ H2) as [_ H4]. congruence. Qed.

Lemma clnt_ok_net f cl rn rn' : clnt_ok f (cl, rn) ->
  (forall srv e, cl_ends cl !! srv = Some e -> e ∈ rn_ends rn -> e ∈ rn_ends rn' /\ rn_connections rn' !! e = rn_connections rn !! e /\ on rn' e = on rn e) ->
  clnt_ok f (cl, rn').
Proof.
  intros [H1 H2 H3] H. constructor; simpl in *.
  - intros srv e He. destruct (H1 _ _ He) as [Ha Hb]. destruct (H _ _ He Ha) as (? & -> & _). done.
  - intros srv e He. destruct (H1 _ _ He) as [Ha Hb]. destruct (H _ _ He Ha) as (_ & _ & ->). by apply H2.
  - intros srv e He. destruct (H1 _ _ He) as [Ha Hb]. destruct (H _ _ He Ha) as (_ & _ & ->). by apply H3.
Qed.

Lemma makeEnd_ok f server name cl rn e cl' rn' : clnt_ok f (cl, rn) -> makeEnd server name cl rn = Some (e, cl', rn') ->
  clnt_ok f (cl', rn') /\ cl_ends cl' !! server = Some e /\ cl_srvs cl' = cl_srvs cl /\ rn_servers rn' = rn_servers rn.
Proof.
  intros I Hm. unfold makeEnd in Hm. destruct (cl_ends cl !! server) as [x|] eqn:Hx; [by injection Hm as <- <- <-|].
  apply bind_Some in Hm as (rn1 & Hmk & [= <- <- <-]). unfold MakeEnd in Hmk. case_decide as Hnew; [done|]. injection Hmk as <-.
  simpl. rewrite lookup_insert_eq. split; [|done].
  assert (forall srv x, cl_ends cl !! srv = Some x -> x <> name) as Hne by (intros srv x Hs ->; by apply Hnew, (ck_ends _ _ I srv)).
  constructor; simpl.
  - intros srv x [[<- <-]|[Hss Hs]]%lookup_insert_Some; [rewrite lookup_insert_eq; set_solver|].
    pose proof (Hne _ _ Hs). rewrite !lookup_insert_ne by done. destruct (ck_ends _ _ I _ _ Hs). simpl in *. set_solver.
  - intros srv x [[<- <-]|[Hss Hs]]%lookup_insert_Some Ha; rewrite on_Enable; [by rewrite decide_True|].
    rewrite decide_False by by eapply Hne. unfold on. simpl. rewrite lookup_insert_ne by (pose proof (Hne _ _ Hs); done). by apply (ck_on _ _ I srv).
  - intros srv x [[<- <-]|[Hss Hs]]%lookup_insert_Some Ha; rewrite on_Enable; [by rewrite decide_True|].
    rewrite decide_False by by eapply Hne. unfold on. simpl. rewrite lookup_insert_ne by (pose proof (Hne _ _ Hs); done). by apply (ck_off _ _ I srv).
Qed.

Lemma enable_ok f f' cl cl' cl2 rn p b : clnt_ok f (cl, rn) -> cl_ends cl' = cl_ends cl -> cl_ends cl2 = cl_ends cl ->
  (forall srv e, cl_ends cl !! srv = Some e -> allowedL srv cl' = true -> f'.1 = true -> (if p srv : bool then b else on rn e) = true) ->
  (forall srv e, cl_ends cl !! srv = Some e -> allowedL srv cl' = false -> f'.2 = true -> (if p srv then b else on rn e) = false) ->
  clnt_ok f' (cl', enable_where p b cl2 rn).
Proof.
  intros I He He2 Hon Hoff. destruct (enable_where_spec p b cl2 rn) as [Ho Hw]; [rewrite He2; intros; by eapply (clnt_ok_inj _ _ _ _ _ I)|].
  constructor; simpl.
  - intros srv e Hs. rewrite Ho. simpl. rewrite He in Hs. exact (ck_ends _ _ I _ _ Hs).
  - intros srv e Hs Ha Hst. simpl in *. rewrite He in Hs. rewrite (Hw srv e) by by rewrite He2. by apply (Hon srv).
  - intros srv e Hs Ha Hst. simpl in *. rewrite He in Hs. rewrite (Hw srv e) by by rewrite He2. by apply (Hoff srv).
Qed.

Lemma clnt_exec_ok f ev c c' : clnt_ok f c -> clnt_exec ev c = Some c' -> clnt_ok (f.1 && keeps ev, f.2 && restricts ev) c'.
Proof.
  destruct c as [cl rn], f as [k r]. intros I He.
  destruct ev as [server name| |srvs| |srv|srv rs|srv|e|e b]; simpl in He; simpl keeps; simpl restricts; simpl fst; simpl snd;
    rewrite ?andb_true_r, ?andb_false_r.
  - apply bind_Some in He as ([[e cl'] rn'] & Hm & [= <-]). by eapply makeEnd_ok.
  - injection He as <-. by apply (enable_ok (k, r) _ cl).
  - injection He as <-. apply (enable_ok (k, r) _ cl); try done. intros srv e Hs Ha. by rewrite Ha.
  - injection He as <-. by apply (enable_ok (k, r) _ cl).
  - injection He as <-. apply (enable_ok (k, r) _ cl); try done. intros srv' e Hs Ha Hr. case_bool_decide; [done|]. by apply (ck_off _ _ I srv').
  - injection He as <-. by apply (clnt_ok_net _ _ rn).
  - injection He as <-. by apply (clnt_ok_net _ _ rn).
  - apply bind_Some in He as (rn' & Hm & [= <-]). unfold MakeEnd in Hm. case_decide as Hnew; [done|]. injection Hm as <-.
    apply (clnt_ok_net _ _ rn); [done|]. intros srv x Hs Hx. assert (x <> e) by (by intros ->). simpl. unfold on. simpl.
    rewrite !lookup_insert_ne by done. split; [set_solver|done].
  - case_decide as Hno; [done|]. injection He as <-. apply (clnt_ok_net _ _ rn); [done|]. intros srv x Hs Hx. split; [done|]. split; [done|].
    rewrite on_Enable, decide_False; [done|]. intros ->. apply Hno. apply elem_of_map_img. by exists srv.
Qed.

Lemma clnt_exec_all_ok evs : forall f c c', clnt_ok f c -> clnt_exec_all evs c = Some c' -> clnt_ok (f.1 && forallb keeps evs, f.2 && forallb restricts evs) c'.
Proof.
  induction evs as [|ev evs IH]; intros f c c' I He; simpl in He; [injection He as <-; rewrite !andb_true_r; by destruct f|].
  apply bind_Some in He as (c1 & H1 & He). simpl. rewrite !andb_assoc. apply (IH (f.1 && keeps ev, f.2 && restricts ev) c1); [by eapply clnt_exec_ok|done].
Qed.

(** A client calls whom it is allowed to: whatever was done to a client and to the
    network before, [makeEnd] gives the one end of the client to the server, and a request on
    it finds what the network has for that server if the client may call it, and nothing if
    it may not, provided [Disconnect] closed no end and [ConnectTo] did not change who may be
    called. *)
Theorem client_calls_allowed srvs rn evs cl rn1 server name e cl' rn2 :
  clnt_exec_all evs (makeClntTo srvs, rn) = Some (cl, rn1) -> makeEnd server name cl rn1 = Some (e, cl', rn2) ->
  cl_ends cl' !! server = Some e /\
  (allowedL server cl = true -> forallb keeps evs = true -> process_look e rn2 =
    match default None (rn_servers rn1 !! server) with
    | Some rs => Looked (mkTarget server rs (rn_reliable rn2) (rn_longReordering rn2))
    | None => Replying false no_reply
    end) /\
  (allowedL server cl = false -> forallb restricts evs = true -> process_look e rn2 = Replying false no_reply).
Proof.
  intros He Hm. assert (clnt_ok (true, true) (makeClntTo srvs, rn)) as I0 by (constructor; simpl; intros ? ? Hl; by rewrite lookup_empty in Hl).
  pose proof (clnt_exec_all_ok _ _ _ _ I0 He) as I. simpl in I. destruct (makeEnd_ok _ _ _ _ _ _ _ _ I Hm) as (I' & Hl & Hs & Hrs).
  assert (allowedL server cl' = allowedL server cl) as Hal by (unfold allowedL; by rewrite Hs).
  destruct (ck_ends _ _ I' _ _ Hl) as [_ Hc]. simpl in Hc. unfold process_look, readEndnameInfo. rewrite Hc. simpl.
  fold (on rn2 e). rewrite Hrs. split_and!; [done| |].
  - intros Ha Hk. pose proof (ck_on _ _ I' _ _ Hl) as Hon. simpl in Hon. rewrite Hal in Hon. by rewrite (Hon Ha Hk).
  - intros Ha Hr. pose proof (ck_off _ _ I' _ _ Hl) as Hoff. simpl in Hoff. rewrite Hal in Hoff. by rewrite (Hoff Ha Hr).
Qed.

(** What the tester's partitioner draws are two parts of the group. *)
Lemma Partitioner_round_partitions gid names rn evs g a :
  grp_reachable gid names rn evs g -> length a = length names -> Forall (fun v => v < 2) a ->
  exists g', Partitioner_round a g = Some g' /\
    forall i j, i < length names -> j < length names ->
      reach g' i j = Some (if decide (a !! i = a !! j) then found g j else Replying false no_reply).
Proof.
  intros Hr Hlen Ha. pose proof (reachable_wired _ _ _ _ _ Hr) as W. unfold Partitioner_round, sg_N. rewrite (wd_srvs _ _ W).
  set (part := fun v => filter (fun j => a !! j = Some v) (seq 0 (length names))).
  assert (forall j, j < length names -> a !! j = Some 0 \/ a !! j = Some 1) as Hv.
  { intros j Hj. destruct (lookup_lt_is_Some_2 a j) as [v Hv]; [lia|]. pose proof (Forall_lookup_1 _ _ _ _ Ha Hv) as Hlt. simpl in Hlt.
    rewrite Hv. destruct v as [|[|v]]; [by left|by right|lia]. }
  assert (forall v j, j ∈ part v <-> a !! j = Some v /\ j < length names) as Hin.
  { intros v j. unfold part. rewrite list_elem_of_filter, elem_of_seq. naive_solver lia. }
  assert (Permutation (part 0 ++ part 1) (seq 0 (length names))) as Hp.
  { apply NoDup_Permutation.
    - apply NoDup_app. split_and!; try (apply NoDup_filter, NoDup_seq). intros x [H0 _]%Hin [H1 _]%Hin. congruence.
    - apply NoDup_seq.
    - intros x. rewrite elem_of_app, !Hin, elem_of_seq. split; [lia|]. intros [_ Hx]. simpl in Hx. destruct (Hv x Hx); auto. }
  destruct (Partition_spec _ _ _ _ W Hp) as (g' & Hg' & R & _ & Hon). pose proof (rewired_wired _ _ _ R W) as W'. exists g'. split; [done|].
  intros i j Hi Hj. rewrite (reach_spec _ _ _ _ W' Hi Hj), Hon by done. unfold found. rewrite (rw_gid _ _ R), (rw_net _ _ R).
  f_equal. assert ((i ∈ part 0 <-> j ∈ part 0) <-> a !! i = a !! j) as Heq.
  { rewrite !Hin. destruct (Hv i Hi) as [-> | ->], (Hv j Hj) as [-> | ->]; split; try done; try tauto; intros [? ?]; naive_solver. }
  case_decide as Hd; [rewrite bool_decide_true by tauto|rewrite bool_decide_false by tauto]; done.
Qed.
