(* ===== verification/TesterSim.v ===== *)
(** * Groups and clients, executed

    The hypotheses of [TesterSafe] hold: a group of three servers is made, started and
    partitioned around a leader, a server is shut down and started again, and a client
    calls servers it may and may not call. *)

From S2P Require Import Prelude.
From S2P Require Import GoLib.
From S2P Require Import Persister.
From S2P Require Import Labrpc.
From S2P Require Import Tester.
From S2P Require Import TesterSafe.
From Stdlib Require Import Strings.Byte.

(** A run that succeeds has a result. *)
Definition succeeds {A} (o : option A) : bool := match o with Some _ => true | None => false end.

Lemma run_default {A} (o : option A) (d : A) : succeeds o = true -> o = Some (default d o).
Proof. by destruct o. Qed.

Lemma run_pair {A B} (o : option (A * B)) d : succeeds o = true -> o = Some ((default d o).1, (default d o).2).
Proof. by destruct o as [[a b]|]. Qed.

Lemma run_triple {A B C} (o : option (A * B * C)) d :
  succeeds o = true -> o = Some ((default d o).1.1, (default d o).1.2, (default d o).2).
Proof. by destruct o as [[[a b] c]|]. Qed.

Ltac run := vm_cast_no_check (@eq_refl bool true).

Definition ex_names : list (list string) := [["a0"; "a1"; "a2"]; ["b0"; "b1"; "b2"]; ["c0"; "c1"; "c2"]]%string.

Definition ex_start : list grp_event :=
  [GStart ["d0"; "d1"; "d2"] 1 0; GStart ["e0"; "e1"; "e2"] 2 1; GStart ["f0"; "f1"; "f2"] 3 2;
   GConnectOne 0; GConnectOne 1; GConnectOne 2; GPersist 1 [x01; x02] [x03]; GMakeEnd "clerk"; GConnect "clerk" "server-0-1";
   GEnable "clerk" true]%string.

Definition ex_grp (evs : list grp_event) : option grpnet :=
  '(sg, rn) ← makeSrvGrp 0 ex_names MakeNetwork; grp_exec_all evs (mkGrpnet sg rn).

Definition ex_started : grpnet := default (mkGrpnet (mkServerGrp [] [] 0 []) MakeNetwork) (ex_grp ex_start).

Lemma ex_started_reachable : grp_reachable 0 ex_names MakeNetwork ex_start ex_started.
Proof.
  split; [|apply run_default; run].
  intros es Hes. unfold ex_names in *. repeat (apply elem_of_cons in Hes as [->|Hes]; [done|]). by apply not_elem_of_nil in Hes.
Qed.

(** All reach each other, then only the two of the majority do. *)
Example ex_reach :
  reach ex_started 0 1 = Some (Looked (mkTarget "server-0-1" 2 true false)) /\
  (g ← Partition [0; 2] [1] ex_started; reach g 0 1) = Some (Replying false no_reply) /\
  (g ← Partition [0; 2] [1] ex_started; reach g 0 2) = Some (Looked (mkTarget "server-0-2" 3 true false)).
Proof. by vm_compute. Qed.

Lemma partition_separates_witness :
  (exists g', Partition [0; 2] [1] ex_started = Some g' /\ IsConnected 1 (gn_grp g') = Some true /\
    reach g' 0 2 = Some (Looked (mkTarget "server-0-2" 3 true false))) /\
  exists g', Partition [0; 2] [1] ex_started = Some g' /\
    forall evs' g'', forallb apart evs' = true -> grp_exec_all evs' g' = Some g'' -> reach g'' 0 1 = Some (Replying false no_reply).
Proof.
  assert (Permutation ([0; 2] ++ [1]) (seq 0 (length ex_names))) as Hp by (simpl; apply perm_skip, perm_swap).
  destruct (partition_separates 0 ex_names MakeNetwork ex_start ex_started [0; 2] [1] ex_started_reachable Hp) as (g' & Hg & Hc & Hr & Ha).
  split; exists g'.
  - split_and!; [done|apply Hc; simpl; lia|]. rewrite Hr by (simpl; lia). by vm_compute.
  - split; [done|]. intros evs' g'' Hap He. apply (Ha evs' g'' Hap He); simpl; [lia|lia|].
    intros [H _]. specialize (H ltac:(by left)). repeat (apply elem_of_cons in H as [H|H]; [done|]). by apply not_elem_of_nil in H.
Defined.

Lemma leader_in_minority_witness : exists p1 p2 g', MakePartition 1 (gn_grp ex_started) = Some (p1, p2) /\
  Partition p1 p2 ex_started = Some g' /\ length p1 = 2 /\
  forall b, b ∈ p1 -> reach g' 1 b = Some (Replying false no_reply).
Proof.
  destruct (leader_in_minority 0 ex_names MakeNetwork ex_start ex_started 1 1 ex_started_reachable) as (p1 & p2 & g' & H1 & H2 & H3 & _ & H4 & _);
    [done|lia|lia|].
  exists p1, p2, g'. split; [exact H1|split; [exact H2|split; [exact H3|]]]. intros b Hb. exact (proj1 (H4 b Hb)).
Defined.

(** For an even number of servers the slots do not suffice: server 0 is in both parts. *)
Example ex_even_partition : (MakePartition 1 (mkServerGrp (replicate 4 (mkTserver None [] None)) [] 0 (replicate 4 false))) = Some ([0; 2; 3], [0; 1]).
Proof. by vm_compute. Qed.

Definition ex_stopped : grpnet := default ex_started (ShutdownServer 1 ex_started).

Definition ex_between : list grp_event := [GPartition [0] [2; 1]; GShutdown 0; GDeleteEnd "clerk"]%string.

Definition ex_later : grpnet := default ex_started (grp_exec_all ex_between ex_stopped).

Definition ex_restarted : grpnet := default ex_started (StartServer ["g0"; "g1"; "g2"]%string 7 1 ex_later).

Definition ex_server : tserver := mkTserver (Some MakePersister) ["e0"; "e1"; "e2"]%string (Some (mkPersister [x01; x02] [x03])).

Lemma ex_restarts : sg_srvs (gn_grp ex_started) !! 1 = Some ex_server /\ ShutdownServer 1 ex_started = Some ex_stopped /\
  grp_exec_all ex_between ex_stopped = Some ex_later /\ StartServer ["g0"; "g1"; "g2"]%string 7 1 ex_later = Some ex_restarted.
Proof. split; [by vm_compute|]. split; [apply run_default; run|]. split; apply run_default; run. Qed.

Lemma restart_keeps_state_witness : exists s' p', sg_srvs (gn_grp ex_restarted) !! 1 = Some s' /\ ts_dc s' = Some p' /\
  ReadRaftState p' = [x01; x02] /\ ReadSnapshot p' = [x03].
Proof.
  destruct ex_restarts as (H1 & H2 & H3 & H4).
  destruct (restart_keeps_state 0 ex_names MakeNetwork ex_start ex_started 1 ex_server (mkPersister [x01; x02] [x03]) ex_stopped ex_between
    ex_later ["g0"; "g1"; "g2"]%string 7 ex_restarted ex_started_reachable H1 eq_refl H2 eq_refl H3 H4) as (s' & p' & R1 & R2 & R3 & R4 & _).
  exists s', p'. split; [exact R1|]. split; [exact R2|]. split; [exact R3|exact R4].
Defined.

Definition ex_calls : list clnt_event :=
  [CAddServer "server-0-0" 1; CMakeEnd "server-0-0" "k0"; CDisconnectAll; CMakeEnd "server-0-1" "k1"; CConnectAll; CAddServer "server-0-1" 2]%string.

Definition ex_called : Clnt * net := default (makeClntTo None, MakeNetwork) (clnt_exec_all ex_calls (makeClntTo (Some ["server-0-0"%string]), MakeNetwork)).

Lemma ex_calls_run : clnt_exec_all ex_calls (makeClntTo (Some ["server-0-0"%string]), MakeNetwork) = Some (ex_called.1, ex_called.2).
Proof. apply run_pair. run. Qed.

Definition ex_ended : string * Clnt * net :=
  default (""%string, makeClntTo None, MakeNetwork) (makeEnd "server-0-1" "k2" ex_called.1 ex_called.2).

Lemma ex_end : makeEnd "server-0-1" "k2" ex_called.1 ex_called.2 = Some (ex_ended.1.1, ex_ended.1.2, ex_ended.2).
Proof. apply run_triple. run. Qed.

Lemma ex_allowed : allowedL "server-0-1" ex_called.1 = true.
Proof. run. Qed.

Lemma client_calls_allowed_witness :
  process_look ex_ended.1.1 ex_ended.2 = match default None (rn_servers ex_called.2 !! "server-0-1"%string) with
    | Some rs => Looked (mkTarget "server-0-1"%string rs (rn_reliable ex_ended.2) (rn_longReordering ex_ended.2))
    | None => Replying false no_reply
    end.
Proof. exact (proj1 (proj2 (client_calls_allowed _ _ _ _ _ _ _ _ _ _ ex_calls_run ex_end)) ex_allowed eq_refl). Defined.

(** A test with one group: it starts, a client is made, and [Cleanup] stops it all. *)
Example ex_config :
  (c ← MakeConfig ex_names [(["d0"; "d1"; "d2"]%string, 1); (["e0"; "e1"; "e2"]%string, 2); (["f0"; "f1"; "f2"]%string, 3)] true;
   cs ← MakeClient 0 (cf_clnts c);
   c ← Config_Cleanup (mkConfig cs (cf_groups c) (cf_net c) (cf_rpcs0 c) (cf_ops c));
   Some (ts_dc <$> default [] (sg_srvs <$> lookupGroup 0 (cf_groups c)), rn_servers (cf_net c) !! "server-0-2"%string, rn_done (cf_net c)))
  = Some ([None; None; None], Some None, true).
Proof. by vm_compute. Qed.
