(* ===== verification/Prog.v ===== *)
(** * Client programs

    The clerks, the lock and the shard controller are sequential programs that
    wait for remote calls and use shared objects, between which anything may
    happen.  [prog] is such a program as a tree of its atomic effects: [Call e k]
    performs [e] and goes on with [k] on the response.  A Go panic is [Panic]; a
    retry loop takes fuel and is [Spin] when it runs out, so that every finite
    prefix of a run of the unbounded loop is a run with enough fuel. *)

From S2P Require Import Prelude.

Section prog.
Context {E : Type} {R : E -> Type}.

Inductive prog (A : Type) : Type :=
| Ret (a : A)
| Panic
| Spin
| Call (e : E) (k : R e -> prog A).

Arguments Ret {A}.
Arguments Panic {A}.
Arguments Spin {A}.
Arguments Call {A}.

Fixpoint prog_bind {A B} (f : A -> prog B) (p : prog A) : prog B :=
match p with
| Ret a => f a
| Panic => Panic
| Spin => Spin
| Call e k => Call e (fun r => prog_bind f (k r))
end.

Definition call (e : E) : prog (R e) := Call e Ret.

(** ** Programs in a world that moves on

    [W] are the states of the world, [env] what the others may do at any time, and
    [answer w e r w'] that effect [e], performed in [w], answers [r] and leaves
    [w']. *)
Section worlds.
Context {W : Type} (env : W -> W -> Prop) (answer : W -> forall e : E, R e -> W -> Prop).

(** A run of [p] from [w] up to its result, and one up to a panic. *)
Inductive runs {A} : prog A -> W -> A -> W -> Prop :=
| runs_ret a w : runs (Ret a) w a w
| runs_env p w w1 a w' : env w w1 -> runs p w1 a w' -> runs p w a w'
| runs_call e k w r w1 a w' : answer w e r w1 -> runs (k r) w1 a w' -> runs (Call e k) w a w'.

Inductive panics {A} : prog A -> W -> Prop :=
| panics_now w : panics Panic w
| panics_env p w w1 : env w w1 -> panics p w1 -> panics p w
| panics_call e k w r w1 : answer w e r w1 -> panics (k r) w1 -> panics (Call e k) w.

(** [safe allowed p Q w]: in every run of [p] from [w] all effects are [allowed],
    none panics, and the result satisfies [Q] when it is returned. *)
Section safe.
Context (allowed : W -> E -> Prop).

Fixpoint safe {A} (p : prog A) (Q : W -> A -> Prop) (w : W) : Prop :=
match p with
| Ret a => forall w1, rtc env w w1 -> Q w1 a
| Panic => False
| Spin => True
| Call e k => forall w1, rtc env w w1 -> allowed w1 e /\ forall r w2, answer w1 e r w2 -> safe (k r) Q w2
end.

Lemma safe_env {A} (p : prog A) Q w w1 : env w w1 -> safe p Q w -> safe p Q w1.
Proof. intros He. destruct p; simpl; auto; intros H w2 Hr; apply H; by eapply rtc_l. Qed.

Lemma safe_rtc {A} (p : prog A) Q w w1 : rtc env w w1 -> safe p Q w -> safe p Q w1.
Proof. induction 1; eauto using safe_env. Qed.

Lemma safe_bind {A B} (p : prog A) (f : A -> prog B) Q Q' w :
  safe p Q w -> (forall w' a, Q w' a -> safe (f a) Q' w') -> safe (prog_bind f p) Q' w.
Proof.
  intros H Hf. revert w H. induction p as [a| | |e k IH]; intros w H; simpl in *; auto.
  - apply Hf, H. constructor.
  - intros w1 Hw. destruct (H w1 Hw) as [Ha Hk]. split; [done|]. intros r w2 Hr. apply IH. auto.
Qed.

Lemma safe_mono {A} (p : prog A) (Q Q' : W -> A -> Prop) w :
  (forall w a, Q w a -> Q' w a) -> safe p Q w -> safe p Q' w.
Proof.
  intros HQ. revert w. induction p as [a| | |e k IH]; intros w H; simpl in *; auto.
  intros w1 Hw. destruct (H w1 Hw) as [Ha Hk]. split; [done|]. intros r w2 Hr. apply IH. auto.
Qed.

Lemma safe_runs {A} (p : prog A) Q w a w' : safe p Q w -> runs p w a w' -> Q w' a.
Proof.
  intros H Hr. revert H. induction Hr as [a w|p w w1 a w' He _ IH|e k w r w1 a w' Ha _ IH]; intros H; simpl in *.
  - apply H. constructor.
  - apply IH. by eapply safe_env.
  - apply IH. destruct (H w) as [_ Hk]; [constructor|auto].
Qed.

Lemma safe_panics {A} (p : prog A) Q w : safe p Q w -> ~ panics p w.
Proof.
  intros H Hp. revert H. induction Hp as [w|p w w1 He _ IH|e k w r w1 Ha _ IH]; intros H; simpl in *.
  - done.
  - apply IH. by eapply safe_env.
  - apply IH. destruct (H w) as [_ Hk]; [constructor|auto].
Qed.
End safe.
End worlds.
End prog.

Arguments prog {E} R A.
Arguments Ret {E R A}.
Arguments Panic {E R A}.
Arguments Spin {E R A}.
Arguments Call {E R A}.

#[global] Instance prog_mbind {E} {R : E -> Type} : MBind (prog R) := fun A B f p => prog_bind f p.
