(* ===== verification/KvTest.v ===== *)
(** * The checks of the key/value tests ([kvtest1])

    The tests run many clients on a key/value service through its clerks and check what
    they find: every client checks what it reads, the test checks counts of puts or a
    list of appends, and the history of all calls goes to the linearizability checker.
    Clients and checks are programs ([Prog]); a failed check, [Fatalf], is [Panic].
    [KvTestSafe] shows that none fails on a store that keeps its promise. *)

From S2P Require Import Prelude.
From S2P Require Import GoLib.
From S2P Require Import Rpc.
From S2P Require Import KvSpec.
From S2P Require Import KvSrv.
From S2P Require Import Prog.

Declare Scope kvtest_scope.
Delimit Scope kvtest_scope with kvtest.
Open Scope kvtest_scope.
Notation "'do' x <- p ; k" := (prog_bind (fun x => k) p) (at level 60, x pattern, right associativity) : kvtest_scope.

(** [encoding/json] on one type. *)
Class Json (A : Type) := {
  json_Marshal : A -> option string;
  json_Unmarshal : string -> option A;
}.

Class JsonOk (A : Type) `{Json A} : Prop := {
  json_Marshal_ok : forall a : A, is_Some (json_Marshal a);
  json_Unmarshal_ok : forall (a : A) s, json_Marshal a = Some s -> json_Unmarshal s = Some a;
}.

(** ** [porcupine.go] *)

(** [porcupine.Operation] *)
Record operation : Type := mkOperation {
  op_ClientId : Z;
  op_Input : KvInput;
  op_Call : Z;
  op_Output : KvOutput;
  op_Return : Z;
}.

(** [OpLog]: its operations. *)
Definition OpLog_Append (op : operation) (log : list operation) : list operation := log ++ [op].

Definition OpLog_Read (log : list operation) : list operation := log.

Definition OpLog_Len (log : list operation) : nat := length log.

(** The atomic effects of a client: reading the clock, calls of its clerk, appending to
    the operation log, looking whether the test is over, and a random number below [n]. *)
Inductive kt_eff : Type :=
  | KNow
  | KGet (key : string)
  | KPut (key value : string) (version : Tversion)
  | KLog (op : operation)
  | KDone
  | KRand (n : nat).

Definition kt_resp (e : kt_eff) : Type :=
  match e with
  | KNow => Z
  | KGet _ => string * Tversion * Err
  | KPut _ _ _ => Err
  | KLog _ => unit
  | KDone => bool
  | KRand _ => nat
  end.

Abbreviation kt_prog := (prog kt_resp).

(** The functions [Get] and [Put]; the tests have a log. *)
Definition kvtest_Get (key : string) (cli : Z) : kt_prog (string * Tversion * Err) :=
  do start <- call (KNow : kt_eff);
  do r <- call (KGet key);
  do end_ <- call (KNow : kt_eff);
  do _ <- call (KLog (mkOperation cli (mkKvInput 0 key "" 0) start (mkKvOutput r.1.1 r.1.2 r.2) end_));
  Ret r.

Definition kvtest_Put (key value : string) (version : Tversion) (cli : Z) : kt_prog Err :=
  do start <- call (KNow : kt_eff);
  do err <- call (KPut key value version);
  do end_ <- call (KNow : kt_eff);
  do _ <- call (KLog (mkOperation cli (mkKvInput 1 key value version) start (mkKvOutput "" 0 err) end_));
  Ret err.

(** The methods of the same names. *)
Definition Test_Get : string -> Z -> kt_prog (string * Tversion * Err) := kvtest_Get.

Definition Test_Put : string -> string -> Tversion -> Z -> kt_prog Err := kvtest_Put.

(** ** [kvtest.go] *)

Section kvtest.

Definition GetJson {A} `{Json A} (key : string) (me : Z) : kt_prog (A * Tversion) :=
  do r <- kvtest_Get key me;
  let '(val, ver, err) := r in
  if decide (err = OK) then match json_Unmarshal val with Some v => Ret (v, ver) | None => Panic end else Panic.

Definition PutJson {A} `{Json A} (key : string) (v : A) (ver : Tversion) (me : Z) : kt_prog Err :=
  match json_Marshal v with Some b => kvtest_Put key b ver me | None => Panic end.

(** One client on its own key. *)
Fixpoint PutAtLeastOnce (fuel : nat) (key value : string) (ver : Tversion) (me : Z) : kt_prog Tversion :=
  match fuel with
  | O => Spin
  | S fuel' =>
      do err <- Test_Put key value ver me;
      if decide (err = OK) then Ret (u64_inc ver)
      else if decide (err = ErrMaybe \/ err = ErrVersion) then PutAtLeastOnce fuel' key value (u64_inc ver) me
      else if decide (ver <> 0%N) then Panic else PutAtLeastOnce fuel' key value ver me
  end.

Definition CheckGet (key value : string) (version : Tversion) : kt_prog unit :=
  do r <- Test_Get key 0;
  let '(val, ver, err) := r in
  if decide (err <> OK) then Panic
  else if decide (val <> value \/ ver <> version) then Panic else Ret tt.

Fixpoint PutAtLeastOnceJson {A} `{Json A} (fuel : nat) (key : string) (value : A) (ver : Tversion) (me : Z) : kt_prog Tversion :=
  match fuel with
  | O => Spin
  | S fuel' =>
      do err <- PutJson key value 0 me;
      if decide (err <> ErrMaybe) then Ret ver else PutAtLeastOnceJson fuel' key value (u64_inc ver) me
  end.

Record ClntRes : Type := mkClntRes { Nok : Z; Nmaybe : Z }.

Record EntryV : Type := mkEntryV { ev_Id : Z; ev_V : Tversion }.

(** The loop up to a put that succeeded, or may have. *)
Fixpoint OnePut `{Json EntryV} (fuel : nat) (me : Z) (key : string) (ver : Tversion) : kt_prog (Tversion * bool) :=
  match fuel with
  | O => Spin
  | S fuel' =>
      do err <- PutJson key (mkEntryV me ver) ver me;
      if decide (~ (err = OK \/ err = ErrVersion \/ err = ErrMaybe)) then Panic else
      do r <- GetJson key me;
      let '(e, ver0) := r in
      if decide ((err = OK /\ ver0 = u64_inc ver) /\ ev_Id e <> me /\ ev_V e <> ver) then Panic
      else if decide (err = OK \/ err = ErrMaybe) then Ret (ver0, bool_decide (err = OK))
      else OnePut fuel' me key ver0
  end.

(** [verm] of a key is 0 before its first put. *)
Fixpoint OneClientPut `{Json EntryV} (randomkeys : bool) (inner fuel : nat) (cli : Z) (ka : list string)
    (verm : gmap string Tversion) (res : ClntRes) : kt_prog ClntRes :=
  match fuel with
  | O => Spin
  | S fuel' =>
      do done <- call (KDone : kt_eff);
      if done : bool then Ret res else
      do i <- (if randomkeys then call (KRand (length ka)) else Ret 0);
      match ka !! i with
      | None => Panic
      | Some k =>
          do r <- OnePut inner cli k (default 0%N (verm !! k));
          OneClientPut randomkeys inner fuel' cli ka (<[k := r.1]> verm)
            (if r.2 : bool then mkClntRes (Nok res + 1) (Nmaybe res) else mkClntRes (Nok res) (Nmaybe res + 1))
      end
  end.

(** The clients of [SpawnClientsAndWait], by number. *)
Definition SpawnClients {A} (nclnt : nat) (fn : Z -> kt_prog A) : gmap Z (kt_prog A) :=
  list_to_map ((fun i => (i, fn i)) <$> seqZ 0 (Z.of_nat nclnt)).

(** The client that checks has number -1; the result is the sum. *)
Definition CheckPutConcurrent `{Json EntryV} (key : string) (rs : list ClntRes) (res : ClntRes) (reliable : bool)
    : kt_prog ClntRes :=
  do r <- GetJson (A := EntryV) key (-1);
  let ver0 := r.2 in
  let res := foldl (fun res r => mkClntRes (Nok res + Nok r) (Nmaybe res + Nmaybe r)) res rs in
  if reliable then if decide (ver0 <> to_u64 (Nok res)) then Panic else Ret res
  else if decide (to_u64 (Nok res + Nmaybe res) < ver0)%N then Panic else Ret res.

(** [entry] and [EntryN] have the same fields and the same encoding. *)
Record EntryN : Type := mkEntryN { en_Id : Z; en_N : Z }.

(** The inner loop, for one [i]: whether the put succeeded. *)
Fixpoint append_one `{Json (list EntryN)} (fuel : nat) (me i : Z) : kt_prog bool :=
  match fuel with
  | O => Spin
  | S fuel' =>
      do r <- GetJson "k" me;
      let '(es, ver) := r in
      do err <- PutJson "k" (es ++ [mkEntryN me i]) ver me;
      if decide (err = OK) then Ret true
      else if decide (err = ErrMaybe) then Ret false else append_one fuel' me i
  end.

Fixpoint OneClientAppend `{Json (list EntryN)} (inner fuel : nat) (me i : Z) (nok nmay : Z) : kt_prog ClntRes :=
  match fuel with
  | O => Spin
  | S fuel' =>
      do done <- call (KDone : kt_eff);
      if done : bool then Ret (mkClntRes nok nmay) else
      do ok <- append_one inner me i;
      if ok : bool then OneClientAppend inner fuel' me (i + 1) (nok + 1) nmay
      else OneClientAppend inner fuel' me (i + 1) nok (nmay + 1)
  end.

(** The first loop of [CheckAppends]: [expect] and [skipped]; a missing key reads 0. *)
Definition check_entry (s : option (gmap Z Z * gmap Z Z)) (e : EntryN) : option (gmap Z Z * gmap Z Z) :=
  '(expect, skipped) ← s;
  let x := default 0%Z (expect !! en_Id e) in
  if decide (en_N e < x)%Z then None
  else if decide (x = en_N e) then Some (<[en_Id e := (x + 1)%Z]> expect, skipped)
  else Some (<[en_Id e := (en_N e + 1)%Z]> expect, <[en_Id e := (default 0%Z (skipped !! en_Id e) + (en_N e - x))%Z]> skipped).

(** The checks of one client. *)
Definition check_clnt (rs : list ClntRes) (skipped : gmap Z Z) (c n : Z) : bool :=
  match zlookup rs c with
  | Some r => bool_decide (default 0%Z (skipped !! c) <= Nmaybe r)%Z && bool_decide (n <= Nok r + Nmaybe r)%Z
  | None => false
  end.

(** [false] is [Fatalf] or an index out of range. *)
Definition CheckAppends (es : list EntryN) (nclnt : nat) (rs : list ClntRes) (ver : Tversion) : bool :=
  let zeros := list_to_map ((fun i => (i, 0%Z)) <$> seqZ 0 (Z.of_nat nclnt)) : gmap Z Z in
  match foldl check_entry (Some (zeros, zeros)) es with
  | None => false
  | Some (expect, skipped) =>
      bool_decide (zlen es + 1 = Z.of_N ver)%Z && forallb (fun x => check_clnt rs skipped x.1 x.2) (map_to_list expect)
  end.

Definition MakeKeys (n : nat) : list string := (fun i => String.append "k" (itoa i)) <$> seqZ 0 (Z.of_nat n).

(** Writing values to the keys and checking them. *)
Fixpoint spread_put (kvs : list (string * string)) : kt_prog unit :=
  match kvs with
  | [] => Ret tt
  | (k, v) :: kvs' => do _ <- call (KPut k v 0); spread_put kvs'
  end.

Fixpoint spread_check (kvs : list (string * string)) : kt_prog unit :=
  match kvs with
  | [] => Ret tt
  | (k, v) :: kvs' => do _ <- CheckGet k v 1; spread_check kvs'
  end.

(** [va]: the random values drawn. *)
Definition SpreadPutsSize (va : list string) : kt_prog (list string * list string) :=
  let ka := MakeKeys (length va) in
  do _ <- spread_put (zip ka va);
  do _ <- spread_check (zip ka va);
  Ret (ka, va).

End kvtest.
