(* ===== verification/KvTestSafe.v ===== *)
(** * A store as the tests see it

    The world in which the programs of [KvTest] run: a store whose clerks answer as
    [Clerk.Put] and [Clerk.Get] promise, a clock and the log of operations.  What a call
    does in it whatever the other clients do, many clients side by side, and why their
    log is linearizable. *)

From S2P Require Import Prelude.
From S2P Require Import GoLib.
From S2P Require Import Rpc.
From S2P Require Import KvSpec.
From S2P Require Import KvSrv.
From S2P Require Import Prog.
From S2P Require Import KvTest.

(** ** The store as its clerks show it

    Every call has one moment at which it takes effect; a put is executed with success or
    not, and then answered that way or, when the clerk cannot tell, [ErrMaybe]
    ([KvClerk.clerk_put_sound]; on the replicated stores there is no [ErrMaybe],
    [KvLinear.clerks_linearizable]).  [x_eff]: a put that succeeded. *)
Record exec : Type := mkExec { x_cli : Z; x_in : KvInput; x_out : KvOutput; x_time : Z; x_eff : bool }.

Record ktw : Type := mkKtw { kw_execs : list exec; kw_now : Z; kw_ops : list operation }.

Definition effective (k : string) (x : exec) : bool := x_eff x && bool_decide (ki_Key (x_in x) = k).

(** The values a key had, version 1 first. *)
Definition view (xs : list exec) (k : string) : list string := (fun x => ki_Value (x_in x)) <$> filter (effective k) xs.

Definition get_answer (vs : list string) : string * Tversion * Err :=
  match last vs with None => ("", 0%N, ErrNoKey) | Some v => (v, N.of_nat (length vs), OK) end.

Lemma filter_none {A} (P : A -> Prop) `{!forall x, Decision (P x)} l : Forall (fun x => ~ P x) l -> filter P l = [].
Proof. induction 1 as [|x l Hx _ IH]; [done|]. by rewrite filter_cons_False. Qed.

(** The order of a list is that of a part of it. *)
Lemma filter_order {A} (P : A -> Prop) `{!forall x, Decision (P x)} (R : A -> A -> Prop) (l : list A) :
  (forall i j x y, l !! i = Some x -> l !! j = Some y -> i <= j -> R x y) ->
  forall i j x y, filter P l !! i = Some x -> filter P l !! j = Some y -> i < j -> R x y.
Proof.
  induction l as [|z l IH]; intros Hl i j x y; [done|].
  assert (forall i j x y, filter P l !! i = Some x -> filter P l !! j = Some y -> i < j -> R x y) as IHl.
  { apply IH. intros i' j' x' y' Hi Hj Hle. apply (Hl (S i') (S j')); [done|done|lia]. }
  rewrite filter_cons. case_decide; [|apply IHl].
  destruct i as [|i], j as [|j]; simpl; [lia| |lia|intros; eapply IHl; eauto; lia].
  intros [= ->] Hj _. apply list_elem_of_lookup_2, list_elem_of_filter in Hj as [_ [m Hm]%list_elem_of_lookup].
  apply (Hl 0 (S m)); [done|done|lia].
Qed.

Section world.
(** Whether the clerk ever answers [ErrMaybe]. *)
Context (maybe : bool).

Definition told (e r : Err) : Prop := r = e \/ (r = ErrMaybe /\ maybe = true).

Definition put_answer (vs : list string) (ver : Tversion) (r : Err) (eff : bool) : Prop :=
  if decide (ver = N.of_nat (length vs)) then eff = true /\ told OK r
  else eff = false /\ match vs with [] => r = ErrNoKey | _ => told ErrVersion r end.

(** A put agrees with the conditional store. *)
Lemma put_answer_spec vs ver r eff m a :
  put_answer vs ver r eff -> pa_Version a = ver -> (N.of_nat (length vs) + 1 < two64)%N ->
  m !! pa_Key a = match last vs with None => None | Some v => Some (mkEntry v (N.of_nat (length vs))) end ->
  (eff = true <-> (spec_put m a).2 = OK) /\ (r = (spec_put m a).2 \/ (r = ErrMaybe /\ (spec_put m a).2 <> ErrNoKey /\ maybe = true)) /\
  (spec_put m a).1 !! pa_Key a =
    match last (if eff then vs ++ [pa_Value a] else vs) with
    | None => None
    | Some v => Some (mkEntry v (N.of_nat (length (if eff then vs ++ [pa_Value a] else vs))))
    end.
Proof.
  unfold put_answer, spec_put, told. intros Hp <- Hb Hm. rewrite Hm. destruct vs as [|v vs _] using rev_ind.
  - simpl in *. change (N.of_nat 0) with 0%N in *. revert Hp. destruct (decide (pa_Version a = 0%N)); simpl; intros Hp.
    + destruct Hp as [-> Hr]. rewrite lookup_insert_eq. simpl. naive_solver.
    + destruct Hp as [-> ->]. rewrite Hm. naive_solver.
  - rewrite last_snoc in *. simpl. revert Hp. destruct (decide (pa_Version a = N.of_nat (length (vs ++ [v])))) as [He|He]; simpl; intros Hp.
    + destruct Hp as [-> Hr]. rewrite decide_True by done. simpl. rewrite lookup_insert_eq. simpl. rewrite last_snoc.
      rewrite u64_inc_small by done. rewrite (length_app (vs ++ [v])). split_and!; [done|naive_solver|].
      do 2 f_equal. simpl. lia.
    + rewrite decide_False by done. destruct Hp as [-> Hr]. simpl. rewrite Hm, last_snoc.
      destruct (vs ++ [v]) eqn:Hv; [by destruct vs|]. naive_solver.
Qed.

Definition tanswer (me : Z) (w : ktw) (e : kt_eff) : kt_resp e -> ktw -> Prop :=
  match e with
  | KNow => fun r w' => r = kw_now w /\ w' = w
  | KGet k => fun r w' => r = get_answer (view (kw_execs w) k) /\
      w' = mkKtw (kw_execs w ++ [mkExec me (mkKvInput 0 k "" 0) (mkKvOutput r.1.1 r.1.2 r.2) (kw_now w) false]) (kw_now w) (kw_ops w)
  | KPut k v ver => fun r w' => exists eff, put_answer (view (kw_execs w) k) ver r eff /\
      w' = mkKtw (kw_execs w ++ [mkExec me (mkKvInput 1 k v ver) (mkKvOutput "" 0 r) (kw_now w) eff]) (kw_now w) (kw_ops w)
  | KLog op => fun _ w' => w' = mkKtw (kw_execs w) (kw_now w) (OpLog_Append op (kw_ops w))
  | KDone => fun _ w' => w' = w
  | KRand n => fun r w' => r < n /\ w' = w
  end.

(** What the clients of a test put: after [pre], client [cli] puts [value] at a version. *)
Context (G : list exec -> Z -> string -> string -> Tversion -> Prop).

Definition exec_ok (pre : list exec) (x : exec) : Prop :=
  (exists k, let r := get_answer (view pre k) in
     x_in x = mkKvInput 0 k "" 0 /\ x_out x = mkKvOutput r.1.1 r.1.2 r.2 /\ x_eff x = false) \/
  (exists k v ver r, x_in x = mkKvInput 1 k v ver /\ x_out x = mkKvOutput "" 0 r /\
     put_answer (view pre k) ver r (x_eff x) /\ G pre (x_cli x) k v ver).

Definition execs_ok (xs : list exec) : Prop := forall n x, xs !! n = Some x -> exec_ok (take n xs) x.

Record world_ok (w : ktw) : Prop := {
  wo_execs : execs_ok (kw_execs w);
  wo_order i j x y : kw_execs w !! i = Some x -> kw_execs w !! j = Some y -> i <= j -> (x_time x <= x_time y)%Z;
  wo_now i x : kw_execs w !! i = Some x -> (x_time x <= kw_now w)%Z;
}.

(** Only others did something. *)
Definition others (me : Z) (xs ys : list exec) : Prop := exists l, ys = xs ++ l /\ Forall (fun x => x_cli x <> me) l.

Definition tenv (me : Z) (w w' : ktw) : Prop :=
  (world_ok w -> world_ok w') /\ others me (kw_execs w) (kw_execs w') /\ (kw_now w <= kw_now w')%Z /\
  exists l, kw_ops w' = kw_ops w ++ l /\ Forall (fun o => op_ClientId o <> me) l.

Definition tallowed (me : Z) (w : ktw) (e : kt_eff) : Prop :=
  match e with
  | KPut k v ver => G (kw_execs w) me k v ver
  | KLog op => op_ClientId op = me
  | _ => True
  end.

Lemma others_refl me xs : others me xs xs.
Proof. exists []. by rewrite app_nil_r. Qed.

Lemma others_trans me xs ys zs : others me xs ys -> others me ys zs -> others me xs zs.
Proof. intros (l1 & -> & H1) (l2 & -> & H2). exists (l1 ++ l2). rewrite app_assoc. split; [done|]. by apply Forall_app. Qed.

Lemma tenv_refl me w : tenv me w w.
Proof. split_and!; [done|apply others_refl|lia|]. exists []. by rewrite app_nil_r. Qed.

Lemma tenv_trans me w1 w2 w3 : tenv me w1 w2 -> tenv me w2 w3 -> tenv me w1 w3.
Proof.
  intros (A1 & B1 & C1 & l1 & D1 & E1) (A2 & B2 & C2 & l2 & D2 & E2). split_and!; [auto|by eapply others_trans|lia|].
  exists (l1 ++ l2). rewrite D2, D1, app_assoc. split; [done|]. by apply Forall_app.
Qed.

Lemma tenv_rtc me w w' : rtc (tenv me) w w' -> tenv me w w'.
Proof. induction 1; [apply tenv_refl|by eapply tenv_trans]. Qed.

Lemma execs_ok_snoc xs x : execs_ok xs -> exec_ok xs x -> execs_ok (xs ++ [x]).
Proof.
  intros Hxs Hx n y [Hy|[-> ->]]%lookup_snoc_cases.
  - rewrite take_app_le by (apply lookup_lt_Some in Hy; lia). by apply Hxs.
  - by rewrite take_app_length.
Qed.

Lemma execs_ok_prefix xs ys : xs `prefix_of` ys -> execs_ok ys -> execs_ok xs.
Proof.
  intros [l ->] H n x Hn. pose proof (H n x (lookup_app_l_Some _ _ _ _ Hn)) as Hx.
  rewrite take_app_le in Hx by (apply lookup_lt_Some in Hn; lia). done.
Qed.

Lemma world_ok_exec w x : world_ok w -> exec_ok (kw_execs w) x -> x_time x = kw_now w ->
  world_ok (mkKtw (kw_execs w ++ [x]) (kw_now w) (kw_ops w)).
Proof.
  intros [H1 H2 H3] Hx Ht. constructor; simpl.
  - by apply execs_ok_snoc.
  - intros i j y z [Hi|[-> ->]]%lookup_snoc_cases [Hj|[-> ->]]%lookup_snoc_cases Hle; [by eapply H2| | |lia].
    + rewrite Ht. by eapply H3.
    + apply lookup_lt_Some in Hj. lia.
  - intros i y [Hi|[-> ->]]%lookup_snoc_cases; [by eapply H3|lia].
Qed.

Lemma tanswer_ok me w e r w' : world_ok w -> tallowed me w e -> tanswer me w e r w' -> world_ok w'.
Proof.
  intros Hw Ha. destruct e as [|k|k v ver|op| |n]; simpl; [by intros [_ ->]| | |intros ->|by intros ->|by intros [_ ->]].
  - intros [-> ->]. apply world_ok_exec; [done| |done]. left. by exists k.
  - intros (eff & Hp & ->). apply world_ok_exec; [done| |done]. right. by exists k, v, ver, r.
  - by destruct Hw.
Qed.

(** What a client does is a step of the environment of the others. *)
Lemma tanswer_env me me' w e r w' : me <> me' -> tallowed me w e -> tanswer me w e r w' -> tenv me' w w'.
Proof.
  intros Hne Ha H. split; [by intros; eapply tanswer_ok|].
  destruct e as [|k|k v ver|op| |n]; simpl in H; [destruct H as [_ ->]|destruct H as [_ ->]|destruct H as (eff & _ & ->)|subst w'|subst w'|destruct H as [_ ->]]; simpl.
  1,5,6: apply tenv_refl.
  - split_and!; [eexists; split; [done|by repeat constructor]|lia|]. exists []. by rewrite app_nil_r.
  - split_and!; [eexists; split; [done|by repeat constructor]|lia|]. exists []. by rewrite app_nil_r.
  - split_and!; [apply others_refl|lia|]. eexists. split; [done|]. repeat constructor. simpl in Ha. congruence.
Qed.

(** ** The log of a client *)

Definition op_of (x : exec) (o : operation) : Prop :=
  op_ClientId o = x_cli x /\ op_Input o = x_in x /\ op_Output o = x_out x /\ (op_Call o <= x_time x <= op_Return o)%Z.

Definition mine (me : Z) (xs : list exec) : list exec := filter (fun x => x_cli x = me) xs.

Definition mops (me : Z) (os : list operation) : list operation := filter (fun o => op_ClientId o = me) os.

Definition logged (me : Z) (w : ktw) : Prop := Forall2 op_of (mine me (kw_execs w)) (mops me (kw_ops w)).

Lemma mine_others me xs ys : others me xs ys -> mine me ys = mine me xs.
Proof.
  intros (l & -> & Hl). unfold mine. rewrite filter_app. by rewrite (filter_none _ l), app_nil_r.
Qed.

Lemma tenv_mops me w w' : tenv me w w' -> mops me (kw_ops w') = mops me (kw_ops w).
Proof.
  intros (_ & _ & _ & l & -> & Hl). unfold mops. rewrite filter_app. by rewrite (filter_none _ l), app_nil_r.
Qed.

Lemma logged_env me w w' : tenv me w w' -> logged me w -> logged me w'.
Proof. intros He. unfold logged. rewrite (tenv_mops _ _ _ He). destruct He as (_ & Ho & _). by rewrite (mine_others _ _ _ Ho). Qed.

Abbreviation tsafe me := (safe (tenv me) (tanswer me) (tallowed me)).

Lemma call_safe {B} me e (k : kt_resp e -> kt_prog B) Q w :
  (forall w1, tenv me w w1 -> tallowed me w1 e /\ forall r w2, tanswer me w1 e r w2 -> tsafe me (k r) Q w2) ->
  tsafe me (Call e k) Q w.
Proof. intros H w1 Hw%tenv_rtc. by apply H. Qed.

Lemma kret_safe {B} me (b : B) Q w : (forall w1, tenv me w w1 -> Q w1 b) -> tsafe me (Ret b) Q w.
Proof. intros H w1 Hw%tenv_rtc. by apply H. Qed.

(** What a call does between its execution and its return. *)
Lemma log_safe {B} me start w inp out eff (k : kt_prog B) Q :
  let x := mkExec me inp out (kw_now w) eff in
  world_ok w -> logged me w -> exec_ok (kw_execs w) x -> (start <= kw_now w)%Z ->
  (forall w1, world_ok w1 -> logged me w1 -> others me (kw_execs w ++ [x]) (kw_execs w1) -> tsafe me k Q w1) ->
  tsafe me (Call (KNow : kt_eff) (fun end_ : Z => Call (KLog (mkOperation me inp start out end_)) (fun _ : unit => k))) Q
    (mkKtw (kw_execs w ++ [x]) (kw_now w) (kw_ops w)).
Proof.
  intros x Hw Hl Hx Hs Hk. apply call_safe. intros w1 H1. split; [done|]. intros t w1' [-> ->].
  apply call_safe. intros w2 H2. split; [done|]. intros [] w3 ->.
  pose proof (tenv_trans _ _ _ _ H1 H2) as (Hok & Ho & _ & _). apply Hk; simpl; [| |done].
  - destruct Hok; [by apply world_ok_exec|]. done.
  - unfold logged. simpl. rewrite (mine_others _ _ _ Ho). unfold mine, OpLog_Append, mops. simpl. rewrite !filter_app.
    fold (mops me (kw_ops w2)). rewrite (tenv_mops _ _ _ H2), (tenv_mops _ _ _ H1). simpl.
    apply Forall2_app; [done|]. rewrite !filter_cons_True by done. repeat constructor; simpl; [done|].
    destruct H1 as (_ & _ & Hn & _). simpl in Hn. lia.
Qed.

(** A read: what it saw, and that the client did nothing else. *)
Lemma get_safe {B} me key (f : string * Tversion * Err -> kt_prog B) Q w :
  world_ok w -> logged me w ->
  (forall w1 pre x, world_ok w1 -> logged me w1 -> others me (kw_execs w) pre -> x_eff x = false ->
     others me (pre ++ [x]) (kw_execs w1) -> tsafe me (f (get_answer (view pre key))) Q w1) ->
  tsafe me (prog_bind f (kvtest_Get key me)) Q w.
Proof.
  intros Hw Hl Hf. apply call_safe. intros w1 H1. split; [done|]. intros start w1' [-> ->].
  apply call_safe. intros w2 H2. split; [done|]. intros r w2' [-> ->].
  pose proof (tenv_trans _ _ _ _ H1 H2) as H12. pose proof H12 as (Hok & Ho & _ & _).
  apply log_safe; [by apply Hok|by eapply logged_env| |apply H2|].
  - left. by exists key.
  - intros w3 Hw3 Hl3 Ho3. by eapply (Hf w3 (kw_execs w2) (mkExec _ _ _ _ false)).
Qed.

(** A put. *)
Lemma put_safe {B} me key value ver (f : Err -> kt_prog B) Q w :
  world_ok w -> logged me w ->
  (forall pre, others me (kw_execs w) pre -> execs_ok pre -> G pre me key value ver) ->
  (forall w1 pre x r, world_ok w1 -> logged me w1 -> others me (kw_execs w) pre -> put_answer (view pre key) ver r (x_eff x) ->
     x_in x = mkKvInput 1 key value ver -> x_cli x = me -> others me (pre ++ [x]) (kw_execs w1) -> tsafe me (f r) Q w1) ->
  tsafe me (prog_bind f (kvtest_Put key value ver me)) Q w.
Proof.
  intros Hw Hl HG Hf. apply call_safe. intros w1 H1. split; [done|]. intros start w1' [-> ->].
  apply call_safe. intros w2 H2. pose proof (tenv_trans _ _ _ _ H1 H2) as H12. pose proof H12 as (Hok & Ho & _ & _).
  specialize (Hok Hw). split; [apply HG; [done|apply Hok]|]. intros r w2' (eff & Hp & ->).
  apply log_safe; [done|by eapply logged_env| |apply H2|].
  - right. exists key, value, ver, r. simpl. split_and!; [done|done|done|]. apply HG; [done|apply Hok].
  - intros w3 Hw3 Hl3 Ho3. by eapply (Hf w3 (kw_execs w2) (mkExec me (mkKvInput 1 key value ver) _ _ eff)).
Qed.

(** ** Many clients *)

Record kts (A : Type) : Type := mkKts { ks_w : ktw; ks_cl : gmap Z (kt_prog A) }.
Arguments mkKts {A}.
Arguments ks_w {A}.
Arguments ks_cl {A}.

(** Time passes, or a client goes on. *)
Inductive kts_step {A} (s : kts A) : kts A -> Prop :=
  | KS_tick d : (0 <= d)%Z -> kts_step s (mkKts (mkKtw (kw_execs (ks_w s)) (kw_now (ks_w s) + d) (kw_ops (ks_w s))) (ks_cl s))
  | KS_call me e k r w' : ks_cl s !! me = Some (Call e k) -> tanswer me (ks_w s) e r w' -> kts_step s (mkKts w' (<[me := k r]> (ks_cl s))).

Definition sys_safe {A} (Q : Z -> ktw -> A -> Prop) (s : kts A) : Prop :=
  world_ok (ks_w s) /\ forall me p, ks_cl s !! me = Some p -> tsafe me p (Q me) (ks_w s).

Lemma sys_step {A} (Q : Z -> ktw -> A -> Prop) s s' : sys_safe Q s -> kts_step s s' -> sys_safe Q s'.
Proof.
  intros [Hw Hs] [d Hd|me e k r w' Hme Ha]; simpl.
  - assert (forall me, tenv me (ks_w s) (mkKtw (kw_execs (ks_w s)) (kw_now (ks_w s) + d) (kw_ops (ks_w s)))) as He.
    { intros me. split_and!; [|apply others_refl|simpl; lia|exists []; by rewrite app_nil_r].
      intros [H1 H2 H3]. constructor; simpl; [done|done|]. intros i x Hi. pose proof (H3 i x Hi). lia. }
    split; [by apply (He 0%Z)|]. intros me p Hp. eapply safe_env; [apply He|by apply Hs].
  - destruct (Hs _ _ Hme (ks_w s)) as [Hal Hk]; [apply rtc_refl|]. split; [by eapply tanswer_ok|].
    simpl. intros me' p [[<- <-]|[Hne Hp]]%lookup_insert_Some; [by apply Hk|].
    eapply safe_env; [by eapply tanswer_env|by apply Hs].
Qed.

Lemma sys_run {A} (Q : Z -> ktw -> A -> Prop) s s' : sys_safe Q s -> rtc kts_step s s' -> sys_safe Q s'.
Proof. intros H Hr. by eapply (invariant_rtc kts_step (sys_safe Q)); [apply sys_step|exact Hr|]. Qed.

Lemma sys_no_panic {A} (Q : Z -> ktw -> A -> Prop) s me : sys_safe Q s -> ks_cl s !! me <> Some Panic.
Proof. intros [_ H] Hp. by apply H in Hp. Qed.

Lemma sys_ret {A} (Q : Z -> ktw -> A -> Prop) s me a : sys_safe Q s -> ks_cl s !! me = Some (Ret a) -> Q me (ks_w s) a.
Proof. intros [_ H] Hp. apply H in Hp. apply Hp, rtc_refl. Qed.

Lemma spawn_lookup {A} n (fn : Z -> kt_prog A) me p : SpawnClients n fn !! me = Some p <-> (0 <= me < Z.of_nat n)%Z /\ p = fn me.
Proof.
  unfold SpawnClients. rewrite <- elem_of_list_to_map.
  - rewrite list_elem_of_fmap. setoid_rewrite elem_of_seqZ. split; [intros (y & [= -> ->] & ?); split; [lia|done]|].
    intros [? ->]. exists me. split; [done|lia].
  - rewrite <- list_fmap_compose. simpl. rewrite list_fmap_id. apply NoDup_seqZ.
Qed.

(** Those who are no clients do nothing. *)
Definition only {A} (w0 : ktw) (s : kts A) : Prop :=
  (forall me, ks_cl s !! me = None -> tenv me w0 (ks_w s)) /\
  exists l, kw_execs (ks_w s) = kw_execs w0 ++ l /\ Forall (fun x => is_Some (ks_cl s !! x_cli x)) l.

Lemma spawn_only {A} n (fn : Z -> kt_prog A) w0 : only w0 (mkKts w0 (SpawnClients n fn)).
Proof. split; [intros; apply tenv_refl|]. exists []. by rewrite app_nil_r. Qed.

Lemma only_step {A} (Q : Z -> ktw -> A -> Prop) w0 s s' : sys_safe Q s -> only w0 s -> kts_step s s' -> only w0 s'.
Proof.
  intros HS [He (l & Hl & HF)] Hst. pose proof (sys_step Q _ _ HS Hst) as HS'. destruct Hst as [d Hd|me e k r w' Hme Ha]; simpl in *.
  - split; [|by exists l]. intros me Hn. eapply tenv_trans; [by apply He|].
    split_and!; [intros _; apply HS'|apply others_refl|simpl; lia|exists []; by rewrite app_nil_r].
  - destruct HS as [Hw HS]. destruct (HS _ _ Hme (ks_w s)) as [Hal _]; [apply rtc_refl|]. split.
    + intros me' Hn. simpl in Hn. apply lookup_insert_None in Hn as [Hn Hne]. eapply tenv_trans; [by apply He|]. by eapply tanswer_env.
    + assert (forall l', Forall (fun x => is_Some (ks_cl s !! x_cli x)) l' -> Forall (fun x => is_Some (<[me := k r]> (ks_cl s) !! x_cli x)) l') as Hmono.
      { intros l' HF'. eapply Forall_impl; [exact HF'|]. simpl. intros x Hx. apply lookup_insert_is_Some'. by right. }
      assert (forall x, x_cli x = me -> kw_execs (ks_w s) ++ [x] = kw_execs w0 ++ (l ++ [x]) /\
        Forall (fun x => is_Some (<[me := k r]> (ks_cl s) !! x_cli x)) (l ++ [x])) as Hadd.
      { intros x <-. rewrite Hl, app_assoc. split; [done|]. apply Forall_app. split; [by apply Hmono|].
        repeat constructor. rewrite lookup_insert_eq. by eexists. }
      destruct e; simpl in Ha; [destruct Ha as [_ ->]|destruct Ha as [_ ->]|destruct Ha as (? & _ & ->)|subst w'|subst w'|destruct Ha as [_ ->]]; simpl.
      2,3: by eexists; apply Hadd.
      all: exists l; auto.
Qed.

Lemma only_run {A} (Q : Z -> ktw -> A -> Prop) w0 s s' : sys_safe Q s -> only w0 s -> rtc kts_step s s' -> only w0 s'.
Proof.
  intros HS Ho Hr. revert HS Ho. induction Hr as [|s s1 s2 Hst _ IH]; intros HS Ho; [done|].
  apply IH; [by eapply sys_step|by eapply only_step].
Qed.

Lemma dom_step {A} (s s' : kts A) : kts_step s s' -> forall me, is_Some (ks_cl s' !! me) <-> is_Some (ks_cl s !! me).
Proof.
  intros [d Hd|me e k r w' Hme Ha] me'; simpl; [done|]. rewrite lookup_insert_is_Some'. split; [|by right].
  intros [<-|?]; [by eexists|done].
Qed.

Lemma dom_run {A} (s s' : kts A) : rtc kts_step s s' -> forall me, is_Some (ks_cl s' !! me) <-> is_Some (ks_cl s !! me).
Proof. induction 1 as [|s s1 s2 Hst _ IH]; intros me; [done|]. by rewrite IH, (dom_step _ _ Hst). Qed.

(** ** The history of the calls *)

Abbreviation on k := (fun o : operation => ki_Key (op_Input o) = k).

(** What [porcupine.CheckOperations] decides on [KvModel]: the operations of each key
    have an order the model accepts, in which none comes after one that was called when
    it had returned. *)
Definition linearizable_ops (ops : list operation) : Prop :=
  forall k, exists order, Permutation order (filter (on k) ops) /\
    KvModel_accepts KvModel_Init ((fun o => (op_Input o, op_Output o)) <$> order) = true /\
    forall i j a b, order !! i = Some a -> order !! j = Some b -> i < j -> ~ (op_Return b < op_Call a)%Z.

Lemma glue (xs : list exec) : forall os, (forall me, Forall2 op_of (mine me xs) (mops me os)) ->
  exists order, Permutation order os /\ Forall2 op_of xs order.
Proof.
  induction xs as [|x xs IH]; intros os H.
  - exists []. split; [|done]. destruct os as [|o os]; [done|]. specialize (H (op_ClientId o)). unfold mops in H.
    rewrite filter_cons_True in H by done. inversion H.
  - pose proof (H (x_cli x)) as Hx. unfold mine in Hx. rewrite filter_cons_True in Hx by done.
    apply Forall2_cons_inv_l in Hx as (o & rest & Ho & Hrest & Hos).
    assert (o ∈ os /\ op_ClientId o = x_cli x) as [Hin Hc].
    { assert (o ∈ mops (x_cli x) os) as Hin by (rewrite Hos; left). by apply list_elem_of_filter in Hin as []. }
    assert (exists os1 os2, os = os1 ++ o :: os2 /\ mops (x_cli x) os1 = []) as (os1 & os2 & -> & Hn).
    { clear -Hos. revert Hos. induction os as [|o' os IHo]; [done|]. unfold mops. rewrite filter_cons. case_decide as Hd.
      - intros [= -> _]. by exists [], os.
      - intros Hf. destruct (IHo Hf) as (os1 & os2 & -> & Hn). exists (o' :: os1), os2. split; [done|].
        unfold mops. by rewrite filter_cons_False. }
    unfold mops in Hos. rewrite filter_app in Hos. fold (mops (x_cli x) os1) in Hos. rewrite Hn in Hos. simpl in Hos.
    rewrite filter_cons_True in Hos by done. injection Hos as Hos.
    destruct (IH (os1 ++ os2)) as (order & Hp & HF).
    + intros me. specialize (H me). unfold mine, mops in *. rewrite filter_app in *. rewrite !filter_cons in H.
      destruct (decide (me = x_cli x)) as [->|Hne].
      * unfold mops in Hn. rewrite Hn, Hos. done.
      * by rewrite !decide_False in H by congruence.
    + exists (o :: order). split; [|by constructor]. rewrite Hp. by apply Permutation_middle.
Qed.

Definition state_of (vs : list string) : KvState := mkKvState (default "" (last vs)) (N.of_nat (length vs)).

Lemma view_snoc xs x k :
  view (xs ++ [x]) k = view xs k ++ (if effective k x then [ki_Value (x_in x)] else []).
Proof. unfold view. rewrite filter_app, fmap_app, filter_cons. case_decide; simpl; by destruct (effective k x). Qed.

Lemma view_length xs k : length (view xs k) <= length xs.
Proof. unfold view. rewrite length_fmap. apply length_filter. Qed.

(** ** Values *)

Lemma view_others me xs ys k : others me xs ys -> view xs k `prefix_of` view ys k.
Proof. intros (l & -> & _). unfold view. rewrite filter_app, fmap_app. by eexists. Qed.

Lemma view_nonempty me xs ys k : others me xs ys -> view xs k <> [] -> view ys k <> [].
Proof. intros [l Hl]%(view_others _ _ _ k) Hne He. rewrite He in Hl. by destruct (view xs k). Qed.

(** Every value was put. *)
Lemma view_value xs k j v : execs_ok xs -> view xs k !! j = Some v ->
  exists n x ver, xs !! n = Some x /\ x_in x = mkKvInput 1 k v ver /\ view (take n xs) k = take j (view xs k) /\
    ver = N.of_nat j /\ G (take n xs) (x_cli x) k v ver.
Proof.
  revert j v. induction xs as [|x xs IH] using rev_ind; intros j v Hok Hj; [done|]. rewrite view_snoc in Hj.
  assert (execs_ok xs) as Hok' by (eapply execs_ok_prefix; [|exact Hok]; by eexists).
  apply lookup_app_Some in Hj as [Hj|[Hlen Hj]].
  - destruct (IH _ _ Hok' Hj) as (n & y & ver & Hn & Hy & Hv & Hver & HGy). exists n, y, ver.
    apply lookup_lt_Some in Hj. assert (n < length xs) as Hlt by by eapply lookup_lt_Some.
    rewrite take_app_le by lia. split_and!; [by apply lookup_app_l_Some|done| |done|done]. rewrite view_snoc, take_app_le by lia. done.
  - destruct (effective k x) eqn:He; [|done]. destruct (j - length (view xs k)) as [|m] eqn:Hm; [|done]. simpl in Hj. injection Hj as Hj.
    assert (j = length (view xs k)) as -> by lia. unfold effective in He. apply andb_prop in He as [He Hk].
    apply bool_decide_eq_true in Hk. pose proof (Hok (length xs) x) as Hx. rewrite take_app_length in Hx.
    destruct Hx as [(k' & _ & _ & Hf)|(k' & v' & ver & r & Hin & Hout & Hp & HGx)]; [by rewrite lookup_app_r, Nat.sub_diag by lia|congruence|].
    rewrite Hin in Hk, Hj. simpl in Hk, Hj. subst k' v'. exists (length xs), x, ver.
    rewrite take_app_length. split_and!; [by rewrite lookup_app_r, Nat.sub_diag by lia|done| | |done].
    + by rewrite view_snoc, take_app_length.
    + unfold put_answer in Hp. rewrite He in Hp. case_decide; [done|]. by destruct Hp.
Qed.

Lemma getjson_safe {A} `{Json A} {B} me key (f : A * Tversion -> kt_prog B) Q w :
  world_ok w -> logged me w -> view (kw_execs w) key <> [] ->
  (forall pre v, execs_ok pre -> last (view pre key) = Some v -> is_Some (json_Unmarshal (A := A) v)) ->
  (forall w1 pre x v a, world_ok w1 -> logged me w1 -> others me (kw_execs w) pre -> x_eff x = false ->
     others me (pre ++ [x]) (kw_execs w1) -> last (view pre key) = Some v -> json_Unmarshal v = Some a ->
     tsafe me (f (a, N.of_nat (length (view pre key)))) Q w1) ->
  tsafe me (prog_bind f (GetJson key me)) Q w.
Proof.
  intros Hw Hl Hne Hv Hf.
  change (tsafe me (prog_bind (fun r => prog_bind f (let '(val, ver, err) := r in
    if decide (err = OK) then match json_Unmarshal val with Some v => Ret (v, ver) | None => Panic end else Panic)) (kvtest_Get key me)) Q w).
  apply get_safe; [done|done|]. intros w1 pre x Hw1 Hl1 Ho Hx Ho1. unfold get_answer.
  pose proof (view_nonempty _ _ _ _ Ho Hne) as Hne1. destruct (last (view pre key)) as [v|] eqn:Hlast; [|by apply last_None in Hlast].
  rewrite decide_True by done. destruct (Hv pre v) as [a Ha]; [|done|].
  { eapply execs_ok_prefix; [|apply Hw1]. destruct Ho1 as (l & -> & _). exists ([x] ++ l). by rewrite app_assoc. }
  rewrite Ha. simpl. by eapply Hf.
Qed.

Context (HG0 : forall pre cli k v ver, G pre cli k v ver -> ver <> 0%N -> view pre k <> []).

(** The model accepts the executions of a key. *)
Lemma execs_accepted k post : forall pre, execs_ok (pre ++ post) -> (N.of_nat (length (pre ++ post)) < two64)%N ->
  KvModel_accepts (state_of (view pre k)) ((fun x => (x_in x, x_out x)) <$> filter (fun x => ki_Key (x_in x) = k) post) = true.
Proof using HG0.
  induction post as [|x post IH]; intros pre Hok Hb; [done|].
  assert (exec_ok pre x) as Hx.
  { specialize (Hok (length pre) x). rewrite take_app_length in Hok. apply Hok. by rewrite lookup_app_r, Nat.sub_diag by lia. }
  specialize (IH (pre ++ [x])). rewrite <- app_assoc in IH. specialize (IH Hok Hb). rewrite view_snoc in IH.
  rewrite filter_cons. case_decide as Hk; [|unfold effective in IH; rewrite bool_decide_false, andb_false_r, app_nil_r in IH by done; exact IH].
  csimpl. destruct Hx as [(k' & Hin & Hout & Heff)|(k' & v & ver & r & Hin & Hout & Hp & HGx)].
  - rewrite Hin, Hout. rewrite Hin in Hk. simpl in Hk. subst k'. unfold effective in IH. rewrite Heff in IH. simpl in IH.
    rewrite app_nil_r in IH. unfold KvModel_Step. simpl. rewrite bool_decide_true; [exact IH|].
    unfold get_answer. by destruct (last (view pre k)).
  - rewrite Hin, Hout. rewrite Hin in Hk. simpl in Hk. subst k'. unfold effective in IH. rewrite Hin in IH. simpl in IH.
    rewrite (bool_decide_true (k = k)) in IH by done. rewrite andb_true_r in IH. unfold KvModel_Step. simpl.
    unfold put_answer, told in Hp. case_decide as Hv.
    + destruct Hp as [He Hr]. rewrite He in IH. rewrite decide_True by done. rewrite u64_inc_small.
      2: { pose proof (view_length pre k). rewrite length_app in Hb. simpl in Hb. lia. }
      assert (bool_decide (r = OK) || bool_decide (r = ErrMaybe) = true) as ->.
      { destruct Hr as [->|[-> _]]; [by rewrite bool_decide_true|by rewrite orb_comm, bool_decide_true]. }
      unfold state_of in IH. rewrite last_snoc, length_app in IH. simpl in IH.
      replace (N.of_nat (length (view pre k)) + 1)%N with (N.of_nat (length (view pre k) + 1)) by lia. exact IH.
    + destruct Hp as [He Hr]. rewrite He, app_nil_r in IH. rewrite decide_False by done.
      assert (r <> ErrNoKey) as Hnk.
      { intros ->. destruct (view pre k) eqn:Hvw; [|by destruct Hr as [?|[? ?]]]. apply (HG0 _ _ _ _ _ HGx); [done|done]. }
      assert (bool_decide (r = ErrVersion) || bool_decide (r = ErrMaybe) = true) as ->; [|exact IH].
      destruct (view pre k); [done|]. destruct Hr as [->|[-> _]]; [by rewrite bool_decide_true|by rewrite orb_comm, bool_decide_true].
Qed.

(** When every client has logged what it did, the log is linearizable. *)
Lemma logged_linearizable w : world_ok w -> (forall me, logged me w) -> (N.of_nat (length (kw_execs w)) < two64)%N ->
  linearizable_ops (kw_ops w).
Proof using HG0.
  intros [Hok Hord _] Hl Hb k. destruct (glue (kw_execs w) (kw_ops w) Hl) as (order & Hp & HF).
  exists (filter (on k) order). split; [by rewrite Hp|].
  assert (Forall2 op_of (filter (fun x => ki_Key (x_in x) = k) (kw_execs w)) (filter (on k) order)) as HFk.
  { clear -HF. induction HF as [|x o xs os Hxo _ IH]; [done|]. rewrite !filter_cons.
    destruct Hxo as (H1 & H2 & H3). rewrite H2. case_decide; [by constructor|done]. }
  split.
  - pose proof (execs_accepted k (kw_execs w) [] Hok Hb) as Ha. simpl in Ha. rewrite <- Ha. f_equal.
    clear -HFk. induction HFk as [|x o xs os (_ & Hin & Hout & _) _ IH]; csimpl; congruence.
  - intros i j a b Hi Hj Hij Hlt.
    destruct (Forall2_lookup_r _ _ _ _ _ HFk Hi) as (x & Hx & _ & _ & _ & Ha).
    destruct (Forall2_lookup_r _ _ _ _ _ HFk Hj) as (y & Hy & _ & _ & _ & Hb').
    assert (x_time x <= x_time y)%Z; [|lia]. eapply (filter_order _ (fun x y : exec => (x_time x <= x_time y)%Z)); [exact Hord|exact Hx|exact Hy|done].
Qed.

End world.

Arguments mkKts {A}.
Arguments ks_w {A}.
Arguments ks_cl {A}.
