(* ===== verification/KvTestPuts.v ===== *)
(** * The tests with many putting clients pass

    The proofs about [OneClientPut] and [CheckPutConcurrent], and about the tests of one
    client on keys of its own. *)

From S2P Require Import Prelude.
From S2P Require Import GoLib.
From S2P Require Import Rpc.
From S2P Require Import KvSpec.
From S2P Require Import KvSrv.
From S2P Require Import Prog.
From S2P Require Import KvTest.
From S2P Require Import KvTestSafe.

(** ** Clients that put to shared keys *)

Section puts.
Context (maybe : bool) (ka : list string) `{JO : JsonOk EntryV}.

(** A client puts its number and the version, at 0 or at a version it read. *)
Definition putG (pre : list exec) (cli : Z) (k v : string) (ver : Tversion) : Prop :=
  k ∈ ka /\ json_Unmarshal v = Some (mkEntryV cli ver) /\ (ver <> 0%N -> view pre k <> []).

Abbreviation psafe me := (safe (tenv maybe putG me) (tanswer maybe me) (tallowed putG me)).

(** The puts of a client that took effect. *)
Definition nput (me : Z) (xs : list exec) : nat := length (filter (fun x => x_eff x = true) (mine me xs)).

Lemma nput_others me xs ys : others me xs ys -> nput me ys = nput me xs.
Proof. intros H'. unfold nput. by rewrite (mine_others _ _ _ H'). Qed.

Lemma nput_snoc me xs x : x_cli x = me -> nput me (xs ++ [x]) = nput me xs + if x_eff x then 1 else 0.
Proof.
  intros Hx. unfold nput, mine. rewrite filter_app, filter_cons_True by done. rewrite filter_app, length_app, filter_cons.
  destruct (x_eff x); case_decide; done.
Qed.

Lemma nput_read me xs ys x pre : others me xs pre -> x_eff x = false -> others me (pre ++ [x]) ys -> nput me ys = nput me xs.
Proof.
  intros H1 Hx H2. rewrite (nput_others _ _ _ H2), <- (nput_others _ _ _ H1). unfold nput, mine.
  rewrite filter_app, filter_app, length_app. rewrite filter_cons. case_decide; [|simpl; lia].
  rewrite filter_cons_False by congruence. simpl. lia.
Qed.

Lemma others_snoc_nonempty me xs ys x pre k : others me xs pre -> others me (pre ++ [x]) ys -> view xs k <> [] -> view ys k <> [].
Proof.
  intros H1 H2 Hne. eapply view_nonempty; [exact H2|]. rewrite view_snoc. pose proof (view_nonempty _ _ _ _ H1 Hne).
  by destruct (view pre k).
Qed.

Lemma put_answer_eff vs ver r eff : put_answer maybe vs ver r eff ->
  (r = OK -> eff = true) /\ (r = ErrVersion -> eff = false) /\ (r = ErrMaybe -> maybe = true).
Proof. unfold put_answer, told. case_decide; [naive_solver|]. destruct vs; naive_solver. Qed.

Lemma put_ok_view pre key ver x v : put_answer maybe (view pre key) ver OK (x_eff x) -> x_in x = mkKvInput 1 key v ver ->
  ver = N.of_nat (length (view pre key)) /\ view (pre ++ [x]) key = view pre key ++ [v].
Proof.
  intros Hp Hin. rewrite view_snoc. unfold put_answer, told in Hp. unfold effective. rewrite Hin. case_decide as Hv.
  - destruct Hp as [-> _]. simpl. by rewrite bool_decide_true.
  - destruct Hp as [_ Hr]. destruct (view pre key); naive_solver.
Qed.

Record onput_post (me : Z) (key : string) (xs0 : list exec) (w : ktw) (ok : bool) : Prop := {
  op_world : world_ok maybe putG w;
  op_logged : logged me w;
  op_key : view (kw_execs w) key <> [];
  op_keys k : view xs0 k <> [] -> view (kw_execs w) k <> [];
  op_count : if ok then nput me (kw_execs w) = S (nput me xs0)
             else maybe = true /\ nput me xs0 <= nput me (kw_execs w) <= S (nput me xs0);
}.

Lemma OnePut_safe fuel me key : key ∈ ka -> forall ver w,
  world_ok maybe putG w -> logged me w -> (ver <> 0%N -> view (kw_execs w) key <> []) ->
  psafe me (OnePut fuel me key ver) (fun w1 r => onput_post me key (kw_execs w) w1 r.2) w.
Proof using JO.
  intros Hka. induction fuel as [|fuel IH]; intros ver w Hw Hl Hver; [done|]. cbn [OnePut]. unfold PutJson.
  destruct (json_Marshal_ok (mkEntryV me ver)) as [b Hb]. rewrite Hb. apply json_Unmarshal_ok in Hb.
  apply put_safe; [done|done| |].
  { intros pre Ho Hok. split_and!; [done|done|]. intros Hv. eapply view_nonempty; [exact Ho|auto]. }
  intros w1 pre x r Hw1 Hl1 Ho Hp Hin Hcli Ho1.
  assert (view (pre ++ [x]) key <> []) as Hne.
  { rewrite view_snoc. unfold put_answer in Hp. case_decide as Hv.
    - destruct Hp as [He _]. unfold effective. rewrite He, Hin. simpl. rewrite bool_decide_true by done. by destruct (view pre key).
    - assert (view pre key <> []); [|by destruct (view pre key)]. intros Hvw. rewrite Hvw in Hv. simpl in Hv.
      apply (view_nonempty _ _ _ key Ho); [apply Hver; lia|done]. }
  assert (r <> ErrNoKey) as Hnk.
  { intros ->. unfold put_answer, told in Hp. case_decide as Hv; [by destruct Hp as [_ [?|[? ?]]]|]. destruct Hp as [He Hr].
    rewrite view_snoc in Hne. unfold effective in Hne. rewrite He in Hne. simpl in Hne. rewrite app_nil_r in Hne.
    destruct (view pre key); [done|]. by destruct Hr as [?|[? ?]]. }
  assert (r = OK \/ r = ErrVersion \/ r = ErrMaybe) as Hr.
  { unfold put_answer, told in Hp. case_decide; [naive_solver|]. destruct (view pre key); naive_solver. }
  rewrite decide_False by tauto.
  pose proof (nput_others _ _ _ Ho1) as Hn1. rewrite nput_snoc, (nput_others _ _ _ Ho) in Hn1 by done.
  assert (view (kw_execs w1) key <> []) as Hne1 by by eapply view_nonempty.
  apply getjson_safe; [done|done|done| |].
  { intros pre' v Hok Hlast. rewrite last_lookup in Hlast.
    destruct (view_value _ _ _ _ _ _ Hok Hlast) as (n & y & ver' & _ & _ & _ & _ & _ & Hj & _). by eexists. }
  intros w2 pre2 x2 v e Hw2 Hl2 Ho2 Hx2 Ho3 Hlast Hdec.
  pose proof (nput_read _ _ _ _ _ Ho2 Hx2 Ho3) as Hn2. rewrite Hn1 in Hn2.
  pose proof (others_snoc_nonempty _ _ _ _ _ _ Ho2 Ho3 Hne1) as Hne2.
  rewrite decide_False.
  2: { intros [[-> Hver2] [Hid _]]. apply Hid.
    destruct (put_ok_view _ _ _ _ _ Hp Hin) as [Hlen Hvx].
    assert (view pre2 key = view (pre ++ [x]) key) as Hv2.
    { destruct (view_others _ _ _ key Ho1) as [l1 Hl1']. destruct (view_others _ _ _ key Ho2) as [l2 Hl2'].
      rewrite Hl1', Hvx in Hl2'. rewrite Hvx. destruct (decide (ver + 1 < two64)%N) as [Hs|Hs].
      - rewrite u64_inc_small in Hver2 by done. rewrite Hl2' in Hver2 |- *. rewrite !length_app in Hver2. simpl in Hver2.
        destruct l1; [|simpl in Hver2; lia]. destruct l2; [|simpl in Hver2; lia]. by rewrite !app_nil_r.
      - pose proof (u64_inc_bound ver). rewrite Hl2', !length_app in Hver2. simpl in Hver2. lia. }
    rewrite Hv2, Hvx, last_snoc in Hlast. by simplify_eq. }
  assert (forall k, view (kw_execs w) k <> [] -> view (kw_execs w2) k <> []) as Hkeys.
  { intros k Hk. eapply others_snoc_nonempty; [exact Ho2|exact Ho3|]. by eapply others_snoc_nonempty; [exact Ho|exact Ho1|]. }
  destruct (put_answer_eff _ _ _ _ Hp) as (HeOK & HeV & HeM). simpl.
  case_decide as Hok.
  - apply kret_safe. intros w3 H3. pose proof H3 as (Hok3 & Ho4 & _).
    constructor; [by apply Hok3|by eapply logged_env|by eapply view_nonempty| |].
    { intros k Hk%Hkeys. by eapply view_nonempty. } simpl. rewrite (nput_others _ _ _ Ho4), Hn2.
    case_bool_decide as HrOK; [rewrite HeOK by done; lia|]. destruct Hok as [?|Hm]; [done|]. split; [auto|]. destruct (x_eff x); lia.
  - assert (r = ErrVersion) as -> by tauto. rewrite HeV in Hn2 by done. rewrite Nat.add_0_r in Hn2.
    eapply safe_mono; [|by apply IH]. intros w3 r [P1 P2 P3 P4 P5]. constructor; auto. by rewrite Hn2 in P5.
Qed.

(** What a client reports about its puts, the first [n0] of which are older. *)
Definition reported (n0 : nat) (me : Z) (w : ktw) (res : ClntRes) : Prop :=
  let n := (Z.of_nat (nput me (kw_execs w)) - Z.of_nat n0)%Z in
  (0 <= Nok res <= n)%Z /\ (0 <= Nmaybe res)%Z /\ (n <= Nok res + Nmaybe res)%Z /\ (maybe = false -> Nmaybe res = 0%Z).

Definition client_post (n0 : Z -> nat) (me : Z) (w : ktw) (res : ClntRes) : Prop :=
  world_ok maybe putG w /\ logged me w /\ reported (n0 me) me w res.

Lemma OneClientPut_safe rk inner me n0 fuel : ka <> [] -> forall verm res w,
  world_ok maybe putG w -> logged me w -> reported (n0 me) me w res ->
  (forall k, k ∈ ka -> default 0%N (verm !! k) <> 0%N -> view (kw_execs w) k <> []) ->
  psafe me (OneClientPut rk inner fuel me ka verm res) (client_post n0 me) w.
Proof using JO.
  intros Hka. induction fuel as [|fuel IH]; intros verm res w Hw Hl Hr Hv; [done|]. cbn [OneClientPut].
  apply call_safe. intros w1 H1. split; [done|]. intros d w1' ->. pose proof H1 as (Hw1 & Ho1 & _). specialize (Hw1 Hw).
  assert (forall w2, tenv maybe putG me w1 w2 -> client_post n0 me w2 res) as Hstay.
  { intros w2 H2. pose proof (tenv_trans _ _ _ _ _ _ H1 H2) as H12. pose proof H12 as (Hw2 & Ho2 & _).
    split_and!; [by apply Hw2|by eapply logged_env|]. unfold reported. by rewrite (nput_others _ _ _ Ho2). }
  destruct d; [by apply kret_safe|].
  assert (forall i w2, tenv maybe putG me w1 w2 -> i < length ka -> psafe me
    (match ka !! i with
     | None => Panic
     | Some k => do r <- OnePut inner me k (default 0%N (verm !! k));
         OneClientPut rk inner fuel me ka (<[k := r.1]> verm)
           (if r.2 : bool then mkClntRes (Nok res + 1) (Nmaybe res) else mkClntRes (Nok res) (Nmaybe res + 1)) end)
    (client_post n0 me) w2) as Hput.
  { intros i w2 H2 Hi. destruct (lookup_lt_is_Some_2 _ _ Hi) as [k Hk]. rewrite Hk.
    assert (k ∈ ka) as Hkin by by eapply list_elem_of_lookup_2. destruct (Hstay w2 H2) as (Hw2 & Hl2 & Hr2).
    pose proof (tenv_trans _ _ _ _ _ _ H1 H2) as (_ & Ho2 & _).
    eapply safe_bind; [apply OnePut_safe; [done|done|done|]|].
    { intros Hne. eapply view_nonempty; [exact Ho2|]. by apply Hv. }
    intros w3 [ver ok] [Hw3 Hl3 Hk3 Hks Hc]. cbn [fst snd] in *. apply IH; [done|done| |].
    - unfold reported in *. destruct Hr2 as (? & ? & ? & ?). destruct ok; simpl; [rewrite Hc; split_and!; [lia..|done]|].
      destruct Hc as [-> Hc]. split_and!; [lia..|done].
    - intros k' Hk' Hne. destruct (decide (k = k')) as [<-|Hkk]; [done|]. rewrite lookup_insert_ne in Hne by done.
      apply Hks. eapply view_nonempty; [exact Ho2|]. by apply Hv. }
  destruct rk.
  - apply call_safe. intros w2 H2. split; [done|]. intros i w2' [Hi ->]. by apply Hput.
  - apply Hput; [apply tenv_refl|]. destruct ka; [done|]. simpl. lia.
Qed.

(** ** Counting *)

Definition total (xs : list exec) : nat := length (filter (fun x => x_eff x = true) xs).

Lemma total_app xs ys : total (xs ++ ys) = total xs + total ys.
Proof. unfold total. by rewrite filter_app, length_app. Qed.

Lemma nput_app me xs ys : nput me (xs ++ ys) = nput me xs + nput me ys.
Proof. unfold nput, mine. by rewrite !filter_app, length_app. Qed.

Lemma view_total xs k : ka = [k] -> execs_ok maybe putG xs -> length (view xs k) = total xs.
Proof.
  intros Hka. induction xs as [|x xs IH] using rev_ind; intros Hok; [done|].
  rewrite view_snoc, length_app, total_app, IH by (eapply execs_ok_prefix; [|exact Hok]; by eexists). f_equal.
  pose proof (Hok (length xs) x) as Hx. rewrite take_app_length in Hx. unfold effective, total. rewrite filter_cons.
  destruct Hx as [(k' & _ & _ & Hf)|(k' & v & ver & r & Hin & _ & _ & Hk & _)]; [by rewrite lookup_app_r, Nat.sub_diag by lia|by rewrite Hf|].
  rewrite Hka in Hk. apply list_elem_of_singleton in Hk as ->. rewrite Hin. simpl. rewrite bool_decide_true, andb_true_r by done.
  by destruct (x_eff x).
Qed.

Lemma sum_indicator (c : Z) m n b : (Z.of_nat m <= c < Z.of_nat (m + n))%Z ->
  sum_list ((fun i => if decide (c = Z.of_nat i) then b else 0) <$> seq m n) = b.
Proof.
  revert m. induction n as [|n IH]; intros m Hc; [lia|]. csimpl. case_decide as Hd.
  - rewrite <- (Nat.add_0_r b) at 2. f_equal. clear IH. assert (c < Z.of_nat (S m))%Z as Hlt by lia. clear Hc Hd.
    revert m Hlt. induction n as [|n IH]; intros m Hlt; csimpl; [done|]. rewrite decide_False by lia. apply IH. lia.
  - apply IH. lia.
Qed.

Lemma sum_add (f g : nat -> nat) l : sum_list ((fun i => f i + g i) <$> l) = sum_list (f <$> l) + sum_list (g <$> l).
Proof. induction l as [|x l IH]; csimpl; lia. Qed.

Lemma total_sum n l : Forall (fun x => (0 <= x_cli x < Z.of_nat n)%Z) l ->
  total l = sum_list ((fun i => nput (Z.of_nat i) l) <$> seq 0 n).
Proof.
  induction 1 as [|x l Hx _ IH].
  - unfold total, nput. simpl. induction (seq 0 n) as [|i s IHs]; csimpl; [done|lia].
  - change (x :: l) with ([x] ++ l). rewrite total_app, IH. setoid_rewrite nput_app. rewrite (sum_add _ (fun i => nput (Z.of_nat i) l)). f_equal.
    rewrite <- (sum_indicator (x_cli x) 0 n (total [x])) by lia. f_equal. apply list_fmap_ext. intros _ i _. unfold nput, mine, total.
    rewrite (filter_cons (fun y => x_cli y = Z.of_nat i)). by case_decide.
Qed.

Lemma sum_results (c : nat -> nat) (rs : list ClntRes) : forall (off : nat) res,
  (forall (i : nat) r, rs !! i = Some r -> (0 <= Nok r <= Z.of_nat (c (off + i)%nat))%Z /\ (0 <= Nmaybe r)%Z /\ (Z.of_nat (c (off + i)%nat) <= Nok r + Nmaybe r)%Z /\
     (maybe = false -> Nmaybe r = 0%Z)) ->
  let t := foldl (fun res r => mkClntRes (Nok res + Nok r) (Nmaybe res + Nmaybe r)) res rs in
  let s := Z.of_nat (sum_list (c <$> seq off (length rs))) in
  (Nok res <= Nok t <= Nok res + s)%Z /\ (Nmaybe res <= Nmaybe t)%Z /\ (Nok res + Nmaybe res + s <= Nok t + Nmaybe t)%Z /\
  (maybe = false -> Nmaybe t = Nmaybe res).
Proof.
  induction rs as [|r rs IH]; intros off res Hr; csimpl; [split_and!; [lia..|done]|].
  destruct (IH (S off) (mkClntRes (Nok res + Nok r) (Nmaybe res + Nmaybe r))) as (I1 & I2 & I3 & I4).
  { intros i r' Hi. rewrite Nat.add_succ_comm. by apply Hr. }
  destruct (Hr 0 r eq_refl) as (R1 & R2 & R3 & R4). rewrite Nat.add_0_r in *. cbn [Nok Nmaybe] in *.
  split_and!; [lia..|]. intros Hm. rewrite I4, R4 by done. lia.
Qed.

(** ** The test *)

(** Nobody is in a call. *)
Definition quiet (w : ktw) : Prop := world_ok maybe putG w /\ forall me, logged me w.

(** The puts of a key and the sum of the results so far. *)
Definition counted (k : string) (w : ktw) (res : ClntRes) : Prop :=
  let n := Z.of_nat (length (view (kw_execs w) k)) in
  (0 <= Nok res <= n)%Z /\ (0 <= Nmaybe res)%Z /\ (n <= Nok res + Nmaybe res)%Z /\ (maybe = false -> Nmaybe res = 0%Z).

(** Time passes and nobody else does anything. *)
Definition alone (w w' : ktw) : Prop := kw_execs w' = kw_execs w /\ kw_ops w' = kw_ops w /\ (kw_now w <= kw_now w')%Z.

Lemma kalone_rtc w w' : rtc alone w w' -> alone w w'.
Proof. induction 1 as [|w1 w2 w3 (A & B & C) _ (A2 & B2 & C2)]; [done|]. split_and!; [congruence|congruence|lia]. Qed.

Definition sum_of (res : ClntRes) (rs : list ClntRes) : ClntRes :=
  foldl (fun res r => mkClntRes (Nok res + Nok r) (Nmaybe res + Nmaybe r)) res rs.

Lemma quiet_get w me key t1 t2 t3 t4 : quiet w -> (kw_now w <= t1 <= t2)%Z -> (t2 <= t3 <= t4)%Z ->
  let r := get_answer (view (kw_execs w) key) in
  let inp := mkKvInput 0 key "" 0 in
  let out := mkKvOutput r.1.1 r.1.2 r.2 in
  quiet (mkKtw (kw_execs w ++ [mkExec me inp out t2 false]) t4 (kw_ops w ++ [mkOperation me inp t1 out t3])).
Proof.
  intros [[H1 H2 H3] Hl] Ht1 Ht2 r inp out. split.
  - constructor; simpl.
    + apply execs_ok_snoc; [done|]. left. by exists key.
    + intros i j x y [Hi|[-> ->]]%lookup_snoc_cases [Hj|[-> ->]]%lookup_snoc_cases Hle; [by eapply H2| | |lia].
      * simpl. pose proof (H3 _ _ Hi). lia.
      * apply lookup_lt_Some in Hj. lia.
    + intros i x [Hi|[-> ->]]%lookup_snoc_cases; simpl; [pose proof (H3 _ _ Hi)|]; lia.
  - intros me'. specialize (Hl me'). unfold logged, mine, mops in *. simpl. rewrite !filter_app, !filter_cons. simpl.
    destruct (decide (me = me')); simpl; [|by rewrite !app_nil_r].
    apply Forall2_app; [done|]. repeat constructor; simpl; lia.
Qed.

Lemma check_safe reliable k rs res w : ka = [k] -> quiet w -> view (kw_execs w) k <> [] -> counted k w (sum_of res rs) ->
  (reliable = true -> maybe = false) -> (Nok (sum_of res rs) + Nmaybe (sum_of res rs) < 2 ^ 64)%Z ->
  safe alone (tanswer maybe (-1)) (fun _ _ => True) (CheckPutConcurrent k rs res reliable)
    (fun w' res' => quiet w' /\ counted k w' res' /\ res' = sum_of res rs) w.
Proof using JO.
  intros Hka HQ Hne Hc Hrel Hb. pose proof HQ as [[Hok _ _] _].
  intros w1 (E1 & O1 & N1)%kalone_rtc. split; [done|]. intros t1 w1' [-> ->].
  intros w2 (E2 & O2 & N2)%kalone_rtc. split; [done|]. intros r w2' [-> ->].
  intros w3 (E3 & O3 & N3)%kalone_rtc. split; [done|]. intros t3 w3' [-> ->].
  intros w4 (E4 & O4 & N4)%kalone_rtc. split; [done|]. intros [] w4' ->. simpl in *.
  assert (kw_execs w2 = kw_execs w) as Ew by congruence. rewrite Ew in *. unfold get_answer in *.
  destruct (last (view (kw_execs w) k)) as [v|] eqn:Hlast; [|by apply last_None in Hlast]. simpl.
  rewrite last_lookup in Hlast. destruct (view_value _ _ _ _ _ _ Hok Hlast) as (n & y & ver & _ & _ & _ & _ & _ & Hj & _).
  rewrite Hj. simpl. fold (sum_of res rs). destruct Hc as (C1 & C2 & C3 & C4).
  assert (forall z, (0 <= z < 2 ^ 64)%Z -> to_u64 z = Z.to_N z) as Hu.
  { intros z Hz. unfold to_u64. by rewrite Z.mod_small. }
  assert (safe alone (tanswer maybe (-1)) (fun _ _ => True) (Ret (sum_of res rs) : kt_prog ClntRes)
    (fun w' res' => quiet w' /\ counted k w' res' /\ res' = sum_of res rs)
    (mkKtw (kw_execs w4) (kw_now w4) (OpLog_Append (mkOperation (-1) (mkKvInput 0 k "" 0) (kw_now w1)
       (mkKvOutput v (N.of_nat (length (view (kw_execs w) k))) OK) (kw_now w3)) (kw_ops w4)))) as Hret.
  { intros w5 (E5 & O5 & N5)%kalone_rtc. simpl in *.
    assert (quiet w5) as HQ5.
    { pose proof (quiet_get w (-1) k (kw_now w1) (kw_now w2) (kw_now w3) (kw_now w5) HQ) as Hq. simpl in Hq.
      destruct w5 as [xs t os]. simpl in *. rewrite E5, O5, E4, E3, O4, O3. unfold OpLog_Append. rewrite O2, O1.
      unfold get_answer in Hq. rewrite last_lookup, Hlast in Hq. apply Hq; lia. }
    split_and!; [done| |done]. unfold counted. rewrite E5, E4, E3, view_snoc. simpl. rewrite app_nil_r. done. }
  destruct reliable.
  - rewrite decide_False; [exact Hret|]. rewrite Hu by lia. specialize (C4 (Hrel eq_refl)). lia.
  - rewrite decide_False; [exact Hret|]. rewrite Hu by lia. lia.
Qed.

Lemma put_client_start rk inner fuel w0 me : ka <> [] -> quiet w0 ->
  psafe me (OneClientPut rk inner fuel me ka ∅ (mkClntRes 0 0)) (client_post (fun me => nput me (kw_execs w0)) me) w0.
Proof using JO.
  intros Hka [Hw Hl]. apply OneClientPut_safe; [done|done|apply Hl| |intros k _; by rewrite lookup_empty].
  unfold reported. simpl. split_and!; [lia..|done].
Qed.

Lemma spawn_safe rk inner fuel n w0 : ka <> [] -> quiet w0 ->
  sys_safe maybe putG (client_post (fun me => nput me (kw_execs w0)))
    (mkKts w0 (SpawnClients n (fun me => OneClientPut rk inner fuel me ka ∅ (mkClntRes 0 0)))).
Proof using JO. intros Hka HQ. split; [apply HQ|]. intros me p [_ ->]%spawn_lookup. by apply put_client_start. Qed.

(** A round of clients keeps what [quiet] and [counted] say. *)
Lemma round_done n w0 (s : kts ClntRes) rs : quiet w0 -> only maybe putG w0 s ->
  (forall me, is_Some (ks_cl s !! me) <-> (0 <= me < Z.of_nat n)%Z) -> length rs = n ->
  (forall (i : nat) r, rs !! i = Some r -> client_post (fun me => nput me (kw_execs w0)) (Z.of_nat i) (ks_w s) r) ->
  world_ok maybe putG (ks_w s) ->
  quiet (ks_w s) /\ forall k res, ka = [k] -> counted k w0 res -> counted k (ks_w s) (sum_of res rs).
Proof.
  intros [Hw0 Hl0] [He (l & Hl & HF)] Hdom Hn Hpost Hw. split.
  - split; [done|]. intros me. destruct (ks_cl s !! me) as [p|] eqn:Hme.
    + destruct (proj1 (Hdom me)) as [H0 H1]; [by eexists|]. destruct (lookup_lt_is_Some_2 rs (Z.to_nat me)) as [r Hr]; [lia|].
      destruct (Hpost _ _ Hr) as (_ & Hlog & _). by rewrite Z2Nat.id in Hlog by lia.
    + eapply logged_env; [by apply He|apply Hl0].
  - intros k res Hka Hc. unfold counted in *. pose proof Hw as [Hok _ _]. pose proof Hw0 as [Hok0 _ _].
    rewrite (view_total _ _ Hka Hok0) in Hc. rewrite (view_total _ _ Hka Hok). rewrite Hl, total_app, (total_sum n l).
    2: { eapply Forall_impl; [exact HF|]. intros x. simpl. apply Hdom. }
    destruct (sum_results (fun i => nput (Z.of_nat i) l) rs 0 res) as (S1 & S2 & S3 & S4).
    { intros i r Hi. destruct (Hpost _ _ Hi) as (_ & _ & R1 & R2 & R3 & R4). simpl. rewrite Hl, nput_app in R1, R3.
      split_and!; [lia..|done]. }
    rewrite Hn in *. fold (sum_of res rs) in *. cbv zeta in *. destruct Hc as (C1 & C2 & C3 & C4).
    split_and!; [lia..|]. intros Hm. rewrite S4, C4 by done. done.
Qed.

(** C35. The tests of many clients putting to shared keys pass on a store that keeps its
    promise: however the clients interleave, and also when answers are [ErrMaybe], no
    client fails a check of what it reads; when all have returned, the log of all calls
    is one the linearizability checker accepts, and for a single key the check of the
    number of puts passes - the exact one when the clerks never answer [ErrMaybe] -
    and leaves everything as the next round of the test expects it. *)
Theorem kvtest_puts_pass randomkeys inner fuel nclnt w0 s :
  ka <> [] -> quiet w0 ->
  rtc (kts_step maybe) (mkKts w0 (SpawnClients nclnt (fun me => OneClientPut randomkeys inner fuel me ka ∅ (mkClntRes 0 0)))) s ->
  (forall me, ks_cl s !! me <> Some Panic) /\
  forall rs, length rs = nclnt -> (forall (i : nat) r, rs !! i = Some r -> ks_cl s !! Z.of_nat i = Some (Ret r)) ->
    quiet (ks_w s) /\
    ((N.of_nat (length (kw_execs (ks_w s))) < two64)%N -> linearizable_ops (kw_ops (ks_w s))) /\
    forall k res reliable, ka = [k] -> counted k w0 res -> view (kw_execs (ks_w s)) k <> [] ->
      (reliable = true -> maybe = false) -> (Nok (sum_of res rs) + Nmaybe (sum_of res rs) < 2 ^ 64)%Z ->
      let check := CheckPutConcurrent k rs res reliable in
      ~ panics alone (tanswer maybe (-1)) check (ks_w s) /\
      forall res' w', runs alone (tanswer maybe (-1)) check (ks_w s) res' w' -> quiet w' /\ counted k w' res'.
Proof using JO.
  intros Hka HQ Hr. pose proof (spawn_safe randomkeys inner fuel nclnt w0 Hka HQ) as HS0.
  pose proof (sys_run _ _ _ _ _ HS0 Hr) as HS. split; [intros me; by eapply sys_no_panic|]. intros rs Hn Hrs.
  assert (forall me, is_Some (ks_cl s !! me) <-> (0 <= me < Z.of_nat nclnt)%Z) as Hdom.
  { intros me. rewrite (dom_run _ _ _ Hr). simpl. split; [by intros [p [? _]%spawn_lookup]|]. intros Hb. eexists. by apply spawn_lookup. }
  destruct (round_done nclnt w0 s rs HQ (only_run _ _ _ _ _ _ HS0 (spawn_only _ _ _ _ _) Hr) Hdom Hn) as [HQ' Hc]; [|apply HS|].
  { intros i r Hi. eapply (sys_ret _ _ (client_post _)); [exact HS|by apply Hrs]. }
  split; [done|]. split.
  - intros Hb. destruct HQ' as [Hw Hl]. eapply logged_linearizable; [|exact Hw|exact Hl|exact Hb].
    by intros pre cli k v ver (_ & _ & Hv).
  - intros k res reliable Hk Hcnt Hne Hrel Hbound check.
    pose proof (check_safe reliable k rs res (ks_w s) Hk HQ' Hne (Hc k res Hk Hcnt) Hrel Hbound) as Hsafe.
    split; [by eapply safe_panics|]. intros res' w' Hrun.
    destruct (safe_runs _ _ _ _ _ _ _ _ Hsafe Hrun) as (? & ? & _). done.
Qed.

End puts.

(** ** One client on keys of its own *)

Section own_keys.
Context (maybe : bool) (ks : list string).

(** Nobody else puts to the keys. *)
Definition keeps (w w' : ktw) : Prop := forall k, k ∈ ks -> view (kw_execs w') k = view (kw_execs w) k.

Lemma keeps_rtc w w' : rtc keeps w w' -> keeps w w'.
Proof. induction 1 as [|w1 w2 w3 H1 _ IH]; intros k Hk; [done|]. by rewrite IH, H1. Qed.

Abbreviation osafe me := (safe keeps (tanswer maybe me) (fun _ _ => True)).

Lemma own_get_safe {B} me k (f : string * Tversion * Err -> kt_prog B) Q w : k ∈ ks ->
  (forall w', keeps w w' -> osafe me (f (get_answer (view (kw_execs w) k))) Q w') ->
  osafe me (prog_bind f (kvtest_Get k me)) Q w.
Proof.
  intros Hk Hf w1 H1%keeps_rtc. split; [done|]. intros t1 w1' [-> ->].
  intros w2 H2%keeps_rtc. split; [done|]. intros r w2' [-> ->].
  intros w3 H3%keeps_rtc. split; [done|]. intros t3 w3' [-> ->].
  intros w4 H4%keeps_rtc. split; [done|]. intros [] w4' ->. simpl.
  rewrite (H2 k Hk), (H1 k Hk). apply Hf. intros k' Hk'. simpl. rewrite (H4 k' Hk'), (H3 k' Hk'). simpl.
  rewrite view_snoc. simpl. by rewrite app_nil_r, (H2 k' Hk'), (H1 k' Hk').
Qed.

(** What a put leaves: the value is new when it took effect. *)
Definition put_left (k v : string) (eff : bool) (w w' : ktw) : Prop :=
  forall k', k' ∈ ks -> view (kw_execs w') k' = view (kw_execs w) k' ++ (if eff && bool_decide (k = k') then [v] else []).

Lemma put_left_keeps k v eff w w1 w2 w3 : keeps w w1 -> put_left k v eff w1 w2 -> keeps w2 w3 -> put_left k v eff w w3.
Proof. intros H1 H2 H3 k' Hk'. by rewrite (H3 k' Hk'), (H2 k' Hk'), (H1 k' Hk'). Qed.

Lemma own_put_safe {B} me k v ver (f : Err -> kt_prog B) Q w : k ∈ ks ->
  (forall w' r eff, put_answer maybe (view (kw_execs w) k) ver r eff -> put_left k v eff w w' -> osafe me (f r) Q w') ->
  osafe me (Call (KPut k v ver) f) Q w.
Proof.
  intros Hk Hf w1 H1%keeps_rtc. split; [done|]. intros r w' (eff & Hp & ->). rewrite (H1 k Hk) in Hp. apply (Hf _ _ eff); [done|].
  eapply put_left_keeps; [exact H1| |by intros k' Hk']. intros k' Hk'. simpl. by rewrite view_snoc.
Qed.

Lemma own_logged_put_safe {B} me k v ver (f : Err -> kt_prog B) Q w : k ∈ ks ->
  (forall w' r eff, put_answer maybe (view (kw_execs w) k) ver r eff -> put_left k v eff w w' -> osafe me (f r) Q w') ->
  osafe me (prog_bind f (kvtest_Put k v ver me)) Q w.
Proof.
  intros Hk Hf w1 H1%keeps_rtc. split; [done|]. intros t1 w1' [-> ->]. apply own_put_safe; [done|].
  intros w2 r eff Hp Hl. rewrite (H1 k Hk) in Hp. intros w3 H3%keeps_rtc. split; [done|]. intros t3 w3' [-> ->].
  intros w4 H4%keeps_rtc. split; [done|]. intros [] w4' ->. apply (Hf _ _ eff); [done|].
  eapply put_left_keeps; [exact H1|exact Hl|]. intros k' Hk'. simpl. by rewrite (H4 k' Hk'), (H3 k' Hk').
Qed.

(** The key has these values. *)
Definition last_is (k v : string) (ver : Tversion) (w : ktw) : Prop :=
  last (view (kw_execs w) k) = Some v /\ ver = N.of_nat (length (view (kw_execs w) k)).

Lemma last_is_keeps k v ver w w' : k ∈ ks -> keeps w w' -> last_is k v ver w -> last_is k v ver w'.
Proof. intros Hk H1 [H2 H3]. unfold last_is. by rewrite (H1 k Hk). Qed.

(** A put at the key's version takes effect, whatever the clerk can tell. *)
Lemma put_next k v ver r eff w w' : k ∈ ks -> ver = N.of_nat (length (view (kw_execs w) k)) -> (ver + 1 < two64)%N ->
  put_answer maybe (view (kw_execs w) k) ver r eff -> put_left k v eff w w' ->
  last_is k v (u64_inc ver) w' /\ (r = OK \/ r = ErrMaybe).
Proof.
  intros Hk Hv Hb Hp Hl. unfold put_answer, told in Hp. rewrite decide_True in Hp by done. destruct Hp as [-> Hr].
  specialize (Hl k Hk). simpl in Hl. rewrite bool_decide_true in Hl by done. unfold last_is. rewrite Hl, last_snoc, length_app.
  rewrite u64_inc_small by done. split_and!; [done|simpl; lia|naive_solver].
Qed.

Lemma PutAtLeastOnce_safe fuel k v me : k ∈ ks -> forall ver w,
  ver = N.of_nat (length (view (kw_execs w) k)) -> (ver + N.of_nat fuel < two64)%N ->
  osafe me (PutAtLeastOnce fuel k v ver me) (fun w' ver' => last_is k v ver' w') w.
Proof.
  intros Hk. induction fuel as [|fuel IH]; intros ver w Hv Hb; [done|]. cbn [PutAtLeastOnce].
  apply own_logged_put_safe; [done|]. intros w1 r eff Hp Hl.
  destruct (put_next _ _ _ _ _ _ _ Hk Hv ltac:(lia) Hp Hl) as [Hlast Hr].
  case_decide as Hok; [intros w2 H2%keeps_rtc; by eapply last_is_keeps|].
  rewrite decide_True by tauto. apply IH; [apply Hlast|]. rewrite u64_inc_small; lia.
Qed.

Lemma CheckGet_safe k v ver w : k ∈ ks -> last_is k v ver w -> osafe 0 (CheckGet k v ver) (fun w' _ => keeps w w') w.
Proof.
  intros Hk [Hl Hv]. apply own_get_safe; [done|]. intros w1 H1. unfold get_answer. rewrite Hl.
  rewrite decide_False by auto. rewrite decide_False by (intros [?|?]; congruence).
  intros w2 H2%keeps_rtc k' Hk'. by rewrite (H2 k' Hk'), (H1 k' Hk').
Qed.

(** [PutAtLeastOnce] leaves what [CheckGet] then expects. *)
Theorem PutAtLeastOnce_checked fuel k v me ver w :
  k ∈ ks -> ver = N.of_nat (length (view (kw_execs w) k)) -> (ver + N.of_nat fuel < two64)%N ->
  let test := do ver' <- PutAtLeastOnce fuel k v ver me; Ret ver' in
  (forall ver' w', runs keeps (tanswer maybe me) test w ver' w' -> ~ panics keeps (tanswer maybe 0) (CheckGet k v ver') w') /\
  ~ panics keeps (tanswer maybe me) test w.
Proof.
  intros Hk Hv Hb test. assert (osafe me test (fun w' ver' => last_is k v ver' w') w) as Hs.
  { eapply safe_bind; [by apply PutAtLeastOnce_safe|]. intros w1 ver' Hl w2 H2%keeps_rtc. by eapply last_is_keeps. }
  split; [|by eapply safe_panics]. intros ver' w' Hr. eapply safe_panics. apply CheckGet_safe; [done|].
  by apply (safe_runs _ _ _ _ _ _ _ _ Hs Hr).
Qed.

Lemma spread_put_safe me kvs : forall w, NoDup kvs.*1 -> (forall k, k ∈ kvs.*1 -> k ∈ ks /\ view (kw_execs w) k = []) ->
  osafe me (spread_put kvs) (fun w' _ => (forall k v, (k, v) ∈ kvs -> last_is k v 1 w') /\
    forall k, k ∈ ks -> k ∉ kvs.*1 -> view (kw_execs w') k = view (kw_execs w) k) w.
Proof.
  induction kvs as [|[k v] kvs IH]; intros w Hnd Hks.
  - intros w1 H1%keeps_rtc. split; [by intros k v ?%not_elem_of_nil|]. intros k Hk _. by apply H1.
  - csimpl in *. apply NoDup_cons in Hnd as [Hn Hnd]. destruct (Hks k ltac:(left)) as [Hk Hv]. cbn [spread_put].
    apply own_put_safe; [done|]. intros w1 r eff Hp Hl.
    destruct (put_next k v 0 r eff w w1 Hk) as [Hlast _]; [by rewrite Hv|done|done|done|].
    assert (forall k', k' ∈ ks -> k' <> k -> view (kw_execs w1) k' = view (kw_execs w) k') as Hother.
    { intros k' Hk' Hne. rewrite (Hl k' Hk'), bool_decide_false, andb_false_r by done. by rewrite app_nil_r. }
    eapply safe_mono; [|apply IH]; [|done|].
    + intros w2 [] [Hdone Hrest]. split.
      * intros k' v' [[= -> ->]|Hin]%elem_of_cons; [|by apply Hdone]. unfold last_is. by rewrite (Hrest k Hk Hn).
      * intros k' Hk' [Hne Hnot]%not_elem_of_cons. by rewrite Hrest, Hother.
    + intros k' Hk'. destruct (Hks k') as [Hks' Hv']; [by right|]. split; [done|]. rewrite Hother; [done|done|by intros ->].
Qed.

Lemma spread_check_safe kvs : forall w, (forall k v, (k, v) ∈ kvs -> k ∈ ks /\ last_is k v 1 w) ->
  osafe 0 (spread_check kvs) (fun w' _ => keeps w w') w.
Proof.
  induction kvs as [|[k v] kvs IH]; intros w Hk; [by intros w1 H1%keeps_rtc|]. cbn [spread_check].
  destruct (Hk k v ltac:(left)) as [Hks Hl]. eapply safe_bind; [by apply CheckGet_safe|]. intros w1 [] H1.
  eapply safe_mono; [|apply IH].
  - intros w2 [] H2 k' Hk'. by rewrite (H2 k' Hk'), (H1 k' Hk').
  - intros k' v' Hin. destruct (Hk k' v') as [Hks' Hl']; [by right|]. split; [done|]. by eapply last_is_keeps.
Qed.

Lemma MakeKeys_NoDup n : NoDup (MakeKeys n).
Proof. unfold MakeKeys. apply NoDup_fmap_2; [|apply NoDup_seqZ]. intros x y Hxy. by simplify_eq/=. Qed.

(** Spreading values over new keys never fails its checks. *)
Theorem SpreadPuts_checked va w :
  (forall k, k ∈ MakeKeys (length va) -> k ∈ ks /\ view (kw_execs w) k = []) ->
  ~ panics keeps (tanswer maybe 0) (SpreadPutsSize va) w.
Proof.
  intros Hks. assert (length (MakeKeys (length va)) = length va) as Hlen.
  { unfold MakeKeys. rewrite length_fmap, length_seqZ. lia. }
  assert ((zip (MakeKeys (length va)) va).*1 = MakeKeys (length va)) as Hz by (apply fst_zip; lia).
  eapply (safe_panics _ _ (fun _ _ => True)) with (Q := fun _ _ => True). unfold SpreadPutsSize.
  eapply safe_bind; [apply spread_put_safe; [rewrite Hz; apply MakeKeys_NoDup|by rewrite Hz]|].
  intros w1 [] [Hdone _]. eapply safe_bind; [apply spread_check_safe|by intros w2 [] _ w3 _].
  intros k v Hin. split; [|by apply Hdone]. apply Hks. rewrite <- Hz. by apply (list_elem_of_fmap_2 fst _ (k, v)).
Qed.

(** [PutAtLeastOnceJson] puts at version 0 whatever version it is given: called with the
    version of a key that is there it writes nothing and returns. *)
Lemma PutAtLeastOnceJson_version `{JsonOk A} fuel k (v : A) ver me w :
  k ∈ ks -> view (kw_execs w) k <> [] -> maybe = false ->
  osafe me (PutAtLeastOnceJson (S fuel) k v ver me) (fun w' ver' => ver' = ver /\ keeps w w') w.
Proof.
  intros Hk Hne Hm. cbn [PutAtLeastOnceJson]. unfold PutJson. destruct (json_Marshal_ok v) as [b ->].
  apply own_logged_put_safe; [done|]. intros w1 r eff Hp Hl. unfold put_answer, told in Hp. rewrite Hm in Hp.
  destruct (view (kw_execs w) k) as [|v0 vs] eqn:Hv; [done|]. simpl in Hp. destruct Hp as [-> [->|[_ ?]]]; [|done].
  rewrite decide_True by done. intros w2 H2%keeps_rtc. split; [done|]. intros k' Hk'. rewrite (H2 k' Hk'), (Hl k' Hk'). by rewrite app_nil_r.
Qed.

End own_keys.
