(* ===== verification/KvTestAppends.v ===== *)
(** * The test with many appending clients passes

    The proofs about [OneClientAppend] and [CheckAppends]. *)

From S2P Require Import Prelude.
From S2P Require Import GoLib.
From S2P Require Import Rpc.
From S2P Require Import KvSpec.
From S2P Require Import KvSrv.
From S2P Require Import Prog.
From S2P Require Import KvTest.
From S2P Require Import KvTestSafe.

(** ** Clients that append to one key *)

Section appends.
Context (maybe : bool) `{JO : JsonOk (list EntryN)}.

(** The numbers of a client in a list, and the least it may append. *)
Definition own (c : Z) (es : list EntryN) : list Z := en_N <$> filter (fun e => en_Id e = c) es.

Definition nxt (ns : list Z) : Z := match last ns with Some n => (n + 1)%Z | None => 0%Z end.

Definition content (xs : list exec) : option (list EntryN) := v ← last (view xs "k"); json_Unmarshal v.

(** The list is put empty first; then a client puts what it read and its next number. *)
Definition apG (pre : list exec) (cli : Z) (k v : string) (ver : Tversion) : Prop :=
  k = "k" /\
  ((ver = 0%N /\ json_Unmarshal v = Some ([] : list EntryN)) \/
   (ver <> 0%N /\ view pre k <> [] /\ exists es n, json_Unmarshal v = Some (es ++ [mkEntryN cli n]) /\ (nxt (own cli es) <= n)%Z /\
      (ver = N.of_nat (length (view pre k)) -> content pre = Some es))).

Abbreviation asafe me := (safe (tenv maybe apG me) (tanswer maybe me) (tallowed apG me)).

Abbreviation aok := (execs_ok maybe apG).

Lemma own_app c es e : own c (es ++ [e]) = own c es ++ (if decide (en_Id e = c) then [en_N e] else []).
Proof. unfold own. rewrite filter_app, fmap_app, filter_cons. by case_decide. Qed.

(** What an execution does to the list. *)
Inductive appended (xs : list exec) (x : exec) : Prop :=
  | ap_none : x_eff x = false -> view (xs ++ [x]) "k" = view xs "k" -> appended xs x
  | ap_first v : x_eff x = true -> view xs "k" = [] -> view (xs ++ [x]) "k" = [v] ->
      json_Unmarshal v = Some ([] : list EntryN) -> appended xs x
  | ap_next v es n : x_eff x = true -> view xs "k" <> [] -> view (xs ++ [x]) "k" = view xs "k" ++ [v] ->
      content xs = Some es -> json_Unmarshal v = Some (es ++ [mkEntryN (x_cli x) n]) -> (nxt (own (x_cli x) es) <= n)%Z -> appended xs x.

Lemma exec_appends xs x : exec_ok maybe apG xs x -> appended xs x.
Proof.
  intros [(k & Hin & _ & He)|(k & v & ver & r & Hin & _ & Hp & -> & HG)].
  - apply ap_none; [done|]. rewrite view_snoc. unfold effective. by rewrite He, app_nil_r.
  - destruct (x_eff x) eqn:He.
    + assert (ver = N.of_nat (length (view xs "k"))) as Hv by (unfold put_answer in Hp; case_decide; [done|by destruct Hp]).
      assert (view (xs ++ [x]) "k" = view xs "k" ++ [v]) as Hvw.
      { rewrite view_snoc. unfold effective. rewrite He, Hin. done. }
      destruct HG as [[-> Hd]|(Hne & Hk & es & n & Hd & Hn & Hc)].
      * destruct (view xs "k") eqn:Hx; [|simpl in Hv; lia]. by eapply ap_first.
      * eapply ap_next; eauto.
    + apply ap_none; [done|]. rewrite view_snoc. unfold effective. by rewrite He, app_nil_r.
Qed.

Definition ordered (es : list EntryN) : Prop :=
  forall pre e post, es = pre ++ e :: post -> (nxt (own (en_Id e) pre) <= en_N e)%Z.

Lemma ordered_snoc es e : ordered es -> (nxt (own (en_Id e) es) <= en_N e)%Z -> ordered (es ++ [e]).
Proof.
  intros Ho Hn pre e' post Heq. destruct post as [|y post _] using rev_ind.
  - apply app_inj_tail in Heq as [<- <-]. done.
  - rewrite app_comm_cons, app_assoc in Heq. apply app_inj_tail in Heq as [-> _]. by eapply Ho.
Qed.

(** The list has an entry for each version above the first. *)
Lemma content_ok xs : aok xs -> view xs "k" <> [] ->
  exists es, content xs = Some es /\ S (length es) = length (view xs "k") /\ ordered es.
Proof.
  induction xs as [|x xs IH] using rev_ind; intros Hok Hne; [done|].
  assert (aok xs) as Hok' by (eapply execs_ok_prefix; [|exact Hok]; by eexists).
  assert (exec_ok maybe apG xs x) as Hx.
  { pose proof (Hok (length xs) x) as Hx. rewrite take_app_length in Hx. apply Hx. by rewrite lookup_app_r, Nat.sub_diag by lia. }
  destruct (exec_appends _ _ Hx) as [_ Hv|v _ Hv0 Hv Hd|v es n _ Hv0 Hv Hc Hd Hn]; unfold content; rewrite Hv in Hne |- *.
  - by apply IH.
  - exists []. simpl. split_and!; [done|done|]. by intros [] ? ?.
  - destruct (IH Hok' Hv0) as (es' & Hc' & Hlen & Ho). assert (es' = es) as -> by congruence.
    rewrite last_snoc, length_app. simpl. exists (es ++ [mkEntryN (x_cli x) n]). rewrite length_app. simpl. split_and!; [done|lia|].
    by apply ordered_snoc.
Qed.

Lemma content_step xs x es : exec_ok maybe apG xs x -> content xs = Some es ->
  content (xs ++ [x]) = Some es /\ x_eff x = false \/
  exists n, x_eff x = true /\ content (xs ++ [x]) = Some (es ++ [mkEntryN (x_cli x) n]).
Proof.
  intros Hx Hc. destruct (exec_appends _ _ Hx) as [He Hv|v He Hv0 Hv Hd|v es' n He Hv0 Hv Hc' Hd Hn]; unfold content; rewrite Hv.
  - by left.
  - unfold content in Hc. by rewrite Hv0 in Hc.
  - right. exists n. split; [done|]. rewrite last_snoc. simpl. congruence.
Qed.

(** The others do not append a client's numbers. *)
Lemma content_others me xs ys es : others me xs ys -> aok ys -> content xs = Some es ->
  exists es', content ys = Some es' /\ own me es' = own me es.
Proof.
  intros (l & -> & HF). revert HF. induction l as [|x l IH] using rev_ind; intros HF Hok Hc; [rewrite app_nil_r; eauto|].
  apply Forall_app in HF as [HF Hx]. apply Forall_inv in Hx. rewrite app_assoc in Hok |- *.
  assert (aok (xs ++ l)) as Hok' by (eapply execs_ok_prefix; [|exact Hok]; by eexists).
  destruct (IH HF Hok' Hc) as (es' & Hc' & Ho).
  assert (exec_ok maybe apG (xs ++ l) x) as Hxo.
  { pose proof (Hok (length (xs ++ l)) x) as Hxo. rewrite take_app_length in Hxo. apply Hxo. by rewrite lookup_app_r, Nat.sub_diag by lia. }
  destruct (content_step _ _ _ Hxo Hc') as [[-> _]|(n & _ & ->)]; [eauto|]. eexists. split; [done|].
  rewrite own_app. simpl. rewrite decide_False by done. by rewrite app_nil_r.
Qed.

Lemma content_none xs x : x_eff x = false -> content (xs ++ [x]) = content xs.
Proof. intros He. unfold content. rewrite view_snoc. unfold effective. by rewrite He, app_nil_r. Qed.

(** What a client knows: its numbers are below its next one, and how many were put. *)
Definition progress (me : Z) (w : ktw) (i : Z) (ns : list Z) : Prop :=
  world_ok maybe apG w /\ logged me w /\ exists es, content (kw_execs w) = Some es /\ own me es = ns /\ (nxt ns <= i)%Z.

Lemma progress_env me w w' i ns : tenv maybe apG me w w' -> progress me w i ns -> progress me w' i ns.
Proof.
  intros He (Hw & Hl & es & Hc & Hn & Hi). pose proof He as (Hw' & Ho & _). specialize (Hw' Hw).
  split_and!; [done|by eapply logged_env|]. destruct (content_others _ _ _ _ Ho (wo_execs _ _ _ Hw') Hc) as (es' & Hc' & He').
  exists es'. split_and!; [done|congruence|done].
Qed.

Lemma content_view xs es : content xs = Some es -> view xs "k" <> [].
Proof. intros Hc Hv. unfold content in Hc. by rewrite Hv in Hc. Qed.

Lemma nxt_snoc ns n : nxt (ns ++ [n]) = (n + 1)%Z.
Proof. unfold nxt. by rewrite last_snoc. Qed.

(** Reading the list in the middle of a call. *)
Lemma others_ok me xs pre x ys : others me xs pre -> others me (pre ++ [x]) ys -> aok ys -> aok pre /\ aok (pre ++ [x]).
Proof.
  intros _ (l & -> & _) Hok. assert (aok (pre ++ [x])) as Hx by (eapply execs_ok_prefix; [|exact Hok]; by eexists).
  split; [|done]. eapply execs_ok_prefix; [|exact Hx]. by eexists.
Qed.

Lemma append_one_safe fuel me i : forall ns w, progress me w i ns ->
  asafe me (append_one fuel me i) (fun w1 ok => if ok : bool then progress me w1 (i + 1) (ns ++ [i])
    else progress me w1 (i + 1) ns \/ progress me w1 (i + 1) (ns ++ [i])) w.
Proof using JO.
  induction fuel as [|fuel IH]; intros ns w HP; [done|]. cbn [append_one].
  pose proof HP as (Hw & Hl & es0 & Hc0 & Hn0 & Hi). apply getjson_safe; [done|done|by eapply content_view| |].
  { intros pre v Hok Hlast. destruct (content_ok pre Hok) as (es & Hc & _); [by intros Hv; rewrite Hv in Hlast|].
    unfold content in Hc. rewrite Hlast in Hc. by eexists. }
  intros w1 pre x v es Hw1 Hl1 Ho Hx Ho1 Hlast Hdec.
  assert (content pre = Some es) as Hc by (unfold content; by rewrite Hlast).
  destruct (others_ok _ _ _ _ _ Ho Ho1 (wo_execs _ _ _ Hw1)) as [Hok Hokx].
  assert (own me es = ns) as Hn.
  { destruct (content_others _ _ _ _ Ho Hok Hc0) as (es' & Hc' & He'). assert (es' = es) as -> by congruence. congruence. }
  assert (content (pre ++ [x]) = Some es) as Hcx by by rewrite content_none.
  unfold PutJson. destruct (json_Marshal_ok (es ++ [mkEntryN me i])) as [b Hb]. rewrite Hb. apply json_Unmarshal_ok in Hb.
  apply put_safe; [done|done| |].
  { intros pre2 Ho2 Hok2. split; [done|]. right. destruct (view pre "k") as [|v0 vs] eqn:Hv; [done|]. split_and!; [done| |].
    - eapply view_nonempty; [exact Ho2|]. eapply view_nonempty; [exact Ho1|]. rewrite view_snoc, Hv. done.
    - exists es, i. split_and!; [done|by rewrite Hn|]. intros Hlen.
      destruct (view_others _ _ _ "k" Ho1) as [l1 Hl1']. destruct (view_others _ _ _ "k" Ho2) as [l2 Hl2'].
      rewrite view_snoc in Hl1'. unfold effective in Hl1'. rewrite Hx, app_nil_r in Hl1'. rewrite Hl1', Hv in Hl2'.
      assert (view pre2 "k" = view pre "k") as Heq; [|unfold content; by rewrite Heq, Hv, Hlast].
      rewrite Hl2', !length_app in Hlen. simpl in Hlen. destruct l1; [|simpl in Hlen; lia]. destruct l2; [|simpl in Hlen; lia].
      by rewrite Hl2', Hv, !app_nil_r. }
  intros w2 pre2 x2 r Hw2 Hl2 Ho2 Hp Hin Hcli Ho3.
  destruct (others_ok _ _ _ _ _ Ho2 Ho3 (wo_execs _ _ _ Hw2)) as [Hok2 Hokx2].
  destruct (content_others _ _ _ _ Ho1 (wo_execs _ _ _ Hw1) Hcx) as (es1 & Hc1 & Hes1).
  destruct (content_others _ _ _ _ Ho2 Hok2 Hc1) as (es2 & Hc2 & Hes2).
  assert (exec_ok maybe apG pre2 x2) as Hxo.
  { pose proof (Hokx2 (length pre2) x2) as Hxo. rewrite take_app_length in Hxo. apply Hxo. by rewrite lookup_app_r, Nat.sub_diag by lia. }
  assert ((x_eff x2 = false /\ progress me w2 i ns) \/ (x_eff x2 = true /\ progress me w2 (i + 1) (ns ++ [i]))) as Hres.
  { destruct (content_step _ _ _ Hxo Hc2) as [[Hcs He]|(n & He & Hcs)];
      destruct (content_others _ _ _ _ Ho3 (wo_execs _ _ _ Hw2) Hcs) as (es3 & Hc3 & Hes3); [left|right]; (split; [done|]).
    - split_and!; [done|done|]. exists es3. split_and!; [done|congruence|done].
    - assert (content (pre2 ++ [x2]) = Some (es ++ [mkEntryN me i])) as Hb2.
      { unfold content. rewrite view_snoc. unfold effective. rewrite He, Hin. simpl. by rewrite last_snoc. }
      split_and!; [done|done|]. exists es3. rewrite nxt_snoc. split_and!; [done| |lia].
      rewrite Hb2 in Hcs. injection Hcs as Hcs. rewrite Hes3, <- Hcs, own_app, Hn. simpl. by rewrite decide_True. }
  assert (forall w3 j ns', tenv maybe apG me w2 w3 -> (j <= i + 1)%Z -> progress me w2 j ns' -> progress me w3 (i + 1) ns') as Hlater.
  { intros w3 j ns' H3 Hj Hpr. apply (progress_env _ _ _ _ _ H3) in Hpr as (? & ? & es' & ? & ? & ?). split_and!; [done|done|].
    exists es'. split_and!; [done|done|lia]. }
  assert (r = OK -> x_eff x2 = true) as HOK.
  { intros ->. unfold put_answer, told in Hp. case_decide; [by destruct Hp|]. destruct (view pre2 "k"); naive_solver. }
  case_decide as Hr1; [|case_decide as Hr2].
  - apply kret_safe. intros w3 H3. destruct Hres as [[He _]|[_ Hres]]; [rewrite HOK in He by done; done|]. by eapply progress_env.
  - apply kret_safe. intros w3 H3. destruct Hres as [[_ Hres]|[_ Hres]]; [left|right]; (eapply Hlater; [exact H3| |exact Hres]; lia).
  - destruct Hres as [[_ Hres]|[He _]]; [by apply IH|]. unfold put_answer, told in Hp. rewrite He in Hp. exfalso.
    case_decide; [|by destruct Hp]. destruct Hp as [_ [?|[? _]]]; auto.
Qed.

(** A client reports every number it used. *)
Definition append_post (me : Z) (w : ktw) (res : ClntRes) : Prop :=
  exists ns, progress me w (Nok res + Nmaybe res) ns /\ (0 <= Nok res <= zlen ns)%Z /\ (0 <= Nmaybe res)%Z.

Lemma OneClientAppend_safe inner fuel me : forall i nok nmay ns w,
  progress me w i ns -> i = (nok + nmay)%Z -> (0 <= nok <= zlen ns)%Z -> (0 <= nmay)%Z ->
  asafe me (OneClientAppend inner fuel me i nok nmay) (append_post me) w.
Proof using JO.
  induction fuel as [|fuel IH]; intros i nok nmay ns w HP -> Hok Hmay; [done|]. cbn [OneClientAppend].
  apply call_safe. intros w1 H1. split; [done|]. intros d w1' ->. apply (progress_env _ _ _ _ _ H1) in HP. destruct d.
  - apply kret_safe. intros w2 H2. exists ns. by split; [eapply progress_env|].
  - eapply safe_bind; [by apply append_one_safe|]. intros w2 [] Hr; simpl in Hr.
    + eapply IH; [done|lia| |lia]. unfold zlen in *. rewrite length_app. simpl. lia.
    + destruct Hr as [Hr|Hr]; (eapply IH; [done|lia| |lia]); unfold zlen in *; rewrite ?length_app; simpl; lia.
Qed.

(** ** The check *)

(** What the first loop of [CheckAppends] finds. *)
Definition found (n : Z) (f : list Z -> Z) (es : list EntryN) (m : gmap Z Z) : Prop :=
  forall c, m !! c = if decide (0 <= c < n)%Z then Some (f (own c es)) else None.

Definition gap (ns : list Z) : Z := (nxt ns - zlen ns)%Z.

Lemma zeros_lookup n c : (list_to_map ((fun i => (i, 0%Z)) <$> seqZ 0 (Z.of_nat n)) : gmap Z Z) !! c =
  if decide (0 <= c < Z.of_nat n)%Z then Some 0%Z else None.
Proof.
  case_decide as Hc.
  - apply elem_of_list_to_map.
    + rewrite <- list_fmap_compose. simpl. rewrite list_fmap_id. apply NoDup_seqZ.
    + apply list_elem_of_fmap. exists c. split; [done|]. apply elem_of_seqZ. lia.
  - apply not_elem_of_list_to_map. rewrite <- list_fmap_compose. simpl. rewrite list_fmap_id, elem_of_seqZ. lia.
Qed.

Lemma found_insert n f es e m :
  (0 <= en_Id e < n)%Z -> found n f es m -> found n f (es ++ [e]) (<[en_Id e := f (own (en_Id e) es ++ [en_N e])]> m).
Proof.
  intros He Hf c. rewrite own_app. destruct (decide (en_Id e = c)) as [<-|Hne].
  - by rewrite lookup_insert_eq, decide_True.
  - rewrite lookup_insert_ne by done. rewrite app_nil_r. apply Hf.
Qed.

Lemma check_fold n es :
  ordered es -> Forall (fun e => 0 <= en_Id e < Z.of_nat n)%Z es ->
  let zeros := list_to_map ((fun i => (i, 0%Z)) <$> seqZ 0 (Z.of_nat n)) : gmap Z Z in
  exists ex sk, foldl check_entry (Some (zeros, zeros)) es = Some (ex, sk) /\ found (Z.of_nat n) nxt es ex /\ found (Z.of_nat n) gap es sk.
Proof.
  intros Ho HF zeros. induction es as [|e es IH] using rev_ind.
  - exists zeros, zeros. split_and!; [done|intros c; apply zeros_lookup..].
  - apply Forall_app in HF as [HF He]. apply Forall_inv in He.
    assert (ordered es) as Ho' by (intros pre e' post ->; apply (Ho pre e' (post ++ [e])); by rewrite <- app_assoc).
    destruct (IH Ho' HF) as (ex & sk & Hfold & Hex & Hsk). rewrite foldl_app, Hfold. simpl.
    pose proof (Ho es e [] eq_refl) as Hle. pose proof (Hex (en_Id e)) as Hxe. rewrite decide_True in Hxe by done.
    pose proof (Hsk (en_Id e)) as Hse. rewrite decide_True in Hse by done. rewrite Hxe, Hse. simpl.
    pose proof (found_insert _ nxt _ _ _ He Hex) as Hex'. rewrite nxt_snoc in Hex'.
    pose proof (found_insert _ gap _ _ _ He Hsk) as Hsk'. unfold gap in Hsk' at 2. rewrite nxt_snoc in Hsk'. unfold zlen in Hsk'.
    rewrite length_app in Hsk'. simpl in Hsk'. rewrite decide_False by lia. case_decide as Hd.
    + rewrite Hd. eexists _, _. split_and!; [done|done|]. intros c. rewrite <- Hsk'.
      destruct (decide (en_Id e = c)) as [<-|Hne]; [|by rewrite lookup_insert_ne]. rewrite lookup_insert_eq, Hse. f_equal.
      unfold gap, zlen. lia.
    + eexists _, _. split_and!; [done|done|].
      replace (gap (own (en_Id e) es) + (en_N e - nxt (own (en_Id e) es)))%Z with (en_N e + 1 - Z.of_nat (length (own (en_Id e) es) + 1))%Z; [done|].
      unfold gap, zlen. lia.
Qed.

Lemma check_passes n es rs : ordered es -> Forall (fun e => 0 <= en_Id e < Z.of_nat n)%Z es -> length rs = n ->
  (forall (i : nat) r, rs !! i = Some r -> (nxt (own (Z.of_nat i) es) <= Nok r + Nmaybe r)%Z /\ (Nok r <= zlen (own (Z.of_nat i) es))%Z) ->
  CheckAppends es n rs (N.of_nat (S (length es))) = true.
Proof.
  intros Ho HF Hn Hr. unfold CheckAppends. destruct (check_fold n es Ho HF) as (ex & sk & -> & Hex & Hsk).
  rewrite bool_decide_true by (unfold zlen; lia). simpl. apply forallb_forall. intros [c m] Hin%list_elem_of_In%elem_of_map_to_list.
  rewrite Hex in Hin. case_decide as Hc; [|done]. injection Hin as <-. unfold check_clnt, zlookup. simpl.
  rewrite (proj2 (Z.ltb_ge c 0)) by lia. destruct (lookup_lt_is_Some_2 rs (Z.to_nat c)) as [r Hi]; [lia|]. rewrite Hi.
  destruct (Hr _ _ Hi) as [R1 R2]. rewrite Z2Nat.id in R1, R2 by lia. rewrite Hsk, decide_True by done. simpl.
  unfold gap. rewrite !bool_decide_true by lia. done.
Qed.

Lemma content_ids (P : Z -> Prop) xs l es0 : content xs = Some es0 -> Forall (fun e => P (en_Id e)) es0 ->
  Forall (fun x => P (x_cli x)) l -> aok (xs ++ l) ->
  exists es, content (xs ++ l) = Some es /\ Forall (fun e => P (en_Id e)) es.
Proof.
  intros Hc H0 HF. revert HF. induction l as [|x l IH] using rev_ind; intros HF Hok; [rewrite app_nil_r; eauto|].
  apply Forall_app in HF as [HF Hx]. apply Forall_inv in Hx. rewrite app_assoc in Hok |- *.
  assert (aok (xs ++ l)) as Hok' by (eapply execs_ok_prefix; [|exact Hok]; by eexists).
  destruct (IH HF Hok') as (es & Hc' & HFe).
  assert (exec_ok maybe apG (xs ++ l) x) as Hxo.
  { pose proof (Hok (length (xs ++ l)) x) as Hxo. rewrite take_app_length in Hxo. apply Hxo. by rewrite lookup_app_r, Nat.sub_diag by lia. }
  destruct (content_step _ _ _ Hxo Hc') as [[-> _]|(n & _ & ->)]; [eauto|]. eexists. split; [done|].
  apply Forall_app. split; [done|]. by repeat constructor.
Qed.

(** The list is there and empty, and nobody is in a call. *)
Definition append_start (w : ktw) : Prop :=
  world_ok maybe apG w /\ (forall me, logged me w) /\ content (kw_execs w) = Some [].

(** C36. The test of many clients appending to one list passes on a store that keeps its
    promise: however the clients interleave, and also when answers are [ErrMaybe], no
    client fails, and when all have returned the list and its version pass
    [CheckAppends] - each client's numbers increase, those missing were answered
    [ErrMaybe], the version counts the entries - and the log of the calls is one the
    linearizability checker accepts. *)
Theorem kvtest_appends_pass inner fuel nclnt w0 s :
  append_start w0 ->
  rtc (kts_step maybe) (mkKts w0 (SpawnClients nclnt (fun me => OneClientAppend inner fuel me 0 0 0))) s ->
  (forall me, ks_cl s !! me <> Some Panic) /\
  forall rs, length rs = nclnt -> (forall (i : nat) r, rs !! i = Some r -> ks_cl s !! Z.of_nat i = Some (Ret r)) ->
    let xs := kw_execs (ks_w s) in
    (exists es, content xs = Some es /\ CheckAppends es nclnt rs (N.of_nat (length (view xs "k"))) = true) /\
    ((N.of_nat (length xs) < two64)%N -> linearizable_ops (kw_ops (ks_w s))).
Proof using JO.
  intros (Hw0 & Hl0 & Hc0) Hr.
  assert (sys_safe maybe apG append_post (mkKts w0 (SpawnClients nclnt (fun me => OneClientAppend inner fuel me 0 0 0)))) as HS0.
  { split; [done|]. intros me p [_ ->]%spawn_lookup. apply (OneClientAppend_safe inner fuel me 0 0 0 []); [|done|unfold zlen; simpl; lia|lia].
    split_and!; [done|done|]. exists []. by split_and!. }
  pose proof (sys_run _ _ _ _ _ HS0 Hr) as HS. split; [intros me; by eapply sys_no_panic|]. intros rs Hn Hrs xs.
  destruct (only_run _ _ _ _ _ _ HS0 (spawn_only _ _ _ _ _) Hr) as [He (l & Hl & HF)]. pose proof HS as [Hw _].
  assert (forall me, is_Some (ks_cl s !! me) <-> (0 <= me < Z.of_nat nclnt)%Z) as Hdom.
  { intros me. rewrite (dom_run _ _ _ Hr). simpl. split; [by intros [p [? _]%spawn_lookup]|]. intros Hb. eexists. by apply spawn_lookup. }
  assert (forall (i : nat) r, rs !! i = Some r -> append_post (Z.of_nat i) (ks_w s) r) as Hpost.
  { intros i r Hi. eapply (sys_ret _ _ append_post); [exact HS|by apply Hrs]. }
  assert (aok xs) as Hok by apply Hw. split.
  - destruct (content_ids (fun c => 0 <= c < Z.of_nat nclnt)%Z _ l [] Hc0) as (es & Hc & HFe); [done| |by rewrite <- Hl|].
    { eapply Forall_impl; [exact HF|]. intros x. simpl. apply Hdom. }
    rewrite <- Hl in Hc. exists es. split; [done|].
    destruct (content_ok xs Hok (content_view _ _ Hc)) as (es' & Hc' & Hlen & Ho). assert (es' = es) as -> by (unfold xs in Hc'; congruence).
    rewrite <- Hlen. apply check_passes; [done|done|done|]. intros i r Hi.
    destruct (Hpost _ _ Hi) as (ns & (_ & _ & es2 & Hc2 & Hown & Hnx) & Hb & _). assert (es2 = es) as -> by congruence. rewrite Hown. lia.
  - intros Hb. eapply logged_linearizable; [|exact Hw| |exact Hb].
    + intros pre cli k v ver [_ [[-> _]|(_ & Hv & _)]]; [done|done].
    + intros me. destruct (ks_cl s !! me) as [p|] eqn:Hme.
      * destruct (proj1 (Hdom me)) as [H0 H1]; [by eexists|]. destruct (lookup_lt_is_Some_2 rs (Z.to_nat me)) as [r Hi]; [lia|].
        destruct (Hpost _ _ Hi) as (ns & (_ & Hlog & _) & _). by rewrite Z2Nat.id in Hlog by lia.
      * eapply logged_env; [by apply He|apply Hl0].
Qed.

End appends.
