(* ===== verification/KvTestSim.v ===== *)
(** * Executed tests

    The hypotheses of [KvTestPuts] and [KvTestAppends] hold: with an encoding, two
    clients race to put to a key and two append to a list, one answer being [ErrMaybe];
    the checks are executed on what they leave. *)

From S2P Require Import Prelude.
From S2P Require Import Rpc.
From S2P Require Import KvSpec.
From S2P Require Import KvSrv.
From S2P Require Import Prog.
From S2P Require Import BitCodec.
From S2P Require Import KvTest.
From S2P Require Import KvTestSafe.
From S2P Require Import KvTestPuts.
From S2P Require Import KvTestAppends.

#[global] Instance EntryV_eq_dec : EqDecision EntryV.
Proof. solve_decision. Defined.

#[global] Instance EntryV_countable : Countable EntryV.
Proof. apply (inj_countable' (fun e => (ev_Id e, ev_V e)) (fun x => mkEntryV x.1 x.2)). by intros []. Defined.

#[global] Instance EntryN_eq_dec : EqDecision EntryN.
Proof. solve_decision. Defined.

#[global] Instance EntryN_countable : Countable EntryN.
Proof. apply (inj_countable' (fun e => (en_Id e, en_N e)) (fun x => mkEntryN x.1 x.2)). by intros []. Defined.

#[global] Instance BitsJson {A} `{Countable A} : Json A := {|
  json_Marshal := fun a => Some (String.string_of_list_byte (bits_encode a));
  json_Unmarshal := fun s => '(a, _) ← bits_decode (String.list_byte_of_string s); Some a |}.

#[global] Instance BitsJson_ok {A} `{Countable A} : JsonOk A.
Proof.
  constructor; [by eexists|]. intros a s [= <-]. simpl.
  by rewrite String.list_byte_of_string_of_list_byte, <- (app_nil_r (bits_encode a)), bits_decode_encode.
Qed.

(** ** Schedules

    Which client goes on, and, for its effect, whether the clerk can tell, whether the
    test is over and the number drawn. *)
Record choice : Type := mkChoice { ch_me : Z; ch_maybe : bool; ch_done : bool; ch_rand : nat }.

Definition answer_of (ch : choice) (w : ktw) (e : kt_eff) : option (kt_resp e * ktw) :=
  let exec inp out eff := mkKtw (kw_execs w ++ [mkExec (ch_me ch) inp out (kw_now w) eff]) (kw_now w) (kw_ops w) in
  match e return option (kt_resp e * ktw) with
  | KNow => Some (kw_now w, w)
  | KGet k => let r := get_answer (view (kw_execs w) k) in
      Some (r, exec (mkKvInput 0 k "" 0) (mkKvOutput r.1.1 r.1.2 r.2) false)
  | KPut k v ver =>
      let vs := view (kw_execs w) k in
      let told e := if ch_maybe ch then ErrMaybe else e in
      let '(r, eff) := if decide (ver = N.of_nat (length vs)) then (told OK, true)
                       else (match vs with [] => ErrNoKey | _ => told ErrVersion end, false) in
      Some (r, exec (mkKvInput 1 k v ver) (mkKvOutput "" 0 r) eff)
  | KLog op => Some (tt, mkKtw (kw_execs w) (kw_now w) (OpLog_Append op (kw_ops w)))
  | KDone => Some (ch_done ch, w)
  | KRand n => if decide (ch_rand ch < n) then Some (ch_rand ch, w) else None
  end.

Lemma answer_of_ok ch w e r w' : answer_of ch w e = Some (r, w') -> tanswer true (ch_me ch) w e r w'.
Proof.
  destruct e as [|k|k v ver|op| |n]; simpl; [by intros [= <- <-]|by intros [= <- <-]| |by intros [= _ <-]|by intros [= <- <-]|].
  - unfold put_answer, told. destruct (decide (ver = N.of_nat (length (view (kw_execs w) k)))) as [Hv|Hv]; intros [= <- <-].
    + exists true. split; [|done]. split; [done|]. destruct (ch_maybe ch); auto.
    + exists false. split; [|done]. split; [done|].
      destruct (view (kw_execs w) k); [done|]. destruct (ch_maybe ch); auto.
  - case_decide; [|done]. by intros [= <- <-].
Qed.

(** One effect, then one unit of time. *)
Definition kts_exec {A} (ch : choice) (s : kts A) : option (kts A) :=
  p ← ks_cl s !! ch_me ch;
  match p with
  | Call e k =>
      '(r, w') ← answer_of ch (ks_w s) e;
      Some (mkKts (mkKtw (kw_execs w') (kw_now w' + 1) (kw_ops w')) (<[ch_me ch := k r]> (ks_cl s)))
  | _ => None
  end.

Fixpoint kts_exec_all {A} (chs : list choice) (s : kts A) : option (kts A) :=
  match chs with [] => Some s | ch :: chs' => s' ← kts_exec ch s; kts_exec_all chs' s' end.

Lemma kts_exec_run {A} chs : forall (s s' : kts A), kts_exec_all chs s = Some s' -> rtc (kts_step true) s s'.
Proof.
  induction chs as [|ch chs IH]; intros s s'; simpl; [intros [= <-]; apply rtc_refl|].
  intros (s1 & (p & Hp & H1)%bind_Some & H2)%bind_Some. destruct p as [a| | |e k]; try done.
  apply bind_Some in H1 as ([r w'] & Ha & [= <-]).
  eapply rtc_l; [eapply KS_call; [exact Hp|by apply answer_of_ok]|].
  eapply rtc_l; [apply (KS_tick _ _ 1); lia|]. by apply IH.
Qed.

Definition go (n : nat) (me : Z) : list choice := replicate n (mkChoice me false false 0).

Definition unsure (me : Z) : list choice := [mkChoice me true false 0].

Definition over (me : Z) : list choice := [mkChoice me false true 0].

(** ** Puts *)

Definition ex_kt_puts : list choice :=
  go 3 0 ++ go 3 1 ++ go 6 0 ++ over 0 ++ go 7 1 ++ unsure 1 ++ go 6 1 ++ over 1.

Definition ex_kt_put_start : kts ClntRes :=
  mkKts (mkKtw [] 0 []) (SpawnClients 2 (fun me => OneClientPut false 4 3 me ["k"] ∅ (mkClntRes 0 0))).

Definition ex_kt_put_end : kts ClntRes := default ex_kt_put_start (kts_exec_all ex_kt_puts ex_kt_put_start).

Definition ex_kt_rs : list ClntRes := [mkClntRes 1 0; mkClntRes 0 1].

Lemma kvtest_puts_pass_witness :
  ks_cl ex_kt_put_end !! 0%Z = Some (Ret (mkClntRes 1 0)) /\ ks_cl ex_kt_put_end !! 1%Z = Some (Ret (mkClntRes 0 1)) /\
  length (view (kw_execs (ks_w ex_kt_put_end)) "k") = 2 /\ length (kw_ops (ks_w ex_kt_put_end)) = 6 /\
  linearizable_ops (kw_ops (ks_w ex_kt_put_end)) /\
  ~ panics alone (tanswer true (-1)) (CheckPutConcurrent "k" ex_kt_rs (mkClntRes 0 0) false) (ks_w ex_kt_put_end).
Proof.
  split; [vm_compute; reflexivity|]. split; [vm_compute; reflexivity|]. split; [vm_compute; reflexivity|].
  split; [vm_compute; reflexivity|].
  destruct (kvtest_puts_pass true ["k"] false 4 3 2 (mkKtw [] 0 []) ex_kt_put_end) as [_ Hdone].
  - done.
  - split; [by constructor|intros me; constructor].
  - apply (kts_exec_run ex_kt_puts). vm_compute. reflexivity.
  - destruct (Hdone ex_kt_rs) as (_ & Hlin & Hcheck); [done| |].
    + intros [|[|i]] r Hr; simpl in Hr; [injection Hr as <-; vm_compute; reflexivity|injection Hr as <-; vm_compute; reflexivity|done].
    + split; [apply Hlin; vm_compute; reflexivity|]. apply (Hcheck "k" (mkClntRes 0 0) false); [done| | |done|done].
      * split_and!; [done|done|done|done|done].
      * vm_compute. discriminate.
Defined.

(** ** Appends *)

Definition ex_kt_empty : string := default "" (json_Marshal ([] : list EntryN)).

(** The list was put by the client that starts the test. *)
Definition ex_kt_list : ktw :=
  mkKtw [mkExec (-1) (mkKvInput 1 "k" ex_kt_empty 0) (mkKvOutput "" 0 OK) 1 true] 2
    [mkOperation (-1) (mkKvInput 1 "k" ex_kt_empty 0) 0 (mkKvOutput "" 0 OK) 2].

Lemma ex_kt_list_start : append_start true ex_kt_list.
Proof.
  split_and!.
  - constructor; simpl.
    + intros [|n] x Hx; [injection Hx as <-|done]. right. exists "k", ex_kt_empty, 0%N, OK. split_and!; [done|done| |].
      * split; [done|by left].
      * split; [done|]. left. split; [done|]. by vm_compute.
    + intros [|i] [|j] x y Hi Hj _; simplify_eq/=. lia.
    + intros [|i] x Hi; simplify_eq/=. lia.
  - intros me. unfold logged, mine, mops. simpl. rewrite !filter_cons. simpl. case_decide; [|constructor].
    repeat constructor; simpl; lia.
  - vm_compute. reflexivity.
Qed.

Definition ex_kt_append_start : kts ClntRes := mkKts ex_kt_list (SpawnClients 2 (fun me => OneClientAppend 4 3 me 0 0 0)).

Definition ex_kt_appends : list choice :=
  go 6 0 ++ go 6 1 ++ go 3 0 ++ over 0 ++ unsure 1 ++ go 2 1 ++ go 9 1 ++ over 1.

Definition ex_kt_append_end : kts ClntRes := default ex_kt_append_start (kts_exec_all ex_kt_appends ex_kt_append_start).

Lemma kvtest_appends_pass_witness :
  content (kw_execs (ks_w ex_kt_append_end)) = Some [mkEntryN 0 0; mkEntryN 1 1] /\
  CheckAppends [mkEntryN 0 0; mkEntryN 1 1] 2 [mkClntRes 1 0; mkClntRes 1 1] 3 = true /\
  linearizable_ops (kw_ops (ks_w ex_kt_append_end)).
Proof.
  assert (content (kw_execs (ks_w ex_kt_append_end)) = Some [mkEntryN 0 0; mkEntryN 1 1]) as Hc by (vm_compute; reflexivity).
  destruct (kvtest_appends_pass true 4 3 2 ex_kt_list ex_kt_append_end) as [_ Hdone].
  - exact ex_kt_list_start.
  - apply (kts_exec_run ex_kt_appends). vm_compute. reflexivity.
  - destruct (Hdone [mkClntRes 1 0; mkClntRes 1 1]) as [(es & Hes & Hcheck) Hlin]; [done| |].
    + intros [|[|i]] r Hr; simpl in Hr; [injection Hr as <-; vm_compute; reflexivity|injection Hr as <-; vm_compute; reflexivity|done].
    + split; [done|]. assert (es = [mkEntryN 0 0; mkEntryN 1 1]) as -> by congruence.
      assert (N.of_nat (length (view (kw_execs (ks_w ex_kt_append_end)) "k")) = 3%N) as Hlen by (vm_compute; reflexivity).
      split; [by rewrite Hlen in Hcheck|]. apply Hlin. vm_compute. reflexivity.
Defined.
