(* ===== verification/Raft.v ===== *)
(** * One Raft node ([raft1/raft.go])

    The state record [Raft] has the fields of the Go struct, and every function
    of [raft.go] that runs under [rf.mu] is one definition on it, so one
    critical section of the code is one function here.  A function that can
    panic (a slice index out of range, a gob error) returns an [option], [None]
    being the panic.  Reading the clock or the random source is an argument.
    Goroutines, channels and condition variables appear only through the state
    they share under the lock; the cluster they make up is in [RaftCluster]. *)

From S2P Require Import Prelude.
From S2P Require Import Persister.
From Stdlib Require Import Strings.Byte.

(** ** The encoding of log entries

    [labgob] wraps Go's [encoding/gob].  [gob_entry t c] is the encoding of
    [LogEntry{Term: t, Command: c}], [None] when gob reports an error (a command
    type that was never registered); [ungob_entry] decodes one entry.
    [ungob_int] and [ungob_entries] read one value of a longer gob stream, which
    only the legacy format of the persisted state uses.  [Cmd] is what a caller
    puts into [interface{}]; a nil command is [None]. *)
Class GobLog := {
  Cmd : Type;
  gob_entry : Z -> option Cmd -> option bytes;
  ungob_entry : bytes -> option (Z * option Cmd);
  ungob_int : bytes -> option (Z * bytes);
  ungob_entries : bytes -> option (list (Z * option Cmd) * bytes);
}.

(** What the code relies on: gob decodes what it encoded, and an encoding is a
    Go slice, whose length is an [int]. *)
Class GobLogLaws {GL : GobLog} : Prop := {
  ungob_gob_entry t c bs : gob_entry t c = Some bs -> ungob_entry bs = Some (t, c);
  gob_entry_length t c bs : gob_entry t c = Some bs -> (zlen bs < 2 ^ 63)%Z;
}.

Section Raft.
Context {GL : GobLog}.

Inductive Role : Type := Follower | Candidate | Leader.

#[global] Instance Role_eq_dec : EqDecision Role.
Proof. solve_decision. Defined.

Record LogEntry : Type := mkLogEntry { le_Term : Z; le_Command : option Cmd }.

(** [raftapi.ApplyMsg] *)
Record ApplyMsg : Type := mkApplyMsg {
am_CommandValid : bool;
am_Command : option Cmd;
am_CommandIndex : Z;
am_SnapshotValid : bool;
am_Snapshot : bytes;
am_SnapshotTerm : Z;
am_SnapshotIndex : Z;
}.

Record AppendEntriesArgs : Type := mkAppendEntriesArgs {
ae_Term : Z;
ae_LeaderId : nat;
ae_PrevLogIndex : Z;
ae_PrevLogTerm : Z;
ae_Entries : list LogEntry;
ae_LeaderCommit : Z;
}.

Record AppendEntriesReply : Type := mkAppendEntriesReply {
aer_Term : Z;
aer_Success : bool;
aer_Stopped : bool;
aer_ConflictTerm : Z;
aer_ConflictIndex : Z;
}.

Record InstallSnapshotArgs : Type := mkInstallSnapshotArgs {
is_Term : Z;
is_LeaderId : nat;
is_LastIncludedIndex : Z;
is_LastIncludedTerm : Z;
is_Data : bytes;
}.

Record InstallSnapshotReply : Type := mkInstallSnapshotReply {
isr_Term : Z;
isr_Stopped : bool;
}.

Record RequestVoteArgs : Type := mkRequestVoteArgs {
rv_Term : Z;
rv_CandidateId : nat;
rv_LastLogIndex : Z;
rv_LastLogTerm : Z;
}.

Record RequestVoteReply : Type := mkRequestVoteReply {
rvr_Term : Z;
rvr_VoteGranted : bool;
}.

(** ** The node *)

Record Raft : Type := mkRaft {
peers : nat;  (* len(rf.peers) *)
me : nat;  (* index of this node in peers *)
dead : bool;  (* set by Kill, when done is closed too *)
currentTerm : Z;
votedFor : Z;
logs : list LogEntry;
encodedLogs : list bytes;  (* the encoded form of each entry of logs *)
nextIndex : list Z;
matchIndex : list Z;
state : Role;
electionDeadline : Z;  (* nanoseconds *)
commitIndex : Z;
lastApplied : Z;
replicateNotify : list bool;  (* the one-slot channels: a notification is waiting *)
replicateBusy : list bool;
lastRescueSent : list Z;  (* nanoseconds; 0 is the zero time *)
lastIncludedIndex : Z;
lastIncludedTerm : Z;
snapshot : bytes;
pendingSnapshot : option ApplyMsg;
persister : Persister;
}.

Definition set_peers (v : nat) (rf : Raft) : Raft :=
mkRaft
  v (me rf) (dead rf) (currentTerm rf) (votedFor rf) (logs rf) (encodedLogs rf)
  (nextIndex rf) (matchIndex rf) (state rf) (electionDeadline rf) (commitIndex rf)
  (lastApplied rf) (replicateNotify rf) (replicateBusy rf) (lastRescueSent rf)
  (lastIncludedIndex rf) (lastIncludedTerm rf) (snapshot rf) (pendingSnapshot rf)
  (persister rf).

Definition set_me (v : nat) (rf : Raft) : Raft :=
mkRaft
  (peers rf) v (dead rf) (currentTerm rf) (votedFor rf) (logs rf) (encodedLogs rf)
  (nextIndex rf) (matchIndex rf) (state rf) (electionDeadline rf) (commitIndex rf)
  (lastApplied rf) (replicateNotify rf) (replicateBusy rf) (lastRescueSent rf)
  (lastIncludedIndex rf) (lastIncludedTerm rf) (snapshot rf) (pendingSnapshot rf)
  (persister rf).

Definition set_dead (v : bool) (rf : Raft) : Raft :=
mkRaft
  (peers rf) (me rf) v (currentTerm rf) (votedFor rf) (logs rf) (encodedLogs rf)
  (nextIndex rf) (matchIndex rf) (state rf) (electionDeadline rf) (commitIndex rf)
  (lastApplied rf) (replicateNotify rf) (replicateBusy rf) (lastRescueSent rf)
  (lastIncludedIndex rf) (lastIncludedTerm rf) (snapshot rf) (pendingSnapshot rf)
  (persister rf).

Definition set_currentTerm (v : Z) (rf : Raft) : Raft :=
mkRaft
  (peers rf) (me rf) (dead rf) v (votedFor rf) (logs rf) (encodedLogs rf) (nextIndex
  rf) (matchIndex rf) (state rf) (electionDeadline rf) (commitIndex rf) (lastApplied
  rf) (replicateNotify rf) (replicateBusy rf) (lastRescueSent rf) (lastIncludedIndex
  rf) (lastIncludedTerm rf) (snapshot rf) (pendingSnapshot rf) (persister rf).

Definition set_votedFor (v : Z) (rf : Raft) : Raft :=
mkRaft
  (peers rf) (me rf) (dead rf) (currentTerm rf) v (logs rf) (encodedLogs rf)
  (nextIndex rf) (matchIndex rf) (state rf) (electionDeadline rf) (commitIndex rf)
  (lastApplied rf) (replicateNotify rf) (replicateBusy rf) (lastRescueSent rf)
  (lastIncludedIndex rf) (lastIncludedTerm rf) (snapshot rf) (pendingSnapshot rf)
  (persister rf).

Definition set_logs (v : list LogEntry) (rf : Raft) : Raft :=
mkRaft
  (peers rf) (me rf) (dead rf) (currentTerm rf) (votedFor rf) v (encodedLogs rf)
  (nextIndex rf) (matchIndex rf) (state rf) (electionDeadline rf) (commitIndex rf)
  (lastApplied rf) (replicateNotify rf) (replicateBusy rf) (lastRescueSent rf)
  (lastIncludedIndex rf) (lastIncludedTerm rf) (snapshot rf) (pendingSnapshot rf)
  (persister rf).

Definition set_encodedLogs (v : list bytes) (rf : Raft) : Raft :=
mkRaft
  (peers rf) (me rf) (dead rf) (currentTerm rf) (votedFor rf) (logs rf) v (nextIndex
  rf) (matchIndex rf) (state rf) (electionDeadline rf) (commitIndex rf) (lastApplied
  rf) (replicateNotify rf) (replicateBusy rf) (lastRescueSent rf) (lastIncludedIndex
  rf) (lastIncludedTerm rf) (snapshot rf) (pendingSnapshot rf) (persister rf).

Definition set_nextIndex (v : list Z) (rf : Raft) : Raft :=
mkRaft
  (peers rf) (me rf) (dead rf) (currentTerm rf) (votedFor rf) (logs rf) (encodedLogs
  rf) v (matchIndex rf) (state rf) (electionDeadline rf) (commitIndex rf) (lastApplied
  rf) (replicateNotify rf) (replicateBusy rf) (lastRescueSent rf) (lastIncludedIndex
  rf) (lastIncludedTerm rf) (snapshot rf) (pendingSnapshot rf) (persister rf).

Definition set_matchIndex (v : list Z) (rf : Raft) : Raft :=
mkRaft
  (peers rf) (me rf) (dead rf) (currentTerm rf) (votedFor rf) (logs rf) (encodedLogs
  rf) (nextIndex rf) v (state rf) (electionDeadline rf) (commitIndex rf) (lastApplied
  rf) (replicateNotify rf) (replicateBusy rf) (lastRescueSent rf) (lastIncludedIndex
  rf) (lastIncludedTerm rf) (snapshot rf) (pendingSnapshot rf) (persister rf).

Definition set_state (v : Role) (rf : Raft) : Raft :=
mkRaft
  (peers rf) (me rf) (dead rf) (currentTerm rf) (votedFor rf) (logs rf) (encodedLogs
  rf) (nextIndex rf) (matchIndex rf) v (electionDeadline rf) (commitIndex rf)
  (lastApplied rf) (replicateNotify rf) (replicateBusy rf) (lastRescueSent rf)
  (lastIncludedIndex rf) (lastIncludedTerm rf) (snapshot rf) (pendingSnapshot rf)
  (persister rf).

Definition set_electionDeadline (v : Z) (rf : Raft) : Raft :=
mkRaft
  (peers rf) (me rf) (dead rf) (currentTerm rf) (votedFor rf) (logs rf) (encodedLogs
  rf) (nextIndex rf) (matchIndex rf) (state rf) v (commitIndex rf) (lastApplied rf)
  (replicateNotify rf) (replicateBusy rf) (lastRescueSent rf) (lastIncludedIndex rf)
  (lastIncludedTerm rf) (snapshot rf) (pendingSnapshot rf) (persister rf).

Definition set_commitIndex (v : Z) (rf : Raft) : Raft :=
mkRaft
  (peers rf) (me rf) (dead rf) (currentTerm rf) (votedFor rf) (logs rf) (encodedLogs
  rf) (nextIndex rf) (matchIndex rf) (state rf) (electionDeadline rf) v (lastApplied
  rf) (replicateNotify rf) (replicateBusy rf) (lastRescueSent rf) (lastIncludedIndex
  rf) (lastIncludedTerm rf) (snapshot rf) (pendingSnapshot rf) (persister rf).

Definition set_lastApplied (v : Z) (rf : Raft) : Raft :=
mkRaft
  (peers rf) (me rf) (dead rf) (currentTerm rf) (votedFor rf) (logs rf) (encodedLogs
  rf) (nextIndex rf) (matchIndex rf) (state rf) (electionDeadline rf) (commitIndex rf)
  v (replicateNotify rf) (replicateBusy rf) (lastRescueSent rf) (lastIncludedIndex rf)
  (lastIncludedTerm rf) (snapshot rf) (pendingSnapshot rf) (persister rf).

Definition set_replicateNotify (v : list bool) (rf : Raft) : Raft :=
mkRaft
  (peers rf) (me rf) (dead rf) (currentTerm rf) (votedFor rf) (logs rf) (encodedLogs
  rf) (nextIndex rf) (matchIndex rf) (state rf) (electionDeadline rf) (commitIndex rf)
  (lastApplied rf) v (replicateBusy rf) (lastRescueSent rf) (lastIncludedIndex rf)
  (lastIncludedTerm rf) (snapshot rf) (pendingSnapshot rf) (persister rf).

Definition set_replicateBusy (v : list bool) (rf : Raft) : Raft :=
mkRaft
  (peers rf) (me rf) (dead rf) (currentTerm rf) (votedFor rf) (logs rf) (encodedLogs
  rf) (nextIndex rf) (matchIndex rf) (state rf) (electionDeadline rf) (commitIndex rf)
  (lastApplied rf) (replicateNotify rf) v (lastRescueSent rf) (lastIncludedIndex rf)
  (lastIncludedTerm rf) (snapshot rf) (pendingSnapshot rf) (persister rf).

Definition set_lastRescueSent (v : list Z) (rf : Raft) : Raft :=
mkRaft
  (peers rf) (me rf) (dead rf) (currentTerm rf) (votedFor rf) (logs rf) (encodedLogs
  rf) (nextIndex rf) (matchIndex rf) (state rf) (electionDeadline rf) (commitIndex rf)
  (lastApplied rf) (replicateNotify rf) (replicateBusy rf) v (lastIncludedIndex rf)
  (lastIncludedTerm rf) (snapshot rf) (pendingSnapshot rf) (persister rf).

Definition set_lastIncludedIndex (v : Z) (rf : Raft) : Raft :=
mkRaft
  (peers rf) (me rf) (dead rf) (currentTerm rf) (votedFor rf) (logs rf) (encodedLogs
  rf) (nextIndex rf) (matchIndex rf) (state rf) (electionDeadline rf) (commitIndex rf)
  (lastApplied rf) (replicateNotify rf) (replicateBusy rf) (lastRescueSent rf) v
  (lastIncludedTerm rf) (snapshot rf) (pendingSnapshot rf) (persister rf).

Definition set_lastIncludedTerm (v : Z) (rf : Raft) : Raft :=
mkRaft
  (peers rf) (me rf) (dead rf) (currentTerm rf) (votedFor rf) (logs rf) (encodedLogs
  rf) (nextIndex rf) (matchIndex rf) (state rf) (electionDeadline rf) (commitIndex rf)
  (lastApplied rf) (replicateNotify rf) (replicateBusy rf) (lastRescueSent rf)
  (lastIncludedIndex rf) v (snapshot rf) (pendingSnapshot rf) (persister rf).

Definition set_snapshot (v : bytes) (rf : Raft) : Raft :=
mkRaft
  (peers rf) (me rf) (dead rf) (currentTerm rf) (votedFor rf) (logs rf) (encodedLogs
  rf) (nextIndex rf) (matchIndex rf) (state rf) (electionDeadline rf) (commitIndex rf)
  (lastApplied rf) (replicateNotify rf) (replicateBusy rf) (lastRescueSent rf)
  (lastIncludedIndex rf) (lastIncludedTerm rf) v (pendingSnapshot rf) (persister rf).

Definition set_pendingSnapshot (v : option ApplyMsg) (rf : Raft) : Raft :=
mkRaft
  (peers rf) (me rf) (dead rf) (currentTerm rf) (votedFor rf) (logs rf) (encodedLogs
  rf) (nextIndex rf) (matchIndex rf) (state rf) (electionDeadline rf) (commitIndex rf)
  (lastApplied rf) (replicateNotify rf) (replicateBusy rf) (lastRescueSent rf)
  (lastIncludedIndex rf) (lastIncludedTerm rf) (snapshot rf) v (persister rf).

Definition set_persister (v : Persister) (rf : Raft) : Raft :=
mkRaft
  (peers rf) (me rf) (dead rf) (currentTerm rf) (votedFor rf) (logs rf) (encodedLogs
  rf) (nextIndex rf) (matchIndex rf) (state rf) (electionDeadline rf) (commitIndex rf)
  (lastApplied rf) (replicateNotify rf) (replicateBusy rf) (lastRescueSent rf)
  (lastIncludedIndex rf) (lastIncludedTerm rf) (snapshot rf) (pendingSnapshot rf) v.

(** ** Slices *)

(** [l[i] = v] and [l[off:]]. *)
Definition slice_set {A} (l : list A) (i : nat) (v : A) : option (list A) :=
if decide (i < length l) then Some (<[i:=v]> l) else None.

Definition slice_from {A} (l : list A) (off : Z) : option (list A) :=
if decide (0 <= off <= zlen l)%Z then Some (drop (Z.to_nat off) l) else None.

Definition slice_to {A} (l : list A) (off : Z) : option (list A) :=
if decide (0 <= off <= zlen l)%Z then Some (take (Z.to_nat off) l) else None.

(** ** Log indices *)

Definition firstLogIndexLocked (rf : Raft) : Z := lastIncludedIndex rf.

Definition lastLogIndexLocked (rf : Raft) : Z := (lastIncludedIndex rf + zlen (logs rf) - 1)%Z.

Definition toOffsetLocked (rf : Raft) (index : Z) : Z := (index - lastIncludedIndex rf)%Z.

Definition containsIndexLocked (rf : Raft) (index : Z) : bool :=
(lastIncludedIndex rf <=? index)%Z && (index <=? lastLogIndexLocked rf)%Z.

(** [termAtLocked] returns [(0, false)] outside the log, here [None]; inside,
  the slice access is in range. *)
Definition termAtLocked (rf : Raft) (index : Z) : option Z :=
if containsIndexLocked rf index
then le_Term <$> zlookup (logs rf) (toOffsetLocked rf index)
else None.

Definition lastLogTermLocked (rf : Raft) : option Z :=
le_Term <$> zlookup (logs rf) (zlen (logs rf) - 1).

(** The loop of [lastIndexOfTermLocked], from offset [n - 1] down. *)
Fixpoint lastOffsetOfTerm (l : list LogEntry) (term : Z) (n : nat) : option nat :=
match n with
| O => None
| S n' =>
    match l !! n' with
    | Some e => if (le_Term e =? term)%Z then Some n' else lastOffsetOfTerm l term n'
    | None => lastOffsetOfTerm l term n'
    end
end.

Definition lastIndexOfTermLocked (rf : Raft) (term : Z) : Z :=
match lastOffsetOfTerm (logs rf) term (length (logs rf)) with
| Some offset => (lastIncludedIndex rf + Z.of_nat offset)%Z
| None => (-1)%Z
end.

(** ** The clock *)

(** [400 + rand.Int63()%300] milliseconds, in nanoseconds. *)
Definition randomElectionTimeout (rnd : Z) : Z := ((400 + rnd mod 300) * 1000000)%Z.

(** A reading of [time.Now] with the random number drawn at it. *)
Record Clock : Type := mkClock { now : Z; rnd : Z }.

Definition resetElectionDeadlineLocked (clk : Clock) (rf : Raft) : Raft :=
set_electionDeadline (now clk + randomElectionTimeout (rnd clk))%Z rf.

(** ** Stable storage *)

Definition persistMagic : bytes := [x52; x46; x54; x32]. (* "RFT2" *)

Definition persistHeaderSize : Z := (zlen persistMagic + 5 * 8)%Z.

Definition encodeLogEntry (e : LogEntry) : option bytes := gob_entry (le_Term e) (le_Command e).

Definition rebuildEncodedLogs (rf : Raft) : option Raft :=
enc ← mapM encodeLogEntry (logs rf);
Some (set_encodedLogs enc rf).

Definition appendLogs (entries : list LogEntry) (rf : Raft) : option Raft :=
enc ← mapM encodeLogEntry entries;
Some (set_encodedLogs (encodedLogs rf ++ enc) (set_logs (logs rf ++ entries) rf)).

Definition truncateLogs (length : Z) (rf : Raft) : option Raft :=
l ← slice_to (logs rf) length;
enc ← slice_to (encodedLogs rf) length;
Some (set_encodedLogs enc (set_logs l rf)).

Definition replaceLogs (l : list LogEntry) (rf : Raft) : option Raft :=
rebuildEncodedLogs (set_logs l rf).

Definition putInt (value : Z) : bytes := PutUint64 (to_u64 value).

(** The buffer [persist] fills from front to back. *)
Definition raftState (rf : Raft) : bytes :=
persistMagic ++
putInt (currentTerm rf) ++
putInt (votedFor rf) ++
putInt (lastIncludedIndex rf) ++
putInt (lastIncludedTerm rf) ++
PutUint64 (N.of_nat (length (encodedLogs rf)) mod two64) ++
concat ((fun encoded => PutUint64 (N.of_nat (length encoded) mod two64) ++ encoded) <$>
  encodedLogs rf).

Definition persist (rf : Raft) : option Raft :=
if decide (length (encodedLogs rf) <> length (logs rf)) then None
else Some (set_persister (Persister_Save (persister rf) (raftState rf) (snapshot rf)) rf).

(** The loop of [readCachedPersist] over the entries, on the bytes that are
  left. *)
Fixpoint readCachedEntries (count : nat) (data : bytes) : option (list LogEntry * list bytes * bytes) :=
match count with
| O => Some ([], [], data)
| S count' =>
    '(length, rest) ← Uint64 data;
    if decide (Z.of_N length > zlen rest)%Z then None
    else
      let encoded := take (N.to_nat length) rest in
      '(t, c) ← ungob_entry encoded;
      '(ls, encs, rest') ← readCachedEntries count' (drop (N.to_nat length) rest);
      Some (mkLogEntry t c :: ls, encoded :: encs, rest')
end.

(** [Some None] is the result [false], [None] a panic. *)
Definition readCachedPersist (data : bytes) (rf : Raft) : option (option Raft) :=
if decide (zlen data < persistHeaderSize)%Z then Some None
else if decide (take (length persistMagic) data <> persistMagic) then Some None
else
  '(currentTerm', d1) ← Uint64 (drop (length persistMagic) data);
  '(votedFor', d2) ← Uint64 d1;
  '(lastIncludedIndex', d3) ← Uint64 d2;
  '(lastIncludedTerm', d4) ← Uint64 d3;
  '(count, d5) ← Uint64 d4;
  if decide (count = 0%N \/ (Z.of_N count > zlen d5 / 8)%Z) then None
  else
    '(logs', encodedLogs', rest) ← readCachedEntries (N.to_nat count) d5;
    if decide (rest <> []) then None
    else Some (Some (
      set_lastIncludedTerm (of_u64 lastIncludedTerm') (
      set_lastIncludedIndex (of_u64 lastIncludedIndex') (
      set_encodedLogs encodedLogs' (
      set_logs logs' (
      set_votedFor (of_u64 votedFor') (
      set_currentTerm (of_u64 currentTerm') rf))))))).

Definition readPersist (data : bytes) (rf : Raft) : option Raft :=
if decide (length data = 0) then Some rf
else
  cached ← readCachedPersist data rf;
  match cached with
  | Some rf' => Some rf'
  | None =>
      '(currentTerm', d1) ← ungob_int data;
      '(votedFor', d2) ← ungob_int d1;
      '(entries, d3) ← ungob_entries d2;
      '(lastIncludedIndex', d4) ← ungob_int d3;
      '(lastIncludedTerm', _) ← ungob_int d4;
      let logs' := (fun '(t, c) => mkLogEntry t c) <$> entries in
      if decide (length logs' = 0) then None
      else
        rf1 ← rebuildEncodedLogs (set_logs logs' (set_votedFor votedFor' (set_currentTerm currentTerm' rf)));
        Some (set_lastIncludedTerm lastIncludedTerm' (set_lastIncludedIndex lastIncludedIndex' rf1))
  end.

Definition PersistBytes (rf : Raft) : Z := RaftStateSize (persister rf).

(** ** Role changes *)

Definition killed (rf : Raft) : bool := dead rf.

Definition Kill (rf : Raft) : Raft :=
if killed rf then rf else set_state Follower (set_dead true rf).

(** [launch] starts a goroutine unless the node was killed; [tasks] are the
  goroutines of the process. *)
Definition launch {T} (rf : Raft) (task : T) (tasks : list T) : list T :=
if killed rf then tasks else tasks ++ [task].

Definition becomeFollowerLocked (term : Z) (rf : Raft) : option Raft :=
rf1 ← (if (currentTerm rf <? term)%Z
       then persist (set_votedFor (-1) (set_currentTerm term rf))
       else Some rf);
Some (set_state Follower rf1).

Definition becomeLeaderLocked (rf : Raft) : option Raft :=
let lastIndex := lastLogIndexLocked rf in
let rf1 := set_state Leader rf in
let rf2 := set_matchIndex (replicate (peers rf) 0%Z)
             (set_nextIndex (replicate (peers rf) (lastIndex + 1)%Z) rf1) in
let rf3 := if decide (length (lastRescueSent rf) = peers rf)
           then set_lastRescueSent (replicate (peers rf) 0%Z) rf2 else rf2 in
mi ← slice_set (matchIndex rf3) (me rf) lastIndex;
ni ← slice_set (nextIndex rf3) (me rf) (lastIndex + 1)%Z;
Some (set_nextIndex ni (set_matchIndex mi rf3)).

Definition GetState (rf : Raft) : Z * bool :=
(currentTerm rf, negb (killed rf) && bool_decide (state rf = Leader)).

(** ** The applier goroutine

  One pass of its locked section: it waits, it returns, or it has claimed
  messages that it sends on [applyCh], in order, without the lock. *)
Inductive applier_action : Type :=
| ApplierWait
| ApplierReturn
| ApplierSend (messages : list ApplyMsg).

Definition command_msg (index : Z) (e : LogEntry) : ApplyMsg :=
mkApplyMsg true (le_Command e) index false [] 0 0.

(** The messages for [start..end], [n] of them. *)
Fixpoint claimed_messages (rf : Raft) (start : Z) (n : nat) : option (list ApplyMsg) :=
match n with
| O => Some []
| S n' =>
    e ← zlookup (logs rf) (toOffsetLocked rf start);
    ms ← claimed_messages rf (start + 1) n';
    Some (command_msg start e :: ms)
end.

Definition applier (rf : Raft) : option (Raft * applier_action) :=
if killed rf then Some (rf, ApplierReturn)
else
  match pendingSnapshot rf with
  | Some message =>
      let rf1 := set_pendingSnapshot None rf in
      let rf2 := if (lastApplied rf <? am_SnapshotIndex message)%Z
                 then set_lastApplied (am_SnapshotIndex message) rf1 else rf1 in
      Some (rf2, ApplierSend [message])
  | None =>
      if (commitIndex rf <=? lastApplied rf)%Z then Some (rf, ApplierWait)
      else
        let start0 := (lastApplied rf + 1)%Z in
        let start := if (start0 <=? lastIncludedIndex rf)%Z
                     then (lastIncludedIndex rf + 1)%Z else start0 in
        let end_ := commitIndex rf in
        if decide (end_ - start + 1 < 0)%Z then None (* make: cap out of range *)
        else
          messages ← claimed_messages rf start (Z.to_nat (end_ - start + 1));
          Some (set_lastApplied end_ rf, ApplierSend messages)
  end.

End Raft.
