(* ===== verification/RaftRPC.v ===== *)
(** * The RPC handlers and RPC reply handlers of a Raft node ([raft1/raft.go])

    Each definition is one critical section of the code on the state of
    [Raft].  The loop of [replicateUntilStable] appears as its three locked
    sections: [replicate_request] builds a request, [replicate_append_reply]
    and [replicate_snapshot_reply] treat the two kinds of answer. *)

From S2P Require Import Prelude.
From S2P Require Import Persister.
From S2P Require Import Raft.

Section RaftRPC.
Context {GL : GobLog}.

(** ** InstallSnapshot *)

Definition snapshot_msg (rf : Raft) : ApplyMsg :=
  mkApplyMsg false None 0 true (snapshot rf) (lastIncludedTerm rf) (lastIncludedIndex rf).

(** The part of [InstallSnapshot] after the early returns. *)
Definition install_snapshot (args : InstallSnapshotArgs) (rf : Raft) : option Raft :=
  suffix ← (match termAtLocked rf (is_LastIncludedIndex args) with
            | Some localTerm =>
                if decide (localTerm = is_LastIncludedTerm args)
                then slice_from (logs rf) (toOffsetLocked rf (is_LastIncludedIndex args) + 1)
                else Some []
            | None => Some []
            end);
  let newLogs := mkLogEntry (is_LastIncludedTerm args) None :: suffix in
  let rf1 := set_lastIncludedTerm (is_LastIncludedTerm args)
               (set_lastIncludedIndex (is_LastIncludedIndex args) rf) in
  rf2 ← replaceLogs newLogs rf1;
  let rf3 := set_snapshot (is_Data args) rf2 in
  let rf4 := set_lastApplied (is_LastIncludedIndex args)
               (set_commitIndex (is_LastIncludedIndex args) rf3) in
  rf5 ← persist rf4;
  Some (set_pendingSnapshot (Some (snapshot_msg rf5)) rf5).

Definition InstallSnapshot (clk : Clock) (args : InstallSnapshotArgs) (rf : Raft)
    : option (Raft * InstallSnapshotReply) :=
  if killed rf then Some (rf, mkInstallSnapshotReply (currentTerm rf) true)
  else if (is_Term args <? currentTerm rf)%Z
  then Some (rf, mkInstallSnapshotReply (currentTerm rf) false)
  else
    rf1 ← becomeFollowerLocked (is_Term args) rf;
    let rf2 := resetElectionDeadlineLocked clk rf1 in
    let reply := mkInstallSnapshotReply (currentTerm rf2) false in
    if (is_LastIncludedIndex args <=? commitIndex rf2)%Z then Some (rf2, reply)
    else
      rf3 ← install_snapshot args rf2;
      Some (rf3, reply).

(** ** AppendEntries *)

(** [for conflictIndex > rf.firstLogIndexLocked()], [n] being how far
    [conflictIndex] is above that bound. *)
Fixpoint conflictScan (rf : Raft) (conflictTerm conflictIndex : Z) (n : nat) : Z :=
  match n with
  | O => conflictIndex
  | S n' =>
      match termAtLocked rf (conflictIndex - 1) with
      | Some previousTerm =>
          if decide (previousTerm = conflictTerm)
          then conflictScan rf conflictTerm (conflictIndex - 1) n'
          else conflictIndex
      | None => conflictIndex
      end
  end.

(** The loop over [args.Entries]: [localIndex] is the index of the head of
    [entries]; the result says whether the log [changed]. *)
Fixpoint mergeEntries (localIndex : Z) (entries : list LogEntry) (rf : Raft) : option (Raft * bool) :=
  match entries with
  | [] => Some (rf, false)
  | entry :: rest =>
      if (localIndex <=? lastLogIndexLocked rf)%Z then
        match termAtLocked rf localIndex with
        | None => mergeEntries (localIndex + 1) rest rf
        | Some localTerm =>
            if decide (localTerm <> le_Term entry) then
              rf1 ← truncateLogs (toOffsetLocked rf localIndex) rf;
              rf2 ← appendLogs (entry :: rest) rf1;
              Some (rf2, true)
            else mergeEntries (localIndex + 1) rest rf
        end
      else
        rf1 ← appendLogs (entry :: rest) rf;
        Some (rf1, true)
  end.

(** Step 4 of the handler. *)
Definition followerCommit (args : AppendEntriesArgs) (rf : Raft) : Raft :=
  let lastNewIndex := (ae_PrevLogIndex args + zlen (ae_Entries args))%Z in
  if (commitIndex rf <? ae_LeaderCommit args)%Z then
    let newCommit := if (lastNewIndex <? ae_LeaderCommit args)%Z
                     then lastNewIndex else ae_LeaderCommit args in
    if (commitIndex rf <? newCommit)%Z then set_commitIndex newCommit rf else rf
  else rf.

Definition AppendEntries (clk : Clock) (args : AppendEntriesArgs) (rf : Raft)
    : option (Raft * AppendEntriesReply) :=
  if killed rf then Some (rf, mkAppendEntriesReply (currentTerm rf) false true (-1) 0)
  else if (ae_Term args <? currentTerm rf)%Z
  then Some (rf, mkAppendEntriesReply (currentTerm rf) false false (-1) 0)
  else
    rf0 ← becomeFollowerLocked (ae_Term args) rf;
    let rf1 := resetElectionDeadlineLocked clk rf0 in
    let reject ct ci := mkAppendEntriesReply (currentTerm rf1) false false ct ci in
    if (lastLogIndexLocked rf1 <? ae_PrevLogIndex args)%Z
    then Some (rf1, reject (-1) (lastLogIndexLocked rf1 + 1))%Z
    else if (ae_PrevLogIndex args <? firstLogIndexLocked rf1)%Z
    then Some (rf1, reject (-1) (firstLogIndexLocked rf1 + 1))%Z
    else
      match termAtLocked rf1 (ae_PrevLogIndex args) with
      | None => Some (rf1, reject (-1) 0)%Z
      | Some prevLogTerm =>
          if decide (prevLogTerm <> ae_PrevLogTerm args) then
            let conflictIndex := conflictScan rf1 prevLogTerm (ae_PrevLogIndex args)
              (Z.to_nat (ae_PrevLogIndex args - firstLogIndexLocked rf1)) in
            Some (rf1, reject prevLogTerm conflictIndex)
          else
            '(rf2, changed) ← mergeEntries (ae_PrevLogIndex args + 1) (ae_Entries args) rf1;
            rf3 ← (if (changed : bool) then persist rf2 else Some rf2);
            Some (followerCommit args rf3,
                  mkAppendEntriesReply (currentTerm rf1) true false (-1) 0)
      end.

(** ** RequestVote *)

Definition RequestVote (clk : Clock) (args : RequestVoteArgs) (rf : Raft)
    : option (Raft * RequestVoteReply) :=
  let myLastLogIndex := lastLogIndexLocked rf in
  myLastLogTerm ← lastLogTermLocked rf;
  if killed rf then Some (rf, mkRequestVoteReply (currentTerm rf) false)
  else if (rv_Term args <? currentTerm rf)%Z
  then Some (rf, mkRequestVoteReply (currentTerm rf) false)
  else
    rf1 ← (if (currentTerm rf <? rv_Term args)%Z
           then becomeFollowerLocked (rv_Term args) rf else Some rf);
    let canVote := (votedFor rf1 =? -1)%Z || (votedFor rf1 =? Z.of_nat (rv_CandidateId args))%Z in
    let upToDate := (myLastLogTerm <? rv_LastLogTerm args)%Z ||
      ((rv_LastLogTerm args =? myLastLogTerm)%Z && (myLastLogIndex <=? rv_LastLogIndex args)%Z) in
    if canVote && upToDate then
      rf2 ← persist (resetElectionDeadlineLocked clk
              (set_votedFor (Z.of_nat (rv_CandidateId args)) rf1));
      Some (rf2, mkRequestVoteReply (currentTerm rf2) true)
    else Some (rf1, mkRequestVoteReply (currentTerm rf1) false).

(** ** Committing and replicating as a leader *)

(** How many peers have [matchIndex >= n]; the index panics on a short slice. *)
Definition replicatedCount (rf : Raft) (n : Z) : option nat :=
  ms ← mapM (fun peer => matchIndex rf !! peer) (seq 0 (peers rf));
  Some (length (filter (fun m => n <= m)%Z ms)).

Definition majority (rf : Raft) : nat := peers rf `div` 2 + 1.

(** [for n := last; n > rf.commitIndex; n--] with [n = commitIndex + k]. *)
Fixpoint advanceLoop (rf : Raft) (k : nat) : option (Raft * bool) :=
  match k with
  | O => Some (rf, false)
  | S k' =>
      let n := (commitIndex rf + Z.of_nat k)%Z in
      match termAtLocked rf n with
      | Some entryTerm =>
          if decide (entryTerm <> currentTerm rf) then advanceLoop rf k'
          else
            replicated ← replicatedCount rf n;
            if decide (majority rf <= replicated)
            then Some (set_commitIndex n rf, true)
            else advanceLoop rf k'
      | None => advanceLoop rf k'
      end
  end.

Definition advanceCommitIndexLocked (rf : Raft) : option (Raft * bool) :=
  if decide (state rf <> Leader) then Some (rf, false)
  else advanceLoop rf (Z.to_nat (lastLogIndexLocked rf - commitIndex rf)).

Inductive replication_request : Type :=
  | RepSnapshot (args : InstallSnapshotArgs)
  | RepAppend (args : AppendEntriesArgs).

(** The first locked section of a round of [replicateUntilStable]; [Some None]
    is the return of the function. *)
Definition replicate_request (peer : nat) (rf : Raft) : option (option replication_request) :=
  if killed rf || bool_decide (state rf <> Leader) then Some None
  else
    next ← nextIndex rf !! peer;
    if (next <=? lastIncludedIndex rf)%Z
    then Some (Some (RepSnapshot (mkInstallSnapshotArgs (currentTerm rf) (me rf)
           (lastIncludedIndex rf) (lastIncludedTerm rf) (snapshot rf))))
    else
      let prevLogIndex := (next - 1)%Z in
      match termAtLocked rf prevLogIndex with
      | None => Some None
      | Some prevLogTerm =>
          entries ← slice_from (logs rf) (toOffsetLocked rf next);
          Some (Some (RepAppend (mkAppendEntriesArgs (currentTerm rf) (me rf)
            prevLogIndex prevLogTerm entries (commitIndex rf))))
      end.

(** What a locked section tells its goroutine to do next. *)
Record continuation : Type := mkContinuation {
  k_broadcast : bool;  (* call broadcastAppendEntries *)
  k_continue : bool;   (* another round; otherwise the function returns *)
}.

Definition k_return : continuation := mkContinuation false false.

(** A reply with a larger term: the node steps down. *)
Definition stepDown (clk : Clock) (term : Z) (rf : Raft) : option Raft :=
  rf1 ← becomeFollowerLocked term rf;
  Some (resetElectionDeadlineLocked clk rf1).

Definition replicate_snapshot_reply (clk : Clock) (peer : nat) (args : InstallSnapshotArgs)
    (reply : InstallSnapshotReply) (rf : Raft) : option (Raft * continuation) :=
  if killed rf || isr_Stopped reply then Some (rf, k_return)
  else if (currentTerm rf <? isr_Term reply)%Z then
    rf1 ← stepDown clk (isr_Term reply) rf; Some (rf1, k_return)
  else if bool_decide (state rf <> Leader) || negb (currentTerm rf =? is_Term args)%Z
  then Some (rf, k_return)
  else
    m ← matchIndex rf !! peer;
    mi ← slice_set (matchIndex rf) peer
           (if (m <? is_LastIncludedIndex args)%Z then is_LastIncludedIndex args else m);
    x ← nextIndex rf !! peer;
    ni ← slice_set (nextIndex rf) peer
           (if (x <? is_LastIncludedIndex args + 1)%Z then is_LastIncludedIndex args + 1 else x)%Z;
    Some (set_nextIndex ni (set_matchIndex mi rf), mkContinuation false true).

(** The success branch. *)
Definition replicate_append_ok (peer : nat) (args : AppendEntriesArgs) (rf : Raft)
    : option (Raft * continuation) :=
  let replicatedThrough := (ae_PrevLogIndex args + zlen (ae_Entries args))%Z in
  oldMatch ← matchIndex rf !! peer;
  let newMatch := if (oldMatch <? replicatedThrough)%Z then replicatedThrough else oldMatch in
  mi ← slice_set (matchIndex rf) peer newMatch;
  oldNext ← nextIndex rf !! peer;
  let newNext := if (oldNext <? replicatedThrough + 1)%Z then (replicatedThrough + 1)%Z else oldNext in
  ni ← slice_set (nextIndex rf) peer newNext;
  let rf1 := set_nextIndex ni (set_matchIndex mi rf) in
  let progressed := (oldMatch <? newMatch)%Z in
  '(rf2, commitAdvanced) ← (if progressed then advanceCommitIndexLocked rf1 else Some (rf1, false));
  let caughtUp := (lastLogIndexLocked rf2 <? newNext)%Z in
  Some (rf2, mkContinuation commitAdvanced (negb caughtUp)).

(** The new [nextIndex] after a rejected round, given the current match index. *)
Definition backtrack (rf : Raft) (reply : AppendEntriesReply) (matched : Z) : Z :=
  let newNext0 :=
    if decide (aer_ConflictTerm reply <> -1)%Z then
      let lastIndex := lastIndexOfTermLocked rf (aer_ConflictTerm reply) in
      if (0 <=? lastIndex)%Z then (lastIndex + 1)%Z else aer_ConflictIndex reply
    else aer_ConflictIndex reply in
  let newNext1 := if (newNext0 <? 1)%Z then 1%Z else newNext0 in
  let maxNext := (lastLogIndexLocked rf + 1)%Z in
  let newNext2 := if (maxNext <? newNext1)%Z then maxNext else newNext1 in
  let minNext := (matched + 1)%Z in
  if (newNext2 <? minNext)%Z then minNext else newNext2.

Definition replicate_append_reply (clk : Clock) (peer : nat) (args : AppendEntriesArgs)
    (reply : AppendEntriesReply) (rf : Raft) : option (Raft * continuation) :=
  if killed rf || aer_Stopped reply then Some (rf, k_return)
  else if (currentTerm rf <? aer_Term reply)%Z then
    rf1 ← stepDown clk (aer_Term reply) rf; Some (rf1, k_return)
  else if bool_decide (state rf <> Leader) || negb (currentTerm rf =? ae_Term args)%Z
  then Some (rf, k_return)
  else if aer_Success reply then replicate_append_ok peer args rf
  else
    let sentNext := (ae_PrevLogIndex args + 1)%Z in
    x ← nextIndex rf !! peer;
    if decide (x <> sentNext) then Some (rf, k_return)
    else
      matched ← matchIndex rf !! peer;
      ni ← slice_set (nextIndex rf) peer (backtrack rf reply matched);
      Some (set_nextIndex ni rf, mkContinuation false true).

(** ** Notifying the replication workers *)

(** A non-blocking send on the one-slot channel of [peer]. *)
Definition notify (peer : nat) (rf : Raft) : Raft :=
  set_replicateNotify (<[peer:=true]> (replicateNotify rf)) rf.

Definition other_peers (rf : Raft) : list nat := filter (fun p => p <> me rf) (seq 0 (peers rf)).

Definition broadcastAppendEntries (rf : Raft) : Raft :=
  if killed rf || bool_decide (state rf <> Leader) then rf
  else foldl (fun r peer => notify peer r) rf (other_peers rf).

(** [replicationWorker]: it takes a notification, marks itself busy, runs
    [replicateUntilStable] and marks itself idle. *)
Definition worker_begin (peer : nat) (rf : Raft) : option (option Raft) :=
  n ← replicateNotify rf !! peer;
  if (negb n : bool) then Some None
  else
    let rf1 := set_replicateNotify (<[peer:=false]> (replicateNotify rf)) rf in
    if killed rf1 then Some None
    else
      busy ← slice_set (replicateBusy rf1) peer true;
      Some (Some (set_replicateBusy busy rf1)).

Definition worker_end (peer : nat) (rf : Raft) : option Raft :=
  busy ← slice_set (replicateBusy rf) peer false;
  Some (set_replicateBusy busy rf).

Definition independent_heartbeat_reply (clk : Clock) (reply : AppendEntriesReply) (rf : Raft)
    : option Raft :=
  if killed rf then Some rf
  else if (currentTerm rf <? aer_Term reply)%Z then stepDown clk (aer_Term reply) rf
  else Some rf.

(** The loop over the peers: heartbeat tasks and rescue peers accumulate. *)
Fixpoint heartbeatLoop (time : Z) (ps : list nat) (rf : Raft)
    : option (Raft * list (nat * AppendEntriesArgs) * list nat) :=
  match ps with
  | [] => Some (rf, [], [])
  | peer :: ps' =>
      busy ← replicateBusy rf !! peer;
      if (negb busy : bool) then heartbeatLoop time ps' (notify peer rf)
      else
        prevLogTerm ← lastLogTermLocked rf;
        let args := mkAppendEntriesArgs (currentTerm rf) (me rf)
                      (lastLogIndexLocked rf) prevLogTerm [] (commitIndex rf) in
        last ← lastRescueSent rf !! peer;
        if (500 * 1000000 <=? time - last)%Z then
          '(rf', tasks, rescue) ← heartbeatLoop time ps'
             (set_lastRescueSent (<[peer:=time]> (lastRescueSent rf)) rf);
          Some (rf', (peer, args) :: tasks, peer :: rescue)
        else
          '(rf', tasks, rescue) ← heartbeatLoop time ps' rf;
          Some (rf', (peer, args) :: tasks, rescue)
  end.

Definition heartbeatOrNotifyReplication (time : Z) (rf : Raft)
    : option (Raft * list (nat * AppendEntriesArgs) * list nat) :=
  if killed rf || bool_decide (state rf <> Leader) then Some (rf, [], [])
  else heartbeatLoop time (other_peers rf) rf.

(** ** Client commands and snapshots *)

(** The locked section of [Start]; when it accepts the command, the code then
    calls [broadcastAppendEntries], a critical section of its own. *)
Definition Start (command : option Cmd) (rf : Raft) : option (Raft * (Z * Z * bool)) :=
  let term := currentTerm rf in
  if killed rf || bool_decide (state rf <> Leader) then Some (rf, (-1, term, false))%Z
  else
    let index := (lastLogIndexLocked rf + 1)%Z in
    rf1 ← appendLogs [mkLogEntry term command] rf;
    rf2 ← persist rf1;
    mi ← slice_set (matchIndex rf2) (me rf2) index;
    ni ← slice_set (nextIndex rf2) (me rf2) (index + 1)%Z;
    let rf3 := set_nextIndex ni (set_matchIndex mi rf2) in
    '(rf4, _) ← (if decide (peers rf3 = 1) then advanceCommitIndexLocked rf3
                 else Some (rf3, false));
    Some (rf4, (index, term, true)).

Definition Snapshot (index : Z) (data : bytes) (rf : Raft) : option Raft :=
  if killed rf then Some rf
  else if (index <=? lastIncludedIndex rf)%Z then Some rf
  else if (lastApplied rf <? index)%Z || (lastLogIndexLocked rf <? index)%Z then Some rf
  else
    let cut := (index - lastIncludedIndex rf)%Z in
    boundary ← zlookup (logs rf) cut;
    tail ← slice_from (logs rf) (cut + 1);
    let newLogs := mkLogEntry (le_Term boundary) None :: tail in
    rf1 ← replaceLogs newLogs
            (set_lastIncludedTerm (le_Term boundary) (set_lastIncludedIndex index rf));
    persist (set_snapshot data rf1).

(** ** Elections *)

Definition ticker_shouldStart (time : Z) (rf : Raft) : bool :=
  negb (killed rf) && bool_decide (state rf <> Leader) && negb (time <? electionDeadline rf)%Z.

(** What [startElection] leaves behind: whether the node became leader of a
    one-node cluster (it then calls [broadcastAppendEntries]) and the
    [RequestVote] calls it launches, one per peer. *)
Definition startElection (clk : Clock) (rf : Raft)
    : option (Raft * bool * list (nat * RequestVoteArgs)) :=
  if killed rf || bool_decide (state rf = Leader) || (now clk <? electionDeadline rf)%Z
  then Some (rf, false, [])
  else
    rf1 ← persist (set_votedFor (Z.of_nat (me rf))
            (set_currentTerm (currentTerm rf + 1)%Z (set_state Candidate rf)));
    let term := currentTerm rf1 in
    let lastLogIndex := lastLogIndexLocked rf1 in
    lastLogTerm ← lastLogTermLocked rf1;
    let rf2 := resetElectionDeadlineLocked clk rf1 in
    if decide (majority rf2 <= 1) then
      rf3 ← becomeLeaderLocked rf2;
      Some (rf3, true, [])
    else
      Some (rf2, false, (fun server =>
        (server, mkRequestVoteArgs term (me rf2) lastLogIndex lastLogTerm)) <$> other_peers rf2).

(** The reply goroutine of an election of [term]; [votes] is the counter its
    goroutines share.  The boolean is [won], after which the goroutine calls
    [broadcastAppendEntries]. *)
Definition election_reply (clk : Clock) (term : Z) (votes : nat) (reply : RequestVoteReply)
    (rf : Raft) : option (Raft * nat * bool) :=
  if killed rf then Some (rf, votes, false)
  else if (currentTerm rf <? rvr_Term reply)%Z then
    rf1 ← stepDown clk (rvr_Term reply) rf; Some (rf1, votes, false)
  else if bool_decide (state rf <> Candidate) || negb (currentTerm rf =? term)%Z
  then Some (rf, votes, false)
  else if negb (rvr_VoteGranted reply) then Some (rf, votes, false)
  else
    let votes' := S votes in
    if decide (majority rf <= votes') then
      rf1 ← becomeLeaderLocked rf;
      Some (rf1, votes', true)
    else Some (rf, votes', false).

(** ** Creating a node *)

Definition Make (clk : Clock) (n me' : nat) (ps : Persister) : option Raft :=
  let rf0 := mkRaft n me' false 0 (-1) [mkLogEntry 0 None] [] [] [] Follower 0 0 0
               [] [] [] 0 0 [] None ps in
  rf1 ← rebuildEncodedLogs rf0;
  rf2 ← readPersist (ReadRaftState ps) rf1;
  let rf3 := set_snapshot (ReadSnapshot ps) rf2 in
  let rf4 := set_lastApplied (lastIncludedIndex rf3)
               (set_commitIndex (lastIncludedIndex rf3) rf3) in
  let rf5 := resetElectionDeadlineLocked clk rf4 in
  Some (set_lastRescueSent (replicate n 0%Z)
         (set_replicateBusy (replicate n false)
           (set_replicateNotify (replicate n false) rf5))).

End RaftRPC.
