(* ===== verification/RaftLog.v ===== *)
(** * Leaders' logs

    The ghost state of the Raft safety argument and its theory, apart from the code.
    [leader_logs] maps a term to the log its leader has built so far; logs are whole,
    from index 1, whatever the nodes have compacted.  [acks] records, by node and
    term, through which index the node took over the log of the term's leader.  An
    index of a leader's own term acknowledged by a majority is committed; leader
    completeness is proved here from the facts the cluster keeps. *)

From S2P Require Import Prelude.
From S2P Require Import Raft.

Section RaftLog.
Context {GL : GobLog}.

Abbreviation log := (list LogEntry).
Abbreviation leader_logs := (gmap Z log).
Abbreviation acks := (gmap (nat * Z) nat).

Definition log_of (L : leader_logs) (t : Z) : log := default [] (L !! t).

(** The term at index [k]; index 0 has term 0. *)
Definition term_at (F : log) (k : nat) : option Z :=
  match k with O => Some 0%Z | S j => le_Term <$> F !! j end.

(** Up to each of its entries, [F] is the log of the leader of the entry's term. *)
Definition coherent (L : leader_logs) (F : log) : Prop :=
  forall j e, F !! j = Some e -> take (S j) F = take (S j) (log_of L (le_Term e)).

(** The logs of all leaders are coherent; a leader's log holds no later terms. *)
Record logs_ok (L : leader_logs) : Prop := {
  lo_coherent : forall t l, L !! t = Some l -> coherent L l;
  lo_terms : forall t l j e, L !! t = Some l -> l !! j = Some e -> (le_Term e <= t)%Z;
  lo_positive : forall t l, L !! t = Some l -> (0 < t)%Z;
}.

(** The logs of leaders only grow, by entries of their own term. *)
Definition logs_grow (L L' : leader_logs) : Prop :=
  forall t l, L !! t = Some l -> exists ext, L' !! t = Some (l ++ ext) /\ Forall (fun e => le_Term e = t) ext.

Definition acked (A : acks) (v : nat) (t : Z) (k : nat) : Prop := k = 0 \/ exists a, A !! (v, t) = Some a /\ k <= a.

Definition acks_grow (A A' : acks) : Prop := forall v t k, acked A v t k -> acked A' v t k.

(** The leader of [T] does not have the first [k] entries of the leader of [t]. *)
Definition conflict (L : leader_logs) (t : Z) (k : nat) (T : Z) : Prop :=
  is_Some (L !! T) /\ (t < T)%Z /\ k <= length (log_of L t) /\ take k (log_of L T) <> take k (log_of L t).

(** [F] has the first [k] entries of the leader of [t], or a leader of a term in
    [(t, u)] does not. *)
Definition has_or_conflict (L : leader_logs) (F : log) (t : Z) (k : nat) (u : Z) : Prop :=
  (take k F = take k (log_of L t) /\ k <= length (log_of L t)) \/ exists T, (T < u)%Z /\ conflict L t k T.

(** ** Basic facts *)

Lemma take_le_eq {A} (i k : nat) (l l' : list A) : i <= k -> take k l = take k l' -> take i l = take i l'.
Proof. intros Hi H. rewrite <- (Nat.min_l i k Hi), <- !take_take. by rewrite H. Qed.

Lemma take_lookup {A} (i k : nat) (l l' : list A) : i < k -> take k l = take k l' -> l !! i = l' !! i.
Proof. intros Hi H. rewrite <- (lookup_take_lt l k i), <- (lookup_take_lt l' k i) by done. by rewrite H. Qed.

Lemma log_of_Some L t l : L !! t = Some l -> log_of L t = l.
Proof. unfold log_of. by intros ->. Qed.

Lemma log_of_lookup L t j e : log_of L t !! j = Some e -> exists l, L !! t = Some l /\ l !! j = Some e.
Proof. unfold log_of. destruct (L !! t) as [l|]; [eauto|done]. Qed.

Lemma coherent_nil L : coherent L [].
Proof. intros j e H. done. Qed.

Lemma coherent_take L F k : coherent L F -> coherent L (take k F).
Proof.
  intros H j e He. apply lookup_take_Some in He as [He Hj]. rewrite take_take, Nat.min_l by lia. by apply H.
Qed.

Lemma logs_ok_coherent L t : logs_ok L -> coherent L (log_of L t).
Proof. intros HL. unfold log_of. destruct (L !! t) eqn:E; [by eapply lo_coherent|apply coherent_nil]. Qed.

(** Coherent logs that agree in term at an index agree up to it. *)
Lemma coherent_agree L F F' k t :
  coherent L F -> coherent L F' -> term_at F k = Some t -> term_at F' k = Some t -> take k F = take k F'.
Proof.
  intros HF HF' H H'. destruct k as [|j]; [done|]. simpl in *.
  apply fmap_Some in H as (e & He & ->). apply fmap_Some in H' as (e' & He' & Ht).
  rewrite (HF _ _ He), (HF' _ _ He'). by rewrite Ht.
Qed.

(** Terms do not decrease along a coherent log. *)
Lemma coherent_mono L F i j e e' :
  logs_ok L -> coherent L F -> i <= j -> F !! i = Some e -> F !! j = Some e' -> (le_Term e <= le_Term e')%Z.
Proof.
  intros HL HF Hij He He'. pose proof (HF _ _ He') as Ht.
  assert (log_of L (le_Term e') !! i = Some e) as Hl by (rewrite <- He; symmetry; apply (take_lookup i (S j)); [lia|done]).
  apply log_of_lookup in Hl as (l & Hl & Hi). by eapply lo_terms.
Qed.

Lemma term_at_app F F' k : k <= length F -> term_at (F ++ F') k = term_at F k.
Proof. destruct k as [|j]; [done|]. intros Hj. simpl. by rewrite lookup_app_l by lia. Qed.

Lemma term_at_take F k m : k <= m -> term_at (take m F) k = term_at F k.
Proof. destruct k as [|j]; [done|]. intros Hj. simpl. by rewrite lookup_take_lt by lia. Qed.

Lemma term_at_len F k t : term_at F k = Some t -> k <= length F.
Proof. destruct k as [|j]; [lia|]. simpl. intros (e & He & _)%fmap_Some. by apply lookup_lt_Some in He. Qed.

Lemma term_at_is_Some F k : k <= length F -> is_Some (term_at F k).
Proof. destruct k as [|j]; [eauto|]. intros Hj. simpl. apply fmap_is_Some, lookup_lt_is_Some. lia. Qed.

(** The last entry of a coherent log says whose log it is. *)
Lemma coherent_last L F t : coherent L F -> term_at F (length F) = Some t -> F = take (length F) (log_of L t).
Proof.
  intros HF H. destruct F as [|x F]; [by rewrite take_0|]. cbn [length] in *. simpl term_at in H.
  apply fmap_Some in H as (e & He & ->). rewrite <- (HF _ _ He). by rewrite take_ge.
Qed.

(** ** Growth *)

Lemma logs_grow_refl L : logs_grow L L.
Proof. intros t l H. exists []. rewrite app_nil_r. auto. Qed.

Lemma logs_grow_trans L1 L2 L3 : logs_grow L1 L2 -> logs_grow L2 L3 -> logs_grow L1 L3.
Proof.
  intros H1 H2 t l Hl. destruct (H1 _ _ Hl) as (e1 & Hl1 & F1). destruct (H2 _ _ Hl1) as (e2 & Hl2 & F2).
  exists (e1 ++ e2). rewrite app_assoc. split; [done|]. by apply Forall_app.
Qed.

Lemma logs_grow_log_of L L' t : logs_grow L L' -> log_of L t `prefix_of` log_of L' t.
Proof.
  intros H. unfold log_of at 1. destruct (L !! t) as [l|] eqn:E; [|apply prefix_nil].
  destruct (H _ _ E) as (ext & E' & _). rewrite (log_of_Some _ _ _ E'). by exists ext.
Qed.

Lemma logs_grow_take L L' t k : logs_grow L L' -> k <= length (log_of L t) -> take k (log_of L' t) = take k (log_of L t).
Proof. intros H Hk. destruct (logs_grow_log_of _ _ t H) as [ext ->]. by rewrite take_app_le. Qed.

Lemma logs_grow_length L L' t : logs_grow L L' -> length (log_of L t) <= length (log_of L' t).
Proof. intros H. by apply prefix_length, logs_grow_log_of. Qed.

Lemma coherent_grow L L' F : logs_grow L L' -> coherent L F -> coherent L' F.
Proof.
  intros H HF j e He. rewrite (HF _ _ He). symmetry. apply logs_grow_take; [done|].
  pose proof (HF _ _ He) as Hl. apply (f_equal length) in Hl. rewrite !length_take in Hl.
  apply lookup_lt_Some in He. lia.
Qed.

Lemma acks_grow_refl A : acks_grow A A.
Proof. by intros v t k. Qed.

Lemma acked_le A v t k k' : acked A v t k -> k' <= k -> acked A v t k'.
Proof. intros [->|(a & Ha & Hk)] Hle; [left; lia|right]. exists a. split; [done|lia]. Qed.

Lemma conflict_grow L L' t k T : logs_ok L -> logs_grow L L' -> conflict L t k T -> conflict L' t k T.
Proof.
  intros HL H ([l Hl] & Ht & Hk & Hne). destruct (H _ _ Hl) as (ext & Hl' & Hext).
  split_and!; [eauto|done|pose proof (logs_grow_length _ _ t H); lia|].
  rewrite (logs_grow_take L L' t k H Hk), (log_of_Some _ _ _ Hl'). rewrite (log_of_Some _ _ _ Hl) in Hne.
  destruct (decide (k <= length l)) as [Hkl|Hkl]; [by rewrite take_app_le|]. intros He.
  destruct ext as [|x ext].
  { by rewrite app_nil_r in He. }
  assert (log_of L t !! length l = Some x) as Hx.
  { rewrite <- (take_lookup (length l) k (l ++ x :: ext)); [|lia|done]. by rewrite lookup_app_r, Nat.sub_diag by lia. }
  apply log_of_lookup in Hx as (lt & Hlt & Hx). pose proof (lo_terms _ HL _ _ _ _ Hlt Hx).
  apply Forall_cons in Hext as [He' _]. lia.
Qed.

Lemma has_or_conflict_grow L L' F t k u :
  logs_ok L -> logs_grow L L' -> has_or_conflict L F t k u -> has_or_conflict L' F t k u.
Proof.
  intros HL H [[He Hk]|(T & HT & Hc)].
  - left. rewrite (logs_grow_take _ _ _ _ H Hk). pose proof (logs_grow_length _ _ t H). split; [done|lia].
  - right. exists T. split; [done|]. by eapply conflict_grow.
Qed.

Lemma has_or_conflict_mono L F t k u u' : (u <= u')%Z -> has_or_conflict L F t k u -> has_or_conflict L F t k u'.
Proof. intros Hu [?|(T & HT & Hc)]; [by left|right]. exists T. split; [lia|done]. Qed.

(** Extending the log keeps what it has. *)
Lemma has_or_conflict_app L F F' t k u : has_or_conflict L F t k u -> has_or_conflict L (F ++ F') t k u.
Proof.
  intros [[He Hk]|?]; [left|by right]. split; [|done]. rewrite <- He. apply take_app_le.
  apply (f_equal length) in He. rewrite !length_take in He. lia.
Qed.

(** Whether a leader has a prefix of another leader's log is decided by a term. *)
Lemma take_dec L t T k :
  logs_ok L -> k <= length (log_of L t) ->
  take k (log_of L T) = take k (log_of L t) \/ take k (log_of L T) <> take k (log_of L t).
Proof.
  intros HL Hk. destruct (decide (term_at (log_of L T) k = term_at (log_of L t) k)) as [He|Hne].
  - left. destruct (term_at_is_Some _ _ Hk) as [x Hx]. rewrite Hx in He.
    by eapply coherent_agree; [apply logs_ok_coherent..|exact He|exact Hx].
  - right. intros He. apply Hne. rewrite <- (term_at_take _ k k), He by done. by apply term_at_take.
Qed.

(** ** Taking over a leader's log *)

(** [F'] is what a node with the log [F] holds after it made its log match the
    leader's log [LT] through [m]: it was a match already, or the log is cut to the
    leader's, because it was shorter or had another entry there. *)
Definition takeover (LT : log) (m : nat) (F F' : log) : Prop :=
  m <= length LT /\
  ((F' = F /\ take m F = take m LT) \/
   (F' = take m LT /\ (length F <= m \/ exists p, p < m /\ F !! p <> LT !! p))).

Lemma takeover_match LT m F F' : takeover LT m F F' -> take m F' = take m LT.
Proof. intros [_ [[-> ?]|[-> _]]]; [done|]. by rewrite take_take, Nat.min_id. Qed.

(** What the node has in common with the leader stays. *)
Lemma takeover_keeps LT m F F' k :
  takeover LT m F F' -> k <= length F -> take k F = take k LT -> k <= length F' /\ take k F' = take k LT.
Proof.
  intros [Hm [[-> _]|[-> Hc]]] Hk He; [done|].
  assert (k <= m) as Hkm.
  { destruct Hc as [?|(p & Hp & Hne)]; [lia|]. destruct (decide (k <= m)) as [|Hgt]; [done|].
    destruct Hne. apply (take_lookup p k); [lia|done]. }
  rewrite length_take, take_take, (Nat.min_l k m) by done. split; [lia|done].
Qed.

Lemma takeover_coherent L LT m F F' :
  takeover LT m F F' -> coherent L F -> coherent L LT -> coherent L F'.
Proof. intros [_ [[-> _]|[-> _]]] HF HLT; [done|]. by apply coherent_take. Qed.

(** It keeps every acknowledged prefix that no leader contradicts. *)
Lemma has_or_conflict_takeover L F F' t k T m u :
  logs_ok L -> is_Some (L !! T) -> (t <= T < u)%Z -> has_or_conflict L F t k u ->
  takeover (log_of L T) m F F' -> has_or_conflict L F' t k u.
Proof.
  intros HL HLT Ht Hh Hto. destruct Hh as [[He Hk]|?]; [|by right].
  assert (k <= length F) as HkF.
  { apply (f_equal length) in He. rewrite !length_take in He. lia. }
  destruct (take_dec L t T k HL Hk) as [Hs|Hs].
  - left. split; [|done]. rewrite <- Hs. apply (takeover_keeps _ m F); [done|done|]. by rewrite He.
  - right. exists T. split; [lia|]. split_and!; [done| |done|done].
    assert (t <> T) by (intros ->; congruence). lia.
Qed.

(** ** Commitment and leader completeness *)

Definition quorum (n : nat) (Q : gset nat) : Prop := (forall v, v ∈ Q -> v < n) /\ n `div` 2 + 1 <= size Q.

Definition committed (n : nat) (L : leader_logs) (A : acks) (t : Z) (k : nat) : Prop :=
  0 < k /\ is_Some (L !! t) /\ term_at (log_of L t) k = Some t /\
  exists Q, quorum n Q /\ forall v, v ∈ Q -> acked A v t k.

(** What is known of a leader from its election: of a majority, each acknowledged
    prefix of an earlier leader that ends in an entry of that leader's own term is in
    the log, unless a leader in between contradicts it. *)
Definition elected (n : nat) (L : leader_logs) (A : acks) (t : Z) : Prop :=
  exists Q, quorum n Q /\ forall v t0 k, v ∈ Q -> acked A v t0 k -> (t0 < t)%Z ->
    0 < k -> term_at (log_of L t0) k = Some t0 -> has_or_conflict L (log_of L t) t0 k t.

Lemma quorum_meet n Q Q' : quorum n Q -> quorum n Q' -> exists v, v ∈ Q /\ v ∈ Q'.
Proof. intros [H1 H2] [H3 H4]. by apply (majority_intersect n). Qed.

Lemma later_leader_has n L A t k t' :
  (forall t l, L !! t = Some l -> elected n L A t) -> committed n L A t k ->
  is_Some (L !! t') -> (t < t')%Z -> take k (log_of L t') = take k (log_of L t).
Proof.
  intros HE (Hk & HLt & Hterm & Q & HQ & Hack).
  assert (forall u, (0 <= u)%Z -> forall t', t' = (t + u)%Z -> is_Some (L !! t') -> (t < t')%Z ->
    take k (log_of L t') = take k (log_of L t)) as Hind.
  { intros u Hu. pattern u. apply Zlt_0_ind; [|done]. clear u Hu. intros u IH Hu t'' -> [l Hl] Hlt.
    destruct (HE _ _ Hl) as (Q' & HQ' & Hel). destruct (quorum_meet _ _ _ HQ HQ') as (v & Hv & Hv').
    destruct (Hel v t k Hv' (Hack v Hv) Hlt Hk Hterm) as [[He _]|(T & HT & HsT & HtT & _ & Hne)]; [done|].
    exfalso. apply Hne. apply (IH (T - t)%Z); [lia|lia|done|lia]. }
  intros Hs Hlt. apply (Hind (t' - t)%Z); [lia|lia|done|done].
Qed.

(** Committed prefixes are comparable. *)
Lemma committed_agree n L A t1 k1 t2 k2 i :
  (forall t l, L !! t = Some l -> elected n L A t) -> committed n L A t1 k1 -> committed n L A t2 k2 ->
  i <= k1 -> i <= k2 -> take i (log_of L t1) = take i (log_of L t2).
Proof.
  intros HE H1 H2 Hi1 Hi2. destruct (Z.lt_trichotomy t1 t2) as [Hlt|[->|Hlt]]; [|done|].
  - symmetry. apply (take_le_eq i k1); [done|]. eapply later_leader_has; [done|done|apply H2|done].
  - apply (take_le_eq i k2); [done|]. eapply later_leader_has; [done|done|apply H1|done].
Qed.

Lemma committed_grow n L L' A A' t k :
  logs_grow L L' -> acks_grow A A' -> committed n L A t k -> committed n L' A' t k.
Proof.
  intros HL HA (Hk & [l Hl] & Hterm & Q & HQ & Hack). destruct (HL _ _ Hl) as (ext & Hl' & _).
  split_and!; [done|eauto| |].
  - rewrite (log_of_Some _ _ _ Hl'). rewrite (log_of_Some _ _ _ Hl) in Hterm.
    rewrite term_at_app; [done|by eapply term_at_len].
  - exists Q. split; [done|]. auto.
Qed.

(** The vote rule: if the candidate's log is at least as up to date as the voter's,
    it has what the voter acknowledged, or a leader in between contradicts that. *)
Lemma up_to_date_keeps L Fv Fc t k u tv tc :
  logs_ok L -> coherent L Fv -> coherent L Fc -> L !! u = None -> (forall j e, Fc !! j = Some e -> (le_Term e <= u)%Z) ->
  0 < k -> term_at (log_of L t) k = Some t -> has_or_conflict L Fv t k (u + 1) ->
  term_at Fv (length Fv) = Some tv -> term_at Fc (length Fc) = Some tc ->
  (tv < tc)%Z \/ (tc = tv /\ length Fv <= length Fc) -> has_or_conflict L Fc t k u.
Proof.
  intros HL HFv HFc Hu Htc Hk Hterm Hh Htv Htcl Hup.
  destruct Hh as [[He Hkl]|(T & HT & Hc)].
  2:{ right. exists T. split; [|done]. destruct Hc as ([l Hl] & _). assert (T <> u) by (intros ->; congruence). lia. }
  assert (k <= length Fv) as HkF.
  { apply (f_equal length) in He. rewrite !length_take in He. lia. }
  pose proof (coherent_last _ _ _ HFv Htv) as HFve. pose proof (coherent_last _ _ _ HFc Htcl) as HFce.
  assert (term_at Fv k = Some t) as HtF.
  { rewrite <- (term_at_take Fv k k), He, term_at_take; [done|lia|lia]. }
  assert (t <= tv)%Z as Htle.
  { destruct k as [|k']; [lia|]. destruct (length Fv) as [|m] eqn:Em; [lia|]. simpl in HtF, Htv.
    apply fmap_Some in HtF as (e & He1 & ->). apply fmap_Some in Htv as (e' & He2 & ->).
    eapply coherent_mono; [done|exact HFv| |done|done]. lia. }
  destruct Hup as [Hlt|[-> Hlen]].
  - destruct Fc as [|x Fc'] eqn:EF.
    { injection Htcl as <-. destruct k as [|k']; [lia|]. simpl in Hterm. apply fmap_Some in Hterm as (e & He1 & Het).
      apply log_of_lookup in He1 as (l & Hl & _). pose proof (lo_positive _ HL _ _ Hl). lia. }
    rewrite <- EF in *. assert (0 < length Fc) as HFpos by (rewrite EF; simpl; lia).
    assert (exists e, Fc !! (length Fc - 1) = Some e /\ le_Term e = tc) as (e & Hee & Hte).
    { destruct (length Fc) as [|m] eqn:Em; [lia|]. simpl in Htcl. apply fmap_Some in Htcl as (e & ? & ->).
      exists e. rewrite Nat.sub_0_r || replace (S m - 1) with m by lia. done. }
    assert (log_of L tc !! (length Fc - 1) = Some e) as Hle.
    { rewrite <- Hee. symmetry. apply (take_lookup _ (length Fc)); [lia|]. rewrite <- HFce. by rewrite take_ge by lia. }
    apply log_of_lookup in Hle as Hle'. destruct Hle' as (l & Hl & Hll).
    assert (tc <> u) by (intros ->; congruence). assert (tc <= u)%Z by (rewrite <- Hte; by eapply Htc).
    destruct (take_dec L t tc k HL Hkl) as [Hs|Hs].
    + left. split; [|done]. rewrite HFce, take_take, Nat.min_l; [done|].
      destruct (decide (k <= length Fc)) as [|Hgt]; [done|exfalso].
      assert (log_of L t !! (length Fc - 1) = Some e) as Hlt2.
      { rewrite <- Hle. symmetry. apply (take_lookup _ k); [lia|done]. }
      apply log_of_lookup in Hlt2 as (l2 & Hl2 & Hl2'). pose proof (lo_terms _ HL _ _ _ _ Hl2 Hl2'). lia.
    + right. exists tc. split; [lia|]. split_and!; [eauto|lia|done|done].
  - left. split; [|done]. rewrite <- He, HFce, HFve, !take_take, !Nat.min_l by lia. done.
Qed.
End RaftLog.
