(* ===== verification/RaftFacts.v ===== *)
(** * Facts about one Raft node

    The well-formedness invariant [wf] of a node, what each critical section
    may change, and the relation [node_step] that collects the critical
    sections of [raft1/raft.go]. *)

From S2P Require Import Prelude.
From S2P Require Import Persister.
From S2P Require Import Raft.
From S2P Require Import RaftRPC.

(** Close the simple parts of a goal about a node, or the fields of [wf0]. *)
Ltac triv := split_and!; simpl; auto; try done.

Ltac wf_fields := constructor; simpl in *; try done; auto;
  try (let m := fresh "m" in let Hm := fresh "Hm" in intros m Hm;
    repeat match goal with H : forall m', _ = Some m' -> _ |- _ => specialize (H m Hm) end; lia).

Section RaftFacts.
Context {GL : GobLog}.

(** ** The durable part of a node *)

Record HardState : Type := mkHardState {
  hs_term : Z;
  hs_vote : Z;
  hs_index : Z;
  hs_iterm : Z;
  hs_logs : list LogEntry;
}.

Definition hard (rf : Raft) : HardState :=
  mkHardState (currentTerm rf) (votedFor rf) (lastIncludedIndex rf) (lastIncludedTerm rf) (logs rf).

Definition hard_init : HardState := mkHardState 0 (-1) 0 0 [mkLogEntry 0 None].

(** The disk holds exactly the durable part of the node (or nothing yet, when
    the node is as [Make] created it). *)
Definition stored (rf : Raft) : Prop :=
  persister rf = mkPersister (raftState rf) (snapshot rf) \/
  (persister rf = MakePersister /\ hard rf = hard_init /\ snapshot rf = []).

(** Everything but the disk. *)
Record wf0 (rf : Raft) : Prop := {
  wf_me : me rf < peers rf;
  wf_logs : logs rf <> [];
  wf_enc : mapM encodeLogEntry (logs rf) = Some (encodedLogs rf);
  wf_notify : length (replicateNotify rf) = peers rf;
  wf_busy : length (replicateBusy rf) = peers rf;
  wf_rescue : length (lastRescueSent rf) = peers rf;
  wf_leader : state rf = Leader ->
    length (nextIndex rf) = peers rf /\ length (matchIndex rf) = peers rf;
  wf_next : Forall (fun x => 1 <= x)%Z (nextIndex rf);
  wf_match : Forall (fun x => 0 <= x)%Z (matchIndex rf);
  wf_index : (0 <= lastIncludedIndex rf <= lastApplied rf)%Z;
  wf_commit : (lastApplied rf <= commitIndex rf)%Z;
  wf_boundary : le_Term <$> head (logs rf) = Some (lastIncludedTerm rf);
  wf_pending : forall m, pendingSnapshot rf = Some m -> (am_SnapshotIndex m <= commitIndex rf)%Z;
  wf_pending_snap : forall m, pendingSnapshot rf = Some m -> am_CommandValid m = false;
}.

(** The invariant of a node between two critical sections. *)
Definition wf (rf : Raft) : Prop := wf0 rf /\ stored rf.

Lemma zlen_pos {A} (l : list A) : l <> [] -> (1 <= zlen l)%Z.
Proof. destruct l; [done|]. unfold zlen. simpl. lia. Qed.

Lemma zlen_nonneg {A} (l : list A) : (0 <= zlen l)%Z.
Proof. unfold zlen. lia. Qed.

Lemma wf_last rf : wf0 rf -> (lastIncludedIndex rf <= lastLogIndexLocked rf)%Z.
Proof. intros H. unfold lastLogIndexLocked. pose proof (zlen_pos _ (wf_logs _ H)). lia. Qed.

Lemma containsIndexLocked_spec rf i :
  containsIndexLocked rf i = true <->
  (lastIncludedIndex rf <= i <= lastLogIndexLocked rf)%Z.
Proof. unfold containsIndexLocked. rewrite andb_true_iff, !Z.leb_le. done. Qed.

Lemma termAtLocked_is_Some rf i :
  is_Some (termAtLocked rf i) <-> (lastIncludedIndex rf <= i <= lastLogIndexLocked rf)%Z.
Proof.
  unfold termAtLocked. destruct (containsIndexLocked rf i) eqn:E.
  - rewrite fmap_is_Some, zlookup_is_Some. unfold toOffsetLocked.
    apply containsIndexLocked_spec in E. unfold lastLogIndexLocked in *. lia.
  - rewrite <- containsIndexLocked_spec, E. split; [by intros [? ?]|done].
Qed.

Lemma lastLogTermLocked_is_Some rf : logs rf <> [] -> is_Some (lastLogTermLocked rf).
Proof.
  intros H. unfold lastLogTermLocked. apply fmap_is_Some, zlookup_is_Some.
  pose proof (zlen_pos _ H). lia.
Qed.

Lemma wf_lengths rf : wf0 rf -> length (encodedLogs rf) = length (logs rf).
Proof. intros H. symmetry. apply (Forall2_length _ _ _ (mapM_Some_1 _ _ _ (wf_enc _ H))). Qed.

(** ** What a critical section may do to the election state *)

(** The node keeps its identity; its term never decreases; a vote cast in a
    term stays; the node only leaves its role for [Follower]. *)
Record evo (rf rf' : Raft) : Prop := {
  evo_me : me rf' = me rf;
  evo_peers : peers rf' = peers rf;
  evo_term : (currentTerm rf <= currentTerm rf')%Z;
  evo_vote : currentTerm rf' = currentTerm rf -> votedFor rf <> (-1)%Z -> votedFor rf' = votedFor rf;
  evo_voted : (currentTerm rf' = currentTerm rf /\ votedFor rf' = votedFor rf) \/
    votedFor rf' = (-1)%Z \/ exists c : nat, votedFor rf' = Z.of_nat c;
  evo_role : state rf' = Follower \/ (state rf' = state rf /\ currentTerm rf' = currentTerm rf);
}.

(** No election state changes at all. *)
Definition quiet (rf rf' : Raft) : Prop :=
  me rf' = me rf /\ peers rf' = peers rf /\ currentTerm rf' = currentTerm rf /\
  votedFor rf' = votedFor rf /\ state rf' = state rf.

Lemma quiet_evo rf rf' : quiet rf rf' -> evo rf rf'.
Proof. intros (? & ? & ? & ? & ?). constructor; auto with lia. Qed.

(** No vote is cast; a vote of an earlier term may be gone. *)
Definition keep_vote (rf rf' : Raft) : Prop :=
  votedFor rf' = (-1)%Z \/ (currentTerm rf' = currentTerm rf /\ votedFor rf' = votedFor rf).

Lemma keep_vote_trans rf1 rf2 rf3 :
  (currentTerm rf1 <= currentTerm rf2)%Z -> keep_vote rf1 rf2 -> keep_vote rf2 rf3 -> keep_vote rf1 rf3.
Proof. unfold keep_vote. intros Ht H1 [?|[? ->]]; [by left|]. intuition congruence. Qed.

Lemma quiet_keep_vote rf rf1 rf' : keep_vote rf rf1 -> quiet rf1 rf' -> keep_vote rf rf'.
Proof. unfold keep_vote. intros ? (_ & _ & -> & -> & _). done. Qed.

Lemma quiet_refl rf : quiet rf rf.
Proof. done. Qed.

Lemma evo_refl rf : evo rf rf.
Proof. apply quiet_evo, quiet_refl. Qed.

Lemma evo_quiet_r rf rf1 rf' : evo rf rf1 -> quiet rf1 rf' -> evo rf rf'.
Proof.
  intros [] (Hm & Hp & Ht & Hv & Hs). constructor; rewrite ?Hm, ?Hp, ?Ht, ?Hv, ?Hs; auto.
Qed.

#[local] Hint Resolve quiet_refl evo_refl : core.

(** ** Frames: what the small helpers change *)

Lemma persist_Some rf rf' :
  persist rf = Some rf' ->
  rf' = set_persister (mkPersister (raftState rf) (snapshot rf)) rf.
Proof. unfold persist. case_decide; [done|]. by intros [= <-]. Qed.

Lemma persist_is_Some rf :
  length (encodedLogs rf) = length (logs rf) -> is_Some (persist rf).
Proof. intros H. unfold persist. rewrite decide_False by auto. eauto. Qed.

Lemma persist_wf rf rf' : wf0 rf -> persist rf = Some rf' -> wf rf' /\ quiet rf rf'.
Proof.
  intros Hwf ->%persist_Some. split; [split|done].
  - destruct Hwf. by constructor.
  - by left.
Qed.

Lemma becomeFollowerLocked_wf term rf rf' :
  wf rf -> becomeFollowerLocked term rf = Some rf' ->
  wf rf' /\ evo rf rf' /\ state rf' = Follower /\ currentTerm rf' = Z.max term (currentTerm rf) /\
  logs rf' = logs rf /\ lastIncludedIndex rf' = lastIncludedIndex rf /\
  (currentTerm rf' = currentTerm rf -> votedFor rf' = votedFor rf) /\
  (currentTerm rf < currentTerm rf' -> votedFor rf' = -1)%Z.
Proof.
  intros [Hwf Hst]. unfold becomeFollowerLocked.
  destruct (Z.ltb_spec (currentTerm rf) term) as [Hl|Hl]; intros H; binds.
  - match goal with H : persist _ = Some _ |- _ => apply persist_Some in H as -> end. simpl.
    split_and!; simpl; try done; try lia.
    + split; [|by left]. destruct Hwf. constructor; simpl; try done; auto.
    + constructor; simpl; auto; lia.
  - split_and!; simpl; try done; try lia.
    + split; [destruct Hwf; constructor; simpl; try done; auto|exact Hst].
    + constructor; simpl; auto with lia.
Qed.

Lemma becomeFollowerLocked_is_Some term rf :
  length (encodedLogs rf) = length (logs rf) -> is_Some (becomeFollowerLocked term rf).
Proof.
  intros H. unfold becomeFollowerLocked. destruct (_ <? _)%Z; simpl; [|eauto].
  destruct (persist_is_Some (set_votedFor (-1) (set_currentTerm term rf))) as [x ->]; simpl; eauto.
Qed.

Lemma stepDown_wf clk term rf rf' :
  wf rf -> stepDown clk term rf = Some rf' -> wf rf' /\ evo rf rf' /\ state rf' = Follower.
Proof.
  unfold stepDown. intros Hwf H. binds.
  match goal with H : becomeFollowerLocked _ _ = Some _ |- _ =>
    apply becomeFollowerLocked_wf in H as ([H1 H2] & He & Hs & _); [|done] end.
  split_and!; [|by eapply evo_quiet_r|done].
  split; [destruct H1; constructor; simpl; auto|exact H2].
Qed.

(** ** The log operations *)

(** [logs] and [encodedLogs] changed, nothing else did. *)
Definition logs_only (rf rf' : Raft) : Prop :=
  rf' = set_encodedLogs (encodedLogs rf') (set_logs (logs rf') rf).

Lemma logs_only_refl rf : logs_only rf rf.
Proof. by destruct rf. Qed.

Lemma logs_only_quiet rf rf' : logs_only rf rf' -> quiet rf rf'.
Proof. intros ->. done. Qed.

Lemma logs_only_trans rf1 rf2 rf3 : logs_only rf1 rf2 -> logs_only rf2 rf3 -> logs_only rf1 rf3.
Proof. unfold logs_only. intros H1 H2. rewrite H2, H1. done. Qed.

Lemma logs_only_wf0 rf rf' :
  wf0 rf -> logs_only rf rf' ->
  mapM encodeLogEntry (logs rf') = Some (encodedLogs rf') ->
  head (logs rf') = head (logs rf) -> wf0 rf'.
Proof.
  unfold logs_only. intros [] Hl He Hh. remember (logs rf') as l. remember (encodedLogs rf') as e.
  subst rf'. constructor; simpl in *; try done.
  - intros ->. simpl in Hh. destruct (logs rf); done.
  - by rewrite Hh.
Qed.

Lemma appendLogs_Some es rf rf' :
  appendLogs es rf = Some rf' ->
  exists enc, mapM encodeLogEntry es = Some enc /\
    rf' = set_encodedLogs (encodedLogs rf ++ enc) (set_logs (logs rf ++ es) rf).
Proof. unfold appendLogs. intros H. binds. eauto. Qed.

Lemma truncateLogs_Some n rf rf' :
  truncateLogs n rf = Some rf' ->
  (0 <= n <= zlen (logs rf))%Z /\
  rf' = set_encodedLogs (take (Z.to_nat n) (encodedLogs rf)) (set_logs (take (Z.to_nat n) (logs rf)) rf).
Proof. unfold truncateLogs, slice_to. intros H. binds. repeat case_decide; simplify_eq. auto. Qed.

Lemma replaceLogs_Some l rf rf' :
  replaceLogs l rf = Some rf' ->
  exists enc, mapM encodeLogEntry l = Some enc /\ rf' = set_encodedLogs enc (set_logs l rf).
Proof. unfold replaceLogs, rebuildEncodedLogs. intros H. binds. eauto. Qed.

Lemma mapM_encode_app l1 l2 e1 e2 :
  mapM encodeLogEntry l1 = Some e1 -> mapM encodeLogEntry l2 = Some e2 ->
  mapM encodeLogEntry (l1 ++ l2) = Some (e1 ++ e2).
Proof. rewrite !mapM_Some. apply Forall2_app. Qed.

Lemma mapM_encode_take n l e :
  mapM encodeLogEntry l = Some e -> mapM encodeLogEntry (take n l) = Some (take n e).
Proof. rewrite !mapM_Some. apply Forall2_take. Qed.

(** The loop over the received entries, against its reference: the entries that
    agree in term with the local log are skipped, and from the first one that
    does not, the local log is cut and the rest appended. *)
Fixpoint merge_reference (old entries : list LogEntry) {struct entries} : list LogEntry :=
  match entries, old with
  | [], _ => old
  | _ :: _, [] => entries
  | e :: es, o :: os =>
      if decide (le_Term o = le_Term e) then o :: merge_reference os es else entries
  end.

Lemma mergeEntries_spec entries : forall localIndex rf rf' changed,
  (lastIncludedIndex rf <= localIndex)%Z -> (localIndex <= lastLogIndexLocked rf + 1)%Z ->
  mapM encodeLogEntry (logs rf) = Some (encodedLogs rf) ->
  mergeEntries localIndex entries rf = Some (rf', changed) ->
  logs_only rf rf' /\
  mapM encodeLogEntry (logs rf') = Some (encodedLogs rf') /\
  logs rf' = take (Z.to_nat (localIndex - lastIncludedIndex rf)) (logs rf) ++
    merge_reference (drop (Z.to_nat (localIndex - lastIncludedIndex rf)) (logs rf)) entries /\
  (changed = false -> rf' = rf).
Proof.
  induction entries as [|e es IH]; intros i rf rf' ch Hlo Hhi Henc H; simpl in H.
  - injection H as <- <-. split_and!; auto using logs_only_refl.
    simpl. by rewrite take_drop.
  - set (k := Z.to_nat (i - lastIncludedIndex rf)) in *.
    destruct (Z.leb_spec i (lastLogIndexLocked rf)) as [Hin|Hout].
    + unfold termAtLocked in H. rewrite (proj2 (containsIndexLocked_spec rf i)) in H by done.
      unfold toOffsetLocked in H. rewrite zlookup_lookup in H by lia. fold k in H.
      destruct (logs rf !! k) as [o|] eqn:Ho; simpl in H.
      2:{ apply lookup_ge_None in Ho. unfold lastLogIndexLocked, zlen in Hin. lia. }
      rewrite (drop_S _ _ _ Ho). simpl. destruct (decide (le_Term o = le_Term e)) as [Ht|Ht].
      * rewrite decide_False in H by auto.
        apply IH in H as (Hlog & Henc' & Hl & Hch); [|lia..|done].
        split_and!; auto. rewrite Hl.
        replace (Z.to_nat (i + 1 - lastIncludedIndex rf)) with (S k) by lia.
        rewrite (take_S_r _ _ _ Ho), <- app_assoc. done.
      * rewrite decide_True in H by auto. binds.
        match goal with H : truncateLogs _ _ = _ |- _ => apply truncateLogs_Some in H as [? ->] end.
        match goal with H : appendLogs _ _ = _ |- _ => apply appendLogs_Some in H as (enc & He & ->) end.
        simpl. fold k. split_and!; try done.
        apply mapM_encode_app; [by apply mapM_encode_take|done].
    + binds. match goal with H : appendLogs _ _ = _ |- _ => apply appendLogs_Some in H as (enc & He & ->) end.
      assert (length (logs rf) <= k) as Hk.
      { unfold lastLogIndexLocked, zlen in *. lia. }
      simpl. rewrite drop_ge, take_ge by done. split_and!; try done.
      by apply mapM_encode_app.
Qed.

Lemma merge_head k (l old es : list LogEntry) :
  0 < k -> l <> [] -> head (take k l ++ merge_reference old es) = head l.
Proof. destruct k; [lia|]. by destruct l. Qed.

(** ** AppendEntries *)

Lemma wf_deadline clk rf : wf rf -> wf (resetElectionDeadlineLocked clk rf).
Proof. intros [[] Hs]. split; [wf_fields|exact Hs]. Qed.

Lemma followerCommit_wf args rf :
  wf rf -> wf (followerCommit args rf) /\ quiet rf (followerCommit args rf) /\
  (commitIndex rf <= commitIndex (followerCommit args rf))%Z.
Proof.
  intros Hwf. unfold followerCommit.
  destruct (Z.ltb_spec (commitIndex rf) (ae_LeaderCommit args)); [|split_and!; auto; lia].
  match goal with |- context [if (commitIndex rf <? ?c)%Z then _ else _] => set (nc := c); clearbody nc end.
  destruct (Z.ltb_spec (commitIndex rf) nc); [|split_and!; auto; lia].
  destruct Hwf as [[] Hs]. split_and!; [split; [wf_fields; lia|exact Hs]|done|simpl; lia].
Qed.

Lemma AppendEntries_wf clk args rf rf' r :
  wf rf -> AppendEntries clk args rf = Some (rf', r) ->
  wf rf' /\ evo rf rf' /\ aer_Term r = currentTerm rf' /\
  (aer_Success r = true -> currentTerm rf' = ae_Term args) /\ keep_vote rf rf'.
Proof.
  intros Hwf. unfold AppendEntries.
  destruct (killed rf); [intros [= <- <-]; triv; by right|].
  destruct (Z.ltb_spec (ae_Term args) (currentTerm rf)) as [Hl|Hl];
    [intros [= <- <-]; triv; by right|].
  intros H. apply bind_Some in H as (rf0 & Hb & H).
  apply becomeFollowerLocked_wf in Hb as (Hwf0 & He & Hs & Ht & _ & _ & Hv1 & Hv2); [|done].
  set (rf1 := resetElectionDeadlineLocked clk rf0) in *.
  assert (wf rf1) as Hwf1 by by apply wf_deadline.
  assert (evo rf rf1) as He1 by by eapply evo_quiet_r.
  assert (currentTerm rf1 = ae_Term args) as Ht1 by (simpl; lia).
  assert (keep_vote rf rf1) as Hkv.
  { destruct (decide (currentTerm rf0 = currentTerm rf)) as [Hsame|]; [right; auto|left; apply Hv2; lia]. }
  clearbody rf1. clear Hwf0 He Hs Ht Hv1 Hv2.
  destruct (Z.ltb_spec (lastLogIndexLocked rf1) (ae_PrevLogIndex args)); [simplify_eq; triv|].
  destruct (Z.ltb_spec (ae_PrevLogIndex args) (firstLogIndexLocked rf1)); [simplify_eq; triv|].
  destruct (termAtLocked rf1 (ae_PrevLogIndex args)) as [pt|]; [|by simplify_eq].
  case_decide; [simplify_eq; triv|].
  apply bind_Some in H as ([rf2 ch] & Hm & H). apply bind_Some in H as (rf3 & Hp & H).
  injection H as <- <-. unfold firstLogIndexLocked in *.
  pose proof (wf_last _ (proj1 Hwf1)) as Hlast. pose proof (wf_enc _ (proj1 Hwf1)) as Henc.
  apply mergeEntries_spec in Hm as (Hlo & Henc2 & Hl2 & Hch); [|lia..|done].
  assert (wf0 rf2) as Hwf2.
  { eapply logs_only_wf0; [apply Hwf1|done|done|]. rewrite Hl2.
    apply merge_head; [lia|apply Hwf1]. }
  assert (wf rf3 /\ quiet rf1 rf3) as [Hwf3 Hq3].
  { apply logs_only_quiet in Hlo. destruct ch.
    - apply persist_wf in Hp as [? Hq]; [|done]. split; [done|].
      unfold quiet in *. intuition congruence.
    - injection Hp as <-. rewrite Hch by done. done. }
  destruct (followerCommit_wf args rf3 Hwf3) as (Hwf4 & Hq4 & _).
  assert (evo rf (followerCommit args rf3)) as He4 by (do 2 (eapply evo_quiet_r; [|done]); done).
  assert (keep_vote rf (followerCommit args rf3)) as Hkv4 by (do 2 (eapply quiet_keep_vote; [|done]); done).
  destruct Hq3 as (_ & _ & Ht3 & _). destruct Hq4 as (_ & _ & Ht4 & _). simpl.
  split_and!; auto; congruence.
Qed.

(** ** RequestVote *)

Lemma RequestVote_wf clk args rf rf' r :
  wf rf -> RequestVote clk args rf = Some (rf', r) ->
  wf rf' /\ evo rf rf' /\ rvr_Term r = currentTerm rf' /\
  (rvr_VoteGranted r = true ->
    currentTerm rf' = rv_Term args /\ votedFor rf' = Z.of_nat (rv_CandidateId args)).
Proof.
  intros Hwf H. unfold RequestVote in H. apply bind_Some in H as (lt & Hlt & H).
  destruct (killed rf); [simplify_eq; triv|].
  destruct (Z.ltb_spec (rv_Term args) (currentTerm rf)) as [Hl|Hl];
    [simplify_eq; triv|].
  apply bind_Some in H as (rf1 & Hb & H).
  assert (wf rf1 /\ evo rf rf1 /\ currentTerm rf1 = rv_Term args /\
    (currentTerm rf1 = currentTerm rf -> votedFor rf1 = votedFor rf)) as (Hwf1 & He1 & Ht1 & Hv1).
  { destruct (Z.ltb_spec (currentTerm rf) (rv_Term args)).
    - apply becomeFollowerLocked_wf in Hb as (? & ? & ? & Ht & ? & ? & ? & ?); [|done].
      split_and!; auto. lia.
    - injection Hb as <-. split_and!; auto using evo_refl. lia. }
  destruct (_ && _) eqn:Hgrant; [|by simplify_eq].
  apply bind_Some in H as (rf2 & Hp & H). injection H as <- <-.
  apply persist_wf in Hp as [Hwf2 (Hm2 & Hp2 & Ht2 & Hv2 & Hs2)].
  2:{ destruct Hwf1 as [[] _]. wf_fields. }
  simpl in *. split_and!; auto; [|intros _; split; congruence].
  apply andb_true_iff in Hgrant as [Hcan _]. apply orb_true_iff in Hcan.
  rewrite !Z.eqb_eq in Hcan. destruct He1.
  constructor; rewrite ?Hm2, ?Hp2, ?Ht2, ?Hv2, ?Hs2; auto.
  - intros He Hne. rewrite <- (evo_vote0 He Hne). destruct Hcan as [Hc|Hc]; [|done].
    rewrite evo_vote0 in Hc by done. done.
  - right. right. eauto.
Qed.

(** ** InstallSnapshot *)

Lemma install_snapshot_wf args rf rf' :
  wf rf -> (commitIndex rf < is_LastIncludedIndex args)%Z ->
  install_snapshot args rf = Some rf' -> wf rf' /\ quiet rf rf'.
Proof.
  intros [Hwf _] Hc H. unfold install_snapshot in H.
  apply bind_Some in H as (suffix & Hs & H). apply bind_Some in H as (rf2 & Hr & H).
  apply bind_Some in H as (rf5 & Hp & H). injection H as <-.
  apply replaceLogs_Some in Hr as (enc & He & ->).
  apply persist_Some in Hp as ->. split; [|done].
  destruct Hwf. split; [|by left]. wf_fields; try lia.
  - intros m [= <-]. simpl. lia.
  - by intros m [= <-].
Qed.

Lemma InstallSnapshot_wf clk args rf rf' r :
  wf rf -> InstallSnapshot clk args rf = Some (rf', r) ->
  wf rf' /\ evo rf rf' /\ isr_Term r = currentTerm rf' /\ keep_vote rf rf'.
Proof.
  intros Hwf. unfold InstallSnapshot.
  destruct (killed rf); [intros [= <- <-]; triv; by right|].
  destruct (_ <? _)%Z; [intros [= <- <-]; triv; by right|].
  intros H. apply bind_Some in H as (rf0 & Hb & H).
  apply becomeFollowerLocked_wf in Hb as (Hwf0 & He & _ & Ht & _ & _ & Hv1 & Hv2); [|done].
  apply (wf_deadline clk) in Hwf0. set (rf1 := resetElectionDeadlineLocked clk rf0) in *.
  assert (evo rf rf1) as He1 by by eapply evo_quiet_r.
  assert (keep_vote rf rf1) as Hkv.
  { destruct (decide (currentTerm rf0 = currentTerm rf)) as [Hsame|]; [right; auto|left; apply Hv2; lia]. }
  destruct (Z.leb_spec (is_LastIncludedIndex args) (commitIndex rf1)); [simplify_eq; triv|].
  apply bind_Some in H as (rf3 & Hi & H). injection H as <- <-.
  apply install_snapshot_wf in Hi as [Hwf3 Hq]; auto.
  split_and!; auto; [by eapply evo_quiet_r| |by eapply quiet_keep_vote]. destruct Hq as (_ & _ & -> & _). done.
Qed.

(** ** The leader's bookkeeping *)

(** Only [nextIndex], [matchIndex] and a larger [commitIndex] may differ. *)
Definition leader_only (rf rf' : Raft) : Prop :=
  (commitIndex rf <= commitIndex rf')%Z /\
  rf' = set_commitIndex (commitIndex rf') (set_matchIndex (matchIndex rf')
          (set_nextIndex (nextIndex rf') rf)).

Lemma leader_only_quiet rf rf' : leader_only rf rf' -> quiet rf rf'.
Proof. intros [_ ->]. done. Qed.

Lemma leader_only_wf rf rf' :
  wf rf -> leader_only rf rf' ->
  length (nextIndex rf') = length (nextIndex rf) ->
  length (matchIndex rf') = length (matchIndex rf) ->
  Forall (fun x => 1 <= x)%Z (nextIndex rf') -> Forall (fun x => 0 <= x)%Z (matchIndex rf') ->
  wf rf'.
Proof.
  unfold leader_only. intros [[] Hs] [Hc Hrf] Hn Hm Hn1 Hm1.
  remember (commitIndex rf') as c. remember (matchIndex rf') as m. remember (nextIndex rf') as n.
  subst rf'. split; [|exact Hs]. wf_fields; [|lia]. intros [??]%wf_leader0. lia.
Qed.

Lemma leader_only_refl rf : leader_only rf rf.
Proof. split; [lia|]. by destruct rf. Qed.

Lemma leader_only_trans rf1 rf2 rf3 :
  leader_only rf1 rf2 -> leader_only rf2 rf3 -> leader_only rf1 rf3.
Proof.
  unfold leader_only. intros [? H1] [? H2]. split; [lia|]. rewrite H2, H1. done.
Qed.

Lemma advanceLoop_spec k : forall rf rf' b,
  advanceLoop rf k = Some (rf', b) ->
  rf' = set_commitIndex (commitIndex rf') rf /\ (commitIndex rf <= commitIndex rf')%Z /\
  (b = true -> commitIndex rf < commitIndex rf')%Z.
Proof.
  induction k as [|k IH]; intros rf rf' b H; simpl in H.
  - injection H as <- <-. split_and!; [by destruct rf|lia|done].
  - destruct (termAtLocked rf _) as [t|]; [|by apply IH].
    case_decide; [by apply IH|].
    apply bind_Some in H as (r & Hr & H). case_decide; [|by apply IH].
    injection H as <- <-. simpl. split_and!; [done|lia..].
Qed.

Lemma advanceCommitIndexLocked_spec rf rf' b :
  advanceCommitIndexLocked rf = Some (rf', b) ->
  leader_only rf rf' /\ nextIndex rf' = nextIndex rf /\ matchIndex rf' = matchIndex rf.
Proof.
  unfold advanceCommitIndexLocked. case_decide.
  - intros [= <- <-]. split_and!; auto using leader_only_refl.
  - intros (He & Hc & _)%advanceLoop_spec. split_and!; [|by rewrite He..].
    split; [done|]. rewrite He. by destruct rf.
Qed.

Lemma slice_set_Some {A} (l : list A) i v l' :
  slice_set l i v = Some l' -> i < length l /\ l' = <[i:=v]> l.
Proof. unfold slice_set. case_decide; [|done]. by intros [= <-]. Qed.

Lemma slice_set_is_Some {A} (l : list A) i v : i < length l -> slice_set l i v = Some (<[i:=v]> l).
Proof. intros H. unfold slice_set. by rewrite decide_True. Qed.

Lemma replicate_snapshot_reply_wf clk peer args reply rf rf' k :
  wf rf -> (0 <= is_LastIncludedIndex args)%Z ->
  replicate_snapshot_reply clk peer args reply rf = Some (rf', k) -> wf rf' /\ evo rf rf'.
Proof.
  intros Hwf Hlii. unfold replicate_snapshot_reply.
  destruct (_ || _); [intros; simplify_eq; triv|].
  destruct (_ <? _)%Z.
  { intros H. apply bind_Some in H as (rf1 & H1 & H). simplify_eq.
    apply stepDown_wf in H1 as (? & ? & _); auto. }
  destruct (_ || _); [intros; simplify_eq; triv|].
  intros H. apply bind_Some in H as (m & Hm & H). apply bind_Some in H as (mi & Hmi & H).
  apply bind_Some in H as (x & Hx & H). apply bind_Some in H as (ni & Hni & H).
  simplify_eq. apply slice_set_Some in Hmi as [? ->]. apply slice_set_Some in Hni as [? ->].
  pose proof (wf_next _ (proj1 Hwf)) as Hn. pose proof (wf_match _ (proj1 Hwf)) as Hmt.
  split; [|by apply quiet_evo]. eapply leader_only_wf; eauto; simpl; rewrite ?length_insert; auto.
  - split; [simpl; lia|done].
  - apply Forall_insert; [done|]. apply (Forall_lookup_1 _ _ _ _ Hn) in Hx.
    destruct (Z.ltb_spec x (is_LastIncludedIndex args + 1)); lia.
  - apply Forall_insert; [done|]. apply (Forall_lookup_1 _ _ _ _ Hmt) in Hm.
    destruct (Z.ltb_spec m (is_LastIncludedIndex args)); lia.
Qed.

Lemma replicate_append_ok_spec peer args rf rf' k :
  wf rf -> replicate_append_ok peer args rf = Some (rf', k) ->
  exists m rf1, let th := (ae_PrevLogIndex args + zlen (ae_Entries args))%Z in
    wf rf1 /\ leader_only rf rf1 /\ commitIndex rf1 = commitIndex rf /\
    matchIndex rf !! peer = Some m /\
    matchIndex rf1 = <[peer := if (m <? th)%Z then th else m]> (matchIndex rf) /\
    (rf' = rf1 \/ exists b, advanceCommitIndexLocked rf1 = Some (rf', b)).
Proof.
  intros Hwf H. unfold replicate_append_ok in H.
  apply bind_Some in H as (m & Hm & H). apply bind_Some in H as (mi & Hmi & H).
  apply bind_Some in H as (x & Hx & H). apply bind_Some in H as (ni & Hni & H).
  apply bind_Some in H as ([rf2 adv] & Ha & H). injection H as <- <-.
  apply slice_set_Some in Hmi as [? ->]. apply slice_set_Some in Hni as [? ->].
  pose proof (wf_next _ (proj1 Hwf)) as Hn. pose proof (wf_match _ (proj1 Hwf)) as Hmt.
  pose proof (Forall_lookup_1 _ _ _ _ Hn Hx) as Hx1.
  pose proof (Forall_lookup_1 _ _ _ _ Hmt Hm) as Hm1. simpl in Hx1, Hm1.
  set (th := (ae_PrevLogIndex args + zlen (ae_Entries args))%Z) in *. clearbody th.
  match type of Ha with (if _ then advanceCommitIndexLocked ?r else _) = _ => set (rf1 := r) in * end.
  assert (leader_only rf rf1) as Hl1 by (split; [simpl; lia|done]).
  exists m, rf1. split_and!; try done.
  - eapply leader_only_wf; eauto; simpl; rewrite ?length_insert; auto.
    + apply Forall_insert; [done|]. destruct (Z.ltb_spec x (th + 1)); lia.
    + apply Forall_insert; [done|]. destruct (Z.ltb_spec m th); lia.
  - match type of Ha with (if ?b then _ else _) = _ => destruct b end; [eauto|].
    injection Ha as <- <-. by left.
Qed.

(** [advanceCommitIndexLocked] keeps a node well-formed. *)
Lemma advance_wf rf rf' b : wf rf -> advanceCommitIndexLocked rf = Some (rf', b) -> wf rf' /\ quiet rf rf'.
Proof.
  intros Hwf (Hl & Hn & Hm)%advanceCommitIndexLocked_spec. split; [|by apply leader_only_quiet].
  eapply leader_only_wf; eauto; rewrite ?Hn, ?Hm; auto; apply Hwf.
Qed.

Lemma replicate_append_ok_wf peer args rf rf' k :
  wf rf -> replicate_append_ok peer args rf = Some (rf', k) -> wf rf' /\ quiet rf rf'.
Proof.
  intros Hwf (m & rf1 & Hwf1 & Hl & _ & _ & _ & Hr)%replicate_append_ok_spec; [|done].
  apply leader_only_quiet in Hl. destruct Hr as [->|[b Ha]]; [done|].
  apply advance_wf in Ha as [? ?]; [|done]. split; [done|]. unfold quiet in *. intuition congruence.
Qed.

Lemma backtrack_bounds rf reply matched :
  wf0 rf -> (0 <= matched)%Z -> (1 <= backtrack rf reply matched)%Z /\
  (matched < backtrack rf reply matched)%Z.
Proof.
  intros Hwf Hm. unfold backtrack. pose proof (wf_last _ Hwf). pose proof (wf_index _ Hwf).
  repeat match goal with |- context [if (?a <? ?b)%Z then _ else _] =>
    destruct (Z.ltb_spec a b) end; lia.
Qed.

Lemma replicate_append_reply_wf clk peer args reply rf rf' k :
  wf rf -> replicate_append_reply clk peer args reply rf = Some (rf', k) -> wf rf' /\ evo rf rf'.
Proof.
  intros Hwf. unfold replicate_append_reply.
  destruct (_ || _); [intros; simplify_eq; triv|].
  destruct (_ <? _)%Z.
  { intros H. apply bind_Some in H as (rf1 & H1 & H). simplify_eq.
    apply stepDown_wf in H1 as (? & ? & _); auto. }
  destruct (_ || _); [intros; simplify_eq; triv|].
  destruct (aer_Success reply).
  { intros [? ?]%replicate_append_ok_wf; auto using quiet_evo. }
  intros H. apply bind_Some in H as (x & Hx & H).
  case_decide; [simplify_eq; triv|].
  apply bind_Some in H as (m & Hm & H). apply bind_Some in H as (ni & Hni & H). simplify_eq.
  apply slice_set_Some in Hni as [? ->].
  pose proof (Forall_lookup_1 _ _ _ _ (wf_match _ (proj1 Hwf)) Hm) as Hm1. simpl in Hm1.
  split; [|by apply quiet_evo]. eapply leader_only_wf; eauto; simpl; rewrite ?length_insert; auto.
  - split; [simpl; lia|by destruct rf].
  - apply Forall_insert; [apply Hwf|]. apply backtrack_bounds; [apply Hwf|done].
  - apply Hwf.
Qed.

Lemma independent_heartbeat_reply_wf clk reply rf rf' :
  wf rf -> independent_heartbeat_reply clk reply rf = Some rf' -> wf rf' /\ evo rf rf'.
Proof.
  intros Hwf. unfold independent_heartbeat_reply.
  destruct (killed rf); [intros; simplify_eq; auto|].
  destruct (_ <? _)%Z; [|intros; simplify_eq; auto].
  intros (? & ? & _)%stepDown_wf; auto.
Qed.

(** ** Notifications *)

Lemma notify_wf peer rf : wf rf -> wf (notify peer rf).
Proof. intros [[] Hs]. split; [wf_fields; by rewrite length_insert|exact Hs]. Qed.

Lemma broadcastAppendEntries_wf rf :
  wf rf -> wf (broadcastAppendEntries rf) /\ quiet rf (broadcastAppendEntries rf).
Proof.
  unfold broadcastAppendEntries. destruct (_ || _); [auto|].
  generalize (other_peers rf). intros l. revert rf. induction l as [|p l IH]; intros rf Hwf; simpl; [auto|].
  by destruct (IH (notify p rf) (notify_wf p rf Hwf)) as [? Hq].
Qed.

Lemma worker_begin_wf peer rf rf' :
  wf rf -> worker_begin peer rf = Some (Some rf') -> wf rf' /\ quiet rf rf'.
Proof.
  intros [[] Hs] H. unfold worker_begin in H. apply bind_Some in H as (n & Hn & H).
  destruct n; simpl in H; [|done]. destruct (dead rf); [done|].
  apply bind_Some in H as (b & Hb & H). apply slice_set_Some in Hb as [? ->]. simplify_eq.
  split; [|done]. split; [wf_fields; by rewrite length_insert|exact Hs].
Qed.

Lemma worker_end_wf peer rf rf' :
  wf rf -> worker_end peer rf = Some rf' -> wf rf' /\ quiet rf rf'.
Proof.
  intros [[] Hs] H. unfold worker_end in H. apply bind_Some in H as (b & Hb & H).
  apply slice_set_Some in Hb as [? ->]. simplify_eq.
  split; [|done]. split; [wf_fields; by rewrite length_insert|exact Hs].
Qed.

(** Every heartbeat carries the sender's term, last entry and commit index. *)
Definition heartbeat_of (rf : Raft) (args : AppendEntriesArgs) : Prop :=
  ae_Term args = currentTerm rf /\ ae_LeaderId args = me rf /\
  ae_PrevLogIndex args = lastLogIndexLocked rf /\
  Some (ae_PrevLogTerm args) = lastLogTermLocked rf /\
  ae_Entries args = [] /\ ae_LeaderCommit args = commitIndex rf.

Lemma heartbeatLoop_wf time ps : forall rf rf' tasks rescue,
  wf rf -> heartbeatLoop time ps rf = Some (rf', tasks, rescue) ->
  wf rf' /\ quiet rf rf' /\ Forall (fun t => t.1 ∈ ps /\ heartbeat_of rf t.2) tasks /\
  Forall (fun p => p ∈ ps) rescue.
Proof.
  induction ps as [|p ps IH]; intros rf rf' tasks rescue Hwf H; simpl in H; [simplify_eq; triv|].
  assert (forall l, Forall (fun q => q ∈ ps) l -> Forall (fun q => q ∈ p :: ps) l) as Hin1.
  { intros l Hl. eapply Forall_impl; [exact Hl|]. intros; by right. }
  assert (forall (l : list (nat * AppendEntriesArgs)), Forall (fun t => t.1 ∈ ps /\ heartbeat_of rf t.2) l ->
    Forall (fun t => t.1 ∈ p :: ps /\ heartbeat_of rf t.2) l) as Hin2.
  { intros l Hl. eapply Forall_impl; [exact Hl|]. intros t [? ?]; split; [by right|done]. }
  apply bind_Some in H as (b & Hb & H). destruct b; simpl in H.
  2:{ apply IH in H as (? & ? & ? & ?); [|by apply notify_wf]. auto. }
  apply bind_Some in H as (lt & Hlt & H). apply bind_Some in H as (la & Hla & H).
  assert (heartbeat_of rf (mkAppendEntriesArgs (currentTerm rf) (me rf)
    (lastLogIndexLocked rf) lt [] (commitIndex rf))) as Hhb
    by (unfold heartbeat_of; simpl; rewrite Hlt; by split_and!).
  destruct (_ <=? _)%Z; apply bind_Some in H as ([[r t] rs] & Hr & H); simplify_eq.
  - apply IH in Hr as (? & ? & ? & ?).
    + split_and!; auto; constructor; auto; [split; [left|done]|left].
    + destruct Hwf as [[] Hs]. split; [wf_fields; by rewrite length_insert|exact Hs].
  - apply IH in Hr as (? & ? & ? & ?); [|done]. split_and!; auto.
    constructor; auto. split; [left|done].
Qed.

Lemma heartbeat_wf time rf rf' tasks rescue :
  wf rf -> heartbeatOrNotifyReplication time rf = Some (rf', tasks, rescue) ->
  wf rf' /\ quiet rf rf' /\ (tasks <> [] -> state rf = Leader) /\
  Forall (fun t => t.1 ∈ other_peers rf /\ heartbeat_of rf t.2) tasks /\
  Forall (fun p => p ∈ other_peers rf) rescue.
Proof.
  unfold heartbeatOrNotifyReplication. destruct (killed rf || _) eqn:E; intros Hwf H.
  - simplify_eq. triv.
  - apply orb_false_iff in E as [_ E]. apply bool_decide_eq_false, dec_stable in E.
    apply heartbeatLoop_wf in H as (? & ? & ? & ?); auto.
Qed.

(** ** Start, Snapshot, Kill and the applier *)

(** [Start] on a leader: the entry is appended and stored, then a one-node cluster
    commits. *)
Lemma Start_spec command rf rf' r :
  wf rf -> Start command rf = Some (rf', r) ->
  rf' = rf \/ exists rf3, wf rf3 /\ quiet rf rf3 /\ state rf = Leader /\
    logs rf3 = logs rf ++ [mkLogEntry (currentTerm rf) command] /\
    lastIncludedIndex rf3 = lastIncludedIndex rf /\ lastIncludedTerm rf3 = lastIncludedTerm rf /\
    commitIndex rf3 = commitIndex rf /\
    matchIndex rf3 = <[me rf := (lastLogIndexLocked rf + 1)%Z]> (matchIndex rf) /\
    (rf' = rf3 \/ exists b, advanceCommitIndexLocked rf3 = Some (rf', b)).
Proof.
  intros Hwf. unfold Start. destruct (killed rf || _) eqn:E; [intros; simplify_eq; by left|].
  apply orb_false_iff in E as [_ E]. apply bool_decide_eq_false, dec_stable in E.
  intros H. apply bind_Some in H as (rf1 & H1 & H). apply bind_Some in H as (rf2 & H2 & H).
  apply bind_Some in H as (mi & Hmi & H). apply bind_Some in H as (ni & Hni & H).
  apply bind_Some in H as ([rf4 b] & Ha & H). injection H as <- <-.
  apply slice_set_Some in Hmi as [? ->]. apply slice_set_Some in Hni as [? ->].
  apply appendLogs_Some in H1 as (enc & Henc & ->).
  match type of H2 with persist ?r = _ => assert (wf0 r) as Hwf1 end.
  { eapply logs_only_wf0; [apply Hwf|done|apply mapM_encode_app; [apply Hwf|done]|].
    simpl. pose proof (wf_logs _ (proj1 Hwf)). by destruct (logs rf). }
  pose proof (wf_last _ (proj1 Hwf)) as Hlast. pose proof (wf_index _ (proj1 Hwf)) as Hix.
  pose proof (persist_Some _ _ H2) as Hrf2. apply persist_wf in H2 as [Hwf2 Hq2]; [|done].
  match type of Ha with (if _ then advanceCommitIndexLocked ?r else _) = _ => set (rf3 := r) in * end.
  right. exists rf3. split.
  { eapply leader_only_wf; eauto; simpl; rewrite ?length_insert; auto.
    - split; [simpl; lia|by destruct rf2].
    - apply Forall_insert; [apply Hwf2|]. lia.
    - apply Forall_insert; [apply Hwf2|]. lia. }
  split_and!; try done; try (subst rf3; simpl; by rewrite Hrf2).
  case_decide; [eauto|]. injection Ha as <- <-. by left.
Qed.

Lemma Start_wf command rf rf' r :
  wf rf -> Start command rf = Some (rf', r) -> wf rf' /\ quiet rf rf'.
Proof.
  intros Hwf [->|(rf3 & Hwf3 & Hq & _ & _ & _ & _ & _ & _ & [->|[b Ha]])]%Start_spec; [done|done| |done].
  apply advance_wf in Ha as [? ?]; [|done]. split; [done|]. unfold quiet in *. intuition congruence.
Qed.

Lemma Snapshot_wf index data rf rf' :
  wf rf -> Snapshot index data rf = Some rf' -> wf rf' /\ quiet rf rf'.
Proof.
  intros Hwf. unfold Snapshot. destruct (killed rf); [intros; simplify_eq; auto|].
  destruct (Z.leb_spec index (lastIncludedIndex rf)); [intros; simplify_eq; auto|].
  destruct (_ || _) eqn:E; [intros; simplify_eq; auto|]. zbool.
  intros H'. apply bind_Some in H' as (bd & Hbd & H'). apply bind_Some in H' as (tl & Htl & H').
  apply bind_Some in H' as (rf1 & Hr & H').
  apply replaceLogs_Some in Hr as (enc & Henc & ->).
  apply persist_wf in H' as [Hwf' Hq]; [by split|].
  destruct Hwf as [[] _]. wf_fields. lia.
Qed.

Lemma Kill_wf rf : wf rf -> wf (Kill rf) /\ evo rf (Kill rf).
Proof.
  intros [[] Hs]. unfold Kill. destruct (killed rf) eqn:E; [split; [|auto]; split; [by constructor|done]|].
  split.
  - split; [wf_fields|exact Hs].
  - constructor; simpl; auto with lia.
Qed.

Lemma applier_wf rf rf' act :
  wf rf -> applier rf = Some (rf', act) -> wf rf' /\ quiet rf rf'.
Proof.
  intros Hwf. pose proof (wf_pending _ (proj1 Hwf)) as Hp. unfold applier. destruct (killed rf); [intros; simplify_eq; auto|].
  destruct (pendingSnapshot rf) as [m|] eqn:Em.
  - intros; simplify_eq. specialize (Hp m eq_refl). destruct Hwf as [[] Hs].
    destruct (Z.ltb_spec (lastApplied rf) (am_SnapshotIndex m)); (split; [|done]);
      (split; [wf_fields; lia|exact Hs]).
  - destruct (Z.leb_spec (commitIndex rf) (lastApplied rf)); [intros; simplify_eq; auto|].
    case_decide; [done|]. intros H1. apply bind_Some in H1 as (ms & Hms & H1). simplify_eq.
    split; [|done]. destruct Hwf as [[] Hs]. split; [wf_fields; lia|exact Hs].
Qed.

(** ** Elections *)

Lemma becomeLeaderLocked_wf rf rf' :
  wf rf -> becomeLeaderLocked rf = Some rf' ->
  wf rf' /\ me rf' = me rf /\ peers rf' = peers rf /\ currentTerm rf' = currentTerm rf /\
  votedFor rf' = votedFor rf /\ state rf' = Leader /\ logs rf' = logs rf /\
  lastIncludedIndex rf' = lastIncludedIndex rf.
Proof.
  intros [Hwf Hs] H. unfold becomeLeaderLocked in H.
  pose proof (wf_last _ Hwf) as Hlast. pose proof (wf_index _ Hwf) as Hix.
  apply bind_Some in H as (mi & Hmi & H). apply bind_Some in H as (ni & Hni & H). injection H as <-.
  apply slice_set_Some in Hmi as [Hl1 ->]. apply slice_set_Some in Hni as [Hl2 ->].
  assert (forall (P : Z -> Prop) n x, P x -> Forall P (replicate n x)) as Hrep.
  { intros P n x Hx. apply Forall_replicate, Hx. }
  destruct Hwf; case_decide; simpl in *; (split; [|done]); (split; [|exact Hs]);
    constructor; simpl in *; rewrite ?length_insert, ?length_replicate; try done; try lia;
    try (apply Forall_insert; [apply Hrep; lia|lia]).
Qed.

(** [startElection]: nothing happens, or a new term begins in which the node
    votes for itself and asks every other peer. *)
Lemma startElection_wf clk rf rf' won reqs :
  wf rf -> startElection clk rf = Some (rf', won, reqs) ->
  wf rf' /\ me rf' = me rf /\ peers rf' = peers rf /\
  ((rf' = rf /\ won = false /\ reqs = []) \/
   (currentTerm rf' = (currentTerm rf + 1)%Z /\ votedFor rf' = Z.of_nat (me rf) /\
    logs rf' = logs rf /\ lastIncludedIndex rf' = lastIncludedIndex rf /\
    ((majority rf <= 1 /\ state rf' = Leader /\ reqs = []) \/
     (1 < majority rf /\ state rf' = Candidate /\ won = false /\
      exists lt, lastLogTermLocked rf = Some lt /\
        reqs = (fun s => (s, mkRequestVoteArgs (currentTerm rf + 1) (me rf)
                               (lastLogIndexLocked rf) lt)) <$> other_peers rf)))).
Proof.
  intros Hwf. unfold startElection. destruct (_ || _); [intros; simplify_eq; split_and!; auto|].
  intros H. apply bind_Some in H as (rf1 & H1 & H). apply bind_Some in H as (lt & Hlt & H).
  apply persist_Some in H1 as ->.
  match type of H with (if decide (majority ?r <= 1) then _ else _) = _ => set (rf2 := r) in * end.
  assert (wf rf2) as Hwf2.
  { destruct Hwf as [[] Hs]. split; [wf_fields|by left]. }
  case_decide as Hmaj.
  - apply bind_Some in H as (rf3 & H3 & H). injection H as <- <- <-.
    apply becomeLeaderLocked_wf in H3 as (? & Hm & Hp & Ht & Hv & Hs & Hlg & Hix); [|done].
    split_and!; [done|by rewrite Hm|by rewrite Hp|].
    right. rewrite Ht, Hv, Hlg, Hix. split_and!; try done. left. done.
  - injection H as <- <- <-. split_and!; [done..|].
    right. split_and!; try done. right. split_and!; [unfold majority in *; simpl in *; lia|done..|].
    exists lt. done.
Qed.

(** [election_reply]: the vote is counted for the election of this term, or the
    election state only moves as [evo] allows. *)
Lemma election_reply_wf clk term votes reply rf rf' votes' won :
  wf rf -> election_reply clk term votes reply rf = Some (rf', votes', won) ->
  wf rf' /\ me rf' = me rf /\ peers rf' = peers rf /\
  ((votes' = votes /\ evo rf rf') \/
   (state rf = Candidate /\ currentTerm rf = term /\ rvr_VoteGranted reply = true /\
    (rvr_Term reply <= term)%Z /\ votes' = S votes /\
    currentTerm rf' = term /\ votedFor rf' = votedFor rf /\
    logs rf' = logs rf /\ lastIncludedIndex rf' = lastIncludedIndex rf /\
    ((rf' = rf /\ votes' < majority rf) \/ (majority rf <= votes' /\ state rf' = Leader)))).
Proof.
  intros Hwf. unfold election_reply.
  destruct (killed rf); [intros; simplify_eq; split_and!; auto|].
  destruct (Z.ltb_spec (currentTerm rf) (rvr_Term reply)).
  { intros H'. apply bind_Some in H' as (rf1 & H1 & H'). injection H' as <- <- <-.
    apply stepDown_wf in H1 as (? & He & _); [|done]. destruct (He) . split_and!; auto. }
  destruct (_ || _) eqn:E; [intros; simplify_eq; split_and!; auto|].
  apply orb_false_iff in E as [E1 E2]. apply bool_decide_eq_false, dec_stable in E1.
  apply negb_false_iff, Z.eqb_eq in E2.
  destruct (rvr_VoteGranted reply) eqn:Eg; simpl; [|intros; simplify_eq; split_and!; auto].
  case_decide.
  - intros H'. apply bind_Some in H' as (rf1 & H1 & H'). injection H' as <- <- <-.
    apply becomeLeaderLocked_wf in H1 as (? & Hm & Hp & Ht & Hv & Hs & Hlg & Hix); [|done].
    split_and!; auto. right. split_and!; auto; [lia|congruence].
  - intros [= <- <- <-]. split_and!; auto. right. split_and!; auto; [lia|]. left. split; [done|lia].
Qed.

End RaftFacts.
