(* ===== verification/RaftPersist.v ===== *)
(** * The stable storage of a Raft node ([persist] and [readPersist] of [raft1/raft.go])

    What [persist] writes, [readPersist] reads back: the fixed-width header and
    the cached encoding of every log entry round-trip, damaged data is never
    taken for a state, and [Make] on the disk of a well-formed node recovers its
    durable part. *)

From S2P Require Import Prelude.
From S2P Require Import Persister.
From S2P Require Import Raft.
From S2P Require Import RaftRPC.
From S2P Require Import RaftFacts.
From Stdlib Require Import Strings.Byte.

Section RaftPersist.
Context {GL : GobLog}.

(** The integers of the durable state fit Go's 64-bit [int], and the log fits a
    slice. *)
Record hard_in_range (rf : Raft) : Prop := {
  hr_term : int64_range (currentTerm rf);
  hr_vote : int64_range (votedFor rf);
  hr_index : int64_range (lastIncludedIndex rf);
  hr_iterm : int64_range (lastIncludedTerm rf);
  hr_logs : (zlen (logs rf) < 2 ^ 63)%Z;
}.

(** [encs] are encodings of [ls] that gob decodes back, each of slice length. *)
Definition entries_encoded (ls : list LogEntry) (encs : list bytes) : Prop :=
  Forall2 (fun e bs => ungob_entry bs = Some (le_Term e, le_Command e) /\ (zlen bs < 2 ^ 63)%Z)
    ls encs.

Definition frame (encoded : bytes) : bytes :=
  PutUint64 (N.of_nat (length encoded) mod two64) ++ encoded.

#[local] Arguments frame : simpl never.

Lemma readCachedEntries_S count data :
  readCachedEntries (S count) data =
  ('(length, rest) ← Uint64 data;
   if decide (Z.of_N length > zlen rest)%Z then None
   else
     '(t, c) ← ungob_entry (take (N.to_nat length) rest);
     '(ls, encs, rest') ← readCachedEntries count (drop (N.to_nat length) rest);
     Some (mkLogEntry t c :: ls, take (N.to_nat length) rest :: encs, rest')).
Proof. done. Qed.

Lemma readCachedEntries_frames ls encs rest :
  entries_encoded ls encs ->
  readCachedEntries (length ls) (concat (frame <$> encs) ++ rest) = Some (ls, encs, rest).
Proof.
  induction 1 as [|e bs ls encs [Hd Hl] _ IH]; [done|].
  rewrite fmap_cons. change (concat (frame bs :: ?l)) with (frame bs ++ concat l).
  change (length (e :: ls)) with (S (length ls)). rewrite readCachedEntries_S.
  unfold frame at 1.
  rewrite <- !app_assoc.
  assert (N.of_nat (length bs) < two64)%N as Hb by (unfold zlen, two64 in *; lia).
  rewrite N.mod_small by done. rewrite Uint64_PutUint64 by done. simpl.
  rewrite decide_False by (unfold zlen; rewrite length_app; lia).
  rewrite Nat2N.id, take_app_length, drop_app_length. rewrite Hd. simpl.
  rewrite IH. simpl. by destruct e.
Qed.

Lemma frames_length encs :
  zlen (concat (frame <$> encs)) = (8 * zlen encs + zlen (concat encs))%Z.
Proof.
  unfold zlen. induction encs as [|bs encs IH]; csimpl; [done|].
  unfold frame at 1. rewrite !length_app, PutUint64_length. lia.
Qed.

Lemma putInt_read v rest : int64_range v -> Uint64 (putInt v ++ rest) = Some (to_u64 v, rest).
Proof. intros H. apply Uint64_PutUint64, to_u64_bound. Qed.

Definition restored (rf base : Raft) : Raft :=
  set_lastIncludedTerm (lastIncludedTerm rf) (
  set_lastIncludedIndex (lastIncludedIndex rf) (
  set_encodedLogs (encodedLogs rf) (
  set_logs (logs rf) (
  set_votedFor (votedFor rf) (
  set_currentTerm (currentTerm rf) base))))).

Definition header (rf : Raft) : bytes :=
  persistMagic ++ putInt (currentTerm rf) ++ putInt (votedFor rf) ++
  putInt (lastIncludedIndex rf) ++ putInt (lastIncludedTerm rf) ++
  PutUint64 (N.of_nat (length (encodedLogs rf)) mod two64).

Lemma raftState_header rf : raftState rf = header rf ++ concat (frame <$> encodedLogs rf).
Proof. unfold raftState, header. by rewrite <- !app_assoc. Qed.

Lemma header_length rf : zlen (header rf) = persistHeaderSize.
Proof.
  unfold header, zlen. rewrite !length_app. unfold putInt. by rewrite !PutUint64_length.
Qed.

(** On a complete header everything depends on the entries that follow. *)
Lemma readCachedPersist_header rf base data :
  hard_in_range rf -> logs rf <> [] -> length (encodedLogs rf) = length (logs rf) ->
  readCachedPersist (header rf ++ data) base =
  (if decide (zlen (logs rf) > zlen data / 8)%Z then None
   else
     '(logs', encodedLogs', rest) ← readCachedEntries (length (logs rf)) data;
     if decide (rest <> []) then None
     else Some (Some (set_lastIncludedTerm (lastIncludedTerm rf) (
       set_lastIncludedIndex (lastIncludedIndex rf) (
       set_encodedLogs encodedLogs' (set_logs logs' (
       set_votedFor (votedFor rf) (set_currentTerm (currentTerm rf) base)))))))).
Proof.
  intros [Ht Hv Hi Hit Hl] Hne Hlen. unfold readCachedPersist.
  rewrite decide_False.
  2:{ pose proof (header_length rf). unfold zlen in *. rewrite length_app. lia. }
  unfold header. rewrite <- !app_assoc, take_app_length, drop_app_length.
  rewrite decide_False by auto.
  do 4 (rewrite putInt_read by done; simpl).
  assert (N.of_nat (length (encodedLogs rf)) < two64)%N as Hc.
  { unfold zlen, two64 in *. lia. }
  rewrite N.mod_small by done. rewrite Uint64_PutUint64 by done. simpl.
  assert (length (logs rf) <> 0) by (by destruct (logs rf)).
  rewrite Nat2N.id, Hlen, !of_to_u64 by done.
  apply decide_ext. unfold zlen. lia.
Qed.

(** ** The cached format *)

Lemma readCachedPersist_raftState rf base extra :
  hard_in_range rf -> logs rf <> [] -> entries_encoded (logs rf) (encodedLogs rf) ->
  readCachedPersist (raftState rf ++ extra) base =
  (if decide (extra = []) then Some (Some (restored rf base)) else None).
Proof.
  intros Hr Hne Henc. pose proof (Forall2_length _ _ _ Henc) as Hlen.
  rewrite raftState_header, <- app_assoc, readCachedPersist_header by done.
  rewrite decide_False.
  2:{ pose proof (frames_length (encodedLogs rf)) as Hf.
      assert (zlen (logs rf) = zlen (encodedLogs rf)) as -> by (unfold zlen; lia).
      assert (zlen (concat (frame <$> encodedLogs rf) ++ extra) =
        8 * zlen (encodedLogs rf) + zlen (concat (encodedLogs rf)) + zlen extra)%Z as ->.
      { rewrite <- Hf. unfold zlen. rewrite length_app. lia. }
      intros Hgt. match type of Hgt with (_ > ?a / 8)%Z =>
        pose proof (Z.div_le_lower_bound a 8 (zlen (encodedLogs rf))
          ltac:(lia) ltac:(unfold zlen; lia)) end. lia. }
  rewrite readCachedEntries_frames by done. simpl.
  destruct extra; [by rewrite !decide_False by auto|done].
Qed.

Corollary readCachedPersist_intact rf base :
  hard_in_range rf -> logs rf <> [] -> entries_encoded (logs rf) (encodedLogs rf) ->
  readCachedPersist (raftState rf) base = Some (Some (restored rf base)).
Proof.
  intros. rewrite <- (app_nil_r (raftState rf)) at 1.
  by rewrite readCachedPersist_raftState, decide_True.
Qed.

Lemma readCachedEntries_truncated ls encs : forall data,
  entries_encoded ls encs -> data `prefix_of` concat (frame <$> encs) ->
  data <> concat (frame <$> encs) -> readCachedEntries (length ls) data = None.
Proof.
  intros data Henc. revert data. induction Henc as [|e bs ls encs [Hd Hl] _ IH]; intros data Hp Hne.
  { by apply prefix_nil_inv in Hp. }
  rewrite fmap_cons in *. rewrite concat_cons in *.
  change (length (e :: ls)) with (S (length ls)). rewrite readCachedEntries_S.
  unfold frame at 1 in Hp. unfold frame at 1 in Hne. rewrite <- app_assoc in Hp, Hne.
  assert (N.of_nat (length bs) < two64)%N as Hb by (unfold zlen, two64 in *; lia).
  rewrite N.mod_small in Hp, Hne by done.
  destruct (decide (length data < 8)) as [Hs|Hs].
  { by rewrite Uint64_short by lia. }
  destruct Hp as [k Hk].
  assert (exists d, data = PutUint64 (N.of_nat (length bs)) ++ d) as [d ->].
  { exists (drop 8 data). rewrite <- (take_drop 8 data) at 1. f_equal.
    rewrite <- (take_app_le data k) by lia. rewrite <- Hk.
    apply take_app_length'. by rewrite PutUint64_length. }
  rewrite <- app_assoc in Hk. apply app_inv_head in Hk.
  rewrite Uint64_PutUint64 by done. simpl. rewrite Nat2N.id.
  case_decide as Hlt; [done|].
  assert (exists d', d = bs ++ d') as [d' ->].
  { exists (drop (length bs) d). rewrite <- (take_drop (length bs) d) at 1. f_equal.
    rewrite <- (take_app_le d k) by (unfold zlen in Hlt; lia). rewrite <- Hk. apply take_app_length. }
  rewrite <- app_assoc in Hk. apply app_inv_head in Hk.
  rewrite take_app_length, drop_app_length, Hd. simpl.
  rewrite (IH d'); [done|by exists k|]. intros ->. by destruct Hne.
Qed.

(** Data that lost its end is never taken for a state. *)
Lemma readCachedPersist_truncated rf base data :
  hard_in_range rf -> logs rf <> [] -> entries_encoded (logs rf) (encodedLogs rf) ->
  data `prefix_of` raftState rf -> data <> raftState rf ->
  readCachedPersist data base = None \/ readCachedPersist data base = Some None.
Proof.
  intros Hr Hne Henc [k Hk] Hneq. pose proof (Forall2_length _ _ _ Henc) as Hlen.
  destruct (decide (zlen data < persistHeaderSize)%Z) as [Hs|Hs].
  { right. unfold readCachedPersist. by rewrite decide_True. }
  left. rewrite raftState_header in Hk, Hneq. pose proof (header_length rf) as Hh.
  assert (exists d, data = header rf ++ d) as [d ->].
  { exists (drop (length (header rf)) data).
    rewrite <- (take_drop (length (header rf)) data) at 1. f_equal.
    rewrite <- (take_app_le data k) by (unfold zlen in *; lia). rewrite <- Hk. apply take_app_length. }
  rewrite <- app_assoc in Hk. apply app_inv_head in Hk.
  rewrite readCachedPersist_header by done. case_decide; [done|].
  rewrite (readCachedEntries_truncated _ (encodedLogs rf)); [done|done|by exists k|].
  intros ->. by destruct Hneq.
Qed.

(** ** Restarting a node *)

Lemma encoded_entries_encoded (L : GobLogLaws) ls encs :
  mapM encodeLogEntry ls = Some encs -> entries_encoded ls encs.
Proof.
  intros H%mapM_Some. eapply Forall2_impl; [exact H|]. intros e bs He. simpl in He.
  unfold encodeLogEntry in He. eauto using ungob_gob_entry, gob_entry_length.
Qed.

(** The durable part of [rf'] is that of [rf], and [rf'] is a fresh follower. *)
Definition recovered (clk : Clock) (rf rf' : Raft) : Prop :=
  rf' = resetElectionDeadlineLocked clk
    (mkRaft (peers rf) (me rf) false (currentTerm rf) (votedFor rf) (logs rf) (encodedLogs rf)
      [] [] Follower 0 (lastIncludedIndex rf) (lastIncludedIndex rf)
      (replicate (peers rf) false) (replicate (peers rf) false) (replicate (peers rf) 0%Z)
      (lastIncludedIndex rf) (lastIncludedTerm rf) (snapshot rf) None (persister rf)).

(** [Make] on a disk that holds what [persist] wrote for [rf]. *)
Lemma Make_saved (L : GobLogLaws) clk rf rf' ps :
  wf0 rf -> hard_in_range rf -> ps = mkPersister (raftState rf) (snapshot rf) ->
  Make clk (peers rf) (me rf) ps = Some rf' ->
  recovered clk (set_persister ps rf) rf'.
Proof.
  intros Hwf Hr -> H. unfold Make in H.
  apply bind_Some in H as (rf1 & H1 & H). apply bind_Some in H as (rf2 & H2 & H).
  injection H as <-. unfold rebuildEncodedLogs in H1. apply bind_Some in H1 as (enc & He & H1).
  injection H1 as <-. unfold readPersist, ReadRaftState, clone in H2.
  cbn [ps_raftstate] in H2.
  rewrite decide_False in H2.
  2:{ rewrite raftState_header, length_app. pose proof (header_length rf) as Hh.
      change persistHeaderSize with 44%Z in Hh. unfold zlen in Hh. lia. }
  rewrite readCachedPersist_intact in H2;
    [|done|apply Hwf|by apply encoded_entries_encoded, Hwf].
  simpl in H2. injection H2 as <-. reflexivity.
Qed.

(** [Make] on an empty disk. *)
Lemma Make_fresh clk n i rf' :
  Make clk n i MakePersister = Some rf' ->
  hard rf' = hard_init /\ snapshot rf' = [] /\
  exists enc, encodeLogEntry (mkLogEntry 0 None) = Some enc /\
  rf' = resetElectionDeadlineLocked clk
    (mkRaft n i false 0 (-1) [mkLogEntry 0 None] [enc] [] [] Follower 0 0 0
      (replicate n false) (replicate n false) (replicate n 0%Z) 0 0 [] None MakePersister).
Proof.
  intros H. unfold Make in H.
  apply bind_Some in H as (rf1 & H1 & H). apply bind_Some in H as (rf2 & H2 & H).
  injection H as <-. unfold rebuildEncodedLogs in H1. simpl in H1.
  apply bind_Some in H1 as (encs & He & H1). injection H1 as <-.
  apply bind_Some in He as (enc & He & Hx). injection Hx as <-.
  simpl in H2. injection H2 as <-. split_and!; [done..|]. exists enc. done.
Qed.

(** A well-formed node that stops and restarts on its disk has lost nothing of
    its durable part, and is well-formed again. *)
Lemma Make_recovers (L : GobLogLaws) clk rf rf' :
  wf rf -> hard_in_range rf -> Make clk (peers rf) (me rf) (persister rf) = Some rf' ->
  wf rf' /\ hard rf' = hard rf /\ snapshot rf' = snapshot rf /\ persister rf' = persister rf /\
  me rf' = me rf /\ peers rf' = peers rf /\ state rf' = Follower /\
  commitIndex rf' = lastIncludedIndex rf /\ lastApplied rf' = lastIncludedIndex rf /\
  killed rf' = false /\ pendingSnapshot rf' = None.
Proof.
  intros [Hwf Hst] Hr H. destruct Hst as [Hs|(Hs & Hh & Hsn)].
  - pose proof (Make_saved L clk rf rf' _ Hwf Hr Hs H) as ->.
    split_and!; [|by unfold hard|done..].
    destruct Hwf. split; [|by left]. constructor; simpl; rewrite ?length_replicate; auto with lia; done.
  - rewrite Hs in *. apply Make_fresh in H as (Hh' & Hs' & enc & Henc & ->).
    pose proof Hh as Hh2. unfold hard, hard_init in Hh2. injection Hh2 as Ht Hv Hi Hit Hl.
    split_and!; simpl; try congruence; try lia.
    + destruct Hwf. split; [|by right]. constructor; simpl; rewrite ?length_replicate; auto with lia; try done.
      by rewrite Henc.
Qed.

End RaftPersist.
