(* ===== verification/RaftCluster.v ===== *)
(** * The cluster of Raft nodes

    [cluster_step] runs the critical sections of [Raft] and [RaftRPC] on [n]
    nodes, with the RPCs of [raft1/raft.go] in flight between them: a call is
    delivered at most once, its reply returns at most once to the incarnation
    that made it, and both may be lost or delayed at will.  A node may crash and
    restart at any time from its disk.  The theorems are about every sequence of
    steps. *)

From S2P Require Import Prelude.
From S2P Require Import Persister.
From S2P Require Import Raft.
From S2P Require Import RaftRPC.
From S2P Require Import RaftFacts.
From S2P Require Import RaftPersist.

Section RaftCluster.
Context {GL : GobLog}.

(** ** The state *)

(** An RPC in flight: its caller (and the caller's incarnation), its target, and
    its reply once the target's handler ran.  [CAppend] says whether the caller
    is [sendIndependentHeartbeat] or the replication loop. *)
Inductive call : Type :=
  | CVote (src inc dst : nat) (args : RequestVoteArgs) (reply : option RequestVoteReply)
  | CAppend (src inc dst : nat) (heartbeat : bool) (args : AppendEntriesArgs)
      (reply : option AppendEntriesReply)
  | CSnap (src inc dst : nat) (args : InstallSnapshotArgs) (reply : option InstallSnapshotReply).

(** [cl_votes] holds the [votes] variable of each election, by node and term. *)
Record Cluster : Type := mkCluster {
  cl_nodes : list Raft;
  cl_inc : list nat;
  cl_votes : gmap (nat * Z) nat;
  cl_calls : list call;
}.

Definition set_node (i : nat) (rf : Raft) (c : Cluster) : Cluster :=
  mkCluster (<[i:=rf]> (cl_nodes c)) (cl_inc c) (cl_votes c) (cl_calls c).

Definition set_calls (calls : list call) (c : Cluster) : Cluster :=
  mkCluster (cl_nodes c) (cl_inc c) (cl_votes c) calls.

Definition set_votes (votes : gmap (nat * Z) nat) (c : Cluster) : Cluster :=
  mkCluster (cl_nodes c) (cl_inc c) votes (cl_calls c).

(** ** The steps *)

(** The critical sections that neither send nor receive: those of the node's own
    goroutines, and those the service is concerned in. *)
Inductive inner_step (rf : Raft) : Raft -> Prop :=
  | LKill : inner_step rf (Kill rf)
  | LBroadcast : inner_step rf (broadcastAppendEntries rf)
  | LWorkerBegin peer rf' : worker_begin peer rf = Some (Some rf') -> inner_step rf rf'
  | LWorkerEnd peer rf' : worker_end peer rf = Some rf' -> inner_step rf rf'.

Inductive local_step (rf : Raft) : Raft -> Prop :=
  | LStart command rf' r : Start command rf = Some (rf', r) -> local_step rf rf'
  | LSnapshot index data rf' : Snapshot index data rf = Some rf' -> local_step rf rf'
  | LApplier rf' act : applier rf = Some (rf', act) -> local_step rf rf'
  | LInner rf' : inner_step rf rf' -> local_step rf rf'.

(** The target's handler runs: the call with its reply. *)
Definition handle (clk : Clock) (k : call) (rf : Raft) : option (Raft * call) :=
  match k with
  | CVote src inc dst args None =>
      '(rf', r) ← RequestVote clk args rf; Some (rf', CVote src inc dst args (Some r))
  | CAppend src inc dst hb args None =>
      '(rf', r) ← AppendEntries clk args rf; Some (rf', CAppend src inc dst hb args (Some r))
  | CSnap src inc dst args None =>
      '(rf', r) ← InstallSnapshot clk args rf; Some (rf', CSnap src inc dst args (Some r))
  | _ => None
  end.

Definition call_src (k : call) : nat :=
  match k with CVote src _ _ _ _ | CAppend src _ _ _ _ _ | CSnap src _ _ _ _ => src end.

Definition call_inc (k : call) : nat :=
  match k with CVote _ inc _ _ _ | CAppend _ inc _ _ _ _ | CSnap _ inc _ _ _ => inc end.

Definition call_dst (k : call) : nat :=
  match k with CVote _ _ dst _ _ | CAppend _ _ dst _ _ _ | CSnap _ _ dst _ _ => dst end.

(** The caller treats the reply. *)
Definition handle_reply (clk : Clock) (k : call) (votes : gmap (nat * Z) nat) (rf : Raft)
    : option (Raft * gmap (nat * Z) nat) :=
  match k with
  | CVote src _ _ args (Some r) =>
      v ← votes !! (src, rv_Term args);
      '(rf', v', _) ← election_reply clk (rv_Term args) v r rf;
      Some (rf', <[(src, rv_Term args) := v']> votes)
  | CAppend _ _ dst false args (Some r) =>
      '(rf', _) ← replicate_append_reply clk dst args r rf; Some (rf', votes)
  | CAppend _ _ _ true _ (Some r) =>
      rf' ← independent_heartbeat_reply clk r rf; Some (rf', votes)
  | CSnap _ _ dst args (Some r) =>
      '(rf', _) ← replicate_snapshot_reply clk dst args r rf; Some (rf', votes)
  | _ => None
  end.

Definition request_call (src inc dst : nat) (req : replication_request) : call :=
  match req with
  | RepSnapshot args => CSnap src inc dst args None
  | RepAppend args => CAppend src inc dst false args None
  end.

(** Elections, heartbeats and replication, and the RPCs. *)
Inductive net_step (c : Cluster) : Cluster -> Prop :=
  | SElection i inc clk rf rf' won reqs :
      cl_nodes c !! i = Some rf -> cl_inc c !! i = Some inc ->
      startElection clk rf = Some (rf', won, reqs) ->
      net_step c
        (set_calls (cl_calls c ++ ((fun '(dst, args) => CVote i inc dst args None) <$> reqs))
          (set_votes (if decide (reqs = []) then cl_votes c
                      else <[(i, currentTerm rf') := 1]> (cl_votes c))
            (set_node i rf' c)))
  | SHeartbeat i inc time rf rf' tasks rescue :
      cl_nodes c !! i = Some rf -> cl_inc c !! i = Some inc ->
      heartbeatOrNotifyReplication time rf = Some (rf', tasks, rescue) ->
      net_step c
        (set_calls (cl_calls c ++ ((fun '(dst, args) => CAppend i inc dst true args None) <$> tasks))
          (set_node i rf' c))
  | SReplicate i inc dst rf req :
      cl_nodes c !! i = Some rf -> cl_inc c !! i = Some inc -> dst ∈ other_peers rf ->
      replicate_request dst rf = Some (Some req) ->
      net_step c (set_calls (cl_calls c ++ [request_call i inc dst req]) c)
  | SDeliver clk k k' l1 l2 rf rf' :
      cl_calls c = l1 ++ k :: l2 -> cl_nodes c !! call_dst k = Some rf ->
      handle clk k rf = Some (rf', k') ->
      net_step c (set_calls (l1 ++ k' :: l2) (set_node (call_dst k) rf' c))
  | SReply clk k l1 l2 rf rf' votes' :
      cl_calls c = l1 ++ k :: l2 -> cl_nodes c !! call_src k = Some rf ->
      cl_inc c !! call_src k = Some (call_inc k) ->
      handle_reply clk k (cl_votes c) rf = Some (rf', votes') ->
      net_step c (set_calls (l1 ++ l2) (set_votes votes' (set_node (call_src k) rf' c)))
  | SDrop k l1 l2 :
      cl_calls c = l1 ++ k :: l2 -> net_step c (set_calls (l1 ++ l2) c).

Inductive cluster_step (c : Cluster) : Cluster -> Prop :=
  | SLocal i rf rf' :
      cl_nodes c !! i = Some rf -> local_step rf rf' ->
      cluster_step c (set_node i rf' c)
  | SNet c' : net_step c c' -> cluster_step c c'
  | SRestart i inc clk rf rf' :
      cl_nodes c !! i = Some rf -> cl_inc c !! i = Some inc -> hard_in_range rf ->
      Make clk (peers rf) i (persister rf) = Some rf' ->
      cluster_step c (mkCluster (<[i:=rf']> (cl_nodes c)) (<[i:=S inc]> (cl_inc c))
        (cl_votes c) (cl_calls c)).

(** [n] nodes, each created on an empty disk. *)
Definition cluster_init (n : nat) (c : Cluster) : Prop :=
  length (cl_nodes c) = n /\ cl_inc c = replicate n 0 /\ cl_votes c = ∅ /\ cl_calls c = [] /\
  forall i rf, cl_nodes c !! i = Some rf -> exists clk, Make clk n i MakePersister = Some rf.

Definition cluster_run : relation Cluster := rtc cluster_step.

(** ** The invariant

    [V] is the record of all votes ever cast: it only grows. *)

Abbreviation votes_record := (gmap (nat * Z) nat).

Definition voters (n : nat) (V : votes_record) (i : nat) (t : Z) (Q : gset nat) : Prop :=
  forall v, v ∈ Q -> v < n /\ V !! (v, t) = Some i.

Definition node_ok (n : nat) (V : votes_record) (i : nat) (rf : Raft) : Prop :=
  wf rf /\ me rf = i /\ peers rf = n /\
  ((votedFor rf = (-1)%Z /\ V !! (i, currentTerm rf) = None) \/
   exists c, votedFor rf = Z.of_nat c /\ V !! (i, currentTerm rf) = Some c) /\
  (forall t c, V !! (i, t) = Some c -> (t <= currentTerm rf)%Z) /\
  (state rf = Leader -> exists Q, voters n V i (currentTerm rf) Q /\ majority rf <= size Q).

Definition vote_key (k : call) : option (nat * Z * nat) :=
  match k with CVote src _ dst args _ => Some (src, rv_Term args, dst) | _ => None end.

Definition call_ok (c : Cluster) (V : votes_record) (k : call) : Prop :=
  match k with
  | CVote src _ dst args r =>
      dst < length (cl_nodes c) /\ rv_CandidateId args = src /\
      (exists rf, cl_nodes c !! src = Some rf /\ (rv_Term args <= currentTerm rf)%Z) /\
      (forall r', r = Some r' -> rvr_VoteGranted r' = true -> V !! (dst, rv_Term args) = Some src)
  | CAppend _ _ _ _ _ _ => True
  | CSnap _ _ _ args _ => (0 <= is_LastIncludedIndex args)%Z
  end.

(** The votes a candidate counted, none of whose voters' calls is left. *)
Definition candidate_ok (n : nat) (c : Cluster) (V : votes_record) (i : nat) (rf : Raft) : Prop :=
  state rf = Candidate -> exists Q,
    voters n V i (currentTerm rf) Q /\ cl_votes c !! (i, currentTerm rf) = Some (size Q) /\
    forall dst, dst ∈ Q -> Some (i, currentTerm rf, dst) ∉ vote_key <$> cl_calls c.

Record Inv (n : nat) (V : votes_record) (c : Cluster) : Prop := {
  inv_len : length (cl_nodes c) = n;
  inv_nodes : forall i rf, cl_nodes c !! i = Some rf -> node_ok n V i rf;
  inv_voters : forall v t i, V !! (v, t) = Some i -> v < n;
  inv_calls : Forall (call_ok c V) (cl_calls c);
  inv_keys : NoDup (omap vote_key (cl_calls c));
  inv_cand : forall i rf, cl_nodes c !! i = Some rf -> candidate_ok n c V i rf;
}.

Lemma voters_mono n V V' i t Q : V ⊆ V' -> voters n V i t Q -> voters n V' i t Q.
Proof. intros HV H v Hv. apply H in Hv as [? ?]. split; [done|]. by eapply lookup_weaken. Qed.

(** What the node's new vote adds to the record. *)
Definition record_vote (i : nat) (rf : Raft) (V : votes_record) : votes_record :=
  if decide (votedFor rf = (-1)%Z) then V
  else <[(i, currentTerm rf) := Z.to_nat (votedFor rf)]> V.

(** [V'] is [V] with at most the present vote of node [i] added. *)
Definition cast (i : nat) (rf : Raft) (V V' : votes_record) : Prop :=
  V ⊆ V' /\ forall v t x, V' !! (v, t) = Some x ->
    V !! (v, t) = Some x \/ (v = i /\ t = currentTerm rf /\ votedFor rf = Z.of_nat x).

Lemma cast_refl i rf V : cast i rf V V.
Proof. split; [done|]. by left. Qed.

Lemma record_vote_cast i rf V :
  V ⊆ record_vote i rf V -> votedFor rf = (-1)%Z \/ (exists c : nat, votedFor rf = Z.of_nat c) ->
  cast i rf V (record_vote i rf V).
Proof.
  intros HV Hf. split; [done|]. intros v t x. unfold record_vote. case_decide; [by left|].
  rewrite lookup_insert. case_decide; simplify_eq; [intros [= <-]|by left].
  right. split_and!; [done..|]. destruct Hf as [?|[c ->]]; [done|]. by rewrite Nat2Z.id.
Qed.

(** The part of [node_ok] that is about votes, after the node moved from [rf] to
    [rf'] without leading. *)
Lemma record_vote_mono n V i rf rf' :
  node_ok n V i rf -> (currentTerm rf <= currentTerm rf')%Z ->
  (currentTerm rf' = currentTerm rf -> votedFor rf <> (-1)%Z -> votedFor rf' = votedFor rf) ->
  V ⊆ record_vote i rf' V.
Proof.
  intros (_ & _ & _ & Hv & Hle & _) Ht Hsame. unfold record_vote. case_decide as Hne; [done|].
  destruct (V !! (i, currentTerm rf')) as [c|] eqn:E; [|by apply insert_subseteq].
  assert (currentTerm rf' = currentTerm rf) as He by (apply Hle in E; lia).
  rewrite He in E |- *. destruct Hv as [[Hm1 Hv]|(c' & Hc' & Hv)]; [congruence|].
  rewrite Hsame by (done || lia). rewrite Hc', Nat2Z.id. by rewrite insert_id.
Qed.

Lemma record_vote_node n V i rf rf' :
  node_ok n V i rf -> wf rf' -> me rf' = me rf -> peers rf' = peers rf ->
  (currentTerm rf <= currentTerm rf')%Z ->
  (currentTerm rf' = currentTerm rf -> votedFor rf <> (-1)%Z -> votedFor rf' = votedFor rf) ->
  (votedFor rf' = (-1)%Z \/ exists c : nat, votedFor rf' = Z.of_nat c) ->
  (state rf' = Leader -> exists Q, voters n (record_vote i rf' V) i (currentTerm rf') Q /\
     majority rf' <= size Q) ->
  node_ok n (record_vote i rf' V) i rf'.
Proof.
  intros (Hwf & Hm & Hp & Hv & Hle & Hl) Hwf' Hm' Hp' Ht Hsame Hform Hlead.
  unfold node_ok. split_and!; auto; try congruence.
  - unfold record_vote. destruct Hform as [Hf|[c Hf]].
    + rewrite decide_True by done. left. split; [done|].
      destruct (V !! (i, currentTerm rf')) as [c|] eqn:E; [exfalso|done].
      assert (currentTerm rf' = currentTerm rf) as He by (apply Hle in E; lia).
      rewrite He in E. destruct Hv as [[Hm1 Hv]|(c' & Hc' & Hv)]; [congruence|].
      rewrite Hsame in Hf by (done || lia). lia.
    + rewrite decide_False by lia. right. exists c. rewrite Hf, Nat2Z.id, lookup_insert_eq. done.
  - intros t c. unfold record_vote. case_decide; [intros ?%Hle; lia|].
    rewrite lookup_insert. case_decide; simplify_eq; [lia|]. intros ?%Hle; lia.
Qed.

Lemma record_vote_other V i rf v t :
  v <> i -> record_vote i rf V !! (v, t) = V !! (v, t).
Proof. intros. unfold record_vote. case_decide; [done|]. rewrite lookup_insert_ne; congruence. Qed.

Lemma node_ok_mono n V V' j rf :
  node_ok n V j rf -> V ⊆ V' -> (forall t, V' !! (j, t) = V !! (j, t)) -> node_ok n V' j rf.
Proof.
  intros (Hwf & Hm & Hp & Hv & Hle & Hl) HV Hsame. unfold node_ok. rewrite Hsame.
  split_and!; auto.
  - intros t c. rewrite Hsame. apply Hle.
  - intros (Q & HQ & ?)%Hl. exists Q. split; [by eapply voters_mono|done].
Qed.

Lemma call_ok_mono n c c' V V' i rf rf' k :
  Inv n V c -> cl_nodes c !! i = Some rf -> cl_nodes c' = <[i:=rf']> (cl_nodes c) ->
  V ⊆ V' -> (currentTerm rf <= currentTerm rf')%Z -> call_ok c V k -> call_ok c' V' k.
Proof.
  intros HI Hi Hc HV Ht. destruct k as [src inc dst args r| |]; simpl; [|done..].
  intros (Hd & Hca & (rfs & Hs & Hle) & Hg). rewrite Hc, length_insert. split_and!; auto.
  - destruct (decide (src = i)) as [->|Hne].
    + exists rf'. rewrite list_lookup_insert_eq by (by eapply lookup_lt_Some).
      split; [done|]. simplify_eq. lia.
    + exists rfs. by rewrite list_lookup_insert_ne by done.
  - intros r' Hr Hgr. eapply lookup_weaken; eauto.
Qed.

(** How a step at node [i] keeps the invariant. *)
Lemma Inv_update n V V' c c' i rf rf' :
  Inv n V c -> cl_nodes c !! i = Some rf -> cl_nodes c' = <[i:=rf']> (cl_nodes c) ->
  V ⊆ V' -> (forall v t, v <> i -> V' !! (v, t) = V !! (v, t)) ->
  (currentTerm rf <= currentTerm rf')%Z -> node_ok n V' i rf' ->
  NoDup (omap vote_key (cl_calls c')) ->
  (forall k, k ∈ cl_calls c' -> k ∈ cl_calls c \/ call_ok c' V' k) ->
  candidate_ok n c' V' i rf' ->
  (forall j, j <> i -> (forall t, cl_votes c' !! (j, t) = cl_votes c !! (j, t)) /\
    forall t dst, Some (j, t, dst) ∈ vote_key <$> cl_calls c' ->
                  Some (j, t, dst) ∈ vote_key <$> cl_calls c) ->
  Inv n V' c'.
Proof.
  intros HI Hi Hn HV Hoth Ht Hok Hnd Hcalls Hcand Hframe.
  pose proof HI as [Hlen Hnodes Hvot Hco _ Hcd]. constructor; auto.
  - by rewrite Hn, length_insert.
  - rewrite Hn. intros j rfj [(-> & <- & _)|[Hne Hj]]%list_lookup_insert_Some; [done|].
    eapply node_ok_mono; eauto.
  - intros v t j. destruct (decide (v = i)) as [->|Hne].
    + intros _. rewrite <- Hlen. by eapply lookup_lt_Some.
    + rewrite Hoth by done. apply Hvot.
  - apply Forall_forall. intros k [Hk|Hk]%Hcalls; [|done].
    eapply call_ok_mono; eauto. by eapply Forall_forall in Hco.
  - rewrite Hn. intros j rfj [(-> & <- & _)|[Hne Hj]]%list_lookup_insert_Some; [done|].
    destruct (Hframe j) as [Hv Hk]; [done|]. intros Hs.
    destruct (Hcd j rfj Hj Hs) as (Q & HQ & Hsz & Hd). exists Q. rewrite Hv.
    split_and!; [by eapply voters_mono|done|]. intros dst Hdst Hin%Hk. by eapply Hd.
Qed.

(** The same for a step that only moves the election state as [evo] allows. *)
Lemma Inv_evo n V c c' i rf rf' :
  Inv n V c -> cl_nodes c !! i = Some rf -> cl_nodes c' = <[i:=rf']> (cl_nodes c) ->
  wf rf' -> evo rf rf' ->
  (forall t, state rf' = Candidate -> cl_votes c' !! (i, t) = cl_votes c !! (i, t)) ->
  (forall j t, j <> i -> cl_votes c' !! (j, t) = cl_votes c !! (j, t)) ->
  NoDup (omap vote_key (cl_calls c')) ->
  (forall k, k ∈ cl_calls c' -> k ∈ cl_calls c \/ call_ok c' (record_vote i rf' V) k) ->
  (forall x, Some x ∈ vote_key <$> cl_calls c' -> Some x ∈ vote_key <$> cl_calls c) ->
  Inv n (record_vote i rf' V) c' /\ cast i rf' V (record_vote i rf' V).
Proof.
  intros HI Hi Hn Hwf [Hm Hp Ht Hv Hvd Hr] Hvi Hvj Hnd Hcalls Hkeys.
  pose proof (inv_nodes _ _ _ HI _ _ Hi) as Hok.
  assert (V ⊆ record_vote i rf' V) as HV by (eapply record_vote_mono; eauto).
  assert (votedFor rf' = (-1)%Z \/ exists x : nat, votedFor rf' = Z.of_nat x) as Hform.
  { destruct Hvd as [[_ ->]|?]; [|done].
    destruct Hok as (_ & _ & _ & [[? _]|(x & ? & _)] & _); eauto. }
  split; [|by apply record_vote_cast]. eapply Inv_update; eauto.
  - intros. by apply record_vote_other.
  - eapply record_vote_node; eauto.
    + intros Hs. destruct Hr as [Hr|[Hr He]]; [congruence|].
      destruct Hok as (_ & _ & _ & _ & _ & Hl). destruct Hl as (Q & HQ & Hsz); [congruence|].
      exists Q. unfold majority in *. rewrite Hp, He. split; [by eapply voters_mono|done].
  - intros Hs. destruct Hr as [Hr|[Hr He]]; [congruence|].
    destruct (inv_cand _ _ _ HI _ _ Hi) as (Q & HQ & Hsz & Hd); [congruence|].
    exists Q. rewrite He, Hvi by done. split_and!; [by eapply voters_mono|done|].
    intros dst Hdst Hin%Hkeys. by eapply Hd.
Qed.

(** ** Every step keeps the invariant *)

Lemma local_step_wf rf rf' : wf rf -> local_step rf rf' -> wf rf' /\ evo rf rf'.
Proof.
  intros Hwf Hs. destruct Hs as [??? H|??? H|?? H|rf' [| |?? H|?? H]].
  - apply Start_wf in H as [? ?]; auto using quiet_evo.
  - apply Snapshot_wf in H as [? ?]; auto using quiet_evo.
  - apply applier_wf in H as [? ?]; auto using quiet_evo.
  - by apply Kill_wf.
  - destruct (broadcastAppendEntries_wf _ Hwf). auto using quiet_evo.
  - apply worker_begin_wf in H as [? ?]; auto using quiet_evo.
  - apply worker_end_wf in H as [? ?]; auto using quiet_evo.
Qed.

Lemma vote_keys_app l1 l2 : omap vote_key (l1 ++ l2) = omap vote_key l1 ++ omap vote_key l2.
Proof. induction l1 as [|k l1 IH]; csimpl; [done|]. rewrite IH. by destruct (vote_key k). Qed.

Lemma omap_keys_elem (x : nat * Z * nat) (l : list call) : x ∈ omap vote_key l <-> Some x ∈ vote_key <$> l.
Proof.
  rewrite list_elem_of_omap, list_elem_of_fmap. split; intros (k & ? & ?); eauto.
Qed.

Lemma no_votes_keys (l : list call) : Forall (fun k => vote_key k = None) l -> omap vote_key l = [].
Proof. induction 1 as [|k l Hk _ IH]; csimpl; [done|]. by rewrite Hk, IH. Qed.

(** Calls that are not votes may be added. *)
Lemma Inv_add n V c i rf rf' more :
  Inv n V c -> cl_nodes c !! i = Some rf -> wf rf' -> quiet rf rf' ->
  Forall (fun k => vote_key k = None) more ->
  (forall c' V', Forall (call_ok c' V') more) ->
  exists V', cast i rf' V V' /\ Inv n V' (set_calls (cl_calls c ++ more) (set_node i rf' c)).
Proof.
  intros HI Hi Hwf Hq Hno Hok.
  destruct (Inv_evo n V c (set_calls (cl_calls c ++ more) (set_node i rf' c)) i rf rf')
    as [HI' HV]; simpl; auto using quiet_evo.
  - rewrite vote_keys_app, (no_votes_keys more), app_nil_r by done. apply HI.
  - intros k [?|Hk]%elem_of_app; [by left|right]. by eapply Forall_forall in Hok.
  - intros x. rewrite <- !omap_keys_elem, vote_keys_app, (no_votes_keys more), app_nil_r by done. done.
  - eauto.
Qed.

(** One call may be replaced by its answered form, or dropped. *)
Lemma keys_replace l1 l2 (k k' : call) :
  vote_key k' = vote_key k -> vote_key <$> (l1 ++ k' :: l2) = vote_key <$> (l1 ++ k :: l2).
Proof. intros H. by rewrite !fmap_app, !fmap_cons, H. Qed.

Lemma omap_keys_replace l1 l2 (k k' : call) :
  vote_key k' = vote_key k -> omap vote_key (l1 ++ k' :: l2) = omap vote_key (l1 ++ k :: l2).
Proof. intros H. rewrite !vote_keys_app. csimpl. by rewrite H. Qed.

Lemma omap_keys_drop l1 l2 (k : call) :
  NoDup (omap vote_key (l1 ++ k :: l2)) ->
  NoDup (omap vote_key (l1 ++ l2)) /\ forall x, vote_key k = Some x -> x ∉ omap vote_key (l1 ++ l2).
Proof.
  rewrite !vote_keys_app. csimpl. destruct (vote_key k) as [x|]; [|done].
  rewrite !NoDup_app, NoDup_cons. intros (H1 & H2 & H3 & H4). split_and!; auto.
  - intros y Hy Hin. apply (H2 y Hy). by right.
  - intros y [= <-]. rewrite elem_of_app. intros [Hx|Hx]; [|done]. apply (H2 x Hx). left.
Qed.

Lemma Inv_drop n V c k l1 l2 :
  cl_calls c = l1 ++ k :: l2 -> Inv n V c -> Inv n V (set_calls (l1 ++ l2) c).
Proof.
  intros Hc [Hlen Hnodes Hvot Hco Hnd Hcd]. rewrite Hc in *. apply Forall_app in Hco as [H1 [_ H2]%Forall_cons].
  constructor; simpl; auto.
  - apply Forall_app; split; [exact H1|exact H2].
  - by apply omap_keys_drop in Hnd as [? _].
  - intros i rf Hi Hs. destruct (Hcd i rf Hi Hs) as (Q & HQ & Hsz & Hd).
    exists Q. split_and!; auto. intros dst Hdst Hin. apply (Hd dst Hdst). simpl in Hin.
    rewrite Hc, fmap_app, fmap_cons, elem_of_app, elem_of_cons. rewrite fmap_app, elem_of_app in Hin. tauto.
Qed.

Lemma Inv_local n V c i rf rf' :
  Inv n V c -> cl_nodes c !! i = Some rf -> local_step rf rf' ->
  exists V', cast i rf' V V' /\ Inv n V' (set_node i rf' c).
Proof.
  intros HI Hi Hl. pose proof (inv_nodes _ _ _ HI _ _ Hi) as (Hwf & _).
  apply local_step_wf in Hl as [Hwf' He]; [|done].
  destruct (Inv_evo n V c (set_node i rf' c) i rf rf') as [? ?]; simpl; eauto. apply HI.
Qed.

Lemma Inv_heartbeat n V c i inc time rf rf' tasks rescue :
  Inv n V c -> cl_nodes c !! i = Some rf ->
  heartbeatOrNotifyReplication time rf = Some (rf', tasks, rescue) ->
  exists V', cast i rf' V V' /\ Inv n V' (set_calls
    (cl_calls c ++ ((fun '(dst, args) => CAppend i inc dst true args None) <$> tasks)) (set_node i rf' c)).
Proof.
  intros HI Hi H. pose proof (inv_nodes _ _ _ HI _ _ Hi) as (Hwf & _).
  apply heartbeat_wf in H as (Hwf' & Hq & _); [|done].
  eapply Inv_add; eauto; intros; apply Forall_fmap, Forall_true; by intros [??].
Qed.

Lemma Inv_replicate n V c i inc dst rf req :
  Inv n V c -> cl_nodes c !! i = Some rf -> replicate_request dst rf = Some (Some req) ->
  exists V', cast i rf V V' /\ Inv n V' (set_calls (cl_calls c ++ [request_call i inc dst req]) c).
Proof.
  intros HI Hi H. pose proof (inv_nodes _ _ _ HI _ _ Hi) as (Hwf & _).
  destruct (Inv_add n V c i rf rf [request_call i inc dst req]) as (V' & HV & HI'); auto using quiet_refl.
  - constructor; [by destruct req|done].
  - intros c' V'. constructor; [|done]. destruct req as [args|args]; simpl; [|done].
    unfold replicate_request in H. destruct (_ || _); [done|].
    apply bind_Some in H as (next & Hn & H). destruct (_ <=? _)%Z.
    + injection H as <-. simpl. apply Hwf.
    + destruct (termAtLocked _ _); [|done]. by apply bind_Some in H as (? & ? & ?).
  - exists V'. split; [done|]. unfold set_node in HI'. by rewrite list_insert_id in HI'.
Qed.

(** The handler answers the call it was given. *)
Lemma handle_spec clk k rf rf' k' :
  wf rf -> handle clk k rf = Some (rf', k') ->
  wf rf' /\ evo rf rf' /\ vote_key k' = vote_key k /\
  forall c c' n V, Inv n V c -> cl_nodes c !! call_dst k = Some rf -> call_ok c V k ->
    cl_nodes c' = <[call_dst k:=rf']> (cl_nodes c) ->
    node_ok n (record_vote (call_dst k) rf' V) (call_dst k) rf' ->
    V ⊆ record_vote (call_dst k) rf' V -> call_ok c' (record_vote (call_dst k) rf' V) k'.
Proof.
  intros Hwf H. destruct k as [src inc dst args [r|]|src inc dst hb args [r|]|src inc dst args [r|]];
    simpl in H; try done; apply bind_Some in H as ([rf1 r] & Hh & H); injection H as <- <-.
  - apply RequestVote_wf in Hh as (? & He & Hrt & Hgr); [|done].
    split_and!; auto. intros c c' n V HI Hd Hk Hc Hok HV.
    pose proof (call_ok_mono n c c' V _ _ rf rf1 _ HI Hd Hc HV (evo_term _ _ He) Hk) as Hk'.
    simpl in *. destruct Hk' as (? & Hca & ? & _). split_and!; auto.
    intros r' [= <-] (Ht & Hv)%Hgr. rewrite <- Ht, <- Hca.
    destruct Hok as (_ & _ & _ & [[? _]|(x & Hx & Hlook)] & _); [lia|].
    rewrite Hlook. f_equal. lia.
  - apply AppendEntries_wf in Hh as (? & He & _); [|done]. by split_and!.
  - apply InstallSnapshot_wf in Hh as (? & He & _); [|done]. by split_and!.
Qed.

Lemma Inv_deliver n V c clk k k' l1 l2 rf rf' :
  Inv n V c -> cl_calls c = l1 ++ k :: l2 -> cl_nodes c !! call_dst k = Some rf ->
  handle clk k rf = Some (rf', k') ->
  exists V', cast (call_dst k) rf' V V' /\ Inv n V' (set_calls (l1 ++ k' :: l2) (set_node (call_dst k) rf' c)).
Proof.
  intros HI Hc Hi H. pose proof (inv_nodes _ _ _ HI _ _ Hi) as Hok.
  pose proof (inv_calls _ _ _ HI) as Hco. rewrite Hc in Hco.
  apply Forall_app in Hco as [_ [Hk _]%Forall_cons].
  apply handle_spec in H as (Hwf' & He & Hkey & Hspec); [|apply Hok].
  set (c' := set_calls (l1 ++ k' :: l2) (set_node (call_dst k) rf' c)).
  assert (V ⊆ record_vote (call_dst k) rf' V) as HV.
  { destruct He. eapply record_vote_mono; eauto. }
  assert (Inv n (record_vote (call_dst k) rf' V) (set_node (call_dst k) rf' c)) as HI'.
  { eapply Inv_evo; eauto. apply HI. }
  pose proof (inv_nodes _ _ _ HI' (call_dst k) rf') as Hok'. simpl in Hok'.
  rewrite list_lookup_insert_eq in Hok' by (by eapply lookup_lt_Some).
  destruct (Inv_evo n V c c' (call_dst k) rf rf') as [? ?]; subst c'; simpl; eauto; try apply Hok.
  - rewrite (omap_keys_replace _ _ _ _ Hkey), <- Hc. apply HI.
  - rewrite Hc. intros x Hx. apply elem_of_app in Hx as [?|[->|?]%elem_of_cons].
    + left. apply elem_of_app. auto.
    + right. eapply Hspec; eauto.
    + left. apply elem_of_app. right. by right.
  - intros x. by rewrite (keys_replace _ _ _ _ Hkey), Hc.
Qed.

Lemma Inv_restart (L : GobLogLaws) n V c i inc clk rf rf' :
  Inv n V c -> cl_nodes c !! i = Some rf -> hard_in_range rf ->
  Make clk (peers rf) i (persister rf) = Some rf' ->
  exists V', cast i rf' V V' /\ Inv n V' (mkCluster (<[i:=rf']> (cl_nodes c)) (<[i:=S inc]> (cl_inc c))
        (cl_votes c) (cl_calls c)).
Proof.
  intros HI Hi Hr H. pose proof (inv_nodes _ _ _ HI _ _ Hi) as (Hwf & Hm & _). rewrite <- Hm in H.
  apply Make_recovers in H as (Hwf' & Hh & _ & _ & Hm' & Hp & Hs & _); auto.
  unfold hard in Hh. injection Hh as Ht Hv _ _ _.
  destruct (Inv_evo n V c (mkCluster (<[i:=rf']> (cl_nodes c)) (<[i:=S inc]> (cl_inc c))
    (cl_votes c) (cl_calls c)) i rf rf'); simpl; eauto; [|apply HI].
  constructor; auto. lia.
Qed.

Lemma other_peers_spec rf p : p ∈ other_peers rf <-> p <> me rf /\ p < peers rf.
Proof. unfold other_peers. rewrite list_elem_of_filter, elem_of_seq. lia. Qed.

Lemma other_peers_NoDup rf : NoDup (other_peers rf).
Proof. apply NoDup_filter, NoDup_seq. Qed.

(** The calls of one election: new keys, one per other peer. *)
Lemma election_keys i inc (ps : list nat) args :
  omap vote_key ((fun '(dst, a) => CVote i inc dst a None) <$> ((fun s => (s, args)) <$> ps)) =
  (fun s => (i, rv_Term args, s)) <$> ps.
Proof. induction ps as [|p ps IH]; csimpl; [done|]. by rewrite IH. Qed.

(** All calls of [src] in flight are of terms [src] has reached. *)
Lemma Inv_old_keys n V c i rf t dst :
  Inv n V c -> cl_nodes c !! i = Some rf -> (i, t, dst) ∈ omap vote_key (cl_calls c) ->
  (t <= currentTerm rf)%Z.
Proof.
  intros HI Hi (k & Hk & Hkey)%list_elem_of_omap.
  pose proof (inv_calls _ _ _ HI) as Hco. rewrite Forall_forall in Hco. apply Hco in Hk.
  destruct k; try done. simpl in *. destruct Hk as (_ & _ & (rf0 & Hi' & Hle) & _).
  by simplify_eq.
Qed.

(** The effect of a new election on the invariant. *)
Lemma Inv_new_election n V c i inc rf rf' reqs args :
  Inv n V c -> cl_nodes c !! i = Some rf -> wf rf' -> me rf' = me rf -> peers rf' = peers rf ->
  currentTerm rf' = (currentTerm rf + 1)%Z -> votedFor rf' = Z.of_nat (me rf) ->
  (state rf' = Leader -> majority rf <= 1) ->
  rv_Term args = currentTerm rf' -> rv_CandidateId args = i ->
  reqs = [] \/ reqs = (fun s => (s, args)) <$> other_peers rf ->
  (state rf' = Candidate -> reqs <> []) ->
  exists V', cast i rf' V V' /\ Inv n V' (set_calls
    (cl_calls c ++ ((fun '(dst, args) => CVote i inc dst args None) <$> reqs))
    (set_votes (if decide (reqs = []) then cl_votes c else <[(i, currentTerm rf') := 1]> (cl_votes c))
      (set_node i rf' c))).
Proof.
  intros HI Hi Hwf' Hm Hp Ht Hv Hlead Hat Hac Hreqs Hne.
  pose proof (inv_nodes _ _ _ HI _ _ Hi) as Hok.
  assert (me rf = i /\ peers rf = n) as [Hme Hpeers] by (destruct Hok as (_ & ? & ? & _); auto).
  assert (V ⊆ record_vote i rf' V) as HV by (eapply record_vote_mono; eauto; lia).
  assert (voters n (record_vote i rf' V) i (currentTerm rf') {[i]}) as HQ.
  { intros v ->%elem_of_singleton. split.
    - rewrite <- (inv_len _ _ _ HI). by eapply lookup_lt_Some.
    - unfold record_vote. rewrite decide_False by lia. rewrite lookup_insert_eq. f_equal. lia. }
  assert (omap vote_key ((fun '(dst, a) => CVote i inc dst a None) <$> reqs) =
    match reqs with [] => [] | _ => (fun s => (i, currentTerm rf', s)) <$> other_peers rf end) as Hkeys.
  { destruct Hreqs as [->| ->]; [done|]. rewrite election_keys, Hat.
    by destruct (other_peers rf). }
  assert (forall t s, (i, t, s) ∈ omap vote_key ((fun '(dst, a) => CVote i inc dst a None) <$> reqs) ->
    t = currentTerm rf' /\ s ∈ other_peers rf) as Hnew.
  { intros t s. rewrite Hkeys. destruct reqs; [by intros ?%not_elem_of_nil|].
    intros (? & [= -> ->] & ?)%list_elem_of_fmap. done. }
  exists (record_vote i rf' V). split; [apply record_vote_cast; eauto|].
  eapply (Inv_update n V (record_vote i rf' V) c _ i rf rf'); simpl; eauto; try lia.
  - intros. by apply record_vote_other.
  - eapply record_vote_node; eauto; try lia. intros Hs. exists {[i]}. split; [done|].
    unfold majority in *. rewrite Hp, size_singleton. auto.
  - rewrite vote_keys_app. apply NoDup_app. split_and!; [apply HI| |].
    + intros [[src t] dst] Hold Hin.
      assert (src = i) as ->.
      { rewrite Hkeys in Hin. destruct reqs; [by apply not_elem_of_nil in Hin|].
        by apply list_elem_of_fmap in Hin as (? & [= -> -> ->] & _). }
      apply Hnew in Hin as [-> _]. pose proof (Inv_old_keys n V c i rf _ _ HI Hi Hold). lia.
    + rewrite Hkeys. destruct reqs; [constructor|].
      apply NoDup_fmap; [|apply other_peers_NoDup]. intros ?? [=]. done.
  - intros k [?|Hk]%elem_of_app; [by left|right].
    apply list_elem_of_fmap in Hk as ([s a] & -> & Hin).
    destruct Hreqs as [->| ->]; [by apply not_elem_of_nil in Hin|].
    apply list_elem_of_fmap in Hin as (s' & [= -> ->] & Hs'%other_peers_spec).
    simpl. rewrite length_insert, (inv_len _ _ _ HI). split_and!; auto; [lia| |done].
    exists rf'. rewrite list_lookup_insert_eq by (by eapply lookup_lt_Some). split; [done|lia].
  - intros Hs. exists {[i]}. split_and!; [done| |].
    + rewrite size_singleton. cbn. rewrite decide_False by auto. by rewrite lookup_insert_eq.
    + intros dst ->%elem_of_singleton. simpl. rewrite <- omap_keys_elem, vote_keys_app, elem_of_app.
      intros [Hold|[_ Hin%other_peers_spec]%Hnew]; [|lia].
      pose proof (Inv_old_keys n V c i rf _ _ HI Hi Hold). lia.
  - intros j Hj. split.
    + intros t. case_decide; [done|]. rewrite lookup_insert_ne; congruence.
    + intros t dst. rewrite <- !omap_keys_elem, vote_keys_app, elem_of_app. intros [?|Hin]; [done|].
      rewrite Hkeys in Hin. destruct reqs; [by apply not_elem_of_nil in Hin|].
      apply list_elem_of_fmap in Hin as (? & [= -> -> ->] & _). done.
Qed.

Lemma Inv_election n V c i inc clk rf rf' won reqs :
  Inv n V c -> cl_nodes c !! i = Some rf -> startElection clk rf = Some (rf', won, reqs) ->
  exists V', cast i rf' V V' /\ Inv n V' (set_calls
    (cl_calls c ++ ((fun '(dst, args) => CVote i inc dst args None) <$> reqs))
    (set_votes (if decide (reqs = []) then cl_votes c else <[(i, currentTerm rf') := 1]> (cl_votes c))
      (set_node i rf' c))).
Proof.
  intros HI Hi H. pose proof (inv_nodes _ _ _ HI _ _ Hi) as (Hwf & Hm & Hp & _).
  apply startElection_wf in H as (Hwf' & Hm' & Hp' & [(-> & -> & ->)|(Ht & Hv & _ & _ & Hc)]); [| |done].
  - destruct (Inv_evo n V c (set_calls (cl_calls c ++ []) (set_votes (cl_votes c) (set_node i rf c))) i rf rf)
      as [HI' ?]; simpl; rewrite ?app_nil_r; eauto using evo_refl; [apply HI|].
    rewrite app_nil_r in HI'. eauto.
  - destruct Hc as [(Hmaj & Hs & ->)|(Hmaj & Hs & -> & lt & Hlt & ->)].
    + eapply (Inv_new_election n V c i inc rf rf' [] (mkRequestVoteArgs (currentTerm rf') i 0 0)); eauto.
      congruence.
    + eapply (Inv_new_election n V c i inc rf rf' _
        (mkRequestVoteArgs (currentTerm rf + 1) (me rf) (lastLogIndexLocked rf) lt)); simpl; eauto; [congruence|].
      intros _ Hnil%fmap_nil_inv.
      assert (exists p, p ∈ other_peers rf) as [p Hin]; [|by rewrite Hnil in Hin; apply not_elem_of_nil in Hin].
      unfold majority in Hmaj. assert (2 <= peers rf).
      { destruct (peers rf) as [|[|x]]; simpl in *; lia. }
      exists (if decide (me rf = 0) then 1 else 0). apply other_peers_spec. case_decide; lia.
Qed.

(** A reply that only moves the election state as [evo] allows. *)
Lemma Inv_reply_evo n V c k l1 l2 i rf rf' :
  Inv n V c -> cl_calls c = l1 ++ k :: l2 -> cl_nodes c !! i = Some rf -> wf rf' -> evo rf rf' ->
  exists V', cast i rf' V V' /\ Inv n V' (set_calls (l1 ++ l2) (set_votes (cl_votes c) (set_node i rf' c))).
Proof.
  intros HI Hc Hi Hwf He. eapply Inv_drop in HI as HI'; [|done].
  destruct (Inv_evo n V (set_calls (l1 ++ l2) c)
    (set_calls (l1 ++ l2) (set_votes (cl_votes c) (set_node i rf' c))) i rf rf'); simpl; eauto.
  apply HI'.
Qed.

(** A vote is counted. *)
Lemma Inv_reply_vote n V c l1 l2 src inc dst args r v rf rf' :
  Inv n V c -> cl_calls c = l1 ++ CVote src inc dst args (Some r) :: l2 ->
  cl_nodes c !! src = Some rf -> cl_votes c !! (src, rv_Term args) = Some v ->
  rvr_VoteGranted r = true -> state rf = Candidate -> currentTerm rf = rv_Term args ->
  wf rf' -> me rf' = me rf -> peers rf' = peers rf -> currentTerm rf' = currentTerm rf ->
  votedFor rf' = votedFor rf ->
  (rf' = rf /\ S v < majority rf \/ majority rf <= S v /\ state rf' = Leader) ->
  Inv n V (set_calls (l1 ++ l2)
    (set_votes (<[(src, rv_Term args) := S v]> (cl_votes c)) (set_node src rf' c))).
Proof.
  intros HI Hc Hi Hv Hg Hs Ht Hwf' Hm Hp Ht' Hv' Hcase.
  pose proof (inv_nodes _ _ _ HI _ _ Hi) as (Hwf & Hme & Hpe & Hvote & Hle & _).
  pose proof (inv_calls _ _ _ HI) as Hco. rewrite Hc in Hco.
  apply Forall_app in Hco as [Hco1 [Hk Hco2]%Forall_cons].
  destruct Hk as (Hdst & Hca & _ & Hgr). specialize (Hgr r eq_refl Hg).
  destruct (inv_cand _ _ _ HI _ _ Hi Hs) as (Q & HQ & Hsz & Hfresh).
  rewrite Ht in *. rewrite Hv in Hsz. injection Hsz as ->.
  assert (dst ∉ Q) as Hnd.
  { intros Hin. apply (Hfresh dst Hin). rewrite Hc, fmap_app, fmap_cons. apply elem_of_app. right. left. }
  pose proof (inv_keys _ _ _ HI) as Hkeys. rewrite Hc in Hkeys.
  apply omap_keys_drop in Hkeys as [Hkeys Hgone].
  set (Q' := {[dst]} ∪ Q).
  assert (voters n V src (rv_Term args) Q') as HQ'.
  { intros x [->%elem_of_singleton|Hx]%elem_of_union; [|by apply HQ].
    split; [by rewrite <- (inv_len _ _ _ HI)|done]. }
  assert (size Q' = S (size Q)) as Hsz'.
  { unfold Q'. rewrite size_union by (by apply disjoint_singleton_l). by rewrite size_singleton. }
  eapply (Inv_update n V V c _ src rf rf'); simpl; eauto; try lia.
  - unfold node_ok. rewrite Hm, Hp, Ht', Hv'. split_and!; auto.
    intros Hl. destruct Hcase as [[-> _]|[Hmaj _]]; [congruence|].
    exists Q'. rewrite Hsz'. unfold majority in *. rewrite Hp. done.
  - intros k Hk. left. rewrite Hc. apply elem_of_app in Hk as [?|?]; apply elem_of_app; auto.
    right. by right.
  - intros Hs'. exists Q'. rewrite Ht'. split_and!; [done| |].
    + simpl. by rewrite lookup_insert_eq, Hsz'.
    + intros x Hx. simpl. rewrite <- omap_keys_elem.
      apply elem_of_union in Hx as [->%elem_of_singleton|Hx]; [by apply Hgone|].
      intros Hin. apply (Hfresh x Hx). rewrite Hc, fmap_app, fmap_cons.
      apply omap_keys_elem in Hin. rewrite fmap_app, elem_of_app in Hin.
      rewrite elem_of_app, elem_of_cons. tauto.
  - intros j Hj. split.
    + intros t. rewrite lookup_insert_ne; congruence.
    + intros t x. rewrite Hc, !fmap_app, fmap_cons, !elem_of_app, elem_of_cons. tauto.
Qed.

Lemma Inv_reply n V c clk k l1 l2 rf rf' votes' :
  Inv n V c -> cl_calls c = l1 ++ k :: l2 -> cl_nodes c !! call_src k = Some rf ->
  handle_reply clk k (cl_votes c) rf = Some (rf', votes') ->
  exists V', cast (call_src k) rf' V V' /\ Inv n V' (set_calls (l1 ++ l2) (set_votes votes' (set_node (call_src k) rf' c))).
Proof.
  intros HI Hc Hi H. pose proof (inv_nodes _ _ _ HI _ _ Hi) as (Hwf & _).
  pose proof (inv_calls _ _ _ HI) as Hco. rewrite Hc in Hco.
  apply Forall_app in Hco as [_ [Hk _]%Forall_cons].
  destruct k as [src inc dst args [r|]|src inc dst hb args [r|]|src inc dst args [r|]];
    simpl in H, Hi |- *; try (by destruct hb); try done.
  - apply bind_Some in H as (v & Hv & H). apply bind_Some in H as ([[rf1 v'] won] & He & H).
    injection H as <- <-.
    apply election_reply_wf in He as (Hwf' & Hm & Hp & [[-> He]|Hgr]); [| |done].
    + rewrite insert_id by done. by eapply Inv_reply_evo.
    + destruct Hgr as (Hs & Ht & Hg & _ & -> & Ht' & Hv' & _ & _ & Hcase).
      exists V. split; [apply cast_refl|]. eapply Inv_reply_vote; eauto; congruence.
  - destruct hb.
    + apply bind_Some in H as (rf1 & Hh & H). injection H as <- <-.
      apply independent_heartbeat_reply_wf in Hh as [? ?]; [|done]. by eapply Inv_reply_evo.
    + apply bind_Some in H as ([rf1 k1] & Hh & H). injection H as <- <-.
      apply replicate_append_reply_wf in Hh as [? ?]; [|done]. by eapply Inv_reply_evo.
  - apply bind_Some in H as ([rf1 k1] & Hh & H). injection H as <- <-.
    apply replicate_snapshot_reply_wf in Hh as [? ?]; [|done..]. by eapply Inv_reply_evo.
Qed.

Lemma Inv_step (L : GobLogLaws) n V c c' :
  Inv n V c -> cluster_step c c' -> exists V', V ⊆ V' /\ Inv n V' c'.
Proof.
  intros HI Hs.
  assert (forall i rf c'', (exists V', cast i rf V V' /\ Inv n V' c'') -> exists V', V ⊆ V' /\ Inv n V' c'') as Hc
    by (intros i rf c'' (V' & [? _] & ?); eauto).
  destruct Hs as [|c' [| | | | |k l1 l2 Hk]|].
  - by eapply Hc, Inv_local.
  - by eapply Hc, Inv_election.
  - by eapply Hc, Inv_heartbeat.
  - by eapply Hc, Inv_replicate.
  - by eapply Hc, Inv_deliver.
  - by eapply Hc, Inv_reply.
  - exists V. split; [done|]. by eapply Inv_drop.
  - by eapply Hc, Inv_restart.
Qed.

Lemma Inv_run (L : GobLogLaws) n c c' :
  cluster_run c c' -> forall V, Inv n V c -> exists V', V ⊆ V' /\ Inv n V' c'.
Proof.
  induction 1 as [|x y z Hs _ IH]; intros V HI; [eauto|].
  destruct (Inv_step L n V x y HI Hs) as (V1 & HV1 & HI1).
  destruct (IH V1 HI1) as (V2 & HV2 & HI2). exists V2. split; [by etrans|done].
Qed.

Lemma Make_fresh_wf clk n i rf :
  i < n -> Make clk n i MakePersister = Some rf ->
  wf rf /\ me rf = i /\ peers rf = n /\ votedFor rf = (-1)%Z /\ state rf = Follower /\
  persister rf = MakePersister /\ hard rf = hard_init.
Proof.
  intros Hi H. apply Make_fresh in H as (Hh & Hs & enc & Henc & ->).
  split_and!; try done. split; [|by right]. constructor; simpl; rewrite ?length_replicate; auto; try done; try lia.
  by rewrite Henc.
Qed.

Lemma Inv_init n c : cluster_init n c -> Inv n ∅ c.
Proof.
  intros (Hlen & Hinc & Hv & Hc & Hn).
  assert (forall i rf, cl_nodes c !! i = Some rf ->
    wf rf /\ me rf = i /\ peers rf = n /\ votedFor rf = (-1)%Z /\ state rf = Follower) as Hfresh.
  { intros i rf Hi. pose proof (Hn i rf Hi) as [clk Hm]. apply lookup_lt_Some in Hi.
    apply Make_fresh_wf in Hm as (? & ? & ? & ? & ? & _); [auto|lia]. }
  constructor; rewrite ?Hc; simpl; auto; try apply NoDup_nil_2.
  - intros i rf (? & ? & ? & ? & Hs)%Hfresh. unfold node_ok. split_and!; auto.
    + intros t x Hx. by rewrite lookup_empty in Hx.
    + intros Hl. congruence.
  - intros v t i Hx. by rewrite lookup_empty in Hx.
  - intros i rf (? & ? & ? & ? & Hs)%Hfresh Hcand. congruence.
Qed.

(** ** The theorems *)

(** C10. Election safety: in every run of the cluster, crashes, restarts, lost and
    delayed messages included, at most one node is ever the leader of a term; the
    two leaders need not even exist at the same time. *)
Theorem election_safety (L : GobLogLaws) n c0 c1 c2 i j rfi rfj :
  cluster_init n c0 -> cluster_run c0 c1 -> cluster_run c1 c2 ->
  cl_nodes c1 !! i = Some rfi -> state rfi = Leader ->
  cl_nodes c2 !! j = Some rfj -> state rfj = Leader ->
  currentTerm rfi = currentTerm rfj -> i = j.
Proof.
  intros H0 H1 H2 Hi Hli Hj Hlj Ht. apply Inv_init in H0.
  destruct (Inv_run L n _ _ H1 _ H0) as (V1 & _ & HI1).
  destruct (Inv_run L n _ _ H2 _ HI1) as (V2 & HV & HI2).
  destruct (inv_nodes _ _ _ HI1 _ _ Hi) as (_ & _ & Hpi & _ & _ & Hli').
  destruct (inv_nodes _ _ _ HI2 _ _ Hj) as (_ & _ & Hpj & _ & _ & Hlj').
  destruct (Hli' Hli) as (Qi & HQi & Hmi). destruct (Hlj' Hlj) as (Qj & HQj & Hmj).
  apply (voters_mono _ _ _ _ _ _ HV) in HQi. unfold majority in *. rewrite Hpi in Hmi. rewrite Hpj in Hmj.
  destruct (majority_intersect n Qi Qj) as (v & Hvi & Hvj); auto.
  { intros v Hv. by apply HQi in Hv as [? _]. }
  { intros v Hv. by apply HQj in Hv as [? _]. }
  apply HQi in Hvi as [_ Hvi]. apply HQj in Hvj as [_ Hvj]. congruence.
Qed.

(** A vote is cast once per term and survives crashes: a node that voted in
    some term has, whenever it is in that term again, the same vote. *)
Theorem vote_once (L : GobLogLaws) n c0 c1 c2 i rf1 rf2 :
  cluster_init n c0 -> cluster_run c0 c1 -> cluster_run c1 c2 ->
  cl_nodes c1 !! i = Some rf1 -> cl_nodes c2 !! i = Some rf2 ->
  votedFor rf1 <> (-1)%Z -> currentTerm rf1 = currentTerm rf2 -> votedFor rf2 = votedFor rf1.
Proof.
  intros H0 H1 H2 Hi1 Hi2 Hv Ht. apply Inv_init in H0.
  destruct (Inv_run L n _ _ H1 _ H0) as (V1 & _ & HI1).
  destruct (Inv_run L n _ _ H2 _ HI1) as (V2 & HV & HI2).
  destruct (inv_nodes _ _ _ HI1 _ _ Hi1) as (_ & _ & _ & [[? _]|(c & Hc & Hl)] & _); [done|].
  eapply lookup_weaken in Hl; [|done].
  destruct (inv_nodes _ _ _ HI2 _ _ Hi2) as (_ & _ & _ & [[_ Hn]|(c' & Hc' & Hl')] & _); congruence.
Qed.

(** C31. The types of a node's state: in every reachable state of the cluster every
    node is well-formed ([wf]) - the per-peer arrays have one slot per peer, the log
    is never empty and starts at the snapshot boundary, every entry is stored with
    its encoding, the snapshot, applied and commit indices are in order - and its
    disk holds exactly its term, vote, log, boundary and snapshot, so that no reply
    leaves before the state it promises is stored. *)
Theorem nodes_well_formed (L : GobLogLaws) n c0 c i rf :
  cluster_init n c0 -> cluster_run c0 c -> cl_nodes c !! i = Some rf ->
  wf0 rf /\ stored rf /\ me rf = i /\ peers rf = n.
Proof.
  intros H0 H1 Hi. apply Inv_init in H0. destruct (Inv_run L n _ _ H1 _ H0) as (V & _ & HI).
  by destruct (inv_nodes _ _ _ HI _ _ Hi) as ([? ?] & ? & ? & _).
Qed.

(** Every node of a reachable cluster is well-formed. *)
Lemma reachable_wf (L : GobLogLaws) n c0 c i rf :
  cluster_init n c0 -> cluster_run c0 c -> cl_nodes c !! i = Some rf -> wf rf /\ peers rf = n.
Proof.
  intros H0 H1 Hi. apply Inv_init in H0. destruct (Inv_run L n _ _ H1 _ H0) as (V & _ & HI).
  by destruct (inv_nodes _ _ _ HI _ _ Hi) as (? & _ & ? & _).
Qed.

End RaftCluster.
