(* ===== verification/RaftSim.v ===== *)
(** * Executable schedules of a Raft cluster

    [exec] runs one step of [RaftCluster] chosen by an [event], so that a
    concrete schedule can be evaluated; [exec_sound] says it takes only steps of
    [cluster_step].  [BitLog] is a concrete log codec satisfying [GobLogLaws],
    used to run schedules and to show that the hypotheses can hold. *)

From S2P Require Import Prelude.
From S2P Require Import Persister.
From S2P Require Import BitCodec.
From S2P Require Import Raft.
From S2P Require Import RaftRPC.
From S2P Require Import RaftFacts.
From S2P Require Import RaftPersist.
From S2P Require Import RaftCluster.
From Stdlib Require Import Strings.Byte.

(** Invert the bindings of a schedule step one after the other. *)
Ltac inv_exec H :=
  repeat match type of H with
  | (_ ≫= _) = Some _ => let x := fresh "x" in let Hx := fresh "Hx" in
      apply bind_Some in H as (x & Hx & H)
  | context [let '(_, _) := ?p in _] => destruct p
  | (if ?b then _ else None) = Some _ => destruct b eqn:?; [|done]
  end.

Section RaftSim.
Context {GL : GobLog}.

Inductive event : Type :=
  | EStart (i : nat) (command : option Cmd)
  | ESnapshot (i : nat) (index : Z) (data : bytes)
  | EApplier (i : nat)
  | EElection (clk : Clock) (i : nat)
  | EHeartbeat (time : Z) (i : nat)
  | EReplicate (i dst : nat)
  | EDeliver (clk : Clock) (n : nat)
  | EReply (clk : Clock) (n : nat)
  | EDrop (n : nat)
  | ERestart (clk : Clock) (i : nat).

Definition int64b (v : Z) : bool := (- 2 ^ 63 <=? v)%Z && (v <? 2 ^ 63)%Z.

Definition hard_in_rangeb (rf : Raft) : bool :=
  int64b (currentTerm rf) && int64b (votedFor rf) && int64b (lastIncludedIndex rf) &&
  int64b (lastIncludedTerm rf) && (zlen (logs rf) <? 2 ^ 63)%Z.

Lemma hard_in_rangeb_spec rf : hard_in_rangeb rf = true -> hard_in_range rf.
Proof. unfold hard_in_rangeb, int64b. intros H. zbool. constructor; unfold int64_range; auto. Qed.

Definition exec (e : event) (c : Cluster) : option Cluster :=
  match e with
  | EStart i command =>
      rf ← cl_nodes c !! i; '(rf', _) ← Start command rf; Some (set_node i rf' c)
  | ESnapshot i index data =>
      rf ← cl_nodes c !! i; rf' ← Snapshot index data rf; Some (set_node i rf' c)
  | EApplier i =>
      rf ← cl_nodes c !! i; '(rf', _) ← applier rf; Some (set_node i rf' c)
  | EElection clk i =>
      rf ← cl_nodes c !! i; inc ← cl_inc c !! i;
      '(rf', won, reqs) ← startElection clk rf;
      Some (set_calls (cl_calls c ++ ((fun '(dst, args) => CVote i inc dst args None) <$> reqs))
          (set_votes (if decide (reqs = []) then cl_votes c
                      else <[(i, currentTerm rf') := 1]> (cl_votes c))
            (set_node i rf' c)))
  | EHeartbeat time i =>
      rf ← cl_nodes c !! i; inc ← cl_inc c !! i;
      '(rf', tasks, _) ← heartbeatOrNotifyReplication time rf;
      Some (set_calls (cl_calls c ++ ((fun '(dst, args) => CAppend i inc dst true args None) <$> tasks))
          (set_node i rf' c))
  | EReplicate i dst =>
      rf ← cl_nodes c !! i; inc ← cl_inc c !! i;
      if decide (dst ∈ other_peers rf) then
        r ← replicate_request dst rf; req ← r;
        Some (set_calls (cl_calls c ++ [request_call i inc dst req]) c)
      else None
  | EDeliver clk n =>
      k ← cl_calls c !! n; rf ← cl_nodes c !! call_dst k;
      '(rf', k') ← handle clk k rf;
      Some (set_calls (take n (cl_calls c) ++ k' :: drop (S n) (cl_calls c))
        (set_node (call_dst k) rf' c))
  | EReply clk n =>
      k ← cl_calls c !! n; rf ← cl_nodes c !! call_src k; inc ← cl_inc c !! call_src k;
      if decide (inc = call_inc k) then
        '(rf', votes') ← handle_reply clk k (cl_votes c) rf;
        Some (set_calls (take n (cl_calls c) ++ drop (S n) (cl_calls c))
          (set_votes votes' (set_node (call_src k) rf' c)))
      else None
  | EDrop n =>
      k ← cl_calls c !! n;
      Some (set_calls (take n (cl_calls c) ++ drop (S n) (cl_calls c)) c)
  | ERestart clk i =>
      rf ← cl_nodes c !! i; inc ← cl_inc c !! i;
      if hard_in_rangeb rf then
        rf' ← Make clk (peers rf) i (persister rf);
        Some (mkCluster (<[i:=rf']> (cl_nodes c)) (<[i:=S inc]> (cl_inc c)) (cl_votes c) (cl_calls c))
      else None
  end.

Fixpoint exec_all (es : list event) (c : Cluster) : option Cluster :=
  match es with
  | [] => Some c
  | e :: es' => c' ← exec e c; exec_all es' c'
  end.

(** The events between the nodes. *)
Definition is_net (e : event) : bool :=
  match e with
  | EElection _ _ | EHeartbeat _ _ | EReplicate _ _ | EDeliver _ _ | EReply _ _ | EDrop _ => true
  | _ => false
  end.

Lemma exec_net_sound e c c' : is_net e = true -> exec e c = Some c' -> net_step c c'.
Proof.
  intros Hn H. destruct e; try done; simpl in H; inv_exec H; simplify_eq.
  - by eapply SElection.
  - by eapply SHeartbeat.
  - by eapply SReplicate.
  - eapply SDeliver; eauto. symmetry. by apply take_drop_middle.
  - eapply SReply; eauto. symmetry. by apply take_drop_middle.
  - eapply SDrop. symmetry. by apply take_drop_middle.
Qed.

Lemma exec_sound e c c' : exec e c = Some c' -> cluster_step c c'.
Proof.
  intros H. destruct (is_net e) eqn:Hn; [by eapply SNet, exec_net_sound|].
  destruct e; try done; simpl in H; inv_exec H; simplify_eq.
  - eapply SLocal; [done|]. by eapply LStart.
  - eapply SLocal; [done|]. by eapply LSnapshot.
  - eapply SLocal; [done|]. by eapply LApplier.
  - eapply SRestart; eauto. by apply hard_in_rangeb_spec.
Qed.

Lemma exec_all_sound es c c' : exec_all es c = Some c' -> cluster_run c c'.
Proof.
  revert c. induction es as [|e es IH]; intros c H; simpl in H.
  - injection H as <-. apply rtc_refl.
  - apply bind_Some in H as (c1 & H1 & H). eapply rtc_l; [by eapply exec_sound|by apply IH].
Qed.

(** [n] nodes on empty disks. *)
Definition boot (clk : Clock) (n : nat) : option Cluster :=
  ns ← mapM (fun i => Make clk n i MakePersister) (seq 0 n);
  Some (mkCluster ns (replicate n 0) ∅ []).

Lemma boot_init clk n c : boot clk n = Some c -> cluster_init n c.
Proof.
  unfold boot. intros H. apply bind_Some in H as (ns & Hns & H). injection H as <-.
  apply mapM_Some in Hns. unfold cluster_init. simpl. split_and!; try done.
  - by rewrite <- (Forall2_length _ _ _ Hns), length_seq.
  - intros i rf Hi. eapply Forall2_lookup_r in Hns as (x & Hx & Hm); [|done].
    apply lookup_seq in Hx as [-> _]. eauto.
Qed.

(** The cluster after a schedule; one that gets stuck changes nothing. *)
Definition after (es : list event) (c : Cluster) : Cluster := default c (exec_all es c).

Lemma after_run es c : cluster_run c (after es c).
Proof.
  unfold after. destruct (exec_all es c) eqn:E; simpl; [by eapply exec_all_sound|apply rtc_refl].
Qed.

Definition booted (clk : Clock) (n : nat) : Cluster :=
  default (mkCluster [] [] ∅ []) (boot clk n).

Lemma booted_init clk n :
  bool_decide (is_Some (boot clk n)) = true -> cluster_init n (booted clk n).
Proof.
  unfold booted. rewrite bool_decide_eq_true. destruct (boot clk n) eqn:E; [|by intros [? ?]]. intros _. by eapply boot_init.
Qed.

(** What an example looks at in node [i]. *)
Definition view (c : Cluster) (i : nat) : option (Z * Z * Role * list Z * Z * Z) :=
  (fun rf => (currentTerm rf, votedFor rf, state rf, le_Term <$> logs rf, commitIndex rf, lastApplied rf))
    <$> cl_nodes c !! i.

Lemma view_node c i t v s l ci la :
  view c i = Some (t, v, s, l, ci, la) ->
  exists rf, cl_nodes c !! i = Some rf /\ currentTerm rf = t /\ votedFor rf = v /\ state rf = s /\
    le_Term <$> logs rf = l /\ commitIndex rf = ci /\ lastApplied rf = la.
Proof.
  unfold view. intros (rf & -> & Hi)%fmap_Some. simplify_eq. exists rf. done.
Qed.

End RaftSim.

(** ** A concrete codec *)

(** Commands are numbers; an entry is the bits of its [encode]d form. *)
Definition bit_entry (t : Z) (c : option nat) : option bytes :=
  let bs := pos_bytes (encode (t, c)) in
  if decide (zlen bs < 2 ^ 63)%Z then Some bs else None.

#[global] Instance BitLog : GobLog := {|
  Cmd := nat;
  gob_entry := bit_entry;
  ungob_entry := fun bs => decode (bytes_pos bs);
  ungob_int := fun _ => None;
  ungob_entries := fun _ => None;
|}.

#[global] Instance BitLog_laws : GobLogLaws.
Proof.
  constructor; simpl; unfold bit_entry; intros t c bs H; case_decide; simplify_eq; [|done].
  by rewrite bytes_pos_bytes, decode_encode.
Qed.

(** ** A schedule of three nodes

    Node 0 wins term 1 with the vote of node 1 and sends a command to both
    followers; then it restarts. *)

Definition at_ms (t : Z) : Clock := mkClock (t * 1000000) 0.

Definition first_term : list event :=
  [EElection (at_ms 800) 0; EDeliver (at_ms 801) 0; EReply (at_ms 802) 0].

Definition replication : list event :=
  [EDrop 0; EStart 0 (Some 7); EReplicate 0 1; EDeliver (at_ms 803) 0; EReply (at_ms 804) 0;
   EApplier 0].

Definition cluster0 : Cluster := booted (at_ms 0) 3.
Definition cluster1 : Cluster := after first_term cluster0.
Definition cluster2 : Cluster := after replication cluster1.
Definition cluster3 : Cluster := after [ERestart (at_ms 805) 0] cluster2.

Lemma cluster0_init : cluster_init 3 cluster0.
Proof. apply booted_init. vm_compute. reflexivity. Qed.

Lemma run01 : cluster_run cluster0 cluster1.
Proof. apply after_run. Qed.

Lemma run12 : cluster_run cluster1 cluster2.
Proof. apply after_run. Qed.

Lemma run02 : cluster_run cluster0 cluster2.
Proof. etrans; [apply run01|apply run12]. Qed.

Lemma run23 : cluster_run cluster2 cluster3.
Proof. apply after_run. Qed.

#[local] Opaque cluster0 cluster1 cluster2 cluster3.

(** ** Witnesses of the theorems of [RaftCluster] *)

Lemma election_safety_witness : exists rfi rfj : Raft,
  cl_nodes cluster1 !! 0 = Some rfi /\ state rfi = Leader /\
  cl_nodes cluster2 !! 0 = Some rfj /\ state rfj = Leader /\
  currentTerm rfi = currentTerm rfj /\ 0 = 0.
Proof.
  edestruct (view_node cluster1 0) as (rfi & Hi & Hti & _ & Hsi & _); [vm_compute; reflexivity|].
  edestruct (view_node cluster2 0) as (rfj & Hj & Htj & _ & Hsj & _); [vm_compute; reflexivity|].
  exists rfi, rfj. do 4 (split; [assumption|]). split; [congruence|].
  apply (election_safety BitLog_laws 3 cluster0 cluster1 cluster2 0 0 rfi rfj cluster0_init
    run01 run12 Hi Hsi Hj Hsj). congruence.
Defined.

Lemma vote_once_witness : exists rf1 rf2 : Raft,
  cl_nodes cluster2 !! 0 = Some rf1 /\ cl_nodes cluster3 !! 0 = Some rf2 /\
  votedFor rf1 = 0%Z /\ votedFor rf2 = votedFor rf1.
Proof.
  edestruct (view_node cluster2 0) as (rf1 & Hi & Ht1 & Hv1 & _); [vm_compute; reflexivity|].
  edestruct (view_node cluster3 0) as (rf2 & Hj & Ht2 & Hv2 & _); [vm_compute; reflexivity|].
  exists rf1, rf2. do 3 (split; [assumption|]).
  apply (vote_once BitLog_laws 3 cluster0 cluster2 cluster3 0 rf1 rf2 cluster0_init
    run02 run23 Hi Hj); [by rewrite Hv1|congruence].
Defined.

Lemma nodes_well_formed_witness : exists rf : Raft,
  cl_nodes cluster1 !! 0 = Some rf /\ wf0 rf /\ stored rf /\ me rf = 0 /\ peers rf = 3.
Proof.
  edestruct (view_node cluster1 0) as (rf & Hi & _); [vm_compute; reflexivity|].
  exists rf. split; [assumption|].
  apply (nodes_well_formed BitLog_laws 3 cluster0 cluster1 0 rf cluster0_init run01 Hi).
Defined.
