(* ===== verification/RaftProps.v ===== *)
(** * The functional behaviour of a Raft node

    What each RPC handler and leader operation of [raft1/raft.go] computes: the
    log merge and the rejection hints of AppendEntries, the vote rule, the commit
    rule, snapshots, and the order in which the applier delivers. *)

From S2P Require Import Prelude.
From S2P Require Import Persister.
From S2P Require Import Raft.
From S2P Require Import RaftRPC.
From S2P Require Import RaftFacts.
From S2P Require Import RaftPersist.

Section RaftProps.
Context {GL : GobLog}.

(** The entry at a log index; the one at the snapshot boundary is a sentinel. *)
Definition entry_at (rf : Raft) (i : Z) : option LogEntry :=
  if containsIndexLocked rf i then zlookup (logs rf) (i - lastIncludedIndex rf) else None.

Lemma termAtLocked_entry rf i : termAtLocked rf i = le_Term <$> entry_at rf i.
Proof. unfold termAtLocked, entry_at, toOffsetLocked. by destruct (containsIndexLocked rf i). Qed.

Lemma entry_at_lookup rf i :
  (lastIncludedIndex rf <= i)%Z ->
  entry_at rf i = logs rf !! Z.to_nat (i - lastIncludedIndex rf).
Proof.
  intros Hi. unfold entry_at. destruct (containsIndexLocked rf i) eqn:E.
  - by rewrite zlookup_lookup by lia.
  - symmetry. apply lookup_ge_None.
    assert (~ (lastIncludedIndex rf <= i <= lastLogIndexLocked rf)%Z) as Hn
      by (rewrite <- containsIndexLocked_spec; congruence).
    unfold lastLogIndexLocked, zlen in Hn. lia.
Qed.

Lemma entry_at_below rf i : (i < lastIncludedIndex rf)%Z -> entry_at rf i = None.
Proof.
  intros Hi. unfold entry_at. destruct (containsIndexLocked rf i) eqn:E; [|done].
  apply containsIndexLocked_spec in E. lia.
Qed.

(** ** The log merge *)

Lemma merge_reference_nil old : merge_reference old [] = old.
Proof. by destruct old. Qed.

(** The merged log carries the terms of the received entries. *)
Lemma merge_reference_terms entries : forall old j e,
  entries !! j = Some e ->
  exists e', merge_reference old entries !! j = Some e' /\ le_Term e' = le_Term e.
Proof.
  induction entries as [|x es IH]; intros old j e Hj; [done|].
  destruct old as [|o os]; simpl; [eauto|].
  case_decide as Ht; [|eauto]. destruct j as [|j]; simpl in *; [|by apply IH].
  simplify_eq. eauto.
Qed.

(** When nothing conflicts, the longer of the two logs remains. *)
Lemma merge_reference_agree entries : forall old,
  (forall j e o, entries !! j = Some e -> old !! j = Some o -> le_Term o = le_Term e) ->
  merge_reference old entries = old ++ drop (length old) entries.
Proof.
  induction entries as [|x es IH]; intros old Hag.
  - by rewrite merge_reference_nil, drop_nil, app_nil_r.
  - destruct old as [|o os]; simpl; [done|].
    rewrite decide_True by (by apply (Hag 0)). f_equal. apply IH.
    intros j e o' He Ho. by apply (Hag (S j)).
Qed.

(** At the first conflict the old tail is gone. *)
Lemma merge_reference_conflict entries : forall old j e o,
  (forall i e o, i < j -> entries !! i = Some e -> old !! i = Some o -> le_Term o = le_Term e) ->
  entries !! j = Some e -> old !! j = Some o -> le_Term o <> le_Term e ->
  merge_reference old entries = take j old ++ drop j entries.
Proof.
  induction entries as [|x es IH]; intros old j e o Hag He Ho Hne; [done|].
  destruct old as [|o0 os]; [done|]. destruct j as [|j]; simpl in *; simplify_eq.
  - by rewrite decide_False.
  - rewrite decide_True by (apply (Hag 0); [lia|done..]). f_equal.
    eapply IH; eauto. intros i e' o' Hi He' Ho'. apply (Hag (S i)); [lia|done..].
Qed.

(** ** AppendEntries *)

(** Everything that describes the log, the snapshot and the applier is the same. *)
Definition same_log (rf rf' : Raft) : Prop :=
  logs rf' = logs rf /\ encodedLogs rf' = encodedLogs rf /\
  lastIncludedIndex rf' = lastIncludedIndex rf /\ lastIncludedTerm rf' = lastIncludedTerm rf /\
  commitIndex rf' = commitIndex rf /\ lastApplied rf' = lastApplied rf /\
  snapshot rf' = snapshot rf /\ pendingSnapshot rf' = pendingSnapshot rf.

Lemma same_log_refl rf : same_log rf rf.
Proof. done. Qed.

Lemma same_log_trans rf1 rf2 rf3 : same_log rf1 rf2 -> same_log rf2 rf3 -> same_log rf1 rf3.
Proof. unfold same_log. intuition congruence. Qed.

Lemma same_log_last rf rf' : same_log rf rf' -> lastLogIndexLocked rf' = lastLogIndexLocked rf.
Proof. intros (Hl & _ & Hi & _). unfold lastLogIndexLocked. by rewrite Hl, Hi. Qed.

Lemma same_log_entry rf rf' i : same_log rf rf' -> entry_at rf' i = entry_at rf i.
Proof.
  intros H. unfold entry_at, containsIndexLocked. rewrite (same_log_last _ _ H).
  destruct H as (-> & _ & -> & _). done.
Qed.

Lemma same_log_term rf rf' i : same_log rf rf' -> termAtLocked rf' i = termAtLocked rf i.
Proof. intros H. by rewrite !termAtLocked_entry, (same_log_entry _ _ _ H). Qed.

Lemma becomeFollowerLocked_same_log t rf rf' :
  becomeFollowerLocked t rf = Some rf' -> same_log rf rf'.
Proof.
  unfold becomeFollowerLocked. destruct (_ <? _)%Z; intros H; binds; [|done].
  match goal with Hp : persist _ = Some _ |- _ => apply persist_Some in Hp as -> end. done.
Qed.

(** The log of [rf'] is [rf]'s with [entries] merged in after [prev]. *)
Definition merged (prev : Z) (entries : list LogEntry) (rf rf' : Raft) : Prop :=
  let k := Z.to_nat (prev + 1 - lastIncludedIndex rf) in
  lastIncludedIndex rf' = lastIncludedIndex rf /\
  logs rf' = take k (logs rf) ++ merge_reference (drop k (logs rf)) entries.

(** The outcomes of the handler on a live node that accepts the term. *)
Inductive append_outcome (args : AppendEntriesArgs) (rf rf' : Raft) : AppendEntriesReply -> Prop :=
  | AO_short : (lastLogIndexLocked rf < ae_PrevLogIndex args)%Z -> same_log rf rf' ->
      append_outcome args rf rf'
        (mkAppendEntriesReply (ae_Term args) false false (-1) (lastLogIndexLocked rf + 1))
  | AO_compacted : (ae_PrevLogIndex args < lastIncludedIndex rf)%Z -> same_log rf rf' ->
      append_outcome args rf rf'
        (mkAppendEntriesReply (ae_Term args) false false (-1) (lastIncludedIndex rf + 1))
  | AO_conflict t : termAtLocked rf (ae_PrevLogIndex args) = Some t -> t <> ae_PrevLogTerm args ->
      same_log rf rf' ->
      append_outcome args rf rf' (mkAppendEntriesReply (ae_Term args) false false t
        (conflictScan rf t (ae_PrevLogIndex args)
          (Z.to_nat (ae_PrevLogIndex args - lastIncludedIndex rf))))
  | AO_accept : termAtLocked rf (ae_PrevLogIndex args) = Some (ae_PrevLogTerm args) ->
      merged (ae_PrevLogIndex args) (ae_Entries args) rf rf' ->
      commitIndex rf' = Z.max (commitIndex rf)
        (Z.min (ae_LeaderCommit args) (ae_PrevLogIndex args + zlen (ae_Entries args))) ->
      append_outcome args rf rf' (mkAppendEntriesReply (ae_Term args) true false (-1) 0).

Lemma conflictScan_ext rf rf' t n : forall ci,
  (forall i, termAtLocked rf' i = termAtLocked rf i) ->
  conflictScan rf' t ci n = conflictScan rf t ci n.
Proof.
  induction n as [|n IH]; intros ci H; simpl; [done|]. rewrite H.
  destruct (termAtLocked rf (ci - 1)); [|done]. case_decide; auto.
Qed.

Lemma followerCommit_frame args rf :
  let rf' := followerCommit args rf in
  logs rf' = logs rf /\ lastIncludedIndex rf' = lastIncludedIndex rf /\
  state rf' = state rf /\ currentTerm rf' = currentTerm rf /\
  commitIndex rf' = Z.max (commitIndex rf)
    (Z.min (ae_LeaderCommit args) (ae_PrevLogIndex args + zlen (ae_Entries args))).
Proof.
  unfold followerCommit. set (n := (ae_PrevLogIndex args + zlen (ae_Entries args))%Z). clearbody n.
  destruct (Z.ltb_spec (commitIndex rf) (ae_LeaderCommit args)); simpl; [|split_and!; auto; lia].
  destruct (Z.ltb_spec n (ae_LeaderCommit args));
    match goal with |- context [(?a <? ?b)%Z] => destruct (Z.ltb_spec a b) end;
    simpl; split_and!; auto; lia.
Qed.

(** The last part of the handler. *)
Lemma append_accept args rf1 rf2 rf3 ch :
  wf rf1 -> (lastIncludedIndex rf1 <= ae_PrevLogIndex args <= lastLogIndexLocked rf1)%Z ->
  mergeEntries (ae_PrevLogIndex args + 1) (ae_Entries args) rf1 = Some (rf2, ch) ->
  (if ch then persist rf2 else Some rf2) = Some rf3 ->
  merged (ae_PrevLogIndex args) (ae_Entries args) rf1 rf3 /\
  state rf3 = state rf1 /\ currentTerm rf3 = currentTerm rf1 /\ commitIndex rf3 = commitIndex rf1.
Proof.
  intros Hwf Hr Hm Hp. apply mergeEntries_spec in Hm as (Hlo & _ & Hl & _); [|lia..|apply Hwf].
  unfold logs_only in Hlo. unfold merged. rewrite <- Hl.
  destruct ch; [apply persist_Some in Hp as ->|injection Hp as <-]; rewrite Hlo; done.
Qed.

Lemma AppendEntries_outcome clk args rf rf' r :
  wf rf -> killed rf = false -> (currentTerm rf <= ae_Term args)%Z ->
  AppendEntries clk args rf = Some (rf', r) ->
  append_outcome args rf rf' r /\ state rf' = Follower /\ currentTerm rf' = ae_Term args.
Proof.
  intros Hwf Hk Ht. unfold AppendEntries. rewrite Hk.
  destruct (Z.ltb_spec (ae_Term args) (currentTerm rf)) as [|_]; [lia|].
  intros H. apply bind_Some in H as (rf0 & Hb & H).
  pose proof (becomeFollowerLocked_same_log _ _ _ Hb) as Hsl.
  apply becomeFollowerLocked_wf in Hb as (Hwf0 & _ & Hs & Ht0 & _); [|done].
  apply (wf_deadline clk) in Hwf0. set (rf1 := resetElectionDeadlineLocked clk rf0) in *.
  assert (same_log rf rf1 /\ state rf1 = Follower /\ currentTerm rf1 = ae_Term args) as (Hl1 & Hs1 & Ht1).
  { split_and!; [done|done|simpl; lia]. }
  clearbody rf1. clear Hsl Hs Ht0 rf0. pose proof Hl1 as (Hlg & _ & Hi & _ & Hc & _).
  rewrite Ht1, (same_log_last _ _ Hl1), (same_log_term _ _ _ Hl1) in H. unfold firstLogIndexLocked in H.
  rewrite Hi in H.
  destruct (Z.ltb_spec (lastLogIndexLocked rf) (ae_PrevLogIndex args)) as [|Hhi]; [simplify_eq; split_and!; auto; by apply AO_short|].
  destruct (Z.ltb_spec (ae_PrevLogIndex args) (lastIncludedIndex rf)) as [|Hlo]; [simplify_eq; split_and!; auto; by apply AO_compacted|].
  destruct (termAtLocked rf (ae_PrevLogIndex args)) as [pt|] eqn:Hpt.
  2:{ pose proof (proj2 (termAtLocked_is_Some rf (ae_PrevLogIndex args))) as [? ?]; [lia|congruence]. }
  case_decide as Hd.
  { injection H as <- <-. split_and!; auto. rewrite (conflictScan_ext rf rf1).
    - by apply AO_conflict.
    - intros i. by apply same_log_term. }
  apply bind_Some in H as ([rf2 ch] & Hm & H). apply bind_Some in H as (rf3 & Hp & H). injection H as <- <-.
  destruct (append_accept args rf1 rf2 rf3 ch Hwf0) as ((Hi3 & Hlg3) & Hs3 & Ht3 & Hc3);
    [rewrite Hi, (same_log_last _ _ Hl1); lia|done|done|].
  destruct (followerCommit_frame args rf3) as (El & Ei & Es & Et & Ec).
  rewrite Es, Et. split_and!; [|congruence..].
  apply AO_accept; [congruence| |congruence]. unfold merged. rewrite El, Ei, Hi3, Hlg3, Hi, Hlg. done.
Qed.
(** ** The merged log by index *)

Section merged.
#[local] Set Default Proof Using "All".
Context (prev : Z) (entries : list LogEntry) (rf rf' : Raft).
Context (Hlo : (lastIncludedIndex rf <= prev)%Z) (Hhi : (prev <= lastLogIndexLocked rf)%Z).
Context (Hm : merged prev entries rf rf').

#[local] Definition cut : nat := Z.to_nat (prev + 1 - lastIncludedIndex rf).

Lemma cut_length : length (take cut (logs rf)) = cut.
Proof. unfold cut. rewrite length_take. unfold lastLogIndexLocked, zlen in Hhi. lia. Qed.

Lemma merged_below i : (i <= prev)%Z -> entry_at rf' i = entry_at rf i.
Proof.
  destruct Hm as [Hi Hl]. fold cut in Hl. intros Hp.
  destruct (decide (i < lastIncludedIndex rf)%Z) as [Hb|Hb].
  { by rewrite !entry_at_below by lia. }
  rewrite !entry_at_lookup by lia. rewrite Hl, Hi.
  rewrite lookup_app_l by (rewrite cut_length; unfold cut; lia).
  rewrite lookup_take, decide_True; [done|]. unfold cut. lia.
Qed.

Lemma merged_above j :
  entry_at rf' (prev + 1 + Z.of_nat j) = merge_reference (drop cut (logs rf)) entries !! j.
Proof.
  destruct Hm as [Hi Hl]. fold cut in Hl.
  rewrite entry_at_lookup by lia. rewrite Hl, Hi.
  rewrite lookup_app_r by (rewrite cut_length; unfold cut; lia). rewrite cut_length.
  f_equal. unfold cut. lia.
Qed.

Lemma old_above j : entry_at rf (prev + 1 + Z.of_nat j) = drop cut (logs rf) !! j.
Proof. rewrite entry_at_lookup by lia. rewrite lookup_drop. f_equal. unfold cut. lia. Qed.

Lemma merged_has j e :
  entries !! j = Some e ->
  exists e', entry_at rf' (prev + 1 + Z.of_nat j) = Some e' /\ le_Term e' = le_Term e.
Proof. intros Hj. rewrite merged_above. by apply merge_reference_terms. Qed.

(** No received entry contradicts the log: nothing is lost. *)
Lemma merged_keeps i e :
  (forall j x o, entries !! j = Some x -> entry_at rf (prev + 1 + Z.of_nat j) = Some o ->
    le_Term o = le_Term x) ->
  entry_at rf i = Some e -> entry_at rf' i = Some e.
Proof.
  intros Hag He. destruct (decide (i <= prev)%Z) as [Hp|Hp]; [by rewrite merged_below|].
  assert (i = prev + 1 + Z.of_nat (Z.to_nat (i - (prev + 1))))%Z as Hi by lia.
  rewrite Hi in He |- *. rewrite merged_above. rewrite old_above in He.
  rewrite merge_reference_agree.
  - rewrite lookup_app_l by (by eapply lookup_lt_Some). done.
  - intros j x o Hx Ho. apply (Hag j); [done|]. by rewrite old_above.
Qed.

(** A contradicted suffix is gone: the log ends with the received entries. *)
Lemma merged_replaces j e o :
  entries !! j = Some e -> entry_at rf (prev + 1 + Z.of_nat j) = Some o -> le_Term o <> le_Term e ->
  lastLogIndexLocked rf' = (prev + zlen entries)%Z.
Proof.
  intros He Ho Hne.
  assert (length (merge_reference (drop cut (logs rf)) entries) = length entries) as Hlen.
  { rewrite old_above in Ho. revert He Ho Hne. generalize (drop cut (logs rf)). clear.
    revert j. induction entries as [|x es IH]; intros j old He Ho Hne; [done|].
    destruct old as [|o0 os]; [done|]. simpl. case_decide as Ht; [|done].
    destruct j as [|j]; simpl in *; simplify_eq. f_equal. by eapply IH. }
  destruct Hm as [Hi Hl]. fold cut in Hl. unfold lastLogIndexLocked.
  rewrite Hl, Hi. unfold zlen. rewrite length_app, cut_length, Hlen. unfold cut. lia.
Qed.
End merged.

(** C19. A successful AppendEntries: the previous entry matched; afterwards the
    log holds an entry of the right term for every received entry, the entries up
    to the previous index are untouched, a log that no received entry contradicts
    loses nothing, a contradicted one ends with the received entries, and the
    commit index is the larger of the old one and what the leader committed of
    the entries known to match. *)
Theorem AppendEntries_success clk args rf rf' r :
  wf rf -> AppendEntries clk args rf = Some (rf', r) -> aer_Success r = true ->
  let at_ j := (ae_PrevLogIndex args + 1 + Z.of_nat j)%Z in
  aer_Term r = ae_Term args /\ state rf' = Follower /\ currentTerm rf' = ae_Term args /\
  termAtLocked rf (ae_PrevLogIndex args) = Some (ae_PrevLogTerm args) /\
  (forall i, (i <= ae_PrevLogIndex args)%Z -> entry_at rf' i = entry_at rf i) /\
  (forall j e, ae_Entries args !! j = Some e -> termAtLocked rf' (at_ j) = Some (le_Term e)) /\
  ((forall j e o, ae_Entries args !! j = Some e -> entry_at rf (at_ j) = Some o ->
      le_Term o = le_Term e) ->
    forall i e, entry_at rf i = Some e -> entry_at rf' i = Some e) /\
  (forall j e o, ae_Entries args !! j = Some e -> entry_at rf (at_ j) = Some o ->
    le_Term o <> le_Term e ->
    lastLogIndexLocked rf' = ae_PrevLogIndex args + zlen (ae_Entries args))%Z /\
  commitIndex rf' = Z.max (commitIndex rf)
    (Z.min (ae_LeaderCommit args) (ae_PrevLogIndex args + zlen (ae_Entries args))).
Proof.
  intros Hwf H Hok at_. pose proof H as Hinv. unfold AppendEntries in Hinv.
  destruct (killed rf) eqn:Hk; [by simplify_eq|].
  destruct (Z.ltb_spec (ae_Term args) (currentTerm rf)) as [|Ht]; [by simplify_eq|]. clear Hinv.
  apply AppendEntries_outcome in H as (Ho & Hs & Hct); [|done..].
  destruct Ho as [| | |Hprev Hm Hc]; [done..|].
  destruct (proj1 (termAtLocked_is_Some rf (ae_PrevLogIndex args))) as [Hlo Hhi]; [eauto|].
  split_and!; auto.
  - intros i. by eapply merged_below.
  - intros j e Hj. rewrite termAtLocked_entry.
    eapply merged_has in Hj as (e' & He' & Hte); eauto. unfold at_. by rewrite He', <- Hte.
  - intros Hag i e. by eapply merged_keeps.
  - intros j e o. by eapply merged_replaces.
Qed.

(** ** Rejections *)

Lemma conflictScan_spec rf t n : forall ci,
  (Z.to_nat (ci - lastIncludedIndex rf) = n) -> (lastIncludedIndex rf <= ci)%Z ->
  termAtLocked rf ci = Some t ->
  let r := conflictScan rf t ci n in
  (lastIncludedIndex rf <= r <= ci)%Z /\
  (forall i, (r <= i <= ci)%Z -> termAtLocked rf i = Some t) /\
  (r = lastIncludedIndex rf \/ termAtLocked rf (r - 1) <> Some t).
Proof.
  induction n as [|n IH]; intros ci Hn Hlo Ht; simpl.
  - split_and!; [lia..| |left; lia]. intros i Hi. assert (i = ci) as -> by lia. done.
  - assert (lastIncludedIndex rf <= ci <= lastLogIndexLocked rf)%Z as Hr.
    { apply termAtLocked_is_Some. eauto. }
    destruct (termAtLocked rf (ci - 1)) as [pt|] eqn:Hpt.
    2:{ pose proof (proj2 (termAtLocked_is_Some rf (ci - 1))) as [? ?]; [lia|congruence]. }
    case_decide as Hd.
    + subst pt. destruct (IH (ci - 1)%Z) as (H1 & H2 & H3); [lia..|done|].
      split_and!; [lia..| |done]. intros i Hi.
      destruct (decide (i = ci)) as [->|]; [done|]. apply H2. lia.
    + split_and!; [lia..| |right; congruence]. intros i Hi. assert (i = ci) as -> by lia. done.
Qed.

(** A rejected AppendEntries of a current term changes no log entry and
    answers with an exact hint: one past the log when it is too short, one past
    the snapshot when the index is compacted away, and otherwise the conflicting
    term with the first index of its run in the log. *)
Theorem AppendEntries_reject clk args rf rf' r :
  wf rf -> killed rf = false -> (currentTerm rf <= ae_Term args)%Z ->
  AppendEntries clk args rf = Some (rf', r) -> aer_Success r = false ->
  same_log rf rf' /\ currentTerm rf' = ae_Term args /\ state rf' = Follower /\
  (((lastLogIndexLocked rf < ae_PrevLogIndex args)%Z /\
      aer_ConflictTerm r = (-1)%Z /\ aer_ConflictIndex r = (lastLogIndexLocked rf + 1)%Z) \/
   ((ae_PrevLogIndex args < lastIncludedIndex rf)%Z /\
      aer_ConflictTerm r = (-1)%Z /\ aer_ConflictIndex r = (lastIncludedIndex rf + 1)%Z) \/
   (aer_ConflictTerm r <> ae_PrevLogTerm args /\
    (lastIncludedIndex rf <= aer_ConflictIndex r <= ae_PrevLogIndex args)%Z /\
    (forall i, (aer_ConflictIndex r <= i <= ae_PrevLogIndex args)%Z ->
       termAtLocked rf i = Some (aer_ConflictTerm r)) /\
    (aer_ConflictIndex r = lastIncludedIndex rf \/
     termAtLocked rf (aer_ConflictIndex r - 1) <> Some (aer_ConflictTerm r)))).
Proof.
  intros Hwf Hk Ht H Hok.
  apply AppendEntries_outcome in H as (Ho & Hs & Hct); [|done..].
  destruct Ho as [? Hl|? Hl|t Hpt Hne Hl|]; simpl in *; try done; split_and!; auto.
  right. right.
  destruct (proj1 (termAtLocked_is_Some rf (ae_PrevLogIndex args))) as [Hlo Hhi]; [eauto|].
  destruct (conflictScan_spec rf t _ (ae_PrevLogIndex args) eq_refl Hlo Hpt) as (? & ? & ?).
  split_and!; auto; lia.
Qed.
(** ** Votes *)

(** The candidate's log is at least as up to date as the node's. *)
Definition log_up_to_date (args : RequestVoteArgs) (rf : Raft) : Prop :=
  exists myTerm, lastLogTermLocked rf = Some myTerm /\
    ((myTerm < rv_LastLogTerm args)%Z \/
     (rv_LastLogTerm args = myTerm /\ lastLogIndexLocked rf <= rv_LastLogIndex args)%Z).

(** What [RequestVote] does to a node's vote, term and log. *)
Definition vote_cases (args : RequestVoteArgs) (rf rf' : Raft) (r : RequestVoteReply) : Prop :=
  (rvr_VoteGranted r = true <->
    killed rf = false /\ (currentTerm rf <= rv_Term args)%Z /\ log_up_to_date args rf /\
    ((currentTerm rf < rv_Term args)%Z \/ votedFor rf = (-1)%Z \/
     votedFor rf = Z.of_nat (rv_CandidateId args))) /\
  same_log rf rf' /\
  (killed rf = true -> rf' = rf) /\
  (killed rf = false -> rvr_Term r = Z.max (currentTerm rf) (rv_Term args) /\
     currentTerm rf' = Z.max (currentTerm rf) (rv_Term args)) /\
  (rvr_VoteGranted r = false -> killed rf = false ->
     votedFor rf' = if (currentTerm rf <? rv_Term args)%Z then (-1)%Z else votedFor rf).

Lemma RequestVote_facts clk args rf rf' r :
  wf rf -> RequestVote clk args rf = Some (rf', r) -> vote_cases args rf rf' r.
Proof.
  intros Hwf H. unfold vote_cases. unfold RequestVote in H. apply bind_Some in H as (lt & Hlt & H).
  unfold log_up_to_date. rewrite Hlt. destruct (killed rf) eqn:Hk.
  { injection H as <- <-. simpl. by split_and!; [split; [|intros (? & _)]|..]. }
  destruct (Z.ltb_spec (rv_Term args) (currentTerm rf)) as [Hl|Hl].
  { injection H as <- <-. simpl. split_and!; try done.
    - split; [done|lia].
    - lia.
    - destruct (Z.ltb_spec (currentTerm rf) (rv_Term args)); [lia|done]. }
  apply bind_Some in H as (rf1 & Hb & H).
  assert (same_log rf rf1 /\ currentTerm rf1 = rv_Term args /\
    votedFor rf1 = if (currentTerm rf <? rv_Term args)%Z then (-1)%Z else votedFor rf) as (Hsl & Ht1 & Hv1).
  { destruct (Z.ltb_spec (currentTerm rf) (rv_Term args)).
    - pose proof (becomeFollowerLocked_same_log _ _ _ Hb).
      apply becomeFollowerLocked_wf in Hb as (_ & _ & _ & Ht & _ & _ & _ & Hv); [|done].
      split_and!; [done|lia|apply Hv; lia].
    - injection Hb as <-. split_and!; [done|lia|done]. }
  destruct (_ && _) eqn:Hg.
  - apply bind_Some in H as (rf2 & Hp & H). apply persist_Some in Hp as ->. injection H as <- <-. simpl.
    split_and!; try done; [|rewrite Ht1; lia].
    split; [intros _|done]. apply andb_true_iff in Hg as [Hc Hu].
    apply orb_true_iff in Hc, Hu. rewrite andb_true_iff, !Z.eqb_eq, Z.leb_le, Z.ltb_lt in *.
    split_and!; auto; [eauto|]. rewrite Hv1 in Hc. clear -Hc.
    destruct (Z.ltb_spec (currentTerm rf) (rv_Term args)); [by left|right; exact Hc].
  - injection H as <- <-. simpl. split_and!; try done; [|rewrite Ht1; lia].
    split; [done|]. intros (_ & _ & (lt' & [= <-] & Hu) & Hc). exfalso.
    rewrite andb_false_iff, !orb_false_iff, andb_false_iff, !Z.eqb_neq, Z.leb_gt, Z.ltb_ge in Hg.
    destruct Hg as [[H1 H2]|Hg]; [|lia]. rewrite Hv1 in H1, H2. clear -H1 H2 Hc.
    destruct (Z.ltb_spec (currentTerm rf) (rv_Term args)); intuition lia.
Qed.

(** The vote rule: a live node grants its vote exactly to a candidate of a
    term at least its own, whose log is up to date, when in that term it has not
    voted for another; the term of the reply is the larger of the two terms; a
    newer term alone clears the vote, and the log never changes.  A granted vote is
    the node's vote of the term, and when the reply leaves, the disk holds term and
    vote. *)
Theorem RequestVote_rule clk args rf rf' r :
  wf rf -> RequestVote clk args rf = Some (rf', r) ->
  vote_cases args rf rf' r /\ stored rf' /\
  (rvr_VoteGranted r = true ->
     currentTerm rf' = rv_Term args /\ votedFor rf' = Z.of_nat (rv_CandidateId args)).
Proof.
  intros Hwf H. apply RequestVote_wf in H as Hw; [|done]. destruct Hw as ([_ Hs] & _ & _ & Hg).
  split_and!; [by eapply RequestVote_facts|done|done].
Qed.

(** ** The commit rule *)

Lemma mapM_lookup_seq {A} (l : list A) : mapM (fun i => l !! i) (seq 0 (length l)) = Some l.
Proof.
  apply mapM_Some, Forall2_same_length_lookup. rewrite length_seq. split; [done|].
  intros i x y Hx Hy. apply lookup_seq in Hx as [-> _]. done.
Qed.

Lemma replicatedCount_wf rf n :
  wf0 rf -> state rf = Leader ->
  replicatedCount rf n = Some (length (filter (fun m => n <= m)%Z (matchIndex rf))).
Proof.
  intros Hwf Hl. unfold replicatedCount. destruct (wf_leader _ Hwf Hl) as [_ <-].
  by rewrite mapM_lookup_seq.
Qed.

(** An index the leader may commit: of its own term, and on a majority. *)
Definition committable (rf : Raft) (n : Z) : Prop :=
  (commitIndex rf < n <= lastLogIndexLocked rf)%Z /\ termAtLocked rf n = Some (currentTerm rf) /\
  majority rf <= length (filter (fun m => n <= m)%Z (matchIndex rf)).

Lemma advanceLoop_rule rf k rf' b :
  wf0 rf -> state rf = Leader ->
  (forall n, committable rf n -> n <= commitIndex rf + Z.of_nat k)%Z ->
  (commitIndex rf + Z.of_nat k <= Z.max (commitIndex rf) (lastLogIndexLocked rf))%Z ->
  advanceLoop rf k = Some (rf', b) ->
  (b = true /\ rf' = set_commitIndex (commitIndex rf') rf /\ committable rf (commitIndex rf') /\
    forall n, committable rf n -> (n <= commitIndex rf')%Z) \/
  (b = false /\ rf' = rf /\ forall n, ~ committable rf n).
Proof.
  intros Hwf Hl. induction k as [|k IH]; intros Hmax Hk H.
  - injection H as <- <-. right. split_and!; [done..|]. intros n Hn. pose proof (Hmax n Hn).
    destruct Hn as [? _]. lia.
  - assert (~ committable rf (commitIndex rf + Z.of_nat (S k)) ->
      forall n, committable rf n -> n <= commitIndex rf + Z.of_nat k)%Z as Hnext.
    { intros Hnc n Hn. pose proof (Hmax n Hn).
      destruct (decide (n = commitIndex rf + Z.of_nat (S k)))%Z as [->|]; [done|lia]. }
    remember (S k) as k1. simpl in H. subst k1. cbn [advanceLoop] in H.
    set (n := (commitIndex rf + Z.of_nat (S k))%Z) in *.
    destruct (termAtLocked rf n) as [t|] eqn:Ht.
    2:{ apply IH; auto; [|lia]. apply Hnext. intros (_ & ? & _). congruence. }
    case_decide as Htc.
    { apply IH; auto; [|lia]. apply Hnext. intros (_ & ? & _). congruence. }
    rewrite replicatedCount_wf in H by done. simpl in H. case_decide as Hm.
    + injection H as <- <-. left. cbn [commitIndex set_commitIndex].
      split; [done|]. split; [done|]. split; [|done].
      unfold committable. split_and!; [lia|lia|congruence|done].
    + apply IH; auto; [|lia]. apply Hnext. intros (_ & _ & ?). done.
Qed.

(** C20. The commit rule: a leader moves its commit index to the greatest index
    of its own term that a majority of peers is known to hold, and leaves it
    alone when there is none above it. *)
Theorem advanceCommitIndex_rule rf rf' b :
  wf rf -> state rf = Leader -> advanceCommitIndexLocked rf = Some (rf', b) ->
  (b = true /\ rf' = set_commitIndex (commitIndex rf') rf /\ committable rf (commitIndex rf') /\
    forall n, committable rf n -> (n <= commitIndex rf')%Z) \/
  (b = false /\ rf' = rf /\ forall n, ~ committable rf n).
Proof.
  intros [Hwf _] Hl. unfold advanceCommitIndexLocked. rewrite decide_False by auto.
  apply advanceLoop_rule; auto; [|lia]. intros n ([? ?] & _). lia.
Qed.
(** ** Snapshots *)

(** The log from the boundary [index] on, as seen through the indices. *)
Definition compacted_at (index : Z) (rf rf' : Raft) : Prop :=
  lastIncludedIndex rf' = index /\ lastLogIndexLocked rf' = lastLogIndexLocked rf /\
  termAtLocked rf' index = termAtLocked rf index /\
  termAtLocked rf index = Some (lastIncludedTerm rf') /\
  (forall i, (index < i)%Z -> entry_at rf' i = entry_at rf i) /\
  (forall i, (i < index)%Z -> entry_at rf' i = None).

Lemma compacted_cut index t rf rf' :
  (lastIncludedIndex rf <= index)%Z -> termAtLocked rf index = Some t ->
  lastIncludedIndex rf' = index -> lastIncludedTerm rf' = t ->
  logs rf' = mkLogEntry t None :: drop (Z.to_nat (index - lastIncludedIndex rf + 1)) (logs rf) ->
  compacted_at index rf rf'.
Proof.
  intros Hlo Ht Hi Hit Hl.
  destruct (proj1 (termAtLocked_is_Some rf index)) as [_ Hhi]; [eauto|].
  assert (termAtLocked rf' index = Some t) as Ht'.
  { rewrite termAtLocked_entry, entry_at_lookup by lia. rewrite Hl, Hi, Z.sub_diag. done. }
  unfold compacted_at. split_and!; try congruence.
  - unfold lastLogIndexLocked, zlen in *. rewrite Hl, Hi. simpl. rewrite length_drop. lia.
  - intros i Hgt. rewrite !entry_at_lookup by lia. rewrite Hl, Hi.
    replace (Z.to_nat (i - index)) with (S (Z.to_nat (i - index - 1))) by lia. simpl.
    rewrite lookup_drop. f_equal. lia.
  - intros i Hlt. apply entry_at_below. lia.
Qed.

(** What [Snapshot] does: it is done exactly when the index is new, applied and in the
    log. *)
Definition snapshot_cases (index : Z) (data : bytes) (rf rf' : Raft) : Prop :=
  let accepted := killed rf = false /\ (lastIncludedIndex rf < index)%Z /\
    (index <= lastApplied rf)%Z /\ (index <= lastLogIndexLocked rf)%Z in
  (accepted /\ compacted_at index rf rf' /\ snapshot rf' = data /\
     commitIndex rf' = commitIndex rf /\ lastApplied rf' = lastApplied rf) \/
  (~ accepted /\ rf' = rf).

Lemma Snapshot_cases index data rf rf' :
  wf rf -> Snapshot index data rf = Some rf' -> snapshot_cases index data rf rf'.
Proof.
  intros Hwf H. unfold snapshot_cases. unfold Snapshot in H. destruct (killed rf) eqn:Hk.
  { right. injection H as <-. split; [|done]. intros [? _]. done. }
  destruct (Z.leb_spec index (lastIncludedIndex rf)).
  { right. injection H as <-. split; [|done]. intros (_ & ? & _). lia. }
  destruct (Z.ltb_spec (lastApplied rf) index).
  { right. simpl in H. injection H as <-. split; [|done]. intros (_ & _ & ? & _). lia. }
  destruct (Z.ltb_spec (lastLogIndexLocked rf) index).
  { right. simpl in H. injection H as <-. split; [|done]. intros (_ & _ & _ & ?). lia. }
  simpl in H. left. apply bind_Some in H as (b & Hb & H). apply bind_Some in H as (tl & Htl & H).
  apply bind_Some in H as (rf1 & Hr & H).
  apply replaceLogs_Some in Hr as (enc & _ & ->). apply persist_Some in H as ->.
  split; [done|]. split; [|done]. apply (compacted_cut index (le_Term b)); try done; [lia| |].
  - rewrite termAtLocked_entry, entry_at_lookup by lia. rewrite zlookup_lookup in Hb by lia. by rewrite Hb.
  - simpl. unfold slice_from in Htl. case_decide; [|done]. by injection Htl as <-.
Qed.

(** What a live node of the leader's term or a lower one does with the leader's
    snapshot. *)
Definition install_cases (args : InstallSnapshotArgs) (rf rf' : Raft) (r : InstallSnapshotReply) : Prop :=
  isr_Term r = is_Term args /\ isr_Stopped r = false /\
  state rf' = Follower /\ currentTerm rf' = is_Term args /\
  let index := is_LastIncludedIndex args in
  if (index <=? commitIndex rf)%Z then same_log rf rf'
  else
    lastIncludedIndex rf' = index /\ lastIncludedTerm rf' = is_LastIncludedTerm args /\
    commitIndex rf' = index /\ lastApplied rf' = index /\ snapshot rf' = is_Data args /\
    pendingSnapshot rf' = Some (mkApplyMsg false None 0 true (is_Data args)
      (is_LastIncludedTerm args) index) /\
    if decide (termAtLocked rf index = Some (is_LastIncludedTerm args))
    then compacted_at index rf rf' else lastLogIndexLocked rf' = index.

Lemma InstallSnapshot_cases clk args rf rf' r :
  wf rf -> killed rf = false -> (currentTerm rf <= is_Term args)%Z ->
  InstallSnapshot clk args rf = Some (rf', r) -> install_cases args rf rf' r.
Proof.
  intros Hwf Hk Ht H. unfold install_cases. unfold InstallSnapshot in H. rewrite Hk in H.
  destruct (Z.ltb_spec (is_Term args) (currentTerm rf)) as [|_]; [lia|].
  apply bind_Some in H as (rf0 & Hb & H). pose proof (becomeFollowerLocked_same_log _ _ _ Hb) as Hsl.
  apply becomeFollowerLocked_wf in Hb as (_ & _ & Hs & Ht0 & _); [|done].
  set (rf1 := resetElectionDeadlineLocked clk rf0) in *.
  assert (same_log rf rf1 /\ state rf1 = Follower /\ currentTerm rf1 = is_Term args) as (Hl1 & Hs1 & Ht1).
  { split_and!; [done|done|simpl; lia]. }
  clearbody rf1. clear Hsl Hs Ht0 rf0. pose proof Hl1 as (Hlg & _ & Hi & _ & Hc & _).
  rewrite Hc in H. cbn zeta. destruct (Z.leb_spec (is_LastIncludedIndex args) (commitIndex rf)) as [|Hlt].
  { injection H as <- <-. simpl. by split_and!. }
  apply bind_Some in H as (rf3 & Hin & H). injection H as <- <-.
  unfold install_snapshot in Hin. rewrite (same_log_term _ _ _ Hl1) in Hin.
  unfold toOffsetLocked in Hin. rewrite Hi, Hlg in Hin.
  apply bind_Some in Hin as (suffix & Hsuf & Hin). apply bind_Some in Hin as (rf2 & Hr & Hin).
  apply bind_Some in Hin as (rf5 & Hp & Hin). injection Hin as <-.
  apply replaceLogs_Some in Hr as (enc & _ & ->). apply persist_Some in Hp as ->.
  simpl. split_and!; try done.
  case_decide as Hd.
  - rewrite Hd in Hsuf. rewrite decide_True in Hsuf by done.
    pose proof (wf_index _ (proj1 Hwf)). pose proof (wf_commit _ (proj1 Hwf)).
    apply (compacted_cut _ (is_LastIncludedTerm args)); try done; [lia|]. simpl. f_equal.
    unfold slice_from in Hsuf. case_decide; [|done]. by injection Hsuf as <-.
  - assert (suffix = []) as ->.
    { destruct (termAtLocked rf (is_LastIncludedIndex args)) as [t|]; [|by injection Hsuf].
      rewrite decide_False in Hsuf by congruence. by injection Hsuf. }
    unfold lastLogIndexLocked, zlen. simpl. lia.
Qed.

(** C21. Snapshots only compact.  Taking one changes nothing that remains: it is
    done exactly when the index is new, applied and in the log; then every index
    from the snapshot on has the term, and every later index the entry, it had,
    the last index is the same, and neither the commit index nor the applied
    index moves; otherwise nothing changes at all.  Of the leader's, one that covers
    nothing beyond the commit index changes no log; otherwise the node adopts it, keeps
    exactly the entries after it when its own log agrees at the boundary and none
    otherwise, and is committed and applied up to it, with the snapshot pending
    for the applier.  When either returns, the disk holds the new log and snapshot. *)
Theorem snapshot_rules rf :
  wf rf ->
  (forall index data rf', Snapshot index data rf = Some rf' ->
     snapshot_cases index data rf rf' /\ stored rf') /\
  (forall clk args rf' r, killed rf = false -> (currentTerm rf <= is_Term args)%Z ->
     InstallSnapshot clk args rf = Some (rf', r) -> install_cases args rf rf' r /\ stored rf').
Proof.
  intros Hwf. split.
  - intros index data rf' H. split; [by apply Snapshot_cases|]. by apply Snapshot_wf in H as [[_ ?] _].
  - intros clk args rf' r Hk Ht H. split; [by eapply InstallSnapshot_cases|].
    by apply InstallSnapshot_wf in H as [[_ ?] _].
Qed.
End RaftProps.
