(* ===== verification/RaftGhost.v ===== *)
(** * The ghost state of a Raft cluster

    Next to the nodes of [RaftCluster] the safety argument keeps a [ghost] state: the
    logs of all leaders so far and what every node acknowledged of them ([RaftLog]),
    all votes, the log each candidate stood with and who won each term.  This file
    says how the ghost state hangs together ([ghost_ok]), what it says of a node
    ([node_safe]) and of an RPC in flight ([call_safe]), and shows that these survive
    what another node adds to it ([grow_by]). *)

From S2P Require Import Prelude.
From S2P Require Import Raft.
From S2P Require Import RaftRPC.
From S2P Require Import RaftLog.
From S2P Require Import RaftFacts.
From S2P Require Import RaftCluster.
From S2P Require Import RaftProps.

Section RaftGhost.
Context {GL : GobLog}.

Record ghost : Type := mkGhost {
  gL : gmap Z (list LogEntry);  (* the log of the leader of the term *)
  gA : gmap (nat * Z) nat;  (* what a node acknowledged to the leader of the term *)
  gV : gmap (nat * Z) nat;  (* the vote of the node in the term *)
  gC : gmap (nat * Z) (list LogEntry);  (* the log the candidate stood with in the term *)
  gW : gmap Z nat;  (* the leader of the term *)
}.

(** The acknowledgements of [v] below [u] that end in an entry of their own term are
    kept by [F]. *)
Definition keeps (G : ghost) (v : nat) (F : list LogEntry) (u : Z) : Prop :=
  forall t k, acked (gA G) v t k -> (t < u)%Z -> 0 < k -> term_at (log_of (gL G) t) k = Some t ->
    has_or_conflict (gL G) F t k u.

(** What the vote of [v] for [i] in term [t] promises. *)
Definition promise (G : ghost) (v : nat) (t : Z) (i : nat) : Prop :=
  exists F, gC G !! (i, t) = Some F /\ keeps G v F t.

Record ghost_ok (n : nat) (G : ghost) : Prop := {
  gk_logs : logs_ok (gL G);
  gk_leader : forall t l, gL G !! t = Some l -> is_Some (gW G !! t);
  gk_won : forall t i, gW G !! t = Some i -> exists l Q, gL G !! t = Some l /\ quorum n Q /\
    forall v, v ∈ Q -> gV G !! (v, t) = Some i /\ keeps G v l t;
  gk_vote : forall v t i, gV G !! (v, t) = Some i -> gL G !! t = None -> promise G v t i;
  gk_cand : forall i t F, gC G !! (i, t) = Some F ->
    (0 < t)%Z /\ coherent (gL G) F /\ forall j e, F !! j = Some e -> (le_Term e <= t)%Z;
  gk_acks : forall v t a, gA G !! (v, t) = Some a -> is_Some (gL G !! t) /\ a <= length (log_of (gL G) t);
}.

Lemma ghost_elected n G : ghost_ok n G -> forall t l, gL G !! t = Some l -> elected n (gL G) (gA G) t.
Proof.
  intros HG t l Hl. destruct (gk_leader _ _ HG _ _ Hl) as [i Hi].
  destruct (gk_won _ _ HG _ _ Hi) as (l' & Q & Hl' & HQ & Hk). simplify_eq.
  exists Q. split; [done|]. intros v t0 k Hv Ha Ht Hk0 Hterm. rewrite (log_of_Some _ _ _ Hl).
  by apply (Hk v Hv).
Qed.

Lemma ghost_acked n G v t k :
  ghost_ok n G -> acked (gA G) v t k -> 0 < k -> is_Some (gL G !! t) /\ k <= length (log_of (gL G) t).
Proof.
  intros HG [->|(a & Ha & Hk)] Hpos; [lia|]. destruct (gk_acks _ _ HG _ _ _ Ha). split; [done|lia].
Qed.

(** ** Committed prefixes *)

(** The first [ci] entries of [F] are committed by a leader of a term up to [u]. *)
Definition covered (n : nat) (G : ghost) (u : Z) (ci : nat) (F : list LogEntry) : Prop :=
  ci <= length F /\
  (ci = 0 \/ exists t k, committed n (gL G) (gA G) t k /\ (t <= u)%Z /\ ci <= k /\
     take ci F = take ci (log_of (gL G) t)).

Lemma covered_0 n G u F : covered n G u 0 F.
Proof. split; [lia|by left]. Qed.

Lemma covered_le n G u u' ci ci' F :
  covered n G u ci F -> ci' <= ci -> (u <= u')%Z -> covered n G u' ci' F.
Proof.
  intros [Hl [->|(t & k & Hc & Ht & Hk & He)]] Hle Hu; (split; [lia|]); [left; lia|right].
  exists t, k. split_and!; [done|lia|lia|by eapply take_le_eq].
Qed.

(** Another log with the same prefix. *)
Lemma covered_take n G u ci F F' :
  covered n G u ci F -> ci <= length F' -> take ci F' = take ci F -> covered n G u ci F'.
Proof.
  intros [_ [->|(t & k & Hc & Ht & Hk & He)]] Hl Htk; [apply covered_0|split; [done|right]].
  exists t, k. by rewrite Htk.
Qed.

Lemma covered_app n G u ci F F' : covered n G u ci F -> covered n G u ci (F ++ F').
Proof.
  intros H. pose proof H as [Hl _]. eapply covered_take; [done|rewrite length_app; lia|].
  by apply take_app_le.
Qed.

(** Every later leader has them. *)
Lemma covered_leader n G u ci F T :
  ghost_ok n G -> covered n G u ci F -> (u <= T)%Z -> is_Some (gL G !! T) ->
  take ci F = take ci (log_of (gL G) T) /\ ci <= length (log_of (gL G) T).
Proof.
  intros HG [Hl [->|(t & k & Hc & Ht & Hk & He)]] Hu HT; [split; [done|lia]|].
  assert (take ci F = take ci (log_of (gL G) T)) as Htk.
  { rewrite He. destruct (decide (t = T)) as [->|Hne]; [done|]. symmetry.
    apply (take_le_eq ci k); [done|]. eapply later_leader_has; [by apply ghost_elected|done|done|lia]. }
  split; [done|]. apply (f_equal length) in Htk. rewrite !length_take in Htk. lia.
Qed.

(** Two logs agree on what is committed of both. *)
Lemma covered_agree n G u1 u2 ci F1 F2 :
  ghost_ok n G -> covered n G u1 ci F1 -> covered n G u2 ci F2 -> take ci F1 = take ci F2.
Proof.
  intros HG [_ [->|(t1 & k1 & Hc1 & _ & Hk1 & ->)]]; [done|]. intros [_ [->|(t2 & k2 & Hc2 & _ & Hk2 & ->)]]; [done|].
  eapply committed_agree; [by apply ghost_elected|exact Hc1|exact Hc2|done|done].
Qed.

(** ** Growth *)

(** The entry [e] at [j] was appended by the leader of its own term. *)
Definition born (L : gmap Z (list LogEntry)) (t : Z) (j : nat) (e : LogEntry) : Prop :=
  log_of L t !! j = Some e /\ le_Term e = t.

(** A step appends one entry, with the command a client gave to [Start], or none. *)
Definition births (l : option (option Cmd)) (L L' : gmap Z (list LogEntry)) : Prop :=
  match l with
  | None => forall t j e, born L' t j e -> born L t j e
  | Some command => exists t0 j0, forall t j e, born L' t j e ->
      born L t j e \/ (t = t0 /\ j = j0 /\ le_Command e = command)
  end.

Lemma births_same l L : births l L L.
Proof. destruct l; simpl; [exists 0%Z, 0|]; auto. Qed.

Lemma births_none l L L' : births None L L' -> births l L L'.
Proof. intros H. destruct l; simpl; [|done]. exists 0%Z, 0. auto. Qed.

Lemma births_then l L1 L2 L3 : births None L1 L2 -> births l L2 L3 -> births l L1 L3.
Proof.
  intros H1 H2. destruct l as [c|]; simpl in *; [|eauto]. destruct H2 as (t0 & j0 & H2). exists t0, j0.
  intros t j e [?|?]%H2; auto.
Qed.

Lemma births_before l L1 L2 L3 : births l L1 L2 -> births None L2 L3 -> births l L1 L3.
Proof. intros H1 H2. destruct l as [c|]; simpl in *; [|eauto]. destruct H1 as (t0 & j0 & H1). exists t0, j0. auto. Qed.

(** What a step of node [i] may add, when [l] is the command given to [Start]. *)
Record grow_by (l : option (option Cmd)) (i : nat) (G G' : ghost) : Prop := {
  gb_logs : logs_grow (gL G) (gL G');
  gb_acks : acks_grow (gA G) (gA G');
  gb_votes : gV G ⊆ gV G';
  gb_cand : gC G ⊆ gC G';
  gb_won : gW G ⊆ gW G';
  gb_acks_other : forall j t, j <> i -> gA G' !! (j, t) = gA G !! (j, t);
  gb_cand_other : forall j t, j <> i -> gC G' !! (j, t) = gC G !! (j, t);
  gb_won_other : forall j t, j <> i -> gW G' !! t = Some j ->
    gW G !! t = Some j /\ gL G' !! t = gL G !! t;
  gb_births : births l (gL G) (gL G');
}.

Lemma grow_by_refl l i G : grow_by l i G G.
Proof. constructor; auto using logs_grow_refl, acks_grow_refl, births_same. Qed.

Lemma grow_by_none l i G G' : grow_by None i G G' -> grow_by l i G G'.
Proof. intros []. constructor; auto. by apply births_none. Qed.

(** All but the births. *)
Lemma grow_by_both l1 l2 l i G1 G2 G3 :
  grow_by l1 i G1 G2 -> grow_by l2 i G2 G3 -> births l (gL G1) (gL G3) -> grow_by l i G1 G3.
Proof.
  intros [] [] Hb. constructor; [| | | | | | | |exact Hb].
  - by eapply logs_grow_trans.
  - intros v t k H. auto.
  - by etrans.
  - by etrans.
  - by etrans.
  - intros j t Hj. by rewrite gb_acks_other1, gb_acks_other0.
  - intros j t Hj. by rewrite gb_cand_other1, gb_cand_other0.
  - intros j t Hj HW. destruct (gb_won_other1 j t Hj HW) as [HW2 HL2].
    destruct (gb_won_other0 j t Hj HW2) as [HW1 HL1]. split; [done|congruence].
Qed.

Lemma grow_by_trans l i G1 G2 G3 : grow_by None i G1 G2 -> grow_by l i G2 G3 -> grow_by l i G1 G3.
Proof. intros H1 H2. eapply grow_by_both; [done|done|]. eapply births_then; [apply H1|apply H2]. Qed.

Lemma grow_by_before l i G1 G2 G3 : grow_by l i G1 G2 -> grow_by None i G2 G3 -> grow_by l i G1 G3.
Proof. intros H1 H2. eapply grow_by_both; [done|done|]. eapply births_before; [apply H1|apply H2]. Qed.

Lemma covered_grow n G G' u ci F :
  logs_grow (gL G) (gL G') -> acks_grow (gA G) (gA G') -> covered n G u ci F -> covered n G' u ci F.
Proof.
  intros HL HA [Hl [->|(t & k & Hc & Ht & Hk & He)]]; [apply covered_0|split; [done|right]].
  exists t, k. split_and!; [by eapply committed_grow|done|done|]. rewrite He. symmetry.
  apply logs_grow_take; [done|]. destruct Hc as (_ & _ & Hterm & _). apply term_at_len in Hterm. lia.
Qed.

Lemma covered_log_of n G G' u ci T :
  logs_grow (gL G) (gL G') -> acks_grow (gA G) (gA G') ->
  covered n G u ci (log_of (gL G) T) -> covered n G' u ci (log_of (gL G') T).
Proof.
  intros HL HA H. apply (covered_grow _ _ _ _ _ _ HL HA) in H.
  destruct (logs_grow_log_of _ _ T HL) as [ext ->]. by apply covered_app.
Qed.

(** Acknowledgements of earlier terms stay kept when they are not added to. *)
Lemma keeps_grow n G G' v F u :
  ghost_ok n G -> logs_grow (gL G) (gL G') ->
  (forall t, (t < u)%Z -> gA G' !! (v, t) = gA G !! (v, t)) -> keeps G v F u -> keeps G' v F u.
Proof.
  intros HG HL HA Hk t k Ha Ht Hpos Hterm.
  assert (acked (gA G) v t k) as Ha'.
  { destruct Ha as [->|(a & Ha & Hle)]; [by left|right]. exists a. by rewrite <- HA. }
  destruct (ghost_acked _ _ _ _ _ HG Ha' Hpos) as [_ Hlen].
  eapply has_or_conflict_grow; [apply HG|done|]. apply Hk; [done..|].
  rewrite <- Hterm. destruct (logs_grow_log_of _ _ t HL) as [ext ->]. by rewrite term_at_app.
Qed.

Lemma keeps_app G v F F' u : keeps G v F u -> keeps G v (F ++ F') u.
Proof. intros H t k Ha Ht Hk Hterm. apply has_or_conflict_app. auto. Qed.

(** ** The updates of the ghost state *)

Definition with_votes (V : gmap (nat * Z) nat) (G : ghost) : ghost := mkGhost (gL G) (gA G) V (gC G) (gW G).

Definition with_candidate (i : nat) (t : Z) (F : list LogEntry) (G : ghost) : ghost :=
  mkGhost (gL G) (gA G) (gV G) (<[(i, t) := F]> (gC G)) (gW G).

Definition with_leader (i : nat) (t : Z) (F : list LogEntry) (G : ghost) : ghost :=
  mkGhost (<[t := F]> (gL G)) (gA G) (gV G) (gC G) (<[t := i]> (gW G)).

Definition with_log (t : Z) (F : list LogEntry) (G : ghost) : ghost :=
  mkGhost (<[t := F]> (gL G)) (gA G) (gV G) (gC G) (gW G).

Definition with_ack (i : nat) (t : Z) (a : nat) (G : ghost) : ghost :=
  mkGhost (gL G) (<[(i, t) := a]> (gA G)) (gV G) (gC G) (gW G).

(** Votes: each new one keeps its promise, unless the term is decided. *)
Lemma ghost_with_votes n i rf G V' :
  ghost_ok n G -> cast i rf (gV G) V' ->
  (forall x, votedFor rf = Z.of_nat x -> gV G !! (i, currentTerm rf) = Some x \/
     (gL G !! currentTerm rf = None -> promise G i (currentTerm rf) x)) ->
  ghost_ok n (with_votes V' G) /\ grow_by None i G (with_votes V' G).
Proof.
  intros HG [HV Hnew] Hp. split.
  - destruct HG. constructor; simpl; auto.
    + intros t j HW. destruct (gk_won0 _ _ HW) as (l & Q & Hl & HQ & Hk). exists l, Q.
      split_and!; [done..|]. intros v Hv. destruct (Hk v Hv) as [Hvote ?]. split; [by eapply lookup_weaken|done].
    + intros v t j [Hv|(-> & -> & Hv)]%Hnew HL; [by apply gk_vote0|].
      destruct (Hp _ Hv) as [Hold|Hprom]; [by apply gk_vote0|by apply Hprom].
  - constructor; simpl; auto using logs_grow_refl, acks_grow_refl.
Qed.

(** A new candidacy. *)
Lemma ghost_with_candidate n i t F G :
  ghost_ok n G -> gC G !! (i, t) = None -> (0 < t)%Z -> coherent (gL G) F ->
  (forall j e, F !! j = Some e -> (le_Term e <= t)%Z) ->
  ghost_ok n (with_candidate i t F G) /\ grow_by None i G (with_candidate i t F G).
Proof.
  intros HG Hnone Hpos HF Ht.
  assert (gC G ⊆ gC (with_candidate i t F G)) as HC by by apply insert_subseteq.
  split.
  - destruct HG. constructor; simpl; auto.
    + intros v u j Hv HL. destruct (gk_vote0 _ _ _ Hv HL) as (F0 & HF0 & Hk). exists F0.
      split; [by eapply lookup_weaken|done].
    + intros j u F0. rewrite lookup_insert. case_decide; [intros [= <-]; by simplify_eq|apply gk_cand0].
  - constructor; simpl; auto using logs_grow_refl, acks_grow_refl.
    intros j u Hj. rewrite lookup_insert_ne; [done|congruence].
Qed.

(** One more leader, or more of a leader's log. *)
Lemma logs_ok_update (L : gmap Z (list LogEntry)) t F :
  logs_ok L -> (0 < t)%Z -> logs_grow L (<[t := F]> L) -> coherent (<[t := F]> L) F ->
  (forall j e, F !! j = Some e -> (le_Term e <= t)%Z) -> logs_ok (<[t := F]> L).
Proof.
  intros HL Hpos Hg HF Ht. constructor.
  - intros u l. rewrite lookup_insert. case_decide; [by intros [= <-]|].
    intros Hl. eapply coherent_grow; [done|]. by eapply lo_coherent.
  - intros u l j e. rewrite lookup_insert. case_decide; [|by eapply lo_terms].
    intros [= <-]. subst. apply Ht.
  - intros u l. rewrite lookup_insert. case_decide; [by subst|by eapply lo_positive].
Qed.

Lemma logs_grow_new (L : gmap Z (list LogEntry)) t F : L !! t = None -> logs_grow L (<[t := F]> L).
Proof.
  intros Hn u l Hl. exists []. rewrite app_nil_r. split; [|done].
  rewrite lookup_insert_ne; [done|congruence].
Qed.

Lemma logs_grow_more (L : gmap Z (list LogEntry)) t l ext :
  L !! t = Some l -> Forall (fun e => le_Term e = t) ext -> logs_grow L (<[t := l ++ ext]> L).
Proof.
  intros Hl Hext u l' Hl'. rewrite lookup_insert. case_decide; simplify_eq; [eauto|].
  exists []. by rewrite app_nil_r.
Qed.

Lemma acks_ok_grow n (G : ghost) L' v t a :
  ghost_ok n G -> logs_grow (gL G) L' -> gA G !! (v, t) = Some a ->
  is_Some (L' !! t) /\ a <= length (log_of L' t).
Proof.
  intros HG HL Ha. destruct (gk_acks _ _ HG _ _ _ Ha) as [[l Hl] Hle].
  destruct (HL _ _ Hl) as (ext & Hl' & _). pose proof (logs_grow_length _ _ t HL). split; [eauto|lia].
Qed.

(** A candidate wins. *)
Lemma ghost_with_leader n i t F G Q :
  ghost_ok n G -> gW G !! t = None -> gC G !! (i, t) = Some F ->
  quorum n Q -> (forall v, v ∈ Q -> gV G !! (v, t) = Some i) ->
  ghost_ok n (with_leader i t F G) /\ grow_by None i G (with_leader i t F G).
Proof.
  intros HG HW HC HQ Hv.
  assert (gL G !! t = None) as HL.
  { apply eq_None_not_Some. intros [l Hl]. apply (gk_leader _ _ HG) in Hl as [? ?]. congruence. }
  assert (logs_grow (gL G) (<[t := F]> (gL G))) as Hg by by apply logs_grow_new.
  destruct (gk_cand _ _ HG _ _ _ HC) as (Hpos & HF & Ht).
  assert (forall v l u, keeps G v l u -> keeps (with_leader i t F G) v l u) as Hkeep.
  { intros v l u. eapply keeps_grow; eauto. }
  split; [constructor|constructor]; simpl.
  - apply logs_ok_update; auto; [apply HG|]. by eapply coherent_grow.
  - intros u l. rewrite !lookup_insert. case_decide; [eauto|]. by apply (gk_leader _ _ HG).
  - intros u j. rewrite !lookup_insert. case_decide as Hu.
    + intros [= <-]. subst u. exists F, Q. split_and!; [done..|]. intros v Hin. split; [auto|].
      apply Hkeep. destruct (gk_vote _ _ HG _ _ _ (Hv v Hin) HL) as (F' & HF' & Hk). by simplify_eq.
    + intros Hj. destruct (gk_won _ _ HG _ _ Hj) as (l & Q' & Hl & HQ' & Hk). exists l, Q'.
      split_and!; [done..|]. intros v Hin. destruct (Hk v Hin). auto.
  - intros v u j Hvote. rewrite lookup_insert. case_decide; [done|]. intros HLu.
    destruct (gk_vote _ _ HG _ _ _ Hvote HLu) as (F' & HF' & Hk). exists F'. split; [done|]. by apply Hkeep.
  - intros j u F' (? & HF' & Hu)%(gk_cand _ _ HG). split_and!; [done|by eapply coherent_grow|done].
  - intros v u a Ha. by eapply acks_ok_grow.
  - done.
  - apply acks_grow_refl.
  - done.
  - done.
  - by apply insert_subseteq.
  - done.
  - done.
  - intros j u Hj. rewrite !lookup_insert. case_decide; [by intros [= ->]|done].
  - intros u j e [He Ht']. destruct (decide (u = t)) as [->|Hne].
    + unfold log_of in He. rewrite lookup_insert_eq in He. simpl in He. pose proof (HF _ _ He) as Htk.
      unfold log_of in Htk. rewrite Ht', HL in Htk. simpl in Htk. destruct F; [done|]. discriminate Htk.
    + split; [|done]. unfold log_of in *. by rewrite lookup_insert_ne in He.
Qed.

(** The leader of [t] appends. *)
Lemma ghost_with_log n i t l e G :
  ghost_ok n G -> gW G !! t = Some i -> gL G !! t = Some l -> le_Term e = t ->
  ghost_ok n (with_log t (l ++ [e]) G) /\ grow_by (Some (le_Command e)) i G (with_log t (l ++ [e]) G).
Proof.
  intros HG HW Hl He. set (ext := [e]). assert (Forall (fun e => le_Term e = t) ext) as Hext by by constructor.
  assert (logs_grow (gL G) (<[t := l ++ ext]> (gL G))) as Hg by by apply logs_grow_more.
  assert (forall v l' u, keeps G v l' u -> keeps (with_log t (l ++ ext) G) v l' u) as Hkeep.
  { intros v l' u. eapply keeps_grow; eauto. }
  split; [constructor|constructor]; simpl.
  - apply logs_ok_update; [apply HG|by eapply lo_positive, Hl; apply HG|done| |].
    + intros j x [Hx|[Hlen Hx]]%lookup_app_Some.
      * rewrite take_app_le by (apply lookup_lt_Some in Hx; lia).
        apply (coherent_grow _ _ _ Hg (lo_coherent _ (gk_logs _ _ HG) _ _ Hl)). done.
      * rewrite Forall_lookup in Hext. rewrite (Hext _ _ Hx). unfold log_of. by rewrite lookup_insert_eq.
    + intros j x [Hx|[_ Hx]]%lookup_app_Some; [by eapply lo_terms; first apply HG|].
      rewrite Forall_lookup in Hext. rewrite (Hext _ _ Hx). done.
  - intros u l'. rewrite lookup_insert. case_decide; [subst; eauto|]. by apply (gk_leader _ _ HG).
  - intros u j Hj. destruct (gk_won _ _ HG _ _ Hj) as (l' & Q' & Hl' & HQ' & Hk).
    rewrite lookup_insert. case_decide as Hu.
    + subst u. simplify_eq. exists (l ++ ext), Q'. split_and!; [done..|]. intros v Hin. destruct (Hk v Hin).
      split; [done|]. by apply keeps_app, Hkeep.
    + exists l', Q'. split_and!; [done..|]. intros v Hin. destruct (Hk v Hin). auto.
  - intros v u j Hvote. rewrite lookup_insert. case_decide; [done|]. intros HLu.
    destruct (gk_vote _ _ HG _ _ _ Hvote HLu) as (F' & HF' & Hk). exists F'. split; [done|]. by apply Hkeep.
  - intros j u F' (? & HF' & Hu)%(gk_cand _ _ HG). split_and!; [done|by eapply coherent_grow|done].
  - intros v u a Ha. by eapply acks_ok_grow.
  - done.
  - apply acks_grow_refl.
  - done.
  - done.
  - done.
  - done.
  - done.
  - intros j u Hj HWu. split; [done|]. rewrite lookup_insert_ne; [done|]. intros <-. congruence.
  - exists t, (length l). intros u j x [Hx Ht]. destruct (decide (u = t)) as [->|Hne].
    + unfold log_of in Hx. rewrite lookup_insert_eq in Hx. simpl in Hx.
      apply lookup_app_Some in Hx as [Hx|[Hj Hx]]; [left|right].
      * split; [|done]. by rewrite (log_of_Some _ _ _ Hl).
      * apply list_lookup_singleton_Some in Hx as [Hj0 <-]. split_and!; [done|lia|done].
    + left. split; [|done]. unfold log_of in *. by rewrite lookup_insert_ne in Hx.
Qed.

(** A node acknowledges the leader of its term. *)
Lemma ghost_with_ack n i t a G :
  ghost_ok n G -> is_Some (gL G !! t) -> a <= length (log_of (gL G) t) ->
  (forall a0, gA G !! (i, t) = Some a0 -> a0 <= a) ->
  (forall u x, gV G !! (i, u) = Some x -> (u <= t)%Z) ->
  ghost_ok n (with_ack i t a G) /\ grow_by None i G (with_ack i t a G).
Proof.
  intros HG HL Ha Hold Hvotes.
  assert (forall v l u x, gV G !! (v, u) = Some x -> keeps G v l u -> keeps (with_ack i t a G) v l u) as Hkeep.
  { intros v l u x Hx. eapply keeps_grow; [done|apply logs_grow_refl|]. intros t0 Ht0. simpl.
    rewrite lookup_insert_ne; [done|]. intros [= -> ->]. apply Hvotes in Hx. lia. }
  split; [destruct HG; constructor|constructor]; simpl; auto using logs_grow_refl.
  - intros u j HW. destruct (gk_won0 _ _ HW) as (l & Q & Hl & HQ & Hk). exists l, Q.
    split_and!; [done..|]. intros v Hv. destruct (Hk v Hv) as [Hvote ?]. split; [done|by eapply Hkeep].
  - intros v u j Hvote HLu. destruct (gk_vote0 _ _ _ Hvote HLu) as (F' & HF' & Hk). exists F'.
    split; [done|by eapply Hkeep].
  - intros v u a'. rewrite lookup_insert. case_decide; [intros [= <-]; by simplify_eq|apply gk_acks0].
  - intros v u k [->|(a0 & Ha0 & Hk)]; [by left|right].
    destruct (decide ((i, t) = (v, u))) as [[= <- <-]|Hne].
    + exists a. rewrite lookup_insert_eq. split; [done|]. pose proof (Hold _ Ha0). lia.
    + exists a0. rewrite lookup_insert_ne by done. done.
  - intros j u Hj. rewrite lookup_insert_ne; [done|congruence].
Qed.

(** ** What the ghost state says of a node *)

(** [F] is the whole log of [rf], of which [rf] holds what follows its snapshot. *)
Record shape (rf : Raft) (F : list LogEntry) : Prop := {
  sh_index : (0 <= lastIncludedIndex rf)%Z;
  sh_bound : Z.to_nat (lastIncludedIndex rf) <= length F;
  sh_tail : tail (logs rf) = drop (Z.to_nat (lastIncludedIndex rf)) F;
  sh_term : term_at F (Z.to_nat (lastIncludedIndex rf)) = Some (lastIncludedTerm rf);
}.

Record node_safe (n : nat) (G : ghost) (i : nat) (rf : Raft) (F : list LogEntry) : Prop := {
  ns_shape : shape rf F;
  ns_coherent : coherent (gL G) F;
  ns_terms : forall j e, F !! j = Some e -> (le_Term e <= currentTerm rf)%Z;
  ns_term : (0 <= currentTerm rf)%Z;
  ns_acks : forall t a, gA G !! (i, t) = Some a -> (t <= currentTerm rf)%Z;
  ns_keep : forall t k, acked (gA G) i t k -> 0 < k -> has_or_conflict (gL G) F t k (currentTerm rf + 1);
  ns_commit : covered n G (currentTerm rf) (Z.to_nat (commitIndex rf)) F;
  ns_leader : state rf = Leader -> gW G !! currentTerm rf = Some i /\
    gL G !! currentTerm rf = Some F /\
    forall j m, matchIndex rf !! j = Some m -> acked (gA G) j (currentTerm rf) (Z.to_nat m);
  ns_candidate : state rf = Candidate -> gC G !! (i, currentTerm rf) = Some F;
  ns_stood : forall t F', gC G !! (i, t) = Some F' -> (t <= currentTerm rf)%Z;
  ns_won : forall t, gW G !! t = Some i ->
    (t <= currentTerm rf)%Z /\ (t = currentTerm rf -> state rf <> Candidate);
}.

Lemma node_safe_mono n l G G' i j rf F :
  ghost_ok n G -> grow_by l i G G' -> j <> i ->
  node_safe n G j rf F -> node_safe n G' j rf F.
Proof.
  intros HG [] Hj []. constructor; auto.
  - by eapply coherent_grow.
  - intros t a. rewrite gb_acks_other0 by done. apply ns_acks0.
  - intros t k Ha Hk. eapply has_or_conflict_grow; [apply HG|done|]. apply ns_keep0; [|done].
    destruct Ha as [->|(a & Ha & ?)]; [by left|right]. exists a. by rewrite <- gb_acks_other0.
  - by eapply covered_grow.
  - intros Hs. destruct (ns_leader0 Hs) as (HW & HL & Hm).
    assert (gW G' !! currentTerm rf = Some j) as HW' by by eapply lookup_weaken.
    destruct (gb_won_other0 _ _ Hj HW') as [_ HLe]. rewrite HLe. split_and!; eauto.
  - intros Hs. eapply lookup_weaken; eauto.
  - intros t F'. rewrite gb_cand_other0 by done. apply ns_stood0.
  - intros t HW. apply ns_won0. by eapply gb_won_other0.
Qed.

(** ** What it says of an RPC in flight *)

Definition call_safe (n : nat) (G : ghost) (k : call) : Prop :=
  match k with
  | CVote src _ _ args _ =>
      exists F, gC G !! (src, rv_Term args) = Some F /\
        rv_LastLogIndex args = Z.of_nat (length F) /\ term_at F (length F) = Some (rv_LastLogTerm args)
  | CAppend _ _ dst _ args r =>
      let LT := log_of (gL G) (ae_Term args) in
      let prev := Z.to_nat (ae_PrevLogIndex args) in
      let m := prev + length (ae_Entries args) in
      is_Some (gL G !! ae_Term args) /\ (0 <= ae_PrevLogIndex args)%Z /\ m <= length LT /\
      term_at LT prev = Some (ae_PrevLogTerm args) /\
      ae_Entries args = take (length (ae_Entries args)) (drop prev LT) /\
      covered n G (ae_Term args) (Z.to_nat (ae_LeaderCommit args)) LT /\
      forall r', r = Some r' -> aer_Success r' = true -> acked (gA G) dst (ae_Term args) m
  | CSnap _ _ dst args r =>
      let LT := log_of (gL G) (is_Term args) in
      let m := Z.to_nat (is_LastIncludedIndex args) in
      is_Some (gL G !! is_Term args) /\ (0 <= is_LastIncludedIndex args)%Z /\
      term_at LT m = Some (is_LastIncludedTerm args) /\ covered n G (is_Term args) m LT /\
      forall r', r = Some r' -> isr_Stopped r' = false -> (isr_Term r' <= is_Term args)%Z ->
        acked (gA G) dst (is_Term args) m
  end.

Lemma is_Some_grow (L L' : gmap Z (list LogEntry)) t : logs_grow L L' -> is_Some (L !! t) -> is_Some (L' !! t).
Proof. intros H [l Hl]. destruct (H _ _ Hl) as (ext & -> & _). eauto. Qed.

Lemma call_safe_mono n l i G G' k : grow_by l i G G' -> call_safe n G k -> call_safe n G' k.
Proof.
  intros [HL HA _ HC _ _ _ _ _]. destruct k as [src inc dst args r|src inc dst hb args r|src inc dst args r]; simpl.
  - intros (F & HF & ?). exists F. split; [by eapply lookup_weaken|done].
  - destruct (logs_grow_log_of _ _ (ae_Term args) HL) as [ext Hext].
    intros (? & ? & Hm & Hp & He & Hc & Hr). split_and!; [by eapply is_Some_grow|done| | | | |by eauto].
    + rewrite Hext, length_app. lia.
    + rewrite Hext, term_at_app; [done|lia].
    + rewrite Hext, drop_app_le by lia. rewrite take_app_le; [done|]. rewrite length_drop. lia.
    + by eapply covered_log_of.
  - intros (? & ? & Hp & Hc & Hr). destruct (logs_grow_log_of _ _ (is_Term args) HL) as [ext Hext].
    split_and!; [by eapply is_Some_grow|done| | |by eauto].
    + rewrite Hext, term_at_app; [done|by eapply term_at_len].
    + by eapply covered_log_of.
Qed.

(** ** The invariant of the cluster *)

Record Safe (n : nat) (G : ghost) (c : Cluster) : Prop := {
  sf_inv : Inv n (gV G) c;
  sf_ghost : ghost_ok n G;
  sf_nodes : forall i rf, cl_nodes c !! i = Some rf -> exists F, node_safe n G i rf F;
  sf_calls : Forall (call_safe n G) (cl_calls c);
}.

(** A step of node [i]: what has to be shown of it. *)
Lemma Safe_update n l G G' c c' i rf rf' F' :
  Safe n G c -> cl_nodes c !! i = Some rf -> cl_nodes c' = <[i:=rf']> (cl_nodes c) ->
  Inv n (gV G') c' -> ghost_ok n G' -> grow_by l i G G' -> node_safe n G' i rf' F' ->
  (forall k, k ∈ cl_calls c' -> k ∈ cl_calls c \/ call_safe n G' k) -> Safe n G' c'.
Proof.
  intros [HI HG Hn Hc] Hi Hn' HI' HG' Hgrow Hsafe Hcalls. constructor; auto.
  - rewrite Hn'. intros j rfj [(-> & <- & _)|[Hne Hj]]%list_lookup_insert_Some; [eauto|].
    destruct (Hn _ _ Hj) as [F HF]. exists F. by apply (node_safe_mono n l G _ i).
  - apply Forall_forall. intros k [Hk|?]%Hcalls; [|done]. rewrite Forall_forall in Hc.
    apply (call_safe_mono n l i G); auto.
Qed.

(** ** The log of a node by index *)

Section shape.
Context (rf : Raft) (F : list LogEntry).

Lemma shape_logs : wf0 rf -> shape rf F ->
  exists s, le_Term s = lastIncludedTerm rf /\ logs rf = s :: drop (Z.to_nat (lastIncludedIndex rf)) F.
Proof.
  intros [] []. destruct (logs rf) as [|s l]; [done|]. simpl in *. injection wf_boundary as Hs.
  exists s. by rewrite sh_tail0.
Qed.

Lemma shape_last : wf0 rf -> shape rf F -> lastLogIndexLocked rf = Z.of_nat (length F).
Proof.
  intros Hwf Hs. destruct (shape_logs Hwf Hs) as (s & _ & Hl). destruct Hs.
  unfold lastLogIndexLocked, zlen. rewrite Hl. simpl. rewrite length_drop. lia.
Qed.

Lemma shape_entry i : wf0 rf -> shape rf F -> (lastIncludedIndex rf < i)%Z ->
  entry_at rf i = F !! (Z.to_nat i - 1).
Proof.
  intros Hwf Hs Hi. destruct (shape_logs Hwf Hs) as (s & _ & Hl). destruct Hs.
  rewrite entry_at_lookup, Hl by lia.
  replace (Z.to_nat (i - lastIncludedIndex rf)) with (S (Z.to_nat (i - lastIncludedIndex rf - 1))) by lia.
  simpl. rewrite lookup_drop. f_equal. lia.
Qed.

Lemma shape_term i : wf0 rf -> shape rf F -> (lastIncludedIndex rf <= i)%Z ->
  termAtLocked rf i = term_at F (Z.to_nat i).
Proof.
  intros Hwf Hs Hi. rewrite termAtLocked_entry. pose proof (shape_logs Hwf Hs) as (s & Hts & Hl).
  destruct (decide (i = lastIncludedIndex rf)) as [->|Hne].
  - rewrite entry_at_lookup, Hl, Z.sub_diag by lia. simpl. destruct Hs. congruence.
  - rewrite shape_entry by (done || lia). pose proof (sh_index _ _ Hs).
    destruct (Z.to_nat i) as [|j] eqn:Ej; [lia|]. simpl. by rewrite Nat.sub_0_r.
Qed.

Lemma shape_last_term : wf0 rf -> shape rf F -> lastLogTermLocked rf = term_at F (length F).
Proof.
  intros Hwf Hs. pose proof (shape_last Hwf Hs) as Hl. pose proof (wf_last _ Hwf) as Hll.
  replace (length F) with (Z.to_nat (lastLogIndexLocked rf)) by lia. rewrite <- shape_term by done.
  unfold lastLogTermLocked. rewrite termAtLocked_entry. f_equal. rewrite entry_at_lookup by done.
  pose proof (zlen_pos _ (wf_logs _ Hwf)). unfold lastLogIndexLocked. rewrite zlookup_lookup by lia. f_equal. lia.
Qed.
End shape.

(** From the indices back to the log. *)
Lemma shape_intro rf F :
  wf0 rf -> lastLogIndexLocked rf = Z.of_nat (length F) ->
  term_at F (Z.to_nat (lastIncludedIndex rf)) = Some (lastIncludedTerm rf) ->
  (forall i, (lastIncludedIndex rf < i)%Z -> entry_at rf i = F !! (Z.to_nat i - 1)) -> shape rf F.
Proof.
  intros Hwf Hlast Ht He. pose proof (wf_index _ Hwf). pose proof (wf_last _ Hwf).
  constructor; [lia|lia| |done]. apply list_eq. intros j. rewrite lookup_tail, lookup_drop.
  pose proof (He (lastIncludedIndex rf + 1 + Z.of_nat j)%Z ltac:(lia)) as Hj.
  rewrite entry_at_lookup in Hj by lia.
  replace (Z.to_nat (lastIncludedIndex rf + 1 + Z.of_nat j - lastIncludedIndex rf)) with (S j) in Hj by lia.
  rewrite Hj. f_equal. lia.
Qed.

End RaftGhost.
