(* ===== verification/RaftApply.v ===== *)
(** * What a Raft node delivers to its service

    [node_step] runs any critical section of one live process and records the
    messages its applier goroutine sends on [applyCh].  The messages come in log
    order without gaps, except where a snapshot jumps ahead. *)

From S2P Require Import Prelude.
From S2P Require Import Persister.
From S2P Require Import Raft.
From S2P Require Import RaftRPC.
From S2P Require Import RaftFacts.
From S2P Require Import RaftPersist.
From S2P Require Import RaftProps.
From S2P Require Import RaftCluster.

Section RaftApply.
Context {GL : GobLog}.

(** ** The applier's pass *)

Definition sent (act : applier_action) : list ApplyMsg :=
  match act with ApplierSend ms => ms | _ => [] end.

(** The messages [start], [start + 1], ... with the entries of the log. *)
Definition log_messages (rf : Raft) (start : Z) (n : nat) (ms : list ApplyMsg) : Prop :=
  length ms = n /\
  forall j m, ms !! j = Some m -> exists e,
    entry_at rf (start + Z.of_nat j) = Some e /\ m = command_msg (start + Z.of_nat j) e.

Lemma claimed_messages_spec rf n : forall start ms,
  (lastIncludedIndex rf <= start)%Z ->
  claimed_messages rf start n = Some ms -> log_messages rf start n ms.
Proof.
  induction n as [|n IH]; intros start ms Hlo H; simpl in H.
  { injection H as <-. split; [done|]. by intros j m. }
  apply bind_Some in H as (e & He & H). apply bind_Some in H as (ms' & Hms & H). injection H as <-.
  apply IH in Hms as [Hlen Hms]; [|lia]. split; [simpl; lia|].
  intros [|j] m Hj; simpl in Hj.
  - injection Hj as <-. exists e. rewrite Z.add_0_r. split; [|done].
    rewrite entry_at_lookup by lia. unfold toOffsetLocked in He. by rewrite zlookup_lookup in He by lia.
  - apply Hms in Hj as (e' & He' & ->). exists e'.
    replace (start + Z.of_nat (S j))%Z with (start + 1 + Z.of_nat j)%Z by lia. done.
Qed.

(** The outcomes of one pass on a well-formed node. *)
Lemma applier_pass rf rf' act :
  wf rf -> applier rf = Some (rf', act) ->
  (rf' = rf /\ sent act = []) \/
  (exists m, pendingSnapshot rf = Some m /\ sent act = [m] /\ pendingSnapshot rf' = None /\
     lastApplied rf' = Z.max (lastApplied rf) (am_SnapshotIndex m) /\ commitIndex rf' = commitIndex rf) \/
  (pendingSnapshot rf = None /\ pendingSnapshot rf' = None /\ (lastApplied rf < commitIndex rf)%Z /\
     lastApplied rf' = commitIndex rf /\ commitIndex rf' = commitIndex rf /\
     log_messages rf (lastApplied rf + 1) (Z.to_nat (commitIndex rf - lastApplied rf)) (sent act)).
Proof.
  intros [Hwf _] H. unfold applier in H. destruct (killed rf); [injection H as <- <-; by left|].
  destruct (pendingSnapshot rf) as [m|] eqn:Hp.
  - injection H as <- <-. right. left. exists m.
    destruct (Z.ltb_spec (lastApplied rf) (am_SnapshotIndex m)); simpl; split_and!; auto; lia.
  - destruct (Z.leb_spec (commitIndex rf) (lastApplied rf)); [injection H as <- <-; by left|].
    pose proof (wf_index _ Hwf).
    destruct (Z.leb_spec (lastApplied rf + 1) (lastIncludedIndex rf)) as [|_]; [lia|].
    case_decide; [done|]. apply bind_Some in H as (ms & Hms & H). injection H as <- <-.
    right. right. simpl. split_and!; auto.
    replace (Z.to_nat (commitIndex rf - lastApplied rf)) with
      (Z.to_nat (commitIndex rf - (lastApplied rf + 1) + 1)) by lia.
    apply claimed_messages_spec; [lia|done].
Qed.

(** ** Sections that leave the applier alone *)

(** The applier's claims, and the snapshot, are the same. *)
Definition claims_same (rf rf' : Raft) : Prop :=
  lastApplied rf' = lastApplied rf /\ pendingSnapshot rf' = pendingSnapshot rf.

(** And the snapshot is. *)
Definition snap_same (rf rf' : Raft) : Prop :=
  lastApplied rf' = lastApplied rf /\ pendingSnapshot rf' = pendingSnapshot rf /\
  lastIncludedIndex rf' = lastIncludedIndex rf /\ snapshot rf' = snapshot rf.

(** And the log is. *)
Definition apply_same (rf rf' : Raft) : Prop := snap_same rf rf' /\ logs rf' = logs rf.

(** The entries of the log, without the boundary. *)
Definition held (rf : Raft) : list LogEntry := tail (logs rf).

(** The log took in entries of [es] at most. *)
Definition apply_grow (es : list LogEntry) (rf rf' : Raft) : Prop :=
  snap_same rf rf' /\ forall e, e ∈ held rf' -> e ∈ held rf \/ e ∈ es.

Lemma snap_claims rf rf' : snap_same rf rf' -> claims_same rf rf'.
Proof. by intros (? & ? & _). Qed.

Lemma apply_claims rf rf' : apply_same rf rf' -> claims_same rf rf'.
Proof. intros [Hs _]. by apply snap_claims. Qed.

Lemma apply_same_grow es rf rf' : apply_same rf rf' -> apply_grow es rf rf'.
Proof. intros [? Hl]. split; [done|]. unfold held. rewrite Hl. by left. Qed.

Lemma same_log_apply rf rf' : same_log rf rf' -> apply_same rf rf'.
Proof. intros (? & _ & ? & _ & _ & ? & ? & ?). done. Qed.

Lemma apply_same_trans rf1 rf2 rf3 : apply_same rf1 rf2 -> apply_same rf2 rf3 -> apply_same rf1 rf3.
Proof. unfold apply_same, snap_same. intuition congruence. Qed.

Lemma apply_grow_trans es rf1 rf2 rf3 : apply_grow es rf1 rf2 -> apply_grow es rf2 rf3 -> apply_grow es rf1 rf3.
Proof.
  intros [Hs1 He1] [Hs2 He2]. split; [unfold snap_same in *; intuition congruence|].
  intros e [?%He1|?]%He2; [done|by right].
Qed.

(** Appending and cutting. *)
Lemma elem_tail_app (l es : list LogEntry) e : e ∈ tail (l ++ es) -> e ∈ tail l \/ e ∈ es.
Proof.
  destruct l as [|x l]; simpl; [|by rewrite elem_of_app].
  destruct es; simpl; [by intros ?%not_elem_of_nil|]. right. by right.
Qed.

Lemma elem_tail_take (l : list LogEntry) n e : e ∈ tail (take n l) -> e ∈ tail l.
Proof.
  destruct l as [|x l], n as [|n]; simpl; try (intros Hx; by apply not_elem_of_nil in Hx).
  intros (i & Hi & _)%elem_of_take. by eapply list_elem_of_lookup_2.
Qed.

Lemma appendLogs_grow es rf rf' : appendLogs es rf = Some rf' -> apply_grow es rf rf'.
Proof. intros H. apply appendLogs_Some in H as (enc & _ & ->). split; [done|]. intros e. apply elem_tail_app. Qed.

Lemma truncateLogs_grow n rf rf' : truncateLogs n rf = Some rf' -> apply_grow [] rf rf'.
Proof. intros H. apply truncateLogs_Some in H as [_ ->]. split; [done|]. intros e He. left. exact (elem_tail_take _ _ _ He). Qed.

Lemma apply_grow_mono es es' rf rf' : es ⊆ es' -> apply_grow es rf rf' -> apply_grow es' rf rf'.
Proof. intros Hs [? He]. split; [done|]. intros e [?|?]%He; auto. Qed.

Lemma persist_apply rf rf' : persist rf = Some rf' -> apply_same rf rf'.
Proof. by intros ->%persist_Some. Qed.

Lemma stepDown_apply clk t rf rf' : stepDown clk t rf = Some rf' -> apply_same rf rf'.
Proof.
  unfold stepDown. intros H. apply bind_Some in H as (rf1 & H1 & H). injection H as <-.
  by apply becomeFollowerLocked_same_log, same_log_apply in H1.
Qed.

Lemma leader_only_apply rf rf' : leader_only rf rf' -> apply_same rf rf'.
Proof. intros [_ ->]. done. Qed.

Lemma advance_apply rf rf' b : advanceCommitIndexLocked rf = Some (rf', b) -> apply_same rf rf'.
Proof. intros (? & _)%advanceCommitIndexLocked_spec. by apply leader_only_apply. Qed.

Lemma mergeEntries_apply entries : forall i rf rf' ch,
  mergeEntries i entries rf = Some (rf', ch) -> apply_grow entries rf rf'.
Proof.
  induction entries as [|e es IH]; intros i rf rf' ch H; simpl in H; [simplify_eq; by apply apply_same_grow|].
  assert (forall i rf rf' ch, mergeEntries i es rf = Some (rf', ch) -> apply_grow (e :: es) rf rf') as IH'.
  { intros i0 rf0 rf1 c H0. eapply apply_grow_mono; [|by eapply IH]. intros x. by right. }
  destruct (_ <=? _)%Z.
  - destruct (termAtLocked rf i); [|by eapply IH']. case_decide; [|by eapply IH'].
    apply bind_Some in H as (rf1 & H1 & H). apply bind_Some in H as (rf2 & H2 & H). simplify_eq.
    eapply apply_grow_trans; [|by eapply appendLogs_grow].
    eapply apply_grow_mono; [|by eapply truncateLogs_grow]. by intros x ?%not_elem_of_nil.
  - apply bind_Some in H as (rf1 & H1 & H). simplify_eq. by apply appendLogs_grow.
Qed.

Lemma AppendEntries_apply clk args rf rf' r :
  AppendEntries clk args rf = Some (rf', r) -> apply_grow (ae_Entries args) rf rf'.
Proof.
  unfold AppendEntries. destruct (killed rf); [by intros; simplify_eq; apply apply_same_grow|].
  destruct (_ <? _)%Z; [by intros; simplify_eq; apply apply_same_grow|].
  intros H. apply bind_Some in H as (rf0 & Hb & H).
  apply becomeFollowerLocked_same_log, same_log_apply in Hb.
  set (rf1 := resetElectionDeadlineLocked clk rf0) in *.
  assert (apply_same rf rf1) as Hs by done. clearbody rf1. apply (apply_same_grow (ae_Entries args)) in Hs.
  destruct (_ <? _)%Z; [by simplify_eq|]. destruct (_ <? _)%Z; [by simplify_eq|].
  destruct (termAtLocked rf1 _); [|by simplify_eq]. case_decide; [by simplify_eq|].
  apply bind_Some in H as ([rf2 ch] & Hm & H). apply bind_Some in H as (rf3 & Hp & H). injection H as <- <-.
  apply mergeEntries_apply in Hm.
  assert (apply_same rf2 rf3) by (destruct ch; [by apply persist_apply|by simplify_eq]).
  assert (apply_same rf3 (followerCommit args rf3)).
  { unfold followerCommit. destruct (_ <? _)%Z; [|done]. by destruct (_ <? _)%Z. }
  eapply apply_grow_trans; [exact Hs|]. eapply apply_grow_trans; [exact Hm|].
  apply apply_same_grow. by eapply apply_same_trans.
Qed.

Lemma RequestVote_apply clk args rf rf' r :
  wf rf -> RequestVote clk args rf = Some (rf', r) -> apply_same rf rf'.
Proof. intros Hwf H. by apply RequestVote_facts in H as (_ & ?%same_log_apply & _). Qed.

Lemma replicate_append_reply_apply clk peer args reply rf rf' k :
  replicate_append_reply clk peer args reply rf = Some (rf', k) -> apply_same rf rf'.
Proof.
  unfold replicate_append_reply. destruct (_ || _); [by intros; simplify_eq|].
  destruct (_ <? _)%Z.
  { intros H. apply bind_Some in H as (rf1 & H1 & H). simplify_eq. by eapply stepDown_apply. }
  destruct (_ || _); [by intros; simplify_eq|]. destruct (aer_Success reply).
  - unfold replicate_append_ok. intros H. repeat (apply bind_Some in H as (? & ? & H)).
    match type of H with context [let '(_, _) := ?x in _] => destruct x end. injection H as <- <-.
    match goal with H : (if ?b then _ else _) = _ |- _ => destruct b end;
      [match goal with H : advanceCommitIndexLocked _ = _ |- _ => by apply advance_apply in H end|].
    by simplify_eq.
  - intros H. apply bind_Some in H as (x & Hx & H). case_decide; [by simplify_eq|].
    apply bind_Some in H as (m & Hm & H). apply bind_Some in H as (ni & Hni & H). by simplify_eq.
Qed.

Lemma replicate_snapshot_reply_apply clk peer args reply rf rf' k :
  replicate_snapshot_reply clk peer args reply rf = Some (rf', k) -> apply_same rf rf'.
Proof.
  unfold replicate_snapshot_reply. destruct (_ || _); [by intros; simplify_eq|].
  destruct (_ <? _)%Z.
  { intros H. apply bind_Some in H as (rf1 & H1 & H). simplify_eq. by eapply stepDown_apply. }
  destruct (_ || _); [by intros; simplify_eq|].
  intros H. repeat (apply bind_Some in H as (? & ? & H)). by simplify_eq.
Qed.

Lemma becomeLeaderLocked_apply rf rf' : becomeLeaderLocked rf = Some rf' -> apply_same rf rf'.
Proof.
  unfold becomeLeaderLocked. intros H. apply bind_Some in H as (? & ? & H).
  apply bind_Some in H as (? & ? & H). simplify_eq. by case_decide.
Qed.

Lemma election_reply_apply clk t v r rf rf' v' won :
  election_reply clk t v r rf = Some (rf', v', won) -> apply_same rf rf'.
Proof.
  unfold election_reply. destruct (killed rf); [by intros; simplify_eq|].
  destruct (_ <? _)%Z.
  { intros H. apply bind_Some in H as (rf1 & H1 & H). simplify_eq. by eapply stepDown_apply. }
  destruct (_ || _); [by intros; simplify_eq|]. destruct (negb _); [by intros; simplify_eq|].
  case_decide; [|by intros; simplify_eq].
  intros H'. apply bind_Some in H' as (rf1 & H1 & H'). simplify_eq. by eapply becomeLeaderLocked_apply.
Qed.

Lemma startElection_apply clk rf rf' won reqs :
  startElection clk rf = Some (rf', won, reqs) -> apply_same rf rf'.
Proof.
  unfold startElection. destruct (_ || _); [by intros; simplify_eq|].
  intros H. apply bind_Some in H as (rf1 & H1 & H). apply bind_Some in H as (lt & Hlt & H).
  apply persist_apply in H1. case_decide; [|by simplify_eq].
  apply bind_Some in H as (rf3 & H3 & H). simplify_eq. apply becomeLeaderLocked_apply in H3.
  eapply apply_same_trans; [|exact H3]. exact H1.
Qed.

Lemma heartbeatLoop_apply time ps : forall rf rf' tasks rescue,
  heartbeatLoop time ps rf = Some (rf', tasks, rescue) -> apply_same rf rf'.
Proof.
  induction ps as [|p ps IH]; intros rf rf' tasks rescue H; simpl in H; [by simplify_eq|].
  apply bind_Some in H as (b & Hb & H). destruct b; simpl in H; [|by apply IH in H].
  apply bind_Some in H as (lt & Hlt & H). apply bind_Some in H as (la & Hla & H).
  destruct (_ <=? _)%Z; apply bind_Some in H as ([[r t] rs] & Hr & H); simplify_eq; by apply IH in Hr.
Qed.

Lemma Start_apply command rf rf' r :
  Start command rf = Some (rf', r) -> apply_grow [mkLogEntry (currentTerm rf) command] rf rf'.
Proof.
  unfold Start. destruct (_ || _); [by intros; simplify_eq; apply apply_same_grow|].
  intros H. apply bind_Some in H as (rf1 & H1 & H). apply bind_Some in H as (rf2 & H2 & H).
  apply bind_Some in H as (mi & Hmi & H). apply bind_Some in H as (ni & Hni & H).
  apply bind_Some in H as ([rf4 b] & Ha & H). injection H as <- <-.
  apply appendLogs_grow in H1. apply persist_apply in H2.
  assert (apply_same rf2 rf4) as H4 by (case_decide; [by apply advance_apply in Ha|by simplify_eq]).
  eapply apply_grow_trans; [exact H1|]. apply apply_same_grow. by eapply apply_same_trans.
Qed.

Lemma elem_slice_from (l l' : list LogEntry) k e : (1 <= k)%Z -> slice_from l k = Some l' -> e ∈ l' -> e ∈ tail l.
Proof.
  unfold slice_from. intros Hk H. case_decide; [|done]. injection H as <-.
  intros [i Hi]%list_elem_of_lookup. rewrite lookup_drop in Hi. apply (list_elem_of_lookup_2 _ (Z.to_nat k + i - 1)).
  rewrite lookup_tail. by replace (S (Z.to_nat k + i - 1)) with (Z.to_nat k + i) by lia.
Qed.

Lemma Snapshot_apply index data rf rf' :
  wf rf -> Snapshot index data rf = Some rf' -> claims_same rf rf' /\ (forall e, e ∈ held rf' -> e ∈ held rf).
Proof.
  unfold Snapshot. destruct (killed rf); [by intros; simplify_eq|].
  destruct (Z.leb_spec index (lastIncludedIndex rf)); [by intros; simplify_eq|]. destruct (_ || _); [by intros; simplify_eq|].
  intros _ H'. apply bind_Some in H' as (b & Hb & H'). apply bind_Some in H' as (tl & Htl & H').
  apply bind_Some in H' as (rf1 & Hr & H').
  apply replaceLogs_Some in Hr as (enc & _ & ->). apply persist_apply in H' as [Hs Hl].
  split; [by apply snap_claims in Hs|]. unfold held. rewrite Hl. simpl. intros e. eapply elem_slice_from; [|exact Htl]. lia.
Qed.

Lemma broadcast_apply rf : apply_same rf (broadcastAppendEntries rf).
Proof.
  unfold broadcastAppendEntries. destruct (_ || _); [done|].
  generalize (other_peers rf). intros l. revert rf.
  induction l as [|p l IH]; intros rf; simpl; [done|].
  eapply apply_same_trans; [|apply IH]. done.
Qed.
(** ** Runs of one process *)

(** A reply is to a request this process built: a snapshot request carries a
    boundary of its own log. *)
Definition own_request (k : call) : Prop :=
  match k with CSnap _ _ _ args _ => (0 <= is_LastIncludedIndex args)%Z | _ => True end.

Inductive node_step (rf : Raft) : Raft -> list ApplyMsg -> Prop :=
  | NApplier rf' act : applier rf = Some (rf', act) -> node_step rf rf' (sent act)
  | NStart command rf' r : Start command rf = Some (rf', r) -> node_step rf rf' []
  | NSnapshot index data rf' : Snapshot index data rf = Some rf' -> node_step rf rf' []
  | NKill : node_step rf (Kill rf) []
  | NBroadcast : node_step rf (broadcastAppendEntries rf) []
  | NWorkerBegin peer rf' : worker_begin peer rf = Some (Some rf') -> node_step rf rf' []
  | NWorkerEnd peer rf' : worker_end peer rf = Some rf' -> node_step rf rf' []
  | NElection clk rf' won reqs : startElection clk rf = Some (rf', won, reqs) -> node_step rf rf' []
  | NHeartbeat time rf' tasks rescue :
      heartbeatOrNotifyReplication time rf = Some (rf', tasks, rescue) -> node_step rf rf' []
  | NHandle clk k rf' k' : handle clk k rf = Some (rf', k') -> node_step rf rf' []
  | NReply clk k votes rf' votes' : own_request k ->
      handle_reply clk k votes rf = Some (rf', votes') -> node_step rf rf' [].

Inductive node_run (rf : Raft) : Raft -> list ApplyMsg -> Prop :=
  | run_nil : node_run rf rf []
  | run_step rf1 rf2 ms ms' : node_run rf rf1 ms -> node_step rf1 rf2 ms' -> node_run rf rf2 (ms ++ ms').

Lemma handle_reply_wf clk k votes rf rf' votes' :
  wf rf -> own_request k -> handle_reply clk k votes rf = Some (rf', votes') -> wf rf'.
Proof.
  intros Hwf Hown H. destruct k as [src inc dst args [r|]|src inc dst hb args [r|]|src inc dst args [r|]];
    simpl in H; try (by destruct hb); try done.
  - apply bind_Some in H as (v & Hv & H). apply bind_Some in H as ([[rf1 v'] won] & He & H).
    injection H as <- _. by apply election_reply_wf in He as (? & _).
  - destruct hb.
    + apply bind_Some in H as (rf1 & Hh & H). injection H as <- _.
      by apply independent_heartbeat_reply_wf in Hh as [? _].
    + apply bind_Some in H as ([rf1 k1] & Hh & H). injection H as <- _.
      by apply replicate_append_reply_wf in Hh as [? _].
  - apply bind_Some in H as ([rf1 k1] & Hh & H). injection H as <- _.
    by apply replicate_snapshot_reply_wf in Hh as [? _].
Qed.

Lemma handle_reply_apply clk k votes rf rf' votes' :
  handle_reply clk k votes rf = Some (rf', votes') -> apply_same rf rf'.
Proof.
  intros H. destruct k as [src inc dst args [r|]|src inc dst hb args [r|]|src inc dst args [r|]];
    simpl in H; try (by destruct hb); try done.
  - apply bind_Some in H as (v & Hv & H). apply bind_Some in H as ([[rf1 v'] won] & He & H).
    injection H as <- _. by apply election_reply_apply in He.
  - destruct hb.
    + apply bind_Some in H as (rf1 & Hh & H). injection H as <- _.
      unfold independent_heartbeat_reply in Hh. destruct (killed rf); [by simplify_eq|].
      destruct (_ <? _)%Z; [by apply stepDown_apply in Hh|by simplify_eq].
    + apply bind_Some in H as ([rf1 k1] & Hh & H). injection H as <- _.
      by apply replicate_append_reply_apply in Hh.
  - apply bind_Some in H as ([rf1 k1] & Hh & H). injection H as <- _.
    by apply replicate_snapshot_reply_apply in Hh.
Qed.

Lemma node_step_wf rf rf' ms : wf rf -> node_step rf rf' ms -> wf rf'.
Proof.
  intros Hwf Hs. destruct Hs as [?? H|??? H|??? H| | |?? H|?? H|???? H|???? H|???? H|????? Ho H].
  - by apply applier_wf in H as [? _].
  - by apply Start_wf in H as [? _].
  - by apply Snapshot_wf in H as [? _].
  - by apply Kill_wf.
  - by apply broadcastAppendEntries_wf.
  - by apply worker_begin_wf in H as [? _].
  - by apply worker_end_wf in H as [? _].
  - by apply startElection_wf in H as [? _].
  - by apply heartbeat_wf in H as [? _].
  - by apply handle_spec in H as [? _].
  - by eapply handle_reply_wf.
Qed.

(** ** The order of delivery *)

(** [in_order pos ms pos']: after [pos], the commands of [ms] have consecutive
    indices and every snapshot jumps strictly ahead; the last index is [pos']. *)
Fixpoint in_order (pos : Z) (ms : list ApplyMsg) (pos' : Z) : Prop :=
  match ms with
  | [] => pos' = pos
  | m :: ms' =>
      if am_CommandValid m
      then am_CommandIndex m = (pos + 1)%Z /\ in_order (pos + 1) ms' pos'
      else am_SnapshotValid m = true /\ (pos < am_SnapshotIndex m)%Z /\
           in_order (am_SnapshotIndex m) ms' pos'
  end.

Lemma in_order_app ms1 : forall pos pos1 ms2 pos2,
  in_order pos ms1 pos1 -> in_order pos1 ms2 pos2 -> in_order pos (ms1 ++ ms2) pos2.
Proof.
  induction ms1 as [|m ms1 IH]; intros pos pos1 ms2 pos2 H1 H2; simpl in *; [by subst|].
  destruct (am_CommandValid m).
  - destruct H1 as [? H1]. split; [done|]. by eapply IH.
  - destruct H1 as (? & ? & H1). split_and!; [done..|]. by eapply IH.
Qed.

Lemma log_messages_order rf n : forall start ms,
  log_messages rf start n ms -> in_order (start - 1) ms (start - 1 + Z.of_nat n).
Proof.
  induction n as [|n IH]; intros start ms [Hlen Hms]; destruct ms as [|m ms]; try done; simpl in *.
  { lia. }
  destruct (Hms 0 m eq_refl) as (e & He & ->). simpl. split; [lia|].
  replace (start - 1 + Z.of_nat (S n))%Z with (start + 1 - 1 + Z.of_nat n)%Z by lia.
  replace (start - 1 + 1)%Z with (start + 1 - 1)%Z by lia.
  apply IH. split; [lia|]. intros j m Hj.
  destruct (Hms (S j) m Hj) as (e' & He' & ->). exists e'.
  replace (start + 1 + Z.of_nat j)%Z with (start + Z.of_nat (S j))%Z by lia. done.
Qed.

(** The position delivered so far, against the node. *)
Definition delivered (rf : Raft) (pos : Z) : Prop :=
  match pendingSnapshot rf with
  | None => lastApplied rf = pos
  | Some m => am_SnapshotIndex m = lastApplied rf /\ (pos < lastApplied rf)%Z /\
      am_CommandValid m = false /\ am_SnapshotValid m = true
  end.

Lemma delivered_same rf rf' pos : claims_same rf rf' -> delivered rf pos -> delivered rf' pos.
Proof. unfold delivered. intros [-> ->]. done. Qed.

Lemma delivered_le rf pos : delivered rf pos -> (pos <= lastApplied rf)%Z.
Proof. unfold delivered. destruct (pendingSnapshot rf); intuition lia. Qed.

Lemma InstallSnapshot_delivered clk args rf rf' r pos :
  wf rf -> InstallSnapshot clk args rf = Some (rf', r) -> delivered rf pos -> delivered rf' pos.
Proof.
  intros Hwf H Hd. destruct (killed rf) eqn:Hk.
  { unfold InstallSnapshot in H. rewrite Hk in H. by injection H as <- <-. }
  destruct (decide (is_Term args < currentTerm rf)%Z) as [Ht|Ht].
  { unfold InstallSnapshot in H. rewrite Hk, (proj2 (Z.ltb_lt _ _) Ht) in H. by injection H as <- <-. }
  apply InstallSnapshot_cases in H as (_ & _ & _ & _ & H); [|done|done|lia]. cbn zeta in H.
  destruct (Z.leb_spec (is_LastIncludedIndex args) (commitIndex rf)).
  - by eapply delivered_same, Hd; apply apply_claims, same_log_apply.
  - destruct H as (_ & _ & _ & Ha & _ & Hp & _). unfold delivered. rewrite Hp, Ha. simpl.
    apply delivered_le in Hd. pose proof (wf_commit _ (proj1 Hwf)). split_and!; auto. lia.
Qed.

Lemma node_step_delivered rf rf' ms pos :
  wf rf -> node_step rf rf' ms -> delivered rf pos ->
  exists pos', in_order pos ms pos' /\ delivered rf' pos'.
Proof.
  intros Hwf Hs Hd.
  assert (claims_same rf rf' -> ms = [] -> exists pos', in_order pos ms pos' /\ delivered rf' pos') as Hsame.
  { intros Ha ->. exists pos. split; [done|]. by eapply delivered_same. }
  destruct Hs as [? act H|??? H|??? H| | |?? H|?? H|???? H|???? H|? k ?? H|????? Ho H].
  - apply applier_pass in H as [[-> ->]|[(m & Hp & -> & Hp' & Hl & _)|(Hp & Hp' & Hlt & Hl & _ & Hms)]]; [| | |done].
    + by exists pos.
    + unfold delivered in Hd. rewrite Hp in Hd. destruct Hd as (Hi & Hlt & Hcv & Hsv).
      exists (am_SnapshotIndex m). simpl. rewrite Hcv. split_and!; auto; [lia|].
      unfold delivered. rewrite Hp'. lia.
    + unfold delivered in Hd. rewrite Hp in Hd. subst pos. exists (commitIndex rf).
      apply log_messages_order in Hms. split; [|unfold delivered; rewrite Hp'; done].
      replace (lastApplied rf + 1 - 1)%Z with (lastApplied rf) in Hms by lia.
      replace (lastApplied rf + Z.of_nat (Z.to_nat (commitIndex rf - lastApplied rf)))%Z
        with (commitIndex rf) in Hms by lia. done.
  - apply Hsame; [|done]. by eapply snap_claims, Start_apply.
  - apply Hsame; [|done]. by eapply Snapshot_apply.
  - apply Hsame; [|done]. unfold Kill. by destruct (killed rf).
  - apply Hsame; [|done]. apply apply_claims, broadcast_apply.
  - apply Hsame; [|done]. unfold worker_begin in H. apply bind_Some in H as (n & Hn & H). destruct n; simpl in H; [|done].
    destruct (dead rf); [done|]. apply bind_Some in H as (b & Hb & H). by simplify_eq.
  - apply Hsame; [|done]. unfold worker_end in H. apply bind_Some in H as (b & Hb & H). by simplify_eq.
  - apply Hsame; [|done]. by eapply apply_claims, startElection_apply.
  - apply Hsame; [|done]. unfold heartbeatOrNotifyReplication in H. destruct (_ || _); [by simplify_eq|].
    by eapply apply_claims, heartbeatLoop_apply.
  - destruct k as [src inc dst args [r|]|src inc dst hb args [r|]|src inc dst args [r|]];
      simpl in H; try done; apply bind_Some in H as ([rf1 r] & Hh & H); injection H as <- _.
    + apply Hsame; [by eapply apply_claims, RequestVote_apply|done].
    + apply Hsame; [by eapply snap_claims, AppendEntries_apply|done].
    + exists pos. split; [done|]. by eapply InstallSnapshot_delivered.
  - apply Hsame; [|done]. by eapply apply_claims, handle_reply_apply.
Qed.

(** C22. In-order delivery: from the start of a process on, the messages its
    applier sends carry consecutive command indices, starting right after the
    snapshot the node restarted from; only a snapshot message skips indices, and
    it always moves strictly ahead, so nothing is delivered twice. *)
Theorem applier_in_order rf rf' ms :
  wf rf -> pendingSnapshot rf = None -> node_run rf rf' ms ->
  exists pos, in_order (lastApplied rf) ms pos /\ (pos <= lastApplied rf')%Z.
Proof.
  intros Hwf Hp Hr.
  assert (wf rf' /\ exists pos, in_order (lastApplied rf) ms pos /\ delivered rf' pos) as (_ & pos & ? & Hd).
  { induction Hr as [|rf1 rf2 ms1 ms2 _ (Hwf1 & pos1 & Ho1 & Hd1) Hs].
    - split; [done|]. exists (lastApplied rf). split; [done|]. unfold delivered. by rewrite Hp.
    - split; [by eapply node_step_wf|].
      eapply node_step_delivered in Hs as (pos2 & Ho2 & Hd2); [|done..].
      exists pos2. split; [|done]. by eapply in_order_app. }
  exists pos. split; [done|]. by apply delivered_le.
Qed.
End RaftApply.
