(* ===== verification/RaftEffect.v ===== *)
(** * What a critical section does to the log safety invariant

    For each kind of critical section of a Raft node, its effect on the ghost
    state of [RaftGhost] and on what the ghost state says of the node: sections
    that leave the log alone, a follower that takes over its leader's log, winning
    an election, appending, counting acknowledgements, committing and compacting. *)

From S2P Require Import Prelude.
From S2P Require Import Raft.
From S2P Require Import RaftRPC.
From S2P Require Import RaftLog.
From S2P Require Import RaftFacts.
From S2P Require Import RaftPersist.
From S2P Require Import RaftCluster.
From S2P Require Import RaftProps.
From S2P Require Import RaftApply.
From S2P Require Import RaftGhost.

Section RaftEffect.
Context {GL : GobLog}.

(** ** Sections that leave the log alone *)

(** The log is the same, and the node keeps its role or follows. *)
Record still (rf rf' : Raft) : Prop := {
  st_logs : logs rf' = logs rf;
  st_index : lastIncludedIndex rf' = lastIncludedIndex rf;
  st_iterm : lastIncludedTerm rf' = lastIncludedTerm rf;
  st_commit : (commitIndex rf' <= commitIndex rf)%Z;
  st_term : (currentTerm rf <= currentTerm rf')%Z;
  st_role : state rf' = Follower \/
    (state rf' = state rf /\ currentTerm rf' = currentTerm rf /\ matchIndex rf' = matchIndex rf);
  st_vote : keep_vote rf rf';
}.

Lemma still_refl rf : still rf rf.
Proof. constructor; auto; try lia. by right. Qed.

Lemma still_trans rf1 rf2 rf3 : still rf1 rf2 -> still rf2 rf3 -> still rf1 rf3.
Proof.
  intros [] []. constructor; try congruence; try lia; [|by eapply keep_vote_trans].
  destruct st_role1 as [?|(? & ? & ?)]; [by left|].
  destruct st_role0 as [?|(? & ? & ?)]; [left|right]; intuition congruence.
Qed.

Lemma still_becomeFollower t rf rf' : becomeFollowerLocked t rf = Some rf' -> still rf rf'.
Proof.
  unfold becomeFollowerLocked. destruct (Z.ltb_spec (currentTerm rf) t); intros H'; binds.
  - match goal with Hp : persist _ = Some _ |- _ => apply persist_Some in Hp as -> end.
    constructor; simpl; auto; try lia. by left.
  - constructor; simpl; auto; try lia. by right.
Qed.

Lemma still_stepDown clk t rf rf' : stepDown clk t rf = Some rf' -> still rf rf'.
Proof.
  unfold stepDown. intros H. apply bind_Some in H as (rf1 & H1 & H). injection H as <-.
  apply still_becomeFollower in H1. eapply still_trans; [done|]. constructor; simpl; auto; try lia. by right.
Qed.

(** The local sections that do not touch the log. *)
Ltac still_by := constructor; simpl; auto; try lia; by right.

Lemma still_applier rf rf' act : applier rf = Some (rf', act) -> still rf rf'.
Proof.
  unfold applier. destruct (killed rf); [intros; simplify_eq; apply still_refl|].
  destruct (pendingSnapshot rf) as [m|].
  - intros; simplify_eq. destruct (_ <? _)%Z; still_by.
  - destruct (_ <=? _)%Z; [intros; simplify_eq; apply still_refl|]. case_decide; [done|].
    intros H'. apply bind_Some in H' as (ms & _ & H'). simplify_eq. still_by.
Qed.

Lemma still_Kill rf : still rf (Kill rf).
Proof. unfold Kill. destruct (killed rf); still_by. Qed.

Lemma still_notify p rf : still rf (notify p rf).
Proof. still_by. Qed.

Lemma still_broadcast rf : still rf (broadcastAppendEntries rf).
Proof.
  unfold broadcastAppendEntries. destruct (_ || _); [apply still_refl|].
  generalize (other_peers rf). intros l. revert rf. induction l as [|p l IH]; intros rf; [apply still_refl|].
  eapply still_trans; [apply still_notify|apply IH].
Qed.

Lemma still_worker_begin p rf rf' : worker_begin p rf = Some (Some rf') -> still rf rf'.
Proof.
  unfold worker_begin. intros H. apply bind_Some in H as (n & _ & H). destruct n; simpl in H; [|done].
  destruct (dead rf); [done|]. apply bind_Some in H as (b & _ & H). simplify_eq. still_by.
Qed.

Lemma still_worker_end p rf rf' : worker_end p rf = Some rf' -> still rf rf'.
Proof. unfold worker_end. intros H. apply bind_Some in H as (b & _ & H). simplify_eq. still_by. Qed.

Lemma still_heartbeatLoop time ps : forall rf rf' tasks rescue,
  heartbeatLoop time ps rf = Some (rf', tasks, rescue) -> still rf rf'.
Proof.
  induction ps as [|p ps IH]; intros rf rf' tasks rescue H; simpl in H; [simplify_eq; apply still_refl|].
  apply bind_Some in H as (b & _ & H). destruct b; simpl in H.
  2:{ apply IH in H. eapply still_trans; [apply still_notify|done]. }
  apply bind_Some in H as (lt & _ & H). apply bind_Some in H as (la & _ & H).
  destruct (_ <=? _)%Z; apply bind_Some in H as ([[r t] rs] & Hr & H); simplify_eq; apply IH in Hr; [|done].
  eapply still_trans; [|done]. still_by.
Qed.

Lemma still_heartbeat time rf rf' tasks rescue :
  heartbeatOrNotifyReplication time rf = Some (rf', tasks, rescue) -> still rf rf'.
Proof.
  unfold heartbeatOrNotifyReplication. destruct (_ || _); [intros; simplify_eq; apply still_refl|].
  apply still_heartbeatLoop.
Qed.

(** A restart recovers the log from the disk. *)
Lemma still_Make (L : GobLogLaws) clk rf rf' :
  wf rf -> hard_in_range rf -> Make clk (peers rf) (me rf) (persister rf) = Some rf' -> still rf rf'.
Proof.
  intros Hwf Hr H. pose proof Hwf as [Hwf0 _].
  apply Make_recovers in H as (_ & Hh & _ & _ & _ & _ & Hs & Hc & _); [|done..].
  unfold hard in Hh. injection Hh as ? ? ? ? ?. pose proof (wf_index _ Hwf0). pose proof (wf_commit _ Hwf0).
  constructor; auto; try lia. by right.
Qed.

(** ** What the sections do to a node and the ghost state *)

Section node.
Context (n : nat) (G : ghost) (i : nat) (rf : Raft) (F : list LogEntry).

Lemma node_safe_votes V' : node_safe n G i rf F -> node_safe n (with_votes V' G) i rf F.
Proof. intros []. by constructor. Qed.

Lemma node_safe_still rf' : node_safe n G i rf F -> still rf rf' -> node_safe n G i rf' F.
Proof.
  intros [] []. constructor; auto.
  - destruct ns_shape. constructor; congruence.
  - intros j e He. apply ns_terms in He. lia.
  - lia.
  - intros t a Ha. apply ns_acks in Ha. lia.
  - intros t k Ha Hk. eapply has_or_conflict_mono; [|by apply ns_keep]. lia.
  - eapply covered_le; [done|lia|lia].
  - intros Hl. destruct st_role0 as [?|(Hs & Ht & Hm)]; [congruence|]. rewrite Ht, Hm. apply ns_leader. congruence.
  - intros Hl. destruct st_role0 as [?|(Hs & Ht & Hm)]; [congruence|]. rewrite Ht. apply ns_candidate. congruence.
  - intros t F' HF'. apply ns_stood in HF'. lia.
  - intros t HW. apply ns_won in HW as [Hle Hne]. split; [lia|].
    intros ->. destruct st_role0 as [?|(Hs & Ht & Hm)]; [congruence|]. rewrite Hs. auto.
Qed.

(** The vote the node has now is in the record, or it is new and keeps its promise. *)
Lemma keep_votes rf' V' :
  ghost_ok n G -> node_ok n (gV G) i rf -> cast i rf' (gV G) V' -> keep_vote rf rf' ->
  ghost_ok n (with_votes V' G) /\ grow_by None i G (with_votes V' G).
Proof.
  intros HG (_ & _ & _ & Hv & _) Hc Hst. apply (ghost_with_votes n i rf'); [done|done|].
  intros x Hx. destruct Hst as [?|[Ht Hvote]]; [lia|]. left. rewrite Ht.
  destruct Hv as [[? _]|(y & Hy & Hl)]; [lia|]. rewrite Hl. f_equal. lia.
Qed.

(** A node that follows the leader of [T] and takes over its log through [m]. *)
Lemma node_takeover rf' T m F' :
  ghost_ok n G -> node_safe n G i rf F -> is_Some (gL G !! T) ->
  (forall u x, gV G !! (i, u) = Some x -> (u <= T)%Z) ->
  (currentTerm rf <= T)%Z -> currentTerm rf' = T -> state rf' = Follower ->
  takeover (log_of (gL G) T) m F F' -> shape rf' F' ->
  (commitIndex rf' <= commitIndex rf \/
    exists lc, commitIndex rf' = Z.min lc (Z.of_nat m) /\ covered n G T (Z.to_nat lc) (log_of (gL G) T))%Z ->
  let a := Nat.max m (default 0 (gA G !! (i, T))) in
  ghost_ok n (with_ack i T a G) /\ grow_by None i G (with_ack i T a G) /\ node_safe n (with_ack i T a G) i rf' F'.
Proof.
  intros HG HN HT Hvotes Hle Ht Hs Hto Hsh Hci a. subst T. pose proof Hto as [Hm _].
  assert (a <= length (log_of (gL G) (currentTerm rf'))) as Ha.
  { subst a. destruct (gA G !! (i, currentTerm rf')) as [a0|] eqn:Ea; simpl; [|lia].
    destruct (gk_acks _ _ HG _ _ _ Ea). lia. }
  destruct (ghost_with_ack n i _ a G HG HT Ha) as [HG' Hg]; [|done|].
  { intros a0 Ha0. subst a. rewrite Ha0. simpl. lia. }
  split_and!; [done|done|]. pose proof (lo_terms _ (gk_logs _ _ HG)) as Hlot.
  assert (covered n G (currentTerm rf) (Z.to_nat (commitIndex rf)) F') as Hcov.
  { pose proof (ns_commit _ _ _ _ _ HN) as Hc. pose proof Hc as [Hl _].
    destruct (covered_leader _ _ _ _ _ _ HG Hc Hle HT) as [He _].
    destruct (takeover_keeps _ _ _ _ _ Hto Hl He) as [Hl' He']. eapply covered_take; [done|done|congruence]. }
  destruct HN. constructor; simpl; auto.
  - eapply takeover_coherent; [done|done|]. apply logs_ok_coherent, HG.
  - intros j e He. destruct Hto as [_ [[-> _]|[-> _]]]; [apply ns_terms in He; lia|].
    apply lookup_take_Some in He as [He _]. apply log_of_lookup in He as (l & Hl & He). by eapply Hlot.
  - lia.
  - intros t a0. rewrite lookup_insert. case_decide; [intros [= <-]; simplify_eq; lia|].
    intros Ha0%ns_acks. lia.
  - intros t k Hack Hk.
    assert (acked (gA G) i t k \/ (t = currentTerm rf' /\ k <= m)) as [Hold|[-> Hkm]].
    { destruct Hack as [->|(a0 & Ha0 & Hka)]; [lia|]. simpl in Ha0. rewrite lookup_insert in Ha0.
      case_decide as Hd; [|left; right; eauto]. injection Ha0 as <-. injection Hd as <-.
      destruct (decide (k <= m)); [by right|left]. right. subst a.
      destruct (gA G !! (i, currentTerm rf')) as [a1|]; simpl in Hka; [|lia]. exists a1. split; [done|lia]. }
    + eapply has_or_conflict_takeover; [apply HG| | |by eapply has_or_conflict_mono; [|by apply ns_keep]; lia|done];
        [done|]. destruct Hold as [->|(a0 & Ha0 & _)]; [lia|]. apply ns_acks in Ha0. lia.
    + left. split; [|lia]. eapply take_le_eq; [done|]. by eapply takeover_match.
  - apply (covered_grow n G _ _ _ _ (gb_logs _ _ _ _ Hg) (gb_acks _ _ _ _ Hg)).
    destruct Hci as [Hci|(lc & -> & Hlc)]; [eapply covered_le; [done|lia|lia]|].
    assert (length F' >= m) as HlF.
    { pose proof (takeover_match _ _ _ _ Hto) as He. apply (f_equal length) in He. rewrite !length_take in He. lia. }
    assert (covered n G (currentTerm rf') (Z.to_nat (Z.min lc (Z.of_nat m))) (log_of (gL G) (currentTerm rf')))
      as Hmin by (eapply covered_le; [exact Hlc|lia|lia]).
    eapply covered_take; [exact Hmin|lia|].
    eapply take_le_eq; [|by eapply takeover_match]. lia.
  - congruence.
  - congruence.
  - intros t F0 HF0. apply ns_stood in HF0. lia.
  - intros t HW. apply ns_won in HW as [? _]. split; [lia|]. congruence.
Qed.

(** A term is led by one node only. *)
Lemma won_unique t j Q :
  ghost_ok n G -> gW G !! t = Some j -> quorum n Q -> (forall v, v ∈ Q -> gV G !! (v, t) = Some i) -> j = i.
Proof.
  intros HG HW HQ Hv. destruct (gk_won _ _ HG _ _ HW) as (l & Q' & _ & HQ' & Hv').
  destruct (quorum_meet _ _ _ HQ HQ') as (v & H1%Hv & H2). apply Hv' in H2 as [H2 _]. congruence.
Qed.

(** The node wins the election of its term. *)
Lemma node_win rf' Q :
  ghost_ok n G -> node_safe n G i rf F ->
  gC G !! (i, currentTerm rf) = Some F -> gW G !! currentTerm rf <> Some i ->
  quorum n Q -> (forall v, v ∈ Q -> gV G !! (v, currentTerm rf) = Some i) ->
  (forall u x, gV G !! (i, u) = Some x -> (u <= currentTerm rf)%Z) ->
  shape rf' F -> currentTerm rf' = currentTerm rf -> state rf' = Leader -> commitIndex rf' = commitIndex rf ->
  (forall j m, matchIndex rf' !! j = Some m -> m = 0%Z \/ (j = i /\ m = Z.of_nat (length F))) ->
  let G' := with_ack i (currentTerm rf) (length F) (with_leader i (currentTerm rf) F G) in
  ghost_ok n G' /\ grow_by None i G G' /\ node_safe n G' i rf' F.
Proof.
  intros HG HN HC HWne HQ Hv Hvotes Hsh Ht Hs Hc Hm. cbn zeta.
  assert (gW G !! currentTerm rf = None) as HW.
  { destruct (gW G !! currentTerm rf) as [j|] eqn:E; [|done]. destruct HWne. f_equal. by eapply won_unique. }
  assert (gL G !! currentTerm rf = None) as HL.
  { apply eq_None_not_Some. intros [l Hl]. apply (gk_leader _ _ HG) in Hl as [? ?]. congruence. }
  destruct (ghost_with_leader n i _ F G Q HG HW HC HQ Hv) as [HG1 Hg1].
  assert (log_of (<[currentTerm rf := F]> (gL G)) (currentTerm rf) = F) as HLF
    by (unfold log_of; by rewrite lookup_insert_eq).
  destruct (ghost_with_ack n i (currentTerm rf) (length F) (with_leader i (currentTerm rf) F G)) as [HG2 Hg2]; auto.
  { simpl. rewrite lookup_insert_eq. eauto. }
  { simpl. by rewrite HLF. }
  { intros a Ha. apply (gk_acks _ _ HG1) in Ha as [_ Ha]. simpl in Ha. by rewrite HLF in Ha. }
  split_and!; [done|by eapply grow_by_trans|]. destruct HN. constructor; simpl; rewrite ?Ht, ?Hc; auto; try congruence.
  - eapply coherent_grow; [apply Hg1|done].
  - intros t a. rewrite lookup_insert. case_decide; [intros _; simplify_eq; lia|apply ns_acks].
  - intros t k Ha Hk. destruct (decide (t = currentTerm rf)) as [->|Hne].
    + left. rewrite HLF. split; [done|]. destruct Ha as [->|(a & Ha & Hka)]; [lia|]. simpl in Ha.
      rewrite lookup_insert_eq in Ha. injection Ha as <-. done.
    + eapply has_or_conflict_grow; [apply HG|apply Hg1|]. apply ns_keep; [|done].
      destruct Ha as [->|(a & Ha & Hka)]; [by left|right]. simpl in Ha. exists a.
      rewrite lookup_insert_ne in Ha by congruence. done.
  - eapply covered_grow; [apply Hg1|apply Hg2|done].
  - intros _. rewrite !lookup_insert_eq. split_and!; [done..|]. intros j m Hj.
    destruct (Hm _ _ Hj) as [->|[-> ->]]; [by left|right]. exists (length F). rewrite lookup_insert_eq.
    split; [done|lia].
  - intros t. rewrite lookup_insert. case_decide; [intros _; split; [lia|congruence]|].
    intros [? ?]%ns_won. split; [done|congruence].
Qed.

(** The leader appends a command. *)
Lemma node_append rf' e :
  ghost_ok n G -> node_safe n G i rf F -> state rf = Leader -> le_Term e = currentTerm rf ->
  (forall u x, gV G !! (i, u) = Some x -> (u <= currentTerm rf)%Z) ->
  shape rf' (F ++ [e]) -> currentTerm rf' = currentTerm rf -> state rf' = Leader ->
  commitIndex rf' = commitIndex rf ->
  (forall j m, matchIndex rf' !! j = Some m -> matchIndex rf !! j = Some m \/
    (j = i /\ m = Z.of_nat (S (length F)))) ->
  let G' := with_ack i (currentTerm rf) (S (length F)) (with_log (currentTerm rf) (F ++ [e]) G) in
  ghost_ok n G' /\ grow_by (Some (le_Command e)) i G G' /\ node_safe n G' i rf' (F ++ [e]).
Proof.
  intros HG HN Hs He Hvotes Hsh Ht Hs' Hc Hm. cbn zeta.
  destruct (ns_leader _ _ _ _ _ HN Hs) as (HW & HL & Hmatch).
  destruct (ghost_with_log n i _ F e G HG HW HL He) as [HG1 Hg1].
  assert (log_of (<[currentTerm rf := F ++ [e]]> (gL G)) (currentTerm rf) = F ++ [e]) as HLF
    by (unfold log_of; by rewrite lookup_insert_eq).
  assert (length (F ++ [e]) = S (length F)) as Hlen by (rewrite length_app; simpl; lia).
  destruct (ghost_with_ack n i (currentTerm rf) (S (length F)) (with_log (currentTerm rf) (F ++ [e]) G)) as [HG2 Hg2]; auto.
  { simpl. rewrite lookup_insert_eq. eauto. }
  { simpl. by rewrite HLF, Hlen. }
  { intros a Ha. apply (gk_acks _ _ HG1) in Ha as [_ Ha]. simpl in Ha. by rewrite HLF, Hlen in Ha. }
  split_and!; [done|by eapply grow_by_before|]. destruct HN. constructor; simpl; rewrite ?Ht, ?Hc; auto; try congruence.
  - apply (lo_coherent _ (gk_logs _ _ HG2) (currentTerm rf)). simpl. by rewrite lookup_insert_eq.
  - intros j e' [Hj|[_ Hj]]%lookup_app_Some; [by eapply ns_terms|].
    apply list_lookup_singleton_Some in Hj as [_ <-]. lia.
  - intros t a. rewrite lookup_insert. case_decide; [intros _; simplify_eq; lia|apply ns_acks].
  - intros t k Ha Hk. destruct (decide (t = currentTerm rf)) as [->|Hne].
    + left. rewrite HLF, Hlen. split; [done|]. destruct Ha as [->|(a & Ha & Hka)]; [lia|]. simpl in Ha.
      rewrite lookup_insert_eq in Ha. injection Ha as <-. done.
    + apply has_or_conflict_app. eapply has_or_conflict_grow; [apply HG|apply Hg1|]. apply ns_keep; [|done].
      destruct Ha as [->|(a & Ha & Hka)]; [by left|right]. simpl in Ha. exists a.
      rewrite lookup_insert_ne in Ha by congruence. done.
  - apply covered_app. eapply covered_grow; [apply Hg1|apply Hg2|done].
  - intros _. rewrite lookup_insert_eq. split_and!; [done..|]. intros j m Hj.
    destruct (Hm _ _ Hj) as [Hold|[-> ->]]; [by eapply (gb_acks _ _ _ _ Hg2), Hmatch|right].
    exists (S (length F)). rewrite lookup_insert_eq. split; [done|lia].
  - intros t [? ?]%ns_won. split; [done|congruence].
Qed.

(** The leader learns how far a follower is. *)
Lemma node_match rf' :
  node_safe n G i rf F -> leader_only rf rf' -> commitIndex rf' = commitIndex rf ->
  (forall j m, matchIndex rf' !! j = Some m -> matchIndex rf !! j = Some m \/
    acked (gA G) j (currentTerm rf) (Z.to_nat m)) ->
  node_safe n G i rf' F.
Proof.
  intros [] [_ Hl] Hc Hm. rewrite Hc in Hl. remember (matchIndex rf') as mi. rewrite Hl. clear Hl.
  constructor; simpl; auto.
  - by destruct ns_shape.
  - intros Hs. destruct (ns_leader Hs) as (? & ? & Hold). split_and!; [done..|].
    intros j m [?|?]%Hm; auto.
Qed.

(** The nodes a filter of [matchIndex] counts. *)
Lemma counted_nodes (P : Z -> Prop) `{!forall m, Decision (P m)} (l : list Z) : exists Q : gset nat,
  size Q = length (filter P l) /\ forall v, v ∈ Q -> exists m, l !! v = Some m /\ P m.
Proof.
  induction l as [|x l (Q & Hsz & HQ)] using rev_ind; [exists ∅; split; [done|set_solver]|].
  rewrite filter_app, length_app, filter_cons, filter_nil. case_decide as Hx.
  - exists ({[length l]} ∪ Q). split.
    + rewrite size_union, size_singleton, Hsz; [simpl; lia|]. apply disjoint_singleton_l.
      intros (m & Hm & _)%HQ. apply lookup_lt_Some in Hm. lia.
    + intros v [->%elem_of_singleton|(m & Hm & ?)%HQ]%elem_of_union.
      * exists x. by rewrite list_lookup_middle.
      * exists m. split; [|done]. by apply lookup_app_l_Some.
  - exists Q. split; [simpl; lia|]. intros v (m & Hm & ?)%HQ. exists m. split; [|done]. by apply lookup_app_l_Some.
Qed.

(** The leader commits. *)
Lemma node_commit rf' b :
  wf0 rf -> peers rf = n -> node_safe n G i rf F -> advanceCommitIndexLocked rf = Some (rf', b) ->
  node_safe n G i rf' F.
Proof.
  intros Hwf Hn HN H. destruct (decide (state rf = Leader)) as [Hs|Hs].
  2:{ unfold advanceCommitIndexLocked in H. rewrite decide_True in H by done. by injection H as <- <-. }
  unfold advanceCommitIndexLocked in H. rewrite decide_False in H by auto.
  apply advanceLoop_rule in H as [(_ & He & Hcm & _)|(_ & -> & _)]; [|done|done|done| |lia].
  2:{ intros k ([? ?] & _). lia. }
  destruct Hcm as (Hr & Hterm & Hmaj). set (ci := commitIndex rf') in *. clearbody ci. subst rf'.
  pose proof (ns_shape _ _ _ _ _ HN) as Hsh. pose proof (wf_index _ Hwf). pose proof (wf_commit _ Hwf).
  rewrite (shape_term _ _ _ Hwf Hsh) in Hterm by lia. rewrite (shape_last _ _ Hwf Hsh) in Hr.
  destruct (ns_leader _ _ _ _ _ HN Hs) as (HW & HL & Hmatch).
  destruct (wf_leader _ Hwf Hs) as [_ Hlen]. destruct (counted_nodes (fun m => ci <= m)%Z (matchIndex rf)) as (Q & Hsz & HQ).
  assert (committed n (gL G) (gA G) (currentTerm rf) (Z.to_nat ci)) as Hcom.
  { unfold committed. rewrite (log_of_Some _ _ _ HL). split_and!; [lia|eauto|done|]. exists Q. split.
    - split; [intros v (m & Hm & _)%HQ; apply lookup_lt_Some in Hm; lia|]. rewrite Hsz. unfold majority in Hmaj. by rewrite Hn in Hmaj.
    - intros v (m & Hm & Hle)%HQ. eapply acked_le; [by eapply Hmatch|]. lia. }
  destruct HN. constructor; simpl; auto.
  - by destruct ns_shape.
  - split; [lia|right]. exists (currentTerm rf), (Z.to_nat ci). rewrite (log_of_Some _ _ _ HL). split_and!; auto; lia.
Qed.

Lemma shape_compact rf' index :
  wf0 rf -> wf0 rf' -> shape rf F -> (lastIncludedIndex rf <= index)%Z -> compacted_at index rf rf' -> shape rf' F.
Proof.
  intros Hwf Hwf' Hsh Hlt (Hi & Hlast & _ & Hterm & Hent & _).
  apply shape_intro; [done|rewrite Hlast; by apply shape_last| |].
  - rewrite Hi. rewrite (shape_term _ _ _ Hwf Hsh) in Hterm by lia. done.
  - intros j Hj. rewrite Hent by lia. apply shape_entry; [done|done|lia].
Qed.

(** The node compacts its log. *)
Lemma node_compact rf' index :
  wf0 rf -> wf0 rf' -> node_safe n G i rf F -> (lastIncludedIndex rf < index)%Z -> compacted_at index rf rf' ->
  currentTerm rf' = currentTerm rf -> state rf' = state rf -> commitIndex rf' = commitIndex rf ->
  matchIndex rf' = matchIndex rf -> node_safe n G i rf' F.
Proof.
  intros Hwf Hwf' [] Hlt Hcut Ht Hs Hc Hm.
  constructor; rewrite ?Ht, ?Hs, ?Hc, ?Hm; auto. eapply shape_compact; eauto. lia.
Qed.

End node.
End RaftEffect.
