(* ===== verification/RaftSafe.v ===== *)
(** * Log safety of the Raft cluster

    Every step of [RaftCluster] keeps the invariant [Safe] of [RaftGhost]: the
    sections of [RaftRPC] are matched with the effects of [RaftEffect].  The
    theorems at the end hold of every run: log matching, leader completeness and
    state machine safety. *)

From S2P Require Import Prelude.
From S2P Require Import Raft.
From S2P Require Import RaftRPC.
From S2P Require Import RaftLog.
From S2P Require Import RaftFacts.
From S2P Require Import RaftPersist.
From S2P Require Import RaftCluster.
From S2P Require Import RaftProps.
From S2P Require Import RaftApply.
From S2P Require Import RaftGhost.
From S2P Require Import RaftEffect.

Section RaftSafe.
Context {GL : GobLog}.

(** The node [i], now [rf'], is safe in a grown ghost state with the votes [V'],
    of which [P] holds; [l] is the command given to [Start], if any. *)
Definition effect (l : option (option Cmd)) (n : nat) (G : ghost) (i : nat) (rf' : Raft) (V' : gmap (nat * Z) nat)
    (P : ghost -> Prop) : Prop :=
  exists G' F', gV G' = V' /\ ghost_ok n G' /\ grow_by l i G G' /\ node_safe n G' i rf' F' /\ P G'.

Lemma Safe_effect l n G c c' i rf rf' V' P :
  Safe n G c -> cl_nodes c !! i = Some rf -> cl_nodes c' = <[i:=rf']> (cl_nodes c) -> Inv n V' c' ->
  effect l n G i rf' V' P ->
  (forall G' k, P G' -> k ∈ cl_calls c' -> k ∈ cl_calls c \/ call_safe n G' k) ->
  exists G', grow_by l i G G' /\ Safe n G' c'.
Proof.
  intros HS Hi Hn HI (G' & F' & <- & HG & Hg & HN & HP) Hk. exists G'. split; [done|].
  eapply Safe_update; eauto.
Qed.

Lemma effect_any l n G i rf' V' P : effect None n G i rf' V' P -> effect l n G i rf' V' P.
Proof. intros (G' & F' & ? & ? & ? & ? & ?). exists G', F'. split_and!; auto. by apply grow_by_none. Qed.

(** What a step of node [i] may use. *)
Record at_node (n : nat) (G : ghost) (i : nat) (rf : Raft) (F : list LogEntry) : Prop := {
  an_ghost : ghost_ok n G;
  an_safe : node_safe n G i rf F;
  an_ok : node_ok n (gV G) i rf;
  an_wf : wf rf;
}.

Lemma Safe_at n G c i rf : Safe n G c -> cl_nodes c !! i = Some rf -> exists F, at_node n G i rf F.
Proof.
  intros [HI HG HN _] Hi. destruct (HN _ _ Hi) as [F HF]. pose proof (inv_nodes _ _ _ HI _ _ Hi) as Hok.
  exists F. constructor; [done|done|done|apply Hok].
Qed.

Lemma Safe_call n G c k l1 l2 : Safe n G c -> cl_calls c = l1 ++ k :: l2 -> call_safe n G k.
Proof.
  intros [_ _ _ Hc] He. rewrite He in Hc. by apply Forall_app in Hc as [_ [? _]%Forall_cons].
Qed.

Lemma effect_still n G i rf rf' F V' :
  at_node n G i rf F -> cast i rf' (gV G) V' -> still rf rf' ->
  effect None n G i rf' V' (fun G' => G' = with_votes V' G).
Proof.
  intros [HG HN Hok _] Hc Hs. destruct (keep_votes n G i rf rf' V' HG Hok Hc (st_vote _ _ Hs)) as [HG' Hg].
  exists (with_votes V' G), F. split_and!; [done|done|done| |done].
  apply node_safe_votes. by apply (node_safe_still n G i rf).
Qed.

(** ** The requests of a leader *)

Lemma leader_log n G i rf F :
  node_safe n G i rf F -> state rf = Leader -> is_Some (gL G !! currentTerm rf) /\ log_of (gL G) (currentTerm rf) = F.
Proof. intros HN Hs. destruct (ns_leader _ _ _ _ _ HN Hs) as (_ & HL & _). split; [eauto|by apply log_of_Some]. Qed.

Lemma heartbeat_safe n G i inc dst rf F args :
  at_node n G i rf F -> state rf = Leader -> heartbeat_of rf args ->
  call_safe n G (CAppend i inc dst true args None).
Proof.
  intros [HG HN _ [Hwf _]] Hs (Ht & _ & Hp & Hpt & He & Hc). destruct (leader_log _ _ _ _ _ HN Hs) as [HL HF].
  pose proof (ns_shape _ _ _ _ _ HN) as Hsh. pose proof (shape_last _ _ Hwf Hsh) as Hlast.
  rewrite (shape_last_term _ _ Hwf Hsh) in Hpt.
  unfold call_safe. cbn zeta. rewrite Ht, HF, Hp, Hlast, He, Hc, Nat2Z.id. simpl. split_and!; [done|lia|lia|done|done| |done].
  apply (ns_commit _ _ _ _ _ HN).
Qed.

Lemma replicate_safe n G i inc dst rf F req :
  at_node n G i rf F -> replicate_request dst rf = Some (Some req) ->
  call_safe n G (request_call i inc dst req).
Proof.
  intros [HG HN _ [Hwf _]] H. unfold replicate_request in H.
  destruct (killed rf || _) eqn:E; [done|]. apply orb_false_iff in E as [_ E].
  apply bool_decide_eq_false, dec_stable in E.
  destruct (leader_log _ _ _ _ _ HN E) as [HL HF]. pose proof (ns_shape _ _ _ _ _ HN) as Hsh.
  pose proof (wf_index _ Hwf). pose proof (wf_commit _ Hwf).
  apply bind_Some in H as (next & _ & H). destruct (Z.leb_spec next (lastIncludedIndex rf)).
  - injection H as <-. simpl. rewrite HF. split_and!; [done|lia|apply Hsh| |done].
    eapply covered_le; [apply (ns_commit _ _ _ _ _ HN)|lia|lia].
  - rewrite (shape_term _ _ _ Hwf Hsh) in H by lia.
    destruct (term_at F (Z.to_nat (next - 1))) as [pt|] eqn:Hpt; [|done].
    apply bind_Some in H as (es & Hes & H). injection H as <-. simpl. rewrite HF.
    assert (es = drop (Z.to_nat (next - 1)) F) as ->.
    { unfold slice_from in Hes. case_decide; [|done]. injection Hes as <-.
      destruct (shape_logs _ _ Hwf Hsh) as (s & _ & ->). unfold toOffsetLocked.
      replace (Z.to_nat (next - lastIncludedIndex rf)) with (S (Z.to_nat (next - 1 - lastIncludedIndex rf))) by lia.
      simpl. rewrite drop_drop. f_equal. lia. }
    pose proof (term_at_len _ _ _ Hpt). rewrite length_drop. split_and!; [done|lia|lia|done| | |done].
    + symmetry. apply take_ge. by rewrite length_drop.
    + apply (ns_commit _ _ _ _ _ HN).
Qed.

(** ** Elections *)

(** [becomeLeaderLocked] keeps the log and counts only the leader's own. *)
Lemma becomeLeader_log rf rf' :
  becomeLeaderLocked rf = Some rf' ->
  logs rf' = logs rf /\ lastIncludedIndex rf' = lastIncludedIndex rf /\ lastIncludedTerm rf' = lastIncludedTerm rf /\
  commitIndex rf' = commitIndex rf /\ currentTerm rf' = currentTerm rf /\ votedFor rf' = votedFor rf /\
  state rf' = Leader /\
  matchIndex rf' = <[me rf := lastLogIndexLocked rf]> (replicate (peers rf) 0%Z).
Proof.
  unfold becomeLeaderLocked. intros H. apply bind_Some in H as (mi & Hmi & H).
  apply bind_Some in H as (ni & Hni & H). injection H as <-. apply slice_set_Some in Hmi as [_ ->].
  case_decide; simpl; split_and!; done.
Qed.

Lemma shape_same rf rf' F :
  shape rf F -> logs rf' = logs rf -> lastIncludedIndex rf' = lastIncludedIndex rf ->
  lastIncludedTerm rf' = lastIncludedTerm rf -> shape rf' F.
Proof. intros [] Hl Hi Ht. constructor; congruence. Qed.

Lemma leader_matches rf i k j m :
  <[i := k]> (replicate (peers rf) 0%Z) !! j = Some m -> m = 0%Z \/ (j = i /\ m = k).
Proof.
  intros [(-> & -> & _)|[_ H]]%list_lookup_insert_Some; [by right|left]. by apply lookup_replicate in H as [-> _].
Qed.

(** A candidate of the current term with a majority of votes. *)
Lemma effect_win n G i rf rf' F :
  ghost_ok n G -> node_safe n G i rf F -> wf0 rf -> me rf = i ->
  gC G !! (i, currentTerm rf) = Some F -> gW G !! currentTerm rf <> Some i ->
  becomeLeaderLocked rf = Some rf' -> node_ok n (gV G) i rf' ->
  effect None n G i rf' (gV G) (fun _ => True).
Proof.
  intros HG HN Hwf Hme HC HW (Hl & Hi & Hit & Hc & Ht & Hv & Hs & Hm)%becomeLeader_log Hok.
  destruct Hok as (_ & _ & Hp & _ & Hle & Hlead). destruct (Hlead Hs) as (Q & HQ & Hmaj).
  pose proof (ns_shape _ _ _ _ _ HN) as Hsh. rewrite Ht in HQ, Hle.
  destruct (node_win n G i rf F rf' Q) as (HG' & Hg & HN'); auto.
  - split; [intros v Hin; by apply HQ in Hin as [? _]|]. unfold majority in Hmaj. by rewrite Hp in Hmaj.
  - intros v Hin. by apply HQ.
  - by eapply shape_same.
  - intros j m Hj. rewrite Hm, Hme, (shape_last _ _ Hwf Hsh) in Hj. by apply leader_matches in Hj.
  - eexists _, F. split_and!; [|exact HG'|exact Hg|exact HN'|done]. done.
Qed.

Lemma effect_grow n G G1 i rf' V' P :
  grow_by None i G G1 -> effect None n G1 i rf' V' P -> effect None n G i rf' V' P.
Proof.
  intros Hg (G' & F' & HV & HG & Hg' & HN & HP). exists G', F'. split_and!; auto. by eapply grow_by_trans.
Qed.

Lemma effect_election_reply n G i clk t v r rf rf' v' won F V' :
  at_node n G i rf F -> election_reply clk t v r rf = Some (rf', v', won) ->
  cast i rf' (gV G) V' -> node_ok n V' i rf' -> effect None n G i rf' V' (fun _ => True).
Proof.
  intros Hat H Hc Hok. pose proof Hat as [HG HN Hok0 [Hwf _]].
  assert (still rf rf' \/ (state rf = Candidate /\ becomeLeaderLocked rf = Some rf')) as [Hs|[Hs Hb]].
  { unfold election_reply in H. destruct (killed rf); [simplify_eq; left; apply still_refl|].
    destruct (_ <? _)%Z.
    { apply bind_Some in H as (rf1 & H1 & H). simplify_eq. left. by eapply still_stepDown. }
    destruct (_ || _) eqn:E; [simplify_eq; left; apply still_refl|].
    apply orb_false_iff in E as [E _]. apply bool_decide_eq_false, dec_stable in E.
    destruct (negb _); [simplify_eq; left; apply still_refl|].
    case_decide; [|simplify_eq; left; apply still_refl].
    apply bind_Some in H as (rf1 & H1 & H). simplify_eq. by right. }
  - destruct (effect_still n G i rf rf' F V' Hat Hc Hs) as (G' & F' & ? & ? & ? & ? & _). by exists G', F'.
  - pose proof (becomeLeader_log _ _ Hb) as (_ & _ & _ & _ & Ht & Hv & _).
    destruct (keep_votes n G i rf rf' V' HG Hok0 Hc) as [HG1 Hg1]; [right; auto|].
    apply (effect_grow n G (with_votes V' G)); [done|]. eapply effect_win; eauto.
    + by apply node_safe_votes.
    + apply Hok0.
    + apply (ns_candidate _ _ _ _ _ HN Hs).
    + intros HW. by apply (ns_won _ _ _ _ _ HN) in HW as [_ []].
Qed.

(** What [startElection] leaves behind, in between the new candidacy and a win. *)
Lemma startElection_cases clk rf rf' won reqs :
  wf rf -> startElection clk rf = Some (rf', won, reqs) ->
  (rf' = rf /\ reqs = []) \/ exists rf2 lt,
    wf0 rf2 /\ me rf2 = me rf /\ currentTerm rf2 = (currentTerm rf + 1)%Z /\ state rf2 = Candidate /\
    votedFor rf2 = Z.of_nat (me rf) /\
    logs rf2 = logs rf /\ lastIncludedIndex rf2 = lastIncludedIndex rf /\
    lastIncludedTerm rf2 = lastIncludedTerm rf /\ commitIndex rf2 = commitIndex rf /\
    lastLogTermLocked rf = Some lt /\
    ((becomeLeaderLocked rf2 = Some rf' /\ reqs = []) \/
     (rf' = rf2 /\ reqs = (fun s => (s, mkRequestVoteArgs (currentTerm rf + 1) (me rf)
                               (lastLogIndexLocked rf) lt)) <$> other_peers rf)).
Proof.
  intros [Hwf _]. unfold startElection. destruct (_ || _); [intros; simplify_eq; by left|].
  intros H. apply bind_Some in H as (rf1 & H1 & H). apply bind_Some in H as (lt & Hlt & H).
  apply persist_Some in H1 as ->. right.
  match type of H with (if decide (majority ?r <= 1) then _ else _) = _ => set (rf2 := r) in * end.
  exists rf2, lt. split; [destruct Hwf; wf_fields|]. split_and!; try done.
  case_decide.
  - apply bind_Some in H as (rf3 & H3 & H). injection H as <- <- <-. left. done.
  - injection H as <- <- <-. right. done.
Qed.

(** Standing for election. *)
Lemma node_stand n G i rf rf2 F :
  ghost_ok n G -> node_safe n G i rf F ->
  currentTerm rf2 = (currentTerm rf + 1)%Z -> state rf2 = Candidate -> commitIndex rf2 = commitIndex rf ->
  shape rf2 F ->
  let G' := with_candidate i (currentTerm rf2) F G in
  ghost_ok n G' /\ grow_by None i G G' /\ node_safe n G' i rf2 F.
Proof.
  intros HG HN Ht Hs Hc Hsh G'. pose proof (ns_term _ _ _ _ _ HN).
  destruct (ghost_with_candidate n i (currentTerm rf2) F G) as [HG' Hg]; [done| |lia|apply HN| |].
  { apply eq_None_not_Some. intros [F' HF']. apply (ns_stood _ _ _ _ _ HN) in HF'. lia. }
  { intros j e He. apply (ns_terms _ _ _ _ _ HN) in He. lia. }
  split_and!; [done|done|]. destruct HN. subst G'. rewrite Ht in *. constructor; simpl; rewrite ?Ht; auto; try congruence; try lia.
  - intros j e He. apply ns_terms in He. lia.
  - intros t a Ha. apply ns_acks in Ha. lia.
  - intros t k Ha Hk. eapply has_or_conflict_mono; [|by apply ns_keep]. lia.
  - rewrite Hc. eapply covered_le; [done|lia|lia].
  - intros _. by rewrite lookup_insert_eq.
  - intros t F'. rewrite lookup_insert. case_decide; [intros _; simplify_eq; lia|]. intros HF'%ns_stood. lia.
  - intros t [? _]%ns_won. split; [lia|]. intros ->. lia.
Qed.

Lemma effect_election n G i clk rf rf' won reqs F V' :
  at_node n G i rf F -> startElection clk rf = Some (rf', won, reqs) ->
  cast i rf' (gV G) V' -> node_ok n V' i rf' ->
  effect None n G i rf' V' (fun G' => forall inc dst args, (dst, args) ∈ reqs ->
    call_safe n G' (CVote i inc dst args None)).
Proof.
  intros Hat H Hc Hok. pose proof Hat as [HG HN Hok0 Hwf]. pose proof (ns_shape _ _ _ _ _ HN) as Hsh.
  apply startElection_cases in H as [[-> ->]|(rf2 & lt & Hwf2 & Hm & Ht & Hs & Hv & Hl & Hi & Hit & Hci & Hlt & H)]; [| |done].
  { destruct (effect_still n G i rf rf F V' Hat Hc (still_refl _)) as (G' & F' & ? & ? & ? & ? & _).
    exists G', F'. split_and!; [done..|]. intros inc dst args Hin. by apply not_elem_of_nil in Hin. }
  assert (me rf = i) as Hme by apply Hok0.
  destruct (node_stand n G i rf rf2 F HG HN Ht Hs Hci) as (HG1 & Hg1 & HN1); [by eapply shape_same|].
  set (G1 := with_candidate i (currentTerm rf2) F G) in *.
  assert (currentTerm rf' = currentTerm rf2 /\ votedFor rf' = votedFor rf2) as [Ht' Hv'].
  { destruct H as [[Hb _]|[-> _]]; [|done]. by apply becomeLeader_log in Hb as (_ & _ & _ & _ & ? & ? & _). }
  destruct (ghost_with_votes n i rf' G1 V') as [HG2 Hg2]; [done|exact Hc| |].
  { intros x Hx. right. intros _. rewrite Ht', Ht. assert (x = i) as -> by lia. exists F.
    split; [unfold G1; simpl; by rewrite Ht, lookup_insert_eq|]. intros t k Ha Hlt' Hk _.
    by apply (ns_keep _ _ _ _ _ HN). }
  assert (grow_by None i G (with_votes V' G1)) as Hg by by eapply grow_by_trans.
  destruct H as [[Hb ->]|[-> ->]].
  - assert (effect None n (with_votes V' G1) i rf' V' (fun _ => True)) as He.
    { eapply effect_win; eauto.
      - by apply node_safe_votes.
      - by rewrite Hm.
      - by apply (ns_candidate _ _ _ _ _ HN1).
      - intros HW. simpl in HW. apply (ns_won _ _ _ _ _ HN) in HW as [? _]. lia. }
    destruct He as (G' & F' & ? & ? & ? & ? & _). exists G', F'. split_and!; auto; [by eapply grow_by_trans|].
    intros inc dst args Hin. by apply not_elem_of_nil in Hin.
  - exists (with_votes V' G1), F. split_and!; auto; [by apply node_safe_votes|].
    intros inc dst args (s & [= -> ->] & _)%list_elem_of_fmap. exists F. simpl. rewrite <- Ht, lookup_insert_eq.
    split_and!; [done|by apply shape_last; first apply Hwf|].
    by rewrite <- (shape_last_term rf F), Hlt by (done || apply Hwf).
Qed.

(** ** Votes *)

Lemma RequestVote_cases clk args rf rf' r :
  RequestVote clk args rf = Some (rf', r) ->
  still rf rf' \/ exists rf1 d p, still rf rf1 /\ rvr_VoteGranted r = true /\
    rf' = set_persister p (set_electionDeadline d (set_votedFor (Z.of_nat (rv_CandidateId args)) rf1)).
Proof.
  unfold RequestVote. intros H. apply bind_Some in H as (lt & _ & H).
  destruct (killed rf); [simplify_eq; left; apply still_refl|].
  destruct (_ <? _)%Z; [simplify_eq; left; apply still_refl|].
  apply bind_Some in H as (rf1 & Hb & H).
  assert (still rf rf1) as Hs.
  { destruct (_ <? _)%Z; [by eapply still_becomeFollower|simplify_eq; apply still_refl]. }
  destruct (_ && _); [|simplify_eq; by left].
  apply bind_Some in H as (rf2 & Hp & H). apply persist_Some in Hp as ->. injection H as <- <-.
  right. exists rf1. eexists _, _. split_and!; [done|done|reflexivity].
Qed.

(** The voter keeps the candidate's promise for it. *)
Lemma vote_promise n G i src inc args rf F :
  at_node n G i rf F -> call_safe n G (CVote src inc i args None) ->
  (currentTerm rf <= rv_Term args)%Z -> log_up_to_date args rf ->
  gL G !! rv_Term args = None -> promise G i (rv_Term args) src.
Proof.
  intros [HG HN _ [Hwf _]] (Fc & HC & Hli & Hlt) Hle (mt & Hmt & Hup) HL.
  destruct (gk_cand _ _ HG _ _ _ HC) as (_ & Hco & Hterms). pose proof (ns_shape _ _ _ _ _ HN) as Hsh.
  rewrite (shape_last_term _ _ Hwf Hsh) in Hmt. rewrite (shape_last _ _ Hwf Hsh), Hli in Hup.
  exists Fc. split; [done|]. intros t k Ha Ht Hk Hterm.
  apply (up_to_date_keeps _ F Fc t k _ mt (rv_LastLogTerm args)); auto; [apply HG|apply HN| |].
  - eapply has_or_conflict_mono; [|by apply (ns_keep _ _ _ _ _ HN)]. lia.
  - destruct Hup as [?|[? ?]]; [left; lia|right; split; lia].
Qed.

Lemma effect_vote n G i clk src inc args rf rf' r F V' :
  at_node n G i rf F -> call_safe n G (CVote src inc i args None) -> rv_CandidateId args = src ->
  RequestVote clk args rf = Some (rf', r) -> cast i rf' (gV G) V' ->
  effect None n G i rf' V' (fun _ => True).
Proof.
  intros Hat Hk Hsrc H Hc. pose proof Hat as [HG HN Hok Hwf].
  destruct (RequestVote_cases _ _ _ _ _ H) as [Hs|(rf1 & d & p & Hs & Hgr & He)].
  { destruct (effect_still n G i rf rf' F V' Hat Hc Hs) as (G' & F' & ? & ? & ? & ? & _). by exists G', F'. }
  apply RequestVote_facts in H as (Hg & _ & _ & Ht & _); [|done].
  destruct Hg as [(Hkl & Hle & Hup & _) _]; [done|]. destruct (Ht Hkl) as [_ Ht']. rewrite Z.max_r in Ht' by done.
  destruct (ghost_with_votes n i rf' G V' HG Hc) as [HG' Hg'].
  { intros x Hx. right. rewrite Ht'. assert (x = src) as -> by (subst rf'; simpl in Hx; lia).
    intros HL. by eapply vote_promise. }
  exists (with_votes V' G), F. split_and!; auto. apply node_safe_votes.
  pose proof (node_safe_still n G i rf F rf1 HN Hs) as HN1. subst rf'. destruct HN1. constructor; auto.
  by destruct ns_shape.
Qed.

(** ** AppendEntries *)

(** The merge takes over the leader's log through the last received entry. *)
Lemma merge_takeover L F LT k : forall p,
  coherent L F -> coherent L LT -> p <= length F -> p + k <= length LT -> take p F = take p LT ->
  takeover LT (p + k) F (take p F ++ merge_reference (drop p F) (take k (drop p LT))).
Proof.
  induction k as [|k IH]; intros p HF HLT Hp Hk He.
  { rewrite take_0, merge_reference_nil, take_drop, Nat.add_0_r. split; [lia|]. by left. }
  destruct (lookup_lt_is_Some_2 LT p) as [e Hle]; [lia|]. rewrite (drop_S _ _ _ Hle). simpl.
  assert (take p LT ++ e :: take k (drop (S p) LT) = take (p + S k) LT) as Hcut.
  { rewrite <- (take_drop p (take (p + S k) LT)), take_take, Nat.min_l by lia. f_equal.
    rewrite skipn_firstn_comm. replace (p + S k - p) with (S k) by lia. by rewrite (drop_S _ _ _ Hle). }
  destruct (F !! p) as [o|] eqn:Ho.
  - rewrite (drop_S _ _ _ Ho). case_decide as Ht.
    + assert (take (S p) F = take (S p) LT) as He'.
      { apply (coherent_agree L _ _ _ (le_Term e)); [done..| |]; simpl; [by rewrite Ho, <- Ht|by rewrite Hle]. }
      replace (p + S k) with (S p + k) by lia.
      replace (take p F ++ o :: merge_reference (drop (S p) F) (take k (drop (S p) LT)))
        with (take (S p) F ++ merge_reference (drop (S p) F) (take k (drop (S p) LT))).
      * apply IH; auto; [by apply lookup_lt_Some in Ho|lia].
      * by rewrite (take_S_r _ _ _ Ho), <- app_assoc.
    + rewrite He, Hcut. split; [lia|right]. split; [done|right]. exists p. split; [lia|]. congruence.
  - rewrite drop_ge by (by apply lookup_ge_None). rewrite He, Hcut. split; [lia|right].
    split; [done|left]. apply lookup_ge_None in Ho. lia.
Qed.

Lemma shape_merged rf rf' F prev es :
  wf0 rf -> wf0 rf' -> shape rf F -> (lastIncludedIndex rf <= prev)%Z -> Z.to_nat prev <= length F ->
  merged prev es rf rf' ->
  shape rf' (take (Z.to_nat prev) F ++ merge_reference (drop (Z.to_nat prev) F) es).
Proof.
  intros Hwf Hwf' Hsh Hlo Hhi [Hi Hl]. pose proof (shape_logs _ _ Hwf Hsh) as (s & Hs & Hlg).
  destruct Hsh as [H0 Hb Htl Ht]. rewrite Hlg in Hl.
  replace (Z.to_nat (prev + 1 - lastIncludedIndex rf)) with (S (Z.to_nat (prev - lastIncludedIndex rf))) in Hl by lia.
  simpl in Hl. rewrite drop_drop in Hl.
  replace (Z.to_nat (lastIncludedIndex rf) + Z.to_nat (prev - lastIncludedIndex rf)) with (Z.to_nat prev) in Hl by lia.
  assert (length (take (Z.to_nat prev) F) = Z.to_nat prev) as Hlen by (rewrite length_take; lia).
  constructor; rewrite ?Hi.
  - done.
  - rewrite length_app, Hlen. lia.
  - rewrite Hl. simpl. rewrite drop_app_le by lia. f_equal. rewrite skipn_firstn_comm. f_equal. lia.
  - pose proof (wf_boundary _ Hwf') as Hbd. rewrite Hl in Hbd. simpl in Hbd. injection Hbd as <-.
    rewrite Hs, <- Ht. rewrite term_at_app by lia. apply term_at_take. lia.
Qed.

Lemma append_reply_safe n G src inc dst hb args r :
  call_safe n G (CAppend src inc dst hb args None) ->
  (aer_Success r = true -> acked (gA G) dst (ae_Term args) (Z.to_nat (ae_PrevLogIndex args) + length (ae_Entries args))) ->
  call_safe n G (CAppend src inc dst hb args (Some r)).
Proof.
  intros (? & ? & ? & ? & ? & ? & _) Hr. unfold call_safe. split_and!; auto.
  intros r' [= <-]. exact Hr.
Qed.

Lemma same_log_still rf rf' :
  same_log rf rf' -> (currentTerm rf <= currentTerm rf')%Z -> state rf' = Follower -> keep_vote rf rf' -> still rf rf'.
Proof. intros (? & _ & ? & ? & ? & _) ? ? ?. constructor; auto. lia. Qed.

(** The follower accepted the entries. *)
Lemma effect_accept n G i rf rf' F V' args :
  at_node n G i rf F -> wf rf' -> keep_vote rf rf' -> cast i rf' (gV G) V' -> node_ok n V' i rf' ->
  (currentTerm rf <= ae_Term args)%Z -> currentTerm rf' = ae_Term args -> state rf' = Follower ->
  call_safe n G (CAppend 0 0 i false args None) ->
  termAtLocked rf (ae_PrevLogIndex args) = Some (ae_PrevLogTerm args) ->
  merged (ae_PrevLogIndex args) (ae_Entries args) rf rf' ->
  commitIndex rf' = Z.max (commitIndex rf)
    (Z.min (ae_LeaderCommit args) (ae_PrevLogIndex args + zlen (ae_Entries args))) ->
  effect None n G i rf' V' (fun G' => grow_by None i G G' /\
    acked (gA G') i (ae_Term args) (Z.to_nat (ae_PrevLogIndex args) + length (ae_Entries args))).
Proof.
  intros [HG HN Hok [Hwf _]] [Hwf' _] Hkv Hc Hok' Hle Ht Hs Hk Hpt Hm Hci.
  destruct Hk as (HT & Hp0 & Hlen & Hterm & Hes & Hcov & _). pose proof (ns_shape _ _ _ _ _ HN) as Hsh.
  destruct (proj1 (termAtLocked_is_Some rf (ae_PrevLogIndex args))) as [Hlo Hhi]; [eauto|].
  rewrite (shape_last _ _ Hwf Hsh) in Hhi. rewrite (shape_term _ _ _ Hwf Hsh) in Hpt by done.
  set (LT := log_of (gL G) (ae_Term args)) in *. set (p := Z.to_nat (ae_PrevLogIndex args)) in *.
  assert (coherent (gL G) LT) as HLT by apply logs_ok_coherent, HG.
  assert (take p F = take p LT) as He by (eapply coherent_agree; [apply HN|done|done|done]).
  destruct (keep_votes n G i rf rf' V' HG Hok Hc Hkv) as [HG1 Hg1].
  pose proof (shape_merged rf rf' F _ _ Hwf Hwf' Hsh Hlo ltac:(lia) Hm) as Hsh'. fold p in Hsh'. rewrite Hes in Hsh'.
  pose proof (merge_takeover (gL G) F LT (length (ae_Entries args)) p (ns_coherent _ _ _ _ _ HN) HLT ltac:(lia) Hlen He) as Hto.
  set (F' := take p F ++ _) in Hsh', Hto.
  destruct (node_takeover n (with_votes V' G) i rf F rf' (ae_Term args) (p + length (ae_Entries args)) F' HG1
    (node_safe_votes _ _ _ _ _ V' HN) HT) as (HG2 & Hg2 & HN2); auto.
  - intros u x Hx. rewrite <- Ht. by eapply Hok'.
  - destruct (Z.le_gt_cases (Z.min (ae_LeaderCommit args) (ae_PrevLogIndex args + zlen (ae_Entries args))) (commitIndex rf)).
    + left. lia.
    + right. exists (ae_LeaderCommit args). split; [|exact Hcov]. unfold zlen in *. lia.
  - eexists _, F'. split_and!; [|exact HG2|by eapply grow_by_trans|exact HN2|by eapply grow_by_trans|]; [done|].
    right. eexists. simpl. rewrite lookup_insert_eq. split; [done|]. lia.
Qed.

Lemma effect_append n G i clk src inc hb args rf rf' r F V' :
  at_node n G i rf F -> call_safe n G (CAppend src inc i hb args None) ->
  AppendEntries clk args rf = Some (rf', r) -> cast i rf' (gV G) V' -> node_ok n V' i rf' ->
  effect None n G i rf' V' (fun G' => call_safe n G' (CAppend src inc i hb args (Some r))).
Proof.
  intros Hat Hk H Hc Hok'. pose proof Hat as [HG HN Hok Hwf].
  assert (still rf rf' -> aer_Success r = false ->
    effect None n G i rf' V' (fun G' => call_safe n G' (CAppend src inc i hb args (Some r)))) as Hstill.
  { intros Hs Hr. destruct (effect_still n G i rf rf' F V' Hat Hc Hs) as (G' & F' & ? & ? & ? & ? & ->).
    exists (with_votes V' G), F'. split_and!; [done..|]. apply append_reply_safe; [exact Hk|congruence]. }
  destruct (killed rf) eqn:Hkl.
  { unfold AppendEntries in H. rewrite Hkl in H. injection H as <- <-. apply Hstill; [apply still_refl|done]. }
  destruct (decide (ae_Term args < currentTerm rf)%Z) as [Hlt|Hle].
  { unfold AppendEntries in H. rewrite Hkl, (proj2 (Z.ltb_lt _ _) Hlt) in H. injection H as <- <-.
    apply Hstill; [apply still_refl|done]. }
  pose proof (AppendEntries_wf _ _ _ _ _ Hwf H) as (Hwf' & _ & _ & _ & Hkv).
  apply AppendEntries_outcome in H as (Ho & Hs & Ht); [|done|done|lia].
  destruct Ho as [_ Hl|_ Hl|t _ _ Hl|Hpt Hm Hci];
    [apply Hstill; [apply same_log_still; auto; lia|done]..|].
  destruct (effect_accept n G i rf rf' F V' args) as (G' & F' & HV & HG' & Hg & HN' & _ & Hack); auto; [lia|].
  exists G', F'. split_and!; auto. apply append_reply_safe; [by eapply call_safe_mono|auto].
Qed.

(** ** InstallSnapshot *)

Lemma snap_reply_safe n G src inc dst args r :
  call_safe n G (CSnap src inc dst args None) ->
  (isr_Stopped r = false -> (isr_Term r <= is_Term args)%Z ->
    acked (gA G) dst (is_Term args) (Z.to_nat (is_LastIncludedIndex args))) ->
  call_safe n G (CSnap src inc dst args (Some r)).
Proof.
  intros (? & ? & ? & ? & _) Hr. unfold call_safe. split_and!; auto.
  intros r' [= <-]. exact Hr.
Qed.

(** The log after the snapshot of the leader was installed, and how it got there. *)
Lemma install_takeover n G i rf rf' F args :
  at_node n G i rf F -> wf rf' -> (currentTerm rf <= is_Term args)%Z ->
  call_safe n G (CSnap 0 0 i args None) ->
  let index := is_LastIncludedIndex args in
  (if (index <=? commitIndex rf)%Z then same_log rf rf'
  else
    lastIncludedIndex rf' = index /\ lastIncludedTerm rf' = is_LastIncludedTerm args /\
    if decide (termAtLocked rf index = Some (is_LastIncludedTerm args))
    then compacted_at index rf rf' else lastLogIndexLocked rf' = index) ->
  exists F', takeover (log_of (gL G) (is_Term args)) (Z.to_nat index) F F' /\ shape rf' F'.
Proof.
  intros [HG HN Hok [Hwf _]] [Hwf' _] Hle (HT & H0 & Hterm & Hcov & _) index H.
  pose proof (ns_shape _ _ _ _ _ HN) as Hsh. pose proof (ns_commit _ _ _ _ _ HN) as Hc.
  pose proof (wf_index _ Hwf). pose proof (wf_commit _ Hwf). pose proof (term_at_len _ _ _ Hterm) as Hlen.
  fold index in H0, Hterm, Hcov, Hlen. set (LT := log_of (gL G) (is_Term args)) in *.
  destruct (Z.leb_spec index (commitIndex rf)) as [Hin|Hnew].
  - exists F. split.
    + split; [done|left]. split; [done|]. destruct (covered_leader _ _ _ _ _ _ HG Hc Hle HT) as [He _].
      eapply take_le_eq; [|exact He]. lia.
    + destruct H as (? & _ & ? & ? & _). by eapply shape_same.
  - destruct H as (Hi & Hit & H). case_decide as Hd.
    + exists F. split; [|apply (shape_compact rf F rf' index); auto; lia].
      rewrite (shape_term _ _ _ Hwf Hsh) in Hd by lia. split; [done|left]. split; [done|].
      eapply coherent_agree; [apply HN|apply logs_ok_coherent, HG|done|done].
    + exists (take (Z.to_nat index) LT). split.
      * split; [done|right]. split; [done|]. destruct (decide (length F <= Z.to_nat index)) as [|Hgt]; [by left|right].
        rewrite (shape_term _ _ _ Hwf Hsh) in Hd by lia. rewrite <- Hterm in Hd.
        destruct (Z.to_nat index) as [|j]; [done|]. exists j. split; [lia|]. intros He. apply Hd. simpl. by rewrite He.
      * assert (length (take (Z.to_nat index) LT) = Z.to_nat index) as Hl by (rewrite length_take; lia).
        apply shape_intro; [done|rewrite Hl, H; lia| |].
        -- by rewrite Hi, Hit, term_at_take.
        -- intros j Hj. rewrite lookup_ge_None_2 by lia. unfold entry_at.
           destruct (containsIndexLocked rf' j) eqn:E; [|done]. apply containsIndexLocked_spec in E. lia.
Qed.

Lemma effect_install n G i clk src inc args rf rf' r F V' :
  at_node n G i rf F -> call_safe n G (CSnap src inc i args None) ->
  InstallSnapshot clk args rf = Some (rf', r) -> cast i rf' (gV G) V' -> node_ok n V' i rf' ->
  effect None n G i rf' V' (fun G' => call_safe n G' (CSnap src inc i args (Some r))).
Proof.
  intros Hat Hk H Hc Hok'. pose proof Hat as [HG HN Hok Hwf].
  assert (rf' = rf -> isr_Stopped r = true \/ (is_Term args < isr_Term r)%Z ->
    effect None n G i rf' V' (fun G' => call_safe n G' (CSnap src inc i args (Some r)))) as Hstill.
  { intros -> Hr. destruct (effect_still n G i rf rf F V' Hat Hc (still_refl _)) as (G' & F' & ? & ? & ? & ? & ->).
    exists (with_votes V' G), F'. split_and!; [done..|]. apply snap_reply_safe; [exact Hk|].
    destruct Hr; [congruence|lia]. }
  destruct (killed rf) eqn:Hkl.
  { unfold InstallSnapshot in H. rewrite Hkl in H. injection H as <- <-. apply Hstill; [done|by left]. }
  destruct (decide (is_Term args < currentTerm rf)%Z) as [Hlt|Hle].
  { unfold InstallSnapshot in H. rewrite Hkl, (proj2 (Z.ltb_lt _ _) Hlt) in H. injection H as <- <-.
    apply Hstill; [done|by right]. }
  pose proof (InstallSnapshot_wf _ _ _ _ _ Hwf H) as (Hwf' & _ & _ & Hkv).
  apply InstallSnapshot_cases in H as (_ & _ & Hs & Ht & H); [|done|done|lia]. cbn zeta in H.
  destruct (install_takeover n G i rf rf' F args) as (F' & Hto & Hsh'); [done|done|lia|exact Hk| |].
  { cbn zeta. destruct (_ <=? _)%Z; [done|]. destruct H as (? & ? & _ & _ & _ & _ & ?). done. }
  destruct (keep_votes n G i rf rf' V' HG Hok Hc Hkv) as [HG1 Hg1].
  destruct Hk as (HT & H0 & Hterm & Hcov & Hnone).
  destruct (node_takeover n (with_votes V' G) i rf F rf' (is_Term args) (Z.to_nat (is_LastIncludedIndex args)) F' HG1
    (node_safe_votes _ _ _ _ _ V' HN) HT) as (HG2 & Hg2 & HN2); auto; [|lia| |].
  - intros u x Hx. rewrite <- Ht. by eapply Hok'.
  - destruct (Z.leb_spec (is_LastIncludedIndex args) (commitIndex rf)).
    + left. destruct H as (_ & _ & _ & _ & -> & _). lia.
    + right. exists (is_LastIncludedIndex args). destruct H as (_ & _ & -> & _). split; [lia|exact Hcov].
  - eexists _, F'. split_and!; [|exact HG2|by eapply grow_by_trans|exact HN2|]; [done|].
    apply snap_reply_safe.
    + apply (call_safe_mono n None i G); [by eapply grow_by_trans|]. by split_and!.
    + intros _ _. right. eexists. simpl. rewrite lookup_insert_eq. split; [done|]. lia.
Qed.

(** ** The leader counts the answers *)

(** A section that leaves the ghost state as it is. *)
Lemma effect_quiet n G i rf rf' F V' :
  at_node n G i rf F -> cast i rf' (gV G) V' -> quiet rf rf' -> node_safe n G i rf' F ->
  effect None n G i rf' V' (fun _ => True).
Proof.
  intros [HG HN Hok Hwf] Hc (_ & _ & Ht & Hv & _) HN'.
  destruct (keep_votes n G i rf rf' V' HG Hok Hc) as [HG' Hg]; [right; auto|].
  exists (with_votes V' G), F. split_and!; auto. by apply node_safe_votes.
Qed.

Lemma effect_still_any n G i rf rf' F V' :
  at_node n G i rf F -> cast i rf' (gV G) V' -> still rf rf' -> effect None n G i rf' V' (fun _ => True).
Proof.
  intros Hat Hc Hs. destruct (effect_still n G i rf rf' F V' Hat Hc Hs) as (G' & F' & ? & ? & ? & ? & _).
  by exists G', F'.
Qed.

Lemma insert_match (mi : list Z) p v (P : nat -> Z -> Prop) :
  P p v -> forall j m, <[p := v]> mi !! j = Some m -> mi !! j = Some m \/ P j m.
Proof. intros HP j m [(-> & -> & _)|[_ H]]%list_lookup_insert_Some; auto. Qed.

Lemma effect_append_reply n G i clk inc dst args r rf rf' k F V' :
  at_node n G i rf F -> call_safe n G (CAppend i inc dst false args (Some r)) ->
  replicate_append_reply clk dst args r rf = Some (rf', k) -> cast i rf' (gV G) V' ->
  effect None n G i rf' V' (fun _ => True).
Proof.
  intros Hat Hk H Hc. pose proof Hat as [HG HN Hok Hwf].
  pose proof (fun Hs => effect_still_any n G i rf rf' F V' Hat Hc Hs) as Hstill.
  unfold replicate_append_reply in H. destruct (_ || _); [simplify_eq; apply Hstill, still_refl|].
  destruct (_ <? _)%Z.
  { apply bind_Some in H as (rf1 & H1 & H). simplify_eq. by eapply Hstill, still_stepDown. }
  destruct (bool_decide _ || _) eqn:E; [simplify_eq; apply Hstill, still_refl|].
  apply orb_false_iff in E as [E1 E2]. apply bool_decide_eq_false, dec_stable in E1.
  apply negb_false_iff, Z.eqb_eq in E2. destruct (aer_Success r) eqn:Er.
  - destruct Hk as (_ & Hp0 & _ & _ & _ & _ & Hack). specialize (Hack r eq_refl Er). rewrite <- E2 in Hack.
    apply replicate_append_ok_spec in H as (m & rf1 & Hwf1 & Hl & Hci & Hm & Hmi & Hr); [|done].
    assert (node_safe n G i rf1 F) as HN1.
    { eapply node_match; [done|done|done|]. rewrite Hmi.
      apply (insert_match _ _ _ (fun j m => acked (gA G) j (currentTerm rf) (Z.to_nat m))).
      destruct (_ <? _)%Z.
      - unfold zlen. rewrite Z2Nat.inj_add, Nat2Z.id by lia. done.
      - by apply (ns_leader _ _ _ _ _ HN E1). }
    apply leader_only_quiet in Hl as Hq. destruct Hr as [->|[b Ha]]; [by eapply effect_quiet|].
    pose proof (advance_wf _ _ _ Hwf1 Ha) as [_ Hq'].
    eapply effect_quiet; [done|done|unfold quiet in *; intuition congruence|].
    eapply node_commit; [apply Hwf1| |done|done]. destruct Hq as (_ & -> & _). apply Hok.
  - apply bind_Some in H as (x & _ & H). case_decide; [simplify_eq; apply Hstill, still_refl|].
    apply bind_Some in H as (m & _ & H). apply bind_Some in H as (ni & _ & H). simplify_eq.
    apply Hstill. constructor; simpl; auto; try lia. by right.
Qed.

Lemma effect_snap_reply n G i clk inc dst args r rf rf' k F V' :
  at_node n G i rf F -> call_safe n G (CSnap i inc dst args (Some r)) ->
  replicate_snapshot_reply clk dst args r rf = Some (rf', k) -> cast i rf' (gV G) V' ->
  effect None n G i rf' V' (fun _ => True).
Proof.
  intros Hat Hk H Hc. pose proof Hat as [HG HN Hok Hwf].
  pose proof (fun Hs => effect_still_any n G i rf rf' F V' Hat Hc Hs) as Hstill.
  unfold replicate_snapshot_reply in H. destruct (_ || _) eqn:E0; [simplify_eq; apply Hstill, still_refl|].
  apply orb_false_iff in E0 as [_ Estop]. destruct (Z.ltb_spec (currentTerm rf) (isr_Term r)) as [|Hterm].
  { apply bind_Some in H as (rf1 & H1 & H). simplify_eq. by eapply Hstill, still_stepDown. }
  destruct (bool_decide _ || _) eqn:E; [simplify_eq; apply Hstill, still_refl|].
  apply orb_false_iff in E as [E1 E2]. apply bool_decide_eq_false, dec_stable in E1.
  apply negb_false_iff, Z.eqb_eq in E2.
  destruct Hk as (_ & _ & _ & _ & Hack). specialize (Hack r eq_refl Estop ltac:(lia)). rewrite <- E2 in Hack.
  apply bind_Some in H as (m & Hm & H). apply bind_Some in H as (mi & Hmi & H).
  apply bind_Some in H as (x & Hx & H). apply bind_Some in H as (ni & Hni & H). simplify_eq.
  apply slice_set_Some in Hmi as [_ ->]. eapply effect_quiet; [done|done|done|].
  eapply node_match; [done|split; [simpl; lia|done]|done|]. simpl.
  apply (insert_match _ _ _ (fun j m => acked (gA G) j (currentTerm rf) (Z.to_nat m))).
  destruct (m <? is_LastIncludedIndex args)%Z.
  - exact Hack.
  - by apply (ns_leader _ _ _ _ _ HN E1).
Qed.

(** ** The sections without messages *)

Lemma Snapshot_match index data rf rf' : Snapshot index data rf = Some rf' -> matchIndex rf' = matchIndex rf.
Proof.
  unfold Snapshot. destruct (killed rf); [by intros; simplify_eq|].
  destruct (_ <=? _)%Z; [by intros; simplify_eq|]. destruct (_ || _); [by intros; simplify_eq|].
  intros H. apply bind_Some in H as (b & _ & H). apply bind_Some in H as (tl & _ & H).
  apply bind_Some in H as (rf1 & Hr & H). apply replaceLogs_Some in Hr as (enc & _ & ->).
  by apply persist_Some in H as ->.
Qed.

Lemma effect_Start n G i command rf rf' r F V' :
  at_node n G i rf F -> Start command rf = Some (rf', r) -> cast i rf' (gV G) V' ->
  effect (Some command) n G i rf' V' (fun _ => True).
Proof.
  intros Hat H Hc. pose proof Hat as [HG HN Hok Hwf]. pose proof (ns_shape _ _ _ _ _ HN) as Hsh.
  apply Start_spec in H as [->|(rf3 & Hwf3 & Hq & Hs & Hl & Hi & Hit & Hci & Hmi & Hr)]; [| |done].
  { apply effect_any. eapply effect_still_any; [done|done|apply still_refl]. }
  assert (quiet rf rf') as Hq'.
  { destruct Hr as [->|[b Ha]]; [done|]. apply advance_wf in Ha as [_ ?]; [|done]. unfold quiet in *. intuition congruence. }
  assert (shape rf3 (F ++ [mkLogEntry (currentTerm rf) command])) as Hsh3.
  { destruct (shape_logs _ _ (proj1 Hwf) Hsh) as (s & Hs' & Hlg). destruct Hsh as [H0 Hb Htl Ht].
    constructor; rewrite ?Hi, ?Hit; [done|rewrite length_app; lia| |by rewrite term_at_app].
    rewrite Hl, Hlg, drop_app_le by lia. done. }
  destruct (keep_votes n G i rf rf' V' HG Hok Hc) as [HG1 Hg1]; [right; split; apply Hq'|].
  destruct (node_append n (with_votes V' G) i rf F rf3 (mkLogEntry (currentTerm rf) command) HG1
    (node_safe_votes _ _ _ _ _ V' HN) Hs eq_refl) as (HG2 & Hg2 & HN2); auto; try apply Hq.
  - intros u x Hx. simpl in Hx. destruct Hc as [_ Hc]. apply Hc in Hx as [Hx|(_ & -> & _)].
    + by eapply Hok.
    + destruct Hq' as (_ & _ & -> & _). lia.
  - destruct Hq as (_ & _ & _ & _ & ->). done.
  - intros j m. rewrite Hmi. apply (insert_match _ _ _ (fun j m => j = i /\ m = Z.of_nat (S (length F)))).
    split; [apply Hok|]. rewrite (shape_last _ _ (proj1 Hwf) Hsh). lia.
  - eexists _, _. split_and!; [|exact HG2|by eapply grow_by_trans| |done]; [done|].
    destruct Hr as [->|[b Ha]]; [exact HN2|]. eapply node_commit; [apply Hwf3| |exact HN2|done].
    destruct Hq as (_ & -> & _). apply Hok.
Qed.

Lemma effect_Snapshot n G i index data rf rf' F V' :
  at_node n G i rf F -> Snapshot index data rf = Some rf' -> cast i rf' (gV G) V' ->
  effect None n G i rf' V' (fun _ => True).
Proof.
  intros Hat H Hc. pose proof Hat as [HG HN Hok Hwf]. pose proof (Snapshot_wf _ _ _ _ Hwf H) as [Hwf' Hq].
  pose proof (Snapshot_match _ _ _ _ H) as Hm.
  apply Snapshot_cases in H as [((_ & Hlt & _) & Hcut & _ & Hci & _)|[_ ->]]; [| |done].
  - eapply effect_quiet; [done|done|done|]. destruct Hq as (_ & _ & Ht & _ & Hs).
    apply (node_compact n G i rf F rf' index); auto; [apply Hwf|apply Hwf'].
  - eapply effect_still_any; [done|done|apply still_refl].
Qed.

(** The command a local step gives to [Start]. *)
Inductive local_label (rf : Raft) : Raft -> option (option Cmd) -> Prop :=
  | B_start command rf' r : Start command rf = Some (rf', r) -> local_label rf rf' (Some command)
  | B_snapshot index data rf' : Snapshot index data rf = Some rf' -> local_label rf rf' None
  | B_applier rf' act : applier rf = Some (rf', act) -> local_label rf rf' None
  | B_inner rf' : inner_step rf rf' -> local_label rf rf' None.

Lemma label_local rf rf' l : local_label rf rf' l -> local_step rf rf'.
Proof. intros []; by econstructor. Qed.

Lemma local_has_label rf rf' : local_step rf rf' -> exists l, local_label rf rf' l.
Proof. intros []; eexists; by econstructor. Qed.

Lemma effect_local n G i rf rf' F V' l :
  at_node n G i rf F -> local_label rf rf' l -> cast i rf' (gV G) V' -> effect l n G i rf' V' (fun _ => True).
Proof.
  intros Hat Hl Hc. destruct Hl as [| | |rf' Hl]; [| | |destruct Hl].
  - by eapply effect_Start.
  - by eapply effect_Snapshot.
  - eapply effect_still_any; [done|done|by eapply still_applier].
  - eapply effect_still_any; [done|done|apply still_Kill].
  - eapply effect_still_any; [done|done|apply still_broadcast].
  - eapply effect_still_any; [done|done|by eapply still_worker_begin].
  - eapply effect_still_any; [done|done|by eapply still_worker_end].
Qed.

(** ** The handlers and the replies of the cluster *)

Lemma effect_handle n G i clk k k' rf rf' F V' c :
  at_node n G i rf F -> call_safe n G k -> call_ok c (gV G) k -> call_dst k = i ->
  handle clk k rf = Some (rf', k') -> cast i rf' (gV G) V' -> node_ok n V' i rf' ->
  effect None n G i rf' V' (fun G' => call_safe n G' k').
Proof.
  intros Hat Hk Hok Hi H Hc Hok'.
  destruct k as [src inc dst args [r|]|src inc dst hb args [r|]|src inc dst args [r|]];
    simpl in H, Hi; try done; subst dst; apply bind_Some in H as ([rf1 r] & Hh & H); injection H as <- <-.
  - destruct Hok as (_ & Hsrc & _).
    destruct (effect_vote n G i clk src inc args rf rf1 r F V' Hat Hk Hsrc Hh Hc) as (G' & F' & ? & ? & Hg & ? & _).
    exists G', F'. split_and!; auto. by apply (call_safe_mono n None i G G' (CVote src inc i args None)).
  - by eapply effect_append.
  - by eapply effect_install.
Qed.

Lemma effect_handle_reply n G i clk k votes votes' rf rf' F V' :
  at_node n G i rf F -> call_safe n G k -> call_src k = i ->
  handle_reply clk k votes rf = Some (rf', votes') -> cast i rf' (gV G) V' -> node_ok n V' i rf' ->
  effect None n G i rf' V' (fun _ => True).
Proof.
  intros Hat Hk Hi H Hc Hok'.
  destruct k as [src inc dst args [r|]|src inc dst hb args [r|]|src inc dst args [r|]];
    simpl in H, Hi; try (by destruct hb); try done; subst src.
  - apply bind_Some in H as (v & _ & H). apply bind_Some in H as ([[rf1 v'] won] & He & H). injection H as <- _.
    by eapply effect_election_reply.
  - destruct hb.
    + apply bind_Some in H as (rf1 & Hh & H). injection H as <- _. eapply effect_still_any; [done|done|].
      unfold independent_heartbeat_reply in Hh. destruct (killed rf); [simplify_eq; apply still_refl|].
      destruct (_ <? _)%Z; [by eapply still_stepDown|simplify_eq; apply still_refl].
    + apply bind_Some in H as ([rf1 k1] & Hh & H). injection H as <- _. by eapply effect_append_reply.
  - apply bind_Some in H as ([rf1 k1] & Hh & H). injection H as <- _. by eapply effect_snap_reply.
Qed.

(** ** Every step of the cluster *)

(** The ghost state only grows. *)
Definition grows (G G' : ghost) : Prop := logs_grow (gL G) (gL G') /\ acks_grow (gA G) (gA G').

Lemma ghost_grows_refl G : grows G G.
Proof. split; [apply logs_grow_refl|apply acks_grow_refl]. Qed.

Lemma grow_by_grows l i G G' : grow_by l i G G' -> grows G G'.
Proof. intros []. done. Qed.

Lemma Safe_frame l n G c c' i rf rf' V' P :
  Safe n G c -> cl_nodes c !! i = Some rf -> cl_nodes c' = <[i:=rf']> (cl_nodes c) -> Inv n V' c' ->
  effect l n G i rf' V' P ->
  (forall G' k, P G' -> k ∈ cl_calls c' -> k ∈ cl_calls c \/ call_safe n G' k) ->
  exists G', grows G G' /\ births l (gL G) (gL G') /\ Safe n G' c'.
Proof.
  intros. edestruct Safe_effect as (G' & Hg & HS); eauto. exists G'.
  split; [by eapply grow_by_grows|]. split; [apply Hg|done].
Qed.

Lemma new_node_ok n V c c' i rf rf' :
  Inv n V c' -> cl_nodes c !! i = Some rf -> cl_nodes c' = <[i:=rf']> (cl_nodes c) -> node_ok n V i rf'.
Proof.
  intros HI Hi He. apply (inv_nodes _ _ _ HI). rewrite He. apply list_lookup_insert_eq. by eapply lookup_lt_Some.
Qed.

(** The command a step of the cluster gives to [Start]. *)
Inductive cluster_label (c : Cluster) : Cluster -> option (option Cmd) -> Prop :=
  | B_local i rf rf' l :
      cl_nodes c !! i = Some rf -> local_label rf rf' l -> cluster_label c (set_node i rf' c) l
  | B_net c' : net_step c c' -> cluster_label c c' None
  | B_restart i inc clk rf rf' :
      cl_nodes c !! i = Some rf -> cl_inc c !! i = Some inc -> hard_in_range rf ->
      Make clk (peers rf) i (persister rf) = Some rf' ->
      cluster_label c (mkCluster (<[i:=rf']> (cl_nodes c)) (<[i:=S inc]> (cl_inc c)) (cl_votes c) (cl_calls c)) None.

Lemma cluster_has_label c c' : cluster_step c c' -> exists l, cluster_label c c' l.
Proof.
  intros [i rf rf' Hi [l Hl]%local_has_label|c2 Hs|i inc clk rf rf' Hi Hinc Hr H]; [exists l|exists None..]; by econstructor.
Qed.

Lemma Safe_births (L : GobLogLaws) n G c c' l :
  Safe n G c -> cluster_label c c' l -> exists G', grows G G' /\ births l (gL G) (gL G') /\ Safe n G' c'.
Proof.
  intros HS Hstep. pose proof (sf_inv _ _ _ HS) as HI.
  destruct Hstep as [i rf rf' l Hi Hl|c' [i inc clk rf rf' won reqs Hi Hinc H|i inc time rf rf' tasks rescue Hi Hinc H
    |i inc dst rf req Hi Hinc Hd H|clk k k' l1 l2 rf rf' Hk Hi H|clk k l1 l2 rf rf' votes' Hk Hi Hinc H
    |k l1 l2 Hk]|i inc clk rf rf' Hi Hinc Hr H].
  - destruct (Safe_at _ _ _ _ _ HS Hi) as [F Hat].
    destruct (Inv_local _ _ _ _ _ _ HI Hi (label_local _ _ _ Hl)) as (V' & Hc & HI').
    eapply Safe_frame; [done|done|done|exact HI'|by eapply effect_local|]. by left.
  - destruct (Safe_at _ _ _ _ _ HS Hi) as [F Hat].
    destruct (Inv_election _ _ _ _ inc _ _ _ _ _ HI Hi H) as (V' & Hc & HI').
    assert (node_ok n V' i rf') as Hok' by by eapply new_node_ok.
    eapply Safe_frame; [done|done|done|exact HI'|by eapply effect_election|].
    intros G' k HP [?|Hin]%elem_of_app; [by left|right].
    apply list_elem_of_fmap in Hin as ([s a] & -> & Hin). by apply HP.
  - destruct (Safe_at _ _ _ _ _ HS Hi) as [F Hat].
    destruct (Inv_heartbeat _ _ _ _ inc _ _ _ _ _ HI Hi H) as (V' & Hc & HI').
    eapply Safe_frame; [done|done|done|exact HI'|eapply effect_still; [done|done|by eapply still_heartbeat]|].
    intros G' k -> [?|Hin]%elem_of_app; [by left|right].
    apply list_elem_of_fmap in Hin as ([s a] & -> & Hin).
    apply heartbeat_wf in H as (_ & _ & Hl & Ht & _); [|apply Hat]. rewrite Forall_forall in Ht.
    destruct (Ht _ Hin) as [_ Hhb]. eapply (heartbeat_safe n G i inc s); [done| |done].
    apply Hl. intros ->. by apply not_elem_of_nil in Hin.
  - destruct (Safe_at _ _ _ _ _ HS Hi) as [F Hat].
    destruct (Inv_replicate _ _ _ _ inc _ _ _ HI Hi H) as (V' & Hc & HI').
    eapply (Safe_frame None n G c _ i rf rf); [done|done|simpl; by rewrite list_insert_id|exact HI'
      |eapply effect_still; [done|done|apply still_refl]|].
    intros G' k -> [?| ->%list_elem_of_singleton]%elem_of_app; [by left|right].
    by eapply (replicate_safe n G).
  - destruct (Safe_at _ _ _ _ _ HS Hi) as [F Hat]. pose proof (Safe_call _ _ _ _ _ _ HS Hk) as Hks.
    destruct (Inv_deliver _ _ _ _ _ _ _ _ _ _ HI Hk Hi H) as (V' & Hc & HI').
    assert (node_ok n V' (call_dst k) rf') as Hok' by by eapply new_node_ok.
    assert (call_ok c (gV G) k) as Hck.
    { pose proof (inv_calls _ _ _ HI) as Hco. rewrite Hk in Hco. by apply Forall_app in Hco as [_ [? _]%Forall_cons]. }
    eapply Safe_frame; [done|done|done|exact HI'|by eapply effect_handle|].
    intros G' k0 HP. rewrite Hk. simpl. rewrite !elem_of_app, !elem_of_cons. intros [?|[->|?]]; auto.
  - destruct (Safe_at _ _ _ _ _ HS Hi) as [F Hat]. pose proof (Safe_call _ _ _ _ _ _ HS Hk) as Hks.
    destruct (Inv_reply _ _ _ _ _ _ _ _ _ _ HI Hk Hi H) as (V' & Hc & HI').
    assert (node_ok n V' (call_src k) rf') as Hok' by by eapply new_node_ok.
    eapply Safe_frame; [done|done|done|exact HI'|by eapply effect_handle_reply|].
    intros G' k0 _. rewrite Hk. simpl. rewrite !elem_of_app, !elem_of_cons. intros [?|?]; auto.
  - exists G. split; [apply ghost_grows_refl|]. split; [apply births_same|]. destruct HS as [_ HG HN HC].
    constructor; [by eapply Inv_drop|done|done|]. simpl. rewrite Hk in HC. apply Forall_app in HC as [? [_ ?]%Forall_cons].
    by apply Forall_app.
  - destruct (Safe_at _ _ _ _ _ HS Hi) as [F Hat].
    destruct (Inv_restart L _ _ _ _ inc _ _ _ HI Hi Hr H) as (V' & Hc & HI').
    assert (me rf = i) as Hme by apply (an_ok _ _ _ _ _ Hat).
    eapply Safe_frame; [done|done|done|exact HI'|eapply effect_still; [done|done|]|by left].
    eapply (still_Make L clk); [apply Hat|done|by rewrite Hme].
Qed.

Lemma Safe_step (L : GobLogLaws) n G c c' :
  Safe n G c -> cluster_step c c' -> exists G', grows G G' /\ Safe n G' c'.
Proof.
  intros HS [l Hl]%cluster_has_label. destruct (Safe_births L n G c c' l HS Hl) as (G' & ? & _ & ?). eauto.
Qed.

Lemma ghost_grows_trans G1 G2 G3 : grows G1 G2 -> grows G2 G3 -> grows G1 G3.
Proof. intros [H1 H2] [H3 H4]. split; [by eapply logs_grow_trans|]. intros v t k H. auto. Qed.

Lemma Safe_run (L : GobLogLaws) n c c' :
  cluster_run c c' -> forall G, Safe n G c -> exists G', grows G G' /\ Safe n G' c'.
Proof.
  induction 1 as [x|x y z Hs _ IH]; intros G HS.
  - exists G. split; [apply ghost_grows_refl|done].
  - destruct (Safe_step L n G x y HS Hs) as (G1 & Hg1 & HS1). destruct (IH G1 HS1) as (G2 & Hg2 & HS2).
    exists G2. split; [by eapply ghost_grows_trans|done].
Qed.

Definition ghost_init : ghost := mkGhost ∅ ∅ ∅ ∅ ∅.

Lemma ghost_init_ok n : ghost_ok n ghost_init.
Proof.
  constructor; simpl; try (intros *; rewrite lookup_empty; done).
  constructor; simpl; intros *; rewrite lookup_empty; done.
Qed.

Lemma Safe_init n c : cluster_init n c -> Safe n ghost_init c.
Proof.
  intros Hinit. pose proof (Inv_init _ _ Hinit) as HI. destruct Hinit as (Hlen & _ & _ & Hc & Hn).
  constructor; [done|apply ghost_init_ok| |by rewrite Hc].
  intros i rf Hi. exists []. pose proof (Hn _ _ Hi) as [clk Hm].
  apply Make_fresh in Hm as (Hh & _ & enc & _ & ->). constructor; simpl; try done; try lia.
  - intros t k [->|(a & Ha & _)]; [lia|]. by rewrite lookup_empty in Ha.
  - apply covered_0.
Qed.

(** ** The theorems *)

Lemma reachable_safe (L : GobLogLaws) n c0 c :
  cluster_init n c0 -> cluster_run c0 c -> exists G, Safe n G c.
Proof. intros H0 Hr. destruct (Safe_run L n _ _ Hr _ (Safe_init _ _ H0)) as (G & _ & HS). eauto. Qed.

Lemma at_entry n G i rf F k :
  at_node n G i rf F -> (lastIncludedIndex rf < k)%Z -> entry_at rf k = F !! (Z.to_nat k - 1).
Proof. intros [_ HN _ [Hwf _]] Hk. apply shape_entry; [done|apply HN|done]. Qed.

(** What a node has committed, as far as it still holds it, is covered. *)
Lemma committed_entry n G i rf F k e :
  at_node n G i rf F -> entry_at rf k = Some e -> (lastIncludedIndex rf < k <= commitIndex rf)%Z ->
  F !! (Z.to_nat k - 1) = Some e /\ covered n G (currentTerm rf) (Z.to_nat k) F.
Proof.
  intros Hat He Hk. rewrite (at_entry _ _ _ _ _ _ Hat) in He by lia. split; [done|].
  eapply covered_le; [apply Hat|lia|lia].
Qed.

(** C13. Log matching: in every reachable state of the cluster, if the logs of two
    nodes have entries of the same term at some index, the logs hold the same
    entries up to that index, as far as both still have them. *)
Theorem log_matching (L : GobLogLaws) n c0 c i j rfi rfj index t :
  cluster_init n c0 -> cluster_run c0 c ->
  cl_nodes c !! i = Some rfi -> cl_nodes c !! j = Some rfj ->
  termAtLocked rfi index = Some t -> termAtLocked rfj index = Some t ->
  forall k, (k <= index)%Z -> (lastIncludedIndex rfi < k)%Z -> (lastIncludedIndex rfj < k)%Z ->
    entry_at rfi k = entry_at rfj k.
Proof.
  intros H0 Hr Hi Hj Hti Htj k Hk Hki Hkj. destruct (reachable_safe L n c0 c H0 Hr) as [G HS].
  destruct (Safe_at _ _ _ _ _ HS Hi) as [Fi Hai]. destruct (Safe_at _ _ _ _ _ HS Hj) as [Fj Haj].
  rewrite (at_entry _ _ _ _ _ _ Hai), (at_entry _ _ _ _ _ _ Haj) by done.
  pose proof Hai as [_ HNi _ [Hwfi _]]. pose proof Haj as [_ HNj _ [Hwfj _]].
  rewrite (shape_term _ _ _ Hwfi (ns_shape _ _ _ _ _ HNi)) in Hti by lia.
  rewrite (shape_term _ _ _ Hwfj (ns_shape _ _ _ _ _ HNj)) in Htj by lia.
  pose proof (wf_index _ Hwfi). apply (take_lookup _ (Z.to_nat index)); [lia|].
  eapply coherent_agree; [apply HNi|apply HNj|done|done].
Qed.

(** C8. Leader completeness: an entry that some node knows to be committed is, at
    that moment and ever after, in the log of every leader of a term at least the
    node's, unless the leader's snapshot already covers it. *)
Theorem leader_completeness (L : GobLogLaws) n c0 c1 c2 i j rf1 rf2 k e :
  cluster_init n c0 -> cluster_run c0 c1 -> cluster_run c1 c2 ->
  cl_nodes c1 !! i = Some rf1 -> cl_nodes c2 !! j = Some rf2 ->
  entry_at rf1 k = Some e -> (lastIncludedIndex rf1 < k <= commitIndex rf1)%Z ->
  state rf2 = Leader -> (currentTerm rf1 <= currentTerm rf2)%Z ->
  (k <= lastIncludedIndex rf2)%Z \/ entry_at rf2 k = Some e.
Proof.
  intros H0 Hr1 Hr2 Hi Hj He Hk Hl Ht. destruct (reachable_safe L n c0 c1 H0 Hr1) as [G1 HS1].
  destruct (Safe_run L n _ _ Hr2 _ HS1) as (G2 & [Hg HA] & HS2).
  destruct (Safe_at _ _ _ _ _ HS1 Hi) as [F1 Ha1]. destruct (Safe_at _ _ _ _ _ HS2 Hj) as [F2 Ha2].
  destruct (Z.le_gt_cases k (lastIncludedIndex rf2)); [by left|right].
  destruct (committed_entry _ _ _ _ _ _ _ Ha1 He Hk) as [He1 Hc]. apply (covered_grow _ _ _ _ _ _ Hg HA) in Hc.
  rewrite (at_entry _ _ _ _ _ _ Ha2) by lia. pose proof Ha2 as [HG2 HN2 _ _].
  destruct (leader_log _ _ _ _ _ HN2 Hl) as [HL HF2]. destruct (covered_leader _ _ _ _ _ _ HG2 Hc Ht HL) as [Htk _].
  rewrite HF2 in Htk. rewrite <- He1. symmetry. pose proof (wf_index _ (proj1 (an_wf _ _ _ _ _ Ha1))).
  eapply take_lookup; [|exact Htk]. lia.
Qed.

(** An entry beyond the boundary is held. *)
Lemma entry_held rf k e : (lastIncludedIndex rf < k)%Z -> entry_at rf k = Some e -> e ∈ held rf.
Proof.
  intros Hk He. rewrite entry_at_lookup in He by lia. unfold held. apply (list_elem_of_lookup_2 _ (Z.to_nat (k - lastIncludedIndex rf) - 1)).
  rewrite lookup_tail. by replace (S (Z.to_nat (k - lastIncludedIndex rf) - 1)) with (Z.to_nat (k - lastIncludedIndex rf)) by lia.
Qed.

(** A command the applier sends is a committed entry of the log. *)
Lemma sent_command n G i rf F rf' act m :
  at_node n G i rf F -> applier rf = Some (rf', act) -> m ∈ sent act -> am_CommandValid m = true ->
  exists k e, F !! k = Some e /\ m = command_msg (Z.of_nat (S k)) e /\ e ∈ held rf /\
    covered n G (currentTerm rf) (S k) F.
Proof.
  intros Hat H Hm Hv. pose proof Hat as [_ HN _ Hwf]. pose proof Hwf as [Hwf0 _].
  pose proof (wf_index _ Hwf0). pose proof (wf_commit _ Hwf0).
  apply applier_pass in H as [[_ Hs]|[(m' & Hp & Hs & _)|(_ & _ & Hlt & _ & _ & Hlen & Hms)]]; [| | |done].
  - rewrite Hs in Hm. by apply not_elem_of_nil in Hm.
  - rewrite Hs in Hm. apply list_elem_of_singleton in Hm as ->. apply (wf_pending_snap _ Hwf0) in Hp. congruence.
  - apply list_elem_of_lookup in Hm as [j Hj]. destruct (Hms _ _ Hj) as (e & He & ->).
    apply lookup_lt_Some in Hj. assert (e ∈ held rf) as Hheld by (eapply entry_held; [|exact He]; lia).
    rewrite (at_entry _ _ _ _ _ _ Hat) in He by lia.
    exists (Z.to_nat (lastApplied rf + 1 + Z.of_nat j) - 1), e. split_and!; [done|f_equal; lia|done|].
    eapply covered_le; [apply HN|lia|lia].
Qed.

(** C6. State machine safety: whatever two nodes hand to their services, at
    whatever two moments of a run, with crashes, restarts and snapshots in
    between, the commands they deliver for the same index are the same. *)
Theorem state_machine_safety (L : GobLogLaws) n c0 c1 c2 i j rf1 rf2 rf1' rf2' act1 act2 m1 m2 :
  cluster_init n c0 -> cluster_run c0 c1 -> cluster_run c1 c2 ->
  cl_nodes c1 !! i = Some rf1 -> applier rf1 = Some (rf1', act1) -> m1 ∈ sent act1 ->
  cl_nodes c2 !! j = Some rf2 -> applier rf2 = Some (rf2', act2) -> m2 ∈ sent act2 ->
  am_CommandValid m1 = true -> am_CommandValid m2 = true ->
  am_CommandIndex m1 = am_CommandIndex m2 -> am_Command m1 = am_Command m2.
Proof.
  intros H0 Hr1 Hr2 Hi Happ1 Hm1 Hj Happ2 Hm2 Hv1 Hv2 Hidx.
  destruct (reachable_safe L n c0 c1 H0 Hr1) as [G1 HS1]. destruct (Safe_run L n _ _ Hr2 _ HS1) as (G2 & [Hg HA] & HS2).
  destruct (Safe_at _ _ _ _ _ HS1 Hi) as [F1 Ha1]. destruct (Safe_at _ _ _ _ _ HS2 Hj) as [F2 Ha2].
  destruct (sent_command _ _ _ _ _ _ _ _ Ha1 Happ1 Hm1 Hv1) as (k1 & e1 & He1 & -> & _ & Hc1).
  destruct (sent_command _ _ _ _ _ _ _ _ Ha2 Happ2 Hm2 Hv2) as (k2 & e2 & He2 & -> & _ & Hc2).
  apply (covered_grow _ _ _ _ _ _ Hg HA) in Hc1. cbn [am_CommandIndex am_Command command_msg] in *.
  assert (k2 = k1) as -> by lia.
  assert (take (S k1) F1 = take (S k1) F2) as Htk by (eapply covered_agree; [apply Ha2|done|done]).
  apply (take_lookup k1) in Htk; [|lia]. congruence.
Qed.

End RaftSafe.
