(* ===== verification/RaftSafeSim.v ===== *)
(** * Log safety at concrete runs

    The schedule of [RaftSim] goes on: the leader of term 1 commits a command with
    node 1, node 1 learns of it, and then wins term 2.  The theorems of [RaftSafe]
    are applied to the states on the way. *)

From S2P Require Import Prelude.
From S2P Require Import Raft.
From S2P Require Import RaftRPC.
From S2P Require Import RaftCluster.
From S2P Require Import RaftSim.
From S2P Require Import RaftProps.
From S2P Require Import RaftApply.
From S2P Require Import RaftSafe.

(** Node 0 has committed the command; node 1 has, too; node 1 leads term 2. *)
Definition cluster_commit : Cluster := after
  [EDrop 0; EStart 0 (Some 7); EReplicate 0 1; EDeliver (at_ms 803) 0; EReply (at_ms 804) 0] cluster1.
Definition cluster_follow : Cluster := after [EReplicate 0 1; EDeliver (at_ms 805) 0] cluster_commit.
Definition cluster_next : Cluster := after
  [EElection (at_ms 3000) 1; EDeliver (at_ms 3001) 1; EReply (at_ms 3002) 1] cluster_follow.

Lemma run_commit : cluster_run cluster0 cluster_commit.
Proof. etrans; [apply run01|apply after_run]. Qed.

Lemma run_follow : cluster_run cluster_commit cluster_follow.
Proof. apply after_run. Qed.

Lemma run_0_follow : cluster_run cluster0 cluster_follow.
Proof. etrans; [apply run_commit|apply run_follow]. Qed.

Lemma run_next : cluster_run cluster_commit cluster_next.
Proof. etrans; [apply run_follow|apply after_run]. Qed.

Definition entry_view (e : LogEntry) : Z * option nat := (le_Term e, le_Command e).

Definition msg_view (m : ApplyMsg) : bool * Z * option nat := (am_CommandValid m, am_CommandIndex m, am_Command m).

Definition sends (rf : Raft) : option (list (bool * Z * option nat)) :=
  (fun r => msg_view <$> sent r.2) <$> applier rf.

(** What an example looks at in node [i]: role and term, commit index and snapshot
    boundary, the term and the entry at index 1, and the commands it would deliver. *)
Definition look (c : Cluster) (i : nat) :
    option (Role * Z * Z * Z * option Z * option (Z * option nat) * option (list (bool * Z * option nat))) :=
  (fun rf => (state rf, currentTerm rf, commitIndex rf, lastIncludedIndex rf, termAtLocked rf 1,
     entry_view <$> entry_at rf 1, sends rf))
    <$> cl_nodes c !! i.

Lemma look_node c i s t ci li lt e ms :
  look c i = Some (s, t, ci, li, lt, e, ms) ->
  exists rf, cl_nodes c !! i = Some rf /\ state rf = s /\ currentTerm rf = t /\ commitIndex rf = ci /\
    lastIncludedIndex rf = li /\ termAtLocked rf 1 = lt /\ entry_view <$> entry_at rf 1 = e /\
    sends rf = ms.
Proof. unfold look. intros (rf & -> & Hi)%fmap_Some. simplify_eq. exists rf. done. Qed.

Lemma entry_of (o : option LogEntry) t command :
  entry_view <$> o = Some (t, command) -> o = Some (mkLogEntry t command).
Proof. intros ([] & -> & [= -> ->])%fmap_Some. done. Qed.

(** The one message of the applier. *)
Lemma applier_one rf v x command :
  sends rf = Some [(v, x, command)] ->
  exists rf' act m, applier rf = Some (rf', act) /\ m ∈ sent act /\ am_CommandValid m = v /\
    am_CommandIndex m = x /\ am_Command m = command.
Proof.
  intros ([rf' act] & H & Hs)%fmap_Some. simpl in Hs. symmetry in Hs.
  destruct (sent act) as [|m [|]] eqn:E; try done. simpl in Hs. injection Hs as <- <- <-.
  exists rf', act, m. rewrite E. split_and!; try done. left.
Qed.

Lemma at_commit : exists rf, cl_nodes cluster_commit !! 0 = Some rf /\ commitIndex rf = 1%Z /\
  currentTerm rf = 1%Z /\ lastIncludedIndex rf = 0%Z /\ entry_at rf 1 = Some (mkLogEntry 1 (Some 7)) /\
  exists rf' act m, applier rf = Some (rf', act) /\ m ∈ sent act /\ am_CommandValid m = true /\
    am_CommandIndex m = 1%Z /\ am_Command m = Some 7.
Proof.
  edestruct (look_node cluster_commit 0) as (rf & Hi & _ & Ht & Hc & Hli & _ & He & Ha); [vm_compute; reflexivity|].
  exists rf. split_and!; auto; [by apply entry_of|by apply applier_one].
Qed.

Lemma at_follow : exists rf, cl_nodes cluster_follow !! 1 = Some rf /\
  lastIncludedIndex rf = 0%Z /\ termAtLocked rf 1 = Some 1%Z /\
  exists rf' act m, applier rf = Some (rf', act) /\ m ∈ sent act /\ am_CommandValid m = true /\
    am_CommandIndex m = 1%Z /\ am_Command m = Some 7.
Proof.
  edestruct (look_node cluster_follow 1) as (rf & Hi & _ & _ & _ & Hli & Hti & _ & Ha); [vm_compute; reflexivity|].
  exists rf. split_and!; auto. by apply applier_one.
Qed.

Lemma at_next : exists rf, cl_nodes cluster_next !! 1 = Some rf /\
  state rf = Leader /\ currentTerm rf = 2%Z /\ lastIncludedIndex rf = 0%Z.
Proof.
  edestruct (look_node cluster_next 1) as (rf & Hi & Hs & Ht & _ & Hli & _); [vm_compute; reflexivity|].
  exists rf. split_and!; auto.
Qed.

Lemma at_follow_0 : exists rf, cl_nodes cluster_follow !! 0 = Some rf /\
  lastIncludedIndex rf = 0%Z /\ termAtLocked rf 1 = Some 1%Z.
Proof.
  edestruct (look_node cluster_follow 0) as (rf & Hi & _ & _ & _ & Hli & Hti & _); [vm_compute; reflexivity|].
  exists rf. split_and!; auto.
Qed.

#[local] Opaque cluster0 cluster_commit cluster_follow cluster_next.

Lemma log_matching_witness : exists rfi rfj : Raft,
  cl_nodes cluster_follow !! 0 = Some rfi /\ cl_nodes cluster_follow !! 1 = Some rfj /\
  entry_at rfi 1 = entry_at rfj 1.
Proof.
  destruct at_follow_0 as (rfi & Hi & Hli & Hti). destruct at_follow as (rfj & Hj & Hlj & Htj & _).
  exists rfi, rfj. split; [exact Hi|]. split; [exact Hj|].
  apply (log_matching BitLog_laws 3 cluster0 cluster_follow 0 1 rfi rfj 1 1 cluster0_init
    run_0_follow Hi Hj Hti Htj); lia.
Defined.

Lemma leader_completeness_witness : exists rf : Raft,
  cl_nodes cluster_next !! 1 = Some rf /\ currentTerm rf = 2%Z /\
  entry_at rf 1 = Some (mkLogEntry 1 (Some 7)).
Proof.
  destruct at_commit as (rf1 & Hi & Hc & Ht1 & Hl1 & He & _). destruct at_next as (rf2 & Hj & Hs & Ht2 & Hl2).
  exists rf2. split; [exact Hj|]. split; [exact Ht2|].
  destruct (leader_completeness BitLog_laws 3 cluster0 cluster_commit cluster_next 0 1 rf1 rf2 1
    _ cluster0_init run_commit run_next Hi Hj He) as [H|H]; [lia|exact Hs|lia|lia|exact H].
Defined.

Lemma state_machine_safety_witness : exists rf1 rf2 rf1' rf2' act1 act2 m1 m2,
  cl_nodes cluster_commit !! 0 = Some rf1 /\ applier rf1 = Some (rf1', act1) /\ m1 ∈ sent act1 /\
  cl_nodes cluster_follow !! 1 = Some rf2 /\ applier rf2 = Some (rf2', act2) /\ m2 ∈ sent act2 /\
  am_CommandIndex m1 = 1%Z /\ am_Command m1 = am_Command m2.
Proof.
  destruct at_commit as (rf1 & Hi & _ & _ & _ & _ & rf1' & act1 & m1 & Ha1 & Hm1 & Hv1 & Hx1 & _).
  destruct at_follow as (rf2 & Hj & _ & _ & rf2' & act2 & m2 & Ha2 & Hm2 & Hv2 & Hx2 & _).
  exists rf1, rf2, rf1', rf2', act1, act2, m1, m2. do 7 (split; [assumption|]).
  apply (state_machine_safety BitLog_laws 3 cluster0 cluster_commit cluster_follow 0 1 rf1 rf2 rf1' rf2' act1 act2
    m1 m2 cluster0_init run_commit run_follow Hi Ha1 Hm1 Hj Ha2 Hm2 Hv1 Hv2). congruence.
Defined.
