(* ===== verification/RaftTotal.v ===== *)
(** * No Raft handler panics

    Every critical section of a well-formed node returns: its slice accesses are
    in range, its caches have the right length and every stored log can be
    encoded, provided gob can encode the commands it is given. *)

From S2P Require Import Prelude.
From S2P Require Import Persister.
From S2P Require Import Raft.
From S2P Require Import RaftRPC.
From S2P Require Import RaftFacts.
From S2P Require Import RaftPersist.
From S2P Require Import RaftProps.
From S2P Require Import RaftCluster.

Section RaftTotal.
Context {GL : GobLog}.

Definition encodable (e : LogEntry) : Prop := is_Some (encodeLogEntry e).

Lemma encodable_mapM l : Forall encodable l -> is_Some (mapM encodeLogEntry l).
Proof. intros H. by apply mapM_is_Some. Qed.

Lemma wf_encodable rf : wf0 rf -> Forall encodable (logs rf).
Proof. intros H. apply (mapM_is_Some encodeLogEntry). rewrite (wf_enc _ H). eauto. Qed.

Lemma appendLogs_total es rf : Forall encodable es -> is_Some (appendLogs es rf).
Proof. intros [enc He]%encodable_mapM. unfold appendLogs. rewrite He. simpl. eauto. Qed.

Lemma replaceLogs_total l rf : Forall encodable l -> is_Some (replaceLogs l rf).
Proof.
  intros [enc He]%encodable_mapM. unfold replaceLogs, rebuildEncodedLogs. simpl. rewrite He. simpl. eauto.
Qed.

Lemma slice_from_total {A} (l : list A) off : (0 <= off <= zlen l)%Z -> is_Some (slice_from l off).
Proof. intros H. unfold slice_from. rewrite decide_True by done. eauto. Qed.

Lemma truncateLogs_total rf n :
  wf0 rf -> (0 <= n <= zlen (logs rf))%Z -> is_Some (truncateLogs n rf).
Proof.
  intros Hwf Hn. unfold truncateLogs, slice_to.
  assert (zlen (encodedLogs rf) = zlen (logs rf)) as -> by (unfold zlen; by rewrite (wf_lengths _ Hwf)).
  rewrite !decide_True by done. simpl. eauto.
Qed.

Lemma persist_total rf : wf0 rf -> is_Some (persist rf).
Proof. intros H. apply persist_is_Some, wf_lengths, H. Qed.

Lemma becomeFollowerLocked_total t rf : wf rf -> is_Some (becomeFollowerLocked t rf).
Proof. intros [H _]. apply becomeFollowerLocked_is_Some, wf_lengths, H. Qed.

Lemma stepDown_total clk t rf : wf rf -> is_Some (stepDown clk t rf).
Proof. intros H. unfold stepDown. destruct (becomeFollowerLocked_total t rf H) as [x ->]. simpl. eauto. Qed.

(** ** The RPC handlers *)

Lemma mergeEntries_total entries : forall i rf,
  wf0 rf -> (lastIncludedIndex rf < i)%Z -> Forall encodable entries -> is_Some (mergeEntries i entries rf).
Proof.
  induction entries as [|e es IH]; intros i rf Hwf Hi Henc; simpl; [eauto|].
  pose proof Henc as [_ Hes]%Forall_cons.
  destruct (Z.leb_spec i (lastLogIndexLocked rf)) as [Hle|Hgt].
  - destruct (termAtLocked rf i); [|apply IH; auto; lia]. case_decide; [|apply IH; auto; lia].
    destruct (truncateLogs_total rf (toOffsetLocked rf i)) as [rf1 H1]; [done| |].
    { unfold toOffsetLocked, lastLogIndexLocked in *. lia. }
    rewrite H1. simpl. destruct (appendLogs_total (e :: es) rf1 Henc) as [rf2 ->]. simpl. eauto.
  - destruct (appendLogs_total (e :: es) rf Henc) as [rf2 ->]. simpl. eauto.
Qed.

Lemma AppendEntries_total clk args rf :
  wf rf -> Forall encodable (ae_Entries args) -> is_Some (AppendEntries clk args rf).
Proof.
  intros Hwf Henc. unfold AppendEntries. destruct (killed rf); [eauto|]. destruct (_ <? _)%Z; [eauto|].
  destruct (becomeFollowerLocked_total (ae_Term args) rf Hwf) as [rf0 Hb]. rewrite Hb. cbn [mbind option_bind].
  apply becomeFollowerLocked_wf in Hb as (Hwf0 & _); [|done].
  apply (wf_deadline clk) in Hwf0. set (rf1 := resetElectionDeadlineLocked clk rf0) in *. clearbody rf1.
  destruct (_ <? _)%Z; [eauto|].
  destruct (Z.ltb_spec (ae_PrevLogIndex args) (firstLogIndexLocked rf1)) as [|Hlo]; [eauto|].
  destruct (termAtLocked rf1 (ae_PrevLogIndex args)) as [pt|] eqn:Hpt; [|eauto].
  case_decide; [eauto|]. unfold firstLogIndexLocked in *.
  destruct (proj1 (termAtLocked_is_Some rf1 (ae_PrevLogIndex args))) as [_ Hhi]; [eauto|].
  destruct (mergeEntries_total (ae_Entries args) (ae_PrevLogIndex args + 1) rf1) as [[rf2 ch] Hm];
    [apply Hwf0|lia|done|].
  rewrite Hm. simpl. destruct ch; simpl; [|eauto].
  apply mergeEntries_spec in Hm as (Hlo2 & Henc2 & _); [|lia..|apply Hwf0].
  destruct (persist_is_Some rf2) as [rf3 ->]; [|simpl; eauto].
  symmetry. apply (Forall2_length _ _ _ (mapM_Some_1 _ _ _ Henc2)).
Qed.

Lemma RequestVote_total clk args rf : wf rf -> is_Some (RequestVote clk args rf).
Proof.
  intros Hwf. unfold RequestVote.
  destruct (lastLogTermLocked_is_Some rf (wf_logs _ (proj1 Hwf))) as [lt ->]. simpl.
  destruct (killed rf); [eauto|]. destruct (_ <? _)%Z; [eauto|].
  assert (exists rf1, (if (currentTerm rf <? rv_Term args)%Z
           then becomeFollowerLocked (rv_Term args) rf else Some rf) = Some rf1 /\ wf rf1) as (rf1 & -> & Hwf1).
  { destruct (_ <? _)%Z; [|eauto].
    destruct (becomeFollowerLocked_total (rv_Term args) rf Hwf) as [rf0 Hb]. exists rf0. split; [done|].
    by apply becomeFollowerLocked_wf in Hb as (? & _). }
  simpl. destruct (_ && _); [|eauto]. destruct Hwf1 as [[] _].
  match goal with |- context [persist ?r] => destruct (persist_total r) as [rf2 ->] end; [wf_fields|simpl; eauto].
Qed.

Lemma InstallSnapshot_total clk args rf :
  wf rf -> encodable (mkLogEntry (is_LastIncludedTerm args) None) -> is_Some (InstallSnapshot clk args rf).
Proof.
  intros Hwf Henc. unfold InstallSnapshot. destruct (killed rf); [eauto|]. destruct (_ <? _)%Z; [eauto|].
  destruct (becomeFollowerLocked_total (is_Term args) rf Hwf) as [rf0 Hb]. rewrite Hb. cbn [mbind option_bind].
  apply becomeFollowerLocked_wf in Hb as (Hwf0 & _); [|done].
  apply (wf_deadline clk) in Hwf0. set (rf1 := resetElectionDeadlineLocked clk rf0) in *. clearbody rf1.
  destruct (_ <=? _)%Z; [eauto|]. unfold install_snapshot.
  assert (exists suffix, match termAtLocked rf1 (is_LastIncludedIndex args) with
      | Some localTerm => if decide (localTerm = is_LastIncludedTerm args)
          then slice_from (logs rf1) (toOffsetLocked rf1 (is_LastIncludedIndex args) + 1) else Some []
      | None => Some [] end = Some suffix /\ Forall encodable suffix) as (suffix & -> & Hsuf).
  { destruct (termAtLocked rf1 (is_LastIncludedIndex args)) eqn:Ht; [|by exists []].
    case_decide; [|by exists []].
    destruct (proj1 (termAtLocked_is_Some rf1 (is_LastIncludedIndex args))) as [Hlo Hhi]; [eauto|].
    destruct (slice_from_total (logs rf1) (toOffsetLocked rf1 (is_LastIncludedIndex args) + 1)) as [s Hs].
    { unfold toOffsetLocked, lastLogIndexLocked in *. lia. }
    exists s. split; [done|]. unfold slice_from in Hs. case_decide; [|done]. injection Hs as <-.
    apply Forall_drop, wf_encodable, Hwf0. }
  simpl. match goal with |- context [replaceLogs ?l ?r] =>
    destruct (replaceLogs_total l r) as [rf2 Hr] end; [by constructor|].
  rewrite Hr. simpl. apply replaceLogs_Some in Hr as (enc & Hen & ->).
  match goal with |- context [persist ?r] => destruct (persist_is_Some r) as [rf3 ->] end; [|simpl; eauto].
  simpl. symmetry. apply (Forall2_length _ _ _ (mapM_Some_1 _ _ _ Hen)).
Qed.

(** What gob must be able to encode for a request to be handled. *)
Definition call_encodable (k : call) : Prop :=
  match k with
  | CVote _ _ _ _ _ => True
  | CAppend _ _ _ _ args _ => Forall encodable (ae_Entries args)
  | CSnap _ _ _ args _ => encodable (mkLogEntry (is_LastIncludedTerm args) None)
  end.

Definition unanswered (k : call) : Prop :=
  match k with CVote _ _ _ _ r => r = None | CAppend _ _ _ _ _ r => r = None | CSnap _ _ _ _ r => r = None end.

(** No RPC handler panics: whatever its arguments, and in every state a node
    can be in between two critical sections, the handler runs to its reply. *)
Lemma handlers_total clk k rf :
  wf rf -> call_encodable k -> unanswered k -> is_Some (handle clk k rf).
Proof.
  intros Hwf He Hu. destruct k as [src inc dst args r|src inc dst hb args r|src inc dst args r];
    simpl in *; subst r.
  - destruct (RequestVote_total clk args rf Hwf) as [[rf' r] ->]. simpl. eauto.
  - destruct (AppendEntries_total clk args rf Hwf He) as [[rf' r] ->]. simpl. eauto.
  - destruct (InstallSnapshot_total clk args rf Hwf He) as [[rf' r] ->]. simpl. eauto.
Qed.

(** ** The leader's sections *)

Lemma becomeLeaderLocked_total rf : wf0 rf -> is_Some (becomeLeaderLocked rf).
Proof.
  intros Hwf. pose proof (wf_me _ Hwf). unfold becomeLeaderLocked.
  assert (forall (x : Z), length (replicate (peers rf) x) = peers rf) as Hlen by (intros; apply length_replicate).
  case_decide; simpl; rewrite !slice_set_is_Some by (by rewrite Hlen); simpl; eauto.
Qed.

Lemma replicatedCount_total rf n : wf0 rf -> state rf = Leader -> is_Some (replicatedCount rf n).
Proof. intros. rewrite replicatedCount_wf by done. eauto. Qed.

Lemma advanceLoop_total rf k : wf0 rf -> state rf = Leader -> is_Some (advanceLoop rf k).
Proof.
  intros Hwf Hl. induction k as [|k IH]; [simpl; eauto|]. cbn [advanceLoop].
  destruct (termAtLocked rf _); [|done]. case_decide; [done|].
  rewrite replicatedCount_wf by done. simpl. case_decide; eauto.
Qed.

Lemma advanceCommitIndexLocked_total rf : wf0 rf -> is_Some (advanceCommitIndexLocked rf).
Proof.
  intros Hwf. unfold advanceCommitIndexLocked.
  destruct (decide (state rf <> Leader)) as [|Hl]; [eauto|].
  apply advanceLoop_total; [done|]. by apply dec_stable in Hl.
Qed.

Lemma leader_slot rf peer :
  wf0 rf -> state rf = Leader -> peer < peers rf ->
  is_Some (nextIndex rf !! peer) /\ is_Some (matchIndex rf !! peer).
Proof.
  intros Hwf Hl Hp. destruct (wf_leader _ Hwf Hl) as [Hn Hm].
  rewrite !lookup_lt_is_Some, Hn, Hm. done.
Qed.

Lemma replicate_request_total peer rf :
  wf rf -> peer < peers rf -> is_Some (replicate_request peer rf).
Proof.
  intros [Hwf _] Hp. unfold replicate_request. destruct (killed rf || _) eqn:E; [eauto|].
  apply orb_false_iff in E as [_ E]. apply bool_decide_eq_false, dec_stable in E.
  destruct (leader_slot rf peer Hwf E Hp) as [[next Hn] _]. rewrite Hn. simpl.
  destruct (Z.leb_spec next (lastIncludedIndex rf)); [eauto|].
  destruct (termAtLocked rf (next - 1)) eqn:Ht; [|eauto].
  destruct (proj1 (termAtLocked_is_Some rf (next - 1))) as [_ Hhi]; [eauto|].
  destruct (slice_from_total (logs rf) (toOffsetLocked rf next)) as [es ->]; [|simpl; eauto].
  unfold toOffsetLocked, lastLogIndexLocked in *. lia.
Qed.

Lemma replicate_append_reply_total clk peer args reply rf :
  wf rf -> peer < peers rf -> is_Some (replicate_append_reply clk peer args reply rf).
Proof.
  intros Hwf Hp. unfold replicate_append_reply. destruct (_ || _); [eauto|].
  destruct (_ <? _)%Z.
  { destruct (stepDown_total clk (aer_Term reply) rf Hwf) as [x ->]. simpl. eauto. }
  destruct (bool_decide _ || _) eqn:E; [eauto|].
  apply orb_false_iff in E as [E _]. apply bool_decide_eq_false, dec_stable in E.
  destruct Hwf as [Hwf Hst]. destruct (leader_slot rf peer Hwf E Hp) as [[next Hn] [m Hm]].
  destruct (wf_leader _ Hwf E) as [Hln Hlm].
  destruct (aer_Success reply).
  - unfold replicate_append_ok. rewrite Hm. simpl. rewrite slice_set_is_Some by lia. simpl.
    rewrite Hn. simpl. rewrite slice_set_is_Some by lia. simpl.
    match goal with |- context [if ?b then advanceCommitIndexLocked ?r else _] =>
      assert (exists x, (if b then advanceCommitIndexLocked r else Some (r, false)) = Some x) as [[rf2 adv] Hx]
    end; [|rewrite Hx; simpl; eauto].
    destruct (_ <? _)%Z; [|eauto]. apply advanceCommitIndexLocked_total.
    pose proof (Forall_lookup_1 _ _ _ _ (wf_next _ Hwf) Hn) as Hx1.
    pose proof (Forall_lookup_1 _ _ _ _ (wf_match _ Hwf) Hm) as Hm1. simpl in *.
    destruct Hwf. wf_fields; rewrite ?length_insert; auto.
    + apply Forall_insert; [done|]. destruct (Z.ltb_spec next (ae_PrevLogIndex args + zlen (ae_Entries args) + 1)); lia.
    + apply Forall_insert; [done|]. destruct (Z.ltb_spec m (ae_PrevLogIndex args + zlen (ae_Entries args))); lia.
  - rewrite Hn. simpl. case_decide; [eauto|]. rewrite Hm. simpl.
    rewrite slice_set_is_Some by lia. simpl. eauto.
Qed.

Lemma startElection_total clk rf : wf rf -> is_Some (startElection clk rf).
Proof.
  intros [Hwf Hs]. unfold startElection. destruct (_ || _); [eauto|].
  match goal with |- context [persist ?r] => assert (wf0 r) as Hwf1 by (destruct Hwf; wf_fields);
    destruct (persist_total r Hwf1) as [rf1 Hp] end.
  rewrite Hp. simpl. apply persist_wf in Hp as [[Hwf2 _] _]; [|done].
  destruct (lastLogTermLocked_is_Some rf1 (wf_logs _ Hwf2)) as [lt ->]. simpl.
  case_decide; [|eauto].
  match goal with |- context [becomeLeaderLocked ?r] => destruct (becomeLeaderLocked_total r) as [rf3 ->] end;
    [|simpl; eauto].
  destruct Hwf2; wf_fields.
Qed.

Lemma election_reply_total clk term votes reply rf : wf rf -> is_Some (election_reply clk term votes reply rf).
Proof.
  intros Hwf. unfold election_reply. destruct (killed rf); [eauto|]. destruct (_ <? _)%Z.
  { destruct (stepDown_total clk (rvr_Term reply) rf Hwf) as [x ->]. simpl. eauto. }
  destruct (_ || _); [eauto|]. destruct (negb _); [eauto|]. case_decide; [|eauto].
  destruct (becomeLeaderLocked_total rf (proj1 Hwf)) as [x ->]. simpl. eauto.
Qed.

Lemma replicate_snapshot_reply_total clk peer args reply rf :
  wf rf -> peer < peers rf -> is_Some (replicate_snapshot_reply clk peer args reply rf).
Proof.
  intros Hwf Hp. unfold replicate_snapshot_reply. destruct (_ || _); [eauto|]. destruct (_ <? _)%Z.
  { destruct (stepDown_total clk (isr_Term reply) rf Hwf) as [x ->]. simpl. eauto. }
  destruct (bool_decide _ || _) eqn:E; [eauto|].
  apply orb_false_iff in E as [E _]. apply bool_decide_eq_false, dec_stable in E.
  destruct Hwf as [Hwf _]. destruct (leader_slot rf peer Hwf E Hp) as [[next Hn] [m Hm]].
  destruct (wf_leader _ Hwf E) as [Hln Hlm].
  rewrite Hm. simpl. rewrite slice_set_is_Some by lia. simpl. rewrite Hn. simpl.
  rewrite slice_set_is_Some by lia. simpl. eauto.
Qed.

Lemma independent_heartbeat_reply_total clk reply rf :
  wf rf -> is_Some (independent_heartbeat_reply clk reply rf).
Proof.
  intros Hwf. unfold independent_heartbeat_reply. destruct (killed rf); [eauto|].
  destruct (_ <? _)%Z; [|eauto]. by apply stepDown_total.
Qed.

Definition answered (k : call) : Prop :=
  match k with
  | CVote _ _ _ _ r => is_Some r | CAppend _ _ _ _ _ r => is_Some r | CSnap _ _ _ _ r => is_Some r
  end.

(** No reply handler panics: the caller of an RPC treats every reply, late or stale
    ones included. *)
Lemma replies_total clk k votes rf :
  wf rf -> answered k -> call_dst k < peers rf ->
  (forall src inc dst args r, k = CVote src inc dst args r -> is_Some (votes !! (src, rv_Term args))) ->
  is_Some (handle_reply clk k votes rf).
Proof.
  intros Hwf Ha Hd Hv.
  destruct k as [src inc dst args r|src inc dst hb args r|src inc dst args r];
    simpl in *; destruct Ha as [r' ->].
  - destruct (Hv src inc dst args _ eq_refl) as [v ->]. simpl.
    destruct (election_reply_total clk (rv_Term args) v r' rf Hwf) as [[[rf' v'] w] ->]. simpl. eauto.
  - destruct hb.
    + destruct (independent_heartbeat_reply_total clk r' rf Hwf) as [x ->]. simpl. eauto.
    + destruct (replicate_append_reply_total clk dst args r' rf Hwf Hd) as [[x y] ->]. simpl. eauto.
  - destruct (replicate_snapshot_reply_total clk dst args r' rf Hwf Hd) as [[x y] ->]. simpl. eauto.
Qed.

(** ** Heartbeats, workers, commands and snapshots *)

Lemma heartbeatLoop_total time ps : forall rf,
  wf rf -> Forall (fun p => p < peers rf) ps -> is_Some (heartbeatLoop time ps rf).
Proof.
  induction ps as [|p ps IH]; intros rf Hwf Hps; simpl; [eauto|]. apply Forall_cons in Hps as [Hp Hps].
  pose proof (proj1 Hwf) as Hwf0.
  destruct (lookup_lt_is_Some_2 (replicateBusy rf) p) as [busy ->]; [by rewrite (wf_busy _ Hwf0)|]. simpl.
  destruct (negb busy); [by apply IH; [apply notify_wf|]|].
  destruct (lastLogTermLocked_is_Some rf (wf_logs _ Hwf0)) as [lt ->]. simpl.
  destruct (lookup_lt_is_Some_2 (lastRescueSent rf) p) as [last ->]; [by rewrite (wf_rescue _ Hwf0)|]. simpl.
  destruct (_ <=? _)%Z.
  - match goal with |- context [heartbeatLoop time ps ?r] => destruct (IH r) as [[[rf' tasks] rescue] ->] end; [|done|simpl; eauto].
    destruct Hwf as [[] Hs]. split; [wf_fields; by rewrite length_insert|exact Hs].
  - destruct (IH rf Hwf Hps) as [[[rf' tasks] rescue] ->]. simpl. eauto.
Qed.

Lemma heartbeatOrNotifyReplication_total time rf : wf rf -> is_Some (heartbeatOrNotifyReplication time rf).
Proof.
  intros Hwf. unfold heartbeatOrNotifyReplication. destruct (_ || _); [eauto|]. apply heartbeatLoop_total; [done|].
  apply Forall_forall. intros p Hp. by apply other_peers_spec in Hp as [_ ?].
Qed.

Lemma workers_total peer rf : wf rf -> peer < peers rf -> is_Some (worker_begin peer rf) /\ is_Some (worker_end peer rf).
Proof.
  intros [Hwf _] Hp. unfold worker_begin, worker_end. split.
  - destruct (lookup_lt_is_Some_2 (replicateNotify rf) peer) as [b ->]; [by rewrite (wf_notify _ Hwf)|]. simpl.
    destruct (negb b); [eauto|]. simpl. destruct (dead rf); [eauto|]. rewrite slice_set_is_Some by (simpl; by rewrite (wf_busy _ Hwf)). simpl. eauto.
  - rewrite slice_set_is_Some by by rewrite (wf_busy _ Hwf). simpl. eauto.
Qed.

Lemma Start_total command rf :
  wf rf -> encodable (mkLogEntry (currentTerm rf) command) -> is_Some (Start command rf).
Proof.
  intros [Hwf Hst] He. unfold Start. destruct (killed rf || _) eqn:E; [eauto|].
  apply orb_false_iff in E as [_ E]. apply bool_decide_eq_false, dec_stable in E.
  destruct (appendLogs_total [mkLogEntry (currentTerm rf) command] rf) as [rf1 H1]; [by constructor|]. rewrite H1. simpl.
  apply appendLogs_Some in H1 as (enc & Henc & ->).
  match goal with |- context [persist ?r] => assert (wf0 r) as Hwf1; [|destruct (persist_total r Hwf1) as [rf2 H2]; rewrite H2] end.
  { eapply logs_only_wf0; [exact Hwf|done|apply mapM_encode_app; [apply Hwf|done]|].
    simpl. pose proof (wf_logs _ Hwf). by destruct (logs rf). }
  simpl. pose proof (persist_Some _ _ H2) as Hrf2. apply persist_wf in H2 as [[Hwf2 _] _]; [|done].
  destruct (wf_leader _ Hwf E) as [Hln Hlm]. pose proof (wf_me _ Hwf) as Hme.
  assert (me rf2 = me rf /\ matchIndex rf2 = matchIndex rf /\ nextIndex rf2 = nextIndex rf) as (Em & Emi & Eni) by by rewrite Hrf2.
  rewrite (slice_set_is_Some (matchIndex rf2)) by (rewrite Em, Emi; lia). simpl.
  rewrite (slice_set_is_Some (nextIndex rf2)) by (rewrite Em, Eni; lia). simpl.
  case_decide; [|simpl; eauto].
  pose proof (wf_last _ Hwf) as Hlast. pose proof (wf_index _ Hwf) as Hix.
  match goal with |- context [advanceCommitIndexLocked ?r] => destruct (advanceCommitIndexLocked_total r) as [[rf4 b] ->] end; [|simpl; eauto].
  destruct Hwf2. wf_fields; rewrite ?length_insert; auto; apply Forall_insert; auto; lia.
Qed.

Lemma Snapshot_total index data rf : wf rf -> (forall t, encodable (mkLogEntry t None)) -> is_Some (Snapshot index data rf).
Proof.
  intros [Hwf Hst] He. unfold Snapshot. destruct (killed rf); [eauto|].
  destruct (Z.leb_spec index (lastIncludedIndex rf)); [eauto|]. destruct (_ || _) eqn:E; [eauto|]. zbool.
  unfold lastLogIndexLocked in *.
  destruct (proj2 (zlookup_is_Some (logs rf) (index - lastIncludedIndex rf))) as [bd Hbd]; [lia|]. rewrite Hbd. simpl.
  destruct (slice_from_total (logs rf) (index - lastIncludedIndex rf + 1)) as [tl Htl]; [lia|]. rewrite Htl. simpl.
  assert (Forall encodable (mkLogEntry (le_Term bd) None :: tl)) as Henc.
  { constructor; [apply He|]. unfold slice_from in Htl. case_decide; [|done]. injection Htl as <-. apply Forall_drop, wf_encodable, Hwf. }
  match goal with |- context [replaceLogs ?l ?r] => destruct (replaceLogs_total l r Henc) as [rf1 Hrep]; rewrite Hrep end. simpl.
  apply replaceLogs_Some in Hrep as (enc & Hen & ->). apply persist_is_Some. simpl. symmetry. apply (Forall2_length _ _ _ (mapM_Some_1 _ _ _ Hen)).
Qed.

(** C32. A node does not panic: in every state it can be in between two critical
    sections, the handler of every RPC runs to its reply, whatever the arguments; the
    caller treats every reply, late or stale ones included; the sections that send
    requests always return, the start of an election, the heartbeats and the replication
    with its workers; and so do [Start] of a command that can be encoded and, if entries
    without a command can be, [Snapshot]. *)
Theorem sections_total clk k votes time rf :
  wf rf -> call_encodable k -> call_dst k < peers rf ->
  (forall src inc dst args r, k = CVote src inc dst args r -> is_Some (votes !! (src, rv_Term args))) ->
  (unanswered k -> is_Some (handle clk k rf)) /\ (answered k -> is_Some (handle_reply clk k votes rf)) /\
  is_Some (startElection clk rf) /\ is_Some (replicate_request (call_dst k) rf) /\
  is_Some (heartbeatOrNotifyReplication time rf) /\
  is_Some (worker_begin (call_dst k) rf) /\ is_Some (worker_end (call_dst k) rf) /\
  (forall command, encodable (mkLogEntry (currentTerm rf) command) -> is_Some (Start command rf)) /\
  ((forall t, encodable (mkLogEntry t None)) -> forall index data, is_Some (Snapshot index data rf)).
Proof.
  intros Hwf He Hd Hv. destruct (workers_total _ _ Hwf Hd). split_and!; try done.
  - by apply handlers_total.
  - intros Ha. by apply replies_total.
  - by apply startElection_total.
  - by apply replicate_request_total.
  - by apply heartbeatOrNotifyReplication_total.
  - intros command Hc. by apply Start_total.
  - intros Hn index data. by apply Snapshot_total.
Qed.

(** ** Stable storage *)

(** C17. The persisted state round-trips: the bytes [persist] writes for a
    well-formed node decode to its durable fields; the same bytes with anything
    appended are a panic; and no strict prefix of them is ever taken for a state. *)
Theorem persist_codec (L : GobLogLaws) rf base :
  wf rf -> hard_in_range rf ->
  readCachedPersist (raftState rf) base = Some (Some (restored rf base)) /\
  (forall extra, extra <> [] -> readCachedPersist (raftState rf ++ extra) base = None) /\
  (forall data, data `prefix_of` raftState rf -> data <> raftState rf ->
     readCachedPersist data base = None \/ readCachedPersist data base = Some None).
Proof.
  intros [Hwf _] Hr. pose proof (encoded_entries_encoded L _ _ (wf_enc _ Hwf)) as He.
  split_and!.
  - apply readCachedPersist_intact; auto. apply Hwf.
  - intros extra Hx. rewrite readCachedPersist_raftState by (auto; apply Hwf). by rewrite decide_False.
  - intros data Hp Hne. apply (readCachedPersist_truncated rf); auto. apply Hwf.
Qed.

(** C18. Restarting: [Make] on the disk of a well-formed node returns, and the new
    incarnation has the term, vote, log, snapshot boundary and snapshot of the old
    one, as a follower that is committed and applied up to its snapshot. *)
Theorem restart_recovers (L : GobLogLaws) clk rf :
  wf rf -> hard_in_range rf -> encodable (mkLogEntry 0 None) ->
  exists rf', Make clk (peers rf) (me rf) (persister rf) = Some rf' /\
    wf rf' /\ hard rf' = hard rf /\ snapshot rf' = snapshot rf /\ state rf' = Follower /\
    commitIndex rf' = lastIncludedIndex rf /\ lastApplied rf' = lastIncludedIndex rf /\
    killed rf' = false.
Proof.
  intros Hwf Hr [e0 He0].
  assert (is_Some (Make clk (peers rf) (me rf) (persister rf))) as [rf' Hm].
  { unfold Make, rebuildEncodedLogs. cbn [logs mapM]. simpl. rewrite He0. simpl.
    unfold readPersist, ReadRaftState, clone.
    destruct Hwf as [Hwf [Hs|(Hs & _)]]; rewrite Hs; cbn [ps_raftstate]; [|simpl; eauto].
    rewrite decide_False.
    - rewrite readCachedPersist_intact; [simpl; eauto|done|apply Hwf|].
      by apply encoded_entries_encoded, Hwf.
    - rewrite raftState_header, length_app. pose proof (header_length rf) as Hh.
      change persistHeaderSize with 44%Z in Hh. unfold zlen in Hh. lia. }
  exists rf'. split; [done|].
  apply Make_recovers in Hm as (? & ? & ? & _ & _ & _ & ? & ? & ? & ? & _); auto.
  by split_and!.
Qed.

End RaftTotal.
