(* ===== verification/RaftWitness.v ===== *)
(** * The Raft theorems at concrete nodes

    For each theorem about a single node, a state of the schedule of [RaftSim] in
    which its hypotheses hold. *)

From S2P Require Import Prelude.
From S2P Require Import Persister.
From S2P Require Import Raft.
From S2P Require Import RaftRPC.
From S2P Require Import RaftFacts.
From S2P Require Import RaftPersist.
From S2P Require Import RaftCluster.
From S2P Require Import RaftSim.
From S2P Require Import RaftProps.
From S2P Require Import RaftApply.
From S2P Require Import RaftTotal.
From Stdlib Require Import Strings.Byte.

Definition no_node : Raft :=
  mkRaft 0 0 false 0 0 [] [] [] [] Follower 0 0 0 [] [] [] 0 0 [] None MakePersister.

Definition node (c : Cluster) (i : nat) : Raft := default no_node (cl_nodes c !! i).

Lemma node_wf c i :
  cluster_run cluster0 c -> bool_decide (is_Some (cl_nodes c !! i)) = true ->
  wf (node c i) /\ peers (node c i) = 3.
Proof.
  intros Hr Hb%bool_decide_eq_true. unfold node. destruct (cl_nodes c !! i) as [rf|] eqn:E; simpl.
  - by apply (reachable_wf BitLog_laws 3 cluster0 c i rf cluster0_init Hr).
  - by destruct Hb.
Qed.

Lemma node_wf_1 : wf (node cluster1 1).
Proof. apply node_wf; [apply run01|vm_compute; reflexivity]. Qed.

Lemma node_wf_0 : wf (node cluster1 0).
Proof. apply node_wf; [apply run01|vm_compute; reflexivity]. Qed.

Lemma node_wf_2 : wf (node cluster2 0).
Proof. apply node_wf; [apply run02|vm_compute; reflexivity]. Qed.

#[local] Opaque cluster0 cluster1 cluster2 cluster3.

(** ** AppendEntries *)

Definition ex_append (prev prevTerm : Z) : AppendEntriesArgs :=
  mkAppendEntriesArgs 1 0 prev prevTerm [mkLogEntry 1 (Some 7)] 1.

Lemma AppendEntries_success_witness : exists rf' r,
  AppendEntries (at_ms 900) (ex_append 0 0) (node cluster1 1) = Some (rf', r) /\
  aer_Success r = true /\ termAtLocked rf' 1 = Some 1%Z /\ commitIndex rf' = 1%Z.
Proof.
  assert ((fun x => aer_Success x.2) <$> AppendEntries (at_ms 900) (ex_append 0 0) (node cluster1 1) = Some true)
    as ([rf' r] & H & Hs)%fmap_Some by (vm_compute; reflexivity).
  pose proof (AppendEntries_success _ _ _ _ _ node_wf_1 H (eq_sym Hs))
    as (_ & _ & _ & _ & _ & Hhas & _ & _ & Hc).
  exists rf', r. split; [exact H|]. split; [exact (eq_sym Hs)|].
  split; [exact (Hhas 0 _ eq_refl)|]. rewrite Hc. vm_compute. reflexivity.
Defined.

Lemma AppendEntries_reject_witness : exists rf' r,
  AppendEntries (at_ms 900) (ex_append 5 1) (node cluster1 1) = Some (rf', r) /\
  aer_Success r = false /\ same_log (node cluster1 1) rf'.
Proof.
  assert ((fun x => aer_Success x.2) <$> AppendEntries (at_ms 900) (ex_append 5 1) (node cluster1 1) = Some false)
    as ([rf' r] & H & Hs)%fmap_Some by (vm_compute; reflexivity).
  assert (killed (node cluster1 1) = false) as Hk by (vm_compute; reflexivity).
  assert ((currentTerm (node cluster1 1) <=? 1)%Z = true) as Ht%Z.leb_le by (vm_compute; reflexivity).
  pose proof (AppendEntries_reject (at_ms 900) (ex_append 5 1) _ rf' r node_wf_1 Hk Ht H (eq_sym Hs)) as (Hl & _).
  exists rf', r. split; [exact H|]. split; [exact (eq_sym Hs)|exact Hl].
Defined.

(** ** RequestVote *)

Lemma RequestVote_rule_witness : exists rf' r,
  RequestVote (at_ms 900) (mkRequestVoteArgs 2 2 0 0) (node cluster1 1) = Some (rf', r) /\
  rvr_VoteGranted r = true /\ killed (node cluster1 1) = false.
Proof.
  assert ((fun x => rvr_VoteGranted x.2) <$> RequestVote (at_ms 900) (mkRequestVoteArgs 2 2 0 0) (node cluster1 1)
    = Some true) as ([rf' r] & H & Hs)%fmap_Some by (vm_compute; reflexivity).
  pose proof (RequestVote_rule _ _ _ _ _ node_wf_1 H) as (([Hg _] & _) & _).
  exists rf', r. split; [exact H|]. split; [exact (eq_sym Hs)|]. apply Hg. exact (eq_sym Hs).
Defined.

(** ** Committing *)

(** The leader of [cluster2], before it applied and, with [commit = 0], before
    it advanced its commit index. *)
Definition unapplied (commit : Z) : Raft :=
  set_commitIndex commit (set_lastApplied 0 (node cluster2 0)).

Definition no_pending (rf : Raft) : bool :=
  match pendingSnapshot rf with None => true | Some _ => false end.

Lemma no_pending_spec rf : no_pending rf = true -> pendingSnapshot rf = None.
Proof. unfold no_pending. by destruct (pendingSnapshot rf). Qed.

Lemma unapply_wf rf commit :
  wf rf -> lastIncludedIndex rf = 0%Z -> no_pending rf = true -> (0 <= commit)%Z ->
  wf (set_commitIndex commit (set_lastApplied 0 rf)).
Proof.
  intros [[] Hst] Hi Hp%no_pending_spec Hc. split; [|exact Hst].
  constructor; simpl; rewrite ?Hi, ?Hp; auto; try done; lia.
Qed.

Lemma unapplied_wf commit : (0 <= commit)%Z -> wf (unapplied commit).
Proof.
  intros Hc. apply unapply_wf; [apply node_wf_2|vm_compute; reflexivity|vm_compute; reflexivity|exact Hc].
Qed.

Definition ex_leader : Raft := unapplied 0.

Lemma advanceCommitIndex_rule_witness : exists rf' b,
  advanceCommitIndexLocked ex_leader = Some (rf', b) /\ b = true /\ commitIndex rf' = 1%Z /\
  committable ex_leader (commitIndex rf').
Proof.
  assert ((fun x => (x.2, commitIndex x.1)) <$> advanceCommitIndexLocked ex_leader = Some (true, 1%Z))
    as ([rf' b] & H & Hs)%fmap_Some by (vm_compute; reflexivity).
  simpl in Hs. injection Hs as Hb Hc.
  pose proof (unapplied_wf 0 ltac:(lia)) as Hwf.
  assert (state ex_leader = Leader) as Hl by (vm_compute; reflexivity).
  pose proof (advanceCommitIndex_rule _ _ _ Hwf Hl H) as [(_ & _ & Hcm & _)|(Hf & _)]; [|congruence].
  exists rf', b. split; [exact H|]. split; [congruence|]. split; [congruence|exact Hcm].
Defined.

(** ** Snapshots *)

Lemma snapshot_rules_witness : exists rf' rf'' r,
  Snapshot 1 [x01] (node cluster2 0) = Some rf' /\ compacted_at 1 (node cluster2 0) rf' /\
  InstallSnapshot (at_ms 900) (mkInstallSnapshotArgs 1 0 4 1 [x01]) (node cluster1 1) = Some (rf'', r) /\
  lastLogIndexLocked rf'' = 4%Z /\ commitIndex rf'' = 4%Z.
Proof.
  assert ((fun x => lastIncludedIndex x) <$> Snapshot 1 [x01] (node cluster2 0) = Some 1%Z)
    as (rf' & H & Hs)%fmap_Some by (vm_compute; reflexivity).
  assert ((fun x => lastLogIndexLocked x.1) <$>
    InstallSnapshot (at_ms 900) (mkInstallSnapshotArgs 1 0 4 1 [x01]) (node cluster1 1) = Some 4%Z)
    as ([rf'' r] & H' & Hs')%fmap_Some by (vm_compute; reflexivity).
  assert (killed (node cluster1 1) = false) as Hk by (vm_compute; reflexivity).
  assert ((currentTerm (node cluster1 1) <=? 1)%Z = true) as Ht%Z.leb_le by (vm_compute; reflexivity).
  pose proof (proj1 (snapshot_rules _ node_wf_2) _ _ _ H) as [Hc _].
  pose proof (proj2 (snapshot_rules _ node_wf_1) _ (mkInstallSnapshotArgs 1 0 4 1 [x01]) _ _ Hk Ht H') as [Hr _].
  exists rf', rf'', r. split; [exact H|]. split; [|split; [exact H'|split; [exact (eq_sym Hs')|]]].
  - destruct Hc as [(_ & Hc & _)|(_ & He)]; [exact Hc|exfalso].
    assert (lastIncludedIndex (node cluster2 0) = 0%Z) as Hi by (vm_compute; reflexivity).
    rewrite He, Hi in Hs. lia.
  - destruct Hr as (_ & _ & _ & _ & Hr). assert (commitIndex (node cluster1 1) = 0%Z) as Hc0 by (vm_compute; reflexivity).
    cbn zeta in Hr. rewrite Hc0 in Hr. exact (proj1 (proj2 (proj2 Hr))).
Defined.

(** ** The applier *)

Lemma applier_in_order_witness : exists rf' act,
  applier (unapplied 1) = Some (rf', act) /\ length (sent act) = 1 /\
  exists pos, in_order 0 (sent act) pos.
Proof.
  assert ((fun x => length (sent x.2)) <$> applier (unapplied 1) = Some 1)
    as ([rf' act] & H & Hs)%fmap_Some by (vm_compute; reflexivity).
  assert (pendingSnapshot (unapplied 1) = None) as Hp by (apply no_pending_spec; vm_compute; reflexivity).
  pose proof (applier_in_order _ rf' ([] ++ sent act) (unapplied_wf 1 ltac:(lia)) Hp
    (run_step _ _ _ _ _ (run_nil _) (NApplier _ _ _ H))) as (pos & Ho & _).
  exists rf', act. split; [exact H|]. split; [exact (eq_sym Hs)|]. exists pos. exact Ho.
Defined.

(** ** No panics *)

Lemma sections_total_witness :
  is_Some (handle (at_ms 900) (CAppend 0 0 1 false (ex_append 0 0) None) (node cluster1 1)) /\
  is_Some (replicate_request 1 (node cluster1 0)) /\
  is_Some (heartbeatOrNotifyReplication (900 * 1000000) (node cluster1 0)) /\
  is_Some (Start (Some 7) (node cluster1 0)).
Proof.
  assert (forall r, call_encodable (CAppend 0 0 1 false (ex_append 0 0) r)) as He.
  { constructor; [|constructor]. unfold encodable. eexists. vm_compute. reflexivity. }
  split.
  - apply (sections_total (at_ms 900) (CAppend 0 0 1 false (ex_append 0 0) None) ∅ 0);
      [apply node_wf_1|apply He|vm_compute; lia|discriminate|reflexivity].
  - destruct (sections_total (at_ms 900)
      (CAppend 0 0 1 false (ex_append 0 0) (Some (mkAppendEntriesReply 1 true false (-1) 0))) ∅ (900 * 1000000) (node cluster1 0))
      as (_ & _ & _ & Hr & Hh & _ & _ & Hs & _);
      [apply node_wf_0|apply He|vm_compute; lia|discriminate|].
    split; [exact Hr|]. split; [exact Hh|]. apply Hs. eexists. vm_compute. reflexivity.
Defined.

(** ** Stable storage *)

Lemma in_range_2 : hard_in_range (node cluster2 0).
Proof. apply hard_in_rangeb_spec. vm_compute. reflexivity. Qed.

Lemma persist_codec_witness :
  readCachedPersist (raftState (node cluster2 0)) no_node =
    Some (Some (restored (node cluster2 0) no_node)) /\
  readCachedPersist (raftState (node cluster2 0) ++ [x00]) no_node = None.
Proof.
  destruct (persist_codec BitLog_laws (node cluster2 0) no_node node_wf_2 in_range_2) as (H1 & H2 & _).
  split; [exact H1|]. apply H2. discriminate.
Defined.

Lemma restart_recovers_witness : exists rf',
  Make (at_ms 900) (peers (node cluster2 0)) (me (node cluster2 0)) (persister (node cluster2 0)) = Some rf' /\
  hard rf' = hard (node cluster2 0).
Proof.
  assert (encodable (mkLogEntry 0 None)) as He by (eexists; vm_compute; reflexivity).
  destruct (restart_recovers BitLog_laws (at_ms 900) (node cluster2 0) node_wf_2 in_range_2 He)
    as (rf' & H & _ & Hh & _).
  exists rf'. split; [exact H|exact Hh].
Defined.
