(* ===== verification/Rsm.v ===== *)
(** * The replicated state machine layer ([kvraft1/rsm/rsm.go])

    [StateMachine] is the interface a service implements ([DoOp], [Snapshot],
    [Restore]).  [RSM] carries the waiters of the [Submit] calls in progress and
    applies the messages Raft delivers.  The theorems say that a replica's state
    is the replay of the log however often it is caught up by snapshots, that an
    answered [Submit] reports the execution of its own operation, and that no
    wake-up is lost. *)

From S2P Require Import Prelude.
From S2P Require Import Rpc.
From S2P Require Import Persister.
From S2P Require Import Raft.
From S2P Require Import RaftApply.

(** ** The service interface

    Requests and replies are Go's [any]; a method that panics gives [None]. *)
Class StateMachine (St Req Rep : Type) := {
  sm_DoOp : Req -> St -> option (St * Rep);
  sm_Snapshot : St -> option bytes;
  sm_Restore : bytes -> St -> option St;
}.

(** What RSM relies on: a snapshot is not empty and restores the state it was
    taken of, whatever the state before. *)
Class StateMachineLaws (St Req Rep : Type) `{SM : StateMachine St Req Rep} : Prop := {
  sm_snapshot_nonempty s b : sm_Snapshot s = Some b -> b <> [];
  sm_restore_snapshot s b s0 : sm_Snapshot s = Some b -> sm_Restore b s0 = Some s;
}.

(** [Op] *)
Record Op (Req : Type) : Type := mkOp { op_Server : Z; op_Epoch : N; op_Sequence : N; op_Req : Req }.

Arguments mkOp {Req}.
Arguments op_Server {Req}.
Arguments op_Epoch {Req}.
Arguments op_Sequence {Req}.
Arguments op_Req {Req}.

(** [opID] *)
Abbreviation opID := (Z * N * N)%type.

Definition op_id {Req} (op : Op Req) : opID := (op_Server op, op_Epoch op, op_Sequence op).

Section Rsm.
Context {GL : GobLog}.
Context {St Req Rep : Type} `{SM : StateMachine St Req Rep}.

(** The type assertion [msg.Command.(Op)] on what the log stores. *)
Context (as_op : option Cmd -> option (Op Req)).

(** ** The state

    A waiter is a channel with one slot; [rs_chans] holds the slot of every
    channel, so that two entries may share one. *)
Record RSM : Type := mkRSM {
rs_me : Z;
rs_maxraftstate : Z;
rs_sm : St;
rs_epoch : N;
rs_nextSequence : N;
rs_waiters : gmap opID nat;
rs_chans : gmap nat (option Rep);
rs_done : bool;  (* closed when the applier returns *)
rs_raftDone : bool;  (* Raft was killed *)
}.

Definition set_sm (s : St) (r : RSM) : RSM :=
mkRSM (rs_me r) (rs_maxraftstate r) s (rs_epoch r) (rs_nextSequence r) (rs_waiters r) (rs_chans r)
  (rs_done r) (rs_raftDone r).

Definition set_waiters (w : gmap opID nat) (c : gmap nat (option Rep)) (r : RSM) : RSM :=
mkRSM (rs_me r) (rs_maxraftstate r) (rs_sm r) (rs_epoch r) (rs_nextSequence r) w c
  (rs_done r) (rs_raftDone r).

Definition set_done (d : bool) (r : RSM) : RSM :=
mkRSM (rs_me r) (rs_maxraftstate r) (rs_sm r) (rs_epoch r) (rs_nextSequence r) (rs_waiters r) (rs_chans r)
  d (rs_raftDone r).

(** [MakeRSM] on the snapshot of the persister; [epoch] is drawn at random. *)
Definition MakeRSM (me maxraftstate : Z) (epoch : N) (ps : Persister) (sm : St) : option RSM :=
let snapshot := ReadSnapshot ps in
sm' ← (if decide (0 < length snapshot) then sm_Restore snapshot sm else Some sm);
Some (mkRSM me maxraftstate sm' epoch 0 ∅ ∅ false false).

(** ** Submit

    The first critical section: the channel is registered under the identity of
    the new operation; [None] when the server is stopped (ErrWrongLeader). *)
Definition submit_register (req : Req) (r : RSM) : option (RSM * Op Req * nat) :=
if rs_done r || rs_raftDone r then None
else
  let sequence := u64_inc (rs_nextSequence r) in
  let op := mkOp (rs_me r) (rs_epoch r) sequence req in
  let waiter := fresh (dom (rs_chans r)) in
  Some (mkRSM (rs_me r) (rs_maxraftstate r) (rs_sm r) (rs_epoch r) sequence
          (<[op_id op := waiter]> (rs_waiters r)) (<[waiter := None]> (rs_chans r))
          (rs_done r) (rs_raftDone r), op, waiter).

Definition removeWaiter (id : opID) (waiter : nat) (r : RSM) : RSM :=
if decide (rs_waiters r !! id = Some waiter)
then set_waiters (delete id (rs_waiters r)) (rs_chans r) r else r.

(** What the [select] of the waiting loop may pick up. *)
Inductive wait_event : Type :=
| WaitResult
| WaitDeadline
| WaitRaftDone
| WaitTick (currentTerm : Z) (stillLeader : bool)
| WaitDone.

(** A receive that takes the buffered result, if there is one. *)
Definition receive (waiter : nat) (r : RSM) : option (RSM * Rep) :=
match rs_chans r !! waiter with
| Some (Some reply) => Some (set_waiters (rs_waiters r) (<[waiter := None]> (rs_chans r)) r, reply)
| _ => None
end.

(** Take the result if it is there already, else ErrWrongLeader. *)
Definition receive_or_fail (waiter : nat) (r : RSM) : RSM * (Err * option Rep) :=
match receive waiter r with
| Some (r', reply) => (r', (OK, Some reply))
| None => (r, (ErrWrongLeader, None))
end.

(** One turn of the loop, [term] being the term [Start] returned: [None] when the
    event cannot happen, [Some (r, None)] when the loop goes on. *)
Definition wait_step (term : Z) (waiter : nat) (ev : wait_event) (r : RSM)
    : option (RSM * option (Err * option Rep)) :=
match ev with
| WaitResult => '(r', reply) ← receive waiter r; Some (r', Some (OK, Some reply))
| WaitDeadline => let '(r', res) := receive_or_fail waiter r in Some (r', Some res)
| WaitRaftDone => if rs_raftDone r then Some (r, Some (ErrWrongLeader, None)) else None
| WaitTick currentTerm stillLeader =>
    if negb (currentTerm =? term)%Z || negb stillLeader
    then let '(r', res) := receive_or_fail waiter r in Some (r', Some res)
    else Some (r, None)
| WaitDone => if rs_done r then Some (r, Some (ErrWrongLeader, None)) else None
end.

(** ** The applier *)

(** [rf] is never nil in a running server; [persistBytes] is what
    [rf.PersistBytes()] returns. *)
Definition shouldSnapshot (persistBytes : Z) (r : RSM) : bool :=
(0 <=? rs_maxraftstate r)%Z && (rs_maxraftstate r <=? persistBytes)%Z.

(** A non-blocking send on the waiter of [id]. *)
Definition wake (id : opID) (reply : Rep) (r : RSM) : RSM :=
match rs_waiters r !! id with
| Some waiter =>
    match rs_chans r !! waiter with
    | Some None => set_waiters (rs_waiters r) (<[waiter := Some reply]> (rs_chans r)) r
    | _ => r
    end
| None => r
end.

(** One message: the new state, and the arguments of [rf.Snapshot] if it is
    called. *)
Definition rsm_apply (persistBytes : Z) (msg : ApplyMsg) (r : RSM) : option (RSM * option (Z * bytes)) :=
if am_SnapshotValid msg then
  if decide (0 < length (am_Snapshot msg)) then
    s ← sm_Restore (am_Snapshot msg) (rs_sm r);
    Some (set_sm s r, None)
  else Some (r, None)
else if negb (am_CommandValid msg) then Some (r, None)
else
  op ← as_op (am_Command msg);
  '(s, reply) ← sm_DoOp (op_Req op) (rs_sm r);
  let r1 := set_sm s r in
  up ← (if shouldSnapshot persistBytes r1
        then data ← sm_Snapshot s; Some (Some (am_CommandIndex msg, data))
        else Some None);
  Some (wake (op_id op) reply r1, up).

(** ** Replay

    [log] are the operations of the Raft log from index 1 on. *)

Fixpoint replay (log : list (Op Req)) (s : St) : option St :=
match log with
| [] => Some s
| op :: log' => '(s', _) ← sm_DoOp (op_Req op) s; replay log' s'
end.

Lemma replay_app l1 l2 s : replay (l1 ++ l2) s = (replay l1 s ≫= replay l2).
Proof.
  revert s. induction l1 as [|op l1 IH]; intros s; simpl; [done|].
  destruct (sm_DoOp (op_Req op) s) as [[s' r]|]; simpl; [apply IH|done].
Qed.

(** The state of the service after the first [i] operations. *)
Definition state_at (s0 : St) (log : list (Op Req)) (i : Z) (s : St) : Prop :=
(0 <= i)%Z /\ replay (take (Z.to_nat i) log) s0 = Some s.

(** A message agrees with the log: a command is the entry of its index, a
    snapshot is one of the state at its index. *)
Definition agrees (s0 : St) (log : list (Op Req)) (msg : ApplyMsg) : Prop :=
if am_SnapshotValid msg
then exists s, state_at s0 log (am_SnapshotIndex msg) s /\ sm_Snapshot s = Some (am_Snapshot msg)
else am_CommandValid msg = true -> exists op, as_op (am_Command msg) = Some op /\
       log !! Z.to_nat (am_CommandIndex msg - 1) = Some op.

(** The messages one after the other, collecting the calls of [rf.Snapshot]. *)
Fixpoint rsm_run (msgs : list (Z * ApplyMsg)) (r : RSM) : option (RSM * list (Z * bytes)) :=
match msgs with
| [] => Some (r, [])
| (pb, msg) :: msgs' =>
    '(r1, up) ← rsm_apply pb msg r;
    '(r2, ups) ← rsm_run msgs' r1;
    Some (r2, option_list up ++ ups)
end.

Lemma wake_sm id reply r : rs_sm (wake id reply r) = rs_sm r.
Proof.
  unfold wake. destruct (rs_waiters r !! id); [|done].
  destruct (rs_chans r !! _) as [[|]|]; done.
Qed.

Lemma rsm_apply_command pb msg r r' up s0 log pos :
  am_SnapshotValid msg = false -> am_CommandValid msg = true -> agrees s0 log msg ->
  am_CommandIndex msg = (pos + 1)%Z -> state_at s0 log pos (rs_sm r) ->
  rsm_apply pb msg r = Some (r', up) ->
  state_at s0 log (pos + 1) (rs_sm r') /\
  forall i data, up = Some (i, data) -> i = (pos + 1)%Z /\ sm_Snapshot (rs_sm r') = Some data.
Proof.
  intros Hs Hc Ha Hi [Hp Hst] H. unfold agrees in Ha. rewrite Hs in Ha.
  destruct (Ha Hc) as (op & Hop & Hl). unfold rsm_apply in H. rewrite Hs, Hc, Hop in H. simpl in H.
  apply bind_Some in H as ([s reply] & Hd & H). apply bind_Some in H as (u & Hu & H). injection H as <- <-.
  rewrite wake_sm. simpl. split.
  - split; [lia|]. rewrite Hi in Hl. replace (Z.to_nat (pos + 1)) with (S (Z.to_nat pos)) by lia.
    replace (Z.to_nat (pos + 1 - 1)) with (Z.to_nat pos) in Hl by lia.
    rewrite (take_S_r _ _ _ Hl), replay_app, Hst. simpl. by rewrite Hd.
  - intros i data ->. destruct (shouldSnapshot _ _); [|done].
    apply bind_Some in Hu as (d & Hdat & Hu). injection Hu as <- <-. auto.
Qed.

Lemma rsm_run_replay (L : StateMachineLaws St Req Rep) s0 log msgs : forall pos pos' r r' ups,
  in_order pos msgs.*2 pos' -> Forall (fun m => am_SnapshotValid m.2 = true -> am_CommandValid m.2 = false) msgs ->
  Forall (fun m => agrees s0 log m.2) msgs -> state_at s0 log pos (rs_sm r) ->
  rsm_run msgs r = Some (r', ups) ->
  state_at s0 log pos' (rs_sm r') /\
  Forall (fun u => exists s, state_at s0 log u.1 s /\ sm_Snapshot s = Some u.2) ups.
Proof.
  induction msgs as [|[pb m] msgs IH]; intros pos pos' r r' ups Ho Hx Ha Hst H; simpl in *.
  { injection H as <- <-. subst pos'. by split. }
  apply Forall_cons in Hx as [Hx Hxs]. apply Forall_cons in Ha as [Ha Has]. simpl in *.
  apply bind_Some in H as ([r1 up] & H1 & H). apply bind_Some in H as ([r2 ups2] & H2 & H).
  injection H as <- <-. destruct (am_CommandValid m) eqn:Hc.
  - destruct Ho as [Hi Ho]. destruct (am_SnapshotValid m) eqn:Hs; [by specialize (Hx eq_refl)|].
    eapply rsm_apply_command in H1 as [Hst1 Hup]; eauto.
    eapply IH in H2 as [? Hups]; eauto. split; [done|]. apply Forall_app. split; [|done].
    destruct up as [[i data]|]; simpl; [|constructor]. constructor; [|constructor].
    destruct (Hup i data eq_refl) as [-> ?]. simpl. eauto.
  - destruct Ho as (Hs & Hlt & Ho). unfold agrees in Ha. rewrite Hs in Ha.
    destruct Ha as (s & Hs1 & Hs2). unfold rsm_apply in H1. rewrite Hs in H1.
    rewrite decide_True in H1.
    2:{ pose proof (sm_snapshot_nonempty s _ Hs2). by destruct (am_Snapshot m); simpl; [|lia]. }
    rewrite (sm_restore_snapshot s _ (rs_sm r) Hs2) in H1. simpl in H1. injection H1 as <- <-.
    eapply IH in H2 as [? ?]; eauto.
Qed.

(** Replication by replay: a replica that starts from the snapshot of the log
    prefix [pos] (or from nothing) and applies any in-order stream of messages
    that agrees with the log, snapshots that jump ahead included, is afterwards in
    the state of replaying the log up to the last index; and every snapshot it
    hands to Raft is one of the log prefix of exactly the index it names. *)
Theorem replica_replay (L : StateMachineLaws St Req Rep) s0 log me max epoch ps pos pos' msgs r r' ups :
  (ReadSnapshot ps = [] /\ pos = 0%Z \/
   exists s, state_at s0 log pos s /\ sm_Snapshot s = Some (ReadSnapshot ps)) ->
  MakeRSM me max epoch ps s0 = Some r ->
  in_order pos msgs.*2 pos' -> Forall (fun m => am_SnapshotValid m.2 = true -> am_CommandValid m.2 = false) msgs ->
  Forall (fun m => agrees s0 log m.2) msgs ->
  rsm_run msgs r = Some (r', ups) ->
  state_at s0 log pos' (rs_sm r') /\
  Forall (fun u => exists s, state_at s0 log u.1 s /\ sm_Snapshot s = Some u.2) ups.
Proof.
  intros Hps Hm Ho Hx Ha H. eapply rsm_run_replay; eauto. unfold MakeRSM in Hm.
  apply bind_Some in Hm as (s' & Hs' & Hm). injection Hm as <-. simpl.
  destruct Hps as [[He ->]|(s & Hs & Hsn)].
  - rewrite He in Hs'. simpl in Hs'. injection Hs' as <-. split; [lia|done].
  - rewrite decide_True in Hs'.
    2:{ pose proof (sm_snapshot_nonempty s _ Hsn). by destruct (ReadSnapshot ps); simpl; [|lia]. }
    rewrite (sm_restore_snapshot s _ s0 Hsn) in Hs'. by injection Hs' as <-.
Qed.

(** ** Submit calls in progress

    A call in progress is identified by its channel; it has registered an
    operation, and knows the term once [Start] returned. *)
Abbreviation pending := (Op Req * option Z)%type.

(** The server, its calls in progress, the operations Raft accepted, the
    operations applied with their replies, and the results returned. *)
Record rworld : Type := mkRworld {
rw_rsm : RSM;
rw_pending : gmap nat pending;
rw_started : list (Op Req);
rw_applied : list (Op Req * Rep);
rw_results : list (Op Req * (Err * option Rep));
}.

(** The operation a message makes the applier execute, with its reply. *)
Definition executed (msg : ApplyMsg) (r : RSM) : list (Op Req * Rep) :=
if am_SnapshotValid msg || negb (am_CommandValid msg) then []
else match as_op (am_Command msg) with
     | Some op => match sm_DoOp (op_Req op) (rs_sm r) with Some (_, reply) => [(op, reply)] | None => [] end
     | None => []
     end.

(** An operation of this very process. *)
Definition own_op (r : RSM) (op : Op Req) : Prop := op_Server op = rs_me r /\ op_Epoch op = rs_epoch r.

Definition raft_done (r : RSM) : RSM :=
mkRSM (rs_me r) (rs_maxraftstate r) (rs_sm r) (rs_epoch r) (rs_nextSequence r) (rs_waiters r) (rs_chans r)
  (rs_done r) true.

(** [Start] is two steps: Raft accepts the operation, which can be applied from
    then on, and the call learns the term.  Raft applies no operation of this
    process that it did not accept from it. *)
Inductive rsm_step (w : rworld) : rworld -> Prop :=
| R_submit req r' op ch :
    (rs_nextSequence (rw_rsm w) + 1 < two64)%N ->
    submit_register req (rw_rsm w) = Some (r', op, ch) ->
    rsm_step w (mkRworld r' (<[ch := (op, None)]> (rw_pending w)) (rw_started w) (rw_applied w) (rw_results w))
| R_accept op ch :
    rw_pending w !! ch = Some (op, None) ->
    rsm_step w (mkRworld (rw_rsm w) (rw_pending w) (op :: rw_started w) (rw_applied w) (rw_results w))
| R_started op ch term :
    rw_pending w !! ch = Some (op, None) ->
    rsm_step w (mkRworld (rw_rsm w) (<[ch := (op, Some term)]> (rw_pending w)) (rw_started w)
      (rw_applied w) (rw_results w))
| R_not_leader op ch :
    rw_pending w !! ch = Some (op, None) ->
    rsm_step w (mkRworld (removeWaiter (op_id op) ch (rw_rsm w)) (delete ch (rw_pending w)) (rw_started w)
      (rw_applied w) (rw_results w ++ [(op, (ErrWrongLeader, None))]))
| R_return op ch term ev r' res :
    rw_pending w !! ch = Some (op, Some term) ->
    wait_step term ch ev (rw_rsm w) = Some (r', Some res) ->
    rsm_step w (mkRworld (removeWaiter (op_id op) ch r') (delete ch (rw_pending w)) (rw_started w)
      (rw_applied w) (rw_results w ++ [(op, res)]))
| R_apply pb msg r' up :
    (forall op reply, (op, reply) ∈ executed msg (rw_rsm w) -> own_op (rw_rsm w) op -> op ∈ rw_started w) ->
    rsm_apply pb msg (rw_rsm w) = Some (r', up) ->
    rsm_step w (mkRworld r' (rw_pending w) (rw_started w)
      (rw_applied w ++ executed msg (rw_rsm w)) (rw_results w))
| R_raft_done :
    rsm_step w (mkRworld (raft_done (rw_rsm w)) (rw_pending w) (rw_started w) (rw_applied w) (rw_results w))
| R_done : rs_raftDone (rw_rsm w) = true ->
    rsm_step w (mkRworld (set_done true (rw_rsm w)) (rw_pending w) (rw_started w) (rw_applied w) (rw_results w)).

(** A turn of the waiting loop that goes on changes nothing. *)
Lemma wait_step_again term ch ev r r' : wait_step term ch ev r = Some (r', None) -> r' = r.
Proof.
  destruct ev as [| | |t b|]; simpl; intros H.
  - by apply bind_Some in H as ([? ?] & ? & ?).
  - by destruct (receive_or_fail ch r).
  - by destruct (rs_raftDone r).
  - destruct (_ || _); [by destruct (receive_or_fail ch r)|by injection H].
  - by destruct (rs_done r).
Qed.

(** A server right after [MakeRSM]. *)
Definition rsm_init (w : rworld) : Prop :=
rs_nextSequence (rw_rsm w) = 0%N /\ rs_waiters (rw_rsm w) = ∅ /\ rs_chans (rw_rsm w) = ∅ /\
rw_pending w = ∅ /\ rw_started w = [] /\ rw_applied w = [] /\ rw_results w = [].

(** The slot of a call: it holds a reply of its own operation exactly when that
    operation has been applied. *)
Definition slot_ok (chans : gmap nat (option Rep)) (applied : list (Op Req * Rep)) (ch : nat) (op : Op Req) : Prop :=
match chans !! ch with
| Some (Some reply) => (op, reply) ∈ applied
| Some None => forall op' reply, (op', reply) ∈ applied -> op_id op' <> op_id op
| None => False
end.

Definition result_ok (applied : list (Op Req * Rep)) (x : Op Req * (Err * option Rep)) : Prop :=
match x.2 with
| (OK, Some reply) => (x.1, reply) ∈ applied
| (ErrWrongLeader, None) => True
| _ => False
end.

(** An operation of this process with an identity handed out so far. *)
Definition issued (r : RSM) (op : Op Req) : Prop :=
own_op r op /\ (op_Sequence op <= rs_nextSequence r)%N.

Record rsm_inv (w : rworld) : Prop := {
ri_issued : forall ch op t, rw_pending w !! ch = Some (op, t) -> issued (rw_rsm w) op;
ri_waiters : forall id ch, rs_waiters (rw_rsm w) !! id = Some ch <->
  exists op t, rw_pending w !! ch = Some (op, t) /\ op_id op = id;
ri_slots : forall ch op t, rw_pending w !! ch = Some (op, t) ->
  slot_ok (rs_chans (rw_rsm w)) (rw_applied w) ch op;
ri_started : forall op, op ∈ rw_started w -> issued (rw_rsm w) op;
ri_unique : forall op ch op' t, op ∈ rw_started w -> rw_pending w !! ch = Some (op', t) ->
  op_id op = op_id op' -> op = op';
ri_applied : forall op reply, (op, reply) ∈ rw_applied w -> own_op (rw_rsm w) op -> op ∈ rw_started w;
ri_results : Forall (result_ok (rw_applied w)) (rw_results w);
}.

Lemma op_id_own r op op' : own_op r op -> op_id op' = op_id op -> own_op r op'.
Proof. unfold own_op, op_id. intros [? ?] [= E1 E2 _]. by rewrite E1, E2. Qed.

(** Calls have different identities. *)
Lemma pending_inj w ch1 ch2 op1 op2 t1 t2 :
  rsm_inv w -> rw_pending w !! ch1 = Some (op1, t1) -> rw_pending w !! ch2 = Some (op2, t2) ->
  op_id op1 = op_id op2 -> ch1 = ch2.
Proof.
  intros HI H1 H2 He. assert (rs_waiters (rw_rsm w) !! op_id op1 = Some ch1) as Ha.
  { apply (ri_waiters _ HI). eauto. }
  assert (rs_waiters (rw_rsm w) !! op_id op1 = Some ch2) as Hb by (apply (ri_waiters _ HI); eauto).
  congruence.
Qed.

Lemma rsm_inv_init w : rsm_init w -> rsm_inv w.
Proof.
  intros (Hn & Hw & Hc & Hp & Hs & Ha & Hr). constructor; rewrite ?Hw, ?Hp, ?Hs, ?Ha, ?Hr; auto.
  - intros ch op t Hx. by rewrite lookup_empty in Hx.
  - intros id ch. rewrite lookup_empty. split; [done|]. intros (? & ? & Hx & _). by rewrite lookup_empty in Hx.
  - intros ch op t Hx. by rewrite lookup_empty in Hx.
  - intros op Hx. by apply not_elem_of_nil in Hx.
  - intros op ch op' t Hx. by apply not_elem_of_nil in Hx.
  - intros op reply Hx. by apply not_elem_of_nil in Hx.
Qed.

Lemma rsm_inv_submit w req r' op ch :
  rsm_inv w -> (rs_nextSequence (rw_rsm w) + 1 < two64)%N ->
  submit_register req (rw_rsm w) = Some (r', op, ch) ->
  rsm_inv (mkRworld r' (<[ch := (op, None)]> (rw_pending w)) (rw_started w) (rw_applied w) (rw_results w)).
Proof.
  intros HI Hn H. unfold submit_register in H. destruct (_ || _); [done|]. injection H as <- <- <-.
  rewrite u64_inc_small by done.
  set (ch := fresh (dom (rs_chans (rw_rsm w)))).
  set (op := mkOp (rs_me (rw_rsm w)) (rs_epoch (rw_rsm w)) (rs_nextSequence (rw_rsm w) + 1) req).
  assert (ch ∉ dom (rs_chans (rw_rsm w))) as Hch by apply is_fresh.
  assert (forall op', issued (rw_rsm w) op' -> op_id op' <> op_id op) as Hnew.
  { intros op' [_ Hle] [= _ _ He]. lia. }
  assert (forall op' t ch', rw_pending w !! ch' = Some (op', t) -> ch' <> ch) as Hchn.
  { intros op' t ch' Hp ->. apply (ri_slots _ HI) in Hp. unfold slot_ok in Hp.
    apply not_elem_of_dom in Hch. by rewrite Hch in Hp. }
  assert (forall x, issued (rw_rsm w) x -> (op_Sequence x <= rs_nextSequence (rw_rsm w) + 1)%N) as Hle.
  { intros x [_ ?]. lia. }
  constructor; simpl.
  - intros ch' op' t [[<- [= <- <-]]|[_ Hp]]%lookup_insert_Some; [split; [done|simpl; lia]|].
    apply (ri_issued _ HI) in Hp. split; [apply Hp|by apply Hle].
  - intros id c. rewrite lookup_insert_Some. split.
    + intros [[<- <-]|[Hne Hw]].
      * exists op, None. by rewrite lookup_insert_eq.
      * apply (ri_waiters _ HI) in Hw as (op' & t & Hp & He). exists op', t.
        rewrite lookup_insert_ne by (intros <-; by eapply Hchn). done.
    + intros (op' & t & [[<- [= <- <-]]|[Hc Hp]]%lookup_insert_Some & He); [by left|right].
      split; [|apply (ri_waiters _ HI); eauto].
      intros <-. by eapply Hnew; [eapply (ri_issued _ HI)|].
  - intros c op' t [[<- [= <- <-]]|[Hne Hp]]%lookup_insert_Some; unfold slot_ok.
    + rewrite lookup_insert_eq. intros op' reply Hin He.
      assert (own_op (rw_rsm w) op') as Hown by (eapply op_id_own; [|exact He]; done).
      apply (ri_applied _ HI) in Hin; [|done]. apply (ri_started _ HI) in Hin. by eapply Hnew.
    + rewrite lookup_insert_ne by done. by eapply (ri_slots _ HI).
  - intros op' Hin%(ri_started _ HI). split; [apply Hin|by apply Hle].
  - intros op' c op2 t Hin [[<- [= <- <-]]|[_ Hp]]%lookup_insert_Some He.
    + apply (ri_started _ HI) in Hin. by apply Hnew in He.
    + by eapply (ri_unique _ HI).
  - apply HI.
  - apply HI.
Qed.

(** A call returns: its channel and its waiter go. *)
Lemma rsm_inv_remove w op ch t chans results :
  rsm_inv w -> rw_pending w !! ch = Some (op, t) ->
  (forall c, c <> ch -> chans !! c = rs_chans (rw_rsm w) !! c) ->
  Forall (result_ok (rw_applied w)) results ->
  rsm_inv (mkRworld (removeWaiter (op_id op) ch (set_waiters (rs_waiters (rw_rsm w)) chans (rw_rsm w)))
    (delete ch (rw_pending w)) (rw_started w) (rw_applied w) results).
Proof.
  intros HI Hp Hch Hres.
  assert (rs_waiters (rw_rsm w) !! op_id op = Some ch) as Hw by (apply (ri_waiters _ HI); eauto).
  unfold removeWaiter. simpl. rewrite decide_True by done. constructor; simpl; auto; try apply HI.
  - intros c op' t' [_ Hc]%lookup_delete_Some. by eapply (ri_issued _ HI).
  - intros id c. rewrite lookup_delete_Some. split.
    + intros [Hne Hc]. apply (ri_waiters _ HI) in Hc as (op' & t' & Hc & He).
      exists op', t'. split; [|done]. apply lookup_delete_Some. split; [|done]. intros <-. congruence.
    + intros (op' & t' & [Hne Hc]%lookup_delete_Some & He). split.
      * intros <-. apply Hne. by eapply pending_inj.
      * apply (ri_waiters _ HI). eauto.
  - intros c op' t' [Hne Hc]%lookup_delete_Some. unfold slot_ok. rewrite Hch by done.
    by eapply (ri_slots _ HI).
  - intros op1 c op2 t2 Hin [_ Hc]%lookup_delete_Some. by eapply (ri_unique _ HI).
Qed.

Lemma set_waiters_same r : set_waiters (rs_waiters r) (rs_chans r) r = r.
Proof. by destruct r. Qed.

(** What a returning turn of the loop leaves. *)
Lemma wait_step_result term ch ev r r' res applied op :
  slot_ok (rs_chans r) applied ch op -> wait_step term ch ev r = Some (r', Some res) ->
  exists chans, r' = set_waiters (rs_waiters r) chans r /\
    (forall c, c <> ch -> chans !! c = rs_chans r !! c) /\ result_ok applied (op, res).
Proof.
  intros Hs H.
  assert (forall r1 reply, receive ch r = Some (r1, reply) -> exists chans,
    r1 = set_waiters (rs_waiters r) chans r /\ (forall c, c <> ch -> chans !! c = rs_chans r !! c) /\
    result_ok applied (op, (OK, Some reply))) as Hrec.
  { intros r1 reply Hr. unfold receive in Hr. unfold slot_ok in Hs.
    destruct (rs_chans r !! ch) as [[x|]|]; [|done..]. injection Hr as <- <-.
    eexists. split_and!; [done| |done]. intros c Hc. by apply lookup_insert_ne. }
  assert (exists chans, r = set_waiters (rs_waiters r) chans r /\
    (forall c, c <> ch -> chans !! c = rs_chans r !! c) /\ result_ok applied (op, (ErrWrongLeader, None))) as Hfail.
  { exists (rs_chans r). by rewrite set_waiters_same. }
  assert (forall r1 res1, receive_or_fail ch r = (r1, res1) -> exists chans,
    r1 = set_waiters (rs_waiters r) chans r /\ (forall c, c <> ch -> chans !! c = rs_chans r !! c) /\
    result_ok applied (op, res1)) as Hrf.
  { intros r1 res1 Hx. unfold receive_or_fail in Hx. destruct (receive ch r) as [[r2 reply]|] eqn:E.
    - injection Hx as <- <-. by apply Hrec.
    - by injection Hx as <- <-. }
  destruct ev as [| | |t b|]; simpl in H.
  - apply bind_Some in H as ([r1 reply] & Hr & H). injection H as <- <-. by apply Hrec.
  - destruct (receive_or_fail ch r) as [r1 res1] eqn:E. injection H as <- <-. by apply Hrf.
  - destruct (rs_raftDone r); [|done]. by injection H as <- <-.
  - destruct (_ || _); [|done]. destruct (receive_or_fail ch r) as [r1 res1] eqn:E.
    injection H as <- <-. by apply Hrf.
  - destruct (rs_done r); [|done]. by injection H as <- <-.
Qed.

Lemma rsm_apply_spec pb msg r r' up :
  rsm_apply pb msg r = Some (r', up) ->
  (executed msg r = [] /\ exists s, r' = set_sm s r) \/
  (exists op reply s, executed msg r = [(op, reply)] /\ as_op (am_Command msg) = Some op /\
     r' = wake (op_id op) reply (set_sm s r)).
Proof.
  unfold rsm_apply, executed. destruct (am_SnapshotValid msg); simpl.
  { intros H. left. split; [done|]. case_decide.
    - apply bind_Some in H as (s & _ & H). injection H as <- _. eauto.
    - injection H as <- _. exists (rs_sm r). by destruct r. }
  destruct (am_CommandValid msg); simpl.
  2:{ intros H. injection H as <- _. left. split; [done|]. exists (rs_sm r). by destruct r. }
  intros H. right. apply bind_Some in H as (op & Hop & H). rewrite Hop.
  apply bind_Some in H as ([s reply] & Hd & H). rewrite Hd.
  apply bind_Some in H as (u & _ & H). injection H as <- _. by exists op, reply, s.
Qed.

(** What [wake] does to the slots. *)
Lemma wake_frame id reply r :
  rs_me (wake id reply r) = rs_me r /\ rs_epoch (wake id reply r) = rs_epoch r /\
  rs_nextSequence (wake id reply r) = rs_nextSequence r /\ rs_waiters (wake id reply r) = rs_waiters r.
Proof. unfold wake. destruct (rs_waiters r !! id); [|done]. by destruct (rs_chans r !! _) as [[|]|]. Qed.

Lemma wake_chans id reply r ch :
  rs_chans (wake id reply r) !! ch =
  if decide (rs_waiters r !! id = Some ch)
  then match rs_chans r !! ch with Some None => Some (Some reply) | x => x end
  else rs_chans r !! ch.
Proof.
  unfold wake. destruct (rs_waiters r !! id) as [c|] eqn:Hw; [|by rewrite decide_False].
  case_decide as Hc; [injection Hc as ->|].
  - destruct (rs_chans r !! ch) as [[x|]|] eqn:E; simpl; rewrite ?E; auto. by rewrite lookup_insert_eq.
  - destruct (rs_chans r !! c) as [[x|]|]; simpl; auto. rewrite lookup_insert_ne; [done|congruence].
Qed.

Lemma slot_ok_wake w op reply s ch op' t :
  rsm_inv w -> (own_op (rw_rsm w) op -> op ∈ rw_started w) ->
  rw_pending w !! ch = Some (op', t) ->
  slot_ok (rs_chans (wake (op_id op) reply (set_sm s (rw_rsm w)))) (rw_applied w ++ [(op, reply)]) ch op'.
Proof.
  intros HI Hown Hp. pose proof (ri_slots _ HI _ _ _ Hp) as Hs. unfold slot_ok in *.
  rewrite wake_chans. simpl.
  assert (rs_waiters (rw_rsm w) !! op_id op' = Some ch) as Hw by (apply (ri_waiters _ HI); eauto).
  destruct (decide (op_id op = op_id op')) as [He|Hne].
  - assert (op = op') as ->.
    { eapply (ri_unique _ HI); [|exact Hp|done]. apply Hown. eapply op_id_own; [|exact He].
      by eapply (ri_issued _ HI). }
    rewrite decide_True by done. destruct (rs_chans (rw_rsm w) !! ch) as [[x|]|]; [| |done].
    + apply elem_of_app. by left.
    + apply elem_of_app. right. left.
  - rewrite decide_False.
    2:{ intros Hc. apply (ri_waiters _ HI) in Hc as (op2 & t2 & Hp2 & He2). congruence. }
    destruct (rs_chans (rw_rsm w) !! ch) as [[x|]|]; [|intros op2 r2 Hin|done].
    + apply elem_of_app. by left.
    + apply elem_of_app in Hin as [Hin|[= -> ->]%list_elem_of_singleton]; [by eapply Hs|done].
Qed.

Lemma result_ok_more applied more x : result_ok applied x -> result_ok (applied ++ more) x.
Proof.
  unfold result_ok. destruct x as [op [e [r|]]]; simpl; destruct e; try done.
  intros ?. apply elem_of_app. by left.
Qed.

Lemma rsm_inv_apply w pb msg r' up :
  rsm_inv w -> (forall op reply, (op, reply) ∈ executed msg (rw_rsm w) -> own_op (rw_rsm w) op -> op ∈ rw_started w) ->
  rsm_apply pb msg (rw_rsm w) = Some (r', up) ->
  rsm_inv (mkRworld r' (rw_pending w) (rw_started w) (rw_applied w ++ executed msg (rw_rsm w)) (rw_results w)).
Proof.
  intros HI Hown [[-> [s ->]]|(op & reply & s & Hex & Hop & ->)]%rsm_apply_spec; [|rewrite Hex in Hown |- *].
  - rewrite app_nil_r. destruct HI. by constructor.
  - destruct (wake_frame (op_id op) reply (set_sm s (rw_rsm w))) as (Hm & He & Hn & Hw).
    assert (forall x, own_op (wake (op_id op) reply (set_sm s (rw_rsm w))) x <-> own_op (rw_rsm w) x) as Hox.
    { intros x. unfold own_op. by rewrite Hm, He. }
    assert (forall x, issued (wake (op_id op) reply (set_sm s (rw_rsm w))) x <-> issued (rw_rsm w) x) as Hix.
    { intros x. unfold issued. by rewrite Hox, Hn. }
    constructor; simpl; try rewrite Hw.
    + intros ch op' t Hp. apply Hix. by eapply (ri_issued _ HI).
    + intros id ch. apply (ri_waiters _ HI).
    + intros ch op' t Hp. eapply slot_ok_wake; eauto. eapply Hown. by left.
    + intros x Hx. apply Hix. by apply (ri_started _ HI).
    + apply (ri_unique _ HI).
    + intros x rx [Hin|[= -> ->]%list_elem_of_singleton]%elem_of_app Hxo; apply Hox in Hxo; [|eapply Hown; [by left|done]].
      by eapply (ri_applied _ HI).
    + eapply Forall_impl; [apply (ri_results _ HI)|]. intros x. apply result_ok_more.
Qed.

Lemma rsm_inv_step w w' : rsm_inv w -> rsm_step w w' -> rsm_inv w'.
Proof.
  intros HI Hs. destruct Hs as [req r' op ch Hn H|op ch Hp|op ch term Hp|op ch Hp|op ch term ev r' res Hp H
    |pb msg r' up Hown H| |_].
  - by eapply rsm_inv_submit.
  - destruct HI as [H1 H2 H3 H4 H5 H6 H7]. constructor; simpl; auto.
    + intros x [->|Hx]%elem_of_cons; [by eapply H1|by apply H4].
    + intros x c op' t [->|Hx]%elem_of_cons Hc He; [|by eapply H5].
      assert (ch = c) as ->; [|congruence].
      assert (rs_waiters (rw_rsm w) !! op_id op = Some ch) by (apply H2; eauto).
      assert (rs_waiters (rw_rsm w) !! op_id op = Some c) by (apply H2; eauto). congruence.
    + intros x r Hx Ho. right. by eapply H6.
  - assert (forall c x t, <[ch:=(op, Some term)]> (rw_pending w) !! c = Some (x, t) ->
      exists t', rw_pending w !! c = Some (x, t')) as Hback.
    { intros c x t [[<- [= <- <-]]|[_ ?]]%lookup_insert_Some; eauto. }
    destruct HI as [H1 H2 H3 H4 H5 H6 H7]. constructor; simpl; auto.
    + intros c x t (? & ?)%Hback. eauto.
    + intros id c. rewrite H2. split; intros (x & t & Hc & He).
      * destruct (decide (c = ch)) as [->|]; [exists op, (Some term)|exists x, t].
        -- rewrite lookup_insert_eq. split; [done|congruence].
        -- by rewrite lookup_insert_ne.
      * apply Hback in Hc as [t' ?]. eauto.
    + intros c x t (? & ?)%Hback. eauto.
    + intros x c y t Hin (? & ?)%Hback. eauto.
  - rewrite <- (set_waiters_same (rw_rsm w)). eapply rsm_inv_remove; eauto.
    apply Forall_app. split; [apply HI|by repeat constructor].
  - pose proof (ri_slots _ HI _ _ _ Hp) as Hslot.
    eapply wait_step_result in H as (chans & -> & Hch & Hres); [|done].
    eapply rsm_inv_remove; eauto. apply Forall_app. split; [apply HI|by repeat constructor].
  - by eapply rsm_inv_apply.
  - destruct HI. by constructor.
  - destruct HI. by constructor.
Qed.

(** An answered [Submit] is right and none sleeps through its answer: in every
    run of a server, a call that returns OK returns the reply of executing its own
    operation, every other call returns ErrWrongLeader, and a call still waiting
    finds a reply of its operation in its channel as soon as that operation has
    been applied. *)
Theorem submit_answers w0 w :
  rsm_init w0 -> rtc rsm_step w0 w ->
  (forall op e rep, (op, (e, rep)) ∈ rw_results w ->
     (exists r, e = OK /\ rep = Some r /\ (op, r) ∈ rw_applied w) \/ (e = ErrWrongLeader /\ rep = None)) /\
  (forall ch op t r, rw_pending w !! ch = Some (op, t) -> (op, r) ∈ rw_applied w ->
     exists r', rs_chans (rw_rsm w) !! ch = Some (Some r') /\ (op, r') ∈ rw_applied w).
Proof.
  intros H0 Hr. assert (rsm_inv w) as HI.
  { eapply (invariant_rtc rsm_step rsm_inv); [apply rsm_inv_step|done|by apply rsm_inv_init]. }
  split.
  - intros op e rep Hin. pose proof (ri_results _ HI) as Hres. rewrite Forall_forall in Hres.
    apply Hres in Hin. unfold result_ok in Hin. simpl in Hin. destruct e, rep; try done; eauto.
  - intros ch op t r Hp Hin. pose proof (ri_slots _ HI _ _ _ Hp) as Hs. unfold slot_ok in Hs.
    destruct (rs_chans (rw_rsm w) !! ch) as [[x|]|]; [eauto|by destruct (Hs op r)|done].
Qed.

End Rsm.
