(* ===== verification/RaftDeliver.v ===== *)
(** * Where the snapshots of a Raft cluster come from

    A snapshot reaches a node in one of three ways: its own service hands it over,
    another node sends it, or it was on the disk.  This file says so for every step
    of [RaftCluster]: what a step between the nodes does to their snapshots and to
    the messages they owe their services ([net_snapshots]), and what the messages of
    one pass of the applier are ([sent_messages]).  [RsmCluster] builds on it. *)

From S2P Require Import Prelude.
From S2P Require Import Persister.
From S2P Require Import Raft.
From S2P Require Import RaftRPC.
From S2P Require Import RaftLog.
From S2P Require Import RaftFacts.
From S2P Require Import RaftPersist.
From S2P Require Import RaftProps.
From S2P Require Import RaftCluster.
From S2P Require Import RaftApply.
From S2P Require Import RaftGhost.
From S2P Require Import RaftEffect.
From S2P Require Import RaftSafe.

Section RaftDeliver.
Context {GL : GobLog}.

(** The snapshot an RPC carries. *)
Definition snap_payload (k : call) : option (Z * bytes) :=
  match k with CSnap _ _ _ args _ => Some (is_LastIncludedIndex args, is_Data args) | _ => None end.

(** The node took over a snapshot, and owes its service a message with it. *)
Definition installed (index : Z) (data : bytes) (rf rf' : Raft) : Prop :=
  (0 <= lastApplied rf < index)%Z /\ lastIncludedIndex rf' = index /\ snapshot rf' = data /\
  lastApplied rf' = index /\
  exists m, pendingSnapshot rf' = Some m /\ am_SnapshotValid m = true /\ am_CommandValid m = false /\
    am_SnapshotIndex m = index /\ am_Snapshot m = data.

Lemma installed_delivered index data rf rf' pos :
  installed index data rf rf' -> delivered rf pos -> delivered rf' pos.
Proof.
  intros (Hlt & _ & _ & Ha & m & Hp & Hs & Hc & Hi & _) Hd%delivered_le. unfold delivered. rewrite Hp.
  split_and!; [congruence|lia|done|done].
Qed.

Lemma InstallSnapshot_installed clk args rf rf' r :
  wf rf -> InstallSnapshot clk args rf = Some (rf', r) ->
  snap_same rf rf' \/ installed (is_LastIncludedIndex args) (is_Data args) rf rf'.
Proof.
  intros Hwf H. destruct (killed rf) eqn:Hk.
  { unfold InstallSnapshot in H. rewrite Hk in H. injection H as <- <-. by left. }
  destruct (decide (is_Term args < currentTerm rf)%Z) as [Ht|Ht].
  { unfold InstallSnapshot in H. rewrite Hk, (proj2 (Z.ltb_lt _ _) Ht) in H. injection H as <- <-. by left. }
  apply InstallSnapshot_cases in H as (_ & _ & _ & _ & H); [|done|done|lia]. cbn zeta in H.
  destruct (Z.leb_spec (is_LastIncludedIndex args) (commitIndex rf)); [left; by apply same_log_apply|right].
  destruct H as (Hi & _ & _ & Ha & Hs & Hp & _). destruct Hwf as [[] _].
  split; [lia|]. split_and!; auto. eexists. by split_and!.
Qed.

Lemma handle_snapshots clk k k' rf rf' :
  wf rf -> handle clk k rf = Some (rf', k') ->
  snap_payload k' = snap_payload k /\
  (snap_same rf rf' \/ exists index data, snap_payload k = Some (index, data) /\ installed index data rf rf').
Proof.
  intros Hwf H. destruct k as [src inc dst args [r|]|src inc dst hb args [r|]|src inc dst args [r|]];
    simpl in H; try done; apply bind_Some in H as ([rf1 r] & Hh & H); injection H as <- <-; split; try done.
  - left. by eapply RequestVote_apply.
  - left. by eapply AppendEntries_apply.
  - apply InstallSnapshot_installed in Hh as [?|?]; [by left|right; simpl; eauto|done].
Qed.

(** What an RPC may carry after a step: what another carried, or a node's snapshot. *)
Definition payload_from (c : Cluster) (p : Z * bytes) : Prop :=
  (exists k, k ∈ cl_calls c /\ snap_payload k = Some p) \/
  exists i rf, cl_nodes c !! i = Some rf /\ p = (lastIncludedIndex rf, snapshot rf).

Lemma replicate_payload dst rf req src inc p :
  replicate_request dst rf = Some (Some req) -> snap_payload (request_call src inc dst req) = Some p ->
  p = (lastIncludedIndex rf, snapshot rf).
Proof.
  unfold replicate_request. destruct (_ || _); [done|]. intros H. apply bind_Some in H as (next & _ & H).
  destruct (_ <=? _)%Z; [injection H as <-; simpl; congruence|].
  destruct (termAtLocked _ _); [|done]. apply bind_Some in H as (es & _ & H). by injection H as <-.
Qed.

Lemma node_update_same (c : Cluster) i rf rf' (P : Raft -> Raft -> Prop) :
  cl_nodes c !! i = Some rf -> (forall rf, P rf rf) -> P rf rf' ->
  forall j rfj', <[i:=rf']> (cl_nodes c) !! j = Some rfj' -> exists rfj, cl_nodes c !! j = Some rfj /\ P rfj rfj'.
Proof. intros Hi Hr HP j rfj' [(-> & <- & _)|[_ Hj]]%list_lookup_insert_Some; eauto. Qed.

Lemma apply_same_refl rf : apply_same rf rf.
Proof. done. Qed.

(** A step between the nodes leaves a node's snapshot alone or installs one that an
    RPC carried; the RPCs carry snapshots of nodes. *)
Lemma net_snapshots n V c c' :
  Inv n V c -> net_step c c' ->
  (forall i rf', cl_nodes c' !! i = Some rf' -> exists rf, cl_nodes c !! i = Some rf /\
     (snap_same rf rf' \/ exists index data, payload_from c (index, data) /\ installed index data rf rf')) /\
  (forall k p, k ∈ cl_calls c' -> snap_payload k = Some p -> payload_from c p).
Proof.
  intros HI Hs.
  assert (forall k p, k ∈ cl_calls c -> snap_payload k = Some p -> payload_from c p) as Hold by (left; eauto).
  destruct Hs as [i inc clk rf rf' won reqs Hi Hinc H|i inc time rf rf' tasks rescue Hi Hinc H
    |i inc dst rf req Hi Hinc Hd H|clk k k' l1 l2 rf rf' Hk Hi H|clk k l1 l2 rf rf' votes' Hk Hi Hinc H
    |k l1 l2 Hk]; simpl; split.
  - eapply (node_update_same c i rf rf'); [done|by left|]. left. by eapply startElection_apply.
  - intros k p [?|Hin]%elem_of_app Hp; [by eapply Hold|].
    apply list_elem_of_fmap in Hin as ([s a] & -> & _). done.
  - eapply (node_update_same c i rf rf'); [done|by left|]. left.
    unfold heartbeatOrNotifyReplication in H. destruct (_ || _); [by simplify_eq|]. by eapply heartbeatLoop_apply.
  - intros k p [?|Hin]%elem_of_app Hp; [by eapply Hold|].
    apply list_elem_of_fmap in Hin as ([s a] & -> & _). done.
  - intros j rf' Hj. exists rf'. by split; [|left].
  - intros k p [?| ->%list_elem_of_singleton]%elem_of_app Hp; [by eapply Hold|].
    right. exists i, rf. split; [done|]. by eapply replicate_payload.
  - pose proof (inv_nodes _ _ _ HI _ _ Hi) as [Hwf _]. apply handle_snapshots in H as [_ H]; [|done].
    eapply (node_update_same c _ rf rf'); [done|by left|]. destruct H as [?|(x & d & Hp & ?)]; [by left|right].
    exists x, d. split; [|done]. left. exists k. split; [|done]. rewrite Hk. apply elem_of_app. right. left.
  - pose proof (inv_nodes _ _ _ HI _ _ Hi) as [Hwf _]. apply handle_snapshots in H as [He _]; [|done].
    intros k0 p. rewrite elem_of_app, elem_of_cons. intros [?|[->|?]] Hp.
    + eapply Hold; [|done]. rewrite Hk. apply elem_of_app. by left.
    + rewrite He in Hp. eapply Hold; [|done]. rewrite Hk. apply elem_of_app. right. left.
    + eapply Hold; [|done]. rewrite Hk. apply elem_of_app. right. by right.
  - eapply (node_update_same c _ rf rf'); [done|by left|]. left. by eapply handle_reply_apply.
  - intros k0 p. rewrite elem_of_app. intros Hin Hp. eapply Hold; [|done]. rewrite Hk.
    rewrite elem_of_app, elem_of_cons. tauto.
  - intros j rf' Hj. exists rf'. by split; [|left].
  - intros k0 p. rewrite elem_of_app. intros Hin Hp. eapply Hold; [|done]. rewrite Hk.
    rewrite elem_of_app, elem_of_cons. tauto.
Qed.

Lemma inner_step_apply rf rf' : inner_step rf rf' -> apply_same rf rf'.
Proof.
  intros Hs. destruct Hs as [| |? ? H|? ? H].
  - unfold Kill. by destruct (killed rf).
  - apply broadcast_apply.
  - unfold worker_begin in H. apply bind_Some in H as (n & Hn & H). destruct n; simpl in H; [|done].
    destruct (dead rf); [done|]. apply bind_Some in H as (b & Hb & H). by simplify_eq.
  - unfold worker_end in H. apply bind_Some in H as (b & Hb & H). by simplify_eq.
Qed.

Lemma applier_snapshot rf rf' act :
  applier rf = Some (rf', act) ->
  lastIncludedIndex rf' = lastIncludedIndex rf /\ snapshot rf' = snapshot rf /\ logs rf' = logs rf.
Proof.
  unfold applier. destruct (killed rf); [by intros; simplify_eq|].
  destruct (pendingSnapshot rf); [intros; simplify_eq; by destruct (_ <? _)%Z|].
  destruct (_ <=? _)%Z; [by intros; simplify_eq|]. case_decide; [done|].
  intros (ms & _ & Hx)%bind_Some. by injection Hx as <- <-.
Qed.

(** One pass of the applier sends committed entries the node holds, or the pending
    snapshot. *)
Lemma sent_messages n G i rf F rf' act :
  at_node n G i rf F -> applier rf = Some (rf', act) ->
  (pendingSnapshot rf' = None \/ pendingSnapshot rf' = pendingSnapshot rf) /\
  forall m, m ∈ sent act -> pendingSnapshot rf = Some m \/
    exists k e, F !! k = Some e /\ m = command_msg (Z.of_nat (S k)) e /\ e ∈ held rf /\
      covered n G (currentTerm rf) (S k) F.
Proof.
  intros Hat H. pose proof (an_wf _ _ _ _ _ Hat) as Hwf. pose proof H as Hpass.
  apply applier_pass in Hpass as [[-> Hs]|[(m & Hp & Hs & Hp' & _)|(_ & Hp' & _ & _ & _ & Hl & Hms)]]; [| | |done].
  - split; [by right|]. rewrite Hs. by intros m ?%not_elem_of_nil.
  - split; [by left|]. rewrite Hs. intros m' ->%list_elem_of_singleton. by left.
  - split; [by left|]. intros m Hm. right. eapply sent_command; [done|done|done|].
    apply list_elem_of_lookup in Hm as [j Hj]. by destruct (Hms _ _ Hj) as (e & _ & ->).
Qed.

(** ** Where the entries come from *)

Definition call_entries (k : call) : list LogEntry :=
  match k with CAppend _ _ _ _ args _ => ae_Entries args | _ => [] end.

(** The entry is in a log or in an RPC. *)
Definition has_entry (c : Cluster) (e : LogEntry) : Prop :=
  (exists i rf, cl_nodes c !! i = Some rf /\ e ∈ held rf) \/ exists k, k ∈ cl_calls c /\ e ∈ call_entries k.

Lemma has_entry_step c c' i rf rf' e :
  cl_nodes c !! i = Some rf -> cl_nodes c' = <[i:=rf']> (cl_nodes c) ->
  (forall x, x ∈ held rf' -> has_entry c x) ->
  (forall k, k ∈ cl_calls c' -> k ∈ cl_calls c \/ forall x, x ∈ call_entries k -> has_entry c x) ->
  has_entry c' e -> has_entry c e.
Proof.
  intros Hi Hc Hn Hk [(j & rfj & Hj & He)|(k & [Hin|Hin]%Hk & He)]; [|right; eauto|auto].
  rewrite Hc in Hj. apply list_lookup_insert_Some in Hj as [(-> & <- & _)|[_ Hj]]; [auto|left; eauto].
Qed.

Lemma held_same c i rf rf' x :
  cl_nodes c !! i = Some rf -> apply_same rf rf' -> x ∈ held rf' -> has_entry c x.
Proof. intros Hi [_ Hl] Hx. left. exists i, rf. split; [done|]. unfold held in *. by rewrite <- Hl. Qed.

Lemma install_held args rf rf' x :
  (0 <= lastIncludedIndex rf)%Z -> install_snapshot args rf = Some rf' -> x ∈ held rf' -> x ∈ held rf.
Proof.
  unfold install_snapshot. intros Hlo H. apply bind_Some in H as (suffix & Hsuf & H).
  apply bind_Some in H as (rf2 & Hr & H). apply replaceLogs_Some in Hr as (enc & _ & ->).
  apply bind_Some in H as (rf5 & Hp & H). injection H as <-. apply persist_Some in Hp as ->. simpl.
  unfold held. simpl. intros Hx.
  destruct (termAtLocked rf (is_LastIncludedIndex args)) as [t|] eqn:Ht.
  2:{ injection Hsuf as <-. by apply not_elem_of_nil in Hx. }
  case_decide; [|injection Hsuf as <-; by apply not_elem_of_nil in Hx].
  destruct (proj1 (termAtLocked_is_Some rf (is_LastIncludedIndex args))) as [Hle _]; [eauto|].
  eapply elem_slice_from; [|exact Hsuf|exact Hx]. unfold toOffsetLocked. lia.
Qed.

Lemma InstallSnapshot_held clk args rf rf' r x :
  wf rf -> InstallSnapshot clk args rf = Some (rf', r) -> x ∈ held rf' -> x ∈ held rf.
Proof.
  unfold InstallSnapshot. intros [Hwf _]. destruct (killed rf); [by intros; simplify_eq|].
  destruct (_ <? _)%Z; [by intros; simplify_eq|].
  intros H. apply bind_Some in H as (rf0 & Hb & H). apply becomeFollowerLocked_same_log in Hb as (Hl & _ & Hx & _).
  destruct (_ <=? _)%Z.
  - injection H as <- _. unfold held. simpl. by rewrite Hl.
  - apply bind_Some in H as (rf3 & H3 & H). injection H as <- _. intros He.
    assert (x ∈ held (resetElectionDeadlineLocked clk rf0)) as He'.
    { eapply install_held; [|exact H3|exact He]. simpl. rewrite Hx. apply (wf_index _ Hwf). }
    unfold held in *. simpl in He'. by rewrite <- Hl.
Qed.

Lemma handle_entries clk k k' rf rf' x :
  wf rf -> handle clk k rf = Some (rf', k') ->
  call_entries k' = call_entries k /\ (x ∈ held rf' -> x ∈ held rf \/ x ∈ call_entries k).
Proof.
  intros Hwf H. destruct k as [src inc dst args [r|]|src inc dst hb args [r|]|src inc dst args [r|]];
    simpl in H; try done; apply bind_Some in H as ([rf1 r] & Hh & H); injection H as <- <-; split; try done.
  - apply RequestVote_apply in Hh as [_ Hl]; [|done]. unfold held. rewrite Hl. by left.
  - apply AppendEntries_apply in Hh as [_ He]. auto.
  - left. by eapply InstallSnapshot_held.
Qed.

Lemma replicate_entries dst rf req src inc x :
  replicate_request dst rf = Some (Some req) -> x ∈ call_entries (request_call src inc dst req) -> x ∈ held rf.
Proof.
  unfold replicate_request. destruct (_ || _); [done|]. intros H. apply bind_Some in H as (next & _ & H).
  destruct (Z.leb_spec next (lastIncludedIndex rf)); [injection H as <-; by intros ?%not_elem_of_nil|].
  destruct (termAtLocked _ _); [|done]. apply bind_Some in H as (es & He & H). injection H as <-. simpl.
  eapply elem_slice_from; [|exact He]. unfold toOffsetLocked. lia.
Qed.

Lemma heartbeat_entries n V c i inc time rf rf' tasks rescue k x :
  Inv n V c -> cl_nodes c !! i = Some rf -> heartbeatOrNotifyReplication time rf = Some (rf', tasks, rescue) ->
  k ∈ ((fun '(dst, args) => CAppend i inc dst true args None) <$> tasks) -> x ∉ call_entries k.
Proof.
  intros HI Hi H Hk. pose proof (inv_nodes _ _ _ HI _ _ Hi) as [Hwf _].
  apply heartbeat_wf in H as (_ & _ & _ & Ht & _); [|done]. rewrite Forall_forall in Ht.
  apply list_elem_of_fmap in Hk as ([s a] & -> & Hin). destruct (Ht _ Hin) as [_ (_ & _ & _ & _ & He & _)].
  simpl in *. rewrite He. apply not_elem_of_nil.
Qed.

(** Nothing enters a log but through [Start]. *)
Lemma net_entries n V c c' x : Inv n V c -> net_step c c' -> has_entry c' x -> has_entry c x.
Proof.
  intros HI Hs. destruct Hs as [i inc clk rf rf' won reqs Hi Hinc H|i inc time rf rf' tasks rescue Hi Hinc H
    |i inc dst rf req Hi Hinc Hd H|clk k k' l1 l2 rf rf' Hk Hi H|clk k l1 l2 rf rf' votes' Hk Hi Hinc H
    |k l1 l2 Hk].
  - apply (has_entry_step _ _ i rf rf'); [done|done| |].
    + intros y. eapply held_same; [done|]. by eapply startElection_apply.
    + intros k [?|Hin]%elem_of_app; [by left|right]. apply list_elem_of_fmap in Hin as ([s a] & -> & _).
      by intros y ?%not_elem_of_nil.
  - apply (has_entry_step _ _ i rf rf'); [done|done| |].
    + intros y. eapply held_same; [done|]. unfold heartbeatOrNotifyReplication in H.
      destruct (_ || _); [by simplify_eq|]. by eapply heartbeatLoop_apply.
    + intros k [?|Hin]%elem_of_app; [by left|right]. intros y Hy. exfalso. by eapply heartbeat_entries.
  - apply (has_entry_step _ _ i rf rf); [done|simpl; by rewrite list_insert_id| |].
    + intros y Hy. left. eauto.
    + intros k [?| ->%list_elem_of_singleton]%elem_of_app; [by left|right]. intros y Hy.
      left. exists i, rf. split; [done|]. by eapply replicate_entries.
  - pose proof (inv_nodes _ _ _ HI _ _ Hi) as [Hwf _].
    assert (forall y, y ∈ call_entries k -> has_entry c y) as Hcall.
    { intros y Hy. right. exists k. split; [|done]. rewrite Hk. apply elem_of_app. right. left. }
    apply (has_entry_step _ _ (call_dst k) rf rf'); [done|done| |].
    + intros y Hy. destruct (handle_entries _ _ _ _ _ y Hwf H) as [_ [?|?]]; [done|left; eauto|auto].
    + intros k0. rewrite Hk. simpl. rewrite !elem_of_app, !elem_of_cons. intros [?|[->|?]]; auto. right.
      intros y Hy. apply Hcall. by rewrite (proj1 (handle_entries clk k k' rf rf' y Hwf H)) in Hy.
  - apply (has_entry_step _ _ (call_src k) rf rf'); [done|done| |].
    + intros y. eapply held_same; [done|]. by eapply handle_reply_apply.
    + intros k0. rewrite Hk. simpl. rewrite !elem_of_app, !elem_of_cons. tauto.
  - intros [?|(k0 & Hin & Hx)]; [by left|right]. exists k0. split; [|done]. rewrite Hk. simpl in Hin.
    rewrite !elem_of_app, !elem_of_cons in *. tauto.
Qed.

(** What Raft accepted: every command in a log was given to [Start]. *)
Definition from_started (C : list (option Cmd)) (c : Cluster) : Prop :=
  forall e, has_entry c e -> le_Command e ∈ C.

Lemma from_started_node C c i rf rf' :
  from_started C c -> cl_nodes c !! i = Some rf ->
  (forall x, x ∈ held rf' -> x ∈ held rf \/ le_Command x ∈ C) -> from_started C (set_node i rf' c).
Proof.
  intros Hf Hi Hh e [(j & rfj & [(-> & <- & _)|[_ Hj]]%list_lookup_insert_Some & He)|?].
  - apply Hh in He as [?|?]; [|done]. apply Hf. left. eauto.
  - apply Hf. left. eauto.
  - apply Hf. by right.
Qed.

End RaftDeliver.
