(* ===== verification/RsmCluster.v ===== *)
(** * A replicated service: the state machine layer on a Raft cluster

    The cluster of [RaftCluster] with a server of [Rsm] on top of every node:
    Raft's applier puts messages into the channel of its server, the server's
    applier takes them out one by one and may call [Snapshot], and a node that
    restarts comes back with a server restored from its disk.  The theorem is the
    contract of the whole: all servers replay one log. *)

From S2P Require Import Prelude.
From S2P Require Import Rpc.
From S2P Require Import Persister.
From S2P Require Import Raft.
From S2P Require Import RaftRPC.
From S2P Require Import RaftLog.
From S2P Require Import RaftFacts.
From S2P Require Import RaftPersist.
From S2P Require Import RaftCluster.
From S2P Require Import RaftProps.
From S2P Require Import RaftApply.
From S2P Require Import RaftGhost.
From S2P Require Import RaftEffect.
From S2P Require Import RaftSafe.
From S2P Require Import RaftDeliver.
From S2P Require Import Rsm.

Section RsmCluster.
Context {GL : GobLog}.
Context {St Req Rep : Type} `{SM : StateMachine St Req Rep}.
Context (as_op : option Cmd -> option (Op Req)).

(** [MakeRSM]'s arguments: the threshold and the fresh service. *)
Context (maxraftstate : Z) (s0 : St).

(** ** The state *)

(** A server: its [RSM], the channel [applyCh] with what Raft's applier claimed,
    the call of [rf.Snapshot] its applier is about to make, and, for the
    specification, the index of the last message it took. *)
Record Server : Type := mkServer {
  sv_rsm : RSM (St := St) (Rep := Rep);
  sv_queue : list ApplyMsg;
  sv_snap : option (Z * bytes);
  sv_pos : Z;
}.

(** [sy_started] records the commands given to [Start], [sy_done] who executed which
    operation at which index, with the reply. *)
Record System : Type := mkSystem {
  sy_cluster : Cluster;
  sy_servers : list Server;
  sy_started : list (option Cmd);
  sy_done : list (nat * Z * Op Req * Rep);
}.

Definition set_cluster (c : Cluster) (w : System) : System := mkSystem c (sy_servers w) (sy_started w) (sy_done w).

Definition set_server (i : nat) (sv : Server) (w : System) : System :=
  mkSystem (sy_cluster w) (<[i:=sv]> (sy_servers w)) (sy_started w) (sy_done w).

Definition add_started (command : option Cmd) (w : System) : System :=
  mkSystem (sy_cluster w) (sy_servers w) (command :: sy_started w) (sy_done w).

Definition msg_index (m : ApplyMsg) : Z := if am_CommandValid m then am_CommandIndex m else am_SnapshotIndex m.

(** The sections of [Submit] on the server's own state. *)
Inductive client_section (r : RSM (St := St) (Rep := Rep)) : RSM (St := St) (Rep := Rep) -> Prop :=
  | C_register (req : Req) r' op ch : submit_register req r = Some (r', op, ch) -> client_section r r'
  | C_receive ch r' (reply : Rep) : receive ch r = Some (r', reply) -> client_section r r'
  | C_remove id ch : client_section r (removeWaiter id ch r)
  | C_raft_done : client_section r (raft_done r)
  | C_done : rs_raftDone r = true -> client_section r (set_done true r).

(** What the servers do by themselves. *)
Inductive server_step (w : System) : System -> Prop :=
  | Y_net c' : net_step (sy_cluster w) c' -> server_step w (set_cluster c' w)
  | Y_inner i rf rf' :
      cl_nodes (sy_cluster w) !! i = Some rf -> inner_step rf rf' ->
      server_step w (set_cluster (set_node i rf' (sy_cluster w)) w)
  | Y_deliver i rf sv rf' act :
      cl_nodes (sy_cluster w) !! i = Some rf -> sy_servers w !! i = Some sv ->
      applier rf = Some (rf', act) ->
      server_step w (set_server i (mkServer (sv_rsm sv) (sv_queue sv ++ sent act) (sv_snap sv) (sv_pos sv))
        (set_cluster (set_node i rf' (sy_cluster w)) w))
  | Y_receive i rf sv m queue r' up :
      cl_nodes (sy_cluster w) !! i = Some rf -> sy_servers w !! i = Some sv ->
      sv_queue sv = m :: queue -> sv_snap sv = None ->
      rsm_apply as_op (PersistBytes rf) m (sv_rsm sv) = Some (r', up) ->
      server_step w (mkSystem (sy_cluster w)
        (<[i := mkServer r' queue up (msg_index m)]> (sy_servers w)) (sy_started w)
        (sy_done w ++ ((fun '(op, reply) => (i, msg_index m, op, reply)) <$> executed as_op m (sv_rsm sv))))
  | Y_snapshot i rf sv index data rf' :
      cl_nodes (sy_cluster w) !! i = Some rf -> sy_servers w !! i = Some sv ->
      sv_snap sv = Some (index, data) -> Snapshot index data rf = Some rf' ->
      server_step w (set_server i (mkServer (sv_rsm sv) (sv_queue sv) None (sv_pos sv))
        (set_cluster (set_node i rf' (sy_cluster w)) w)).

Definition set_rsm (i : nat) (r : RSM (St := St) (Rep := Rep)) (sv : Server) (w : System) : System :=
  set_server i (mkServer r (sv_queue sv) (sv_snap sv) (sv_pos sv)) w.

(** A server's process ends, and another is started on its disk. *)
Inductive restart_step (w : System) (i : nat) (epoch : N) : System -> Prop :=
  | Y_restart inc clk rf sv rf' r :
      cl_nodes (sy_cluster w) !! i = Some rf -> cl_inc (sy_cluster w) !! i = Some inc ->
      sy_servers w !! i = Some sv -> hard_in_range rf ->
      MakeRSM (Z.of_nat i) maxraftstate epoch (persister rf) s0 = Some r ->
      Make clk (peers rf) i (persister rf) = Some rf' ->
      restart_step w i epoch (set_server i (mkServer r [] None (lastIncludedIndex rf'))
        (set_cluster (mkCluster (<[i:=rf']> (cl_nodes (sy_cluster w))) (<[i:=S inc]> (cl_inc (sy_cluster w)))
          (cl_votes (sy_cluster w)) (cl_calls (sy_cluster w))) w)).

Inductive sys_step (w : System) : System -> Prop :=
  | Y_server w' : server_step w w' -> sys_step w w'
  | Y_start i rf command rf' r :
      cl_nodes (sy_cluster w) !! i = Some rf -> Start command rf = Some (rf', r) ->
      sys_step w (add_started command (set_cluster (set_node i rf' (sy_cluster w)) w))
  | Y_client i sv r' :
      sy_servers w !! i = Some sv -> client_section (sv_rsm sv) r' -> sys_step w (set_rsm i r' sv w)
  | Y_reboot i epoch w' : restart_step w i epoch w' -> sys_step w w'.

Definition sys_init (n : nat) (w : System) : Prop :=
  cluster_init n (sy_cluster w) /\ length (sy_servers w) = n /\ sy_started w = [] /\ sy_done w = [] /\
  forall i sv, sy_servers w !! i = Some sv -> sv_queue sv = [] /\ sv_snap sv = None /\ sv_pos sv = 0%Z /\
    exists epoch, MakeRSM (Z.of_nat i) maxraftstate epoch MakePersister s0 = Some (sv_rsm sv).

(** ** What the committed prefixes determine *)

(** What is known at a moment: the ghost state of the cluster, and the commands given
    to [Start]. *)
Definition know : Type := ghost * list (option Cmd).

Definition later (W W' : know) : Prop := grows W.1 W'.1 /\ W.2 ⊆ W'.2.

Definition decoded_as (W : know) (e : LogEntry) (op : Op Req) : Prop :=
  le_Command e ∈ W.2 /\ as_op (le_Command e) = Some op.

Definition decoded (W : know) : list LogEntry -> list (Op Req) -> Prop := Forall2 (decoded_as W).

(** The service's state after the first [k] entries of the committed log. *)
Definition snap_at (n : nat) (W : know) (k : nat) (s : St) : Prop :=
  exists u F ops, covered n W.1 u k F /\ decoded W (take k F) ops /\ replay ops s0 = Some s.

Lemma know_refl W : later W W.
Proof. split; [apply ghost_grows_refl|done]. Qed.

Lemma know_trans W1 W2 W3 : later W1 W2 -> later W2 W3 -> later W1 W3.
Proof. intros [? ?] [? ?]. split; [by eapply ghost_grows_trans|by etrans]. Qed.

(** What a step adds: the command given to [Start], if any, and its entry. *)
Definition extends (W W' : know) : Prop :=
  grows W.1 W'.1 /\ exists l, W'.2 = option_list l ++ W.2 /\ births l (gL W.1) (gL W'.1).

Lemma extends_later W W' : extends W W' -> later W W'.
Proof. unfold later. intros (? & l & -> & _). split; [done|]. intros x Hx. apply elem_of_app. by right. Qed.

Lemma extends_refl W : extends W W.
Proof. split; [apply ghost_grows_refl|]. exists None. split; [done|apply births_same]. Qed.

(** Every entry of a leader's own term is a command given to [Start]; an operation
    given to [Start] once is the command of one entry. *)
Definition born_ok (W : know) : Prop :=
  (forall t j e, born (gL W.1) t j e -> le_Command e ∈ W.2) /\
  (NoDup (omap as_op W.2) -> forall t j e t' j' e' op, born (gL W.1) t j e -> born (gL W.1) t' j' e' ->
     as_op (le_Command e) = Some op -> as_op (le_Command e') = Some op -> t = t' /\ j = j').

Lemma born_extends W W' : extends W W' -> born_ok W -> born_ok W'.
Proof.
  intros (_ & l & Hl & Hb) [Hin Hone]. unfold born_ok. rewrite Hl. destruct l as [c|]; simpl in *.
  2:{ split; [eauto|]. intros Hnd t j e t' j' e' op H1%Hb H2%Hb. by eapply Hone. }
  destruct Hb as (t0 & j0 & Hb). split.
  - intros t j e [?%Hin|(_ & _ & ->)]%Hb; [by right|left].
  - intros Hnd t j e t' j' e' op H1 H2 Ho1 Ho2.
    assert (NoDup (omap as_op W.2)) as Hnd' by (destruct (as_op c); [by inversion Hnd|done]).
    assert (forall x, le_Command x = c -> as_op (le_Command x) = Some op -> forall u k y, born (gL W.1) u k y ->
      as_op (le_Command y) = Some op -> False) as Hnew.
    { intros x <- Hx u k y Hy Hyo. rewrite Hx in Hnd. apply NoDup_cons in Hnd as [Hn _]. apply Hn.
      apply list_elem_of_omap. exists (le_Command y). split; [by eapply Hin|done]. }
    apply Hb in H1 as [H1|(-> & -> & Hc1)], H2 as [H2|(-> & -> & Hc2)]; [by eapply Hone|..|done];
      exfalso; eapply Hnew; eauto.
Qed.

Lemma decoded_fun W F ops ops' : decoded W F ops -> decoded W F ops' -> ops = ops'.
Proof.
  intros H. revert ops'. induction H as [|e op F ops [_ He] _ IH]; intros ops' H'; inversion H' as [|? ? ? ? [_ He']]; subst; [done|].
  f_equal; [congruence|auto].
Qed.

Section facts.
Context (n : nat) (W : know).

Lemma snap_at_0 : snap_at n W 0 s0.
Proof. exists 0%Z, [], []. split_and!; [apply covered_0|constructor|done]. Qed.

(** Executing the next committed operation. *)
Lemma snap_at_next k s u F e op s' rep :
  ghost_ok n W.1 -> snap_at n W k s -> covered n W.1 u (S k) F -> F !! k = Some e ->
  decoded_as W e op -> sm_DoOp (op_Req op) s = Some (s', rep) -> snap_at n W (S k) s'.
Proof.
  intros HG (u0 & F0 & ops & Hc0 & Hd & Hr) Hc He Hop Hdo. exists u, F, (ops ++ [op]). split; [done|].
  assert (take k F0 = take k F) as Htk.
  { eapply covered_agree; [done|done|]. eapply covered_le; [exact Hc|lia|done]. }
  rewrite (take_S_r _ _ _ He), <- Htk. split; [apply Forall2_app; [done|by apply Forall2_cons; split; [|constructor]]|].
  rewrite replay_app, Hr. simpl. by rewrite Hdo.
Qed.

(** One log for any set of committed prefixes that were executed. *)
Lemma snap_at_log k s u K F ops :
  ghost_ok n W.1 -> covered n W.1 u K F -> decoded W (take K F) ops -> snap_at n W k s -> k <= K ->
  k <= length ops /\ replay (take k ops) s0 = Some s.
Proof.
  intros HG Hc Hd (u0 & F0 & ops0 & Hc0 & Hd0 & Hr) Hk. pose proof Hc as [Hl _].
  assert (take k F0 = take k F) as Htk.
  { eapply covered_agree; [done|done|]. by eapply covered_le. }
  pose proof (Forall2_length _ _ _ Hd) as Hlen. rewrite length_take in Hlen. split; [lia|].
  apply (Forall2_take _ _ _ k) in Hd. rewrite take_take, Nat.min_l in Hd by done. rewrite Htk in Hd0.
  by rewrite (decoded_fun _ _ _ _ Hd Hd0).
Qed.

Lemma longest (ks : list nat) :
  Forall (fun k => exists s, snap_at n W k s) ks ->
  exists u K F ops s, covered n W.1 u K F /\ decoded W (take K F) ops /\ replay ops s0 = Some s /\
    Forall (fun k => k <= K) ks.
Proof.
  induction 1 as [|k ks (s & u & F & ops & Hc & Hd & Hr) _ (u' & K & F' & ops' & s' & Hc' & Hd' & Hr' & Hle)].
  - exists 0%Z, 0, [], [], s0. split_and!; [apply covered_0|constructor|done|constructor].
  - destruct (decide (k <= K)).
    + exists u', K, F', ops', s'. split_and!; [done|done|done|by constructor].
    + exists u, k, F, ops, s. split_and!; [done|done|done|]. constructor; [lia|].
      eapply Forall_impl; [exact Hle|]. simpl. lia.
Qed.
End facts.

Lemma snap_at_grow n W W' k s : later W W' -> snap_at n W k s -> snap_at n W' k s.
Proof.
  intros [[HL HA] HC] (u & F & ops & Hc & Hd & ?). exists u, F, ops. split_and!; [by eapply covered_grow| |done].
  eapply Forall2_impl; [exact Hd|]. intros e op [? ?]. split; auto.
Qed.

(** ** The invariant

    A snapshot is one of the committed prefix it names; before the first one the
    disk holds none. *)
Definition snap_data (n : nat) (W : know) (index : Z) (data : bytes) : Prop :=
  (0 <= index)%Z /\
  ((index = 0%Z /\ data = []) \/ exists s, snap_at n W (Z.to_nat index) s /\ sm_Snapshot s = Some data).

(** The [k + 1]-st command is committed, and was given to [Start]. *)
Definition entry_ok (n : nat) (W : know) (k : nat) (e : LogEntry) : Prop :=
  le_Command e ∈ W.2 /\ exists u F, covered n W.1 u (S k) F /\ F !! k = Some e.

Definition msg_ok (n : nat) (W : know) (m : ApplyMsg) : Prop :=
  (am_SnapshotValid m = true /\ am_CommandValid m = false /\ (0 < am_SnapshotIndex m)%Z /\
     snap_data n W (am_SnapshotIndex m) (am_Snapshot m)) \/
  exists k e, m = command_msg (Z.of_nat (S k)) e /\ entry_ok n W k e.

Definition node_snap (n : nat) (W : know) (rf : Raft) : Prop :=
  snap_data n W (lastIncludedIndex rf) (snapshot rf) /\
  forall m, pendingSnapshot rf = Some m -> msg_ok n W m.

Record server_ok (n : nat) (W : know) (rf : Raft) (sv : Server) : Prop := {
  so_pos : (0 <= sv_pos sv)%Z;
  so_state : snap_at n W (Z.to_nat (sv_pos sv)) (rs_sm (sv_rsm sv));
  so_order : exists pos, in_order (sv_pos sv) (sv_queue sv) pos /\ delivered rf pos;
  so_queue : Forall (msg_ok n W) (sv_queue sv);
  so_snap : forall index data, sv_snap sv = Some (index, data) -> snap_data n W index data;
}.

Definition done_ok (n : nat) (W : know) (d : nat * Z * Op Req * Rep) : Prop :=
  let '(_, index, op, reply) := d in
  exists k e s s', index = Z.of_nat (S k) /\ snap_at n W k s /\ entry_ok n W k e /\
    as_op (le_Command e) = Some op /\ sm_DoOp (op_Req op) s = Some (s', reply).

Record sys_inv (n : nat) (W : know) (w : System) : Prop := {
  si_safe : Safe n W.1 (sy_cluster w);
  si_started : W.2 = sy_started w;
  si_from : from_started W.2 (sy_cluster w);
  si_len : length (sy_servers w) = n;
  si_nodes : forall i rf, cl_nodes (sy_cluster w) !! i = Some rf -> node_snap n W rf;
  si_servers : forall i rf sv, cl_nodes (sy_cluster w) !! i = Some rf -> sy_servers w !! i = Some sv ->
    server_ok n W rf sv;
  si_calls : forall k p, k ∈ cl_calls (sy_cluster w) -> snap_payload k = Some p -> snap_data n W p.1 p.2;
  si_done : Forall (done_ok n W) (sy_done w);
  si_born : born_ok W;
}.

Section grow.
Context (n : nat) (W W' : know).

Lemma snap_data_grow index data : later W W' -> snap_data n W index data -> snap_data n W' index data.
Proof.
  intros Hg [? [?|(s & ? & ?)]]; (split; [done|]); [by left|right]. exists s. split; [by eapply snap_at_grow|done].
Qed.

Lemma entry_ok_grow k e : later W W' -> entry_ok n W k e -> entry_ok n W' k e.
Proof.
  intros [[HL HA] HC] (? & u & F & ? & ?). split; [auto|]. exists u, F. split; [|done]. by eapply covered_grow.
Qed.

Lemma msg_ok_grow m : later W W' -> msg_ok n W m -> msg_ok n W' m.
Proof.
  intros Hg [(? & ? & ? & ?)|(k & e & ? & ?)]; [left|right].
  - split_and!; auto using snap_data_grow.
  - exists k, e. auto using entry_ok_grow.
Qed.

Lemma node_snap_grow rf : later W W' -> node_snap n W rf -> node_snap n W' rf.
Proof. intros Hg [? ?]. split; eauto using snap_data_grow, msg_ok_grow. Qed.

Lemma server_ok_grow rf sv : later W W' -> server_ok n W rf sv -> server_ok n W' rf sv.
Proof.
  intros Hg []. constructor; eauto using snap_at_grow, snap_data_grow.
  eapply Forall_impl; [done|]. intros m. by apply msg_ok_grow.
Qed.

Lemma done_ok_grow d : later W W' -> done_ok n W d -> done_ok n W' d.
Proof.
  destruct d as [[[i index] op] reply]. intros Hg (k & e & s & s' & ? & ? & ? & ? & ?).
  exists k, e, s, s'. split_and!; eauto using snap_at_grow, entry_ok_grow.
Qed.
End grow.

(** The node moved, what it owes its service did not. *)
Lemma server_ok_move n W rf rf' sv :
  (forall pos, delivered rf pos -> delivered rf' pos) -> server_ok n W rf sv -> server_ok n W rf' sv.
Proof. intros Hd [? ? (pos & ? & ?) ? ?]. constructor; eauto. Qed.

Lemma node_snap_same n W rf rf' : snap_same rf rf' -> node_snap n W rf -> node_snap n W rf'.
Proof. intros (_ & Hp & Hi & Hs) [? ?]. unfold node_snap. by rewrite Hp, Hi, Hs. Qed.

Lemma node_snap_installed n W index data rf rf' :
  installed index data rf rf' -> snap_data n W index data -> node_snap n W rf'.
Proof.
  intros (Hlt & Hi & Hs & _ & m & Hp & Hsv & Hcv & Hmi & Hmd) Hd. unfold node_snap. rewrite Hi, Hs, Hp.
  split; [done|]. intros m' [= <-]. left. rewrite Hmi, Hmd. split_and!; auto; lia.
Qed.

(** ** Every step keeps it *)

(** A step of node [i] and its server. *)
Lemma sys_inv_node n W W' w c' i rf' sv sv' C :
  sys_inv n W w -> extends W W' -> Safe n W'.1 c' -> W'.2 = C -> from_started C c' -> sy_servers w !! i = Some sv ->
  cl_nodes c' = <[i:=rf']> (cl_nodes (sy_cluster w)) -> cl_calls c' = cl_calls (sy_cluster w) ->
  node_snap n W' rf' -> server_ok n W' rf' sv' ->
  sys_inv n W' (mkSystem c' (<[i:=sv']> (sy_servers w)) C (sy_done w)).
Proof.
  intros [HS HC Hf Hlen Hns Hsv Hcalls Hdone Hborn] Hx HS' HC' Hf' Hi Hc Hk Hnode Hserver.
  pose proof (extends_later _ _ Hx) as Hg.
  constructor; simpl; [done|done|by subst|by rewrite length_insert| | | | |by eapply born_extends].
  - rewrite Hc. intros j rf [(-> & <- & _)|[_ Hj]]%list_lookup_insert_Some; [done|].
    eapply node_snap_grow; eauto.
  - rewrite Hc. intros j rf sv0 Hj Hj'. apply list_lookup_insert_Some in Hj as [(-> & <- & _)|[Hne Hj]].
    + rewrite list_lookup_insert_eq in Hj' by (by eapply lookup_lt_Some). by injection Hj' as <-.
    + rewrite list_lookup_insert_ne in Hj' by done. eapply server_ok_grow; eauto.
  - rewrite Hk. eauto using snap_data_grow.
  - eapply Forall_impl; [done|]. intros d. by apply done_ok_grow.
Qed.

Lemma sys_server_at n W w i rf :
  sys_inv n W w -> cl_nodes (sy_cluster w) !! i = Some rf -> exists sv, sy_servers w !! i = Some sv.
Proof.
  intros [HS _ _ Hlen _ _ _ _ _] Hi. apply lookup_lt_is_Some. rewrite Hlen.
  rewrite <- (inv_len _ _ _ (sf_inv _ _ _ HS)). by eapply lookup_lt_Some.
Qed.

(** What is known after a step of the cluster. *)
Lemma know_step (L : GobLogLaws) n W w c' l :
  sys_inv n W w -> cluster_label (sy_cluster w) c' l ->
  exists W', extends W W' /\ later W W' /\ Safe n W'.1 c' /\ W'.2 = option_list l ++ W.2.
Proof.
  intros HI Hs. destruct (Safe_births L n W.1 (sy_cluster w) c' l (si_safe _ _ _ HI) Hs) as (G' & Hg & Hb & HS').
  assert (extends W (G', option_list l ++ W.2)) as Hx by (split; [done|by exists l]).
  exists (G', option_list l ++ W.2). split_and!; [done|by apply extends_later|done|done].
Qed.

Lemma from_started_step n W w C i rf rf' :
  sys_inv n W w -> W.2 ⊆ C -> cl_nodes (sy_cluster w) !! i = Some rf ->
  (forall x, x ∈ held rf' -> x ∈ held rf \/ le_Command x ∈ C) -> from_started C (set_node i rf' (sy_cluster w)).
Proof.
  intros HI HC Hi Hh. eapply from_started_node; [|exact Hi|exact Hh]. intros e He. by apply HC, (si_from _ _ _ HI).
Qed.

(** A step of a node that its server takes no part in. *)
Lemma sys_inv_quiet (L : GobLogLaws) n W w i rf rf' l :
  let C := option_list l ++ sy_started w in
  sys_inv n W w -> cl_nodes (sy_cluster w) !! i = Some rf -> local_label rf rf' l -> snap_same rf rf' ->
  (forall x, x ∈ held rf' -> x ∈ held rf \/ le_Command x ∈ C) ->
  exists W', extends W W' /\ sys_inv n W' (mkSystem (set_node i rf' (sy_cluster w)) (sy_servers w) C (sy_done w)).
Proof.
  intros C HI Hi Hl Ha Hh. subst C. pose proof (si_started _ _ _ HI) as HC. rewrite <- HC in Hh |- *. destruct (sys_server_at _ _ _ _ _ HI Hi) as [sv Hsv].
  destruct (know_step L n W w _ l HI (B_local _ _ _ _ _ Hi Hl)) as (W' & Hx & Hg & HS' & HC').
  exists W'. split; [done|]. rewrite <- (list_insert_id _ _ _ Hsv). eapply sys_inv_node; eauto.
  - eapply from_started_step; [done| |done|done]. intros x Hin. apply elem_of_app. by right.
  - eapply node_snap_same; [done|]. eapply node_snap_grow; [done|]. by eapply si_nodes.
  - eapply (server_ok_move _ _ rf); [intros pos; apply delivered_same, snap_claims, Ha|].
    eapply server_ok_grow; [done|]. by eapply si_servers.
Qed.

Lemma sys_inv_net (L : GobLogLaws) n W w c' :
  sys_inv n W w -> net_step (sy_cluster w) c' ->
  exists W', extends W W' /\ sys_inv n W' (set_cluster c' w).
Proof.
  intros HI Hs. pose proof HI as [HS HC Hf Hlen Hns Hsv Hcalls Hdone Hborn].
  destruct (know_step L n W w c' None HI (B_net _ _ Hs)) as (W' & Hx & Hg & HS' & HC'); simpl in HC'.
  destruct (net_snapshots n _ _ _ (sf_inv _ _ _ HS) Hs) as [Hnodes Hpay]. exists W'. split; [done|].
  assert (forall p, payload_from (sy_cluster w) p -> snap_data n W' p.1 p.2) as Hdata.
  { intros p Hp. eapply snap_data_grow; [done|]. destruct Hp as [(k & Hk & Hp)|(i & rf & Hi & ->)]; [by eapply Hcalls|].
    by eapply Hns. }
  constructor; simpl; [done|congruence| |done| | | | |by eapply born_extends].
  - rewrite HC'. intros e He. apply Hf. by eapply (net_entries n); [apply HS|exact Hs|].
  - intros i rf' (rf & Hi & [Ha|(x & d & Hp & Hin)])%Hnodes.
    + eapply node_snap_same; [done|]. eapply node_snap_grow; eauto.
    + eapply node_snap_installed; [done|]. by apply (Hdata (x, d)).
  - intros i rf' sv (rf & Hi & Hrf)%Hnodes Hi'. apply (server_ok_move _ _ rf).
    + destruct Hrf as [Ha|(x & d & _ & Hin)]; intros pos; [by apply delivered_same, snap_claims|].
      by eapply installed_delivered.
    + eapply server_ok_grow; eauto.
  - eauto.
  - eapply Forall_impl; [done|]. intros d. by apply done_ok_grow.
Qed.

Lemma sys_inv_deliver (L : GobLogLaws) n W w i rf sv rf' act :
  sys_inv n W w -> cl_nodes (sy_cluster w) !! i = Some rf -> sy_servers w !! i = Some sv ->
  applier rf = Some (rf', act) ->
  exists W', extends W W' /\
    sys_inv n W' (set_server i (mkServer (sv_rsm sv) (sv_queue sv ++ sent act) (sv_snap sv) (sv_pos sv))
      (set_cluster (set_node i rf' (sy_cluster w)) w)).
Proof.
  intros HI Hi Hsv H. pose proof (si_safe _ _ _ HI) as HS. destruct (Safe_at _ _ _ _ _ HS Hi) as [F Hat].
  destruct (know_step L n W w _ None HI (B_local _ _ _ _ _ Hi (B_applier _ _ _ H))) as (W' & Hx & Hg & HS' & HC'); simpl in HC'.
  destruct (sent_messages _ _ _ _ _ _ _ Hat H) as [Hp Hms]. destruct (applier_snapshot _ _ _ H) as (Hix & Hsn & Hl).
  destruct (si_nodes _ _ _ HI _ _ Hi) as [Hd Hpend]. pose proof (si_servers _ _ _ HI _ _ _ Hi Hsv) as Hok.
  pose proof (si_started _ _ _ HI) as HC. exists W'. split; [done|].
  apply (sys_inv_node n W W' w _ i rf' sv); [done|done|done|rewrite HC'; exact HC| |done|done|done| |].
  - simpl. rewrite <- HC. eapply from_started_step; [done|done|done|]. unfold held. rewrite Hl. by left.
  - eapply node_snap_grow; [done|]. unfold node_snap. rewrite Hix, Hsn. split; [done|].
    intros m Hm. apply Hpend. destruct Hp; congruence.
  - eapply server_ok_grow; [done|]. destruct Hok as [? ? (pos & Ho & Hdel) Hq ?]. constructor; simpl; auto.
    + destruct (node_step_delivered _ _ _ _ (an_wf _ _ _ _ _ Hat) (NApplier _ _ _ H) Hdel) as (pos' & Ho' & ?).
      exists pos'. split; [by eapply in_order_app|done].
    + apply Forall_app. split; [done|]. apply Forall_forall. intros m [Hm|(k & e & ? & ? & Hin & ?)]%Hms; [by apply Hpend|].
      right. exists k, e. split; [done|]. split; [apply (si_from _ _ _ HI); left; eauto|]. by eexists _, _.
Qed.

(** What taking a message does to the service. *)
Lemma rsm_apply_ok (SL : StateMachineLaws St Req Rep) n W i pb m r r' up pos :
  ghost_ok n W.1 -> msg_ok n W m -> snap_at n W (Z.to_nat pos) (rs_sm r) -> (0 <= pos)%Z ->
  (am_CommandValid m = true -> am_CommandIndex m = (pos + 1)%Z) ->
  rsm_apply as_op pb m r = Some (r', up) ->
  snap_at n W (Z.to_nat (msg_index m)) (rs_sm r') /\ (0 <= msg_index m)%Z /\
  (forall index data, up = Some (index, data) -> snap_data n W index data) /\
  Forall (done_ok n W) ((fun '(op, reply) => (i, msg_index m, op, reply)) <$> executed as_op m r).
Proof.
  intros HG Hm Hst Hpos Hidx H. unfold msg_index.
  destruct Hm as [(Hsv & Hcv & Hlt & Hd)|(k & e & -> & Hin & u & F & Hc & He)].
  - destruct Hd as [_ [[? _]|(s & Hs & Hsn)]]; [lia|].
    unfold executed. rewrite Hsv, Hcv. simpl. unfold rsm_apply in H. rewrite Hsv in H.
    rewrite decide_True in H.
    2:{ pose proof (sm_snapshot_nonempty s _ Hsn). by destruct (am_Snapshot m); simpl; [|lia]. }
    rewrite (sm_restore_snapshot s _ (rs_sm r) Hsn) in H. simpl in H. injection H as <- <-.
    split_and!; [done|lia|done|constructor].
  - unfold rsm_apply in H. unfold executed. cbn -[Z.of_nat] in *. specialize (Hidx eq_refl).
    apply bind_Some in H as (op & Hop & H). rewrite Hop.
    apply bind_Some in H as ([s' reply] & Hdo & H). rewrite Hdo. apply bind_Some in H as (v & Hv & H). injection H as <- <-.
    rewrite wake_sm. simpl rs_sm. replace (Z.to_nat pos) with k in Hst by lia. rewrite Nat2Z.id.
    assert (snap_at n W (S k) s') as Hnext by by eapply (snap_at_next n W k).
    split_and!; [done|lia| |].
    + intros index data ->. destruct (shouldSnapshot _ _); [|done]. apply bind_Some in Hv as (d & Hd & Hv).
      injection Hv as <- <-. split; [lia|right]. exists s'. by rewrite Nat2Z.id.
    + repeat constructor. exists k, e, (rs_sm r), s'. split_and!; auto. split; [done|by exists u, F].
Qed.

Lemma sys_inv_receive (SL : StateMachineLaws St Req Rep) n W w i rf sv m queue pb r' up :
  sys_inv n W w -> cl_nodes (sy_cluster w) !! i = Some rf -> sy_servers w !! i = Some sv ->
  sv_queue sv = m :: queue -> rsm_apply as_op pb m (sv_rsm sv) = Some (r', up) ->
  sys_inv n W (mkSystem (sy_cluster w) (<[i := mkServer r' queue up (msg_index m)]> (sy_servers w)) (sy_started w)
    (sy_done w ++ ((fun '(op, reply) => (i, msg_index m, op, reply)) <$> executed as_op m (sv_rsm sv)))).
Proof.
  intros HI Hi Hsv Hq H. pose proof (si_servers _ _ _ HI _ _ _ Hi Hsv) as [Hpos Hst (pos & Ho & Hd) Hms _].
  rewrite Hq in Ho, Hms. apply Forall_cons in Hms as [Hm Hms]. simpl in Ho.
  assert (in_order (msg_index m) queue pos /\ (am_CommandValid m = true -> am_CommandIndex m = (sv_pos sv + 1)%Z))
    as [Ho' Hidx].
  { unfold msg_index. destruct (am_CommandValid m); [|by destruct Ho as (_ & _ & ?)]. by destruct Ho as [-> ?]. }
  destruct (rsm_apply_ok SL n W i _ _ _ _ _ _ (sf_ghost _ _ _ (si_safe _ _ _ HI)) Hm Hst Hpos Hidx H)
    as (Hst' & Hpos' & Hup & Hdone).
  destruct HI as [HS HC Hf Hlen Hns Hservers Hcalls Hd0 Hborn].
  constructor; simpl; auto; [by rewrite length_insert| |by apply Forall_app].
  intros j rfj svj Hj [(-> & <- & _)|[Hne Hj']]%list_lookup_insert_Some; [|by eapply Hservers].
  simplify_eq. constructor; simpl; eauto.
Qed.

Lemma Snapshot_node_snap n W index data rf rf' :
  wf rf -> Snapshot index data rf = Some rf' -> snap_data n W index data -> node_snap n W rf -> node_snap n W rf'.
Proof.
  intros Hwf H Hd [Hd0 Hp]. pose proof (proj1 (Snapshot_apply _ _ _ _ Hwf H)) as [_ Hpend].
  unfold node_snap. rewrite Hpend. split; [|done].
  apply Snapshot_cases in H as [(_ & Hc & -> & _)|[_ ->]]; [|done..]. by destruct Hc as (-> & _).
Qed.

Lemma sys_inv_snapshot (L : GobLogLaws) n W w i rf sv index data rf' :
  sys_inv n W w -> cl_nodes (sy_cluster w) !! i = Some rf -> sy_servers w !! i = Some sv ->
  sv_snap sv = Some (index, data) -> Snapshot index data rf = Some rf' ->
  exists W', extends W W' /\ sys_inv n W' (set_server i (mkServer (sv_rsm sv) (sv_queue sv) None (sv_pos sv))
    (set_cluster (set_node i rf' (sy_cluster w)) w)).
Proof.
  intros HI Hi Hsv Hsn H. pose proof (si_safe _ _ _ HI) as HS. destruct (Safe_at _ _ _ _ _ HS Hi) as [F Hat].
  destruct (know_step L n W w _ None HI (B_local _ _ _ _ _ Hi (B_snapshot _ _ _ _ H))) as (W' & Hx & Hg & HS' & HC'); simpl in HC'.
  pose proof (si_servers _ _ _ HI _ _ _ Hi Hsv) as Hok. pose proof (so_snap _ _ _ _ Hok _ _ Hsn) as Hd.
  assert (wf rf) as Hwf by apply Hat. pose proof (Snapshot_apply _ _ _ _ Hwf H) as [Hcl Hh].
  pose proof (si_started _ _ _ HI) as HC. exists W'. split; [done|].
  apply (sys_inv_node n W W' w _ i rf' sv); [done|done|done|rewrite HC'; exact HC| |done|done|done| |].
  - simpl. rewrite <- HC. eapply from_started_step; [done|done|done|]. auto.
  - eapply node_snap_grow; [done|]. eapply Snapshot_node_snap; eauto. by eapply si_nodes.
  - eapply server_ok_grow; [done|]. apply (server_ok_move _ _ rf); [intros pos; by apply delivered_same|].
    destruct Hok. by constructor.
Qed.

Lemma client_section_sm r r' : client_section r r' -> rs_sm r' = rs_sm r.
Proof.
  intros [req r1 op ch H|ch r1 reply H|id ch| |_]; [| | |done..].
  - unfold submit_register in H. destruct (_ || _); [done|]. by injection H as <- _ _.
  - unfold receive in H. destruct (rs_chans r !! ch) as [[x|]|]; [|done..]. by injection H as <- _.
  - unfold removeWaiter. by case_decide.
Qed.

Lemma sys_inv_client n W w i sv r' :
  sys_inv n W w -> sy_servers w !! i = Some sv -> client_section (sv_rsm sv) r' ->
  sys_inv n W (set_rsm i r' sv w).
Proof.
  intros [HS HC Hf Hlen Hns Hservers Hcalls Hd0 Hborn] Hsv Hc%client_section_sm.
  constructor; simpl; auto; [by rewrite length_insert|].
  intros j rfj svj Hj [(-> & <- & _)|[Hne Hj']]%list_lookup_insert_Some; [|by eapply Hservers].
  destruct (Hservers _ _ _ Hj Hsv). constructor; simpl; auto. by rewrite Hc.
Qed.

(** A server is restored to the snapshot its persister holds. *)
Lemma MakeRSM_restores (SL : StateMachineLaws St Req Rep) n W me max epoch ps index r :
  snap_data n W index (ReadSnapshot ps) -> MakeRSM me max epoch ps s0 = Some r ->
  snap_at n W (Z.to_nat index) (rs_sm r).
Proof.
  unfold MakeRSM. intros [_ Hd] H. apply bind_Some in H as (s' & Hs' & H). injection H as <-. simpl.
  destruct Hd as [[-> He]|(s & Hs & Hsn)].
  - rewrite He in Hs'. simpl in Hs'. injection Hs' as <-. apply snap_at_0.
  - rewrite decide_True in Hs'.
    2:{ pose proof (sm_snapshot_nonempty s _ Hsn). by destruct (ReadSnapshot ps); simpl; [|lia]. }
    rewrite (sm_restore_snapshot s _ s0 Hsn) in Hs'. by injection Hs' as <-.
Qed.

Lemma stored_snapshot rf : stored rf -> ReadSnapshot (persister rf) = snapshot rf.
Proof. by intros [->|(-> & _ & ->)]. Qed.

Lemma server_ok_fresh n W rf r :
  wf rf -> pendingSnapshot rf = None -> lastApplied rf = lastIncludedIndex rf ->
  snap_at n W (Z.to_nat (lastIncludedIndex rf)) (rs_sm r) ->
  server_ok n W rf (mkServer r [] None (lastIncludedIndex rf)).
Proof.
  intros [[] _] Hp Ha Hr. constructor; simpl; [lia|done| |constructor|done].
  exists (lastIncludedIndex rf). split; [done|]. unfold delivered. by rewrite Hp.
Qed.

Lemma sys_inv_restart (L : GobLogLaws) (SL : StateMachineLaws St Req Rep) n W w i inc clk me epoch rf sv rf' r :
  sys_inv n W w -> cl_nodes (sy_cluster w) !! i = Some rf -> cl_inc (sy_cluster w) !! i = Some inc ->
  sy_servers w !! i = Some sv -> hard_in_range rf ->
  MakeRSM me maxraftstate epoch (persister rf) s0 = Some r ->
  Make clk (peers rf) i (persister rf) = Some rf' ->
  exists W', extends W W' /\ sys_inv n W' (set_server i (mkServer r [] None (lastIncludedIndex rf'))
    (set_cluster (mkCluster (<[i:=rf']> (cl_nodes (sy_cluster w))) (<[i:=S inc]> (cl_inc (sy_cluster w)))
       (cl_votes (sy_cluster w)) (cl_calls (sy_cluster w))) w)).
Proof.
  intros HI Hi Hinc Hsv Hr HR H. pose proof (si_safe _ _ _ HI) as HS.
  destruct (know_step L n W w _ None HI (B_restart _ _ _ _ _ _ Hi Hinc Hr H)) as (W' & Hx & Hg & HS' & HC'); simpl in HC'.
  pose proof (inv_nodes _ _ _ (sf_inv _ _ _ HS) _ _ Hi) as (Hwf & Hme & _). rewrite <- Hme in H.
  apply (Make_recovers L) in H as (Hwf' & Hh & Hs & _ & _ & _ & _ & _ & Ha & _ & Hp); [|done..].
  unfold hard in Hh. injection Hh as _ _ Hix _ Hlogs.
  destruct (si_nodes _ _ _ HI _ _ Hi) as [Hd _]. apply (snap_data_grow _ _ _ _ _ Hg) in Hd.
  pose proof (si_started _ _ _ HI) as HC. exists W'. split; [done|].
  apply (sys_inv_node n W W' w _ i rf' sv); [done|done|done|rewrite HC'; exact HC| |done|done|done| |].
  - simpl. rewrite <- HC. pose proof (from_started_step n W w W.2 i rf rf' HI) as Hf. apply Hf; [done|done|].
    unfold held. rewrite Hlogs. by left.
  - unfold node_snap. rewrite Hix, Hs, Hp. by split.
  - apply server_ok_fresh; [done|done|congruence|].
    eapply MakeRSM_restores; [done| |exact HR]. by rewrite stored_snapshot, Hix by apply Hwf.
Qed.

Lemma sys_inv_step (L : GobLogLaws) (SL : StateMachineLaws St Req Rep) n W w w' :
  sys_inv n W w -> sys_step w w' -> exists W', extends W W' /\ sys_inv n W' w'.
Proof.
  intros HI Hs. destruct Hs as [w' [c' Hs|i rf rf' Hi Hs|i rf sv rf' act Hi Hsv H
    |i rf sv m queue r' up Hi Hsv Hq _ H|i rf sv index data rf' Hi Hsv Hsn H]|i rf command rf' r Hi H|i sv r' Hsv Hc
    |i epoch w' [inc clk rf sv rf' r Hi Hinc Hsv Hr HR H]].
  - by eapply sys_inv_net.
  - apply inner_step_apply in Hs as Ha. apply (sys_inv_quiet L n W w i rf rf' None); [done|done|by apply B_inner|apply Ha|].
    destruct Ha as [_ Hl]. unfold held. rewrite Hl. by left.
  - by eapply sys_inv_deliver.
  - exists W. split; [apply extends_refl|]. by eapply sys_inv_receive.
  - by eapply sys_inv_snapshot.
  - apply Start_apply in H as Ha. destruct Ha as [Ha Hh].
    apply (sys_inv_quiet L n W w i rf rf' (Some command)); [done|done|by eapply B_start|done|].
    intros x [?| ->%list_elem_of_singleton]%Hh; [by left|right; left].
  - exists W. split; [apply extends_refl|]. by eapply sys_inv_client.
  - by eapply sys_inv_restart.
Qed.

Lemma sys_inv_run (L : GobLogLaws) (SL : StateMachineLaws St Req Rep) n w w' :
  rtc sys_step w w' -> forall W, sys_inv n W w -> exists W', later W W' /\ sys_inv n W' w'.
Proof.
  induction 1 as [x|x y z Hs _ IH]; intros W HI; [exists W; split; [apply know_refl|done]|].
  destruct (sys_inv_step L SL n W x y HI Hs) as (W1 & Hg1 & HI1). destruct (IH W1 HI1) as (W2 & Hg2 & HI2).
  exists W2. split; [eapply know_trans; [by apply extends_later|done]|done].
Qed.

Lemma sys_inv_fresh n w :
  cluster_init n (sy_cluster w) -> length (sy_servers w) = n -> sy_started w = [] -> sy_done w = [] ->
  (forall i sv, sy_servers w !! i = Some sv ->
     sv_queue sv = [] /\ sv_snap sv = None /\ sv_pos sv = 0%Z /\ rs_sm (sv_rsm sv) = s0) ->
  sys_inv n (ghost_init, []) w.
Proof.
  intros Hinit Hlen Hst Hdone Hsv. pose proof (Safe_init _ _ Hinit) as HS.
  pose proof Hinit as (_ & _ & _ & Hcalls & Hn).
  assert (forall i rf, cl_nodes (sy_cluster w) !! i = Some rf -> lastIncludedIndex rf = 0%Z /\ snapshot rf = [] /\
    pendingSnapshot rf = None /\ lastApplied rf = 0%Z /\ held rf = []) as Hfresh.
  { intros i rf [clk Hm]%Hn. by apply Make_fresh in Hm as (_ & _ & enc & _ & ->). }
  constructor; [done|by rewrite Hst| |done| | |by rewrite Hcalls; intros k p ?%not_elem_of_nil|by rewrite Hdone|].
  - intros e [(i & rf & Hi & He)|(k & Hk & _)]; [|rewrite Hcalls in Hk; by apply not_elem_of_nil in Hk].
    destruct (Hfresh _ _ Hi) as (_ & _ & _ & _ & Hh). rewrite Hh in He. by apply not_elem_of_nil in He.
  - intros i rf Hi. destruct (Hfresh _ _ Hi) as (Hx & Hs & Hp & _). unfold node_snap. rewrite Hx, Hs, Hp.
    split; [|done]. split; [done|by left].
  - intros i rf sv Hi Hi'. destruct (Hfresh _ _ Hi) as (Hx & Hs & Hp & Ha & _).
    destruct (Hsv _ _ Hi') as (Hq & Hsn & Hpos & Hm).
    constructor; rewrite ?Hq, ?Hsn, ?Hpos, ?Hm; [done|apply snap_at_0| |constructor|done].
    exists 0%Z. split; [done|]. unfold delivered. by rewrite Hp.
  - assert (forall t j e, ~ born (gL ghost_init) t j e) as Hnone.
    { intros t j e [He _]. by apply log_of_lookup in He as (l & Hl & _). }
    split; [intros t j e He|intros _ t j e t' j' e' op He]; by apply Hnone in He.
Qed.

Lemma sys_inv_init n w : sys_init n w -> sys_inv n (ghost_init, []) w.
Proof.
  intros (Hinit & Hlen & Hst & Hdone & Hsv). apply sys_inv_fresh; [done..|].
  intros i sv Hi. destruct (Hsv _ _ Hi) as (? & ? & ? & epoch & Hm). injection Hm as <-. done.
Qed.

(** A server's state is a committed prefix, then and later. *)
Lemma server_prefix n W W' w sv :
  sys_inv n W w -> later W W' -> sv ∈ sy_servers w ->
  (0 <= sv_pos sv)%Z /\ snap_at n W' (Z.to_nat (sv_pos sv)) (rs_sm (sv_rsm sv)).
Proof.
  intros [HS _ _ Hlen _ Hservers _ _ _] Hg [i Hi]%list_elem_of_lookup.
  assert (is_Some (cl_nodes (sy_cluster w) !! i)) as [rf Hrf].
  { apply lookup_lt_is_Some. rewrite (inv_len _ _ _ (sf_inv _ _ _ HS)), <- Hlen. by eapply lookup_lt_Some. }
  destruct (Hservers _ _ _ Hrf Hi). split; [done|by eapply snap_at_grow].
Qed.

Definition done_pos (d : nat * Z * Op Req * Rep) : nat := Z.to_nat d.1.1.2.

Lemma done_prefix n W d : ghost_ok n W.1 -> done_ok n W d -> exists s, snap_at n W (done_pos d) s.
Proof.
  destruct d as [[[i x] op] rep]. intros HG (k & e & s & s' & -> & Hs & (Hin & u & F & Hc & He) & Hop & Hdo).
  exists s'. unfold done_pos. simpl fst. simpl snd. rewrite Nat2Z.id. by eapply (snap_at_next n W k).
Qed.

(** An executed operation is the one of the log. *)
Lemma done_in_log n W u K F ops i x op rep :
  ghost_ok n W.1 -> covered n W.1 u K F -> decoded W (take K F) ops -> done_ok n W (i, x, op, rep) ->
  Z.to_nat x <= K ->
  ops !! Z.to_nat (x - 1) = Some op /\
  exists s s', state_at s0 ops (x - 1) s /\ sm_DoOp (op_Req op) s = Some (s', rep).
Proof.
  intros HG Hc Hd (k & e & s1 & s2 & -> & Hs & (Hin & u' & F' & Hc' & He) & Hop & Hdo) HK.
  rewrite Nat2Z.id in HK. replace (Z.to_nat (Z.of_nat (S k) - 1)) with k by lia.
  destruct (snap_at_log n W k s1 u K F ops HG Hc Hd Hs) as [Hlen Hrep]; [lia|]. split.
  - assert (take (S k) F' = take (S k) F) as Htk.
    { eapply covered_agree; [done|done|]. by eapply covered_le. }
    assert (F !! k = Some e) as He'.
    { rewrite <- He. symmetry. eapply (take_lookup k); [|exact Htk]. lia. }
    rewrite <- (lookup_take_lt F K k) in He' by lia.
    destruct (Forall2_lookup_l _ _ _ _ _ Hd He') as (op' & Hop' & [_ Hd']). congruence.
  - exists s1, s2. split; [|done]. split; [lia|]. by replace (Z.to_nat (Z.of_nat (S k) - 1)) with k by lia.
Qed.

(** One log behind two moments of a run. *)
Lemma one_log (L : GobLogLaws) (SL : StateMachineLaws St Req Rep) n w0 w1 w2 :
  sys_init n w0 -> rtc sys_step w0 w1 -> rtc sys_step w1 w2 ->
  exists (log : list (Op Req)) s, replay log s0 = Some s /\
    (forall op, op ∈ log -> exists command, command ∈ sy_started w2 /\ as_op command = Some op) /\
    (forall w i sv, w = w1 \/ w = w2 -> sy_servers w !! i = Some sv ->
       (sv_pos sv <= Z.of_nat (length log))%Z /\ state_at s0 log (sv_pos sv) (rs_sm (sv_rsm sv))) /\
    (forall i index op reply, (i, index, op, reply) ∈ sy_done w2 ->
       log !! Z.to_nat (index - 1) = Some op /\
       exists s s', state_at s0 log (index - 1) s /\ sm_DoOp (op_Req op) s = Some (s', reply)).
Proof.
  intros H0 H1 H2. destruct (sys_inv_run L SL n _ _ H1 _ (sys_inv_init _ _ H0)) as (W1 & _ & HI1).
  destruct (sys_inv_run L SL n _ _ H2 _ HI1) as (W & Hg & HI2).
  assert (forall sv, sv ∈ sy_servers w1 ++ sy_servers w2 ->
    (0 <= sv_pos sv)%Z /\ snap_at n W (Z.to_nat (sv_pos sv)) (rs_sm (sv_rsm sv))) as Hsv.
  { intros sv [Hin|Hin]%elem_of_app; [by apply (server_prefix n W1 W w1)|].
    apply (server_prefix n W W w2); [done|apply know_refl|done]. }
  pose proof (sf_ghost _ _ _ (si_safe _ _ _ HI2)) as HG.
  pose proof (si_done _ _ _ HI2) as Hdone. rewrite Forall_forall in Hdone.
  destruct (longest n W (((fun sv => Z.to_nat (sv_pos sv)) <$> sy_servers w1 ++ sy_servers w2) ++
    (done_pos <$> sy_done w2))) as (u & K & F & ops & s & Hc & Hd & Hr & Hle).
  { apply Forall_app. split; apply Forall_fmap, Forall_forall; simpl; [intros sv [_ ?]%Hsv; eauto|].
    intros d Hin. by apply done_prefix; [|apply Hdone]. }
  apply Forall_app in Hle as [Hle1 Hle2]. rewrite Forall_fmap, Forall_forall in Hle1.
  rewrite Forall_fmap, Forall_forall in Hle2. simpl in *.
  exists ops, s. split; [done|]. split; [|split].
  - intros op [k Hk]%list_elem_of_lookup. eapply Forall2_lookup_r in Hd as (e & _ & Hin & Hop); [|done].
    rewrite (si_started _ _ _ HI2) in Hin. eauto.
  - intros w i sv Hw Hi%list_elem_of_lookup_2.
    assert (sv ∈ sy_servers w1 ++ sy_servers w2) as Hin by (apply elem_of_app; destruct Hw as [-> | ->]; auto).
    destruct (Hsv _ Hin) as [Hpos Hst].
    destruct (snap_at_log n W _ _ u K F ops HG Hc Hd Hst) as [Hlen Hrep]; [by apply Hle1|]. split; [lia|]. by split.
  - intros i x op rep Hin. eapply done_in_log; eauto. by apply (Hle2 (i, x, op, rep)).
Qed.

(** C5. One replicated state machine: at any two moments of a run of a cluster of
    servers, with lost and delayed RPCs, leader changes, snapshots, crashes and
    restarts, there is one log of operations, each given to [Start] before, such
    that the state of every server is the replay of the prefix up to the last
    message it took, and every operation any server ever executed is the entry of
    its index, executed in the state the entries before it lead to, with the reply
    this gives. *)
Theorem replicas_agree (L : GobLogLaws) (SL : StateMachineLaws St Req Rep) n w0 w1 w2 :
  sys_init n w0 -> rtc sys_step w0 w1 -> rtc sys_step w1 w2 ->
  exists log : list (Op Req),
    (forall op, op ∈ log -> exists command, command ∈ sy_started w2 /\ as_op command = Some op) /\
    (forall w i sv, w = w1 \/ w = w2 -> sy_servers w !! i = Some sv ->
       (sv_pos sv <= Z.of_nat (length log))%Z /\ state_at s0 log (sv_pos sv) (rs_sm (sv_rsm sv))) /\
    (forall i index op reply, (i, index, op, reply) ∈ sy_done w2 ->
       log !! Z.to_nat (index - 1) = Some op /\
       exists s s', state_at s0 log (index - 1) s /\ sm_DoOp (op_Req op) s = Some (s', reply)).
Proof. intros H0 H1 H2. destruct (one_log L SL n w0 w1 w2 H0 H1 H2) as (log & s & _ & ?). eauto. Qed.

End RsmCluster.
