(* ===== verification/RsmLinear.v ===== *)
(** * Calls of a replicated service are linearizable

    [RsmCluster] with the [Submit] calls in progress on every server and the history
    of their invocations and returns.  The theorem is the contract a client of the
    service relies on: whatever messages are lost, servers crash and leaders change,
    the history is one of a single copy of the service. *)

From S2P Require Import Prelude.
From S2P Require Import Rpc.
From S2P Require Import Persister.
From S2P Require Import Raft.
From S2P Require Import RaftRPC.
From S2P Require Import RaftLog.
From S2P Require Import RaftFacts.
From S2P Require Import RaftCluster.
From S2P Require Import RaftApply.
From S2P Require Import RaftGhost.
From S2P Require Import RaftSafe.
From S2P Require Import RaftDeliver.
From S2P Require Import Rsm.
From S2P Require Import RsmCluster.

(** ** Histories

    A call is named by its operation, which is different for every call. *)
Inductive hevent (Req Rep : Type) : Type :=
  | Inv (op : Op Req)
  | Ret (op : Op Req) (res : Err * option Rep).

Arguments Inv {Req Rep}.
Arguments Ret {Req Rep}.

Section linearizable.
Context {St Req Rep : Type} `{SM : StateMachine St Req Rep}.

(** The call of [a] returned a reply before the one of [b] was made. *)
Definition precedes (h : list (hevent Req Rep)) (a b : Op Req) : Prop :=
  exists h1 h2 h3 r, h = h1 ++ Ret a (OK, Some r) :: h2 ++ Inv b :: h3.

(** [h] is a history of one copy of the service that starts in [s0]: the operations
    of [log], each invoked in [h], executed one after the other, give every reply of
    [h], in an order that respects that of the calls.  An operation whose call
    returned no reply may or may not be in [log]. *)
Definition linearizable (s0 : St) (h : list (hevent Req Rep)) : Prop :=
  exists log : list (Op Req),
    NoDup log /\ is_Some (replay log s0) /\ (forall op, op ∈ log -> Inv op ∈ h) /\
    (forall op r, Ret op (OK, Some r) ∈ h -> exists k s s',
       log !! k = Some op /\ replay (take k log) s0 = Some s /\ sm_DoOp (op_Req op) s = Some (s', r)) /\
    forall a b j k, precedes h a b -> log !! j = Some a -> log !! k = Some b -> j < k.
End linearizable.

Section RsmLinear.
Context {GL : GobLog}.
Context {St Req Rep : Type} `{SM : StateMachine St Req Rep}.
Context (as_op : option Cmd -> option (Op Req)) (maxraftstate : Z) (s0 : St).

Abbreviation system := (System (St := St) (Req := Req) (Rep := Rep)).
Abbreviation server := (Server (St := St) (Rep := Rep)).
Abbreviation rsm := (RSM (St := St) (Rep := Rep)).
Abbreviation history := (list (hevent Req Rep)).

(** ** Servers and their calls

    The calls in progress of every server, by the channel they wait on. *)
Record CSys : Type := mkCSys {
  cs_sys : system;
  cs_pending : list (gmap nat (Op Req * option Z));
  cs_hist : history;
}.

(** The ticker reads the node's term and role. *)
Definition tick_ok (rf : Raft) (ev : wait_event) : Prop :=
  match ev with WaitTick t l => GetState rf = (t, l) | _ => True end.

(** [Kill] closes Raft's channel, after which the applier returns. *)
Inductive stop_section (r : rsm) : rsm -> Prop :=
  | Stop_raft : stop_section r (raft_done r)
  | Stop_applier : rs_raftDone r = true -> stop_section r (set_done true r).

Inductive call_step (w : CSys) : CSys -> Prop :=
  | K_server y : server_step as_op (cs_sys w) y -> call_step w (mkCSys y (cs_pending w) (cs_hist w))
  | K_submit i sv calls req r' op ch :
      sy_servers (cs_sys w) !! i = Some sv -> cs_pending w !! i = Some calls ->
      (rs_nextSequence (sv_rsm sv) + 1 < two64)%N -> submit_register req (sv_rsm sv) = Some (r', op, ch) ->
      call_step w (mkCSys (set_rsm i r' sv (cs_sys w)) (<[i := <[ch := (op, None)]> calls]> (cs_pending w))
        (cs_hist w ++ [Inv op]))
  | K_start i rf calls op ch command rf' index term :
      cl_nodes (sy_cluster (cs_sys w)) !! i = Some rf -> cs_pending w !! i = Some calls ->
      calls !! ch = Some (op, None) -> as_op command = Some op -> Start command rf = Some (rf', (index, term, true)) ->
      call_step w (mkCSys
        (add_started command (set_cluster (set_node i rf' (sy_cluster (cs_sys w))) (cs_sys w)))
        (<[i := <[ch := (op, Some term)]> calls]> (cs_pending w)) (cs_hist w))
  | K_not_leader i rf sv calls op ch command index term :
      cl_nodes (sy_cluster (cs_sys w)) !! i = Some rf -> sy_servers (cs_sys w) !! i = Some sv ->
      cs_pending w !! i = Some calls -> calls !! ch = Some (op, None) -> as_op command = Some op ->
      Start command rf = Some (rf, (index, term, false)) ->
      call_step w (mkCSys (set_rsm i (removeWaiter (op_id op) ch (sv_rsm sv)) sv (cs_sys w))
        (<[i := delete ch calls]> (cs_pending w)) (cs_hist w ++ [Ret op (ErrWrongLeader, None)]))
  | K_return i rf sv calls op ch term ev r' res :
      cl_nodes (sy_cluster (cs_sys w)) !! i = Some rf -> sy_servers (cs_sys w) !! i = Some sv ->
      cs_pending w !! i = Some calls -> calls !! ch = Some (op, Some term) -> tick_ok rf ev ->
      wait_step term ch ev (sv_rsm sv) = Some (r', Some res) ->
      call_step w (mkCSys (set_rsm i (removeWaiter (op_id op) ch r') sv (cs_sys w))
        (<[i := delete ch calls]> (cs_pending w)) (cs_hist w ++ [Ret op res]))
  | K_stop i sv r' :
      sy_servers (cs_sys w) !! i = Some sv -> stop_section (sv_rsm sv) r' ->
      call_step w (mkCSys (set_rsm i r' sv (cs_sys w)) (cs_pending w) (cs_hist w))
  | K_restart i epoch y :
      (* drawn at random from 2^64 epochs *)
      (forall op, Inv op ∈ cs_hist w -> op_Server op = Z.of_nat i -> op_Epoch op <> epoch) ->
      restart_step maxraftstate s0 (cs_sys w) i epoch y ->
      call_step w (mkCSys y (<[i := ∅]> (cs_pending w)) (cs_hist w)).

Definition call_init (n : nat) (w : CSys) : Prop :=
  sys_init maxraftstate s0 n (cs_sys w) /\ cs_pending w = replicate n ∅ /\ cs_hist w = [].

(** A run of the calls is a run of the servers. *)
Lemma wait_step_section term ch ev (r r' : rsm) res :
  wait_step term ch ev r = Some (r', Some res) -> r' = r \/ exists reply, receive ch r = Some (r', reply).
Proof.
  assert (forall r1 x, receive_or_fail ch r = (r1, x) -> r1 = r \/ exists reply, receive ch r = Some (r1, reply)) as Hrf.
  { unfold receive_or_fail. intros r1 x. destruct (receive ch r) as [[r2 reply]|]; intros [= <- _]; eauto. }
  destruct ev as [| | |t b|]; simpl; intros H.
  - apply bind_Some in H as ([r1 reply] & Hr & [= <- _]). eauto.
  - destruct (receive_or_fail ch r) as [r1 x] eqn:E. injection H as <- _. eauto.
  - destruct (rs_raftDone r); [|done]. injection H as <- _. by left.
  - destruct (_ || _); [|done]. destruct (receive_or_fail ch r) as [r1 x] eqn:E. injection H as <- _. eauto.
  - destruct (rs_done r); [|done]. injection H as <- _. by left.
Qed.

Abbreviation sys_run := (rtc (sys_step as_op maxraftstate s0)).

Lemma set_rsm_twice i r1 r2 sv (y : system) :
  set_rsm i r2 (mkServer r1 (sv_queue sv) (sv_snap sv) (sv_pos sv)) (set_rsm i r1 sv y) = set_rsm i r2 sv y.
Proof. unfold set_rsm, set_server. simpl. by rewrite list_insert_insert_eq. Qed.

Lemma call_step_sys w w' : call_step w w' -> sys_run (cs_sys w) (cs_sys w').
Proof.
  intros [y Hs|i sv calls req r' op ch Hsv _ _ Hsub|i rf calls op ch command rf' index term Hi _ _ _ H
    |i rf sv calls op ch command index term _ Hsv _ _ _ _|i rf sv calls op ch term ev r' res _ Hsv _ _ _ Hw
    |i sv r' Hsv Hs|i epoch y _ Hs]; simpl.
  - by apply rtc_once, Y_server.
  - eapply rtc_once, Y_client; [done|by eapply C_register].
  - by eapply rtc_once, Y_start.
  - eapply rtc_once, Y_client; [done|by eapply C_remove].
  - apply wait_step_section in Hw as [->|[reply Hr]]; [eapply rtc_once, Y_client; [done|by eapply C_remove]|].
    eapply rtc_l; [eapply Y_client; [done|by eapply C_receive]|]. rewrite <- (set_rsm_twice i r' (removeWaiter (op_id op) ch r')).
    eapply rtc_once, Y_client; [|by eapply C_remove].
    apply list_lookup_insert_eq. by eapply lookup_lt_Some.
  - eapply rtc_once, Y_client; [done|]. destruct Hs; [by apply C_raft_done|by apply C_done].
  - by eapply rtc_once, Y_reboot.
Qed.

(** Nothing is taken out of the history. *)
Lemma call_step_prefix w w' : call_step w w' -> cs_hist w `prefix_of` cs_hist w'.
Proof. intros [| | | | | |]; simpl; try done; by apply prefix_app_r. Qed.

(** ** Committed operations *)

(** The operations of a committed prefix of the log. *)
Definition committed_ops (n : nat) (W : know) (ops : list (Op Req)) : Prop :=
  exists u F, covered n W.1 u (length ops) F /\ decoded as_op W (take (length ops) F) ops.

Lemma committed_ops_grow n W W' ops : later W W' -> committed_ops n W ops -> committed_ops n W' ops.
Proof.
  intros [[HL HA] HC] (u & F & Hc & Hd). exists u, F. split; [by eapply covered_grow|].
  eapply Forall2_impl; [exact Hd|]. intros e op [? ?]. split; auto.
Qed.

Lemma committed_ops_take n W ops k : committed_ops n W ops -> committed_ops n W (take k ops).
Proof.
  intros (u & F & Hc & Hd). exists u, F. rewrite length_take. split; [eapply covered_le; [done|lia|done]|].
  replace (take (k `min` length ops) F) with (take k (take (length ops) F)) by by rewrite take_take.
  by apply Forall2_take.
Qed.

Lemma committed_ops_agree n W ops ops' :
  ghost_ok n W.1 -> committed_ops n W ops -> committed_ops n W ops' -> length ops <= length ops' ->
  ops = take (length ops) ops'.
Proof.
  intros HG (u & F & Hc & Hd) Hc' Hle. apply (committed_ops_take _ _ _ (length ops)) in Hc' as (u' & F' & Hc' & Hd').
  rewrite length_take_le in Hc', Hd' by done.
  assert (take (length ops) F = take (length ops) F') as Htk by by eapply covered_agree.
  rewrite Htk in Hd. by eapply decoded_fun.
Qed.

Lemma committed_ops_started n W ops op :
  committed_ops n W ops -> op ∈ ops -> op ∈ omap as_op W.2.
Proof.
  intros (u & F & _ & Hd) [k Hk]%list_elem_of_lookup. eapply Forall2_lookup_r in Hd as (e & _ & Hin & Hop); [|done].
  apply list_elem_of_omap. eauto.
Qed.

(** A committed entry was appended by the leader of its term. *)
Lemma covered_born n G u k F j e :
  ghost_ok n G -> covered n G u k F -> j < k -> F !! j = Some e -> born (gL G) (le_Term e) j e.
Proof.
  intros HG [_ [->|(t & m & _ & _ & _ & Htk)]] Hj He; [lia|].
  assert (log_of (gL G) t !! j = Some e) as Hl by (rewrite <- He; symmetry; by eapply take_lookup).
  split; [|done]. rewrite <- Hl. symmetry. apply (take_lookup j (S j)); [lia|].
  by apply (logs_ok_coherent _ t (gk_logs _ _ HG)).
Qed.

Lemma committed_ops_nodup n W ops :
  ghost_ok n W.1 -> born_ok as_op W -> NoDup (omap as_op W.2) -> committed_ops n W ops -> NoDup ops.
Proof.
  intros HG [_ Hone] Hnd (u & F & Hc & Hd). apply NoDup_alt. intros i j op Hi Hj.
  assert (forall k, ops !! k = Some op -> exists e, born (gL W.1) (le_Term e) k e /\ as_op (le_Command e) = Some op) as Hb.
  { intros k Hk. pose proof (lookup_lt_Some _ _ _ Hk) as Hlt. eapply Forall2_lookup_r in Hd as (e & He & _ & Hop); [|done].
    apply lookup_take_Some in He as [He _]. exists e. split; [by eapply covered_born|done]. }
  destruct (Hb i Hi) as (e1 & H1 & Ho1), (Hb j Hj) as (e2 & H2 & Ho2). by eapply Hone.
Qed.

(** An executed operation ends a committed prefix. *)
Lemma done_committed n W i index op reply :
  ghost_ok n W.1 -> done_ok as_op s0 n W (i, index, op, reply) ->
  exists ops s s', committed_ops n W (ops ++ [op]) /\ replay ops s0 = Some s /\ sm_DoOp (op_Req op) s = Some (s', reply).
Proof.
  intros HG (k & e & s & s' & -> & (u0 & F0 & ops & Hc0 & Hd & Hr) & (Hin & u & F & Hc & He) & Hop & Hdo).
  exists ops, s, s'. split; [|done]. pose proof Hc0 as [Hl0 _]. pose proof (Forall2_length _ _ _ Hd) as Hlen.
  rewrite length_take in Hlen. exists u, F. rewrite length_app. simpl. rewrite Nat.add_1_r.
  replace (length ops) with k by lia. split; [done|].
  rewrite (take_S_r _ _ _ He). assert (take k F = take k F0) as ->.
  { eapply covered_agree; [done| |done]. eapply covered_le; [exact Hc|lia|done]. }
  apply Forall2_app; [done|]. by repeat constructor.
Qed.

(** ** The invariant *)

Abbreviation outcome := (nat * Z * Op Req * Rep)%type.

(** A server and its calls, when [D] was executed, [S] given to [Start] and [h] is the
    history: for some operations accepted and applied it is one of [Rsm]. *)
Record client_ok (D : list outcome) (S : list (Op Req)) (h : history) (i : nat) (r : rsm)
    (calls : gmap nat (Op Req * option Z)) (started : list (Op Req)) (applied : list (Op Req * Rep)) : Prop := {
  co_rsm : rsm_inv (mkRworld r calls started applied []);
  co_me : rs_me r = Z.of_nat i;
  co_applied : forall op reply, (op, reply) ∈ applied -> exists index, (i, index, op, reply) ∈ D;
  co_started : forall op, op ∈ S -> own_op r op -> op ∈ started;
  co_new : forall ch op, calls !! ch = Some (op, None) -> op ∉ S;
  co_calls : forall ch op t, calls !! ch = Some (op, t) -> Inv op ∈ h;
  co_issued : forall op, Inv op ∈ h -> own_op r op -> (op_Sequence op <= rs_nextSequence r)%N;
}.

(** [a] is committed, and [b] not before it. *)
Definition settled (n : nat) (W : know) (a b : Op Req) : Prop :=
  exists ops, committed_ops n W (ops ++ [a]) /\ b ∉ ops ++ [a].

Definition ret_ok (D : list outcome) (op : Op Req) (res : Err * option Rep) : Prop :=
  (exists reply i index, res = (OK, Some reply) /\ (i, index, op, reply) ∈ D) \/ res = (ErrWrongLeader, None).

Definition started_ops (y : system) : list (Op Req) := omap as_op (sy_started y).

(** What the calls and the history say of each other. *)
Record hist_ok (n : nat) (W : know) (y : system) (h : history) : Prop := {
  ho_once : NoDup (started_ops y);
  ho_invoked : forall op, op ∈ started_ops y -> Inv op ∈ h;
  ho_ret : forall op res, Ret op res ∈ h -> ret_ok (sy_done y) op res;
  ho_order : forall a b, precedes h a b -> settled n W a b;
}.

Definition clients_ok (y : system) (h : history) (p : list (gmap nat (Op Req * option Z))) : Prop :=
  forall i sv calls, sy_servers y !! i = Some sv -> p !! i = Some calls ->
    exists started applied, client_ok (sy_done y) (started_ops y) h i (sv_rsm sv) calls started applied.

Record call_inv (n : nat) (W : know) (w : CSys) : Prop := {
  ci_sys : sys_inv as_op s0 n W (cs_sys w);
  ci_hist : hist_ok n W (cs_sys w) (cs_hist w);
  ci_clients : clients_ok (cs_sys w) (cs_hist w) (cs_pending w);
  ci_len : length (cs_pending w) = length (sy_servers (cs_sys w));
}.

Lemma settled_grow n W W' a b : later W W' -> settled n W a b -> settled n W' a b.
Proof. intros Hg (ops & Hc & Hb). exists ops. split; [by eapply committed_ops_grow|done]. Qed.

(** Another server is not concerned. *)
Lemma client_frame D S h D' S' h' i r calls started applied :
  (forall x, x ∈ D -> x ∈ D') ->
  (forall op, op ∈ S' -> op ∈ S \/ op_Server op <> Z.of_nat i) ->
  (forall op, Inv op ∈ h -> Inv op ∈ h') ->
  (forall op, Inv op ∈ h' -> Inv op ∈ h \/ op_Server op <> Z.of_nat i) ->
  client_ok D S h i r calls started applied -> client_ok D' S' h' i r calls started applied.
Proof.
  intros HD HS Hh Hh' [Hrsm Hme Happ Hst Hnew Hcalls Hiss].
  assert (forall op : Op Req, own_op r op -> op_Server op = Z.of_nat i) as Hown by (intros op [-> _]; done).
  constructor; auto.
  - intros op reply (index & ?)%Happ. eauto.
  - intros op [?|Hne]%HS Ho; [auto|]. by destruct Hne; apply Hown.
  - intros ch op Hp [?|Hne]%HS; [by eapply Hnew|]. apply Hne, Hown. by apply (ri_issued _ Hrsm _ _ _ Hp).
  - eauto.
  - intros op [?|Hne]%Hh' Ho; [auto|]. by destruct Hne; apply Hown.
Qed.

Lemma client_same D S h h' i r calls started applied :
  (forall op, Inv op ∈ h <-> Inv op ∈ h') ->
  client_ok D S h i r calls started applied -> client_ok D S h' i r calls started applied.
Proof. intros Hh. apply client_frame; auto; intros op; rewrite Hh; auto. Qed.

(** A step at server [i]. *)
Lemma clients_at y h p y' h' i sv' calls' :
  clients_ok y h p -> i < length (sy_servers y) -> i < length p ->
  sy_servers y' = <[i := sv']> (sy_servers y) ->
  (forall x, x ∈ sy_done y -> x ∈ sy_done y') ->
  (forall op, op ∈ started_ops y' -> op ∈ started_ops y \/ op_Server op = Z.of_nat i) ->
  (forall op, Inv op ∈ h -> Inv op ∈ h') ->
  (forall op, Inv op ∈ h' -> Inv op ∈ h \/ op_Server op = Z.of_nat i) ->
  (exists started applied, client_ok (sy_done y') (started_ops y') h' i (sv_rsm sv') calls' started applied) ->
  clients_ok y' h' (<[i := calls']> p).
Proof.
  intros Hall Hi Hip Hs HD HS Hh Hh' Hnew j sv calls Hj Hp. rewrite Hs in Hj.
  apply list_lookup_insert_Some in Hj as [(-> & <- & _)|[Hne Hj]].
  - rewrite list_lookup_insert_eq in Hp by done. by injection Hp as <-.
  - rewrite list_lookup_insert_ne in Hp by done. destruct (Hall _ _ _ Hj Hp) as (st & ap & Hok). exists st, ap.
    eapply client_frame; [exact HD| |exact Hh| |exact Hok]; intros op [?|He]%HS || intros op [?|He]%Hh'; auto; right; lia.
Qed.

(** ** Histories grow *)

Lemma app_snoc_inv {A} (l1 l2 : list A) x y : l1 ++ [x] = l2 ++ [y] -> l1 = l2 /\ x = y.
Proof. apply app_inj_tail. Qed.

Lemma precedes_snoc (h : history) e a b :
  precedes (h ++ [e]) a b -> precedes h a b \/ (e = Inv b /\ exists r, Ret a (OK, Some r) ∈ h).
Proof.
  intros (h1 & h2 & h3 & r & He). destruct h3 as [|x h3 _] using rev_ind.
  - right. assert (h ++ [e] = (h1 ++ Ret a (OK, Some r) :: h2) ++ [Inv b]) as He' by by rewrite He, <- app_assoc.
    apply app_snoc_inv in He' as [-> ->]. split; [done|].
    exists r. apply elem_of_app. right. left.
  - left. exists h1, h2, h3, r.
    assert (h ++ [e] = (h1 ++ Ret a (OK, Some r) :: h2 ++ Inv b :: h3) ++ [x]) as He'.
    { rewrite He. by rewrite <- !app_assoc, <- !app_comm_cons, <- !app_assoc, <- !app_comm_cons. }
    by apply app_snoc_inv in He' as [-> _].
Qed.

Lemma precedes_ret (h : history) op res a b : precedes (h ++ [Ret op res]) a b -> precedes h a b.
Proof. by intros [?|[? _]]%precedes_snoc. Qed.

Lemma inv_ret (h : history) x res op : Inv op ∈ h <-> Inv op ∈ h ++ [Ret x res].
Proof. rewrite elem_of_app, list_elem_of_singleton. naive_solver. Qed.

(** ** Every step keeps it *)

(** The history of an unchanged or grown system, with a return or nothing at its end. *)
Lemma hist_grow n W W' y y' h h' :
  hist_ok n W y h -> later W W' -> started_ops y' = started_ops y -> (forall x, x ∈ sy_done y -> x ∈ sy_done y') ->
  h' = h \/ (exists op res, h' = h ++ [Ret op res] /\ ret_ok (sy_done y') op res) -> hist_ok n W' y' h'.
Proof.
  intros [H1 H2 H3 H4] Hg HS HD Hh.
  assert (forall op res, ret_ok (sy_done y) op res -> ret_ok (sy_done y') op res) as Hret.
  { intros op res [(r & i & x & -> & ?)|?]; [left; eauto 6|by right]. }
  constructor; rewrite ?HS; auto.
  - intros op Hop%H2. destruct Hh as [->|(x & res & -> & _)]; [done|by apply inv_ret].
  - intros op res Hin. destruct Hh as [->|(x & res' & -> & Hok)]; [auto|].
    apply elem_of_app in Hin as [?|[= -> ->]%list_elem_of_singleton]; auto.
  - intros a b Hp. eapply settled_grow; [done|].
    destruct Hh as [->|(x & res' & -> & _)]; [auto|]. apply precedes_ret in Hp. auto.
Qed.

(** The process is the same, with the same identities handed out. *)
Definition same_process (r r' : rsm) : Prop :=
  rs_me r' = rs_me r /\ rs_epoch r' = rs_epoch r /\ rs_nextSequence r' = rs_nextSequence r.

Lemma own_same r r' (op : Op Req) : same_process r r' -> own_op r' op <-> own_op r op.
Proof. intros (Hm & He & _). unfold own_op. by rewrite Hm, He. Qed.

Lemma removeWaiter_process id ch r : same_process r (removeWaiter id ch r).
Proof. unfold removeWaiter. by case_decide. Qed.

Lemma wait_step_process term ch ev r r' res : wait_step term ch ev r = Some (r', Some res) -> same_process r r'.
Proof.
  intros [->|[reply Hr]]%wait_step_section; [done|]. unfold receive in Hr.
  destruct (rs_chans r !! ch) as [[x|]|]; [|done..]. by injection Hr as <- _.
Qed.

Lemma same_process_trans r1 r2 r3 : same_process r1 r2 -> same_process r2 r3 -> same_process r1 r3.
Proof. unfold same_process. intuition congruence. Qed.

(** A step of the process itself: calls may go, operations may be applied. *)
Lemma client_step D D' S h h' i r r' calls calls' started applied applied' results :
  client_ok D S h i r calls started applied -> same_process r r' ->
  rsm_inv (mkRworld r' calls' started applied' results) ->
  (forall x, x ∈ D -> x ∈ D') -> (forall op, Inv op ∈ h <-> Inv op ∈ h') ->
  (forall op reply, (op, reply) ∈ applied' -> (op, reply) ∈ applied \/ exists index, (i, index, op, reply) ∈ D') ->
  (forall ch op t, calls' !! ch = Some (op, t) -> calls !! ch = Some (op, t)) ->
  client_ok D' S h' i r' calls' started applied'.
Proof.
  intros [Hrsm Hme Happ Hst Hnew Hcalls Hiss] Hr Hrsm' HD Hh Ha Hc. constructor.
  - destruct Hrsm'. constructor; simpl in *; auto.
  - destruct Hr as (-> & _). done.
  - intros op reply [(x & ?)%Happ|?]%Ha; eauto.
  - intros op HS Ho. apply Hst; [done|]. by apply (own_same r r').
  - eauto.
  - intros ch op t Hp%Hc. apply Hh. eauto.
  - intros op Hin%Hh Ho. destruct Hr as (Hm & He & ->). apply Hiss; [done|]. unfold own_op in *. by rewrite <- Hm, <- He.
Qed.

(** What [Submit] returns was executed. *)
Lemma returned_ok D S h i r calls started applied (r' : rsm) calls' op res :
  client_ok D S h i r calls started applied ->
  rsm_inv (mkRworld r' calls' started applied [(op, res)]) -> ret_ok D op res.
Proof.
  intros Hok Hinv. pose proof (ri_results _ Hinv) as Hres. apply Forall_cons in Hres as [Hres _].
  unfold result_ok in Hres. simpl in Hres. destruct res as [e [reply|]]; destruct e; try done; [left|by right].
  destruct (co_applied _ _ _ _ _ _ _ _ Hok _ _ Hres) as [x Hx]. eauto 6.
Qed.

Lemma hist_return n W W' w i sv calls op ch t (r' : rsm) res :
  call_inv n W w -> later W W' -> sy_servers (cs_sys w) !! i = Some sv -> cs_pending w !! i = Some calls ->
  same_process (sv_rsm sv) r' -> calls !! ch = Some (op, t) ->
  (forall started applied, rsm_inv (mkRworld (sv_rsm sv) calls started applied []) ->
     rsm_inv (mkRworld r' (delete ch calls) started applied [(op, res)])) ->
  hist_ok n W' (set_rsm i r' sv (cs_sys w)) (cs_hist w ++ [Ret op res]) /\
  clients_ok (set_rsm i r' sv (cs_sys w)) (cs_hist w ++ [Ret op res]) (<[i := delete ch calls]> (cs_pending w)).
Proof.
  intros [HS HH HC Hlens] Hg Hsv Hp Hr _ Hinv. destruct (HC _ _ _ Hsv Hp) as (st & ap & Hok).
  pose proof (Hinv _ _ (co_rsm _ _ _ _ _ _ _ _ Hok)) as Hrsm. split.
  - eapply hist_grow; [exact HH|exact Hg|done|done|]. right. eexists _, _. split; [done|].
    by eapply returned_ok.
  - eapply clients_at; [exact HC|by eapply lookup_lt_Some|by eapply lookup_lt_Some|done|done|by left| | |].
    + intros x. by apply inv_ret.
    + intros x Hx. left. by apply inv_ret in Hx.
    + exists st, ap. eapply client_step; [exact Hok|exact Hr|exact Hrsm|done|intros x; by apply inv_ret|by left|].
      intros c o t' [_ ?]%lookup_delete_Some. done.
Qed.

(** ** Submit *)

Lemma submit_op req (r r' : rsm) (op : Op Req) ch :
  (rs_nextSequence r + 1 < two64)%N -> submit_register req r = Some (r', op, ch) ->
  own_op r op /\ op_Sequence op = (rs_nextSequence r + 1)%N /\
  rs_me r' = rs_me r /\ rs_epoch r' = rs_epoch r /\ rs_nextSequence r' = (rs_nextSequence r + 1)%N.
Proof.
  intros Hn H. unfold submit_register in H. destruct (_ || _); [done|]. injection H as <- <- <-.
  simpl. by rewrite u64_inc_small.
Qed.

Lemma inv_inv (h : history) x op : Inv op ∈ h ++ [Inv x] <-> Inv op ∈ h \/ op = x.
Proof. rewrite elem_of_app, list_elem_of_singleton. naive_solver. Qed.

Lemma hist_submit n W W' y y' h op :
  sys_inv as_op s0 n W y -> hist_ok n W y h -> later W W' -> started_ops y' = started_ops y -> sy_done y' = sy_done y ->
  Inv op ∉ h -> hist_ok n W' y' (h ++ [Inv op]).
Proof.
  intros HS [H1 H2 H3 H4] Hg Hst HD Hnew. constructor; rewrite ?Hst; auto.
  - intros x Hx%H2. apply inv_inv. by left.
  - intros x res [Hx|[=]%list_elem_of_singleton]%elem_of_app. unfold ret_ok in *. rewrite HD. auto.
  - intros a b [Hp|([= ->] & r & Hr)]%precedes_snoc; [eapply settled_grow; eauto|]. eapply settled_grow; [done|].
    apply H3 in Hr as [(r' & i & x & [= <-] & Hin)|?]; [|done].
    pose proof (si_done _ _ _ _ _ HS) as Hd. rewrite Forall_forall in Hd. apply Hd in Hin.
    apply done_committed in Hin as (ops & s & s' & Hc & _); [|apply (si_safe _ _ _ _ _ HS)].
    exists ops. split; [done|]. intros Hb. apply Hnew, H2. eapply committed_ops_started in Hb; [|done].
    unfold started_ops. by rewrite <- (si_started _ _ _ _ _ HS).
Qed.

Lemma client_submit D S h i req r r' op ch calls started applied :
  client_ok D S h i r calls started applied -> (rs_nextSequence r + 1 < two64)%N ->
  (forall x, x ∈ S -> Inv x ∈ h) ->
  submit_register req r = Some (r', op, ch) -> Inv op ∉ h ->
  client_ok D S (h ++ [Inv op]) i r' (<[ch := (op, None)]> calls) started applied.
Proof.
  intros [Hrsm Hme Happ Hst Hnew Hcalls Hiss] Hn HS Hsub Hno.
  destruct (submit_op _ _ _ _ _ Hn Hsub) as (Ho & Hseq & Hm & He & Hnx).
  constructor; [| |done| | | |].
  - exact (rsm_inv_submit (mkRworld r calls started applied []) _ _ _ _ Hrsm Hn Hsub).
  - congruence.
  - intros x Hx Hox. apply Hst; [done|]. unfold own_op in *. by rewrite <- Hm, <- He.
  - intros c x [[<- [= <-]]|[_ Hc]]%lookup_insert_Some; [|by eapply Hnew]. intros Hx. by apply Hno, HS.
  - intros c x t [[<- [= <- _]]|[_ Hc]]%lookup_insert_Some; apply inv_inv; [by right|left; eauto].
  - intros x [Hx| ->]%inv_inv Hox; rewrite Hnx; [|lia].
    assert (own_op r x) as Hox' by (unfold own_op in *; by rewrite <- Hm, <- He). apply Hiss in Hox'; [lia|done].
Qed.

(** ** Start *)

Lemma started_add command op (y : system) : as_op command = Some op -> started_ops (add_started command y) = op :: started_ops y.
Proof. unfold started_ops. simpl. by intros ->. Qed.

Lemma client_start D S h i r op ch term calls started applied :
  client_ok D S h i r calls started applied -> calls !! ch = Some (op, None) ->
  client_ok D (op :: S) h i r (<[ch := (op, Some term)]> calls) (op :: started) applied.
Proof using as_op SM GL.
  intros [Hrsm Hme Happ Hst Hnew Hcalls Hiss] Hc.
  pose proof (rsm_inv_step as_op _ _ Hrsm (R_accept _ (mkRworld r calls started applied []) op ch Hc)) as Hrsm1.
  pose proof (rsm_inv_step as_op _ _ Hrsm1 (R_started _ (mkRworld r calls (op :: started) applied []) op ch term Hc)) as Hrsm2.
  constructor; [exact Hrsm2|done|done| | | |done].
  - intros x [->|Hx]%elem_of_cons Ho; [left|right; auto].
  - intros c x [[<- [=]]|[Hne Hx]]%lookup_insert_Some. intros [->|?]%elem_of_cons; [|by eapply Hnew].
    apply Hne. by apply (pending_inj _ _ _ _ _ _ _ Hrsm Hc Hx).
  - intros c x t [[<- [= <- _]]|[_ Hx]]%lookup_insert_Some; eauto.
Qed.

Lemma hist_start n W W' y y' h op :
  hist_ok n W y h -> later W W' -> started_ops y' = op :: started_ops y -> sy_done y' = sy_done y ->
  op ∉ started_ops y -> Inv op ∈ h -> hist_ok n W' y' h.
Proof.
  intros [H1 H2 H3 H4] Hg Hst HD Hnew Hin. constructor; rewrite ?Hst.
  - by constructor.
  - intros x [->|?]%elem_of_cons; auto.
  - intros x res Hx%H3. unfold ret_ok in *. by rewrite HD.
  - intros a b Hp. eapply settled_grow; eauto.
Qed.

(** ** Receiving a message *)

Lemma executed_started n W m (r : rsm) op reply :
  msg_ok as_op s0 n W m -> (op, reply) ∈ executed as_op m r -> op ∈ omap as_op W.2.
Proof.
  unfold executed. intros [(-> & _)|(k & e & -> & Hin & _)] Hx; [by apply not_elem_of_nil in Hx|].
  simpl in Hx. destruct (as_op (le_Command e)) as [o|] eqn:Ho; [|by apply not_elem_of_nil in Hx].
  destruct (sm_DoOp _ _) as [[s' rep]|]; [|by apply not_elem_of_nil in Hx].
  apply list_elem_of_singleton in Hx as [= -> _]. apply list_elem_of_omap. eauto.
Qed.

Lemma rsm_apply_process pb m (r r' : rsm) up : rsm_apply as_op pb m r = Some (r', up) -> same_process r r'.
Proof.
  intros [[_ [s ->]]|(op & reply & s & _ & _ & ->)]%rsm_apply_spec; [done|].
  destruct (wake_frame (op_id op) reply (set_sm s r)) as (Hm & He & Hn & _). by split_and!.
Qed.

Lemma client_receive n W D D' S h i r pb m r' up calls started applied :
  client_ok D S h i r calls started applied -> msg_ok as_op s0 n W m -> S = omap as_op W.2 ->
  rsm_apply as_op pb m r = Some (r', up) ->
  D' = D ++ ((fun '(op, reply) => (i, msg_index m, op, reply)) <$> executed as_op m r) ->
  client_ok D' S h i r' calls started (applied ++ executed as_op m r).
Proof.
  intros Hok Hm HS H ->. pose proof (rsm_apply_process _ _ _ _ _ H) as Hr.
  assert (forall op reply, (op, reply) ∈ executed as_op m r -> own_op r op -> op ∈ started) as Hown.
  { intros op reply Hx Ho. apply (co_started _ _ _ _ _ _ _ _ Hok); [|done]. rewrite HS. by eapply executed_started. }
  pose proof (rsm_inv_step as_op _ _ (co_rsm _ _ _ _ _ _ _ _ Hok)
    (R_apply _ (mkRworld r calls started applied []) _ _ _ _ Hown H)) as Hrsm.
  eapply client_step; [exact Hok|exact Hr|exact Hrsm| |done| |done].
  - intros x Hx. apply elem_of_app. by left.
  - intros op reply [?|Hx]%elem_of_app; [by left|right]. exists (msg_index m). apply elem_of_app. right.
    apply list_elem_of_fmap. by exists (op, reply).
Qed.

(** What a server does by itself: it receives a message, or its calls are not
    concerned. *)
Lemma server_step_cases y y' :
  server_step as_op y y' ->
  (sy_started y' = sy_started y) /\ length (sy_servers y') = length (sy_servers y) /\
  ((sy_done y' = sy_done y /\ forall i sv', sy_servers y' !! i = Some sv' ->
      exists sv, sy_servers y !! i = Some sv /\ sv_rsm sv' = sv_rsm sv) \/
   exists i sv pb m r' queue up, sy_servers y !! i = Some sv /\ m ∈ sv_queue sv /\
     rsm_apply as_op pb m (sv_rsm sv) = Some (r', up) /\
     sy_servers y' = <[i := mkServer r' queue up (msg_index m)]> (sy_servers y) /\
     sy_done y' = sy_done y ++ ((fun '(op, reply) => (i, msg_index m, op, reply)) <$> executed as_op m (sv_rsm sv))).
Proof.
  assert (forall i sv sv', sy_servers y !! i = Some sv -> sv_rsm sv' = sv_rsm sv -> forall j svj,
    <[i := sv']> (sy_servers y) !! j = Some svj -> exists sv0, sy_servers y !! j = Some sv0 /\ sv_rsm svj = sv_rsm sv0) as Hsame.
  { intros i sv sv' Hi Hr j svj [(-> & <- & _)|[_ Hj]]%list_lookup_insert_Some; eauto. }
  intros [c' _|i rf rf' _ _|i rf sv rf' act _ Hsv _|i rf sv m queue r' up _ Hsv Hq _ H|i rf sv index data rf' _ Hsv _ _];
    simpl; rewrite ?length_insert; (split; [done|]; split; [done|]).
  - left. split; [done|]. eauto.
  - left. split; [done|]. eauto.
  - left. split; [done|]. by eapply Hsame.
  - right. eexists i, sv, _, m, r', queue, up. split_and!; [done|rewrite Hq; left|exact H|done|done].
  - left. split; [done|]. by eapply Hsame.
Qed.

Lemma server_node n W y i sv :
  sys_inv as_op s0 n W y -> sy_servers y !! i = Some sv -> exists rf, cl_nodes (sy_cluster y) !! i = Some rf.
Proof.
  intros HS Hi. apply lookup_lt_is_Some. rewrite (inv_len _ _ _ (sf_inv _ _ _ (si_safe _ _ _ _ _ HS))).
  rewrite <- (si_len _ _ _ _ _ HS). by eapply lookup_lt_Some.
Qed.

Lemma clients_server n W y y' h p :
  sys_inv as_op s0 n W y -> clients_ok y h p -> server_step as_op y y' -> clients_ok y' h p.
Proof.
  intros HS HC (Hst & _ & Hcase)%server_step_cases.
  assert (started_ops y' = started_ops y) as Hops by (unfold started_ops; by rewrite Hst).
  destruct Hcase as [[Hd Hsame]|(i & sv & pb & m & r' & queue & up & Hsv & Hm & H & Hs & Hd)].
  - intros i sv' calls (sv & Hsv & ->)%Hsame Hp. rewrite Hd, Hops. by apply HC.
  - destruct (server_node _ _ _ _ _ HS Hsv) as [rf Hrf].
    pose proof (so_queue _ _ _ _ _ _ (si_servers _ _ _ _ _ HS _ _ _ Hrf Hsv)) as Hq. rewrite Forall_forall in Hq.
    intros j svj calls Hj Hp. rewrite Hs in Hj. rewrite Hops.
    apply list_lookup_insert_Some in Hj as [(-> & <- & _)|[Hne Hj]].
    + destruct (HC _ _ _ Hsv Hp) as (st & ap & Hok). eexists st, _. simpl.
      eapply client_receive; [exact Hok|by apply Hq| |exact H|exact Hd].
      unfold started_ops. by rewrite <- (si_started _ _ _ _ _ HS).
    + destruct (HC _ _ _ Hj Hp) as (st & ap & Hok). exists st, ap.
      eapply client_frame; [|by left|done|by left|exact Hok]. intros x Hx. rewrite Hd. apply elem_of_app. by left.
Qed.

Lemma fresh_client D S h i (r : rsm) (epoch : N) :
  rsm_init (mkRworld (Req := Req) r ∅ [] [] []) -> rs_me r = Z.of_nat i -> rs_epoch r = epoch ->
  (forall op, Inv op ∈ h -> op_Server op = Z.of_nat i -> op_Epoch op <> epoch) ->
  (forall op, op ∈ S -> Inv op ∈ h) -> client_ok D S h i r ∅ [] [].
Proof.
  intros Hr Hm He Hno HS.
  assert (forall op, Inv op ∈ h -> own_op r op -> False) as Hown.
  { intros op Hop [Ho1 Ho2]. apply (Hno op Hop); congruence. }
  constructor; [by apply rsm_inv_init|done| | | | |].
  - by intros op reply ?%not_elem_of_nil.
  - intros op Hop%HS Ho. by destruct (Hown op).
  - intros ch op Hc. by rewrite lookup_empty in Hc.
  - intros ch op t Hc. by rewrite lookup_empty in Hc.
  - intros op Hop Ho. by destruct (Hown op).
Qed.

Lemma MakeRSM_init me max epoch ps (r : rsm) :
  MakeRSM me max epoch ps s0 = Some r ->
  rsm_init (mkRworld (Req := Req) r ∅ [] [] []) /\ rs_me r = me /\ rs_epoch r = epoch.
Proof. unfold MakeRSM. intros (s' & _ & [= <-])%bind_Some. done. Qed.

Lemma call_inv_restart n W W' w i epoch y :
  call_inv n W w -> later W W' -> restart_step maxraftstate s0 (cs_sys w) i epoch y ->
  (forall op, Inv op ∈ cs_hist w -> op_Server op = Z.of_nat i -> op_Epoch op <> epoch) ->
  hist_ok n W' y (cs_hist w) /\ clients_ok y (cs_hist w) (<[i := ∅]> (cs_pending w)).
Proof.
  intros [HS HH HC Hlens] Hg [inc clk rf sv rf' r Hrf Hinc Hsv Hr HR H] Hep. split.
  - eapply hist_grow; [exact HH|exact Hg|done|done|by left].
  - eapply clients_at; [exact HC|by eapply lookup_lt_Some|rewrite Hlens; by eapply lookup_lt_Some|done|done|by left|done|by left|].
    apply MakeRSM_init in HR as (Hi & Hm & He). exists [], []. simpl.
    eapply fresh_client; [exact Hi|exact Hm|exact He|done|apply HH].
Qed.

Lemma submit_fresh n W w i sv calls req r' op ch :
  call_inv n W w -> sy_servers (cs_sys w) !! i = Some sv -> cs_pending w !! i = Some calls ->
  (rs_nextSequence (sv_rsm sv) + 1 < two64)%N -> submit_register req (sv_rsm sv) = Some (r', op, ch) ->
  Inv op ∉ cs_hist w.
Proof.
  intros [_ _ HC _] Hsv Hp Hn Hsub Hin. destruct (HC _ _ _ Hsv Hp) as (st & ap & Hok).
  destruct (submit_op _ _ _ _ _ Hn Hsub) as (Ho & Hseq & _).
  pose proof (co_issued _ _ _ _ _ _ _ _ Hok _ Hin Ho). lia.
Qed.

Lemma call_inv_submit n W W' w i sv calls req r' op ch :
  call_inv n W w -> later W W' -> sy_servers (cs_sys w) !! i = Some sv -> cs_pending w !! i = Some calls ->
  (rs_nextSequence (sv_rsm sv) + 1 < two64)%N -> submit_register req (sv_rsm sv) = Some (r', op, ch) ->
  let y := set_rsm i r' sv (cs_sys w) in let h := cs_hist w ++ [Inv op] in
  hist_ok n W' y h /\ clients_ok y h (<[i := <[ch := (op, None)]> calls]> (cs_pending w)).
Proof.
  intros HI Hg Hsv Hp Hn Hsub y h. pose proof (submit_fresh _ _ _ _ _ _ _ _ _ _ HI Hsv Hp Hn Hsub) as Hnew.
  destruct HI as [HS HH HC _]. destruct (HC _ _ _ Hsv Hp) as (st & ap & Hok). split.
  - eapply hist_submit; [exact HS|exact HH|exact Hg|done|done|done].
  - eapply clients_at; [exact HC|by eapply lookup_lt_Some|by eapply lookup_lt_Some|done|done|by left| | |].
    + intros x Hx. apply inv_inv. by left.
    + intros x [Hx| ->]%inv_inv; [by left|right]. destruct (submit_op _ _ _ _ _ Hn Hsub) as ([-> _] & _).
      apply (co_me _ _ _ _ _ _ _ _ Hok).
    + exists st, ap. eapply client_submit; [exact Hok|exact Hn|apply HH|exact Hsub|done].
Qed.

Lemma call_inv_start n W W' w i rf calls op ch command rf' term :
  call_inv n W w -> later W W' -> cl_nodes (sy_cluster (cs_sys w)) !! i = Some rf ->
  cs_pending w !! i = Some calls -> calls !! ch = Some (op, None) -> as_op command = Some op ->
  let y := add_started command (set_cluster (set_node i rf' (sy_cluster (cs_sys w))) (cs_sys w)) in
  hist_ok n W' y (cs_hist w) /\
  clients_ok y (cs_hist w) (<[i := <[ch := (op, Some term)]> calls]> (cs_pending w)).
Proof.
  intros [HS HH HC Hlens] Hg Hrf Hp Hc Hop y. destruct (sys_server_at _ _ _ _ _ _ _ HS Hrf) as [sv Hsv].
  destruct (HC _ _ _ Hsv Hp) as (st & ap & Hok).
  assert (started_ops y = op :: started_ops (cs_sys w)) as Hst by exact (started_add _ _ (set_cluster _ _) Hop). split.
  - eapply hist_start; [exact HH|exact Hg|exact Hst|done| |]; [by eapply (co_new _ _ _ _ _ _ _ _ Hok)|].
    by eapply (co_calls _ _ _ _ _ _ _ _ Hok).
  - eapply (clients_at _ _ _ _ _ i sv); [exact HC|by eapply lookup_lt_Some|by eapply lookup_lt_Some| |done| |done|by left|].
    + simpl. by rewrite list_insert_id.
    + rewrite Hst. intros x [->|?]%elem_of_cons; [right|by left].
      destruct (ri_issued _ (co_rsm _ _ _ _ _ _ _ _ Hok) _ _ _ Hc) as [[-> _] _]. apply (co_me _ _ _ _ _ _ _ _ Hok).
    + rewrite Hst. eexists (op :: st), ap. eapply client_start; [exact Hok|done].
Qed.

Lemma call_lengths w w' :
  call_step w w' -> length (sy_servers (cs_sys w')) = length (sy_servers (cs_sys w)) /\
    length (cs_pending w') = length (cs_pending w).
Proof.
  intros [y Hs|i sv calls req r' op ch _ _ _ _|i rf calls op ch command rf' index term _ _ _ _ _
    |i rf sv calls op ch command index term _ _ _ _ _ _|i rf sv calls op ch term ev r' res _ _ _ _ _ _
    |i sv r' _ _|i epoch y _ [inc clk rf sv rf' r _ _ _ _ _ _]]; simpl; rewrite ?length_insert; try done.
  apply server_step_cases in Hs as (_ & ? & _). done.
Qed.

(** A server stops: its calls wait on. *)
Lemma call_inv_stop n W W' w i sv r' :
  call_inv n W w -> later W W' -> sy_servers (cs_sys w) !! i = Some sv -> stop_section (sv_rsm sv) r' ->
  hist_ok n W' (set_rsm i r' sv (cs_sys w)) (cs_hist w) /\
  clients_ok (set_rsm i r' sv (cs_sys w)) (cs_hist w) (cs_pending w).
Proof.
  intros [HS HH HC Hlens] Hg Hsv Hs. split; [eapply hist_grow; [exact HH|exact Hg|done|done|by left]|].
  assert (is_Some (cs_pending w !! i)) as [calls Hp].
  { apply lookup_lt_is_Some. rewrite Hlens. by eapply lookup_lt_Some. }
  rewrite <- (list_insert_id _ _ _ Hp). destruct (HC _ _ _ Hsv Hp) as (st & ap & Hok).
  eapply clients_at; [exact HC|by eapply lookup_lt_Some|by eapply lookup_lt_Some|done|done|by left|done|by left|].
  exists st, ap. eapply (client_step _ _ _ _ _ _ _ _ _ _ _ _ _ []); [exact Hok|by destruct Hs| |done|done|by left|done].
  pose proof (co_rsm _ _ _ _ _ _ _ _ Hok) as Hrsm.
  destruct Hs as [|Hd]; [exact (rsm_inv_step as_op _ _ Hrsm (R_raft_done _ _))|exact (rsm_inv_step as_op _ _ Hrsm (R_done _ (mkRworld _ calls st ap []) Hd))].
Qed.

Lemma call_inv_step (L : GobLogLaws) (SL : StateMachineLaws St Req Rep) n W w w' :
  call_inv n W w -> call_step w w' -> exists W', later W W' /\ call_inv n W' w'.
Proof.
  intros HI Hs. destruct (sys_inv_run as_op maxraftstate s0 L SL n _ _ (call_step_sys _ _ Hs) W (ci_sys _ _ _ HI))
    as (W' & Hg & HS'). exists W'. split; [done|]. destruct (call_lengths _ _ Hs) as [Hl1 Hl2].
  assert (length (cs_pending w') = length (sy_servers (cs_sys w'))) as Hlen by (rewrite Hl1, Hl2; apply HI).
  cut (hist_ok n W' (cs_sys w') (cs_hist w') /\ clients_ok (cs_sys w') (cs_hist w') (cs_pending w'));
    [by intros [? ?]|]. clear HS' Hlen Hl1 Hl2.
  destruct Hs as [y Hs|i sv calls req r' op ch Hsv Hp Hn Hsub|i rf calls op ch command rf' index term Hi Hp Hc Ho H
    |i rf sv calls op ch command index term _ Hsv Hp Hc _ _|i rf sv calls op ch term ev r' res _ Hsv Hp Hc _ Hw
    |i sv r' Hsv Hs|i epoch y Hep Hs]; simpl.
  - destruct HI as [HS HH HC _]. split; [|by eapply clients_server].
    pose proof (server_step_cases _ _ Hs) as (Hst & _ & Hd).
    eapply hist_grow; [exact HH|exact Hg|by unfold started_ops; rewrite Hst| |by left].
    intros x Hx. destruct Hd as [[-> _]|(? & ? & ? & ? & ? & ? & ? & _ & _ & _ & _ & ->)]; [done|apply elem_of_app; by left].
  - by eapply call_inv_submit.
  - by eapply call_inv_start.
  - eapply hist_return; [exact HI|exact Hg|exact Hsv|exact Hp|apply removeWaiter_process|exact Hc|].
    intros st ap Hr. exact (rsm_inv_step as_op _ _ Hr (R_not_leader _ (mkRworld _ calls st ap []) _ _ Hc)).
  - eapply hist_return; [exact HI|exact Hg|exact Hsv|exact Hp| |exact Hc|].
    + eapply same_process_trans; [by eapply wait_step_process|apply removeWaiter_process].
    + intros st ap Hr. exact (rsm_inv_step as_op _ _ Hr (R_return _ (mkRworld _ calls st ap []) _ _ _ _ _ _ Hc Hw)).
  - by eapply call_inv_stop.
  - by eapply call_inv_restart.
Qed.

Lemma call_inv_run (L : GobLogLaws) (SL : StateMachineLaws St Req Rep) n w w' :
  rtc call_step w w' -> forall W, call_inv n W w -> exists W', later W W' /\ call_inv n W' w'.
Proof.
  induction 1 as [x|x y z Hs _ IH]; intros W HI; [exists W; split; [apply know_refl|done]|].
  destruct (call_inv_step L SL n W x y HI Hs) as (W1 & Hg1 & HI1). destruct (IH W1 HI1) as (W2 & Hg2 & HI2).
  exists W2. split; [by eapply know_trans|done].
Qed.

Lemma call_inv_init n w : call_init n w -> call_inv n (ghost_init, []) w.
Proof.
  intros (H0 & Hp & Hh). pose proof H0 as (_ & Hlen & Hst & Hd & Hsv).
  assert (started_ops (cs_sys w) = []) as Hops by (unfold started_ops; by rewrite Hst).
  constructor; [by eapply sys_inv_init| | |by rewrite Hp, length_replicate].
  - constructor; rewrite ?Hops, ?Hh; [constructor|by intros ? ?%not_elem_of_nil|by intros ? ? ?%not_elem_of_nil|].
    intros a b (h1 & h2 & h3 & r & He). by destruct h1.
  - intros i sv calls Hi Hc. rewrite Hp in Hc. apply lookup_replicate in Hc as [-> _].
    destruct (Hsv _ _ Hi) as (_ & _ & _ & epoch & Hm). apply MakeRSM_init in Hm as (Hr & Hme & He).
    exists [], []. eapply fresh_client; [exact Hr|exact Hme|exact He| |]; rewrite ?Hh, ?Hops; by intros ? ?%not_elem_of_nil.
Qed.

(** ** The theorem *)

(** A committed prefix with everything executed. *)
Lemma done_log n W y :
  sys_inv as_op s0 n W y -> exists log, committed_ops n W log /\ is_Some (replay log s0) /\
    forall i index op reply, (i, index, op, reply) ∈ sy_done y -> exists k s s',
      log !! k = Some op /\ replay (take k log) s0 = Some s /\ sm_DoOp (op_Req op) s = Some (s', reply).
Proof.
  intros HS. pose proof (sf_ghost _ _ _ (si_safe _ _ _ _ _ HS)) as HG. pose proof (si_done _ _ _ _ _ HS) as Hd.
  rewrite Forall_forall in Hd.
  destruct (longest as_op s0 n W (done_pos <$> sy_done y)) as (u & K & F & ops & s & Hc & Hdec & Hr & Hle).
  { apply Forall_fmap, Forall_forall. intros d Hin. by apply (done_prefix as_op s0 n W d HG), Hd. }
  pose proof Hc as [HlF _]. pose proof (Forall2_length _ _ _ Hdec) as Hlen. rewrite length_take_le in Hlen by done.
  exists ops. split; [exists u, F; by rewrite <- Hlen|]. split; [by exists s|]. intros i x op rep Hin.
  rewrite Forall_fmap, Forall_forall in Hle. pose proof (Hle _ Hin) as HK. unfold done_pos in HK. simpl in HK.
  destruct (done_in_log as_op s0 n W u K F ops i x op rep HG Hc Hdec (Hd _ Hin) HK) as (Hop & s1 & s2 & [_ Hst] & Hdo).
  by exists (Z.to_nat (x - 1)), s1, s2.
Qed.

(** Committed operations were invoked, each once. *)
Lemma committed_once n W w ops :
  call_inv n W w -> committed_ops n W ops -> NoDup ops /\ forall op, op ∈ ops -> Inv op ∈ cs_hist w.
Proof.
  intros [HS HH _ _] Hops. pose proof (si_started _ _ _ _ _ HS) as Hst.
  assert (started_ops (cs_sys w) = omap as_op W.2) as Heq by (unfold started_ops; by rewrite Hst). split.
  - eapply committed_ops_nodup; [apply (si_safe _ _ _ _ _ HS)|apply HS| |exact Hops]. rewrite <- Heq. apply HH.
  - intros op Hop. apply HH. rewrite Heq. by eapply committed_ops_started.
Qed.

Lemma committed_ops_nil n W w : call_inv n W w -> committed_ops n W [].
Proof. intros HI. destruct (done_log n W _ (ci_sys _ _ _ HI)) as (l & Hl & _). by apply (committed_ops_take _ _ _ 0) in Hl. Qed.

(** [log] replays, with all that was returned. *)
Definition answers (log : list (Op Req)) (h : history) : Prop :=
  is_Some (replay log s0) /\ forall op r, Ret op (OK, Some r) ∈ h -> exists k s s',
    log !! k = Some op /\ replay (take k log) s0 = Some s /\ sm_DoOp (op_Req op) s = Some (s', r).

(** A committed prefix that replays is part of one that answers what was returned. *)
Lemma call_log_after n W w ops :
  call_inv n W w -> committed_ops n W ops -> is_Some (replay ops s0) ->
  exists more, committed_ops n W (ops ++ more) /\ answers (ops ++ more) (cs_hist w).
Proof.
  intros [HS HH _ _] Hops Hr. pose proof (sf_ghost _ _ _ (si_safe _ _ _ _ _ HS)) as HG.
  destruct (done_log n W _ HS) as (log & Hlog & Hrep & Hdone).
  assert (forall op r, Ret op (OK, Some r) ∈ cs_hist w -> exists i x, (i, x, op, r) ∈ sy_done (cs_sys w)) as Hret.
  { intros op r [(r' & i & x & [= ->] & Hin)|?]%(ho_ret _ _ _ _ HH); [eauto|done]. }
  destruct (decide (length ops <= length log)) as [Hle|Hle].
  - exists (drop (length ops) log). rewrite (committed_ops_agree _ _ _ _ HG Hops Hlog Hle) at 1 3.
    rewrite take_drop. split; [done|]. split; [done|]. intros op r (i & x & Hin)%Hret. by eapply Hdone.
  - exists []. rewrite app_nil_r. split; [done|]. split; [done|]. intros op r (i & x & Hin)%Hret.
    destruct (Hdone _ _ _ _ Hin) as (k & s & s' & Hk & Hs & Hd). exists k, s, s'.
    rewrite (committed_ops_agree _ _ _ _ HG Hlog Hops ltac:(lia)) in Hk, Hs.
    pose proof (lookup_lt_Some _ _ _ Hk) as Hlt. rewrite length_take in Hlt.
    rewrite take_take, Nat.min_l in Hs by lia. by apply lookup_take_Some in Hk as [? _].
Qed.

(** The committed operations explain the history. *)
Lemma call_log n W w : call_inv n W w -> linearizable s0 (cs_hist w).
Proof.
  intros HI. pose proof HI as [HS HH _ _]. pose proof (sf_ghost _ _ _ (si_safe _ _ _ _ _ HS)) as HG.
  destruct (call_log_after n W w [] HI (committed_ops_nil _ _ _ HI)) as (log & Hlog & Hrep & Hret); [by eexists|]. simpl in *. exists log.
  destruct (committed_once n W w log HI Hlog) as [Hnd Hinv]. split_and!; try done.
  - intros a b j k Hp Hj Hk. apply (ho_order _ _ _ _ HH) in Hp as (ops & Hc & Hb).
    destruct (decide (length (ops ++ [a]) <= length log)) as [Hle|Hle].
    + pose proof (committed_ops_agree _ _ _ _ HG Hc Hlog Hle) as Heq.
      assert (log !! length ops = Some a) as Ha.
      { rewrite <- (lookup_take_lt log (length (ops ++ [a]))) by (rewrite length_app; simpl; lia).
        rewrite <- Heq. by apply list_lookup_middle. }
      assert (j = length ops) as -> by by eapply NoDup_lookup.
      apply Nat.nle_gt. intros Hkj. apply Hb. rewrite Heq. apply (list_elem_of_lookup_2 _ k).
      rewrite lookup_take_lt; [done|]. rewrite length_app. simpl. lia.
    + pose proof (committed_ops_agree _ _ _ _ HG Hlog Hc ltac:(lia)) as Heq. exfalso. apply Hb.
      apply (list_elem_of_lookup_2 _ k). rewrite Heq in Hk. by apply lookup_take_Some in Hk as [? _].
Qed.

(** What a call returns. *)
Lemma call_result n W w op res :
  call_inv n W w -> Ret op res ∈ cs_hist w -> (exists reply, res = (OK, Some reply)) \/ res = (ErrWrongLeader, None).
Proof. intros [_ HH _ _] [(r & i & x & -> & _)|?]%(ho_ret _ _ _ _ HH); eauto. Qed.

(** A step that makes a call gives it an operation of its own. *)
Lemma call_fresh n W w w' op l :
  call_inv n W w -> call_step w w' -> cs_hist w' = cs_hist w ++ Inv op :: l -> Inv op ∉ cs_hist w.
Proof.
  intros HI Hs. destruct HI as [_ _ HC _].
  assert (cs_hist w <> cs_hist w ++ Inv op :: l) as Hne.
  { intros He%(f_equal length). rewrite length_app in He. simpl in He. lia. }
  destruct Hs as [y Hs|i sv calls req r' op' ch Hsv Hp Hn Hsub| | | | |]; simpl;
    try (intros He; by apply Hne in He); try (by intros [= ?]%app_inv_head).
  intros [= <- <-]%app_inv_head Hin. destruct (HC _ _ _ Hsv Hp) as (st & ap & Hok).
  destruct (submit_op _ _ _ _ _ Hn Hsub) as (Hown & Hq).
  pose proof (co_issued _ _ _ _ _ _ _ _ Hok _ Hin Hown). lia.
Qed.

(** C3. Calls are linearizable: in every run of a replicated service - with lost and
    delayed RPCs, leader changes, snapshots, servers that are stopped, crash and
    restart, and any number of calls side by side - every call of [Submit] that
    returns, returns OK with a reply or ErrWrongLeader, and the history of
    invocations and replies is one of a single copy of the service: there is an order
    of the operations, each executed once, that gives every reply and in which an
    operation comes before all those invoked after its reply. *)
Theorem submit_linearizable (L : GobLogLaws) (SL : StateMachineLaws St Req Rep) n w0 w :
  call_init n w0 -> rtc call_step w0 w ->
  linearizable s0 (cs_hist w) /\
  (forall op e reply, Ret op (e, reply) ∈ cs_hist w ->
     (e = OK /\ is_Some reply) \/ (e = ErrWrongLeader /\ reply = None)).
Proof.
  intros H0 Hr. destruct (call_inv_run L SL n _ _ Hr _ (call_inv_init _ _ H0)) as (W & _ & HI).
  split; [by eapply call_log|].
  intros op e reply [(r & [= -> ->])|[= -> ->]]%(call_result _ _ _ _ _ HI); [left; eauto|by right].
Qed.

End RsmLinear.
