(* ===== verification/RfSrv.v ===== *)
(** * The service Raft is tested with ([raft1/server.go], [raft1/test.go])

    A server that only records the commands it receives, takes a snapshot of them
    after every tenth, and reports each command to the tester, which compares it with
    what the other servers reported ([CheckLogs]); and the tester's checks of the
    reports ([nCommitted]) and of the leaders ([checkOneLeader]).  The calls to the
    tester fail once their connection broke.  [RfChecks] shows that the checks never
    fail. *)

From S2P Require Import Prelude.
From S2P Require Import Persister.
From S2P Require Import Raft.
From S2P Require Import RaftRPC.
From S2P Require Import RaftPersist.
From S2P Require Import RaftCluster.
From S2P Require Import RaftApply.
From S2P Require Import Rsm.
From S2P Require Import RsmCluster.

(** A snapshot of the commands up to an index, in gob. *)
Class GobRf {GL : GobLog} := {
  gob_snap : Z -> list (option Cmd) -> bytes;
  ungob_snap : bytes -> option (Z * list (option Cmd));
}.

Class GobRfLaws {GL : GobLog} {GR : GobRf} : Prop := {
  ungob_gob_snap i l : ungob_snap (gob_snap i l) = Some (i, l);
  gob_snap_nonempty i l : gob_snap i l <> [];
}.

Definition SnapShotInterval : Z := 10.

Section RfSrv.
Context {GL : GobLog} {GR : GobRf} `{!EqDecision Cmd}.

(** ** The server *)

Record rfsrv : Type := mkRfsrv { rv_lastApplied : Z; rv_log : gmap Z (option Cmd) }.

(** The error messages, without the text. *)
Inductive rf_err : Type :=
| NilSnapshot
| UndecodedSnapshot
| WrongSnapshotIndex
| ApplyOutOfOrder (index : Z)
| DifferentCommand (index : Z) (server : nat)
| ErrRPC.  (* the call of CheckLogs failed *)

#[global] Instance rf_err_eq_dec : EqDecision rf_err.
Proof. solve_decision. Defined.

(** Returns the error message, if there is one.  The decoder's error on an empty
    snapshot that is not nil is taken for the nil one. *)
Definition ingestSnap (snapshot : bytes) (index : Z) (rs : rfsrv) : rfsrv * option rf_err :=
if decide (snapshot = []) then (rs, Some NilSnapshot)
else match ungob_snap snapshot with
     | None => (rs, Some UndecodedSnapshot)
     | Some (lastIncludedIndex, xlog) =>
         if decide (index <> -1 /\ index <> lastIncludedIndex)%Z then (rs, Some WrongSnapshotIndex)
         else (mkRfsrv lastIncludedIndex (map_seqZ 0 xlog), None)
     end.

(** [newRfsrv] on the snapshot of the persister; [None] is [log.Fatalf], and the flag
    says whether the log is sent to the tester. *)
Definition newRfsrv (withSnap : bool) (ps : Persister) : option (rfsrv * bool) :=
let s := mkRfsrv 0 ∅ in
let sn := ReadSnapshot ps in
if withSnap && bool_decide (0 < length sn) then
  match ingestSnap sn (-1) s with (s', None) => Some (s', true) | (_, Some _) => None end
else Some (s, false).

(** ** The tester *)

(** What the tester knows of a server; and the tester's state. *)
Record raftServer : Type := mkRaftServer { ts_logs : gmap Z (option Cmd); ts_applyErr : option rf_err }.

Record Test : Type := mkTest { ts_srvs : list raftServer; ts_maxIndex : Z }.

Definition with_srvs (f : list raftServer -> list raftServer) (ts : Test) : Test :=
mkTest (f (ts_srvs ts)) (ts_maxIndex ts).

Definition set_logs (logs : gmap Z (option Cmd)) (s : raftServer) : raftServer := mkRaftServer logs (ts_applyErr s).

(** The last server that reported another command. *)
Fixpoint disagreement (index : Z) (v : option Cmd) (j : nat) (srvs : list raftServer) : option rf_err :=
match srvs with
| [] => None
| rs :: srvs' =>
    match disagreement index v (S j) srvs' with
    | Some e => Some e
    | None =>
        match ts_logs rs !! index with
        | Some old => if decide (old <> v) then Some (DifferentCommand index j) else None
        | None => None
        end
    end
end.

(** The error message and whether the entry before was reported. *)
Definition CheckLogs (i : nat) (index : Z) (v : option Cmd) (ts : Test) : option (Test * option rf_err * bool) :=
me ← ts_srvs ts !! i;
let err_msg := disagreement index v 0 (ts_srvs ts) in
let prevok := bool_decide (is_Some (ts_logs me !! (index - 1)%Z)) in
Some (mkTest (<[i := set_logs (<[index := v]> (ts_logs me)) me]> (ts_srvs ts))
        (if (ts_maxIndex ts <? index)%Z then index else ts_maxIndex ts), err_msg, prevok).

Definition IngestLog (i : nat) (xlog : gmap Z (option Cmd)) : Test -> Test := with_srvs (alter (set_logs xlog) i).

Definition ApplyErr (i : nat) (e : rf_err) : Test -> Test :=
with_srvs (alter (fun me => mkRaftServer (ts_logs me) (Some e)) i).

(** How many servers reported a command for [index], and it; [None] is the end of the
    test, on an error message or two different commands. *)
Fixpoint nCommitted_loop (index : Z) (count : Z) (cmd : option Cmd) (srvs : list raftServer) : option (Z * option Cmd) :=
match srvs with
| [] => Some (count, cmd)
| rs :: srvs' =>
    match ts_applyErr rs with
    | Some _ => None
    | None =>
        match ts_logs rs !! index with
        | Some cmd1 =>
            if decide (0 < count /\ cmd <> cmd1)%Z then None
            else nCommitted_loop index (count + 1) cmd1 srvs'
        | None => nCommitted_loop index count cmd srvs'
        end
    end
end.

Definition nCommitted (index : Z) (ts : Test) : option (Z * option Cmd) := nCommitted_loop index 0 None (ts_srvs ts).

(** One round of [checkOneLeader] on what the servers answered to [GetState]: the
    leaders of each term; [None] is the end of the test, when a term has two. *)
Definition tally (polls : list (nat * (Z * bool))) : gmap Z (list nat) :=
foldl (fun leaders '(i, (term, leader)) =>
  if leader : bool then <[term := default [] (leaders !! term) ++ [i]]> leaders else leaders) ∅ polls.

Definition checkLeaders (polls : list (nat * (Z * bool))) : option (gmap Z (list nat)) :=
let leaders := tally polls in
if decide (map_Forall (fun _ l => length l <= 1) leaders) then Some leaders else None.

(** ** Calls to the tester

    The calls of a server go over one connection ([proxy.go], [testclnt.go]).  It may
    break, also when [CheckpointPersister] closes it: a call that is outstanding then
    fails, although the tester may still serve its request until the server's next
    process is started, and so does every later call ([Demux]). *)
Inductive request : Type :=
| RqCheckLogs (index : Z) (v : option Cmd)
| RqIngestLog (xlog : gmap Z (option Cmd))
| RqApplyErr (e : rf_err).

(** The tester's handlers; only the reply of [CheckLogsRPC] has contents. *)
Definition serve (i : nat) (rq : request) (ts : Test) : option (Test * option rf_err * bool) :=
match rq with
| RqCheckLogs index v => CheckLogs i index v ts
| RqIngestLog xlog => Some (IngestLog i xlog ts, None, false)
| RqApplyErr e => Some (ApplyErr i e ts, None, false)
end.

(** A server's connection: whether it is open, and the request that was outstanding
    when it broke, if the tester has not served it. *)
Record link : Type := mkLink { ln_up : bool; ln_late : option request }.

Definition link_cut (ln : link) : link := mkLink false (ln_late ln).

(** [answered] or the connection breaks; the reply, [None] for a failed call. *)
Definition TesterClnt_Call (i : nat) (rq : request) (answered : bool) (c : link * Test)
    : option (option (option rf_err * bool) * (link * Test)) :=
let '(ln, ts) := c in
if ln_up ln then
  if answered then '(ts', e, prevok) ← serve i rq ts; Some (Some (e, prevok), (ln, ts'))
  else Some (None, (mkLink false (Some rq), ts))
else Some (None, (ln, ts)).

Definition proxy_CheckLogs (i : nat) (index : Z) (v : option Cmd) (answered : bool) (c : link * Test)
    : option (option rf_err * bool * (link * Test)) :=
'(rep, c') ← TesterClnt_Call i (RqCheckLogs index v) answered c;
Some (match rep with Some (e, prevok) => (e, prevok) | None => (Some ErrRPC, false) end, c').

Definition proxy_IngestLog (i : nat) (xlog : gmap Z (option Cmd)) (answered : bool) (c : link * Test) : option (link * Test) :=
'(_, c') ← TesterClnt_Call i (RqIngestLog xlog) answered c; Some c'.

Definition proxy_ApplyErr (i : nat) (e : rf_err) (answered : bool) (c : link * Test) : option (link * Test) :=
'(_, c') ← TesterClnt_Call i (RqApplyErr e) answered c; Some c'.

(** [ApplyErr] is called when there is a message. *)
Definition reported (i : nat) (err_msg : option rf_err) (answered : bool) (c : link * Test) : option (link * Test) :=
match err_msg with None => Some c | Some e => proxy_ApplyErr i e answered c end.

(** What the tester gets from [GetState] of a server; a failed call reads as zero. *)
Definition Rfproxy_GetState (answered : bool) (rf : Raft) : Z * bool :=
if answered then GetState rf else (0%Z, false).

(** ** A message of Raft

    The applier without snapshots, and with them: the new state of the server, of its
    connection and of the tester, and the arguments of [rf.Snapshot] if it is called;
    [a1] and [a2] say whether the first call and that of [ApplyErr] are answered. *)
Definition rf_applier (i : nat) (m : ApplyMsg) (a1 a2 : bool) (c : link * Test) : option (link * Test) :=
if negb (am_CommandValid m) then Some c
else
  '(err_msg, prevok, c1) ← proxy_CheckLogs i (am_CommandIndex m) (am_Command m) a1 c;
  let err_msg := if (1 <? am_CommandIndex m)%Z && negb prevok
                 then Some (ApplyOutOfOrder (am_CommandIndex m)) else err_msg in
  reported i err_msg a2 c1.

Definition snapshot_log (index : Z) (log : gmap Z (option Cmd)) : list (option Cmd) :=
(fun j => default None (log !! j)) <$> seqZ 0 (index + 1).

Definition applierSnap (i : nat) (m : ApplyMsg) (a1 a2 : bool) (rs : rfsrv) (c : link * Test)
    : option (rfsrv * (link * Test) * option (Z * bytes)) :=
if am_SnapshotValid m then
  let '(rs', err_msg) := ingestSnap (am_Snapshot m) (am_SnapshotIndex m) rs in
  c1 ← proxy_IngestLog i (rv_log rs') a1 c;
  c2 ← reported i err_msg a2 c1;
  Some (rs', c2, None)
else if am_CommandValid m then
  let index := am_CommandIndex m in
  '(c1, err_msg) ←
    (if decide (index <> rv_lastApplied rs + 1)%Z then Some (c, Some (ApplyOutOfOrder index))
     else
       '(err_msg, prevok, c1) ← proxy_CheckLogs i index (am_Command m) a1 c;
       Some (c1, if bool_decide (err_msg <> Some ErrRPC) && (1 <? index)%Z && negb prevok
                 then Some (ApplyOutOfOrder index) else err_msg));
  let log := <[index := am_Command m]> (rv_log rs) in
  let up := if (Z.rem (index + 1) SnapShotInterval =? 0)%Z
            then Some (index, gob_snap index (snapshot_log index log)) else None in
  c2 ← reported i err_msg a2 c1;
  Some (mkRfsrv index log, c2, up)
else Some (rs, c, None).

(** ** Servers on a cluster

    A server with its channel from Raft, the call of [rf.Snapshot] its applier is
    about to make and its connection to the tester; for the specification, the commands
    received so far. *)
Record rf_server : Type := mkRfServer {
rz_srv : rfsrv;
rz_queue : list ApplyMsg;
rz_snap : option (Z * bytes);
rz_link : link;
rz_seen : list (option Cmd);
}.

(** [rz_polls] are the answers to [GetState] in the present round of
    [checkOneLeader]. *)
Record RfSys : Type := mkRfSys {
rz_cluster : Cluster;
rz_servers : list rf_server;
rz_tester : Test;
rz_started : list (option Cmd);
rz_polls : list (nat * (Z * bool));
}.

Context (withSnap : bool).

Definition rf_receive (i : nat) (m : ApplyMsg) (a1 a2 : bool) (rs : rfsrv) (c : link * Test)
    : option (rfsrv * (link * Test) * option (Z * bytes)) :=
if withSnap then applierSnap i m a1 a2 rs c else c' ← rf_applier i m a1 a2 c; Some (rs, c', None).

(** What a new process sends over its new connection. *)
Definition newRfsrv_ingest (i : nat) (rs : rfsrv) (ingest answered : bool) (ts : Test) : option (link * Test) :=
if ingest then proxy_IngestLog i (rv_log rs) answered (mkLink true None, ts) else Some (mkLink true None, ts).

(** The commands a snapshot holds, without the empty entry 0. *)
Definition snapshot_seen (data : bytes) : list (option Cmd) :=
match ungob_snap data with Some (_, _ :: l) => l | _ => [] end.

Definition seen_after (m : ApplyMsg) (seen : list (option Cmd)) : list (option Cmd) :=
if am_SnapshotValid m then if withSnap then snapshot_seen (am_Snapshot m) else seen
else if am_CommandValid m then seen ++ [am_Command m] else seen.

Definition with_node (i : nat) (rf : Raft) (w : RfSys) (sv : rf_server) : RfSys :=
mkRfSys (set_node i rf (rz_cluster w)) (<[i := sv]> (rz_servers w)) (rz_tester w) (rz_started w) (rz_polls w).

Inductive rf_step (w : RfSys) : RfSys -> Prop :=
| Z_net c' : net_step (rz_cluster w) c' ->
    rf_step w (mkRfSys c' (rz_servers w) (rz_tester w) (rz_started w) (rz_polls w))
| Z_inner i rf rf' : cl_nodes (rz_cluster w) !! i = Some rf -> inner_step rf rf' ->
    rf_step w (mkRfSys (set_node i rf' (rz_cluster w)) (rz_servers w) (rz_tester w) (rz_started w) (rz_polls w))
| Z_start i rf command rf' r : cl_nodes (rz_cluster w) !! i = Some rf -> Start command rf = Some (rf', r) ->
    rf_step w (mkRfSys (set_node i rf' (rz_cluster w)) (rz_servers w) (rz_tester w) (command :: rz_started w) (rz_polls w))
| Z_deliver i rf sv rf' act :
    cl_nodes (rz_cluster w) !! i = Some rf -> rz_servers w !! i = Some sv -> applier rf = Some (rf', act) ->
    rf_step w (with_node i rf' w (mkRfServer (rz_srv sv) (rz_queue sv ++ sent act) (rz_snap sv) (rz_link sv) (rz_seen sv)))
| Z_receive i a1 a2 sv m queue rs' ln ts' up :
    rz_servers w !! i = Some sv -> rz_queue sv = m :: queue -> rz_snap sv = None ->
    rf_receive i m a1 a2 (rz_srv sv) (rz_link sv, rz_tester w) = Some (rs', (ln, ts'), up) ->
    rf_step w (mkRfSys (rz_cluster w) (<[i := mkRfServer rs' queue up ln (seen_after m (rz_seen sv))]> (rz_servers w))
      ts' (rz_started w) (rz_polls w))
| Z_cut i sv :
    (* the connection to the tester breaks or is closed between two calls *)
    rz_servers w !! i = Some sv ->
    rf_step w (mkRfSys (rz_cluster w)
      (<[i := mkRfServer (rz_srv sv) (rz_queue sv) (rz_snap sv) (link_cut (rz_link sv)) (rz_seen sv)]> (rz_servers w))
      (rz_tester w) (rz_started w) (rz_polls w))
| Z_late i sv rq ts' r :
    (* the tester serves a request whose call has failed *)
    rz_servers w !! i = Some sv -> ln_late (rz_link sv) = Some rq -> serve i rq (rz_tester w) = Some (ts', r.1, r.2) ->
    rf_step w (mkRfSys (rz_cluster w)
      (<[i := mkRfServer (rz_srv sv) (rz_queue sv) (rz_snap sv) (mkLink (ln_up (rz_link sv)) None) (rz_seen sv)]> (rz_servers w))
      ts' (rz_started w) (rz_polls w))
| Z_snapshot i rf sv index data rf' :
    cl_nodes (rz_cluster w) !! i = Some rf -> rz_servers w !! i = Some sv ->
    rz_snap sv = Some (index, data) -> Snapshot index data rf = Some rf' ->
    rf_step w (with_node i rf' w (mkRfServer (rz_srv sv) (rz_queue sv) None (rz_link sv) (rz_seen sv)))
| Z_restart i answered inc clk rf sv rf' rs (ingest : bool) ln ts' :
    (* the process ends, and another is started on its disk *)
    cl_nodes (rz_cluster w) !! i = Some rf -> cl_inc (rz_cluster w) !! i = Some inc -> rz_servers w !! i = Some sv ->
    hard_in_range rf -> newRfsrv withSnap (persister rf) = Some (rs, ingest) ->
    Make clk (peers rf) i (persister rf) = Some rf' -> newRfsrv_ingest i rs ingest answered (rz_tester w) = Some (ln, ts') ->
    rf_step w (mkRfSys
      (mkCluster (<[i := rf']> (cl_nodes (rz_cluster w))) (<[i := S inc]> (cl_inc (rz_cluster w)))
        (cl_votes (rz_cluster w)) (cl_calls (rz_cluster w)))
      (<[i := mkRfServer rs [] None ln (if ingest then snapshot_seen (ReadSnapshot (persister rf)) else [])]> (rz_servers w))
      ts' (rz_started w) (rz_polls w))
| Z_round : rf_step w (mkRfSys (rz_cluster w) (rz_servers w) (rz_tester w) (rz_started w) [])
| Z_poll i answered rf : cl_nodes (rz_cluster w) !! i = Some rf -> i ∉ (rz_polls w).*1 ->
    rf_step w (mkRfSys (rz_cluster w) (rz_servers w) (rz_tester w) (rz_started w) (rz_polls w ++ [(i, Rfproxy_GetState answered rf)])).

Definition rf_init (n : nat) (w : RfSys) : Prop :=
cluster_init n (rz_cluster w) /\
rz_servers w = replicate n (mkRfServer (mkRfsrv 0 ∅) [] None (mkLink true None) []) /\
rz_tester w = mkTest (replicate n (mkRaftServer ∅ None)) 0 /\ rz_started w = [] /\ rz_polls w = [].

End RfSrv.
