(* ===== verification/RfChecks.v ===== *)
(** * The checks of Raft's tester never fail

    The servers of [RfSrv] are a replicated service in the sense of [RsmCluster]: the
    service whose state is the list of commands.  What they report to the tester is
    committed, so the tester finds no two different commands at one index, no gap, and
    no snapshot that does not fit; and never two leaders of one term. *)

From S2P Require Import Prelude.
From S2P Require Import Persister.
From S2P Require Import Raft.
From S2P Require Import RaftRPC.
From S2P Require Import RaftFacts.
From S2P Require Import RaftPersist.
From S2P Require Import RaftCluster.
From S2P Require Import RaftApply.
From S2P Require Import RaftGhost.
From S2P Require Import RaftEffect.
From S2P Require Import RaftSafe.
From S2P Require Import RaftDeliver.
From S2P Require Import Rsm.
From S2P Require Import RsmCluster.
From S2P Require Import RfSrv.

Section RfChecks.
Context {GL : GobLog} {GR : GobRf} `{!EqDecision Cmd} (withSnap : bool).

Abbreviation seen_log := (list (option Cmd)).

(** ** The list of commands as a service *)

Definition log_DoOp (c : option Cmd) (l : seen_log) : option (seen_log * unit) := Some (l ++ [c], tt).

Definition log_Snapshot (l : seen_log) : option bytes :=
  if withSnap then Some (gob_snap (zlen l) (None :: l)) else None.

Definition log_Restore (data : bytes) (l : seen_log) : option seen_log := Some (snapshot_seen data).

#[local] Instance log_machine : StateMachine seen_log (option Cmd) unit := {|
  sm_DoOp := log_DoOp; sm_Snapshot := log_Snapshot; sm_Restore := log_Restore |}.

#[local] Instance log_machine_laws (LR : GobRfLaws) : StateMachineLaws seen_log (option Cmd) unit.
Proof.
  constructor; simpl; unfold log_Snapshot; intros s b; destruct withSnap; try done.
  - intros [= <-]. apply gob_snap_nonempty.
  - intros s0 [= <-]. unfold log_Restore, snapshot_seen. by rewrite ungob_gob_snap.
Qed.

Definition as_log_op (c : option Cmd) : option (Op (option Cmd)) := Some (mkOp 0 0 0 c).

(** A server of the tests as one of [RsmCluster]. *)
Definition abs_server (sv : rf_server) : Server (St := seen_log) (Rep := unit) :=
  mkServer (mkRSM 0 0 (rz_seen sv) 0 0 ∅ ∅ false false) (rz_queue sv) (rz_snap sv) (zlen (rz_seen sv)).

Definition abs_sys (w : RfSys) (done : list (nat * Z * Op (option Cmd) * unit)) : System :=
  mkSystem (rz_cluster w) (abs_server <$> rz_servers w) (rz_started w) done.

Lemma replay_log (ops : list (Op (option Cmd))) : forall l s, replay ops l = Some s -> s = l ++ (op_Req <$> ops).
Proof.
  induction ops as [|op ops IH]; intros l s Hr; simpl in Hr; [injection Hr as <-; by rewrite app_nil_r|].
  apply IH in Hr as ->. by rewrite <- app_assoc.
Qed.

Section facts.
Context (n : nat) (W : know).

(** The command at an index, once committed. *)
Definition committed_at (k : nat) (c : option Cmd) : Prop := exists e, entry_ok n W k e /\ le_Command e = c.

Lemma committed_at_agree k c c' : ghost_ok n W.1 -> committed_at k c -> committed_at k c' -> c = c'.
Proof.
  intros HG (e & (_ & u & F & Hc & He) & <-) (e' & (_ & u' & F' & Hc' & He') & <-).
  pose proof (covered_agree _ _ _ _ _ _ _ HG Hc Hc') as Htk.
  rewrite <- (lookup_take_lt F (S k)) in He by lia. rewrite <- (lookup_take_lt F' (S k)) in He' by lia. congruence.
Qed.

Lemma snap_at_seen k s :
  snap_at as_log_op [] n W k s -> length s = k /\ forall j c, s !! j = Some c -> committed_at j c.
Proof.
  intros (u & F & ops & Hc & Hd & ->%replay_log). pose proof Hc as [Hl _]. simpl.
  pose proof (Forall2_length _ _ _ Hd) as Hlen. rewrite length_take_le in Hlen by done.
  split; [by rewrite length_fmap|]. intros j c (op & -> & Hj)%list_lookup_fmap_Some.
  eapply Forall2_lookup_r in Hd as (e & He & Hin & Hop); [|exact Hj]. apply lookup_take_Some in He as [He Hlt].
  exists e. injection Hop as <-. split; [|done]. split; [done|]. exists u, F. split; [|done].
  eapply covered_le; [exact Hc|lia|done].
Qed.

(** What is reported for an index: nothing but the committed command; entry 0 is
    empty. *)
Definition logs_ok (logs : gmap Z (option Cmd)) : Prop :=
  forall k c, logs !! k = Some c -> (k = 0%Z /\ c = None) \/ exists j, k = Z.of_nat (S j) /\ committed_at j c.

(** [seens]: the commands of each server that could report all of them, [None] after
    its connection broke. *)
Record tester_ok (seens : list (option seen_log)) (T : Test) : Prop := {
  to_len : length (ts_srvs T) = length seens;
  to_logs : forall i ts, ts_srvs T !! i = Some ts -> ts_applyErr ts = None /\ logs_ok (ts_logs ts);
  to_seen : forall i seen, seens !! i = Some (Some seen) -> exists ts, ts_srvs T !! i = Some ts /\
    forall k, (1 <= k <= zlen seen)%Z -> is_Some (ts_logs ts !! k);
}.

(** A request that may still be served does no harm. *)
Definition late_ok (rq : request) : Prop :=
  match rq with
  | RqCheckLogs index v => exists j, index = Z.of_nat (S j) /\ committed_at j v
  | RqIngestLog xlog => logs_ok xlog
  | RqApplyErr _ => False
  end.

Record link_ok (ln : link) : Prop := {
  lk_up : ln_up ln = true -> ln_late ln = None;
  lk_late : forall rq, ln_late ln = Some rq -> late_ok rq;
}.

Definition linked (ln : link) (seen : seen_log) : option seen_log := if ln_up ln then Some seen else None.

(** The log of a server that takes snapshots. *)
Record srv_ok (rs : rfsrv) (seen : seen_log) : Prop := {
  sr_last : rv_lastApplied rs = zlen seen;
  sr_log : forall k, (1 <= k)%Z -> rv_log rs !! k = seen !! Z.to_nat (k - 1);
  sr_zero : default None (rv_log rs !! 0%Z) = None;
  sr_neg : forall k, (k < 0)%Z -> rv_log rs !! k = None;
}.

Lemma srv_logs_ok rs seen :
  srv_ok rs seen -> (forall j c, seen !! j = Some c -> committed_at j c) -> logs_ok (rv_log rs).
Proof.
  intros [_ Hl H0 Hn] Hs k c Hk. destruct (Z.lt_trichotomy k 0) as [Hlt|[->|Hgt]].
  - by rewrite Hn in Hk.
  - left. rewrite Hk in H0. by simpl in H0.
  - right. rewrite Hl in Hk by lia. exists (Z.to_nat (k - 1)). split; [lia|by apply Hs].
Qed.

Lemma srv_ok_init : srv_ok (mkRfsrv 0 ∅) [].
Proof. constructor; simpl; [done| | |]; intros; by rewrite lookup_empty. Qed.

Lemma srv_ok_snapshot (seen : seen_log) : srv_ok (mkRfsrv (zlen seen) (map_seqZ 0 (None :: seen))) seen.
Proof.
  constructor; cbn [rv_log rv_lastApplied]; [done| | |].
  - intros k Hk. rewrite lookup_map_seqZ. rewrite option_guard_True by lia.
    replace (Z.to_nat (k - 0)) with (S (Z.to_nat (k - 1))) by lia. done.
  - by rewrite lookup_map_seqZ.
  - intros k Hk. rewrite lookup_map_seqZ, option_guard_False by lia. done.
Qed.

Lemma srv_ok_next rs seen c :
  srv_ok rs seen -> srv_ok (mkRfsrv (zlen seen + 1) (<[(zlen seen + 1)%Z := c]> (rv_log rs))) (seen ++ [c]).
Proof.
  intros [Hla Hl H0 Hn]. unfold zlen in *. constructor; simpl.
  - unfold zlen. rewrite length_app. simpl. lia.
  - intros k Hk. rewrite lookup_insert. case_decide as He.
    + subst k. replace (Z.to_nat (Z.of_nat (length seen) + 1 - 1)) with (length seen) by lia. by rewrite list_lookup_middle.
    + rewrite Hl by done. destruct (decide (Z.to_nat (k - 1) < length seen)).
      * by rewrite lookup_app_l.
      * rewrite !lookup_ge_None_2; [done|rewrite length_app; simpl; lia|lia].
  - by rewrite lookup_insert_ne by lia.
  - intros k Hk. rewrite lookup_insert_ne by lia. by apply Hn.
Qed.

Lemma snapshot_log_seen rs seen : srv_ok rs seen -> snapshot_log (zlen seen) (rv_log rs) = None :: seen.
Proof.
  intros [_ Hl H0 _]. unfold snapshot_log. apply list_eq. intros j. rewrite list_lookup_fmap.
  destruct (decide (j < S (length seen))) as [Hj|Hj].
  - rewrite lookup_seqZ_lt by (unfold zlen; lia). simpl. destruct j as [|j].
    + simpl. simpl in H0. by f_equal.
    + rewrite Hl by lia. replace (Z.to_nat (0 + Z.of_nat (S j) - 1)) with j by lia. simpl.
      destruct (lookup_lt_is_Some_2 seen j) as [c ->]; [lia|done].
  - rewrite lookup_seqZ_ge by (unfold zlen; lia). simpl. symmetry. apply lookup_ge_None. simpl. lia.
Qed.

(** ** What a message does *)

Lemma disagreement_none (HG : ghost_ok n W.1) k v srvs : forall j,
  committed_at k v -> (forall i ts, srvs !! i = Some ts -> logs_ok (ts_logs ts)) ->
  disagreement (Z.of_nat (S k)) v j srvs = None.
Proof.
  induction srvs as [|rs srvs IH]; intros j Hv Hs; cbn [disagreement]; [done|].
  rewrite IH; [|done|intros i ts Hi; by apply (Hs (S i))].
  destruct (ts_logs rs !! Z.of_nat (S k)) as [old|] eqn:Ho; [|done].
  destruct (Hs 0 rs eq_refl _ _ Ho) as [[? _]|(k' & Hk & Hc)]; [lia|]. assert (k' = k) as -> by lia.
  rewrite (committed_at_agree k old v HG Hc Hv). by rewrite decide_False by (intros Hn; by apply Hn).
Qed.

(** A committed command in its turn passes the check. *)
Lemma check_good (HG : ghost_ok n W.1) seens T i seen v :
  tester_ok seens T -> seens !! i = Some (Some seen) -> committed_at (length seen) v ->
  exists T1 prevok, CheckLogs i (zlen seen + 1) v T = Some (T1, None, prevok) /\
    ((1 < zlen seen + 1)%Z -> prevok = true) /\ tester_ok (<[i := Some (seen ++ [v])]> seens) T1.
Proof.
  intros [Hlen Hlogs Hseen] Hi Hv. destruct (Hseen _ _ Hi) as (me & Hme & Hhas). unfold CheckLogs. rewrite Hme. simpl.
  replace (zlen seen + 1)%Z with (Z.of_nat (S (length seen))) by (unfold zlen; lia).
  assert (forall j ts, ts_srvs T !! j = Some ts -> logs_ok (ts_logs ts)) as Hl by (intros j ts Hj; by destruct (Hlogs j ts Hj)).
  rewrite (disagreement_none HG _ _ _ 0 Hv Hl).
  eexists _, _. split; [done|]. split.
  { intros Hlt. apply bool_decide_eq_true. apply Hhas. unfold zlen. lia. }
  assert (logs_ok (<[Z.of_nat (S (length seen)) := v]> (ts_logs me))) as Hnew.
  { intros k c [[<- <-]|[_ Hk]]%lookup_insert_Some; [right; eauto|]. by apply (proj2 (Hlogs _ _ Hme)). }
  constructor; cbn [ts_srvs].
  - by rewrite !length_insert.
  - intros j ts [(-> & <- & _)|[_ Hj]]%list_lookup_insert_Some; [|by apply (Hlogs j)].
    simpl. split; [apply (Hlogs _ _ Hme)|done].
  - intros j s [(-> & [= <-] & _)|[Hne Hj]]%list_lookup_insert_Some.
    + eexists. split; [apply list_lookup_insert_eq; by eapply lookup_lt_Some|]. simpl. intros k Hk.
      destruct (decide (k = Z.of_nat (S (length seen)))) as [->|Hk']; [by rewrite lookup_insert_eq; eexists|].
      rewrite lookup_insert_ne by done. apply Hhas. unfold zlen in *. rewrite length_app in Hk. simpl in Hk. lia.
    + rewrite list_lookup_insert_ne by done. by apply Hseen.
Qed.

(** A server's whole log is sent. *)
Lemma ingest_logs seens T i xlog o :
  tester_ok seens T -> i < length seens -> logs_ok xlog ->
  (forall seen k, o = Some seen -> (1 <= k <= zlen seen)%Z -> is_Some (xlog !! k)) ->
  tester_ok (<[i := o]> seens) (IngestLog i xlog T).
Proof.
  intros [Hlen Hlogs Hseen] Hi Hx Ho. constructor; cbn [IngestLog with_srvs ts_srvs].
  - by rewrite length_alter, length_insert.
  - intros j ts Hj. destruct (decide (i = j)) as [<-|Hne].
    + rewrite list_lookup_alter_eq in Hj. apply fmap_Some in Hj as (ts' & Hj & ->). simpl. split; [by apply (Hlogs i)|done].
    + rewrite list_lookup_alter_ne in Hj by done. by apply (Hlogs j).
  - intros j s [(-> & -> & _)|[Hne Hj]]%list_lookup_insert_Some.
    + rewrite <- Hlen in Hi. destruct (lookup_lt_is_Some_2 _ _ Hi) as [ts Hts].
      eexists. rewrite list_lookup_alter_eq, Hts. split; [done|]. intros k Hk. simpl. by eapply Ho.
    + destruct (Hseen _ _ Hj) as (ts & Hts & ?). exists ts. by rewrite list_lookup_alter_ne.
Qed.

Lemma ingest_good seens T i rs ln seen :
  tester_ok seens T -> i < length seens -> srv_ok rs seen -> (forall j c, seen !! j = Some c -> committed_at j c) ->
  tester_ok (<[i := linked ln seen]> seens) (IngestLog i (rv_log rs) T).
Proof.
  intros HT Hi Hrs Hc. apply ingest_logs; [done|done|by eapply srv_logs_ok|].
  intros s k Hs Hk. unfold linked in Hs. destruct (ln_up ln); [|done]. injection Hs as <-.
  rewrite (sr_log _ _ Hrs) by lia. apply lookup_lt_is_Some. unfold zlen in *. lia.
Qed.

(** A server that can no longer report, or has nothing to report yet. *)
Lemma tester_ok_unseen seens T i o :
  tester_ok seens T -> i < length seens -> (o = None \/ o = Some []) -> tester_ok (<[i := o]> seens) T.
Proof.
  intros [Hlen Hlogs Hseen] Hi Ho. constructor; [by rewrite length_insert|done|].
  intros j s [(-> & -> & _)|[_ Hj]]%list_lookup_insert_Some; [|by apply Hseen]. destruct Ho as [?|[= ->]]; [done|].
  rewrite <- Hlen in Hi. destruct (lookup_lt_is_Some_2 _ _ Hi) as [ts Hts]. exists ts. split; [done|].
  intros k Hk. unfold zlen in Hk. simpl in Hk. lia.
Qed.

(** The tester serves a request after its call failed. *)
Lemma serve_late seens T i rq T' e b :
  tester_ok seens T -> seens !! i = Some None -> late_ok rq -> serve i rq T = Some (T', e, b) -> tester_ok seens T'.
Proof.
  intros HT Hi Hrq Hs. pose proof (lookup_lt_Some _ _ _ Hi) as Hlt. destruct rq as [index v|xlog|e0]; simpl in *; [| |done].
  - unfold CheckLogs in Hs. apply bind_Some in Hs as (me & Hme & [= <- _ _]). destruct HT as [Hlen Hlogs Hseen].
    constructor; cbn [ts_srvs].
    + by rewrite length_insert.
    + intros j ts [(-> & <- & _)|[_ Hj]]%list_lookup_insert_Some; [|by apply (Hlogs j)]. simpl. destruct (Hlogs _ _ Hme) as [? Hl].
      split; [done|]. intros k c [[<- <-]|[_ Hk]]%lookup_insert_Some; [by right|by apply Hl].
    + intros j s Hj. assert (i <> j) by congruence. rewrite list_lookup_insert_ne by done. by apply Hseen.
  - injection Hs as <- _ _. rewrite <- (list_insert_id seens i None) by done. by apply ingest_logs.
Qed.

(** *** The calls of a server *)

Lemma call_down i rq a ln T : ln_up ln = false -> TesterClnt_Call i rq a (ln, T) = Some (None, (ln, T)).
Proof. intros H. unfold TesterClnt_Call. by rewrite H. Qed.

Lemma call_broken i rq ln T : ln_up ln = true -> TesterClnt_Call i rq false (ln, T) = Some (None, (mkLink false (Some rq), T)).
Proof. intros H. unfold TesterClnt_Call. by rewrite H. Qed.

(** An error is only reported over a connection that broke. *)
Lemma reported_good i err a ln T : (ln_up ln = true -> err = None) -> reported i err a (ln, T) = Some (ln, T).
Proof.
  intros H. destruct err as [e|]; [|done]. unfold reported, proxy_ApplyErr. destruct (ln_up ln) eqn:E; [by specialize (H eq_refl)|].
  by rewrite (call_down _ _ _ _ _ E).
Qed.

Lemma proxy_check_good (HG : ghost_ok n W.1) seens T i ln seen v a :
  tester_ok seens T -> link_ok ln -> seens !! i = Some (linked ln seen) -> committed_at (length seen) v ->
  exists e prevok ln' T', proxy_CheckLogs i (zlen seen + 1) v a (ln, T) = Some (e, prevok, (ln', T')) /\
    link_ok ln' /\ tester_ok (<[i := linked ln' (seen ++ [v])]> seens) T' /\
    (ln_up ln' = true -> e = None /\ (1 <? zlen seen + 1)%Z && negb prevok = false) /\ (ln_up ln' = false -> e = Some ErrRPC).
Proof.
  intros HT Hln Hi Hv. pose proof (lookup_lt_Some _ _ _ Hi) as Hlt. unfold proxy_CheckLogs. destruct (ln_up ln) eqn:Hup.
  2:{ rewrite (call_down _ _ _ _ _ Hup). eexists _, _, ln, T. split; [done|]. split_and!; [done| |by rewrite Hup|done].
      unfold linked in *. rewrite Hup in *. by rewrite list_insert_id. }
  unfold linked in Hi. rewrite Hup in Hi. destruct a.
  - destruct (check_good HG _ _ _ _ _ HT Hi Hv) as (T1 & prevok & Hck & Hprev & HT'). unfold TesterClnt_Call. rewrite Hup.
    cbn [serve]. rewrite Hck. eexists _, _, ln, T1. split; [done|]. split_and!; [done|unfold linked; by rewrite Hup| |by rewrite Hup].
    intros _. split; [done|]. destruct (Z.ltb_spec 1 (zlen seen + 1)); [|done]. by rewrite Hprev.
  - rewrite (call_broken _ _ _ _ Hup). eexists _, _, _, T. split; [done|]. split_and!; [|by apply tester_ok_unseen; auto|done|done].
    constructor; [done|]. intros rq [= <-]. exists (length seen). split; [unfold zlen; lia|done].
Qed.

Lemma proxy_ingest_good seens T i rs ln seen a :
  tester_ok seens T -> link_ok ln -> i < length seens -> (ln_up ln = false -> seens !! i = Some None) ->
  srv_ok rs seen -> (forall j c, seen !! j = Some c -> committed_at j c) ->
  exists ln' T', proxy_IngestLog i (rv_log rs) a (ln, T) = Some (ln', T') /\ link_ok ln' /\
    tester_ok (<[i := linked ln' seen]> seens) T'.
Proof.
  intros HT Hln Hi Hdown Hrs Hc. unfold proxy_IngestLog. destruct (ln_up ln) eqn:Hup.
  2:{ rewrite (call_down _ _ _ _ _ Hup). exists ln, T. split; [done|]. split; [done|]. unfold linked. rewrite Hup.
      by rewrite list_insert_id by by apply Hdown. }
  destruct a.
  - unfold TesterClnt_Call. rewrite Hup. exists ln, (IngestLog i (rv_log rs) T). split; [done|]. split; [done|]. by apply ingest_good.
  - rewrite (call_broken _ _ _ _ Hup). eexists _, T. split; [done|]. split; [|by apply tester_ok_unseen; auto].
    constructor; [done|]. intros rq [= <-]. by eapply srv_logs_ok.
Qed.

Abbreviation log_rsm seen := (mkRSM 0 0 seen 0 0 ∅ ∅ false false).

(** A message in its turn passes all checks or the connection is broken, and it does to
    the list of commands what it does to a service. *)
Lemma receive_snapshot (LR : GobRfLaws) seens T i ln rs seen m a1 a2 s :
  tester_ok seens T -> link_ok ln -> seens !! i = Some (linked ln seen) ->
  snap_at as_log_op [] n W (Z.to_nat (am_SnapshotIndex m)) s -> (0 < am_SnapshotIndex m)%Z ->
  am_SnapshotValid m = true -> gob_snap (zlen s) (None :: s) = am_Snapshot m ->
  exists rs' ln' T', applierSnap i m a1 a2 rs (ln, T) = Some (rs', (ln', T'), None) /\
    snapshot_seen (am_Snapshot m) = s /\ zlen s = am_SnapshotIndex m /\
    link_ok ln' /\ tester_ok (<[i := linked ln' s]> seens) T' /\ srv_ok rs' s.
Proof.
  intros HT Hln Hi Hs Hpos Hsv Hdata. apply snap_at_seen in Hs as [Hlen Hall].
  assert (snapshot_seen (am_Snapshot m) = s) as Hss by (unfold snapshot_seen; by rewrite <- Hdata, ungob_gob_snap).
  assert (am_SnapshotIndex m = zlen s) as Hix by (unfold zlen; lia).
  unfold applierSnap, ingestSnap. rewrite Hsv, decide_False by (rewrite <- Hdata; apply gob_snap_nonempty).
  rewrite <- Hdata, ungob_gob_snap, decide_False by (rewrite Hix; naive_solver).
  pose proof (srv_ok_snapshot s) as Hok.
  assert (ln_up ln = false -> seens !! i = Some None) as Hdown by (intros Hup; unfold linked in Hi; by rewrite Hup in Hi).
  destruct (proxy_ingest_good seens T i _ ln s a1 HT Hln (lookup_lt_Some _ _ _ Hi) Hdown Hok Hall) as (ln' & T' & Hp & Hln' & HT').
  rewrite Hp. cbn [mbind option_bind]. rewrite reported_good by done. cbn [mbind option_bind].
  eexists _, ln', T'. split; [done|]. rewrite Hdata. by split_and!.
Qed.

Lemma receive_good (LR : GobRfLaws) (HG : ghost_ok n W.1) seens T i ln rs seen m a1 a2 rs' ln' T' up :
  tester_ok seens T -> link_ok ln -> seens !! i = Some (linked ln seen) -> (withSnap = true -> srv_ok rs seen) ->
  msg_ok as_log_op [] n W m ->
  (if am_CommandValid m then am_CommandIndex m = (zlen seen + 1)%Z else True) ->
  rf_receive withSnap i m a1 a2 rs (ln, T) = Some (rs', (ln', T'), up) ->
  let seen' := seen_after withSnap m seen in
  (exists pb, rsm_apply as_log_op pb m (log_rsm seen) = Some (log_rsm seen', up)) /\
  zlen seen' = msg_index m /\ link_ok ln' /\ tester_ok (<[i := linked ln' seen']> seens) T' /\ (withSnap = true -> srv_ok rs' seen').
Proof.
  intros HT Hln Hi Hrs Hm Hidx H seen'. subst seen'. unfold seen_after, msg_index, rsm_apply.
  destruct Hm as [(Hsv & Hcv & Hlt & Hd)|(k & e & -> & He)].
  - rewrite Hsv, Hcv. destruct Hd as [_ [[? _]|(s & Hs & Hsn)]]; [lia|].
    simpl in Hsn. unfold log_Snapshot in Hsn. unfold rf_receive in H. destruct withSnap; [|done]. injection Hsn as Hdata.
    destruct (receive_snapshot LR seens T i ln rs seen m a1 a2 s HT Hln Hi Hs Hlt Hsv Hdata) as (rs0 & ln0 & T0 & Hr & Hss & Hz & ? & ? & ?).
    rewrite Hr in H. injection H as <- <- <- <-. rewrite Hss. split_and!; try done. exists 0%Z.
    rewrite decide_True by (destruct (am_Snapshot m) eqn:E; simpl; [by apply gob_snap_nonempty in Hdata|lia]).
    simpl. unfold log_Restore. by rewrite Hss.
  - cbn [am_SnapshotValid am_CommandValid am_CommandIndex am_Command command_msg] in *.
    assert (committed_at (length seen) (le_Command e)) as Hc.
    { exists e. split; [|done]. unfold zlen in Hidx. by replace (length seen) with k by lia. }
    rewrite Hidx. destruct (proxy_check_good HG _ _ _ _ _ _ a1 HT Hln Hi Hc) as (err & prevok & ln1 & T1 & Hck & Hln1 & HT1 & Hup & Hdown).
    unfold rf_receive, rf_applier, applierSnap in H. cbn [am_SnapshotValid am_CommandValid am_CommandIndex am_Command command_msg negb] in H.
    rewrite Hidx in H. destruct withSnap eqn:Hw.
    + specialize (Hrs eq_refl). rewrite (sr_last _ _ Hrs), decide_False, Hck in H by (intros Hn; by apply Hn). cbn [mbind option_bind] in H.
      rewrite reported_good in H.
      2:{ intros E. destruct (Hup E) as [-> Hno]. rewrite <- andb_assoc, Hno. by rewrite andb_false_r. }
      cbn [mbind option_bind] in H. injection H as <- <- <- <-. split_and!; [|unfold zlen; rewrite length_app; simpl; lia|done|done|].
      * pose proof (snapshot_log_seen _ _ (srv_ok_next rs seen (le_Command e) Hrs)) as Hsl. cbn [rv_log] in Hsl.
        assert (zlen (seen ++ [le_Command e]) = (zlen seen + 1)%Z) as Hz by (unfold zlen; rewrite length_app; simpl; lia).
        rewrite Hz in Hsl. rewrite Hsl. exists (if (Z.rem (zlen seen + 1 + 1) SnapShotInterval =? 0)%Z then 0%Z else (-1)%Z).
        simpl. unfold log_Snapshot. rewrite Hw, Hz. by destruct (_ =? 0)%Z.
      * intros _. by apply srv_ok_next.
    + rewrite Hck in H. cbn [mbind option_bind] in H. rewrite reported_good in H.
      2:{ intros E. destruct (Hup E) as [-> Hno]. by rewrite Hno. }
      cbn [mbind option_bind] in H. injection H as <- <- <- <-.
      split_and!; [exists (-1)%Z; done|unfold zlen; rewrite length_app; simpl; lia|done|done|done].
Qed.

(** A server that starts on the disk of a node: nothing is wrong with the snapshot. *)
Lemma newRfsrv_good (LR : GobRfLaws) index ps :
  snap_data as_log_op [] n W index (ReadSnapshot ps) ->
  exists rs (ingest : bool), newRfsrv withSnap ps = Some (rs, ingest) /\
    let seen := if ingest then snapshot_seen (ReadSnapshot ps) else [] in
    MakeRSM 0 0 0 ps [] = Some (log_rsm seen) /\ zlen seen = index /\
    (withSnap = true -> srv_ok rs seen) /\ forall j c, seen !! j = Some c -> committed_at j c.
Proof.
  intros [Hpos0 [[-> He]|(s & Hs & Hsn)]]; unfold newRfsrv, MakeRSM.
  - rewrite He. exists (mkRfsrv 0 ∅), false. split; [by destruct withSnap|]. split_and!; done.
  - apply snap_at_seen in Hs as [Hlen Hall]. simpl in Hsn. unfold log_Snapshot in Hsn. destruct withSnap; [|done].
    injection Hsn as Hd. pose proof (gob_snap_nonempty (zlen s) (None :: s)) as Hne. rewrite Hd in Hne.
    assert (0 < length (ReadSnapshot ps)) as Hpos by (destruct (ReadSnapshot ps); simpl; [done|lia]).
    assert (snapshot_seen (ReadSnapshot ps) = s) as Hss by (unfold snapshot_seen; by rewrite <- Hd, ungob_gob_snap).
    assert (ingestSnap (ReadSnapshot ps) (-1) (mkRfsrv 0 ∅) = (mkRfsrv (zlen s) (map_seqZ 0 (None :: s)), None)) as Hin.
    { unfold ingestSnap. rewrite decide_False by done. by rewrite <- Hd, ungob_gob_snap, decide_False by naive_solver. }
    eexists _, true. cbn [andb]. rewrite (bool_decide_eq_true_2 _ Hpos), Hin. split; [done|].
    rewrite decide_True by done. cbn [sm_Restore log_machine mbind option_bind]. unfold log_Restore. rewrite Hss.
    split_and!; [done|unfold zlen; rewrite Hlen; apply Z2Nat.id; done|intros _; apply srv_ok_snapshot|done].
Qed.

Lemma restart_good seens T i (ingest a : bool) rs seen ln T' :
  tester_ok seens T -> i < length seens -> (ingest = false -> seen = []) -> (ingest = true -> srv_ok rs seen) ->
  (forall j c, seen !! j = Some c -> committed_at j c) -> newRfsrv_ingest i rs ingest a T = Some (ln, T') ->
  link_ok ln /\ tester_ok (<[i := linked ln seen]> seens) T'.
Proof.
  intros HT Hi Hno Hrs Hc H. assert (link_ok (mkLink true None)) as Hnew by by constructor. unfold newRfsrv_ingest in H. destruct ingest.
  - destruct (proxy_ingest_good seens T i rs (mkLink true None) seen a) as (ln' & T0 & Hp & ? & ?); auto; [done|].
    rewrite Hp in H. by injection H as <- <-.
  - injection H as <- <-. rewrite (Hno eq_refl). split; [done|]. apply tester_ok_unseen; auto.
Qed.

End facts.

Lemma committed_at_grow n W W' k c : later W W' -> committed_at n W k c -> committed_at n W' k c.
Proof. intros Hg (e & He & <-). exists e. split; [by eapply entry_ok_grow|done]. Qed.

Lemma logs_ok_grow n W W' logs : later W W' -> logs_ok n W logs -> logs_ok n W' logs.
Proof.
  intros Hg Hok k c [?|(j & -> & ?)]%Hok; [by left|right]. exists j. split; [done|by eapply committed_at_grow].
Qed.

Lemma tester_ok_grow n W W' seens T : later W W' -> tester_ok n W seens T -> tester_ok n W' seens T.
Proof.
  intros Hg [? Hl Hs]. constructor; [done| |done]. intros i ts Hi. destruct (Hl i ts Hi) as [? Hok].
  split; [done|by eapply logs_ok_grow].
Qed.

Lemma link_ok_grow n W W' ln : later W W' -> link_ok n W ln -> link_ok n W' ln.
Proof.
  intros Hg [Hu Hl]. constructor; [done|]. intros rq Hrq. specialize (Hl rq Hrq). destruct rq as [index v|xlog|e]; simpl in *; [| |done].
  - destruct Hl as (j & ? & ?). exists j. split; [done|by eapply committed_at_grow].
  - by eapply logs_ok_grow.
Qed.

(** ** The invariant of the tests *)

Definition leader_votes (n : nat) (V : gmap (nat * Z) nat) (i : nat) (t : Z) : Prop :=
  exists Q, voters n V i t Q /\ n `div` 2 + 1 <= size Q.

Definition reported_seen (sv : rf_server) : option seen_log := linked (rz_link sv) (rz_seen sv).

(** What neither Raft nor the channel changes of a server. *)
Definition service_part (sv : rf_server) : rfsrv * link * seen_log := (rz_srv sv, rz_link sv, rz_seen sv).

Record rf_inv (n : nat) (W : know) (V : gmap (nat * Z) nat) (w : RfSys) : Prop := {
  ri_sys : exists done, sys_inv as_log_op [] n W (abs_sys w done);
  ri_tester : tester_ok n W (reported_seen <$> rz_servers w) (rz_tester w);
  ri_links : forall i sv, rz_servers w !! i = Some sv -> link_ok n W (rz_link sv);
  ri_srv : withSnap = true -> forall i sv, rz_servers w !! i = Some sv -> srv_ok (rz_srv sv) (rz_seen sv);
  ri_votes : Inv n V (rz_cluster w);
  ri_polls : NoDup (rz_polls w).*1 /\ forall i t, (i, (t, true)) ∈ rz_polls w -> leader_votes n V i t;
}.

Lemma leader_votes_mono n V V' i t : V ⊆ V' -> leader_votes n V i t -> leader_votes n V' i t.
Proof. intros HV (Q & ? & ?). exists Q. split; [by eapply voters_mono|done]. Qed.

Lemma rf_server_at n W V w i sv :
  rf_inv n W V w -> rz_servers w !! i = Some sv ->
  exists rf, cl_nodes (rz_cluster w) !! i = Some rf /\ server_ok as_log_op [] n W rf (abs_server sv).
Proof.
  intros HI Hi. destruct (ri_sys _ _ _ _ HI) as [done HS].
  assert (abs_server <$> rz_servers w !! i = Some (abs_server sv)) as Hi' by by rewrite Hi.
  rewrite <- list_lookup_fmap in Hi'. assert (is_Some (cl_nodes (rz_cluster w) !! i)) as [rf Hrf].
  { apply lookup_lt_is_Some. pose proof (inv_len _ _ _ (sf_inv _ _ _ (si_safe _ _ _ _ _ HS))) as Hl. simpl in Hl.
    rewrite Hl, <- (si_len _ _ _ _ _ HS). by eapply lookup_lt_Some. }
  exists rf. split; [done|]. by eapply (si_servers _ _ _ _ _ HS).
Qed.

(** A step that neither the services nor the tester notice. *)
Lemma rf_inv_quiet (L : GobLogLaws) (LR : GobRfLaws) n W V w w' :
  rf_inv n W V w -> (forall done, sys_step as_log_op 0 [] (abs_sys w done) (abs_sys w' done)) ->
  cluster_step (rz_cluster w) (rz_cluster w') ->
  service_part <$> rz_servers w' = service_part <$> rz_servers w ->
  rz_tester w' = rz_tester w -> rz_polls w' = rz_polls w -> exists W' V', rf_inv n W' V' w'.
Proof.
  intros [[done HS] HT Hln Hsrv HV [Hnd Hp]] Hs Hc He Et Ep.
  destruct (sys_inv_step as_log_op 0 [] L (log_machine_laws LR) n W _ _ HS (Hs done)) as (W' & Hx & HS').
  destruct (Inv_step L n V _ _ HV Hc) as (V' & HVV & HV'). exists W', V'.
  assert (reported_seen <$> rz_servers w' = reported_seen <$> rz_servers w) as Hseen.
  { apply (f_equal (fmap (fun x : rfsrv * link * seen_log => linked x.1.2 x.2))) in He. rewrite <- !list_fmap_compose in He. exact He. }
  assert (forall i sv', rz_servers w' !! i = Some sv' -> exists sv, rz_servers w !! i = Some sv /\ service_part sv' = service_part sv) as Hsame.
  { intros i sv' Hi. apply (f_equal (.!! i)) in He. rewrite !list_lookup_fmap, Hi in He.
    destruct (rz_servers w !! i) as [sv|] eqn:Hsv; [|done]. exists sv. split; [done|]. by apply (inj Some) in He. }
  constructor; [by exists done| | | |done|].
  - rewrite Hseen, Et. eapply tester_ok_grow; [by apply extends_later|done].
  - intros i sv' (sv & Hi & [= _ -> _])%Hsame. eapply link_ok_grow; [by apply extends_later|by apply (Hln i)].
  - intros Hw i sv' (sv & Hi & [= -> _ ->])%Hsame. by apply (Hsrv Hw i).
  - rewrite Ep. split; [done|]. intros i t Hin. eapply leader_votes_mono; [done|by apply Hp].
Qed.

Lemma abs_insert i sv (l : list rf_server) : abs_server <$> <[i := sv]> l = <[i := abs_server sv]> (abs_server <$> l).
Proof. apply list_fmap_insert. Qed.

Lemma same_services i sv sv' (l : list rf_server) :
  l !! i = Some sv -> service_part sv' = service_part sv -> service_part <$> <[i := sv']> l = service_part <$> l.
Proof.
  intros Hi H1. rewrite list_fmap_insert, H1. apply list_insert_id. by rewrite list_lookup_fmap, Hi.
Qed.

Lemma abs_at w done i sv : rz_servers w !! i = Some sv -> sy_servers (abs_sys w done) !! i = Some (abs_server sv).
Proof. intros Hi. simpl. by rewrite list_lookup_fmap, Hi. Qed.

(** A server takes a message. *)
Lemma rf_inv_receive (LR : GobRfLaws) n W V w i a1 a2 sv m queue rs' ln T' up :
  rf_inv n W V w -> rz_servers w !! i = Some sv -> rz_queue sv = m :: queue ->
  rf_receive withSnap i m a1 a2 (rz_srv sv) (rz_link sv, rz_tester w) = Some (rs', (ln, T'), up) ->
  rf_inv n W V (mkRfSys (rz_cluster w)
    (<[i := mkRfServer rs' queue up ln (seen_after withSnap m (rz_seen sv))]> (rz_servers w)) T' (rz_started w) (rz_polls w)).
Proof.
  intros HI Hi Hq H. destruct (rf_server_at _ _ _ _ _ _ HI Hi) as (rf & Hrf & Hok).
  destruct HI as [[done HS] HT Hln Hsrv HV Hpolls]. pose proof (sf_ghost _ _ _ (si_safe _ _ _ _ _ HS)) as HG.
  pose proof Hok as [_ _ (pos & Ho & _) Hms _]. simpl in Ho, Hms. rewrite Hq in Ho, Hms.
  apply Forall_cons in Hms as [Hm _]. simpl in Ho.
  assert (if am_CommandValid m then am_CommandIndex m = (zlen (rz_seen sv) + 1)%Z else True) as Hidx
    by (destruct (am_CommandValid m); [by destruct Ho|done]).
  assert ((reported_seen <$> rz_servers w) !! i = Some (linked (rz_link sv) (rz_seen sv))) as Hseen by by rewrite list_lookup_fmap, Hi.
  destruct (receive_good n W LR HG _ _ _ _ _ _ _ _ _ _ _ _ _ HT (Hln _ _ Hi) Hseen (fun Hw => Hsrv Hw _ _ Hi) Hm Hidx H)
    as ([pb Hrsm] & Hpos & Hln' & HT' & Hsrv').
  constructor; simpl; [| | | |done|done].
  - eexists. pose proof (sys_inv_receive as_log_op [] (log_machine_laws LR) n W _ i rf _ m queue pb _ up HS Hrf (abs_at _ _ _ _ Hi) Hq Hrsm) as HS'.
    unfold abs_sys. simpl. rewrite abs_insert. unfold abs_server at 1. simpl. rewrite Hpos. exact HS'.
  - by rewrite list_fmap_insert.
  - intros j sv' [(-> & <- & _)|[_ Hj]]%list_lookup_insert_Some; [done|by eapply Hln].
  - intros Hw j sv' [(-> & <- & _)|[_ Hj]]%list_lookup_insert_Some; [by apply Hsrv'|by eapply Hsrv].
Qed.

(** A server ends, and another starts on its disk. *)
Lemma rf_inv_restart (L : GobLogLaws) (LR : GobRfLaws) n W V w i a inc clk rf sv rf' rs (ingest : bool) ln T' :
  rf_inv n W V w -> cl_nodes (rz_cluster w) !! i = Some rf -> cl_inc (rz_cluster w) !! i = Some inc ->
  rz_servers w !! i = Some sv -> hard_in_range rf -> newRfsrv withSnap (persister rf) = Some (rs, ingest) ->
  Make clk (peers rf) i (persister rf) = Some rf' -> newRfsrv_ingest i rs ingest a (rz_tester w) = Some (ln, T') ->
  exists W' V', rf_inv n W' V' (mkRfSys
    (mkCluster (<[i := rf']> (cl_nodes (rz_cluster w))) (<[i := S inc]> (cl_inc (rz_cluster w)))
      (cl_votes (rz_cluster w)) (cl_calls (rz_cluster w)))
    (<[i := mkRfServer rs [] None ln (if ingest then snapshot_seen (ReadSnapshot (persister rf)) else [])]> (rz_servers w))
    T' (rz_started w) (rz_polls w)).
Proof.
  intros [[done HS] HT Hln Hsrv HV [Hnd Hp]] Hi Hinc Hsv Hr Hnew H Hcall. pose proof (si_safe _ _ _ _ _ HS) as HSafe.
  pose proof (inv_nodes _ _ _ HV _ _ Hi) as ((Hwf & Hst) & Hme & _).
  destruct (si_nodes _ _ _ _ _ HS _ _ Hi) as [Hd _]. rewrite <- (stored_snapshot _ Hst) in Hd.
  destruct (newRfsrv_good n W LR _ _ Hd) as (rs0 & ing & Hn & Hmk & Hz & Hok & Hcom). rewrite Hnew in Hn. injection Hn as <- <-.
  assert (lastIncludedIndex rf' = lastIncludedIndex rf) as Hix.
  { rewrite <- Hme in H. apply (Make_recovers L) in H as (_ & Hh & _); [|done..]. unfold hard in Hh. congruence. }
  destruct (sys_inv_restart as_log_op 0 [] L (log_machine_laws LR) n W (abs_sys w done) i inc clk 0 0%N rf _ rf' _
    HS Hi Hinc (abs_at _ _ _ _ Hsv) Hr Hmk H) as (W' & Hx & HS').
  destruct (Inv_step L n V _ _ HV (SRestart _ _ _ _ _ _ Hi Hinc Hr H)) as (V' & HVV & HV').
  edestruct (restart_good n W) as [Hln' HT']; [exact HT| | | |exact Hcom|exact Hcall|].
  { rewrite length_fmap. by eapply lookup_lt_Some. }
  { by intros ->. }
  { intros ->. apply Hok. unfold newRfsrv in Hnew. by destruct withSnap. }
  exists W', V'. constructor; simpl; [| | | |done|].
  - exists done. unfold abs_sys. simpl. rewrite abs_insert. unfold abs_server at 1. simpl. rewrite Hz, <- Hix. exact HS'.
  - rewrite list_fmap_insert. eapply tester_ok_grow; [by apply extends_later|done].
  - intros j sv' Hj. eapply link_ok_grow; [by apply extends_later|].
    apply list_lookup_insert_Some in Hj as [(-> & <- & _)|[_ Hj]]; [done|by eapply Hln].
  - intros Hw j sv' [(-> & <- & _)|[_ Hj]]%list_lookup_insert_Some; [by apply Hok|by eapply Hsrv].
  - split; [done|]. intros j t Hin. eapply leader_votes_mono; [done|by apply Hp].
Qed.

(** Only the connection of a server changes, and what was reported over it. *)
Lemma rf_inv_link n W V w i sv ln T' :
  rf_inv n W V w -> rz_servers w !! i = Some sv -> link_ok n W ln ->
  tester_ok n W (<[i := linked ln (rz_seen sv)]> (reported_seen <$> rz_servers w)) T' ->
  rf_inv n W V (mkRfSys (rz_cluster w) (<[i := mkRfServer (rz_srv sv) (rz_queue sv) (rz_snap sv) ln (rz_seen sv)]> (rz_servers w))
    T' (rz_started w) (rz_polls w)).
Proof.
  intros [[done HS] HT Hln Hsrv HV Hp] Hi Hl HT'. constructor; simpl; [| | | |done|done].
  - exists done. unfold abs_sys in *. simpl in *. rewrite abs_insert. rewrite list_insert_id; [done|]. by rewrite list_lookup_fmap, Hi.
  - by rewrite list_fmap_insert.
  - intros j sv' [(-> & <- & _)|[_ Hj]]%list_lookup_insert_Some; [done|by eapply Hln].
  - intros Hw j sv' [(-> & <- & _)|[_ Hj]]%list_lookup_insert_Some; [exact (Hsrv Hw _ _ Hi)|by eapply Hsrv].
Qed.

Lemma rf_inv_cut n W V w i sv :
  rf_inv n W V w -> rz_servers w !! i = Some sv ->
  rf_inv n W V (mkRfSys (rz_cluster w)
    (<[i := mkRfServer (rz_srv sv) (rz_queue sv) (rz_snap sv) (link_cut (rz_link sv)) (rz_seen sv)]> (rz_servers w))
    (rz_tester w) (rz_started w) (rz_polls w)).
Proof.
  intros HI Hi. apply rf_inv_link; [done|done| |].
  - destruct (ri_links _ _ _ _ HI _ _ Hi) as [_ Hl]. by constructor.
  - apply tester_ok_unseen; [by apply HI| |by left]. rewrite length_fmap. by eapply lookup_lt_Some.
Qed.

Lemma rf_inv_late n W V w i sv rq T' e b :
  rf_inv n W V w -> rz_servers w !! i = Some sv -> ln_late (rz_link sv) = Some rq -> serve i rq (rz_tester w) = Some (T', e, b) ->
  rf_inv n W V (mkRfSys (rz_cluster w)
    (<[i := mkRfServer (rz_srv sv) (rz_queue sv) (rz_snap sv) (mkLink (ln_up (rz_link sv)) None) (rz_seen sv)]> (rz_servers w))
    T' (rz_started w) (rz_polls w)).
Proof.
  intros HI Hi Hrq Hs. destruct (ri_links _ _ _ _ HI _ _ Hi) as [Hup Hl]. apply rf_inv_link; [done|done|by constructor|].
  assert (ln_up (rz_link sv) = false) as Hd by (destruct (ln_up (rz_link sv)) eqn:E; [by rewrite (Hup eq_refl) in Hrq|done]).
  assert ((reported_seen <$> rz_servers w) !! i = Some None) as Hn.
  { rewrite list_lookup_fmap, Hi. unfold reported_seen, linked. simpl. by rewrite Hd. }
  unfold linked. simpl. rewrite Hd, list_insert_id by done. eapply serve_late; [apply HI|exact Hn|by apply Hl|exact Hs].
Qed.

Lemma rf_inv_poll n W V w polls :
  rf_inv n W V w -> NoDup polls.*1 -> (forall i t, (i, (t, true)) ∈ polls -> leader_votes n V i t) ->
  rf_inv n W V (mkRfSys (rz_cluster w) (rz_servers w) (rz_tester w) (rz_started w) polls).
Proof. intros [] ? ?. by constructor. Qed.

Lemma rf_inv_step (L : GobLogLaws) (LR : GobRfLaws) n W V w w' :
  rf_inv n W V w -> rf_step withSnap w w' -> exists W' V', rf_inv n W' V' w'.
Proof.
  intros HI Hs. destruct Hs as [c' Hs|i rf rf' Hi Hs|i rf command rf' r Hi H|i rf sv rf' act Hi Hsv H
    |i a1 a2 sv m queue rs' ln ts' up Hsv Hq _ H|i sv Hsv|i sv rq ts' r Hsv Hrq H|i rf sv index data rf' Hi Hsv Hsn H
    |i a inc clk rf sv rf' rs ingest ln ts' Hi Hinc Hsv Hr Hnew H Hcall| |i a rf Hi Hin].
  - apply (rf_inv_quiet L LR n W V w _ HI); [|by apply SNet|done..].
    intros done. by apply Y_server, (Y_net _ (abs_sys w done)).
  - apply (rf_inv_quiet L LR n W V w _ HI); [|by eapply SLocal, LInner|done..].
    intros done. by apply Y_server, (Y_inner _ (abs_sys w done) _ rf).
  - apply (rf_inv_quiet L LR n W V w _ HI); [|by eapply SLocal, LStart|done..].
    intros done. by apply (Y_start _ _ _ (abs_sys w done) _ rf command rf' r).
  - apply (rf_inv_quiet L LR n W V w _ HI); [|by eapply SLocal, LApplier|by eapply same_services|done..].
    intros done. unfold abs_sys. simpl. rewrite abs_insert.
    by apply Y_server, (Y_deliver _ (abs_sys w done) _ rf (abs_server sv) rf' act Hi (abs_at _ _ _ _ Hsv)).
  - exists W, V. by eapply rf_inv_receive.
  - exists W, V. by apply rf_inv_cut.
  - exists W, V. by eapply rf_inv_late.
  - apply (rf_inv_quiet L LR n W V w _ HI); [|by eapply SLocal, LSnapshot|by eapply same_services|done..].
    intros done. unfold abs_sys. simpl. rewrite abs_insert.
    by apply Y_server, (Y_snapshot _ (abs_sys w done) _ rf (abs_server sv) index data rf' Hi (abs_at _ _ _ _ Hsv)).
  - by eapply rf_inv_restart.
  - exists W, V. apply rf_inv_poll; [done|constructor|]. by intros i t ?%not_elem_of_nil.
  - exists W, V. destruct (ri_polls _ _ _ _ HI) as [Hnd Hp]. apply rf_inv_poll; [done| |].
    + rewrite fmap_app. apply NoDup_app. split_and!; [done| |apply NoDup_singleton].
      intros j Hj ->%list_elem_of_singleton. done.
    + intros j t [?|He%list_elem_of_singleton]%elem_of_app; [by apply Hp|]. unfold Rfproxy_GetState, GetState in He. destruct a; [|done].
      injection He as -> -> Hl. symmetry in Hl. apply andb_true_iff in Hl as [_ Hl%bool_decide_eq_true].
      destruct (inv_nodes _ _ _ (ri_votes _ _ _ _ HI) _ _ Hi) as (_ & _ & Hpe & _ & _ & Hlead).
      destruct (Hlead Hl) as (Q & ? & Hm). exists Q. split; [done|]. unfold majority in Hm. by rewrite Hpe in Hm.
Qed.

Lemma rf_inv_run (L : GobLogLaws) (LR : GobRfLaws) n w w' :
  rtc (rf_step withSnap) w w' -> forall W V, rf_inv n W V w -> exists W' V', rf_inv n W' V' w'.
Proof.
  induction 1 as [x|x y z Hs _ IH]; intros W V HI; [by exists W, V|].
  destruct (rf_inv_step L LR n W V x y HI Hs) as (W1 & V1 & HI1). by eapply IH.
Qed.

Lemma rf_inv_init n w : rf_init n w -> rf_inv n (ghost_init, []) ∅ w.
Proof.
  intros (Hinit & Hsv & Ht & Hst & Hp). constructor.
  - exists []. apply sys_inv_fresh; simpl; [done| |done|done|].
    + by rewrite length_fmap, Hsv, length_replicate.
    + rewrite Hsv. intros i sv Hi. rewrite fmap_replicate in Hi. by apply lookup_replicate in Hi as [-> _].
  - rewrite Hsv, Ht, fmap_replicate. constructor; simpl.
    + by rewrite !length_replicate.
    + intros i ts [-> _]%lookup_replicate. split; [done|]. intros k c Hk. cbn in Hk; by rewrite lookup_empty in Hk.
    + intros i s [[= ->] Hi]%lookup_replicate. exists (mkRaftServer ∅ None).
      split; [by apply lookup_replicate|]. intros k Hk. unfold zlen in Hk. simpl in Hk. lia.
  - rewrite Hsv. intros i sv [-> _]%lookup_replicate. by constructor.
  - rewrite Hsv. intros _ i sv [-> _]%lookup_replicate. apply srv_ok_init.
  - by apply Inv_init.
  - rewrite Hp. split; [constructor|]. by intros i t ?%not_elem_of_nil.
Qed.

(** ** What the checks find *)

Lemma nCommitted_loop_ok n W index : ghost_ok n W.1 -> forall srvs count cmd,
  (forall i ts, srvs !! i = Some ts -> ts_applyErr ts = None /\ logs_ok n W (ts_logs ts)) ->
  ((0 < count)%Z -> logs_ok n W {[ index := cmd ]}) ->
  is_Some (nCommitted_loop index count cmd srvs).
Proof.
  intros HG. induction srvs as [|rs srvs IH]; intros count cmd Hs Hc; cbn [nCommitted_loop]; [done|].
  destruct (Hs 0 rs eq_refl) as [-> Hl]. assert (forall i ts, srvs !! i = Some ts -> ts_applyErr ts = None /\ logs_ok n W (ts_logs ts))
    as Hs' by (intros i ts Hi; by apply (Hs (S i))).
  destruct (ts_logs rs !! index) as [c1|] eqn:H1; [|by apply IH].
  apply Hl in H1. rewrite decide_False.
  - apply IH; [done|]. intros _ k c [<- <-]%lookup_singleton_Some. done.
  - intros [Hpos Hne]. apply Hne. specialize (Hc Hpos index cmd (lookup_singleton_eq _ _)).
    destruct Hc as [[-> ->]|(j & Hj & Hcj)], H1 as [[? ->]|(j1 & Hj1 & Hc1)]; [done|lia|lia|].
    assert (j1 = j) as -> by lia. by eapply committed_at_agree.
Qed.

Lemma tally_app polls p :
  tally (polls ++ [p]) = (if p.2.2 : bool then <[p.2.1 := default [] (tally polls !! p.2.1) ++ [p.1]]> (tally polls) else tally polls).
Proof. unfold tally. rewrite foldl_app. by destruct p as [i [t []]]. Qed.

(** Who is counted in a term answered so, once each. *)
Lemma tally_spec polls : NoDup polls.*1 -> forall t l, tally polls !! t = Some l ->
  NoDup l /\ forall i, i ∈ l -> (i, (t, true)) ∈ polls.
Proof.
  induction polls as [|[i [t b]] polls IH] using rev_ind; intros Hnd t0 l Hl; [unfold tally in Hl; simpl in Hl; by rewrite lookup_empty in Hl|].
  rewrite fmap_app in Hnd. apply NoDup_app in Hnd as (Hnd & Hi & _). specialize (IH Hnd).
  assert (forall j u, j ∈ default [] (tally polls !! u) -> (j, (u, true)) ∈ polls) as Hin.
  { intros j u Hj. destruct (tally polls !! u) as [l'|] eqn:E; simpl in Hj; [by apply (IH u l')|by apply not_elem_of_nil in Hj]. }
  rewrite tally_app in Hl. simpl in Hl. destruct b.
  - apply lookup_insert_Some in Hl as [[<- <-]|[_ Hl]].
    + split.
      * apply NoDup_app. split_and!; [|intros j Hj ->%list_elem_of_singleton|apply NoDup_singleton].
        -- destruct (tally polls !! t) as [l'|] eqn:E; [by apply (IH t l')|constructor].
        -- apply Hin in Hj. apply (Hi i); [|by apply list_elem_of_singleton]. apply list_elem_of_fmap. by exists (i, (t, true)).
      * intros j [Hj%Hin| ->%list_elem_of_singleton]%elem_of_app; apply elem_of_app; [by left|right].
        by apply list_elem_of_singleton.
    + destruct (IH _ _ Hl) as [? H]. split; [done|]. intros j Hj%H. apply elem_of_app. by left.
  - destruct (IH _ _ Hl) as [? H]. split; [done|]. intros j Hj%H. apply elem_of_app. by left.
Qed.

Lemma one_leader n V i j t : leader_votes n V i t -> leader_votes n V j t -> i = j.
Proof.
  intros (Q & HQ & Hm) (Q' & HQ' & Hm'). destruct (majority_intersect n Q Q') as (v & Hv & Hv'); auto.
  { by intros v [? _]%HQ. } { by intros v [? _]%HQ'. }
  apply HQ in Hv as [_ Hv]. apply HQ' in Hv' as [_ Hv']. congruence.
Qed.

Lemma checkLeaders_ok n V polls :
  NoDup polls.*1 -> (forall i t, (i, (t, true)) ∈ polls -> leader_votes n V i t) -> is_Some (checkLeaders polls).
Proof.
  intros Hnd Hp. unfold checkLeaders. rewrite decide_True; [by eexists|]. intros t l Hl.
  apply tally_spec in Hl as [Hl Hin]; [|done]. destruct l as [|i [|j l]]; simpl; [lia|lia|exfalso].
  apply NoDup_cons in Hl as [Hni _]. apply Hni. rewrite (one_leader n V i j t); [by left|..]; apply Hp, Hin; by repeat constructor.
Qed.

Lemma call_total i rq a ln T : is_Some (ts_srvs T !! i) ->
  exists r ln' T', TesterClnt_Call i rq a (ln, T) = Some (r, (ln', T')) /\ is_Some (ts_srvs T' !! i).
Proof.
  intros [ts Hts]. destruct (ln_up ln) eqn:Hup; [|rewrite call_down by done; eauto 10].
  destruct a; [|rewrite call_broken by done; eauto 10]. unfold TesterClnt_Call. rewrite Hup.
  destruct rq as [index v|xlog|e]; simpl; unfold CheckLogs; rewrite ?Hts; simpl; eexists _, _, _; (split; [done|]); simpl.
  - rewrite list_lookup_insert_eq; [done|by eapply lookup_lt_Some].
  - by rewrite list_lookup_alter_eq, Hts.
  - by rewrite list_lookup_alter_eq, Hts.
Qed.

Lemma reported_total i err a ln T : is_Some (ts_srvs T !! i) -> is_Some (reported i err a (ln, T)).
Proof.
  intros H. destruct err as [e|]; [|done]. unfold reported, proxy_ApplyErr.
  destruct (call_total i (RqApplyErr e) a ln T H) as (r & ln' & T' & -> & _). done.
Qed.

Lemma rf_receive_total i m a1 a2 rs ln T : is_Some (ts_srvs T !! i) -> is_Some (rf_receive withSnap i m a1 a2 rs (ln, T)).
Proof.
  intros H. unfold rf_receive, applierSnap, rf_applier, proxy_CheckLogs, proxy_IngestLog. destruct withSnap.
  - destruct (am_SnapshotValid m).
    + destruct (ingestSnap _ _ _) as [rs' err]. destruct (call_total i (RqIngestLog (rv_log rs')) a1 ln T H) as (r & ln' & T' & -> & H').
      simpl. by destruct (reported_total i err a2 ln' T' H') as [c ->].
    + destruct (am_CommandValid m); [|done]. case_decide; cbn [mbind option_bind].
      * match goal with |- context [reported i ?x a2 _] => by destruct (reported_total i x a2 ln T H) as [c ->] end.
      * destruct (call_total i (RqCheckLogs (am_CommandIndex m) (am_Command m)) a1 ln T H) as (r & ln' & T' & -> & H').
        destruct r as [[e p]|]; cbn [mbind option_bind];
          match goal with |- context [reported i ?x a2 _] => by destruct (reported_total i x a2 ln' T' H') as [c ->] end.
  - destruct (am_CommandValid m); [|done]. cbn [negb].
    destruct (call_total i (RqCheckLogs (am_CommandIndex m) (am_Command m)) a1 ln T H) as (r & ln' & T' & -> & H').
    destruct r as [[e p]|]; cbn [mbind option_bind];
      match goal with |- context [reported i ?x a2 _] => by destruct (reported_total i x a2 ln' T' H') as [c ->] end.
Qed.

(** C7. Raft's tests check the servers of [raft1/server.go]: each reports to the tester
    every command and snapshot it receives from Raft, and the tester records an error
    when a server reports a command for an index for which a server reported a different
    one, when a command comes out of order, or when a snapshot does
    not decode or is not the one of its index; a call of the tester that fails is an error
    too.  In every state the system reaches, by
    whatever the network, the crashes and restarts, the elections, [Start] and
    [Snapshot] do, and whenever the connections of the servers to the tester break or are
    closed, with or without snapshots: a server can take the next message, whether its
    calls are answered or not; all that a server received is reported while its connection
    is open; no error is recorded, since a call fails only on a connection that takes no
    error any more; [nCommitted] finds
    at every index at most one command and never ends the test, [checkOneLeader] never
    finds two leaders of one term in a round of answers to [GetState], some of which may
    fail, however long the round takes, and a server that starts on the disk of any node
    always reads its snapshot, which [newRfsrv] would otherwise exit on. *)
Theorem raft_checks_pass (L : GobLogLaws) (LR : GobRfLaws) n w w' :
  rf_init n w -> rtc (rf_step withSnap) w w' ->
  (forall i sv m queue a1 a2, rz_servers w' !! i = Some sv -> rz_queue sv = m :: queue ->
     is_Some (rf_receive withSnap i m a1 a2 (rz_srv sv) (rz_link sv, rz_tester w'))) /\
  (forall i sv, rz_servers w' !! i = Some sv -> ln_up (rz_link sv) = true ->
     exists ts, ts_srvs (rz_tester w') !! i = Some ts /\ forall k, (1 <= k <= zlen (rz_seen sv))%Z -> is_Some (ts_logs ts !! k)) /\
  (forall i ts, ts_srvs (rz_tester w') !! i = Some ts -> ts_applyErr ts = None) /\
  (forall index, is_Some (nCommitted index (rz_tester w'))) /\
  is_Some (checkLeaders (rz_polls w')) /\
  (forall i rf, cl_nodes (rz_cluster w') !! i = Some rf -> is_Some (newRfsrv withSnap (persister rf))).
Proof.
  intros H0 H1. destruct (rf_inv_run L LR n _ _ H1 _ _ (rf_inv_init _ _ H0)) as (W & V & [[done HS] [Hlen Hlogs Hseen] _ _ HV [Hnd Hp]]).
  split_and!.
  - intros i sv m queue a1 a2 Hi _. apply rf_receive_total. apply lookup_lt_is_Some. rewrite Hlen, length_fmap. by eapply lookup_lt_Some.
  - intros i sv Hi Hup. apply Hseen. rewrite list_lookup_fmap, Hi. simpl. unfold reported_seen, linked. by rewrite Hup.
  - intros i ts Hi. by destruct (Hlogs _ _ Hi).
  - intros index. apply (nCommitted_loop_ok n W); [apply (si_safe _ _ _ _ _ HS)|done|lia].
  - by eapply checkLeaders_ok.
  - intros i rf Hi. pose proof (inv_nodes _ _ _ HV _ _ Hi) as ((_ & Hst) & _).
    destruct (si_nodes _ _ _ _ _ HS _ _ Hi) as [Hd _]. rewrite <- (stored_snapshot _ Hst) in Hd.
    destruct (newRfsrv_good n W LR _ _ Hd) as (rs & ing & -> & _). done.
Qed.

End RfChecks.
