(* ===== verification/KvRaft.v ===== *)
(** * The replicated key/value service ([kvraft1/server.go])

    The state machine of the replicated store: conditional puts behind the
    de-duplication table, snapshots with the table, old snapshots without it.
    Replaying any log is shown to execute each identified put at most once, each
    execution being a [spec_put] of [KvSpec], and every reply to be the reply of
    such an execution.  The counter service of [RsmSrv] is the other
    instance of [StateMachine]. *)

From S2P Require Import Prelude.
From S2P Require Import Rpc.
From S2P Require Import KvSpec.
From S2P Require Import Dedup.
From S2P Require Import Persister.
From S2P Require Import BitCodec.
From S2P Require Import Raft.
From S2P Require Import RaftApply.
From S2P Require Import Rsm.

(** ** Executions behind the de-duplication table *)

Section executions.
Context {St : Type} (apply : PutArgs -> St -> option (St * PutReply)).

(** An executed put with its reply. *)
Abbreviation exec := (PutArgs * PutReply)%type.

(** [execs] takes the state from [s] to [s'], each reply being that of its put. *)
Fixpoint exec_run (execs : list exec) (s s' : St) : Prop :=
match execs with
| [] => s' = s
| (a, r) :: execs' => exists s1, apply a s = Some (s1, r) /\ exec_run execs' s1 s'
end.

Lemma exec_run_snoc execs a r s s1 s2 :
  exec_run execs s s1 -> apply a s1 = Some (s2, r) -> exec_run (execs ++ [(a, r)]) s s2.
Proof.
  revert s. induction execs as [|[b rb] execs IH]; intros s H Ha; simpl in *.
  - subst s1. eauto.
  - destruct H as (s3 & Hb & H). eauto.
Qed.

(** Every reply the table remembers is that of an execution, no identity executed
    twice, and what is above a watermark is remembered. *)
Record table_ok (t : Table) (execs : list exec) : Prop := {
tk_replies : forall id ses, default ∅ (Sessions t) !! id = Some ses -> is_Some (ss_Replies ses);
tk_exec : forall id ses s r, default ∅ (Sessions t) !! id = Some ses ->
  map_get (ss_Replies ses) s = Some r -> exists a, (a, r) ∈ execs /\ put_id a = (id, s);
tk_known : forall a r, (a, r) ∈ execs -> pa_ClientID a <> 0%N ->
  exists ses, default ∅ (Sessions t) !! pa_ClientID a = Some ses /\
    ((pa_Sequence a <= ss_Ack ses)%N \/ is_Some (map_get (ss_Replies ses) (pa_Sequence a)));
tk_once : NoDup (put_id <$> filter (fun a => pa_ClientID a <> 0%N) execs.*1);
}.

Lemma table_ok_zero : table_ok Table_zero [].
Proof.
  constructor; simpl.
  - intros id ses H. by rewrite lookup_empty in H.
  - intros id ses s r H. by rewrite lookup_empty in H.
  - intros a r H. by apply not_elem_of_nil in H.
  - apply NoDup_nil_2.
Qed.

Lemma prune_get ack replies s :
  map_get (prune ack replies) s = if decide (s <= ack)%N then None else map_get replies s.
Proof.
  destruct replies as [m|]; simpl; [|by case_decide].
  change (filter (fun p => ~ (p.1 <= ack)%N) m !! s = if decide (s <= ack)%N then None else m !! s).
  rewrite map_lookup_filter. destruct (m !! s) as [r|]; simpl; [|by case_decide].
  unfold guard. repeat case_decide; simpl; done.
Qed.
(** The session of [args] after its watermark was raised. *)
Definition raised (t : Table) (args : PutArgs) : Session :=
let session0 := default (mkSession 0 map_make) (default ∅ (Sessions t) !! pa_ClientID args) in
if (ss_Ack session0 <? pa_Ack args)%N
then mkSession (pa_Ack args) (prune (pa_Ack args) (ss_Replies session0)) else session0.

Definition with_session (t : Table) (id : N) (ses : Session) : Table :=
mkTable (Some (<[id := ses]> (default ∅ (Sessions t)))).

(** [ses] remembers for client [id] what [execs] executed above its watermark. *)
Definition session_known (ses : Session) (execs : list exec) (id : N) : Prop :=
is_Some (ss_Replies ses) /\
(forall s r, map_get (ss_Replies ses) s = Some r -> exists a, (a, r) ∈ execs /\ put_id a = (id, s)) /\
(forall a r, (a, r) ∈ execs -> pa_ClientID a = id ->
  (pa_Sequence a <= ss_Ack ses)%N \/ is_Some (map_get (ss_Replies ses) (pa_Sequence a))).

Lemma raised_known t args execs :
  table_ok t execs -> pa_ClientID args <> 0%N -> session_known (raised t args) execs (pa_ClientID args).
Proof.
  intros [Hr He Hk _] Hid. unfold raised.
  set (ses0 := default (mkSession 0 map_make) (default ∅ (Sessions t) !! pa_ClientID args)).
  assert (session_known ses0 execs (pa_ClientID args)) as (H1 & H2 & H3).
  { unfold ses0. destruct (default ∅ (Sessions t) !! pa_ClientID args) as [ses|] eqn:E; simpl.
    - split_and!; [by eapply Hr|by eauto|]. intros a r Hin Ha.
      apply Hk in Hin as (ses' & Hs & Hx); [|congruence]. rewrite Ha, E in Hs. by injection Hs as <-.
    - split_and!; [by eexists| |].
      + intros s r Hx. cbn [ss_Replies] in Hx. by rewrite map_get_make in Hx.
      + intros a r Hin Ha. apply Hk in Hin as (ses' & Hs & _); congruence. }
  clearbody ses0. destruct (N.ltb_spec (ss_Ack ses0) (pa_Ack args)); [|by split_and!].
  unfold session_known. simpl. split_and!.
  - destruct H1 as [m ->]. by eexists.
  - intros s r. rewrite prune_get. case_decide; [done|]. apply H2.
  - intros a r Hin Ha. rewrite prune_get. case_decide; [by left|].
    destruct (H3 a r Hin Ha); [left; lia|by right].
Qed.

(** Putting back a session that knows the executions keeps the table. *)
Lemma table_ok_session t ses execs execs' id :
  table_ok t execs -> id <> 0%N -> session_known ses execs' id ->
  (forall x, x ∈ execs -> x ∈ execs') -> (forall a r, (a, r) ∈ execs' -> (a, r) ∈ execs \/ pa_ClientID a = id) ->
  NoDup (put_id <$> filter (fun a => pa_ClientID a <> 0%N) execs'.*1) ->
  table_ok (with_session t id ses) execs'.
Proof.
  intros [Hr He Hk _] Hid (H1 & H2 & H3) Hsub Hnew Hnd. unfold with_session. constructor; simpl; auto.
  - intros i s0. rewrite lookup_insert. case_decide; [intros [= <-]; done|apply Hr].
  - intros i s0 s r. rewrite lookup_insert. case_decide as Hi.
    + intros [= <-] Hx. subst i. by apply H2.
    + intros Hx Hy. destruct (He _ _ _ _ Hx Hy) as (a & Ha & ?). eauto.
  - intros a r Hin Ha. rewrite lookup_insert. case_decide as Hi.
    + exists ses. split; [done|]. by eapply H3.
    + destruct (Hnew a r Hin) as [Hold|?]; [|congruence]. by eapply Hk.
Qed.

(** One call of [Do]: the put is refused by the watermark, answered from an
    earlier execution of the same identity, or executed now. *)
Lemma Table_Do_exec t args s t' s' r execs :
  table_ok t execs -> Table_Do t args (apply args) s = Some (t', s', r) ->
  (table_ok t' execs /\ s' = s /\ pa_ClientID args <> 0%N /\
     (r = mkPutReply ErrStaleRequest \/ exists a, (a, r) ∈ execs /\ put_id a = put_id args)) \/
  (table_ok t' (execs ++ [(args, r)]) /\ apply args s = Some (s', r) /\
     (pa_ClientID args <> 0%N -> forall a x, (a, x) ∈ execs -> put_id a <> put_id args)).
Proof.
  intros HT H. unfold Table_Do in H. destruct (N.eqb_spec (pa_ClientID args) 0) as [Hz|Hid].
  { apply bind_Some in H as ([s1 r1] & Ha & H). injection H as <- <- <-. right. split_and!; [|done|done].
    destruct HT as [Hr He Hk Hnd]. constructor; auto.
    - intros id ses q x Hs Hx. destruct (He _ _ _ _ Hs Hx) as (a & Hin & ?).
      exists a. split; [|done]. apply elem_of_app. by left.
    - intros a x [Hin|[= -> ->]%list_elem_of_singleton]%elem_of_app Hx; [by eapply Hk|done].
    - rewrite fmap_app, filter_app. simpl. rewrite filter_cons_False by (by intros ?). by rewrite app_nil_r. }
  destruct (_ || _); [injection H as <- <- <-; left; split_and!; auto|].
  fold (raised t args) in H. pose proof (raised_known t args execs HT Hid) as Hses.
  fold (with_session t (pa_ClientID args) (raised t args)) in H.
  assert (table_ok (with_session t (pa_ClientID args) (raised t args)) execs) as HT'.
  { eapply table_ok_session; eauto. apply HT. }
  destruct (N.leb_spec (pa_Sequence args) (ss_Ack (raised t args))) as [|Habove].
  { injection H as <- <- <-. left. split_and!; auto. }
  destruct (map_get (ss_Replies (raised t args)) (pa_Sequence args)) as [reply|] eqn:Hl.
  { injection H as <- <- <-. left. split_and!; auto. right.
    destruct Hses as (_ & H2 & _). by apply H2. }
  apply bind_Some in H as ([s1 reply] & Ha & H). apply bind_Some in H as (m & Hm & H).
  injection H as <- <- <-. right. destruct Hses as ([g Hg] & H2 & H3).
  assert (forall a x, (a, x) ∈ execs -> put_id a <> put_id args) as Hfresh.
  { intros a x Hin [= Hc Hq]. destruct (H3 a x Hin Hc) as [?|[y Hy]]; [lia|congruence]. }
  split_and!; [|done|done].
  rewrite Hg in Hm, H2, H3. simpl in Hm, H2, H3. injection Hm as <-.
  eapply (table_ok_session t _ execs); eauto.
  - split_and!; simpl; [by eexists| |].
    + intros q x. rewrite lookup_insert. case_decide as Hq.
      * intros [= <-]. exists args. split; [apply elem_of_app; right; left|by rewrite <- Hq].
      * intros Hx. destruct (H2 q x Hx) as (a & Hin & ?). exists a. split; [apply elem_of_app; by left|done].
    + intros a x [Hin|[= -> ->]%list_elem_of_singleton]%elem_of_app Hc.
      * destruct (H3 a x Hin Hc) as [?|Hy]; [by left|right].
        rewrite lookup_insert. by case_decide; [eexists|].
      * right. rewrite lookup_insert_eq. by eexists.
  - intros x Hx. apply elem_of_app. by left.
  - intros a x [Hin|[= -> ->]%list_elem_of_singleton]%elem_of_app; [by left|by right].
  - rewrite fmap_app, filter_app, fmap_app. simpl. rewrite filter_cons_True by done. simpl.
    apply NoDup_app. split_and!; [apply HT| |apply NoDup_singleton].
    intros k (a & -> & Hin)%list_elem_of_fmap Hk%list_elem_of_singleton.
    apply list_elem_of_filter in Hin as [_ Hin]. apply list_elem_of_fmap in Hin as ([b x] & -> & Hin).
    by apply Hfresh in Hin.
Qed.
End executions.

(** ** The service *)

(** The encoding of a snapshot: the values, then the table, in one gob stream.
    [ungob_values] decodes the first part into a fresh map and returns what is
    left; [ungob_table] decodes the second from a non-empty rest. *)
Class GobKv := {
  gob_values : kvmap -> option bytes;
  gob_table : Table -> option bytes;
  ungob_values : bytes -> option (gomap string entry * bytes);
  ungob_table : bytes -> option Table;
}.

Class GobKvLaws {GK : GobKv} : Prop := {
  ungob_gob_values m b rest : gob_values m = Some b -> ungob_values (b ++ rest) = Some (Some m, rest);
  ungob_gob_table t b : gob_table t = Some b -> ungob_table b = Some t;
  gob_values_nonempty m b : gob_values m = Some b -> b <> [];
  gob_table_nonempty t b : gob_table t = Some b -> b <> [];
}.

Section KvRaft.
Context {GK : GobKv}.

(** [me], [rsm] and the mutex aside; [values] is never nil. *)
Record KVRaft : Type := mkKVRaft { kvr_values : kvmap; kvr_requests : Table }.

(** The requests [DoOp] distinguishes by type, and its results. *)
Inductive kv_req : Type := KGet (args : GetArgs) | KPut (args : PutArgs) | KUnknown.
Inductive kv_rep : Type := KGetReply (reply : GetReply) | KPutReply (reply : PutReply).

Definition putLocked (args : PutArgs) (values : kvmap) : kvmap * PutReply :=
match values !! pa_Key args with
| None =>
    if decide (pa_Version args <> 0%N) then (values, mkPutReply ErrNoKey)
    else (<[pa_Key args := mkEntry (pa_Value args) 1]> values, mkPutReply OK)
| Some e =>
    if decide (Version e <> pa_Version args) then (values, mkPutReply ErrVersion)
    else (<[pa_Key args := mkEntry (pa_Value args) (u64_inc (Version e))]> values, mkPutReply OK)
end.

Definition kvraft_DoOp (req : kv_req) (kv : KVRaft) : option (KVRaft * kv_rep) :=
match req with
| KGet args =>
    Some (kv, KGetReply (match kvr_values kv !! ga_Key args with
                         | None => mkGetReply "" 0 ErrNoKey
                         | Some e => mkGetReply (Value e) (Version e) OK
                         end))
| KPut args =>
    '(t, values, reply) ← Table_Do (kvr_requests kv) args (fun v => Some (putLocked args v)) (kvr_values kv);
    Some (mkKVRaft values t, KPutReply reply)
| KUnknown => None
end.

Definition kvraft_Snapshot (kv : KVRaft) : option bytes :=
v ← gob_values (kvr_values kv);
t ← gob_table (kvr_requests kv);
Some (v ++ t).

Definition kvraft_Restore (data : bytes) (kv : KVRaft) : option KVRaft :=
if decide (length data = 0) then Some kv
else
  '(values, rest) ← ungob_values data;
  requests ← (if decide (length rest = 0) then Some Table_zero (* io.EOF: an old snapshot *)
              else ungob_table rest);
  Some (mkKVRaft (default ∅ values) requests).

(** The RPC handlers on what [SubmitWithTimeout] returned. *)
Definition kvraft_Get (res : Err * option kv_rep) : option GetReply :=
if decide (res.1 <> OK) then Some (mkGetReply "" 0 res.1)
else match res.2 with Some (KGetReply r) => Some r | _ => None end.

Definition kvraft_Put (res : Err * option kv_rep) : option PutReply :=
if decide (res.1 <> OK) then Some (mkPutReply res.1)
else match res.2 with Some (KPutReply r) => Some r | _ => None end.

Definition StartKVServer : KVRaft := mkKVRaft ∅ Table_zero.

#[global] Instance KVRaft_machine : StateMachine KVRaft kv_req kv_rep := {|
  sm_DoOp := kvraft_DoOp; sm_Snapshot := kvraft_Snapshot; sm_Restore := kvraft_Restore |}.

(** ** The contract *)

Lemma nonempty_length (b : bytes) : b <> [] -> length b <> 0.
Proof. by destruct b. Qed.

Lemma nonempty_app_length (b c : bytes) : b <> [] -> length (b ++ c) <> 0.
Proof. by destruct b. Qed.

Lemma putLocked_spec args values :
  putLocked args values = ((spec_put values args).1, mkPutReply (spec_put values args).2).
Proof. unfold putLocked, spec_put. cases; done. Qed.

Lemma kvraft_get_spec args kv :
  kvraft_DoOp (KGet args) kv =
  let '(v, ver, e) := spec_get (kvr_values kv) (ga_Key args) in Some (kv, KGetReply (mkGetReply v ver e)).
Proof. unfold kvraft_DoOp, spec_get. by destruct (kvr_values kv !! ga_Key args). Qed.

(** C23. Snapshots: restoring a snapshot gives back the values and the table it
    was taken of, whatever the state before; a snapshot of the old format, which
    ends after the values, restores them with an empty table; and an empty one
    changes nothing. *)
Theorem kvraft_snapshot_roundtrip (L : GobKvLaws) kv kv0 b m bm :
  kvraft_Snapshot kv = Some b -> gob_values m = Some bm ->
  b <> [] /\ kvraft_Restore b kv0 = Some kv /\
  kvraft_Restore bm kv0 = Some (mkKVRaft m Table_zero) /\ kvraft_Restore [] kv0 = Some kv0.
Proof.
  intros H Hm. unfold kvraft_Snapshot in H. apply bind_Some in H as (v & Hv & H).
  apply bind_Some in H as (t & Ht & H). injection H as <-.
  pose proof (gob_values_nonempty _ _ Hv). pose proof (gob_table_nonempty _ _ Ht).
  pose proof (gob_values_nonempty _ _ Hm).
  split_and!; [by destruct v| | |done]; unfold kvraft_Restore.
  - rewrite decide_False by (by apply nonempty_app_length).
    rewrite (ungob_gob_values _ _ _ Hv). simpl.
    rewrite decide_False by (by apply nonempty_length). rewrite (ungob_gob_table _ _ Ht). simpl. by destruct kv.
  - rewrite decide_False by (by apply nonempty_length). rewrite <- (app_nil_r bm).
    rewrite (ungob_gob_values _ _ _ Hm). done.
Qed.

#[global] Instance KVRaft_machine_laws (L : GobKvLaws) : StateMachineLaws KVRaft kv_req kv_rep.
Proof.
  constructor; simpl.
  - intros kv b H. unfold kvraft_Snapshot in H. apply bind_Some in H as (v & Hv & H).
    apply bind_Some in H as (t & Ht & H). injection H as <-.
    pose proof (gob_values_nonempty _ _ Hv). by destruct v.
  - intros kv b kv0 H. unfold kvraft_Snapshot in H. apply bind_Some in H as (v & Hv & H).
    apply bind_Some in H as (t & Ht & H). injection H as <-.
    pose proof (gob_values_nonempty _ _ Hv). pose proof (gob_table_nonempty _ _ Ht).
    unfold kvraft_Restore. rewrite decide_False by (by apply nonempty_app_length).
    rewrite (ungob_gob_values _ _ _ Hv). simpl.
    rewrite decide_False by (by apply nonempty_length). rewrite (ungob_gob_table _ _ Ht). simpl. by destruct kv.
Qed.

(** ** Replaying a log *)

Fixpoint kv_replay (log : list kv_req) (kv : KVRaft) : option (KVRaft * list kv_rep) :=
match log with
| [] => Some (kv, [])
| req :: log' =>
    '(kv1, rep) ← kvraft_DoOp req kv;
    '(kv2, reps) ← kv_replay log' kv1;
    Some (kv2, rep :: reps)
end.

(** A prefix replays, and so does the request after it. *)
Lemma kv_replay_take log : forall k kv kv' reps,
  kv_replay log kv = Some (kv', reps) -> exists kvk repsk, kv_replay (take k log) kv = Some (kvk, repsk).
Proof.
  induction log as [|r log IH]; intros [|k] kv kv' reps H; simpl in *; eauto.
  apply bind_Some in H as ([kv1 rep] & H1 & H). apply bind_Some in H as ([kv2 reps2] & H2 & H). rewrite H1. simpl.
  apply (IH k) in H2 as (kvk & repsk & H2). rewrite H2. simpl. eauto.
Qed.

Lemma kv_replay_reply log : forall k kv kv' reps kvk repsk req kvk' rep,
  kv_replay log kv = Some (kv', reps) -> log !! k = Some req -> kv_replay (take k log) kv = Some (kvk, repsk) ->
  kvraft_DoOp req kvk = Some (kvk', rep) -> reps !! k = Some rep.
Proof.
  induction log as [|r log IH]; intros [|k] kv kv' reps kvk repsk req kvk' rep H Hk Ht Hd; simpl in *; try done;
    apply bind_Some in H as ([kv1 rep1] & H1 & H); apply bind_Some in H as ([kv2 reps2] & H2 & H); injection H as <- <-.
  - injection Hk as ->. injection Ht as <- _. rewrite Hd in H1. by injection H1 as _ ->.
  - rewrite H1 in Ht. simpl in Ht. apply bind_Some in Ht as ([kv3 reps3] & H3 & Ht). injection Ht as <- _.
    simpl. by eapply (IH k).
Qed.

(** The contract's put as a step on the values. *)
Definition spec_apply (a : PutArgs) (m : kvmap) : option (kvmap * PutReply) :=
Some ((spec_put m a).1, mkPutReply (spec_put m a).2).

(** The puts of a log. *)
Definition puts (log : list kv_req) : list PutArgs :=
omap (fun r => match r with KPut a => Some a | _ => None end) log.

Lemma puts_app l1 l2 : puts (l1 ++ l2) = puts l1 ++ puts l2.
Proof. unfold puts. induction l1 as [|[]]; csimpl; [done|done|by f_equal|done]. Qed.

(** What a reply promises about the executions. *)
Definition reply_ok (m : kvmap) (execs : list (PutArgs * PutReply)) (req : kv_req) (rep : kv_rep) : Prop :=
match req, rep with
| KGet a, KGetReply r => exists n s v ver e, exec_run spec_apply (take n execs) m s /\
    spec_get s (ga_Key a) = (v, ver, e) /\ r = mkGetReply v ver e
| KPut a, KPutReply r => r = mkPutReply ErrStaleRequest \/
    exists a', (a', r) ∈ execs /\ put_id a' = put_id a
| _, _ => False
end.

Lemma reply_ok_app m execs more req rep : reply_ok m execs req rep -> reply_ok m (execs ++ more) req rep.
Proof.
  destruct req as [a|a|], rep as [r|r]; simpl; try done.
  - intros (n & s & v & ver & e & Hr & Hg & ->).
    exists (length (take n execs)), s, v, ver, e. split_and!; auto.
    rewrite take_app_le by (rewrite length_take; lia).
    rewrite length_take. destruct (decide (n <= length execs)).
    + by rewrite Nat.min_l by lia.
    + rewrite Nat.min_r, firstn_all by lia. by rewrite take_ge in Hr by lia.
  - intros [?|(a' & Hin & ?)]; [by left|right]. exists a'. split; [apply elem_of_app; by left|done].
Qed.

(** A store after some executions. *)
Definition executed_to (m : kvmap) (execs : list (PutArgs * PutReply)) (kv : KVRaft) : Prop :=
exec_run spec_apply execs m (kvr_values kv) /\ table_ok (kvr_requests kv) execs.

Lemma executed_to_init m : executed_to m [] (mkKVRaft m Table_zero).
Proof. split; [done|apply table_ok_zero]. Qed.

(** One request executes its put or nothing. *)
Lemma kv_DoOp_exec m execs req kv kv' rep :
  executed_to m execs kv -> kvraft_DoOp req kv = Some (kv', rep) ->
  exists more, executed_to m (execs ++ more) kv' /\ more.*1 `sublist_of` puts [req] /\
    reply_ok m (execs ++ more) req rep.
Proof.
  intros [Hr HT] H. destruct req as [a|a|]; [| |done].
  - rewrite kvraft_get_spec in H. destruct (spec_get (kvr_values kv) (ga_Key a)) as [[v ver] e] eqn:Hg.
    injection H as <- <-. exists []. rewrite app_nil_r. split_and!; [done|constructor|].
    exists (length execs), (kvr_values kv), v, ver, e. by rewrite firstn_all.
  - simpl in H. apply bind_Some in H as ([[t values] r] & Hd & H). injection H as <- <-.
    assert (Table_Do (kvr_requests kv) a (spec_apply a) (kvr_values kv) = Some (t, values, r)) as Hd'.
    { rewrite <- Hd. unfold Table_Do, spec_apply. by rewrite putLocked_spec. }
    clear Hd. apply (Table_Do_exec spec_apply _ _ _ _ _ _ execs) in Hd' as
      [(HT' & -> & _ & Hans)|(HT' & Ha & _)]; [| |done].
    + exists []. rewrite app_nil_r. split_and!; [done|constructor; constructor|done].
    + exists [(a, r)]. split_and!; [split; [by eapply exec_run_snoc|done]|done|].
      right. exists a. split; [apply elem_of_app; right; left|done].
Qed.

Lemma kv_replay_exec m log : forall execs kv kv' reps,
  executed_to m execs kv -> kv_replay log kv = Some (kv', reps) ->
  exists more, executed_to m (execs ++ more) kv' /\ more.*1 `sublist_of` puts log /\
    Forall2 (reply_ok m (execs ++ more)) log reps /\
    forall k kvk repsk, kv_replay (take k log) kv = Some (kvk, repsk) ->
      exists j, executed_to m (execs ++ take j more) kvk.
Proof.
  induction log as [|req log IH]; intros execs kv kv' reps HE H; simpl in H.
  { injection H as <- <-. exists []. rewrite app_nil_r. split_and!; [done|constructor|constructor|].
    intros k kvk repsk. rewrite take_nil. intros [= <- _]. exists 0. by rewrite app_nil_r. }
  apply bind_Some in H as ([kv1 rep] & H1 & H). apply bind_Some in H as ([kv2 reps1] & H2 & H). injection H as <- <-.
  destruct (kv_DoOp_exec _ _ _ _ _ _ HE H1) as (more1 & HE1 & Hs1 & Hr1).
  destruct (IH _ _ _ _ HE1 H2) as (more2 & HE2 & Hs2 & Hr2 & Hp2). exists (more1 ++ more2).
  rewrite app_assoc. split_and!; [done| |constructor; [by apply reply_ok_app|done]|].
  - change (req :: log) with ([req] ++ log). rewrite puts_app, fmap_app. by apply sublist_app.
  - intros [|k] kvk repsk Hk; simpl in Hk; [injection Hk as <- _; exists 0; by rewrite app_nil_r|].
    rewrite H1 in Hk. simpl in Hk. apply bind_Some in Hk as ([kv3 reps3] & H3 & Hk). injection Hk as <- _.
    destruct (Hp2 _ _ _ H3) as [j Hj]. exists (length more1 + j).
    rewrite take_app_add', app_assoc by done. done.
Qed.

(** Exactly-once execution of the log: replaying any log of gets and puts on a
    fresh store executes, in log order, a subsequence of its puts in which no
    identified put occurs twice; the final values are those of the executed puts
    run against the contract [spec_put]; every answered put got the reply of the
    execution of its own identity or was refused as stale; and every get read the
    values after some prefix of the executions. *)
Theorem kvraft_exactly_once log m kv' reps :
  kv_replay log (mkKVRaft m Table_zero) = Some (kv', reps) ->
  exists execs, exec_run spec_apply execs m (kvr_values kv') /\
    execs.*1 `sublist_of` puts log /\
    NoDup (put_id <$> filter (fun a => pa_ClientID a <> 0%N) execs.*1) /\
    Forall2 (reply_ok m execs) log reps.
Proof.
  intros H. apply (kv_replay_exec m log []) in H as (execs & [? [_ _ _ ?]] & ? & ? & _); [eauto|apply executed_to_init].
Qed.

End KvRaft.
