(* ===== verification/RsmSrv.v ===== *)
(** * The counter service ([kvraft1/rsm/server.go]) and concrete replicas

    [rsmSrv] is the test service of the replicated state machine layer: a counter.
    It implements [StateMachine]; a replay of a log counts its increments.  The
    rest of the file runs the layer and the key/value service on concrete inputs,
    with the codecs of [BitCodec]. *)

From S2P Require Import Prelude.
From S2P Require Import Rpc.
From S2P Require Import KvSpec.
From S2P Require Import Dedup.
From S2P Require Import Persister.
From S2P Require Import BitCodec.
From S2P Require Import Raft.
From S2P Require Import RaftSim.
From S2P Require Import RaftApply.
From S2P Require Import Rsm.
From S2P Require Import KvRaft.

(** ** The counter *)

(** gob's encoding of an [int]. *)
Class GobInt := { gob_int : Z -> bytes; ungob_single : bytes -> option Z }.

Class GobIntLaws {GI : GobInt} : Prop := {
  ungob_gob_int v : int64_range v -> ungob_single (gob_int v) = Some v;
  gob_int_nonempty v : gob_int v <> [];
}.

(** The requests [DoOp] can be given, [Dec] standing for every unexpected one. *)
Inductive srv_req : Type := Inc | Null | Dec.
Inductive srv_rep : Type := IncRep (n : Z) | NullRep.

#[global] Instance srv_req_eq_dec : EqDecision srv_req.
Proof. solve_decision. Defined.

Section RsmSrv.
Context {GI : GobInt}.

(** A Go [int], which wraps around. *)
Record rsmSrv : Type := mkRsmSrv { counter : Z }.

Definition newRSMSrv : rsmSrv := mkRsmSrv 0.

Definition GetCounter (rs : rsmSrv) : Z := counter rs.

(** [log.Fatalf] ends the process. *)
Definition rsmSrv_DoOp (req : srv_req) (rs : rsmSrv) : option (rsmSrv * srv_rep) :=
match req with
| Inc =>
    let c := of_u64 (to_u64 (counter rs + 1)) in
    Some (mkRsmSrv c, IncRep c)
| Null => Some (rs, NullRep)
| Dec => None
end.

Definition rsmSrv_Snapshot (rs : rsmSrv) : option bytes := Some (gob_int (counter rs)).

Definition rsmSrv_Restore (data : bytes) (rs : rsmSrv) : option rsmSrv :=
c ← ungob_single data; Some (mkRsmSrv c).

#[global] Instance rsmSrv_machine : StateMachine rsmSrv srv_req srv_rep := {|
  sm_DoOp := rsmSrv_DoOp; sm_Snapshot := rsmSrv_Snapshot; sm_Restore := rsmSrv_Restore |}.

Definition incs (log : list (Op srv_req)) : nat :=
length (filter (fun op => op_Req op = Inc) log).

Lemma of_u64_mod v : (of_u64 (to_u64 v) mod 2 ^ 64 = v mod 2 ^ 64)%Z.
Proof.
  unfold of_u64, to_u64. set (u := (v mod 2 ^ 64)%Z).
  assert (0 <= u < 2 ^ 64)%Z as Hu by (apply Z.mod_pos_bound; lia). rewrite Z2N.id by lia.
  destruct (_ <? _)%Z; [by rewrite Z.mod_small|].
  rewrite <- (Z_mod_plus_full (u - 2 ^ 64) 1). replace (u - 2 ^ 64 + 1 * 2 ^ 64)%Z with u by lia.
  by rewrite Z.mod_small.
Qed.

Lemma to_u64_add v w : to_u64 (of_u64 (to_u64 v) + w) = to_u64 (v + w).
Proof.
  unfold to_u64 at 1 3. f_equal. by rewrite <- Zplus_mod_idemp_l, of_u64_mod, Zplus_mod_idemp_l.
Qed.

Lemma of_u64_range v : int64_range (of_u64 (to_u64 v)).
Proof.
  pose proof (to_u64_bound v) as H. unfold int64_range, of_u64, two64 in *.
  destruct (Z.ltb_spec (Z.of_N (to_u64 v)) (2 ^ 63)); lia.
Qed.

Lemma replay_counter log : forall c, int64_range c ->
  replay log (mkRsmSrv c) =
  if decide (Forall (fun op => op_Req op <> Dec) log)
  then Some (mkRsmSrv (of_u64 (to_u64 (c + Z.of_nat (incs log))))) else None.
Proof.
  induction log as [|op log IH]; intros c Hc.
  - rewrite decide_True by constructor. simpl. by rewrite Z.add_0_r, of_to_u64.
  - simpl. destruct (op_Req op) eqn:Ho; simpl.
    + rewrite IH by apply of_u64_range.
      destruct (decide (Forall _ log)).
      * rewrite decide_True by (constructor; congruence). unfold incs.
        rewrite filter_cons_True by done. simpl. do 2 f_equal.
        rewrite Nat2Z.inj_succ, to_u64_add. do 2 f_equal. lia.
      * rewrite decide_False; [done|]. by intros [_ ?]%Forall_cons.
    + rewrite IH by done. destruct (decide (Forall _ log)).
      * rewrite decide_True by (constructor; congruence). unfold incs.
        by rewrite filter_cons_False by congruence.
      * rewrite decide_False; [done|]. by intros [_ ?]%Forall_cons.
    + rewrite decide_False; [done|]. by intros [? _]%Forall_cons.
Qed.

(** The counter counts: replaying a log on a fresh counter ends the process
    exactly when the log has an operation other than [Inc] and [Null], and
    otherwise leaves the number of its [Inc]s, as a 64-bit integer; a [Submit] of
    [Inc] applied after it answers the next number; and restoring the snapshot of
    any counter an execution can reach gives that counter back. *)
Theorem counter_counts (L : GobIntLaws) (log : list (Op srv_req)) rs :
  (replay log newRSMSrv = Some rs <->
     Forall (fun op => op_Req op <> Dec) log /\ counter rs = of_u64 (to_u64 (Z.of_nat (incs log)))) /\
  (replay log newRSMSrv = Some rs ->
     (exists rs', rsmSrv_DoOp Inc rs = Some (rs', IncRep (of_u64 (to_u64 (Z.of_nat (incs log) + 1))))) /\
     forall b rs0, rsmSrv_Snapshot rs = Some b -> b <> [] /\ rsmSrv_Restore b rs0 = Some rs).
Proof.
  unfold newRSMSrv. rewrite replay_counter by (unfold int64_range; lia). rewrite Z.add_0_l.
  destruct (decide _) as [Hf|Hf]; split.
  - split; [by intros [= <-]|]. intros [_ Hc]. destruct rs as [c]. simpl in Hc. by subst.
  - intros [= <-]. split.
    + unfold rsmSrv_DoOp. simpl. rewrite to_u64_add. eauto.
    + intros b rs0 [= <-]. simpl. split; [apply gob_int_nonempty|].
      unfold rsmSrv_Restore. simpl. by rewrite ungob_gob_int by apply of_u64_range.
  - by split; [|intros [? _]].
  - done.
Qed.

End RsmSrv.

(** ** Concrete codecs *)

#[global] Instance BitInt : GobInt := {|
  gob_int := bits_encode;
  ungob_single := fun b => '(v, _) ← bits_decode b; Some v |}.

#[global] Instance BitInt_laws : GobIntLaws.
Proof.
  constructor; simpl.
  - intros v _. rewrite <- (app_nil_r (bits_encode v)), bits_decode_encode. done.
  - apply bits_encode_nonempty.
Qed.

#[global] Instance BitKv : GobKv := {|
  gob_values := fun m => Some (bits_encode m);
  gob_table := fun t => Some (bits_encode t);
  ungob_values := fun b => '(m, rest) ← bits_decode b; Some (Some m, rest);
  ungob_table := fun b => '(t, _) ← bits_decode b; Some t |}.

#[global] Instance BitKv_laws : GobKvLaws.
Proof.
  constructor; simpl.
  - intros m b rest [= <-]. by rewrite bits_decode_encode.
  - intros t b [= <-]. rewrite <- (app_nil_r (bits_encode t)), bits_decode_encode. done.
  - intros m b [= <-]. apply bits_encode_nonempty.
  - intros t b [= <-]. apply bits_encode_nonempty.
Qed.

#[global] Instance rsmSrv_laws : StateMachineLaws rsmSrv srv_req srv_rep.
Proof.
  constructor; simpl.
  - intros s b [= <-]. apply bits_encode_nonempty.
  - intros [c] b s0 [= <-]. unfold rsmSrv_Restore. simpl.
    rewrite <- (app_nil_r (bits_encode c)), bits_decode_encode. done.
Qed.

Lemma counter_counts_witness : exists (rs : rsmSrv) (log : list (Op srv_req)),
  replay log newRSMSrv = Some rs /\ counter rs = 1%Z.
Proof.
  exists (mkRsmSrv 1), [mkOp 0 7 1 Inc; mkOp 0 7 2 Null]. split; [|reflexivity].
  apply (counter_counts BitInt_laws). split; [|reflexivity].
  repeat constructor; discriminate.
Defined.

(** ** A replica of the counter

    Commands 1 to 3 of the log; the replica applies the first, installs a snapshot
    of the second and applies the third. *)

Definition ex_op (n : nat) : Op srv_req :=
  mkOp 0 7 (N.of_nat n) (if decide (n = 2) then Null else Inc).

Definition ex_as_op (c : option nat) : option (Op srv_req) := ex_op <$> c.

Definition ex_command (n : nat) : ApplyMsg :=
  mkApplyMsg true (Some n : option (@Cmd BitLog)) (Z.of_nat n) false [] 0 0.

Definition ex_snapshot : ApplyMsg :=
  mkApplyMsg false (None : option (@Cmd BitLog)) 0 true (gob_int 1) 1 2.

Definition ex_log : list (Op srv_req) := [ex_op 1; ex_op 2; ex_op 3].
Definition ex_msgs : list (Z * ApplyMsg) := [(0%Z, ex_command 1); (0%Z, ex_snapshot); (0%Z, ex_command 3)].
Definition ex_replica : @RSM rsmSrv srv_rep := mkRSM 0 (-1) newRSMSrv 9 0 ∅ ∅ false false.
Definition ex_replica' : @RSM rsmSrv srv_rep := mkRSM 0 (-1) (mkRsmSrv 2) 9 0 ∅ ∅ false false.

Lemma replica_replay_witness : state_at newRSMSrv ex_log 3 (rs_sm ex_replica').
Proof.
  refine (proj1 (replica_replay ex_as_op rsmSrv_laws newRSMSrv ex_log 0 (-1) 9 MakePersister 0 3 ex_msgs
    ex_replica ex_replica' [] _ _ _ _ _ _)).
  - left. split; reflexivity.
  - reflexivity.
  - simpl. repeat split; lia.
  - repeat constructor; intros ?; simpl in *; congruence.
  - repeat constructor; unfold agrees; simpl; intros; eauto.
    exists (mkRsmSrv 1). split; [split; [lia|reflexivity]|reflexivity].
  - reflexivity.
Defined.

(** ** A call that is answered

    The first [Inc] is submitted, accepted by Raft, applied, and returns. *)

Definition ex_world (r : @RSM rsmSrv srv_rep) (p : gmap nat (Op srv_req * option Z))
    (s : list (Op srv_req)) (a : list (Op srv_req * srv_rep)) (res : list (Op srv_req * (Err * option srv_rep))) :=
mkRworld r p s a res.

Definition ex_srv (n : nat) (w : gmap opID nat) (c : gmap nat (option srv_rep)) : @RSM rsmSrv srv_rep :=
mkRSM 0 (-1) (mkRsmSrv (Z.of_nat n)) 7 1 w c false false.

Definition ex_w0 := ex_world (mkRSM 0 (-1) newRSMSrv 7 0 ∅ ∅ false false) ∅ [] [] [].
Definition ex_id : opID := (0%Z, 7%N, 1%N).
Definition ex_w1 := ex_world (ex_srv 0 {[ex_id := 0]} {[0 := None]}) {[0 := (ex_op 1, None)]} [] [] [].
Definition ex_w2 := ex_world (ex_srv 0 {[ex_id := 0]} {[0 := None]}) {[0 := (ex_op 1, None)]} [ex_op 1] [] [].
Definition ex_w3 := ex_world (ex_srv 0 {[ex_id := 0]} {[0 := None]}) {[0 := (ex_op 1, Some 1%Z)]} [ex_op 1] [] [].
Definition ex_w4 := ex_world (ex_srv 1 {[ex_id := 0]} {[0 := Some (IncRep 1)]}) {[0 := (ex_op 1, Some 1%Z)]}
  [ex_op 1] [(ex_op 1, IncRep 1)] [].
Definition ex_w5 := ex_world (ex_srv 1 ∅ {[0 := None]}) ∅ [ex_op 1] [(ex_op 1, IncRep 1)]
  [(ex_op 1, (OK, Some (IncRep 1)))].

Lemma submit_run : rtc (rsm_step ex_as_op) ex_w0 ex_w5.
Proof.
  apply (rtc_l _ _ ex_w1).
  { refine (R_submit _ ex_w0 Inc (ex_srv 0 {[ex_id := 0]} {[0 := None]}) (ex_op 1) 0 _ _); reflexivity. }
  apply (rtc_l _ _ ex_w2); [exact (R_accept _ ex_w1 (ex_op 1) 0 eq_refl)|].
  apply (rtc_l _ _ ex_w3); [exact (R_started _ ex_w2 (ex_op 1) 0 1 eq_refl)|].
  apply (rtc_l _ _ ex_w4).
  { refine (R_apply _ ex_w3 0 (ex_command 1) (rw_rsm ex_w4) None _ _); [|reflexivity].
    intros op reply [Hin|[]]%list_elem_of_In _. injection Hin as <- _. left. }
  apply (rtc_l _ _ ex_w5); [|constructor].
  exact (R_return _ ex_w4 (ex_op 1) 0 1 WaitResult (ex_srv 1 {[ex_id := 0]} {[0 := None]})
    (OK, Some (IncRep 1)) eq_refl eq_refl).
Qed.

Lemma submit_answers_witness :
  (exists r, OK = OK /\ Some (IncRep 1) = Some r /\ (ex_op 1, r) ∈ rw_applied ex_w5) \/
  (OK = ErrWrongLeader /\ Some (IncRep 1) = None).
Proof.
  refine (proj1 (submit_answers ex_as_op ex_w0 ex_w5 _ submit_run) (ex_op 1) OK (Some (IncRep 1)) _).
  - repeat split.
  - left.
Defined.

(** ** A key/value store *)

Definition ex_put1 : PutArgs := mkPutArgs "k" "v" 0 5 1 0.
Definition ex_log_kv : list kv_req := [KPut ex_put1; KPut ex_put1; KGet (mkGetArgs "k")].

Definition ex_store : KVRaft :=
mkKVRaft {["k" := mkEntry "v" 1]} (mkTable (Some {[5%N := mkSession 0 (Some {[1%N := mkPutReply OK]})]})).

Definition ex_replies : list kv_rep :=
[KPutReply (mkPutReply OK); KPutReply (mkPutReply OK); KGetReply (mkGetReply "v" 1 OK)].

Lemma kvraft_exactly_once_witness : exists execs : list (PutArgs * PutReply),
  execs.*1 `sublist_of` puts ex_log_kv /\
  NoDup (put_id <$> filter (fun a => pa_ClientID a <> 0%N) execs.*1).
Proof.
  destruct (kvraft_exactly_once ex_log_kv ∅ ex_store ex_replies) as (execs & ? & ? & ? & ?); [reflexivity|].
  exists execs. split; assumption.
Defined.

Lemma kvraft_snapshot_roundtrip_witness : exists b : bytes,
  kvraft_Snapshot ex_store = Some b /\ kvraft_Restore b StartKVServer = Some ex_store.
Proof.
  exists (bits_encode (kvr_values ex_store) ++ bits_encode (kvr_requests ex_store)). split; [reflexivity|].
  refine (proj1 (proj2 (kvraft_snapshot_roundtrip BitKv_laws ex_store StartKVServer _ ∅ (bits_encode (∅ : kvmap)) _ _)));
    reflexivity.
Defined.
