(* ===== verification/ShardCfg.v ===== *)
(** * Shard configurations ([shardkv1/shardcfg/shardcfg.go])

    A configuration assigns the twelve shards to groups of servers.  The theorems
    say that [Rebalance] terminates with every shard assigned to a group and no
    group two shards ahead of another, and that what [JoinBalance] and
    [LeaveBalance] return passes [CheckConfig]. *)

From S2P Require Import Prelude.
From S2P Require Import GoLib.
From Stdlib Require Import Ascii.

Definition NShards : nat := 12.

(** ** Keys *)
Definition Key2Shard (key : string) : Z := (fnv32a (String.list_ascii_of_string key) mod Z.of_nat NShards)%Z.

Lemma Key2Shard_range key : (0 <= Key2Shard key < Z.of_nat NShards)%Z.
Proof. unfold Key2Shard. apply Z.mod_pos_bound. done. Qed.

(** ** Configurations *)

(** [tester.Tgid] is an [int]. *)
Abbreviation Tgid := Z.
Abbreviation Groups_t := (gmap Tgid (list string)).

(** [Shards] is an array of [NShards] elements; [Groups] may be nil. *)
Record ShardConfig : Type := mkShardConfig {
  sc_Num : Z;
  sc_Shards : list Tgid;
  sc_Groups : gomap Tgid (list string);
}.

Definition MakeShardConfig : ShardConfig := mkShardConfig 0 (replicate NShards 0%Z) (Some ∅).

(** What a range over the map sees, and [len]. *)
Definition groups_of (c : ShardConfig) : Groups_t := default ∅ (sc_Groups c).

Definition set_shards (l : list Tgid) (c : ShardConfig) : ShardConfig := mkShardConfig (sc_Num c) l (sc_Groups c).

(** The new map holds a copy of every slice; the lists are values already. *)
Definition Copy (cfg : ShardConfig) : ShardConfig :=
  mkShardConfig (sc_Num cfg) (sc_Shards cfg) (Some (groups_of cfg)).

(** [counts[g]] after counting the array. *)
Fixpoint count (g : Tgid) (shards : list Tgid) : nat :=
  match shards with
  | [] => 0
  | x :: l => (if decide (x = g) then 1 else 0) + count g l
  end.

Definition zcount (g : Tgid) (shards : list Tgid) : Z := Z.of_nat (count g shards).

(** The keys of the map, sorted. *)
Definition sorted_gids (c : ShardConfig) : list Tgid := merge_sort Z.le (elements (dom (groups_of c))).

(** The scan over the sorted groups: (mg, mn, lg, ln). *)
Definition analyze_step (shards : list Tgid) (acc : Tgid * Z * Tgid * Z) (g : Tgid) : Tgid * Z * Tgid * Z :=
  let '(mg, mn, lg, ln) := acc in
  let n := zcount g shards in
  let '(lg', ln') := if (n <? ln)%Z then (g, n) else (lg, ln) in
  let '(mg', mn') := if (mn <? n)%Z then (g, n) else (mg, mn) in
  (mg', mn', lg', ln').

Definition analyze (c : ShardConfig) : Tgid * Z * Tgid * Z :=
  foldl (analyze_step (sc_Shards c)) (-1, -1, -1, 257)%Z (sorted_gids c).

Definition least (c : ShardConfig) : Tgid := let '(_, _, lg, _) := analyze c in lg.

(** ** Rebalance *)

(** One round of the loop that assigns unassigned shards; [g] is read from the
    copy of the array the range statement makes. *)
Definition assign_step (c : ShardConfig) (sg : nat * Tgid) : ShardConfig :=
  let '(s, g) := sg in
  match groups_of c !! g with
  | Some _ => c
  | None => set_shards (<[s := least c]> (sc_Shards c)) c
  end.

Definition assign_all (c : ShardConfig) : ShardConfig :=
  foldl assign_step c (zip (seq 0 (length (sc_Shards c))) (sc_Shards c)).

(** Move the first shard of [mg] to [lg]. *)
Fixpoint move_one (mg lg : Tgid) (shards : list Tgid) : list Tgid :=
  match shards with
  | [] => []
  | g :: l => if decide (g = mg) then lg :: l else g :: move_one mg lg l
  end.

(** The loop, cut off after [fuel] rounds. *)
Fixpoint rebalance_loop (fuel : nat) (c : ShardConfig) : option ShardConfig :=
  match fuel with
  | O => None
  | S fuel' =>
      let '(mg, mn, lg, ln) := analyze c in
      if (mn <? ln + 2)%Z then Some c
      else rebalance_loop fuel' (set_shards (move_one mg lg (sc_Shards c)) c)
  end.

(** Every round lowers the sum of the squared loads, at most [NShards] squared. *)
Definition rebalance_fuel : nat := S (NShards * NShards).

Definition Rebalance (c : ShardConfig) : option ShardConfig :=
  if decide (size (groups_of c) < 1)
  then Some (set_shards (replicate NShards 0%Z) c)
  else rebalance_loop rebalance_fuel (assign_all c).

(** ** Join and Leave *)

Definition shares_server (l1 l2 : list string) : bool := existsb (fun s => bool_decide (s ∈ l2)) l1.

(** [servers] is the map in the order the range visits it: [None] is [log.Fatalf]
    or the write into a nil map. *)
Fixpoint join_loop (servers : list (Tgid * list string)) (changed : bool) (cfg : ShardConfig)
    : option (ShardConfig * option bool) :=
  match servers with
  | [] => Some (cfg, Some changed)
  | (gid, srvs) :: rest =>
      match groups_of cfg !! gid with
      | Some _ => Some (cfg, None)  (* re-Join: return false *)
      | None =>
          if existsb (fun '(_, xs) => shares_server xs srvs) (map_to_list (groups_of cfg)) then None
          else g ← map_set (sc_Groups cfg) gid srvs;
               join_loop rest true (mkShardConfig (sc_Num cfg) (sc_Shards cfg) g)
      end
  end.

Definition bump (cfg : ShardConfig) : ShardConfig := mkShardConfig (sc_Num cfg + 1) (sc_Shards cfg) (sc_Groups cfg).

Definition Join (servers : list (Tgid * list string)) (cfg : ShardConfig) : option (ShardConfig * bool) :=
  '(cfg', r) ← join_loop servers false cfg;
  match r with
  | None => Some (cfg', false)
  | Some false => None
  | Some true => Some (bump cfg', true)
  end.

Fixpoint leave_loop (gids : list Tgid) (changed : bool) (cfg : ShardConfig) : ShardConfig * option bool :=
  match gids with
  | [] => (cfg, Some changed)
  | gid :: rest =>
      match groups_of cfg !! gid with
      | None => (cfg, None)
      | Some _ => leave_loop rest true (mkShardConfig (sc_Num cfg) (sc_Shards cfg) (map_del (sc_Groups cfg) gid))
      end
  end.

Definition Leave (gids : list Tgid) (cfg : ShardConfig) : option (ShardConfig * bool) :=
  match leave_loop gids false cfg with
  | (cfg', None) => Some (cfg', false)
  | (_, Some false) => None
  | (cfg', Some true) => Some (bump cfg', true)
  end.

Definition JoinBalance (servers : list (Tgid * list string)) (cfg : ShardConfig) : option (ShardConfig * bool) :=
  '(cfg', ok) ← Join servers cfg;
  if negb ok then Some (cfg', false)
  else cfg'' ← Rebalance cfg'; Some (cfg'', true).

Definition LeaveBalance (gids : list Tgid) (cfg : ShardConfig) : option (ShardConfig * bool) :=
  '(cfg', ok) ← Leave gids cfg;
  if negb ok then Some (cfg', false)
  else cfg'' ← Rebalance cfg'; Some (cfg'', true).

(** ** Queries *)

Definition GidServers (sh : Z) (cfg : ShardConfig) : option (Tgid * list string * bool) :=
  gid ← zlookup (sc_Shards cfg) sh;
  Some (gid, default [] (groups_of cfg !! gid), bool_decide (is_Some (groups_of cfg !! gid))).

Definition IsMember (gid : Tgid) (cfg : ShardConfig) : bool := existsb (fun g => bool_decide (g = gid)) (sc_Shards cfg).

(** [true] when no check of the test helper fails. *)
Definition CheckConfig (cfg : ShardConfig) (groups : list Tgid) : bool :=
  let counts := (fun g => zcount g (sc_Shards cfg)) <$> elements (dom (groups_of cfg)) in
  bool_decide (size (groups_of cfg) = length groups) &&
  forallb (fun g => bool_decide (is_Some (groups_of cfg !! g))) groups &&
  ((length groups =? 0) ||
   forallb (fun g => bool_decide (is_Some (groups_of cfg !! g))) (sc_Shards cfg)) &&
  (foldr Z.max 0 counts <=? foldr Z.min 257 counts + 1)%Z.

(** ** Counting *)

Lemma count_app g l1 l2 : count g (l1 ++ l2) = count g l1 + count g l2.
Proof. induction l1 as [|x l1 IH]; simpl; [done|]. rewrite IH. lia. Qed.

Lemma count_perm g l1 l2 : l1 ≡ₚ l2 -> count g l1 = count g l2.
Proof. induction 1; simpl; lia. Qed.

Lemma count_le_length g l : count g l <= length l.
Proof. induction l as [|x l IH]; simpl; [lia|]. case_decide; lia. Qed.

Lemma count_positive g l : 0 < count g l -> g ∈ l.
Proof.
  induction l as [|x l IH]; simpl; [lia|]. case_decide as Hx; [intros _; subst; left|].
  intros H. right. apply IH. lia.
Qed.

(** The sum of the squared loads, written shard by shard. *)
Definition energy (shards : list Tgid) : nat := sum_list ((fun g => count g shards) <$> shards).

Lemma sum_count_cons x (l1 l2 : list Tgid) :
  sum_list ((fun g => count g (x :: l2)) <$> l1) = count x l1 + sum_list ((fun g => count g l2) <$> l1).
Proof.
  induction l1 as [|y l1 IH]; [done|]. csimpl in *. rewrite IH.
  destruct (decide (x = y)), (decide (y = x)); subst; try done; lia.
Qed.

Lemma energy_cons x l : energy (x :: l) = S (2 * count x l) + energy l.
Proof.
  transitivity (count x (x :: l) + sum_list ((fun g => count g (x :: l)) <$> l)); [done|].
  rewrite sum_count_cons. unfold energy. simpl. rewrite decide_True by done. lia.
Qed.

Lemma energy_perm l1 l2 : l1 ≡ₚ l2 -> energy l1 = energy l2.
Proof.
  induction 1 as [|x l1 l2 Hp IH|x y l|]; [done|..|congruence].
  - rewrite !energy_cons, IH. f_equal. by rewrite (count_perm x _ _ Hp).
  - rewrite !energy_cons. simpl. destruct (decide (x = y)), (decide (y = x)); subst; try done; lia.
Qed.

Lemma energy_bound l : energy l <= length l * length l.
Proof.
  induction l as [|x l IH]; [done|]. rewrite energy_cons. simpl. pose proof (count_le_length x l). nia.
Qed.

Lemma move_one_split mg lg l : mg ∈ l -> exists l1 l2, l = l1 ++ mg :: l2 /\ move_one mg lg l = l1 ++ lg :: l2.
Proof.
  induction l as [|x l IH]; [by intros ?%not_elem_of_nil|]. intros Hin. simpl. case_decide as Hx.
  - subst. by exists [], l.
  - apply elem_of_cons in Hin as [->|Hin]; [done|]. destruct (IH Hin) as (l1 & l2 & -> & ->).
    by exists (x :: l1), l2.
Qed.

(** Moving a shard from a group at least two ahead lowers the energy. *)
Lemma move_one_energy mg lg l :
  mg <> lg -> count lg l + 2 <= count mg l -> energy (move_one mg lg l) < energy l.
Proof.
  intros Hne Hc. destruct (move_one_split mg lg l) as (l1 & l2 & -> & ->); [apply count_positive; lia|].
  assert (forall x, l1 ++ x :: l2 ≡ₚ x :: (l1 ++ l2)) as Hp by (intros; by rewrite Permutation_middle).
  rewrite !(energy_perm _ _ (Hp _)), !energy_cons. rewrite !(count_perm _ _ _ (Hp mg)) in Hc. simpl in Hc.
  rewrite decide_False, decide_True in Hc by done. lia.
Qed.

(** ** The scan *)

Lemma elem_of_sorted_gids g c : g ∈ sorted_gids c <-> is_Some (groups_of c !! g).
Proof. unfold sorted_gids. by rewrite merge_sort_Permutation, elem_of_elements, elem_of_dom. Qed.

(** [mg] and [lg] are a most and a least loaded group of [seen]. *)
Definition extremes (shards : list Tgid) (seen : list Tgid) (acc : Tgid * Z * Tgid * Z) : Prop :=
  let '(mg, mn, lg, ln) := acc in
  mg ∈ seen /\ mn = zcount mg shards /\ lg ∈ seen /\ ln = zcount lg shards /\
  Forall (fun g => ln <= zcount g shards <= mn)%Z seen.

Lemma analyze_step_extremes shards seen acc g :
  extremes shards seen acc -> extremes shards (g :: seen) (analyze_step shards acc g).
Proof.
  destruct acc as [[[mg mn] lg] ln]. intros (Hm & -> & Hl & -> & Hall). unfold analyze_step, extremes.
  assert (Forall (fun g0 => zcount lg shards <= zcount g0 shards <= zcount mg shards)%Z seen) as Hall2 by done.
  rewrite Forall_forall in Hall.
  destruct (Z.ltb_spec (zcount g shards) (zcount lg shards)), (Z.ltb_spec (zcount mg shards) (zcount g shards));
    split_and!; auto using list_elem_of_here, list_elem_of_further;
    (constructor; [lia|]; eapply Forall_impl; [exact Hall2|]; simpl; lia).
Qed.

Lemma analyze_fold_extremes shards l : forall seen acc,
  extremes shards seen acc -> extremes shards (rev l ++ seen) (foldl (analyze_step shards) acc l).
Proof.
  induction l as [|g l IH]; intros seen acc H; simpl; [done|].
  rewrite <- app_assoc. simpl. apply IH. by apply analyze_step_extremes.
Qed.

Lemma analyze_spec c mg mn lg ln :
  length (sc_Shards c) = NShards -> size (groups_of c) <> 0 -> analyze c = (mg, mn, lg, ln) ->
  is_Some (groups_of c !! mg) /\ mn = zcount mg (sc_Shards c) /\
  is_Some (groups_of c !! lg) /\ ln = zcount lg (sc_Shards c) /\
  forall g, is_Some (groups_of c !! g) -> (ln <= zcount g (sc_Shards c) <= mn)%Z.
Proof.
  intros Hlen Hne H. unfold analyze in H.
  assert (extremes (sc_Shards c) (rev (sorted_gids c) ++ []) (mg, mn, lg, ln)) as Hx.
  { rewrite <- H. destruct (sorted_gids c) as [|g l] eqn:Hs.
    - exfalso. apply Hne, map_size_empty_iff, map_empty. intros i. apply eq_None_not_Some.
      rewrite <- elem_of_sorted_gids, Hs. apply not_elem_of_nil.
    - simpl. rewrite app_nil_r. apply analyze_fold_extremes. unfold zcount.
      pose proof (count_le_length g (sc_Shards c)) as Hb. rewrite Hlen in Hb. unfold NShards in Hb.
      destruct (Z.ltb_spec (Z.of_nat (count g (sc_Shards c))) 257); [|lia].
      destruct (Z.ltb_spec (-1) (Z.of_nat (count g (sc_Shards c)))); [|lia].
      split_and!; auto using list_elem_of_here. constructor; [unfold zcount; lia|constructor]. }
  rewrite app_nil_r in Hx. destruct Hx as (Hm & Hmn & Hl & Hln & Hall). rewrite Forall_forall in Hall.
  assert (forall g, g ∈ rev (sorted_gids c) <-> is_Some (groups_of c !! g)) as Hel.
  { intros g. rewrite <- elem_of_sorted_gids.
    rewrite !list_elem_of_In. symmetry. apply in_rev. }
  split_and!; auto; [by apply Hel|by apply Hel|]. intros g Hg. by apply Hall, Hel.
Qed.

(** ** Rebalance *)

Definition assigned (c : ShardConfig) : Prop := Forall (fun g => is_Some (groups_of c !! g)) (sc_Shards c).

(** No group has two shards more than another. *)
Definition balanced (c : ShardConfig) : Prop :=
  forall g1 g2, is_Some (groups_of c !! g1) -> is_Some (groups_of c !! g2) ->
    count g1 (sc_Shards c) <= count g2 (sc_Shards c) + 1.

Lemma least_group c :
  length (sc_Shards c) = NShards -> size (groups_of c) <> 0 -> is_Some (groups_of c !! least c).
Proof.
  intros Hl Hn. unfold least. destruct (analyze c) as [[[mg mn] lg] ln] eqn:E.
  by apply analyze_spec in E as (_ & _ & ? & _).
Qed.

Lemma assign_fold l : forall k c,
  length (sc_Shards c) = NShards -> size (groups_of c) <> 0 ->
  k + length l = NShards -> Forall (fun g => is_Some (groups_of c !! g)) (take k (sc_Shards c)) ->
  drop k (sc_Shards c) = l ->
  exists sh, foldl assign_step c (zip (seq k (length l)) l) = set_shards sh c /\ length sh = NShards /\
    Forall (fun g => is_Some (groups_of c !! g)) sh.
Proof.
  induction l as [|g l IH]; intros k c Hl Hn Hk Hpre Hd; simpl in *.
  - exists (sc_Shards c). split_and!; [by destruct c|done|]. rewrite firstn_all2 in Hpre by lia. done.
  - assert (sc_Shards c !! k = Some g) as Hg.
    { rewrite <- (Nat.add_0_r k), <- lookup_drop, Hd. done. }
    assert (drop (S k) (sc_Shards c) = l) as Hd'.
    { rewrite (drop_S _ _ _ Hg) in Hd. by injection Hd. }
    assert (k < length (sc_Shards c)) as Hkl by lia.
    destruct (groups_of c !! g) as [srvs|] eqn:E.
    + apply IH; auto; [lia|]. rewrite (take_S_r _ _ _ Hg). apply Forall_app. split; [done|].
      constructor; [by rewrite E|constructor].
    + edestruct (IH (S k) (set_shards (<[k:=least c]> (sc_Shards c)) c)) as (sh & He & ? & ?);
        [simpl; by rewrite length_insert|done|lia| |simpl; by rewrite drop_insert_lt by lia|].
      * simpl. rewrite (take_S_r _ _ (least c)) by (by apply list_lookup_insert_eq).
        rewrite take_insert_ge by lia. apply Forall_app. split; [done|].
        constructor; [|constructor]. change (is_Some (groups_of c !! least c)). by apply least_group.
      * exists sh. by split_and!.
Qed.

Lemma assign_all_spec c :
  length (sc_Shards c) = NShards -> size (groups_of c) <> 0 ->
  exists sh, assign_all c = set_shards sh c /\ length sh = NShards /\ assigned (set_shards sh c).
Proof.
  intros Hl Hn. unfold assign_all. destruct (assign_fold (sc_Shards c) 0 c) as (sh & ? & ? & ?); auto.
  exists sh. by split_and!.
Qed.

(** Assigned shards stay where they are. *)
Lemma assign_all_id c : assigned c -> assign_all c = c.
Proof.
  unfold assign_all, assigned. generalize (seq 0 (length (sc_Shards c))).
  intros s H. revert s. induction H as [|g l [srvs Hg] _ IH]; intros [|k s]; simpl; [done..|].
  rewrite Hg. apply IH.
Qed.

Lemma balanced_stop c mg mn lg ln :
  length (sc_Shards c) = NShards -> size (groups_of c) <> 0 -> analyze c = (mg, mn, lg, ln) ->
  (mn < ln + 2)%Z <-> balanced c.
Proof.
  intros Hl Hn H. destruct (analyze_spec _ _ _ _ _ Hl Hn H) as (Hm & -> & Hlg & -> & Hall).
  unfold zcount in *. split.
  - intros Hlt g1 g2 H1%Hall H2%Hall. lia.
  - intros Hb. specialize (Hb _ _ Hm Hlg). lia.
Qed.

Lemma rebalance_loop_spec fuel : forall c,
  energy (sc_Shards c) < fuel -> length (sc_Shards c) = NShards -> size (groups_of c) <> 0 -> assigned c ->
  exists sh, rebalance_loop fuel c = Some (set_shards sh c) /\ length sh = NShards /\
    assigned (set_shards sh c) /\ balanced (set_shards sh c).
Proof.
  induction fuel as [|fuel IH]; intros c He Hl Hn Ha; simpl; [lia|].
  destruct (analyze c) as [[[mg mn] lg] ln] eqn:E. pose proof (balanced_stop _ _ _ _ _ Hl Hn E) as Hstop.
  destruct (Z.ltb_spec mn (ln + 2)) as [Hlt|Hge].
  - exists (sc_Shards c). destruct c. split_and!; auto. by apply Hstop.
  - destruct (analyze_spec _ _ _ _ _ Hl Hn E) as (Hm & -> & Hlg & -> & _). unfold zcount in Hge.
    assert (mg <> lg) as Hne by (intros ->; lia).
    assert (count lg (sc_Shards c) + 2 <= count mg (sc_Shards c)) as Hc by lia.
    pose proof (move_one_energy mg lg (sc_Shards c) Hne Hc) as Hlt.
    destruct (move_one_split mg lg (sc_Shards c)) as (l1 & l2 & Hs & Hmv); [apply count_positive; lia|].
    destruct (IH (set_shards (move_one mg lg (sc_Shards c)) c)) as (sh & ? & ? & ? & ?).
    + simpl. lia.
    + simpl. rewrite Hmv. rewrite Hs in Hl. by rewrite !length_app in *.
    + done.
    + unfold assigned in *. simpl. rewrite Hmv. rewrite Hs in Ha.
      apply Forall_app in Ha as [Ha1 [_ Ha2]%Forall_cons]. apply Forall_app. by split; [|constructor].
    + exists sh. by split_and!.
Qed.

Lemma rebalance_spec c :
  length (sc_Shards c) = NShards ->
  exists sh, Rebalance c = Some (set_shards sh c) /\ length sh = NShards /\
    (groups_of c = ∅ -> sh = replicate NShards 0%Z) /\
    (groups_of c <> ∅ -> assigned (set_shards sh c) /\ balanced (set_shards sh c)).
Proof.
  intros Hl. unfold Rebalance. case_decide as Hs.
  - assert (groups_of c = ∅) as He by (apply map_size_empty_iff; lia).
    exists (replicate NShards 0%Z). by split_and!.
  - assert (size (groups_of c) <> 0) as Hn by lia.
    destruct (assign_all_spec c Hl Hn) as (sh0 & -> & Hl0 & Ha0).
    destruct (rebalance_loop_spec rebalance_fuel (set_shards sh0 c)) as (sh & He & ? & ? & ?); auto.
    { simpl. pose proof (energy_bound sh0). rewrite Hl0 in *. unfold rebalance_fuel. lia. }
    exists sh. rewrite He. split_and!; [by destruct c|done| |by split].
    intros E. exfalso. apply Hn. by rewrite E, map_size_empty.
Qed.

Lemma rebalance_stable c :
  length (sc_Shards c) = NShards -> groups_of c <> ∅ -> assigned c -> balanced c -> Rebalance c = Some c.
Proof.
  intros Hl Hn Ha Hb. unfold Rebalance.
  assert (size (groups_of c) <> 0) as Hs by (by rewrite map_size_empty_iff).
  rewrite decide_False by lia. rewrite assign_all_id by done. unfold rebalance_fuel. cbn [rebalance_loop].
  destruct (analyze c) as [[[mg mn] lg] ln] eqn:E.
  apply (balanced_stop _ _ _ _ _ Hl Hs E) in Hb. by destruct (Z.ltb_spec mn (ln + 2)); [|lia].
Qed.

(** C25. [Rebalance] terminates on every configuration, changes the assignment only,
    and is stable under a second call: without groups every shard goes to group 0,
    otherwise every shard is assigned to a group of the configuration and the most
    loaded group has at most one shard more than the least loaded one; a
    configuration that has this already is left alone. *)
Theorem Rebalance_balances c :
  length (sc_Shards c) = NShards ->
  (exists c', Rebalance c = Some c' /\ Rebalance c' = Some c' /\
     sc_Num c' = sc_Num c /\ sc_Groups c' = sc_Groups c /\ length (sc_Shards c') = NShards /\
     (groups_of c = ∅ -> sc_Shards c' = replicate NShards 0%Z) /\
     (groups_of c <> ∅ -> assigned c' /\ balanced c')) /\
  (groups_of c <> ∅ -> assigned c -> balanced c -> Rebalance c = Some c).
Proof.
  intros Hl. split; [|intros; by apply rebalance_stable].
  destruct (rebalance_spec c Hl) as (sh & He & Hsh & H0 & H1). exists (set_shards sh c). split_and!; auto.
  destruct (decide (groups_of c = ∅)) as [E|E].
  - rewrite (H0 E) in *. unfold Rebalance. rewrite decide_True; [done|].
    change (groups_of (set_shards _ c)) with (groups_of c). rewrite E, map_size_empty. lia.
  - destruct (H1 E). by apply rebalance_stable.
Qed.

(** ** CheckConfig *)

Lemma foldr_max_le l M : (0 <= M)%Z -> Forall (fun x => (x <= M)%Z) l -> (foldr Z.max 0 l <= M)%Z.
Proof. intros HM. induction 1; simpl; lia. Qed.

Lemma foldr_min_ge l m : (m <= 257)%Z -> Forall (fun x => (m <= x)%Z) l -> (m <= foldr Z.min 257 l)%Z.
Proof. intros Hm. induction 1; simpl; lia. Qed.

Lemma CheckConfig_spec c groups :
  length (sc_Shards c) = NShards -> groups ≡ₚ elements (dom (groups_of c)) ->
  (groups_of c <> ∅ -> assigned c /\ balanced c) -> CheckConfig c groups = true.
Proof.
  intros Hl Hg Hab.
  assert (length groups = size (groups_of c)) as Hsz.
  { rewrite Hg. change (size (dom (groups_of c)) = size (groups_of c)). apply size_dom. }
  assert (forall g, g ∈ groups -> is_Some (groups_of c !! g)) as Hin.
  { intros g. by rewrite Hg, elem_of_elements, elem_of_dom. }
  unfold CheckConfig. rewrite !andb_true_iff, orb_true_iff. split_and!.
  - by apply bool_decide_eq_true.
  - apply forallb_forall. intros g ?%list_elem_of_In. apply bool_decide_eq_true. auto.
  - destruct (decide (groups_of c = ∅)) as [E|E]; [left|right].
    + rewrite Hsz, E, map_size_empty. done.
    + apply forallb_forall. intros g Hx%list_elem_of_In. apply bool_decide_eq_true.
      destruct (Hab E) as [Ha _]. unfold assigned in Ha. rewrite Forall_forall in Ha. auto.
  - apply Z.leb_le. set (l := elements (dom (groups_of c))).
    assert (forall g, g ∈ l -> is_Some (groups_of c !! g)) as Hel.
    { intros g. unfold l. by rewrite elem_of_elements, elem_of_dom. }
    assert (forall g, zcount g (sc_Shards c) <= 12)%Z as H12.
    { intros g. pose proof (count_le_length g (sc_Shards c)) as H. rewrite Hl in H. unfold zcount, NShards in *. lia. }
    destruct (decide (groups_of c = ∅)) as [E|E].
    { unfold l. rewrite E, dom_empty_L. done. }
    destruct (Hab E) as [_ Hb].
    assert (exists g0, g0 ∈ l) as [g0 Hg0].
    { apply map_choose in E as (g0 & srvs & Hs). exists g0. unfold l. rewrite elem_of_elements, elem_of_dom. eauto. }
    assert (forall g, g ∈ l -> zcount g (sc_Shards c) - 1 <= foldr Z.min 257 ((fun g => zcount g (sc_Shards c)) <$> l))%Z as Hmin.
    { intros g Hx. apply foldr_min_ge; [specialize (H12 g); lia|]. apply Forall_fmap, Forall_forall.
      intros y Hy. specialize (Hb g y (Hel g Hx) (Hel y Hy)). simpl. unfold zcount. lia. }
    apply foldr_max_le.
    + specialize (Hmin g0 Hg0). unfold zcount in *. lia.
    + apply Forall_fmap, Forall_forall. intros g Hx. specialize (Hmin g Hx). simpl. lia.
Qed.

(** ** Join *)

Definition disjoint_from (g : Groups_t) (srvs : list string) : Prop :=
  forall k xs s, g !! k = Some xs -> s ∈ xs -> s ∉ srvs.

(** The conditions the loop checks, and the map it builds. *)
Fixpoint joinable (l : list (Tgid * list string)) (g : Groups_t) : Prop :=
  match l with
  | [] => True
  | (gid, srvs) :: l' => g !! gid = None /\ disjoint_from g srvs /\ joinable l' (<[gid := srvs]> g)
  end.

Fixpoint add_groups (l : list (Tgid * list string)) (g : Groups_t) : Groups_t :=
  match l with [] => g | (gid, srvs) :: l' => add_groups l' (<[gid := srvs]> g) end.

Lemma conflict_false g srvs :
  existsb (fun '(_, xs) => shares_server xs srvs) (map_to_list g) = false <-> disjoint_from g srvs.
Proof.
  rewrite <- not_true_iff_false, existsb_exists. unfold disjoint_from, shares_server. split.
  - intros H k xs s Hk Hs Hsr. apply H. exists (k, xs). split.
    + by apply list_elem_of_In, elem_of_map_to_list.
    + apply existsb_exists. exists s. split; [by apply list_elem_of_In|by apply bool_decide_eq_true].
  - intros H ([k xs] & Hk%list_elem_of_In%elem_of_map_to_list & Hx).
    apply existsb_exists in Hx as (s & Hs%list_elem_of_In & Hsr%bool_decide_eq_true). by eapply H.
Qed.

Lemma join_loop_true l : forall ch num sh g cfg' b,
  join_loop l ch (mkShardConfig num sh (Some g)) = Some (cfg', Some b) <->
  joinable l g /\ cfg' = mkShardConfig num sh (Some (add_groups l g)) /\ b = (ch || negb (bool_decide (l = []))).
Proof.
  induction l as [|[gid srvs] l IH]; intros ch num sh g cfg' b; simpl.
  - rewrite orb_false_r. split; [by intros [= <- <-]|by intros (_ & -> & ->)].
  - unfold groups_of at 1. simpl. destruct (g !! gid) as [x|] eqn:E; [split; [done|by intros [[? _] _]]|].
    destruct (existsb _ _) eqn:Ex.
    + split; [done|]. intros [(_ & Hd & _) _]. apply conflict_false in Hd. unfold groups_of in Ex. simpl in Ex. congruence.
    + apply conflict_false in Ex. rewrite IH. rewrite orb_true_r. tauto.
Qed.

Lemma join_loop_nil l ch num sh cfg' b :
  join_loop l ch (mkShardConfig num sh None) = Some (cfg', Some b) -> l = [] /\ b = ch.
Proof.
  destruct l as [|[gid srvs] l]; simpl; [by intros [= <- <-]|]. unfold groups_of. simpl.
  rewrite lookup_empty. by destruct (existsb _ _).
Qed.

(** The order in which the range visits the map does not matter. *)
Lemma joinable_perm l1 l2 : l1 ≡ₚ l2 -> forall g,
  joinable l1 g -> joinable l2 g /\ add_groups l2 g = add_groups l1 g.
Proof.
  induction 1 as [|[a s] l1 l2 _ IH|[a s] [b t] l|l1 l2 l3 _ IH1 _ IH2]; intros g; simpl.
  - done.
  - intros (Ha & Hd & Hj). by apply IH in Hj as [? ?].
  - intros (Hb & Hdb & Ha & Hda & Hj). apply lookup_insert_None in Ha as [Ha Hab].
    rewrite (insert_insert_ne _ a b) in Hj |- * by done. split_and!; auto.
    + intros k xs u Hk. apply (Hda k). rewrite lookup_insert_ne; [done|]. intros <-. congruence.
    + apply lookup_insert_None. by split.
    + intros k xs u [[<- <-]|[_ Hk]]%lookup_insert_Some Hu Hv; [|by eapply Hdb].
      by apply (Hda b t u); [apply lookup_insert_eq|..].
  - intros H1. apply IH1 in H1 as [H2 E1]. apply IH2 in H2 as [? E2]. split; [done|congruence].
Qed.

Lemma joinable_fresh l : forall g k, joinable l g -> is_Some (g !! k) -> (list_to_map l : Groups_t) !! k = None.
Proof.
  induction l as [|[a s] l IH]; intros g k; simpl; [by rewrite lookup_empty|].
  intros (Ha & _ & Hj) Hk. apply lookup_insert_None. split.
  - eapply IH; [exact Hj|]. destruct (decide (a = k)) as [->|?]; [by rewrite lookup_insert_eq; eauto|].
    by rewrite lookup_insert_ne.
  - intros ->. rewrite Ha in Hk. by destruct Hk.
Qed.

Lemma add_groups_union l : forall g, joinable l g -> add_groups l g = list_to_map l ∪ g.
Proof.
  induction l as [|[a s] l IH]; intros g; simpl; [by rewrite (left_id_L ∅ (∪))|].
  intros (Ha & _ & Hj). rewrite (IH _ Hj). rewrite <- insert_union_l, insert_union_r; [done|].
  eapply joinable_fresh; [exact Hj|]. rewrite lookup_insert_eq. eauto.
Qed.

Lemma Join_true servers cfg cfg' :
  Join servers cfg = Some (cfg', true) <->
  exists g, sc_Groups cfg = Some g /\ servers <> [] /\ joinable servers g /\
    cfg' = mkShardConfig (sc_Num cfg + 1) (sc_Shards cfg) (Some (list_to_map servers ∪ g)).
Proof.
  destruct cfg as [num sh [g|]]; unfold Join; simpl; split.
  - intros H. apply bind_Some in H as ([c r] & Hj & H). destruct r as [[|]|]; [|done..]. injection H as <-.
    apply join_loop_true in Hj as (Hj & -> & Hb). exists g. split_and!; auto.
    + intros ->. done.
    + unfold bump. simpl. by rewrite add_groups_union.
  - intros (g' & [= <-] & Hne & Hj & ->). rewrite <- add_groups_union by done.
    assert (join_loop servers false (mkShardConfig num sh (Some g)) =
      Some (mkShardConfig num sh (Some (add_groups servers g)), Some true)) as ->; [|done].
    apply join_loop_true. by rewrite bool_decide_false.
  - intros H. apply bind_Some in H as ([c r] & Hj & H). destruct r as [[|]|]; [|done..].
    by apply join_loop_nil in Hj as [_ ?].
  - by intros (g & ? & _).
Qed.

(** What [JoinBalance] leaves: when it returns true, the number is the next one, the
    groups are the old ones and the new ones, none of which was there before, the
    result passes [CheckConfig] with exactly its groups, every shard is assigned to one
    of them, and the order in which Go ranges over the new groups has no influence. *)
Definition joined (servers : list (Tgid * list string)) (cfg cfg' : ShardConfig) (ok : bool) : Prop :=
  if ok then
    sc_Num cfg' = (sc_Num cfg + 1)%Z /\ length (sc_Shards cfg') = NShards /\
    groups_of cfg' = list_to_map servers ∪ groups_of cfg /\
    (forall gid, gid ∈ servers.*1 -> groups_of cfg !! gid = None) /\
    assigned cfg' /\ balanced cfg' /\
    (forall groups, groups ≡ₚ elements (dom (groups_of cfg')) -> CheckConfig cfg' groups = true) /\
    (forall servers', servers ≡ₚ servers' -> JoinBalance servers' cfg = Some (cfg', true))
  else sc_Num cfg' = sc_Num cfg /\ sc_Shards cfg' = sc_Shards cfg.

Lemma JoinBalance_checks servers cfg cfg' ok :
  length (sc_Shards cfg) = NShards -> JoinBalance servers cfg = Some (cfg', ok) -> joined servers cfg cfg' ok.
Proof.
  unfold joined. intros Hl H. unfold JoinBalance in H. apply bind_Some in H as ([c r] & Hj & H).
  destruct r; simpl in H.
  - apply bind_Some in H as (c2 & Hr & H). injection H as <- <-.
    pose proof Hj as Hj0. apply Join_true in Hj as (g & Hg & Hne & Hjo & ->).
    match type of Hr with Rebalance ?c = _ => destruct (rebalance_spec c Hl) as (sh & Hr' & Hsh & _ & Hb) end.
    rewrite Hr' in Hr. injection Hr as <-. destruct cfg as [num sh0 g0]. simpl in *. subst g0.
    unfold groups_of in Hb |- *. simpl in *.
    assert (list_to_map servers ∪ g <> ∅) as Hnz.
    { destruct servers as [|[a s] l]; [done|]. intros E%(f_equal (lookup a)). simpl in E.
      by rewrite <- insert_union_l, lookup_insert_eq in E. }
    destruct (Hb Hnz) as [Has Hba]. split_and!; auto.
    + intros gid Hin. destruct (g !! gid) as [x|] eqn:E; [|done].
      assert ((list_to_map servers : Groups_t) !! gid = None) as Hn by (eapply joinable_fresh; eauto).
      apply not_elem_of_list_to_map in Hn. done.
    + intros groups Hp. apply CheckConfig_spec; auto.
    + intros servers' Hp. unfold JoinBalance.
      destruct (joinable_perm _ _ Hp _ Hjo) as [Hjo' Hadd]. rewrite !add_groups_union in Hadd by done.
      assert (Join servers' (mkShardConfig num sh0 (Some g)) =
        Some (mkShardConfig (num + 1) sh0 (Some (list_to_map servers ∪ g)), true)) as ->.
      { apply Join_true. exists g. rewrite <- Hadd. split_and!; auto. intros ->. by apply Permutation_nil_r in Hp. }
      cbn. by rewrite Hr'.
  - injection H as <- <-. unfold Join in Hj. apply bind_Some in Hj as ([c' r] & Hj & H).
    destruct r as [[|]|]; [done|done|]. injection H as <-.
    clear Hl. revert cfg Hj. generalize false. induction servers as [|[a s] l IH]; intros ch cfg Hj; simpl in Hj; [done|].
    destruct (groups_of cfg !! a); [by injection Hj as <-|]. destruct (existsb _ _); [done|].
    apply bind_Some in Hj as (g & _ & Hj). by apply IH in Hj.
Qed.

(** ** Leave *)

Lemma leave_loop_frame l : forall ch cfg,
  sc_Num (leave_loop l ch cfg).1 = sc_Num cfg /\ sc_Shards (leave_loop l ch cfg).1 = sc_Shards cfg.
Proof.
  induction l as [|a l IH]; intros ch cfg; simpl; [done|].
  destruct (groups_of cfg !! a); [|done]. by destruct (IH true (mkShardConfig (sc_Num cfg) (sc_Shards cfg)
    (map_del (sc_Groups cfg) a))).
Qed.

Lemma leave_loop_true l : forall ch cfg cfg' b,
  leave_loop l ch cfg = (cfg', Some b) ->
  NoDup l /\ Forall (fun gid => is_Some (groups_of cfg !! gid)) l /\ b = (ch || negb (bool_decide (l = []))) /\
  forall k, groups_of cfg' !! k = if decide (k ∈ l) then None else groups_of cfg !! k.
Proof.
  induction l as [|a l IH]; intros ch cfg cfg' b H; simpl in H.
  - injection H as <- <-. rewrite orb_false_r. split_and!; [constructor|constructor|done|].
    intros k. by rewrite decide_False by apply not_elem_of_nil.
  - destruct (groups_of cfg !! a) as [x|] eqn:E; [|done].
    assert (forall k, groups_of (mkShardConfig (sc_Num cfg) (sc_Shards cfg) (map_del (sc_Groups cfg) a)) !! k =
      if decide (k = a) then None else groups_of cfg !! k) as Hd.
    { intros k. unfold groups_of, map_del. simpl. destruct (sc_Groups cfg) as [g|]; simpl.
      - case_decide as Hk; [subst; apply lookup_delete_eq|by rewrite lookup_delete_ne].
      - rewrite lookup_empty. by case_decide. }
    apply IH in H as (Hnd & Hall & -> & Hk).
    assert (a ∉ l) as Ha.
    { intros Hin. rewrite Forall_forall in Hall. apply Hall in Hin. rewrite Hd, decide_True in Hin by done.
      by destruct Hin. }
    split_and!.
    + by constructor.
    + constructor; [eauto|]. eapply Forall_impl; [exact Hall|]. intros k. simpl. rewrite Hd.
      case_decide; [by intros []|done].
    + by rewrite orb_true_r.
    + intros k. rewrite Hk, Hd. destruct (decide (k ∈ a :: l)) as [Hin|Hin].
      * apply elem_of_cons in Hin as [->|Hin]; [rewrite decide_False by done; by rewrite decide_True|].
        by rewrite decide_True.
      * apply not_elem_of_cons in Hin as [? ?]. by rewrite !decide_False.
Qed.

(** What [LeaveBalance] leaves: when it returns true the number is the next one, exactly
    the named groups are gone, each of which was there, the remaining ones keep their
    servers, the result passes [CheckConfig] with exactly its groups, and every shard is
    assigned to a remaining group, or to group 0 when none remains. *)
Definition left_by (gids : list Tgid) (cfg cfg' : ShardConfig) (ok : bool) : Prop :=
  if ok then
    sc_Num cfg' = (sc_Num cfg + 1)%Z /\ length (sc_Shards cfg') = NShards /\
    NoDup gids /\ (forall gid, gid ∈ gids -> is_Some (groups_of cfg !! gid)) /\
    (forall gid, groups_of cfg' !! gid = if decide (gid ∈ gids) then None else groups_of cfg !! gid) /\
    (forall groups, groups ≡ₚ elements (dom (groups_of cfg')) -> CheckConfig cfg' groups = true) /\
    (groups_of cfg' <> ∅ -> assigned cfg' /\ balanced cfg') /\
    (groups_of cfg' = ∅ -> sc_Shards cfg' = replicate NShards 0%Z)
  else sc_Num cfg' = sc_Num cfg /\ sc_Shards cfg' = sc_Shards cfg.

Lemma LeaveBalance_checks gids cfg cfg' ok :
  length (sc_Shards cfg) = NShards -> LeaveBalance gids cfg = Some (cfg', ok) -> left_by gids cfg cfg' ok.
Proof.
  unfold left_by. intros Hl H. unfold LeaveBalance in H. apply bind_Some in H as ([c r] & Hj & H).
  unfold Leave in Hj. pose proof (leave_loop_frame gids false cfg) as [Hn Hs].
  destruct (leave_loop gids false cfg) as [c1 r1] eqn:E. simpl in Hn, Hs.
  destruct r1 as [[|]|]; [|done|]; injection Hj as <- <-; simpl in H.
  - apply bind_Some in H as (c2 & Hr & H). injection H as <- <-.
    apply leave_loop_true in E as (Hnd & Hall & _ & Hk). rewrite Forall_forall in Hall.
    destruct (rebalance_spec (bump c1)) as (sh & Hr' & Hsh & H0 & Hb); [by rewrite <- Hs in Hl|].
    rewrite Hr' in Hr. injection Hr as <-. simpl. split_and!; auto; [lia|].
    intros groups Hp. by apply CheckConfig_spec.
  - by injection H as <- <-.
Qed.

(** C33. [JoinBalance] and [LeaveBalance] on any configuration of twelve shards: when
    they return true the configuration number is the next one, exactly the named groups
    came or went, and the result passes [CheckConfig] with exactly its groups, every
    shard assigned to one of them, whatever the order in which Go ranges over the map;
    when they return false, the number and the assignment are unchanged. *)
Theorem changed_configs_check servers gids cfg cfg' ok :
  length (sc_Shards cfg) = NShards ->
  (JoinBalance servers cfg = Some (cfg', ok) -> joined servers cfg cfg' ok) /\
  (LeaveBalance gids cfg = Some (cfg', ok) -> left_by gids cfg cfg' ok).
Proof. intros Hl. split; [by apply JoinBalance_checks|by apply LeaveBalance_checks]. Qed.

(** ** Looking a key up *)

Lemma IsMember_spec gid cfg : IsMember gid cfg = true <-> gid ∈ sc_Shards cfg.
Proof.
  unfold IsMember. rewrite existsb_exists. split.
  - intros (g & Hg%list_elem_of_In & ->%bool_decide_eq_true). done.
  - intros H. exists gid. split; [by apply list_elem_of_In|by apply bool_decide_eq_true].
Qed.

(** C26. Every key belongs to a shard of the array, and in a configuration whose
    shards are assigned, as [JoinBalance] leaves it, looking the key's shard up
    never panics and finds a member group with its servers. *)
Theorem key_has_group key cfg :
  (0 <= Key2Shard key < 12)%Z /\
  (length (sc_Shards cfg) = NShards -> assigned cfg ->
   exists gid srvs, GidServers (Key2Shard key) cfg = Some (gid, srvs, true) /\
     groups_of cfg !! gid = Some srvs /\ IsMember gid cfg = true).
Proof.
  split; [apply Key2Shard_range|]. intros Hl Ha. pose proof (Key2Shard_range key) as Hr. unfold GidServers.
  assert (is_Some (zlookup (sc_Shards cfg) (Key2Shard key))) as [gid Hg].
  { apply zlookup_is_Some. unfold zlen. by rewrite Hl. }
  rewrite Hg. simpl. rewrite zlookup_lookup in Hg by lia. pose proof (list_elem_of_lookup_2 _ _ _ Hg) as Hin.
  unfold assigned in Ha. rewrite Forall_forall in Ha. destruct (Ha _ Hin) as [srvs Hs].
  exists gid, srvs. rewrite Hs. simpl. split_and!; [done|done|by apply IsMember_spec].
Qed.

(** ** A run

    Two groups join one after the other, then the first one leaves. *)

Definition ex_cfg1 : ShardConfig :=
  mkShardConfig 1 (replicate 12 1%Z) (Some {[1%Z := ["x"; "y"; "z"]]}).
Definition ex_cfg2 : ShardConfig :=
  mkShardConfig 2 [2; 2; 2; 2; 2; 2; 1; 1; 1; 1; 1; 1]%Z (Some {[1%Z := ["x"; "y"; "z"]; 2%Z := ["a"; "b"; "c"]]}).
Definition ex_cfg3 : ShardConfig :=
  mkShardConfig 3 (replicate 12 2%Z) (Some {[2%Z := ["a"; "b"; "c"]]}).

Example ex_join1 : JoinBalance [(1%Z, ["x"; "y"; "z"])] MakeShardConfig = Some (ex_cfg1, true).
Proof. vm_compute. reflexivity. Qed.

Example ex_join2 : JoinBalance [(2%Z, ["a"; "b"; "c"])] ex_cfg1 = Some (ex_cfg2, true).
Proof. vm_compute. reflexivity. Qed.

Example ex_leave : LeaveBalance [1%Z] ex_cfg2 = Some (ex_cfg3, true).
Proof. vm_compute. reflexivity. Qed.

Lemma Rebalance_balances_witness : exists c' : ShardConfig,
  Rebalance (mkShardConfig 1 (sc_Shards ex_cfg1) (sc_Groups ex_cfg2)) = Some c' /\ balanced c'.
Proof.
  destruct (proj1 (Rebalance_balances (mkShardConfig 1 (sc_Shards ex_cfg1) (sc_Groups ex_cfg2)) eq_refl))
    as (c' & H & _ & _ & _ & _ & _ & Hb).
  exists c'. split; [exact H|]. apply Hb. discriminate.
Defined.

Lemma changed_configs_check_witness :
  assigned ex_cfg2 /\ balanced ex_cfg2 /\ CheckConfig ex_cfg3 [2%Z] = true.
Proof.
  destruct (proj1 (changed_configs_check [(2%Z, ["a"; "b"; "c"])] [] ex_cfg1 ex_cfg2 true eq_refl) ex_join2)
    as (_ & _ & _ & _ & Ha & Hb & _).
  destruct (proj2 (changed_configs_check [] [1%Z] ex_cfg2 ex_cfg3 true eq_refl) ex_leave) as (_ & _ & _ & _ & _ & H & _).
  split; [exact Ha|]. split; [exact Hb|]. apply H. reflexivity.
Defined.

Lemma key_has_group_witness : exists (gid : Z) (srvs : list string),
  GidServers (Key2Shard "a") ex_cfg3 = Some (gid, srvs, true).
Proof.
  destruct (proj2 (key_has_group "a" ex_cfg3)) as (gid & srvs & H & _); [reflexivity| |].
  - repeat constructor; simpl; eexists; reflexivity.
  - exists gid, srvs. exact H.
Defined.
