(* ===== verification/ShardGrp.v ===== *)
(** * A shard group ([shardkv1/shardgrp/server.go])

    The replicated state machine of a group: twelve shards, each absent, served or
    frozen under a configuration number, with its own de-duplication table.  The
    theorems say what freezing, installing and deleting a shard do and that they
    are fenced by configuration numbers; [ShardMove] puts several groups together. *)

From S2P Require Import Prelude.
From S2P Require Import Rpc.
From S2P Require Import KvSpec.
From S2P Require Import Dedup.
From S2P Require Import Persister.
From S2P Require Import Raft.
From S2P Require Import Rsm.
From S2P Require Import KvRaft.
From S2P Require Import ShardCfg.

Inductive shardStatus : Type := shardAbsent | shardServing | shardFrozen.

#[global] Instance shardStatus_eq_dec : EqDecision shardStatus.
Proof. solve_decision. Defined.

(** [Values] is never nil: the start, [Restore], [decodeShardTransfer] and
    [DeleteShard] make it. *)
Record shardState : Type := mkShardState {
  sh_Values : kvmap;
  sh_Status : shardStatus;
  sh_ConfigNum : Z;
  sh_Requests : Table;
}.

Record shardTransfer : Type := mkShardTransfer { st_Values : gomap string entry; st_Requests : Table }.

(** [me], [rsm] and [gid] aside, which nothing reads after the start. *)
Record GrpServer : Type := mkGrpServer { grp_shards : list shardState }.

(** A decoded shard, whose map may be nil. *)
Abbreviation raw_shard := (gomap string entry * shardStatus * Z * Table)%type.

Definition raw_of (s : shardState) : raw_shard :=
  (Some (sh_Values s), sh_Status s, sh_ConfigNum s, sh_Requests s).

(** ** The encodings *)

Class GobGrp := {
  gob_transfer : shardTransfer -> option bytes;
  ungob_transfer : bytes -> option shardTransfer;
  gob_shards : list shardState -> option bytes;
  ungob_shards : bytes -> option (list raw_shard);
}.

(** gob decodes what it encoded; an encoding is never empty. *)
Class GobGrpLaws {GG : GobGrp} : Prop := {
  ungob_gob_transfer t b : gob_transfer t = Some b -> ungob_transfer b = Some t;
  gob_transfer_nonempty t b : gob_transfer t = Some b -> b <> [];
  ungob_gob_shards l b : gob_shards l = Some b -> ungob_shards b = Some (raw_of <$> l);
  gob_shards_nonempty l b : gob_shards l = Some b -> b <> [];
}.

Section ShardGrp.
Context {GG : GobGrp}.

Definition encodeShardTransfer (values : kvmap) (requests : Table) : option bytes :=
gob_transfer (mkShardTransfer (Some values) requests).

Definition decodeShardTransfer (data : bytes) : option (kvmap * Table) :=
if decide (length data = 0) then Some (∅, Table_zero)
else
  transfer ← ungob_transfer data;
  Some (default ∅ (st_Values transfer), st_Requests transfer).

(** ** Requests and replies *)

Record FreezeShardArgs : Type := mkFreezeShardArgs { fa_Shard : Z; fa_Num : Z }.
Record FreezeShardReply : Type := mkFreezeShardReply { fr_State : bytes; fr_Num : Z; fr_Err : Err }.
Record InstallShardArgs : Type := mkInstallShardArgs { ia_Shard : Z; ia_State : bytes; ia_Num : Z }.
Record InstallShardReply : Type := mkInstallShardReply { ir_Err : Err }.
Record DeleteShardArgs : Type := mkDeleteShardArgs { da_Shard : Z; da_Num : Z }.
Record DeleteShardReply : Type := mkDeleteShardReply { dr_Err : Err }.

Inductive grp_req : Type :=
| GGet (args : GetArgs)
| GPut (args : PutArgs)
| GFreeze (args : FreezeShardArgs)
| GInstall (args : InstallShardArgs)
| GDelete (args : DeleteShardArgs)
| GUnknown.

Inductive grp_rep : Type :=
| GGetReply (reply : GetReply)
| GPutReply (reply : PutReply)
| GFreezeReply (reply : FreezeShardReply)
| GInstallReply (reply : InstallShardReply)
| GDeleteReply (reply : DeleteShardReply).

(** ** DoOp *)

Definition get_shard (state : shardState) (args : GetArgs) : GetReply :=
if decide (sh_Status state <> shardServing) then mkGetReply "" 0 ErrWrongGroup
else
  match sh_Values state !! ga_Key args with
  | None => mkGetReply "" 0 ErrNoKey
  | Some e => mkGetReply (Value e) (Version e) OK
  end.

(** The closure handed to the table. *)
Definition apply_put (args : PutArgs) (values : kvmap) : kvmap * PutReply :=
let exists_ := bool_decide (is_Some (values !! pa_Key args)) in
let e := default (mkEntry "" 0) (values !! pa_Key args) in
if negb exists_ && negb (bool_decide (pa_Version args = 0%N)) then (values, mkPutReply ErrNoKey)
else if decide (Version e <> pa_Version args) then (values, mkPutReply ErrVersion)
else (<[pa_Key args := mkEntry (pa_Value args) (u64_inc (Version e))]> values, mkPutReply OK).

Definition put_shard (state : shardState) (args : PutArgs) : option (shardState * PutReply) :=
if decide (sh_Status state <> shardServing) then Some (state, mkPutReply ErrWrongGroup)
else
  '(t, values, reply) ← Table_Do (sh_Requests state) args (fun v => Some (apply_put args v)) (sh_Values state);
  Some (mkShardState values (sh_Status state) (sh_ConfigNum state) t, reply).

Definition freeze_shard (state : shardState) (args : FreezeShardArgs) : option (shardState * FreezeShardReply) :=
if decide (fa_Num args = sh_ConfigNum state /\ sh_Status state = shardFrozen) then
  data ← encodeShardTransfer (sh_Values state) (sh_Requests state);
  Some (state, mkFreezeShardReply data (sh_ConfigNum state) OK)
else if decide (sh_Status state <> shardServing \/ (fa_Num args <= sh_ConfigNum state)%Z)
then Some (state, mkFreezeShardReply [] (sh_ConfigNum state) ErrWrongGroup)
else
  let state' := mkShardState (sh_Values state) shardFrozen (fa_Num args) (sh_Requests state) in
  data ← encodeShardTransfer (sh_Values state') (sh_Requests state');
  Some (state', mkFreezeShardReply data (sh_ConfigNum state') OK).

Definition install_shard (state : shardState) (args : InstallShardArgs) : option (shardState * InstallShardReply) :=
if decide (ia_Num args = sh_ConfigNum state /\ sh_Status state = shardServing)
then Some (state, mkInstallShardReply OK)
else if decide (sh_Status state <> shardAbsent \/ (ia_Num args <= sh_ConfigNum state)%Z)
then Some (state, mkInstallShardReply ErrWrongGroup)
else
  transfer ← decodeShardTransfer (ia_State args);
  Some (mkShardState transfer.1 shardServing (ia_Num args) transfer.2,
        mkInstallShardReply OK).

Definition delete_shard (state : shardState) (args : DeleteShardArgs) : shardState * DeleteShardReply :=
if decide ((da_Num args < sh_ConfigNum state)%Z \/
           (da_Num args = sh_ConfigNum state /\ sh_Status state = shardAbsent))
then (state, mkDeleteShardReply OK)
else if decide (da_Num args <> sh_ConfigNum state \/ sh_Status state <> shardFrozen)
then (state, mkDeleteShardReply ErrWrongGroup)
else (mkShardState ∅ shardAbsent (sh_ConfigNum state) Table_zero, mkDeleteShardReply OK).

(** The shard a request is about: an index outside the array panics. *)
Definition req_shard (req : grp_req) : Z :=
match req with
| GGet args => Key2Shard (ga_Key args)
| GPut args => Key2Shard (pa_Key args)
| GFreeze args => fa_Shard args
| GInstall args => ia_Shard args
| GDelete args => da_Shard args
| GUnknown => -1
end.

Definition shard_op (req : grp_req) (state : shardState) : option (shardState * grp_rep) :=
match req with
| GGet args => Some (state, GGetReply (get_shard state args))
| GPut args => '(state', reply) ← put_shard state args; Some (state', GPutReply reply)
| GFreeze args => '(state', reply) ← freeze_shard state args; Some (state', GFreezeReply reply)
| GInstall args => '(state', reply) ← install_shard state args; Some (state', GInstallReply reply)
| GDelete args => let '(state', reply) := delete_shard state args in Some (state', GDeleteReply reply)
| GUnknown => None
end.

Definition grp_DoOp (req : grp_req) (kv : GrpServer) : option (GrpServer * grp_rep) :=
state ← zlookup (grp_shards kv) (req_shard req);
'(state', reply) ← shard_op req state;
Some (mkGrpServer (<[Z.to_nat (req_shard req) := state']> (grp_shards kv)), reply).

(** ** Snapshots *)

Definition grp_Snapshot (kv : GrpServer) : option bytes := gob_shards (grp_shards kv).

Definition fill_values (raw : raw_shard) : shardState :=
let '(values, status, num, requests) := raw in mkShardState (default ∅ values) status num requests.

Definition grp_Restore (data : bytes) (kv : GrpServer) : option GrpServer :=
if decide (length data = 0) then Some kv
else shards ← ungob_shards data; Some (mkGrpServer (fill_values <$> shards)).

(** ** The RPC handlers on what [SubmitWithTimeout] returned *)

Definition grp_Get (res : Err * option grp_rep) : option GetReply :=
if decide (res.1 <> OK) then Some (mkGetReply "" 0 res.1)
else match res.2 with Some (GGetReply r) => Some r | _ => None end.

Definition grp_Put (res : Err * option grp_rep) : option PutReply :=
if decide (res.1 <> OK) then Some (mkPutReply res.1)
else match res.2 with Some (GPutReply r) => Some r | _ => None end.

Definition grp_FreezeShard (res : Err * option grp_rep) : option FreezeShardReply :=
if decide (res.1 <> OK) then Some (mkFreezeShardReply [] 0 res.1)
else match res.2 with Some (GFreezeReply r) => Some r | _ => None end.

Definition grp_InstallShard (res : Err * option grp_rep) : option InstallShardReply :=
if decide (res.1 <> OK) then Some (mkInstallShardReply res.1)
else match res.2 with Some (GInstallReply r) => Some r | _ => None end.

Definition grp_DeleteShard (res : Err * option grp_rep) : option DeleteShardReply :=
if decide (res.1 <> OK) then Some (mkDeleteShardReply res.1)
else match res.2 with Some (GDeleteReply r) => Some r | _ => None end.

(** ** Start

    [Gid1] serves every shard from configuration 1 on. *)
Definition Gid1 : Tgid := 1.
Definition NumFirst : Z := 1.

Definition StartServerShardGrp (gid : Tgid) : GrpServer :=
mkGrpServer
  (replicate NShards
     (if decide (gid = Gid1) then mkShardState ∅ shardServing NumFirst Table_zero
      else mkShardState ∅ shardAbsent 0 Table_zero)).

#[global] Instance GrpServer_machine : StateMachine GrpServer grp_req grp_rep := {|
  sm_DoOp := grp_DoOp; sm_Snapshot := grp_Snapshot; sm_Restore := grp_Restore |}.

(** ** Lemmas *)

(** [apply_put] is the contract of a conditional put. *)
Lemma apply_put_spec args m : Some (apply_put args m) = spec_apply args m.
Proof.
  unfold apply_put, spec_apply, spec_put. destruct (m !! pa_Key args) as [e|]; simpl.
  - destruct (decide (Version e = pa_Version args)).
    + by rewrite decide_False by auto.
    + by rewrite decide_True.
  - destruct (decide (pa_Version args = 0%N)) as [->|]; simpl; [done|]. by rewrite bool_decide_false.
Qed.

Lemma transfer_roundtrip (L : GobGrpLaws) m t b :
  encodeShardTransfer m t = Some b -> b <> [] /\ decodeShardTransfer b = Some (m, t).
Proof.
  intros H. unfold encodeShardTransfer in H. pose proof (gob_transfer_nonempty _ _ H) as Hn.
  split; [done|]. unfold decodeShardTransfer. rewrite decide_False by (by destruct b).
  by rewrite (ungob_gob_transfer _ _ H).
Qed.

Lemma fill_raw (l : list shardState) : fill_values <$> (raw_of <$> l) = l.
Proof. induction l as [|[] l IH]; csimpl; [done|]. by rewrite IH. Qed.

#[global] Instance GrpServer_machine_laws (L : GobGrpLaws) : StateMachineLaws GrpServer grp_req grp_rep.
Proof.
  constructor; simpl.
  - intros s b H. by eapply gob_shards_nonempty.
  - intros [l] b s0 H. unfold grp_Snapshot in H. simpl in H. unfold grp_Restore.
    pose proof (gob_shards_nonempty _ _ H). rewrite decide_False by (by destruct b).
    rewrite (ungob_gob_shards _ _ H). cbn [mbind option_bind]. by rewrite fill_raw.
Qed.

(** ** Fencing by configuration numbers *)

(** How a shard may change: its number grows, or it stays what it is, contents
    included unless it is served, or a frozen copy is deleted. *)
Definition advances (st st' : shardState) : Prop :=
(sh_ConfigNum st < sh_ConfigNum st')%Z \/
(sh_ConfigNum st = sh_ConfigNum st' /\
 ((sh_Status st = shardServing /\ sh_Status st' = shardServing) \/ st' = st \/
  (sh_Status st = shardFrozen /\ sh_Status st' = shardAbsent))).

Lemma advances_refl st : advances st st.
Proof. right. auto. Qed.

Lemma advances_trans st1 st2 st3 : advances st1 st2 -> advances st2 st3 -> advances st1 st3.
Proof.
  intros [H1|[H1 H1']] [H2|[H2 H2']]; try (left; lia).
  destruct H1' as [[? ?]|[->|[? ?]]]; [| |]; right; (split; [lia|]).
  - destruct H2' as [[? ?]|[->|[? ?]]]; auto. congruence.
  - exact H2'.
  - destruct H2' as [[? ?]|[->|[? ?]]]; auto; congruence.
Qed.

Lemma put_shard_spec st args st' r :
  put_shard st args = Some (st', r) ->
  (sh_Status st <> shardServing /\ st' = st /\ r = mkPutReply ErrWrongGroup) \/
  (sh_Status st = shardServing /\ exists t values,
     st' = mkShardState values shardServing (sh_ConfigNum st) t /\
     Table_Do (sh_Requests st) args (spec_apply args) (sh_Values st) = Some (t, values, r)).
Proof.
  unfold put_shard. case_decide as Hs.
  - intros [= <- <-]. by left.
  - intros H. apply bind_Some in H as ([[t values] reply] & Hd & H). injection H as <- <-.
    right. split; [done|]. exists t, values. rewrite Hs. split; [done|].
    rewrite <- Hd. unfold Table_Do. by rewrite apply_put_spec.
Qed.

Lemma freeze_shard_spec st args st' r :
  freeze_shard st args = Some (st', r) ->
  (fr_Err r = OK /\ fr_Num r = fa_Num args /\ sh_Status st' = shardFrozen /\ sh_ConfigNum st' = fa_Num args /\
     sh_Values st' = sh_Values st /\ sh_Requests st' = sh_Requests st /\
     encodeShardTransfer (sh_Values st') (sh_Requests st') = Some (fr_State r) /\
     (st' = st \/ (sh_Status st = shardServing /\ (sh_ConfigNum st < fa_Num args)%Z))) \/
  (fr_Err r = ErrWrongGroup /\ st' = st).
Proof.
  unfold freeze_shard. case_decide as H1; [|case_decide as H2]; intros H.
  - destruct H1 as [Hn Hf]. apply bind_Some in H as (d & Hd & H). injection H as <- <-. left. simpl. split_and!; auto.
  - injection H as <- <-. by right.
  - apply bind_Some in H as (d & Hd & H). injection H as <- <-. left. simpl. split_and!; auto. right.
    destruct (decide (sh_Status st = shardServing)) as [Hs|Hs]; [|tauto]. split; [done|lia].
Qed.

Lemma install_shard_spec st args st' r :
  install_shard st args = Some (st', r) ->
  (ir_Err r = OK /\ st' = st /\ sh_ConfigNum st = ia_Num args /\ sh_Status st = shardServing) \/
  (ir_Err r = OK /\ sh_Status st = shardAbsent /\ (sh_ConfigNum st < ia_Num args)%Z /\
     exists m t, decodeShardTransfer (ia_State args) = Some (m, t) /\
       st' = mkShardState m shardServing (ia_Num args) t) \/
  (ir_Err r = ErrWrongGroup /\ st' = st /\ (sh_Status st <> shardAbsent \/ (ia_Num args <= sh_ConfigNum st)%Z)).
Proof.
  unfold install_shard. case_decide as H1; [|case_decide as H2]; intros H.
  - destruct H1. injection H as <- <-. left. auto.
  - injection H as <- <-. auto.
  - right. left. apply bind_Some in H as ([m t] & Hd & H). injection H as <- <-.
    destruct (decide (sh_Status st = shardAbsent)) as [Hs|Hs]; [|tauto]. split_and!; [done|done|lia|eauto].
Qed.

Lemma delete_shard_spec st args st' r :
  delete_shard st args = (st', r) ->
  (dr_Err r = OK /\ st' = st /\ ((da_Num args < sh_ConfigNum st)%Z \/
     (da_Num args = sh_ConfigNum st /\ sh_Status st = shardAbsent))) \/
  (dr_Err r = OK /\ sh_Status st = shardFrozen /\ sh_ConfigNum st = da_Num args /\
     st' = mkShardState ∅ shardAbsent (da_Num args) Table_zero) \/
  (dr_Err r = ErrWrongGroup /\ st' = st).
Proof.
  unfold delete_shard. case_decide as H1; [|case_decide as H2]; intros [= <- <-]; auto.
  right. left. destruct (decide (sh_Status st = shardFrozen)); [|tauto].
  destruct (decide (da_Num args = sh_ConfigNum st)) as [->|]; [auto|tauto].
Qed.

Lemma shard_op_advances req st st' rep : shard_op req st = Some (st', rep) -> advances st st'.
Proof.
  destruct req as [a|a|a|a|a|]; simpl; intros H.
  - injection H as <- <-. apply advances_refl.
  - apply bind_Some in H as ([s r] & H1 & H). injection H as <- <-.
    apply put_shard_spec in H1 as [(_ & -> & _)|(Hs & t & values & -> & _)]; [apply advances_refl|]. right. auto.
  - apply bind_Some in H as ([s r] & H1 & H). injection H as <- <-.
    apply freeze_shard_spec in H1 as [(_ & _ & _ & Hn & _ & _ & _ & [->|[_ ?]])|[_ ->]];
      [apply advances_refl|left; lia|apply advances_refl].
  - apply bind_Some in H as ([s r] & H1 & H). injection H as <- <-.
    apply install_shard_spec in H1 as [(_ & -> & _)|[(_ & _ & ? & m & t & _ & ->)|(_ & -> & _)]];
      [apply advances_refl|by left|apply advances_refl].
  - destruct (delete_shard st a) as [s r] eqn:H1. injection H as <- <-.
    apply delete_shard_spec in H1 as [(_ & -> & _)|[(_ & ? & ? & ->)|[_ ->]]];
      [apply advances_refl|right; simpl; auto|apply advances_refl].
  - done.
Qed.

Lemma zlookup_insert_id {A} (l : list A) i x : zlookup l i = Some x -> <[Z.to_nat i := x]> l = l.
Proof.
  intros H. pose proof (zlookup_Some_range _ _ _ H). rewrite zlookup_lookup in H by lia. by apply list_insert_id.
Qed.

(** A log of requests. *)
Fixpoint grp_run (reqs : list grp_req) (kv : GrpServer) : option (GrpServer * list grp_rep) :=
match reqs with
| [] => Some (kv, [])
| req :: reqs' =>
    '(kv1, rep) ← grp_DoOp req kv; '(kv2, reps) ← grp_run reqs' kv1; Some (kv2, rep :: reps)
end.

Lemma grp_DoOp_spec req kv kv' rep :
  grp_DoOp req kv = Some (kv', rep) -> exists st st',
    zlookup (grp_shards kv) (req_shard req) = Some st /\ shard_op req st = Some (st', rep) /\
    zlookup (grp_shards kv') (req_shard req) = Some st' /\
    forall s, s <> req_shard req -> zlookup (grp_shards kv') s = zlookup (grp_shards kv) s.
Proof.
  unfold grp_DoOp. intros H. apply bind_Some in H as (st & Hst & H).
  apply bind_Some in H as ([st' r] & Hop & H). injection H as <- <-. simpl.
  pose proof (zlookup_Some_range _ _ _ Hst) as [Hr0 Hr]. unfold zlen in Hr. exists st, st'. split_and!; auto.
  - rewrite zlookup_lookup by lia. apply list_lookup_insert_eq. lia.
  - intros s Hs. destruct (decide (0 <= s)%Z) as [Hp|Hp].
    + rewrite !zlookup_lookup by lia. apply list_lookup_insert_ne. lia.
    + unfold zlookup. by destruct (Z.ltb_spec s 0); [|lia].
Qed.

Lemma grp_DoOp_advances req kv kv' rep s st st' :
  grp_DoOp req kv = Some (kv', rep) -> zlookup (grp_shards kv) s = Some st ->
  zlookup (grp_shards kv') s = Some st' -> advances st st'.
Proof.
  intros H H1 H2. apply grp_DoOp_spec in H as (st1 & st1' & Ha & Hop & Hb & Hother).
  destruct (decide (s = req_shard req)) as [->|Hs].
  - rewrite Ha in H1. rewrite Hb in H2. injection H1 as <-. injection H2 as <-. by eapply shard_op_advances.
  - rewrite Hother, H1 in H2 by done. injection H2 as <-. apply advances_refl.
Qed.

Lemma grp_DoOp_keeps req kv kv' rep s st :
  grp_DoOp req kv = Some (kv', rep) -> zlookup (grp_shards kv) s = Some st ->
  exists st', zlookup (grp_shards kv') s = Some st'.
Proof.
  intros H H1. apply grp_DoOp_spec in H as (st1 & st1' & Ha & Hop & Hb & Hother).
  destruct (decide (s = req_shard req)) as [->|Hs]; [eauto|]. rewrite Hother; eauto.
Qed.

Lemma grp_run_advances reqs : forall kv kv' reps s st st',
  grp_run reqs kv = Some (kv', reps) -> zlookup (grp_shards kv) s = Some st ->
  zlookup (grp_shards kv') s = Some st' -> advances st st'.
Proof.
  induction reqs as [|req reqs IH]; intros kv kv' reps s st st' H H1 H2; simpl in H.
  - injection H as <- <-. rewrite H1 in H2. injection H2 as <-. apply advances_refl.
  - apply bind_Some in H as ([kv1 r] & Hd & H). apply bind_Some in H as ([kv2 rs] & Hr & H). injection H as <- <-.
    destruct (grp_DoOp_keeps _ _ _ _ _ _ Hd H1) as [st1 Hst1].
    eapply advances_trans; [by eapply grp_DoOp_advances|by eapply IH].
Qed.

(** One shard: a migration request repeated after the shard advanced. *)
Lemma freeze_again sta stb st st' num s d d' :
  shard_op (GFreeze (mkFreezeShardArgs s num)) sta = Some (stb, GFreezeReply (mkFreezeShardReply d num OK)) ->
  advances stb st ->
  shard_op (GFreeze (mkFreezeShardArgs s num)) st = Some (st', GFreezeReply (mkFreezeShardReply d' num OK)) ->
  st' = st /\ d' = d.
Proof.
  intros H1 Hadv H2. simpl in *.
  apply bind_Some in H1 as ([x y] & H1 & Hx). injection Hx as -> ->.
  apply bind_Some in H2 as ([u v] & H2 & Hx). injection Hx as -> ->.
  apply freeze_shard_spec in H1 as [(_ & _ & Hf & Hn & _ & _ & Henc & _)|[? _]]; [|done].
  apply freeze_shard_spec in H2 as [(_ & _ & Hf2 & Hn2 & _ & _ & Henc2 & Hc)|[? _]]; [|done]. simpl in *.
  destruct Hc as [->|[Hsv Hlt]]; [|destruct Hadv as [?|[? _]]; lia]. split; [done|].
  destruct Hadv as [?|[_ [[? ?]|[->|[? ?]]]]]; [lia|congruence|congruence|congruence].
Qed.

Lemma install_again sta stb st st' num s d d' rep :
  shard_op (GInstall (mkInstallShardArgs s d num)) sta = Some (stb, GInstallReply (mkInstallShardReply OK)) ->
  advances stb st ->
  shard_op (GInstall (mkInstallShardArgs s d' num)) st = Some (st', rep) -> st' = st.
Proof.
  intros H1 Hadv H2. simpl in *.
  apply bind_Some in H1 as ([x y] & H1 & Hx). injection Hx as -> ->.
  apply bind_Some in H2 as ([u v] & H2 & Hx). injection Hx as -> _.
  assert (sh_ConfigNum stb = num) as Hn.
  { by apply install_shard_spec in H1 as [(_ & -> & ? & _)|[(_ & _ & _ & m & t & _ & ->)|(? & _)]]. }
  assert (num <= sh_ConfigNum st)%Z by (destruct Hadv as [?|[? _]]; lia).
  apply install_shard_spec in H2 as [(_ & -> & _)|[(_ & _ & ? & _)|(_ & -> & _)]]; simpl in *; [done|lia|done].
Qed.

Lemma delete_again sta stb st st' num s rep :
  shard_op (GDelete (mkDeleteShardArgs s num)) sta = Some (stb, GDeleteReply (mkDeleteShardReply OK)) ->
  advances stb st ->
  shard_op (GDelete (mkDeleteShardArgs s num)) st = Some (st', rep) ->
  st' = st /\ rep = GDeleteReply (mkDeleteShardReply OK).
Proof.
  intros H1 Hadv H2. simpl in *.
  destruct (delete_shard sta _) as [x y] eqn:Hd. injection H1 as -> ->.
  assert (num < sh_ConfigNum stb \/ (num = sh_ConfigNum stb /\ sh_Status stb = shardAbsent))%Z as Hn.
  { apply delete_shard_spec in Hd as [(_ & -> & ?)|[(_ & _ & ? & ->)|(? & _)]]; simpl in *; auto. done. }
  assert (num < sh_ConfigNum st \/ (num = sh_ConfigNum st /\ sh_Status st = shardAbsent))%Z as Hn2.
  { destruct Hadv as [?|[? [[? ?]|[->|[? ?]]]]]; [left; lia|left; destruct Hn as [?|[_ ?]]; [lia|congruence]
    |done|destruct Hn as [?|[_ ?]]; [left; lia|congruence]]. }
  unfold delete_shard in H2. simpl in H2. rewrite decide_True in H2 by done. by injection H2 as <- <-.
Qed.

(** An operation that leaves its shard alone leaves the group alone. *)
Lemma grp_DoOp_same req kv kv' rep st :
  zlookup (grp_shards kv) (req_shard req) = Some st -> grp_DoOp req kv = Some (kv', rep) ->
  (forall st', shard_op req st = Some (st', rep) -> st' = st) -> kv' = kv.
Proof.
  intros Hst H Hop. unfold grp_DoOp in H. rewrite Hst in H. simpl in H.
  apply bind_Some in H as ([st' r] & H1 & H). injection H as <- <-. rewrite (Hop _ H1).
  destruct kv as [l]. simpl in *. by rewrite (zlookup_insert_id _ _ _ Hst).
Qed.

(** C24. Fencing: along any log of a group, the configuration number of a shard never
    decreases, a shard that is not served keeps its contents for as long as its
    number stays, and only deletion follows freezing under one number.  Hence the
    migration requests are idempotent however they are repeated, delayed or
    interleaved with others: a repeated Freeze that is answered OK returns the same
    data and changes nothing; a repeated Install, with whatever data, changes
    nothing; and so does a repeated Delete, which is answered OK. *)
Theorem grp_fencing reqs kv1 kv2 kv3 kv4 req r1 r3 reps s num st2 st3 :
  grp_DoOp req kv1 = Some (kv2, r1) -> grp_run reqs kv2 = Some (kv3, reps) ->
  zlookup (grp_shards kv2) s = Some st2 -> zlookup (grp_shards kv3) s = Some st3 ->
  advances st2 st3 /\
  (forall d d', req = GFreeze (mkFreezeShardArgs s num) -> r1 = GFreezeReply (mkFreezeShardReply d num OK) ->
     grp_DoOp req kv3 = Some (kv4, r3) -> r3 = GFreezeReply (mkFreezeShardReply d' num OK) ->
     d' = d /\ kv4 = kv3) /\
  (forall d d', req = GInstall (mkInstallShardArgs s d num) -> r1 = GInstallReply (mkInstallShardReply OK) ->
     grp_DoOp (GInstall (mkInstallShardArgs s d' num)) kv3 = Some (kv4, r3) -> kv4 = kv3) /\
  (req = GDelete (mkDeleteShardArgs s num) -> r1 = GDeleteReply (mkDeleteShardReply OK) ->
     grp_DoOp req kv3 = Some (kv4, r3) -> kv4 = kv3 /\ r3 = r1).
Proof.
  intros H1 Hr Hs2 Hs3. pose proof (grp_run_advances _ _ _ _ _ _ _ Hr Hs2 Hs3) as Hadv.
  apply grp_DoOp_spec in H1 as (sta & stb & Ha & Hop & Hb & _). split_and!; [done|..].
  - intros d d' -> -> H3 ->. simpl in Hb. assert (stb = st2) as -> by congruence. split.
    + apply grp_DoOp_spec in H3 as (stc & std & Hc & Hop3 & _ & _). simpl in Hc.
      assert (stc = st3) as -> by congruence.
      by destruct (freeze_again _ _ _ _ _ _ _ _ Hop Hadv Hop3).
    + refine (grp_DoOp_same _ _ _ _ st3 _ H3 _); [exact Hs3|]. intros st' Hop3.
      by destruct (freeze_again _ _ _ _ _ _ _ _ Hop Hadv Hop3).
  - intros d d' -> -> H3. simpl in Hb. assert (stb = st2) as -> by congruence.
    refine (grp_DoOp_same _ _ _ _ st3 _ H3 _); [exact Hs3|]. intros st' Hop3.
    exact (install_again _ _ _ _ _ _ _ _ _ Hop Hadv Hop3).
  - intros -> -> H3. simpl in Hb. assert (stb = st2) as -> by congruence. split.
    + refine (grp_DoOp_same _ _ _ _ st3 _ H3 _); [exact Hs3|]. intros st' Hop3.
      by destruct (delete_again _ _ _ _ _ _ _ Hop Hadv Hop3).
    + apply grp_DoOp_spec in H3 as (stc & std & Hc & Hop3 & _ & _). simpl in Hc.
      assert (stc = st3) as -> by congruence.
      by destruct (delete_again _ _ _ _ _ _ _ Hop Hadv Hop3).
Qed.

End ShardGrp.
