(* ===== verification/Clerk.v ===== *)
(** * The clerks of replicated services ([kvraft1/client.go], [shardkv1/shardgrp/client.go], [shardkv1/client.go])

    A clerk of a replicated group remembers a leader, rotates through the servers
    when a call fails, and keeps the identity of a write through all its retries;
    the clerk of the sharded service routes each request by a cached
    configuration.  The objects are shared by concurrent calls: every access to
    them, and every remote call, is an effect of [Prog]. *)

From S2P Require Import Prelude.
From S2P Require Import Rpc.
From S2P Require Import Dedup.
From S2P Require Import Persister.
From S2P Require Import ShardCfg.
From S2P Require Import ShardGrp.
From S2P Require Import Prog.

(** ** Effects *)

Inductive rpc_call : Type :=
| RGet (args : GetArgs)
| RPut (args : PutArgs)
| RFreeze (args : FreezeShardArgs)
| RInstall (args : InstallShardArgs)
| RDelete (args : DeleteShardArgs).

Definition rpc_reply (c : rpc_call) : Type :=
  match c with
  | RGet _ => GetReply
  | RPut _ => PutReply
  | RFreeze _ => FreezeShardReply
  | RInstall _ => InstallShardReply
  | RDelete _ => DeleteShardReply
  end.

(** [h] names a group clerk; the clerk of [kvraft1] is one. *)
Inductive ck_eff : Type :=
| ERpc (server : string) (c : rpc_call)  (* [Call] *)
| ELeader (h : nat)
| ERemember (h : nat) (server : Z)
| EAdvance (h : nat) (server : Z)
| ECurrent  (* [isCurrent], or true when it is nil *)
| EBegin
| EAck
| EComplete (sequence : N)
| ELoadConfig (force : bool)
| EGroupClerk (gid : Tgid) (servers : list string).

Definition ck_resp (e : ck_eff) : Type :=
  match e with
  | ERpc _ c => option (rpc_reply c)
  | ELeader _ => Z
  | ERemember _ _ | EAdvance _ _ | EComplete _ => unit
  | ECurrent => bool
  | EBegin => N * N
  | EAck => N
  | ELoadConfig _ => option ShardConfig
  | EGroupClerk _ _ => nat
  end.

Abbreviation ck_prog := (prog ck_resp).

(** [ck.servers[server]] panics outside the slice. *)
Definition ck_server {A} (servers : list string) (server : Z) (k : string -> ck_prog A) : ck_prog A :=
  match zlookup servers server with None => Panic | Some s => k s end.

(** One attempt at the leader: its index, and the answer if there is one. *)
Definition attempt {A} (h : nat) (servers : list string) (c : rpc_call) (k : Z -> option (rpc_reply c) -> ck_prog A)
    : ck_prog A :=
  Call (ELeader h) (fun server : Z =>
    ck_server servers server (fun s => Call (ERpc s c) (fun r : option (rpc_reply c) => k server r))).

(** ** The leader of a clerk *)

Definition advanceLeader (n : Z) (failedServer leader : Z) : Z :=
  if decide (leader = failedServer) then Z.rem (failedServer + 1) n else leader.

Definition rememberLeader (server leader : Z) : Z := server.

(** The new count of failed attempts; the pause takes no time. *)
Definition retryAfterFailure {A} (h : nat) (servers : list string) (server failedAttempts : Z) (k : Z -> ck_prog A)
    : ck_prog A :=
  Call (EAdvance h server) (fun _ : unit =>
    let failed := (failedAttempts + 1)%Z in
    k (if (zlen servers <=? failed)%Z then 0%Z else failed)).

(** ** [kvraft1/client.go] *)

Fixpoint kvraft_get_loop (fuel : nat) (h : nat) (servers : list string) (args : GetArgs) (failed : Z)
    : ck_prog (string * Tversion * Err) :=
  match fuel with
  | O => Spin
  | S fuel' =>
      attempt h servers (RGet args) (fun server (r : option GetReply) =>
        let retry := retryAfterFailure h servers server failed (kvraft_get_loop fuel' h servers args) in
        match r with
        | Some reply =>
            if decide (gr_Err reply = OK \/ gr_Err reply = ErrNoKey)
            then Call (ERemember h server) (fun _ => Ret (gr_Value reply, gr_Version reply, gr_Err reply))
            else retry
        | None => retry
        end)
  end.

Definition kvraft_Clerk_Get (fuel h : nat) (servers : list string) (key : string) : ck_prog (string * Tversion * Err) :=
  kvraft_get_loop fuel h servers (mkGetArgs key) 0.

Definition with_ack (args : PutArgs) (ack : N) : PutArgs :=
  mkPutArgs (pa_Key args) (pa_Value args) (pa_Version args) (pa_ClientID args) (pa_Sequence args) ack.

Fixpoint kvraft_put_loop (fuel : nat) (h : nat) (servers : list string) (args : PutArgs) (failed : Z) : ck_prog Err :=
  match fuel with
  | O => Spin
  | S fuel' =>
      Call EAck (fun ack : N =>
      attempt h servers (RPut (with_ack args ack)) (fun server (r : option PutReply) =>
        let retry := retryAfterFailure h servers server failed (kvraft_put_loop fuel' h servers args) in
        match r with
        | Some reply =>
            match pr_Err reply with
            | OK | ErrNoKey | ErrVersion => Call (ERemember h server) (fun _ => Ret (pr_Err reply))
            | ErrStaleRequest => Panic
            | _ => retry
            end
        | None => retry
        end))
  end.

(** [Complete] is deferred: it runs when the loop returned. *)
Definition kvraft_Clerk_Put (fuel h : nat) (servers : list string) (key value : string) (version : Tversion)
    : ck_prog Err :=
  Call EBegin (fun '(id, sequence) =>
    prog_bind (fun err => Call (EComplete sequence) (fun _ => Ret err))
      (kvraft_put_loop fuel h servers (mkPutArgs key value version id sequence 0) 0)).

(** ** [shardkv1/shardgrp/client.go] *)

(** One round over the servers: a result, or whether anything was received. *)
Fixpoint grp_get_round (n : nat) (h : nat) (servers : list string) (args : GetArgs) (received : bool)
    : ck_prog (string * Tversion * Err + bool) :=
  match n with
  | O => Ret (inr received)
  | S n' =>
      attempt h servers (RGet args) (fun server (r : option GetReply) =>
        match r with
        | Some reply =>
            if decide (gr_Err reply = OK \/ gr_Err reply = ErrNoKey \/ gr_Err reply = ErrWrongGroup)
            then Call (ERemember h server) (fun _ => Ret (inl (gr_Value reply, gr_Version reply, gr_Err reply)))
            else Call (EAdvance h server) (fun _ => grp_get_round n' h servers args true)
        | None => Call (EAdvance h server) (fun _ => grp_get_round n' h servers args received)
        end)
  end.

Fixpoint grp_Clerk_Get (fuel : nat) (h : nat) (servers : list string) (key : string)
    : ck_prog (string * Tversion * Err) :=
  match fuel with
  | O => Spin
  | S fuel' =>
      prog_bind (fun res =>
        match res with
        | inl r => Ret r
        | inr false => Ret ("", 0%N, ErrWrongLeader)
        | inr true => grp_Clerk_Get fuel' h servers key
        end) (grp_get_round (length servers) h servers (mkGetArgs key) false)
  end.

(** A result, or (received, uncertain). *)
Fixpoint grp_put_round (n : nat) (h : nat) (servers : list string) (args : PutArgs) (received uncertain : bool)
    : ck_prog (Err + bool * bool) :=
  match n with
  | O => Ret (inr (received, uncertain))
  | S n' =>
      attempt h servers (RPut args) (fun server (r : option PutReply) =>
        match r with
        | None => Call (EAdvance h server) (fun _ => grp_put_round n' h servers args received true)
        | Some reply =>
            let remember e := Call (ERemember h server) (fun _ => Ret (inl e)) in
            let next u := Call (EAdvance h server) (fun _ => grp_put_round n' h servers args true u) in
            match pr_Err reply with
            | OK => remember OK
            | ErrNoKey => remember ErrNoKey
            | ErrVersion =>
                remember (if uncertain && (pa_ClientID args =? 0)%N then ErrMaybe else ErrVersion)
            | ErrStaleRequest => Ret (inl ErrStaleRequest)
            | ErrWrongGroup => remember ErrWrongGroup
            | ErrWrongLeader => next true
            | _ => next uncertain
            end
        end)
  end.

Fixpoint grp_put_loop (fuel : nat) (h : nat) (servers : list string) (args : PutArgs) (uncertain : bool) : ck_prog Err :=
  match fuel with
  | O => Spin
  | S fuel' =>
      prog_bind (fun res =>
        match res with
        | inl e => Ret e
        | inr (false, _) => Ret ErrWrongLeader
        | inr (true, u) => grp_put_loop fuel' h servers args u
        end) (grp_put_round (length servers) h servers args false uncertain)
  end.

Definition grp_PutRequest (fuel h : nat) (servers : list string) (args : PutArgs) : ck_prog Err :=
  grp_put_loop fuel h servers args false.

Definition grp_Clerk_Put (fuel h : nat) (servers : list string) (key value : string) (version : Tversion)
    : ck_prog Err :=
  Call EBegin (fun '(id, sequence) => Call EAck (fun ack : N =>
    prog_bind (fun err => Call (EComplete sequence) (fun _ => Ret err))
      (grp_PutRequest fuel h servers (mkPutArgs key value version id sequence ack)))).

Fixpoint FreezeShard_loop (fuel : nat) (h : nat) (servers : list string) (args : FreezeShardArgs) (failed : Z)
    : ck_prog (bytes * Err) :=
  match fuel with
  | O => Spin
  | S fuel' =>
      Call ECurrent (fun current : bool =>
        if negb current then Ret ([], ErrWrongLeader)
        else attempt h servers (RFreeze args) (fun server (r : option FreezeShardReply) =>
          let retry := retryAfterFailure h servers server failed (FreezeShard_loop fuel' h servers args) in
          match r with
          | Some reply =>
              match fr_Err reply with
              | OK => Call (ERemember h server) (fun _ =>
                  if decide (fr_Num reply <> fa_Num args) then Ret ([], ErrWrongGroup)
                  else Ret (fr_State reply, OK))
              | ErrWrongGroup => Call (ERemember h server) (fun _ => Ret ([], ErrWrongGroup))
              | _ => retry
              end
          | None => retry
          end))
  end.

Definition grp_Clerk_FreezeShard (fuel h : nat) (servers : list string) (s num : Z) : ck_prog (bytes * Err) :=
  FreezeShard_loop fuel h servers (mkFreezeShardArgs s num) 0.

Fixpoint InstallShard_loop (fuel : nat) (h : nat) (servers : list string) (args : InstallShardArgs) (failed : Z)
    : ck_prog Err :=
  match fuel with
  | O => Spin
  | S fuel' =>
      Call ECurrent (fun current : bool =>
        if negb current then Ret ErrWrongLeader
        else attempt h servers (RInstall args) (fun server (r : option InstallShardReply) =>
          let retry := retryAfterFailure h servers server failed (InstallShard_loop fuel' h servers args) in
          match r with
          | Some reply =>
              if decide (ir_Err reply = OK \/ ir_Err reply = ErrWrongGroup)
              then Call (ERemember h server) (fun _ => Ret (ir_Err reply)) else retry
          | None => retry
          end))
  end.

Definition grp_Clerk_InstallShard (fuel h : nat) (servers : list string) (s : Z) (state : bytes) (num : Z) : ck_prog Err :=
  InstallShard_loop fuel h servers (mkInstallShardArgs s state num) 0.

Fixpoint DeleteShard_loop (fuel : nat) (h : nat) (servers : list string) (args : DeleteShardArgs) (failed : Z)
    : ck_prog Err :=
  match fuel with
  | O => Spin
  | S fuel' =>
      Call ECurrent (fun current : bool =>
        if negb current then Ret ErrWrongLeader
        else attempt h servers (RDelete args) (fun server (r : option DeleteShardReply) =>
          let retry := retryAfterFailure h servers server failed (DeleteShard_loop fuel' h servers args) in
          match r with
          | Some reply =>
              if decide (dr_Err reply = OK \/ dr_Err reply = ErrWrongGroup)
              then Call (ERemember h server) (fun _ => Ret (dr_Err reply)) else retry
          | None => retry
          end))
  end.

Definition grp_Clerk_DeleteShard (fuel h : nat) (servers : list string) (s num : Z) : ck_prog Err :=
  DeleteShard_loop fuel h servers (mkDeleteShardArgs s num) 0.

(** ** [shardkv1/client.go] *)

Fixpoint sameServers (left right : list string) : bool :=
  match left, right with
  | [], [] => true
  | l :: left', r :: right' => bool_decide (l = r) && sameServers left' right'
  | _, _ => false
  end.

(** The shared object: the group clerks by group, handed out as numbers, with the
    servers each was made for, and the cached configuration. *)
Record ShardClerk : Type := mkShardClerk {
  sk_rcks : gmap Tgid nat;
  sk_rckServers : gmap Tgid (list string);
  sk_handles : nat;  (* group clerks made so far *)
  sk_config : option ShardConfig;
}.

Definition MakeShardClerk : ShardClerk := mkShardClerk ∅ ∅ 0 None.

Definition groupClerk (gid : Tgid) (servers : list string) (ck : ShardClerk) : option (ShardClerk * nat) :=
  match sk_rcks ck !! gid with
  | Some rck =>
      if sameServers (default [] (sk_rckServers ck !! gid)) servers then Some (ck, rck)
      else if decide (length servers = 0) then None  (* [MakeClerk] panics *)
      else Some (mkShardClerk (<[gid := sk_handles ck]> (sk_rcks ck)) (<[gid := servers]> (sk_rckServers ck))
             (S (sk_handles ck)) (sk_config ck), sk_handles ck)
  | None =>
      if decide (length servers = 0) then None
      else Some (mkShardClerk (<[gid := sk_handles ck]> (sk_rcks ck)) (<[gid := servers]> (sk_rckServers ck))
             (S (sk_handles ck)) (sk_config ck), sk_handles ck)
  end.

(** [loadConfig] after [Query]: a concurrent refresh never puts an older
    configuration back. *)
Definition loadConfig (queried : option ShardConfig) (ck : ShardClerk) : ShardClerk * option ShardConfig :=
  match queried with
  | None => (ck, None)
  | Some q0 =>
      let q := Copy q0 in
      let cfg := match sk_config ck with
                 | None => q
                 | Some c => if (sc_Num c <=? sc_Num q)%Z then q else c
                 end in
      (mkShardClerk (sk_rcks ck) (sk_rckServers ck) (sk_handles ck) (Some cfg), Some cfg)
  end.

Definition loadConfig_cached (force : bool) (ck : ShardClerk) : option ShardConfig :=
  if force then None else sk_config ck.

(** The routing common to [Get] and [Put]: the group clerk and its servers, or
    [None] when the configuration has to be loaded again. *)
Definition route {A} (shard : Z) (force : bool) (k : option (nat * list string) -> ck_prog A) : ck_prog A :=
  Call (ELoadConfig force) (fun cfg : option ShardConfig =>
    match cfg with
    | None => k None
    | Some cfg =>
        match GidServers shard cfg with
        | None => Panic
        | Some (gid, servers, ok) =>
            if negb ok || (length servers =? 0) then k None
            else Call (EGroupClerk gid servers) (fun h : nat => k (Some (h, servers)))
        end
    end).

Fixpoint shardkv_get_loop (fuel : nat) (gfuel : nat) (key : string) (force : bool)
    : ck_prog (string * Tversion * Err) :=
  match fuel with
  | O => Spin
  | S fuel' =>
      route (Key2Shard key) force (fun target =>
        match target with
        | None => shardkv_get_loop fuel' gfuel key true
        | Some (h, servers) =>
            prog_bind (fun '(value, version, err) =>
              match err with
              | OK | ErrNoKey => Ret (value, version, err)
              | ErrWrongGroup | ErrWrongLeader => shardkv_get_loop fuel' gfuel key true
              | _ => shardkv_get_loop fuel' gfuel key false
              end) (grp_Clerk_Get gfuel h servers key)
        end)
  end.

Definition shardkv_Clerk_Get (fuel gfuel : nat) (key : string) : ck_prog (string * Tversion * Err) :=
  shardkv_get_loop fuel gfuel key false.

Fixpoint shardkv_put_loop (fuel : nat) (gfuel : nat) (args : PutArgs) (force : bool) : ck_prog Err :=
  match fuel with
  | O => Spin
  | S fuel' =>
      route (Key2Shard (pa_Key args)) force (fun target =>
        match target with
        | None => shardkv_put_loop fuel' gfuel args true
        | Some (h, servers) =>
            Call EAck (fun ack : N =>
            prog_bind (fun err =>
              match err with
              | OK | ErrNoKey | ErrMaybe => Ret err
              | ErrVersion => Ret ErrVersion
              | ErrStaleRequest => Panic
              | ErrWrongGroup | ErrWrongLeader => shardkv_put_loop fuel' gfuel args true
              | _ => shardkv_put_loop fuel' gfuel args false
              end) (grp_PutRequest gfuel h servers (with_ack args ack)))
        end)
  end.

Definition shardkv_Clerk_Put (fuel gfuel : nat) (key value : string) (version : Tversion) : ck_prog Err :=
  Call EBegin (fun '(id, sequence) =>
    prog_bind (fun err => Call (EComplete sequence) (fun _ => Ret err))
      (shardkv_put_loop fuel gfuel (mkPutArgs key value version id sequence 0) false)).
