(* ===== verification/ClerkSafe.v ===== *)
(** * What the clerks of replicated services do

    One clerk object shared by concurrent calls.  In every run of a call, whatever
    the other calls do between its effects, the remembered leader stays inside the
    list of servers, so no index panics, and every put that leaves the clerk obeys
    the discipline [Dedup] relies on: the identity [Begin] handed out, a sequence
    number that is not completed, and a watermark below it. *)

From S2P Require Import Prelude.
From S2P Require Import Rpc.
From S2P Require Import Dedup.
From S2P Require Import ShardCfg.
From S2P Require Import ShardGrp.
From S2P Require Import Prog.
From S2P Require Import Clerk.

(** ** The shared object *)

(** [cw_clerks]: the group clerks with their servers and leaders; [cw_mine]: the
    sequence number of the call under consideration; [cw_done]: the completed
    ones. *)
Record cworld : Type := mkCworld {
  cw_clerks : gmap nat (list string * Z);
  cw_client : Client;
  cw_done : gset N;
  cw_mine : option N;
}.

Definition set_clerks (m : gmap nat (list string * Z)) (w : cworld) : cworld :=
  mkCworld m (cw_client w) (cw_done w) (cw_mine w).

Definition set_leader (h : nat) (f : Z -> Z -> Z) (w : cworld) : cworld :=
  set_clerks (alter (fun '(servers, leader) => (servers, f (zlen servers) leader)) h (cw_clerks w)) w.

Definition complete (s : N) (mine : option N) (w : cworld) : cworld :=
  mkCworld (cw_clerks w) (Complete s (cw_client w)) ({[s]} ∪ cw_done w) mine.

Definition active_seq (w : cworld) (s : N) : Prop :=
  (1 <= s <= dc_next (cw_client w))%N /\ (s ∉ cw_done w).

(** Other calls on the same object. *)
Inductive cenv (w : cworld) : cworld -> Prop :=
| cenv_remember h servers leader s : cw_clerks w !! h = Some (servers, leader) -> (0 <= s < zlen servers)%Z ->
    cenv w (set_leader h (fun _ => rememberLeader s) w)
| cenv_advance h servers leader s : cw_clerks w !! h = Some (servers, leader) -> (0 <= s < zlen servers)%Z ->
    cenv w (set_leader h (fun n => advanceLeader n s) w)
| cenv_clerk h servers : cw_clerks w !! h = None -> servers <> [] ->
    cenv w (set_clerks (<[h := (servers, 0%Z)]> (cw_clerks w)) w)
| cenv_begin random c' r : Begin random (cw_client w) = Some (c', r) ->
    cenv w (mkCworld (cw_clerks w) c' (cw_done w) (cw_mine w))
| cenv_complete s : active_seq w s -> cw_mine w <> Some s ->
    cenv w (complete s (cw_mine w) w).

(** The answers: a remote call returns anything, except that an active write is
    never refused as stale ([Dedup.dedup_exactly_once]); a configuration has twelve
    shards; the rest is the object. *)
Definition canswer (w : cworld) (e : ck_eff) : ck_resp e -> cworld -> Prop :=
  match e with
  | ERpc _ c =>
      match c as c return option (rpc_reply c) -> cworld -> Prop with
      | RPut _ => fun r w' => w' = w /\ forall reply, r = Some reply -> pr_Err reply <> ErrStaleRequest
      | _ => fun _ w' => w' = w
      end
  | ELeader h => fun r w' => w' = w /\ exists servers, cw_clerks w !! h = Some (servers, r)
  | ERemember h s => fun _ w' => w' = set_leader h (fun _ => rememberLeader s) w
  | EAdvance h s => fun _ w' => w' = set_leader h (fun n => advanceLeader n s) w
  | ECurrent => fun _ w' => w' = w
  | EBegin => fun r w' => exists random c', Begin random (cw_client w) = Some (c', r) /\
                w' = mkCworld (cw_clerks w) c' (cw_done w) (Some r.2)
  | EAck => fun r w' => w' = w /\ r = Client_Ack (cw_client w)
  | EComplete s => fun _ w' => w' = complete s None w
  | ELoadConfig _ => fun r w' => w' = w /\ forall cfg, r = Some cfg -> length (sc_Shards cfg) = NShards
  | EGroupClerk _ servers => fun h w' => exists leader,
      (cw_clerks w !! h = Some (servers, leader) /\ w' = w) \/
      (cw_clerks w !! h = None /\ leader = 0%Z /\ w' = set_clerks (<[h := (servers, 0%Z)]> (cw_clerks w)) w)
  end.

(** What an effect must satisfy: a put carries the identity of this call and a
    watermark read since it began; leaders are servers. *)
Definition callowed (own : PutArgs) (w : cworld) (e : ck_eff) : Prop :=
  match e with
  | ERpc _ (RPut a) =>
      pa_Key a = pa_Key own /\ pa_Value a = pa_Value own /\ pa_Version a = pa_Version own /\
      pa_ClientID a = dc_id (cw_client w) /\ cw_mine w = Some (pa_Sequence a) /\ active_seq w (pa_Sequence a) /\
      (pa_Ack a < pa_Sequence a)%N /\ (pa_Ack a <= Client_Ack (cw_client w))%N
  | ELeader h => is_Some (cw_clerks w !! h)
  | ERemember h s | EAdvance h s =>
      exists servers leader, cw_clerks w !! h = Some (servers, leader) /\ (0 <= s < zlen servers)%Z
  | EComplete s => cw_mine w = Some s
  | EGroupClerk _ servers => servers <> []
  | _ => True
  end.

Record cinv (w : cworld) : Prop := {
  ck_leaders : forall h servers leader, cw_clerks w !! h = Some (servers, leader) -> (0 <= leader < zlen servers)%Z;
  ck_client : client_inv (cw_client w) (cw_done w);
  ck_active : forall s, cw_mine w = Some s -> active_seq w s;
  ck_id : dc_next (cw_client w) <> 0%N -> dc_id (cw_client w) <> 0%N;
}.

(** ** Invariance *)

Lemma advanceLeader_range n s leader : (0 <= s < n)%Z -> (0 <= leader < n)%Z -> (0 <= advanceLeader n s leader < n)%Z.
Proof. intros Hs Hl. unfold advanceLeader. case_decide; [|done]. apply Z.rem_bound_pos; lia. Qed.

Lemma set_leader_inv h servers leader f w :
  cinv w -> cw_clerks w !! h = Some (servers, leader) ->
  (forall l, (0 <= l < zlen servers)%Z -> (0 <= f (zlen servers) l < zlen servers)%Z) -> cinv (set_leader h f w).
Proof.
  intros [Hl Hc Ha Hi] Hh Hf. constructor; auto. simpl. intros h' sv l.
  destruct (decide (h' = h)) as [->|Hne].
  - rewrite lookup_alter_eq, Hh. simpl. intros [= <- <-]. apply Hf. by eapply Hl.
  - rewrite lookup_alter_ne by done. apply Hl.
Qed.

Lemma new_clerk_inv h servers w :
  cinv w -> servers <> [] -> cinv (set_clerks (<[h := (servers, 0%Z)]> (cw_clerks w)) w).
Proof.
  intros [Hl Hc Ha Hi] Hs. constructor; auto. simpl. intros h' sv l.
  intros [[<- [= <- <-]]|[_ H]]%lookup_insert_Some; [|by eapply Hl].
  unfold zlen. destruct servers; [done|simpl; lia].
Qed.

Lemma begin_inv random c' r mine w :
  cinv w -> Begin random (cw_client w) = Some (c', r) ->
  (forall s, mine = Some s -> s = r.2 \/ cw_mine w = Some s) ->
  cinv (mkCworld (cw_clerks w) c' (cw_done w) mine) /\ r.1 = dc_id c' /\
  (cw_mine w <> None -> dc_id c' = dc_id (cw_client w)) /\ dc_ack c' = dc_ack (cw_client w).
Proof.
  intros [Hl Hc Ha Hi] H Hm. destruct r as [id s]. simpl in *.
  eapply Begin_inv in H as (H1 & H2 & H3 & H4 & H5 & H6 & H7 & H8); [|exact Hc].
  split_and!; auto.
  - constructor; simpl; auto; [|congruence].
    intros s' Hs'. unfold active_seq. simpl. destruct (Hm s' Hs') as [->|Hold].
    + split; [lia|done].
    + destruct (Ha s' Hold) as [? ?]. split; [lia|done].
  - intros Hmine. rewrite H6. apply H8, Hi. destruct (cw_mine w) as [s'|]; [|done].
    destruct (Ha s' eq_refl) as [? _]. lia.
Qed.

Lemma complete_inv s mine w :
  cinv w -> active_seq w s -> (forall s', mine = Some s' -> cw_mine w = Some s' /\ s' <> s) ->
  cinv (complete s mine w) /\ dc_id (cw_client (complete s mine w)) = dc_id (cw_client w) /\
  (dc_ack (cw_client w) <= dc_ack (cw_client (complete s mine w)))%N.
Proof.
  intros [Hl Hc Ha Hi] [Hs Hd] Hm. destruct (Complete_inv s _ _ Hc Hs) as (H1 & H2 & H3 & H4).
  split_and!; auto. constructor; simpl; auto.
  - intros s' Hs'. destruct (Hm s' Hs') as [Hs2 Hne]. destruct (Ha s' Hs2) as [? ?].
    unfold active_seq. simpl. rewrite H3. split; [done|set_solver].
  - rewrite H2, H3. done.
Qed.

(** What a call may rely on between its effects. *)
Definition later (w w' : cworld) : Prop :=
  cinv w' /\ cw_mine w' = cw_mine w /\ (cw_mine w <> None -> dc_id (cw_client w') = dc_id (cw_client w)) /\
  (dc_ack (cw_client w) <= dc_ack (cw_client w'))%N /\
  (forall h servers leader, cw_clerks w !! h = Some (servers, leader) ->
     exists leader', cw_clerks w' !! h = Some (servers, leader')).

Lemma later_refl w : cinv w -> later w w.
Proof. intros H. split_and!; eauto; lia. Qed.

Lemma later_trans w1 w2 w3 : later w1 w2 -> later w2 w3 -> later w1 w3.
Proof.
  intros (_ & H2 & H3 & H4 & H5) (G1 & G2 & G3 & G4 & G5). split_and!; [done|congruence| |lia|].
  - intros Hm. rewrite G3, H3; congruence.
  - intros h sv l Hh. destruct (H5 _ _ _ Hh) as [l' Hh']. eauto.
Qed.

Lemma set_leader_later h servers leader f w :
  cinv w -> cw_clerks w !! h = Some (servers, leader) ->
  (forall l, (0 <= l < zlen servers)%Z -> (0 <= f (zlen servers) l < zlen servers)%Z) -> later w (set_leader h f w).
Proof.
  intros HI Hh Hf. pose proof (set_leader_inv _ _ _ _ _ HI Hh Hf). split_and!; [done|done|done|simpl; lia|].
  simpl. intros h' sv l Hh'. destruct (decide (h' = h)) as [->|Hne].
  - rewrite lookup_alter_eq, Hh'. simpl. eauto.
  - rewrite lookup_alter_ne by done. eauto.
Qed.

Lemma new_clerk_later h servers w :
  cinv w -> cw_clerks w !! h = None -> servers <> [] ->
  later w (set_clerks (<[h := (servers, 0%Z)]> (cw_clerks w)) w).
Proof.
  intros HI Hh Hs. pose proof (new_clerk_inv h _ _ HI Hs). split_and!; [done|done|done|simpl; lia|].
  simpl. intros h' sv l Hh'. exists l. rewrite lookup_insert_ne; [done|congruence].
Qed.

Lemma remember_range s n l : (0 <= s < n)%Z -> (0 <= rememberLeader s l < n)%Z.
Proof. done. Qed.

Lemma cenv_later w w' : cenv w w' -> cinv w -> later w w'.
Proof.
  intros [h servers leader s Hh Hs|h servers leader s Hh Hs|h servers Hh Hs|random c' r H|s H1 H2] HI.
  - eapply set_leader_later; eauto using remember_range.
  - eapply set_leader_later; eauto using advanceLeader_range.
  - by apply new_clerk_later.
  - destruct (begin_inv _ _ _ (cw_mine w) _ HI H) as (? & _ & ? & ?); [auto|].
    split_and!; simpl; eauto; lia.
  - destruct (complete_inv s (cw_mine w) _ HI H1) as (? & ? & ?); [intros s' Hs'; split; congruence|].
    split_and!; simpl; eauto.
Qed.

Lemma cenv_rtc_later w w' : rtc cenv w w' -> cinv w -> later w w'.
Proof.
  induction 1 as [w|w w1 w2 H _ IH]; intros HI; [by apply later_refl|].
  pose proof (cenv_later _ _ H HI) as H1. eapply later_trans; [exact H1|]. apply IH. apply H1.
Qed.

(** ** Programs *)

Section programs.
Context (own : PutArgs).

Abbreviation csafe := (safe cenv canswer (callowed own)).

(** The write of this call is running under the identity of [own]. *)
Definition running (w : cworld) : Prop :=
cinv w /\ cw_mine w = Some (pa_Sequence own) /\ dc_id (cw_client w) = pa_ClientID own /\ pa_ClientID own <> 0%N.

(** Group clerk [h] has these servers. *)
Definition has_clerk (w : cworld) (h : nat) (servers : list string) : Prop :=
exists leader, cw_clerks w !! h = Some (servers, leader).

Lemma running_later w w' : running w -> later w w' -> running w'.
Proof.
  intros (H1 & H2 & H3 & H4) (G1 & G2 & G3 & G4 & G5). split_and!; [done|congruence| |done].
  rewrite G3; congruence.
Qed.

Lemma has_clerk_later w w' h servers : has_clerk w h servers -> later w w' -> has_clerk w' h servers.
Proof. intros [l H] (_ & _ & _ & _ & G). eapply G, H. Qed.

Lemma canswer_rpc w s c r w' : canswer w (ERpc s c) r w' -> w' = w.
Proof. destruct c; simpl; tauto. Qed.

(** A put of [own] with a watermark read while it was running. *)
Lemma running_allowed w0 w s ack :
  running w0 -> later w0 w -> ack = Client_Ack (cw_client w0) ->
  callowed own w (ERpc s (RPut (with_ack own ack))).
Proof.
  intros Hr Hl ->. pose proof (running_later _ _ Hr Hl) as ([_ _ Ha _] & Hm & Hid & Hz).
  destruct Hr as ([_ Hc Ha0 _] & Hm0 & _ & _). destruct Hl as (_ & _ & _ & Hle & _). simpl.
  destruct (Ha0 _ Hm0) as [[H1 H2] Hn]. split_and!; auto.
  by eapply client_active_above.
Qed.

Lemma attempt_safe {A} h servers c (k : Z -> option (rpc_reply c) -> ck_prog A) Q w :
  cinv w -> has_clerk w h servers ->
  (forall server s w1, (0 <= server < zlen servers)%Z -> later w w1 ->
     callowed own w1 (ERpc s c) /\ forall r, canswer w1 (ERpc s c) r w1 -> csafe (k server r) Q w1) ->
  csafe (attempt h servers c k) Q w.
Proof.
  intros HI Hh Hk w1 Hw1. pose proof (cenv_rtc_later _ _ Hw1 HI) as Hl1.
  destruct (has_clerk_later _ _ _ _ Hh Hl1) as [l1 Hc1]. split; [by eexists|].
  intros server w2 Hans. simpl in Hans. destruct Hans as [-> [sv Hsv]]. rewrite Hc1 in Hsv. injection Hsv as <- <-.
  pose proof (ck_leaders _ (proj1 Hl1) _ _ _ Hc1) as Hrange. unfold ck_server.
  destruct (zlookup servers l1) as [s|] eqn:Hz.
  2:{ exfalso. apply zlookup_is_Some in Hrange. rewrite Hz in Hrange. by destruct Hrange. }
  intros w2 Hw2. pose proof (cenv_rtc_later _ _ Hw2 (proj1 Hl1)) as Hl2.
  destruct (Hk l1 s w2 Hrange (later_trans _ _ _ Hl1 Hl2)) as [Ha Hs]. split; [done|].
  intros r w3 Hr. pose proof (canswer_rpc _ _ _ _ _ Hr) as ->. auto.
Qed.

(** The effects on the leader. *)
Lemma remember_safe {A} h servers server (k : ck_prog A) Q w :
  cinv w -> has_clerk w h servers -> (0 <= server < zlen servers)%Z ->
  (forall w1, later w w1 -> csafe k Q w1) -> csafe (Call (ERemember h server) (fun _ => k)) Q w.
Proof.
  intros HI Hh Hs Hk w1 Hw1. pose proof (cenv_rtc_later _ _ Hw1 HI) as Hl1.
  destruct (has_clerk_later _ _ _ _ Hh Hl1) as [l1 Hc1]. split; [simpl; eauto|].
  intros r w2 ->. apply Hk. eapply later_trans; [exact Hl1|].
  eapply set_leader_later; [apply Hl1|exact Hc1|]. intros. by apply remember_range.
Qed.

Lemma advance_safe {A} h servers server (k : ck_prog A) Q w :
  cinv w -> has_clerk w h servers -> (0 <= server < zlen servers)%Z ->
  (forall w1, later w w1 -> csafe k Q w1) -> csafe (Call (EAdvance h server) (fun _ => k)) Q w.
Proof.
  intros HI Hh Hs Hk w1 Hw1. pose proof (cenv_rtc_later _ _ Hw1 HI) as Hl1.
  destruct (has_clerk_later _ _ _ _ Hh Hl1) as [l1 Hc1]. split; [simpl; eauto|].
  intros r w2 ->. apply Hk. eapply later_trans; [exact Hl1|].
  eapply set_leader_later; [apply Hl1|exact Hc1|]. intros. by apply advanceLeader_range.
Qed.

Lemma ret_safe {A} (a : A) (Q : cworld -> A -> Prop) w :
  cinv w -> (forall w1, later w w1 -> Q w1 a) -> csafe (Ret a) Q w.
Proof. intros HI HQ w1 Hw1. apply HQ. by apply cenv_rtc_later. Qed.

(** The watermark as [Ack] reads it. *)
Lemma ack_safe {A} (k : N -> ck_prog A) Q w :
  running w -> (forall w1, later w w1 -> csafe (k (Client_Ack (cw_client w1))) Q w1) -> csafe (Call EAck k) Q w.
Proof.
  intros [HI _] Hk w1 Hw1. split; [done|]. intros r w2 [-> ->]. apply Hk. by apply cenv_rtc_later.
Qed.

(** ** [kvraft1] *)

(** The write is still running, and the answer is a definite one. *)
Definition kvraft_put_post (w : cworld) (e : Err) : Prop :=
running w /\ (e = OK \/ e = ErrNoKey \/ e = ErrVersion).

Lemma kvraft_put_loop_safe fuel h servers : forall failed w,
  running w -> has_clerk w h servers ->
  csafe (kvraft_put_loop fuel h servers own failed) kvraft_put_post w.
Proof.
  induction fuel as [|fuel IH]; intros failed w Hr Hh; cbn [kvraft_put_loop]; [done|].
  apply ack_safe; [done|]. intros w1 Hl1. pose proof (running_later _ _ Hr Hl1) as Hr1.
  pose proof (has_clerk_later _ _ _ _ Hh Hl1) as Hh1.
  apply attempt_safe; [apply Hr1|done|]. intros server s w2 Hs Hl2.
  pose proof (running_later _ _ Hr1 Hl2) as Hr2. pose proof (has_clerk_later _ _ _ _ Hh1 Hl2) as Hh2.
  split; [exact (running_allowed w1 _ _ _ Hr1 Hl2 eq_refl)|]. intros r [_ Hst].
  assert (csafe (retryAfterFailure h servers server failed (kvraft_put_loop fuel h servers own))
    kvraft_put_post w2) as Hretry.
  { eapply advance_safe; [apply Hr2|exact Hh2|done|]. intros w3 Hl3.
    apply IH; [eauto using running_later|eauto using has_clerk_later]. }
  destruct r as [[e]|]; [|done].
  assert (forall e', e' = OK \/ e' = ErrNoKey \/ e' = ErrVersion ->
    csafe (Call (ERemember h server) (fun _ => Ret e')) kvraft_put_post w2) as Hret.
  { intros e' He. eapply remember_safe; [apply Hr2|exact Hh2|done|]. intros w3 Hl3.
    apply ret_safe; [by apply Hl3|]. intros w4 Hl4. split; [|done].
    eauto using running_later. }
  destruct e; cbn [pr_Err]; auto.
  by destruct (Hst (mkPutReply ErrStaleRequest) eq_refl).
Qed.

(** ** [shardgrp] *)

Definition grp_put_post (w : cworld) (e : Err) : Prop :=
running w /\ (e = OK \/ e = ErrNoKey \/ e = ErrVersion \/ e = ErrWrongGroup \/ e = ErrWrongLeader).

Definition grp_round_post (w0 w : cworld) (res : Err + bool * bool) : Prop :=
later w0 w /\ match res with inl e => grp_put_post w e | inr _ => running w end.

Lemma grp_put_round_safe n h servers args w0 : forall received uncertain w,
  later w0 w -> running w -> has_clerk w h servers -> pa_ClientID args = pa_ClientID own ->
  (forall s w', later w0 w' -> callowed own w' (ERpc s (RPut args))) ->
  csafe (grp_put_round n h servers args received uncertain) (grp_round_post w0) w.
Proof.
  induction n as [|n IH]; intros received uncertain w Hl0 Hr Hh Hid Hal; cbn [grp_put_round].
  { apply (ret_safe (A := Err + bool * bool)); [apply Hr|]. intros w1 Hl1.
    split; [eauto using later_trans|eauto using running_later]. }
  apply attempt_safe; [apply Hr|done|]. intros server s w2 Hs Hl2.
  pose proof (later_trans _ _ _ Hl0 Hl2) as Hl02.
  pose proof (running_later _ _ Hr Hl2) as Hr2. pose proof (has_clerk_later _ _ _ _ Hh Hl2) as Hh2.
  split; [auto|]. intros r [_ Hst].
  assert (forall rcv u, csafe (Call (EAdvance h server) (fun _ => grp_put_round n h servers args rcv u))
    (grp_round_post w0) w2) as Hnext.
  { intros rcv u. eapply advance_safe; [apply Hr2|exact Hh2|done|]. intros w3 Hl3.
    apply IH; [eauto using later_trans|eauto using running_later|eauto using has_clerk_later|done|done]. }
  destruct r as [[e]|]; [|apply Hnext].
  assert (forall e', e' = OK \/ e' = ErrNoKey \/ e' = ErrVersion \/ e' = ErrWrongGroup \/ e' = ErrWrongLeader ->
    csafe (Call (ERemember h server) (fun _ => Ret (inl e'))) (grp_round_post w0) w2) as Hret.
  { intros e' He. eapply remember_safe; [apply Hr2|exact Hh2|done|]. intros w3 Hl3.
    apply (ret_safe (A := Err + bool * bool)); [by apply Hl3|]. intros w4 Hl4.
    pose proof (later_trans _ _ _ Hl3 Hl4) as Hl34. split; [eauto using later_trans|].
    split; [eauto using running_later|done]. }
  assert ((pa_ClientID args =? 0)%N = false) as Hz by (apply N.eqb_neq; rewrite Hid; apply Hr).
  destruct e; cbn [pr_Err]; rewrite ?Hz, ?andb_false_r; auto 10.
  by destruct (Hst (mkPutReply ErrStaleRequest) eq_refl).
Qed.

(** [PutRequest] with the identity of [own] and a watermark of [w0]. *)
Lemma grp_put_loop_safe fuel h servers args w0 : forall uncertain w,
  later w0 w -> running w -> has_clerk w h servers -> pa_ClientID args = pa_ClientID own ->
  (forall s w', later w0 w' -> callowed own w' (ERpc s (RPut args))) ->
  csafe (grp_put_loop fuel h servers args uncertain) (fun w e => later w0 w /\ grp_put_post w e) w.
Proof.
  induction fuel as [|fuel IH]; intros uncertain w Hl0 Hr Hh Hid Hal; cbn [grp_put_loop]; [done|].
  eapply safe_bind with (Q := grp_round_post w).
  { apply grp_put_round_safe; auto; [by apply later_refl, Hr|].
    intros s w' Hl'. apply Hal. eauto using later_trans. }
  intros w1 res [Hl Hp]. pose proof (later_trans _ _ _ Hl0 Hl) as Hl1. destruct res as [e|[[|] u]].
  - apply ret_safe; [by apply Hp|]. intros w2 Hl2. destruct Hp as [Hr1 He].
    split; [eauto using later_trans|]. split; [eauto using running_later|done].
  - apply IH; [done|done|eauto using has_clerk_later|done|done].
  - apply ret_safe; [by apply Hp|]. intros w2 Hl2.
    split; [eauto using later_trans|]. split; [eauto using running_later|auto 10].
Qed.

(** ** [shardkv1] *)

Lemma route_safe {A} key force (k : option (nat * list string) -> ck_prog A) Q w :
  cinv w -> (forall w1, later w w1 -> csafe (k None) Q w1) ->
  (forall w1 h servers, later w w1 -> has_clerk w1 h servers -> csafe (k (Some (h, servers))) Q w1) ->
  csafe (route (Key2Shard key) force k) Q w.
Proof.
  intros HI Hn Hs w1 Hw1. pose proof (cenv_rtc_later _ _ Hw1 HI) as Hl1. split; [done|].
  intros cfg w2 [-> Hcfg]. destruct cfg as [cfg|]; [|auto]. specialize (Hcfg cfg eq_refl).
  destruct (GidServers (Key2Shard key) cfg) as [[[gid servers] ok]|] eqn:Hg.
  2:{ unfold GidServers in Hg. assert (is_Some (zlookup (sc_Shards cfg) (Key2Shard key))) as [g Hz].
      { apply zlookup_is_Some. pose proof (Key2Shard_range key). unfold zlen. by rewrite Hcfg. }
      by rewrite Hz in Hg. }
  destruct (negb ok || (length servers =? 0)) eqn:Hb; [auto|].
  assert (servers <> []) as Hne by (intros ->; by rewrite orb_true_r in Hb).
  intros w2 Hw2. pose proof (cenv_rtc_later _ _ Hw2 (proj1 Hl1)) as Hl2.
  pose proof (later_trans _ _ _ Hl1 Hl2) as Hl12. split; [done|].
  intros h w3 (leader & [[Hc ->]|(Hc & -> & ->)]).
  - apply Hs; [done|by eexists].
  - assert (later w2 (set_clerks (<[h := (servers, 0%Z)]> (cw_clerks w2)) w2)) as Hl3.
    { apply new_clerk_later; [apply Hl2|done|done]. }
    apply Hs; [eauto using later_trans|]. exists 0%Z. apply lookup_insert_eq.
Qed.

Lemma shardkv_put_loop_safe fuel gfuel : forall force w,
  running w -> csafe (shardkv_put_loop fuel gfuel own force) kvraft_put_post w.
Proof.
  induction fuel as [|fuel IH]; intros force w Hr; cbn [shardkv_put_loop]; [done|].
  apply route_safe; [apply Hr|intros w1 Hl1; apply IH; eauto using running_later|].
  intros w1 h servers Hl1 Hh. pose proof (running_later _ _ Hr Hl1) as Hr1.
  apply ack_safe; [done|]. intros w2 Hl2. pose proof (running_later _ _ Hr1 Hl2) as Hr2.
  eapply safe_bind.
  { eapply (grp_put_loop_safe gfuel h servers _ w2); auto.
    - by apply later_refl, Hr2.
    - eauto using has_clerk_later.
    - intros s w' Hl'. exact (running_allowed w2 _ _ _ Hr2 Hl' eq_refl). }
  intros w3 e (Hl3 & Hr3 & He).
  assert (csafe (shardkv_put_loop fuel gfuel own true) kvraft_put_post w3) by (by apply IH).
  assert (forall e', e' = OK \/ e' = ErrNoKey \/ e' = ErrVersion -> csafe (Ret e') kvraft_put_post w3) as Hret.
  { intros e' He'. apply ret_safe; [apply Hr3|]. intros w4 Hl4. split; [eauto using running_later|done]. }
  destruct He as [->|[->|[->|[->| ->]]]]; auto.
Qed.
End programs.


(** ** The calls *)

(** The write was completed and had a definite answer. *)
Definition put_returned (w : cworld) (e : Err) : Prop :=
  cinv w /\ cw_mine w = None /\ (e = OK \/ e = ErrNoKey \/ e = ErrVersion).

Definition put_of (key value : string) (version : Tversion) : PutArgs := mkPutArgs key value version 0 0 0.

Lemma complete_safe own e w :
  kvraft_put_post own w e ->
  safe cenv canswer (callowed own) (Call (EComplete (pa_Sequence own)) (fun _ => Ret e)) put_returned w.
Proof.
  intros [Hr He] w1 Hw1. pose proof (cenv_rtc_later _ _ Hw1 (proj1 Hr)) as Hl1.
  destruct (running_later _ _ _ Hr Hl1) as (HI & Hm & _ & _). split; [done|].
  intros r w2 ->. destruct (complete_inv (pa_Sequence own) None w1 HI) as (HI2 & _); [by apply HI|done|].
  apply ret_safe; [done|]. intros w3 (H1 & H2 & _). split_and!; auto.
Qed.

(** [Begin], the retry loop, [Complete]. *)
Lemma put_call_safe (loop : PutArgs -> ck_prog Err) key value version w :
  (forall id s w', running (mkPutArgs key value version id s 0) w' ->
     (forall h servers, has_clerk w h servers -> has_clerk w' h servers) ->
     safe cenv canswer (callowed (put_of key value version)) (loop (mkPutArgs key value version id s 0))
       (kvraft_put_post (mkPutArgs key value version id s 0)) w') ->
  cinv w -> cw_mine w = None ->
  safe cenv canswer (callowed (put_of key value version))
    (Call EBegin (fun '(id, sequence) => prog_bind (fun err => Call (EComplete sequence) (fun _ => Ret err))
      (loop (mkPutArgs key value version id sequence 0)))) put_returned w.
Proof.
  intros Hloop HI Hm w1 Hw1. pose proof (cenv_rtc_later _ _ Hw1 HI) as Hl1. split; [done|].
  intros [id s] w2 (random & c' & Hb & ->). simpl in Hb.
  destruct (begin_inv _ _ _ (Some s) _ (proj1 Hl1) Hb) as (HI2 & Hid & _); [intros ? [= <-]; by left|].
  simpl in Hid. eapply safe_bind.
  - apply (Hloop id s).
    + split_and!; [done|done|done|]. simpl. rewrite Hid.
      destruct (Begin_inv _ _ _ _ _ _ (ck_client _ (proj1 Hl1)) Hb) as (_ & _ & _ & _ & _ & -> & ? & _). done.
    + intros h servers Hh. destruct (has_clerk_later _ _ _ _ Hh Hl1) as [l ?]. by exists l.
  - intros w3 e He. exact (complete_safe (mkPutArgs key value version id s 0) e w3 He).
Qed.

(** A [Put] of the replicated store's clerk, in every run and whatever the other
    calls on the clerk do meanwhile: it never panics, in particular every leader it
    indexes the servers with is one of them; every request it sends is the caller's
    put under the identity [Begin] gave this call, whose sequence number is not
    completed, with a watermark below it; and when it returns, the write is completed
    and the answer is OK, ErrNoKey or ErrVersion. *)
Theorem kvraft_put_discipline fuel h servers key value version w :
  cinv w -> cw_mine w = None -> has_clerk w h servers ->
  let put := kvraft_Clerk_Put fuel h servers key value version in
  ~ panics cenv canswer put w /\
  safe cenv canswer (callowed (put_of key value version)) put put_returned w /\
  forall e w', runs cenv canswer put w e w' -> put_returned w' e.
Proof.
  intros HI Hm Hh put.
  assert (safe cenv canswer (callowed (put_of key value version)) put put_returned w) as Hs.
  { apply (put_call_safe (fun args => kvraft_put_loop fuel h servers args 0)); auto.
    intros id s w' Hr Hc. exact (kvraft_put_loop_safe _ fuel h servers 0 w' Hr (Hc _ _ Hh)). }
  split_and!; [by eapply safe_panics|done|]. intros e w' Hr. by eapply safe_runs.
Qed.

(** A [Put] of the sharded service's clerk, through all refreshes of the
    configuration and all groups it is sent to: no panic, every request under the one
    identity of the call with a watermark below it, and a definite answer: the
    sharded [Put] never returns ErrMaybe. *)
Theorem shardkv_put_discipline fuel gfuel key value version w :
  cinv w -> cw_mine w = None ->
  let put := shardkv_Clerk_Put fuel gfuel key value version in
  ~ panics cenv canswer put w /\
  safe cenv canswer (callowed (put_of key value version)) put put_returned w /\
  forall e w', runs cenv canswer put w e w' -> put_returned w' e /\ e <> ErrMaybe.
Proof.
  intros HI Hm put.
  assert (safe cenv canswer (callowed (put_of key value version)) put put_returned w) as Hs.
  { apply (put_call_safe (fun args => shardkv_put_loop fuel gfuel args false)); auto.
    intros id s w' Hr Hc. exact (shardkv_put_loop_safe _ fuel gfuel false w' Hr). }
  split_and!; [by eapply safe_panics|done|]. intros e w' Hr.
  assert (put_returned w' e) as Hp by (by eapply safe_runs). split; [done|].
  destruct Hp as (_ & _ & [->|[->| ->]]); done.
Qed.

(** ** The objects of a sharded clerk *)

Lemma sameServers_eq left : forall right, sameServers left right = true <-> left = right.
Proof.
  induction left as [|l left IH]; intros [|r right]; simpl; try done.
  rewrite andb_true_iff, IH, bool_decide_eq_true. split; [by intros [-> ->]|by intros [= -> ->]].
Qed.

(** The clerk handed out for a group was made for the servers the table names. *)
Definition clerks_wf (ck : ShardClerk) (made : gmap nat (list string)) : Prop :=
  (forall gid rck, sk_rcks ck !! gid = Some rck ->
     exists servers, sk_rckServers ck !! gid = Some servers /\ made !! rck = Some servers /\ servers <> []) /\
  (forall rck, is_Some (made !! rck) <-> rck < sk_handles ck).

Lemma groupClerk_spec gid servers ck made ck' rck :
  clerks_wf ck made -> groupClerk gid servers ck = Some (ck', rck) ->
  (ck' = ck /\ made !! rck = Some servers) \/
  (made !! rck = None /\ clerks_wf ck' (<[rck := servers]> made) /\ sk_config ck' = sk_config ck /\
   (is_Some (sk_rcks ck !! gid) -> sk_rckServers ck !! gid <> Some servers)).
Proof.
  intros [Hw Hm] H.
  assert (servers <> [] -> clerks_wf (mkShardClerk (<[gid := sk_handles ck]> (sk_rcks ck))
    (<[gid := servers]> (sk_rckServers ck)) (S (sk_handles ck)) (sk_config ck)) (<[sk_handles ck := servers]> made)) as Hnew.
  { intros Hne. assert (made !! sk_handles ck = None) as Hfresh.
    { apply eq_None_not_Some. rewrite Hm. lia. }
    split; simpl.
    - intros g r. rewrite !lookup_insert. case_decide as Hg.
      + intros [= <-]. exists servers. by rewrite decide_True by done.
      + intros Hr. destruct (Hw g r Hr) as (sv & ? & Hmr & ?). exists sv.
        rewrite decide_False by congruence. done.
    - intros r. rewrite lookup_insert_is_Some'. rewrite Hm. lia. }
  assert (made !! sk_handles ck = None) as Hfresh by (apply eq_None_not_Some; rewrite Hm; lia).
  unfold groupClerk in H. destruct (sk_rcks ck !! gid) as [r|] eqn:Hr.
  - destruct (Hw _ _ Hr) as (sv & Hsv & Hmr & Hne). rewrite Hsv in H. simpl in H.
    destruct (sameServers sv servers) eqn:Hs.
    + apply sameServers_eq in Hs as ->. injection H as <- <-. by left.
    + case_decide as Hl; [done|]. injection H as <- <-. right. split_and!; auto.
      * apply Hnew. by intros ->.
      * intros _. rewrite Hsv. intros [= ->]. assert (sameServers servers servers = true) by by apply sameServers_eq. congruence.
  - case_decide as Hl; [done|]. injection H as <- <-. right. split_and!; auto; [apply Hnew; by intros ->|by intros [? ?]].
Qed.

(** The cached objects: [groupClerk] hands out a clerk made for exactly the
    servers asked for, makes a new one only when there is none or the list changed,
    and panics exactly on an empty list; [loadConfig] never replaces the cached
    configuration by one with a smaller number and returns what it cached. *)
Theorem shard_clerk_cache gid servers queried ck made :
  clerks_wf ck made ->
  (groupClerk gid servers ck = None <-> servers = []) /\
  (forall ck' rck, groupClerk gid servers ck = Some (ck', rck) ->
     (ck' = ck /\ made !! rck = Some servers) \/
     (made !! rck = None /\ clerks_wf ck' (<[rck := servers]> made) /\ sk_config ck' = sk_config ck /\
      (is_Some (sk_rcks ck !! gid) -> sk_rckServers ck !! gid <> Some servers))) /\
  (forall c, sk_config ck = Some c -> exists c', sk_config (loadConfig queried ck).1 = Some c' /\
     (sc_Num c <= sc_Num c')%Z) /\
  (forall c', (loadConfig queried ck).2 = Some c' -> sk_config (loadConfig queried ck).1 = Some c').
Proof.
  intros Hwf. split_and!.
  - unfold groupClerk. destruct Hwf as [Hw _]. destruct (sk_rcks ck !! gid) as [r|] eqn:Hr.
    + destruct (Hw _ _ Hr) as (sv & -> & _ & Hne). simpl. destruct (sameServers sv servers) eqn:Hs.
      * apply sameServers_eq in Hs as ->. done.
      * case_decide as Hl; [by apply nil_length_inv in Hl|]. split; [done|by intros ->].
    + case_decide as Hl; [by apply nil_length_inv in Hl|]. split; [done|by intros ->].
  - intros ck' rck. by apply groupClerk_spec.
  - intros c Hc. unfold loadConfig. destruct queried as [q|]; simpl; [|exists c; split; [done|lia]].
    rewrite Hc. destruct (Z.leb_spec (sc_Num c) (sc_Num q)); eexists; (split; [done|]); simpl; lia.
  - intros c'. unfold loadConfig. by destruct queried.
Qed.

(** ** An instance

    A clerk of three servers, before its first call. *)

Definition ex_cworld : cworld := mkCworld {[0 := (["a"; "b"; "c"], 2%Z)]} Client_zero ∅ None.

Lemma ex_cworld_inv : cinv ex_cworld.
Proof.
  constructor; simpl.
  - intros h servers leader [<- [= <- <-]]%lookup_singleton_Some. unfold zlen. simpl. lia.
  - apply client_inv_zero.
  - done.
  - done.
Qed.

Lemma ex_cworld_clerk : has_clerk ex_cworld 0 ["a"; "b"; "c"].
Proof. exists 2%Z. reflexivity. Qed.

Lemma kvraft_put_discipline_witness :
  ~ panics cenv canswer (kvraft_Clerk_Put 5 0 ["a"; "b"; "c"] "k" "v" 0) ex_cworld.
Proof.
  apply (kvraft_put_discipline 5 0 ["a"; "b"; "c"] "k" "v" 0 ex_cworld ex_cworld_inv eq_refl ex_cworld_clerk).
Defined.

Lemma shardkv_put_discipline_witness : ~ panics cenv canswer (shardkv_Clerk_Put 5 5 "k" "v" 0) ex_cworld.
Proof. apply (shardkv_put_discipline 5 5 "k" "v" 0 ex_cworld ex_cworld_inv eq_refl). Defined.

Lemma MakeShardClerk_wf : clerks_wf MakeShardClerk ∅.
Proof.
  split; simpl.
  - intros gid rck H. by rewrite lookup_empty in H.
  - intros rck. rewrite lookup_empty. split; [by intros [? ?]|lia].
Qed.

Lemma shard_clerk_cache_witness : groupClerk 1 [] MakeShardClerk = None.
Proof. apply (proj1 (shard_clerk_cache 1 [] None MakeShardClerk ∅ MakeShardClerk_wf)). reflexivity. Defined.
