(* ===== verification/ClerkSystem.v ===== *)
(** * Clerks on a service

    Clerk objects with calls side by side, the programs of the calls effect by effect,
    their requests in flight, and a service that executes requests: what is common to
    the clerks of the replicated store ([KvSystem]) and of the sharded one
    ([ShardSystem]), each an instance of the two interfaces [ClerkObject] and
    [Service].  A history of the calls is linearizable when it is one of a single
    conditional store. *)

From S2P Require Import Prelude.
From S2P Require Import Rpc.
From S2P Require Import KvSpec.
From S2P Require Import Dedup.
From S2P Require Import Rsm.
From S2P Require Import RsmLinear.
From S2P Require Import ShardCfg.
From S2P Require Import ShardGrp.
From S2P Require Import Prog.
From S2P Require Import Clerk.

(** ** Calls of a clerk and the store they see *)

Inductive kv_call : Type :=
  | CallGet (key : string)
  | CallPut (key value : string) (version : Tversion).

Inductive kv_res : Type :=
  | GetRes (value : string) (version : Tversion) (err : Err)
  | PutRes (err : Err).

(** One call on the conditional store. *)
Definition spec_call (c : kv_call) (m : kvmap) : kvmap * kv_res :=
  match c with
  | CallGet key => let '(v, ver, e) := spec_get m key in (m, GetRes v ver e)
  | CallPut key value version => let '(m', e) := spec_put m (mkPutArgs key value version 0 0 0) in (m', PutRes e)
  end.

Definition put_call (a : PutArgs) : kv_call := CallPut (pa_Key a) (pa_Value a) (pa_Version a).

Lemma spec_put_call m a : spec_call (put_call a) m = ((spec_put m a).1, PutRes (spec_put m a).2).
Proof. unfold spec_call, put_call, spec_put. simpl. by cases. Qed.

(** A call with its number and its result. *)
Abbreviation kv_done := (nat * kv_call * kv_res)%type.

Fixpoint spec_calls (lin : list kv_done) (m m' : kvmap) : Prop :=
  match lin with
  | [] => m' = m
  | (_, c, r) :: lin' => exists m1, spec_call c m = (m1, r) /\ spec_calls lin' m1 m'
  end.

Lemma spec_calls_app l1 : forall l2 m m1 m2,
  spec_calls l1 m m1 -> spec_calls l2 m1 m2 -> spec_calls (l1 ++ l2) m m2.
Proof.
  induction l1 as [|[[o c] r] l1 IH]; intros l2 m m1 m2 H1 H2; simpl in *; [by subst|].
  destruct H1 as (m3 & Hc & H1). eauto.
Qed.

(** ** Histories of calls *)

Inductive kv_event : Type :=
  | CInv (o : nat) (c : kv_call)
  | CRet (o : nat) (r : kv_res).

(** Call [a] returned before [b] was made. *)
Definition call_precedes (h : list kv_event) (a b : nat) : Prop :=
  exists h1 h2 h3 r c, h = h1 ++ CRet a r :: h2 ++ CInv b c :: h3.

(** [h] is a history of one conditional store with the values [m]: the calls of
    [lin], each made in [h] and with its result, are the store's one after the other;
    all that returned are among them, and their order respects that of the calls. *)
Definition kv_linearizable (m : kvmap) (h : list kv_event) : Prop :=
  exists lin m', spec_calls lin m m' /\ NoDup lin.*1.*1 /\
    (forall o c r, (o, c, r) ∈ lin -> CInv o c ∈ h) /\
    (forall o r, CRet o r ∈ h -> exists c, (o, c, r) ∈ lin) /\
    forall a b j k, call_precedes h a b -> lin.*1.*1 !! j = Some a -> lin.*1.*1 !! k = Some b -> j < k.

#[global] Instance FreezeShardArgs_eq_dec : EqDecision FreezeShardArgs.
Proof. solve_decision. Defined.

#[global] Instance InstallShardArgs_eq_dec : EqDecision InstallShardArgs.
Proof. solve_decision. Defined.

#[global] Instance DeleteShardArgs_eq_dec : EqDecision DeleteShardArgs.
Proof. solve_decision. Defined.

#[global] Instance rpc_call_eq_dec : EqDecision rpc_call.
Proof. solve_decision. Defined.

#[global] Instance Op_eq_dec {Req} `{EqDecision Req} : EqDecision (Op Req).
Proof. solve_decision. Defined.

(** ** Results *)

(** The answers a call returns with; other ones make it go on. *)
Definition definite (e : Err) : Prop := e = OK \/ e = ErrNoKey \/ e = ErrVersion.

Definition refused (e : Err) : Prop := e = ErrWrongLeader \/ e = ErrWrongGroup.

#[global] Instance definite_dec e : Decision (definite e).
Proof. unfold definite. apply _. Defined.

(** What a reply tells a call to return, if anything. *)
Definition result_of (c : rpc_call) : rpc_reply c -> option kv_res :=
  match c with
  | RGet _ => fun r => if decide (gr_Err r = OK \/ gr_Err r = ErrNoKey)
                       then Some (GetRes (gr_Value r) (gr_Version r) (gr_Err r)) else None
  | RPut _ => fun r => if decide (definite (pr_Err r)) then Some (PutRes (pr_Err r)) else None
  | _ => fun _ => None
  end.

(** ** The interfaces *)

(** The object of a clerk: the group clerks with their servers and leaders, the
    numbering of its writes, the sequence numbers completed; what an effect does to it,
    given what is drawn at random or queried elsewhere; and the program of a call. *)
Class ClerkObject (Obj : Type) := {
  ob_input : Type;
  ob_clerks : Obj -> gmap nat (list string * Z);
  ob_client : Obj -> Client;
  ob_done : Obj -> gset N;
  ob_do : ob_input -> forall e : ck_eff, Obj -> option (Obj * ck_resp e);
  ob_prog : nat -> Obj -> kv_call -> ck_prog kv_res;
}.

(** A service: its steps, the history of the operations submitted to it with what was
    returned for them, the remote call a request is submitted for, and the reply its handler
    makes of what was returned. *)
Class Service (Y Req Rep : Type) := {
  sv_step : Y -> Y -> Prop;
  sv_hist : Y -> list (hevent Req Rep);
  sv_call : Req -> option rpc_call;
  sv_handler : forall c : rpc_call, Err * option Rep -> option (rpc_reply c);
}.

(** ** The system *)

(** A call of a clerk: what is left of its program, nothing when it has returned;
    the request it waits for; the identity it drew; and the operation that last gave
    it a result. *)
Record call_state {Req : Type} : Type := mkCallState {
  ca_clerk : nat;
  ca_call : kv_call;
  ca_prog : option (ck_prog kv_res);
  ca_wait : option nat;
  ca_id : option (N * N);
  ca_got : option (Op Req * kv_res);
}.

Arguments call_state : clear implicits.

Definition go_on {Req} (p : ck_prog kv_res) (id : option (N * N)) (got : option (Op Req * kv_res)) (ca : call_state Req)
    : call_state Req :=
  mkCallState _ (ca_clerk ca) (ca_call ca) (Some p) None id got.

Definition begun (e : ck_eff) : ck_resp e -> option (N * N) -> option (N * N) :=
  match e with EBegin => fun r _ => Some r | _ => fun _ id => id end.

Section ClerkSystem.
Context {Obj : Type} `{CO : ClerkObject Obj} {Y Req Rep : Type} `{SV : Service Y Req Rep}.

(** The service, the clerks, their calls, every request ever sent with its call, the
    requests the operations of the service serve, and the history. *)
Record LSys : Type := mkLSys {
  l_sys : Y;
  l_clerks : list Obj;
  l_calls : list (call_state Req);
  l_msgs : list (nat * rpc_call);
  l_from : list (Op Req * nat);
  l_hist : list kv_event;
}.

(** Clerks draw different identities. *)
Definition ids_distinct (clerks : list Obj) : Prop :=
  forall i j ob ob', clerks !! i = Some ob -> clerks !! j = Some ob' ->
    dc_id (ob_client ob) = dc_id (ob_client ob') -> dc_id (ob_client ob) <> 0%N -> i = j.

Definition new_call (i fuel : nat) (ob : Obj) (c : kv_call) : call_state Req :=
  mkCallState _ i c (Some (ob_prog fuel ob c)) None None None.

Definition result (op : Op Req) (c : rpc_call) (reply : rpc_reply c) (got : option (Op Req * kv_res))
    : option (Op Req * kv_res) :=
  match result_of c reply with Some r => Some (op, r) | None => got end.

Definition waiting (k : nat) (ca : call_state Req) : call_state Req :=
  mkCallState _ (ca_clerk ca) (ca_call ca) (ca_prog ca) (Some k) (ca_id ca) (ca_got ca).

Definition returned (ca : call_state Req) : call_state Req :=
  mkCallState _ (ca_clerk ca) (ca_call ca) None None (ca_id ca) (ca_got ca).

(** Call [o] gets an answer and goes on. *)
Definition resume (o : nat) (p : ck_prog kv_res) (got : option (Op Req * kv_res)) (ca : call_state Req) (w : LSys) : LSys :=
  mkLSys (l_sys w) (l_clerks w) (<[o := go_on p (ca_id ca) got ca]> (l_calls w)) (l_msgs w) (l_from w) (l_hist w).

Definition no_inv (h : list (hevent Req Rep)) : Prop := forall op, Inv op ∉ h.

(** A request may reach the service any number of times, or never; a call may stop
    waiting at any time. *)
Inductive lsys_step (w : LSys) : LSys -> Prop :=
  | L_server y l : sv_step (l_sys w) y -> sv_hist y = sv_hist (l_sys w) ++ l -> no_inv l ->
      lsys_step w (mkLSys y (l_clerks w) (l_calls w) (l_msgs w) (l_from w) (l_hist w))
  | L_deliver y k o c op l : l_msgs w !! k = Some (o, c) -> sv_step (l_sys w) y ->
      sv_hist y = sv_hist (l_sys w) ++ Inv op :: l -> no_inv l -> sv_call (op_Req op) = Some c ->
      lsys_step w (mkLSys y (l_clerks w) (l_calls w) (l_msgs w) ((op, k) :: l_from w) (l_hist w))
  | L_call i ob fuel c : l_clerks w !! i = Some ob ->
      lsys_step w (mkLSys (l_sys w) (l_clerks w) (l_calls w ++ [new_call i fuel ob c])
        (l_msgs w) (l_from w) (l_hist w ++ [CInv (length (l_calls w)) c]))
  | L_object o ca ob e k inp ob' r :
      l_calls w !! o = Some ca -> ca_prog ca = Some (Call e k) -> l_clerks w !! ca_clerk ca = Some ob ->
      ob_do inp e ob = Some (ob', r) -> ids_distinct (<[ca_clerk ca := ob']> (l_clerks w)) ->
      lsys_step w (mkLSys (l_sys w) (<[ca_clerk ca := ob']> (l_clerks w))
        (<[o := go_on (k r) (begun e r (ca_id ca)) (ca_got ca) ca]> (l_calls w)) (l_msgs w) (l_from w) (l_hist w))
  | L_send o ca s c k :
      l_calls w !! o = Some ca -> ca_prog ca = Some (Call (ERpc s c) k) -> ca_wait ca = None ->
      lsys_step w (mkLSys (l_sys w) (l_clerks w) (<[o := waiting (length (l_msgs w)) ca]> (l_calls w))
        (l_msgs w ++ [(o, c)]) (l_from w) (l_hist w))
  | L_lost o ca s c k :
      l_calls w !! o = Some ca -> ca_prog ca = Some (Call (ERpc s c) k) -> is_Some (ca_wait ca) ->
      lsys_step w (resume o (k None) (ca_got ca) ca w)
  | L_stopped o ca s c k reply :
      (* a server that is stopped, or not the leader, answers at once *)
      l_calls w !! o = Some ca -> ca_prog ca = Some (Call (ERpc s c) k) -> is_Some (ca_wait ca) ->
      sv_handler c (ErrWrongLeader, None) = Some reply ->
      lsys_step w (resume o (k (Some reply)) (ca_got ca) ca w)
  | L_answer o ca s c k x op res reply :
      l_calls w !! o = Some ca -> ca_prog ca = Some (Call (ERpc s c) k) -> ca_wait ca = Some x ->
      (op, x) ∈ l_from w -> RsmLinear.Ret op res ∈ sv_hist (l_sys w) -> sv_handler c res = Some reply ->
      lsys_step w (resume o (k (Some reply)) (result op c reply (ca_got ca)) ca w)
  | L_return o ca r :
      l_calls w !! o = Some ca -> ca_prog ca = Some (Ret r) ->
      lsys_step w (mkLSys (l_sys w) (l_clerks w) (<[o := returned ca]> (l_calls w))
        (l_msgs w) (l_from w) (l_hist w ++ [CRet o r])).

(** Nothing was called yet. *)
Definition lsys_fresh (w : LSys) : Prop := l_calls w = [] /\ l_msgs w = [] /\ l_from w = [] /\ l_hist w = [].

End ClerkSystem.

Arguments LSys : clear implicits.
