(* ===== verification/StoreOrder.v ===== *)
(** * From the executions of a store to an order of its clients' calls

    A put may be executed many times by a service that keeps a table of replies, and a
    get that was retried too.  [store_history] says what the executions of a service,
    one after the other, must be for it to be one conditional store; [order_of_history]
    picks the place at which each call took effect and shows that the calls, in the
    order of these places, are those of the store. *)

From S2P Require Import Prelude.
From S2P Require Import Rpc.
From S2P Require Import KvSpec.
From S2P Require Import Dedup.
From S2P Require Import KvRaft.
From S2P Require Import Clerk.
From S2P Require Import ClerkSystem.

(** ** Executions *)

(** A get or a put with its reply. *)
Inductive s_event : Type :=
  | SGet (args : GetArgs) (reply : GetReply)
  | SPut (args : PutArgs) (reply : PutReply).

Definition s_call (e : s_event) : rpc_call := match e with SGet a _ => RGet a | SPut a _ => RPut a end.

Definition s_refused (e : s_event) : Prop :=
  match e with SGet _ r => refused (gr_Err r) | SPut _ r => refused (pr_Err r) end.

Definition s_puts (h : list s_event) : list PutArgs := omap (fun e => match e with SPut a _ => Some a | _ => None end) h.

(** A put of the client acknowledged [a]. *)
Definition acked (l : list PutArgs) (a : PutArgs) : Prop :=
  exists b, b ∈ l /\ pa_ClientID b = pa_ClientID a /\ (pa_Sequence a <= pa_Ack b)%N.

(** Executions of one store that starts with [m0]: a refused request has no effect, a
    get reads the values, a put is executed once for its key and repeated with its reply,
    and is refused as stale only after it was acknowledged. *)
Inductive store_history (m0 : kvmap) : list s_event -> list (PutArgs * PutReply) -> kvmap -> Prop :=
  | ST_nil : store_history m0 [] [] m0
  | ST_refused h execs m e : store_history m0 h execs m -> s_refused e -> store_history m0 (h ++ [e]) execs m
  | ST_get h execs m a v ver e : store_history m0 h execs m -> spec_get m (ga_Key a) = (v, ver, e) ->
      store_history m0 (h ++ [SGet a (mkGetReply v ver e)]) execs m
  | ST_put h execs m a m' r : store_history m0 h execs m -> spec_apply a m = Some (m', r) ->
      (pa_ClientID a <> 0%N -> forall b x, (b, x) ∈ execs -> put_id b = put_id a -> pa_Key b <> pa_Key a) ->
      store_history m0 (h ++ [SPut a r]) (execs ++ [(a, r)]) m'
  | ST_again h execs m a r b : store_history m0 h execs m -> (b, r) ∈ execs -> put_id b = put_id a ->
      store_history m0 (h ++ [SPut a r]) execs m
  | ST_stale h execs m a : store_history m0 h execs m -> acked (s_puts (h ++ [SPut a (mkPutReply ErrStaleRequest)])) a ->
      store_history m0 (h ++ [SPut a (mkPutReply ErrStaleRequest)]) execs m.

Lemma s_puts_app h1 h2 : s_puts (h1 ++ h2) = s_puts h1 ++ s_puts h2.
Proof. apply omap_app. Qed.

Lemma s_puts_elem h b : b ∈ s_puts h -> exists j r, h !! j = Some (SPut b r).
Proof.
  intros (e & Hin & He)%list_elem_of_omap. apply list_elem_of_lookup in Hin as [j Hj].
  destruct e as [|a r]; [done|]. injection He as ->. eauto.
Qed.

Lemma acked_app l1 l2 a : acked l1 a -> acked (l1 ++ l2) a.
Proof. intros (b & Hin & ?). exists b. split; [apply elem_of_app; by left|done]. Qed.

(** What the replies are. *)
Definition s_reply_ok (h : list s_event) (e : s_event) : Prop :=
  match e with
  | SGet _ r => gr_Err r = OK \/ gr_Err r = ErrNoKey \/ refused (gr_Err r)
  | SPut a r => definite (pr_Err r) \/ refused (pr_Err r) \/ acked (s_puts h) a
  end.

Lemma history_replies m0 h execs m :
  store_history m0 h execs m -> (forall e, e ∈ h -> s_reply_ok h e) /\ forall a r, (a, r) ∈ execs -> definite (pr_Err r).
Proof.
  assert (forall h e e', s_reply_ok h e -> s_reply_ok (h ++ [e']) e) as Hmore.
  { intros h0 [a r|a r] e'; simpl; [done|]. intros [?|[?|?]]; auto. right. right. rewrite s_puts_app. by apply acked_app. }
  induction 1 as [|h execs m e H [IH1 IH2] Hr|h execs m a v ver e H [IH1 IH2] Hg|h execs m a m' r H [IH1 IH2] Hp Hf
    |h execs m a r b H [IH1 IH2] Hin Hid|h execs m a H [IH1 IH2] Hs].
  - split; [by intros e ?%not_elem_of_nil|by intros a r ?%not_elem_of_nil].
  - split; [|done]. intros e' [He| ->%list_elem_of_singleton]%elem_of_app; [by apply Hmore, IH1|].
    by destruct e; simpl; auto.
  - split; [|done]. intros e' [He| ->%list_elem_of_singleton]%elem_of_app; [by apply Hmore, IH1|].
    unfold spec_get in Hg. simpl. destruct (m !! ga_Key a); injection Hg as <- <- <-; auto.
  - injection Hp as <- <-. pose proof (spec_put_err m a) as Hd. split.
    + intros e' [He| ->%list_elem_of_singleton]%elem_of_app; [by apply Hmore, IH1|]. simpl. by left.
    + intros a0 r0 [?|[= -> ->]%list_elem_of_singleton]%elem_of_app; [eauto|done].
  - split; [|done]. intros e' [He| ->%list_elem_of_singleton]%elem_of_app; [by apply Hmore, IH1|]. simpl. left. eauto.
  - split; [|done]. intros e' [He| ->%list_elem_of_singleton]%elem_of_app; [by apply Hmore, IH1|]. simpl. auto.
Qed.

(** ** The places of the calls *)

Section places.
(** The call the execution at a place serves: every put serves one, a get only if its
    reply was the one the clerk took. *)
Context (m0 : kvmap) (who : nat -> option (nat * kv_call)).

Definition calls_known (h : list s_event) : Prop :=
  (forall k e, h !! k = Some e ->
    match e with
    | SPut a _ => pa_ClientID a <> 0%N /\ exists o, who k = Some (o, put_call a)
    | SGet a _ => forall o c, who k = Some (o, c) -> c = CallGet (ga_Key a)
    end) /\
  (* one identity is that of one key *)
  forall i j a b x y, h !! i = Some (SPut a x) -> h !! j = Some (SPut b y) -> put_id a = put_id b -> pa_Key a = pa_Key b.

(** The calls that took effect, each with its place. *)
Record placed (h : list s_event) (execs : list (PutArgs * PutReply)) (lin : list (nat * kv_done)) (m : kvmap) : Prop := {
  pl_sorted : StronglySorted lt lin.*1;
  pl_run : spec_calls lin.*2 m0 m;
  pl_who : forall j o c r, (j, (o, c, r)) ∈ lin -> j < length h /\ who j = Some (o, c);
  pl_put : forall a r, (a, r) ∈ execs -> exists j x o, h !! j = Some (SPut a x) /\
    (j, (o, put_call a, PutRes (pr_Err r))) ∈ lin;
  pl_execs : forall j d a x, (j, d) ∈ lin -> h !! j = Some (SPut a x) -> exists r, (a, r) ∈ execs;
  pl_once : forall j j' d d' a a' x x', (j, d) ∈ lin -> (j', d') ∈ lin ->
    h !! j = Some (SPut a x) -> h !! j' = Some (SPut a' x') -> put_id a = put_id a' -> j = j';
  pl_get : forall k a r o c, h !! k = Some (SGet a r) -> (gr_Err r = OK \/ gr_Err r = ErrNoKey) -> who k = Some (o, c) ->
    (k, (o, c, GetRes (gr_Value r) (gr_Version r) (gr_Err r))) ∈ lin;
  pl_answer : forall k a r, h !! k = Some (SPut a r) -> definite (pr_Err r) ->
    exists j a' x o, j <= k /\ h !! j = Some (SPut a' x) /\ put_id a' = put_id a /\
      (j, (o, put_call a', PutRes (pr_Err r))) ∈ lin;
}.

(** One more execution [e], at which the calls [new] - one or none - took effect. *)
Lemma placed_extend h execs lin m e more new m' :
  placed h execs lin m ->
  (new = [] \/ exists d, new = [d] /\ who (length h) = Some d.1) -> spec_calls new m m' ->
  (forall a r, (a, r) ∈ more -> (exists x, e = SPut a x) /\ exists o, (o, put_call a, PutRes (pr_Err r)) ∈ new) ->
  (forall a d x, d ∈ new -> e = SPut a x -> (exists r, (a, r) ∈ more) /\
     forall a' r', (a', r') ∈ execs -> put_id a' <> put_id a) ->
  (forall a r o c, e = SGet a r -> (gr_Err r = OK \/ gr_Err r = ErrNoKey) -> who (length h) = Some (o, c) ->
     (o, c, GetRes (gr_Value r) (gr_Version r) (gr_Err r)) ∈ new) ->
  (forall a r, e = SPut a r -> definite (pr_Err r) -> exists b, (b, r) ∈ execs ++ more /\ put_id b = put_id a) ->
  placed (h ++ [e]) (execs ++ more) (lin ++ ((fun d => (length h, d)) <$> new)) m'.
Proof.
  intros HP Hnew Hrun Hput Hex Hget Hans.
  assert (forall j d, (j, d) ∈ lin -> j < length h) as Hlt by (intros j [[o c] r] Hin; by eapply (pl_who _ _ _ _ HP)).
  assert (forall j d, (j, d) ∈ lin ++ ((fun d => (length h, d)) <$> new) ->
    ((j, d) ∈ lin /\ j < length h) \/ (j = length h /\ d ∈ new)) as Hin.
  { intros j d [?|(d' & [= -> ->] & ?)%list_elem_of_fmap]%elem_of_app; eauto. }
  assert (forall j x, j < length h -> (h ++ [e]) !! j = Some x -> h !! j = Some x) as Hold.
  { intros j x Hj. by rewrite lookup_app_l. }
  assert ((h ++ [e]) !! length h = Some e) as Hlast by (by apply list_lookup_middle).
  assert (forall a r, (a, r) ∈ execs ++ more -> exists j x o, (h ++ [e]) !! j = Some (SPut a x) /\
    (j, (o, put_call a, PutRes (pr_Err r))) ∈ lin ++ ((fun d => (length h, d)) <$> new)) as Hputs.
  { intros a r [Ha|Ha]%elem_of_app.
    - destruct (pl_put _ _ _ _ HP _ _ Ha) as (j & x & o & ? & ?). exists j, x, o.
      split; [by apply lookup_app_l_Some|apply elem_of_app; by left].
    - destruct (Hput _ _ Ha) as ([x ->] & o & Ho). exists (length h), x, o. split; [done|].
      apply elem_of_app. right. apply list_elem_of_fmap. eauto. }
  constructor; [| | |done| | | |].
  - rewrite fmap_app. destruct Hnew as [->|(d & -> & _)]; simpl; [rewrite app_nil_r; apply HP|].
    apply sorted_snoc; [apply HP|]. intros j ([j' d'] & -> & ?)%list_elem_of_fmap. by eapply Hlt.
  - rewrite fmap_app, <- list_fmap_compose. eapply spec_calls_app; [apply HP|]. simpl.
    rewrite (list_fmap_ext _ id new) by done. by rewrite list_fmap_id.
  - rewrite length_app. simpl. intros j o c r [[Hj ?]|[-> Hd]]%Hin.
    + split; [lia|]. by eapply (pl_who _ _ _ _ HP).
    + split; [lia|]. destruct Hnew as [->|(d & -> & Hw)]; [by apply not_elem_of_nil in Hd|].
      by apply list_elem_of_singleton in Hd as <-.
  - intros j d a x [[Hj Hl]|[-> Hd]]%Hin Ha.
    + destruct (pl_execs _ _ _ _ HP _ _ _ _ Hj (Hold _ _ Hl Ha)) as [r ?]. exists r. apply elem_of_app. by left.
    + rewrite Hlast in Ha. injection Ha as ->. destruct (Hex _ _ _ Hd eq_refl) as [[r ?] _]. exists r.
      apply elem_of_app. by right.
  - intros j j' d d' a a' x x' [[Hj Hl]|[-> Hd]]%Hin [[Hj' Hl']|[-> Hd']]%Hin H1 H2 He.
    + eapply (pl_once _ _ _ _ HP); eauto.
    + rewrite Hlast in H2. injection H2 as ->. exfalso.
      destruct (pl_execs _ _ _ _ HP _ _ _ _ Hj (Hold _ _ Hl H1)) as [r Hr].
      destruct (Hex _ _ _ Hd' eq_refl) as [_ Hf]. by eapply Hf.
    + rewrite Hlast in H1. injection H1 as ->. exfalso.
      destruct (pl_execs _ _ _ _ HP _ _ _ _ Hj' (Hold _ _ Hl' H2)) as [r Hr].
      destruct (Hex _ _ _ Hd eq_refl) as [_ Hf]. by eapply Hf.
    + done.
  - intros k a r o c [Hk|[-> [= <-]]]%lookup_snoc_cases Hd Hw; apply elem_of_app.
    + left. by eapply (pl_get _ _ _ _ HP).
    + right. apply list_elem_of_fmap. eauto.
  - intros k a r [Hk|[-> [= <-]]]%lookup_snoc_cases Hd.
    + destruct (pl_answer _ _ _ _ HP _ _ _ Hk Hd) as (j & a' & x & o & ? & ? & ? & ?). exists j, a', x, o.
      split_and!; [done|by apply lookup_app_l_Some|done|apply elem_of_app; by left].
    + destruct (Hans _ _ eq_refl Hd) as (b & Hb & Hi). destruct (Hputs _ _ Hb) as (j & x & o & Hj & ?).
      exists j, b, x, o. split_and!; [|done|done|done]. apply lookup_lt_Some in Hj. rewrite length_app in Hj. simpl in Hj. lia.
Qed.

(** An execution without effect. *)
Lemma placed_same h execs lin m e :
  placed h execs lin m ->
  (forall a r, e = SGet a r -> ~ (gr_Err r = OK \/ gr_Err r = ErrNoKey)) ->
  (forall a r, e = SPut a r -> definite (pr_Err r) -> exists b, (b, r) ∈ execs /\ put_id b = put_id a) ->
  placed (h ++ [e]) execs lin m.
Proof.
  intros HP Hg Ha. rewrite <- (app_nil_r execs), <- (app_nil_r lin).
  apply (placed_extend h execs lin m e [] [] m HP); [by left|done|by intros ? ? ?%not_elem_of_nil
    |by intros ? ? ? ?%not_elem_of_nil|by intros a r o c He Hd; apply Hg in He|].
  intros a r He Hd. rewrite app_nil_r. by eapply Ha.
Qed.

(** Every history whose calls are known has such places. *)
Lemma order_of_history h execs m : store_history m0 h execs m -> calls_known h -> exists lin, placed h execs lin m.
Proof.
  assert (forall h e, calls_known (h ++ [e]) -> calls_known h) as Hcut.
  { intros h0 e0 [HC HK]. split; [intros k e Hk; apply HC; by apply lookup_app_l_Some|].
    intros i j a b x y Hi Hj. by eapply HK; apply lookup_app_l_Some. }
  assert (forall (h : list s_event) e, (h ++ [e]) !! length h = Some e) as Hat by (intros; by apply list_lookup_middle).
  induction 1 as [|h execs m e H IH Hr|h execs m a v ver e H IH Hg|h execs m a m' r H IH Hp Hf
    |h execs m a r b H IH Hin Hid|h execs m a H IH Hs]; intros HC.
  { exists []. constructor; [constructor|done|..]; intros; try done;
      match goal with H : _ ∈ [] |- _ => by apply not_elem_of_nil in H end. }
  all: destruct (IH (Hcut _ _ HC)) as [lin HP]; destruct HC as [HC HK]; specialize (HC _ _ (Hat h _)); simpl in HC.
  - exists lin. apply placed_same; [done| |].
    + intros a r -> Hd. unfold s_refused, refused in Hr. destruct Hr as [E|E]; rewrite E in Hd; by destruct Hd.
    + intros a r -> Hd. unfold s_refused, refused, definite in *. destruct Hr as [E|E]; rewrite E in Hd; by destruct Hd as [?|[?|?]].
  - exists (lin ++ ((fun d => (length h, d)) <$> match who (length h) with Some oc => [(oc, GetRes v ver e)] | None => [] end)).
    rewrite <- (app_nil_r execs). eapply placed_extend; [exact HP| | | | | |].
    + destruct (who (length h)) as [oc|]; [right|by left]. by exists (oc, GetRes v ver e).
    + destruct (who (length h)) as [[o c]|] eqn:Hw; simpl; [|done]. exists m. split; [|done].
      rewrite (HC o c eq_refl). simpl. by rewrite Hg.
    + by intros ? ? ?%not_elem_of_nil.
    + intros ? ? ? ? [=].
    + intros a0 r0 o c [= <- <-] _ Hw. rewrite Hw. left.
    + intros ? ? [=].
  - destruct HC as (Hid & o & Hw). exists (lin ++ ((fun d => (length h, d)) <$> [(o, put_call a, PutRes (pr_Err r))])).
    eapply placed_extend; [exact HP| | | | | |].
    + right. by exists (o, put_call a, PutRes (pr_Err r)).
    + injection Hp as <- <-. exists (spec_put m a).1. split; [apply spec_put_call|done].
    + intros a0 r0 [= -> ->]%list_elem_of_singleton. split; [eauto|]. exists o. left.
    + intros a0 d x _ [= <- <-]. split; [exists r; left|]. intros a' r' Hin Hi.
      apply (Hf Hid _ _ Hin Hi). destruct (pl_put _ _ _ _ HP _ _ Hin) as (j & y & _ & Hj & _).
      eapply HK; [by apply lookup_app_l_Some|apply Hat|done].
    + intros ? ? ? ? [=].
    + intros a0 r0 [= <- <-] _. exists a. split; [|done]. apply elem_of_app. right. left.
  - exists lin. apply placed_same; [done|by intros ? ? [=]|]. intros a0 r0 [= <- <-] _. eauto.
  - exists lin. apply placed_same; [done|by intros ? ? [=]|]. intros a0 r0 [= <- <-] [?|[?|?]]; done.
Qed.

End places.

(** ** Watermarks

    The watermarks of a table are those of puts executed, and no reply is a refusal. *)
Definition acks_from (l : list PutArgs) (t : Table) : Prop :=
  forall id ses, default ∅ (Sessions t) !! id = Some ses ->
    (ss_Ack ses = 0%N \/ exists b, b ∈ l /\ pa_ClientID b = id /\ (ss_Ack ses <= pa_Ack b)%N) /\
    forall q r, map_get (ss_Replies ses) q = Some r -> pr_Err r <> ErrStaleRequest.

Lemma acks_from_zero l : acks_from l Table_zero.
Proof. intros id ses H. simpl in H. by rewrite lookup_empty in H. Qed.

Lemma acks_from_more l l' t : acks_from l t -> acks_from (l ++ l') t.
Proof.
  intros HA id ses Hs. destruct (HA _ _ Hs) as [[?|(b & Hb & ?)] ?]; (split; [|done]); [by left|right].
  exists b. split; [apply elem_of_app; by left|done].
Qed.

Lemma raised_acks l t a : acks_from l t ->
  (ss_Ack (raised t a) = 0%N \/ exists b, b ∈ l ++ [a] /\ pa_ClientID b = pa_ClientID a /\ (ss_Ack (raised t a) <= pa_Ack b)%N) /\
  forall q r, map_get (ss_Replies (raised t a)) q = Some r -> pr_Err r <> ErrStaleRequest.
Proof.
  intros HA. unfold raised. destruct (default ∅ (Sessions t) !! pa_ClientID a) as [ses|] eqn:E; cbn [default from_option].
  - destruct (HA _ _ E) as [Hs Hr]. destruct (_ <? _)%N; cbn [ss_Ack ss_Replies].
    + split; [right; exists a; split_and!; [apply elem_of_app; right; left|done|done]|].
      intros q r. rewrite prune_get. case_decide; [done|apply Hr].
    + split; [|done]. destruct Hs as [?|(b & Hb & ?)]; [by left|right]. exists b. split; [apply elem_of_app; by left|done].
  - destruct (_ <? _)%N; cbn [ss_Ack ss_Replies].
    + split; [right; exists a; split_and!; [apply elem_of_app; right; left|done|done]|].
      intros q r. rewrite prune_get. case_decide; [done|]. by rewrite map_get_make.
    + split; [by left|]. intros q r. by rewrite map_get_make.
Qed.

Lemma acks_from_session l t i ses :
  acks_from l t -> (ss_Ack ses = 0%N \/ exists b, b ∈ l /\ pa_ClientID b = i /\ (ss_Ack ses <= pa_Ack b)%N) ->
  (forall q r, map_get (ss_Replies ses) q = Some r -> pr_Err r <> ErrStaleRequest) -> acks_from l (with_session t i ses).
Proof.
  intros HA Hs Hr id ses'. simpl. rewrite lookup_insert. case_decide as Hi; [|apply HA].
  intros [= <-]. by rewrite <- Hi.
Qed.

(** The table after a put, and why the put was refused. *)
Lemma Table_Do_acks l t a m t' m' r :
  acks_from l t -> Table_Do t a (spec_apply a) m = Some (t', m', r) ->
  acks_from (l ++ [a]) t' /\ (pr_Err r = ErrStaleRequest -> acked (l ++ [a]) a).
Proof.
  intros HA Hd. pose proof (acks_from_more _ [a] _ HA) as HA'. pose proof (raised_acks _ _ a HA) as [Hra Hrr].
  assert (a ∈ l ++ [a]) as Hin by (apply elem_of_app; right; left).
  assert ((spec_put m a).2 <> ErrStaleRequest) as Hspec by (by destruct (spec_put_err m a) as [->|[->| ->]]).
  unfold Table_Do in Hd. destruct (N.eqb_spec (pa_ClientID a) 0) as [Hz|Hid].
  { injection Hd as <- _ <-. split; [done|]. by intros ?%Hspec. }
  destruct (_ || _) eqn:Hs.
  { injection Hd as <- _ <-. split; [done|]. intros _. exists a. split_and!; [done|done|].
    apply orb_true_iff in Hs as [?%N.eqb_eq|?%N.leb_le]; lia. }
  fold (raised t a) in Hd. fold (with_session t (pa_ClientID a) (raised t a)) in Hd.
  destruct (N.leb_spec (pa_Sequence a) (ss_Ack (raised t a))) as [Hle|Hgt].
  { injection Hd as <- _ <-. split; [by apply acks_from_session|]. intros _. destruct Hra as [Hz|(b & Hb & Hc & Hl)].
    - exists a. split_and!; [done|done|lia].
    - exists b. split_and!; [done|done|lia]. }
  destruct (map_get (ss_Replies (raised t a)) (pa_Sequence a)) as [x|] eqn:Hx.
  { injection Hd as <- _ <-. split; [by apply acks_from_session|]. intros He. by apply Hrr in Hx. }
  apply bind_Some in Hd as ([v2 r2] & Hp & Hd). apply bind_Some in Hd as (replies & Hm & Hd).
  injection Hd as <- _ <-. injection Hp as <- <-. split; [|by intros ?%Hspec].
  apply acks_from_session; [done|done|]. intros q x Hq. cbn [ss_Replies] in Hq.
  destruct (ss_Replies (raised t a)) as [g|]; [|done]. simpl in Hm. injection Hm as <-. simpl in Hq.
  apply lookup_insert_Some in Hq as [[_ <-]|[_ Hq]]; [done|]. by eapply Hrr.
Qed.
