(* ===== verification/ClerkLinear.v ===== *)
(** * The calls of clerks on a service are linearizable

    The invariant of [ClerkSystem] for every clerk object and service that keep their
    promises: [ClerkObjectLaws], of which most is the discipline of [ClerkSafe], and
    [ServiceLaws], of which most is that the replies of the service are those of one log
    of operations on a single store ([StoreOrder]). *)

From S2P Require Import Prelude.
From S2P Require Import Rpc.
From S2P Require Import KvSpec.
From S2P Require Import Dedup.
From S2P Require Import Rsm.
From S2P Require Import RsmLinear.
From S2P Require Import Prog.
From S2P Require Import Clerk.
From S2P Require Import ClerkSafe.
From S2P Require Import ClerkSystem.
From S2P Require Import StoreOrder.

(** ** What a program does *)

(** The call of [ClerkSafe] a call of the system is. *)
Definition own_of (c : kv_call) : PutArgs :=
  match c with CallGet key => put_of key "" 0 | CallPut key value version => put_of key value version end.

Abbreviation csafe c := (safe cenv canswer (callowed (own_of c))).

Definition any_result (w : cworld) (r : kv_res) : Prop := True.

(** The result a reply brought, kept by a call that had [got]. *)
Definition taken (c : rpc_call) (r : option (rpc_reply c)) (got : option kv_res) : option kv_res :=
  match r with Some r => match result_of c r with Some x => Some x | None => got end | None => got end.

(** What a program of a call [c] under identity [id] that has [got] a result does: it
    draws an identity at most once and sends its own request only, and then [Q]; a call
    is honest when it returns the last result. *)
Fixpoint honest_to {A} (c : kv_call) (Q : A -> option (N * N) -> option kv_res -> Prop) (p : ck_prog A)
    (id : option (N * N)) (got : option kv_res) : Prop :=
  match p with
  | Ret r => Q r id got
  | Panic | Spin => True
  | Call e k =>
      match e as e return (ck_resp e -> ck_prog A) -> Prop with
      | ERpc _ (RGet a) => fun k => c = CallGet (ga_Key a) /\ forall r, honest_to c Q (k r) id (taken (RGet a) r got)
      | ERpc _ (RPut a) => fun k => c = put_call a /\ id = Some (put_id a) /\
                             forall r, honest_to c Q (k r) id (taken (RPut a) r got)
      | ERpc _ _ => fun _ => False
      | EBegin => fun k => id = None /\ forall r, r.1 <> 0%N -> honest_to c Q (k r) (Some r) got
      | _ => fun k => forall r, honest_to c Q (k r) id got
      end k
  end.

Abbreviation honest c := (honest_to c (fun r _ got => got = Some r)).

Lemma honest_bind {A B} c (f : A -> ck_prog B) (Q : A -> _) Q' p : forall id got,
  honest_to c Q p id got -> (forall a id' got', Q a id' got' -> honest_to c Q' (f a) id' got') ->
  honest_to c Q' (prog_bind f p) id got.
Proof.
  induction p as [a| | |e k IH]; intros id got Hp Hf; simpl in *; auto.
  destruct e as [s [a|a|a|a|a]| | | | | | | | |]; try done;
    repeat match goal with H : _ /\ _ |- _ => destruct H | |- _ /\ _ => split; [done|] end; intros; apply IH; auto.
Qed.

(** ** What objects promise *)

Section view.
Context {Obj : Type} `{CO : ClerkObject Obj}.

(** The object as [ClerkSafe] sees it. *)
Definition cview (ob : Obj) (m : option N) : cworld := mkCworld (ob_clerks ob) (ob_client ob) (ob_done ob) m.
End view.

(** The sequence number under consideration, after an effect. *)
Definition mine_after (e : ck_eff) : ck_resp e -> option N -> option N :=
  match e with EBegin => fun r _ => Some r.2 | EComplete _ => fun _ _ => None | _ => fun _ m => m end.

(** An effect allowed by [ClerkSafe] is answered as there, and keeps the invariant of
    the object; programs are safe and honest. *)
Class ClerkObjectLaws (Obj : Type) `{CO : ClerkObject Obj} := {
  ob_inv : Obj -> Prop;
  ob_view ob : ob_inv ob -> cinv (cview ob None);
  ob_rpc inp s c ob : ob_do inp (ERpc s c) ob = None;
  ob_answers own m inp e ob ob' r : ob_inv ob -> cinv (cview ob m) -> callowed own (cview ob m) e ->
    ob_do inp e ob = Some (ob', r) -> ob_inv ob' /\ canswer (cview ob m) e r (cview ob' (mine_after e r m));
  ob_prog_safe fuel ob c : ob_inv ob -> csafe c (ob_prog fuel ob c) any_result (cview ob None);
  ob_prog_honest fuel ob c : honest c (ob_prog fuel ob c) None None;
}.

Section objects.
Context {Obj : Type} `{CO : ClerkObject Obj} {COL : ClerkObjectLaws Obj}.

(** The identity of a call, and its sequence number as long as it is not completed. *)
Definition id_ok (ob : Obj) (id : option (N * N)) : Prop :=
  forall i s, id = Some (i, s) -> i = dc_id (ob_client ob) /\ i <> 0%N /\ (1 <= s <= dc_next (ob_client ob))%N.

Definition mine (ob : Obj) (id : option (N * N)) : option N :=
  match id with Some (_, s) => if decide (s ∈ ob_done ob) then None else Some s | None => None end.

Lemma mine_Some ob id s : mine ob id = Some s -> (exists i, id = Some (i, s)) /\ s ∉ ob_done ob.
Proof. unfold mine. destruct id as [[i x]|]; [|done]. case_decide; [done|]. intros [= <-]. eauto. Qed.

Lemma cview_ok ob id : ob_inv ob -> id_ok ob id -> cinv (cview ob (mine ob id)).
Proof.
  intros [Hl Hc _ Hi]%ob_view Hid. constructor; [done|done| |done]. simpl. intros s [[i ->] Hd]%mine_Some.
  destruct (Hid i s eq_refl) as (_ & _ & ?). split; [done|done].
Qed.

(** What an effect leaves alone. *)
Definition object_later (ob ob' : Obj) : Prop :=
  (dc_ack (ob_client ob) <= dc_ack (ob_client ob'))%N /\ (dc_next (ob_client ob) <= dc_next (ob_client ob'))%N /\
  (dc_id (ob_client ob) <> 0%N -> dc_id (ob_client ob') = dc_id (ob_client ob)).

Lemma object_later_refl ob : object_later ob ob.
Proof. split_and!; [lia|lia|done]. Qed.

Lemma object_later_same ob ob' : ob_client ob' = ob_client ob -> object_later ob ob'.
Proof. unfold object_later. intros ->. split_and!; [lia|lia|done]. Qed.

Lemma id_ok_later ob ob' id : object_later ob ob' -> id_ok ob id -> id_ok ob' id.
Proof. intros (_ & Hn & Hi) Hid i s Hs. destruct (Hid i s Hs) as (-> & ? & ?). split_and!; [by rewrite Hi|done|lia|lia]. Qed.

(** How an effect moves the object. *)
Lemma object_moves own m e inp ob ob' r :
  ob_inv ob -> cinv (cview ob m) -> callowed own (cview ob m) e -> ob_do inp e ob = Some (ob', r) ->
  (ob_client ob' = ob_client ob /\ ob_done ob' = ob_done ob /\ mine_after e r m = m /\
     (forall id, begun e r id = id) /\ forall m', rtc cenv (cview ob m') (cview ob' m')) \/
  (exists random i s, begun e r None = Some (i, s) /\ (forall id, begun e r id = Some (i, s)) /\
     mine_after e r m = Some s /\ Begin random (ob_client ob) = Some (ob_client ob', (i, s)) /\
     ob_done ob' = ob_done ob /\ forall m', rtc cenv (cview ob m') (cview ob' m')) \/
  (exists s, m = Some s /\ mine_after e r m = None /\ (forall id, begun e r id = id) /\
     ob_client ob' = Complete s (ob_client ob) /\ ob_done ob' = {[s]} ∪ ob_done ob /\
     forall m', m' <> Some s -> rtc cenv (cview ob m') (cview ob' m')).
Proof.
  intros HO HI Ha Hd. pose proof (ob_answers _ _ _ _ _ _ _ HO HI Ha Hd) as [_ Hans].
  assert (forall w w' : cworld, w' = w -> rtc cenv w w') as Hrefl by (by intros ? ? ->).
  destruct e as [s c|h|h s|h s| | | |s|f|g sv]; simpl in Hans |- *.
  - by rewrite ob_rpc in Hd.
  - destruct Hans as [[= H1 H2 H3] _]. left. split_and!; try done. intros m'. apply Hrefl. unfold cview. congruence.
  - injection Hans as H1 H2 H3. left. split_and!; try done. destruct Ha as (sv & l & Hl & Hs). intros m'. apply rtc_once.
    replace (cview ob' m') with (set_leader h (fun _ => rememberLeader s) (cview ob m'))
      by (unfold cview, set_leader, set_clerks; simpl; congruence). by eapply cenv_remember.
  - injection Hans as H1 H2 H3. left. split_and!; try done. destruct Ha as (sv & l & Hl & Hs). intros m'. apply rtc_once.
    replace (cview ob' m') with (set_leader h (fun n => advanceLeader n s) (cview ob m'))
      by (unfold cview, set_leader, set_clerks; simpl; congruence). by eapply cenv_advance.
  - injection Hans as H1 H2 H3. left. split_and!; try done. intros m'. apply Hrefl. unfold cview. congruence.
  - destruct r as [i s], Hans as (random & c' & Hb & [= H1 H2 H3]). right. left. exists random, i, s.
    split_and!; try done; [by rewrite H2|]. intros m'. apply rtc_once. unfold cview. rewrite H1, H2, H3.
    by eapply (cenv_begin (cview ob m')).
  - destruct Hans as [[= H1 H2 H3] _]. left. split_and!; try done. intros m'. apply Hrefl. unfold cview. congruence.
  - injection Hans as H1 H2 H3. right. right. exists s. split_and!; try done.
    intros m' Hm. apply rtc_once.
    replace (cview ob' m') with (complete s m' (cview ob m')) by (unfold cview, complete; simpl; congruence).
    apply (cenv_complete (cview ob m') s); [|done]. by apply (ck_active _ HI).
  - destruct Hans as [[= H1 H2 H3] _]. left. split_and!; try done. intros m'. apply Hrefl. unfold cview. congruence.
  - destruct Hans as (l & [[Hl [= H1 H2 H3]]|(Hn & _ & [= H1 H2 H3])]); left; (split_and!; try done); intros m'.
    + apply Hrefl. unfold cview. congruence.
    + apply rtc_once.
      replace (cview ob' m') with (set_clerks (<[r := (sv, 0%Z)]> (ob_clerks ob)) (cview ob m'))
        by (unfold cview, set_clerks; simpl; congruence). by apply cenv_clerk.
Qed.

(** An allowed effect of a call is one [ClerkSafe] answers. *)
Lemma object_own own e ob ob' r inp id :
  ob_inv ob -> id_ok ob id -> callowed own (cview ob (mine ob id)) e -> ob_do inp e ob = Some (ob', r) ->
  canswer (cview ob (mine ob id)) e r (cview ob' (mine ob' (begun e r id))) /\
  ob_inv ob' /\ id_ok ob' (begun e r id) /\ object_later ob ob'.
Proof.
  intros HO Hid Ha Hd. pose proof (cview_ok _ _ HO Hid) as HI. pose proof (ob_view _ HO) as [_ HC _ Hz]. simpl in HC, Hz.
  destruct (ob_answers _ _ _ _ _ _ _ HO HI Ha Hd) as [HO' Hans].
  destruct (object_moves _ _ _ _ _ _ _ HO HI Ha Hd) as [(Hc & Hdn & Hm & Hb & _)|[(random & i & s & _ & Hb & Hm & HB & Hdn & _)|(s & Hs & Hm & Hb & Hc & Hdn & _)]];
    rewrite Hb; rewrite Hm in Hans.
  - assert (mine ob' id = mine ob id) as -> by (unfold mine; by rewrite Hdn).
    pose proof (object_later_same _ _ Hc) as Hl. split_and!; [done|done|by eapply id_ok_later|done].
  - destruct (Begin_inv _ _ _ _ _ _ HC HB) as (_ & Hs & Hn & Hnd & Hak & Hi & Hne & Hsame).
    assert (mine ob' (Some (i, s)) = Some s) as -> by (simpl; rewrite Hdn; by rewrite decide_False).
    split_and!; [done|done| |].
    + intros i' s' [= <- <-]. split_and!; [done|done|lia|lia].
    + split_and!; [lia|lia|]. intros Hne'. rewrite Hi. by apply Hsame.
  - pose proof Hs as [[i ->] Hnd]%mine_Some. destruct (Hid i s eq_refl) as (_ & _ & Hr).
    destruct (Complete_inv s _ _ HC Hr) as (_ & Hi & Hn & Hak). rewrite <- Hc in Hi, Hn, Hak.
    assert (mine ob' (Some (i, s)) = None) as -> by (simpl; rewrite Hdn; rewrite decide_True by set_solver; done).
    assert (object_later ob ob') as Hl by (by split_and!; [|lia|]).
    split_and!; [done|done|by eapply id_ok_later|done].
Qed.

(** Another call of the clerk sees a step of its environment. *)
Lemma object_other own e ob ob' r inp id id' :
  ob_inv ob -> id_ok ob id -> callowed own (cview ob (mine ob id)) e -> ob_do inp e ob = Some (ob', r) ->
  id_ok ob id' -> (id' <> None -> id' <> id) ->
  mine ob' id' = mine ob id' /\ rtc cenv (cview ob (mine ob id')) (cview ob' (mine ob id')).
Proof.
  intros HO Hid Ha Hd Hid' Hne. pose proof (cview_ok _ _ HO Hid) as HI.
  destruct (object_moves _ _ _ _ _ _ _ HO HI Ha Hd) as [(Hc & Hdn & _ & _ & He)|[(random & i & s & _ & _ & _ & _ & Hdn & He)|(s & Hs & _ & _ & _ & Hdn & He)]].
  - split; [unfold mine; by rewrite Hdn|done].
  - split; [unfold mine; by rewrite Hdn|done].
  - pose proof Hs as [[i ->] Hnd]%mine_Some.
    assert (forall i' s', id' = Some (i', s') -> s' <> s) as Hx.
    { intros i' s' -> ->. destruct (Hid' i' s eq_refl) as (Hi' & _). destruct (Hid i s eq_refl) as (Hi & _).
      apply Hne; [done|congruence]. }
    assert (mine ob id' <> Some s) as Hm by (intros [[i' ?] _]%mine_Some; by eapply Hx).
    split; [|by apply He]. destruct id' as [[i' s']|]; [|done]. simpl. rewrite Hdn. specialize (Hx i' s' eq_refl).
    destruct (decide (s' ∈ ob_done ob)); [rewrite decide_True by set_solver|rewrite decide_False by set_solver]; done.
Qed.

End objects.

(** ** What a service promises *)

Section service.
Context {Y Req Rep : Type} `{SV : Service Y Req Rep}.

Definition asks (op : Op Req) (c : rpc_call) : Prop := sv_call (op_Req op) = Some c.

Lemma asks_inj op c c' : asks op c -> asks op c' -> c = c'.
Proof. unfold asks. congruence. Qed.

(** The execution of a request with a reply. *)
Definition s_made (c : rpc_call) : rpc_reply c -> option s_event :=
  match c with RGet a => fun r => Some (SGet a r) | RPut a => fun r => Some (SPut a r) | _ => fun _ => None end.

(** The operations of [log], executed one after the other as [h], are those of one
    conditional store; every reply is that of an operation of the log; and an operation
    submitted after another returned comes later in it. *)
Record logged (m0 : kvmap) (y : Y) (log : list (Op Req)) (h : list s_event) : Prop := {
  lg_history : exists execs m, store_history m0 h execs m;
  lg_nodup : NoDup log;
  lg_inv op : op ∈ log -> Inv op ∈ sv_hist y;
  lg_at k e : h !! k = Some e -> exists op, log !! k = Some op /\ asks op (s_call e);
  lg_ret op c rep : RsmLinear.Ret op (OK, Some rep) ∈ sv_hist y -> asks op c ->
    exists reply k, sv_handler c (OK, Some rep) = Some reply /\ log !! k = Some op /\ h !! k = s_made c reply;
  lg_order a b j k : precedes (sv_hist y) a b -> log !! j = Some a -> log !! k = Some b -> j < k;
}.

Class ServiceLaws (m0 : kvmap) := {
  sv_ok : Y -> Prop;
  sv_ok_step y y' : sv_ok y -> sv_step y y' -> sv_ok y';
  sv_fresh y y' op l : sv_ok y -> sv_step y y' -> sv_hist y' = sv_hist y ++ Inv op :: l -> Inv op ∉ sv_hist y;
  sv_call_kv c req : sv_call req = Some c -> (exists a, c = RGet a) \/ (exists a, c = RPut a);
  sv_refuses c req : sv_call req = Some c -> is_Some (sv_handler c (ErrWrongLeader, None));
  sv_refusal c reply : sv_handler c (ErrWrongLeader, None) = Some reply ->
    match c return rpc_reply c -> Prop with
    | RGet _ => fun r => gr_Err r = ErrWrongLeader | RPut _ => fun r => pr_Err r = ErrWrongLeader | _ => fun _ => False
    end reply;
  sv_result y op res : sv_ok y -> RsmLinear.Ret op res ∈ sv_hist y ->
    (exists rep, res = (OK, Some rep)) \/ res = (ErrWrongLeader, None);
  sv_logged y : sv_ok y -> exists log h, logged m0 y log h;
}.
End service.

(** ** What follows from it *)

Section explained.
Context {Y Req Rep : Type} `{SV : Service Y Req Rep} (m0 : kvmap) {SVL : ServiceLaws m0}.

(** A put is stale: a put of its client acknowledged it. *)
Definition stale (y : Y) (a : PutArgs) : Prop :=
  exists op b, Inv op ∈ sv_hist y /\ asks op (RPut b) /\ pa_ClientID b = pa_ClientID a /\ (pa_Sequence a <= pa_Ack b)%N.

(** The replies of a service to the requests of clerks. *)
Definition kv_reply_ok (y : Y) (c : rpc_call) : rpc_reply c -> Prop :=
  match c with
  | RGet _ => fun r => gr_Err r = OK \/ gr_Err r = ErrNoKey \/ refused (gr_Err r)
  | RPut a => fun r => definite (pr_Err r) \/ refused (pr_Err r) \/ stale y a
  | _ => fun _ => True
  end.

Lemma sv_answers y op c res :
  sv_ok y -> RsmLinear.Ret op res ∈ sv_hist y -> asks op c ->
  exists reply, sv_handler c res = Some reply /\ kv_reply_ok y c reply.
Proof using SVL.
  intros HO Hr Hc. destruct (sv_result _ _ _ HO Hr) as [[rep ->]| ->].
  - destruct (sv_logged _ HO) as (log & h & HL). destruct (lg_ret _ _ _ _ HL _ _ _ Hr Hc) as (reply & k & Hrep & _ & Hk).
    exists reply. split; [done|]. destruct (lg_history _ _ _ _ HL) as (execs & m & Hh).
    pose proof (proj1 (history_replies _ _ _ _ Hh)) as Hok.
    destruct c as [a|a|f|f|f]; try done; specialize (Hok _ (list_elem_of_lookup_2 _ _ _ Hk)); [done|].
    destruct Hok as [?|[?|(b & (j & x & Hj)%s_puts_elem & ?)]]; [by left|by right; left|right; right].
    destruct (lg_at _ _ _ _ HL _ _ Hj) as (op' & Hop & Ha). exists op', b.
    split_and!; [by eapply (lg_inv _ _ _ _ HL), list_elem_of_lookup_2|done|tauto|tauto].
  - destruct (sv_refuses _ _ Hc) as [reply Hrep]. exists reply. split; [done|]. apply sv_refusal in Hrep.
    destruct c as [a|a|f|f|f]; try done; simpl; rewrite Hrep; unfold refused; auto.
Qed.

(** Every operation submitted is one of a call: [who] knows the call of a put, and one
    identity is that of one key. *)
Record who_ok (y : Y) (who : Op Req -> option (nat * kv_call)) : Prop := {
  wo_put op a : Inv op ∈ sv_hist y -> asks op (RPut a) ->
    pa_ClientID a <> 0%N /\ exists o, who op = Some (o, put_call a);
  wo_get op a o c : Inv op ∈ sv_hist y -> asks op (RGet a) -> who op = Some (o, c) -> c = CallGet (ga_Key a);
  wo_key op op' a a' : Inv op ∈ sv_hist y -> Inv op' ∈ sv_hist y -> asks op (RPut a) -> asks op' (RPut a') ->
    put_id a = put_id a' -> pa_Key a = pa_Key a';
}.

(** The calls of [lin], each at a place of [log], took effect there; [who] names the
    call an operation serves: every put serves one, a get only if its reply was the one
    its call took. *)
Record explained (y : Y) (who : Op Req -> option (nat * kv_call)) (log : list (Op Req))
    (lin : list (nat * kv_done)) (m : kvmap) : Prop := {
  ex_nodup : NoDup log;
  ex_sorted : StronglySorted lt lin.*1;
  ex_run : spec_calls lin.*2 m0 m;
  ex_who j o c r : (j, (o, c, r)) ∈ lin -> exists op, log !! j = Some op /\ who op = Some (o, c);
  ex_once j j' d d' op op' a a' : (j, d) ∈ lin -> (j', d') ∈ lin -> log !! j = Some op -> log !! j' = Some op' ->
    asks op (RPut a) -> asks op' (RPut a') -> put_id a = put_id a' -> j = j';
  ex_get op a res reply o c : RsmLinear.Ret op res ∈ sv_hist y -> asks op (RGet a) ->
    sv_handler (RGet a) res = Some reply -> (gr_Err reply = OK \/ gr_Err reply = ErrNoKey) -> who op = Some (o, c) ->
    exists k, log !! k = Some op /\ (k, (o, c, GetRes (gr_Value reply) (gr_Version reply) (gr_Err reply))) ∈ lin;
  ex_put op a res reply : RsmLinear.Ret op res ∈ sv_hist y -> asks op (RPut a) ->
    sv_handler (RPut a) res = Some reply -> definite (pr_Err reply) ->
    exists k j op' a' o, log !! k = Some op /\ j <= k /\ log !! j = Some op' /\ asks op' (RPut a') /\
      put_id a' = put_id a /\ (j, (o, put_call a', PutRes (pr_Err reply))) ∈ lin;
  ex_order a b j k : precedes (sv_hist y) a b -> log !! j = Some a -> log !! k = Some b -> j < k;
}.

(** A definite reply is one of the log. *)
Lemma definite_logged y log h op c res reply :
  sv_ok y -> logged m0 y log h -> RsmLinear.Ret op res ∈ sv_hist y -> asks op c -> sv_handler c res = Some reply ->
  is_Some (result_of c reply) -> exists k, log !! k = Some op /\ h !! k = s_made c reply.
Proof using SVL.
  intros HO HL Hr Hc Hrep Hd. destruct (sv_result _ _ _ HO Hr) as [[rep ->]| ->].
  - destruct (lg_ret _ _ _ _ HL _ _ _ Hr Hc) as (reply' & k & Hrep' & ?). assert (reply' = reply) as -> by congruence. eauto.
  - apply sv_refusal in Hrep. destruct c as [a|a|f|f|f]; try done; simpl in Hd; rewrite Hrep in Hd;
      rewrite decide_False in Hd by (unfold definite; naive_solver); by destruct Hd.
Qed.

Lemma logged_explained y who log h :
  sv_ok y -> logged m0 y log h -> who_ok y who -> exists lin m, explained y who log lin m.
Proof using SVL.
  intros HO HL [Hwp Hwg Hwk]. destruct (lg_history _ _ _ _ HL) as (execs & m & Hh).
  set (at_ := fun k => log !! k ≫= who).
  assert (forall k e op, h !! k = Some e -> log !! k = Some op -> Inv op ∈ sv_hist y /\ asks op (s_call e)) as Hat.
  { intros k e op Hk Hop. destruct (lg_at _ _ _ _ HL _ _ Hk) as (op' & Hop' & Ha). assert (op' = op) as -> by congruence.
    split; [by eapply (lg_inv _ _ _ _ HL), list_elem_of_lookup_2|done]. }
  assert (forall j op a, j < length h -> log !! j = Some op -> asks op (RPut a) -> exists x, h !! j = Some (SPut a x)) as Hput.
  { intros j op a [e He]%lookup_lt_is_Some_2 Hop Ha. destruct (Hat _ _ _ He Hop) as [_ Ha'].
    pose proof (asks_inj _ _ _ Ha' Ha) as Heq. destruct e as [|a' x]; [done|]. injection Heq as ->. eauto. }
  destruct (order_of_history m0 at_ h execs m Hh) as [lin HP].
  { split.
    - intros k e Hk. destruct (lg_at _ _ _ _ HL _ _ Hk) as (op & Hop & Ha). destruct (Hat _ _ _ Hk Hop) as [Hin _].
      unfold at_. rewrite Hop. simpl. destruct e as [a r|a r]; [intros o c; by apply Hwg|by apply Hwp].
    - intros i j a b x z Hi Hj. destruct (lg_at _ _ _ _ HL _ _ Hi) as (op & Hop & _), (lg_at _ _ _ _ HL _ _ Hj) as (op' & Hop' & _).
      destruct (Hat _ _ _ Hi Hop), (Hat _ _ _ Hj Hop'). by eapply (Hwk op op'). }
  assert (forall k op, log !! k = Some op -> at_ k = who op) as Hw by (intros k op Hop; unfold at_; by rewrite Hop).
  exists lin, m. constructor.
  - apply HL.
  - apply HP.
  - apply HP.
  - intros j o c r Hj. destruct (pl_who _ _ _ _ _ _ HP _ _ _ _ Hj) as [_ Hwho]. by apply bind_Some in Hwho.
  - intros j j' d d' op op' a a' H1 H2 H3 H4 H5 H6. destruct d as [[o c] r], d' as [[o' c'] r'].
    destruct (Hput j op a) as [x Hx]; [by eapply (pl_who _ _ _ _ _ _ HP)|done|done|].
    destruct (Hput j' op' a') as [x' Hx']; [by eapply (pl_who _ _ _ _ _ _ HP)|done|done|].
    by eapply (pl_once _ _ _ _ _ _ HP).
  - intros op a res reply o c Hr Ha Hrep Hd Hwho.
    destruct (definite_logged _ _ _ _ _ _ _ HO HL Hr Ha Hrep) as (k & Hop & Hk); [simpl; by rewrite decide_True|].
    exists k. split; [done|]. eapply (pl_get _ _ _ _ _ _ HP); [exact Hk|done|by rewrite (Hw _ _ Hop)].
  - intros op a res reply Hr Ha Hrep Hd.
    destruct (definite_logged _ _ _ _ _ _ _ HO HL Hr Ha Hrep) as (k & Hop & Hk); [simpl; by rewrite decide_True|].
    destruct (pl_answer _ _ _ _ _ _ HP _ _ _ Hk Hd) as (j & a' & x & o & Hj & Hx & Hi & Hin).
    destruct (lg_at _ _ _ _ HL _ _ Hx) as (op' & Hop' & Ha'). exists k, j, op', a', o. by split_and!.
  - apply HL.
Qed.

End explained.

(** ** The invariant *)

Section ClerkLinear.
Context {Obj : Type} `{CO : ClerkObject Obj} {COL : ClerkObjectLaws Obj}.
Context {Y Req Rep : Type} `{SV : Service Y Req Rep} (m0 : kvmap) {SVL : ServiceLaws m0} {EqReq : EqDecision Req}.

Abbreviation lsys := (LSys Obj Y Req).

(** Operation [op] of the service serves call [o]. *)
Definition sent_by (w : lsys) (op : Op Req) (o : nat) : Prop :=
  exists k c, (op, k) ∈ l_from w /\ l_msgs w !! k = Some (o, c).

Definition submitted (w : lsys) : list (hevent Req Rep) := sv_hist (l_sys w).

(** Operation [op] replied [r]. *)
Definition replied (w : lsys) (op : Op Req) (r : kv_res) : Prop :=
  exists rep c reply, RsmLinear.Ret op (OK, Some rep) ∈ submitted w /\ asks op c /\
    sv_handler c (OK, Some rep) = Some reply /\ result_of c reply = Some r.

Record call_ok (w : lsys) (o : nat) (ca : call_state Req) (ob : Obj) : Prop := {
  cl_id : id_ok ob (ca_id ca);
  cl_safe p : ca_prog ca = Some p -> csafe (ca_call ca) p any_result (cview ob (mine ob (ca_id ca)));
  cl_honest p : ca_prog ca = Some p -> honest (ca_call ca) p (ca_id ca) (snd <$> ca_got ca);
  cl_wait k : ca_wait ca = Some k -> exists s c p, ca_prog ca = Some (Call (ERpc s c) p) /\ l_msgs w !! k = Some (o, c);
  cl_got op r : ca_got ca = Some (op, r) -> replied w op r /\ sent_by w op o;
}.

(** A request of a call under identity [id]. *)
Definition msg_ok (call : kv_call) (id : option (N * N)) (ob : Obj) (c : rpc_call) : Prop :=
  match c with
  | RGet a => call = CallGet (ga_Key a)
  | RPut a => call = put_call a /\ id = Some (put_id a) /\ (pa_Ack a <= dc_ack (ob_client ob))%N
  | _ => False
  end.

Record msgs_ok (w : lsys) : Prop := {
  ms_msg k o c : l_msgs w !! k = Some (o, c) -> exists ca ob, l_calls w !! o = Some ca /\
    l_clerks w !! ca_clerk ca = Some ob /\ msg_ok (ca_call ca) (ca_id ca) ob c;
  ms_from op k : (op, k) ∈ l_from w -> Inv op ∈ submitted w /\
    exists o c, l_msgs w !! k = Some (o, c) /\ asks op c;
  ms_all op : Inv op ∈ submitted w -> exists k, (op, k) ∈ l_from w;
  ms_one op k k' : (op, k) ∈ l_from w -> (op, k') ∈ l_from w -> k = k';
}.

Definition calls_ok (w : lsys) : Prop :=
  forall o ca, l_calls w !! o = Some ca -> exists ob, l_clerks w !! ca_clerk ca = Some ob /\ call_ok w o ca ob.

Definition ids_one (w : lsys) : Prop :=
  forall o o' ca ca' i, l_calls w !! o = Some ca -> l_calls w !! o' = Some ca' ->
    ca_id ca = Some i -> ca_id ca' = Some i -> o = o'.

Record lhist_ok (w : lsys) : Prop := {
  lh_call o ca : l_calls w !! o = Some ca -> CInv o (ca_call ca) ∈ l_hist w;
  lh_inv o c : CInv o c ∈ l_hist w -> exists ca, l_calls w !! o = Some ca /\ ca_call ca = c;
  lh_ret o r : CRet o r ∈ l_hist w -> exists ca op, l_calls w !! o = Some ca /\ ca_prog ca = None /\
    ca_got ca = Some (op, r);
  lh_order a b ca op r op' : call_precedes (l_hist w) a b -> l_calls w !! a = Some ca ->
    ca_got ca = Some (op, r) -> sent_by w op' b -> precedes (submitted w) op op';
}.

Record clinv (w : lsys) : Prop := {
  li_sys : sv_ok (l_sys w);
  li_objs : forall i ob, l_clerks w !! i = Some ob -> ob_inv ob;
  li_ids : ids_distinct (l_clerks w);
  li_calls : calls_ok w;
  li_msgs : msgs_ok w;
  li_one : ids_one w;
  li_hist : lhist_ok w;
}.

(** ** What the service tells *)

(** A put submitted is one of a call. *)
Lemma put_sent w op a :
  clinv w -> Inv op ∈ submitted w -> asks op (RPut a) ->
  exists o ca ob, l_calls w !! o = Some ca /\ l_clerks w !! ca_clerk ca = Some ob /\ sent_by w op o /\
    ca_call ca = put_call a /\ ca_id ca = Some (put_id a) /\ (pa_Ack a <= dc_ack (ob_client ob))%N.
Proof.
  intros HI Hin Hop. destruct (ms_all _ (li_msgs _ HI) _ Hin) as [k Hk].
  destruct (ms_from _ (li_msgs _ HI) _ _ Hk) as (_ & o & c & Hm & Hc).
  destruct (ms_msg _ (li_msgs _ HI) _ _ _ Hm) as (ca & ob & Ho & Hb & Hok).
  rewrite (asks_inj _ _ _ Hc Hop) in Hm, Hok. destruct Hok as (? & ? & ?).
  exists o, ca, ob. split_and!; try done. by exists k, (RPut a).
Qed.

(** A put that is not completed is not stale. *)
Lemma active_not_stale w o ca ob a :
  clinv w -> l_calls w !! o = Some ca -> l_clerks w !! ca_clerk ca = Some ob ->
  ca_id ca = Some (put_id a) -> (dc_ack (ob_client ob) < pa_Sequence a)%N -> ~ stale (l_sys w) a.
Proof.
  intros HI Ho Hb Hid Hak (op & b & Hin & Hop & Hcl & Hle).
  destruct (put_sent _ _ _ HI Hin Hop) as (o' & ca' & ob' & Ho' & Hb' & _ & _ & Hid' & Hle').
  destruct (li_calls _ HI _ _ Ho) as (ob0 & Hb0 & Hok). rewrite Hb in Hb0. injection Hb0 as <-.
  destruct (li_calls _ HI _ _ Ho') as (ob1 & Hb1 & Hok'). rewrite Hb' in Hb1. injection Hb1 as <-.
  destruct (cl_id _ _ _ _ Hok _ _ Hid) as (Hc1 & Hz & _). destruct (cl_id _ _ _ _ Hok' _ _ Hid') as (Hc2 & _ & _).
  assert (ca_clerk ca' = ca_clerk ca) as Heq by (eapply (li_ids _ HI); [exact Hb'|exact Hb|congruence|congruence]).
  rewrite Heq, Hb in Hb'. injection Hb' as <-. lia.
Qed.

(** ** Steps *)

Lemma precedes_app (h l : list (hevent Req Rep)) a b : precedes h a b -> precedes (h ++ l) a b.
Proof. intros (h1 & h2 & h3 & r & ->). exists h1, h2, (h3 ++ l), r. by rewrite <- !app_assoc; simpl; rewrite <- app_assoc. Qed.

Lemma precedes_new (h l : list (hevent Req Rep)) a b r :
  RsmLinear.Ret a (OK, Some r) ∈ h -> precedes (h ++ Inv b :: l) a b.
Proof. intros (h1 & h2 & ->)%list_elem_of_split. exists h1, h2, l, r. by rewrite <- app_assoc. Qed.

Lemma call_precedes_app h e a b :
  call_precedes (h ++ [e]) a b -> call_precedes h a b \/ exists c, e = CInv b c.
Proof.
  intros (h1 & h2 & h3 & r & c & He). destruct h3 as [|e' h3 _] using rev_ind.
  - assert (h ++ [e] = (h1 ++ CRet a r :: h2) ++ [CInv b c]) as He' by (rewrite He; by rewrite <- app_assoc).
    apply app_inj_tail in He' as [_ ->]. right. eauto.
  - left. exists h1, h2, h3, r, c.
    assert (h ++ [e] = (h1 ++ CRet a r :: h2 ++ CInv b c :: h3) ++ [e']) as He'.
    { rewrite He. by rewrite <- !app_assoc; simpl; rewrite <- app_assoc. }
    by apply app_inj_tail in He' as [-> _].
Qed.

Lemma call_precedes_ret h a b : call_precedes h a b -> exists r, CRet a r ∈ h.
Proof. intros (h1 & h2 & h3 & r & c & ->). exists r. apply elem_of_app. right. left. Qed.

(** What a step never takes back. *)
Definition lgrow (w w' : lsys) : Prop :=
  submitted w `prefix_of` submitted w' /\ l_msgs w `prefix_of` l_msgs w' /\ (forall x, x ∈ l_from w -> x ∈ l_from w').

Lemma sent_by_grow w w' op o : lgrow w w' -> sent_by w op o -> sent_by w' op o.
Proof. intros (_ & Hm & Hf) (k & c & ? & ?). exists k, c. split; [auto|by eapply prefix_lookup_Some]. Qed.

Lemma submitted_grow w w' e : lgrow w w' -> e ∈ submitted w -> e ∈ submitted w'.
Proof. intros ([l ->] & _ & _) He. apply elem_of_app. by left. Qed.

(** A call that does not move. *)
Lemma call_ok_frame w w' o ca ob ob' :
  lgrow w w' -> object_later ob ob' -> mine ob' (ca_id ca) = mine ob (ca_id ca) ->
  rtc cenv (cview ob (mine ob (ca_id ca))) (cview ob' (mine ob (ca_id ca))) ->
  call_ok w o ca ob -> call_ok w' o ca ob'.
Proof.
  intros Hg Hl Hm Hr [Hid Hs Hh Hw Hgot]. constructor; auto.
  - by eapply id_ok_later.
  - intros p Hp. rewrite Hm. eapply safe_rtc; [exact Hr|auto].
  - intros k Hk. destruct (Hw k Hk) as (s & c & p & ? & ?). exists s, c, p. split; [done|].
    eapply prefix_lookup_Some; [done|apply Hg].
  - intros op r Hop. destruct (Hgot _ _ Hop) as ((rep & c & reply & ? & ?) & ?).
    split; [|by eapply sent_by_grow]. exists rep, c, reply. split; [by eapply submitted_grow|done].
Qed.

Lemma call_ok_grow w w' o ca ob : lgrow w w' -> call_ok w o ca ob -> call_ok w' o ca ob.
Proof. intros Hg. apply call_ok_frame; [done|apply object_later_refl|done|apply rtc_refl]. Qed.

(** The service moves on, and perhaps a request arrives. *)
Lemma clinv_service w y from l :
  clinv w -> sv_step (l_sys w) y -> sv_hist y = submitted w ++ l ->
  (from = l_from w /\ no_inv l \/
   exists k o c op l', from = (op, k) :: l_from w /\ l_msgs w !! k = Some (o, c) /\
     l = Inv op :: l' /\ no_inv l' /\ asks op c) ->
  clinv (mkLSys y (l_clerks w) (l_calls w) (l_msgs w) from (l_hist w)).
Proof.
  intros [HS HO Hids HC HM H1 HH] Hs Hy Hf. set (w' := mkLSys _ _ _ _ _ _).
  assert (forall x, x ∈ l_from w -> x ∈ from) as Hsub.
  { destruct Hf as [[-> _]|(k & o & c & op & l' & -> & _)]; [done|]. intros x ?. by right. }
  assert (lgrow w w') as Hg by (split_and!; [by exists l|done|done]).
  constructor; try done; [by eapply sv_ok_step| | |].
  - intros o ca Ho. destruct (HC o ca Ho) as (ob & Hb & Hok). exists ob. split; [done|]. by eapply call_ok_grow.
  - destruct HM as [Hmsg Hfrom Hall Hone]. constructor; simpl; [done| | |].
    + intros op k Hin. cut ((op, k) ∈ l_from w \/ (exists o c, l_msgs w !! k = Some (o, c) /\ asks op c) /\
        Inv op ∈ sv_hist y).
      { intros [Ho|[? ?]]; [|done]. destruct (Hfrom _ _ Ho). split; [by eapply (submitted_grow w w')|done]. }
      destruct Hf as [[-> _]|(k' & o & c & op' & l' & -> & Hm & Hl & _ & Hc)]; [by left|].
      apply elem_of_cons in Hin as [[= -> ->]|?]; [right|by left]. split; [eauto|].
      rewrite Hy, Hl. apply elem_of_app. right. left.
    + intros op Hin. unfold submitted in Hin. simpl in Hin. rewrite Hy in Hin. apply elem_of_app in Hin as [Hin|Hin].
      { destruct (Hall _ Hin) as [k ?]. exists k. auto. }
      destruct Hf as [[-> Hi]|(k' & o & c & op' & l' & -> & _ & -> & Hi & _)]; [by apply Hi in Hin|].
      apply elem_of_cons in Hin as [[= ->]|Hin]; [exists k'; left|by apply Hi in Hin].
    + destruct Hf as [[-> _]|(k' & o & c & op' & l' & -> & _ & Hl & _ & _)]; [done|].
      rewrite Hl in Hy. pose proof (sv_fresh _ _ _ _ HS Hs Hy) as Hn.
      intros op k1 k2 [[= -> ->]|Hk1]%elem_of_cons [Heq|Hk2]%elem_of_cons.
      * by injection Heq as ->.
      * by destruct Hn; apply (Hfrom _ _ Hk2).
      * injection Heq as -> ->. by destruct Hn; apply (Hfrom _ _ Hk1).
      * by eapply Hone.
  - destruct HH as [Hcall Hinv Hret Hord]. constructor; simpl; try done.
    intros a b ca op r op' Hab Ha Hgot (k & c & Hk & Hm). simpl in Hk, Hm. unfold submitted. simpl. rewrite Hy.
    destruct Hf as [[-> _]|(k' & o & c' & op'' & l' & -> & _ & -> & _)].
    { apply precedes_app. eapply Hord; try done. by exists k, c. }
    apply elem_of_cons in Hk as [[= -> ->]|Hk].
    + destruct (HC _ _ Ha) as (ob & _ & Hok). destruct (cl_got _ _ _ _ Hok _ _ Hgot) as ((rep & c0 & reply & Hr & _) & _).
      by eapply precedes_new.
    + apply precedes_app. eapply Hord; try done. by exists k, c.
Qed.

(** A call whose state is replaced by one with the same identity. *)
Lemma call_replaced w o (ca ca' : call_state Req) o' x :
  l_calls w !! o = Some ca -> ca_clerk ca' = ca_clerk ca -> ca_call ca' = ca_call ca -> ca_id ca' = ca_id ca ->
  <[o := ca']> (l_calls (Obj := Obj) (Y := Y) w) !! o' = Some x ->
  exists y, l_calls w !! o' = Some y /\ ca_clerk x = ca_clerk y /\ ca_call x = ca_call y /\ ca_id x = ca_id y.
Proof. intros Ho Hc Hk Hi [(-> & <- & _)|[_ ?]]%list_lookup_insert_Some; eauto. Qed.

Lemma call_kept w o (ca ca' : call_state Req) o' y :
  l_calls w !! o = Some ca -> ca_clerk ca' = ca_clerk ca -> ca_call ca' = ca_call ca -> ca_id ca' = ca_id ca ->
  l_calls (Obj := Obj) (Y := Y) w !! o' = Some y ->
  exists x, <[o := ca']> (l_calls w) !! o' = Some x /\ ca_clerk x = ca_clerk y /\ ca_call x = ca_call y /\ ca_id x = ca_id y.
Proof.
  intros Ho Hc Hk Hi Hy. destruct (decide (o = o')) as [<-|Hne].
  - rewrite list_lookup_insert_eq by (by eapply lookup_lt_Some). simplify_eq. eauto.
  - rewrite list_lookup_insert_ne by done. eauto.
Qed.

(** A call that is not over goes on, may send a request, and may return. *)
Lemma clinv_call w o ca ca' msgs hist :
  clinv w -> l_calls w !! o = Some ca -> is_Some (ca_prog ca) ->
  ca_clerk ca' = ca_clerk ca -> ca_call ca' = ca_call ca -> ca_id ca' = ca_id ca ->
  (msgs = l_msgs w \/ exists c, msgs = l_msgs w ++ [(o, c)] /\
     forall ob, l_clerks w !! ca_clerk ca = Some ob -> msg_ok (ca_call ca) (ca_id ca) ob c) ->
  (hist = l_hist w \/ exists r op, hist = l_hist w ++ [CRet o r] /\ ca_prog ca' = None /\ ca_got ca' = Some (op, r)) ->
  let w' := mkLSys (l_sys w) (l_clerks w) (<[o := ca']> (l_calls w)) msgs (l_from w) hist in
  (forall ob, l_clerks w !! ca_clerk ca = Some ob -> call_ok w' o ca ob -> call_ok w' o ca' ob) ->
  clinv w'.
Proof.
  intros [HS HO Hids HC HM H1 HH] Ho [p Hp] Hck Hcl Hid Hmsgs Hhist w' Hok'.
  assert (l_msgs w `prefix_of` msgs) as Hpre by (destruct Hmsgs as [->|(c & -> & _)]; [done|by apply prefix_app_r]).
  assert (lgrow w w') as Hg by (by split_and!).
  assert (forall r, CRet o r ∉ l_hist w) as Hnoret.
  { intros r (ca0 & op & Hc0 & Hp0 & _)%(lh_ret _ HH). congruence. }
  constructor; try done.
  - intros o' x Hx. simpl in Hx. apply list_lookup_insert_Some in Hx as [(-> & <- & _)|[Hne Hx]].
    + destruct (HC _ _ Ho) as (ob & Hb & Hok). exists ob. rewrite Hck. split; [done|]. apply Hok'; [done|].
      by eapply call_ok_grow.
    + destruct (HC _ _ Hx) as (ob & Hb & Hok). exists ob. split; [done|]. by eapply call_ok_grow.
  - destruct HM as [Hmsg Hfrom Hall Hone]. constructor; simpl; try done.
    + intros k o' c Hk. cut (exists y ob, l_calls w !! o' = Some y /\ l_clerks w !! ca_clerk y = Some ob /\ msg_ok (ca_call y) (ca_id y) ob c).
      { intros (y & ob & Hy & Hb & Hm). destruct (call_kept _ _ _ ca' _ _ Ho Hck Hcl Hid Hy) as (x & Hx & E1 & E2 & E3).
        exists x, ob. by rewrite E1, E2, E3. }
      destruct Hmsgs as [->|(c' & -> & Hm)]; [by eapply Hmsg|].
      apply lookup_snoc_cases in Hk as [Hk|[_ [= -> ->]]]; [by eapply Hmsg|].
      destruct (HC _ _ Ho) as (ob & Hb & _). exists ca, ob. auto.
    + intros op k Hin. destruct (Hfrom _ _ Hin) as (? & o' & c & Hk & ?). split; [done|]. exists o', c.
      split; [by eapply prefix_lookup_Some|done].
  - intros o1 o2 x1 x2 i Hx1 Hx2 Hi1 Hi2.
    apply (call_replaced _ _ _ _ _ _ Ho Hck Hcl Hid) in Hx1 as (y1 & Hy1 & _ & _ & E1).
    apply (call_replaced _ _ _ _ _ _ Ho Hck Hcl Hid) in Hx2 as (y2 & Hy2 & _ & _ & E2).
    eapply (H1 _ _ _ _ i); [exact Hy1|exact Hy2|congruence|congruence].
  - destruct HH as [Hcall Hinv Hret Hord].
    assert (forall e, e ∈ l_hist w -> e ∈ hist) as Hsub.
    { destruct Hhist as [->|(r & op & -> & _)]; [done|]. intros e ?. apply elem_of_app. by left. }
    constructor; simpl.
    + intros o' x (y & Hy & _ & -> & _)%(call_replaced _ _ _ _ _ _ Ho Hck Hcl Hid). by apply Hsub, Hcall.
    + intros o' c Hin. assert (CInv o' c ∈ l_hist w) as (y & Hy & Hyc)%Hinv.
      { destruct Hhist as [->|(r & op & -> & _)]; [done|]. by apply elem_of_app in Hin as [?|?%list_elem_of_singleton]. }
      destruct (call_kept _ _ _ ca' _ _ Ho Hck Hcl Hid Hy) as (x & Hx & _ & E2 & _). exists x. by rewrite E2.
    + intros o' r Hin. assert (CRet o' r ∈ l_hist w -> exists ca op, <[o:=ca']> (l_calls w) !! o' = Some ca /\
        ca_prog ca = None /\ ca_got ca = Some (op, r)) as Hold.
      { intros Hin'. destruct (decide (o = o')) as [<-|Hne]; [by apply Hnoret in Hin'|].
        rewrite list_lookup_insert_ne by done. by apply Hret. }
      destruct Hhist as [->|(r' & op & -> & Hend)]; [auto|].
      apply elem_of_app in Hin as [?|[= -> ->]%list_elem_of_singleton]; [auto|]. exists ca', op.
      by rewrite list_lookup_insert_eq by (by eapply lookup_lt_Some).
    + intros a b x op r op' Hab Hx Hgot (k & c & Hk & Hm). simpl in Hk, Hm.
      assert (call_precedes (l_hist w) a b) as Hab'.
      { destruct Hhist as [->|(r1 & op1 & -> & _)]; [done|]. by apply call_precedes_app in Hab as [?|[? ?]]. }
      pose proof (call_precedes_ret _ _ _ Hab') as [r1 Hr].
      apply list_lookup_insert_Some in Hx as [(-> & _)|[_ Hx]]; [by apply Hnoret in Hr|].
      eapply Hord; [exact Hab'|exact Hx|exact Hgot|].
      destruct (ms_from _ HM _ _ Hk) as (_ & o2 & c2 & Hk2 & _). exists k, c2. split; [done|].
      pose proof (prefix_lookup_Some _ _ _ _ Hk2 Hpre) as Hm2. congruence.
Qed.

(** A clerk makes a call. *)
Lemma clinv_new w i ob fuel c :
  clinv w -> l_clerks w !! i = Some ob ->
  clinv (mkLSys (l_sys w) (l_clerks w) (l_calls w ++ [new_call i fuel ob c])
    (l_msgs w) (l_from w) (l_hist w ++ [CInv (length (l_calls w)) c])).
Proof.
  intros [HS HO Hids HC HM H1 HH] Hi. set (ca := new_call _ _ _ _). set (w' := mkLSys _ _ _ _ _ _).
  assert (lgrow w w') as Hg by (by split_and!).
  assert (forall o x, (l_calls w ++ [ca]) !! o = Some x -> l_calls w !! o = Some x \/ (o = length (l_calls w) /\ x = ca)) as Hcases
    by (intros; by apply lookup_snoc_cases).
  constructor; try done.
  - intros o x [Ho|[-> ->]]%Hcases.
    + destruct (HC _ _ Ho) as (ob' & Hb & Hok). exists ob'. split; [done|by eapply call_ok_grow].
    + exists ob. split; [done|]. constructor; simpl; try done.
      * intros p [= <-]. apply ob_prog_safe. by apply (HO i).
      * intros p [= <-]. apply ob_prog_honest.
  - destruct HM as [Hmsg Hfrom Hall Hone]. constructor; try done. intros k o c' Hk.
    destruct (Hmsg _ _ _ Hk) as (x & ob' & Hx & ?). exists x, ob'. split; [by apply lookup_app_l_Some|done].
  - intros o o' x x' id [Hx|[-> ->]]%Hcases [Hx'|[-> ->]]%Hcases Hid Hid'; try done. by eapply H1.
  - destruct HH as [Hcall Hinv Hret Hord]. constructor; simpl.
    + intros o x [Hx|[-> ->]]%Hcases; apply elem_of_app; [left; by apply Hcall|right; left].
    + intros o c' [Hin|[= -> ->]%list_elem_of_singleton]%elem_of_app; [|exists ca; by rewrite list_lookup_middle].
      destruct (Hinv _ _ Hin) as (x & Hx & ?). exists x. split; [by apply lookup_app_l_Some|done].
    + intros o r [Hin|?%list_elem_of_singleton]%elem_of_app; [|done].
      destruct (Hret _ _ Hin) as (x & op & Hx & ?). exists x, op. split; [by apply lookup_app_l_Some|done].
    + intros a b x op r op' [Hab|[c' [= <- <-]]]%call_precedes_app Ha Hgot Hs.
      * apply Hcases in Ha as [Ha|[-> ->]]; [|done]. by eapply Hord.
      * destruct Hs as (k & c' & _ & Hk). simpl in Hk. destruct (ms_msg _ HM _ _ _ Hk) as (y & _ & Hy & _).
        apply lookup_lt_Some in Hy. lia.
Qed.

(** A call is answered. *)
Lemma clinv_resume w o ca s c k r got :
  clinv w -> l_calls w !! o = Some ca -> ca_prog ca = Some (Call (ERpc s c) k) ->
  (forall ob, l_clerks w !! ca_clerk ca = Some ob ->
     let v := cview ob (mine ob (ca_id ca)) in
     callowed (own_of (ca_call ca)) v (ERpc s c) -> canswer v (ERpc s c) r v) ->
  snd <$> got = taken c r (snd <$> ca_got ca) ->
  (forall op x, got = Some (op, x) -> replied w op x /\ sent_by w op o) ->
  clinv (resume o (k r) got ca w).
Proof.
  intros HI Ho Hp Hans Hgot Hret. eapply clinv_call; [exact HI|exact Ho|by rewrite Hp|done|done|done|by left|by left|].
  intros ob Hb [Hid Hs Hh _ _]. constructor; simpl; try done.
  - intros p [= <-]. specialize (Hs _ Hp _ (rtc_refl _ _)) as [Ha Hs]. apply Hs. by apply Hans.
  - intros p [= <-]. specialize (Hh _ Hp). simpl in Hh. rewrite Hgot. destruct c as [a|a|f|f|f]; try done; by apply Hh.
Qed.

(** An effect on the object is one of an honest call. *)
Lemma honest_object own c e k id m got inp ob ob' r :
  ob_inv ob -> cinv (cview ob m) -> callowed own (cview ob m) e -> honest c (Call e k) id got ->
  ob_do inp e ob = Some (ob', r) ->
  honest c (k r) (begun e r id) got /\ (begun e r id = id \/ (id = None /\ exists x, begun e r id = Some x /\
    dc_next (ob_client ob') = x.2 /\ (dc_next (ob_client ob) < x.2)%N)).
Proof.
  intros HO HI Ha Hh Hd. destruct e; try done; simpl in Hh |- *; auto; [by rewrite ob_rpc in Hd|].
  destruct Hh as [-> Hh]. destruct (ob_answers _ _ _ _ _ _ _ HO HI Ha Hd) as [_ Hans].
  destruct r as [i s], Hans as (random & c' & Hb & [= _ Hc _]). rewrite <- Hc in Hb. simpl in Hb.
  pose proof (ob_view _ HO) as [_ HC _ _]. simpl in HC.
  destruct (Begin_inv _ _ _ _ _ _ HC Hb) as (_ & Hs & Hn & _ & _ & _ & Hz & _).
  split; [by apply Hh|right]. split; [done|]. eexists. split; [done|]. simpl. lia.
Qed.

(** The history of a step of a call. *)
Lemma lhist_moved (w w' : lsys) o ca ca' :
  lhist_ok w -> l_calls w !! o = Some ca -> is_Some (ca_prog ca) -> ca_call ca' = ca_call ca -> ca_got ca' = ca_got ca ->
  l_calls w' = <[o := ca']> (l_calls w) -> l_sys w' = l_sys w -> l_msgs w' = l_msgs w -> l_from w' = l_from w ->
  l_hist w' = l_hist w -> lhist_ok w'.
Proof.
  intros [Hcall Hinv Hret Hord] Ho [p Hp] Hc Hg E1 E2 E3 E4 E5.
  constructor; unfold submitted, sent_by; rewrite ?E1, ?E2, ?E3, ?E4, ?E5.
  - intros o' x [(-> & <- & _)|[_ Hx]]%list_lookup_insert_Some; [rewrite Hc|]; by apply Hcall.
  - intros o' c (y & Hy & Hyc)%Hinv. destruct (decide (o = o')) as [<-|Hne].
    + exists ca'. rewrite list_lookup_insert_eq by (by eapply lookup_lt_Some). split; [done|]. congruence.
    + exists y. by rewrite list_lookup_insert_ne.
  - intros o' r (y & op & Hy & Hpy & ?)%Hret. assert (o <> o') as Hne by (intros <-; congruence).
    exists y, op. by rewrite list_lookup_insert_ne.
  - intros a b x op r op' Hab [(-> & <- & _)|[_ Hx]]%list_lookup_insert_Some Hgot Hs; [|by eapply Hord].
    eapply Hord; [exact Hab|exact Ho|by rewrite <- Hg|done].
Qed.

(** A call acts on its clerk. *)
Lemma clinv_object w o ca ob e k inp ob' r :
  clinv w -> l_calls w !! o = Some ca -> ca_prog ca = Some (Call e k) -> l_clerks w !! ca_clerk ca = Some ob ->
  ob_do inp e ob = Some (ob', r) -> ids_distinct (<[ca_clerk ca := ob']> (l_clerks w)) ->
  clinv (mkLSys (l_sys w) (<[ca_clerk ca := ob']> (l_clerks w))
    (<[o := go_on (k r) (begun e r (ca_id ca)) (ca_got ca) ca]> (l_calls w)) (l_msgs w) (l_from w) (l_hist w)).
Proof.
  intros [HS HO Hids HC HM H1 HH] Ho Hp Hb Hd Hids'. destruct (HC _ _ Ho) as (ob0 & Hb0 & [Hid Hs Hh Hw Hgot]).
  rewrite Hb in Hb0. injection Hb0 as <-. pose proof (Hs _ Hp _ (rtc_refl _ _)) as [Ha Hnext].
  destruct (object_own _ _ _ _ _ _ _ (HO _ _ Hb) Hid Ha Hd) as (Hans & HO' & Hid' & Hl).
  destruct (honest_object _ _ _ _ _ _ _ _ _ _ _ (HO _ _ Hb) (cview_ok _ _ (HO _ _ Hb) Hid) Ha (Hh _ Hp) Hd) as [Hh' Hbegun].
  set (ca' := go_on _ _ _ _). set (w' := mkLSys _ _ _ _ _ _). assert (lgrow w w') as Hg by (by split_and!).
  pose proof (lookup_lt_Some _ _ _ Ho) as Hlo. pose proof (lookup_lt_Some _ _ _ Hb) as Hlb.
  assert (forall o' x, <[o := ca']> (l_calls w) !! o' = Some x -> (o' = o /\ x = ca') \/ (o' <> o /\ l_calls w !! o' = Some x)) as Hcases.
  { intros o' x [(-> & <- & _)|[? ?]]%list_lookup_insert_Some; auto. }
  (* the object of a clerk, before and after *)
  assert (forall j x, l_clerks w !! j = Some x -> exists x', l_clerks w' !! j = Some x' /\ object_later x x' /\
    ((j = ca_clerk ca /\ x = ob /\ x' = ob') \/ (j <> ca_clerk ca /\ x' = x))) as Hclerk.
  { intros j x Hj. simpl. destruct (decide (ca_clerk ca = j)) as [<-|Hne].
    - exists ob'. rewrite list_lookup_insert_eq by done. simplify_eq. split_and!; [done|done|by left].
    - exists x. rewrite list_lookup_insert_ne by done. split_and!; [done|apply object_later_refl|by right]. }
  constructor; try done.
  - intros j x [(_ & <- & _)|[_ Hj]]%list_lookup_insert_Some; [done|by eapply HO].
  - intros o' x [[-> ->]|[Hne Hx]]%Hcases.
    + exists ob'. split; [by apply list_lookup_insert_eq|]. constructor; simpl; try done.
      * intros p [= <-]. by apply Hnext.
      * intros p [= <-]. done.
    + destruct (HC _ _ Hx) as (obx & Hbx & Hok). destruct (Hclerk _ _ Hbx) as (obx' & Hbx' & Hlx & Hc).
      exists obx'. split; [done|]. destruct Hc as [(_ & -> & ->)|[_ ->]]; [|by eapply call_ok_grow].
      destruct (object_other _ _ _ _ _ _ _ (ca_id x) (HO _ _ Hb) Hid Ha Hd (cl_id _ _ _ _ Hok)) as [Hm Hr];
        [|by eapply call_ok_frame].
      intros Hn Heq. destruct (ca_id x) as [i|] eqn:Hi; [|done]. apply Hne. symmetry.
      by apply (H1 o o' ca x i).
  - destruct HM as [Hmsg Hfrom Hall Hone]. constructor; try done. intros j o' c Hj.
    destruct (Hmsg _ _ _ Hj) as (x & obx & Hx & Hbx & Hok). destruct (Hclerk _ _ Hbx) as (obx' & Hbx' & (Hak & _) & _).
    destruct (decide (o' = o)) as [->|Hne].
    + exists ca', obx'. split; [by apply list_lookup_insert_eq|]. assert (x = ca) as -> by congruence. split; [done|].
      destruct c as [a|a|f|f|f]; try done. destruct Hok as (? & Hi & ?). split_and!; [done| |lia].
      simpl. destruct Hbegun as [->|[Hn _]]; [done|congruence].
    + exists x, obx'. split; [by rewrite <- Hx; apply list_lookup_insert_ne|]. split; [done|].
      destruct c as [a|a|f|f|f]; try done. destruct Hok as (? & ? & ?). split_and!; [done|done|lia].
  - assert (forall o' y i, o' <> o -> l_calls w !! o' = Some y -> ca_id ca' = Some i -> ca_id y = Some i -> False) as Hnew.
    { intros o' y [i s] Hne Hy Hi Hiy. simpl in Hi. destruct Hbegun as [E|(_ & x & Hx & Hnx & Hf)].
      - apply Hne. symmetry. rewrite E in Hi. by apply (H1 o o' ca y (i, s)).
      - rewrite Hi in Hx. injection Hx as <-. destruct (HC _ _ Hy) as (oby & Hby & Hoky).
        destruct (cl_id _ _ _ _ Hoky _ _ Hiy) as (Hcl & Hz & Hr). destruct (Hid' _ _ Hi) as (Hcl' & _ & _). simpl in Hf.
        destruct (decide (ca_clerk y = ca_clerk ca)) as [E|E]; [rewrite E, Hb in Hby; injection Hby as <-; lia|].
        apply E. symmetry. eapply (Hids' (ca_clerk ca) (ca_clerk y) ob' oby); [by apply list_lookup_insert_eq| | |].
        + by rewrite list_lookup_insert_ne.
        + congruence.
        + congruence. }
    intros o1 o2 x1 x2 i [[-> ->]|[Hn1 Hx1]]%Hcases [[-> ->]|[Hn2 Hx2]]%Hcases Hi1 Hi2; [done| | |by eapply H1].
    + by destruct (Hnew o2 x2 i).
    + by destruct (Hnew o1 x1 i).
  - by eapply (lhist_moved w w' o ca ca').
Qed.

(** A refusal brings no result. *)
Lemma refused_answer c reply :
  sv_handler c (ErrWrongLeader, None) = Some reply ->
  (forall v s, canswer v (ERpc s c) (Some reply) v) /\ result_of c reply = None.
Proof using SVL.
  intros Hr%sv_refusal. destruct c as [a|a|f|f|f]; try done; simpl; rewrite Hr;
    rewrite decide_False by (unfold definite; naive_solver); (split; [|done]); intros v _; [done|].
  split; [done|]. intros r [= <-]. by rewrite Hr.
Qed.

(** What an operation replied is the answer to the request of a waiting call. *)
Lemma served_answer w o ca s c k x op res reply :
  clinv w -> l_calls w !! o = Some ca -> ca_prog ca = Some (Call (ERpc s c) k) -> ca_wait ca = Some x ->
  (op, x) ∈ l_from w -> RsmLinear.Ret op res ∈ submitted w -> sv_handler c res = Some reply ->
  sent_by w op o /\ (forall v : cworld, canswer v (ERpc s c) (Some reply) v) /\
  forall r, result_of c reply = Some r -> replied w op r.
Proof.
  intros HI Ho Hp Hx Hf Hr Hrep. destruct (li_calls _ HI _ _ Ho) as (ob & Hb & Hok).
  destruct (cl_wait _ _ _ _ Hok _ Hx) as (s' & c' & k' & Hp' & Hm). rewrite Hp in Hp'. injection Hp' as <- <- _.
  destruct (ms_from _ (li_msgs _ HI) _ _ Hf) as (Hin & o2 & c2 & Hm2 & Hc). rewrite Hm in Hm2. injection Hm2 as <- <-.
  split; [by exists x, c|]. destruct (sv_answers m0 _ _ _ _ (li_sys _ HI) Hr Hc) as (reply' & Hrep' & Hgood).
  assert (reply' = reply) as -> by congruence. split.
  - intros v. destruct c as [a|a|f|f|f]; try done. split; [done|]. intros r [= <-].
    destruct (ms_msg _ (li_msgs _ HI) _ _ _ Hm) as (ca0 & ob0 & Ho0 & Hb0 & _ & Hid & _). rewrite Ho in Ho0. injection Ho0 as <-.
    destruct (cl_id _ _ _ _ Hok _ _ Hid) as (_ & Hz & _).
    pose proof (cl_safe _ _ _ _ Hok _ Hp _ (rtc_refl _ _)) as [(_ & _ & _ & _ & _ & Hact & _) _].
    assert (dc_ack (ob_client ob) < pa_Sequence a)%N as Hak.
    { destruct Hact as [[H1 _] Hn]. pose proof (ob_view _ (li_objs _ HI _ _ Hb)) as [_ HC _ _].
      eapply client_active_above; [exact HC|done|done]. }
    destruct Hgood as [Hd|[Hd|Hd]]; [| |by destruct (active_not_stale _ _ _ _ _ HI Ho Hb Hid Hak)].
    + unfold definite in Hd; by destruct Hd as [->|[->| ->]].
    + unfold refused in Hd; by destruct Hd as [->| ->].
  - intros r Hres. destruct (sv_result _ _ _ (li_sys _ HI) Hr) as [[rep ->]| ->]; [by exists rep, c, reply|].
    apply refused_answer in Hrep as [_ Hn]. congruence.
Qed.

Lemma clinv_step w w' : clinv w -> lsys_step w w' -> clinv w'.
Proof.
  intros HI Hs. destruct Hs as [y l Hs Hy Hn|y k o c op l Hk Hs Hy Hn Hc|i ob fuel c Hi|o ca ob e k inp ob' r Ho Hp Hb Hd Hids
    |o ca s c k Ho Hp Hw|o ca s c k Ho Hp [x Hx]|o ca s c k reply Ho Hp [x Hx] Hr|o ca s c k x op res reply Ho Hp Hx Hf Hr Hrep|o ca r Ho Hp].
  - eapply clinv_service; [done|done|done|by left].
  - eapply clinv_service; [done|done|done|right]. by exists k, o, c, op, l.
  - by apply clinv_new.
  - by eapply clinv_object.
  - destruct (li_calls _ HI _ _ Ho) as (ob & Hb & Hok).
    eapply clinv_call; [exact HI|exact Ho|by rewrite Hp|done|done|done| |by left|].
    + right. exists c. split; [done|]. intros ob0 Hb0. simplify_eq.
      pose proof (cl_honest _ _ _ _ Hok _ Hp) as Hh. simpl in Hh.
      pose proof (cl_safe _ _ _ _ Hok _ Hp _ (rtc_refl _ _)) as [Ha _].
      destruct c as [a|a|f|f|f]; try done; [by destruct Hh|]. destruct Hh as (? & ? & _). split_and!; [done|done|]. apply Ha.
    + intros ob0 _ [H1 H2 H3 _ H5]. constructor; try done. simpl. intros x [= <-]. exists s, c, k.
      split; [done|by apply list_lookup_middle].
  - destruct (li_calls _ HI _ _ Ho) as (ob & Hb & Hok). eapply clinv_resume; [exact HI|exact Ho|exact Hp| |done|by apply Hok].
    intros ob0 _ v _. by destruct c.
  - destruct (li_calls _ HI _ _ Ho) as (ob & Hb & Hok). apply refused_answer in Hr as [Ha Hn].
    eapply clinv_resume; [exact HI|exact Ho|exact Hp| | |by apply Hok].
    + intros ob0 _ v _. by apply Ha.
    + simpl. by rewrite Hn.
  - destruct (li_calls _ HI _ _ Ho) as (ob & Hb & Hok).
    destruct (served_answer _ _ _ _ _ _ _ _ _ _ HI Ho Hp Hx Hf Hr Hrep) as (Hsent & Hans & Hres).
    eapply clinv_resume; [exact HI|exact Ho|exact Hp|by intros| |]; unfold result; simpl;
      destruct (result_of c reply) as [r|]; [done|done| |by apply Hok].
    intros op' x' [= <- <-]. split; [by apply Hres|done].
  - destruct (li_calls _ HI _ _ Ho) as (ob & Hb & Hok).
    pose proof (cl_honest _ _ _ _ Hok _ Hp) as Hgot. simpl in Hgot. apply fmap_Some in Hgot as ([op r'] & Hgot & ->).
    eapply clinv_call; [exact HI|exact Ho|by rewrite Hp|done|done|done|by left| |].
    + right. by exists r', op.
    + intros ob0 _ [H1 H2 H3 H4 H5]. by constructor.
Qed.

Lemma clinv_run w w' : rtc lsys_step w w' -> clinv w -> clinv w'.
Proof. intros Hr HI. eapply (invariant_rtc lsys_step clinv); eauto using clinv_step. Qed.

(** No object has drawn an identity yet. *)
Lemma clinv_init w :
  sv_ok (l_sys w) -> (forall op, Inv op ∉ sv_hist (l_sys w)) ->
  (forall i ob, l_clerks w !! i = Some ob -> ob_inv ob /\ dc_id (ob_client ob) = 0%N) -> lsys_fresh w -> clinv w.
Proof.
  intros HS Hsub Hob (Hc & Hm & Hf & Hh).
  constructor; unfold calls_ok, ids_one, ids_distinct; rewrite ?Hc; try done.
  - intros i ob Hi. by apply (Hob i).
  - intros i j ob ob' [_ Hz]%Hob _ _. done.
  - constructor; rewrite ?Hm, ?Hf; unfold submitted; try done;
      [by intros ? ? ?%not_elem_of_nil|by intros op ?%Hsub|by intros ? ? ? ?%not_elem_of_nil].
  - constructor; rewrite ?Hc, ?Hh; try done; [by intros ? ? ?%not_elem_of_nil|by intros ? ? ?%not_elem_of_nil].
Qed.

(** ** The calls the operations of the service serve *)

(** The call that sent the request of [op]; a get serves its call only if the call took
    its result. *)
Definition who (w : lsys) (op : Op Req) : option (nat * kv_call) :=
  '(_, (_, k)) ← list_find (fun x => x.1 = op) (l_from w); '(o, c) ← l_msgs w !! k; ca ← l_calls w !! o;
  match c with
  | RPut _ => Some (o, ca_call ca)
  | RGet _ => if decide (fst <$> ca_got ca = Some op) then Some (o, ca_call ca) else None
  | _ => None
  end.

Definition serves (w : lsys) (op : Op Req) (o : nat) (ca : call_state Req) : Prop :=
  l_calls w !! o = Some ca /\ sent_by w op o /\ exists c, asks op c /\
    match c with
    | RGet a => ca_call ca = CallGet (ga_Key a) /\ fst <$> ca_got ca = Some op
    | RPut a => ca_call ca = put_call a /\ ca_id ca = Some (put_id a)
    | _ => False
    end.

(** The request an operation was sent for. *)
Lemma sent_request w op o :
  clinv w -> sent_by w op o -> exists ca ob c, l_calls w !! o = Some ca /\ asks op c /\ msg_ok (ca_call ca) (ca_id ca) ob c.
Proof.
  intros HI (k & c & Hk & Hm). destruct (ms_from _ (li_msgs _ HI) _ _ Hk) as (_ & o' & c' & Hm' & Hc).
  rewrite Hm in Hm'. injection Hm' as <- <-. destruct (ms_msg _ (li_msgs _ HI) _ _ _ Hm) as (ca & ob & Ho & _ & Hok). eauto 10.
Qed.

Lemma who_serves w op o c : clinv w -> who w op = Some (o, c) -> exists ca, serves w op o ca /\ c = ca_call ca.
Proof.
  intros HI Hw. unfold who in Hw. apply bind_Some in Hw as ([i [op' k]] & Hf & Hw).
  apply list_find_Some in Hf as (Hf & <- & _). apply list_elem_of_lookup_2 in Hf. simpl in Hw |- *.
  apply bind_Some in Hw as ([o' c'] & Hm & Hw). apply bind_Some in Hw as (ca & Ho & Hw).
  destruct (ms_from _ (li_msgs _ HI) _ _ Hf) as (_ & o1 & c1 & Hm1 & Hc). rewrite Hm in Hm1. injection Hm1 as <- <-.
  destruct (ms_msg _ (li_msgs _ HI) _ _ _ Hm) as (ca1 & ob & Ho1 & _ & Hok). rewrite Ho in Ho1. injection Ho1 as <-.
  assert (sent_by w op' o') as Hs by (by exists k, c'). exists ca.
  destruct c' as [a|a|f|f|f]; try done; [case_decide; [|done]|]; injection Hw as -> <-;
    (split; [split_and!; [done|done|]|done]); [by exists (RGet a)|exists (RPut a)]. by destruct Hok as (? & ? & _).
Qed.

Lemma serves_who w op o ca : clinv w -> serves w op o ca -> who w op = Some (o, ca_call ca).
Proof.
  intros HI (Ho & (k & c & Hk & Hm) & c' & Hc' & Hcase). unfold who.
  destruct (list_find_elem_of (fun x : Op Req * nat => x.1 = op) (l_from w) (op, k)) as [[i [op' k']] Hf]; [done|done|].
  rewrite Hf. apply list_find_Some in Hf as (Hf & Hop & _). apply list_elem_of_lookup_2 in Hf. simpl in Hop |- *. subst op'.
  rewrite (ms_one _ (li_msgs _ HI) _ _ _ Hf Hk), Hm. simpl. rewrite Ho. simpl.
  destruct (ms_from _ (li_msgs _ HI) _ _ Hk) as (_ & o1 & c1 & Hm1 & Hc1). rewrite Hm in Hm1. injection Hm1 as <- <-.
  rewrite (asks_inj _ _ _ Hc1 Hc'). destruct c' as [a|a|f|f|f]; try done. by rewrite decide_True by apply Hcase.
Qed.

(** The call a put serves. *)
Lemma put_serves w op a o ca : clinv w -> serves w op o ca -> asks op (RPut a) -> ca_call ca = put_call a /\ ca_id ca = Some (put_id a).
Proof. intros HI (_ & _ & c & Hc & Hcase) Hop. by rewrite (asks_inj _ _ _ Hc Hop) in Hcase. Qed.

Lemma who_calls w : clinv w -> who_ok (l_sys w) (who w).
Proof.
  intros HI.
  assert (forall op a, Inv op ∈ sv_hist (l_sys w) -> asks op (RPut a) ->
    exists o ca, serves w op o ca /\ ca_call ca = put_call a /\ ca_id ca = Some (put_id a)) as Hput.
  { intros op a Hin Hop. destruct (put_sent _ _ _ HI Hin Hop) as (o & ca & ob & Ho & _ & Hs & Hc & Hid & _).
    exists o, ca. split; [|done]. split_and!; [done|done|]. by exists (RPut a). }
  constructor.
  - intros op a Hin Hop. destruct (Hput _ _ Hin Hop) as (o & ca & Hs & Hc & Hid). split.
    + pose proof Hs as (Ho & _). destruct (li_calls _ HI _ _ Ho) as (ob & _ & Hok).
      by destruct (cl_id _ _ _ _ Hok _ _ Hid) as (_ & Hz & _).
    + exists o. rewrite <- Hc. by apply serves_who.
  - intros op a o c Hin Hop Hw. destruct (who_serves _ _ _ _ HI Hw) as (ca & (_ & _ & c' & Hc' & Hcase) & ->).
    rewrite (asks_inj _ _ _ Hc' Hop) in Hcase. by destruct Hcase.
  - intros op op' a a' Hin Hin' Hop Hop' Hid. destruct (Hput _ _ Hin Hop) as (o & ca & (Ho & _) & Hc & Hi).
    destruct (Hput _ _ Hin' Hop') as (o' & ca' & (Ho' & _) & Hc' & Hi').
    assert (o' = o) as -> by (eapply (li_one _ HI); [exact Ho'|exact Ho|exact Hi'|congruence]).
    assert (ca' = ca) as -> by congruence. unfold put_call in *. congruence.
Qed.

(** ** The order of the calls *)

Section order.
Context (w : lsys) (log : list (Op Req)) (lin : list (nat * kv_done)) (m : kvmap).
Context (HI : clinv w) (HX : explained m0 (l_sys w) (who w) log lin m).

Lemma place_serves p o c r :
  (p, (o, c, r)) ∈ lin -> exists op ca, log !! p = Some op /\ serves w op o ca /\ c = ca_call ca.
Proof using HI HX.
  intros (op & Hp & Hw)%(ex_who _ _ _ _ _ _ HX). destruct (who_serves _ _ _ _ HI Hw) as (ca & ? & ?). eauto.
Qed.

(** A call takes effect at one place. *)
Lemma place_once p p' o c c' r r' : (p, (o, c, r)) ∈ lin -> (p', (o, c', r')) ∈ lin -> p = p'.
Proof using HI HX.
  intros H1 H2. destruct (place_serves _ _ _ _ H1) as (op & ca & Hp & (Ho & _ & q & Hq & Hs) & _).
  destruct (place_serves _ _ _ _ H2) as (op' & ca' & Hp' & (Ho' & _ & q' & Hq' & Hs') & _).
  assert (ca' = ca) as -> by congruence.
  destruct q as [g|a| | |], q' as [g'|a'| | |]; try done; destruct Hs as [Hc Hs], Hs' as [Hc' Hs'].
  - assert (op' = op) as -> by congruence. eapply NoDup_lookup; [apply HX|done|done].
  - unfold put_call in *. congruence.
  - unfold put_call in *. congruence.
  - eapply (ex_once _ _ _ _ _ _ HX); [exact H1|exact H2|exact Hp|exact Hp'|exact Hq|exact Hq'|congruence].
Qed.

(** A call that returned took effect, and did so no later than the operation it got
    its result from. *)
Lemma returned_place o r :
  CRet o r ∈ l_hist w -> exists ca op k p c, l_calls w !! o = Some ca /\ ca_got ca = Some (op, r) /\
    log !! k = Some op /\ (p, (o, c, r)) ∈ lin /\ p <= k.
Proof using HI HX.
  intros (ca & op & Ho & _ & Hgot)%(lh_ret _ (li_hist _ HI)).
  destruct (li_calls _ HI _ _ Ho) as (ob & _ & Hok).
  destruct (cl_got _ _ _ _ Hok _ _ Hgot) as ((rep & c & reply & Hr & Hc & Hrep & Hres) & Hs).
  destruct (sent_request _ _ _ HI Hs) as (ca1 & ob1 & c1 & Ho1 & Hc1 & Hm). rewrite Ho in Ho1. injection Ho1 as <-.
  rewrite (asks_inj _ _ _ Hc1 Hc) in Hm. exists ca, op.
  destruct c as [a|a|f|f|f]; try done; simpl in Hres; case_decide as Hd; try done; injection Hres as <-.
  - assert (who w op = Some (o, ca_call ca)) as Hw.
    { apply serves_who; [done|]. split_and!; [done|done|]. exists (RGet a). by rewrite Hgot. }
    destruct (ex_get _ _ _ _ _ _ HX _ _ _ _ _ _ Hr Hc Hrep Hd Hw) as (k & Hk & Hin). exists k, k, (ca_call ca). by split_and!.
  - destruct (ex_put _ _ _ _ _ _ HX _ _ _ _ Hr Hc Hrep Hd) as (k & j & op' & a' & o' & Hk & Hj & Hl & Hop' & Hi & Hin).
    destruct (place_serves _ _ _ _ Hin) as (op2 & ca2 & Hl2 & Hs2 & _). assert (op2 = op') as -> by congruence.
    destruct (put_serves _ _ _ _ _ HI Hs2 Hop') as [_ Hi2]. destruct Hm as (_ & Hid & _).
    pose proof (li_one _ HI _ _ _ _ _ Ho (proj1 Hs2) Hid ltac:(congruence)) as <-. exists k, j, (put_call a'). by split_and!.
Qed.

(** Where the calls of the order are in the log. *)
Lemma lin_place i o : lin.*2.*1.*1 !! i = Some o -> exists p c r, lin.*1 !! i = Some p /\ (p, (o, c, r)) ∈ lin.
Proof.
  intros Hi. rewrite !list_lookup_fmap in Hi. rewrite list_lookup_fmap.
  destruct (lin !! i) as [[p [[o' c] r]]|] eqn:Hl; [|done]. simpl in Hi. injection Hi as <-.
  exists p, c, r. split; [done|by eapply list_elem_of_lookup_2].
Qed.

Lemma lin_nodup : NoDup lin.*2.*1.*1.
Proof using HI HX.
  apply NoDup_alt. intros i j o Hi Hj.
  destruct (lin_place _ _ Hi) as (p & c & r & Hp & Hin), (lin_place _ _ Hj) as (p' & c' & r' & Hp' & Hin').
  pose proof (place_once _ _ _ _ _ _ _ Hin Hin') as <-. pose proof (ex_sorted _ _ _ _ _ _ HX) as Hsort.
  destruct (Nat.lt_trichotomy i j) as [Hl|[?|Hl]]; [|done|];
    pose proof (sorted_lookup _ Hsort _ _ _ _ Hl ltac:(eassumption) ltac:(eassumption)); lia.
Qed.

(** The order respects that of the calls. *)
Lemma lin_order a b j k :
  call_precedes (l_hist w) a b -> lin.*2.*1.*1 !! j = Some a -> lin.*2.*1.*1 !! k = Some b -> j < k.
Proof using HI HX.
  intros Hab Ha Hb. destruct (lin_place _ _ Ha) as (p & c & r & Hp & Hin), (lin_place _ _ Hb) as (q & c' & r' & Hq & Hin').
  destruct (call_precedes_ret _ _ _ Hab) as [ra Hra].
  destruct (returned_place _ _ Hra) as (ca & op & x & p' & c2 & Hca & Hgot & Hx & Hinp & Hle).
  pose proof (place_once _ _ _ _ _ _ _ Hin Hinp) as <-.
  destruct (place_serves _ _ _ _ Hin') as (op' & cb & Hq' & (_ & Hs & _) & _).
  pose proof (lh_order _ (li_hist _ HI) _ _ _ _ _ _ Hab Hca Hgot Hs) as Hpre.
  pose proof (ex_order _ _ _ _ _ _ HX _ _ _ _ Hpre Hx Hq'). destruct (decide (j < k)) as [|Hjk]; [done|]. exfalso.
  destruct (decide (j = k)) as [->|]; [assert (p = q) by congruence; lia|].
  pose proof (sorted_lookup _ (ex_sorted _ _ _ _ _ _ HX) k j q p ltac:(lia) Hq Hp). lia.
Qed.

End order.

(** The calls of the clerks, in the order of their places. *)
Lemma calls_linear w : clinv w -> kv_linearizable m0 (l_hist w).
Proof using EqReq SVL.
  intros HI. destruct (sv_logged _ (li_sys _ HI)) as (log & h & HL).
  destruct (logged_explained _ _ _ _ _ (li_sys _ HI) HL (who_calls _ HI)) as (lin & m & HX).
  exists lin.*2, m. split_and!.
  - apply HX.
  - by eapply lin_nodup.
  - intros o c r ([p d] & [= <-] & Hin)%list_elem_of_fmap.
    destruct (place_serves _ _ _ _ HI HX _ _ _ _ Hin) as (op & ca & _ & (Ho & _) & ->). by apply (lh_call _ (li_hist _ HI)).
  - intros o r Hr. destruct (returned_place _ _ _ _ HI HX _ _ Hr) as (_ & _ & _ & p & c & _ & _ & _ & Hin & _).
    exists c. apply list_elem_of_fmap. by exists (p, (o, c, r)).
  - intros a b j k. by eapply lin_order.
Qed.

(** What clerks on a service promise. *)
Lemma clinv_promise w :
  clinv w -> kv_linearizable m0 (l_hist w) /\
  (forall o ca, l_calls w !! o = Some ca -> ca_prog ca <> Some Panic) /\
  (forall op res k o c, (op, k) ∈ l_from w -> l_msgs w !! k = Some (o, c) ->
     RsmLinear.Ret op res ∈ sv_hist (l_sys w) -> is_Some (sv_handler c res)).
Proof using EqReq SVL.
  intros HI. split_and!.
  - by apply calls_linear.
  - intros o ca Ho Hp. destruct (li_calls _ HI _ _ Ho) as (ob & _ & Hok). exact (cl_safe _ _ _ _ Hok _ Hp).
  - intros op res k o c Hk Hm Hres. destruct (ms_from _ (li_msgs _ HI) _ _ Hk) as (_ & o' & c' & Hm' & Hc).
    rewrite Hm in Hm'. injection Hm' as <- <-. destruct (sv_answers m0 _ _ _ _ (li_sys _ HI) Hres Hc) as (reply & -> & _). done.
Qed.

End ClerkLinear.
