(* ===== verification/ClerkSim.v ===== *)
(** * Executable schedules of clerks on a service

    [l_exec] runs one step of [ClerkSystem] chosen by an event, for a service whose
    steps are executable. *)

From S2P Require Import Prelude.
From S2P Require Import Rpc.
From S2P Require Import Dedup.
From S2P Require Import Rsm.
From S2P Require Import RsmLinear.
From S2P Require Import Prog.
From S2P Require Import Clerk.
From S2P Require Import ClerkSystem.

#[global] Instance hevent_eq_dec {Req Rep} `{EqDecision Req} `{EqDecision Rep} : EqDecision (hevent Req Rep).
Proof. solve_decision. Defined.

Section ClerkSim.
Context {Obj : Type} `{CO : ClerkObject Obj} {Y Req Rep : Type} `{SV : Service Y Req Rep} {EqReq : EqDecision Req}.

(** The steps of the service, chosen by events. *)
Context {Ev : Type} (service_exec : Ev -> Y -> option Y).
Context (service_sound : forall v y y', service_exec v y = Some y' ->
  sv_step y y' /\ sv_hist y `prefix_of` sv_hist y').

Abbreviation lsys := (LSys Obj Y Req).

Inductive l_event : Type :=
  | EvService (v : Ev)
  | EvDeliver (k : nat) (v : Ev)
  | EvCall (i fuel : nat) (c : kv_call)
  | EvObject (o : nat) (inp : ob_input)
  | EvSend (o : nat)
  | EvLost (o : nat)
  | EvStopped (o : nat)
  | EvAnswer (o i j : nat)
  | EvReturn (o : nat).

Definition no_invb (h : list (hevent Req Rep)) : bool :=
  forallb (fun e => match e with Inv _ => false | _ => true end) h.

Definition distinct_idsb (clerks : list Obj) : bool :=
  let ids := (fun ob => dc_id (ob_client ob)) <$> clerks in
  forallb (fun i => forallb (fun j => (i =? j) || negb (bool_decide (ids !! i = ids !! j)) || bool_decide (ids !! i = Some 0%N))
    (seq 0 (length ids))) (seq 0 (length ids)).

(** The program of a call at a remote call. *)
Definition at_rpc {A} (p : option (ck_prog kv_res))
    (f : forall s c, (ck_resp (ERpc s c) -> ck_prog kv_res) -> option A) : option A :=
  match p with
  | Some (Call e k) =>
      match e as e return (ck_resp e -> ck_prog kv_res) -> option A with ERpc s c => f s c | _ => fun _ => None end k
  | _ => None
  end.

(** What a step of the service adds to its history. *)
Definition added (w : lsys) (y : Y) : list (hevent Req Rep) := drop (length (sv_hist (l_sys w))) (sv_hist y).

Definition l_exec (v : l_event) (w : lsys) : option lsys :=
  match v with
  | EvService v =>
      y ← service_exec v (l_sys w);
      if no_invb (added w y) then Some (mkLSys y (l_clerks w) (l_calls w) (l_msgs w) (l_from w) (l_hist w)) else None
  | EvDeliver k v =>
      '(o, c) ← l_msgs w !! k; y ← service_exec v (l_sys w);
      match added w y with
      | Inv op :: l =>
          if decide (sv_call (op_Req op) = Some c /\ no_invb l)
          then Some (mkLSys y (l_clerks w) (l_calls w) (l_msgs w) ((op, k) :: l_from w) (l_hist w)) else None
      | _ => None
      end
  | EvCall i fuel c =>
      ob ← l_clerks w !! i;
      Some (mkLSys (l_sys w) (l_clerks w) (l_calls w ++ [new_call i fuel ob c])
        (l_msgs w) (l_from w) (l_hist w ++ [CInv (length (l_calls w)) c]))
  | EvObject o inp =>
      ca ← l_calls w !! o; ob ← l_clerks w !! ca_clerk ca;
      match ca_prog ca with
      | Some (Call e k) =>
          '(ob', r) ← ob_do inp e ob;
          if distinct_idsb (<[ca_clerk ca := ob']> (l_clerks w)) then
            Some (mkLSys (l_sys w) (<[ca_clerk ca := ob']> (l_clerks w))
              (<[o := go_on (k r) (begun e r (ca_id ca)) (ca_got ca) ca]> (l_calls w)) (l_msgs w) (l_from w) (l_hist w))
          else None
      | _ => None
      end
  | EvSend o =>
      ca ← l_calls w !! o;
      at_rpc (ca_prog ca) (fun s c _ =>
        match ca_wait ca with
        | None => Some (mkLSys (l_sys w) (l_clerks w) (<[o := waiting (length (l_msgs w)) ca]> (l_calls w))
                    (l_msgs w ++ [(o, c)]) (l_from w) (l_hist w))
        | Some _ => None
        end)
  | EvLost o =>
      ca ← l_calls w !! o;
      at_rpc (ca_prog ca) (fun s c k => _ ← ca_wait ca; Some (resume o (k None) (ca_got ca) ca w))
  | EvStopped o =>
      ca ← l_calls w !! o;
      at_rpc (ca_prog ca) (fun s c k =>
        _ ← ca_wait ca; reply ← sv_handler c (ErrWrongLeader, None); Some (resume o (k (Some reply)) (ca_got ca) ca w))
  | EvAnswer o i j =>
      ca ← l_calls w !! o; '(op, x) ← l_from w !! i;
      match sv_hist (l_sys w) !! j with
      | Some (RsmLinear.Ret op' res) =>
          if decide (op' = op /\ ca_wait ca = Some x) then
            at_rpc (ca_prog ca) (fun s c k =>
              reply ← sv_handler c res; Some (resume o (k (Some reply)) (result op c reply (ca_got ca)) ca w))
          else None
      | _ => None
      end
  | EvReturn o =>
      ca ← l_calls w !! o;
      match ca_prog ca with
      | Some (Ret r) => Some (mkLSys (l_sys w) (l_clerks w) (<[o := returned ca]> (l_calls w))
                          (l_msgs w) (l_from w) (l_hist w ++ [CRet o r]))
      | _ => None
      end
  end.

Lemma distinct_idsb_spec clerks : distinct_idsb clerks = true -> ids_distinct clerks.
Proof.
  unfold distinct_idsb. intros Hd i j ob ob' Hi Hj Heq Hne. rewrite forallb_forall in Hd.
  assert (forall k x, clerks !! k = Some x -> In k (seq 0 (length ((fun ob => dc_id (ob_client ob)) <$> clerks)))) as Hin.
  { intros k x Hk%lookup_lt_Some. apply in_seq. rewrite length_fmap. lia. }
  specialize (Hd i (Hin _ _ Hi)). rewrite forallb_forall in Hd. specialize (Hd j (Hin _ _ Hj)).
  rewrite !list_lookup_fmap, Hi, Hj in Hd. simpl in Hd. rewrite Heq in Hd.
  rewrite bool_decide_eq_true_2, orb_false_r in Hd by done.
  apply orb_true_iff in Hd as [?%Nat.eqb_eq|[= Hz]%bool_decide_eq_true]; [done|congruence].
Qed.

Lemma at_rpc_Some {A} p (f : forall s c, (ck_resp (ERpc s c) -> ck_prog kv_res) -> option A) a :
  at_rpc p f = Some a -> exists s c k, p = Some (Call (ERpc s c) k) /\ f s c k = Some a.
Proof. unfold at_rpc. destruct p as [[| | |[] k]|]; try done. eauto. Qed.

Lemma no_invb_spec h : no_invb h -> no_inv h.
Proof.
  unfold no_invb. intros Hn%Is_true_true op Hop. rewrite forallb_forall in Hn.
  apply list_elem_of_In in Hop. by specialize (Hn _ Hop).
Qed.

Lemma service_hist v (w : lsys) y :
  service_exec v (l_sys w) = Some y -> sv_hist y = sv_hist (l_sys w) ++ added w y.
Proof using service_sound. intros [_ [l Hl]]%service_sound. unfold added. by rewrite Hl, drop_app_length. Qed.

Lemma l_exec_sound v w w' : l_exec v w = Some w' -> lsys_step w w'.
Proof using service_sound.
  intros Hx. destruct v as [v|k v|i fuel c|o inp|o|o|o|o i j|o]; cbn [l_exec] in Hx.
  - apply bind_Some in Hx as (y & Hy & Hx). destruct (no_invb _) eqn:Hn; [|done]. injection Hx as <-.
    eapply L_server; [by eapply service_sound|by eapply service_hist|]. apply no_invb_spec. by rewrite Hn.
  - apply bind_Some in Hx as ([o c] & Hk & Hx). apply bind_Some in Hx as (y & Hy & Hx).
    destruct (added _ _) as [|[op|op res] l] eqn:Hd; try done.
    case_decide as Hc; [|done]. destruct Hc as [Hc Hn]. injection Hx as <-.
    eapply L_deliver; [exact Hk|by eapply service_sound| |by apply no_invb_spec|done].
    by rewrite (service_hist _ _ _ Hy), Hd.
  - apply bind_Some in Hx as (ob & Hob & [= <-]). by apply L_call.
  - apply bind_Some in Hx as (ca & Ho & Hx). apply bind_Some in Hx as (ob & Hb & Hx).
    destruct (ca_prog ca) as [[| | |e k]|] eqn:Hp; try done. apply bind_Some in Hx as ([ob' r] & Hd & Hx).
    destruct (distinct_idsb _) eqn:Hids; [|done]. injection Hx as <-. eapply L_object; eauto. by apply distinct_idsb_spec.
  - apply bind_Some in Hx as (ca & Ho & (s & c & k & Hp & Hx)%at_rpc_Some).
    destruct (ca_wait ca) eqn:Hw; [done|]. injection Hx as <-. by eapply L_send.
  - apply bind_Some in Hx as (ca & Ho & (s & c & k & Hp & Hx)%at_rpc_Some).
    apply bind_Some in Hx as (x & Hw & [= <-]). by eapply L_lost; [| |by rewrite Hw].
  - apply bind_Some in Hx as (ca & Ho & (s & c & k & Hp & Hx)%at_rpc_Some).
    apply bind_Some in Hx as (x & Hw & Hx). apply bind_Some in Hx as (reply & Hr & [= <-]).
    by eapply L_stopped; [| |by rewrite Hw|].
  - apply bind_Some in Hx as (ca & Ho & Hx). apply bind_Some in Hx as ([op x] & Hi & Hx).
    destruct (sv_hist (l_sys w) !! j) as [[op'|op' res]|] eqn:Hj; try done. case_decide as Hop; [|done].
    destruct Hop as [-> Hw]. apply at_rpc_Some in Hx as (s & c & k & Hp & Hx).
    apply bind_Some in Hx as (reply & Hr & [= <-]).
    eapply L_answer; [done|done|exact Hw|by eapply list_elem_of_lookup_2|by eapply list_elem_of_lookup_2|done].
  - apply bind_Some in Hx as (ca & Ho & Hx). destruct (ca_prog ca) as [[r| | |]|] eqn:Hp; try done.
    injection Hx as <-. by eapply L_return.
Qed.

Definition l_exec_all (vs : list l_event) (w : lsys) : option lsys := foldl (fun w v => w ← w; l_exec v w) (Some w) vs.

(** The system after a schedule; one that gets stuck changes nothing. *)
Definition l_after (vs : list l_event) (w : lsys) : lsys := default w (l_exec_all vs w).

Lemma l_after_run vs w : rtc lsys_step w (l_after vs w).
Proof using service_sound.
  unfold l_after. destruct (l_exec_all vs w) as [w'|] eqn:E; simpl; [|apply rtc_refl].
  revert w' E. unfold l_exec_all. induction vs as [|v vs IH] using rev_ind; intros w' E; [injection E as <-; apply rtc_refl|].
  rewrite foldl_app in E. simpl in E. apply bind_Some in E as (w1 & E1 & E). eapply rtc_r; [by apply IH|by apply l_exec_sound in E].
Qed.

End ClerkSim.

Arguments l_event {Obj CO} Ev.
