(* ===== verification/KvOrder.v ===== *)
(** * The log of the replicated store as executions of one store

    Replaying the log of the servers of [kvraft1] gives the executions [StoreOrder]
    speaks of: with the table, a put that is in the log many times is executed once. *)

From S2P Require Import Prelude.
From S2P Require Import Rpc.
From S2P Require Import KvSpec.
From S2P Require Import Dedup.
From S2P Require Import Persister.
From S2P Require Import Rsm.
From S2P Require Import KvRaft.
From S2P Require Import StoreOrder.

Section KvOrder.
Context `{GobKv}.

(** The execution of a request. *)
Definition kv_made (req : kv_req) (rep : kv_rep) : option s_event :=
  match req, rep with
  | KGet a, KGetReply r => Some (SGet a r)
  | KPut a, KPutReply r => Some (SPut a r)
  | _, _ => None
  end.

Lemma replay_snoc (log : list (Op kv_req)) op (kv kv2 : KVRaft) :
  replay (log ++ [op]) kv = Some kv2 ->
  exists kv1 rep, replay log kv = Some kv1 /\ kvraft_DoOp (op_Req op) kv1 = Some (kv2, rep).
Proof.
  rewrite replay_app. intros (kv1 & H1 & Hr)%bind_Some. simpl in Hr.
  apply bind_Some in Hr as ([kv3 rep] & Hd & [= ->]). eauto.
Qed.

(** One request is one execution. *)
Lemma kv_execution m h execs req kv kv' rep :
  store_history m h execs (kvr_values kv) -> table_ok (kvr_requests kv) execs -> acks_from (s_puts h) (kvr_requests kv) ->
  kvraft_DoOp req kv = Some (kv', rep) ->
  exists e execs', kv_made req rep = Some e /\ store_history m (h ++ [e]) execs' (kvr_values kv') /\
    table_ok (kvr_requests kv') execs' /\ acks_from (s_puts (h ++ [e])) (kvr_requests kv').
Proof.
  intros Hh HT HA Hd. destruct req as [a|a|]; [| |done].
  - rewrite kvraft_get_spec in Hd. destruct (spec_get (kvr_values kv) (ga_Key a)) as [[v ver] e] eqn:Hg.
    injection Hd as <- <-. exists (SGet a (mkGetReply v ver e)), execs. rewrite s_puts_app.
    split_and!; [done|by apply ST_get|done|by apply acks_from_more].
  - simpl in Hd. apply bind_Some in Hd as ([[t values] r] & Hd & He). injection He as <- <-.
    assert (Table_Do (kvr_requests kv) a (spec_apply a) (kvr_values kv) = Some (t, values, r)) as Hd'.
    { rewrite <- Hd. unfold Table_Do, spec_apply. by rewrite putLocked_spec. }
    destruct (Table_Do_acks _ _ _ _ _ _ _ HA Hd') as [HA' Hst]. exists (SPut a r). rewrite s_puts_app.
    apply (Table_Do_exec spec_apply _ _ _ _ _ _ execs) in Hd' as [(HT' & -> & _ & Hans)|(HT' & Ha & Hf)]; [| |done].
    + exists execs. split_and!; [done| |done|done].
      destruct Hans as [->|(b & ? & ?)]; [apply ST_stale; [done|rewrite s_puts_app; by apply Hst]|by eapply ST_again].
    + exists (execs ++ [(a, r)]). split_and!; [done| |done|done]. eapply ST_put; [done|done|].
      intros Hid b x Hb Hi. by apply Hf in Hb.
Qed.

(** The executions of a log. *)
Lemma kv_log_history m (log : list (Op kv_req)) : forall kv,
  replay log (mkKVRaft m Table_zero) = Some kv ->
  exists h execs, store_history m h execs (kvr_values kv) /\ table_ok (kvr_requests kv) execs /\
    acks_from (s_puts h) (kvr_requests kv) /\ length h = length log /\
    forall k op, log !! k = Some op -> exists s s' rep e, replay (take k log) (mkKVRaft m Table_zero) = Some s /\
      kvraft_DoOp (op_Req op) s = Some (s', rep) /\ h !! k = Some e /\ kv_made (op_Req op) rep = Some e.
Proof.
  induction log as [|op log IH] using rev_ind; intros kv2 Hr.
  { simpl in Hr. injection Hr as <-. exists [], []. split_and!; [constructor|apply table_ok_zero|apply acks_from_zero|done|done]. }
  apply replay_snoc in Hr as (kv1 & rep & Hr & Hd). destruct (IH kv1 Hr) as (h & execs & Hh & HT & HA & Hl & Hat).
  destruct (kv_execution _ _ _ _ _ _ _ Hh HT HA Hd) as (e & execs' & He & Hh' & HT' & HA').
  exists (h ++ [e]), execs'. split_and!; [done|done|done|rewrite !length_app; simpl; lia|].
  intros k op' [Hk|[-> ->]]%lookup_snoc_cases.
  - rewrite take_app_le by (apply lookup_lt_Some in Hk; lia).
    destruct (Hat _ _ Hk) as (s & s' & rep' & e' & ? & ? & ? & ?). exists s, s', rep', e'.
    split_and!; [done|done|by apply lookup_app_l_Some|done].
  - rewrite take_app_length. exists kv1, kv2, rep, e. split_and!; [done|done|by rewrite <- Hl; apply list_lookup_middle|done].
Qed.

End KvOrder.
