(* ===== verification/KvCluster.v ===== *)
(** * The replicated key/value service as a whole

    [RsmCluster] with the service of [KvRaft] on every server: Raft, the state
    machine layer, the store and the de-duplication table together execute every
    put at most once, whatever happens to messages and servers. *)

From S2P Require Import Prelude.
From S2P Require Import Rpc.
From S2P Require Import KvSpec.
From S2P Require Import Dedup.
From S2P Require Import Persister.
From S2P Require Import Raft.
From S2P Require Import Rsm.
From S2P Require Import RsmCluster.
From S2P Require Import KvRaft.

Section KvCluster.
Context {GL : GobLog} `{GobKv}.
Context (as_op : option Cmd -> option (Op kv_req)) (maxraftstate : Z).

(** [replay] with the replies. *)
Lemma replay_kv (log : list (Op kv_req)) : forall kv kv',
  replay log kv = Some kv' -> exists reps, kv_replay (op_Req <$> log) kv = Some (kv', reps).
Proof.
  induction log as [|op log IH]; intros kv kv' Hr; simpl in Hr; [injection Hr as <-; by exists []|].
  apply bind_Some in Hr as ([kv1 rep] & H1 & Hr). apply IH in Hr as [reps Hr].
  exists (rep :: reps). csimpl. cbn in H1. rewrite H1. simpl. by rewrite Hr.
Qed.

Lemma state_at_kv m log x kv :
  state_at (mkKVRaft m Table_zero) log x kv ->
  exists reps, kv_replay (take (Z.to_nat x) (op_Req <$> log)) (mkKVRaft m Table_zero) = Some (kv, reps).
Proof. intros [_ Hr]. rewrite <- fmap_take. by apply replay_kv. Qed.

(** C4. The replicated store as a whole: in every run of a cluster of servers, on
    whatever values [m] they start, there is one sequence of executed puts, each
    asked for by a command given to [Start], in which no identified put occurs
    twice, such that the values of every server are those after some prefix of the
    sequence, run against the contract [spec_put], and every reply any server ever
    produced is right: a put got the reply of the one execution of its identity or
    was refused as stale, and a get read the values after some prefix. *)
Theorem kv_service_exactly_once (L : GobLogLaws) (KL : GobKvLaws) n m w0 w :
  sys_init maxraftstate (mkKVRaft m Table_zero) n w0 ->
  rtc (sys_step as_op maxraftstate (mkKVRaft m Table_zero)) w0 w ->
  exists execs : list (PutArgs * PutReply),
    NoDup (put_id <$> filter (fun a => pa_ClientID a <> 0%N) execs.*1) /\
    (forall a, a ∈ execs.*1 -> exists command op,
       command ∈ sy_started w /\ as_op command = Some op /\ op_Req op = KPut a) /\
    (forall i sv, sy_servers w !! i = Some sv -> exists k,
       exec_run spec_apply (take k execs) m (kvr_values (rs_sm (sv_rsm sv)))) /\
    (forall i index op reply, (i, index, op, reply) ∈ sy_done w -> reply_ok m execs (op_Req op) reply).
Proof.
  intros H0 Hr.
  destruct (one_log as_op maxraftstate _ L (KVRaft_machine_laws KL) n w0 w w H0 Hr (rtc_refl _ _))
    as (log & kv & Hlog & Hfrom & Hsv & Hdone).
  apply replay_kv in Hlog as [reps Hlog].
  destruct (kv_replay_exec m _ [] _ _ _ (executed_to_init m) Hlog) as (execs & [_ [_ _ _ Hnd]] & Hsub & Hrep & Hpre).
  exists execs. split_and!; [done| | |].
  - intros a Ha. eapply elem_of_sublist in Ha; [|exact Hsub]. unfold puts in Ha.
    apply list_elem_of_omap in Ha as (r & Hin & Hp). apply list_elem_of_fmap in Hin as (op & -> & Hin).
    apply Hfrom in Hin as (command & ? & ?). exists command, op. destruct (op_Req op); by simplify_eq.
  - intros i sv Hi. destruct (Hsv w i sv (or_introl eq_refl) Hi) as [_ Hst].
    apply state_at_kv in Hst as [repsk Hk]. destruct (Hpre _ _ _ Hk) as (j & Hj & _). by exists j.
  - intros i x op rep (Hop & s & s' & Hst & Hd)%Hdone. apply state_at_kv in Hst as [repsk Hk].
    assert ((op_Req <$> log) !! Z.to_nat (x - 1) = Some (op_Req op)) as Hop' by (by rewrite list_lookup_fmap, Hop).
    pose proof (kv_replay_reply _ _ _ _ _ _ _ _ _ _ Hlog Hop' Hk Hd) as Hrk.
    by eapply Forall2_lookup_lr.
Qed.

End KvCluster.
