(* ===== verification/RsmSim.v ===== *)
(** * Executable schedules of a replicated service

    [sys_exec] runs one step of [RsmCluster] chosen by an event, on top of the
    schedules of [RaftSim].  At the end three servers of the key/value store of
    [KvRaft] execute a retried put, take snapshots and restart, and the theorems of
    [RsmCluster] and [KvCluster] are applied to the run. *)

From S2P Require Import Prelude.
From S2P Require Import Rpc.
From S2P Require Import KvSpec.
From S2P Require Import Dedup.
From S2P Require Import Persister.
From S2P Require Import Raft.
From S2P Require Import RaftRPC.
From S2P Require Import RaftPersist.
From S2P Require Import RaftCluster.
From S2P Require Import RaftSim.
From S2P Require Import RaftApply.
From S2P Require Import Rsm.
From S2P Require Import RsmCluster.
From S2P Require Import RsmLinear.
From S2P Require Import KvRaft.
From S2P Require Import RsmSrv.
From S2P Require Import KvCluster.

Section RsmSim.
Context {GL : GobLog}.
Context {St Req Rep : Type} `{SM : StateMachine St Req Rep}.
Context (as_op : option Cmd -> option (Op Req)) (maxraftstate : Z) (s0 : St).

Inductive sys_event : Type :=
  | VNet (e : event)
  | VStart (i : nat) (command : option Cmd)
  | VDeliver (i : nat)
  | VReceive (i : nat)
  | VSnapshot (i : nat)
  | VRestart (clk : Clock) (epoch : N) (i : nat).

Definition sys_exec (v : sys_event) (w : System (St := St) (Req := Req) (Rep := Rep)) : option System :=
  match v with
  | VNet e => if is_net e then c' ← exec e (sy_cluster w); Some (set_cluster c' w) else None
  | VStart i command =>
      rf ← cl_nodes (sy_cluster w) !! i; '(rf', _) ← Start command rf;
      Some (add_started command (set_cluster (set_node i rf' (sy_cluster w)) w))
  | VDeliver i =>
      rf ← cl_nodes (sy_cluster w) !! i; sv ← sy_servers w !! i; '(rf', act) ← applier rf;
      Some (set_server i (mkServer (sv_rsm sv) (sv_queue sv ++ sent act) (sv_snap sv) (sv_pos sv))
        (set_cluster (set_node i rf' (sy_cluster w)) w))
  | VReceive i =>
      rf ← cl_nodes (sy_cluster w) !! i; sv ← sy_servers w !! i;
      match sv_queue sv, sv_snap sv with
      | m :: queue, None =>
          '(r', up) ← rsm_apply as_op (PersistBytes rf) m (sv_rsm sv);
          Some (mkSystem (sy_cluster w) (<[i := mkServer r' queue up (msg_index m)]> (sy_servers w)) (sy_started w)
            (sy_done w ++ ((fun '(op, reply) => (i, msg_index m, op, reply)) <$> executed as_op m (sv_rsm sv))))
      | _, _ => None
      end
  | VSnapshot i =>
      rf ← cl_nodes (sy_cluster w) !! i; sv ← sy_servers w !! i; '(index, data) ← sv_snap sv;
      rf' ← Snapshot index data rf;
      Some (set_server i (mkServer (sv_rsm sv) (sv_queue sv) None (sv_pos sv))
        (set_cluster (set_node i rf' (sy_cluster w)) w))
  | VRestart clk epoch i =>
      rf ← cl_nodes (sy_cluster w) !! i; inc ← cl_inc (sy_cluster w) !! i; sv ← sy_servers w !! i;
      if hard_in_rangeb rf then
        r ← MakeRSM (Z.of_nat i) maxraftstate epoch (persister rf) s0;
        rf' ← Make clk (peers rf) i (persister rf);
        Some (set_server i (mkServer r [] None (lastIncludedIndex rf'))
          (set_cluster (mkCluster (<[i:=rf']> (cl_nodes (sy_cluster w))) (<[i:=S inc]> (cl_inc (sy_cluster w)))
            (cl_votes (sy_cluster w)) (cl_calls (sy_cluster w))) w))
      else None
  end.

Definition is_server (v : sys_event) : bool :=
  match v with VStart _ _ | VRestart _ _ _ => false | _ => true end.

Lemma sys_exec_server v w w' : is_server v = true -> sys_exec v w = Some w' -> server_step as_op w w'.
Proof.
  intros Hv Hx. destruct v; try done; simpl in Hx.
  - destruct (is_net e) eqn:Hn; [|done]. inv_exec Hx. simplify_eq. eapply Y_net. by eapply exec_net_sound.
  - inv_exec Hx. simplify_eq. by eapply Y_deliver.
  - apply bind_Some in Hx as (rf & Hrf & Hx). apply bind_Some in Hx as (sv & Hsv & Hx).
    destruct (sv_queue sv) as [|m queue] eqn:Hq; [done|]. destruct (sv_snap sv) eqn:Hs; [done|].
    inv_exec Hx. simplify_eq. by eapply Y_receive.
  - inv_exec Hx. simplify_eq. by eapply Y_snapshot.
Qed.

Lemma sys_exec_restart clk epoch i w w' :
  sys_exec (VRestart clk epoch i) w = Some w' -> restart_step maxraftstate s0 w i epoch w'.
Proof. intros Hx. simpl in Hx. inv_exec Hx. simplify_eq. eapply Y_restart; eauto. by apply hard_in_rangeb_spec. Qed.

Lemma sys_exec_sound v w w' : sys_exec v w = Some w' -> sys_step as_op maxraftstate s0 w w'.
Proof.
  intros Hx. destruct (is_server v) eqn:Hv; [by eapply Y_server, sys_exec_server|].
  destruct v; try done; [simpl in Hx; inv_exec Hx; simplify_eq; by eapply Y_start|by eapply Y_reboot, sys_exec_restart].
Qed.

Fixpoint sys_exec_all (vs : list sys_event) (w : System) : option System :=
  match vs with
  | [] => Some w
  | v :: vs' => w' ← sys_exec v w; sys_exec_all vs' w'
  end.

(** The system after a schedule; one that gets stuck changes nothing. *)
Definition sys_after (vs : list sys_event) (w : System) : System := default w (sys_exec_all vs w).

Lemma sys_after_run vs w : rtc (sys_step as_op maxraftstate s0) w (sys_after vs w).
Proof.
  unfold sys_after. destruct (sys_exec_all vs w) as [w'|] eqn:E; simpl; [|apply rtc_refl].
  revert w E. induction vs as [|v vs IH]; intros w E; simpl in E; [injection E as <-; apply rtc_refl|].
  apply bind_Some in E as (w1 & H1 & E). eapply rtc_l; [by eapply sys_exec_sound|by apply IH].
Qed.

(** [n] servers on the cluster [c], each with an empty disk. *)
Definition sys_boot (c : Cluster) (n : nat) : System (St := St) (Req := Req) (Rep := Rep) :=
  mkSystem c ((fun i => mkServer (mkRSM (Z.of_nat i) maxraftstate s0 7 0 ∅ ∅ false false) [] None 0) <$> seq 0 n) [] [].

Lemma sys_boot_init c n : cluster_init n c -> sys_init maxraftstate s0 n (sys_boot c n).
Proof.
  intros Hc. split_and!; [done|simpl; by rewrite length_fmap, length_seq|done|done|].
  simpl. intros i sv Hi. apply list_lookup_fmap_Some in Hi as (x & -> & Hx). apply lookup_seq in Hx as [-> _].
  split_and!; try done. exists 7%N. done.
Qed.

(** ** Calls in progress

    The events of [RsmLinear]. *)
Context {req_dec : EqDecision Req}.

#[local] Instance op_eq_dec : EqDecision (Op Req).
Proof using req_dec. solve_decision. Defined.

Inductive call_event : Type :=
  | CServer (v : sys_event)
  | CSubmit (i : nat) (req : Req)
  | CStart (i ch : nat) (command : option Cmd)
  | CReturn (i ch : nat) (ev : wait_event)
  | CRestart (clk : Clock) (epoch : N) (i : nat).

Definition tick_okb (rf : Raft) (ev : wait_event) : bool :=
  match ev with WaitTick t l => bool_decide (GetState rf = (t, l)) | _ => true end.

Definition new_epoch (h : list (hevent Req Rep)) (i : nat) (epoch : N) : bool :=
  forallb (fun e => match e with
    | Inv op => bool_decide (op_Server op <> Z.of_nat i \/ op_Epoch op <> epoch)
    | Ret _ _ => true
    end) h.

Definition call_exec (v : call_event) (w : CSys (St := St) (Req := Req) (Rep := Rep)) : option CSys :=
  match v with
  | CServer v => if is_server v then y ← sys_exec v (cs_sys w); Some (mkCSys y (cs_pending w) (cs_hist w)) else None
  | CSubmit i req =>
      sv ← sy_servers (cs_sys w) !! i; calls ← cs_pending w !! i;
      if decide (rs_nextSequence (sv_rsm sv) + 1 < two64)%N then
        '(r', op, ch) ← submit_register req (sv_rsm sv);
        Some (mkCSys (set_rsm i r' sv (cs_sys w)) (<[i := <[ch := (op, None)]> calls]> (cs_pending w))
          (cs_hist w ++ [Inv op]))
      else None
  | CStart i ch command =>
      rf ← cl_nodes (sy_cluster (cs_sys w)) !! i; sv ← sy_servers (cs_sys w) !! i; calls ← cs_pending w !! i;
      match calls !! ch with
      | Some (op, None) =>
          if decide (as_op command = Some op) then
            '(rf', (index, term, isLeader)) ← Start command rf;
            if isLeader : bool then
              Some (mkCSys (add_started command (set_cluster (set_node i rf' (sy_cluster (cs_sys w))) (cs_sys w)))
                (<[i := <[ch := (op, Some term)]> calls]> (cs_pending w)) (cs_hist w))
            else
              Some (mkCSys (set_rsm i (removeWaiter (op_id op) ch (sv_rsm sv)) sv (cs_sys w))
                (<[i := delete ch calls]> (cs_pending w)) (cs_hist w ++ [Ret op (ErrWrongLeader, None)]))
          else None
      | _ => None
      end
  | CReturn i ch ev =>
      rf ← cl_nodes (sy_cluster (cs_sys w)) !! i; sv ← sy_servers (cs_sys w) !! i; calls ← cs_pending w !! i;
      match calls !! ch with
      | Some (op, Some term) =>
          if tick_okb rf ev then
            '(r', res) ← wait_step term ch ev (sv_rsm sv);
            res ← res;
            Some (mkCSys (set_rsm i (removeWaiter (op_id op) ch r') sv (cs_sys w))
              (<[i := delete ch calls]> (cs_pending w)) (cs_hist w ++ [Ret op res]))
          else None
      | _ => None
      end
  | CRestart clk epoch i =>
      if new_epoch (cs_hist w) i epoch then
        y ← sys_exec (VRestart clk epoch i) (cs_sys w);
        Some (mkCSys y (<[i := ∅]> (cs_pending w)) (cs_hist w))
      else None
  end.

Lemma tick_okb_spec rf ev : tick_okb rf ev = true -> tick_ok rf ev.
Proof. destruct ev; try done. apply bool_decide_eq_true. Qed.

Lemma new_epoch_spec h i epoch op :
  new_epoch h i epoch = true -> Inv op ∈ h -> op_Server op = Z.of_nat i -> op_Epoch op <> epoch.
Proof.
  unfold new_epoch. rewrite forallb_forall. intros Hall Hin%list_elem_of_In Hs.
  apply Hall, bool_decide_eq_true in Hin. naive_solver.
Qed.

Lemma Start_refused command rf rf' index term :
  Start command rf = Some (rf', (index, term, false)) -> rf' = rf.
Proof.
  unfold Start. destruct (_ || _); [by intros [= <- _ _]|]. intros Hx.
  repeat (apply bind_Some in Hx as (? & _ & Hx)). by destruct x3.
Qed.

Lemma call_exec_sound v w w' : call_exec v w = Some w' -> call_step as_op maxraftstate s0 w w'.
Proof.
  intros Hx. destruct v as [v|i req|i ch command|i ch ev|clk epoch i]; simpl in Hx.
  - destruct (is_server v) eqn:Hv; [|done]. apply bind_Some in Hx as (y & Hy & [= <-]).
    eapply K_server. by eapply sys_exec_server.
  - inv_exec Hx. simplify_eq. by eapply K_submit.
  - apply bind_Some in Hx as (rf & Hrf & Hx). apply bind_Some in Hx as (sv & Hsv & Hx).
    apply bind_Some in Hx as (calls & Hp & Hx). destruct (calls !! ch) as [[op [t|]]|] eqn:Hc; try done.
    case_decide as Hop; [|done]. apply bind_Some in Hx as ([rf' [[index term] isLeader]] & Hs & Hx).
    destruct isLeader; injection Hx as <-; [by eapply K_start|].
    pose proof (Start_refused _ _ _ _ _ Hs) as ->. by eapply K_not_leader.
  - apply bind_Some in Hx as (rf & Hrf & Hx). apply bind_Some in Hx as (sv & Hsv & Hx).
    apply bind_Some in Hx as (calls & Hp & Hx). destruct (calls !! ch) as [[op [t|]]|] eqn:Hc; try done.
    destruct (tick_okb rf ev) eqn:Ht; [|done]. apply bind_Some in Hx as ([r' res] & Hw & Hx).
    apply bind_Some in Hx as (res' & -> & [= <-]). eapply K_return; eauto. by apply tick_okb_spec.
  - destruct (new_epoch _ _ _) eqn:He; [|done]. apply bind_Some in Hx as (y & Hy & [= <-]).
    eapply K_restart; [|by eapply sys_exec_restart]. intros op. by apply new_epoch_spec.
Qed.

Fixpoint call_exec_all (vs : list call_event) (w : CSys) : option CSys :=
  match vs with
  | [] => Some w
  | v :: vs' => w' ← call_exec v w; call_exec_all vs' w'
  end.

Definition call_after (vs : list call_event) (w : CSys) : CSys := default w (call_exec_all vs w).

Lemma call_after_run vs w : rtc (call_step as_op maxraftstate s0) w (call_after vs w).
Proof.
  unfold call_after. destruct (call_exec_all vs w) as [w'|] eqn:E; simpl; [|apply rtc_refl].
  revert w E. induction vs as [|v vs IH]; intros w E; simpl in E; [injection E as <-; apply rtc_refl|].
  apply bind_Some in E as (w1 & H1 & E). eapply rtc_l; [by eapply call_exec_sound|by apply IH].
Qed.

Definition call_boot (c : Cluster) (n : nat) : CSys := mkCSys (sys_boot c n) (replicate n ∅) [].

Lemma call_boot_init c n : cluster_init n c -> call_init maxraftstate s0 n (call_boot c n).
Proof. intros Hc. split_and!; [by apply sys_boot_init|done|done]. Qed.
End RsmSim.

(** ** A store of three servers

    The same put is started twice; the leader commits both and executes the first,
    as does a follower; then the leader takes a snapshot, executes the second, takes
    another and restarts from it. *)

Definition store_op (c : option (@Cmd BitLog)) : option (Op kv_req) :=
  n ← (c : option nat); Some (mkOp 0 7 (N.of_nat n) (if decide (n < 3) then KPut ex_put1 else KGet (mkGetArgs "k"))).

Definition store0 : KVRaft := mkKVRaft ∅ Table_zero.

Definition store_boot : System := sys_boot (Req := kv_req) (Rep := kv_rep) 0 store0 cluster0 3.

Definition store_commit : System := sys_after store_op 0 store0
  [VNet (EElection (at_ms 800) 0); VNet (EDeliver (at_ms 801) 0); VNet (EReply (at_ms 802) 0); VNet (EDrop 0);
   VStart 0 (Some 1); VStart 0 (Some 2); VNet (EReplicate 0 1); VNet (EDeliver (at_ms 803) 0);
   VNet (EReply (at_ms 804) 0); VDeliver 0; VReceive 0;
   VNet (EReplicate 0 1); VNet (EDeliver (at_ms 805) 0); VDeliver 1; VReceive 1] store_boot.

Definition store_end : System := sys_after store_op 0 store0
  [VSnapshot 0; VReceive 0; VSnapshot 0; VRestart (at_ms 806) 8 0] store_commit.
Lemma store_boot_init : sys_init 0 store0 3 store_boot.
Proof. apply sys_boot_init, cluster0_init. Qed.

Lemma store_run_commit : rtc (sys_step store_op 0 store0) store_boot store_commit.
Proof. apply sys_after_run. Qed.

Lemma store_run_end : rtc (sys_step store_op 0 store0) store_commit store_end.
Proof. apply sys_after_run. Qed.

Lemma store_run : rtc (sys_step store_op 0 store0) store_boot store_end.
Proof. etrans; [apply store_run_commit|apply store_run_end]. Qed.

Definition store_put (n : N) : Op kv_req := mkOp 0 7 n (KPut ex_put1).

Lemma store_done : sy_done store_end =
  [(0, 1%Z, store_put 1, KPutReply (mkPutReply OK)); (1, 1%Z, store_put 1, KPutReply (mkPutReply OK));
   (0, 2%Z, store_put 2, KPutReply (mkPutReply OK))].
Proof. vm_compute. reflexivity. Qed.

Definition server_view (w : System (St := KVRaft) (Req := kv_req) (Rep := kv_rep)) (i : nat) : option (Z * KVRaft) :=
  (fun sv => (sv_pos sv, rs_sm (sv_rsm sv))) <$> sy_servers w !! i.

Lemma server_view_at w i pos kv :
  server_view w i = Some (pos, kv) -> exists sv, sy_servers w !! i = Some sv /\ sv_pos sv = pos /\ rs_sm (sv_rsm sv) = kv.
Proof. unfold server_view. intros (sv & -> & Hi)%fmap_Some. simplify_eq. by exists sv. Qed.

(** Server 0 restarted with both commands executed, server 1 has executed one. *)
Lemma store_servers : server_view store_end 0 = Some (2%Z, ex_store) /\ server_view store_end 1 = Some (1%Z, ex_store).
Proof. split; vm_compute; reflexivity. Qed.

#[local] Opaque store_boot store_commit store_end.

Lemma replicas_agree_witness : exists log : list (Op kv_req),
  log !! 0 = Some (store_put 1) /\ log !! 1 = Some (store_put 2) /\
  state_at store0 log 2 ex_store /\ state_at store0 log 1 ex_store.
Proof.
  destruct (replicas_agree store_op 0 store0 BitLog_laws (KVRaft_machine_laws BitKv_laws) 3 store_boot store_commit
    store_end store_boot_init store_run_commit store_run_end) as (log & _ & Hsv & Hdone).
  destruct store_servers as [H0 H1]. apply server_view_at in H0 as (sv0 & Hi0 & Hp0 & Hs0).
  apply server_view_at in H1 as (sv1 & Hi1 & Hp1 & Hs1). rewrite store_done in Hdone.
  exists log. split; [|split; [|split]].
  - refine (proj1 (Hdone 0 1%Z _ (KPutReply (mkPutReply OK)) _)). left.
  - refine (proj1 (Hdone 0 2%Z _ (KPutReply (mkPutReply OK)) _)). right. right. left.
  - rewrite <- Hp0, <- Hs0. apply (Hsv store_end 0 sv0); [by right|done].
  - rewrite <- Hp1, <- Hs1. apply (Hsv store_end 1 sv1); [by right|done].
Defined.

Lemma kv_service_exactly_once_witness : exists execs : list (PutArgs * PutReply),
  NoDup (put_id <$> filter (fun a => pa_ClientID a <> 0%N) execs.*1) /\
  (exists k, exec_run spec_apply (take k execs) ∅ (kvr_values ex_store)) /\
  reply_ok ∅ execs (KPut ex_put1) (KPutReply (mkPutReply OK)).
Proof.
  destruct (kv_service_exactly_once store_op 0 BitLog_laws BitKv_laws 3 ∅ store_boot store_end store_boot_init store_run)
    as (execs & Hnd & _ & Hsv & Hdone).
  destruct store_servers as [H0 _]. apply server_view_at in H0 as (sv0 & Hi0 & _ & Hs0). rewrite store_done in Hdone.
  exists execs. split; [exact Hnd|]. split; [rewrite <- Hs0; by apply (Hsv 0)|].
  apply (Hdone 0 1%Z (store_put 1)). left.
Defined.

(** ** Calls on three servers

    A put at the leader, and a get at a follower, which is not the leader; then a
    get at the leader after the put returned. *)

Definition call_op (c : option (@Cmd BitLog)) : option (Op kv_req) :=
  n ← (c : option nat);
  Some (mkOp (Z.of_nat (n `div` 10)) 7 (N.of_nat (n `mod` 10))
    (if decide (n = 1) then KPut ex_put1 else KGet (mkGetArgs "k"))).

#[local] Instance kv_req_eq_dec : EqDecision kv_req.
Proof. solve_decision. Defined.

Definition calls_boot : CSys := call_boot (Req := kv_req) (Rep := kv_rep) (-1) store0 cluster0 3.

(** The first server is elected; one command of its log is committed and applied. *)
Definition elect_first {Req : Type} : list (call_event (GL := BitLog) (Req := Req)) :=
  CServer <$> [VNet (EElection (at_ms 800) 0); VNet (EDeliver (at_ms 801) 0); VNet (EReply (at_ms 802) 0); VNet (EDrop 0)].

Definition commit_one {Req : Type} (t : Z) : list (call_event (GL := BitLog) (Req := Req)) :=
  CServer <$> [VNet (EReplicate 0 1); VNet (EDeliver (at_ms t) 0); VNet (EReply (at_ms (t + 1)) 0); VDeliver 0; VReceive 0].

Definition calls_end : CSys := call_after call_op (-1) store0
  (elect_first ++
   [CSubmit 0 (KPut ex_put1); CSubmit 1 (KGet (mkGetArgs "k")); CStart 0 0 (Some 1); CStart 1 0 (Some 11)] ++
   commit_one 803 ++ [CReturn 0 0 WaitResult; CSubmit 0 (KGet (mkGetArgs "k")); CStart 0 1 (Some 2)] ++
   commit_one 805 ++ [CReturn 0 1 WaitResult]) calls_boot.

Definition call_put : Op kv_req := mkOp 0 7 1 (KPut ex_put1).

Definition call_get (server : Z) (n : N) : Op kv_req := mkOp server 7 n (KGet (mkGetArgs "k")).

Definition calls_hist : list (hevent kv_req kv_rep) :=
  [Inv call_put; Inv (call_get 1 1); Ret (call_get 1 1) (ErrWrongLeader, None);
   Ret call_put (OK, Some (KPutReply (mkPutReply OK)));
   Inv (call_get 0 2); Ret (call_get 0 2) (OK, Some (KGetReply (mkGetReply "v" 1 OK)))].

Lemma calls_end_hist : cs_hist calls_end = calls_hist.
Proof. vm_compute. reflexivity. Qed.

Lemma calls_run : rtc (call_step call_op (-1) store0) calls_boot calls_end.
Proof. apply call_after_run. Qed.

Lemma calls_boot_init : call_init (-1) store0 3 calls_boot.
Proof. apply call_boot_init, cluster0_init. Qed.

#[local] Opaque calls_boot calls_end.

Lemma submit_linearizable_witness : cs_hist calls_end = calls_hist /\ linearizable store0 calls_hist.
Proof.
  split; [exact calls_end_hist|]. rewrite <- calls_end_hist.
  apply (submit_linearizable call_op (-1) store0 BitLog_laws (KVRaft_machine_laws BitKv_laws) 3 calls_boot calls_end
    calls_boot_init calls_run).
Defined.
