(* ===== verification/RfSim.v ===== *)
(** * Executable schedules of the service Raft is tested with

    [rf_exec] runs one step of [RfSrv] chosen by an event, on top of the schedules of
    [RaftSim].  At the end three servers commit nine commands, the leader takes a
    snapshot and restarts from it, a follower reports what the leader reported until its
    connection breaks, and [raft_checks_pass] is applied to the run. *)

From S2P Require Import Prelude.
From S2P Require Import BitCodec.
From S2P Require Import Persister.
From S2P Require Import Raft.
From S2P Require Import RaftRPC.
From S2P Require Import RaftPersist.
From S2P Require Import RaftCluster.
From S2P Require Import RaftSim.
From S2P Require Import RaftApply.
From S2P Require Import RsmCluster.
From S2P Require Import RfSrv.
From S2P Require Import RfChecks.

Section RfSim.
Context {GL : GobLog} {GR : GobRf} `{!EqDecision Cmd} (withSnap : bool).

Inductive rf_event : Type :=
  | RNet (e : event)
  | RStart (i : nat) (command : option Cmd)
  | RDeliver (i : nat)
  | RReceive (i : nat) (a1 a2 : bool)
  | RCut (i : nat)
  | RLate (i : nat)
  | RSnapshot (i : nat)
  | RRestart (clk : Clock) (i : nat) (answered : bool)
  | RRound
  | RPoll (i : nat) (answered : bool).

Definition rf_exec (v : rf_event) (w : RfSys) : option RfSys :=
  match v with
  | RNet e =>
      if is_net e then
        c' ← exec e (rz_cluster w); Some (mkRfSys c' (rz_servers w) (rz_tester w) (rz_started w) (rz_polls w))
      else None
  | RStart i command =>
      rf ← cl_nodes (rz_cluster w) !! i; '(rf', _) ← Start command rf;
      Some (mkRfSys (set_node i rf' (rz_cluster w)) (rz_servers w) (rz_tester w) (command :: rz_started w) (rz_polls w))
  | RDeliver i =>
      rf ← cl_nodes (rz_cluster w) !! i; sv ← rz_servers w !! i; '(rf', act) ← applier rf;
      Some (with_node i rf' w (mkRfServer (rz_srv sv) (rz_queue sv ++ sent act) (rz_snap sv) (rz_link sv) (rz_seen sv)))
  | RReceive i a1 a2 =>
      sv ← rz_servers w !! i;
      match rz_queue sv, rz_snap sv with
      | m :: queue, None =>
          '(rs', (ln, ts'), up) ← rf_receive withSnap i m a1 a2 (rz_srv sv) (rz_link sv, rz_tester w);
          Some (mkRfSys (rz_cluster w) (<[i := mkRfServer rs' queue up ln (seen_after withSnap m (rz_seen sv))]> (rz_servers w))
            ts' (rz_started w) (rz_polls w))
      | _, _ => None
      end
  | RCut i =>
      sv ← rz_servers w !! i;
      Some (mkRfSys (rz_cluster w)
        (<[i := mkRfServer (rz_srv sv) (rz_queue sv) (rz_snap sv) (link_cut (rz_link sv)) (rz_seen sv)]> (rz_servers w))
        (rz_tester w) (rz_started w) (rz_polls w))
  | RLate i =>
      sv ← rz_servers w !! i; rq ← ln_late (rz_link sv); '(ts', e, b) ← serve i rq (rz_tester w);
      Some (mkRfSys (rz_cluster w)
        (<[i := mkRfServer (rz_srv sv) (rz_queue sv) (rz_snap sv) (mkLink (ln_up (rz_link sv)) None) (rz_seen sv)]> (rz_servers w))
        ts' (rz_started w) (rz_polls w))
  | RSnapshot i =>
      rf ← cl_nodes (rz_cluster w) !! i; sv ← rz_servers w !! i; '(index, data) ← rz_snap sv;
      rf' ← Snapshot index data rf;
      Some (with_node i rf' w (mkRfServer (rz_srv sv) (rz_queue sv) None (rz_link sv) (rz_seen sv)))
  | RRestart clk i answered =>
      rf ← cl_nodes (rz_cluster w) !! i; inc ← cl_inc (rz_cluster w) !! i; sv ← rz_servers w !! i;
      if hard_in_rangeb rf then
        '(rs, ingest) ← newRfsrv withSnap (persister rf);
        rf' ← Make clk (peers rf) i (persister rf);
        '(ln, ts') ← newRfsrv_ingest i rs ingest answered (rz_tester w);
        Some (mkRfSys
          (mkCluster (<[i := rf']> (cl_nodes (rz_cluster w))) (<[i := S inc]> (cl_inc (rz_cluster w)))
            (cl_votes (rz_cluster w)) (cl_calls (rz_cluster w)))
          (<[i := mkRfServer rs [] None ln (if (ingest : bool) then snapshot_seen (ReadSnapshot (persister rf)) else [])]>
            (rz_servers w))
          ts' (rz_started w) (rz_polls w))
      else None
  | RRound => Some (mkRfSys (rz_cluster w) (rz_servers w) (rz_tester w) (rz_started w) [])
  | RPoll i answered =>
      rf ← cl_nodes (rz_cluster w) !! i;
      if decide (i ∈ (rz_polls w).*1) then None
      else Some (mkRfSys (rz_cluster w) (rz_servers w) (rz_tester w) (rz_started w) (rz_polls w ++ [(i, Rfproxy_GetState answered rf)]))
  end.

Lemma rf_exec_sound v w w' : rf_exec v w = Some w' -> rf_step withSnap w w'.
Proof.
  intros Hx. destruct v as [e|i command|i|i a1 a2|i|i|i|clk i a| |i a]; simpl in Hx.
  - destruct (is_net e) eqn:Hn; [|done]. inv_exec Hx. simplify_eq. eapply Z_net. by eapply exec_net_sound.
  - inv_exec Hx. simplify_eq. by eapply Z_start.
  - inv_exec Hx. simplify_eq. by eapply Z_deliver.
  - apply bind_Some in Hx as (sv & Hsv & Hx).
    destruct (rz_queue sv) as [|m queue] eqn:Hq; [done|]. destruct (rz_snap sv) eqn:Hs; [done|].
    inv_exec Hx. simplify_eq. by eapply Z_receive.
  - inv_exec Hx. simplify_eq. by apply Z_cut.
  - apply bind_Some in Hx as (sv & Hsv & Hx). apply bind_Some in Hx as (rq & Hrq & Hx).
    apply bind_Some in Hx as ([[ts' e] b] & Hs & [= <-]). by apply (Z_late withSnap w i sv rq ts' (e, b)).
  - inv_exec Hx. simplify_eq. by eapply Z_snapshot.
  - inv_exec Hx. simplify_eq. eapply Z_restart; eauto. by apply hard_in_rangeb_spec.
  - simplify_eq. apply Z_round.
  - inv_exec Hx. case_decide; [done|]. simplify_eq. by apply Z_poll.
Qed.

Fixpoint rf_exec_all (vs : list rf_event) (w : RfSys) : option RfSys :=
  match vs with
  | [] => Some w
  | v :: vs' => w' ← rf_exec v w; rf_exec_all vs' w'
  end.

(** The system after a schedule; one that gets stuck changes nothing. *)
Definition rf_after (vs : list rf_event) (w : RfSys) : RfSys := default w (rf_exec_all vs w).

Lemma rf_after_run vs w : rtc (rf_step withSnap) w (rf_after vs w).
Proof.
  unfold rf_after. destruct (rf_exec_all vs w) as [w'|] eqn:E; simpl; [|apply rtc_refl].
  revert w E. induction vs as [|v vs IH]; intros w E; simpl in E; [injection E as <-; apply rtc_refl|].
  apply bind_Some in E as (w1 & H1 & E). eapply rtc_l; [by eapply rf_exec_sound|by apply IH].
Qed.

(** [n] servers on the cluster [c], each with an empty disk. *)
Definition rf_boot (c : Cluster) (n : nat) : RfSys :=
  mkRfSys c (replicate n (mkRfServer (mkRfsrv 0 ∅) [] None (mkLink true None) [])) (mkTest (replicate n (mkRaftServer ∅ None)) 0) [] [].

Lemma rf_boot_init c n : cluster_init n c -> rf_init n (rf_boot c n).
Proof. by intros Hc. Qed.

End RfSim.

(** ** Three servers, nine commands *)

#[local] Instance BitRf : GobRf (GL := BitLog) := {|
  gob_snap := fun i l => bits_encode (A := Z * list (option nat)) (i, l);
  ungob_snap := fun bs => fst <$> bits_decode (A := Z * list (option nat)) bs |}.

#[local] Instance BitRf_laws : GobRfLaws (GL := BitLog).
Proof.
  constructor; simpl.
  - intros i l. by rewrite <- (app_nil_r (bits_encode _)), bits_decode_encode.
  - intros i l. apply bits_encode_nonempty.
Qed.

#[local] Instance bit_cmd_eq_dec : EqDecision (@Cmd BitLog).
Proof. simpl. apply _. Defined.

Definition rf_boot3 : RfSys (GL := BitLog) := rf_boot cluster0 3.

Definition start_nine : list (rf_event (GL := BitLog)) := map (fun c : nat => RStart (GL := BitLog) 0 (Some c)) (seq 1 9).

(** Node 0 leads, commits nine commands, reports them, takes the snapshot and restarts
    from it; node 1 learns what is committed and reports one; its connection breaks while
    it reports the second, which the tester still serves, its report of the third and of
    the error fail, and so does a poll. *)
Definition rf_end : RfSys (GL := BitLog) := rf_after true
  ([RNet (EElection (at_ms 800) 0); RNet (EDeliver (at_ms 801) 0); RNet (EReply (at_ms 802) 0); RNet (EDrop 0)] ++
   start_nine ++
   [RNet (EReplicate 0 1); RNet (EDeliver (at_ms 803) 0); RNet (EReply (at_ms 804) 0);
    RNet (EReplicate 0 1); RNet (EDeliver (at_ms 805) 0); RDeliver 0; RDeliver 1] ++
   replicate 9 (RReceive 0 true true) ++ [RReceive 1 true true; RReceive 1 false true; RReceive 1 true true; RLate 1; RSnapshot 0;
    RPoll 0 true; RPoll 1 true; RPoll 2 false; RCut 0; RRestart (at_ms 806) 0 true]) rf_boot3.

Lemma rf_boot3_init : rf_init 3 rf_boot3.
Proof. apply rf_boot_init, cluster0_init. Qed.

Lemma rf_run : rtc (rf_step true) rf_boot3 rf_end.
Proof. apply rf_after_run. Qed.

(** What was reported at the end: server 0 restarted from its snapshot of nine commands. *)
Lemma rf_end_reports :
  nCommitted 2 (rz_tester rf_end) = Some (2%Z, Some 2) /\ nCommitted 9 (rz_tester rf_end) = Some (1%Z, Some 9) /\
  rz_polls rf_end = [(0, (1%Z, true)); (1, (1%Z, false)); (2, (0%Z, false))] /\
  map (fun sv => ln_up (rz_link sv)) (rz_servers rf_end) = [true; false; true] /\
  map (fun sv => rv_lastApplied (rz_srv sv)) (rz_servers rf_end) = [9%Z; 3%Z; 0%Z].
Proof. vm_compute. done. Qed.

#[local] Opaque rf_boot3 rf_end.

Lemma raft_checks_pass_witness :
  nCommitted 9 (rz_tester rf_end) = Some (1%Z, Some 9) /\
  (forall i sv m queue a1 a2, rz_servers rf_end !! i = Some sv -> rz_queue sv = m :: queue ->
     is_Some (rf_receive true i m a1 a2 (rz_srv sv) (rz_link sv, rz_tester rf_end))) /\
  (forall i sv, rz_servers rf_end !! i = Some sv -> ln_up (rz_link sv) = true ->
     exists ts, ts_srvs (rz_tester rf_end) !! i = Some ts /\ forall k, (1 <= k <= zlen (rz_seen sv))%Z -> is_Some (ts_logs ts !! k)) /\
  (forall i ts, ts_srvs (rz_tester rf_end) !! i = Some ts -> ts_applyErr ts = None) /\
  (forall index, is_Some (nCommitted index (rz_tester rf_end))) /\
  is_Some (checkLeaders (rz_polls rf_end)) /\
  (forall i rf, cl_nodes (rz_cluster rf_end) !! i = Some rf -> is_Some (newRfsrv true (persister rf))).
Proof.
  split; [apply rf_end_reports|].
  exact (raft_checks_pass true BitLog_laws BitRf_laws 3 rf_boot3 rf_end rf_boot3_init rf_run).
Defined.
