(* ===== verification/KvClerk.v ===== *)
(** * The clerks of the key/value services ([kvsrv1/client.go], [kvraft1/client.go])

    A clerk retries over a network that loses requests and replies; a request
    given up may still reach the server later.  The theorems say what each answer
    of [Put] tells about the executions of the request, and that the leader a
    clerk of a replicated service remembers is always one of its servers. *)

From S2P Require Import Prelude.
From S2P Require Import Rpc.
From S2P Require Import KvSpec.
From S2P Require Import KvSrv.
From S2P Require Import Dedup.
From S2P Require Import Prog.

(** ** The clerk of the single server *)

(** A remote call; the response is [None] when [Call] returned false. *)
Inductive srv_call : Type := CallGet (args : GetArgs) | CallPut (args : PutArgs).

Definition srv_reply (c : srv_call) : Type :=
  match c with CallGet _ => option GetReply | CallPut _ => option PutReply end.

Abbreviation srv_prog := (prog srv_reply).

Fixpoint get_loop (fuel : nat) (args : GetArgs) : srv_prog (string * Tversion * Err) :=
  match fuel with
  | O => Spin
  | S fuel' =>
      Call (CallGet args) (fun r : option GetReply =>
        match r with
        | None => get_loop fuel' args
        | Some reply =>
            match gr_Err reply with
            | OK => Ret (gr_Value reply, gr_Version reply, OK)
            | ErrNoKey => Ret ("", 0%N, ErrNoKey)
            | _ => get_loop fuel' args
            end
        end)
  end.

Definition kvsrv_Clerk_Get (fuel : nat) (key : string) : srv_prog (string * Tversion * Err) :=
  get_loop fuel (mkGetArgs key).

Fixpoint put_loop (fuel : nat) (args : PutArgs) (resent : bool) : srv_prog Err :=
  match fuel with
  | O => Spin
  | S fuel' =>
      Call (CallPut args) (fun r : option PutReply =>
        match r with
        | None => put_loop fuel' args true
        | Some reply =>
            match pr_Err reply with
            | OK => Ret OK
            | ErrNoKey => Ret ErrNoKey
            | ErrVersion => if resent then Ret ErrMaybe else Ret ErrVersion
            | _ => put_loop fuel' args true
            end
        end)
  end.

Definition kvsrv_Clerk_Put (fuel : nat) (key value : string) (version : Tversion) : srv_prog Err :=
  put_loop fuel (mkPutArgs key value version 0 0 0) false.

(** ** One call of Put

    [own] are the arguments of the call. *)
Section one_put.
Context (own : PutArgs).

(** The server, the number of puts it executed, the errors its executions of
    [own] had, and whether a copy of [own] was given up and may still arrive. *)
Record pworld : Type := mkPworld {
pw_srv : KVServer;
pw_puts : N;
pw_errs : list Err;
pw_late : bool;
}.

(** Executing a put; versions do not wrap around below [2^64] puts. *)
Inductive pexec (a : PutArgs) : pworld -> Err -> pworld -> Prop :=
| pexec_put w srv' r :
    (pw_puts w + 1 < two64)%N -> kvsrv_Put (pw_srv w) a PutReply_zero = (srv', r) ->
    pexec a w (pr_Err r) (mkPworld srv' (pw_puts w + 1) (pw_errs w) (pw_late w)).

Definition note (e : Err) (w : pworld) : pworld :=
mkPworld (pw_srv w) (pw_puts w) (pw_errs w ++ [e]) (pw_late w).

(** Other clerks' puts, and copies of [own] that arrive late. *)
Inductive penv : pworld -> pworld -> Prop :=
| penv_other a w e w' : pexec a w e w' -> penv w w'
| penv_late w e w' : pw_late w = true -> pexec own w e w' -> penv w (note e w').

(** An attempt is answered by an execution, or it is given up. *)
Inductive panswer (w : pworld) : forall c : srv_call, srv_reply c -> pworld -> Prop :=
| panswer_put e w' : pexec own w e w' -> panswer w (CallPut own) (Some (mkPutReply e)) (note e w')
| panswer_lost : panswer w (CallPut own) None (mkPworld (pw_srv w) (pw_puts w) (pw_errs w) true)
| panswer_get args r : panswer w (CallGet args) r w.

(** The executions that took effect. *)
Definition applied (errs : list Err) : nat := length (filter (fun e => e = OK) errs).

(** At most one execution takes effect, and then the key is past its version. *)
Record pinv (w : pworld) : Prop := {
pv_below : versions_below (pw_puts w) (cs_view (pw_srv w));
pv_puts : (pw_puts w < two64)%N;
pv_once : applied (pw_errs w) = 0 \/
  (applied (pw_errs w) = 1 /\ (pa_Version own < version_of (cs_view (pw_srv w)) (pa_Key own))%N);
}.

Lemma pexec_spec a w e w' : pexec a w e w' ->
  cs_view (pw_srv w') = (spec_put (cs_view (pw_srv w)) a).1 /\ e = (spec_put (cs_view (pw_srv w)) a).2 /\
  pw_puts w' = (pw_puts w + 1)%N /\ (pw_puts w' < two64)%N /\ pw_errs w' = pw_errs w /\ pw_late w' = pw_late w.
Proof.
  intros [srv srv' r Hn H]. simpl. pose proof (kvsrv_Put_spec (pw_srv srv) a PutReply_zero) as Hs.
  rewrite H in Hs. cbn in *. destruct Hs as [? ?]. split_and!; auto.
Qed.

Lemma spec_put_answers m a : (spec_put m a).2 = OK \/ (spec_put m a).2 = ErrVersion \/ (spec_put m a).2 = ErrNoKey.
Proof. unfold spec_put. destruct (m !! pa_Key a); case_decide; auto. Qed.

Lemma applied_snoc errs e : applied (errs ++ [e]) = applied errs + (if decide (e = OK) then 1 else 0).
Proof.
  unfold applied. rewrite filter_app, length_app. f_equal. case_decide as H.
  - by rewrite filter_cons_True.
  - by rewrite filter_cons_False.
Qed.

(** Executing any put keeps the server's part of the invariant and lowers no version. *)
Lemma pexec_inv a w e w' :
  pexec a w e w' -> pinv w -> pinv w' /\
  (version_of (cs_view (pw_srv w)) (pa_Key own) <= version_of (cs_view (pw_srv w')) (pa_Key own))%N.
Proof.
  intros H [Hb Hn Ho]. apply pexec_spec in H as (Hv & _ & Hp & Hlt & He & _).
  assert (version_of (cs_view (pw_srv w)) (pa_Key own) <= version_of (cs_view (pw_srv w')) (pa_Key own))%N as Hle.
  { rewrite Hv, (spec_put_version_step (pw_puts w)) by (auto; lia). case_decide; lia. }
  split; [|done]. constructor; auto.
  - rewrite Hv, Hp. apply spec_put_versions_below; [lia|done].
  - rewrite He. destruct Ho as [?|[? ?]]; [by left|right]. split; [done|lia].
Qed.

Lemma own_inv w e w' : pexec own w e w' -> pinv w -> pinv (note e w') /\
  (e = OK -> applied (pw_errs (note e w')) = 1) /\ (e = OK \/ e = ErrVersion \/ e = ErrNoKey).
Proof.
  intros H HI. destruct (pexec_inv _ _ _ _ H HI) as [[Hb Hn Ho] _]. destruct HI as [Hb0 Hn0 Ho0].
  apply pexec_spec in H as (Hv & He & Hp & Hlt & Herr & _).
  assert (e = OK -> applied (pw_errs w) = 0 /\ (pa_Version own < version_of (cs_view (pw_srv w')) (pa_Key own))%N) as Hok.
  { intros ->. symmetry in He. pose proof (spec_put_ok_version _ _ He) as Hver. split.
    - destruct Ho0 as [?|[_ ?]]; [done|lia].
    - rewrite Hv, (spec_put_version_step (pw_puts w)) by (auto; lia). rewrite decide_True by done. lia. }
  split_and!.
  - constructor; simpl; auto. rewrite applied_snoc. rewrite Herr in *. case_decide as Hd.
    + destruct (Hok Hd) as [-> ?]. by right.
    + by rewrite Nat.add_0_r.
  - intros Hd. simpl. rewrite applied_snoc, Herr, decide_True by done. destruct (Hok Hd) as [-> _]. done.
  - rewrite He. apply spec_put_answers.
Qed.

Lemma penv_inv w w' : penv w w' -> pinv w -> pinv w' /\ pw_late w' = pw_late w /\
  (pw_late w = false -> pw_errs w' = pw_errs w) /\ (forall e, e ∈ pw_errs w -> e ∈ pw_errs w') /\
  applied (pw_errs w) <= applied (pw_errs w').
Proof.
  intros [a w1 e w2 H|w1 e w2 Hl H] HI.
  - destruct (pexec_inv _ _ _ _ H HI) as [HI' _]. apply pexec_spec in H as (_ & _ & _ & _ & He & Hl).
    rewrite He. by split_and!.
  - destruct (own_inv _ _ _ H HI) as (HI' & _). apply pexec_spec in H as (_ & _ & _ & _ & He & Hl').
    simpl. rewrite He, applied_snoc. split_and!; auto; [congruence| |lia].
    intros x Hx. apply elem_of_app. by left.
Qed.

Lemma penv_rtc_inv w w' : rtc penv w w' -> pinv w -> pinv w' /\ pw_late w' = pw_late w /\
  (pw_late w = false -> pw_errs w' = pw_errs w) /\ (forall e, e ∈ pw_errs w -> e ∈ pw_errs w') /\
  applied (pw_errs w) <= applied (pw_errs w').
Proof.
  induction 1 as [w|w w1 w2 H _ IH]; intros HI; [by split_and!|].
  destruct (penv_inv _ _ H HI) as (H1 & H2 & H3 & H4 & H5).
  destruct (IH H1) as (G1 & G2 & G3 & G4 & G5). split_and!; auto; [congruence| |lia].
  intros Hl. rewrite G3, H3; congruence.
Qed.

Lemma panswer_inv w (r : option PutReply) w2 : panswer w (CallPut own) r w2 ->
  (exists e w', r = Some (mkPutReply e) /\ w2 = note e w' /\ pexec own w e w') \/
  (r = None /\ w2 = mkPworld (pw_srv w) (pw_puts w) (pw_errs w) true).
Proof.
  assert (forall c r, panswer w c r w2 ->
    match c as c return srv_reply c -> Prop with
    | CallPut _ => fun r => (exists e w', r = Some (mkPutReply e) /\ w2 = note e w' /\ pexec own w e w') \/
        (r = None /\ w2 = mkPworld (pw_srv w) (pw_puts w) (pw_errs w) true)
    | CallGet _ => fun _ => True
    end r) as H by (intros c r' []; eauto 10).
  apply H.
Qed.

(** What an answer of [Put] says about the executions of its request. *)
Definition put_verdict (w : pworld) (e : Err) : Prop :=
pinv w /\
match e with
| OK => applied (pw_errs w) = 1
| ErrVersion => pw_errs w = [ErrVersion] /\ pw_late w = false
| ErrNoKey => ErrNoKey ∈ pw_errs w
| ErrMaybe => pw_late w = true /\ ErrVersion ∈ pw_errs w
| _ => False
end.

Lemma put_verdict_stable w w' e : put_verdict w e -> rtc penv w w' -> put_verdict w' e.
Proof.
  intros [HI Hv] H. destruct (penv_rtc_inv _ _ H HI) as (H1 & H2 & H3 & H4 & H5). split; [done|].
  destruct e; try done; auto.
  - destruct H1 as [_ _ [?|[? _]]]; lia.
  - destruct Hv as [Hv Hl]. split; [|congruence]. rewrite H3; auto.
  - destruct Hv. split; [congruence|auto].
Qed.

Lemma put_loop_safe fuel : forall resent w,
  pinv w -> (resent = false -> pw_errs w = [] /\ pw_late w = false) -> (resent = true -> pw_late w = true) ->
  safe penv panswer (fun _ c => c = CallPut own) (put_loop fuel own resent) put_verdict w.
Proof.
  induction fuel as [|fuel IH]; intros resent w HI Hf Ht; simpl; [done|].
  intros w1 Hw. destruct (penv_rtc_inv _ _ Hw HI) as (H1 & H2 & H3 & H4 & H5). split; [done|].
  intros r w2 [(e & w' & -> & -> & p)|[-> ->]]%panswer_inv.
  - simpl. destruct (own_inv _ _ _ p H1) as (HI' & Hok & Hcase).
    apply pexec_spec in p as (_ & _ & _ & _ & He & Hl).
    destruct Hcase as [->|[->| ->]]; [| |]; try destruct resent; simpl; intros w3 Hw3;
      (eapply put_verdict_stable; [|exact Hw3]); (split; [done|]); simpl; auto.
    + split; [rewrite Hl, H2; auto|]. apply elem_of_app. right. left.
    + destruct (Hf eq_refl) as [Hf1 Hf2]. rewrite He, Hl, H2, H3, Hf1, Hf2 by done. done.
    + apply elem_of_app. right. left.
    + apply elem_of_app. right. left.
  - apply IH; [|done|done]. destruct H1. by constructor.
Qed.

End one_put.

(** C27. What the clerk of the single server tells its caller: in every run of [Put]
    against a server that other clerks write to, over a network that loses requests
    and replies and delivers late copies, [Put] does not panic; if it returns OK,
    exactly one execution of the request took or will ever take effect; if it
    returns ErrVersion, none did or ever will; if it returns ErrMaybe, an attempt had
    been given up and another found a different version, and at most one execution
    ever takes effect; if it returns ErrNoKey, an execution found no key. *)
Theorem clerk_put_sound fuel key value version w0 :
  versions_below (pw_puts w0) (cs_view (pw_srv w0)) -> (pw_puts w0 < two64)%N ->
  pw_errs w0 = [] -> pw_late w0 = false ->
  let own := mkPutArgs key value version 0 0 0 in
  ~ panics (penv own) (panswer own) (kvsrv_Clerk_Put fuel key value version) w0 /\
  forall e w w', runs (penv own) (panswer own) (kvsrv_Clerk_Put fuel key value version) w0 e w ->
    rtc (penv own) w w' ->
    applied (pw_errs w') <= 1 /\ put_verdict own w' e /\ (e = ErrVersion -> applied (pw_errs w') = 0).
Proof.
  intros Hb Hn He Hl own.
  assert (pinv own w0) as HI by (constructor; [done|done|left; by rewrite He]).
  assert (safe (penv own) (panswer own) (fun _ c => c = CallPut own) (kvsrv_Clerk_Put fuel key value version)
    (put_verdict own) w0) as Hs by (by apply put_loop_safe).
  split; [by eapply safe_panics|]. intros e w w' Hr Hw.
  assert (put_verdict own w' e) as Hv by (eapply put_verdict_stable; [eapply safe_runs; eauto|done]).
  split_and!; [|done|].
  - destruct Hv as [[_ _ [?|[? _]]] _]; lia.
  - intros ->. destruct Hv as [_ [-> _]]. done.
Qed.

(** ** An instance: a put on an empty server *)

Definition ex_pworld : pworld := mkPworld MakeKVServer 0 [] false.

Lemma ex_pworld_below : versions_below (pw_puts ex_pworld) (cs_view (pw_srv ex_pworld)).
Proof. intros k e H. simpl in H. by rewrite lookup_empty in H. Qed.

Lemma clerk_put_sound_witness :
  ~ panics (penv (mkPutArgs "k" "v" 0 0 0 0)) (panswer (mkPutArgs "k" "v" 0 0 0 0)) (kvsrv_Clerk_Put 3 "k" "v" 0) ex_pworld.
Proof. apply (clerk_put_sound 3 "k" "v" 0 ex_pworld ex_pworld_below eq_refl eq_refl eq_refl). Defined.
