(* ===== verification/ShardMove.v ===== *)
(** * Shards moving between groups ([shardkv1/shardgrp/server.go] under the controller's plan)

    Several groups, their clients, and any number of controllers that carry out
    the same plan of moves: Freeze at the source, Install of the data at the
    target, Delete at the source once an Install was answered.  Requests are
    delayed, repeated, reordered and lost at will.  The theorem says that a shard
    is served by at most one group, and that over all groups the shard behaves as
    one conditional store with exactly-once puts. *)

From S2P Require Import Prelude.
From S2P Require Import Rpc.
From S2P Require Import KvSpec.
From S2P Require Import Dedup.
From S2P Require Import Persister.
From S2P Require Import KvRaft.
From S2P Require Import ShardCfg.
From S2P Require Import ShardGrp.

Section ShardMove.
Context {GG : GobGrp}.

(** [moves num shard] are the source and the target of the shard in the
    configuration [num], when it moves; [ShardCtrler] shows that a number has one
    plan. *)
Context (moves : Z -> Z -> option (Tgid * Tgid)).

(** A request executed by a group with its reply. *)
Abbreviation mevent := (Tgid * grp_req * grp_rep)%type.

(** The groups' state machines, the data Freeze replies carried, the Installs
    answered OK, and the clients' requests in the order they were executed. *)
Record mworld : Type := mkMworld {
mw_groups : gmap Tgid GrpServer;
mw_data : list (Z * Z * bytes);
mw_done : list (Z * Z);
mw_hist : list mevent;
}.

Definition client_req (req : grp_req) : bool :=
match req with GGet _ | GPut _ => true | _ => false end.

Definition freeze_data (s n : Z) (rep : grp_rep) : list (Z * Z * bytes) :=
match rep with GFreezeReply r => if decide (fr_Err r = OK) then [(s, n, fr_State r)] else [] | _ => [] end.

Definition install_done (s n : Z) (rep : grp_rep) : list (Z * Z) :=
match rep with GInstallReply r => if decide (ir_Err r = OK) then [(s, n)] else [] | _ => [] end.

Inductive mstep (w : mworld) : mworld -> Prop :=
| M_client g kv req kv' rep :
    client_req req = true -> mw_groups w !! g = Some kv -> grp_DoOp req kv = Some (kv', rep) ->
    mstep w (mkMworld (<[g := kv']> (mw_groups w)) (mw_data w) (mw_done w) (mw_hist w ++ [(g, req, rep)]))
| M_freeze s n src dst kv kv' rep :
    moves n s = Some (src, dst) -> mw_groups w !! src = Some kv ->
    grp_DoOp (GFreeze (mkFreezeShardArgs s n)) kv = Some (kv', rep) ->
    mstep w (mkMworld (<[src := kv']> (mw_groups w)) (freeze_data s n rep ++ mw_data w) (mw_done w) (mw_hist w))
| M_install s n src dst d kv kv' rep :
    moves n s = Some (src, dst) -> (s, n, d) ∈ mw_data w -> mw_groups w !! dst = Some kv ->
    grp_DoOp (GInstall (mkInstallShardArgs s d n)) kv = Some (kv', rep) ->
    mstep w (mkMworld (<[dst := kv']> (mw_groups w)) (mw_data w) (install_done s n rep ++ mw_done w) (mw_hist w))
| M_delete s n src dst kv kv' rep :
    moves n s = Some (src, dst) -> (s, n) ∈ mw_done w -> mw_groups w !! src = Some kv ->
    grp_DoOp (GDelete (mkDeleteShardArgs s n)) kv = Some (kv', rep) ->
    mstep w (mkMworld (<[src := kv']> (mw_groups w)) (mw_data w) (mw_done w) (mw_hist w)).

(** The groups as [StartServerShardGrp] makes them. *)
Definition minit (w : mworld) : Prop :=
is_Some (mw_groups w !! Gid1) /\ (forall g kv, mw_groups w !! g = Some kv -> kv = StartServerShardGrp g) /\
mw_data w = [] /\ mw_done w = [] /\ mw_hist w = [].

(** The state of shard [s] in group [g]. *)
Definition shard_at (s : Z) (w : mworld) (g : Tgid) : option shardState :=
kv ← mw_groups w !! g; zlookup (grp_shards kv) s.

(** ** The shard as one store

    [shard_history s hist execs m]: executed one after the other on one store, the
    requests of [hist] about shard [s] have the recorded replies, execute the puts
    [execs] and leave the values [m].  Requests refused by a group that does not
    serve the shard have no effect; an identified put is executed at most once. *)
Inductive shard_history (s : Z) : list mevent -> list (PutArgs * PutReply) -> kvmap -> Prop :=
| SH_nil : shard_history s [] [] ∅
| SH_other h execs m g req rep :
    shard_history s h execs m -> req_shard req <> s ->
    shard_history s (h ++ [(g, req, rep)]) execs m
| SH_get_wrong_group h execs m g a :
    shard_history s h execs m ->
    shard_history s (h ++ [(g, GGet a, GGetReply (mkGetReply "" 0 ErrWrongGroup))]) execs m
| SH_put_wrong_group h execs m g a :
    shard_history s h execs m ->
    shard_history s (h ++ [(g, GPut a, GPutReply (mkPutReply ErrWrongGroup))]) execs m
| SH_get h execs m g a v ver e :
    shard_history s h execs m -> req_shard (GGet a) = s -> spec_get m (ga_Key a) = (v, ver, e) ->
    shard_history s (h ++ [(g, GGet a, GGetReply (mkGetReply v ver e))]) execs m
| SH_put h execs m g a m' r :
    shard_history s h execs m -> req_shard (GPut a) = s -> spec_apply a m = Some (m', r) ->
    (pa_ClientID a <> 0%N -> forall b x, (b, x) ∈ execs -> put_id b <> put_id a) ->
    shard_history s (h ++ [(g, GPut a, GPutReply r)]) (execs ++ [(a, r)]) m'
| SH_put_again h execs m g a r :
    shard_history s h execs m -> req_shard (GPut a) = s -> pa_ClientID a <> 0%N ->
    (r = mkPutReply ErrStaleRequest \/ exists b, (b, r) ∈ execs /\ put_id b = put_id a) ->
    shard_history s (h ++ [(g, GPut a, GPutReply r)]) execs m.

(** ** The invariant of a shard *)

(** [h] holds the shard in state [st]: it serves it, or it froze it for a move
    whose target has not installed it yet. *)
Definition holds (s : Z) (w : mworld) (h : Tgid) (st : shardState) : Prop :=
shard_at s w h = Some st /\
((sh_Status st = shardServing /\ forall g st', shard_at s w g = Some st' -> (sh_ConfigNum st' <= sh_ConfigNum st)%Z) \/
 (sh_Status st = shardFrozen /\ (exists dst, moves (sh_ConfigNum st) s = Some (h, dst)) /\
  forall g st', g <> h -> shard_at s w g = Some st' -> (sh_ConfigNum st' < sh_ConfigNum st)%Z)) /\
forall g st', g <> h -> shard_at s w g = Some st' -> sh_Status st' <> shardServing.

(** The move [n] of the shard was completed: its target is past it. *)
Definition moved (s : Z) (w : mworld) (n : Z) : Prop :=
exists src dst st, moves n s = Some (src, dst) /\ shard_at s w dst = Some st /\ (n <= sh_ConfigNum st)%Z.

Record minv (s : Z) (w : mworld) (h : Tgid) (st : shardState) (execs : list (PutArgs * PutReply)) : Prop := {
mi_all : forall g, is_Some (mw_groups w !! g) -> is_Some (shard_at s w g);
mi_holds : holds s w h st;
mi_hist : shard_history s (mw_hist w) execs (sh_Values st);
mi_table : table_ok (sh_Requests st) execs;
mi_frozen : forall g st', g <> h -> shard_at s w g = Some st' -> sh_Status st' = shardFrozen ->
  moved s w (sh_ConfigNum st');
mi_data : forall n d, (s, n, d) ∈ mw_data w -> moved s w n \/
  (sh_Status st = shardFrozen /\ sh_ConfigNum st = n /\ decodeShardTransfer d = Some (sh_Values st, sh_Requests st));
mi_done : forall n, (s, n) ∈ mw_done w -> moved s w n;
}.

(** What a step of group [g] does to shard [s]. *)
Definition shard_step (s : Z) (w w' : mworld) (g : Tgid) (st st' : shardState) : Prop :=
shard_at s w g = Some st /\ shard_at s w' g = Some st' /\
(forall g', g' <> g -> shard_at s w' g' = shard_at s w g') /\
(forall g', is_Some (mw_groups w' !! g') -> is_Some (mw_groups w !! g')).

Lemma shard_step_op s w w' g kv kv' req rep :
  mw_groups w !! g = Some kv -> mw_groups w' = <[g := kv']> (mw_groups w) -> grp_DoOp req kv = Some (kv', rep) ->
  is_Some (shard_at s w g) ->
  exists st st', shard_step s w w' g st st' /\
    ((req_shard req = s /\ shard_op req st = Some (st', rep)) \/ (req_shard req <> s /\ st' = st)).
Proof.
  intros Hg Hw H [st Hst]. apply grp_DoOp_spec in H as (st1 & st1' & Ha & Hop & Hb & Ho).
  assert (zlookup (grp_shards kv) s = Some st) as Hs.
  { unfold shard_at in Hst. by rewrite Hg in Hst. }
  assert (forall g', g' <> g -> shard_at s w' g' = shard_at s w g') as Hframe.
  { intros g' Hne. unfold shard_at. by rewrite Hw, lookup_insert_ne. }
  assert (shard_at s w' g = zlookup (grp_shards kv') s) as Hw'.
  { unfold shard_at. by rewrite Hw, lookup_insert_eq. }
  assert (forall g', is_Some (mw_groups w' !! g') -> is_Some (mw_groups w !! g')) as Hdom.
  { intros g'. rewrite Hw, lookup_insert_is_Some'. intros [<-|?]; eauto. }
  destruct (decide (req_shard req = s)) as [<-|Hne].
  - exists st1, st1'. split; [|left; done]. split_and!; [congruence|congruence|done|done].
  - exists st, st. split; [|right; done]. split_and!; [done| |done|done]. rewrite Hw', Ho; auto.
Qed.

Lemma moved_mono s w w' g st st' n :
  shard_step s w w' g st st' -> (sh_ConfigNum st <= sh_ConfigNum st')%Z -> moved s w n -> moved s w' n.
Proof.
  intros (H1 & H2 & H3 & _) Hle (src & dst & sd & Hm & Hd & Hn).
  destruct (decide (dst = g)) as [->|Hne].
  - exists src, g, st'. split_and!; auto. assert (sd = st) as -> by congruence. lia.
  - exists src, dst, sd. by rewrite H3.
Qed.

(** Where the shard is after a step. *)
Lemma shard_step_at s w w' g st st' g0 st0 :
  shard_step s w w' g st st' -> shard_at s w' g0 = Some st0 ->
  (g0 = g /\ st0 = st') \/ (g0 <> g /\ shard_at s w g0 = Some st0).
Proof.
  intros (H1 & H2 & H3 & _) H. destruct (decide (g0 = g)) as [->|Hne]; [left|right].
  - split; [done|congruence].
  - by rewrite <- H3.
Qed.

Lemma shard_step_all s w w' g st st' :
  shard_step s w w' g st st' -> (forall g, is_Some (mw_groups w !! g) -> is_Some (shard_at s w g)) ->
  forall g, is_Some (mw_groups w' !! g) -> is_Some (shard_at s w' g).
Proof.
  intros (H1 & H2 & H3 & H4) Hall g' Hg'. destruct (decide (g' = g)) as [->|Hne]; [eauto|].
  rewrite H3 by done. auto.
Qed.

(** A group whose shard does not change. *)
Lemma minv_same s w w' g st st0 h execs :
  shard_step s w w' g st st -> minv s w h st0 execs ->
  (forall n d, (s, n, d) ∈ mw_data w' -> (s, n, d) ∈ mw_data w \/ moved s w n \/
     (sh_Status st0 = shardFrozen /\ sh_ConfigNum st0 = n /\ decodeShardTransfer d = Some (sh_Values st0, sh_Requests st0))) ->
  (forall n, (s, n) ∈ mw_done w' -> (s, n) ∈ mw_done w \/ moved s w n) ->
  shard_history s (mw_hist w') execs (sh_Values st0) -> minv s w' h st0 execs.
Proof.
  intros Hs HI Hd Hn Hh. pose proof Hs as (H1 & H2 & H3 & _).
  assert (forall g', shard_at s w' g' = shard_at s w g') as Heq.
  { intros g'. destruct (decide (g' = g)) as [->|?]; [congruence|auto]. }
  assert (forall n, moved s w n -> moved s w' n) as Hm by (intros n; eapply moved_mono; eauto; lia).
  destruct HI as [I0 (Ha & Hb & Hc) I2 I3 I4 I5 I6]. constructor; auto.
  - by eapply shard_step_all.
  - split_and!.
    + by rewrite Heq.
    + destruct Hb as [[? Hb]|(? & ? & Hb)]; [left|right]; split_and!; auto; intros g' st'; rewrite Heq; eauto.
    + intros g' st'. rewrite Heq. eauto.
  - intros g' st' Hne. rewrite Heq. eauto.
  - intros n d Hin. destruct (Hd n d Hin) as [Hx|[Hx|Hx]]; auto. destruct (I5 n d Hx); auto.
  - intros n Hin. destruct (Hn n Hin); auto.
Qed.

(** The holder executes a put. *)
Lemma minv_put s w w' h st values t execs execs' :
  shard_step s w w' h st (mkShardState values shardServing (sh_ConfigNum st) t) ->
  sh_Status st = shardServing -> minv s w h st execs ->
  mw_data w' = mw_data w -> mw_done w' = mw_done w ->
  shard_history s (mw_hist w') execs' values -> table_ok t execs' ->
  minv s w' h (mkShardState values shardServing (sh_ConfigNum st) t) execs'.
Proof.
  intros Hs Hsv HI Hd Hn Hh Ht. pose proof Hs as (H1 & H2 & H3 & _).
  assert (forall n, moved s w n -> moved s w' n) as Hm by (intros n; eapply moved_mono; eauto; simpl; lia).
  destruct HI as [I0 (Ha & Hb & Hc) I2 I3 I4 I5 I6]. constructor; auto; rewrite ?Hd, ?Hn; auto.
  - by eapply shard_step_all.
  - split_and!; [done| |].
    + left. split; [done|]. destruct Hb as [[_ Hb]|[? _]]; [|congruence].
      intros g' st' Hg. destruct (shard_step_at _ _ _ _ _ _ _ _ Hs Hg) as [[-> ->]|[_ Hg']]; simpl; [lia|eauto].
    + intros g' st' Hne. rewrite H3 by done. eauto.
  - intros g' st' Hne. rewrite H3 by done. eauto.
  - intros n d Hin. destruct (I5 n d Hin) as [?|[? _]]; [auto|congruence].
Qed.

(** Source and target of a move differ. *)
Definition moves_apart : Prop := forall n s src dst, moves n s = Some (src, dst) -> src <> dst.

(** The holder freezes the shard. *)
Lemma minv_freeze (L : GobGrpLaws) s w w' h st st' execs n dst d :
  shard_step s w w' h st st' -> minv s w h st execs -> moves n s = Some (h, dst) ->
  sh_Status st = shardServing -> (sh_ConfigNum st < n)%Z -> sh_Status st' = shardFrozen -> sh_ConfigNum st' = n ->
  sh_Values st' = sh_Values st -> sh_Requests st' = sh_Requests st ->
  encodeShardTransfer (sh_Values st') (sh_Requests st') = Some d ->
  (forall m e, (s, m, e) ∈ mw_data w' -> (s, m, e) ∈ mw_data w \/ (m = n /\ e = d)) ->
  mw_done w' = mw_done w -> mw_hist w' = mw_hist w -> minv s w' h st' execs.
Proof.
  intros Hs HI Hmv Hsv Hlt Hf Hn' Hv Hq Henc Hd Hn Hh. pose proof Hs as (H1 & H2 & H3 & _).
  assert (forall n, moved s w n -> moved s w' n) as Hm by (intros k; eapply moved_mono; eauto; lia).
  destruct HI as [I0 (Ha & Hb & Hc) I2 I3 I4 I5 I6]. constructor; rewrite ?Hn, ?Hh, ?Hv, ?Hq; auto.
  - by eapply shard_step_all.
  - destruct Hb as [[_ Hb]|[? _]]; [|congruence]. split_and!; [done| |].
    + right. split_and!; [done|rewrite Hn'; eauto|]. intros g' st0 Hne. rewrite H3 by done.
      intros Hg%Hb. lia.
    + intros g' st0 Hne. rewrite H3 by done. eauto.
  - intros g' st0 Hne. rewrite H3 by done. eauto.
  - intros m e Hin. destruct (Hd m e Hin) as [Hx|[-> ->]].
    + destruct (I5 m e Hx) as [?|[? _]]; [auto|congruence].
    + right. split_and!; [done|done|]. rewrite <- Hv, <- Hq. by apply transfer_roundtrip.
Qed.

(** The target installs the data and becomes the holder. *)
Lemma minv_install (Hma : moves_apart) s w w' h st g st0 execs n src :
  shard_step s w w' g st0 (mkShardState (sh_Values st) shardServing n (sh_Requests st)) ->
  minv s w h st execs -> moves n s = Some (src, g) ->
  sh_Status st = shardFrozen -> sh_ConfigNum st = n -> (sh_ConfigNum st0 < n)%Z ->
  mw_data w' = mw_data w -> (forall m, (s, m) ∈ mw_done w' -> (s, m) ∈ mw_done w \/ m = n) ->
  mw_hist w' = mw_hist w ->
  minv s w' g (mkShardState (sh_Values st) shardServing n (sh_Requests st)) execs.
Proof.
  intros Hs HI Hmv Hf Hcn Hlt Hd Hn Hh. pose proof Hs as (H1 & H2 & H3 & _).
  assert (forall n, moved s w n -> moved s w' n) as Hm by (intros k; eapply moved_mono; eauto; simpl; lia).
  assert (moved s w' n) as Hmn by (exists src, g, (mkShardState (sh_Values st) shardServing n (sh_Requests st)); auto using Z.le_refl).
  destruct HI as [I0 (Ha & Hb & Hc) I2 I3 I4 I5 I6].
  destruct Hb as [[? _]|(_ & [dst Hdst] & Hb)]; [congruence|].
  assert (g = dst) as <- by congruence.
  assert (g <> h) as Hgh by (intros ->; rewrite Hcn in Hdst; by apply Hma in Hdst).
  constructor; simpl; rewrite ?Hd, ?Hh; auto.
  - by eapply shard_step_all.
  - split_and!; [done| |].
    + left. split; [done|]. simpl. intros g' st' Hg.
      destruct (shard_step_at _ _ _ _ _ _ _ _ Hs Hg) as [[-> ->]|[_ Hg']]; simpl; [lia|].
      destruct (decide (g' = h)) as [->|Hne]; [assert (st' = st) as -> by congruence; lia|].
      apply Hb in Hg'; [lia|done].
    + intros g' st' Hne. rewrite H3 by done. destruct (decide (g' = h)) as [->|Hne2]; [|eauto].
      rewrite Ha. intros [= <-]. congruence.
  - intros g' st' Hne. rewrite H3 by done. destruct (decide (g' = h)) as [->|Hne2]; [|eauto].
    rewrite Ha. intros [= <-] _. by rewrite Hcn.
  - intros m e Hin. left. destruct (I5 m e Hin) as [?|(_ & <- & _)]; [auto|by rewrite Hcn].
  - intros m Hin. destruct (Hn m Hin) as [?| ->]; auto.
Qed.

(** An old copy is deleted. *)
Lemma minv_delete s w w' h st g st0 st' execs :
  shard_step s w w' g st0 st' -> minv s w h st execs -> g <> h ->
  sh_Status st' = shardAbsent -> sh_ConfigNum st' = sh_ConfigNum st0 ->
  mw_data w' = mw_data w -> mw_done w' = mw_done w -> mw_hist w' = mw_hist w ->
  minv s w' h st execs.
Proof.
  intros Hs HI Hgh Hab Hcn Hd Hn Hh. pose proof Hs as (H1 & H2 & H3 & _).
  assert (forall n, moved s w n -> moved s w' n) as Hm by (intros k; eapply moved_mono; eauto; lia).
  destruct HI as [I0 (Ha & Hb & Hc) I2 I3 I4 I5 I6]. constructor; rewrite ?Hd, ?Hn, ?Hh; auto.
  - by eapply shard_step_all.
  - split_and!; [by rewrite H3| |].
    + destruct Hb as [[? Hb]|(? & ? & Hb)]; [left|right]; split_and!; auto; intros g' sg.
      * intros Hg. destruct (shard_step_at _ _ _ _ _ _ _ _ Hs Hg) as [[-> ->]|[_ Hg']]; [|eauto].
        rewrite Hcn. eauto.
      * intros Hne Hg. destruct (shard_step_at _ _ _ _ _ _ _ _ Hs Hg) as [[-> ->]|[_ Hg']]; [|eauto].
        rewrite Hcn. eauto.
    + intros g' sg Hne Hg. destruct (shard_step_at _ _ _ _ _ _ _ _ Hs Hg) as [[-> ->]|[_ Hg']]; [congruence|eauto].
  - intros g' sg Hne Hg Hfz. destruct (shard_step_at _ _ _ _ _ _ _ _ Hs Hg) as [[-> ->]|[_ Hg']]; [congruence|eauto].
  - intros n d Hin. destruct (I5 n d Hin); auto.
Qed.

(** ** Steps *)

(** Only the holder serves. *)
Lemma serving_holds s w h st g st' :
  holds s w h st -> shard_at s w g = Some st' -> sh_Status st' = shardServing -> g = h /\ st' = st.
Proof.
  intros (Ha & Hb & Hc) Hg Hs. destruct (decide (g = h)) as [->|Hne]; [split; [done|congruence]|].
  by apply Hc in Hg.
Qed.

Lemma minv_client s w g kv req kv' rep h st execs :
  client_req req = true -> mw_groups w !! g = Some kv -> grp_DoOp req kv = Some (kv', rep) ->
  minv s w h st execs ->
  exists st' execs', minv s (mkMworld (<[g := kv']> (mw_groups w)) (mw_data w) (mw_done w)
    (mw_hist w ++ [(g, req, rep)])) h st' execs'.
Proof.
  intros Hc Hg H HI.
  destruct (shard_step_op s w (mkMworld (<[g := kv']> (mw_groups w)) (mw_data w) (mw_done w)
    (mw_hist w ++ [(g, req, rep)])) g kv kv' req rep) as (sg & sg' & Hst & Hop); auto.
  { apply (mi_all _ _ _ _ _ HI). eauto. }
  assert (forall x, shard_history s (mw_hist w ++ [(g, req, rep)]) x (sh_Values st) -> sg' = sg -> x = execs ->
    exists st' execs', minv s (mkMworld (<[g := kv']> (mw_groups w)) (mw_data w) (mw_done w)
    (mw_hist w ++ [(g, req, rep)])) h st' execs') as Hsame.
  { intros x Hx -> ->. exists st, execs. eapply minv_same; eauto. }
  pose proof (mi_hist _ _ _ _ _ HI) as Hh. pose proof (mi_holds _ _ _ _ _ HI) as Hho.
  destruct Hop as [[Hs Hop]|[Hs ->]]; [|eapply Hsame; eauto; by apply SH_other].
  destruct Hst as (H1 & Hst). destruct req as [a|a|a|a|a|]; simpl in Hc; try done; simpl in Hop.
  - injection Hop as -> <-. eapply Hsame; auto. unfold get_shard. case_decide as Hsv; [by apply SH_get_wrong_group|].
    destruct (serving_holds _ _ _ _ _ _ Hho H1) as [-> ->]; [by destruct (sh_Status sg')|].
    destruct (spec_get (sh_Values st) (ga_Key a)) as [[v ver] e] eqn:Hsg. pose proof Hsg as Hsg2.
    unfold spec_get in Hsg. destruct (sh_Values st !! ga_Key a) as [x|] eqn:Hx; injection Hsg as <- <- <-;
      by apply SH_get.
  - apply bind_Some in Hop as ([x r] & Hop & Hx). injection Hx as -> <-.
    apply put_shard_spec in Hop as [(_ & -> & ->)|(Hsv & t & values & -> & Hd)].
    { eapply Hsame; auto. by apply SH_put_wrong_group. }
    destruct (serving_holds _ _ _ _ _ _ Hho H1 Hsv) as [-> ->].
    apply (Table_Do_exec spec_apply _ _ _ _ _ _ execs) in Hd as
      [(HT & -> & Hid & Hans)|(HT & Ha & Hfresh)]; [| |apply (mi_table _ _ _ _ _ HI)].
    + eexists _, execs. eapply minv_put; eauto; [by split|]. by apply SH_put_again.
    + eexists _, (execs ++ [(a, r)]). eapply minv_put; eauto; [by split|]. by eapply SH_put.
Qed.

Lemma minv_step_freeze (L : GobGrpLaws) s w s' n src dst kv kv' rep h st execs :
  moves n s' = Some (src, dst) -> mw_groups w !! src = Some kv ->
  grp_DoOp (GFreeze (mkFreezeShardArgs s' n)) kv = Some (kv', rep) -> minv s w h st execs ->
  exists st', minv s (mkMworld (<[src := kv']> (mw_groups w)) (freeze_data s' n rep ++ mw_data w) (mw_done w)
    (mw_hist w)) h st' execs.
Proof.
  intros Hm Hg H HI.
  destruct (shard_step_op s w (mkMworld (<[src := kv']> (mw_groups w)) (freeze_data s' n rep ++ mw_data w)
    (mw_done w) (mw_hist w)) src kv kv' _ rep Hg eq_refl H) as (sg & sg' & Hst & Hop).
  { apply (mi_all _ _ _ _ _ HI). eauto. }
  pose proof (mi_hist _ _ _ _ _ HI) as Hh. pose proof (mi_holds _ _ _ _ _ HI) as Hho.
  assert (forall m d, (s, m, d) ∈ freeze_data s' n rep ++ mw_data w -> (s, m, d) ∈ mw_data w \/
    (s' = s /\ m = n /\ exists r, rep = GFreezeReply r /\ fr_Err r = OK /\ fr_State r = d)) as Hdata.
  { intros m d [Hin|Hin]%elem_of_app; [right|by left]. destruct rep as [| |r| |]; simpl in Hin;
      try by apply not_elem_of_nil in Hin. case_decide; [|by apply not_elem_of_nil in Hin].
    apply list_elem_of_singleton in Hin as [= -> -> ->]. eauto 10. }
  destruct Hop as [[Hs Hop]|[Hs ->]]; simpl in Hs.
  2:{ exists st. eapply minv_same; eauto. intros m d [?|(-> & _)]%Hdata; [by left|done]. }
  subst s'. simpl in Hop. apply bind_Some in Hop as ([x r] & Hop & Hx). injection Hx as -> <-.
  apply freeze_shard_spec in Hop as [(He & _ & Hf & Hn & Hv & Hq & Henc & Hcase)|[He ->]]; simpl in *.
  2:{ exists st. eapply minv_same; eauto. intros m d [?|(_ & -> & r' & [= <-] & ? & _)]%Hdata; [by left|congruence]. }
  destruct Hcase as [->|[Hsv Hlt]].
  - exists st. eapply minv_same; eauto. intros m d [?|(_ & -> & r' & [= <-] & _ & <-)]%Hdata; [by left|right].
    destruct (decide (src = h)) as [->|Hne].
    + right. destruct Hho as [Ha _]. destruct Hst as [H1 _]. assert (sg = st) as -> by congruence.
      split_and!; auto. by apply transfer_roundtrip.
    + left. rewrite <- Hn. destruct Hst as [H1 _]. by eapply (mi_frozen _ _ _ _ _ HI).
  - destruct (serving_holds _ _ _ _ _ _ Hho (proj1 Hst) Hsv) as [-> ->]. exists sg'.
    eapply (minv_freeze L s w _ h st sg' execs n dst (fr_State r)); eauto.
    intros m e [?|(_ & -> & r' & [= <-] & _ & <-)]%Hdata; auto.
Qed.

Lemma minv_step_install (Hma : moves_apart) s w s' n src dst d kv kv' rep h st execs :
  moves n s' = Some (src, dst) -> (s', n, d) ∈ mw_data w -> mw_groups w !! dst = Some kv ->
  grp_DoOp (GInstall (mkInstallShardArgs s' d n)) kv = Some (kv', rep) -> minv s w h st execs ->
  exists h' st', minv s (mkMworld (<[dst := kv']> (mw_groups w)) (mw_data w) (install_done s' n rep ++ mw_done w)
    (mw_hist w)) h' st' execs.
Proof.
  intros Hm Hin Hg H HI.
  destruct (shard_step_op s w (mkMworld (<[dst := kv']> (mw_groups w)) (mw_data w) (install_done s' n rep ++ mw_done w)
    (mw_hist w)) dst kv kv' _ rep Hg eq_refl H) as (sg & sg' & Hst & Hop).
  { apply (mi_all _ _ _ _ _ HI). eauto. }
  pose proof (mi_hist _ _ _ _ _ HI) as Hh.
  assert (forall m, (s, m) ∈ install_done s' n rep ++ mw_done w -> (s, m) ∈ mw_done w \/
    (s' = s /\ m = n /\ exists r, rep = GInstallReply r /\ ir_Err r = OK)) as Hdone.
  { intros m [Hx|Hx]%elem_of_app; [right|by left]. destruct rep as [| | |r|]; simpl in Hx;
      try by apply not_elem_of_nil in Hx. case_decide; [|by apply not_elem_of_nil in Hx].
    apply list_elem_of_singleton in Hx as [= -> ->]. eauto 10. }
  destruct Hop as [[Hs Hop]|[Hs ->]]; simpl in Hs.
  2:{ exists h, st. eapply minv_same; eauto. intros m [?|(-> & _)]%Hdone; [by left|done]. }
  subst s'. simpl in Hop. apply bind_Some in Hop as ([x r] & Hop & Hx). injection Hx as -> <-.
  pose proof Hst as (H1 & _).
  apply install_shard_spec in Hop as [(He & -> & Hn & Hsv)|[(He & Hab & Hlt & m & t & Hdec & ->)|(He & -> & _)]]; simpl in *.
  - exists h, st. eapply minv_same; eauto. intros m [?|(_ & -> & _)]%Hdone; [by left|right].
    exists src, dst, sg. split_and!; auto; lia.
  - destruct (mi_data _ _ _ _ _ HI _ _ Hin) as [(src' & dst' & sd & Hm' & Hd & Hle)|(Hf & Hcn & Hd)].
    + assert (dst' = dst) as -> by congruence. assert (sd = sg) as -> by congruence. lia.
    + assert (m = sh_Values st) as -> by congruence. assert (t = sh_Requests st) as -> by congruence.
      exists dst. eexists. eapply minv_install; eauto. intros k [?|(_ & -> & _)]%Hdone; auto.
  - exists h, st. eapply minv_same; eauto. intros m [?|(_ & -> & r' & [= <-] & ?)]%Hdone; [by left|congruence].
Qed.

Lemma minv_step_delete (Hma : moves_apart) s w s' n src dst kv kv' rep h st execs :
  moves n s' = Some (src, dst) -> (s', n) ∈ mw_done w -> mw_groups w !! src = Some kv ->
  grp_DoOp (GDelete (mkDeleteShardArgs s' n)) kv = Some (kv', rep) -> minv s w h st execs ->
  minv s (mkMworld (<[src := kv']> (mw_groups w)) (mw_data w) (mw_done w) (mw_hist w)) h st execs.
Proof.
  intros Hm Hin Hg H HI.
  destruct (shard_step_op s w (mkMworld (<[src := kv']> (mw_groups w)) (mw_data w) (mw_done w) (mw_hist w))
    src kv kv' _ rep Hg eq_refl H) as (sg & sg' & Hst & Hop).
  { apply (mi_all _ _ _ _ _ HI). eauto. }
  pose proof (mi_hist _ _ _ _ _ HI) as Hh.
  destruct Hop as [[Hs Hop]|[Hs ->]]; simpl in Hs; [|eapply minv_same; eauto].
  subst s'. simpl in Hop. destruct (delete_shard sg _) as [x r] eqn:Hd. injection Hop as -> <-.
  apply delete_shard_spec in Hd as [(_ & -> & _)|[(_ & Hf & Hn & ->)|(_ & ->)]]; [by eapply minv_same; eauto| |by eapply minv_same; eauto].
  eapply minv_delete; eauto. intros ->.
  destruct (mi_done _ _ _ _ _ HI _ Hin) as (src' & dst' & sd & Hm' & Hd & Hle).
  destruct (mi_holds _ _ _ _ _ HI) as (Ha & Hb & _). destruct Hst as [H1 _].
  assert (sg = st) as -> by congruence. destruct Hb as [[? _]|(_ & _ & Hb)]; [congruence|].
  assert (dst' <> h) as Hne. { intros ->. assert (src' = h) as -> by congruence. by apply Hma in Hm'. }
  apply Hb in Hd; [|done]. simpl in Hn. lia.
Qed.

Lemma minv_step (L : GobGrpLaws) (Hma : moves_apart) s w w' :
  (exists h st execs, minv s w h st execs) -> mstep w w' -> exists h st execs, minv s w' h st execs.
Proof.
  intros (h & st & execs & HI) Hs.
  destruct Hs as [g kv req kv' rep Hc Hg H|s' n src dst kv kv' rep Hm Hg H|s' n src dst d kv kv' rep Hm Hin Hg H
    |s' n src dst kv kv' rep Hm Hin Hg H].
  - destruct (minv_client s w g kv req kv' rep h st execs Hc Hg H HI) as (st' & execs' & ?). eauto.
  - destruct (minv_step_freeze L _ _ _ _ _ _ _ _ _ _ _ _ Hm Hg H HI) as (st' & ?). eauto.
  - destruct (minv_step_install Hma _ _ _ _ _ _ _ _ _ _ _ _ _ Hm Hin Hg H HI) as (h' & st' & ?). eauto.
  - exists h, st, execs. by eapply minv_step_delete.
Qed.

Lemma start_shard g s :
  (0 <= s < 12)%Z -> zlookup (grp_shards (StartServerShardGrp g)) s =
  Some (if decide (g = Gid1) then mkShardState ∅ shardServing NumFirst Table_zero
        else mkShardState ∅ shardAbsent 0 Table_zero).
Proof.
  intros Hs. rewrite zlookup_lookup by lia. unfold StartServerShardGrp. cbn [grp_shards].
  apply lookup_replicate_2. unfold NShards. lia.
Qed.

Lemma minv_init s w : (0 <= s < 12)%Z -> minit w -> exists h st execs, minv s w h st execs.
Proof.
  intros Hs ([kv1 H1] & Hall & Hd & Hn & Hh).
  exists Gid1, (mkShardState ∅ shardServing NumFirst Table_zero), [].
  assert (forall g, is_Some (mw_groups w !! g) -> shard_at s w g =
    Some (if decide (g = Gid1) then mkShardState ∅ shardServing NumFirst Table_zero
          else mkShardState ∅ shardAbsent 0 Table_zero)) as Hat.
  { intros g [kv Hg]. unfold shard_at. rewrite Hg. simpl. rewrite (Hall _ _ Hg). by apply start_shard. }
  assert (forall g st, shard_at s w g = Some st -> st =
    if decide (g = Gid1) then mkShardState ∅ shardServing NumFirst Table_zero
          else mkShardState ∅ shardAbsent 0 Table_zero) as Hat'.
  { intros g st Hg. assert (is_Some (mw_groups w !! g)) as Hx.
    { unfold shard_at in Hg. destruct (mw_groups w !! g); [eauto|done]. }
    rewrite (Hat _ Hx) in Hg. congruence. }
  constructor; rewrite ?Hd, ?Hn, ?Hh; simpl.
  - intros g Hg. rewrite Hat; eauto.
  - split_and!.
    + rewrite Hat by eauto. by rewrite decide_True.
    + left. split; [done|]. intros g st' ->%Hat'. case_decide; simpl; unfold NumFirst; lia.
    + intros g st' Hne ->%Hat'. by rewrite decide_False.
  - constructor.
  - apply table_ok_zero.
  - intros g st' Hne ->%Hat'. by rewrite decide_False.
  - intros n d Hin. by apply not_elem_of_nil in Hin.
  - intros n Hin. by apply not_elem_of_nil in Hin.
Qed.

(** C9. Migration is safe and loses nothing: in every run of the groups, with any
    number of controllers carrying out one plan over a network that delays, repeats,
    reorders and loses their requests, at most one group serves a shard at any time;
    exactly one group holds its data, serving it or having frozen it for a move that
    is not finished; and the requests the groups executed for the shard, in the order
    of execution over all groups, are a history of a single conditional store in
    which no identified put is executed twice, the holder's values being the final
    ones of that store. *)
Theorem migration_safe (L : GobGrpLaws) (Hma : moves_apart) s w0 w :
  (0 <= s < 12)%Z -> minit w0 -> rtc mstep w0 w ->
  (forall g1 g2 st1 st2, shard_at s w g1 = Some st1 -> shard_at s w g2 = Some st2 ->
     sh_Status st1 = shardServing -> sh_Status st2 = shardServing -> g1 = g2) /\
  exists h st execs, holds s w h st /\ shard_history s (mw_hist w) execs (sh_Values st).
Proof.
  intros Hs H0 Hr. assert (exists h st execs, minv s w h st execs) as (h & st & execs & HI).
  { eapply (invariant_rtc mstep (fun w => exists h st execs, minv s w h st execs)); eauto.
    - intros w1 w2 H1 H2. by eapply minv_step.
    - by apply minv_init. }
  pose proof (mi_holds _ _ _ _ _ HI) as Hho. split.
  - intros g1 g2 st1 st2 Ha Hb Hsa Hsb.
    destruct (serving_holds _ _ _ _ _ _ Hho Ha Hsa) as [-> _].
    by destruct (serving_holds _ _ _ _ _ _ Hho Hb Hsb) as [-> _].
  - exists h, st, execs. split; [done|]. apply HI.
Qed.

End ShardMove.
