(* ===== verification/ShardSim.v ===== *)
(** * Concrete runs of shard groups

    [BitGrp] is a codec satisfying [GobGrpLaws]; with it a put, a move of its shard
    from one group to another, and a get at the target are run, and the theorems of
    [ShardGrp] and [ShardMove] are applied to the run. *)

From S2P Require Import Prelude.
From S2P Require Import Rpc.
From S2P Require Import KvSpec.
From S2P Require Import Dedup.
From S2P Require Import Persister.
From S2P Require Import BitCodec.
From S2P Require Import KvRaft.
From S2P Require Import ShardCfg.
From S2P Require Import ShardGrp.
From S2P Require Import ShardMove.

(** ** The codec *)

Definition status_code (s : shardStatus) : nat :=
  match s with shardAbsent => 0 | shardServing => 1 | shardFrozen => 2 end.

Definition status_uncode (n : nat) : shardStatus :=
  match n with 0 => shardAbsent | 1 => shardServing | _ => shardFrozen end.

#[global] Instance shardStatus_countable : Countable shardStatus.
Proof. apply (inj_countable' status_code status_uncode). by intros []. Defined.

#[global] Instance BitGrp : GobGrp := {|
  gob_transfer := fun t => Some (bits_encode (st_Values t, st_Requests t));
  ungob_transfer := fun b => '(x, _) ← bits_decode b; Some (mkShardTransfer x.1 x.2);
  gob_shards := fun l => Some (bits_encode (raw_of <$> l));
  ungob_shards := fun b => '(x, _) ← bits_decode b; Some x |}.

#[global] Instance BitGrp_laws : GobGrpLaws.
Proof.
  constructor; simpl.
  - intros [v t] b [= <-]. rewrite <- (app_nil_r (bits_encode _)), bits_decode_encode. done.
  - intros t b [= <-]. apply bits_encode_nonempty.
  - intros l b [= <-]. rewrite <- (app_nil_r (bits_encode _)), bits_decode_encode. done.
  - intros l b [= <-]. apply bits_encode_nonempty.
Qed.

(** ** A move

    The shard of key ["k"] moves from group 1 to group 2 in configuration 2. *)

Definition ex_shard : Z := Key2Shard "k".

Definition ex_moves (n s : Z) : option (Tgid * Tgid) :=
  if decide (n = 2%Z) then Some (1%Z, 2%Z) else None.

Lemma ex_moves_apart : moves_apart ex_moves.
Proof. intros n s src dst. unfold ex_moves. case_decide; intros [= <- <-]; lia. Qed.

Definition ex_do (req : grp_req) (kv : GrpServer) : GrpServer * grp_rep :=
  default (kv, GInstallReply (mkInstallShardReply ErrNone)) (grp_DoOp req kv).

Definition ex_grp_put : grp_req := GPut (mkPutArgs "k" "v" 0 5 1 0).
Definition ex_grp_freeze : grp_req := GFreeze (mkFreezeShardArgs ex_shard 2).

Definition ex_a0 : GrpServer := StartServerShardGrp 1.
Definition ex_b0 : GrpServer := StartServerShardGrp 2.
Definition ex_a1 : GrpServer := (ex_do ex_grp_put ex_a0).1.
Definition ex_a2 : GrpServer := (ex_do ex_grp_freeze ex_a1).1.
Definition ex_frozen : grp_rep := (ex_do ex_grp_freeze ex_a1).2.
Definition ex_data : bytes := match ex_frozen with GFreezeReply r => fr_State r | _ => [] end.
Definition ex_grp_install : grp_req := GInstall (mkInstallShardArgs ex_shard ex_data 2).
Definition ex_b1 : GrpServer := (ex_do ex_grp_install ex_b0).1.
Definition ex_grp_get : grp_req := GGet (mkGetArgs "k").

(** The steps, as booleans that evaluate. *)
Definition ex_ok (req : grp_req) (kv : GrpServer) : bool := bool_decide (is_Some (grp_DoOp req kv)).

Lemma ex_do_ok req kv : ex_ok req kv = true -> grp_DoOp req kv = Some ((ex_do req kv).1, (ex_do req kv).2).
Proof. unfold ex_ok, ex_do. intros [[kv' rep] H]%bool_decide_eq_true. by rewrite H. Qed.

Definition ex_hist : list (Tgid * grp_req * grp_rep) :=
  [(1%Z, ex_grp_put, (ex_do ex_grp_put ex_a0).2); (2%Z, ex_grp_get, (ex_do ex_grp_get ex_b1).2)].

Definition ex_mw0 : mworld := mkMworld {[1%Z := ex_a0; 2%Z := ex_b0]} [] [] [].
Definition ex_mw1 : mworld :=
  mkMworld (<[1%Z := ex_a1]> (mw_groups ex_mw0)) [] [] (take 1 ex_hist).
Definition ex_mw2 : mworld :=
  mkMworld (<[1%Z := ex_a2]> (mw_groups ex_mw1)) (freeze_data ex_shard 2 ex_frozen ++ []) [] (take 1 ex_hist).
Definition ex_mw3 : mworld :=
  mkMworld (<[2%Z := ex_b1]> (mw_groups ex_mw2)) (mw_data ex_mw2)
    (install_done ex_shard 2 (ex_do ex_grp_install ex_b0).2 ++ []) (take 1 ex_hist).
Definition ex_mw4 : mworld :=
  mkMworld (<[2%Z := (ex_do ex_grp_get ex_b1).1]> (mw_groups ex_mw3)) (mw_data ex_mw3) (mw_done ex_mw3) ex_hist.

Lemma ex_data_frozen : freeze_data ex_shard 2 ex_frozen = [(ex_shard, 2%Z, ex_data)].
Proof. vm_compute. reflexivity. Qed.

Lemma ex_mw2_data : mw_data ex_mw2 = [(ex_shard, 2%Z, ex_data)].
Proof. exact (eq_trans (app_nil_r _) ex_data_frozen). Qed.

Lemma ex_mw2_b : mw_groups ex_mw2 !! 2%Z = Some ex_b0.
Proof.
  unfold ex_mw2, ex_mw1. cbn [mw_groups]. rewrite 2!lookup_insert_ne by done. reflexivity.
Qed.

Lemma ex_mrun : rtc (mstep ex_moves) ex_mw0 ex_mw4.
Proof.
  apply (rtc_l _ _ ex_mw1).
  { refine (M_client _ ex_mw0 1 ex_a0 ex_grp_put ex_a1 _ eq_refl eq_refl _). apply ex_do_ok. vm_compute. reflexivity. }
  apply (rtc_l _ _ ex_mw2).
  { refine (M_freeze _ ex_mw1 ex_shard 2 1 2 ex_a1 ex_a2 ex_frozen eq_refl _ _).
    - apply lookup_insert_eq.
    - apply ex_do_ok. vm_compute. reflexivity. }
  apply (rtc_l _ _ ex_mw3).
  { refine (M_install _ ex_mw2 ex_shard 2 1 2 ex_data ex_b0 ex_b1 _ eq_refl _ _ _).
    - rewrite ex_mw2_data. apply list_elem_of_here.
    - exact ex_mw2_b.
    - apply ex_do_ok. vm_compute. reflexivity. }
  apply (rtc_l _ _ ex_mw4); [|constructor].
  refine (M_client _ ex_mw3 2 ex_b1 ex_grp_get _ _ eq_refl _ _).
  - apply lookup_insert_eq.
  - apply ex_do_ok. vm_compute. reflexivity.
Qed.

Lemma ex_minit : minit ex_mw0.
Proof.
  split_and!; [by eexists| |done|done|done]. intros g kv. simpl.
  intros [[<- <-]|[_ [<- <-]%lookup_singleton_Some]]%lookup_insert_Some; done.
Qed.

Lemma migration_safe_witness : exists (h : Tgid) (st : shardState) (execs : list (PutArgs * PutReply)),
  holds ex_moves ex_shard ex_mw4 h st /\ shard_history ex_shard ex_hist execs (sh_Values st).
Proof.
  refine (proj2 (migration_safe ex_moves BitGrp_laws ex_moves_apart ex_shard ex_mw0 ex_mw4 _ ex_minit ex_mrun)).
  pose proof (Key2Shard_range "k"). exact H.
Defined.

(** Between the Freeze and a later get the frozen shard only advances. *)
Lemma grp_fencing_witness : exists st2 st3 : shardState,
  zlookup (grp_shards ex_a2) ex_shard = Some st2 /\ sh_Status st2 = shardFrozen /\ advances st2 st3.
Proof.
  destruct (zlookup (grp_shards ex_a2) ex_shard) as [st2|] eqn:H2; [|vm_compute in H2; discriminate].
  destruct (zlookup (grp_shards (ex_do ex_grp_get ex_a2).1) ex_shard) as [st3|] eqn:H3;
    [|vm_compute in H3; discriminate].
  exists st2, st3. split; [reflexivity|]. split; [vm_compute in H2; injection H2 as <-; reflexivity|].
  refine (proj1 (grp_fencing [ex_grp_get] ex_a1 ex_a2 _ ex_a2 ex_grp_freeze ex_frozen ex_frozen
    [(ex_do ex_grp_get ex_a2).2] ex_shard 2 st2 st3 _ _ H2 H3)).
  - apply ex_do_ok. vm_compute. reflexivity.
  - unfold grp_run. rewrite ex_do_ok by (vm_compute; reflexivity). reflexivity.
Defined.
