(* ===== verification/ShardSystem.v ===== *)
(** * Clerks of the sharded service

    The clerks of [shardkv1/client.go] as objects of [ClerkSystem], and the shard groups
    of [ShardMove], which controllers move shards between, with the handlers of
    [shardkv1/shardgrp/server.go] as their service. *)

From S2P Require Import Prelude.
From S2P Require Import Rpc.
From S2P Require Import KvSpec.
From S2P Require Import Dedup.
From S2P Require Import Persister.
From S2P Require Import Rsm.
From S2P Require Import RsmLinear.
From S2P Require Import ShardCfg.
From S2P Require Import ShardGrp.
From S2P Require Import ShardMove.
From S2P Require Import Prog.
From S2P Require Import Clerk.
From S2P Require Import ClerkSystem.

#[global] Instance grp_req_eq_dec : EqDecision grp_req.
Proof. solve_decision. Defined.

(** ** Clerks *)

(** The object: the cache of group clerks and the configuration, the group clerks with
    their servers and leaders, the numbering of its writes and the sequence numbers
    completed. *)
Record shard_obj : Type := mkShardObj {
  so_ck : ShardClerk;
  so_clerks : gmap nat (list string * Z);
  so_client : Client;
  so_done : gset N;
}.

Definition set_so_leader (h : nat) (leader : Z -> Z -> Z) (ob : shard_obj) : shard_obj :=
  mkShardObj (so_ck ob) (alter (fun '(servers, l) => (servers, leader (zlen servers) l)) h (so_clerks ob))
    (so_client ob) (so_done ob).

(** Where [loadConfig] takes the configuration from. *)
Inductive load_from : Type :=
  | LoadCached
  | LoadQueried (queried : option ShardConfig).

(** [Shards] is an array. *)
Definition has_shards (queried : option ShardConfig) : bool :=
  match queried with Some cfg => bool_decide (length (sc_Shards cfg) = NShards) | None => true end.

(** An effect on the object; the words [Begin] draws and what [Query] returns are
    inputs.  A call that found nothing in the cache may get the answer of [Query] after
    others have filled it. *)
Definition shard_do (inp : list N * load_from) (e : ck_eff) (ob : shard_obj) : option (shard_obj * ck_resp e) :=
  match e with
  | ELeader h => '(_, leader) ← so_clerks ob !! h; Some (ob, leader)
  | ERemember h s => Some (set_so_leader h (fun _ => rememberLeader s) ob, tt)
  | EAdvance h s => Some (set_so_leader h (fun n => advanceLeader n s) ob, tt)
  | ECurrent => Some (ob, true)
  | EBegin =>
      '(c, r) ← Begin inp.1 (so_client ob); Some (mkShardObj (so_ck ob) (so_clerks ob) c (so_done ob), r)
  | EAck => Some (ob, Client_Ack (so_client ob))
  | EComplete s =>
      Some (mkShardObj (so_ck ob) (so_clerks ob) (Complete s (so_client ob)) ({[s]} ∪ so_done ob), tt)
  | ELoadConfig force =>
      match inp.2 with
      | LoadCached => cfg ← loadConfig_cached force (so_ck ob); Some (ob, Some cfg)
      | LoadQueried queried =>
          if has_shards queried then
            let '(ck, cfg) := loadConfig queried (so_ck ob) in
            Some (mkShardObj ck (so_clerks ob) (so_client ob) (so_done ob), cfg)
          else None
      end
  | EGroupClerk gid servers =>
      '(ck, h) ← groupClerk gid servers (so_ck ob);
      Some (mkShardObj ck (match so_clerks ob !! h with Some _ => so_clerks ob | None => <[h := (servers, 0%Z)]> (so_clerks ob) end)
              (so_client ob) (so_done ob), h)
  | ERpc _ _ => None
  end.

(** The program of a call. *)
Definition shard_prog (fuel : nat) (c : kv_call) : ck_prog kv_res :=
  match c with
  | CallGet key => prog_bind (fun '(v, ver, e) => Ret (GetRes v ver e)) (shardkv_Clerk_Get fuel fuel key)
  | CallPut key value version => prog_bind (fun e => Ret (PutRes e)) (shardkv_Clerk_Put fuel fuel key value version)
  end.

#[global] Instance shard_clerk : ClerkObject shard_obj := {|
  ob_input := list N * load_from;
  ob_clerks := so_clerks;
  ob_client := so_client;
  ob_done := so_done;
  ob_do := shard_do;
  ob_prog := fun fuel _ => shard_prog fuel |}.

(** ** Requests *)

(** The call of a clerk a request is submitted for. *)
Definition grp_call (req : grp_req) : option rpc_call :=
  match req with GGet args => Some (RGet args) | GPut args => Some (RPut args) | _ => None end.

Definition grp_handler (c : rpc_call) (res : Err * option grp_rep) : option (rpc_reply c) :=
  match c with RGet _ => grp_Get res | RPut _ => grp_Put res | _ => None end.

(** ** The groups *)

Section ShardSystem.
Context {GG : GobGrp} (moves : Z -> Z -> option (Tgid * Tgid)).

(** The request executed as the [p]-th, over all groups. *)
Definition m_op (p : nat) (req : grp_req) : Op grp_req := mkOp 0 0 (N.of_nat p) req.

Definition m_events (p : nat) (e : Tgid * grp_req * grp_rep) : list (hevent grp_req grp_rep) :=
  let '(_, req, rep) := e in [Inv (m_op p req); RsmLinear.Ret (m_op p req) (OK, Some rep)].

(** A request of a clerk is submitted where a group executes it. *)
Definition m_hist (w : mworld) : list (hevent grp_req grp_rep) := mjoin (imap m_events (mw_hist w)).

Definition shard_service : Service mworld grp_req grp_rep := {|
  sv_step := mstep moves;
  sv_hist := m_hist;
  sv_call := grp_call;
  sv_handler := grp_handler |}.

#[local] Existing Instance shard_service.

Definition sharded_step : relation (LSys shard_obj mworld grp_req) := lsys_step.

(** The groups and the clerks as they are made. *)
Definition sharded_init (w : LSys shard_obj mworld grp_req) : Prop :=
  minit (l_sys w) /\
  (forall i ob, l_clerks w !! i = Some ob -> ob = mkShardObj MakeShardClerk ∅ Client_zero ∅) /\
  lsys_fresh w.

End ShardSystem.
