(* ===== verification/ShardOrder.v ===== *)
(** * The groups of the sharded service as one store

    The twelve shards of [ShardMove], each the history of one store wherever it was
    moved, put together: the requests of the clients, in the order the groups executed
    them, are executions of a single conditional store ([StoreOrder]); and a put is
    refused as stale only after it was acknowledged, since the tables that move with the
    shards keep the watermarks of puts that were executed. *)

From S2P Require Import Prelude.
From S2P Require Import Rpc.
From S2P Require Import KvSpec.
From S2P Require Import Dedup.
From S2P Require Import Persister.
From S2P Require Import Rsm.
From S2P Require Import KvRaft.
From S2P Require Import ShardCfg.
From S2P Require Import ShardGrp.
From S2P Require Import ShardMove.
From S2P Require Import StoreOrder.

(** ** One store of twelve shards *)

Abbreviation mevent := (Tgid * grp_req * grp_rep)%type.
Abbreviation executions := (list (PutArgs * PutReply)).

(** The execution of a client's request. *)
Definition made_by (x : mevent) : option s_event :=
  match x with
  | (_, GGet a, GGetReply r) => Some (SGet a r)
  | (_, GPut a, GPutReply r) => Some (SPut a r)
  | _ => None
  end.

Definition e_key (e : s_event) : string := match e with SGet a _ => ga_Key a | SPut a _ => pa_Key a end.

Lemma made_by_shard g req rep e : made_by (g, req, rep) = Some e -> req_shard req = Key2Shard (e_key e).
Proof. destruct req, rep; intros [= <-]; done. Qed.

(** The last step of the history of a shard. *)
Definition shard_next (s : Z) (x : mevent) (E0 E : executions) (M0 M : kvmap) : Prop :=
  let '(_, req, rep) := x in
  (E = E0 /\ M = M0 /\ (req_shard req <> s \/ exists e, made_by x = Some e /\ s_refused e)) \/
  (req_shard req = s /\ exists e, made_by x = Some e /\
    match e with
    | SGet a r => E = E0 /\ M = M0 /\ spec_get M0 (ga_Key a) = (gr_Value r, gr_Version r, gr_Err r)
    | SPut a r =>
        (E = E0 ++ [(a, r)] /\ spec_apply a M0 = Some (M, r) /\
           (pa_ClientID a <> 0%N -> forall b y, (b, y) ∈ E0 -> put_id b <> put_id a)) \/
        (E = E0 /\ M = M0 /\ (r = mkPutReply ErrStaleRequest \/ exists b, (b, r) ∈ E0 /\ put_id b = put_id a))
    end).

Lemma shard_history_snoc s h x E M :
  shard_history s (h ++ [x]) E M -> exists E0 M0, shard_history s h E0 M0 /\ shard_next s x E0 E M0 M.
Proof.
  intros H. remember (h ++ [x]) as h' eqn:Hh.
  destruct H as [|h1 E M g req rep H Hn|h1 E M g a H|h1 E M g a H|h1 E M g a v ver e H Hs Hg
    |h1 E M g a M' r H Hs Hp Hf|h1 E M g a r H Hs Hz Hr]; [by destruct h|..];
    apply app_inj_tail in Hh as [<- <-]; exists E, M; (split; [done|]).
  - left. auto.
  - left. split_and!; [done|done|right]. eexists. split; [done|]. by right.
  - left. split_and!; [done|done|right]. eexists. split; [done|]. by right.
  - right. split; [done|]. eexists. split; [done|]. by simpl.
  - right. split; [done|]. eexists. split; [done|]. left. by split_and!.
  - right. split; [done|]. eexists. split; [done|]. right. by split_and!.
Qed.

Lemma shard_history_keys s h E M : shard_history s h E M -> forall a r, (a, r) ∈ E -> Key2Shard (pa_Key a) = s.
Proof.
  induction 1 as [| | | | |h E M g a M' r H IH Hs Hp Hf|]; try done; [by intros a r ?%not_elem_of_nil|].
  intros b x [?|[= -> ->]%list_elem_of_singleton]%elem_of_app; [eauto|done].
Qed.

(** One choice for each of finitely many shards. *)
Lemma choice_range {A} (a0 : A) (P : Z -> A -> Prop) (n : nat) :
  (forall s, (0 <= s < Z.of_nat n)%Z -> exists a, P s a) -> exists f, forall s, (0 <= s < Z.of_nat n)%Z -> P s (f s).
Proof.
  induction n as [|n IH]; intros H; [exists (fun _ => a0); lia|].
  destruct IH as [f Hf]; [intros s Hs; apply H; lia|]. destruct (H (Z.of_nat n)) as [a Ha]; [lia|].
  exists (fun s => if decide (s = Z.of_nat n) then a else f s). intros s Hs.
  case_decide as Hc; [by rewrite Hc|]. apply Hf. lia.
Qed.

(** A put looks at its key only. *)
Lemma spec_put_local m m' a :
  m !! pa_Key a = m' !! pa_Key a ->
  (spec_put m a).2 = (spec_put m' a).2 /\ (spec_put m a).1 !! pa_Key a = (spec_put m' a).1 !! pa_Key a.
Proof. intros Hk. unfold spec_put. rewrite Hk. repeat case_match; simpl; rewrite ?lookup_insert_eq; split; congruence. Qed.

Lemma spec_get_local m m' k : m !! k = m' !! k -> spec_get m k = spec_get m' k.
Proof. intros Hk. unfold spec_get. by rewrite Hk. Qed.

(** A refusal as stale comes after an acknowledgement. *)
Definition stale_ok (h : list s_event) : Prop :=
  forall k a r, h !! k = Some (SPut a r) -> pr_Err r = ErrStaleRequest -> acked (s_puts (take (S k) h)) a.

Lemma stale_ok_snoc h e :
  stale_ok (h ++ [e]) <-> stale_ok h /\ forall a r, e = SPut a r -> pr_Err r = ErrStaleRequest -> acked (s_puts (h ++ [e])) a.
Proof.
  split.
  - intros HS. split.
    + intros k a r Hk Hr. pose proof (lookup_lt_Some _ _ _ Hk) as Hl. apply (lookup_app_l_Some _ [e]) in Hk.
      specialize (HS _ _ _ Hk Hr). by rewrite take_app_le in HS.
    + intros a r -> Hr. specialize (HS (length h) a r). rewrite take_ge in HS by (rewrite length_app; simpl; lia).
      apply HS; [by apply list_lookup_middle|done].
  - intros [HS He] k a r [Hk|[-> Heq]]%lookup_snoc_cases Hr.
    + pose proof (lookup_lt_Some _ _ _ Hk). rewrite take_app_le by lia. by eapply HS.
    + rewrite take_ge by (rewrite length_app; simpl; lia). by apply (He a r).
Qed.

Section store.
Context (E E0 : Z -> executions) (M M0 : Z -> kvmap) (g : Tgid) (req : grp_req) (rep : grp_rep) (e : s_event).
Context (hist : list mevent) (Hmade : made_by (g, req, rep) = Some e).
Context (HH : forall s, (0 <= s < 12)%Z -> shard_history s hist (E0 s) (M0 s) /\
  shard_next s (g, req, rep) (E0 s) (E s) (M0 s) (M s)).

(** The shards the request is not about stay. *)
Lemma other_shards s : (0 <= s < 12)%Z -> s <> Key2Shard (e_key e) -> E s = E0 s /\ M s = M0 s.
Proof using HH Hmade.
  intros Hs Hne. destruct (HH s Hs) as [_ [(? & ? & _)|(Heq & _)]]; [done|].
  by rewrite (made_by_shard _ _ _ _ Hmade) in Heq.
Qed.

(** One more execution of the store. *)
Lemma store_step h execs m :
  store_history ∅ h execs m -> (forall key, m !! key = M0 (Key2Shard key) !! key) ->
  (forall x, x ∈ execs <-> x ∈ E0 (Key2Shard (pa_Key x.1))) -> stale_ok (h ++ [e]) ->
  exists execs' m', store_history ∅ (h ++ [e]) execs' m' /\ (forall key, m' !! key = M (Key2Shard key) !! key) /\
    forall x, x ∈ execs' <-> x ∈ E (Key2Shard (pa_Key x.1)).
Proof using HH Hmade.
  intros Hh Hm Hx [_ Hst]%stale_ok_snoc. set (s0 := Key2Shard (e_key e)) in *.
  assert (0 <= s0 < 12)%Z as Hs0 by apply Key2Shard_range. pose proof other_shards as Hother. fold s0 in Hother.
  assert (E s0 = E0 s0 -> M s0 = M0 s0 -> store_history ∅ (h ++ [e]) execs m -> exists execs' m',
    store_history ∅ (h ++ [e]) execs' m' /\ (forall key, m' !! key = M (Key2Shard key) !! key) /\
    forall x, x ∈ execs' <-> x ∈ E (Key2Shard (pa_Key x.1))) as Hsame.
  { intros HE HM Hn. assert (forall s, (0 <= s < 12)%Z -> E s = E0 s /\ M s = M0 s) as Hall.
    { intros s Hs. destruct (decide (s = s0)) as [->|Hne]; [done|]. by apply Hother. }
    exists execs, m. split_and!; [done|..].
    - intros key. rewrite Hm. by destruct (Hall (Key2Shard key) (Key2Shard_range key)) as [_ ->].
    - intros x. rewrite Hx. by destruct (Hall (Key2Shard (pa_Key x.1)) (Key2Shard_range _)) as [-> _]. }
  destruct (HH s0 Hs0) as [Hsh [(HE & HM & Hcase)|(_ & e' & He' & Hcase)]].
  { apply Hsame; [done|done|]. apply ST_refused; [done|]. destruct Hcase as [Hne|(e' & He' & ?)]; [|congruence].
    by destruct Hne; rewrite (made_by_shard _ _ _ _ Hmade). }
  assert (e' = e) as -> by congruence. destruct e as [a [v ver er]|a r].
  { destruct Hcase as (HE & HM & Hg). apply Hsame; [done|done|]. apply ST_get; [done|]. simpl in Hg. rewrite <- Hg.
    apply spec_get_local. by rewrite Hm. }
  destruct Hcase as [(HE & Hp & Hf)|(HE & HM & Hr)].
  - injection Hp as HM Hr. destruct (spec_put_local m (M0 s0) a) as [Hl2 Hl1]; [by rewrite Hm|].
    exists (execs ++ [(a, r)]), (spec_put m a).1. split_and!.
    + eapply ST_put; [done|unfold spec_apply; by rewrite Hl2, Hr|]. intros Hid b x Hb Hi Hk. apply Hx in Hb.
      simpl in Hb. rewrite Hk in Hb. by eapply Hf.
    + intros key. destruct (decide (key = pa_Key a)) as [->|Hne]; [change (Key2Shard (pa_Key a)) with s0; by rewrite Hl1, HM|].
      rewrite spec_put_other, Hm by done. destruct (decide (Key2Shard key = s0)) as [Heq|Hns].
      * by rewrite Heq, <- HM, spec_put_other.
      * by destruct (Hother (Key2Shard key) (Key2Shard_range key) Hns) as [_ ->].
    + intros x. rewrite elem_of_app, Hx, list_elem_of_singleton. destruct (decide (Key2Shard (pa_Key x.1) = s0)) as [Heq|Hns].
      * by rewrite Heq, HE, elem_of_app, list_elem_of_singleton.
      * destruct (Hother _ (Key2Shard_range (pa_Key x.1)) Hns) as [-> _]. split; [|by left].
        intros [?| ->]; [done|]. by destruct Hns.
  - apply Hsame; [done|done|]. destruct Hr as [->|(b & Hb & Hi)]; [apply ST_stale; [done|by eapply Hst]|].
    apply (ST_again _ _ _ _ _ _ b); [done| |done]. apply Hx. simpl. by rewrite (shard_history_keys _ _ _ _ Hsh _ _ Hb).
Qed.

End store.

(** The histories of the shards are one of a single store. *)
Lemma shards_store hist : forall E M h,
  (forall s, (0 <= s < 12)%Z -> shard_history s hist (E s) (M s)) ->
  Forall2 (fun x e => made_by x = Some e) hist h -> stale_ok h ->
  exists execs m, store_history ∅ h execs m /\ (forall key, m !! key = M (Key2Shard key) !! key) /\
    forall x, x ∈ execs <-> x ∈ E (Key2Shard (pa_Key x.1)).
Proof.
  induction hist as [|x hist IH] using rev_ind; intros E M h HH Hmade Hst.
  - apply Forall2_nil_inv_l in Hmade as ->. exists [], ∅.
    assert (forall s, (0 <= s < 12)%Z -> E s = [] /\ M s = ∅) as Hnil.
    { intros s Hs%HH. inversion Hs as [|h0|h0|h0|h0|h0|h0]; try done; by destruct h0. }
    split_and!; [constructor|..].
    + intros key. by destruct (Hnil _ (Key2Shard_range key)) as [_ ->].
    + intros [a r]. simpl. by destruct (Hnil _ (Key2Shard_range (pa_Key a))) as [-> _].
  - apply Forall2_app_inv_l in Hmade as (h0 & h1 & Hmade & Hlast & ->).
    apply Forall2_cons_inv_l in Hlast as (e & h2 & He & Hnil & ->). apply Forall2_nil_inv_l in Hnil as ->.
    destruct (choice_range ([] : executions, ∅ : kvmap)
      (fun s '(E0, M0) => shard_history s hist E0 M0 /\ shard_next s x E0 (E s) M0 (M s)) 12) as [f Hf].
    { intros s Hs%HH. apply shard_history_snoc in Hs as (E0 & M0 & ? & ?). by exists (E0, M0). }
    assert (forall s, (0 <= s < 12)%Z -> shard_history s hist (f s).1 (f s).2 /\ shard_next s x (f s).1 (E s) (f s).2 (M s)) as Hf'.
    { intros s Hs. specialize (Hf s Hs). by destruct (f s). }
    destruct (IH (fun s => (f s).1) (fun s => (f s).2) h0) as (execs & m & Hs & Hm & Hx);
      [intros s Hs; by apply Hf'|done|by apply stale_ok_snoc in Hst as [? _]|].
    destruct x as [[g req] rep].
    exact (store_step E (fun s => (f s).1) M (fun s => (f s).2) g req rep e hist He Hf' h0 execs m Hs Hm Hx Hst).
Qed.

(** ** The groups *)

Section groups.
Context {GG : GobGrp} (moves : Z -> Z -> option (Tgid * Tgid)).

(** The executions [h] of the groups: the shards are kept, refusals come after
    acknowledgements, and every table, in a group or in transfer, keeps the watermarks
    of puts executed. *)
Record groups_inv (w : mworld) (h : list s_event) : Prop := {
  gi_shards : forall s, (0 <= s < 12)%Z -> exists hld st execs, minv moves s w hld st execs;
  gi_made : Forall2 (fun x e => made_by x = Some e) (mw_hist w) h;
  gi_stale : stale_ok h;
  gi_acks : forall g kv st, mw_groups w !! g = Some kv -> st ∈ grp_shards kv -> acks_from (s_puts h) (sh_Requests st);
  gi_data : forall s n d v t, (s, n, d) ∈ mw_data w -> decodeShardTransfer d = Some (v, t) -> acks_from (s_puts h) t;
}.

(** What is done with the shard of a request. *)
Lemma DoOp_shards req kv kv' rep st :
  grp_DoOp req kv = Some (kv', rep) -> st ∈ grp_shards kv' ->
  st ∈ grp_shards kv \/ exists st0, st0 ∈ grp_shards kv /\ shard_op req st0 = Some (st, rep).
Proof.
  unfold grp_DoOp. intros (st0 & Hz & H)%bind_Some Hin. apply bind_Some in H as ([st1 r] & Hop & H). injection H as <- <-.
  simpl in Hin. apply list_elem_of_lookup in Hin as [i Hi]. apply list_lookup_insert_Some in Hi as [(_ & <- & _)|[_ Hi]].
  - right. exists st0. split; [|done]. by eapply zlookup_elem.
  - left. by eapply list_elem_of_lookup_2.
Qed.

(** A step that changes nothing but one group. *)
Lemma groups_acks w h g kv kv' l :
  groups_inv w h -> mw_groups w !! g = Some kv ->
  (forall st, st ∈ grp_shards kv' -> st ∈ grp_shards kv \/ acks_from (s_puts h ++ l) (sh_Requests st)) ->
  forall g' kv0 st, <[g := kv']> (mw_groups w) !! g' = Some kv0 -> st ∈ grp_shards kv0 ->
    acks_from (s_puts h ++ l) (sh_Requests st).
Proof.
  intros HI Hg Hst g' kv0 st [[_ <-]|[_ Hg']]%lookup_insert_Some Hin.
  - destruct (Hst _ Hin) as [Hold|?]; [|done]. by eapply acks_from_more, (gi_acks _ _ HI).
  - by eapply acks_from_more, (gi_acks _ _ HI).
Qed.

(** A request of a client. *)
Lemma client_event req kv kv' rep g :
  client_req req = true -> grp_DoOp req kv = Some (kv', rep) -> exists e, made_by (g, req, rep) = Some e.
Proof.
  intros Hc H. unfold grp_DoOp in H. apply bind_Some in H as (st & _ & H). apply bind_Some in H as ([st' r] & Hop & H).
  injection H as _ <-. destruct req as [a|a|a|a|a|]; try done; simpl in Hop.
  - injection Hop as _ <-. eexists. reflexivity.
  - apply bind_Some in Hop as ([x y] & _ & Hop). injection Hop as _ <-. eexists. reflexivity.
Qed.

Lemma groups_client w h g kv req kv' rep :
  client_req req = true -> mw_groups w !! g = Some kv -> grp_DoOp req kv = Some (kv', rep) -> groups_inv w h ->
  (forall s, (0 <= s < 12)%Z -> exists hld st execs, minv moves s
    (mkMworld (<[g := kv']> (mw_groups w)) (mw_data w) (mw_done w) (mw_hist w ++ [(g, req, rep)])) hld st execs) ->
  exists h', groups_inv (mkMworld (<[g := kv']> (mw_groups w)) (mw_data w) (mw_done w) (mw_hist w ++ [(g, req, rep)])) h'.
Proof.
  intros Hc Hg Hop HI Hsh. destruct (client_event _ _ _ _ g Hc Hop) as [e He]. exists (h ++ [e]).
  (* the table of the shard *)
  assert (forall st0 st, st0 ∈ grp_shards kv -> shard_op req st0 = Some (st, rep) ->
    acks_from (s_puts (h ++ [e])) (sh_Requests st) /\
    forall a r, e = SPut a r -> pr_Err r = ErrStaleRequest -> acked (s_puts (h ++ [e])) a) as Hone.
  { intros st0 st Hst0 Hso. rewrite s_puts_app. pose proof (gi_acks _ _ HI _ _ _ Hg Hst0) as HA.
    destruct req as [a|a|a|a|a|]; try done; simpl in Hso.
    - injection Hso as -> <-. split; [by apply acks_from_more|]. injection He as <-. by intros ? ? [=].
    - apply bind_Some in Hso as ([x r] & Hp & Hso). injection Hso as -> <-. injection He as <-. simpl.
      apply put_shard_spec in Hp as [(_ & -> & ->)|(_ & t & values & -> & Hd)].
      + split; [by apply acks_from_more|]. by intros ? ? [= <- <-].
      + destruct (Table_Do_acks _ _ _ _ _ _ _ HA Hd) as [HA' Hs]. split; [done|]. by intros ? ? [= <- <-]. }
  constructor; [done| | | |]; simpl.
  - apply Forall2_app; [apply HI|by constructor].
  - apply stale_ok_snoc. split; [apply HI|].
    pose proof Hop as (st & Hz & Ho)%bind_Some. apply bind_Some in Ho as ([st' r] & Hso & Ho). injection Ho as _ <-.
    apply zlookup_elem in Hz. by eapply Hone.
  - rewrite s_puts_app. eapply groups_acks; [done|done|]. intros st Hin. rewrite <- s_puts_app.
    destruct (DoOp_shards _ _ _ _ _ Hop Hin) as [?|(st0 & Hst0 & Hso)]; [by left|right]. by eapply Hone.
  - intros s n d v t Hd Hdec. rewrite s_puts_app. by eapply acks_from_more, (gi_data _ _ HI).
Qed.

Lemma groups_inv_step (L : GobGrpLaws) (Hma : moves_apart moves) w h w' :
  groups_inv w h -> mstep moves w w' -> exists h', groups_inv w' h'.
Proof.
  intros HI Hs. assert (forall s, (0 <= s < 12)%Z -> exists hld st execs, minv moves s w' hld st execs) as Hsh.
  { intros s Hr. eapply minv_step; [done|done|by apply HI|done]. }
  assert (forall g kv req kv' rep, mw_groups w !! g = Some kv -> grp_DoOp req kv = Some (kv', rep) ->
    (forall st0 st, st0 ∈ grp_shards kv -> shard_op req st0 = Some (st, rep) -> acks_from (s_puts h) (sh_Requests st)) ->
    forall g' kv0 st, <[g := kv']> (mw_groups w) !! g' = Some kv0 -> st ∈ grp_shards kv0 ->
      acks_from (s_puts h) (sh_Requests st)) as Hgroup.
  { intros g kv req kv' rep Hg Hop Hone g' kv0 st H1 H2. rewrite <- (app_nil_r (s_puts h)).
    eapply groups_acks; [done|exact Hg| |exact H1|done]. intros st1 Hin. rewrite app_nil_r.
    destruct (DoOp_shards _ _ _ _ _ Hop Hin) as [?|(st0 & ? & ?)]; eauto. }
  destruct Hs as [g kv req kv' rep Hc Hg Hop|s n src dst kv kv' rep _ Hg Hop|s n src dst d kv kv' rep _ Hd Hg Hop
    |s n src dst kv kv' rep _ _ Hg Hop].
  - by eapply groups_client.
  - exists h. assert (forall st0 st, st0 ∈ grp_shards kv -> shard_op (GFreeze (mkFreezeShardArgs s n)) st0 = Some (st, rep) ->
      acks_from (s_puts h) (sh_Requests st) /\ forall x, x ∈ freeze_data s n rep -> forall v t,
        decodeShardTransfer x.2 = Some (v, t) -> acks_from (s_puts h) t) as Hone.
    { intros st0 st Hst0 Hso. pose proof (gi_acks _ _ HI _ _ _ Hg Hst0) as HA. simpl in Hso.
      apply bind_Some in Hso as ([x r] & Hf & Hso). injection Hso as -> <-.
      apply freeze_shard_spec in Hf as [(He & _ & _ & _ & _ & Hq & Henc & _)|[He ->]]; simpl.
      - rewrite Hq. split; [done|]. rewrite decide_True by done. intros x ->%list_elem_of_singleton v t Hdec.
        apply (transfer_roundtrip L) in Henc as [_ Henc]. simpl in Hdec. rewrite Henc, Hq in Hdec. by injection Hdec as _ <-.
      - split; [done|]. rewrite decide_False by (by rewrite He). by intros x ?%not_elem_of_nil. }
    constructor; [done|apply HI|apply HI| |].
    + eapply Hgroup; [done|done|]. intros st0 st H1 H2. exact (proj1 (Hone _ _ H1 H2)).
    + intros s' n' d v t [Hin|Hin]%elem_of_app Hdec; [|by eapply (gi_data _ _ HI)].
      pose proof Hop as (st & Hz & Ho)%bind_Some. apply bind_Some in Ho as ([st' r] & Hso & Ho). injection Ho as _ <-.
      apply zlookup_elem in Hz. exact (proj2 (Hone _ _ Hz Hso) _ Hin _ _ Hdec).
  - exists h. constructor; [done|apply HI|apply HI| |apply HI]. eapply Hgroup; [done|done|].
    intros st0 st Hst0 Hso. pose proof (gi_acks _ _ HI _ _ _ Hg Hst0) as HA. simpl in Hso.
    apply bind_Some in Hso as ([x r] & Hf & Hso). injection Hso as -> <-.
    apply install_shard_spec in Hf as [(_ & -> & _)|[(_ & _ & _ & m & t & Hdec & ->)|(_ & -> & _)]]; [done| |done].
    by eapply (gi_data _ _ HI).
  - exists h. constructor; [done|apply HI|apply HI| |apply HI]. eapply Hgroup; [done|done|].
    intros st0 st Hst0 Hso. pose proof (gi_acks _ _ HI _ _ _ Hg Hst0) as HA. simpl in Hso.
    destruct (delete_shard st0 _) as [x r] eqn:Hd. injection Hso as -> <-.
    apply delete_shard_spec in Hd as [(_ & -> & _)|[(_ & _ & _ & ->)|(_ & ->)]]; [done|apply acks_from_zero|done].
Qed.

Lemma groups_inv_init w : minit w -> groups_inv w [].
Proof.
  intros H0. pose proof H0 as (_ & Hall & Hd & _ & Hh). constructor.
  - intros s Hs. by eapply minv_init.
  - rewrite Hh. constructor.
  - intros k a r Hk. by rewrite lookup_nil in Hk.
  - intros g kv st Hg Hin. apply Hall in Hg as ->. unfold StartServerShardGrp in Hin. cbn [grp_shards] in Hin.
    apply list_elem_of_lookup in Hin as [i Hi]. apply lookup_replicate in Hi as [-> _].
    case_decide; apply acks_from_zero.
  - intros s n d v t Hin. rewrite Hd in Hin. by apply not_elem_of_nil in Hin.
Qed.

(** The executions of the groups are those of one store. *)
Lemma groups_store w h : groups_inv w h -> exists execs m, store_history ∅ h execs m.
Proof.
  intros HI. destruct (choice_range ([] : executions, ∅ : kvmap)
    (fun s x => shard_history s (mw_hist w) x.1 x.2) 12) as [f Hf].
  { intros s Hs. destruct (gi_shards _ _ HI s Hs) as (hld & st & execs & Hm). exists (execs, sh_Values st). apply Hm. }
  destruct (shards_store (mw_hist w) (fun s => (f s).1) (fun s => (f s).2) h) as (execs & m & ? & _);
    [done|apply HI|apply HI|eauto].
Qed.

End groups.
