(* ===== verification/ShardLinear.v ===== *)
(** * The sharded service as its clients see it

    The clerks and groups of [ShardSystem] keep the promises of [ClerkLinear], so the
    calls of all clerks are linearizable while shards move: a call that is sent to a
    group that no longer serves its shard is refused, and its clerk asks the controller
    and tries again under the same identity. *)

From S2P Require Import Prelude.
From S2P Require Import Rpc.
From S2P Require Import KvSpec.
From S2P Require Import Dedup.
From S2P Require Import Persister.
From S2P Require Import Rsm.
From S2P Require Import RsmLinear.
From S2P Require Import ShardCfg.
From S2P Require Import ShardGrp.
From S2P Require Import ShardMove.
From S2P Require Import Prog.
From S2P Require Import Clerk.
From S2P Require Import ClerkSafe.
From S2P Require Import ClerkSystem.
From S2P Require Import StoreOrder.
From S2P Require Import ClerkLinear.
From S2P Require Import ShardSystem.
From S2P Require Import ShardOrder.

(** ** The clerk objects *)

Record shard_ok (ob : shard_obj) : Prop := {
  so_view : cinv (cview ob None);
  so_wf : clerks_wf (so_ck ob) (fst <$> so_clerks ob);
  so_config : forall cfg, sk_config (so_ck ob) = Some cfg -> length (sc_Shards cfg) = NShards;
}.

Lemma alter_servers (f : Z -> Z -> Z) h (m : gmap nat (list string * Z)) :
  fst <$> alter (fun '(servers, l) => (servers, f (zlen servers) l)) h m = fst <$> m.
Proof.
  apply map_eq. intros i. rewrite !lookup_fmap. destruct (decide (i = h)) as [->|Hne].
  - rewrite lookup_alter_eq. by destruct (m !! h) as [[sv l]|].
  - by rewrite lookup_alter_ne.
Qed.

Lemma set_leader_view ob m h f : set_leader h f (cview ob m) = cview (set_so_leader h f ob) m.
Proof. done. Qed.

Lemma shard_ok_leader ob m h servers leader f :
  shard_ok ob -> cw_clerks (cview ob m) !! h = Some (servers, leader) ->
  (forall l, (0 <= l < zlen servers)%Z -> (0 <= f (zlen servers) l < zlen servers)%Z) -> shard_ok (set_so_leader h f ob).
Proof.
  intros [Hv Hw Hc] Hh Hf. constructor; simpl; [|by rewrite alter_servers|done].
  rewrite <- set_leader_view. by eapply set_leader_inv.
Qed.

(** An effect is answered as [ClerkSafe] says. *)
Lemma shard_answers own m inp e ob ob' r :
  shard_ok ob -> cinv (cview ob m) -> callowed own (cview ob m) e -> shard_do inp e ob = Some (ob', r) ->
  shard_ok ob' /\ canswer (cview ob m) e r (cview ob' (mine_after e r m)).
Proof.
  intros HO HI Ha Hd. destruct e as [s c|h|h s|h s| | | |s|force|g sv]; simpl in Hd; try done.
  - apply bind_Some in Hd as ([sv l] & Hl & [= <- <-]). split; [done|]. split; [done|]. by exists sv.
  - injection Hd as <- <-. destruct Ha as (sv & l & Hl & Hs). split; [|done].
    eapply (shard_ok_leader _ m); [done|exact Hl|]. intros. by apply remember_range.
  - injection Hd as <- <-. destruct Ha as (sv & l & Hl & Hs). split; [|done].
    eapply (shard_ok_leader _ m); [done|exact Hl|]. intros. by apply advanceLeader_range.
  - by injection Hd as <- <-.
  - apply bind_Some in Hd as ([c' [i s]] & Hb & [= <- <-]). split; [|simpl; eauto].
    pose proof (Begin_inv _ _ _ _ _ _ (ck_client _ HI) Hb) as (HC & _ & _ & _ & _ & Hi & Hz & _).
    destruct HO as [[Hl _ _ _] Hw Hc]. constructor; [|done|done]. constructor; simpl; [done|done|done|]. intros _. by rewrite Hi.
  - by injection Hd as <- <-.
  - injection Hd as <- <-. destruct (ck_active _ HI _ Ha) as [Hr _].
    destruct (Complete_inv s _ _ (ck_client _ HI) Hr) as (HC & Hi & Hn & _). simpl in HC, Hi, Hn. split; [|done].
    destruct HO as [[Hl _ _ Hz] Hw Hc]. constructor; [|done|done]. constructor; simpl; [done|done|done|]. by rewrite Hi, Hn.
  - destruct (inp.2) as [|queried].
    + apply bind_Some in Hd as (cfg & Hc & [= <- <-]). unfold loadConfig_cached in Hc. destruct force; [done|].
      split; [done|]. split; [done|]. intros cfg' [= <-]. by apply (so_config _ HO).
    + destruct (has_shards queried) eqn:Hq; [|done]. destruct (loadConfig queried (so_ck ob)) as [ck cfg] eqn:Hl.
      injection Hd as <- <-. assert (sk_rcks ck = sk_rcks (so_ck ob) /\ sk_rckServers ck = sk_rckServers (so_ck ob) /\
        sk_handles ck = sk_handles (so_ck ob) /\ (forall c, sk_config ck = Some c -> length (sc_Shards c) = NShards) /\
        (forall c, cfg = Some c -> length (sc_Shards c) = NShards)) as (E1 & E2 & E3 & E4 & E5).
      { pose proof (so_config _ HO) as Hold. unfold loadConfig in Hl. destruct queried as [q|]; [|by injection Hl as <- <-].
        apply bool_decide_eq_true in Hq. injection Hl as <- <-. simpl. split_and!; [done|done|done|..]; intros c [= <-];
          (destruct (sk_config (so_ck ob)) as [c0|]; [case_match; [done|by apply Hold]|done]). }
      destruct HO as [Hv Hw Hc]. split; [|done]. constructor; [done| |done]. simpl.
      destruct Hw as [Hw1 Hw2]. split; rewrite ?E1, ?E2, ?E3; done.
  - apply bind_Some in Hd as ([ck h] & Hg & [= <- <-]). destruct HO as [Hv Hw Hc].
    pose proof (groupClerk_spec _ _ _ _ _ _ Hw Hg) as [[-> Hm]|(Hm & Hw' & Hcfg & _)].
    + rewrite lookup_fmap in Hm. apply fmap_Some in Hm as ([sv' l] & Hm & ->). simpl. rewrite Hm.
      split; [by constructor|]. exists l. left. split; [done|]. by destruct ob.
    + rewrite lookup_fmap in Hm. apply fmap_None in Hm. simpl. rewrite Hm. split.
      * constructor; simpl; [|by rewrite fmap_insert|by rewrite Hcfg]. exact (new_clerk_inv h sv (cview ob None) Hv Ha).
      * exists 0%Z. right. by split_and!.
Qed.

(** ** Their programs *)

Lemma grp_get_round_safe c n h servers args : forall received w,
  cinv w -> has_clerk w h servers -> csafe c (grp_get_round n h servers args received) (fun w' _ => later w w') w.
Proof.
  induction n as [|n IH]; intros received w HI Hh; cbn [grp_get_round]; [by apply ret_safe|].
  apply attempt_safe; [done|done|]. intros server s w1 Hs Hl1. split; [done|]. intros r _.
  pose proof (has_clerk_later _ _ _ _ Hh Hl1) as Hh1.
  assert (forall rcv, csafe c (Call (EAdvance h server) (fun _ => grp_get_round n h servers args rcv)) (fun w' _ => later w w') w1)
    as Hnext.
  { intros rcv. eapply advance_safe; [apply Hl1|exact Hh1|done|]. intros w2 Hl2.
    eapply safe_mono; [|apply IH; [apply Hl2|by eapply has_clerk_later]].
    intros w3 a Hl3. eapply later_trans; [exact Hl1|by eapply later_trans]. }
  destruct r as [reply|]; [|apply Hnext]. case_decide; [|apply Hnext].
  eapply remember_safe; [apply Hl1|exact Hh1|done|]. intros w2 Hl2. apply ret_safe; [apply Hl2|]. intros w3 Hl3.
  eapply later_trans; [exact Hl1|by eapply later_trans].
Qed.

Lemma grp_get_safe c fuel h servers key : forall w,
  cinv w -> has_clerk w h servers -> csafe c (grp_Clerk_Get fuel h servers key) (fun w' _ => later w w') w.
Proof.
  induction fuel as [|fuel IH]; intros w HI Hh; cbn [grp_Clerk_Get]; [done|].
  eapply safe_bind; [by apply grp_get_round_safe|]. intros w1 [r|[|]] Hl1.
  - apply ret_safe; [apply Hl1|]. intros w2 Hl2. by eapply later_trans.
  - eapply safe_mono; [|apply IH; [apply Hl1|by eapply has_clerk_later]]. intros w2 a Hl2. by eapply later_trans.
  - apply ret_safe; [apply Hl1|]. intros w2 Hl2. by eapply later_trans.
Qed.

Lemma shardkv_get_loop_safe c fuel gfuel key : forall force w,
  cinv w -> csafe c (shardkv_get_loop fuel gfuel key force) (fun _ _ => True) w.
Proof.
  induction fuel as [|fuel IH]; intros force w HI; cbn [shardkv_get_loop]; [done|].
  apply route_safe; [done|intros w1 Hl1; apply IH, Hl1|]. intros w1 h servers Hl1 Hh.
  eapply safe_bind; [apply grp_get_safe; [apply Hl1|done]|]. intros w2 [[v ver] e] Hl2.
  destruct e; try (by apply IH, Hl2); by apply ret_safe; [apply Hl2|].
Qed.

Lemma shard_prog_safe fuel c w : cinv w -> cw_mine w = None -> csafe c (shard_prog fuel c) any_result w.
Proof.
  intros HI Hm. destruct c as [key|key value version]; unfold shard_prog.
  - eapply safe_bind; [exact (shardkv_get_loop_safe (CallGet key) fuel fuel key false w HI)|]. by intros w' [[v ver] e] _.
  - eapply safe_bind; [|by intros w' e _].
    apply (put_call_safe (fun args => shardkv_put_loop fuel fuel args false)); auto.
    intros id s w' Hr Hc. exact (shardkv_put_loop_safe _ fuel fuel false w' Hr).
Qed.

(** What a group's clerk got for a get, and for a put. *)
Definition got_get (r : string * Tversion * Err) (got : option kv_res) : Prop :=
  let '(v, ver, e) := r in (e = OK \/ e = ErrNoKey) -> got = Some (GetRes v ver e).

Definition got_put (e : Err) (got : option kv_res) : Prop :=
  e <> ErrMaybe /\ (definite e -> got = Some (PutRes e)).

Lemma grp_get_round_honest key n h servers : forall received id got,
  honest_to (CallGet key) (fun r _ got => match r with inl r => got_get r got | inr _ => True end)
    (grp_get_round n h servers (mkGetArgs key) received) id got.
Proof.
  induction n as [|n IH]; intros received id got; [done|]. simpl. intros server. unfold ck_server.
  destruct (zlookup servers server) as [s|]; [|done]. simpl. split; [done|].
  intros [[v ver e]|]; simpl; [|by intros _; apply IH]. case_decide as Hd; simpl; [|by intros _; apply IH].
  intros _ He. by rewrite decide_True.
Qed.

Lemma grp_get_honest key fuel h servers : forall id got,
  honest_to (CallGet key) (fun r _ got => got_get r got) (grp_Clerk_Get fuel h servers key) id got.
Proof.
  induction fuel as [|fuel IH]; intros id got; cbn [grp_Clerk_Get]; [done|].
  eapply honest_bind; [apply grp_get_round_honest|]. intros [r|[|]] id' got' Hr; simpl; [done|apply IH|].
  by intros [?|?].
Qed.

(** Routing sends nothing. *)
Lemma route_honest {A} c (Q : A -> _) shard force k id got :
  (forall target, honest_to c Q (k target) id got) -> honest_to c Q (route shard force k) id got.
Proof.
  intros Hk. unfold route. simpl. intros [cfg|]; [|apply Hk].
  destruct (GidServers shard cfg) as [[[gid sv] ok]|]; [|done]. case_match; [apply Hk|]. simpl. intros h. apply Hk.
Qed.

Lemma shardkv_get_honest key fuel gfuel : forall force id got,
  honest_to (CallGet key) (fun r _ got => let '(v, ver, e) := r in got = Some (GetRes v ver e))
    (shardkv_get_loop fuel gfuel key force) id got.
Proof.
  induction fuel as [|fuel IH]; intros force id got; cbn [shardkv_get_loop]; [done|].
  apply route_honest. intros [[h sv]|]; [|apply IH].
  eapply honest_bind; [apply grp_get_honest|]. intros [[v ver] e] id' got' Hr. simpl in Hr.
  destruct e; try apply IH; simpl; auto.
Qed.

Lemma grp_put_round_honest key value version id s ack n h servers : id <> 0%N -> forall received uncertain got,
  honest_to (CallPut key value version)
    (fun r id' got => id' = Some (id, s) /\ match r with inl e => got_put e got | inr _ => True end)
    (grp_put_round n h servers (mkPutArgs key value version id s ack) received uncertain) (Some (id, s)) got.
Proof.
  intros Hid. induction n as [|n IH]; intros received uncertain got; [done|]. simpl. intros server. unfold ck_server.
  destruct (zlookup servers server) as [x|]; [|done]. simpl. split; [done|]. split; [done|].
  apply N.eqb_neq in Hid. intros [[e]|]; simpl; [|intros _; apply IH].
  destruct e; simpl; rewrite ?Hid, ?andb_false_r; try (intros _; apply IH); unfold got_put; simpl; intros;
    split_and!; try done; by intros [?|[?|?]].
Qed.

Lemma grp_put_honest key value version id s ack fuel h servers : id <> 0%N -> forall uncertain got,
  honest_to (CallPut key value version) (fun e id' got => id' = Some (id, s) /\ got_put e got)
    (grp_put_loop fuel h servers (mkPutArgs key value version id s ack) uncertain) (Some (id, s)) got.
Proof.
  intros Hid. induction fuel as [|fuel IH]; intros uncertain got; cbn [grp_put_loop]; [done|].
  eapply honest_bind; [by apply grp_put_round_honest|]. intros [e|[[|] u]] id' got' [-> Hr]; simpl; [done|apply IH|].
  split; [done|]. split; [done|]. by intros [?|[?|?]].
Qed.

Lemma shardkv_put_honest key value version id s fuel gfuel : id <> 0%N -> forall force got,
  honest_to (CallPut key value version) (fun e _ got => got = Some (PutRes e))
    (shardkv_put_loop fuel gfuel (mkPutArgs key value version id s 0) force) (Some (id, s)) got.
Proof.
  intros Hid. induction fuel as [|fuel IH]; intros force got; cbn [shardkv_put_loop]; [done|].
  apply route_honest. intros [[h sv]|]; [|apply IH]. simpl. intros ack.
  eapply honest_bind; [by apply grp_put_honest|]. intros e id' got' [-> [Hm Hd]]. unfold definite in Hd.
  destruct e; try apply IH; simpl; auto; by destruct Hm.
Qed.

Lemma shard_prog_honest fuel c : honest c (shard_prog fuel c) None None.
Proof.
  destruct c as [key|key value version]; unfold shard_prog.
  - eapply honest_bind; [apply shardkv_get_honest|]. by intros [[v ver] e] id got ->.
  - simpl. split; [done|]. intros [id s] Hid. simpl in Hid. eapply honest_bind.
    + eapply honest_bind; [by apply shardkv_put_honest|]. intros e id' got Hg. simpl. intros _. exact Hg.
    + by intros e id' got ->.
Qed.

#[global] Instance shard_clerk_laws : ClerkObjectLaws shard_obj.
Proof.
  refine {| ob_inv := shard_ok |}.
  - intros ob HO. apply HO.
  - done.
  - intros own m inp e ob ob' r. apply shard_answers.
  - intros fuel ob c HO. by apply shard_prog_safe; [apply HO|].
  - intros fuel ob c. apply shard_prog_honest.
Defined.

(** ** The groups *)

Section ShardLinear.
Context {GG : GobGrp} (moves : Z -> Z -> option (Tgid * Tgid)).

#[local] Instance shard_groups : Service mworld grp_req grp_rep := shard_service moves.

Definition shards_ok (w : mworld) : Prop := exists h, groups_inv moves w h.

(** The history of the executions. *)
Lemma m_hist_lookup (l : list mevent) : forall i e, mjoin (imap m_events l) !! i = Some e ->
  exists p g req rep, l !! p = Some (g, req, rep) /\
    ((e = Inv (m_op p req) /\ i = 2 * p) \/ (e = RsmLinear.Ret (m_op p req) (OK, Some rep) /\ i = 2 * p + 1)).
Proof.
  assert (forall l, length (mjoin (imap m_events l)) = 2 * length l) as Hlen.
  { intros l'. induction l' as [|[[g req] rep] l' IH] using rev_ind; [done|].
    rewrite imap_app, join_app, !length_app, IH. simpl. lia. }
  induction l as [|[[g req] rep] l IH] using rev_ind; intros i e Hi; [done|].
  rewrite imap_app, join_app in Hi. apply lookup_app_Some in Hi as [Hi|[Hl Hi]].
  - destruct (IH _ _ Hi) as (p & g' & req' & rep' & Hp & ?). exists p, g', req', rep'.
    split; [by apply lookup_app_l_Some|done].
  - rewrite Hlen in Hl, Hi. exists (length l), g, req, rep. split; [by apply list_lookup_middle|].
    destruct (i - 2 * length l) as [|[|k]] eqn:Hk; simpl in Hi; rewrite ?Nat.add_0_r in Hi; try done;
      injection Hi as <-; [left|right]; (split; [done|lia]).
Qed.

Lemma m_hist_elem w e : e ∈ m_hist w -> exists p g req rep, mw_hist w !! p = Some (g, req, rep) /\
  (e = Inv (m_op p req) \/ e = RsmLinear.Ret (m_op p req) (OK, Some rep)).
Proof.
  intros (i & Hi)%list_elem_of_lookup. destruct (m_hist_lookup _ _ _ Hi) as (p & g & req & rep & Hp & [[? _]|[? _]]); eauto 10.
Qed.

Lemma m_hist_inv w p g req rep : mw_hist w !! p = Some (g, req, rep) -> Inv (m_op p req) ∈ m_hist w.
Proof.
  intros Hp. apply list_elem_of_join. exists (m_events p (g, req, rep)). split; [left|].
  apply (list_elem_of_lookup_2 _ p). by rewrite list_lookup_imap, Hp.
Qed.

Lemma m_hist_order w a b : precedes (m_hist w) a b -> (op_Sequence a < op_Sequence b)%N.
Proof.
  intros (h1 & h2 & h3 & r & Hh).
  assert (m_hist w !! length h1 = Some (RsmLinear.Ret a (OK, Some r))) as Ha by (rewrite Hh; by apply list_lookup_middle).
  assert (m_hist w !! (length h1 + S (length h2)) = Some (Inv b)) as Hb.
  { rewrite Hh, lookup_app_r by lia. replace (_ - _) with (S (length h2)) by lia. simpl. by apply list_lookup_middle. }
  apply m_hist_lookup in Ha as (p & g & req & rep & _ & [[? _]|[Ha Hp]]); [done|].
  apply m_hist_lookup in Hb as (q & g' & req' & rep' & _ & [[Hb Hq]|[? _]]); [|done].
  injection Ha as -> _. injection Hb as ->. simpl. lia.
Qed.

Lemma m_hist_grows w w' l :
  mw_hist w' = mw_hist w ++ l -> exists l', m_hist w' = m_hist w ++ l' /\ (l = [] -> l' = []) /\
    forall e, e ∈ l' -> match e with Inv op | RsmLinear.Ret op _ => (N.of_nat (length (mw_hist w)) <= op_Sequence op)%N end.
Proof.
  intros Hl. unfold m_hist. rewrite Hl, imap_app, join_app. eexists. split; [done|]. split; [by intros ->|].
  intros e (es & He & Hes)%list_elem_of_join. apply list_elem_of_lookup in Hes as [i Hi].
  rewrite list_lookup_imap in Hi. apply fmap_Some in Hi as ([[g req] rep] & _ & ->). simpl in He.
  apply elem_of_cons in He as [->|He]; [simpl; lia|]. apply list_elem_of_singleton in He as ->. simpl. lia.
Qed.

Lemma mstep_hist w w' : mstep moves w w' -> exists l, mw_hist w' = mw_hist w ++ l.
Proof. intros []; simpl; eauto; exists []; by rewrite app_nil_r. Qed.

Lemma shards_fresh w w' op l : mstep moves w w' -> m_hist w' = m_hist w ++ Inv op :: l -> Inv op ∉ m_hist w.
Proof.
  intros [l0 Hl]%mstep_hist Hh Hin. destruct (m_hist_grows _ _ _ Hl) as (l' & Hl' & _ & Hnew).
  rewrite Hl' in Hh. apply app_inv_head in Hh as ->. specialize (Hnew (Inv op) ltac:(left)). simpl in Hnew.
  apply m_hist_elem in Hin as (p & g & req & rep & Hp & [[= ->]|?]); [|done]. apply lookup_lt_Some in Hp. simpl in Hnew. lia.
Qed.

(** The executions are the log. *)
Definition m_log (w : mworld) : list (Op grp_req) := imap (fun p x => m_op p x.1.2) (mw_hist w).

Lemma m_log_lookup w k op : m_log w !! k = Some op <-> exists g req rep, mw_hist w !! k = Some (g, req, rep) /\ op = m_op k req.
Proof.
  unfold m_log. rewrite list_lookup_imap, fmap_Some. split.
  - intros ([[g req] rep] & Hk & ->). eauto.
  - intros (g & req & rep & Hk & ->). by exists (g, req, rep).
Qed.

Lemma shards_logged w : shards_ok w -> exists log h, logged ∅ w log h.
Proof.
  intros [h HI]. exists (m_log w), h. pose proof (gi_made _ _ _ HI) as Hmade. constructor.
  - by eapply groups_store.
  - apply NoDup_alt. intros i j op (? & ? & ? & _ & ->)%m_log_lookup (? & ? & ? & _ & Heq)%m_log_lookup.
    apply (f_equal op_Sequence) in Heq. simpl in Heq. lia.
  - intros op (k & Hk)%list_elem_of_lookup. apply m_log_lookup in Hk as (g & req & rep & Hk & ->). by eapply m_hist_inv.
  - intros k e Hk. destruct (Forall2_lookup_r _ _ _ _ _ Hmade Hk) as ([[g req] rep] & Hx & He).
    exists (m_op k req). split; [apply m_log_lookup; eauto|].
    unfold asks. simpl. destruct req, rep; try done; by injection He as <-.
  - intros op c rep Hr Hc. apply m_hist_elem in Hr as (p & g & req & rep' & Hp & [?|[= -> ->]]); [done|].
    destruct (Forall2_lookup_l _ _ _ _ _ Hmade Hp) as (e & He & Hm). unfold asks in Hc. simpl in Hc.
    destruct req; try done; injection Hc as <-; destruct rep'; try done; injection Hm as <-;
      (eexists _, p); (split; [done|]); (split; [apply m_log_lookup; eauto|done]).
  - intros a b j k Hab (? & ? & ? & _ & ->)%m_log_lookup (? & ? & ? & _ & ->)%m_log_lookup.
    apply m_hist_order in Hab. simpl in Hab. lia.
Qed.

Lemma shard_service_laws (L : GobGrpLaws) (Hma : moves_apart moves) : ServiceLaws (Y := mworld) ∅.
Proof using Type.
  refine {| sv_ok := shards_ok |}.
  - intros w w' [h HI] Hs. by eapply groups_inv_step.
  - intros w w' op l _. apply shards_fresh.
  - intros c req. destruct req; try done; intros [= <-]; eauto.
  - intros c req. destruct req; try done; intros [= <-]; simpl; eauto.
  - intros c reply. destruct c as [a|a|f|f|f]; try done; by intros [= <-].
  - intros w op res _ (p & g & req & rep & _ & [?|[= -> ->]])%m_hist_elem; [done|]. left. eauto.
  - apply shards_logged.
Defined.

Lemma shard_ok_init : shard_ok (mkShardObj MakeShardClerk ∅ Client_zero ∅).
Proof.
  constructor; [constructor; simpl; try done; apply client_inv_zero| |done]. simpl. rewrite fmap_empty.
  split; simpl; [done|]. intros rck. rewrite lookup_empty. split; [by intros [? ?]|lia].
Qed.

(** With groups that execute a request at once ([ShardReplicaLinear] does without): in every run of clerks, each with
    any number of calls side by side and a cache of configurations and group clerks that
    the calls share, on groups that freeze, install and delete shards for controllers
    that carry out one plan of moves, over a network that loses, delays, reorders,
    duplicates and misdirects requests, the calls of [Get] and [Put] are linearizable on
    one conditional store, wherever its shards are.  So a [Put] that was refused by a
    group the shard has left, or was executed there before the move and its answer lost,
    still takes effect exactly once.  No clerk panics and no handler does. *)
Theorem sharded_clerks_linearizable (L : GobGrpLaws) (Hma : moves_apart moves) w0 w :
  sharded_init w0 -> rtc (sharded_step moves) w0 w ->
  kv_linearizable ∅ (l_hist w) /\
  (forall o ca, l_calls w !! o = Some ca -> ca_prog ca <> Some Panic) /\
  (forall op res k o c, (op, k) ∈ l_from w -> l_msgs w !! k = Some (o, c) ->
     RsmLinear.Ret op res ∈ m_hist (l_sys w) -> is_Some (grp_handler c res)).
Proof.
  intros (H0 & Hob & Hf) Hr. pose (SVL := shard_service_laws L Hma).
  apply (clinv_promise (Obj := shard_obj) (SV := shard_groups) ∅ w). eapply clinv_run; [exact Hr|]. apply clinv_init; [| | |done].
  - exists []. by apply groups_inv_init.
  - intros op (p & g & req & rep & Hp & _)%m_hist_elem. destruct H0 as (_ & _ & _ & _ & Hh). by rewrite Hh in Hp.
  - intros i ob ->%Hob. split; [apply shard_ok_init|done].
Qed.

End ShardLinear.
