(* ===== verification/ShardClerkSim.v ===== *)
(** * Executable schedules of clerks of the sharded service

    The schedules of [ClerkSim] on the groups of [ShardSystem].  A put is executed by
    one group and its answer lost, the shard moves to another group, and the clerk tries
    again there, where the table that moved with the shard answers it; a get by another
    clerk with an old configuration is refused by the first group and then served by the
    second.  The theorem of [ShardLinear] is applied to the run. *)

From S2P Require Import Prelude.
From S2P Require Import Rpc.
From S2P Require Import KvSpec.
From S2P Require Import Dedup.
From S2P Require Import Rsm.
From S2P Require Import RsmLinear.
From S2P Require Import ShardCfg.
From S2P Require Import ShardGrp.
From S2P Require Import ShardMove.
From S2P Require Import ShardSim.
From S2P Require Import Prog.
From S2P Require Import Clerk.
From S2P Require Import ClerkSystem.
From S2P Require Import ClerkSim.
From S2P Require Import ShardSystem.
From S2P Require Import ShardLinear.

Section ShardClerkSim.
Context {GG : GobGrp} (moves : Z -> Z -> option (Tgid * Tgid)).

(** ** Steps of the groups *)

Inductive m_event : Type :=
  | EvClient (g : Tgid) (req : grp_req)
  | EvFreeze (s n : Z)
  | EvInstall (s n : Z) (i : nat)
  | EvDelete (s n : Z).

Definition m_exec (v : m_event) (w : mworld) : option mworld :=
  match v with
  | EvClient g req =>
      kv ← mw_groups w !! g; '(kv', rep) ← grp_DoOp req kv;
      if client_req req
      then Some (mkMworld (<[g := kv']> (mw_groups w)) (mw_data w) (mw_done w) (mw_hist w ++ [(g, req, rep)])) else None
  | EvFreeze s n =>
      '(src, _) ← moves n s; kv ← mw_groups w !! src; '(kv', rep) ← grp_DoOp (GFreeze (mkFreezeShardArgs s n)) kv;
      Some (mkMworld (<[src := kv']> (mw_groups w)) (freeze_data s n rep ++ mw_data w) (mw_done w) (mw_hist w))
  | EvInstall s n i =>
      '(_, dst) ← moves n s; '(s', n', d) ← mw_data w !! i;
      if decide (s' = s /\ n' = n) then
        kv ← mw_groups w !! dst; '(kv', rep) ← grp_DoOp (GInstall (mkInstallShardArgs s d n)) kv;
        Some (mkMworld (<[dst := kv']> (mw_groups w)) (mw_data w) (install_done s n rep ++ mw_done w) (mw_hist w))
      else None
  | EvDelete s n =>
      '(src, _) ← moves n s;
      if decide ((s, n) ∈ mw_done w) then
        kv ← mw_groups w !! src; '(kv', rep) ← grp_DoOp (GDelete (mkDeleteShardArgs s n)) kv;
        Some (mkMworld (<[src := kv']> (mw_groups w)) (mw_data w) (mw_done w) (mw_hist w))
      else None
  end.

Lemma m_exec_step v w w' : m_exec v w = Some w' -> mstep moves w w'.
Proof.
  destruct v as [g req|s n|s n i|s n]; simpl; intros Hx.
  - apply bind_Some in Hx as (kv & Hg & Hx). apply bind_Some in Hx as ([kv' rep] & Hop & Hx).
    destruct (client_req req) eqn:Hc; [|done]. injection Hx as <-. by eapply M_client.
  - apply bind_Some in Hx as ([src dst] & Hm & Hx). apply bind_Some in Hx as (kv & Hg & Hx).
    apply bind_Some in Hx as ([kv' rep] & Hop & Hx). injection Hx as <-. by eapply M_freeze.
  - apply bind_Some in Hx as ([src dst] & Hm & Hx). apply bind_Some in Hx as ([[s' n'] d] & Hd & Hx).
    case_decide as Hc; [|done]. destruct Hc as [-> ->]. apply bind_Some in Hx as (kv & Hg & Hx).
    apply bind_Some in Hx as ([kv' rep] & Hop & Hx). injection Hx as <-.
    eapply M_install; [done|by eapply list_elem_of_lookup_2|done|done].
  - apply bind_Some in Hx as ([src dst] & Hm & Hx). case_decide; [|done]. apply bind_Some in Hx as (kv & Hg & Hx).
    apply bind_Some in Hx as ([kv' rep] & Hop & Hx). injection Hx as <-. by eapply M_delete.
Qed.

#[local] Instance sim_groups : Service mworld grp_req grp_rep := shard_service moves.

Lemma m_exec_sound v w w' : m_exec v w = Some w' -> sv_step w w' /\ sv_hist w `prefix_of` sv_hist w'.
Proof.
  intros Hs%m_exec_step. split; [done|]. destruct (mstep_hist _ _ _ Hs) as [l Hl].
  destruct (m_hist_grows _ _ _ Hl) as (l' & Hl' & _). by exists l'.
Qed.

Definition sharded_after (vs : list (l_event m_event)) (w : LSys shard_obj mworld grp_req) : LSys shard_obj mworld grp_req :=
  l_after m_exec vs w.

Lemma sharded_after_run vs w : rtc (sharded_step moves) w (sharded_after vs w).
Proof. apply l_after_run, m_exec_sound. Qed.

End ShardClerkSim.

(** ** A put across a move *)

Definition sharded_put : PutArgs := mkPutArgs "k" "v" 0 5 1 0.

(** The shard moves from group 1 to group 2 in configuration 2. *)
Definition sharded_config (num gid : Z) : ShardConfig :=
  mkShardConfig num (replicate NShards gid) (Some {[1%Z := ["a"]; 2%Z := ["b"]]}).

Definition use (o : nat) (random : list N) (l : load_from) : l_event m_event := EvObject o (random, l).

(** A call is routed by the queried configuration and sends its request. *)
Definition routed (o : nat) (cfg : ShardConfig) (effects : nat) : list (l_event m_event) :=
  use o [] (LoadQueried (Some cfg)) :: replicate effects (use o [] LoadCached) ++ [EvSend o].

Definition sharded_boot : LSys shard_obj mworld grp_req :=
  mkLSys ex_mw0 (replicate 2 (mkShardObj MakeShardClerk ∅ Client_zero ∅)) [] [] [] [].

Definition sharded_end : LSys shard_obj mworld grp_req := sharded_after ex_moves
  ( (* the put: its identity, then the group's clerk, the watermark, the leader; executed, and the answer lost *)
   [EvCall 0 4 (CallPut "k" "v" 0); use 0 [5%N] LoadCached] ++ routed 0 (sharded_config 1 1) 3 ++
   [EvDeliver 0 (EvClient 1 (GPut sharded_put)); EvLost 0; use 0 [] LoadCached] ++
   (* the move *)
   [EvService (EvFreeze ex_shard 2); EvService (EvInstall ex_shard 2 0); EvService (EvDelete ex_shard 2)] ++
   (* the put again, at the new group *)
   routed 0 (sharded_config 2 2) 3 ++ [EvDeliver 1 (EvClient 2 (GPut sharded_put)); EvAnswer 0 0 3] ++
   replicate 2 (use 0 [] LoadCached) ++ [EvReturn 0] ++
   (* a get with the old configuration, refused and sent to the new group *)
   [EvCall 1 4 (CallGet "k")] ++ routed 1 (sharded_config 1 1) 2 ++
   [EvDeliver 2 (EvClient 1 (GGet (mkGetArgs "k"))); EvAnswer 1 0 5; use 1 [] LoadCached] ++
   routed 1 (sharded_config 2 2) 2 ++
   [EvDeliver 3 (EvClient 2 (GGet (mkGetArgs "k"))); EvAnswer 1 0 7; use 1 [] LoadCached; EvReturn 1]) sharded_boot.

Definition sharded_hist : list kv_event :=
  [CInv 0 (CallPut "k" "v" 0); CRet 0 (PutRes OK); CInv 1 (CallGet "k"); CRet 1 (GetRes "v" 1 OK)].

Lemma sharded_end_hist : l_hist sharded_end = sharded_hist.
Proof. vm_compute. reflexivity. Qed.

(** Both groups answered the put, and the first one refused the get. *)
Lemma sharded_end_replies : (fun x => (x.1.1, x.2)) <$> mw_hist (l_sys sharded_end) =
  [(1%Z, GPutReply (mkPutReply OK)); (2%Z, GPutReply (mkPutReply OK));
   (1%Z, GGetReply (mkGetReply "" 0 ErrWrongGroup)); (2%Z, GGetReply (mkGetReply "v" 1 OK))].
Proof. vm_compute. reflexivity. Qed.

Lemma sharded_run : rtc (sharded_step ex_moves) sharded_boot sharded_end.
Proof. apply sharded_after_run. Qed.

Lemma sharded_boot_init : sharded_init sharded_boot.
Proof.
  split_and!; try done; [apply ex_minit|]. intros i ob Hi. simpl in Hi. by apply (lookup_replicate 2) in Hi as [-> _].
Qed.

#[local] Opaque sharded_boot sharded_end.

Lemma sharded_clerks_linearizable_witness : l_hist sharded_end = sharded_hist /\ kv_linearizable ∅ sharded_hist.
Proof.
  split; [exact sharded_end_hist|]. rewrite <- sharded_end_hist.
  apply (sharded_clerks_linearizable ex_moves BitGrp_laws ex_moves_apart sharded_boot sharded_end sharded_boot_init sharded_run).
Defined.
