(* ===== verification/ShardReplicas.v ===== *)
(** * Clerks on replicated shard groups

    The groups of [shardkv1], each a replicated state machine of servers that run Raft
    ([RsmLinear]) with the machine of [shardgrp/server.go], and the requests submitted to
    them: those of clerks, and the Freeze, Install and Delete of controllers that carry
    out one plan of moves.  Nothing is assumed of a group but what its servers do. *)

From S2P Require Import Prelude.
From S2P Require Import Rpc.
From S2P Require Import KvSpec.
From S2P Require Import Dedup.
From S2P Require Import Persister.
From S2P Require Import Raft.
From S2P Require Import Rsm.
From S2P Require Import RsmCluster.
From S2P Require Import RsmLinear.
From S2P Require Import ShardCfg.
From S2P Require Import ShardGrp.
From S2P Require Import ShardMove.
From S2P Require Import Prog.
From S2P Require Import Clerk.
From S2P Require Import ClerkSystem.
From S2P Require Import ShardSystem.

(** The servers of a group, and a request with the group it was submitted to. *)
Abbreviation gsys := (CSys (St := GrpServer) (Req := grp_req) (Rep := grp_rep)).
Abbreviation rreq := (Tgid * grp_req)%type.

(** The groups, and what clients submitted to them and got returned. *)
Record rgroups {GL : GobLog} : Type := mkRgroups {
  rg_groups : gmap Tgid gsys;
  rg_hist : list (hevent rreq grp_rep);
}.

Definition in_group (g : Tgid) (op : Op grp_req) : Op rreq :=
  mkOp (op_Server op) (op_Epoch op) (op_Sequence op) (g, op_Req op).

(** What a client sees of an event of group [g]. *)
Definition client_event (g : Tgid) (e : hevent grp_req grp_rep) : option (hevent rreq grp_rep) :=
  match e with
  | Inv op => if client_req (op_Req op) then Some (Inv (in_group g op)) else None
  | RsmLinear.Ret op res => if client_req (op_Req op) then Some (RsmLinear.Ret (in_group g op) res) else None
  end.

Section ShardReplicas.
Context {GL : GobLog} {GG : GobGrp}.
Context (as_op : option Cmd -> option (Op grp_req)) (maxraftstate : Z) (moves : Z -> Z -> option (Tgid * Tgid)).

(** A server of group [g] returned [res] for the request [req]. *)
Definition returned_by (w : rgroups) (g : Tgid) (req : grp_req) (res : Err * option grp_rep) : Prop :=
  exists y op, rg_groups w !! g = Some y /\ op_Req op = req /\ RsmLinear.Ret op res ∈ cs_hist y.

(** The data a Freeze was answered with, and an Install that was answered OK. *)
Definition freeze_answered (w : rgroups) (g : Tgid) (s n : Z) (d : bytes) : Prop :=
  exists res r, returned_by w g (GFreeze (mkFreezeShardArgs s n)) res /\
    grp_FreezeShard res = Some r /\ fr_Err r = OK /\ fr_State r = d.

Definition install_answered (w : rgroups) (g : Tgid) (s n : Z) : Prop :=
  exists d res r, returned_by w g (GInstall (mkInstallShardArgs s d n)) res /\
    grp_InstallShard res = Some r /\ ir_Err r = OK.

(** The requests that may be submitted to group [g]: any of a clerk, and those of a
    controller, which freezes at the source of a move, installs at its target what the
    source answered, and deletes at the source once an Install was answered OK. *)
Definition allowed (w : rgroups) (g : Tgid) (req : grp_req) : Prop :=
  match req with
  | GGet _ | GPut _ => True
  | GFreeze a => exists dst, moves (fa_Num a) (fa_Shard a) = Some (g, dst)
  | GInstall a => exists src, moves (ia_Num a) (ia_Shard a) = Some (src, g) /\
      freeze_answered w src (ia_Shard a) (ia_Num a) (ia_State a)
  | GDelete a => exists dst, moves (da_Num a) (da_Shard a) = Some (g, dst) /\
      install_answered w dst (da_Shard a) (da_Num a)
  | GUnknown => False
  end.

(** One step of the servers of one group. *)
Inductive rgroups_step (w : rgroups) : rgroups -> Prop :=
  | R_group g y y' l :
      rg_groups w !! g = Some y -> call_step as_op maxraftstate (StartServerShardGrp g) y y' ->
      cs_hist y' = cs_hist y ++ l -> (forall op, Inv op ∈ l -> allowed w g (op_Req op)) ->
      rgroups_step w (mkRgroups _ (<[g := y']> (rg_groups w)) (rg_hist w ++ omap (client_event g) l)).

(** Every group starts on empty disks; the first one exists. *)
Definition rgroups_init (w : rgroups) : Prop :=
  is_Some (rg_groups w !! Gid1) /\ rg_hist w = [] /\
  forall g y, rg_groups w !! g = Some y -> exists n, call_init maxraftstate (StartServerShardGrp g) n y.

(** ** As a service *)

Definition replicas_service : Service rgroups rreq grp_rep := {|
  sv_step := rgroups_step;
  sv_hist := rg_hist;
  sv_call := fun req => grp_call req.2;
  sv_handler := grp_handler |}.

#[local] Existing Instance replicas_service.

Definition replicas_step : relation (LSys shard_obj rgroups rreq) := lsys_step.

Definition replicas_init (w : LSys shard_obj rgroups rreq) : Prop :=
  rgroups_init (l_sys w) /\
  (forall i ob, l_clerks w !! i = Some ob -> ob = mkShardObj MakeShardClerk ∅ Client_zero ∅) /\
  lsys_fresh w.

End ShardReplicas.
