(* ===== verification/ShardReplay.v ===== *)
(** * Replicated groups simulate groups that are one machine each

    The logs of the groups of [ShardReplicas], interleaved in the order they were
    committed, are a run of [ShardMove], where a group executes its requests at once:
    what a controller was answered is what the machine of the group did, so that the
    requests that follow it are ones [ShardMove] allows.  With [ShardOrder] the clients'
    operations are therefore those of one store. *)

From S2P Require Import Prelude.
From S2P Require Import Rpc.
From S2P Require Import KvSpec.
From S2P Require Import Dedup.
From S2P Require Import Persister.
From S2P Require Import Raft.
From S2P Require Import Rsm.
From S2P Require Import RsmCluster.
From S2P Require Import RsmLinear.
From S2P Require Import ShardCfg.
From S2P Require Import ShardGrp.
From S2P Require Import ShardMove.
From S2P Require Import StoreOrder.
From S2P Require Import ShardOrder.
From S2P Require Import ShardReplicas.

(** ** Logs of several groups *)

(** Operations executed, each by a group and with its reply. *)
Abbreviation gexec := (Tgid * Op grp_req * grp_rep)%type.

(** Those of one group. *)
Definition proj (g : Tgid) (exe : list gexec) : list (Op grp_req) := (fun x => x.1.2) <$> filter (fun x => x.1.1 = g) exe.

Lemma proj_app g l1 l2 : proj g (l1 ++ l2) = proj g l1 ++ proj g l2.
Proof. unfold proj. by rewrite filter_app, fmap_app. Qed.

Lemma proj_one g g' op rep : proj g [(g', op, rep)] = if decide (g' = g) then [op] else [].
Proof. unfold proj. rewrite filter_cons. simpl. by case_decide. Qed.

Lemma proj_elem g exe op : op ∈ proj g exe <-> exists rep, (g, op, rep) ∈ exe.
Proof.
  unfold proj. rewrite list_elem_of_fmap. split.
  - intros ([[g' op'] rep] & -> & Hin). apply list_elem_of_filter in Hin as [Hg Hin]. simpl in *. subst. eauto.
  - intros [rep Hin]. exists (g, op, rep). split; [done|]. by apply list_elem_of_filter.
Qed.

Lemma proj_lookup g exe k op :
  proj g exe !! k = Some op -> exists i rep, exe !! i = Some (g, op, rep) /\ proj g (take i exe) = take k (proj g exe).
Proof.
  induction exe as [|[[g' op'] rep'] exe IH] using rev_ind; [done|]. rewrite proj_app, proj_one. intros Hk.
  apply lookup_app_Some in Hk as [Hk|[Hle Hk]].
  - destruct (IH Hk) as (i & rep & Hi & Hp). exists i, rep. split; [by apply lookup_app_l_Some|].
    apply lookup_lt_Some in Hi, Hk. rewrite !take_app_le by lia. done.
  - case_decide as Hg; [|done]. subst g'. apply list_lookup_singleton_Some in Hk as [Hk ->].
    exists (length exe), rep'. split; [by apply list_lookup_middle|]. rewrite take_app_length. by rewrite take_app_length' by lia.
Qed.

Lemma proj_nodup exe : (forall g, NoDup (proj g exe)) -> NoDup exe.*1.
Proof.
  induction exe as [|[[g op] rep] exe IH] using rev_ind; intros Hnd; [constructor|].
  rewrite fmap_app. apply NoDup_app. split_and!.
  - apply IH. intros g'. specialize (Hnd g'). rewrite proj_app in Hnd. by apply NoDup_app in Hnd as [? _].
  - intros x Hx ->%list_elem_of_singleton. apply list_elem_of_fmap in Hx as ([[g' op'] rep'] & [= <- <-] & Hx).
    specialize (Hnd g). rewrite proj_app, proj_one, decide_True in Hnd by done. apply NoDup_app in Hnd as (_ & Hnd & _).
    eapply Hnd; [apply proj_elem; eauto|by apply list_elem_of_singleton].
  - simpl. apply NoDup_singleton.
Qed.

(** Those of clients, as the service names them. *)
Definition by_client (exe : list gexec) : list gexec := filter (fun x => client_req (op_Req x.1.2)) exe.

Definition clog (exe : list gexec) : list (Op rreq) := (fun x => in_group x.1.1 x.1.2) <$> by_client exe.

Lemma clog_app l1 l2 : clog (l1 ++ l2) = clog l1 ++ clog l2.
Proof. unfold clog, by_client. by rewrite filter_app, fmap_app. Qed.

Lemma in_group_inj g g' op op' : in_group g op = in_group g' op' -> g = g' /\ op = op'.
Proof. destruct op, op'. unfold in_group. simpl. intros [= -> -> -> -> ->]. done. Qed.

Lemma clog_elem exe g op :
  in_group g op ∈ clog exe <-> client_req (op_Req op) = true /\ exists rep, (g, op, rep) ∈ exe.
Proof.
  unfold clog, by_client. rewrite list_elem_of_fmap. split.
  - intros ([[g' op'] rep] & Heq & [Hc Hin]%list_elem_of_filter). simpl in Heq, Hc.
    apply in_group_inj in Heq as [-> ->]. split; [by apply Is_true_true|eauto].
  - intros [Hc [rep Hin]]. exists (g, op, rep). split; [done|]. apply list_elem_of_filter. simpl. by rewrite Hc.
Qed.

Lemma clog_inv exe x : x ∈ clog exe -> exists g op, x = in_group g op.
Proof. unfold clog. intros ([[g op] rep] & -> & _)%list_elem_of_fmap. eauto. Qed.

Lemma clog_nodup exe : (forall g, NoDup (proj g exe)) -> NoDup (clog exe).
Proof.
  intros Hnd%proj_nodup. unfold clog, by_client.
  assert (forall l : list gexec, NoDup l.*1 -> NoDup ((fun x => in_group x.1.1 x.1.2) <$> l)) as Hx.
  { intros l Hl. change (NoDup (((fun y => in_group y.1 y.2) ∘ fst) <$> l)). rewrite list_fmap_compose.
    apply NoDup_fmap_2; [|done]. intros [g1 o1] [g2 o2] Heq. simpl in Heq. by apply in_group_inj in Heq as [-> ->]. }
  apply Hx. eapply sublist_NoDup; [exact Hnd|]. apply fmap_sublist, sublist_filter.
Qed.

(** ** Executions as a run of [ShardMove] *)

Section ShardReplay.
Context {GG : GobGrp} (moves : Z -> Z -> option (Tgid * Tgid)).

(** Group [g] executed [req]. *)
Definition m_after (g : Tgid) (req : grp_req) (rep : grp_rep) (kv' : GrpServer) (m : mworld) : mworld :=
  mkMworld (<[g := kv']> (mw_groups m))
    (match req with GFreeze a => freeze_data (fa_Shard a) (fa_Num a) rep | _ => [] end ++ mw_data m)
    (match req with GInstall a => install_done (ia_Shard a) (ia_Num a) rep | _ => [] end ++ mw_done m)
    (mw_hist m ++ (if client_req req then [(g, req, rep)] else [])).

(** A request [ShardMove] lets group [g] execute. *)
Definition can_run (m : mworld) (g : Tgid) (req : grp_req) : Prop :=
  match req with
  | GGet _ | GPut _ => True
  | GFreeze a => exists dst, moves (fa_Num a) (fa_Shard a) = Some (g, dst)
  | GInstall a => exists src, moves (ia_Num a) (ia_Shard a) = Some (src, g) /\ (ia_Shard a, ia_Num a, ia_State a) ∈ mw_data m
  | GDelete a => exists dst, moves (da_Num a) (da_Shard a) = Some (g, dst) /\ (da_Shard a, da_Num a) ∈ mw_done m
  | GUnknown => False
  end.

Lemma can_run_step m g req kv kv' rep :
  can_run m g req -> mw_groups m !! g = Some kv -> grp_DoOp req kv = Some (kv', rep) -> mstep moves m (m_after g req rep kv' m).
Proof.
  intros Hc Hg Hd. destruct req as [a|a|[s n]|[s d n]|[s n]|]; unfold m_after; simpl in Hc |- *; rewrite ?app_nil_r; [| | | | |done].
  - by eapply M_client.
  - by eapply M_client.
  - destruct Hc as [dst ?]. by eapply M_freeze.
  - destruct Hc as (src & ? & ?). by eapply M_install.
  - destruct Hc as (dst & ? & ?). by eapply M_delete.
Qed.

Lemma can_run_mono m g' req' rep' kv' g req : can_run m g req -> can_run (m_after g' req' rep' kv' m) g req.
Proof.
  destruct req as [a|a|a|a|a|]; simpl; try done.
  - intros (src & ? & ?). exists src. split; [done|]. apply elem_of_app. by right.
  - intros (dst & ? & ?). exists dst. split; [done|]. apply elem_of_app. by right.
Qed.

Section executed.
Context (m0 : mworld).

(** The groups of [m0] executed these operations and are those of [m]. *)
Inductive executed : list gexec -> mworld -> Prop :=
  | X_nil : executed [] m0
  | X_snoc exe m g op kv kv' rep :
      executed exe m -> mw_groups m !! g = Some kv -> grp_DoOp (op_Req op) kv = Some (kv', rep) ->
      can_run m g (op_Req op) -> executed (exe ++ [(g, op, rep)]) (m_after g (op_Req op) rep kv' m).

Lemma executed_groups exe m g kv :
  executed exe m -> mw_groups m0 !! g = Some kv -> exists kv', mw_groups m !! g = Some kv' /\ replay (proj g exe) kv = Some kv'.
Proof.
  intros HX Hg. induction HX as [|exe m g' op kv1 kv' rep HX (kv2 & Hk & Hr) Hg' Hd _]; [by exists kv|].
  rewrite proj_app, proj_one, replay_app, Hr. simpl. destruct (decide (g' = g)) as [->|Hne]; simpl.
  - rewrite lookup_insert_eq. exists kv'. split; [done|]. assert (kv2 = kv1) as -> by congruence. by rewrite Hd.
  - rewrite lookup_insert_ne by done. eauto.
Qed.

Lemma executed_at exe m i g op rep :
  executed exe m -> exe !! i = Some (g, op, rep) -> exists kv s s',
    mw_groups m0 !! g = Some kv /\ replay (proj g (take i exe)) kv = Some s /\ grp_DoOp (op_Req op) s = Some (s', rep).
Proof.
  intros HX. revert i g op rep. induction HX as [|exe m g' op' kv1 kv' rep' HX IH Hg' Hd _]; intros i g op rep Hi; [done|].
  apply lookup_snoc_cases in Hi as [Hi|[-> [= -> -> ->]]].
  - rewrite take_app_le by (apply lookup_lt_Some in Hi; lia). by eapply IH.
  - rewrite take_app_length.
    assert (forall exe m, executed exe m -> is_Some (mw_groups m !! g') -> is_Some (mw_groups m0 !! g')) as Hdom.
    { clear. intros exe m HX. induction HX as [|exe m g op kv kv' rep HX IH Hg _ _]; [done|]. simpl.
      intros [<-|?]%lookup_insert_is_Some'; eauto. }
    destruct (Hdom _ _ HX) as [kv Hkv]; [by eexists|].
    destruct (executed_groups _ _ _ _ HX Hkv) as (kv2 & Hk2 & Hr). assert (kv2 = kv1) as -> by congruence. eauto 6.
Qed.

Lemma executed_hist exe m :
  executed exe m -> mw_hist m = mw_hist m0 ++ ((fun x => (x.1.1, op_Req x.1.2, x.2)) <$> by_client exe).
Proof.
  induction 1 as [|exe m g op kv kv' rep _ IH _ _ _]; [by rewrite app_nil_r|]. simpl. rewrite IH.
  unfold by_client. rewrite filter_app, fmap_app, <- app_assoc. do 2 f_equal. rewrite filter_cons. simpl.
  by destruct (client_req (op_Req op)).
Qed.

Lemma executed_freeze exe m g op a r :
  executed exe m -> (g, op, GFreezeReply r) ∈ exe -> op_Req op = GFreeze a -> fr_Err r = OK ->
  (fa_Shard a, fa_Num a, fr_State r) ∈ mw_data m.
Proof.
  intros HX Hin Hop Hr. induction HX as [|exe m g' op' kv kv' rep _ IH _ _ _]; [by apply not_elem_of_nil in Hin|].
  simpl. apply elem_of_app. apply elem_of_app in Hin as [Hin|[= -> -> <-]%list_elem_of_singleton]; [right; auto|left].
  rewrite Hop. simpl. rewrite decide_True by done. left.
Qed.

Lemma executed_install exe m g op a r :
  executed exe m -> (g, op, GInstallReply r) ∈ exe -> op_Req op = GInstall a -> ir_Err r = OK ->
  (ia_Shard a, ia_Num a) ∈ mw_done m.
Proof.
  intros HX Hin Hop Hr. induction HX as [|exe m g' op' kv kv' rep _ IH _ _ _]; [by apply not_elem_of_nil in Hin|].
  simpl. apply elem_of_app. apply elem_of_app in Hin as [Hin|[= -> -> <-]%list_elem_of_singleton]; [right; auto|left].
  rewrite Hop. simpl. rewrite decide_True by done. left.
Qed.

(** A group that executes more. *)
Lemma executed_more exe m g kv ops kv2 :
  executed exe m -> mw_groups m !! g = Some kv -> replay ops kv = Some kv2 ->
  (forall op, op ∈ ops -> can_run m g (op_Req op)) ->
  exists more m', executed (exe ++ more) m' /\ more.*1 = pair g <$> ops.
Proof.
  revert exe m kv. induction ops as [|op ops IH]; intros exe m kv HX Hg Hr Hc.
  - exists [], m. by rewrite app_nil_r.
  - simpl in Hr. apply bind_Some in Hr as ([kv1 rep] & Hd & Hr). simpl in Hd.
    pose proof (X_snoc _ _ _ _ _ _ _ HX Hg Hd (Hc _ ltac:(left))) as HX1.
    destruct (IH _ _ kv1 HX1) as (more & m' & HX' & Hm).
    + simpl. apply lookup_insert_eq.
    + done.
    + intros op' Hop'. apply can_run_mono, Hc. by right.
    + exists ((g, op, rep) :: more), m'. rewrite <- app_assoc in HX'. split; [done|]. csimpl. by rewrite Hm.
Qed.

(** The clients' operations are executions of one store. *)
Lemma executed_store (L : GobGrpLaws) (Hma : moves_apart moves) exe m :
  minit m0 -> executed exe m -> exists h, groups_inv moves m h.
Proof.
  intros H0. induction 1 as [|exe m g op kv kv' rep HX [h IH] Hg Hd Hc]; [exists []; by apply groups_inv_init|].
  eapply groups_inv_step; [done|done|exact IH|]. by eapply can_run_step.
Qed.

End executed.
End ShardReplay.
