(* ===== verification/ShardReplicaLinear.v ===== *)
(** * Calls of clerks on replicated shard groups are linearizable

    The simulation of [ShardReplicas] by [ShardMove] ([ShardReplay]), kept by every step
    of the groups' servers, and with it what the groups promise their clerks. *)

From S2P Require Import Prelude.
From S2P Require Import Rpc.
From S2P Require Import KvSpec.
From S2P Require Import Dedup.
From S2P Require Import Persister.
From S2P Require Import Raft.
From S2P Require Import RaftCluster.
From S2P Require Import RaftGhost.
From S2P Require Import Rsm.
From S2P Require Import RsmCluster.
From S2P Require Import RsmLinear.
From S2P Require Import ShardCfg.
From S2P Require Import ShardGrp.
From S2P Require Import ShardMove.
From S2P Require Import Prog.
From S2P Require Import Clerk.
From S2P Require Import ClerkSystem.
From S2P Require Import StoreOrder.
From S2P Require Import ClerkLinear.
From S2P Require Import ShardSystem.
From S2P Require Import ShardOrder.
From S2P Require Import ShardLinear.
From S2P Require Import ShardReplicas.
From S2P Require Import ShardReplay.

Section ShardReplicaLinear.
Context {GL : GobLog} {GG : GobGrp}.
Context (as_op : option Cmd -> option (Op grp_req)) (maxraftstate : Z) (moves : Z -> Z -> option (Tgid * Tgid)).
Context (m0 : mworld).

Abbreviation start := StartServerShardGrp.
Abbreviation rstep := (rgroups_step as_op maxraftstate moves).

(** ** The simulation *)

(** The executions [exe] of group [g] are those its servers committed, with all they
    returned; and what was submitted to it was allowed. *)
Record group_sim (w : rgroups) (exe : list gexec) (g : Tgid) (y : gsys) : Prop := {
  gs_log : exists n W, call_inv as_op (start g) n W y /\ committed_ops as_op n W (proj g exe);
  gs_ret op rep : RsmLinear.Ret op (OK, Some rep) ∈ cs_hist y -> (g, op, rep) ∈ exe;
  gs_allowed op : Inv op ∈ cs_hist y -> allowed moves w g (op_Req op);
}.

Record rg_sim (w : rgroups) (exe : list gexec) (m : mworld) : Prop := {
  sm_exec : executed moves m0 exe m;
  sm_group g y : rg_groups w !! g = Some y -> group_sim w exe g y;
  sm_start g y : rg_groups w !! g = Some y -> mw_groups m0 !! g = Some (start g);
  sm_dom g op rep : (g, op, rep) ∈ exe -> is_Some (rg_groups w !! g);
  sm_events e : e ∈ rg_hist w <->
    exists g y e0, rg_groups w !! g = Some y /\ e0 ∈ cs_hist y /\ client_event g e0 = Some e;
  sm_order a b j k : precedes (rg_hist w) a b -> clog exe !! j = Some a -> clog exe !! k = Some b -> j < k;
}.

(** An event of a client, and the event of a server it is. *)
Lemma client_inv g e0 op : client_event g e0 = Some (Inv op) -> exists op0, e0 = Inv op0 /\ op = in_group g op0 /\ client_req (op_Req op0) = true.
Proof. destruct e0 as [op0|op0 res]; simpl; destruct (client_req _) eqn:Hc; intros [= <-]; eauto. Qed.

Lemma client_ret g e0 op res : client_event g e0 = Some (RsmLinear.Ret op res) ->
  exists op0, e0 = RsmLinear.Ret op0 res /\ op = in_group g op0 /\ client_req (op_Req op0) = true.
Proof. destruct e0 as [op0|op0 res']; simpl; destruct (client_req _) eqn:Hc; intros [= <- <-]; eauto. Qed.

(** What was returned stays returned. *)
Definition grown (w w' : rgroups) : Prop :=
  forall g y, rg_groups w !! g = Some y -> exists y', rg_groups w' !! g = Some y' /\ cs_hist y `prefix_of` cs_hist y'.

Lemma returned_grown w w' g req res : grown w w' -> returned_by w g req res -> returned_by w' g req res.
Proof.
  intros Hg (y & op & Hy & Hop & Hin). destruct (Hg _ _ Hy) as (y' & Hy' & l & Hl). exists y', op.
  rewrite Hl. split_and!; [done|done|apply elem_of_app; by left].
Qed.

Lemma allowed_grown w w' g req : grown w w' -> allowed moves w g req -> allowed moves w' g req.
Proof.
  intros Hg. destruct req as [a|a|a|a|a|]; simpl; try done.
  - intros (src & ? & res & r & Hr & ?). exists src. split; [done|]. exists res, r. split; [by eapply returned_grown|done].
  - intros (dst & ? & d & res & r & Hr & ?). exists dst. split; [done|]. exists d, res, r. split; [by eapply returned_grown|done].
Qed.

Lemma call_step_one (y y' : gsys) g :
  call_step as_op maxraftstate (start g) y y' -> exists l, cs_hist y' = cs_hist y ++ l /\ length l <= 1.
Proof. intros []; simpl; (by exists []; rewrite app_nil_r; split; [|simpl; lia]) || (eexists; split; [done|simpl; lia]). Qed.

(** No operation is executed twice. *)
Lemma sim_nodup w exe :
  (forall g y, rg_groups w !! g = Some y -> group_sim w exe g y) ->
  (forall g op rep, (g, op, rep) ∈ exe -> is_Some (rg_groups w !! g)) -> forall g, NoDup (proj g exe).
Proof.
  intros Hgroup Hdom g. destruct (proj g exe) as [|op ops] eqn:E; [constructor|]. rewrite <- E.
  assert (op ∈ proj g exe) as [rep Hin]%proj_elem by (rewrite E; left).
  destruct (Hdom _ _ _ Hin) as [y Hy]. destruct (Hgroup _ _ Hy) as [(n & W & HI & Hc) _ _].
  by eapply (committed_once _ _ _ _ _ _ HI Hc).
Qed.

Section sim.
Context (w : rgroups) (exe : list gexec) (m : mworld) (HS : rg_sim w exe m).

(** An answer is that of an execution. *)
Lemma returned_exec g req e rep :
  returned_by w g req (e, Some rep) -> exists op, op_Req op = req /\ (g, op, rep) ∈ exe.
Proof using HS.
  intros (y & op & Hy & Hop & Hin). destruct (sm_group _ _ _ HS _ _ Hy) as [(n & W & HI & _) Hret _].
  destruct (call_result _ _ _ _ _ _ _ HI Hin) as [[rep' [= -> ->]]|?]; [|done]. exists op. split; [done|by apply Hret].
Qed.

(** So a controller's request is one [ShardMove] allows. *)
Lemma allowed_can_run g req : allowed moves w g req -> can_run moves m g req.
Proof using HS.
  assert (forall e : Err, e <> OK -> e = OK -> False) as Hne by done.
  destruct req as [a|a|a|a|a|]; simpl; try done.
  - intros (src & Hm & [e rep] & r & Hr & Hh & He & Hd). exists src. split; [done|]. unfold grp_FreezeShard in Hh. simpl in Hh.
    case_decide as Hok; [injection Hh as <-; by destruct (Hne _ Hok)|]. destruct rep as [rep|]; [|done]. destruct rep; try done. injection Hh as ->.
    apply returned_exec in Hr as (op & Hop & Hin). rewrite <- Hd. by eapply (executed_freeze _ _ _ _ _ _ _ _ (sm_exec _ _ _ HS) Hin Hop).
  - intros (dst & Hm & d & [e rep] & r & Hr & Hh & He). exists dst. split; [done|]. unfold grp_InstallShard in Hh. simpl in Hh.
    case_decide as Hok; [injection Hh as <-; by destruct (Hne _ Hok)|]. destruct rep as [rep|]; [|done]. destruct rep; try done. injection Hh as ->.
    apply returned_exec in Hr as (op & Hop & Hin). by eapply (executed_install _ _ _ _ _ _ _ _ (sm_exec _ _ _ HS) Hin Hop).
Qed.

Lemma sim_invoked g y op : rg_groups w !! g = Some y -> op ∈ proj g exe -> Inv op ∈ cs_hist y.
Proof using HS. intros Hy Hop. destruct (sm_group _ _ _ HS _ _ Hy) as [(n & W & HI & Hc) _ _]. by eapply (committed_once _ _ _ _ _ _ HI Hc). Qed.

(** What a client got returned is in the log of the clients. *)
Lemma returned_logged op rep : RsmLinear.Ret op (OK, Some rep) ∈ rg_hist w ->
  exists g op0, op = in_group g op0 /\ client_req (op_Req op0) = true /\ (g, op0, rep) ∈ exe /\ op ∈ clog exe.
Proof using HS.
  intros (g & y & e0 & Hy & Hin & (op0 & -> & -> & Hc)%client_ret)%(sm_events _ _ _ HS). exists g, op0.
  assert ((g, op0, rep) ∈ exe) as Hx by by apply (sm_group _ _ _ HS _ _ Hy). split_and!; try done.
  apply clog_elem. eauto.
Qed.

Lemma logged_invoked op : op ∈ clog exe -> Inv op ∈ rg_hist w.
Proof using HS.
  intros Hop. destruct (clog_inv _ _ Hop) as (g & op0 & ->). apply clog_elem in Hop as [Hc [rep Hin]].
  destruct (sm_dom _ _ _ HS _ _ _ Hin) as [y Hy]. apply (sm_events _ _ _ HS). exists g, y, (Inv op0). split; [done|].
  split; [|simpl; by rewrite Hc]. eapply sim_invoked; [done|]. apply proj_elem. eauto.
Qed.

End sim.

(** ** A step *)

Lemma proj_pairs g g' ops (more : list gexec) :
  more.*1 = pair g <$> ops -> proj g' more = if decide (g = g') then ops else [].
Proof.
  revert more. induction ops as [|op ops IH]; intros more Hm.
  - apply fmap_nil_inv in Hm as ->. by case_decide.
  - destruct more as [|[[g1 op1] rep] more]; [done|]. injection Hm as -> -> Hm. change (?x :: more) with ([x] ++ more).
    rewrite proj_app, proj_one, (IH _ Hm). by case_decide.
Qed.

(** What group [g] has committed is executed. *)
Lemma sim_advance (L : GobLogLaws) (LG : GobGrpLaws) w exe m g y y' l :
  rg_sim w exe m -> rg_groups w !! g = Some y -> call_step as_op maxraftstate (start g) y y' ->
  cs_hist y' = cs_hist y ++ l -> (forall op, Inv op ∈ l -> allowed moves w g (op_Req op)) ->
  exists more m', executed moves m0 (exe ++ more) m' /\ (forall g' op rep, (g', op, rep) ∈ more -> g' = g) /\
    (exists n W, call_inv as_op (start g) n W y' /\ committed_ops as_op n W (proj g (exe ++ more))) /\
    forall op rep, RsmLinear.Ret op (OK, Some rep) ∈ cs_hist y' -> (g, op, rep) ∈ exe ++ more.
Proof.
  intros HS Hy Hs Hl Hall. destruct (sm_group _ _ _ HS _ _ Hy) as [(n & W & HI & Hc) _ Hold].
  destruct (call_inv_step _ _ _ L (GrpServer_machine_laws LG) _ _ _ _ HI Hs) as (W' & Hg & HI').
  apply (committed_ops_grow _ _ _ W') in Hc; [|done].
  destruct (executed_groups _ _ _ _ _ _ (sm_exec _ _ _ HS) (sm_start _ _ _ HS _ _ Hy)) as (kv & Hkv & Hr).
  destruct (call_log_after _ _ _ _ _ _ HI' Hc) as (ops & Hc' & [kv2 Hr2] & Hret); [by eexists|].
  pose proof Hr2 as Hr3. rewrite replay_app, Hr in Hr3. simpl in Hr3.
  destruct (executed_more moves m0 exe m g kv ops kv2 (sm_exec _ _ _ HS) Hkv Hr3) as (more & m' & HX & Hm).
  { intros op Hop. eapply allowed_can_run; [done|].
    assert (Inv op ∈ cs_hist y') as Hin.
    { eapply (committed_once _ _ _ _ _ _ HI' Hc'). apply elem_of_app. by right. }
    rewrite Hl in Hin. apply elem_of_app in Hin as [?|?]; auto. }
  pose proof (proj_pairs _ g _ _ Hm) as Hp. rewrite decide_True in Hp by done.
  exists more, m'. split; [done|]. split_and!.
  - intros g' op rep Hin. apply (list_elem_of_fmap_2 fst) in Hin. rewrite Hm in Hin.
    by apply list_elem_of_fmap in Hin as (? & [= -> _] & _).
  - exists n, W'. rewrite proj_app, Hp. done.
  - intros op rep Hin. destruct (Hret _ _ Hin) as (k & s & s' & Hk & Hs1 & Hd). rewrite <- Hp, <- proj_app in Hk, Hs1.
    destruct (proj_lookup _ _ _ _ Hk) as (i & rep' & Hi & Hpi).
    destruct (executed_at _ _ _ _ _ _ _ _ HX Hi) as (kv0 & s1 & s1' & Hkv0 & Hs2 & Hd').
    rewrite (sm_start _ _ _ HS _ _ Hy) in Hkv0. injection Hkv0 as <-. rewrite Hpi in Hs2.
    assert (s1 = s) as -> by congruence. simpl in Hd. assert (rep' = rep) as -> by congruence. by eapply list_elem_of_lookup_2.
Qed.

(** The order of the clients' operations, after one more event. *)
Lemma order_step w exe m more (l : list (hevent grp_req grp_rep)) g :
  rg_sim w exe m -> length l <= 1 -> NoDup (clog (exe ++ more)) ->
  (forall op, Inv op ∈ l -> in_group g op ∉ clog exe) ->
  forall a b j k, precedes (rg_hist w ++ omap (client_event g) l) a b ->
    clog (exe ++ more) !! j = Some a -> clog (exe ++ more) !! k = Some b -> j < k.
Proof.
  intros HS Hlen Hnd Hnew a b j k Hp Hj Hk. rewrite clog_app in Hnd, Hj, Hk.
  assert (precedes (rg_hist w) a b \/ exists r, RsmLinear.Ret a (OK, Some r) ∈ rg_hist w /\ b ∉ clog exe) as Hcase.
  { destruct l as [|e [|e' l]]; [rewrite app_nil_r in Hp; by left| |simpl in Hlen; lia]. simpl in Hp.
    destruct (client_event g e) as [e'|] eqn:He; [|rewrite app_nil_r in Hp; by left].
    apply precedes_snoc in Hp as [?|[-> [r Hr]]]; [by left|right]. exists r. split; [done|].
    apply client_inv in He as (op & -> & -> & _). apply Hnew. left. }
  assert (exists r, RsmLinear.Ret a (OK, Some r) ∈ rg_hist w) as [r Hr].
  { destruct Hcase as [(h1 & h2 & h3 & r & Hh)|[r [Hr _]]]; exists r; [|done]. rewrite Hh. apply elem_of_app. right. left. }
  destruct (returned_logged _ _ _ HS _ _ Hr) as (_ & _ & _ & _ & _ & (ja & Hja)%list_elem_of_lookup).
  pose proof (lookup_lt_Some _ _ _ Hja) as Hlt.
  assert (j = ja) as -> by (eapply NoDup_lookup; [exact Hnd|done|by apply lookup_app_l_Some]).
  destruct (decide (k < length (clog exe))) as [Hkl|]; [|lia]. rewrite lookup_app_l in Hk by done.
  destruct Hcase as [Hp'|(_ & _ & Hb)]; [by eapply (sm_order _ _ _ HS)|]. destruct Hb. by eapply list_elem_of_lookup_2.
Qed.

Lemma rg_sim_step (L : GobLogLaws) (LG : GobGrpLaws) w exe m w' :
  rg_sim w exe m -> rstep w w' -> exists more m', rg_sim w' (exe ++ more) m'.
Proof.
  intros HS [g y y' l Hy Hs Hl Hall].
  destruct (sim_advance L LG _ _ _ _ _ _ _ HS Hy Hs Hl Hall) as (more & m' & HX & Hmore & Hlog & Hret). exists more, m'.
  set (w1 := mkRgroups _ _ _).
  assert (grown w w1) as Hgr.
  { intros g' y0 Hy0. simpl. destruct (decide (g = g')) as [<-|Hne]; [rewrite lookup_insert_eq|rewrite lookup_insert_ne by done; eauto].
    exists y'. split; [done|]. exists l. congruence. }
  assert (forall g' y0, rg_groups w1 !! g' = Some y0 -> (g' = g /\ y0 = y') \/ (g' <> g /\ rg_groups w !! g' = Some y0)) as Hcase.
  { simpl. intros g' y0 [[<- <-]|[Hne Hy0]]%lookup_insert_Some; [by left|right; by split]. }
  assert (forall op, Inv op ∈ l -> in_group g op ∉ clog exe) as Hnew.
  { intros op Hop [_ [rep Hin]]%clog_elem. destruct (call_step_one _ _ _ Hs) as (l' & Hl' & Hlen).
    assert (l' = l) as -> by (rewrite Hl in Hl'; by apply app_inv_head in Hl').
    destruct l as [|e [|? ?]]; [by apply not_elem_of_nil in Hop| |simpl in Hlen; lia]. apply list_elem_of_singleton in Hop as <-.
    destruct (sm_group _ _ _ HS _ _ Hy) as [(n & W & HI & _) _ _]. eapply (call_fresh _ _ _ _ _ _ _ _ _ HI Hs Hl).
    eapply sim_invoked; [done|done|]. apply proj_elem. eauto. }
  assert (forall g' y0, rg_groups w1 !! g' = Some y0 -> group_sim w1 (exe ++ more) g' y0) as Hgroup.
  { intros g' y0 [[-> ->]|[Hne Hy0]]%Hcase.
    - constructor; [done|done|]. intros op Hop. eapply allowed_grown; [exact Hgr|]. rewrite Hl in Hop.
      apply elem_of_app in Hop as [Hop|Hop]; [|by apply Hall]. by apply (sm_group _ _ _ HS _ _ Hy).
    - destruct (sm_group _ _ _ HS _ _ Hy0) as [(n & W & HI & Hc) Hr Ha]. constructor.
      + exists n, W. split; [done|]. rewrite proj_app. destruct (proj g' more) as [|op ops] eqn:E; [by rewrite app_nil_r|].
        assert (op ∈ proj g' more) as [rep Hin]%proj_elem by (rewrite E; left). by apply Hmore in Hin.
      + intros op rep Hin. apply elem_of_app. left. by apply Hr.
      + intros op Hop. eapply allowed_grown; [exact Hgr|]. by apply Ha. }
  assert (forall g' op rep, (g', op, rep) ∈ exe ++ more -> is_Some (rg_groups w1 !! g')) as Hdom.
  { intros g' op rep [Hin|Hin]%elem_of_app; simpl; apply lookup_insert_is_Some'; [right; by eapply (sm_dom _ _ _ HS)|left].
    symmetry. by eapply Hmore. }
  constructor; try done.
  - intros g' y0 [[-> ->]|[_ Hy0]]%Hcase; by eapply (sm_start _ _ _ HS).
  - intros e. simpl. rewrite elem_of_app, (sm_events _ _ _ HS), list_elem_of_omap. split.
    + intros [(g' & y0 & e0 & Hy0 & He & Hce)|(e0 & He & Hce)].
      * destruct (Hgr _ _ Hy0) as (y1 & Hy1 & l1 & Hl1). exists g', y1, e0. rewrite Hl1. split_and!; [done|apply elem_of_app; by left|done].
      * exists g, y', e0. rewrite lookup_insert_eq, Hl. split_and!; [done|apply elem_of_app; by right|done].
    + intros (g' & y0 & e0 & Hy0 & He & Hce). apply Hcase in Hy0 as [[-> ->]|[_ Hy0]]; [|left; eauto 6].
      rewrite Hl in He. apply elem_of_app in He as [He|He]; [left|right]; eauto 6.
  - eapply order_step; [exact HS| | |done].
    + destruct (call_step_one _ _ _ Hs) as (l' & Hl' & ?). rewrite Hl in Hl'. by apply app_inv_head in Hl' as ->.
    + apply clog_nodup. by eapply sim_nodup.
Qed.

(** ** As a service *)

(** The requests a clerk's call submits, and the executions they are. *)
Lemma made_call_of g req rep e : made_by (g, req, rep) = Some e -> grp_call req = Some (s_call e).
Proof. destruct req, rep; intros [= <-]; done. Qed.

Lemma made_reply_of g req rep e c :
  made_by (g, req, rep) = Some e -> grp_call req = Some c ->
  exists reply, grp_handler c (OK, Some rep) = Some reply /\ s_made c reply = Some e.
Proof. destruct req; try done; destruct rep; intros [= <-] [= <-]; eauto. Qed.

(** The executions of clients, in [ShardMove] and in the log. *)
Lemma by_client_clog exe k g op rep : by_client exe !! k = Some (g, op, rep) -> clog exe !! k = Some (in_group g op).
Proof. intros Hk. unfold clog. by rewrite list_lookup_fmap, Hk. Qed.

End ShardReplicaLinear.

Section laws.
Context {GL : GobLog} {GG : GobGrp}.
Context (as_op : option Cmd -> option (Op grp_req)) (maxraftstate : Z) (moves : Z -> Z -> option (Tgid * Tgid)).

#[local] Instance replicas : Service rgroups rreq grp_rep := replicas_service as_op maxraftstate moves.

(** The groups run from some start. *)
Definition replicas_ok (w : rgroups) : Prop :=
  exists m0 exe m, minit m0 /\ rg_sim as_op moves m0 w exe m.

Lemma replicas_logged (LG : GobGrpLaws) (Hma : moves_apart moves) w : replicas_ok w -> exists log h, logged ∅ w log h.
Proof.
  intros (m0 & exe & m & H0 & HS). pose proof (sm_exec _ _ _ _ _ _ HS) as HX.
  destruct (executed_store _ _ LG Hma _ _ H0 HX) as [h HI]. pose proof (gi_made _ _ _ HI) as Hmade.
  rewrite (executed_hist _ _ _ _ HX) in Hmade. destruct H0 as (_ & _ & _ & _ & Hnil). rewrite Hnil in Hmade. simpl in Hmade.
  exists (clog exe), h. constructor.
  - by eapply groups_store.
  - apply clog_nodup. eapply sim_nodup; [apply HS|]. by apply (sm_dom _ _ _ _ _ _ HS).
  - intros op. by eapply logged_invoked.
  - intros k e Hk. destruct (Forall2_lookup_r _ _ _ _ _ Hmade Hk) as (x & Hx & He).
    apply list_lookup_fmap_Some in Hx as ([[g op] rep] & -> & Hx). exists (in_group g op).
    split; [by eapply by_client_clog|]. by eapply made_call_of.
  - intros op c rep Hr Hc. destruct (returned_logged _ _ _ _ _ _ HS _ _ Hr) as (g & op0 & -> & Hcl & Hin & _).
    assert ((g, op0, rep) ∈ by_client exe) as (k & Hk)%list_elem_of_lookup.
    { apply list_elem_of_filter. simpl. by rewrite Hcl. }
    assert (((fun x => (x.1.1, op_Req x.1.2, x.2)) <$> by_client exe) !! k = Some (g, op_Req op0, rep)) as Hk'.
    { by rewrite list_lookup_fmap, Hk. }
    destruct (Forall2_lookup_l _ _ _ _ _ Hmade Hk') as (e & He & Hm).
    destruct (made_reply_of _ _ _ _ _ Hm Hc) as (reply & Hrep & Hs). exists reply, k.
    split_and!; [done|by eapply by_client_clog|by rewrite Hs].
  - apply (sm_order _ _ _ _ _ _ HS).
Qed.

Lemma replicas_service_laws (L : GobLogLaws) (LG : GobGrpLaws) (Hma : moves_apart moves) : ServiceLaws (Y := rgroups) ∅.
Proof using Type.
  refine {| sv_ok := replicas_ok |}.
  - intros w w' (m0 & exe & m & H0 & HS) Hs. destruct (rg_sim_step _ _ _ _ L LG _ _ _ _ HS Hs) as (more & m' & ?). by exists m0, (exe ++ more), m'.
  - intros w w' op l (m0 & exe & m & H0 & HS) Hs Hh. destruct Hs as [g y y' l' Hy Hs Hl _]. simpl in Hh.
    apply app_inv_head in Hh. destruct (call_step_one _ _ _ _ _ Hs) as (l1 & Hl1 & Hlen).
    assert (l1 = l') as -> by (rewrite Hl in Hl1; by apply app_inv_head in Hl1).
    destruct l' as [|e [|? ?]]; [done| |simpl in Hlen; lia]. simpl in Hh.
    destruct (client_event g e) as [e'|] eqn:He; [|done]. injection Hh as -> _.
    apply client_inv in He as (op0 & -> & -> & _). intros (g' & y0 & e0 & Hy0 & Hin & He)%(sm_events _ _ _ _ _ _ HS).
    apply client_inv in He as (op1 & -> & [<- <-]%in_group_inj & _). assert (y0 = y) as -> by congruence.
    destruct (sm_group _ _ _ _ _ _ HS _ _ Hy) as [(n & W & HI & _) _ _]. by eapply (call_fresh _ _ _ _ _ _ _ _ _ HI Hs Hl).
  - intros c [g req] Hc. simpl in Hc. destruct req; try done; injection Hc as <-; eauto.
  - intros c [g req] Hc. simpl in Hc. destruct req; try done; injection Hc as <-; simpl; eauto.
  - intros c reply. destruct c as [a|a|f|f|f]; try done; by intros [= <-].
  - intros w op res (m0 & exe & m & H0 & HS) (g & y & e0 & Hy & Hin & (op0 & -> & _)%client_ret)%(sm_events _ _ _ _ _ _ HS).
    destruct (sm_group _ _ _ _ _ _ HS _ _ Hy) as [(n & W & HI & _) _ _]. by eapply call_result.
  - by apply replicas_logged.
Defined.

(** Groups that start on empty disks are the machines [StartServerShardGrp] makes. *)
Lemma replicas_ok_init w : rgroups_init maxraftstate w -> replicas_ok w.
Proof.
  intros ([y1 H1] & Hh & Hall).
  set (m0 := mkMworld (map_imap (fun g (_ : gsys) => Some (StartServerShardGrp g)) (rg_groups w)) [] [] []).
  assert (forall g y, rg_groups w !! g = Some y -> mw_groups m0 !! g = Some (StartServerShardGrp g)) as Hst.
  { intros g y Hy. simpl. rewrite map_lookup_imap, Hy. done. }
  assert (forall g y, rg_groups w !! g = Some y -> cs_hist y = []) as Hempty.
  { intros g y Hy. destruct (Hall _ _ Hy) as (n & _ & _ & ?). done. }
  exists m0, [], m0. split.
  - split_and!; try done; [by eexists; eapply Hst|]. intros g kv. simpl. rewrite map_lookup_imap.
    intros (y & _ & [= <-])%bind_Some. done.
  - constructor; [constructor| |done|by intros g op rep ?%not_elem_of_nil| |by intros a b j k _ ?].
    + intros g y Hy. destruct (Hall _ _ Hy) as (n & HI). apply (call_inv_init as_op) in HI.
      constructor; rewrite ?(Hempty _ _ Hy); [|by intros op rep ?%not_elem_of_nil|by intros op ?%not_elem_of_nil].
      exists n. eexists. split; [exact HI|]. by eapply committed_ops_nil.
    + intros e. rewrite Hh. split; [by intros ?%not_elem_of_nil|]. intros (g & y & e0 & Hy & Hin & _).
      rewrite (Hempty _ _ Hy) in Hin. by apply not_elem_of_nil in Hin.
Qed.

(** C1. What the sharded service promises its clients, with nothing assumed of its
    groups: in every run of clerks, each with any number of calls side by side and a
    cache of configurations and group clerks, on groups of servers that run Raft - with
    lost and delayed RPCs, leader changes, snapshots, servers that are stopped, crash and
    restart - while controllers freeze shards in one group, install in another what the
    first answered and delete there what the second acknowledged, the calls of [Get] and
    [Put] are linearizable on one conditional store: each takes effect once, wherever its
    shard is and however often its request was executed, and before all calls made after
    it returned.  No clerk panics and no handler does. *)
Theorem replicated_sharded_clerks_linearizable (L : GobLogLaws) (LG : GobGrpLaws) (Hma : moves_apart moves) w0 w :
  replicas_init maxraftstate w0 -> rtc (replicas_step as_op maxraftstate moves) w0 w ->
  kv_linearizable ∅ (l_hist w) /\
  (forall o ca, l_calls w !! o = Some ca -> ca_prog ca <> Some Panic) /\
  (forall op res k o c, (op, k) ∈ l_from w -> l_msgs w !! k = Some (o, c) ->
     RsmLinear.Ret op res ∈ rg_hist (l_sys w) -> is_Some (grp_handler c res)).
Proof.
  intros (H0 & Hob & Hf) Hr. pose (SVL := replicas_service_laws L LG Hma).
  apply (clinv_promise (Obj := shard_obj) (SV := replicas) ∅ w). eapply clinv_run; [exact Hr|]. apply clinv_init; [| | |done].
  - by apply replicas_ok_init.
  - simpl. intros op. destruct H0 as (_ & -> & _). apply not_elem_of_nil.
  - intros i ob ->%Hob. split; [apply shard_ok_init|done].
Qed.

End laws.
