(* ===== verification/ShardReplicaSim.v ===== *)
(** * Executable schedules of clerks on replicated shard groups

    The schedules of [ClerkSim] on the groups of [ShardReplicas], each a cluster of
    [RsmSim].  A put is committed by one group and its answer lost; a controller freezes
    the shard there, installs in another group what it was answered and deletes the
    frozen copy; the clerk tries again at the second group, where the table that moved
    with the shard answers it; and a get of another clerk is refused by the first group
    and served by the second. *)

From S2P Require Import Prelude.
From S2P Require Import Rpc.
From S2P Require Import KvSpec.
From S2P Require Import Dedup.
From S2P Require Import Persister.
From S2P Require Import Raft.
From S2P Require Import RaftPersist.
From S2P Require Import RaftCluster.
From S2P Require Import RaftSim.
From S2P Require Import Rsm.
From S2P Require Import RsmCluster.
From S2P Require Import RsmLinear.
From S2P Require Import RsmSim.
From S2P Require Import ShardCfg.
From S2P Require Import ShardGrp.
From S2P Require Import ShardMove.
From S2P Require Import ShardSim.
From S2P Require Import Prog.
From S2P Require Import Clerk.
From S2P Require Import ClerkSystem.
From S2P Require Import ClerkSim.
From S2P Require Import ShardSystem.
From S2P Require Import ShardClerkSim.
From S2P Require Import ShardReplicas.
From S2P Require Import ShardReplicaLinear.

Section ShardReplicaSim.
Context {GL : GobLog} {GG : GobGrp}.
Context (as_op : option Cmd -> option (Op grp_req)) (maxraftstate : Z) (moves : Z -> Z -> option (Tgid * Tgid)).

(** ** Steps of the groups *)

(** Some answer to a request [is_req] satisfies [ok]. *)
Definition answered_with (w : rgroups) (g : Tgid) (ok : grp_req -> Err * option grp_rep -> bool) : bool :=
  match rg_groups w !! g with
  | Some y => existsb (fun e => match e with RsmLinear.Ret op res => ok (op_Req op) res | Inv _ => false end) (cs_hist y)
  | None => false
  end.

Lemma answered_with_spec w g ok : answered_with w g ok = true -> exists req res, returned_by w g req res /\ ok req res = true.
Proof.
  unfold answered_with. destruct (rg_groups w !! g) as [y|] eqn:Hy; [|done].
  intros ([op|op res] & Hin%list_elem_of_In & Hok)%existsb_exists; [done|]. exists (op_Req op), res. split; [by exists y, op|done].
Qed.

Definition allowedb (w : rgroups) (g : Tgid) (req : grp_req) : bool :=
  match req with
  | GGet _ | GPut _ => true
  | GFreeze a => match moves (fa_Num a) (fa_Shard a) with Some (src, _) => bool_decide (src = g) | None => false end
  | GInstall a =>
      match moves (ia_Num a) (ia_Shard a) with
      | Some (src, dst) => bool_decide (dst = g) && answered_with w src (fun req res =>
          bool_decide (req = GFreeze (mkFreezeShardArgs (ia_Shard a) (ia_Num a))) &&
          match grp_FreezeShard res with Some r => bool_decide (fr_Err r = OK /\ fr_State r = ia_State a) | None => false end)
      | None => false
      end
  | GDelete a =>
      match moves (da_Num a) (da_Shard a) with
      | Some (src, dst) => bool_decide (src = g) && answered_with w dst (fun req res =>
          match req with
          | GInstall b => bool_decide (ia_Shard b = da_Shard a /\ ia_Num b = da_Num a) &&
              match grp_InstallShard res with Some r => bool_decide (ir_Err r = OK) | None => false end
          | _ => false
          end)
      | None => false
      end
  | GUnknown => false
  end.

Lemma allowedb_spec w g req : allowedb w g req = true -> allowed moves w g req.
Proof.
  destruct req as [a|a|a|a|a|]; simpl; try done.
  - destruct (moves _ _) as [[src dst]|]; [|done]. intros ->%bool_decide_eq_true. eauto.
  - destruct (moves _ _) as [[src dst]|]; [|done]. intros [->%bool_decide_eq_true H]%andb_true_iff.
    exists src. split; [done|]. apply answered_with_spec in H as (req & res & Hr & [->%bool_decide_eq_true H]%andb_true_iff).
    destruct (grp_FreezeShard res) as [r|] eqn:Hf; [|done]. apply bool_decide_eq_true in H as [? ?]. by exists res, r.
  - destruct (moves _ _) as [[src dst]|]; [|done]. intros [->%bool_decide_eq_true H]%andb_true_iff.
    exists dst. split; [done|]. apply answered_with_spec in H as (req & res & Hr & H). destruct req as [b|b|b|b|b|]; try done.
    apply andb_true_iff in H as [[Hs Hn]%bool_decide_eq_true H].
    destruct (grp_InstallShard res) as [r|] eqn:Hf; [|done]. apply bool_decide_eq_true in H.
    exists (ia_State b), res, r. rewrite <- Hs, <- Hn. by destruct b.
Qed.

(** A step of the servers of one group. *)
Abbreviation r_event := (Tgid * call_event (GL := GL) (Req := grp_req))%type.

Definition r_exec (v : r_event) (w : rgroups) : option rgroups :=
  let '(g, v) := v in
  y ← rg_groups w !! g; y' ← call_exec as_op maxraftstate (StartServerShardGrp g) v y;
  let l := drop (length (cs_hist y)) (cs_hist y') in
  if forallb (fun e => match e with Inv op => allowedb w g (op_Req op) | RsmLinear.Ret _ _ => true end) l
  then Some (mkRgroups _ (<[g := y']> (rg_groups w)) (rg_hist w ++ omap (client_event g) l)) else None.

#[local] Instance sim_replicas : Service rgroups rreq grp_rep := replicas_service as_op maxraftstate moves.

Lemma r_exec_sound v w w' : r_exec v w = Some w' -> sv_step w w' /\ sv_hist w `prefix_of` sv_hist w'.
Proof.
  destruct v as [g v]. simpl. intros (y & Hy & (y' & Hy' & Hx)%bind_Some)%bind_Some.
  destruct (forallb _ _) eqn:Hall; [|done]. injection Hx as <-. split; [|by eexists].
  apply call_exec_sound in Hy'. pose proof Hy' as [l Hl]%call_step_prefix. eapply R_group; [done|done|by rewrite Hl, drop_app_length|].
  intros op Hop. apply allowedb_spec. rewrite forallb_forall in Hall. by apply (Hall (Inv op)), list_elem_of_In.
Qed.

Definition replicas_after (vs : list (l_event r_event)) (w : LSys shard_obj rgroups rreq) : LSys shard_obj rgroups rreq :=
  l_after r_exec vs w.

Lemma replicas_after_run vs w : rtc (replicas_step as_op maxraftstate moves) w (replicas_after vs w).
Proof. apply l_after_run, r_exec_sound. Qed.

(** Two groups of [n] servers each, and [k] clerks. *)
Definition replicas_boot (c : Cluster) (n k : nat) : LSys shard_obj rgroups rreq :=
  mkLSys (mkRgroups _ ((fun g => call_boot maxraftstate (StartServerShardGrp g) c n) <$> {[1%Z := 1%Z; 2%Z := 2%Z]}) [])
    (replicate k (mkShardObj MakeShardClerk ∅ Client_zero ∅)) [] [] [] [].

Lemma replicas_boot_init c n k : cluster_init n c -> replicas_init maxraftstate (replicas_boot c n k).
Proof.
  intros Hc. split_and!; try done.
  - split_and!; [by eexists|done|]. intros g y. simpl. rewrite lookup_fmap. intros (g' & Hg & ->)%fmap_Some. exists n.
    assert (g' = g) as -> by by apply lookup_insert_Some in Hg as [[<- <-]|[_ [<- <-]%lookup_singleton_Some]].
    by apply call_boot_init.
  - intros i ob Hi. simpl in Hi. by apply lookup_replicate in Hi as [-> _].
Qed.

End ShardReplicaSim.

(** ** A put across a move of replicated groups *)

(** The commands of the first group are numbered from 1, those of the second from 11. *)
Definition replica_op (c : option (@Cmd BitLog)) : option (Op grp_req) :=
  n ← (c : option nat);
  Some (mkOp 0 7 (N.of_nat (n `mod` 10))
    (match n with
     | 1 | 12 => GPut sharded_put
     | 2 => GFreeze (mkFreezeShardArgs ex_shard 2)
     | 3 => GDelete (mkDeleteShardArgs ex_shard 2)
     | 11 => GInstall (mkInstallShardArgs ex_shard ex_data 2)
     | _ => GGet (mkGetArgs "k")
     end)).

Abbreviation replica_event := (Tgid * call_event (GL := BitLog) (Req := grp_req))%type.

(** Group [g] commits its [ch]-th call, with the command [n]. *)
Definition committed (g : Tgid) (ch n : nat) (t : Z) : list replica_event :=
  (fun v => (g, v)) <$> (CStart 0 ch (Some n) :: commit_one t).

Definition answer (g : Tgid) (ch : nat) : replica_event := (g, CReturn 0 ch WaitResult).

(** The events are [ShardClerkSim]'s, with those of the groups. *)
Definition use_r (o : nat) (random : list N) (l : load_from) : l_event replica_event := EvObject o (random, l).

Definition routed_r (o : nat) (cfg : ShardConfig) (effects : nat) : list (l_event replica_event) :=
  use_r o [] (LoadQueried (Some cfg)) :: replicate effects (use_r o [] LoadCached) ++ [EvSend o].

Definition replica_boot : LSys shard_obj rgroups rreq := replicas_boot (-1) cluster0 3 2.

Definition replica_end : LSys shard_obj rgroups rreq := replicas_after replica_op (-1) ex_moves
  ((EvService <$> (pair 1%Z <$> elect_first) ++ (pair 2%Z <$> elect_first)) ++
   (* the put at group 1; its answer is lost *)
   [EvCall 0 4 (CallPut "k" "v" 0); use_r 0 [5%N] LoadCached] ++ routed_r 0 (sharded_config 1 1) 3 ++
   [EvDeliver 0 (1%Z, CSubmit 0 (GPut sharded_put))] ++ (EvService <$> committed 1 0 1 803) ++
   [EvLost 0; use_r 0 [] LoadCached] ++
   (* the move *)
   (EvService <$> [(1%Z, CSubmit 0 (GFreeze (mkFreezeShardArgs ex_shard 2)))] ++ committed 1 1 2 805 ++ [answer 1 1] ++
      [(2%Z, CSubmit 0 (GInstall (mkInstallShardArgs ex_shard ex_data 2)))] ++ committed 2 0 11 803 ++ [answer 2 0] ++
      [(1%Z, CSubmit 0 (GDelete (mkDeleteShardArgs ex_shard 2)))] ++ committed 1 2 3 807 ++ [answer 1 2]) ++
   (* the put again, at group 2 *)
   routed_r 0 (sharded_config 2 2) 3 ++ [EvDeliver 1 (2%Z, CSubmit 0 (GPut sharded_put))] ++
   (EvService <$> committed 2 1 12 805 ++ [answer 2 1]) ++ [EvAnswer 0 0 2] ++
   replicate 2 (use_r 0 [] LoadCached) ++ [EvReturn 0] ++
   (* a get with the old configuration, refused by group 1 and served by group 2 *)
   [EvCall 1 4 (CallGet "k")] ++ routed_r 1 (sharded_config 1 1) 2 ++
   [EvDeliver 2 (1%Z, CSubmit 0 (GGet (mkGetArgs "k")))] ++ (EvService <$> committed 1 3 4 809 ++ [answer 1 3]) ++
   [EvAnswer 1 0 4; use_r 1 [] LoadCached] ++ routed_r 1 (sharded_config 2 2) 2 ++
   [EvDeliver 3 (2%Z, CSubmit 0 (GGet (mkGetArgs "k")))] ++ (EvService <$> committed 2 2 13 807 ++ [answer 2 2]) ++
   [EvAnswer 1 0 6; use_r 1 [] LoadCached; EvReturn 1]) replica_boot.

Lemma replica_end_hist : l_hist replica_end = sharded_hist.
Proof. vm_compute. reflexivity. Qed.

(** The replies of the servers: both groups executed the put, once for the client, and
    the first one refused the get after the move. *)
Lemma replica_end_done :
  (fun g => (fun d => d.2) <$> default [] ((fun y => sy_done (cs_sys y)) <$> rg_groups (l_sys replica_end) !! g)) <$> [1%Z; 2%Z] =
  [[GPutReply (mkPutReply OK); GFreezeReply (mkFreezeShardReply ex_data 2 OK); GDeleteReply (mkDeleteShardReply OK);
    GGetReply (mkGetReply "" 0 ErrWrongGroup)];
   [GInstallReply (mkInstallShardReply OK); GPutReply (mkPutReply OK); GGetReply (mkGetReply "v" 1 OK)]].
Proof. vm_compute. reflexivity. Qed.

Lemma replica_run : rtc (replicas_step replica_op (-1) ex_moves) replica_boot replica_end.
Proof. apply replicas_after_run. Qed.

Lemma replica_boot_ok : replicas_init (-1) replica_boot.
Proof. apply replicas_boot_init, cluster0_init. Qed.

#[local] Opaque replica_boot replica_end.

Lemma replicated_sharded_clerks_linearizable_witness : l_hist replica_end = sharded_hist /\ kv_linearizable ∅ sharded_hist.
Proof.
  split; [exact replica_end_hist|]. rewrite <- replica_end_hist.
  apply (replicated_sharded_clerks_linearizable replica_op (-1) ex_moves BitLog_laws BitGrp_laws ex_moves_apart
    replica_boot replica_end replica_boot_ok replica_run).
Defined.
