(* ===== verification/KvSystem.v ===== *)
(** * Clerks on a replicated store

    The clerks of [kvraft1/client.go] as objects of [ClerkSystem], and the servers of
    [RsmLinear] with the handlers of [kvraft1/server.go] as their service. *)

From S2P Require Import Prelude.
From S2P Require Import Rpc.
From S2P Require Import KvSpec.
From S2P Require Import Dedup.
From S2P Require Import Persister.
From S2P Require Import Raft.
From S2P Require Import Rsm.
From S2P Require Import RsmCluster.
From S2P Require Import RsmLinear.
From S2P Require Import KvRaft.
From S2P Require Import Prog.
From S2P Require Import Clerk.
From S2P Require Import ClerkSystem.

#[global] Instance kv_req_eq_dec : EqDecision kv_req.
Proof. solve_decision. Defined.

(** ** Clerks *)

(** The object: its servers, the remembered leader, the numbering of its writes and
    the sequence numbers completed. *)
Record clerk_obj : Type := mkClerkObj {
  ko_servers : list string;
  ko_leader : Z;
  ko_client : Client;
  ko_done : gset N;
}.

Definition set_ko_leader (leader : Z) (ob : clerk_obj) : clerk_obj :=
  mkClerkObj (ko_servers ob) leader (ko_client ob) (ko_done ob).

(** An effect on the object; [random] are the words [Begin] draws. *)
Definition object_do (random : list N) (e : ck_eff) (ob : clerk_obj) : option (clerk_obj * ck_resp e) :=
  match e with
  | ELeader _ => Some (ob, ko_leader ob)
  | ERemember _ s => Some (set_ko_leader (rememberLeader s (ko_leader ob)) ob, tt)
  | EAdvance _ s => Some (set_ko_leader (advanceLeader (zlen (ko_servers ob)) s (ko_leader ob)) ob, tt)
  | EBegin => '(c, r) ← Begin random (ko_client ob); Some (mkClerkObj (ko_servers ob) (ko_leader ob) c (ko_done ob), r)
  | EAck => Some (ob, Client_Ack (ko_client ob))
  | EComplete s => Some (mkClerkObj (ko_servers ob) (ko_leader ob) (Complete s (ko_client ob)) ({[s]} ∪ ko_done ob), tt)
  | _ => None
  end.

(** The program of a call. *)
Definition kv_prog (fuel : nat) (servers : list string) (c : kv_call) : ck_prog kv_res :=
  match c with
  | CallGet key => prog_bind (fun '(v, ver, e) => Ret (GetRes v ver e)) (kvraft_Clerk_Get fuel 0 servers key)
  | CallPut key value version => prog_bind (fun e => Ret (PutRes e)) (kvraft_Clerk_Put fuel 0 servers key value version)
  end.

#[global] Instance kv_clerk : ClerkObject clerk_obj := {|
  ob_input := list N;
  ob_clerks := fun ob => {[0 := (ko_servers ob, ko_leader ob)]};
  ob_client := ko_client;
  ob_done := ko_done;
  ob_do := object_do;
  ob_prog := fun fuel ob => kv_prog fuel (ko_servers ob) |}.

(** ** Requests *)

(** The call a request is submitted for, and how its handler answers what
    [SubmitWithTimeout] returned. *)
Definition kv_req_call (req : kv_req) : option rpc_call :=
  match req with KGet args => Some (RGet args) | KPut args => Some (RPut args) | _ => None end.

Definition handler (c : rpc_call) (res : Err * option kv_rep) : option (rpc_reply c) :=
  match c with RGet _ => kvraft_Get res | RPut _ => kvraft_Put res | _ => None end.

Section KvSystem.
Context {GL : GobLog} `{GobKv}.
Context (as_op : option Cmd -> option (Op kv_req)) (maxraftstate : Z) (m0 : kvmap).

Definition store_start : KVRaft := mkKVRaft m0 Table_zero.

Abbreviation csys := (CSys (St := KVRaft) (Req := kv_req) (Rep := kv_rep)).

(** The servers as a service: what the calls of [Submit] on them are. *)
Definition kv_service : Service csys kv_req kv_rep := {|
  sv_step := call_step as_op maxraftstate store_start;
  sv_hist := cs_hist;
  sv_call := kv_req_call;
  sv_handler := handler |}.

#[local] Existing Instance kv_service.

Definition clerks_step : relation (LSys clerk_obj csys kv_req) := lsys_step.

Definition clerks_init (n : nat) (w : LSys clerk_obj csys kv_req) : Prop :=
  call_init maxraftstate store_start n (l_sys w) /\
  (forall i ob, l_clerks w !! i = Some ob ->
     ko_servers ob <> [] /\ ko_leader ob = 0%Z /\ ko_client ob = Client_zero /\ ko_done ob = ∅) /\
  lsys_fresh w.

End KvSystem.
