(* ===== verification/KvLinear.v ===== *)
(** * The replicated store as its clients see it

    The clerks and servers of [KvSystem] keep the promises of [ClerkLinear]: the
    clerk objects and their programs are those of [ClerkSafe], and the log of the
    servers is one of executions of a single store ([KvOrder]).  So the calls of all clerks are
    linearizable, no clerk panics, and no handler does. *)

From S2P Require Import Prelude.
From S2P Require Import Rpc.
From S2P Require Import KvSpec.
From S2P Require Import Dedup.
From S2P Require Import Persister.
From S2P Require Import Raft.
From S2P Require Import RaftSafe.
From S2P Require Import Rsm.
From S2P Require Import RsmCluster.
From S2P Require Import RsmLinear.
From S2P Require Import KvRaft.
From S2P Require Import Prog.
From S2P Require Import Clerk.
From S2P Require Import ClerkSafe.
From S2P Require Import ClerkSystem.
From S2P Require Import StoreOrder.
From S2P Require Import ClerkLinear.
From S2P Require Import KvOrder.
From S2P Require Import KvSystem.

(** ** The clerk objects *)

Definition clerk_ok (ob : clerk_obj) : Prop := cinv (cview ob None).

Lemma cview_clerk (ob : clerk_obj) m h servers leader :
  cw_clerks (cview ob m) !! h = Some (servers, leader) -> h = 0 /\ servers = ko_servers ob /\ leader = ko_leader ob.
Proof. simpl. by intros [<- [= <- <-]]%lookup_singleton_Some. Qed.

Lemma cview_leader ob m h f :
  h = 0 -> set_leader h f (cview ob m) = cview (set_ko_leader (f (zlen (ko_servers ob)) (ko_leader ob)) ob) m.
Proof. intros ->. unfold set_leader, set_clerks, cview. simpl. by rewrite alter_singleton_eq. Qed.

Lemma clerk_ok_leader ob l : clerk_ok ob -> (0 <= l < zlen (ko_servers ob))%Z -> clerk_ok (set_ko_leader l ob).
Proof. intros [_ Hc _ Hi] Hl. constructor; try done. by intros h sv l' (-> & -> & ->)%cview_clerk. Qed.

(** An effect is answered as [ClerkSafe] says. *)
Lemma object_answers own m random e ob ob' r :
  clerk_ok ob -> cinv (cview ob m) -> callowed own (cview ob m) e -> object_do random e ob = Some (ob', r) ->
  clerk_ok ob' /\ canswer (cview ob m) e r (cview ob' (mine_after e r m)).
Proof.
  intros HO HI Ha Hd. destruct e as [s c|h|h s|h s| | | |s|f|g sv]; simpl in Hd; try done.
  - injection Hd as <- <-. destruct Ha as [[sv l] Hl]. split; [done|]. split; [done|]. exists sv.
    pose proof Hl as (_ & _ & ->)%cview_clerk. exact Hl.
  - injection Hd as <- <-. destruct Ha as (sv & l & (Hh & Hsv & _)%cview_clerk & Hs). subst sv.
    split; [by apply clerk_ok_leader|]. simpl. by rewrite cview_leader.
  - injection Hd as <- <-. destruct Ha as (sv & l & Hl & Hs). pose proof (ck_leaders _ HI _ _ _ Hl) as Hrange.
    apply cview_clerk in Hl as (Hh & -> & ->). split; [by apply clerk_ok_leader, advanceLeader_range|].
    simpl. by rewrite cview_leader.
  - apply bind_Some in Hd as ([c' [i s]] & Hb & [= <- <-]). split; [|simpl; eauto].
    pose proof (Begin_inv _ _ _ _ _ _ (ck_client _ HO) Hb) as (HC & _ & _ & _ & _ & Hi & Hz & _).
    constructor; simpl; [apply HO|done|done|]. intros _. by rewrite Hi.
  - injection Hd as <- <-. done.
  - injection Hd as <- <-. destruct (ck_active _ HI _ Ha) as [Hr _].
    destruct (Complete_inv s _ _ (ck_client _ HO) Hr) as (HC & Hi & Hn & _). simpl in HC, Hi, Hn.
    split; [|done]. constructor; simpl; [apply HO|done|done|]. rewrite Hi, Hn. apply HO.
Qed.

(** ** Their programs *)

Lemma get_loop_safe c h servers args fuel : forall failed w,
  cinv w -> has_clerk w h servers -> csafe c (kvraft_get_loop fuel h servers args failed) (fun _ _ => True) w.
Proof.
  induction fuel as [|fuel IH]; intros failed w HI Hh; cbn [kvraft_get_loop]; [done|].
  apply attempt_safe; [done|done|]. intros server s w1 Hs Hl1. split; [done|]. intros r _.
  pose proof (has_clerk_later _ _ _ _ Hh Hl1) as Hh1.
  assert (csafe c (retryAfterFailure h servers server failed (kvraft_get_loop fuel h servers args)) (fun _ _ => True) w1)
    as Hretry.
  { eapply advance_safe; [apply Hl1|exact Hh1|done|]. intros w2 Hl2. apply IH; [apply Hl2|].
    by eapply has_clerk_later. }
  destruct r as [reply|]; [|done]. case_decide; [|done].
  eapply remember_safe; [apply Hl1|exact Hh1|done|]. intros w2 Hl2. by apply ret_safe; [apply Hl2|].
Qed.

Lemma kv_prog_safe fuel servers c w :
  cinv w -> cw_mine w = None -> has_clerk w 0 servers -> csafe c (kv_prog fuel servers c) any_result w.
Proof.
  intros HI Hm Hh. destruct c as [key|key value version]; unfold kv_prog.
  - eapply safe_bind; [exact (get_loop_safe (CallGet key) 0 servers (mkGetArgs key) fuel 0 w HI Hh)|].
    by intros w' [[v ver] e] _.
  - eapply safe_bind; [|by intros w' e _].
    apply (put_call_safe (fun args => kvraft_put_loop fuel 0 servers args 0)); auto.
    intros id s w' Hr Hc. exact (kvraft_put_loop_safe _ fuel 0 servers 0 w' Hr (Hc _ _ Hh)).
Qed.

Lemma get_honest key h servers fuel : forall failed id got,
  honest (CallGet key)
    (prog_bind (fun '(v, ver, e) => Ret (GetRes v ver e)) (kvraft_get_loop fuel h servers (mkGetArgs key) failed)) id got.
Proof.
  induction fuel as [|fuel IH]; intros failed id got; [done|]. simpl. intros server. unfold ck_server.
  destruct (zlookup servers server) as [s|]; [|done]. simpl. split; [done|].
  intros [[v ver e]|]; simpl; [|by intros _]. by case_decide; simpl; intros _.
Qed.

Lemma put_honest key value version id s h servers fuel : forall failed got,
  honest (CallPut key value version)
    (prog_bind (fun e => Ret (PutRes e)) (prog_bind (fun err => Call (EComplete s) (fun _ => Ret err))
      (kvraft_put_loop fuel h servers (mkPutArgs key value version id s 0) failed))) (Some (id, s)) got.
Proof.
  induction fuel as [|fuel IH]; intros failed got; [done|]. simpl. intros ack server. unfold ck_server.
  destruct (zlookup servers server) as [x|]; [|done]. simpl. split; [done|]. split; [done|].
  intros [[e]|]; simpl; [|by intros _]. by destruct e; simpl; eauto.
Qed.

Lemma kv_prog_honest fuel servers c : honest c (kv_prog fuel servers c) None None.
Proof.
  destruct c as [key|key value version]; unfold kv_prog; [apply get_honest|].
  simpl. split; [done|]. intros [id s] _. apply put_honest.
Qed.

#[global] Instance kv_clerk_laws : ClerkObjectLaws clerk_obj.
Proof.
  refine {| ob_inv := clerk_ok |}.
  - done.
  - done.
  - intros own m inp e ob ob' r. apply object_answers.
  - intros fuel ob c HO. apply kv_prog_safe; [done|done|]. exists (ko_leader ob). apply lookup_singleton_eq.
  - intros fuel ob c. apply kv_prog_honest.
Defined.

(** ** The servers *)

Section KvLinear.
Context {GL : GobLog} `{GobKv}.
Context (as_op : option Cmd -> option (Op kv_req)) (maxraftstate : Z) (m0 : kvmap).

Abbreviation start := (store_start m0).
Abbreviation csys := (CSys (St := KVRaft) (Req := kv_req) (Rep := kv_rep)).

#[local] Instance kv_servers : Service csys kv_req kv_rep := kv_service as_op maxraftstate m0.

Definition servers_ok (n : nat) (y : csys) : Prop := exists W, call_inv as_op start n W y.

Lemma asks_req (op : Op kv_req) c : asks (Y := csys) op c -> kv_req_call (op_Req op) = Some c.
Proof. done. Qed.

Lemma made_call req rep e : kv_made req rep = Some e -> kv_req_call req = Some (s_call e).
Proof. destruct req, rep; intros [= <-]; done. Qed.

(** The reply of a request is what its handler answers. *)
Lemma made_reply c req rep e :
  kv_req_call req = Some c -> kv_made req rep = Some e -> exists reply, handler c (OK, Some rep) = Some reply /\ s_made c reply = Some e.
Proof. destruct req; intros [= <-]; destruct rep; intros [= <-]; eauto. Qed.

(** The log of the servers. *)
Lemma servers_logged n y : servers_ok n y -> exists log h, logged m0 y log h.
Proof.
  intros [W HI]. destruct (call_log _ _ _ _ _ HI) as (log & Hnd & [kv Hrep] & Hlog & Hret & Hord).
  destruct (kv_log_history m0 log kv Hrep) as (h & execs & Hh & _ & _ & Hlen & Hat). exists log, h. constructor; try done.
  - eauto.
  - intros k e Hk. assert (is_Some (log !! k)) as [op Hop].
    { apply lookup_lt_is_Some. rewrite <- Hlen. by eapply lookup_lt_Some. }
    exists op. split; [done|]. destruct (Hat _ _ Hop) as (_ & _ & rep & e' & _ & _ & He' & Hm). assert (e' = e) as -> by congruence. by eapply made_call.
  - intros op c rep Hr Hc. destruct (Hret _ _ Hr) as (k & s & s' & Hk & Hs & Hd).
    destruct (Hat _ _ Hk) as (s1 & s2 & rep' & e & Hs' & Hd' & He & Hm).
    unfold store_start in Hs. assert (s1 = s) as -> by congruence. change (kvraft_DoOp (op_Req op) s = Some (s', rep)) in Hd.
    assert (rep' = rep) as -> by congruence. destruct (made_reply _ _ _ _ Hc Hm) as (reply & ? & Hmade).
    exists reply, k. split_and!; [done|done|congruence].
Qed.

Lemma kv_service_laws (L : GobLogLaws) (KL : GobKvLaws) (n : nat) : ServiceLaws (Y := csys) m0.
Proof using Type.
  refine {| sv_ok := servers_ok n |}.
  - intros y y' [W HI] Hs. destruct (call_inv_step _ _ _ L (KVRaft_machine_laws KL) _ _ _ _ HI Hs) as (W' & _ & ?). by exists W'.
  - intros y y' op l [W HI]. by eapply call_fresh.
  - intros c req. destruct req; try done; intros [= <-]; eauto.
  - intros c req. destruct req; try done; intros [= <-]; simpl; eauto.
  - intros c reply. destruct c as [a|a|f|f|f]; try done; by intros [= <-].
  - intros y op res [W HI]. by eapply call_result.
  - intros y. apply servers_logged.
Defined.

Lemma clerk_ok_init ob :
  ko_servers ob <> [] /\ ko_leader ob = 0%Z /\ ko_client ob = Client_zero /\ ko_done ob = ∅ ->
  clerk_ok ob /\ dc_id (ko_client ob) = 0%N.
Proof.
  intros (Hs & Hl & Hcl & Hd). split; [|by rewrite Hcl]. constructor; simpl; rewrite ?Hcl, ?Hd; try done.
  - intros h sv l [_ [= <- <-]]%lookup_singleton_Some. rewrite Hl. unfold zlen. destruct (ko_servers ob); [done|simpl; lia].
  - apply client_inv_zero.
Qed.

(** C2. What the replicated store promises its clients: in every run of clerks with any
    number of calls side by side, on a network that loses, delays, reorders and
    duplicates their requests, and servers that are stopped, crash, restart and change
    leaders, the calls of [Get] and [Put] are linearizable: there is one order in which
    they are calls on a single conditional store, each taking effect once, with every
    result returned, and in which a call comes before all those made after it returned.
    So a [Put] never returns ErrMaybe and is never executed twice however often it is
    sent.  No clerk panics, in particular no running write is ever refused as stale,
    and no handler does. *)
Theorem clerks_linearizable (L : GobLogLaws) (KL : GobKvLaws) n w0 w :
  clerks_init maxraftstate m0 n w0 -> rtc (clerks_step as_op maxraftstate m0) w0 w ->
  kv_linearizable m0 (l_hist w) /\
  (forall o ca, l_calls w !! o = Some ca -> ca_prog ca <> Some Panic) /\
  (forall op res k o c, (op, k) ∈ l_from w -> l_msgs w !! k = Some (o, c) ->
     RsmLinear.Ret op res ∈ cs_hist (l_sys w) -> is_Some (handler c res)).
Proof.
  intros (H0 & Hob & Hf) Hr. pose (SVL := kv_service_laws L KL n).
  apply (clinv_promise (Obj := clerk_obj) (SV := kv_servers) m0 w). eapply clinv_run; [exact Hr|]. apply clinv_init; [| |by intros i ob ?%Hob; apply clerk_ok_init|done].
  - exists (ghost_init, []). by eapply call_inv_init.
  - destruct H0 as (_ & _ & Hsub). simpl. intros op. rewrite Hsub. apply not_elem_of_nil.
Qed.

End KvLinear.
