(* ===== verification/KvSim.v ===== *)
(** * Executable schedules of clerks on a replicated store

    The schedules of [ClerkSim] on the servers of [KvSystem].  Two clerks on three
    servers are executed: a put whose request is delivered twice, a get by the other
    clerk while it runs that is refused by a server that is not the leader and retried
    elsewhere; and the theorem of [KvLinear] is applied to the run. *)

From S2P Require Import Prelude.
From S2P Require Import Rpc.
From S2P Require Import KvSpec.
From S2P Require Import Dedup.
From S2P Require Import Raft.
From S2P Require Import RaftPersist.
From S2P Require Import RaftCluster.
From S2P Require Import RaftSim.
From S2P Require Import Rsm.
From S2P Require Import RsmCluster.
From S2P Require Import RsmLinear.
From S2P Require Import KvRaft.
From S2P Require Import RsmSrv.
From S2P Require Import RsmSim.
From S2P Require Import Prog.
From S2P Require Import Clerk.
From S2P Require Import ClerkSystem.
From S2P Require Import ClerkSim.
From S2P Require Import KvSystem.
From S2P Require Import KvLinear.

#[global] Instance kv_rep_eq_dec : EqDecision kv_rep.
Proof. solve_decision. Defined.

Abbreviation kv_world := (LSys clerk_obj (CSys (St := KVRaft) (Req := kv_req) (Rep := kv_rep)) kv_req).

Section KvSim.
Context {GL : GobLog} `{GobKv}.
Context (as_op : option Cmd -> option (Op kv_req)) (maxraftstate : Z) (m0 : kvmap).

Definition servers_exec := call_exec as_op maxraftstate (store_start m0).

#[local] Instance sim_servers : Service (CSys (St := KVRaft) (Req := kv_req) (Rep := kv_rep)) kv_req kv_rep :=
  kv_service as_op maxraftstate m0.

Lemma servers_sound v y y' : servers_exec v y = Some y' -> sv_step y y' /\ sv_hist y `prefix_of` sv_hist y'.
Proof. intros Hs%call_exec_sound. split; [done|by eapply call_step_prefix]. Qed.

Definition kv_after (vs : list (l_event (call_event (GL := GL) (Req := kv_req)))) (w : kv_world) :
    kv_world :=
  l_after servers_exec vs w.

Lemma kv_after_run vs w : rtc (clerks_step as_op maxraftstate m0) w (kv_after vs w).
Proof. apply l_after_run, servers_sound. Qed.

Definition kv_boot (c : Cluster) (n : nat) (clerks : list (list string)) : kv_world :=
  mkLSys (call_boot maxraftstate (store_start m0) c n) ((fun sv => mkClerkObj sv 0 Client_zero ∅) <$> clerks) [] [] [] [].

Lemma kv_boot_init c n clerks :
  cluster_init n c -> Forall (fun sv => sv <> []) clerks -> clerks_init maxraftstate m0 n (kv_boot c n clerks).
Proof.
  intros Hc Hs. split_and!; try done; [by apply call_boot_init|]. intros i ob Hi. simpl in Hi.
  apply list_lookup_fmap_Some in Hi as (sv & -> & Hi). split_and!; try done. by eapply Forall_lookup_1 in Hs.
Qed.

End KvSim.

(** ** Two clerks on three servers *)

Definition clerks_put : PutArgs := mkPutArgs "k" "v" 0 5 1 0.

Definition clerks_op (c : option (@Cmd BitLog)) : option (Op kv_req) :=
  n ← (c : option nat);
  Some (mkOp (Z.of_nat (n `div` 10)) 7 (N.of_nat (n `mod` 10))
    (if decide (n < 3) then KPut clerks_put else KGet (mkGetArgs "k"))).

Definition clerks_boot : kv_world := kv_boot (-1) ∅ cluster0 3 [["a"; "b"; "c"]; ["b"; "a"; "c"]].

Definition server_events (vs : list (call_event (GL := BitLog) (Req := kv_req))) : list (l_event (call_event (GL := BitLog) (Req := kv_req))) :=
  EvService <$> vs.

Definition clerks_end : kv_world := kv_after clerks_op (-1) ∅
  (server_events elect_first ++
   (* the put: its identity, the watermark, the leader; its request arrives twice *)
   [EvCall 0 3 (CallPut "k" "v" 0); EvObject 0 [5%N]; EvObject 0 []; EvObject 0 []; EvSend 0; EvDeliver 0 (CSubmit 0 (KPut clerks_put)); EvDeliver 0 (CSubmit 0 (KPut clerks_put))] ++
   (* the get of the other clerk, sent to a follower and refused *)
   [EvCall 1 3 (CallGet "k"); EvObject 1 []; EvSend 1; EvDeliver 1 (CSubmit 1 (KGet (mkGetArgs "k")))] ++
   server_events [CStart 1 0 (Some 11)] ++ [EvAnswer 1 0 3; EvObject 1 []; EvObject 1 []; EvSend 1] ++
   (* both puts are committed and executed *)
   server_events ([CStart 0 0 (Some 1); CStart 0 1 (Some 2)] ++ commit_one 803 ++ commit_one 805 ++ [CReturn 0 1 WaitResult]) ++
   [EvAnswer 0 1 4; EvObject 0 []; EvObject 0 []; EvReturn 0; EvDeliver 2 (CSubmit 0 (KGet (mkGetArgs "k")))] ++
   server_events ([CStart 0 2 (Some 3)] ++ commit_one 807 ++ [CReturn 0 2 WaitResult]) ++
   [EvAnswer 1 0 6; EvObject 1 []; EvReturn 1]) clerks_boot.

Definition clerks_hist : list kv_event :=
  [CInv 0 (CallPut "k" "v" 0); CInv 1 (CallGet "k"); CRet 0 (PutRes OK); CRet 1 (GetRes "v" 1 OK)].

Lemma clerks_end_hist : l_hist clerks_end = clerks_hist.
Proof. vm_compute. reflexivity. Qed.

(** The servers executed the request of the put twice. *)
Lemma clerks_end_done : ((fun d => d.2) <$> sy_done (cs_sys (l_sys clerks_end))) =
  [KPutReply (mkPutReply OK); KPutReply (mkPutReply OK); KGetReply (mkGetReply "v" 1 OK)].
Proof. vm_compute. reflexivity. Qed.

Lemma clerks_run : rtc (clerks_step clerks_op (-1) ∅) clerks_boot clerks_end.
Proof. apply kv_after_run. Qed.

Lemma clerks_boot_init : clerks_init (-1) ∅ 3 clerks_boot.
Proof. apply kv_boot_init; [apply cluster0_init|]. by repeat constructor. Qed.

#[local] Opaque clerks_boot clerks_end.

Lemma clerks_linearizable_witness : l_hist clerks_end = clerks_hist /\ kv_linearizable ∅ clerks_hist.
Proof.
  split; [exact clerks_end_hist|]. rewrite <- clerks_end_hist.
  apply (clerks_linearizable clerks_op (-1) ∅ BitLog_laws BitKv_laws 3 clerks_boot clerks_end clerks_boot_init clerks_run).
Defined.
