(* ===== verification/ShardCtrler.v ===== *)
(** * The shard controller ([shardkv1/shardctrler/shardctrler.go])

    Controllers keep one record in a key of the single key/value server: who leads,
    the current configuration, and the migration under way.  Every change of the
    record is a conditional put; a migration freezes, installs and, once the new
    configuration is published, deletes.  The methods are programs of [Prog]; their
    effects are the calls on the server's clerk and on the groups' clerks. *)

From S2P Require Import Prelude.
From S2P Require Import Rpc.
From S2P Require Import Persister.
From S2P Require Import ShardCfg.
From S2P Require Import Prog.

#[global] Instance ShardConfig_eq_dec : EqDecision ShardConfig.
Proof. solve_decision. Defined.

Record migrationRecord : Type := mkMigrationRecord { mr_From : ShardConfig; mr_To : ShardConfig }.

#[global] Instance migrationRecord_eq_dec : EqDecision migrationRecord.
Proof. solve_decision. Defined.

Record controllerState : Type := mkControllerState {
  cs_Owner : string;
  cs_Epoch : N;
  cs_Current : ShardConfig;
  cs_Pending : option migrationRecord;
}.

(** [reflect.DeepEqual] of two records. *)
#[global] Instance controllerState_eq_dec : EqDecision controllerState.
Proof. solve_decision. Defined.

(** ** The encoding

    [encoding/json]: [json_text] are the strings it carries unchanged (valid
    UTF-8).  [unmarshal] also fails when [Current] is missing. *)
Class ConfigJson := {
  json_text : string -> Prop;
  marshal : controllerState -> string;
  unmarshal : string -> option controllerState;
}.

(** The configuration's server names are text. *)
Definition cfg_text `{ConfigJson} (c : ShardConfig) : Prop :=
  forall g servers s, groups_of c !! g = Some servers -> s ∈ servers -> json_text s.

Definition state_text `{ConfigJson} (st : controllerState) : Prop :=
  json_text (cs_Owner st) /\ cfg_text (cs_Current st) /\
  forall r, cs_Pending st = Some r -> cfg_text (mr_From r) /\ cfg_text (mr_To r).

(** What the code relies on: decoding gives back what was encoded, and decoded
    strings are text. *)
Class ConfigJsonLaws `{CJ : ConfigJson} : Prop := {
  unmarshal_marshal st : state_text st -> unmarshal (marshal st) = Some st;
  unmarshal_text s st : unmarshal s = Some st -> state_text st;
}.

Section ShardCtrler.
Context {CJ : ConfigJson}.

(** ** The object

    [changeMu] serialises the calls on one controller. *)
Record ShardCtrlerObj : Type := mkCtl { ctl_id : string; ctl_epoch : N; ctl_initialized : bool; ctl_deposed : bool }.

Definition MakeShardCtrler (id : string) : ShardCtrlerObj := mkCtl id 0 false false.

Definition set_deposed (d : bool) (sck : ShardCtrlerObj) : ShardCtrlerObj :=
mkCtl (ctl_id sck) (ctl_epoch sck) (ctl_initialized sck) (ctl_deposed sck || d).

(** ** Effects

    The clerk's [Get] and [Put] on the controllers' key, and the migration clerks'
    calls, which also tell whether [isCurrent] found another owner meanwhile. *)
Inductive ctl_eff : Type :=
| XGet
| XPut (value : string) (version : Tversion)
| XFreeze (gid : Tgid) (servers : list string) (shard num : Z)
| XInstall (gid : Tgid) (servers : list string) (shard : Z) (state : bytes) (num : Z)
| XDelete (gid : Tgid) (servers : list string) (shard num : Z).

Definition ctl_resp (e : ctl_eff) : Type :=
match e with
| XGet => string * Tversion * Err
| XPut _ _ => Err
| XFreeze _ _ _ _ => bytes * Err * bool
| XInstall _ _ _ _ _ | XDelete _ _ _ _ => Err * bool
end.

Abbreviation ctl_prog := (prog ctl_resp).

(** [p ;; k] for a result named [x]. *)
Notation "'do' x <- p ; k" := (prog_bind (fun x => k) p) (at level 60, x pattern, right associativity).

(** ** The record *)

Definition readState : ctl_prog (option controllerState * Tversion * Err) :=
Call XGet (fun r : string * Tversion * Err =>
  let '(value, version, err) := r in
  if decide (err <> OK) then Ret (None, version, err)
  else match unmarshal value with
       | None => Panic
       | Some state => Ret (Some state, version, OK)
       end).

Definition compareAndSwap (version : Tversion) (state : controllerState) : ctl_prog bool :=
Call (XPut (marshal state) version) (fun putErr : Err =>
  if decide (putErr = OK) then Ret true
  else if decide (putErr <> ErrMaybe) then Ret false
  else
    do r <- readState;
    let '(stored, _, readErr) := r in
    Ret (bool_decide (readErr = OK) && bool_decide (stored = Some state))).

Definition readOwned (sck : ShardCtrlerObj) : ctl_prog (ShardCtrlerObj * option (controllerState * Tversion)) :=
if ctl_deposed sck then Ret (sck, None)
else
  do r <- readState;
  match r with
  | (Some state, version, OK) =>
      if decide (cs_Owner state <> ctl_id sck \/ cs_Epoch state <> ctl_epoch sck)
      then Ret (set_deposed true sck, None)
      else Ret (sck, Some (state, version))
  | _ => Ret (sck, None)
  end.

(** ** Leadership *)

Definition InitConfig (cfg : ShardConfig) (sck : ShardCtrlerObj) : ctl_prog ShardCtrlerObj :=
do ok <- compareAndSwap 0 (mkControllerState (ctl_id sck) 1 (Copy cfg) None);
Ret (if ok : bool then mkCtl (ctl_id sck) 1 true (ctl_deposed sck) else sck).

Fixpoint elect (fuel : nat) (sck : ShardCtrlerObj) : ctl_prog (ShardCtrlerObj * bool) :=
match fuel with
| O => Spin
| S fuel' =>
    do r <- readState;
    match r with
    | (Some state, version, OK) =>
        let state' := mkControllerState (ctl_id sck) (u64_inc (cs_Epoch state)) (cs_Current state) (cs_Pending state) in
        do ok <- compareAndSwap version state';
        if ok : bool then Ret (mkCtl (ctl_id sck) (cs_Epoch state') true (ctl_deposed sck), true)
        else elect fuel' sck
    | _ => Ret (set_deposed true sck, false)
    end
end.

Definition ensureLeadershipLocked (fuel : nat) (sck : ShardCtrlerObj) : ctl_prog (ShardCtrlerObj * bool) :=
if ctl_initialized sck then
  do r <- readOwned sck; Ret (r.1, bool_decide (is_Some r.2))
else elect fuel (mkCtl (ctl_id sck) (ctl_epoch sck) true (ctl_deposed sck)).

(** ** Migration *)

(** The clerks made so far, by group, with their servers. *)
Definition groupClerkFor (gid : Tgid) (c : ShardConfig) (clerks : gmap Tgid (list string))
    : option (gmap Tgid (list string) * list string) :=
match clerks !! gid with
| Some servers => Some (clerks, servers)
| None =>
    let servers := default [] (groups_of c !! gid) in
    if decide (length servers = 0) then None else Some (<[gid := servers]> clerks, servers)
end.

(** Freeze and install the shards from [i] on: [None] when a call failed. *)
Fixpoint migrate_loop (record : migrationRecord) (i : Z) (sources targets : list Tgid)
    (clerks : gmap Tgid (list string)) (sck : ShardCtrlerObj)
    : ctl_prog (ShardCtrlerObj * option (gmap Tgid (list string))) :=
match sources, targets with
| source :: sources', target :: targets' =>
    if decide (source = target) then migrate_loop record (i + 1) sources' targets' clerks sck
    else
      let num := sc_Num (mr_To record) in
      let install clerks sck data :=
        if decide (target = 0%Z) then migrate_loop record (i + 1) sources' targets' clerks sck
        else match groupClerkFor target (mr_To record) clerks with
             | None => Panic
             | Some (clerks', servers) =>
                 Call (XInstall target servers i data num) (fun r : Err * bool =>
                   if decide (r.1 <> OK) then Ret (set_deposed r.2 sck, None)
                   else migrate_loop record (i + 1) sources' targets' clerks' (set_deposed r.2 sck))
             end in
      if decide (source = 0%Z) then install clerks sck []
      else match groupClerkFor source (mr_From record) clerks with
           | None => Panic
           | Some (clerks', servers) =>
               Call (XFreeze source servers i num) (fun r : bytes * Err * bool =>
                 let '(data, err, d) := r in
                 if decide (err <> OK) then Ret (set_deposed d sck, None)
                 else install clerks' (set_deposed d sck) data)
           end
| _, _ => Ret (sck, Some clerks)
end.

Fixpoint delete_loop (record : migrationRecord) (i : Z) (sources targets : list Tgid)
    (clerks : gmap Tgid (list string)) (sck : ShardCtrlerObj) : ctl_prog (ShardCtrlerObj * bool) :=
match sources, targets with
| source :: sources', target :: targets' =>
    if decide (source = 0%Z \/ source = target) then delete_loop record (i + 1) sources' targets' clerks sck
    else match groupClerkFor source (mr_From record) clerks with
         | None => Panic
         | Some (clerks', servers) =>
             Call (XDelete source servers i (sc_Num (mr_To record))) (fun r : Err * bool =>
               if decide (r.1 <> OK) then Ret (set_deposed r.2 sck, false)
               else delete_loop record (i + 1) sources' targets' clerks' (set_deposed r.2 sck))
         end
| _, _ => Ret (sck, true)
end.

Definition with_current (c : ShardConfig) (st : controllerState) : controllerState :=
mkControllerState (cs_Owner st) (cs_Epoch st) c (cs_Pending st).

Definition with_pending (p : option migrationRecord) (st : controllerState) : controllerState :=
mkControllerState (cs_Owner st) (cs_Epoch st) (cs_Current st) p.

(** After the new configuration was published: delete the old copies and clear
    the record. *)
Definition finish_migration (record : migrationRecord) (clerks : gmap Tgid (list string)) (sck : ShardCtrlerObj)
    : ctl_prog (ShardCtrlerObj * bool) :=
do r <- readOwned sck;
match r with
| (sck, Some (state, version)) =>
    if decide (cs_Pending state <> Some record \/ cs_Current state <> mr_To record) then Ret (sck, false)
    else
      do r <- delete_loop record 0 (sc_Shards (mr_From record)) (sc_Shards (mr_To record)) clerks sck;
      let '(sck, ok) := (r : ShardCtrlerObj * bool) in
      if ok then do ok <- compareAndSwap version (with_pending None state); Ret (sck, ok : bool)
      else Ret (sck, false)
| (sck, None) => Ret (sck, false)
end.

Definition recoverPendingLocked (sck : ShardCtrlerObj) : ctl_prog (ShardCtrlerObj * bool) :=
do r <- readOwned sck;
match r with
| (sck, None) => Ret (sck, false)
| (sck, Some (state, version)) =>
    match cs_Pending state with
    | None => Ret (sck, true)
    | Some record =>
        if decide (cs_Current state = mr_From record) then
          do r <- migrate_loop record 0 (sc_Shards (mr_From record)) (sc_Shards (mr_To record)) ∅ sck;
          match r with
          | (sck, None) => Ret (sck, false)
          | (sck, Some clerks) =>
              do ok <- compareAndSwap version (with_current (Copy (mr_To record)) state);
              if ok : bool then finish_migration record clerks sck else Ret (sck, false)
          end
        else finish_migration record ∅ sck
    end
end.

(** ** The methods *)

Definition InitController (fuel : nat) (sck : ShardCtrlerObj) : ctl_prog ShardCtrlerObj :=
do r <- ensureLeadershipLocked fuel sck;
let '(sck, ok) := (r : ShardCtrlerObj * bool) in
if ok then do r <- recoverPendingLocked sck; Ret r.1 else Ret sck.

Definition ChangeConfigTo (fuel : nat) (next : ShardConfig) (sck : ShardCtrlerObj) : ctl_prog ShardCtrlerObj :=
do r <- ensureLeadershipLocked fuel sck;
let '(sck, ok) := (r : ShardCtrlerObj * bool) in
if negb ok then Ret sck
else
  do r <- recoverPendingLocked sck;
  let '(sck, ok) := (r : ShardCtrlerObj * bool) in
  if negb ok then Ret sck
  else
    do r <- readOwned sck;
    match r with
    | (sck, None) => Ret sck
    | (sck, Some (state, version)) =>
        if decide (cs_Current state = next) then Ret sck
        else if decide (sc_Num next <> (sc_Num (cs_Current state) + 1)%Z) then Ret sck
        else
          do ok <- compareAndSwap version
            (with_pending (Some (mkMigrationRecord (Copy (cs_Current state)) (Copy next))) state);
          if ok : bool then do r <- recoverPendingLocked sck; Ret r.1 else Ret sck
    end.

Definition Query : ctl_prog (option ShardConfig) :=
do r <- readState;
match r with
| (Some state, _, OK) => Ret (Some (Copy (cs_Current state)))
| _ => Ret None
end.

End ShardCtrler.
