(* ===== verification/CtrlerSafe.v ===== *)
(** * Controllers side by side

    Any number of controllers, with different identifiers, run their methods at
    once against the record, whose every version is kept; a put may take effect
    although its answer is lost.  The record moves only along [ctl_trans], a
    configuration number gets one plan, a configuration is published only after
    all its shards were installed, and the calls on the groups are exactly those
    [ShardMove] allows. *)

From S2P Require Import Prelude.
From S2P Require Import Rpc.
From S2P Require Import Persister.
From S2P Require Import ShardCfg.
From S2P Require Import Prog.
From S2P Require Import ShardCtrler.

Section CtrlerSafe.
Context {CJ : ConfigJson}.

(** The versions of the record from 1 on, the data Freeze calls returned, and the
    Installs answered OK. *)
Record xworld : Type := mkXworld {
xw_hist : list string;
xw_frozen : list (Z * Z * bytes);
xw_done : list (Z * Z);
}.

Definition xpush (value : string) (w : xworld) : xworld :=
mkXworld (xw_hist w ++ [value]) (xw_frozen w) (xw_done w).

Definition xanswer (w : xworld) (e : ctl_eff) : ctl_resp e -> xworld -> Prop :=
match e with
| XGet => fun r w' => w' = w /\
    match last (xw_hist w) with
    | None => r = ("", 0%N, ErrNoKey)
    | Some s => r = (s, N.of_nat (length (xw_hist w)), OK)
    end
| XPut value version => fun r w' =>
    ((r = OK \/ r = ErrMaybe) /\ version = N.of_nat (length (xw_hist w)) /\ w' = xpush value w) \/
    ((r = ErrVersion \/ r = ErrMaybe \/ r = ErrNoKey) /\ w' = w)
| XFreeze _ _ s num => fun r w' =>
    w' = mkXworld (xw_hist w) (if decide (r.1.2 = OK) then (s, num, r.1.1) :: xw_frozen w else xw_frozen w) (xw_done w)
| XInstall _ _ s _ num => fun r w' =>
    w' = mkXworld (xw_hist w) (xw_frozen w) (if decide (r.1 = OK) then (s, num) :: xw_done w else xw_done w)
| XDelete _ _ _ _ => fun _ w' => w' = w
end.

(** Version [n + 1] of the record. *)
Definition st_at (w : xworld) (n : nat) (st : controllerState) : Prop :=
exists s, xw_hist w !! n = Some s /\ unmarshal s = Some st.

(** ** Good records *)

(** Every group a shard is assigned to has servers. *)
Record cfg_good (c : ShardConfig) : Prop := {
cg_len : length (sc_Shards c) = NShards;
cg_servers : forall g, g ∈ sc_Shards c -> g <> 0%Z ->
  exists servers, groups_of c !! g = Some servers /\ servers <> [];
cg_text : cfg_text c;
}.

(** Shard [s] moves from [src] to [dst]. *)
Definition move_of (r : migrationRecord) (s src dst : Z) : Prop :=
zlookup (sc_Shards (mr_From r)) s = Some src /\ zlookup (sc_Shards (mr_To r)) s = Some dst /\ src <> dst.

(** All shards with a target were installed. *)
Definition installed (done : list (Z * Z)) (r : migrationRecord) : Prop :=
forall s src dst, move_of r s src dst -> dst <> 0%Z -> (s, sc_Num (mr_To r)) ∈ done.

Record valid_state (done : list (Z * Z)) (st : controllerState) : Prop := {
vs_owner : json_text (cs_Owner st);
vs_current : cfg_good (cs_Current st) /\ is_Some (sc_Groups (cs_Current st));
vs_pending : forall r, cs_Pending st = Some r ->
  (cfg_good (mr_From r) /\ cfg_good (mr_To r) /\ is_Some (sc_Groups (mr_To r))) /\
  sc_Num (mr_To r) = (sc_Num (mr_From r) + 1)%Z /\
  (cs_Current st = mr_From r \/ (cs_Current st = mr_To r /\ installed done r));
}.

(** The four changes of the record: taking over, planning a migration, publishing
    its configuration, clearing it. *)
Inductive ctl_trans (st : controllerState) : controllerState -> Prop :=
| T_take owner : ctl_trans st (mkControllerState owner (u64_inc (cs_Epoch st)) (cs_Current st) (cs_Pending st))
| T_plan next : cs_Pending st = None -> sc_Num next = (sc_Num (cs_Current st) + 1)%Z ->
    ctl_trans st (with_pending (Some (mkMigrationRecord (cs_Current st) next)) st)
| T_publish r : cs_Pending st = Some r -> cs_Current st = mr_From r ->
    ctl_trans st (with_current (mr_To r) st)
| T_clear r : cs_Pending st = Some r -> cs_Current st = mr_To r ->
    ctl_trans st (with_pending None st).

Record winv (w : xworld) : Prop := {
wi_state : forall n s, xw_hist w !! n = Some s -> exists st, unmarshal s = Some st /\ valid_state (xw_done w) st;
wi_first : forall st, st_at w 0 st -> cs_Pending st = None;
wi_trans : forall n st st', st_at w n st -> st_at w (S n) st' -> ctl_trans st st';
}.

(** A plan the record named. *)
Definition planned (w : xworld) (r : migrationRecord) : Prop :=
exists n st, st_at w n st /\ cs_Pending st = Some r.

(** What controller [me] may do. *)
Definition xallowed (me : string) (w : xworld) (e : ctl_eff) : Prop :=
match e with
| XGet => True
| XPut value version =>
    exists st', unmarshal value = Some st' /\ cs_Owner st' = me /\ valid_state (xw_done w) st' /\
      (version = 0%N -> cs_Pending st' = None) /\
      forall n st, version = N.of_nat (S n) -> st_at w n st -> ctl_trans st st'
| XFreeze gid _ s num =>
    exists r dst, planned w r /\ num = sc_Num (mr_To r) /\ move_of r s gid dst /\ gid <> 0%Z
| XInstall gid _ s data num =>
    exists r src, planned w r /\ num = sc_Num (mr_To r) /\ move_of r s src gid /\ gid <> 0%Z /\
      if decide (src = 0%Z) then data = [] else (s, num, data) ∈ xw_frozen w
| XDelete gid _ s num =>
    exists r dst, planned w r /\ num = sc_Num (mr_To r) /\ move_of r s gid dst /\ gid <> 0%Z /\
      installed (xw_done w) r
end.

(** ** Growth *)

(** [w'] has more versions, data and installs. *)
Record grows (w w' : xworld) : Prop := {
gr_hist : xw_hist w `prefix_of` xw_hist w';
gr_frozen : xw_frozen w ⊆ xw_frozen w';
gr_done : xw_done w ⊆ xw_done w';
}.

Lemma grows_refl w : grows w w.
Proof. by constructor. Qed.

Lemma grows_trans w1 w2 w3 : grows w1 w2 -> grows w2 w3 -> grows w1 w3.
Proof. intros [? ? ?] [? ? ?]. constructor; [by etrans|by etrans|by etrans]. Qed.

(** What the others do: every new version is owned by somebody else. *)
Definition xenv (me : string) (w w' : xworld) : Prop :=
grows w w' /\ winv w' /\
forall n st, length (xw_hist w) <= n -> st_at w' n st -> cs_Owner st <> me.

Lemma st_at_grows w w' n st : grows w w' -> st_at w n st -> st_at w' n st.
Proof. intros [Hp _ _] (s & Hs & Hu). exists s. split; [|done]. by eapply prefix_lookup_Some. Qed.

Lemma st_at_fun w n st1 st2 : st_at w n st1 -> st_at w n st2 -> st1 = st2.
Proof. intros (s1 & H1 & U1) (s2 & H2 & U2). congruence. Qed.

Lemma st_at_lt w n st : st_at w n st -> n < length (xw_hist w).
Proof. intros (s & H & _). by eapply lookup_lt_Some. Qed.

Lemma st_at_old w w' n st : grows w w' -> n < length (xw_hist w) -> st_at w' n st -> st_at w n st.
Proof.
  intros [[l Hl] _ _] Hn (s & H & U). exists s. split; [|done]. rewrite Hl, lookup_app_l in H; done.
Qed.

Lemma planned_grows w w' r : grows w w' -> planned w r -> planned w' r.
Proof. intros Hg (n & st & H & Hp). exists n, st. split; [by eapply st_at_grows|done]. Qed.

Lemma installed_mono d d' r : d ⊆ d' -> installed d r -> installed d' r.
Proof. intros Hs H s src dst Hm Hd. apply Hs. by eapply H. Qed.

Lemma valid_mono d d' st : d ⊆ d' -> valid_state d st -> valid_state d' st.
Proof.
  intros Hs [H1 H2 H3]. constructor; auto. intros r Hr. destruct (H3 r Hr) as (? & ? & Hc).
  split_and!; auto; try tauto. destruct Hc as [?|[? ?]]; [by left|right]. split; [done|by eapply installed_mono].
Qed.

Lemma xenv_refl me w : winv w -> xenv me w w.
Proof. intros H. split_and!; [apply grows_refl|done|]. intros n st Hn Hst%st_at_lt. lia. Qed.

Lemma xenv_trans me w1 w2 w3 : xenv me w1 w2 -> xenv me w2 w3 -> xenv me w1 w3.
Proof.
  intros (G1 & _ & H1) (G2 & I2 & H2). split_and!; [by eapply grows_trans|done|].
  intros n st Hn Hst. destruct (decide (length (xw_hist w2) <= n)) as [|Hlt]; [by eapply H2|].
  eapply H1; [done|]. eapply st_at_old; [done|lia|done].
Qed.

Lemma xenv_rtc me w w' : winv w -> rtc (xenv me) w w' -> xenv me w w'.
Proof.
  intros HI Hr. revert HI. induction Hr as [w|w w1 w2 H _ IH]; intros HI; [by apply xenv_refl|].
  eapply xenv_trans; [exact H|]. apply IH, H.
Qed.

(** [me] wrote version [version], [st], and nothing after it. *)
Definition owns (me : string) (w : xworld) (st : controllerState) (version : Tversion) : Prop :=
exists n, version = N.of_nat (S n) /\ st_at w n st /\ cs_Owner st = me /\
  forall k st', n < k -> st_at w k st' -> cs_Owner st' <> me.

Lemma owns_env me w w' st v : xenv me w w' -> owns me w st v -> owns me w' st v.
Proof.
  intros (G & _ & H) (n & Hv & Hst & Ho & Hl). exists n. split_and!; auto; [by eapply st_at_grows|].
  intros k st' Hk Hst'. destruct (decide (length (xw_hist w) <= k)) as [|Hlt]; [by eapply H|].
  eapply Hl; [exact Hk|]. eapply st_at_old; [done|lia|done].
Qed.

Lemma owns_unique me w st1 v1 st2 v2 : owns me w st1 v1 -> owns me w st2 v2 -> st1 = st2 /\ v1 = v2.
Proof.
  intros (n1 & -> & H1 & O1 & L1) (n2 & -> & H2 & O2 & L2).
  destruct (lt_eq_lt_dec n1 n2) as [[Hlt| ->]|Hlt].
  - by destruct (L1 _ _ Hlt H2).
  - split; [by eapply st_at_fun|done].
  - by destruct (L2 _ _ Hlt H1).
Qed.

Lemma owns_valid me w st v : winv w -> owns me w st v -> valid_state (xw_done w) st.
Proof.
  intros HI (n & _ & (s & Hs & Hu) & _). destruct (wi_state _ HI _ _ Hs) as (st' & Hu' & ?). congruence.
Qed.

Lemma owns_planned me w st v r : owns me w st v -> cs_Pending st = Some r -> planned w r.
Proof. intros (n & _ & H & _) Hp. by exists n, st. Qed.

(** ** Steps of the world *)

Lemma xpush_inv me value version w :
  winv w -> xallowed me w (XPut value version) -> version = N.of_nat (length (xw_hist w)) -> winv (xpush value w).
Proof.
  intros [H1 H2 H3] (st' & Hu & Ho & Hval & H0 & Htr) ->.
  assert (grows w (xpush value w)) as G by (constructor; simpl; [by apply prefix_app_r|done|done]).
  assert (forall n st, st_at (xpush value w) n st ->
    (n < length (xw_hist w) /\ st_at w n st) \/ (n = length (xw_hist w) /\ st = st')) as Hcase.
  { intros n st Hst. pose proof (st_at_lt _ _ _ Hst) as Hlt. simpl in Hlt. rewrite length_app in Hlt. simpl in Hlt.
    destruct (decide (n < length (xw_hist w))) as [Hn|Hn]; [left; split; [done|by eapply st_at_old]|right].
    assert (n = length (xw_hist w)) as -> by lia. split; [done|]. destruct Hst as (s & Hs & Us). simpl in Hs.
    rewrite lookup_app_r, Nat.sub_diag in Hs by lia. injection Hs as <-. congruence. }
  constructor; simpl.
  - intros n s [Hs|[Hn Hs]]%lookup_app_Some; [by apply (H1 n)|].
    apply list_lookup_singleton_Some in Hs as [_ <-]. by exists st'.
  - intros st Hst. destruct (Hcase _ _ Hst) as [[_ ?]|[Hn ->]]; [by apply H2|]. apply H0. by rewrite <- Hn.
  - intros n st st2 Ha Hb. destruct (Hcase _ _ Hb) as [[Hlt Hb']|[Hn ->]].
    + destruct (Hcase _ _ Ha) as [[_ Ha']|[Hn _]]; [by eapply H3|lia].
    + destruct (Hcase _ _ Ha) as [[_ Ha']|[Hn' _]]; [|lia]. apply (Htr n); [by rewrite Hn|done].
Qed.

Lemma xpush_grows value w : grows w (xpush value w).
Proof. constructor; simpl; [by apply prefix_app_r|done|done]. Qed.

Lemma more_done_inv w d f : winv w -> xw_done w ⊆ d -> winv (mkXworld (xw_hist w) f d).
Proof.
  intros [H1 H2 H3] Hd. constructor; [|exact H2|exact H3].
  simpl. intros n s Hs. destruct (H1 n s Hs) as (st & ? & ?). exists st. split; [done|by eapply valid_mono].
Qed.

(** An allowed effect keeps the invariant, and is harmless to the others. *)
Lemma xanswer_inv me w e r w' :
  winv w -> xallowed me w e -> xanswer w e r w' ->
  winv w' /\ grows w w' /\
  (forall n st, length (xw_hist w) <= n -> st_at w' n st -> cs_Owner st = me).
Proof.
  intros HI Ha H.
  assert (forall w2, xw_hist w2 = xw_hist w -> forall n st, length (xw_hist w) <= n -> st_at w2 n st -> cs_Owner st = me) as Hno.
  { intros w2 Heq n st Hn Hst%st_at_lt. rewrite Heq in Hst. lia. }
  destruct e; simpl in H.
  - destruct H as [-> _]. split_and!; [done|apply grows_refl|by apply Hno].
  - destruct H as [(_ & Hv & ->)|[_ ->]]; [|split_and!; [done|apply grows_refl|by apply Hno]].
    split_and!; [by eapply xpush_inv|apply xpush_grows|].
    intros n st Hn (s & Hs & Hu). destruct Ha as (st' & Hu' & Ho & _). simpl in Hs.
    rewrite lookup_app_r in Hs by done. apply list_lookup_singleton_Some in Hs as [_ <-]. congruence.
  - subst w'. split_and!; [by apply more_done_inv| |by apply Hno].
    constructor; simpl; [done| |done]. case_decide; set_solver.
  - subst w'. assert (xw_done w ⊆ if decide (r.1 = OK) then (shard, num) :: xw_done w else xw_done w) as Hs.
    { case_decide; set_solver. }
    split_and!; [by apply more_done_inv| |by apply Hno]. by constructor.
  - subst w'. split_and!; [done|apply grows_refl|by apply Hno].
Qed.

(** ** The programs of a controller *)

Section programs.
Context (me : string).

Abbreviation ctl_prog := (prog ctl_resp).
Abbreviation xsafe := (safe (xenv me) xanswer (xallowed me)).

Lemma ret_xsafe {A} (a : A) (Q : xworld -> A -> Prop) w :
  winv w -> (forall w1, xenv me w w1 -> Q w1 a) -> xsafe (Ret a) Q w.
Proof. intros HI HQ w1 Hw1. apply HQ. by apply xenv_rtc. Qed.

(** A call on a group: it writes no version. *)
Lemma call_xsafe {A} e (k : ctl_resp e -> ctl_prog A) Q w :
  winv w -> (forall v ver, e <> XPut v ver) ->
  (forall w1, xenv me w w1 -> xallowed me w1 e /\
     forall r w2, xanswer w1 e r w2 -> xenv me w w2 -> xsafe (k r) Q w2) ->
  xsafe (Call e k) Q w.
Proof.
  intros HI He Hk w1 Hw1%xenv_rtc; [|done]. destruct (Hk w1 Hw1) as [Ha Hs]. split; [done|].
  intros r w2 Hr. apply Hs; [done|]. eapply xenv_trans; [exact Hw1|].
  destruct (xanswer_inv me _ _ _ _ (proj1 (proj2 Hw1)) Ha Hr) as (HI2 & G & _). split_and!; [done|done|].
  assert (xw_hist w2 = xw_hist w1) as Hh.
  { destruct e; simpl in Hr; try (by subst w2); [by destruct Hr as [-> _]|by destruct (He value version)]. }
  intros n st Hn Hst%st_at_lt. rewrite Hh in Hst. lia.
Qed.

(** The version read was the last one, and the others wrote whatever came after. *)
Definition read_post (w0 w : xworld) (r : option controllerState * Tversion * Err) : Prop :=
xenv me w0 w /\
match r with
| (Some st, version, OK) => exists n, version = N.of_nat (S n) /\ st_at w n st /\
    forall k st', n < k -> st_at w k st' -> cs_Owner st' <> me
| (None, _, e) => e <> OK
| _ => False
end.

Lemma readState_safe w : winv w -> xsafe readState (read_post w) w.
Proof.
  intros HI. apply call_xsafe; [done|done|]. intros w1 H1. split; [done|]. intros r w2 Hr H2.
  destruct Hr as [-> Hl]. pose proof (proj1 (proj2 H1)) as HI1.
  destruct (last (xw_hist w1)) as [s|] eqn:Hlast; subst r.
  - rewrite last_lookup in Hlast. destruct (wi_state _ HI1 _ _ Hlast) as (st & Hu & _).
    rewrite decide_False by (by intros ?). rewrite Hu. apply ret_xsafe; [done|]. intros w3 H3.
    split; [by eapply xenv_trans|]. pose proof (lookup_lt_Some _ _ _ Hlast) as Hlt.
    exists (Nat.pred (length (xw_hist w1))). split_and!; [f_equal; lia|eapply st_at_grows; [apply H3|by exists s]|].
    intros k st' Hk Hst. destruct H3 as (_ & _ & H3). eapply H3; [|exact Hst]. lia.
  - rewrite decide_True by done. apply ret_xsafe; [done|]. intros w3 H3. split; [by eapply xenv_trans|done].
Qed.

(** ** Conditional puts *)

(** A put of [st] at [version] that is allowed from [w] on. *)
Definition put_ok (w : xworld) (version : Tversion) (st : controllerState) : Prop :=
state_text st /\ cs_Owner st = me /\ valid_state (xw_done w) st /\
(version = 0%N -> cs_Pending st = None) /\
forall n st0, version = N.of_nat (S n) -> st_at w n st0 -> ctl_trans st0 st.

Lemma valid_text d st : valid_state d st -> state_text st.
Proof.
  intros [H1 [H2 _] H3]. split_and!; [done|apply H2|]. intros r Hr.
  destruct (H3 r Hr) as ((Ha & Hb & _) & _). split; [apply Ha|apply Hb].
Qed.

Definition cas_post (w0 : xworld) (st : controllerState) (w : xworld) (b : bool) : Prop :=
grows w0 w /\ winv w /\ (b = true -> exists v, owns me w st v).

Lemma compareAndSwap_safe (L : ConfigJsonLaws) version st w :
  winv w -> (forall w1, xenv me w w1 -> put_ok w1 version st) ->
  xsafe (compareAndSwap version st) (cas_post w st) w.
Proof.
  intros HI Hok w1 Hw1%xenv_rtc; [|done]. pose proof Hw1 as (G1 & HI1 & _).
  destruct (Hok w1 Hw1) as (Ht & Ho & Hv & H0 & Htr).
  assert (unmarshal (marshal st) = Some st) as Hu by (by apply unmarshal_marshal).
  assert (xallowed me w1 (XPut (marshal st) version)) as Ha by (exists st; by split_and!).
  split; [done|]. intros r w2 Hr.
  destruct (xanswer_inv me _ _ _ _ HI1 Ha Hr) as (HI2 & G2 & _).
  pose proof (grows_trans _ _ _ G1 G2) as G12.
  case_decide as Hr1; [|case_decide as Hr2].
  - apply ret_xsafe; [done|]. intros w3 H3. split_and!; [eapply grows_trans; [exact G12|apply H3]|apply H3|].
    intros _. destruct Hr as [(_ & -> & ->)|[[?|[?|?]] _]]; [|congruence..].
    exists (N.of_nat (S (length (xw_hist w1)))). eapply owns_env; [exact H3|].
    exists (length (xw_hist w1)). split_and!; [done| |done|].
    + exists (marshal st). split; [|done]. simpl. by rewrite lookup_app_r, Nat.sub_diag by lia.
    + intros k st' Hk Hst%st_at_lt. simpl in Hst. rewrite length_app in Hst. simpl in Hst. lia.
  - apply ret_xsafe; [done|]. intros w3 H3. split_and!; [eapply grows_trans; [exact G12|apply H3]|apply H3|done].
  - eapply safe_bind; [by apply readState_safe|]. intros w3 [[stored v] e] [H3 Hp].
    apply ret_xsafe; [apply H3|]. intros w4 H4.
    split_and!; [eapply grows_trans; [exact G12|eapply grows_trans; [apply H3|apply H4]]|apply H4|].
    intros [He%bool_decide_eq_true Hs%bool_decide_eq_true]%andb_true_iff. subst e stored.
    destruct Hp as (n & -> & Hst & Hlast). exists (N.of_nat (S n)). eapply owns_env; [exact H4|].
    exists n. by split_and!.
Qed.

Definition owned_post (w0 w : xworld) (r : ShardCtrlerObj * option (controllerState * Tversion)) : Prop :=
xenv me w0 w /\ ctl_id r.1 = me /\ match r.2 with Some (st, v) => owns me w st v | None => True end.

Lemma readOwned_safe sck w : winv w -> ctl_id sck = me -> xsafe (readOwned sck) (owned_post w) w.
Proof.
  intros HI Hid. unfold readOwned. destruct (ctl_deposed sck); [by apply ret_xsafe|].
  eapply safe_bind; [by apply readState_safe|]. intros w1 [[st v] e] [H1 Hp].
  assert (forall sck', ctl_id sck' = me -> xsafe (Ret (sck', None)) (owned_post w) w1) as Hnone.
  { intros sck' Hs. apply (ret_xsafe (A := ShardCtrlerObj * option (controllerState * Tversion))); [apply H1|].
    intros w2 H2. split_and!; [by eapply xenv_trans|done|done]. }
  destruct st as [st|]; [|destruct e; by apply Hnone]. destruct e; try by apply Hnone.
  case_decide as Hc; [by apply Hnone|].
  apply (ret_xsafe (A := ShardCtrlerObj * option (controllerState * Tversion))); [apply H1|].
  intros w2 H2. split_and!; [by eapply xenv_trans|done|]. simpl.
  destruct Hp as (n & -> & Hst & Hlast). eapply owns_env; [exact H2|]. exists n. split_and!; auto.
  destruct (decide (cs_Owner st = ctl_id sck)); [congruence|tauto].
Qed.

(** ** Migration *)

Lemma groupClerkFor_some gid c clerks :
  cfg_good c -> gid ∈ sc_Shards c -> gid <> 0%Z -> is_Some (groupClerkFor gid c clerks).
Proof.
  intros Hc Hin Hz. unfold groupClerkFor. destruct (clerks !! gid); [eauto|].
  destruct (cg_servers _ Hc _ Hin Hz) as (servers & -> & Hne). simpl. rewrite decide_False; [eauto|].
  by destruct servers.
Qed.

Lemma drop_cons {A} (l l' : list A) i x :
  (0 <= i)%Z -> drop (Z.to_nat i) l = x :: l' -> zlookup l i = Some x /\ drop (Z.to_nat (i + 1)) l = l'.
Proof.
  intros Hi H. rewrite zlookup_lookup by done.
  assert (l !! Z.to_nat i = Some x) as Hx by (rewrite <- (Nat.add_0_r (Z.to_nat i)), <- lookup_drop, H; done).
  split; [done|]. replace (Z.to_nat (i + 1)) with (S (Z.to_nat i)) by lia.
  rewrite (drop_S _ _ _ Hx) in H. by injection H.
Qed.

Section migration.
Context (r : migrationRecord).

Definition rec_good : Prop := cfg_good (mr_From r) /\ cfg_good (mr_To r).

Definition installed_below (w : xworld) (i : Z) : Prop :=
forall s src dst, (s < i)%Z -> move_of r s src dst -> dst <> 0%Z -> (s, sc_Num (mr_To r)) ∈ xw_done w.

Lemma installed_below_grows w w' i : grows w w' -> installed_below w i -> installed_below w' i.
Proof. intros [_ _ Hd] H s src dst Hs Hm Hz. apply Hd. by eapply H. Qed.

Definition migrate_post (w0 w : xworld) (res : ShardCtrlerObj * option (gmap Tgid (list string))) : Prop :=
xenv me w0 w /\ ctl_id res.1 = me /\ match res.2 with Some _ => installed (xw_done w) r | None => True end.

Lemma installed_below_next w i source target :
  zlookup (sc_Shards (mr_From r)) i = Some source -> zlookup (sc_Shards (mr_To r)) i = Some target ->
  installed_below w i -> (source = target \/ target = 0%Z \/ (i, sc_Num (mr_To r)) ∈ xw_done w) ->
  installed_below w (i + 1).
Proof.
  intros Ha Hb H Hc s src dst Hs (H1 & H2 & H3) Hz. destruct (decide (s < i)%Z) as [Hlt|Hge].
  - eapply H; [exact Hlt| |exact Hz]. by split_and!.
  - assert (s = i) as -> by lia. destruct Hc as [?|[?|?]]; [congruence|congruence|done].
Qed.

Lemma migrate_loop_safe w0 sources : forall i targets clerks sck w,
  rec_good -> (0 <= i)%Z -> sources = drop (Z.to_nat i) (sc_Shards (mr_From r)) ->
  targets = drop (Z.to_nat i) (sc_Shards (mr_To r)) ->
  xenv me w0 w -> planned w r -> installed_below w i -> ctl_id sck = me ->
  xsafe (migrate_loop r i sources targets clerks sck) (migrate_post w0) w.
Proof.
  induction sources as [|source sources IH]; intros i targets clerks sck w Hg Hi Hs Ht Hw Hp Hb Hid.
  { apply (ret_xsafe (A := ShardCtrlerObj * option (gmap Tgid (list string)))); [apply Hw|]. intros w1 H1.
    split_and!; [by eapply xenv_trans|done|]. simpl. intros s src dst Hm Hz.
    eapply installed_below_grows; [apply H1|exact Hb| |exact Hm|exact Hz].
    pose proof Hm as (Hl & _ & _). pose proof (zlookup_Some_range _ _ _ Hl) as Hr. unfold zlen in Hr.
    symmetry in Hs. apply (f_equal length) in Hs. rewrite length_drop in Hs. simpl in Hs. lia. }
  destruct Hg as [Hgf Hgt].
  assert (exists target targets', targets = target :: targets') as (target & targets' & ->).
  { apply (f_equal length) in Hs. rewrite length_drop in Hs. simpl in Hs.
    destruct targets; [|eauto]. symmetry in Ht. apply (f_equal length) in Ht. rewrite length_drop in Ht. simpl in Ht.
    rewrite (cg_len _ Hgf) in Hs. rewrite (cg_len _ Hgt) in Ht. lia. }
  symmetry in Hs, Ht. destruct (drop_cons _ _ _ _ Hi Hs) as [Hsi Hs']. destruct (drop_cons _ _ _ _ Hi Ht) as [Hti Ht'].
  cbn [migrate_loop]. case_decide as Heq.
  { apply IH; auto; [by split|lia|]. eapply installed_below_next; eauto. }
  assert (forall w' sck' ck, xenv me w0 w' -> planned w' r -> installed_below w' i -> ctl_id sck' = me ->
    (target = 0%Z \/ (i, sc_Num (mr_To r)) ∈ xw_done w') ->
    xsafe (migrate_loop r (i + 1) sources targets' ck sck') (migrate_post w0) w') as Hnext.
  { intros w' sck' ck H1 H2 H3 H4 H5. apply IH; auto; [by split|lia|]. eapply installed_below_next; eauto. }
  assert (forall w' sck' ck data, xenv me w0 w' -> planned w' r -> installed_below w' i -> ctl_id sck' = me ->
    (if decide (source = 0%Z) then data = [] else (i, sc_Num (mr_To r), data) ∈ xw_frozen w') ->
    xsafe (if decide (target = 0%Z) then migrate_loop r (i + 1) sources targets' ck sck'
           else match groupClerkFor target (mr_To r) ck with
                | None => Panic
                | Some (clerks', servers) =>
                    Call (XInstall target servers i data (sc_Num (mr_To r))) (fun x : Err * bool =>
                      if decide (x.1 <> OK) then Ret (set_deposed x.2 sck', None)
                      else migrate_loop r (i + 1) sources targets' clerks' (set_deposed x.2 sck'))
                end) (migrate_post w0) w') as Hinstall.
  { intros w' sck' ck data H1 H2 H3 H4 H5. destruct (decide (target = 0%Z)) as [Htz|Htz]; [by apply Hnext; auto|].
    destruct (groupClerkFor_some target (mr_To r) ck Hgt (zlookup_elem _ _ _ Hti) Htz) as [[ck' servers] ->].
    apply call_xsafe; [apply H1|done|]. intros w1 Hw1. split.
    { exists r, source. split_and!; auto; [eapply planned_grows; [apply Hw1|done]|by split_and!|].
      destruct (decide (source = 0%Z)); [done|]. apply Hw1. done. }
    intros x w2 Hx Hw2. pose proof (xenv_trans _ _ _ _ H1 Hw2) as H02. destruct (decide (x.1 <> OK)) as [Hxe|Hxe].
    - apply (ret_xsafe (A := ShardCtrlerObj * option (gmap Tgid (list string)))); [apply H02|].
      intros w3 H03. split_and!; [by eapply xenv_trans|done|done].
    - apply Hnext; auto; [eapply planned_grows; [apply Hw2|done]|eapply installed_below_grows; [apply Hw2|done]|].
      right. simpl in Hx. subst w2. simpl. rewrite decide_True by (by destruct (decide (x.1 = OK)); [|tauto]). left. }
  case_decide as Hsz; [by apply Hinstall|].
  destruct (groupClerkFor_some source (mr_From r) clerks Hgf (zlookup_elem _ _ _ Hsi) Hsz) as [[ck' servers] ->].
  apply call_xsafe; [apply Hw|done|]. intros w1 Hw1. split.
  { exists r, target. split_and!; auto; [eapply planned_grows; [apply Hw1|done]|by split_and!]. }
  intros [[data err] d] w2 Hx Hw2. pose proof (xenv_trans _ _ _ _ Hw Hw2) as H02. destruct (decide (err <> OK)) as [Hxe|Hxe].
  - apply (ret_xsafe (A := ShardCtrlerObj * option (gmap Tgid (list string)))); [apply H02|].
    intros w3 H03. split_and!; [by eapply xenv_trans|done|done].
  - apply Hinstall; auto; [eapply planned_grows; [apply Hw2|done]|eapply installed_below_grows; [apply Hw2|done]|].
    simpl in Hx. subst w2. simpl.
    rewrite decide_True by (by destruct (decide (err = OK)); [|tauto]). left.
Qed.

Definition delete_post (w0 w : xworld) (res : ShardCtrlerObj * bool) : Prop := xenv me w0 w /\ ctl_id res.1 = me.

Lemma delete_loop_safe w0 sources : forall i targets clerks sck w,
  rec_good -> (0 <= i)%Z -> sources = drop (Z.to_nat i) (sc_Shards (mr_From r)) ->
  targets = drop (Z.to_nat i) (sc_Shards (mr_To r)) ->
  xenv me w0 w -> planned w r -> installed (xw_done w) r -> ctl_id sck = me ->
  xsafe (delete_loop r i sources targets clerks sck) (delete_post w0) w.
Proof.
  induction sources as [|source sources IH]; intros i targets clerks sck w Hg Hi Hs Ht Hw Hp Hb Hid.
  { apply (ret_xsafe (A := ShardCtrlerObj * bool)); [apply Hw|]. intros w1 H1. split; [by eapply xenv_trans|done]. }
  destruct targets as [|target targets'].
  { apply (ret_xsafe (A := ShardCtrlerObj * bool)); [apply Hw|]. intros w1 H1. split; [by eapply xenv_trans|done]. }
  symmetry in Hs, Ht. destruct (drop_cons _ _ _ _ Hi Hs) as [Hsi Hs']. destruct (drop_cons _ _ _ _ Hi Ht) as [Hti Ht'].
  cbn [delete_loop]. case_decide as Heq; [apply IH; auto; lia|].
  assert (source <> 0%Z /\ source <> target) as [Hsz Hne] by tauto.
  destruct (groupClerkFor_some source (mr_From r) clerks (proj1 Hg) (zlookup_elem _ _ _ Hsi) Hsz) as [[ck' servers] ->].
  apply call_xsafe; [apply Hw|done|]. intros w1 Hw1. split.
  { exists r, target. split_and!; auto; [eapply planned_grows; [apply Hw1|done]|by split_and!|].
    eapply installed_mono; [apply Hw1|exact Hb]. }
  intros x w2 Hx Hw2. pose proof (xenv_trans _ _ _ _ Hw Hw2) as H02. destruct (decide (x.1 <> OK)).
  - apply (ret_xsafe (A := ShardCtrlerObj * bool)); [apply H02|]. intros w3 H03. split; [by eapply xenv_trans|done].
  - apply IH; auto; [lia|eapply planned_grows; [apply Hw2|done]|]. eapply installed_mono; [apply Hw2|exact Hb].
Qed.
End migration.

(** ** Recovery *)

Lemma owns_at w st v n st0 : owns me w st v -> v = N.of_nat (S n) -> st_at w n st0 -> st0 = st.
Proof.
  intros (k & Hv & Hst & _) -> H0. assert (k = n) as -> by lia. by eapply st_at_fun.
Qed.

Lemma Copy_id c : is_Some (sc_Groups c) -> Copy c = c.
Proof. intros [g Hg]. destruct c as [num sh gs]. simpl in Hg. subst. done. Qed.

Lemma cfg_good_Copy c : cfg_good c -> cfg_good (Copy c).
Proof. intros [H1 H2 H3]. by constructor. Qed.

(** The record [me] owns names a good plan. *)
Lemma owns_pending w st v r : winv w -> owns me w st v -> cs_Pending st = Some r ->
  rec_good r /\ Copy (mr_To r) = mr_To r /\ mr_From r <> mr_To r /\
  (cs_Current st = mr_From r \/ (cs_Current st = mr_To r /\ installed (xw_done w) r)).
Proof.
  intros HI Ho Hp. destruct (vs_pending _ _ (owns_valid _ _ _ _ HI Ho) r Hp) as ((Ha & Hb & Hg) & Hn & Hc).
  split_and!; [by split|by apply Copy_id| |done]. intros He. rewrite He in Hn. lia.
Qed.

(** A put over the record [me] owns. *)
Lemma put_ok_owned w st v st' :
  winv w -> owns me w st v -> ctl_trans st st' -> cs_Owner st' = cs_Owner st -> valid_state (xw_done w) st' ->
  forall w1, xenv me w w1 -> put_ok w1 v st'.
Proof.
  intros HI Ho Htr How Hval w1 H1. pose proof (owns_env _ _ _ _ _ H1 Ho) as Ho1.
  assert (valid_state (xw_done w1) st') as Hv1 by (eapply valid_mono; [apply H1|done]).
  split_and!; [by eapply valid_text| |done| |].
  - rewrite How. by destruct Ho as (n & _ & _ & ? & _).
  - destruct Ho as (n & -> & _). lia.
  - intros n st0 Hn Hst. by rewrite (owns_at _ _ _ _ _ Ho1 Hn Hst).
Qed.

Definition recover_post (w0 w : xworld) (r : ShardCtrlerObj * bool) : Prop :=
grows w0 w /\ winv w /\ ctl_id r.1 = me /\ (r.2 = true -> exists st v, owns me w st v /\ cs_Pending st = None).

Lemma ret_recover (sck : ShardCtrlerObj) w0 w :
  grows w0 w -> winv w -> ctl_id sck = me -> xsafe (Ret (sck, false)) (recover_post w0) w.
Proof.
  intros G HI Hid. apply (ret_xsafe (A := ShardCtrlerObj * bool)); [done|]. intros w1 H1.
  split_and!; [eapply grows_trans; [done|apply H1]|apply H1|done|done].
Qed.

Lemma cas_owns_ret (sck : ShardCtrlerObj) w0 w st b :
  grows w0 w -> winv w -> (b = true -> exists v, owns me w st v) -> cs_Pending st = None -> ctl_id sck = me ->
  xsafe (Ret (sck, b)) (recover_post w0) w.
Proof.
  intros G HI Hb Hp Hid. apply (ret_xsafe (A := ShardCtrlerObj * bool)); [done|]. intros w1 H1.
  split_and!; [eapply grows_trans; [done|apply H1]|apply H1|done|].
  simpl. intros ->. destruct (Hb eq_refl) as [v Ho]. exists st, v. split; [by eapply owns_env|done].
Qed.

Lemma finish_migration_safe (L : ConfigJsonLaws) record clerks sck w0 w :
  grows w0 w -> winv w -> ctl_id sck = me -> xsafe (finish_migration record clerks sck) (recover_post w0) w.
Proof.
  intros G HI Hid. eapply safe_bind; [by apply readOwned_safe|].
  intros w1 [sck1 [[state version]|]] (H1 & Hid1 & Ho); simpl in Hid1, Ho; pose proof H1 as (G1 & HI1 & _);
    [|apply ret_recover; [by eapply grows_trans|done|done]].
  case_decide as Hc; [apply ret_recover; [by eapply grows_trans|done|done]|].
  assert (cs_Pending state = Some record /\ cs_Current state = mr_To record) as [Hp Hcur].
  { destruct (decide (cs_Pending state = Some record)), (decide (cs_Current state = mr_To record)); tauto. }
  destruct (owns_pending _ _ _ _ HI1 Ho Hp) as (Hg & _ & Hft & Hcase).
  assert (installed (xw_done w1) record) as Hin by (destruct Hcase as [?|[_ ?]]; [congruence|done]).
  eapply safe_bind.
  { apply (delete_loop_safe record w1); auto; [lia|by apply xenv_refl|by eapply owns_planned]. }
  intros w2 [sck2 b2] [H2 Hid2]. simpl in Hid2. pose proof H2 as (G2 & HI2 & _).
  destruct b2; [|apply ret_recover; [eapply grows_trans; [done|by eapply grows_trans]|done|done]].
  pose proof (owns_env _ _ _ _ _ H2 Ho) as Ho2. eapply safe_bind.
  { apply (compareAndSwap_safe L); [done|]. eapply put_ok_owned; [done|exact Ho2|by eapply T_clear|done|].
    destruct (owns_valid _ _ _ _ HI2 Ho2) as [V1 V2 _]. by constructor. }
  intros w3 b3 (G3 & HI3 & Hb3). eapply cas_owns_ret; [|done|exact Hb3|done|done].
  eapply grows_trans; [done|]. eapply grows_trans; [done|]. by eapply grows_trans.
Qed.

Lemma recoverPendingLocked_safe (L : ConfigJsonLaws) sck w :
  winv w -> ctl_id sck = me -> xsafe (recoverPendingLocked sck) (recover_post w) w.
Proof.
  intros HI Hid. eapply safe_bind; [by apply readOwned_safe|].
  intros w1 [sck1 [[state version]|]] (H1 & Hid1 & Ho); simpl in Hid1, Ho; pose proof H1 as (G1 & HI1 & _);
    [|by apply ret_recover].
  destruct (cs_Pending state) as [record|] eqn:Hp.
  2:{ apply (ret_xsafe (A := ShardCtrlerObj * bool)); [done|]. intros w2 H2.
      split_and!; [eapply grows_trans; [done|apply H2]|apply H2|done|].
      intros _. exists state, version. split; [by eapply owns_env|done]. }
  destruct (owns_pending _ _ _ _ HI1 Ho Hp) as (Hg & Hcopy & Hft & _).
  case_decide as Hcur; [|by apply finish_migration_safe].
  eapply safe_bind.
  { apply (migrate_loop_safe record w1); auto; [lia|by apply xenv_refl|by eapply owns_planned|].
    intros s src dst Hs (Hl & _). apply zlookup_Some_range in Hl. lia. }
  intros w2 [sck2 [clerks|]] (H2 & Hid2 & Hin); simpl in Hid2, Hin; pose proof H2 as (G2 & HI2 & _);
    [|apply ret_recover; [by eapply grows_trans|done|done]].
  pose proof (owns_env _ _ _ _ _ H2 Ho) as Ho2. rewrite Hcopy. eapply safe_bind.
  { apply (compareAndSwap_safe L); [done|]. eapply put_ok_owned; [done|exact Ho2|by eapply T_publish|done|].
    pose proof (owns_valid _ _ _ _ HI2 Ho2) as [V1 V2 V3]. destruct (V3 record Hp) as ((Va & Vb & Vc) & Vn & _).
    constructor; simpl; [done|done|]. intros r Hr. rewrite Hp in Hr. injection Hr as <-. split_and!; auto. }
  intros w3 [|] (G3 & HI3 & _).
  - apply (finish_migration_safe L); [|done|done]. eapply grows_trans; [done|by eapply grows_trans].
  - apply ret_recover; [eapply grows_trans; [done|by eapply grows_trans]|done|done].
Qed.

(** ** Leadership *)

Definition lead_post (w0 w : xworld) (r : ShardCtrlerObj * bool) : Prop := grows w0 w /\ winv w /\ ctl_id r.1 = me.

Lemma ret_lead (sck : ShardCtrlerObj) b w0 w :
  grows w0 w -> winv w -> ctl_id sck = me -> xsafe (Ret (sck, b)) (lead_post w0) w.
Proof.
  intros G HI Hid. apply (ret_xsafe (A := ShardCtrlerObj * bool)); [done|]. intros w1 H1.
  split_and!; [eapply grows_trans; [done|apply H1]|apply H1|done].
Qed.

Lemma elect_safe (L : ConfigJsonLaws) fuel sck w0 : forall w,
  json_text me -> grows w0 w -> winv w -> ctl_id sck = me -> xsafe (elect fuel sck) (lead_post w0) w.
Proof.
  induction fuel as [|fuel IH]; intros w Ht G HI Hid; [done|]. cbn [elect].
  eapply safe_bind; [by apply readState_safe|]. intros w1 [[st v] e] [H1 Hp]. pose proof H1 as (G1 & HI1 & _).
  pose proof (grows_trans _ _ _ G G1) as G01.
  destruct st as [st|]; [|destruct e; by apply ret_lead]. destruct e; try done.
  destruct Hp as (n & -> & Hst & Hlast). eapply safe_bind.
  { apply (compareAndSwap_safe L); [done|]. rewrite Hid. intros w2 H2.
    assert (valid_state (xw_done w2) st) as Hv.
    { destruct Hst as (s & Hs & Hu). destruct (wi_state _ HI1 _ _ Hs) as (st' & Hu' & Hv').
      assert (st' = st) as -> by congruence. eapply valid_mono; [apply H2|done]. }
    assert (valid_state (xw_done w2) (mkControllerState me (u64_inc (cs_Epoch st)) (cs_Current st) (cs_Pending st))) as Hv2.
    { destruct Hv. by constructor. }
    split_and!; [by eapply valid_text|done|done|lia|].
    intros k st0 Hk Hst0. assert (k = n) as -> by lia.
    rewrite (st_at_fun _ _ _ _ Hst0 (st_at_grows _ _ _ _ (proj1 H2) Hst)). apply T_take. }
  intros w2 [|] (G2 & HI2 & _).
  - apply ret_lead; [by eapply grows_trans|done|done].
  - apply IH; [done|by eapply grows_trans|done|done].
Qed.

Lemma ensureLeadershipLocked_safe (L : ConfigJsonLaws) fuel sck w :
  json_text me -> winv w -> ctl_id sck = me -> xsafe (ensureLeadershipLocked fuel sck) (lead_post w) w.
Proof.
  intros Ht HI Hid. unfold ensureLeadershipLocked. destruct (ctl_initialized sck).
  - eapply safe_bind; [by apply readOwned_safe|]. intros w1 [sck1 r1] (H1 & Hid1 & _).
    apply ret_lead; [apply H1|apply H1|done].
  - apply (elect_safe L); [done|apply grows_refl|done|done].
Qed.

(** ** Methods *)

Definition method_post (w : xworld) (sck : ShardCtrlerObj) : Prop := winv w /\ ctl_id sck = me.

Lemma ret_method sck w : winv w -> ctl_id sck = me -> xsafe (Ret sck) method_post w.
Proof. intros HI Hid. apply ret_xsafe; [done|]. intros w1 H1. split; [apply H1|done]. Qed.

Lemma InitConfig_safe (L : ConfigJsonLaws) cfg sck w :
  json_text me -> cfg_good cfg -> winv w -> ctl_id sck = me -> xsafe (InitConfig cfg sck) method_post w.
Proof.
  intros Ht Hg HI Hid. eapply safe_bind.
  - apply (compareAndSwap_safe L); [done|]. rewrite Hid. intros w1 H1.
    assert (valid_state (xw_done w1) (mkControllerState me 1 (Copy cfg) None)) as Hv.
    { constructor; simpl; [done|split; [by apply cfg_good_Copy|eauto]|done]. }
    split_and!; [by eapply valid_text|done|done|done|]. intros n st0 Hn. lia.
  - intros w1 b (_ & HI1 & _). destruct b; by apply ret_method.
Qed.

Lemma InitController_safe (L : ConfigJsonLaws) fuel sck w :
  json_text me -> winv w -> ctl_id sck = me -> xsafe (InitController fuel sck) method_post w.
Proof.
  intros Ht HI Hid. eapply safe_bind; [by apply ensureLeadershipLocked_safe|].
  intros w1 [sck1 [|]] (_ & HI1 & Hid1); [|by apply ret_method].
  eapply safe_bind; [by apply recoverPendingLocked_safe|]. intros w2 [sck2 b] (_ & HI2 & Hid2 & _). by apply ret_method.
Qed.

Lemma ChangeConfigTo_safe (L : ConfigJsonLaws) fuel next sck w :
  json_text me -> cfg_good next -> winv w -> ctl_id sck = me -> xsafe (ChangeConfigTo fuel next sck) method_post w.
Proof.
  intros Ht Hg HI Hid. eapply safe_bind; [by apply ensureLeadershipLocked_safe|].
  intros w1 [sck1 [|]] (_ & HI1 & Hid1); [|by apply ret_method].
  eapply safe_bind; [by apply recoverPendingLocked_safe|].
  intros w2 [sck2 [|]] (_ & HI2 & Hid2 & Hown); [|by apply ret_method]. simpl in Hid2, Hown.
  destruct (Hown eq_refl) as (st0 & v0 & Ho0 & Hp0).
  eapply safe_bind; [by apply readOwned_safe|].
  intros w3 [sck3 [[state version]|]] (H3 & Hid3 & Ho); simpl in Hid3, Ho; pose proof H3 as (_ & HI3 & _); [|by apply ret_method].
  destruct (owns_unique _ _ _ _ _ _ Ho (owns_env _ _ _ _ _ H3 Ho0)) as [-> ->].
  case_decide; [by apply ret_method|]. case_decide as Hnum; [by apply ret_method|].
  pose proof (owns_valid _ _ _ _ HI3 Ho) as [V1 [V2 V3] _]. rewrite (Copy_id _ V3).
  eapply safe_bind.
  { apply (compareAndSwap_safe L); [done|]. eapply put_ok_owned; [done|exact Ho|apply T_plan; [done|simpl; lia]|done|].
    constructor; simpl; [done|done|]. intros r [= <-]. simpl.
    split_and!; [done|by apply cfg_good_Copy|eauto|lia|by left]. }
  intros w4 [|] (_ & HI4 & _); [|by apply ret_method].
  eapply safe_bind; [by apply recoverPendingLocked_safe|]. intros w5 [sck5 b] (_ & HI5 & Hid5 & _). by apply ret_method.
Qed.

End programs.

(** ** Controllers side by side *)

(** The record with the running programs of the controllers, by identifier; an
    idle controller has returned. *)
Record xsys : Type := mkXsys { xs_world : xworld; xs_ctls : gmap string (prog ctl_resp ShardCtrlerObj) }.

(** The methods; configurations passed in have servers for their groups. *)
Inductive xcall (sck : ShardCtrlerObj) : prog ctl_resp ShardCtrlerObj -> Prop :=
| X_InitConfig cfg : cfg_good cfg -> xcall sck (InitConfig cfg sck)
| X_InitController fuel : xcall sck (InitController fuel sck)
| X_ChangeConfigTo fuel next : cfg_good next -> xcall sck (ChangeConfigTo fuel next sck).

Inductive xstep (s : xsys) : xsys -> Prop :=
| X_new id : xs_ctls s !! id = None -> json_text id ->
    xstep s (mkXsys (xs_world s) (<[id := Ret (MakeShardCtrler id)]> (xs_ctls s)))
| X_call id sck p : xs_ctls s !! id = Some (Ret sck) -> xcall sck p ->
    xstep s (mkXsys (xs_world s) (<[id := p]> (xs_ctls s)))
| X_eff id e k r w' : xs_ctls s !! id = Some (Call e k) -> xanswer (xs_world s) e r w' ->
    xstep s (mkXsys w' (<[id := k r]> (xs_ctls s))).

Definition xinit : xsys := mkXsys (mkXworld [] [] []) ∅.

Definition xinv (s : xsys) : Prop :=
winv (xs_world s) /\
forall id p, xs_ctls s !! id = Some p ->
  json_text id /\ safe (xenv id) xanswer (xallowed id) p (method_post id) (xs_world s).

Lemma xinv_init : xinv xinit.
Proof.
  split; [|intros id p H; simpl in H; by rewrite lookup_empty in H].
  constructor; simpl; [done|..].
  - intros st Hst%st_at_lt. simpl in Hst. lia.
  - intros n st st' Hst%st_at_lt. simpl in Hst. lia.
Qed.

Lemma xcall_safe (L : ConfigJsonLaws) id sck p w :
  json_text id -> ctl_id sck = id -> winv w -> xcall sck p ->
  safe (xenv id) xanswer (xallowed id) p (method_post id) w.
Proof.
  intros Ht Hid HI [cfg Hg|fuel|fuel next Hg].
  - by apply InitConfig_safe.
  - by apply InitController_safe.
  - by apply ChangeConfigTo_safe.
Qed.

Lemma xinv_step (L : ConfigJsonLaws) s s' : xinv s -> xstep s s' -> xinv s'.
Proof.
  intros [HI HS] [id Hn Ht|id sck p Hc Hp|id e k r w' Hc Ha].
  - split; [done|]. simpl. intros id' p [[<- <-]|[_ H]]%lookup_insert_Some; [|by apply HS].
    split; [done|]. by apply ret_method.
  - split; [done|]. simpl. destruct (HS _ _ Hc) as [Ht Hs].
    intros id' p' [[<- <-]|[_ H]]%lookup_insert_Some; [|by apply HS]. split; [done|].
    eapply (xcall_safe L); eauto. simpl in Hs. destruct (Hs (xs_world s)); [constructor|done].
  - destruct (HS _ _ Hc) as [Ht Hs]. simpl in Hs. destruct (Hs (xs_world s)) as [Hal Hk]; [constructor|].
    destruct (xanswer_inv id _ _ _ _ HI Hal Ha) as (HI' & G & Hown). split; [done|]. simpl.
    intros id' p' [[<- <-]|[Hne H]]%lookup_insert_Some; [split; auto|].
    destruct (HS _ _ H) as [Ht' Hs']. split; [done|]. eapply safe_env; [|exact Hs'].
    split_and!; [done|done|]. intros n st Hn Hst. rewrite (Hown n st Hn Hst). done.
Qed.

Lemma xinv_reachable (L : ConfigJsonLaws) s : rtc xstep xinit s -> xinv s.
Proof. intros H. eapply (invariant_rtc xstep xinv); [intros ? ?; by apply xinv_step|exact H|apply xinv_init]. Qed.

(** ** One plan per configuration number *)

(** The number of the last configuration planned. *)
Definition plan_num (st : controllerState) : Z :=
match cs_Pending st with Some r => sc_Num (mr_To r) | None => sc_Num (cs_Current st) end.

Lemma trans_plan d st st' : valid_state d st -> ctl_trans st st' ->
  (plan_num st <= plan_num st')%Z /\ (sc_Num (cs_Current st) <= sc_Num (cs_Current st'))%Z /\
  (plan_num st = plan_num st' -> cs_Pending st' = cs_Pending st \/ cs_Pending st' = None) /\
  (sc_Num (cs_Current st) = sc_Num (cs_Current st') -> cs_Current st' = cs_Current st).
Proof.
  intros [_ _ Hv] [owner|next Hp Hn|r Hp Hc|r Hp Hc]; unfold plan_num; simpl; rewrite ?Hp.
  - split_and!; auto; lia.
  - split_and!; auto; lia.
  - destruct (Hv r Hp) as (_ & Hn & _). split_and!; auto; rewrite ?Hc; lia.
  - split_and!; auto; rewrite ?Hc; lia.
Qed.

Lemma chain_plan w n m : winv w -> forall st st', st_at w n st -> st_at w (n + m) st' ->
  (plan_num st <= plan_num st')%Z /\ (sc_Num (cs_Current st) <= sc_Num (cs_Current st'))%Z /\
  (plan_num st = plan_num st' -> cs_Pending st' = cs_Pending st \/ cs_Pending st' = None) /\
  (sc_Num (cs_Current st) = sc_Num (cs_Current st') -> cs_Current st' = cs_Current st).
Proof.
  intros HI. induction m as [|m IH]; intros st st' H H'.
  - rewrite Nat.add_0_r in H'. rewrite (st_at_fun _ _ _ _ H' H). split_and!; auto; lia.
  - replace (n + S m) with (S (n + m)) in H' by lia. pose proof (st_at_lt _ _ _ H') as Hlt.
    destruct (lookup_lt_is_Some_2 (xw_hist w) (n + m)) as [s Hs]; [lia|].
    destruct (wi_state _ HI _ _ Hs) as (sm & Hu & Hval).
    assert (st_at w (n + m) sm) as Hsm by (by exists s).
    destruct (IH _ _ H Hsm) as (A1 & A2 & A3 & A4).
    destruct (trans_plan _ _ _ Hval (wi_trans _ HI _ _ _ Hsm H')) as (B1 & B2 & B3 & B4).
    split_and!; [lia|lia| |].
    + intros He. destruct B3 as [->| ->]; [lia|apply A3; lia|by right].
    + intros He. rewrite B4 by lia. apply A4. lia.
Qed.

(** C12. One plan per configuration number: however controllers take over from each
    other and whatever answers they lose, any two migrations the record ever named
    with the same number are the same migration, from and to the same
    configurations; any two current configurations with the same number are the same;
    and a configuration is published only when every shard that moves to a group was
    installed there. *)
Theorem one_plan (L : ConfigJsonLaws) s n1 n2 st1 st2 :
  rtc xstep xinit s -> st_at (xs_world s) n1 st1 -> st_at (xs_world s) n2 st2 ->
  (forall r1 r2, cs_Pending st1 = Some r1 -> cs_Pending st2 = Some r2 ->
     sc_Num (mr_To r1) = sc_Num (mr_To r2) -> r1 = r2) /\
  (sc_Num (cs_Current st1) = sc_Num (cs_Current st2) -> cs_Current st1 = cs_Current st2) /\
  (n1 <= n2 -> (sc_Num (cs_Current st1) <= sc_Num (cs_Current st2))%Z) /\
  (forall r, cs_Pending st1 = Some r -> cs_Current st1 = mr_To r -> installed (xw_done (xs_world s)) r).
Proof.
  intros Hr H1 H2. apply (xinv_reachable L) in Hr as [HI _]. split_and!.
  - intros r1 r2 P1 P2 He. destruct (Nat.le_ge_cases n1 n2) as [Hle|Hle].
    + replace n2 with (n1 + (n2 - n1)) in H2 by lia. destruct (chain_plan _ _ _ HI _ _ H1 H2) as (_ & _ & C & _).
      unfold plan_num in C. rewrite P1, P2 in C. destruct (C He); congruence.
    + replace n1 with (n2 + (n1 - n2)) in H1 by lia. destruct (chain_plan _ _ _ HI _ _ H2 H1) as (_ & _ & C & _).
      unfold plan_num in C. rewrite P1, P2 in C. destruct C; congruence.
  - intros He. destruct (Nat.le_ge_cases n1 n2) as [Hle|Hle].
    + replace n2 with (n1 + (n2 - n1)) in H2 by lia. symmetry. by apply (chain_plan _ _ _ HI _ _ H1 H2).
    + replace n1 with (n2 + (n1 - n2)) in H1 by lia. by apply (chain_plan _ _ _ HI _ _ H2 H1).
  - intros Hle. replace n2 with (n1 + (n2 - n1)) in H2 by lia. apply (chain_plan _ _ _ HI _ _ H1 H2).
  - intros r Hp Hc. destruct H1 as (x & Hx & Hu). destruct (wi_state _ HI _ _ Hx) as (st' & Hu' & Hv).
    assert (st' = st1) as -> by congruence. destruct (vs_pending _ _ Hv r Hp) as (_ & Hn & [Hf|[_ ?]]); [|done].
    exfalso. assert (mr_From r = mr_To r) as Heq by congruence. rewrite Heq in Hn. lia.
Qed.

(** C28. Controllers keep to the protocol: in every reachable state no controller has
    panicked, and the next effect of each is allowed: a put moves the record along
    one of the four transitions, from a version the controller itself owns unless it
    takes over; Freeze, Install and Delete go to the source and the target of a move
    of a planned migration under its number, Install carries the data a Freeze of
    that move returned, and Delete follows the Installs of all its shards. *)
Theorem controllers_keep_protocol (L : ConfigJsonLaws) s id :
  rtc xstep xinit s ->
  xs_ctls s !! id <> Some Panic /\
  forall e k, xs_ctls s !! id = Some (Call e k) -> xallowed id (xs_world s) e.
Proof.
  intros Hr. apply (xinv_reachable L) in Hr as [HI HS]. split.
  - intros H. by destruct (HS _ _ H).
  - intros e k H. destruct (HS _ _ H) as [_ Hs]. simpl in Hs. apply Hs. constructor.
Qed.

(** Deposed controllers are fenced: when an effect of controller [id] extends the
    record, the new version names [id] as owner, and unless it is a take-over, which
    leaves the configuration and the migration alone, the version before it named
    [id] too; so a controller that was taken over can never publish, plan or clear. *)
Theorem deposed_fenced (L : ConfigJsonLaws) s id e k r w' n st st' :
  rtc xstep xinit s -> xs_ctls s !! id = Some (Call e k) -> xanswer (xs_world s) e r w' ->
  length (xw_hist (xs_world s)) = S n -> st_at (xs_world s) n st -> st_at w' (S n) st' ->
  cs_Owner st' = id /\
  (cs_Owner st <> id -> cs_Current st' = cs_Current st /\ cs_Pending st' = cs_Pending st /\
     cs_Epoch st' = u64_inc (cs_Epoch st)).
Proof.
  intros Hr Hc Ha Hlen Hst Hst'. apply (xinv_reachable L) in Hr as [HI HS].
  destruct (HS _ _ Hc) as [_ Hs]. simpl in Hs. destruct (Hs (xs_world s)) as [Hal _]; [constructor|].
  destruct (xanswer_inv id _ _ _ _ HI Hal Ha) as (HI' & G & Hown).
  assert (cs_Owner st' = id) as Ho by (eapply Hown; [|exact Hst']; lia). split; [done|]. intros Hne.
  assert (ctl_trans st st') as Htr by (eapply (wi_trans _ HI'); [by eapply st_at_grows|done]).
  destruct Htr; simpl in *; auto; congruence.
Qed.

End CtrlerSafe.
