(* ===== verification/CtrlerSim.v ===== *)
(** * Concrete runs of two controllers

    [BitJson] encodes the record so that [ConfigJsonLaws] hold.  [xexec] runs controllers
    by a schedule of calls and answers: controller ["a"] writes the first configuration,
    plans the second and stalls; controller ["b"] takes over, migrates, publishes and
    clears the plan. *)

From S2P Require Import Prelude.
From S2P Require Import Rpc.
From S2P Require Import Persister.
From S2P Require Import BitCodec.
From S2P Require Import ShardCfg.
From S2P Require Import Prog.
From S2P Require Import ShardCtrler.
From S2P Require Import CtrlerSafe.

#[global] Instance ShardConfig_countable : Countable ShardConfig.
Proof.
  apply (inj_countable' (fun c => (sc_Num c, sc_Shards c, sc_Groups c)) (fun x => mkShardConfig x.1.1 x.1.2 x.2)).
  by intros [].
Defined.

#[global] Instance migrationRecord_countable : Countable migrationRecord.
Proof.
  apply (inj_countable' (fun r => (mr_From r, mr_To r)) (fun x => mkMigrationRecord x.1 x.2)). by intros [].
Defined.

#[global] Instance controllerState_countable : Countable controllerState.
Proof.
  apply (inj_countable' (fun s => (cs_Owner s, cs_Epoch s, cs_Current s, cs_Pending s))
    (fun x => mkControllerState x.1.1.1 x.1.1.2 x.1.2 x.2)). by intros [].
Defined.

#[global] Instance BitJson : ConfigJson := {|
  json_text := fun _ => True;
  marshal := fun st => String.string_of_list_byte (bits_encode st);
  unmarshal := fun s => '(st, _) ← bits_decode (String.list_byte_of_string s); Some st |}.

#[global] Instance BitJson_laws : ConfigJsonLaws.
Proof.
  constructor; simpl.
  - intros st _. rewrite String.list_byte_of_string_of_list_byte, <- (app_nil_r (bits_encode st)), bits_decode_encode.
    done.
  - intros s st _. split_and!; [done|by intros ?|]. intros r _. split; by intros ?.
Qed.

Lemma ex_cfg1_good : cfg_good ex_cfg1.
Proof.
  constructor; [done| |by intros ?].
  intros g Hg _. exists ["x"; "y"; "z"]. split; [|done].
  assert (g = 1%Z) as ->; [|reflexivity]. simpl in Hg.
  repeat (apply elem_of_cons in Hg as [->|Hg]; [done|]). by apply not_elem_of_nil in Hg.
Qed.

(** ** Schedules *)

(** The answer to the next effect of a controller; a put tells whether it took effect. *)
Inductive xans : Type :=
  | ARead
  | APut (took : bool) (err : Err)
  | AFreeze (data : bytes)
  | AInstall
  | ADelete.

Definition xeff (a : xans) (e : ctl_eff) (w : xworld) : option (ctl_resp e * xworld) :=
  match a, e return option (ctl_resp e * xworld) with
  | ARead, XGet =>
      Some (match last (xw_hist w) with None => ("", 0%N, ErrNoKey) | Some s => (s, N.of_nat (length (xw_hist w)), OK) end, w)
  | APut true err, XPut value version =>
      if decide ((err = OK \/ err = ErrMaybe) /\ version = N.of_nat (length (xw_hist w))) then Some (err, xpush value w) else None
  | APut false err, XPut _ _ => if decide (err = ErrVersion \/ err = ErrMaybe \/ err = ErrNoKey) then Some (err, w) else None
  | AFreeze data, XFreeze _ _ s num => Some ((data, OK, false), mkXworld (xw_hist w) ((s, num, data) :: xw_frozen w) (xw_done w))
  | AInstall, XInstall _ _ s _ num => Some ((OK, false), mkXworld (xw_hist w) (xw_frozen w) ((s, num) :: xw_done w))
  | ADelete, XDelete _ _ _ _ => Some ((OK, false), w)
  | _, _ => None
  end.

Lemma xeff_sound a e w r w' : xeff a e w = Some (r, w') -> xanswer w e r w'.
Proof.
  destruct a as [|[] err|data| |], e; simpl; intros H; try done.
  - injection H as <- <-. split; [done|]. by destruct (last (xw_hist w)).
  - case_decide as Hd; [|done]. injection H as <- <-. destruct Hd. by left.
  - case_decide as Hd; [|done]. injection H as <- <-. by right.
  - by injection H as <- <-.
  - by injection H as <- <-.
  - by injection H as <- <-.
Qed.

Inductive xevent : Type :=
  | XNew (id : string)
  | XInit (id : string) (cfg : ShardConfig)
  | XController (id : string)
  | XChange (id : string) (next : ShardConfig)
  | XDo (id : string) (a : xans).

Definition xevent_good (ev : xevent) : Prop :=
  match ev with XInit _ cfg | XChange _ cfg => cfg_good cfg | _ => True end.

Definition xcalled (id : string) (f : ShardCtrlerObj -> prog ctl_resp ShardCtrlerObj) (s : xsys) : option xsys :=
  match xs_ctls s !! id with
  | Some (Ret sck) => Some (mkXsys (xs_world s) (<[id := f sck]> (xs_ctls s)))
  | _ => None
  end.

(** The election gets the fuel for one attempt. *)
Definition xexec (ev : xevent) (s : xsys) : option xsys :=
  match ev with
  | XNew id =>
      if decide (xs_ctls s !! id = None) then Some (mkXsys (xs_world s) (<[id := Ret (MakeShardCtrler id)]> (xs_ctls s))) else None
  | XInit id cfg => xcalled id (InitConfig cfg) s
  | XController id => xcalled id (InitController 1) s
  | XChange id next => xcalled id (ChangeConfigTo 1 next) s
  | XDo id a =>
      match xs_ctls s !! id with
      | Some (Call e k) => '(r, w') ← xeff a e (xs_world s); Some (mkXsys w' (<[id := k r]> (xs_ctls s)))
      | _ => None
      end
  end.

Fixpoint xexec_all (evs : list xevent) (s : xsys) : option xsys :=
  match evs with
  | [] => Some s
  | ev :: evs' => s' ← xexec ev s; xexec_all evs' s'
  end.

Lemma xcalled_sound id f s s' : (forall sck, xcall sck (f sck)) -> xcalled id f s = Some s' -> xstep s s'.
Proof.
  intros Hf H. unfold xcalled in H. destruct (xs_ctls s !! id) as [[sck| | |]|] eqn:E; try done. injection H as <-.
  by eapply X_call.
Qed.

Lemma xexec_sound ev s s' : xevent_good ev -> xexec ev s = Some s' -> xstep s s'.
Proof.
  intros Hg H. destruct ev as [id|id cfg|id|id next|id a]; simpl in H.
  - case_decide; [|done]. injection H as <-. by apply X_new.
  - eapply xcalled_sound; [|exact H]. intros sck. by apply X_InitConfig.
  - eapply xcalled_sound; [|exact H]. intros sck. apply X_InitController.
  - eapply xcalled_sound; [|exact H]. intros sck. by apply X_ChangeConfigTo.
  - destruct (xs_ctls s !! id) as [[| | |e k]|] eqn:E; try done. apply bind_Some in H as ([r w'] & Ha & [= <-]).
    eapply X_eff; [done|by eapply xeff_sound].
Qed.

Lemma xexec_run evs : Forall xevent_good evs -> forall s s', xexec_all evs s = Some s' -> rtc xstep s s'.
Proof.
  induction 1 as [|ev evs Hg _ IH]; intros s s' H; simpl in H; [injection H as <-; apply rtc_refl|].
  apply bind_Some in H as (s1 & H1 & H). eapply rtc_l; [by eapply xexec_sound|by apply IH].
Qed.

Definition st_atb (w : xworld) (n : nat) (st : controllerState) : bool := bool_decide (xw_hist w !! n ≫= unmarshal = Some st).

Lemma st_atb_spec w n st : st_atb w n st = true -> st_at w n st.
Proof. intros (s & Hs & Hu)%bool_decide_eq_true%bind_Some. by exists s. Qed.

(** ** A plan that changes hands *)

Lemma ex_cfg2_good : cfg_good ex_cfg2.
Proof.
  constructor; [done| |by intros ?].
  intros g Hg Hne. simpl in Hg. assert (g = 1%Z \/ g = 2%Z) as [->| ->]; [|by eexists|by eexists].
  repeat (apply elem_of_cons in Hg as [->|Hg]; [by auto|]). by apply not_elem_of_nil in Hg.
Qed.

Definition ex_plan : migrationRecord := mkMigrationRecord (Copy ex_cfg1) (Copy ex_cfg2).

(** ["a"] plans and stalls; the put with which ["b"] takes over takes effect although its
    answer is lost; ["b"] moves six shards, publishes, deletes and clears; then ["a"] finds
    that it was deposed. *)
Definition ex_takeover : list xevent :=
  [XNew "a"; XInit "a" ex_cfg1; XDo "a" (APut true OK);
   XChange "a" ex_cfg2; XDo "a" ARead; XDo "a" ARead; XDo "a" ARead; XDo "a" (APut true OK);
   XNew "b"; XController "b"; XDo "b" ARead; XDo "b" (APut true ErrMaybe); XDo "b" ARead; XDo "b" ARead] ++
  mjoin (replicate 6 [XDo "b" (AFreeze []); XDo "b" AInstall]) ++
  [XDo "b" (APut true OK); XDo "b" ARead] ++ replicate 6 (XDo "b" ADelete) ++ [XDo "b" (APut true OK); XDo "a" ARead].

Definition ex_handed : xsys := default xinit (xexec_all ex_takeover xinit).

Definition ex_planned : controllerState := mkControllerState "a" 1 (Copy ex_cfg1) (Some ex_plan).
Definition ex_published : controllerState := mkControllerState "b" 2 (Copy ex_cfg2) (Some ex_plan).

Lemma ex_takeover_runs : xexec_all ex_takeover xinit = Some ex_handed.
Proof.
  assert (bool_decide (is_Some (xexec_all ex_takeover xinit)) = true) as H by (vm_cast_no_check (@eq_refl bool true)).
  apply bool_decide_eq_true in H as [s Hs]. unfold ex_handed. by rewrite Hs.
Qed.

Lemma ex_takeover_reachable : rtc xstep xinit ex_handed.
Proof.
  eapply xexec_run; [|exact ex_takeover_runs].
  repeat (apply Forall_cons; split; [first [exact I|exact ex_cfg1_good|exact ex_cfg2_good]|]). apply Forall_nil. exact I.
Qed.

(** The record of the plan, of its publication by ["b"], and the one at the end. *)
Lemma ex_handed_history :
  st_at (xs_world ex_handed) 1 ex_planned /\ st_at (xs_world ex_handed) 3 ex_published /\
  st_at (xs_world ex_handed) 4 (mkControllerState "b" 2 (Copy ex_cfg2) None).
Proof. split; [|split]; apply st_atb_spec; vm_cast_no_check (@eq_refl bool true). Qed.

Definition ex_st1 : controllerState := mkControllerState "a" 1 (Copy ex_cfg1) None.
Definition ex_st2 : controllerState := mkControllerState "b" 2 (Copy ex_cfg1) None.
Definition ex_x0 : xworld := mkXworld [] [] [].
Definition ex_x1 : xworld := mkXworld [marshal ex_st1] [] [].
Definition ex_x2 : xworld := mkXworld [marshal ex_st1; marshal ex_st2] [] [].

Lemma ex_unmarshal st : unmarshal (marshal st) = Some st.
Proof. apply unmarshal_marshal. split_and!; [done|by intros ?|]. intros r _. split; by intros ?. Qed.

Opaque marshal unmarshal.

(** ["a"] wrote version 1. *)
Lemma ex_run_a : exists p : prog ctl_resp ShardCtrlerObj,
  rtc xstep xinit (mkXsys ex_x1 (<["a" := p]> (<["a" := InitConfig ex_cfg1 (MakeShardCtrler "a")]>
    (<["a" := Ret (MakeShardCtrler "a")]> ∅)))).
Proof.
  eexists. eapply rtc_l; [apply (X_new xinit "a"); done|].
  eapply rtc_l; [eapply (X_call _ "a" (MakeShardCtrler "a")); [reflexivity|apply (X_InitConfig _ ex_cfg1), ex_cfg1_good]|].
  eapply rtc_l; [|apply rtc_refl].
  refine (X_eff _ "a" (XPut (marshal ex_st1) 0) _ OK ex_x1 _ _); [reflexivity|].
  left. split_and!; [by left|done|done].
Qed.

(** ["b"] read it and is about to write version 2. *)
Lemma ex_run_b : exists (ctls : gmap string (prog ctl_resp ShardCtrlerObj)) k,
  rtc xstep xinit (mkXsys ex_x1 ctls) /\ ctls !! "b" = Some (Call (XPut (marshal ex_st2) 1) k).
Proof.
  destruct ex_run_a as [p Hp]. do 2 eexists. split.
  - etrans; [exact Hp|].
    eapply rtc_l; [apply (X_new _ "b"); done|].
    eapply rtc_l; [eapply (X_call _ "b" (MakeShardCtrler "b")); [reflexivity|apply (X_InitController _ 1)]|].
    eapply rtc_l; [|apply rtc_refl].
    refine (X_eff _ "b" XGet _ (marshal ex_st1, 1%N, OK) ex_x1 _ _); [reflexivity|]. split; done.
  - cbn. rewrite lookup_insert_eq. cbn. rewrite ex_unmarshal. cbn. reflexivity.
Qed.

Lemma ex_st_at1 : st_at ex_x1 0 ex_st1.
Proof. exists (marshal ex_st1). split; [done|apply ex_unmarshal]. Qed.

(** The plan ["a"] made is the one ["b"] published, after all its shards were installed. *)
Lemma one_plan_witness : exists s : xsys,
  st_at (xs_world s) 1 ex_planned /\ st_at (xs_world s) 3 ex_published /\ cs_Owner ex_planned <> cs_Owner ex_published /\
  (forall r1 r2, cs_Pending ex_published = Some r1 -> cs_Pending ex_planned = Some r2 -> r1 = r2) /\
  installed (xw_done (xs_world s)) ex_plan /\
  (sc_Num (cs_Current ex_planned) <= sc_Num (cs_Current ex_published))%Z.
Proof.
  exists ex_handed. destruct ex_handed_history as (Hp & Hq & _). split; [exact Hp|]. split; [exact Hq|]. split; [discriminate|].
  destruct (one_plan BitJson_laws ex_handed 3 1 ex_published ex_planned ex_takeover_reachable Hq Hp) as (H1 & _ & _ & H4).
  destruct (one_plan BitJson_laws ex_handed 1 3 ex_planned ex_published ex_takeover_reachable Hp Hq) as (_ & _ & H3 & _).
  split; [intros r1 r2 R1 R2; apply H1; [exact R1|exact R2|]; injection R1 as <-; injection R2 as <-; reflexivity|].
  split; [apply H4; reflexivity|]. apply H3. apply Nat.leb_le. reflexivity.
Defined.

Lemma controllers_keep_protocol_witness : exists k : Err -> prog ctl_resp ShardCtrlerObj,
  exists ctls : gmap string (prog ctl_resp ShardCtrlerObj), ctls !! "b" = Some (Call (XPut (marshal ex_st2) 1) k) /\
  xallowed "b" ex_x1 (XPut (marshal ex_st2) 1).
Proof.
  destruct ex_run_b as (ctls & k & Hr & Hc). exists k, ctls. split; [exact Hc|].
  exact (proj2 (controllers_keep_protocol BitJson_laws (mkXsys ex_x1 ctls) "b" Hr) _ _ Hc).
Defined.

Lemma deposed_fenced_witness : cs_Owner ex_st2 = "b" /\ cs_Current ex_st2 = cs_Current ex_st1.
Proof.
  destruct ex_run_b as (ctls & k & Hr & Hc).
  destruct (deposed_fenced BitJson_laws (mkXsys ex_x1 ctls) "b" _ k OK ex_x2 0 ex_st1 ex_st2 Hr Hc) as [Ho H].
  - left. split_and!; [by left|done|done].
  - done.
  - exact ex_st_at1.
  - exists (marshal ex_st2). split; [done|apply ex_unmarshal].
  - split; [exact Ho|]. apply H. discriminate.
Defined.
