(* ===== verification/Lock.v ===== *)
(** * The lock on a key/value clerk ([kvsrv1/lock/lock.go])

    A lock is a key whose value is the holder's identifier, empty when free; it is
    taken and released by conditional puts through a clerk that may answer
    ErrMaybe.  The theorem is mutual exclusion for any number of clients. *)

From S2P Require Import Prelude.
From S2P Require Import Rpc.
From S2P Require Import Prog.

(** ** The code

    The effects are the calls of the clerk interface [kvtest.IKVClerk]. *)
Inductive lk_eff : Type := LGet (key : string) | LPut (key value : string) (version : Tversion).

Definition lk_resp (e : lk_eff) : Type :=
  match e with LGet _ => string * Tversion * Err | LPut _ _ _ => Err end.

Abbreviation lk_prog := (prog lk_resp).

Record Lock : Type := mkLock { lk_key : string; lk_id : string }.

(** [id] is a random string of eight characters. *)
Definition MakeLock (lockname id : string) : Lock := mkLock lockname id.

(** After a [Put] that should have taken the lock: [retry] is [continue]. *)
Definition acquired (lk : Lock) (err : Err) (retry : lk_prog unit) : lk_prog unit :=
  match err with
  | OK => Ret tt
  | ErrMaybe =>
      Call (LGet (lk_key lk)) (fun r : string * Tversion * Err =>
        let '(current, _, getErr) := r in
        if decide (getErr = OK /\ current = lk_id lk) then Ret tt else retry)
  | _ => retry
  end.

Fixpoint Acquire (fuel : nat) (lk : Lock) : lk_prog unit :=
  match fuel with
  | O => Spin
  | S fuel' =>
      Call (LGet (lk_key lk)) (fun r : string * Tversion * Err =>
        let '(value, version, err) := r in
        if decide (err = ErrNoKey) then
          Call (LPut (lk_key lk) (lk_id lk) 0) (fun e : Err => acquired lk e (Acquire fuel' lk))
        else if decide (err <> OK) then Acquire fuel' lk
        else if decide (value <> "") then Acquire fuel' lk
        else Call (LPut (lk_key lk) (lk_id lk) version) (fun e : Err => acquired lk e (Acquire fuel' lk)))
  end.

Fixpoint Release (fuel : nat) (lk : Lock) : lk_prog unit :=
  match fuel with
  | O => Spin
  | S fuel' =>
      Call (LGet (lk_key lk)) (fun r : string * Tversion * Err =>
        let '(value, version, err) := r in
        if decide (err = ErrNoKey) then Ret tt
        else if decide (err <> OK) then Release fuel' lk
        else if decide (value <> lk_id lk) then Ret tt
        else Call (LPut (lk_key lk) "" version) (fun e : Err =>
               if decide (e = OK) then Ret tt else Release fuel' lk))
  end.

(** ** The key

    The values the key had, version 1 first.  A conditional put takes effect at most
    once and only at its version; it may be answered ErrMaybe either way
    ([KvClerk.clerk_put_sound]). *)
Section one_lock.
Context (lockname : string).

Abbreviation lworld := (list string).

Definition lanswer (w : lworld) (e : lk_eff) : lk_resp e -> lworld -> Prop :=
match e with
| LGet _ => fun r w' => w' = w /\
    r = match last w with None => ("", 0%N, ErrNoKey) | Some v => (v, N.of_nat (length w), OK) end
| LPut _ v ver => fun r w' =>
    ((r = OK \/ r = ErrMaybe) /\ ver = N.of_nat (length w) /\ w' = w ++ [v]) \/
    ((r = ErrVersion \/ r = ErrMaybe \/ r = ErrNoKey) /\ w' = w)
end.

(** What client [me] may write: its identifier over a free lock, and freedom over
    its own identifier. *)
Definition lallowed (me : string) (w : lworld) (e : lk_eff) : Prop :=
match e with
| LGet k => k = lockname
| LPut k v ver => k = lockname /\
    ((v = me /\ (ver = 0%N \/ exists n, ver = N.of_nat (S n) /\ w !! n = Some "")) \/
     (v = "" /\ exists n, ver = N.of_nat (S n) /\ w !! n = Some me))
end.

(** What the others do. *)
Definition lenv (me : string) (w w' : lworld) : Prop :=
w `prefix_of` w' /\
forall n v, length w <= n -> w' !! n = Some v ->
  v <> me /\ (v = "" -> forall m, n = S m -> w' !! m <> Some me) /\
  (v <> "" -> n = 0 \/ exists m, n = S m /\ w' !! m = Some "").

Definition held (me : string) (w : lworld) : Prop := last w = Some me.

Lemma lenv_refl me w : lenv me w w.
Proof. split; [done|]. intros n v Hn Hv%lookup_lt_Some. lia. Qed.

Lemma lenv_trans me w1 w2 w3 : lenv me w1 w2 -> lenv me w2 w3 -> lenv me w1 w3.
Proof.
  intros [P1 H1] [P2 H2]. split; [by etrans|]. intros n v Hn Hv.
  destruct (decide (length w2 <= n)) as [Hge|Hlt]; [by apply H2|].
  assert (forall k, k <= n -> w3 !! k = w2 !! k) as Hk.
  { intros k Hk. destruct P2 as [l ->]. apply lookup_app_l. lia. }
  rewrite Hk in Hv by lia. destruct (H1 n v Hn Hv) as (A & B & C). split_and!; auto.
  - intros Hv0 m ->. rewrite Hk by lia. by apply B.
  - intros Hv0. destruct (C Hv0) as [->|(m & -> & ?)]; [by left|right]. exists m. rewrite Hk by lia. done.
Qed.

Lemma lenv_rtc me w w' : rtc (lenv me) w w' -> lenv me w w'.
Proof. induction 1; [apply lenv_refl|by eapply lenv_trans]. Qed.

(** Nobody else writes over the holder's identifier. *)
Lemma held_stable me w w' : me <> "" -> lenv me w w' -> held me w -> w' = w.
Proof.
  intros Hne [[l ->] H] Hh. destruct l as [|v l]; [by rewrite app_nil_r|]. exfalso.
  unfold held in Hh. rewrite last_lookup in Hh. pose proof (lookup_lt_Some _ _ _ Hh) as Hlt.
  assert ((w ++ v :: l) !! length w = Some v) as Hv by (by rewrite lookup_app_r, Nat.sub_diag by lia).
  assert ((w ++ v :: l) !! Nat.pred (length w) = Some me) as Hm by (by rewrite lookup_app_l by lia).
  destruct (H (length w) v (le_n _) Hv) as (_ & B & C). destruct (decide (v = "")) as [E|E].
  - apply (B E (Nat.pred (length w))); [lia|done].
  - destruct (C E) as [?|(m & He & Hm2)]; [lia|]. assert (m = Nat.pred (length w)) as -> by lia. congruence.
Qed.

Lemma not_held_stable me w w' : lenv me w w' -> ~ held me w -> ~ held me w'.
Proof.
  intros [[l ->] H] Hn Hh. unfold held in *. destruct l as [|v l] using rev_ind; [by rewrite app_nil_r in Hh|].
  rewrite app_assoc, last_snoc in Hh. injection Hh as ->.
  destruct (H (length (w ++ l)) me) as (? & _); [rewrite length_app; lia| |done].
  by rewrite app_assoc, lookup_app_r, Nat.sub_diag by lia.
Qed.

Section client.
Context (lk : Lock).

Abbreviation me := (lk_id lk).
Abbreviation lsafe := (safe (lenv me) lanswer (lallowed me)).

Definition lk_ok : Prop := lk_key lk = lockname /\ me <> "".

Lemma lret_safe {A} (a : A) (Q : lworld -> A -> Prop) w : (forall w1, lenv me w w1 -> Q w1 a) -> lsafe (Ret a) Q w.
Proof. intros HQ w1 Hw1%lenv_rtc. auto. Qed.

(** A read: the value of its version, and whether it is still the last. *)
Lemma lget_safe {A} (k : string * Tversion * Err -> lk_prog A) Q w :
  lk_ok -> (forall w1, w1 = [] -> lsafe (k ("", 0%N, ErrNoKey)) Q w1) ->
  (forall w1 n v, length w1 = S n -> w1 !! n = Some v -> lsafe (k (v, N.of_nat (S n), OK)) Q w1) ->
  lsafe (Call (LGet (lk_key lk)) k) Q w.
Proof.
  intros [Hk _] H0 H1 w1 _. split; [done|]. intros r w2 [-> ->]. destruct (last w1) as [v|] eqn:Hl.
  - rewrite last_lookup in Hl. pose proof (lookup_lt_Some _ _ _ Hl). destruct (length w1) as [|n] eqn:Hn; [lia|].
    by apply H1.
  - apply H0. by apply last_None in Hl.
Qed.

Lemma acquired_safe e retry w :
  lk_ok -> (e = OK -> held me w) -> (forall w1, lsafe retry (fun w _ => held me w) w1) ->
  lsafe (acquired lk e retry) (fun w _ => held me w) w.
Proof.
  intros Hok He Hr. destruct e; simpl acquired; auto.
  - apply lret_safe. intros w1 H1. pose proof (He eq_refl) as Hh.
    by rewrite (held_stable _ _ _ (proj2 Hok) H1 Hh).
  - apply lget_safe; [done|..].
    + intros w1 _. by rewrite decide_False by (by intros [? ?]).
    + intros w1 n v Hn Hv. case_decide as Hc; [|done]. destruct Hc as [_ ->]. apply lret_safe. intros w2 H2.
      assert (held me w1) as Hh by (unfold held; by rewrite last_lookup, Hn).
      by rewrite (held_stable _ _ _ (proj2 Hok) H2 Hh).
Qed.

(** An acquiring put: if it is answered OK the lock is held. *)
Lemma acquire_put_safe ver retry w :
  lk_ok -> (ver = 0%N \/ exists n, ver = N.of_nat (S n) /\ w !! n = Some "") ->
  (forall w1, lsafe retry (fun w _ => held me w) w1) ->
  lsafe (Call (LPut (lk_key lk) me ver) (fun e : Err => acquired lk e retry)) (fun w _ => held me w) w.
Proof.
  intros Hok Hv Hr w1 H1%lenv_rtc. split.
  - split; [apply Hok|]. left. split; [done|]. destruct Hv as [?|(n & ? & Hn)]; [by left|right].
    exists n. split; [done|]. by eapply prefix_lookup_Some; [|apply H1].
  - intros r w2 Hans. apply acquired_safe; [done| |done]. intros ->.
    destruct Hans as [(_ & _ & ->)|[[?|[?|?]] _]]; [|done..]. unfold held. by rewrite last_snoc.
Qed.

Lemma Acquire_safe fuel : forall w, lk_ok -> lsafe (Acquire fuel lk) (fun w _ => held me w) w.
Proof.
  induction fuel as [|fuel IH]; intros w Hok; [done|]. cbn [Acquire]. apply lget_safe; [done|..].
  - intros w1 ->. rewrite decide_True by done. apply acquire_put_safe; auto.
  - intros w1 n v Hn Hv. rewrite decide_False by done. rewrite (decide_False (P := OK <> OK)) by auto.
    case_decide as Hc; [auto|]. apply acquire_put_safe; auto. right. exists n. split; [done|].
    destruct (decide (v = "")); [by subst|tauto].
Qed.

Lemma Release_safe fuel : forall w, lk_ok -> lsafe (Release fuel lk) (fun w _ => ~ held me w) w.
Proof.
  induction fuel as [|fuel IH]; intros w Hok; [done|]. cbn [Release]. apply lget_safe; [done|..].
  - intros w1 ->. rewrite decide_True by done. apply lret_safe. intros w2 H2. by eapply not_held_stable.
  - intros w1 n v Hn Hv. rewrite decide_False by done. rewrite (decide_False (P := OK <> OK)) by auto.
    case_decide as Hc.
    + apply lret_safe. intros w2 H2. eapply not_held_stable; [exact H2|].
      unfold held. rewrite last_lookup, Hn. simpl. congruence.
    + assert (v = me) as -> by (destruct (decide (v = me)); tauto).
      intros w2 H2%lenv_rtc. split.
      * split; [apply Hok|]. right. split; [done|]. exists n. split; [done|]. by eapply prefix_lookup_Some; [|apply H2].
      * intros r w3 Hans. case_decide as Hr; [|by apply IH]. apply lret_safe. intros w4 H4.
        eapply not_held_stable; [exact H4|].
        destruct Hans as [(_ & _ & ->)|[[?|[?|?]] _]]; [|congruence..].
        unfold held. rewrite last_snoc. intros [= He]. by destruct Hok as [_ []].
Qed.
End client.

(** ** Any number of clients *)

Inductive lphase : Type :=
| Idle
| Acquiring (p : lk_prog unit)
| Holding  (* [Acquire] returned *)
| Releasing (p : lk_prog unit).

Record lsys : Type := mkLsys { ls_key : list string; ls_clients : gmap string lphase }.

(** [L_new]: a client with a fresh identifier. *)
Inductive lstep (s : lsys) : lsys -> Prop :=
| L_new id : ls_clients s !! id = None -> id <> "" -> id ∉ ls_key s ->
    lstep s (mkLsys (ls_key s) (<[id := Idle]> (ls_clients s)))
| L_acquire id fuel : ls_clients s !! id = Some Idle ->
    lstep s (mkLsys (ls_key s) (<[id := Acquiring (Acquire fuel (MakeLock lockname id))]> (ls_clients s)))
| L_acquiring id e k r w' : ls_clients s !! id = Some (Acquiring (Call e k)) -> lanswer (ls_key s) e r w' ->
    lstep s (mkLsys w' (<[id := Acquiring (k r)]> (ls_clients s)))
| L_acquired id : ls_clients s !! id = Some (Acquiring (Ret tt)) ->
    lstep s (mkLsys (ls_key s) (<[id := Holding]> (ls_clients s)))
| L_release id fuel : ls_clients s !! id = Some Holding ->
    lstep s (mkLsys (ls_key s) (<[id := Releasing (Release fuel (MakeLock lockname id))]> (ls_clients s)))
| L_releasing id e k r w' : ls_clients s !! id = Some (Releasing (Call e k)) -> lanswer (ls_key s) e r w' ->
    lstep s (mkLsys w' (<[id := Releasing (k r)]> (ls_clients s)))
| L_released id : ls_clients s !! id = Some (Releasing (Ret tt)) ->
    lstep s (mkLsys (ls_key s) (<[id := Idle]> (ls_clients s))).

(** What a client's phase guarantees, whatever the others do. *)
Definition phase_ok (id : string) (w : list string) (ph : lphase) : Prop :=
match ph with
| Idle => ~ held id w
| Acquiring p => safe (lenv id) lanswer (lallowed id) p (fun w _ => held id w) w
| Holding => held id w
| Releasing p => safe (lenv id) lanswer (lallowed id) p (fun w _ => ~ held id w) w
end.

Definition linv (s : lsys) : Prop :=
forall id ph, ls_clients s !! id = Some ph -> id <> "" /\ phase_ok id (ls_key s) ph.

Lemma phase_ok_env id w w' ph : id <> "" -> lenv id w w' -> phase_ok id w ph -> phase_ok id w' ph.
Proof.
  intros Hne He. destruct ph; simpl; eauto using safe_env, not_held_stable.
  intros Hh. by rewrite (held_stable _ _ _ Hne He Hh).
Qed.

(** An allowed effect of one client is an environment step of every other. *)
Lemma lanswer_env id id' w e r w' :
  id <> id' -> id <> "" -> id' <> "" -> lallowed id w e -> lanswer w e r w' -> lenv id' w w'.
Proof.
  intros Hne Hid0 Hid Ha H. destruct e as [k|k v ver]; simpl in H; [destruct H as [-> _]; apply lenv_refl|].
  destruct H as [(_ & -> & ->)|[_ ->]]; [|apply lenv_refl]. destruct Ha as [_ Ha].
  split; [by apply prefix_app_r|]. intros n x Hn Hx.
  pose proof (lookup_lt_Some _ _ _ Hx) as Hlt. rewrite length_app in Hlt. simpl in Hlt.
  assert (n = length w) as -> by lia. rewrite lookup_app_r, Nat.sub_diag in Hx by lia. injection Hx as <-.
  destruct Ha as [[-> Hv]|[-> (m & Hv & Hm)]].
  - split_and!; [done|done|]. intros _. destruct Hv as [?|(m & Hv & Hm)]; [left; lia|right].
    exists m. split; [lia|]. by apply lookup_app_l_Some.
  - split_and!.
    + by intros <-.
    + intros _ m' Hm'. assert (m' = m) as -> by lia. rewrite (lookup_app_l_Some _ _ _ _ Hm). congruence.
    + done.
Qed.

Lemma linv_eff s id p' e r w' :
  linv s -> id <> "" -> lallowed id (ls_key s) e -> lanswer (ls_key s) e r w' -> phase_ok id w' p' ->
  linv (mkLsys w' (<[id := p']> (ls_clients s))).
Proof.
  intros HI Hid Hal Ha Hp id' ph. simpl. intros [[<- <-]|[Hne H]]%lookup_insert_Some; [done|].
  destruct (HI _ _ H) as [Hid' Hph]. split; [done|]. eapply phase_ok_env; [done| |exact Hph].
  eapply lanswer_env; eauto.
Qed.

Lemma linv_phase s id p' :
  linv s -> id <> "" -> phase_ok id (ls_key s) p' -> linv (mkLsys (ls_key s) (<[id := p']> (ls_clients s))).
Proof. intros HI Hid Hp id' ph. simpl. intros [[<- <-]|[Hne H]]%lookup_insert_Some; [done|by apply HI]. Qed.

Lemma linv_step s s' : linv s -> lstep s s' -> linv s'.
Proof.
  intros HI [id Hn Hid Hfresh|id fuel H|id e k r w' H Ha|id H|id fuel H|id e k r w' H Ha|id H].
  - apply linv_phase; [done|done|]. simpl. unfold held. rewrite last_lookup.
    intros Hl. by apply list_elem_of_lookup_2 in Hl.
  - destruct (HI _ _ H) as [Hid _]. apply linv_phase; [done|done|].
    by apply (Acquire_safe (MakeLock lockname id)).
  - destruct (HI _ _ H) as [Hid Hp]. simpl in Hp. destruct (Hp (ls_key s)) as [Hal Hk]; [constructor|].
    eapply linv_eff; eauto. by apply Hk.
  - destruct (HI _ _ H) as [Hid Hp]. apply linv_phase; [done|done|]. apply Hp. constructor.
  - destruct (HI _ _ H) as [Hid _]. apply linv_phase; [done|done|].
    by apply (Release_safe (MakeLock lockname id)).
  - destruct (HI _ _ H) as [Hid Hp]. simpl in Hp. destruct (Hp (ls_key s)) as [Hal Hk]; [constructor|].
    eapply linv_eff; eauto. by apply Hk.
  - destruct (HI _ _ H) as [Hid Hp]. apply linv_phase; [done|done|]. apply Hp. constructor.
Qed.

(** C14. Mutual exclusion: in every run of any number of clients with distinct
    identifiers on one lock, over a clerk that may answer ErrMaybe to puts that took
    effect and to puts that did not, two clients never hold the lock at the same
    time; while a client holds it, the key's last value is its identifier; once a
    client is idle again, the key's last value is not its identifier; and no client
    ever panics. *)
Theorem lock_mutex s :
  rtc lstep (mkLsys [] ∅) s ->
  (forall id1 id2, ls_clients s !! id1 = Some Holding -> ls_clients s !! id2 = Some Holding -> id1 = id2) /\
  (forall id, ls_clients s !! id = Some Holding -> last (ls_key s) = Some id) /\
  (forall id, ls_clients s !! id = Some Idle -> last (ls_key s) <> Some id) /\
  (forall id, ls_clients s !! id <> Some (Acquiring Panic) /\ ls_clients s !! id <> Some (Releasing Panic)).
Proof.
  intros Hr. assert (linv s) as HI.
  { eapply (invariant_rtc lstep linv); [apply linv_step|exact Hr|].
    intros id ph H. simpl in H. by rewrite lookup_empty in H. }
  assert (forall id, ls_clients s !! id = Some Holding -> last (ls_key s) = Some id) as Hh.
  { intros id H. by destruct (HI _ _ H). }
  split_and!; [|done| |].
  - intros id1 id2 H1%Hh H2%Hh. congruence.
  - intros id H. by destruct (HI _ _ H).
  - intros id. split; intros H; by destruct (HI _ _ H).
Qed.

End one_lock.

(** ** A run: one client takes the lock with a lost answer *)

Lemma ex_lock_run : rtc (lstep "l") (mkLsys [] ∅)
  (mkLsys ["me"] (<["me" := Holding]> (<["me" := Acquiring (Ret tt)]> (<["me" :=
     Acquiring (acquired (MakeLock "l" "me") ErrMaybe (Acquire 0 (MakeLock "l" "me")))]>
     (<["me" := Acquiring (Call (LPut "l" "me" 0) (fun e : Err =>
        acquired (MakeLock "l" "me") e (Acquire 0 (MakeLock "l" "me"))))]>
     (<["me" := Acquiring (Acquire 1 (MakeLock "l" "me"))]> (<["me" := Idle]> ∅))))))).
Proof.
  eapply rtc_l; [by apply (L_new "l" _ "me"); [| |apply not_elem_of_nil]|].
  eapply rtc_l; [apply (L_acquire "l" _ "me" 1); by simpl|].
  eapply rtc_l; [eapply (L_acquiring "l" _ "me" (LGet "l") _ ("", 0%N, ErrNoKey)); [reflexivity|split; done]|].
  eapply rtc_l; [refine (L_acquiring "l" _ "me" (LPut "l" "me" 0) _ ErrMaybe ["me"] _ _);
    [reflexivity|left; split_and!; [by right|done|done]]|].
  eapply rtc_l; [refine (L_acquiring "l" _ "me" (LGet "l") _ ("me", 1%N, OK) ["me"] _ _); [reflexivity|split; done]|].
  eapply rtc_l; [apply (L_acquired "l" _ "me"); reflexivity|]. apply rtc_refl.
Qed.

Lemma lock_mutex_witness : last ["me"] = Some "me".
Proof.
  refine (proj1 (proj2 (lock_mutex "l" _ ex_lock_run)) "me" _). apply lookup_insert_eq.
Defined.
