(* ===== verification/MrCoord.v ===== *)
(** * The MapReduce coordinator ([mr/rpc.go], [mr/coordinator.go])

    The coordinator hands out map tasks, then reduce tasks, again when a task is
    not reported within ten seconds.  The theorems here are the order of the phases
    and that a single worker left alive finishes the job in a bounded number of
    requests; what the workers compute is in [MrWorker]. *)

From S2P Require Import Prelude.

(** ** The data *)

Inductive TaskStatus : Type := Idle | InProgress | Completed.

Inductive Phase : Type := MapPhase | ReducePhase | DonePhase.

Inductive TaskType : Type := MapTask | ReduceTask | WaitTask | ExitTask.

#[global] Instance TaskStatus_eq : EqDecision TaskStatus.
Proof. solve_decision. Defined.

#[global] Instance Phase_eq : EqDecision Phase.
Proof. solve_decision. Defined.

#[global] Instance TaskType_eq : EqDecision TaskType.
Proof. solve_decision. Defined.

(** Times are nanoseconds of the process's clock. *)
Record Task : Type := mkTask {
  task_ID : Z;
  task_FileName : string;
  task_Status : TaskStatus;
  task_StartTime : Z;
}.

Record Coordinator : Type := mkCoordinator {
  co_phase : Phase;
  co_mapTasks : list Task;
  co_reduceTasks : list Task;
  co_nMap : Z;
  co_nReduce : Z;
}.

Record RequestTaskReply : Type := mkRequestTaskReply {
  rt_TaskType : TaskType;
  rt_TaskID : Z;
  rt_FileName : string;
  rt_NReduce : Z;
  rt_NMap : Z;
}.

Record ReportTaskArgs : Type := mkReportTaskArgs { ra_TaskType : TaskType; ra_TaskID : Z }.

Definition second : Z := 1000000000.

Definition set_phase (p : Phase) (c : Coordinator) : Coordinator :=
  mkCoordinator p (co_mapTasks c) (co_reduceTasks c) (co_nMap c) (co_nReduce c).

Definition set_mapTasks (l : list Task) (c : Coordinator) : Coordinator :=
  mkCoordinator (co_phase c) l (co_reduceTasks c) (co_nMap c) (co_nReduce c).

Definition set_reduceTasks (l : list Task) (c : Coordinator) : Coordinator :=
  mkCoordinator (co_phase c) (co_mapTasks c) l (co_nMap c) (co_nReduce c).

Definition set_status (s : TaskStatus) (t : Task) : Task :=
  mkTask (task_ID t) (task_FileName t) s (task_StartTime t).

(** [Status = InProgress; StartTime = time.Now()] *)
Definition start_task (now : Z) (t : Task) : Task :=
  mkTask (task_ID t) (task_FileName t) InProgress now.

(** ** The operations *)

Definition MakeCoordinator (files : list string) (nReduce : Z) : Coordinator :=
  mkCoordinator MapPhase
    (imap (fun i file => mkTask (Z.of_nat i) file Idle 0) files)
    ((fun i => mkTask (Z.of_nat i) "" Idle 0) <$> seq 0 (Z.to_nat nReduce))
    (zlen files) nReduce.

Definition Done (c : Coordinator) : bool := bool_decide (co_phase c = DonePhase).

(** The two methods [allMapTasksDone] and [allReduceTasksDone] have the same loop. *)
Definition tasks_done (l : list Task) : bool := forallb (fun t => bool_decide (task_Status t = Completed)) l.

Definition allMapTasksDone (c : Coordinator) : bool := tasks_done (co_mapTasks c).

Definition allReduceTasksDone (c : Coordinator) : bool := tasks_done (co_reduceTasks c).

Definition taskTimedOut (now : Z) (t : Task) : bool :=
  bool_decide (task_Status t = InProgress) && (10 * second <? now - task_StartTime t)%Z.

(** The loop over the tasks: the first that is idle or timed out is started and
    returned.  The clock is read for the test and again for the start; [clk i] are
    these readings. *)
Fixpoint assign (clk : nat -> Z) (l : list Task) : option (list Task * Task) :=
  match l with
  | [] => None
  | t :: l' =>
      if bool_decide (task_Status t = Idle) || taskTimedOut (clk 0) t then
        Some (start_task (clk 1) t :: l', t)
      else '(l'', t') ← assign (fun i => clk (2 + i)) l'; Some (t :: l'', t')
  end.

Definition reply_with (c : Coordinator) (ty : TaskType) (id : Z) (file : string) : RequestTaskReply :=
  mkRequestTaskReply ty id file (co_nReduce c) (co_nMap c).

Definition request_reduce (clk : nat -> Z) (c : Coordinator) : Coordinator * RequestTaskReply :=
  if allReduceTasksDone c then (set_phase DonePhase c, reply_with c ExitTask 0 "")
  else match assign clk (co_reduceTasks c) with
  | Some (l, t) => (set_reduceTasks l c, reply_with c ReduceTask (task_ID t) "")
  | None => (c, reply_with c WaitTask 0 "")
  end.

Definition RequestTask (clk : nat -> Z) (c : Coordinator) : Coordinator * RequestTaskReply :=
  match co_phase c with
  | MapPhase =>
      if allMapTasksDone c then request_reduce clk (set_phase ReducePhase c)
      else match assign clk (co_mapTasks c) with
      | Some (l, t) => (set_mapTasks l c, reply_with c MapTask (task_ID t) (task_FileName t))
      | None => (c, reply_with c WaitTask 0 "")
      end
  | ReducePhase => request_reduce clk c
  | DonePhase => (c, reply_with c ExitTask 0 "")
  end.

(** [if tasks[id].Status == InProgress { tasks[id].Status = Completed }] *)
Definition complete_task (id : Z) (l : list Task) : list Task :=
  alter (fun t => if decide (task_Status t = InProgress) then set_status Completed t else t) (Z.to_nat id) l.

Definition ReportTask (args : ReportTaskArgs) (c : Coordinator) : Coordinator :=
  let id := ra_TaskID args in
  match ra_TaskType args with
  | MapTask =>
      if ((id <? 0) || (zlen (co_mapTasks c) <=? id))%Z then c
      else
        let c1 := if decide (co_phase c = MapPhase) then set_mapTasks (complete_task id (co_mapTasks c)) c else c in
        if bool_decide (co_phase c1 = MapPhase) && allMapTasksDone c1 then set_phase ReducePhase c1 else c1
  | ReduceTask =>
      if ((id <? 0) || (zlen (co_reduceTasks c) <=? id))%Z then c
      else
        let c1 := if decide (co_phase c = ReducePhase) then set_reduceTasks (complete_task id (co_reduceTasks c)) c
                  else c in
        if bool_decide (co_phase c1 = ReducePhase) && allReduceTasksDone c1 then set_phase DonePhase c1 else c1
  | _ => c
  end.

(** ** Facts about the task lists *)

Lemma tasks_done_spec l : tasks_done l = true <-> Forall (fun t => task_Status t = Completed) l.
Proof.
  unfold tasks_done. rewrite forallb_forall, Forall_forall. split; intros H t Ht.
  - apply list_elem_of_In in Ht. apply H in Ht. by apply bool_decide_eq_true in Ht.
  - apply list_elem_of_In in Ht. apply bool_decide_eq_true. auto.
Qed.

Lemma assign_spec clk l l' t :
  assign clk l = Some (l', t) ->
  exists i k, l !! i = Some t /\ l' = <[i := start_task (clk k) t]> l /\
    (task_Status t = Idle \/ exists k, taskTimedOut (clk k) t = true).
Proof.
  revert clk l'. induction l as [|x l IH]; intros clk l' H; [done|]. cbn [assign] in H.
  destruct (_ || _) eqn:E.
  - injection H as <- <-. exists 0, 1. split_and!; [done|done|].
    apply orb_true_iff in E as [E|E]; [left; by apply bool_decide_eq_true in E|right; by exists 0].
  - binds. destruct (IH _ _ H) as (i & k & H1 & -> & H2). exists (S i), (2 + k). split_and!; [done|done|].
    destruct H2 as [?|[k' ?]]; [by left|right]. by exists (2 + k').
Qed.

(** Nothing is assigned when every unfinished task is in progress and recent. *)
Lemma assign_None clk l :
  assign clk l = None <-> Forall (fun t => task_Status t = Completed \/ task_Status t = InProgress) l /\
    forall i t, l !! i = Some t -> taskTimedOut (clk (2 * i)) t = false.
Proof.
  revert clk. induction l as [|x l IH]; intros clk; [split; [|done]; intros _; split; [constructor|done]|].
  cbn [assign]. destruct (_ || _) eqn:E.
  - split; [done|]. intros [HF Ht]. apply orb_true_iff in E as [E|E].
    + apply bool_decide_eq_true in E. apply Forall_cons in HF as [[?|?] _]; congruence.
    + specialize (Ht 0 x eq_refl). simpl in Ht. congruence.
  - apply orb_false_iff in E as [E1 E2]. apply bool_decide_eq_false in E1.
    split.
    + intros H. apply bind_None in H as [H|([? ?] & ? & ?)]; [|done]. apply IH in H as [HF Ht]. split.
      * constructor; [|done]. destruct (task_Status x); auto; done.
      * intros [|i] t Hi; [injection Hi as <-; exact E2|]. specialize (Ht i t Hi).
        replace (2 * S i) with (2 + 2 * i) by lia. exact Ht.
    + intros [HF Ht]. apply Forall_cons in HF as [_ HF].
      rewrite (proj2 (IH (fun i => clk (2 + i)))); [done|]. split; [done|].
      intros i t Hi. specialize (Ht (S i) t Hi). replace (2 * S i) with (2 + 2 * i) in Ht by lia. exact Ht.
Qed.

Lemma complete_task_lookup id l i t :
  complete_task id l !! i = Some t ->
  exists t0, l !! i = Some t0 /\ (t = t0 \/ i = Z.to_nat id /\ task_Status t0 = InProgress /\ t = set_status Completed t0).
Proof.
  unfold complete_task. destruct (decide (Z.to_nat id = i)) as [<-|Hne].
  - rewrite list_lookup_alter_eq. intros (t0 & H & ->)%fmap_Some. exists t0. split; [done|].
    case_decide; [right; done|by left].
  - rewrite list_lookup_alter_ne by done. eauto.
Qed.

Lemma complete_task_completed id l i t :
  l !! i = Some t -> task_Status t = Completed -> complete_task id l !! i = Some t.
Proof.
  intros H Hc. unfold complete_task. destruct (decide (Z.to_nat id = i)) as [<-|Hne].
  - rewrite list_lookup_alter_eq, H. simpl. by rewrite decide_False by congruence.
  - by rewrite list_lookup_alter_ne.
Qed.

Lemma complete_task_id id l : task_ID <$> complete_task id l = task_ID <$> l.
Proof.
  unfold complete_task. apply list_eq. intros i. rewrite !list_lookup_fmap.
  destruct (decide (Z.to_nat id = i)) as [<-|Hne]; [|by rewrite list_lookup_alter_ne].
  rewrite list_lookup_alter_eq. destruct (l !! Z.to_nat id) as [t|]; [|done]. simpl. by case_decide.
Qed.

(** ** Runs of the coordinator

    [files] and [nReduce] are the arguments of [MakeCoordinator]. *)
Inductive coord_event : Type :=
| Request (clk : nat -> Z)
| Report (args : ReportTaskArgs).

Definition coord_next (c : Coordinator) (e : coord_event) : Coordinator :=
  match e with Request clk => fst (RequestTask clk c) | Report args => ReportTask args c end.

Section job.
Context (files : list string) (nReduce : Z).

(** The tasks are numbered in order and carry the files' names. *)
Record co_ok (c : Coordinator) : Prop := {
  ok_nMap : co_nMap c = zlen files;
  ok_nReduce : co_nReduce c = nReduce;
  ok_map_len : length (co_mapTasks c) = length files;
  ok_map : forall i t, co_mapTasks c !! i = Some t ->
    task_ID t = Z.of_nat i /\ files !! i = Some (task_FileName t);
  ok_reduce_len : length (co_reduceTasks c) = Z.to_nat nReduce;
  ok_reduce : forall i t, co_reduceTasks c !! i = Some t -> task_ID t = Z.of_nat i;
  ok_reduce_idle : co_phase c = MapPhase -> Forall (fun t => task_Status t = Idle) (co_reduceTasks c);
  ok_map_done : co_phase c <> MapPhase -> allMapTasksDone c = true;
  ok_reduce_done : co_phase c = DonePhase -> allReduceTasksDone c = true;
}.

Lemma MakeCoordinator_ok : co_ok (MakeCoordinator files nReduce).
Proof.
  split; simpl; try done.
  - apply length_imap.
  - intros i t. rewrite list_lookup_imap. intros (f & Hf & ->)%fmap_Some. done.
  - by rewrite length_fmap, length_seq.
  - intros i t. rewrite list_lookup_fmap. intros (j & Hj & ->)%fmap_Some. by apply lookup_seq in Hj as [-> _].
  - intros _. apply Forall_fmap, Forall_true. done.
Qed.

(** Steps that change one list of tasks, keeping numbers and names. *)
Definition same_names (l l' : list Task) : Prop :=
  length l' = length l /\
  forall i t', l' !! i = Some t' -> exists t, l !! i = Some t /\ task_ID t' = task_ID t /\ task_FileName t' = task_FileName t.

Lemma same_names_start l i t now :
  l !! i = Some t -> same_names l (<[i := start_task now t]> l).
Proof.
  intros Hi. split; [apply length_insert|]. intros j t' [(-> & <- & _)|[_ Hj]]%list_lookup_insert_Some; eauto.
Qed.

Lemma same_names_complete id l : same_names l (complete_task id l).
Proof.
  split; [apply length_alter|]. intros i t' (t & Ht & [->|(_ & _ & ->)])%complete_task_lookup; eauto.
Qed.

Lemma co_ok_map c l :
  co_ok c -> co_phase c = MapPhase -> same_names (co_mapTasks c) l -> co_ok (set_mapTasks l c).
Proof.
  intros H Hp [Hl Hn]. destruct H. split; simpl; auto; try congruence.
  - intros i t' (t & Ht & -> & ->)%Hn. auto.
Qed.

Lemma co_ok_reduce c l :
  co_ok c -> co_phase c = ReducePhase -> same_names (co_reduceTasks c) l -> co_ok (set_reduceTasks l c).
Proof.
  intros H Hp [Hl Hn]. destruct H. split; simpl; auto; try congruence.
  - intros i t' (t & Ht & -> & _)%Hn. auto.
Qed.

Lemma co_ok_reduce_phase c : co_ok c -> allMapTasksDone c = true -> co_phase c = MapPhase -> co_ok (set_phase ReducePhase c).
Proof. intros H Hm Hp. destruct H. split; simpl; auto; done. Qed.

Lemma co_ok_done c : co_ok c -> co_phase c = ReducePhase -> allReduceTasksDone c = true -> co_ok (set_phase DonePhase c).
Proof. intros H Hp Hr. destruct H. split; simpl; auto; [done|]. intros _. apply ok_map_done0. congruence. Qed.

(** What a request answers and does. *)
Inductive request_spec (clk : nat -> Z) (c : Coordinator) : Coordinator -> RequestTaskReply -> Prop :=
| RS_map i k t :
    co_phase c = MapPhase -> co_mapTasks c !! i = Some t ->
    (task_Status t = Idle \/ exists k, taskTimedOut (clk k) t = true) ->
    request_spec clk c (set_mapTasks (<[i := start_task (clk k) t]> (co_mapTasks c)) c)
      (reply_with c MapTask (Z.of_nat i) (task_FileName t))
| RS_reduce i k t c1 :
    co_ok c1 -> co_phase c1 = ReducePhase -> co_mapTasks c1 = co_mapTasks c -> co_reduceTasks c1 = co_reduceTasks c ->
    co_reduceTasks c !! i = Some t ->
    (task_Status t = Idle \/ exists k, taskTimedOut (clk k) t = true) ->
    request_spec clk c (set_reduceTasks (<[i := start_task (clk k) t]> (co_reduceTasks c)) c1)
      (reply_with c ReduceTask (Z.of_nat i) "")
| RS_wait c1 l :
    co_ok c1 -> co_phase c1 <> DonePhase -> co_mapTasks c1 = co_mapTasks c -> co_reduceTasks c1 = co_reduceTasks c ->
    l = (if decide (co_phase c1 = MapPhase) then co_mapTasks c else co_reduceTasks c) -> tasks_done l = false ->
    Forall (fun t => task_Status t = Completed \/ task_Status t = InProgress) l ->
    (forall i t, l !! i = Some t -> taskTimedOut (clk (2 * i)) t = false) ->
    request_spec clk c c1 (reply_with c WaitTask 0 "")
| RS_exit c1 :
    co_ok c1 -> co_phase c1 = DonePhase -> co_mapTasks c1 = co_mapTasks c -> co_reduceTasks c1 = co_reduceTasks c ->
    request_spec clk c c1 (reply_with c ExitTask 0 "").

Lemma request_reduce_ok clk c c0 :
  co_ok c0 -> co_phase c0 = ReducePhase -> co_mapTasks c0 = co_mapTasks c -> co_reduceTasks c0 = co_reduceTasks c ->
  co_nMap c0 = co_nMap c -> co_nReduce c0 = co_nReduce c ->
  exists c' r, request_reduce clk c0 = (c', r) /\ co_ok c' /\ request_spec clk c c' r.
Proof.
  intros Hok Hp Hm Hr HnM HnR.
  assert (forall ty id f, reply_with c0 ty id f = reply_with c ty id f) as Hrep
    by (intros; unfold reply_with; congruence).
  unfold request_reduce. destruct (allReduceTasksDone c0) eqn:Hd.
  - eexists _, _. split; [done|]. pose proof (co_ok_done _ Hok Hp Hd). split; [done|]. rewrite Hrep. by apply RS_exit.
  - destruct (assign clk (co_reduceTasks c0)) as [[l t]|] eqn:Ha.
    + apply assign_spec in Ha as (i & k & Hi & -> & Ht). eexists _, _. split; [done|]. split.
      * apply co_ok_reduce; [done..|]. by apply same_names_start.
      * rewrite (ok_reduce _ Hok _ _ Hi), Hrep, Hr. rewrite Hr in Hi. by apply RS_reduce.
    + eexists _, _. split; [done|]. split; [done|]. rewrite Hrep. apply assign_None in Ha as [HF Ht].
      rewrite Hr in HF, Ht. unfold allReduceTasksDone in Hd. rewrite Hr in Hd.
      eapply RS_wait with (l := co_reduceTasks c); auto; try congruence. by rewrite decide_False by congruence.
Qed.

Lemma RequestTask_ok clk c :
  co_ok c -> exists c' r, RequestTask clk c = (c', r) /\ co_ok c' /\ request_spec clk c c' r.
Proof.
  intros Hok. unfold RequestTask. destruct (co_phase c) eqn:Hp.
  - destruct (allMapTasksDone c) eqn:Hd.
    + apply request_reduce_ok; auto using co_ok_reduce_phase.
    + destruct (assign clk (co_mapTasks c)) as [[l t]|] eqn:Ha.
      * apply assign_spec in Ha as (i & k & Hi & -> & Ht). eexists _, _. split; [done|]. split.
        -- apply co_ok_map; [done..|]. by apply same_names_start.
        -- rewrite (proj1 (ok_map _ Hok _ _ Hi)). by apply RS_map.
      * eexists _, _. split; [done|]. split; [done|]. apply assign_None in Ha as [HF Ht].
        eapply RS_wait with (l := co_mapTasks c); auto; [congruence|by rewrite decide_True].
  - apply request_reduce_ok; auto.
  - eexists _, _. split; [done|]. split; [done|]. by apply RS_exit.
Qed.

Lemma ReportTask_ok args c : co_ok c -> co_ok (ReportTask args c).
Proof.
  intros Hok. unfold ReportTask. destruct (ra_TaskType args); [..|done|done].
  - case_match; [done|]. case_decide as Hp.
    + assert (co_ok (set_mapTasks (complete_task (ra_TaskID args) (co_mapTasks c)) c)) as H1
        by (apply co_ok_map; auto using same_names_complete).
      case_match eqn:E; [|done]. apply andb_true_iff in E as [E1%bool_decide_eq_true E2]. by apply co_ok_reduce_phase.
    + by rewrite bool_decide_false.
  - case_match; [done|]. case_decide as Hp.
    + assert (co_ok (set_reduceTasks (complete_task (ra_TaskID args) (co_reduceTasks c)) c)) as H1
        by (apply co_ok_reduce; auto using same_names_complete).
      case_match eqn:E; [|done]. apply andb_true_iff in E as [E1%bool_decide_eq_true E2]. by apply co_ok_done.
    + by rewrite bool_decide_false.
Qed.

Lemma coord_next_ok c e : co_ok c -> co_ok (coord_next c e).
Proof.
  intros H. destruct e as [clk|args]; [|by apply ReportTask_ok].
  destruct (RequestTask_ok clk c H) as (c' & r & He & Hok & _). simpl. by rewrite He.
Qed.

Lemma coord_run_ok es : co_ok (foldl coord_next (MakeCoordinator files nReduce) es).
Proof.
  induction es as [|e es IH] using rev_ind; [apply MakeCoordinator_ok|]. rewrite foldl_snoc. by apply coord_next_ok.
Qed.

(** ** Completed tasks stay completed, and phases only advance *)

Definition phase_rank (p : Phase) : nat := match p with MapPhase => 0 | ReducePhase => 1 | DonePhase => 2 end.

Definition keeps_completed (l l' : list Task) : Prop :=
  forall i t, l !! i = Some t -> task_Status t = Completed -> l' !! i = Some t.

Record co_le (c c' : Coordinator) : Prop := {
  le_phase : phase_rank (co_phase c) <= phase_rank (co_phase c');
  le_map : keeps_completed (co_mapTasks c) (co_mapTasks c');
  le_reduce : keeps_completed (co_reduceTasks c) (co_reduceTasks c');
}.

Lemma co_le_refl c : co_le c c.
Proof. split; [lia|intros ?; auto..]. Qed.

Lemma co_le_trans c1 c2 c3 : co_le c1 c2 -> co_le c2 c3 -> co_le c1 c3.
Proof. intros [] []. split; [lia|intros ? ? ? ?; auto..]. Qed.

Lemma keeps_start l i t k (clk : nat -> Z) :
  l !! i = Some t -> (task_Status t = Idle \/ exists k, taskTimedOut (clk k) t = true) ->
  keeps_completed l (<[i := start_task k t]> l).
Proof.
  intros Hi Ht j t' Hj Hc. destruct (decide (i = j)) as [<-|Hne]; [|by rewrite list_lookup_insert_ne].
  assert (t' = t) as -> by congruence. destruct Ht as [?|[k' [E _]%andb_true_iff]]; [congruence|].
  apply bool_decide_eq_true in E. congruence.
Qed.

Lemma keeps_complete id l : keeps_completed l (complete_task id l).
Proof. intros i t H Hc. by apply complete_task_completed. Qed.

Lemma request_le clk c c' r : co_ok c -> RequestTask clk c = (c', r) -> co_le c c'.
Proof.
  intros Hok He. destruct (RequestTask_ok clk c Hok) as (c2 & r2 & He2 & _ & Hs).
  rewrite He in He2. injection He2 as <- <-. pose proof (ok_reduce_done _ Hok) as Hrd.
  destruct Hs as [i k t Hp Hi Ht|i k t c1 Hok1 Hp1 Hm1 Hr1 Hi Ht|c1 l Hok1 Hp1 Hm1 Hr1|c1 Hok1 Hp1 Hm1 Hr1].
  - split; simpl; [lia| |intros ?; auto]. by eapply keeps_start.
  - split; simpl.
    + rewrite Hp1. simpl. destruct (co_phase c) eqn:E; simpl; [lia..|].
      exfalso. specialize (Hrd eq_refl). apply tasks_done_spec in Hrd. rewrite Forall_lookup in Hrd.
      pose proof (Hrd _ _ Hi). destruct Ht as [?|[k' [E' _]%andb_true_iff]]; [congruence|].
      apply bool_decide_eq_true in E'. congruence.
    + rewrite Hm1. intros ?; auto.
    + by eapply keeps_start.
  - split; rewrite ?Hm1, ?Hr1; [|intros ?; auto..].
    unfold RequestTask, request_reduce, reply_with in He.
    destruct (co_phase c) eqn:Hp; simpl; [lia| |]; repeat case_match; simplify_eq/=; rewrite ?Hp; simpl; lia.
  - split; rewrite ?Hm1, ?Hr1, ?Hp1; [|intros ?; auto..]. simpl. destruct (co_phase c); simpl; lia.
Qed.

Lemma report_le args c : co_le c (ReportTask args c).
Proof.
  unfold ReportTask. destruct (ra_TaskType args); [..|apply co_le_refl|apply co_le_refl].
  - case_match; [apply co_le_refl|]. case_decide as Hp.
    + case_match; (split; simpl; [rewrite Hp; simpl; lia|apply keeps_complete|intros ?; auto]).
    + rewrite bool_decide_false by done. apply co_le_refl.
  - case_match; [apply co_le_refl|]. case_decide as Hp.
    + case_match; (split; simpl; [rewrite Hp; simpl; lia|intros ?; auto|apply keeps_complete]).
    + rewrite bool_decide_false by done. apply co_le_refl.
Qed.

Lemma coord_next_le c e : co_ok c -> co_le c (coord_next c e).
Proof.
  intros Hok. destruct e as [clk|args]; [|apply report_le]. simpl.
  destruct (RequestTask clk c) as [c' r] eqn:He. by eapply request_le.
Qed.

Lemma coord_more_le c es : co_ok c -> co_le c (foldl coord_next c es).
Proof.
  revert c. induction es as [|e es IH]; intros c Hok; [apply co_le_refl|]. simpl.
  eapply co_le_trans; [by apply coord_next_le|]. apply IH. by apply coord_next_ok.
Qed.

(** C29. Whatever requests and reports the workers make, and whenever: the phases
    only advance and a completed task stays completed; a request is answered with a
    map task of the right file that is not completed, or, only when all map tasks
    are completed, with a reduce task that is not completed, and a worker is told to
    exit, and the job is reported done, only when every task is completed. *)
Theorem coordinator_phases es1 es2 clk :
  let c := foldl coord_next (MakeCoordinator files nReduce) es1 in
  let c' := foldl coord_next c es2 in
  let r := snd (RequestTask clk c) in
  co_le c c' /\
  (rt_TaskType r = MapTask -> exists i t, rt_TaskID r = Z.of_nat i /\ files !! i = Some (rt_FileName r) /\
     co_phase c = MapPhase /\ co_mapTasks c !! i = Some t /\ task_Status t <> Completed) /\
  (rt_TaskType r = ReduceTask -> exists i t, rt_TaskID r = Z.of_nat i /\ i < Z.to_nat nReduce /\
     allMapTasksDone c = true /\ co_reduceTasks c !! i = Some t /\ task_Status t <> Completed) /\
  (rt_TaskType r = ExitTask \/ Done c = true ->
     length (co_mapTasks c) = length files /\ allMapTasksDone c = true /\
     length (co_reduceTasks c) = Z.to_nat nReduce /\ allReduceTasksDone c = true).
Proof.
  intros c c' r. pose proof (coord_run_ok es1) as Hok. fold c in Hok. split; [by apply coord_more_le|].
  destruct (RequestTask_ok clk c Hok) as (c2 & r2 & He & Hok2 & Hs).
  assert (r = r2) as -> by (unfold r; by rewrite He).
  assert (forall t, task_Status t = Idle \/ (exists k, taskTimedOut (clk k) t = true) -> task_Status t <> Completed) as Hnc.
  { intros t [E|[k [E _]%andb_true_iff]]; [congruence|]. apply bool_decide_eq_true in E. congruence. }
  assert (forall d, co_ok d -> co_phase d <> MapPhase -> co_mapTasks d = co_mapTasks c -> allMapTasksDone c = true) as Hmd.
  { intros d Hd Hp Hm. unfold allMapTasksDone. rewrite <- Hm. by apply (ok_map_done _ Hd). }
  split_and!.
  - intros Hty. destruct Hs as [i k t Hp Hi Ht| | |]; try done. exists i, t. split_and!; auto.
    simpl. apply (ok_map _ Hok _ _ Hi).
  - intros Hty. destruct Hs as [|i k t c1 Hok1 Hp1 Hm1 Hr1 Hi Ht| |]; try done. exists i, t. split_and!; auto.
    + rewrite <- (ok_reduce_len _ Hok). by apply lookup_lt_Some in Hi.
    + apply (Hmd c1); [done|congruence|done].
  - intros Hd. assert (exists d, co_ok d /\ co_phase d = DonePhase /\ co_mapTasks d = co_mapTasks c /\
        co_reduceTasks d = co_reduceTasks c) as (d & Hd1 & Hd2 & Hd3 & Hd4).
    { destruct Hd as [Hd|Hd]; [|apply bool_decide_eq_true in Hd; by exists c].
      destruct Hs; try done. eauto. }
    split_and!; [apply Hok|apply (Hmd d); [done|congruence|done]|apply Hok|].
    unfold allReduceTasksDone. rewrite <- Hd4. by apply (ok_reduce_done _ Hd1).
Qed.

(** ** A worker left alone finishes the job

    One iteration of the loop of [Worker] against the coordinator, the task itself
    done in between; [None] is the answer that ends the loop. *)
Definition lone_next (clk : nat -> Z) (c : Coordinator) : option Coordinator :=
  let '(c1, r) := RequestTask clk c in
  match rt_TaskType r with
  | ExitTask => None
  | WaitTask => Some c1
  | ty => Some (ReportTask (mkReportTaskArgs ty (rt_TaskID r)) c1)
  end.

(** A worker that is told to wait sleeps for a second. *)
Definition lone_iter (s s' : Coordinator * Z) : Prop :=
  exists clk, lone_next clk (fst s) = Some (fst s') /\ (forall k, (snd s <= clk k <= snd s')%Z) /\
    (rt_TaskType (snd (RequestTask clk (fst s))) = WaitTask -> (snd s + second <= snd s')%Z).

Definition unfinished (l : list Task) : nat := length (filter (fun t => task_Status t <> Completed) l).

Definition undone (c : Coordinator) : nat := unfinished (co_mapTasks c) + unfinished (co_reduceTasks c).

(** No task in progress was started after [t0]. *)
Definition old_starts (t0 : Z) (l : list Task) : Prop :=
  forall i t, l !! i = Some t -> task_Status t = InProgress -> (task_StartTime t <= t0)%Z.

Definition lone_inv (t0 : Z) (c : Coordinator) : Prop :=
  co_ok c /\ old_starts t0 (co_mapTasks c) /\ old_starts t0 (co_reduceTasks c).

(** Handing out task [i] and having it reported completes it. *)
Lemma start_complete l i t now :
  l !! i = Some t ->
  complete_task (Z.of_nat i) (<[i := start_task now t]> l) = <[i := set_status Completed (start_task now t)]> l.
Proof.
  intros Hi. pose proof (lookup_lt_Some _ _ _ Hi). apply list_eq. intros j. unfold complete_task. rewrite Nat2Z.id.
  destruct (decide (i = j)) as [<-|Hne].
  - by rewrite list_lookup_alter_eq, !list_lookup_insert_eq by done.
  - by rewrite list_lookup_alter_ne, !list_lookup_insert_ne.
Qed.

Lemma unfinished_complete l i t t' :
  l !! i = Some t -> task_Status t <> Completed -> task_Status t' = Completed ->
  S (unfinished (<[i := t']> l)) = unfinished l.
Proof.
  intros Hi Ht Ht'. unfold unfinished. pose proof (lookup_lt_Some _ _ _ Hi) as Hlt.
  rewrite insert_take_drop by done. rewrite <- (take_drop_middle l i t) at 3 by done.
  rewrite !filter_app, !length_app, !filter_cons.
  destruct (decide (task_Status t' <> Completed)); [done|].
  destruct (decide (task_Status t <> Completed)); [simpl; lia|done].
Qed.

Lemma old_starts_complete t0 l i t' :
  old_starts t0 l -> task_Status t' = Completed -> old_starts t0 (<[i := t']> l).
Proof. intros H Ht' j t [(-> & <- & _)|[_ Hj]]%list_lookup_insert_Some Hp; [congruence|eauto]. Qed.

Lemma unassigned_not_completed (clk : nat -> Z) t :
  task_Status t = Idle \/ (exists k, taskTimedOut (clk k) t = true) -> task_Status t <> Completed.
Proof. intros [E|[k [E _]%andb_true_iff]]; [congruence|]. apply bool_decide_eq_true in E. congruence. Qed.

(** The report of a task that was just started. *)
Lemma report_started_map c i t now :
  co_phase c = MapPhase -> co_mapTasks c !! i = Some t ->
  let c' := ReportTask (mkReportTaskArgs MapTask (Z.of_nat i)) (set_mapTasks (<[i := start_task now t]> (co_mapTasks c)) c) in
  co_mapTasks c' = <[i := set_status Completed (start_task now t)]> (co_mapTasks c) /\
  co_reduceTasks c' = co_reduceTasks c.
Proof.
  intros Hp Hi. pose proof (lookup_lt_Some _ _ _ Hi) as Hlt. unfold ReportTask.
  cbn [ra_TaskType ra_TaskID co_mapTasks set_mapTasks co_phase]. rewrite Hp, decide_True by done.
  rewrite (proj2 (orb_false_iff _ _)).
  2:{ split; [apply Z.ltb_ge; lia|]. apply Z.leb_gt. unfold zlen. rewrite length_insert. lia. }
  rewrite start_complete by done. by destruct (_ && _).
Qed.

Lemma report_started_reduce c i t now :
  co_phase c = ReducePhase -> co_reduceTasks c !! i = Some t ->
  let c' := ReportTask (mkReportTaskArgs ReduceTask (Z.of_nat i))
    (set_reduceTasks (<[i := start_task now t]> (co_reduceTasks c)) c) in
  co_mapTasks c' = co_mapTasks c /\
  co_reduceTasks c' = <[i := set_status Completed (start_task now t)]> (co_reduceTasks c).
Proof.
  intros Hp Hi. pose proof (lookup_lt_Some _ _ _ Hi) as Hlt. unfold ReportTask.
  cbn [ra_TaskType ra_TaskID co_reduceTasks set_reduceTasks co_phase]. rewrite Hp, decide_True by done.
  rewrite (proj2 (orb_false_iff _ _)).
  2:{ split; [apply Z.ltb_ge; lia|]. apply Z.leb_gt. unfold zlen. rewrite length_insert. lia. }
  rewrite start_complete by done. by destruct (_ && _).
Qed.

(** One iteration: a task is completed, or the wait is for a task started by [t0]. *)
Lemma lone_next_step t0 clk c c' :
  lone_inv t0 c -> lone_next clk c = Some c' ->
  lone_inv t0 c' /\
  ((rt_TaskType (snd (RequestTask clk c)) <> WaitTask /\ S (undone c') <= undone c) \/
   (rt_TaskType (snd (RequestTask clk c)) = WaitTask /\ undone c' = undone c /\
    exists k, (clk k <= t0 + 10 * second)%Z)).
Proof.
  intros (Hok & Hm & Hr) He. unfold lone_next in He.
  destruct (RequestTask_ok clk c Hok) as (c1 & r & Heq & Hok1 & Hs). rewrite Heq in He |- *. cbn [snd].
  destruct Hs as [i k t Hp Hi Ht|i k t c0 Hok0 Hp0 Hm0 Hr0 Hi Ht|c0 l Hok0 Hp0 Hm0 Hr0 Hl Hd HF Hto|];
    cbn [rt_TaskType reply_with rt_TaskID] in He; [| | |done]; injection He as <-.
  - pose proof (unassigned_not_completed _ _ Ht) as Hnc.
    pose proof (ReportTask_ok (mkReportTaskArgs MapTask (Z.of_nat i)) _ Hok1) as Hrep.
    destruct (report_started_map c i t (clk k) Hp Hi) as [E1 E2].
    pose proof (unfinished_complete _ i t (set_status Completed (start_task (clk k) t)) Hi Hnc eq_refl).
    split; [split; [done|rewrite E1, E2; split; [by apply old_starts_complete|done]]|left].
    split; [done|]. unfold undone. rewrite E1, E2. lia.
  - pose proof (unassigned_not_completed _ _ Ht) as Hnc. rewrite <- Hr0 in Hi.
    pose proof (ReportTask_ok (mkReportTaskArgs ReduceTask (Z.of_nat i)) _ Hok1) as Hrep.
    destruct (report_started_reduce c0 i t (clk k) Hp0 Hi) as [E1 E2]. rewrite <- Hr0 in Hrep |- *.
    pose proof (unfinished_complete _ i t (set_status Completed (start_task (clk k) t)) Hi Hnc eq_refl).
    split; [split; [done|rewrite E1, E2, Hm0; split; [done|apply old_starts_complete; [by rewrite Hr0|done]]]|left].
    split; [done|]. unfold undone. rewrite E1, E2, Hm0, <- Hr0. lia.
  - split; [by split; [|rewrite Hm0, Hr0]|]. right. split; [done|]. split; [unfold undone; congruence|].
    assert (exists i t, l !! i = Some t /\ task_Status t = InProgress) as (i & t & Hi & Hp).
    { destruct (Exists_exists (fun t => task_Status t <> Completed) l) as [Hex _].
      destruct Hex as (t & Hin & Hnc).
      { apply not_Forall_Exists; [apply _|]. intros HFc. apply tasks_done_spec in HFc. congruence. }
      apply list_elem_of_lookup in Hin as [i Hi]. exists i, t. split; [done|].
      rewrite Forall_lookup in HF. destruct (HF i t Hi); done. }
    specialize (Hto i t Hi). unfold taskTimedOut in Hto. rewrite bool_decide_true in Hto by done. rewrite andb_true_l in Hto.
    apply Z.ltb_ge in Hto. exists (2 * i).
    assert (task_StartTime t <= t0)%Z; [|unfold second in *; lia].
    rewrite Hl in Hi. case_decide; eauto.
Qed.

(** The seconds a worker may still have to wait, and one. *)
Definition slack (t0 now : Z) : nat := Z.to_nat ((t0 + 11 * second - now) / second).

Lemma slack_wait t0 now now' :
  (now <= t0 + 10 * second)%Z -> (now + second <= now')%Z -> S (slack t0 now') <= slack t0 now.
Proof.
  unfold slack, second. intros H1 H2.
  pose proof (Z.div_le_mono (t0 + 11 * 1000000000 - now') (t0 + 11 * 1000000000 - now + (-1) * 1000000000) 1000000000 ltac:(lia) ltac:(lia)) as H3.
  rewrite Z.div_add in H3 by done.
  pose proof (Z.div_le_lower_bound (t0 + 11 * 1000000000 - now) 1000000000 1 ltac:(lia) ltac:(lia)). lia.
Qed.

Lemma slack_mono t0 now now' : (now <= now')%Z -> slack t0 now' <= slack t0 now.
Proof.
  unfold slack, second. intros H.
  pose proof (Z.div_le_mono (t0 + 11 * 1000000000 - now') (t0 + 11 * 1000000000 - now) 1000000000 ltac:(lia) ltac:(lia)). lia.
Qed.

Lemma lone_bound t0 n s s' :
  nsteps lone_iter n s s' -> lone_inv t0 (fst s) ->
  n <= undone (fst s) + slack t0 (snd s) /\ lone_inv t0 (fst s').
Proof.
  induction 1 as [s|n s1 s2 s3 Hit _ IH]; intros Hinv; [split; [lia|done]|].
  destruct Hit as (clk & He & Hclk & Hw). destruct (lone_next_step _ _ _ _ Hinv He) as [Hinv2 Hcase].
  destruct (IH Hinv2) as [Hn Hinv3]. split; [|done].
  assert (snd s1 <= snd s2)%Z as Hle by (pose proof (Hclk 0); lia).
  destruct Hcase as [[_ Hu]|(Hty & Hu & k & Hk)].
  - pose proof (slack_mono t0 _ _ Hle). lia.
  - specialize (Hw Hty). pose proof (Hclk k).
    pose proof (slack_wait t0 (snd s1) (snd s2) ltac:(lia) Hw). lia.
Qed.

Lemma old_starts_start t0 l i t now :
  old_starts t0 l -> (now <= t0)%Z -> old_starts t0 (<[i := start_task now t]> l).
Proof. intros H Hn j t' [(-> & <- & _)|[_ Hj]]%list_lookup_insert_Some Hp; [done|eauto]. Qed.

Lemma old_starts_report t0 id l : old_starts t0 l -> old_starts t0 (complete_task id l).
Proof. intros H i t (t1 & Ht1 & [->|(_ & _ & ->)])%complete_task_lookup Hp; [eauto|done]. Qed.

Definition before (t0 : Z) (e : coord_event) : Prop :=
  match e with Request clk => forall k, (clk k <= t0)%Z | Report _ => True end.

Lemma coord_next_lone t0 c e : lone_inv t0 c -> before t0 e -> lone_inv t0 (coord_next c e).
Proof.
  intros (Hok & Hm & Hr) Hb. split; [by apply coord_next_ok|]. destruct e as [clk|args]; simpl in *.
  - destruct (RequestTask_ok clk c Hok) as (c1 & r & -> & _ & Hs).
    destruct Hs as [i k t Hp Hi Ht|i k t c0 _ _ Hm0 Hr0 Hi Ht|c0 l _ _ Hm0 Hr0|c0 _ _ Hm0 Hr0]; simpl;
      rewrite ?Hm0, ?Hr0; auto using old_starts_start.
  - unfold ReportTask. destruct (ra_TaskType args); [..|done|done]; repeat (case_match || case_decide); simpl;
      auto using old_starts_report.
Qed.

Lemma coord_run_lone t0 es : Forall (before t0) es -> lone_inv t0 (foldl coord_next (MakeCoordinator files nReduce) es).
Proof.
  intros HF. induction es as [|e es IH] using rev_ind.
  - split; [apply MakeCoordinator_ok|]. split; intros i t; simpl.
    + rewrite list_lookup_imap. by intros (f & _ & ->)%fmap_Some.
    + rewrite list_lookup_fmap. by intros (f & _ & ->)%fmap_Some.
  - apply Forall_app in HF as [HF He]. rewrite foldl_snoc. apply coord_next_lone; [auto|]. by inversion He.
Qed.

Lemma undone_bound c : co_ok c -> undone c <= length files + Z.to_nat nReduce.
Proof.
  intros H. unfold undone, unfinished. rewrite <- (ok_map_len _ H), <- (ok_reduce_len _ H).
  pose proof (length_filter (fun t => task_Status t <> Completed) (co_mapTasks c)).
  pose proof (length_filter (fun t => task_Status t <> Completed) (co_reduceTasks c)). lia.
Qed.

(** C30. However the job went until time [t0], with any number of tasks taken by
    workers that died, a single worker that keeps going finishes it: its loop makes
    at most one iteration per task and eleven waits of a second, each iteration can
    be made at any clock readings, and when the loop ends the job is done. *)
Theorem lone_worker_finishes es t0 n s :
  Forall (before t0) es -> nsteps lone_iter n (foldl coord_next (MakeCoordinator files nReduce) es, t0) s ->
  n <= length files + Z.to_nat nReduce + 11 /\
  (forall clk c', lone_next clk (fst s) = Some c' -> (exists u, forall k, (snd s <= clk k <= u)%Z) ->
     exists now', lone_iter s (c', now')) /\
  (forall clk, lone_next clk (fst s) = None -> Done (fst (RequestTask clk (fst s))) = true).
Proof.
  intros HF Hn. pose proof (coord_run_lone t0 es HF) as Hinv.
  destruct (lone_bound t0 _ _ _ Hn Hinv) as [Hb Hinv2]. split_and!.
  - pose proof (undone_bound _ (proj1 Hinv)). cbn [fst snd] in *.
    assert (slack t0 t0 = 11) as E; [|lia]. unfold slack.
    replace (t0 + 11 * second - t0)%Z with (11 * second)%Z by lia. reflexivity.
  - intros clk c' He [u Hu]. exists (Z.max u (snd s + second)), clk. split; [done|]. cbn [fst snd].
    split; [intros k; specialize (Hu k); lia|lia].
  - intros clk He. unfold lone_next in He. destruct Hinv2 as [Hok _].
    destruct (RequestTask_ok clk _ Hok) as (c1 & r & Heq & _ & Hs). rewrite Heq in He |- *.
    destruct Hs as [| | |c2 Hok2 Hp Hm2 Hr2]; try done. by apply bool_decide_eq_true.
Qed.
End job.

(** A worker that took the only map task died; another waits. *)
Lemma lone_worker_finishes_witness :
  1 <= 1 + 1 + 11.
Proof.
  refine (proj1 (lone_worker_finishes ["f"] 1 [Request (fun _ => 0%Z)] 0 1
    (foldl coord_next (MakeCoordinator ["f"] 1) [Request (fun _ => 0%Z)], second) _ _)).
  - repeat constructor. intros k. done.
  - eapply nsteps_l; [|apply nsteps_O]. exists (fun _ => 0%Z). split; [reflexivity|]. split; [intros k; done|done].
Defined.
