(* ===== verification/MrWorker.v ===== *)
(** * The MapReduce worker and the sequential program
    ([mr/util.go], [mr/worker.go], [main/mrsequential.go])

    Both are programs ([Prog]) over the files of the directory they run in, the
    application's Map and Reduce functions, which come from a plugin, and, for the
    worker, remote calls of the coordinator.  [log.Fatalf] ends the process: it is
    an effect without an answer. *)

From S2P Require Import Prelude.
From S2P Require Import GoLib.
From S2P Require Import Prog.
From S2P Require Import MrCoord.
From Stdlib Require Import Ascii.

Record KeyValue : Type := mkKeyValue { kv_Key : string; kv_Value : string }.

(** Go compares strings byte by byte. *)
Definition key_le (a b : KeyValue) : Prop := String.le (kv_Key a) (kv_Key b).

Definition ihash (key : string) : Z := Z.land (fnv32a (String.list_ascii_of_string key)) 0x7fffffff.

(** ** Library functions the files rely on *)

(** [json.Decoder.Decode]: the end of the input, an error, or a value and the input
    that is left. *)
Inductive decoded : Type := DecEOF | DecErr | DecVal (kv : KeyValue) (rest : string).

(** [encoding/json] on [KeyValue] and [sort.Sort(ByKey(..))]. *)
Class MrLib : Type := {
  Encode : KeyValue -> string;
  Decode : string -> decoded;
  sortByKey : list KeyValue -> list KeyValue;
}.

(** What is documented of them.  JSON strings are Unicode: only [json_clean] values,
    those of valid UTF-8, come back unchanged. *)
Class MrLibLaws `{MrLib} : Type := {
  json_clean : KeyValue -> Prop;
  Decode_Encode : forall kv rest, json_clean kv -> Decode (Encode kv ++ rest) = DecVal kv rest;
  Decode_empty : Decode "" = DecEOF;
  sortByKey_sorts : forall l, sorted_copy key_le l (sortByKey l);
}.

(** ** The effects *)

(** [call]: the coordinator cannot be reached, the call failed, or it answered. *)
Inductive call_result (A : Type) : Type := DialFailed | CallFailed | Replied (a : A).

Arguments DialFailed {A}.
Arguments CallFailed {A}.
Arguments Replied {A}.

(** The file effects answer [None] or [false] on an error.  [ECreateTemp p] is
    [os.CreateTemp(".", p + "*")], [EPrint] writes through the buffered writer of a
    temporary file, and [EOpen] reads a file to its end: the file it opened stays
    as it is when another takes over its name. *)
Inductive mr_eff : Type :=
| ERequestTask
| EReportTask (args : ReportTaskArgs)
| ESleep
| EMap (file content : string)
| EReduce (key : string) (values : list string)
| EReadFile (name : string)
| EOpen (name : string)
| ECreateTemp (prefix : string)
| EPrint (tmp text : string)
| EFlush (tmp : string)
| EClose (name : string)
| ERename (old new : string)
| ERemove (name : string)
| ECreate (name : string)
| EFprintf (name text : string)
| EFatal.

Definition mr_resp (e : mr_eff) : Type :=
  match e with
  | ERequestTask => call_result RequestTaskReply
  | EReportTask _ => call_result unit
  | ESleep | ERemove _ => unit
  | EMap _ _ => list KeyValue
  | EReduce _ _ => string
  | EReadFile _ | EOpen _ | ECreateTemp _ => option string
  | EPrint _ _ | EFlush _ | EClose _ | ERename _ _ | ECreate _ | EFprintf _ _ => bool
  | EFatal => Empty_set
  end.

Abbreviation mr_prog := (prog mr_resp).

Definition fatal {A} : mr_prog A := Call EFatal (fun r : Empty_set => match r with end).

(** [call]: [log.Fatal] when dialing fails, else whether the call succeeded. *)
Definition called {A B} (r : call_result A) (k : option A -> mr_prog B) : mr_prog B :=
  match r with DialFailed => fatal | CallFailed => k None | Replied a => k (Some a) end.

(** ** Files *)

Definition inter_name (mapID reduceID : Z) : string := ("mr-" ++ itoa mapID ++ "-" ++ itoa reduceID)%string.

Definition out_name (reduceID : Z) : string := ("mr-out-" ++ itoa reduceID)%string.

(** [Close; Remove; log.Fatalf] *)
Definition discard {A} (tmp : string) : mr_prog A :=
  Call (EClose tmp) (fun _ : bool => Call (ERemove tmp) (fun _ : unit => fatal)).

(** [Flush], [Close] and [Rename] of a temporary file, with their error paths. *)
Definition save_temp {A} (tmp final : string) (k : mr_prog A) : mr_prog A :=
  Call (EFlush tmp) (fun ok : bool => if ok then
    Call (EClose tmp) (fun ok : bool => if ok then
      Call (ERename tmp final) (fun ok : bool => if ok then k
        else Call (ERemove tmp) (fun _ : unit => fatal))
      else Call (ERemove tmp) (fun _ : unit => fatal))
    else discard tmp).

(** ** The map task *)

Section worker.
Context `{MrLib}.

(** [buckets[ihash(kv.Key) % NReduce] = append(.., kv)]: [None] is a panic. *)
Definition add_to_bucket (nReduce : Z) (buckets : list (list KeyValue)) (kv : KeyValue)
    : option (list (list KeyValue)) :=
  if (nReduce =? 0)%Z then None
  else
    let reduceID := Z.rem (ihash (kv_Key kv)) nReduce in
    bucket ← zlookup buckets reduceID;
    Some (<[Z.to_nat reduceID := bucket ++ [kv]]> buckets).

Fixpoint fill_buckets (nReduce : Z) (kva : list KeyValue) (buckets : list (list KeyValue))
    : option (list (list KeyValue)) :=
  match kva with
  | [] => Some buckets
  | kv :: kva' => b ← add_to_bucket nReduce buckets kv; fill_buckets nReduce kva' b
  end.

Definition make_buckets (nReduce : Z) (kva : list KeyValue) : option (list (list KeyValue)) :=
  if (nReduce <? 0)%Z then None else fill_buckets nReduce kva (replicate (Z.to_nat nReduce) []).

(** Writing the texts to a temporary file. *)
Fixpoint print_all {A} (tmp : string) (texts : list string) (k : mr_prog A) : mr_prog A :=
  match texts with
  | [] => k
  | text :: texts' =>
      Call (EPrint tmp text) (fun ok : bool => if ok then print_all tmp texts' k else discard tmp)
  end.

Fixpoint write_buckets (mapID reduceID : Z) (buckets : list (list KeyValue)) : mr_prog unit :=
  match buckets with
  | [] => Ret tt
  | bucket :: buckets' =>
      let finalName := inter_name mapID reduceID in
      Call (ECreateTemp (finalName ++ "-")) (fun t : option string =>
        match t with
        | None => fatal
        | Some tmp => print_all tmp (Encode <$> bucket)
            (save_temp tmp finalName (write_buckets mapID (reduceID + 1) buckets'))
        end)
  end.

Definition doMapTask (task : RequestTaskReply) : mr_prog unit :=
  Call (EReadFile (rt_FileName task)) (fun c : option string =>
    match c with
    | None => fatal
    | Some content =>
        Call (EMap (rt_FileName task) content) (fun kva : list KeyValue =>
          match make_buckets (rt_NReduce task) kva with
          | None => Panic
          | Some buckets => write_buckets (rt_TaskID task) 0 buckets
          end)
    end).

(** ** The reduce task *)

(** The decoding loop over one file's text: [None] is a decoding error. *)
Fixpoint decode_all (fuel : nat) (text : string) : mr_prog (option (list KeyValue)) :=
  match fuel with
  | O => Spin
  | S fuel' =>
      match Decode text with
      | DecEOF => Ret (Some [])
      | DecErr => Ret None
      | DecVal kv rest => decode_all fuel' rest ≫= (fun r : option (list KeyValue) => Ret (option_map (cons kv) r))
      end
  end.

Definition read_inter (name : string) : mr_prog (list KeyValue) :=
  Call (EOpen name) (fun c : option string =>
    match c with
    | None => fatal
    | Some text =>
        decode_all (S (String.length text)) text ≫= (fun r : option (list KeyValue) =>
          match r with
          | None => Call (EClose name) (fun _ : bool => fatal)
          | Some kvs => Call (EClose name) (fun ok : bool => if ok then Ret kvs else fatal)
          end)
    end).

(** [for mapID < NMap]: [n] files are left. *)
Fixpoint read_inters (n : nat) (mapID reduceID : Z) : mr_prog (list KeyValue) :=
  match n with
  | O => Ret []
  | S n' =>
      read_inter (inter_name mapID reduceID) ≫= (fun kvs =>
        read_inters n' (mapID + 1) reduceID ≫= (fun rest => Ret (kvs ++ rest)))
  end.

(** The values of the elements from [i] up to the first with another key, and the
    elements from there. *)
Fixpoint run_of (key : string) (l : list KeyValue) : list string * list KeyValue :=
  match l with
  | kv :: l' => if decide (kv_Key kv = key) then let '(vs, r) := run_of key l' in (kv_Value kv :: vs, r) else ([], l)
  | [] => ([], [])
  end.

(** The line written for a key. *)
Definition reduce_line (key output : string) : string := (key ++ " " ++ output ++ String "010"%char "")%string.

(** The loop that calls Reduce on each distinct key of the sorted elements and
    writes a line with [emit]. *)
Fixpoint reduce_loop {A} (emit : string -> mr_prog A -> mr_prog A) (fuel : nat) (l : list KeyValue)
    (k : mr_prog A) : mr_prog A :=
  match l with
  | [] => k
  | kv :: l' =>
      match fuel with
      | O => Spin
      | S fuel' =>
          let '(vs, rest) := run_of (kv_Key kv) l' in
          Call (EReduce (kv_Key kv) (kv_Value kv :: vs)) (fun output : string =>
            emit (reduce_line (kv_Key kv) output) (reduce_loop emit fuel' rest k))
      end
  end.

Definition doReduceTask (task : RequestTaskReply) : mr_prog unit :=
  read_inters (Z.to_nat (rt_NMap task)) 0 (rt_TaskID task) ≫= (fun intermediate =>
    let sorted := sortByKey intermediate in
    let finalName := out_name (rt_TaskID task) in
    Call (ECreateTemp (finalName ++ "-")) (fun t : option string =>
      match t with
      | None => fatal
      | Some tmp =>
          reduce_loop (fun line k => Call (EPrint tmp line) (fun ok : bool => if ok then k else discard tmp))
            (length sorted) sorted (save_temp tmp finalName (Ret tt))
      end)).

(** ** The worker's loop *)

Definition reportTask (ty : TaskType) (id : Z) : mr_prog unit :=
  Call (EReportTask (mkReportTaskArgs ty id)) (fun r : call_result unit => called r (fun _ => Ret tt)).

Fixpoint Worker (fuel : nat) : mr_prog unit :=
  match fuel with
  | O => Spin
  | S fuel' =>
      Call ERequestTask (fun r : call_result RequestTaskReply => called r (fun reply =>
        match reply with
        | None => Call ESleep (fun _ : unit => Worker fuel')
        | Some reply =>
            match rt_TaskType reply with
            | MapTask => doMapTask reply ≫= (fun _ => reportTask MapTask (rt_TaskID reply) ≫= (fun _ => Worker fuel'))
            | ReduceTask =>
                doReduceTask reply ≫= (fun _ => reportTask ReduceTask (rt_TaskID reply) ≫= (fun _ => Worker fuel'))
            | WaitTask => Call ESleep (fun _ : unit => Worker fuel')
            | ExitTask => Ret tt
            end
        end))
  end.

(** ** The sequential program *)

Fixpoint seq_read (files : list string) : mr_prog (list KeyValue) :=
  match files with
  | [] => Ret []
  | filename :: files' =>
      Call (EReadFile filename) (fun c : option string =>
        match c with
        | None => fatal
        | Some content =>
            Call (EMap filename content) (fun kva : list KeyValue =>
              seq_read files' ≫= (fun rest => Ret (kva ++ rest)))
        end)
  end.

(** [main] with the input files of its arguments.  The error of [os.Create] is
    ignored: nothing is written then. *)
Definition mrsequential (files : list string) : mr_prog unit :=
  if decide (files = []) then fatal
  else seq_read files ≫= (fun intermediate =>
    let sorted := sortByKey intermediate in
    Call (ECreate "mr-out-0") (fun ok : bool =>
      reduce_loop (fun line k => if ok then Call (EFprintf "mr-out-0" line) (fun _ : bool => k) else k)
        (length sorted) sorted (Call (EClose "mr-out-0") (fun _ : bool => Ret tt)))).
End worker.
