(* ===== verification/MrSpec.v ===== *)
(** * What a MapReduce job computes

    The specification of the output independent of tasks, files and sorting: one
    line per key, in the order of the keys, of Reduce on all values of the key.  It
    does not depend on the order in which values arrive, and the outputs of the
    reduce tasks are together the lines of the sequential program. *)

From S2P Require Import Prelude.
From S2P Require Import GoLib.
From S2P Require Import MrWorker.

(** ** Values by key *)

Definition vals (k : string) (kvs : list KeyValue) : list string :=
  kv_Value <$> filter (fun kv => kv_Key kv = k) kvs.

(** The elements that go to reduce task [r] of [n]. *)
Definition part (n r : Z) (kvs : list KeyValue) : list KeyValue :=
  filter (fun kv => Z.rem (ihash (kv_Key kv)) n = r) kvs.

#[global] Instance vals_perm k : Proper ((≡ₚ) ==> (≡ₚ)) (vals k).
Proof. intros l l' Hl. unfold vals. by rewrite Hl. Qed.

#[global] Instance part_perm n r : Proper ((≡ₚ) ==> (≡ₚ)) (part n r).
Proof. intros l l' Hl. unfold part. by rewrite Hl. Qed.

Lemma vals_app k l l' : vals k (l ++ l') = vals k l ++ vals k l'.
Proof. unfold vals. by rewrite filter_app, fmap_app. Qed.

Lemma part_app n r l l' : part n r (l ++ l') = part n r l ++ part n r l'.
Proof. apply filter_app. Qed.

Lemma part_concat n r ls : part n r (concat ls) = concat (part n r <$> ls).
Proof. induction ls as [|l ls IH]; [done|]. simpl. by rewrite part_app, IH. Qed.

(** A key's values are all in its own part. *)
Lemma vals_part n r k l :
  vals k (part n r l) = if decide (Z.rem (ihash k) n = r) then vals k l else [].
Proof.
  unfold vals, part. induction l as [|kv l IH]; [by case_decide|].
  rewrite (filter_cons _ kv l). destruct (decide (Z.rem (ihash (kv_Key kv)) n = r)) as [Hr|Hr].
  - rewrite !filter_cons. destruct (decide (kv_Key kv = k)) as [Hk|Hk]; [|done].
    subst k. rewrite decide_True in IH |- * by done. simpl. by f_equal.
  - rewrite (filter_cons (fun kv => kv_Key kv = k) kv l). destruct (decide (kv_Key kv = k)) as [Hk|Hk]; [|done].
    subst k. rewrite decide_False in IH |- * by done. done.
Qed.

Lemma elem_of_part n r k l :
  k ∈ kv_Key <$> part n r l <-> Z.rem (ihash k) n = r /\ k ∈ kv_Key <$> l.
Proof.
  unfold part. rewrite !list_elem_of_fmap. split.
  - intros (kv & -> & [Hr Hin]%list_elem_of_filter). eauto.
  - intros (Hr & kv & -> & Hin). exists kv. split; [done|]. by apply list_elem_of_filter.
Qed.

(** ** The output *)

Section reduce.
Context (reducef : string -> list string -> string -> Prop).

(** Reduce gives the same output for the same values in any order. *)
Definition order_insensitive : Prop :=
  forall k vs vs' o o', vs ≡ₚ vs' -> reducef k vs o -> reducef k vs' o' -> o = o'.

Definition line_of (kvs : list KeyValue) (k line : string) : Prop :=
  exists vs o, vs ≡ₚ vals k kvs /\ reducef k vs o /\ line = reduce_line k o.

(** [lines] is the output for [kvs]. *)
Definition reduced (kvs : list KeyValue) (lines : list string) : Prop :=
  exists keys, StronglySorted String.le keys /\ NoDup keys /\
    (forall k, k ∈ keys <-> k ∈ kv_Key <$> kvs) /\ Forall2 (line_of kvs) keys lines.

Lemma line_of_det kvs kvs' k l l' :
  order_insensitive -> vals k kvs ≡ₚ vals k kvs' -> line_of kvs k l -> line_of kvs' k l' -> l = l'.
Proof.
  intros HD Hv (vs & o & Hp & Ho & ->) (vs' & o' & Hp' & Ho' & ->). f_equal.
  eapply HD; [|exact Ho|exact Ho']. by rewrite Hp, Hp'.
Qed.

Lemma Forall2_line_det kvs kvs' keys l l' :
  order_insensitive -> (forall k, k ∈ keys -> vals k kvs ≡ₚ vals k kvs') ->
  Forall2 (line_of kvs) keys l -> Forall2 (line_of kvs') keys l' -> l = l'.
Proof.
  intros HD Hv H. revert l'. induction H as [|k x keys l Hx _ IH]; intros l' H'.
  - by apply Forall2_nil_inv_l in H'.
  - apply Forall2_cons_inv_l in H' as (x' & l'' & Hx' & H' & ->). f_equal.
    + eapply line_of_det; [done| |exact Hx|exact Hx']. apply Hv. left.
    + apply IH; [|done]. intros k' Hk'. apply Hv. by right.
Qed.

(** The same elements in any order give the same output. *)
Lemma reduced_det kvs kvs' l l' : order_insensitive -> kvs ≡ₚ kvs' -> reduced kvs l -> reduced kvs' l' -> l = l'.
Proof.
  intros HD Hp (keys & Hs & Hn & Hk & HF) (keys' & Hs' & Hn' & Hk' & HF').
  assert (keys = keys') as <-.
  { apply (StronglySorted_unique String.le); [done..|]. apply NoDup_Permutation; [done..|].
    intros k. by rewrite Hk, Hk', Hp. }
  eapply Forall2_line_det; [done| |exact HF|exact HF']. intros k _. by rewrite Hp.
Qed.

Lemma reduced_perm kvs kvs' l : kvs ≡ₚ kvs' -> reduced kvs l -> reduced kvs' l.
Proof.
  intros Hp (keys & Hs & Hn & Hk & HF). exists keys. split_and!; [done|done|by intros k; rewrite Hk, Hp|].
  eapply Forall2_impl; [exact HF|]. intros k line (vs & o & Hv & Ho & ->). exists vs, o. split_and!; [by rewrite Hv, Hp|done|done].
Qed.

(** Lines of the same keys in another order are a permutation. *)
Lemma Forall2_line_perm kvs keys keys' l l' :
  order_insensitive -> keys ≡ₚ keys' -> Forall2 (line_of kvs) keys l -> Forall2 (line_of kvs) keys' l' -> l ≡ₚ l'.
Proof.
  intros HD Hp HF HF'. assert (exists l2, l ≡ₚ l2 /\ Forall2 (line_of kvs) keys' l2) as (l2 & Hl2 & HF2).
  { clear HF' l'. revert l HF. induction Hp as [|k ks ks' Hp IH|k1 k2 ks|ks1 ks2 ks3 H1 IH1 H2 IH2]; intros l HF.
    - apply Forall2_nil_inv_l in HF as ->. by exists [].
    - apply Forall2_cons_inv_l in HF as (x & l1 & Hx & HF & ->). destruct (IH _ HF) as (l2 & Hl & HF2).
      exists (x :: l2). split; [by rewrite Hl|by constructor].
    - apply Forall2_cons_inv_l in HF as (x & l1 & Hx & HF & ->). apply Forall2_cons_inv_l in HF as (y & l2 & Hy & HF & ->).
      exists (y :: x :: l2). split; [apply Permutation_swap|by repeat constructor].
    - destruct (IH1 _ HF) as (l2 & Hl2 & HF2). destruct (IH2 _ HF2) as (l3 & Hl3 & HF3).
      exists l3. split; [by rewrite Hl2|done]. }
  rewrite Hl2. by rewrite (Forall2_line_det kvs kvs keys' l2 l' HD (fun _ _ => reflexivity _) HF2 HF').
Qed.

(** The lines of one part's keys. *)
Lemma line_of_part n r kvs ks ls :
  (forall k, k ∈ ks -> Z.rem (ihash k) n = r) ->
  Forall2 (line_of (part n r kvs)) ks ls -> Forall2 (line_of kvs) ks ls.
Proof.
  intros Hk H. induction H as [|k l ks ls (vs & o & Hv & Ho & ->) _ IH]; [constructor|].
  constructor; [|apply IH; intros; apply Hk; by right]. exists vs, o. split_and!; [|done|done].
  rewrite Hv, vals_part. by rewrite decide_True by (apply Hk; left).
Qed.

(** The keys and lines of several parts, put together. *)
Lemma reduced_parts_keys (n : Z) kvs rs ps :
  NoDup rs -> Forall2 (fun r ls => reduced (part n r kvs) ls) rs ps ->
  exists ks, NoDup ks /\ (forall k, k ∈ ks <-> k ∈ kv_Key <$> kvs /\ Z.rem (ihash k) n ∈ rs) /\
    Forall2 (line_of kvs) ks (concat ps).
Proof.
  intros Hrs H. induction H as [|r ls rs ps (ks & _ & Hn1 & Hk1 & HF1) _ IH].
  - exists []. split; [constructor|]. split; [|constructor]. intros k. split; [by intros ?%elem_of_nil|].
    by intros (_ & ?%elem_of_nil).
  - apply NoDup_cons in Hrs as [Hr Hrs]. destruct (IH Hrs) as (ks2 & Hn2 & Hk2 & HF2). exists (ks ++ ks2). split_and!.
    + apply NoDup_app. split_and!; [done| |done]. intros k Hka Hkb. apply Hk1, elem_of_part in Hka as [Ha _].
      apply Hk2 in Hkb as (_ & Hr'). congruence.
    + intros k. rewrite elem_of_app, Hk1, Hk2, elem_of_part, elem_of_cons. naive_solver.
    + simpl. apply Forall2_app; [|done]. eapply line_of_part; [|exact HF1].
      intros k Hk. by apply Hk1, elem_of_part in Hk as [? _].
Qed.

(** The outputs of the parts are together the lines of the whole. *)
Lemma reduced_parts (n : Z) kvs lines rs ps :
  order_insensitive -> NoDup rs -> (forall k, Z.rem (ihash k) n ∈ rs) ->
  reduced kvs lines -> Forall2 (fun r ls => reduced (part n r kvs) ls) rs ps -> concat ps ≡ₚ lines.
Proof.
  intros HD Hrs Hrange (keys & _ & Hn & Hk & HF) HP.
  destruct (reduced_parts_keys n kvs rs ps Hrs HP) as (ks & Hn' & Hk' & HF').
  eapply (Forall2_line_perm kvs); [done| |exact HF'|exact HF]. apply NoDup_Permutation; [done..|].
  intros k. rewrite Hk', Hk. naive_solver.
Qed.
End reduce.

(** ** Grouping sorted elements

    What [reduce_loop] passes to Reduce. *)
Fixpoint groups (fuel : nat) (l : list KeyValue) : list (string * list string) :=
  match l, fuel with
  | kv :: l', S fuel' =>
      let '(vs, rest) := run_of (kv_Key kv) l' in (kv_Key kv, kv_Value kv :: vs) :: groups fuel' rest
  | _, _ => []
  end.

Lemma run_of_spec key l vs rest :
  run_of key l = (vs, rest) ->
  exists same, l = same ++ rest /\ vs = kv_Value <$> same /\ Forall (fun kv => kv_Key kv = key) same /\
    (forall kv, head rest = Some kv -> kv_Key kv <> key).
Proof.
  revert vs rest. induction l as [|kv l IH]; intros vs rest H; simpl in H.
  - injection H as <- <-. exists []. split_and!; [done|done|constructor|done].
  - case_decide as Hk.
    + destruct (run_of key l) as [vs' r']. injection H as <- <-.
      destruct (IH _ _ eq_refl) as (same & -> & -> & HF & Hh). exists (kv :: same).
      split_and!; [done|done|by constructor|done].
    + injection H as <- <-. exists []. split_and!; [done|done|constructor|]. intros kv' [= <-]. done.
Qed.

Lemma vals_all k l : Forall (fun kv => kv_Key kv = k) l -> vals k l = kv_Value <$> l.
Proof.
  intros H. unfold vals. f_equal. induction H as [|kv l Hk _ IH]; [done|]. rewrite filter_cons. rewrite decide_True by done. by f_equal.
Qed.

Lemma vals_none k l : k ∉ kv_Key <$> l -> vals k l = [].
Proof.
  unfold vals. induction l as [|kv l IH]; intros H; [done|]. rewrite fmap_cons, not_elem_of_cons in H. destruct H as [H1 H2].
  rewrite filter_cons. rewrite decide_False by congruence. auto.
Qed.

Lemma sorted_rest_keys kv same rest :
  StronglySorted key_le (kv :: same ++ rest) -> (forall x, head rest = Some x -> kv_Key x <> kv_Key kv) ->
  forall x, x ∈ rest -> String.le (kv_Key kv) (kv_Key x) /\ kv_Key x <> kv_Key kv.
Proof.
  intros Hs Hh x Hx. apply StronglySorted_cons in Hs as [HF Hs]. rewrite Forall_forall in HF.
  assert (String.le (kv_Key kv) (kv_Key x)) as Hle by (apply HF; set_solver). split; [done|].
  destruct rest as [|y rest]; [by apply elem_of_nil in Hx|].
  assert (String.le (kv_Key kv) (kv_Key y)) as Hy by (apply HF; set_solver).
  apply StronglySorted_app in Hs as (_ & _ & Hs). apply StronglySorted_cons in Hs as [HF2 _]. rewrite Forall_forall in HF2.
  intros He. apply (Hh y eq_refl). apply (anti_symm String.le); [|done]. rewrite <- He.
  apply elem_of_cons in Hx as [->|Hx]; [reflexivity|]. by apply HF2.
Qed.

Lemma groups_spec fuel l :
  length l <= fuel -> StronglySorted key_le l ->
  StronglySorted String.le (groups fuel l).*1 /\ NoDup (groups fuel l).*1 /\
  (forall k, k ∈ (groups fuel l).*1 <-> k ∈ kv_Key <$> l) /\
  Forall (fun g => snd g = vals (fst g) l) (groups fuel l).
Proof.
  revert l. induction fuel as [|fuel IH]; intros l Hlen Hs.
  { destruct l; [|simpl in Hlen; lia]. split_and!; [constructor..|done|constructor]. }
  destruct l as [|kv l]; [split_and!; [constructor..|done|constructor]|]. cbn [groups].
  destruct (run_of (kv_Key kv) l) as [vs rest] eqn:Hr. apply run_of_spec in Hr as (same & -> & -> & HF & Hh).
  pose proof (sorted_rest_keys kv same rest Hs Hh) as Hrest.
  assert (StronglySorted key_le rest) as Hs2.
  { apply StronglySorted_cons in Hs as [_ Hs]. by apply StronglySorted_app in Hs as (_ & _ & ?). }
  simpl in Hlen. rewrite length_app in Hlen. destruct (IH rest ltac:(lia) Hs2) as (H1 & H2 & H3 & H4).
  assert (forall k, k ∈ (groups fuel rest).*1 -> String.le (kv_Key kv) k /\ k <> kv_Key kv) as Hk.
  { intros k Hk. apply H3, list_elem_of_fmap in Hk as (x & -> & Hx). by apply Hrest. }
  assert (kv_Key kv ∉ kv_Key <$> rest) as Hn.
  { intros (x & He & Hx)%list_elem_of_fmap. apply Hrest in Hx as [_ Hx]. congruence. }
  assert (forall k, k ∈ kv_Key <$> same -> k = kv_Key kv) as Hsame.
  { intros k (x & -> & Hx)%list_elem_of_fmap. rewrite Forall_forall in HF. by apply HF. }
  split_and!; simpl.
  - apply StronglySorted_cons. split; [|done]. apply Forall_forall. intros k ?%Hk. tauto.
  - apply NoDup_cons. split; [|done]. intros ?%Hk. tauto.
  - intros k. rewrite !elem_of_cons, fmap_app, elem_of_app, H3. split; [naive_solver|].
    intros [->|[->%Hsame|?]]; auto.
  - assert (forall k, vals k (kv :: same ++ rest) = vals k (kv :: same) ++ vals k rest) as Hv
      by (intros k; apply (vals_app k (kv :: same) rest)).
    constructor; simpl.
    + rewrite Hv, (vals_none _ rest) by done. rewrite app_nil_r. rewrite vals_all; [done|by constructor].
    + rewrite Forall_forall in H4. apply Forall_forall. intros [k vs] Hin.
      pose proof (H4 _ Hin) as Hg. pose proof (Hk k (list_elem_of_fmap_2 fst _ _ Hin)) as Hgk.
      simpl in *. rewrite Hv, Hg. rewrite (vals_none _ (kv :: same)); [done|].
      rewrite fmap_cons, not_elem_of_cons. split; [tauto|]. intros ?%Hsame. tauto.
Qed.
