(* ===== verification/MrSafe.v ===== *)
(** * MapReduce: workers, files and crashes

    Any number of workers run their loops against one coordinator in one directory;
    they may crash at any time, calls and file operations may fail, and a slow worker
    may finish a task that was given to another long ago.  When the coordinator says
    the job is done, the output files hold what the sequential program computes, and
    nothing changes them any more. *)

From S2P Require Import Prelude.
From S2P Require Import GoLib.
From S2P Require Import Prog.
From S2P Require Import MrCoord.
From S2P Require Import MrWorker.
From S2P Require Import MrSpec.

(** ** Buckets *)

Lemma ihash_nonneg k : (0 <= ihash k)%Z.
Proof. unfold ihash. apply Z.land_nonneg. right. done. Qed.

Lemma reduce_id_range k n : (0 < n)%Z -> (0 <= Z.rem (ihash k) n < n)%Z.
Proof. intros Hn. apply Z.rem_bound_pos; [apply ihash_nonneg|done]. Qed.

(** The reduce tasks. *)
Definition reduce_ids (n : Z) : list Z := Z.of_nat <$> seq 0 (Z.to_nat n).

Lemma elem_of_reduce_ids n r : r ∈ reduce_ids n <-> (0 <= r < n)%Z.
Proof.
  unfold reduce_ids. rewrite list_elem_of_fmap. setoid_rewrite elem_of_seq. split.
  - intros (i & -> & ?). lia.
  - intros Hr. exists (Z.to_nat r). lia.
Qed.

Lemma NoDup_reduce_ids n : NoDup (reduce_ids n).
Proof. unfold reduce_ids. apply NoDup_fmap_2; [apply _|]. apply NoDup_seq. Qed.

Lemma reduce_ids_lookup n i : i < Z.to_nat n -> reduce_ids n !! i = Some (Z.of_nat i).
Proof. intros Hi. unfold reduce_ids. rewrite list_lookup_fmap, lookup_seq_lt by done. done. Qed.

Lemma length_reduce_ids n : length (reduce_ids n) = Z.to_nat n.
Proof. unfold reduce_ids. by rewrite length_fmap, length_seq. Qed.

Definition parts_of (n : Z) (kvs : list KeyValue) : list (list KeyValue) := (fun r => part n r kvs) <$> reduce_ids n.

Lemma part_cons n r kv kvs :
  part n r (kv :: kvs) = (if decide (Z.rem (ihash (kv_Key kv)) n = r) then [kv] else []) ++ part n r kvs.
Proof. unfold part. rewrite filter_cons. by case_decide. Qed.

Lemma fill_buckets_spec n kva done_ :
  (0 < n)%Z -> fill_buckets n kva (parts_of n done_) = Some (parts_of n (done_ ++ kva)).
Proof.
  intros Hn. revert done_. induction kva as [|kv kva IH]; intros done_; [by rewrite app_nil_r|].
  cbn [fill_buckets]. unfold add_to_bucket. rewrite (proj2 (Z.eqb_neq _ _)) by lia.
  pose proof (reduce_id_range (kv_Key kv) n Hn) as Hr. set (r := Z.rem (ihash (kv_Key kv)) n) in *.
  assert (reduce_ids n !! Z.to_nat r = Some r) as Hl by (rewrite reduce_ids_lookup by lia; f_equal; lia).
  assert (zlookup (parts_of n done_) r = Some (part n r done_)) as ->.
  { rewrite zlookup_lookup by lia. unfold parts_of. by rewrite list_lookup_fmap, Hl. }
  simpl. replace (done_ ++ kv :: kva) with ((done_ ++ [kv]) ++ kva) by (by rewrite <- app_assoc).
  etrans; [|apply IH]. f_equal.
  apply list_eq. intros i. destruct (decide (Z.to_nat r = i)) as [<-|Hne].
  - rewrite list_lookup_insert_eq by (unfold parts_of; rewrite length_fmap, length_reduce_ids; lia).
    unfold parts_of. rewrite list_lookup_fmap, Hl. simpl. by rewrite part_app, part_cons, decide_True by done.
  - rewrite list_lookup_insert_ne by done. unfold parts_of. rewrite !list_lookup_fmap.
    destruct (decide (i < Z.to_nat n)) as [Hi|Hi].
    + rewrite reduce_ids_lookup by done. simpl. rewrite part_app, part_cons, decide_False by (fold r; lia).
      by rewrite app_nil_r.
    + rewrite lookup_ge_None_2; [done|]. rewrite length_reduce_ids. lia.
Qed.

Lemma make_buckets_spec n kva : (0 < n)%Z -> make_buckets n kva = Some (parts_of n kva).
Proof.
  intros Hn. unfold make_buckets. rewrite (proj2 (Z.ltb_ge _ _)) by lia.
  replace (replicate (Z.to_nat n) []) with (parts_of n []); [by apply fill_buckets_spec|].
  apply list_eq. intros i. unfold parts_of. rewrite list_lookup_fmap.
  destruct (decide (i < Z.to_nat n)) as [Hi|Hi].
  - rewrite reduce_ids_lookup, lookup_replicate_2 by done. done.
  - rewrite !lookup_ge_None_2; [done|by rewrite length_replicate; lia|by rewrite length_reduce_ids; lia].
Qed.

(** ** File names *)

Lemma dashes_inter m r : (0 <= m)%Z -> (0 <= r)%Z -> dashes (inter_name m r) = 2.
Proof. intros Hm Hr. unfold inter_name. rewrite !dashes_app, !dashes_itoa by done. done. Qed.

Lemma dashes_out r : (0 <= r)%Z -> dashes (out_name r) = 2.
Proof. intros Hr. unfold out_name. rewrite !dashes_app, !dashes_itoa by done. done. Qed.

Lemma append_inj_l p x y : (p ++ x = p ++ y)%string -> x = y.
Proof. induction p as [|c p IH]; [done|]. intros H. by injection H. Qed.

Lemma inter_name_inj m r m' r' :
  (0 <= m)%Z -> (0 <= r)%Z -> (0 <= m')%Z -> (0 <= r')%Z -> inter_name m r = inter_name m' r' -> m = m' /\ r = r'.
Proof.
  intros Hm Hr Hm' Hr' He. unfold inter_name in He. apply append_inj_l in He.
  apply dash_sep_inj in He as [He1 He2]; [|by apply dashes_itoa..].
  split; by apply itoa_inj.
Qed.

Lemma out_name_inj r r' : out_name r = out_name r' -> r = r'.
Proof. intros He. unfold out_name in He. apply append_inj_l in He. by apply itoa_inj. Qed.

Lemma inter_not_out m r r' : (0 <= m)%Z -> inter_name m r <> out_name r'.
Proof.
  intros Hm He. unfold inter_name, out_name in He.
  apply (append_inj_l "mr-" (itoa m ++ "-" ++ itoa r) ("out" ++ "-" ++ itoa r')) in He.
  apply dash_sep_inj in He as [He _]; [|by apply dashes_itoa|done]. by apply itoa_not_out in He.
Qed.

(** A final name: what a task's files are renamed to. *)
Definition final_name (s : string) : Prop :=
  (exists m r, (0 <= m)%Z /\ (0 <= r)%Z /\ s = inter_name m r) \/ (exists r, (0 <= r)%Z /\ s = out_name r).

Definition our_name (s : string) : Prop := exists x, s = ("mr-" ++ x)%string.

Lemma final_name_ours s x : final_name s -> our_name (s ++ x).
Proof.
  intros [(m & r & _ & _ & ->)|(r & _ & ->)]; unfold our_name, inter_name, out_name.
  - exists ((itoa m ++ "-" ++ itoa r) ++ x)%string. by rewrite !str_append_assoc.
  - exists ("out-" ++ itoa r ++ x)%string. by rewrite !str_append_assoc.
Qed.

Lemma final_name_dashes s : final_name s -> dashes s = 2.
Proof. intros [(m & r & ? & ? & ->)|(r & ? & ->)]; auto using dashes_inter, dashes_out. Qed.

(** A temporary file: a final name, a dash and more. *)
Definition temp_name (s : string) : Prop := exists f x, final_name f /\ s = (f ++ "-" ++ x)%string.

Lemma temp_not_final s : temp_name s -> ~ final_name s.
Proof.
  intros (f & x & Hf & ->) Hs%final_name_dashes. rewrite !dashes_app, (final_name_dashes f Hf) in Hs.
  change (dashes "-") with 1 in Hs. lia.
Qed.

Lemma temp_name_ours s : temp_name s -> our_name s.
Proof. intros (f & x & Hf & ->). by apply final_name_ours. Qed.

(** ** The world of the workers

    [mw_tmp] holds, for each open temporary file, the worker that writes it and the
    text it wrote so far, of which the file has some prefix until it is flushed.
    [mw_late] are reports whose call failed and that may still be executed. *)
Record mr_world : Type := mkMrWorld {
  mw_co : Coordinator;
  mw_fs : gmap string string;
  mw_tmp : gmap string (nat * string);
  mw_late : list ReportTaskArgs;
}.

Definition set_co (c : Coordinator) (w : mr_world) : mr_world := mkMrWorld c (mw_fs w) (mw_tmp w) (mw_late w).

Definition set_fs (fs : gmap string string) (t : gmap string (nat * string)) (w : mr_world) : mr_world :=
  mkMrWorld (mw_co w) fs t (mw_late w).

Definition set_late (l : list ReportTaskArgs) (w : mr_world) : mr_world :=
  mkMrWorld (mw_co w) (mw_fs w) (mw_tmp w) l.

(** The application's functions. *)
Record mr_app : Type := mkMrApp {
  app_map : string -> string -> list KeyValue -> Prop;
  app_reduce : string -> list string -> string -> Prop;
}.

Section job.
Context (app : mr_app).

(** What effect [e] of worker [me] answers and does. *)
Definition manswer (me : nat) (w : mr_world) (e : mr_eff) : mr_resp e -> mr_world -> Prop :=
match e with
| ERequestTask => fun r w' =>
    (w' = w /\ (r = DialFailed \/ r = CallFailed)) \/
    exists clk, w' = set_co (fst (RequestTask clk (mw_co w))) w /\
      (r = CallFailed \/ r = Replied (snd (RequestTask clk (mw_co w))))
| EReportTask args => fun r w' =>
    (w' = w /\ (r = DialFailed \/ r = CallFailed)) \/
    (w' = set_late (args :: mw_late w) w /\ r = CallFailed) \/
    (w' = set_co (ReportTask args (mw_co w)) w /\ (r = CallFailed \/ r = Replied tt))
| ESleep => fun _ w' => w' = w
| EMap file content => fun kva w' => w' = w /\ app_map app file content kva
| EReduce key values => fun o w' => w' = w /\ app_reduce app key values o
| EReadFile name | EOpen name => fun r w' => w' = w /\ (r = None \/ r = mw_fs w !! name)
| ECreateTemp prefix => fun r w' =>
    (r = None /\ w' = w) \/
    exists x, let t := (prefix ++ x)%string in r = Some t /\ mw_fs w !! t = None /\
      w' = set_fs (<[t := ""]> (mw_fs w)) (<[t := (me, "")]> (mw_tmp w)) w
| EPrint t text => fun r w' =>
    exists acc p q, mw_tmp w !! t = Some (me, acc) /\ (acc ++ text = p ++ q)%string /\
      w' = set_fs (<[t := p]> (mw_fs w)) (if r then <[t := (me, (acc ++ text)%string)]> (mw_tmp w) else mw_tmp w) w
| EFlush t => fun r w' =>
    exists acc p q, mw_tmp w !! t = Some (me, acc) /\ (acc = p ++ q)%string /\ (r = true -> p = acc) /\
      w' = set_fs (<[t := p]> (mw_fs w)) (mw_tmp w) w
| EClose _ => fun _ w' => w' = w
| ERename old new => fun r w' =>
    (r = false /\ w' = w) \/
    exists c, r = true /\ mw_fs w !! old = Some c /\
      w' = set_fs (<[new := c]> (delete old (mw_fs w))) (delete old (mw_tmp w)) w
| ERemove name => fun _ w' =>
    w' = w \/ w' = set_fs (delete name (mw_fs w)) (delete name (mw_tmp w)) w
| ECreate name => fun r w' => (r = false /\ w' = w) \/ (r = true /\ w' = set_fs (<[name := ""]> (mw_fs w)) (mw_tmp w) w)
| EFprintf name text => fun r w' =>
    (r = false /\ w' = w) \/
    exists c, r = true /\ mw_fs w !! name = Some c /\
      w' = set_fs (<[name := (c ++ text)%string]> (mw_fs w)) (mw_tmp w) w
| EFatal => fun _ _ => False
end.

(** ** The job

    [files] and [nReduce] are the coordinator's, [fs0] the directory at the start. *)
Context `{ML : MrLib} (files : list string) (nReduce : Z) (fs0 : gmap string string).

(** The pairs Map gave for file [m]. *)
Definition map_output (m : nat) (kva : list KeyValue) : Prop :=
  exists f c, files !! m = Some f /\ fs0 !! f = Some c /\ app_map app f c kva.

(** The text of an intermediate file. *)
Definition bucket_text (r : Z) (kva : list KeyValue) : string := str_concat (Encode <$> part nReduce r kva).

Definition inter_ok (w : mr_world) (m : nat) (r : Z) : Prop :=
  exists kva, map_output m kva /\ mw_fs w !! inter_name (Z.of_nat m) r = Some (bucket_text r kva).

(** All pairs of the job, in some order. *)
Definition job_pairs (kvs : list KeyValue) : Prop :=
  exists kvas, length kvas = length files /\ (forall m kva, kvas !! m = Some kva -> map_output m kva) /\ kvs = concat kvas.

(** The text of an output file. *)
Definition output_text (r : Z) (text : string) : Prop :=
  exists kvs lines, job_pairs kvs /\ reduced (app_reduce app) (part nReduce r kvs) lines /\ text = str_concat lines.

Definition out_ok (w : mr_world) (r : Z) : Prop :=
  exists text, mw_fs w !! out_name r = Some text /\ output_text r text.

(** What a report claims. *)
Definition report_true (w : mr_world) (a : ReportTaskArgs) : Prop :=
match ra_TaskType a with
| MapTask => forall m r, ra_TaskID a = Z.of_nat m -> m < length files -> (0 <= r < nReduce)%Z -> inter_ok w m r
| ReduceTask => (0 <= ra_TaskID a < nReduce)%Z -> out_ok w (ra_TaskID a)
| _ => True
end.

Record mr_inv (w : mr_world) : Prop := {
  mi_co : co_ok files nReduce (mw_co w);
  mi_map : forall m t r, co_mapTasks (mw_co w) !! m = Some t -> task_Status t = Completed ->
    (0 <= r < nReduce)%Z -> inter_ok w m r;
  mi_reduce : forall i t, co_reduceTasks (mw_co w) !! i = Some t -> task_Status t = Completed -> out_ok w (Z.of_nat i);
  mi_input : forall f, ~ our_name f -> mw_fs w !! f = fs0 !! f;
  mi_tmp : forall t a, mw_tmp w !! t = Some a -> temp_name t /\ is_Some (mw_fs w !! t);
  mi_late : Forall (report_true w) (mw_late w);
}.

(** What worker [me] sees of the others: its own temporary files are its own, and
    intermediate and output files stay good. *)
Record mr_frame (me : nat) (w w' : mr_world) : Prop := {
  mf_tmp : forall t acc, mw_tmp w !! t = Some (me, acc) ->
    mw_tmp w' !! t = Some (me, acc) /\ mw_fs w' !! t = mw_fs w !! t;
  mf_inter : forall m r, m < length files -> (0 <= r < nReduce)%Z -> inter_ok w m r -> inter_ok w' m r;
  mf_out : forall r, (0 <= r < nReduce)%Z -> out_ok w r -> out_ok w' r;
}.

Definition menv (me : nat) (w w' : mr_world) : Prop := mr_inv w' /\ mr_frame me w w'.

(** What a worker may do. *)
Definition mallowed (me : nat) (w : mr_world) (e : mr_eff) : Prop :=
match e with
| EReportTask args => report_true w args
| ECreateTemp p => exists f, final_name f /\ p = (f ++ "-")%string
| EPrint t _ | EFlush t | ERemove t => exists acc, mw_tmp w !! t = Some (me, acc)
| ERename old new => exists acc, mw_tmp w !! old = Some (me, acc) /\ mw_fs w !! old = Some acc /\
    ((exists m r kva, new = inter_name (Z.of_nat m) r /\ m < length files /\ (0 <= r < nReduce)%Z /\
        map_output m kva /\ acc = bucket_text r kva) \/
     (exists r, new = out_name r /\ (0 <= r < nReduce)%Z /\ output_text r acc))
| ECreate _ | EFprintf _ _ => False
| _ => True
end.

Lemma mr_frame_refl me w : mr_frame me w w.
Proof. split; auto. Qed.

Lemma mr_frame_trans me w1 w2 w3 : mr_frame me w1 w2 -> mr_frame me w2 w3 -> mr_frame me w1 w3.
Proof.
  intros [A1 B1 C1] [A2 B2 C2]. split; auto. intros t acc Ht. destruct (A1 _ _ Ht) as [Ht2 E1].
  destruct (A2 _ _ Ht2) as [Ht3 E2]. split; [done|congruence].
Qed.

Lemma menv_rtc me w w' : mr_inv w -> rtc (menv me) w w' -> mr_inv w' /\ mr_frame me w w'.
Proof.
  intros Hi Hr. induction Hr as [w|w1 w2 w3 [Hi2 Hf] _ IH]; [split; [done|apply mr_frame_refl]|].
  destruct (IH Hi2) as [Hi3 Hf3]. split; [done|]. by eapply mr_frame_trans.
Qed.

(** The files a report speaks of. *)
Lemma report_true_mono w w' a :
  (forall m r, m < length files -> (0 <= r < nReduce)%Z -> inter_ok w m r -> inter_ok w' m r) ->
  (forall r, (0 <= r < nReduce)%Z -> out_ok w r -> out_ok w' r) -> report_true w a -> report_true w' a.
Proof. unfold report_true. intros Hi Ho Ha. destruct (ra_TaskType a); auto. Qed.

(** A file system that only changed temporary files. *)
Lemma inter_ok_fs w w' m r :
  (0 <= r)%Z -> (forall f, final_name f -> mw_fs w' !! f = mw_fs w !! f) -> inter_ok w m r -> inter_ok w' m r.
Proof.
  intros Hr Hf (kva & Hk & Hl). exists kva. split; [done|]. rewrite Hf; [done|]. left. exists (Z.of_nat m), r. split_and!; [lia|done..].
Qed.

Lemma out_ok_fs w w' r :
  (0 <= r)%Z -> (forall f, final_name f -> mw_fs w' !! f = mw_fs w !! f) -> out_ok w r -> out_ok w' r.
Proof. intros Hr Hf (text & Hl & Ht). exists text. split; [|done]. rewrite Hf; [done|]. right. by exists r. Qed.

(** A change of the directory that keeps the final files good keeps the invariant. *)
Lemma mr_inv_fs w fs tmp :
  mr_inv w -> (forall f, ~ our_name f -> fs !! f = mw_fs w !! f) ->
  (forall t a, tmp !! t = Some a -> temp_name t /\ is_Some (fs !! t)) ->
  (forall m r, m < length files -> (0 <= r < nReduce)%Z -> inter_ok w m r -> inter_ok (set_fs fs tmp w) m r) ->
  (forall r, (0 <= r < nReduce)%Z -> out_ok w r -> out_ok (set_fs fs tmp w) r) ->
  mr_inv (set_fs fs tmp w).
Proof.
  intros Hi Hin Ht Him Hio. destruct Hi as [Hco Hm Hr Hinp Htmp Hl]. split; simpl; auto.
  - intros m t r Hmt Hs Hr'. apply Him; [|done|by eapply Hm].
    rewrite <- (ok_map_len _ _ _ Hco). by apply lookup_lt_Some in Hmt.
  - intros i t Hit Hs. apply Hio; [|by eapply Hr]. apply lookup_lt_Some in Hit.
    rewrite (ok_reduce_len _ _ _ Hco) in Hit. lia.
  - intros f Hf. rewrite Hin by done. auto.
  - eapply Forall_impl; [exact Hl|]. intros a. by apply report_true_mono.
Qed.

(** ** Effects keep the invariant *)

Lemma final_ne_temp f t : final_name f -> temp_name t -> t <> f.
Proof. intros Hf Ht ->. by eapply temp_not_final. Qed.

Definition mr_step_ok (me : nat) (w w' : mr_world) : Prop :=
  mr_inv w' /\ forall me', me' <> me -> mr_frame me' w w'.

Lemma step_same me w : mr_inv w -> mr_step_ok me w w.
Proof. intros Hi. split; [done|]. intros. apply mr_frame_refl. Qed.

(** A step on [me]'s own temporary file. *)
Lemma step_temp me w t p tmp' :
  mr_inv w -> temp_name t -> (forall me' acc, mw_tmp w !! t = Some (me', acc) -> me' = me) ->
  (forall t', t' <> t -> tmp' !! t' = mw_tmp w !! t') ->
  mr_step_ok me w (set_fs (<[t := p]> (mw_fs w)) tmp' w).
Proof.
  intros Hi Ht Hown Htmp'.
  assert (forall f, final_name f -> (<[t := p]> (mw_fs w)) !! f = mw_fs w !! f) as Hfin.
  { intros f Hf. apply lookup_insert_ne. by apply final_ne_temp. }
  split.
  - apply mr_inv_fs; [done| | | |].
    + intros f Hf. apply lookup_insert_ne. intros ->. by apply Hf, temp_name_ours.
    + intros t' a Ha. destruct (decide (t' = t)) as [->|Hne]; [split; [done|by rewrite lookup_insert_eq]|].
      rewrite Htmp' in Ha by done. rewrite lookup_insert_ne by done. by apply (mi_tmp _ Hi) in Ha.
    + intros m r _ Hr. apply inter_ok_fs; [lia|done].
    + intros r Hr. apply out_ok_fs; [lia|done].
  - intros me' Hne. split.
    + intros t' acc Ha. destruct (decide (t' = t)) as [->|Hne']; [by apply Hown in Ha|].
      simpl. by rewrite Htmp', lookup_insert_ne by done.
    + intros m r _ Hr. apply inter_ok_fs; [lia|done].
    + intros r Hr. apply out_ok_fs; [lia|done].
Qed.

(** Removing [me]'s own temporary file. *)
Lemma step_remove me w t acc :
  mr_inv w -> mw_tmp w !! t = Some (me, acc) ->
  mr_step_ok me w (set_fs (delete t (mw_fs w)) (delete t (mw_tmp w)) w).
Proof.
  intros Hi Ht. destruct (mi_tmp _ Hi _ _ Ht) as [Htn _].
  assert (forall f, final_name f -> (delete t (mw_fs w)) !! f = mw_fs w !! f) as Hfin.
  { intros f Hf. apply lookup_delete_ne. by apply final_ne_temp. }
  split.
  - apply mr_inv_fs; [done| | | |].
    + intros f Hf. apply lookup_delete_ne. intros ->. by apply Hf, temp_name_ours.
    + intros t' a [Hne Ha]%lookup_delete_Some. rewrite lookup_delete_ne by done. by apply (mi_tmp _ Hi) in Ha.
    + intros m r _ Hr. apply inter_ok_fs; [lia|done].
    + intros r Hr. apply out_ok_fs; [lia|done].
  - intros me' Hne. split.
    + intros t' acc' Ha. assert (t' <> t) by congruence. simpl. by rewrite !lookup_delete_ne by done.
    + intros m r _ Hr. apply inter_ok_fs; [lia|done].
    + intros r Hr. apply out_ok_fs; [lia|done].
Qed.

(** Renaming [me]'s temporary file to a final name it is good for. *)
Lemma step_rename me w old new acc :
  mr_inv w -> mallowed me w (ERename old new) -> mw_fs w !! old = Some acc ->
  mr_step_ok me w (set_fs (<[new := acc]> (delete old (mw_fs w))) (delete old (mw_tmp w)) w).
Proof.
  intros Hi (acc' & Ht & Hl & Hgood) Hl'. assert (acc' = acc) as -> by congruence.
  destruct (mi_tmp _ Hi _ _ Ht) as [Htn _]. set (w' := set_fs _ _ _).
  assert (final_name new) as Hfn.
  { destruct Hgood as [(m & r & kva & -> & _ & Hr & _)|(r & -> & Hr & _)];
      [left; exists (Z.of_nat m), r; split_and!; [lia|lia|done]|right; exists r; split; [lia|done]]. }
  assert (forall f, final_name f -> f <> new -> mw_fs w' !! f = mw_fs w !! f) as Hfin.
  { intros f Hf Hne. simpl. rewrite lookup_insert_ne, lookup_delete_ne; [done| |done]. by apply final_ne_temp. }
  assert (forall m r, m < length files -> (0 <= r < nReduce)%Z -> inter_ok w m r -> inter_ok w' m r) as Him.
  { intros m r Hm Hr Hok. destruct (decide (inter_name (Z.of_nat m) r = new)) as [He|Hne].
    - destruct Hgood as [(m' & r' & kva & -> & Hm' & Hr' & Hmo & ->)|(r' & -> & Hr' & _)].
      + apply inter_name_inj in He as [He1 ->]; [|lia..]. assert (m = m') as -> by lia.
        exists kva. split; [done|]. simpl. by rewrite lookup_insert_eq.
      + exfalso. revert He. apply inter_not_out. lia.
    - destruct Hok as (kva & Hmo & Hk). exists kva. split; [done|]. rewrite Hfin; [done| |done].
      left. exists (Z.of_nat m), r. split_and!; [lia|lia|done]. }
  assert (forall r, (0 <= r < nReduce)%Z -> out_ok w r -> out_ok w' r) as Hio.
  { intros r Hr Hok. destruct (decide (out_name r = new)) as [He|Hne].
    - destruct Hgood as [(m' & r' & kva & -> & _ & _ & _)|(r' & -> & Hr' & Ho)].
      + exfalso. symmetry in He. revert He. apply inter_not_out. lia.
      + apply out_name_inj in He as ->. exists acc. split; [|done]. simpl. by rewrite lookup_insert_eq.
    - destruct Hok as (text & Hk & Ho). exists text. split; [|done]. rewrite Hfin; [done| |done].
      right. exists r. split; [lia|done]. }
  split.
  - apply mr_inv_fs; [done| | |done|done].
    + intros f Hf. rewrite lookup_insert_ne, lookup_delete_ne; [done|..].
      * intros ->. by apply Hf, temp_name_ours.
      * intros ->. apply Hf. rewrite <- (str_append_nil f). by apply final_name_ours.
    + intros t' a [Hne Ha]%lookup_delete_Some. destruct (mi_tmp _ Hi _ _ Ha) as [Htn' Hs]. split; [done|].
      destruct (decide (new = t')) as [<-|Hne']; [by rewrite lookup_insert_eq|].
      by rewrite lookup_insert_ne, lookup_delete_ne by done.
  - intros me' Hne. split; [|done|done]. intros t' acc' Ha. assert (t' <> old) by congruence.
    destruct (mi_tmp _ Hi _ _ Ha) as [Htn' _]. simpl. rewrite lookup_delete_ne by done. split; [done|].
    rewrite lookup_insert_ne, lookup_delete_ne; [done|done|]. intros <-. by eapply temp_not_final.
Qed.

(** Tasks that are completed after a request or report were before, or are the
    reported one. *)
Lemma request_completed clk c i t :
  co_ok files nReduce c ->
  (co_mapTasks (fst (RequestTask clk c)) !! i = Some t -> task_Status t = Completed -> co_mapTasks c !! i = Some t) /\
  (co_reduceTasks (fst (RequestTask clk c)) !! i = Some t -> task_Status t = Completed -> co_reduceTasks c !! i = Some t).
Proof.
  intros Hok. destruct (RequestTask_ok _ _ clk c Hok) as (c' & r & -> & _ & Hs). simpl.
  destruct Hs as [j k t' Hp Hj Ht|j k t' c1 _ _ Hm Hr Hj Ht|c1 l _ _ Hm Hr _ _ _ _|c1 _ _ Hm Hr]; simpl; rewrite ?Hm, ?Hr;
    (split; [|try done]); try done;
    intros [(-> & <- & _)|[_ H']]%list_lookup_insert_Some Hc; done.
Qed.

Lemma report_completed a c i t :
  (co_mapTasks (ReportTask a c) !! i = Some t -> task_Status t = Completed ->
     co_mapTasks c !! i = Some t \/ (ra_TaskType a = MapTask /\ ra_TaskID a = Z.of_nat i)) /\
  (co_reduceTasks (ReportTask a c) !! i = Some t -> task_Status t = Completed ->
     co_reduceTasks c !! i = Some t \/ (ra_TaskType a = ReduceTask /\ ra_TaskID a = Z.of_nat i)).
Proof.
  assert (forall l, (0 <= ra_TaskID a)%Z -> complete_task (ra_TaskID a) l !! i = Some t ->
    l !! i = Some t \/ ra_TaskID a = Z.of_nat i) as Hc.
  { intros l Ha (t0 & H0 & [->|(-> & _)])%complete_task_lookup; [by left|right; lia]. }
  unfold ReportTask. destruct (ra_TaskType a); [..|auto|auto].
  - destruct (_ || _) eqn:E; [auto|]. zbool. repeat case_match; simpl; split; intros Hl Hs; auto.
    all: edestruct Hc as [?|?]; [|exact Hl|by left|by right]; lia.
  - destruct (_ || _) eqn:E; [auto|]. zbool. repeat case_match; simpl; split; intros Hl Hs; auto.
    all: edestruct Hc as [?|?]; [|exact Hl|by left|by right]; lia.
Qed.

(** A step of the coordinator alone. *)
Lemma step_co me w c :
  mr_inv w -> co_ok files nReduce c ->
  (forall m t r, co_mapTasks c !! m = Some t -> task_Status t = Completed -> (0 <= r < nReduce)%Z -> inter_ok w m r) ->
  (forall i t, co_reduceTasks c !! i = Some t -> task_Status t = Completed -> out_ok w (Z.of_nat i)) ->
  mr_step_ok me w (set_co c w).
Proof.
  intros Hi Hok Hm Hr. split.
  - destruct Hi. by split.
  - intros me' _. split; auto.
Qed.

Lemma step_request me clk w : mr_inv w -> mr_step_ok me w (set_co (fst (RequestTask clk (mw_co w))) w).
Proof.
  intros Hi. destruct (RequestTask_ok _ _ clk _ (mi_co _ Hi)) as (c' & r & He & Hok & _).
  apply step_co; [done|by rewrite He|..].
  - intros m t r' Hl Hs Hr'. eapply (mi_map _ Hi); [|done|done].
    by apply (request_completed clk (mw_co w) m t (mi_co _ Hi)) in Hl.
  - intros i t Hl Hs. eapply (mi_reduce _ Hi); [|done]. by apply (request_completed clk (mw_co w) i t (mi_co _ Hi)) in Hl.
Qed.

Lemma step_report me a w : mr_inv w -> report_true w a -> mr_step_ok me w (set_co (ReportTask a (mw_co w)) w).
Proof.
  intros Hi Ha. pose proof (ReportTask_ok _ _ a _ (mi_co _ Hi)) as Hok. apply step_co; [done|done|..].
  - intros m t r' Hl Hs Hr'. pose proof (lookup_lt_Some _ _ _ Hl) as Hlt. rewrite (ok_map_len _ _ _ Hok) in Hlt.
    apply (report_completed a (mw_co w) m t) in Hl as [Hl|[Ht Hid]]; [by eapply (mi_map _ Hi)| |done].
    unfold report_true in Ha. rewrite Ht in Ha. by apply Ha.
  - intros i t Hl Hs. pose proof (lookup_lt_Some _ _ _ Hl) as Hlt. rewrite (ok_reduce_len _ _ _ Hok) in Hlt.
    apply (report_completed a (mw_co w) i t) in Hl as [Hl|[Ht Hid]]; [by eapply (mi_reduce _ Hi)| |done].
    unfold report_true in Ha. rewrite Ht, Hid in Ha. apply Ha. lia.
Qed.

Lemma manswer_ok me w e r w' :
  mr_inv w -> mallowed me w e -> manswer me w e r w' -> mr_step_ok me w w'.
Proof.
  intros Hi Ha H. destruct e; simpl in H, Ha.
  - destruct H as [[-> _]|(clk & -> & _)]; [by apply step_same|by apply step_request].
  - destruct H as [[-> _]|[[-> _]|[-> _]]]; [by apply step_same| |by apply step_report].
    split; [|intros me' _; split; auto]. destruct Hi. split; auto. simpl. by constructor.
  - subst. by apply step_same.
  - destruct H as [-> _]. by apply step_same.
  - destruct H as [-> _]. by apply step_same.
  - destruct H as [-> _]. by apply step_same.
  - destruct H as [-> _]. by apply step_same.
  - destruct H as [[_ ->]|(x & _ & Hn & ->)]; [by apply step_same|].
    destruct Ha as (f & Hf & ->). apply step_temp; [done|..].
    + exists f, x. split; [done|]. by rewrite str_append_assoc.
    + intros me' acc Hacc. destruct (mi_tmp _ Hi _ _ Hacc) as [_ [? ?]]. congruence.
    + intros t' Hne. by rewrite lookup_insert_ne.
  - destruct H as (acc & p & q & Ht & _ & ->). apply step_temp; [done|by apply (mi_tmp _ Hi) in Ht as [? _]|..].
    + intros me' acc' ?. congruence.
    + intros t' Hne. destruct r; [by rewrite lookup_insert_ne|done].
  - destruct H as (acc & p & q & Ht & _ & _ & ->). apply step_temp; [done|by apply (mi_tmp _ Hi) in Ht as [? _]|..].
    + intros me' acc' ?. congruence.
    + done.
  - subst. by apply step_same.
  - destruct H as [[_ ->]|(c & _ & Hc & ->)]; [by apply step_same|by apply step_rename].
  - destruct Ha as [acc Ht]. destruct H as [->| ->]; [by apply step_same|by eapply step_remove].
  - done.
  - done.
  - done.
Qed.

(** ** What the programs do *)

Definition mr_mono (w w' : mr_world) : Prop :=
  (forall m r, m < length files -> (0 <= r < nReduce)%Z -> inter_ok w m r -> inter_ok w' m r) /\
  (forall r, (0 <= r < nReduce)%Z -> out_ok w r -> out_ok w' r).

Lemma frame_mono me w w' : mr_frame me w w' -> mr_mono w w'.
Proof. intros []. by split. Qed.

Lemma mr_mono_refl w : mr_mono w w.
Proof. split; auto. Qed.

Lemma mr_mono_trans w1 w2 w3 : mr_mono w1 w2 -> mr_mono w2 w3 -> mr_mono w1 w3.
Proof. intros [A B] [C D]. split; auto. Qed.

Abbreviation msafe me := (safe (menv me) (manswer me) (mallowed me)).

(** One effect: others act before it, then it is allowed and is answered. *)
Lemma mcall_safe {A} me e (k : mr_resp e -> mr_prog A) Q w :
  mr_inv w ->
  (forall w1, mr_inv w1 -> mr_frame me w w1 ->
    mallowed me w1 e /\ forall r w2, manswer me w1 e r w2 -> mr_inv w2 -> mr_mono w w2 -> msafe me (k r) Q w2) ->
  msafe me (Call e k) Q w.
Proof.
  intros Hi Hk w1 Hr. destruct (menv_rtc _ _ _ Hi Hr) as [Hi1 Hf]. destruct (Hk w1 Hi1 Hf) as [Ha Hk']. split; [done|].
  intros r w2 Hans. destruct (manswer_ok _ _ _ _ _ Hi1 Ha Hans) as [Hi2 Hf2]. apply Hk'; [done|done|].
  eapply mr_mono_trans; [by eapply frame_mono|]. eapply (frame_mono (S me)), Hf2. lia.
Qed.

Lemma mret_safe {A} me (a : A) (Q : mr_world -> A -> Prop) w :
  mr_inv w -> (forall w1, mr_inv w1 -> mr_mono w w1 -> Q w1 a) -> msafe me (Ret a) Q w.
Proof. intros Hi HQ w1 Hr. destruct (menv_rtc _ _ _ Hi Hr) as [Hi1 Hf]. apply HQ; [done|]. by eapply frame_mono. Qed.

Lemma fatal_safe {A} me (Q : mr_world -> A -> Prop) w : mr_inv w -> msafe me fatal Q w.
Proof. intros Hi. apply mcall_safe; [done|]. intros w1 _ _. split; [exact I|]. intros []. Qed.

Definition mine (me : nat) (w : mr_world) (t acc : string) : Prop := mw_tmp w !! t = Some (me, acc).

Lemma mine_frame me w w' t acc : mr_frame me w w' -> mine me w t acc -> mine me w' t acc.
Proof. intros Hf Ht. by apply (mf_tmp _ _ _ Hf) in Ht as [? _]. Qed.

Lemma remove_safe {A} me t acc (Q : mr_world -> A -> Prop) w :
  mr_inv w -> mine me w t acc -> msafe me (Call (ERemove t) (fun _ : unit => fatal)) Q w.
Proof.
  intros Hi Ht. apply mcall_safe; [done|]. intros w1 Hi1 Hf.
  split; [exists acc; by eapply mine_frame|]. intros r w2 _ Hi2 _. by apply fatal_safe.
Qed.

Lemma discard_safe {A} me t acc (Q : mr_world -> A -> Prop) w :
  mr_inv w -> mine me w t acc -> msafe me (discard t) Q w.
Proof.
  intros Hi Ht. apply mcall_safe; [done|]. intros w1 Hi1 Hf. split; [done|].
  intros r w2 Hans Hi2 _. simpl in Hans. subst w2. eapply remove_safe; [done|by eapply mine_frame].
Qed.

(** The text is good for the final name. *)
Definition final_good (new acc : string) : Prop :=
  (exists m r kva, new = inter_name (Z.of_nat m) r /\ m < length files /\ (0 <= r < nReduce)%Z /\
     map_output m kva /\ acc = bucket_text r kva) \/
  (exists r, new = out_name r /\ (0 <= r < nReduce)%Z /\ output_text r acc).

Lemma save_temp_safe {A} me t acc new (k : mr_prog A) Q w :
  mr_inv w -> mine me w t acc -> final_good new acc ->
  (forall w', mr_inv w' -> mr_mono w w' -> mw_fs w' !! new = Some acc -> msafe me k Q w') ->
  msafe me (save_temp t new k) Q w.
Proof.
  intros Hi Ht Hg Hk. unfold save_temp. apply mcall_safe; [done|]. intros w1 Hi1 Hf1.
  pose proof (mine_frame _ _ _ _ _ Hf1 Ht) as Ht1. split; [by exists acc|].
  intros ok w2 (acc' & p & q & Ht' & -> & Hp & ->) Hi2 Hm2. assert (p ++ q = acc)%string as Hacc by (unfold mine in Ht1; congruence).
  destruct ok; [|eapply discard_safe; [done|exact Ht1]]. specialize (Hp eq_refl).
  assert (p = acc) as -> by congruence. set (w2 := set_fs _ _ w1) in *.
  assert (mw_fs w2 !! t = Some acc) as Hl2 by (simpl; by rewrite lookup_insert_eq).
  assert (mine me w2 t acc) as Ht2 by exact Ht1.
  apply mcall_safe; [done|]. intros w3 Hi3 Hf3. split; [done|]. intros ok w4 Hans Hi4 Hm4. simpl in Hans. subst w4.
  destruct (mf_tmp _ _ _ Hf3 _ _ Ht2) as [Ht3 Hl3]. rewrite Hl2 in Hl3.
  destruct ok; [|by eapply remove_safe]. apply mcall_safe; [done|]. intros w5 Hi5 Hf5.
  destruct (mf_tmp _ _ _ Hf5 _ _ Ht3) as [Ht5 Hl5]. rewrite Hl3 in Hl5.
  split; [by exists acc|]. intros ok w6 Hans Hi6 Hm6. destruct Hans as [[-> ->]|(c & -> & Hc & ->)].
  - by eapply remove_safe.
  - apply Hk; [done| |].
    + eapply mr_mono_trans; [exact Hm2|]. eapply mr_mono_trans; [exact Hm4|done].
    + assert (c = acc) as -> by congruence. simpl. by rewrite lookup_insert_eq.
Qed.

Lemma print_safe {A} me t acc text (k : bool -> mr_prog A) Q w :
  mr_inv w -> mine me w t acc ->
  (forall w', mr_inv w' -> mr_mono w w' -> mine me w' t (acc ++ text) -> msafe me (k true) Q w') ->
  (forall w', mr_inv w' -> mine me w' t acc -> msafe me (k false) Q w') ->
  msafe me (Call (EPrint t text) k) Q w.
Proof.
  intros Hi Ht Hk1 Hk2. apply mcall_safe; [done|]. intros w1 Hi1 Hf1. pose proof (mine_frame _ _ _ _ _ Hf1 Ht) as Ht1.
  split; [by exists acc|]. intros ok w2 (acc' & p & q & Ht' & _ & ->) Hi2 Hm2.
  assert (acc' = acc) as -> by (unfold mine in Ht1; congruence). destruct ok.
  - apply Hk1; [done|done|]. unfold mine. simpl. by rewrite lookup_insert_eq.
  - by apply Hk2.
Qed.

Lemma print_all_safe {A} me t texts (k : mr_prog A) Q : forall acc w,
  mr_inv w -> mine me w t acc ->
  (forall w', mr_inv w' -> mr_mono w w' -> mine me w' t (acc ++ str_concat texts) -> msafe me k Q w') ->
  msafe me (print_all t texts k) Q w.
Proof.
  induction texts as [|text texts IH]; intros acc w Hi Ht Hk; cbn [print_all].
  - apply Hk; [done|apply mr_mono_refl|]. simpl. by rewrite str_append_nil.
  - eapply print_safe; [done|done|..].
    + intros w1 Hi1 Hm1 Ht1. eapply IH; [done|exact Ht1|]. intros w2 Hi2 Hm2 Ht2. apply Hk; [done|by eapply mr_mono_trans|].
      simpl. by rewrite <- str_append_assoc.
    + intros w1 Hi1 Ht1. by eapply discard_safe.
Qed.

(** Creating a temporary file for a final name. *)
Lemma create_temp_safe {A} me f (k : string -> mr_prog A) Q w :
  mr_inv w -> final_name f ->
  (forall t w', mr_inv w' -> mr_mono w w' -> mine me w' t "" -> msafe me (k t) Q w') ->
  msafe me (Call (ECreateTemp (f ++ "-")) (fun t : option string => match t with None => fatal | Some tmp => k tmp end)) Q w.
Proof.
  intros Hi Hf Hk. apply mcall_safe; [done|]. intros w1 Hi1 Hf1. split; [by exists f|].
  intros r w2 Hans Hi2 Hm2. destruct Hans as [[-> ->]|(x & -> & Hn & ->)]; [by apply fatal_safe|].
  apply Hk; [done|done|]. unfold mine. simpl. by rewrite lookup_insert_eq.
Qed.

(** ** The map task *)

(** The intermediate files of task [m] for the reduce tasks in [rs] are good. *)
Definition inters_ok (w : mr_world) (m : nat) (rs : list Z) : Prop := forall r, r ∈ rs -> inter_ok w m r.

Lemma write_buckets_safe me m kva : forall len start w,
  m < length files -> map_output m kva -> mr_inv w -> start + len = Z.to_nat nReduce ->
  inters_ok w m (Z.of_nat <$> seq 0 start) ->
  msafe me (write_buckets (Z.of_nat m) (Z.of_nat start) ((fun r => part nReduce r kva) <$> (Z.of_nat <$> seq start len)))
    (fun w' _ => mr_inv w' /\ inters_ok w' m (reduce_ids nReduce)) w.
Proof.
  assert (forall w w' rs, m < length files -> (forall r, r ∈ rs -> (0 <= r < nReduce)%Z) -> mr_mono w w' -> inters_ok w m rs -> inters_ok w' m rs) as Hmono.
  { intros w w' rs Hm Hrs [Hmi _] Hok r Hr. apply Hmi; auto. }
  assert (forall s, s <= Z.to_nat nReduce -> forall r, r ∈ Z.of_nat <$> seq 0 s -> (0 <= r < nReduce)%Z) as Hrange.
  { intros s Hs r (i & -> & Hi%elem_of_seq)%list_elem_of_fmap. lia. }
  induction len as [|len IH]; intros start w Hm Hmo Hi Hlen Hok; cbn [seq fmap list_fmap write_buckets].
  - apply mret_safe; [done|]. intros w1 Hi1 Hm1. split; [done|]. unfold reduce_ids. replace (Z.to_nat nReduce) with start by lia.
    eapply Hmono; [done| |exact Hm1|done]. apply Hrange. lia.
  - set (r := Z.of_nat start) in *. assert (0 <= r < nReduce)%Z as Hr by lia.
    apply create_temp_safe; [done|left; exists (Z.of_nat m), r; split_and!; [lia|lia|done]|].
    intros t w1 Hi1 Hm1 Ht1. eapply print_all_safe; [done|exact Ht1|]. intros w2 Hi2 Hm2 Ht2.
    eapply save_temp_safe; [done|exact Ht2| |].
    { left. exists m, r, kva. split_and!; [done..|lia|lia|done|]. done. }
    intros w3 Hi3 Hm3 Hl3. replace (r + 1)%Z with (Z.of_nat (S start)) by lia. apply IH; [done..|lia|].
    assert (mr_mono w w3) as Hm03 by (eapply mr_mono_trans; [exact Hm1|]; by eapply mr_mono_trans).
    intros r' Hr'. rewrite seq_S, fmap_app, elem_of_app in Hr'. destruct Hr' as [Hr'|Hr'].
    + eapply Hmono; [done| |exact Hm03|exact Hok|exact Hr']. apply Hrange. lia.
    + simpl in Hr'. apply list_elem_of_singleton in Hr' as ->. exists kva. split; [done|]. exact Hl3.
Qed.

(** What the application promises: Map gives the same pairs in some order, all
    representable in JSON, and Reduce does not depend on the order of the values. *)
Record app_ok `{!MrLibLaws} : Prop := {
  app_map_perm : forall f c l l', app_map app f c l -> app_map app f c l' -> l ≡ₚ l';
  app_map_clean : forall f c l, app_map app f c l -> Forall json_clean l;
  app_reduce_order : order_insensitive (app_reduce app);
}.

(** The task a reply carries. *)
Definition map_reply (r : RequestTaskReply) : Prop :=
  exists m, rt_TaskID r = Z.of_nat m /\ files !! m = Some (rt_FileName r) /\ rt_NReduce r = nReduce.

Definition input_names : Prop := forall f, f ∈ files -> ~ our_name f.

Lemma doMapTask_safe me task w m :
  input_names -> (0 < nReduce)%Z -> rt_TaskID task = Z.of_nat m -> files !! m = Some (rt_FileName task) -> rt_NReduce task = nReduce ->
  mr_inv w ->
  msafe me (doMapTask task) (fun w' _ => mr_inv w' /\ inters_ok w' m (reduce_ids nReduce)) w.
Proof.
  intros Hin Hn Hid Hf Hnr Hi. unfold doMapTask. apply mcall_safe; [done|]. intros w1 Hi1 _. split; [exact I|].
  intros c w2 [-> Hc] Hi2 _. destruct c as [content|]; [|by apply fatal_safe].
  destruct Hc as [?|Hc]; [done|]. rewrite (mi_input _ Hi1) in Hc by (by apply Hin; eapply list_elem_of_lookup_2).
  apply mcall_safe; [done|]. intros w3 Hi3 _. split; [exact I|]. intros kva w4 [-> Hk] Hi4 _.
  rewrite Hnr, make_buckets_spec, Hid by done.
  apply (write_buckets_safe me m kva (Z.to_nat nReduce) 0); [by eapply lookup_lt_Some| |done|done|].
  - exists (rt_FileName task), content. done.
  - intros r Hr. by apply elem_of_nil in Hr.
Qed.

(** ** The reduce task *)

Lemma length_append s t : String.length (s ++ t) = String.length s + String.length t.
Proof.
  induction s as [|c s IH]; [done|]. change (S (String.length (s ++ t)) = S (String.length s) + String.length t). by rewrite IH.
Qed.

Lemma decode_all_ok `{!MrLibLaws} l : forall fuel,
  Forall json_clean l -> String.length (str_concat (Encode <$> l)) < fuel ->
  decode_all fuel (str_concat (Encode <$> l)) = Ret (Some l).
Proof.
  induction l as [|kv l IH]; intros [|fuel] Hc Hf; simpl in *; [lia|by rewrite Decode_empty|lia|].
  apply Forall_cons in Hc as [Hkv Hc]. rewrite Decode_Encode by done. rewrite IH; [done|done|].
  rewrite length_append in Hf. change (list_fmap _ _ Encode l) with (Encode <$> l) in Hf.
  destruct (Encode kv) as [|c s] eqn:E; simpl in Hf; [|lia].
  exfalso. pose proof (Decode_Encode kv "" Hkv) as Hd. rewrite E in Hd. simpl in Hd. rewrite Decode_empty in Hd. done.
Qed.

Lemma part_clean `{!MrLibLaws} n r l : Forall json_clean l -> Forall json_clean (part n r l).
Proof. rewrite !Forall_forall. intros HF kv [_ Hin]%list_elem_of_filter. auto. Qed.

Lemma map_output_clean `{!MrLibLaws} m kva : app_ok -> map_output m kva -> Forall json_clean kva.
Proof. intros Ha (f & c & _ & _ & Hm). by eapply app_map_clean. Qed.

Lemma read_inter_safe `{!MrLibLaws} me m r w :
  app_ok -> m < length files -> (0 <= r < nReduce)%Z -> mr_inv w -> inter_ok w m r ->
  msafe me (read_inter (inter_name (Z.of_nat m) r))
    (fun w' kvs => mr_inv w' /\ mr_mono w w' /\ exists kva, map_output m kva /\ kvs = part nReduce r kva) w.
Proof.
  intros Ha Hm Hr Hi Hok. unfold read_inter. apply mcall_safe; [done|]. intros w1 Hi1 Hf1. split; [exact I|].
  intros c w2 [-> Hc] Hi2 Hm1. destruct c as [text|]; [|by apply fatal_safe]. destruct Hc as [?|Hc]; [done|].
  destruct (mf_inter _ _ _ Hf1 m r Hm Hr Hok) as (kva & Hmo & Hl). rewrite Hl in Hc. injection Hc as ->.
  unfold bucket_text. rewrite decode_all_ok; [|by eapply part_clean, map_output_clean|lia]. cbn [mbind prog_mbind prog_bind].
  apply mcall_safe; [done|]. intros w3 Hi3 Hf3. split; [exact I|]. intros ok w4 Hans Hi4 Hm4. simpl in Hans. subst w4.
  destruct ok; [|by apply fatal_safe]. apply mret_safe; [done|]. intros w5 Hi5 Hm5. split_and!; [done| |by exists kva].
  eapply mr_mono_trans; [exact Hm1|]. by eapply mr_mono_trans.
Qed.

Lemma read_inters_safe `{!MrLibLaws} me r : forall n m w,
  app_ok -> m + n = length files -> (0 <= r < nReduce)%Z -> mr_inv w -> (forall m, m < length files -> inter_ok w m r) ->
  msafe me (read_inters n (Z.of_nat m) r)
    (fun w' kvs => mr_inv w' /\ exists kvas, length kvas = n /\ (forall j kva, kvas !! j = Some kva -> map_output (m + j) kva) /\
       kvs = part nReduce r (concat kvas)) w.
Proof.
  induction n as [|n IH]; intros m w Ha Hlen Hr Hi Hok; cbn [read_inters].
  - apply mret_safe; [done|]. intros w1 Hi1 _. split; [done|]. exists []. split_and!; [done|done|done].
  - eapply safe_bind; [apply read_inter_safe; [done|lia|done|done|apply Hok; lia]|].
    intros w1 kvs (Hi1 & Hm1 & kva & Hmo & ->). eapply safe_bind.
    { replace (Z.of_nat m + 1)%Z with (Z.of_nat (S m)) by lia. apply IH; [done|lia|done|done|].
      intros m' Hm'. apply Hm1; auto. }
    intros w2 rest (Hi2 & kvas & Hl & Hk & ->). apply mret_safe; [done|]. intros w3 Hi3 _. split; [done|].
    exists (kva :: kvas). split_and!; [simpl; lia| |by rewrite <- part_app].
    intros [|j] kva'; simpl.
    + intros [= <-]. by rewrite Nat.add_0_r.
    + intros Hj%Hk. by rewrite Nat.add_succ_r.
Qed.

(** The lines for the groups of the sorted elements. *)
Definition group_line (g : string * list string) (line : string) : Prop :=
  exists o, app_reduce app (fst g) (snd g) o /\ line = reduce_line (fst g) o.

Lemma reduce_loop_safe {A} me t (k : mr_prog A) Q : forall fuel l acc w,
  length l <= fuel -> mr_inv w -> mine me w t acc ->
  (forall w' lines, mr_inv w' -> mr_mono w w' -> Forall2 group_line (groups fuel l) lines ->
     mine me w' t (acc ++ str_concat lines) -> msafe me k Q w') ->
  msafe me (reduce_loop (fun line k => Call (EPrint t line) (fun ok : bool => if ok then k else discard t)) fuel l k) Q w.
Proof.
  induction fuel as [|fuel IH]; intros l acc w Hlen Hi Ht Hk.
  { destruct l; [|simpl in Hlen; lia]. cbn [reduce_loop]. apply (Hk w []); [done|apply mr_mono_refl|constructor|].
    simpl. by rewrite str_append_nil. }
  destruct l as [|kv l]; cbn [reduce_loop].
  { apply (Hk w []); [done|apply mr_mono_refl|constructor|]. simpl. by rewrite str_append_nil. }
  cbn [groups] in Hk. destruct (run_of (kv_Key kv) l) as [vs rest] eqn:Hr.
  apply run_of_spec in Hr as (same & -> & _). simpl in Hlen. rewrite length_app in Hlen.
  apply mcall_safe; [done|]. intros w1 Hi1 Hf1. pose proof (mine_frame _ _ _ _ _ Hf1 Ht) as Ht1. split; [exact I|].
  intros o w2 [-> Ho] Hi2 Hm2. eapply print_safe; [done|exact Ht1|..].
  - intros w3 Hi3 Hm3 Ht3. eapply IH; [lia|done|exact Ht3|]. intros w4 lines Hi4 Hm4 HF Ht4.
    apply (Hk w4 (reduce_line (kv_Key kv) o :: lines)); [done| | |].
    + eapply mr_mono_trans; [exact Hm2|]. by eapply mr_mono_trans.
    + constructor; [by exists o|done].
    + simpl. by rewrite <- str_append_assoc.
  - intros w3 Hi3 Ht3. by eapply discard_safe.
Qed.

(** The lines of the groups are the specified output. *)
Lemma group_lines_of kvs gs lines :
  Forall (fun g => snd g ≡ₚ vals (fst g) kvs) gs -> Forall2 group_line gs lines ->
  Forall2 (line_of (app_reduce app) kvs) gs.*1 lines.
Proof.
  intros HG. revert lines. induction HG as [|[k vs] gs Hg _ IH]; intros lines HF.
  - apply Forall2_nil_inv_l in HF as ->. constructor.
  - apply Forall2_cons_inv_l in HF as (line & lines' & (o & Ho & ->) & HF & ->). simpl in *.
    constructor; [by exists vs, o|auto].
Qed.

Lemma group_lines_reduced `{!MrLibLaws} kvs lines :
  Forall2 group_line (groups (length (sortByKey kvs)) (sortByKey kvs)) lines -> reduced (app_reduce app) kvs lines.
Proof.
  intros HF. destruct (sortByKey_sorts kvs) as [Hp Hs].
  destruct (groups_spec (length (sortByKey kvs)) _ (le_n _) Hs) as (H1 & H2 & H3 & H4).
  exists (groups (length (sortByKey kvs)) (sortByKey kvs)).*1. split_and!; [done|done|by intros k; rewrite H3, Hp|].
  apply group_lines_of; [|done]. eapply Forall_impl; [exact H4|]. intros g ->. by rewrite Hp.
Qed.

Lemma doReduceTask_safe `{!MrLibLaws} me task w :
  app_ok -> (0 <= rt_TaskID task < nReduce)%Z -> rt_NMap task = zlen files -> mr_inv w ->
  (forall m, m < length files -> inter_ok w m (rt_TaskID task)) ->
  msafe me (doReduceTask task) (fun w' _ => mr_inv w' /\ out_ok w' (rt_TaskID task)) w.
Proof.
  intros Ha Hr Hn Hi Hok. unfold doReduceTask. rewrite Hn. unfold zlen. rewrite Nat2Z.id.
  set (r := rt_TaskID task) in *. eapply safe_bind; [by apply (read_inters_safe me r (length files) 0)|].
  intros w1 kvs (Hi1 & kvas & Hl & Hk & ->). apply create_temp_safe; [done|right; exists r; split; [lia|done]|].
  intros t w2 Hi2 _ Ht2. eapply reduce_loop_safe; [done|done|exact Ht2|]. intros w3 lines Hi3 _ HF Ht3.
  assert (output_text r (str_concat lines)) as Hout.
  { exists (concat kvas), lines. split_and!; [|by apply group_lines_reduced|done].
    exists kvas. split_and!; [done|exact Hk|done]. }
  eapply save_temp_safe; [done|exact Ht3|right; by exists r|].
  intros w4 Hi4 _ Hl4. apply mret_safe; [done|]. intros w5 Hi5 Hm5. split; [done|]. apply Hm5; [done|].
  by exists (str_concat lines).
Qed.

Lemma reportTask_safe me ty id w :
  mr_inv w -> report_true w (mkReportTaskArgs ty id) -> msafe me (reportTask ty id) (fun w' _ => mr_inv w') w.
Proof.
  intros Hi Hr. unfold reportTask. apply mcall_safe; [done|]. intros w1 Hi1 Hf1.
  pose proof (frame_mono _ _ _ Hf1) as [Hm Ho]. split; [by eapply report_true_mono|].
  intros r w2 _ Hi2 _. destruct r; cbn [called]; [by apply fatal_safe|by apply mret_safe..].
Qed.

(** What a reply to a request says, at the time of the request and later. *)
Lemma request_reply clk w :
  mr_inv w ->
  let r := snd (RequestTask clk (mw_co w)) in
  (rt_TaskType r = MapTask -> rt_NReduce r = nReduce /\
     exists m, rt_TaskID r = Z.of_nat m /\ files !! m = Some (rt_FileName r)) /\
  (rt_TaskType r = ReduceTask -> rt_NMap r = zlen files /\ (0 <= rt_TaskID r < nReduce)%Z /\
     forall m, m < length files -> inter_ok w m (rt_TaskID r)).
Proof.
  intros Hi. pose proof (mi_co _ Hi) as Hok. destruct (RequestTask_ok _ _ clk _ Hok) as (c' & r & -> & _ & Hs).
  simpl. destruct Hs as [i k t Hp Hj Ht|i k t c1 Hok1 Hp1 Hm Hr Hj Ht|c1 l|c1]; simpl; (split; [|try done]); try done; intros _.
  - split; [by apply Hok|]. exists i. split; [done|]. apply (ok_map _ _ _ Hok _ _ Hj).
  - pose proof (lookup_lt_Some _ _ _ Hj) as Hlt. rewrite (ok_reduce_len _ _ _ Hok) in Hlt.
    split; [apply Hok|]. split; [lia|]. intros m Hm'.
    pose proof (ok_map_done _ _ _ Hok1) as Hd. rewrite Hp1 in Hd. specialize (Hd ltac:(done)).
    unfold allMapTasksDone in Hd. rewrite Hm in Hd. apply tasks_done_spec in Hd. rewrite Forall_lookup in Hd.
    destruct (lookup_lt_is_Some_2 (co_mapTasks (mw_co w)) m) as [t' Ht']; [by rewrite (ok_map_len _ _ _ Hok)|].
    eapply (mi_map _ Hi); [exact Ht'|by eapply Hd|lia].
Qed.

Lemma Worker_safe `{!MrLibLaws} me fuel : forall w,
  app_ok -> input_names -> (0 < nReduce)%Z -> mr_inv w -> msafe me (Worker fuel) (fun w' _ => True) w.
Proof.
  induction fuel as [|fuel IH]; intros w Ha Hin Hn Hi; [done|]. cbn [Worker].
  assert (forall w, mr_inv w -> msafe me (Call ESleep (fun _ : unit => Worker fuel)) (fun w' _ => True) w) as Hsleep.
  { intros w0 Hi0. apply mcall_safe; [done|]. intros w1 _ _. split; [exact I|]. intros r w2 _ Hi2 _. by apply IH. }
  assert (forall ty id w, mr_inv w -> report_true w (mkReportTaskArgs ty id) ->
    msafe me (reportTask ty id ≫= (fun _ => Worker fuel)) (fun w' _ => True) w) as Hrep.
  { intros ty id w0 Hi0 Hr. eapply safe_bind; [by apply reportTask_safe|]. intros w1 [] Hi1. by apply IH. }
  apply mcall_safe; [done|]. intros w1 Hi1 _. split; [exact I|]. intros r w2 Hans Hi2 Hm2.
  assert (r = DialFailed \/ r = CallFailed \/ exists clk, r = Replied (snd (RequestTask clk (mw_co w1))) /\
      w2 = set_co (fst (RequestTask clk (mw_co w1))) w1) as Hr.
  { destruct Hans as [[_ [-> | ->]]|(clk & -> & [-> | ->])]; eauto. }
  destruct Hr as [-> |[-> |(clk & -> & ->)]]; cbn [called]; [by apply fatal_safe|by apply Hsleep|].
  destruct (request_reply clk w1 Hi1) as [Hmap Hred].
  destruct (rt_TaskType (snd (RequestTask clk (mw_co w1)))) eqn:Hty.
  - destruct (Hmap eq_refl) as (HnR & m & Hid & Hf). eapply safe_bind; [by apply (doMapTask_safe me _ _ m)|].
    intros w3 [] [Hi3 Hok3]. apply Hrep; [done|]. intros m' r' He Hm' Hr'. simpl in He. assert (m' = m) as -> by lia.
    apply Hok3. by apply elem_of_reduce_ids.
  - destruct (Hred eq_refl) as (HnM & Hr & Hok). eapply safe_bind.
    { apply doReduceTask_safe; [done|done|done|done|]. intros m Hm. exact (Hok m Hm). }
    intros w3 [] [Hi3 Hok3]. apply Hrep; [done|]. by intros _.
  - by apply Hsleep.
  - by apply mret_safe.
Qed.

(** ** The sequential program

    It runs alone in the directory; its writes succeed. *)
Definition seq_answer (w : mr_world) (e : mr_eff) : mr_resp e -> mr_world -> Prop :=
match e with
| ECreate name => fun r w' => r = true /\ manswer 0 w (ECreate name) r w'
| EFprintf name text => fun r w' => r = true /\ manswer 0 w (EFprintf name text) r w'
| e => manswer 0 w e
end.

Definition alone (w w' : mr_world) : Prop := False.

Abbreviation seq_safe := (safe alone seq_answer (fun _ _ => True)).

Lemma alone_rtc w w' : rtc alone w w' -> w' = w.
Proof. intros Hr. by inversion Hr. Qed.

Lemma seq_call {A} e (k : mr_resp e -> mr_prog A) Q w :
  (forall r w', seq_answer w e r w' -> seq_safe (k r) Q w') -> seq_safe (Call e k) Q w.
Proof. intros H w1 ->%alone_rtc. auto. Qed.

Lemma seq_ret {A} (a : A) (Q : mr_world -> A -> Prop) w : Q w a -> seq_safe (Ret a) Q w.
Proof. by intros H w1 ->%alone_rtc. Qed.

Lemma seq_fatal {A} (Q : mr_world -> A -> Prop) w : seq_safe fatal Q w.
Proof. apply seq_call. intros []. Qed.

Lemma seq_read_safe fs : forall n w,
  mw_fs w = fs0 -> drop n files = fs ->
  seq_safe (seq_read fs)
    (fun w' kvs => w' = w /\ exists kvas, length kvas = length fs /\
       (forall j kva, kvas !! j = Some kva -> map_output (n + j) kva) /\ kvs = concat kvas) w.
Proof.
  induction fs as [|f fs IH]; intros n w Hw Hd; cbn [seq_read].
  - apply seq_ret. split; [done|]. by exists [].
  - assert (files !! n = Some f) as Hf by (rewrite <- (Nat.add_0_r n), <- lookup_drop, Hd; done).
    apply seq_call. intros c w1 [-> Hc]. destruct c as [content|]; [|apply seq_fatal]. destruct Hc as [?|Hc]; [done|].
    apply seq_call. intros kva w2 [-> Hk]. eapply safe_bind.
    { apply (IH (S n)); [done|]. rewrite (drop_S files f n Hf) in Hd. by injection Hd. }
    intros w3 rest (-> & kvas & Hl & Hm & ->). apply seq_ret. split; [done|]. exists (kva :: kvas).
    split_and!; [simpl; lia| |done]. intros [|j] kva'; simpl.
    + intros [= <-]. rewrite Nat.add_0_r. exists f, content. rewrite <- Hw. done.
    + intros Hj%Hm. by rewrite Nat.add_succ_r.
Qed.

Lemma seq_loop_safe {A} name (k : mr_prog A) Q : forall fuel l acc w,
  length l <= fuel -> mw_fs w !! name = Some acc ->
  (forall w' lines, Forall2 group_line (groups fuel l) lines -> mw_fs w' !! name = Some (acc ++ str_concat lines)%string ->
     seq_safe k Q w') ->
  seq_safe (reduce_loop (fun line k => Call (EFprintf name line) (fun _ : bool => k)) fuel l k) Q w.
Proof.
  induction fuel as [|fuel IH]; intros l acc w Hlen Hw Hk.
  { destruct l; [|simpl in Hlen; lia]. apply (Hk w []); [constructor|]. simpl. by rewrite str_append_nil. }
  destruct l as [|kv l]; cbn [reduce_loop].
  { apply (Hk w []); [constructor|]. simpl. by rewrite str_append_nil. }
  cbn [groups] in Hk. destruct (run_of (kv_Key kv) l) as [vs rest] eqn:Hr.
  apply run_of_spec in Hr as (same & -> & _). simpl in Hlen. rewrite length_app in Hlen.
  apply seq_call. intros o w1 [-> Ho]. apply seq_call. intros r w2 (-> & [[? _]|(c & _ & Hc & ->)]); [done|].
  assert (c = acc) as -> by congruence. eapply IH; [lia|simpl; by rewrite lookup_insert_eq|].
  intros w3 lines HF Hl. apply (Hk w3 (reduce_line (kv_Key kv) o :: lines)).
  - constructor; [by exists o|done].
  - rewrite Hl. f_equal. simpl. by rewrite <- str_append_assoc.
Qed.

(** What the sequential program leaves in its output file. *)
Lemma mrsequential_output `{!MrLibLaws} w w' :
  mw_fs w = fs0 -> runs alone seq_answer (mrsequential files) w tt w' ->
  exists kvs lines, job_pairs kvs /\ reduced (app_reduce app) kvs lines /\
    mw_fs w' !! "mr-out-0" = Some (str_concat lines).
Proof.
  intros Hw Hr. refine (safe_runs alone seq_answer (fun _ _ => True) _ (fun w' _ => exists kvs lines, job_pairs kvs /\
    reduced (app_reduce app) kvs lines /\ mw_fs w' !! "mr-out-0" = Some (str_concat lines)) w tt w' _ Hr). clear Hr.
  unfold mrsequential. destruct (decide (files = [])); [apply seq_fatal|].
  eapply safe_bind; [by apply (seq_read_safe files 0)|]. intros w1 kvs (-> & kvas & Hl & Hm & ->).
  apply seq_call. intros ok w2 (-> & [[? _]|[_ ->]]); [done|].
  eapply seq_loop_safe; [done|simpl; by rewrite lookup_insert_eq|]. intros w3 lines HF Hl3.
  apply seq_call. intros r w4 Hans. simpl in Hans. subst w4. apply seq_ret.
  exists (concat kvas), lines. split_and!; [by exists kvas|by apply group_lines_reduced|done].
Qed.

(** ** The job *)

Record mr_sys : Type := mkMrSys { ms_world : mr_world; ms_workers : gmap nat (mr_prog unit) }.

(** [M_late_*]: a request or a report whose caller no longer waits is executed. *)
Inductive mr_step (s : mr_sys) : mr_sys -> Prop :=
| M_start id fuel : ms_workers s !! id = None ->
    mr_step s (mkMrSys (ms_world s) (<[id := Worker fuel]> (ms_workers s)))
| M_effect id e k r w' : ms_workers s !! id = Some (Call e k) -> manswer id (ms_world s) e r w' ->
    mr_step s (mkMrSys w' (<[id := k r]> (ms_workers s)))
| M_crash id : mr_step s (mkMrSys (ms_world s) (delete id (ms_workers s)))
| M_late_request clk :
    mr_step s (mkMrSys (set_co (fst (RequestTask clk (mw_co (ms_world s)))) (ms_world s)) (ms_workers s))
| M_late_report a l1 l2 : mw_late (ms_world s) = l1 ++ a :: l2 ->
    mr_step s (mkMrSys (set_co (ReportTask a (mw_co (ms_world s))) (set_late (l1 ++ l2) (ms_world s))) (ms_workers s)).

Definition mr_start : mr_world := mkMrWorld (MakeCoordinator files nReduce) fs0 ∅ [].

Definition mr_sys_inv (s : mr_sys) : Prop :=
  mr_inv (ms_world s) /\ forall id p, ms_workers s !! id = Some p -> msafe id p (fun _ _ => True) (ms_world s).

Lemma mr_start_inv : mr_inv mr_start.
Proof.
  split; simpl; [apply MakeCoordinator_ok| | |done|by intros t a ?%lookup_empty_Some|constructor].
  - intros m t r. rewrite list_lookup_imap. by intros (f & _ & ->)%fmap_Some.
  - intros i t. rewrite list_lookup_fmap. by intros (f & _ & ->)%fmap_Some.
Qed.

(** A step that leaves the programs alone. *)
Lemma mr_sys_inv_world s w' :
  mr_sys_inv s -> mr_inv w' -> (forall id, mr_frame id (ms_world s) w') -> mr_sys_inv (mkMrSys w' (ms_workers s)).
Proof. intros [_ Hs] Hi Hf. split; [done|]. intros id p Hp. simpl. eapply safe_env; [by split|by apply Hs]. Qed.

Lemma mr_step_inv `{!MrLibLaws} s s' : app_ok -> input_names -> (0 < nReduce)%Z -> mr_sys_inv s -> mr_step s s' -> mr_sys_inv s'.
Proof.
  intros Ha Hin Hn [Hi Hs] Hst. destruct Hst as [id fuel Hid|id e k r w' Hid Hans|id|clk|a l1 l2 Hl].
  - split; [done|]. intros id' p; simpl; intros [[<- <-]|[_ Hp]]%lookup_insert_Some; [by apply Worker_safe|auto].
  - destruct (Hs _ _ Hid (ms_world s)) as [Hal Hk]; [constructor|].
    destruct (manswer_ok _ _ _ _ _ Hi Hal Hans) as [Hi' Hf]. split; [done|].
    intros id' p; simpl; intros [[<- <-]|[Hne Hp]]%lookup_insert_Some; [by apply Hk|].
    eapply safe_env; [split; [done|by apply Hf]|by apply Hs].
  - split; [done|]. intros id' p; simpl; intros [_ Hp]%lookup_delete_Some. by apply Hs.
  - apply mr_sys_inv_world; [by split| |].
    + by destruct (step_request 0 clk (ms_world s) Hi).
    + intros id. destruct (step_request (S id) clk (ms_world s) Hi) as [_ Hf]. apply Hf. lia.
  - assert (mr_inv (set_late (l1 ++ l2) (ms_world s))) as Hi2.
    { pose proof (mi_late _ Hi) as HF. rewrite Hl, Forall_app, Forall_cons in HF. destruct Hi. split; auto.
      simpl. apply Forall_app. tauto. }
    assert (report_true (set_late (l1 ++ l2) (ms_world s)) a) as Hra.
    { pose proof (mi_late _ Hi) as HF. rewrite Hl, Forall_app, Forall_cons in HF. apply HF. }
    apply mr_sys_inv_world; [by split| |].
    + by destruct (step_report 0 a _ Hi2 Hra).
    + intros id. destruct (step_report (S id) a _ Hi2 Hra) as [_ Hf]. destruct (Hf id ltac:(lia)). by split.
Qed.

Lemma mr_run_inv `{!MrLibLaws} s s' :
  app_ok -> input_names -> (0 < nReduce)%Z -> rtc mr_step s s' -> mr_sys_inv s -> mr_sys_inv s'.
Proof. intros Ha Hin Hn Hr. apply (invariant_rtc mr_step mr_sys_inv); [|done]. intros a b. by apply mr_step_inv. Qed.

(** Once the job is done its output is there. *)
Lemma done_outputs w r : mr_inv w -> co_phase (mw_co w) = DonePhase -> (0 <= r < nReduce)%Z -> out_ok w r.
Proof.
  intros Hi Hp Hr. pose proof (mi_co _ Hi) as Hok. pose proof (ok_reduce_done _ _ _ Hok Hp) as Hd.
  apply tasks_done_spec in Hd. rewrite Forall_lookup in Hd.
  destruct (lookup_lt_is_Some_2 (co_reduceTasks (mw_co w)) (Z.to_nat r)) as [t Ht]; [rewrite (ok_reduce_len _ _ _ Hok); lia|].
  replace r with (Z.of_nat (Z.to_nat r)) by lia. eapply (mi_reduce _ Hi); [exact Ht|by eapply Hd].
Qed.

Lemma job_pairs_perm `{!MrLibLaws} kvs kvs' : app_ok -> job_pairs kvs -> job_pairs kvs' -> kvs ≡ₚ kvs'.
Proof.
  intros Ha (ls & Hl & Hm & ->) (ls' & Hl' & Hm' & ->).
  assert (Forall2 (≡ₚ) ls ls') as HF.
  { apply Forall2_same_length_lookup. split; [congruence|]. intros i x y Hx%Hm Hy%Hm'.
    destruct Hx as (f & c & Hf & Hc & Hx), Hy as (f' & c' & Hf' & Hc' & Hy). simplify_eq.
    by eapply (app_map_perm Ha). }
  clear -HF. induction HF as [|x y xs ys Hxy _ IH]; [reflexivity|]. simpl. by rewrite Hxy, IH.
Qed.

Lemma output_text_det `{!MrLibLaws} r text text' : app_ok -> output_text r text -> output_text r text' -> text = text'.
Proof.
  intros Ha (kvs & lines & Hj & Hr & ->) (kvs' & lines' & Hj' & Hr' & ->). f_equal.
  eapply reduced_det; [by apply app_reduce_order| |exact Hr|exact Hr'].
  by rewrite (job_pairs_perm _ _ Ha Hj Hj').
Qed.

(** What a step does to the coordinator; when the job is done it stays done. *)
Lemma mr_step_co s s' :
  mr_step s s' -> mw_co (ms_world s') = mw_co (ms_world s) \/ exists e, mw_co (ms_world s') = coord_next (mw_co (ms_world s)) e.
Proof.
  intros [id fuel _|id e k r w' _ Hans|id|clk|a l1 l2 _]; simpl; [by left| |by left|right; by exists (Request clk)|right; by exists (Report a)].
  destruct e; simpl in Hans; try (destruct_and?; subst; by left).
  - destruct Hans as [[-> _]|(clk & -> & _)]; [by left|right; by exists (Request clk)].
  - destruct Hans as [[-> _]|[[-> _]|[-> _]]]; [by left..|right; by exists (Report args)].
  - destruct Hans as [[_ ->]|(x & _ & _ & ->)]; by left.
  - destruct Hans as (acc & p & q & _ & _ & ->). by left.
  - destruct Hans as (acc & p & q & _ & _ & _ & ->). by left.
  - destruct Hans as [[_ ->]|(c & _ & _ & ->)]; by left.
  - destruct Hans as [->| ->]; by left.
  - destruct Hans as [[_ ->]|[_ ->]]; by left.
  - destruct Hans as [[_ ->]|(c & _ & _ & ->)]; by left.
Qed.

Lemma done_stays s s' :
  mr_sys_inv s -> mr_step s s' -> co_phase (mw_co (ms_world s)) = DonePhase -> co_phase (mw_co (ms_world s')) = DonePhase.
Proof.
  intros [Hi _] [->|[e ->]]%mr_step_co Hd; [done|].
  pose proof (le_phase _ _ (coord_next_le _ _ _ e (mi_co _ Hi))) as Hle. rewrite Hd in Hle.
  destruct (co_phase (coord_next _ e)); simpl in Hle; [lia..|done].
Qed.

Lemma done_stays_run `{!MrLibLaws} s s' :
  app_ok -> input_names -> (0 < nReduce)%Z -> rtc mr_step s s' -> mr_sys_inv s ->
  co_phase (mw_co (ms_world s)) = DonePhase -> mr_sys_inv s' /\ co_phase (mw_co (ms_world s')) = DonePhase.
Proof.
  intros Ha Hin Hn Hr Hi Hd.
  eapply (invariant_rtc mr_step (fun s => mr_sys_inv s /\ co_phase (mw_co (ms_world s)) = DonePhase)); [|exact Hr|by split].
  intros a b [Ia Pa] Hst. split; [by eapply mr_step_inv|by eapply done_stays].
Qed.

(** The lines of the output files of a finished job, for any list of its pairs. *)
Lemma outputs_parts `{!MrLibLaws} w kvs rs :
  app_ok -> job_pairs kvs -> (forall r, r ∈ rs -> out_ok w r) ->
  exists parts, Forall2 (fun r ls => mw_fs w !! out_name r = Some (str_concat ls)) rs parts /\
    Forall2 (fun r ls => reduced (app_reduce app) (part nReduce r kvs) ls) rs parts.
Proof.
  intros Ha Hj. induction rs as [|r rs IH]; intros Hrs; [by exists []|].
  destruct IH as (parts & HF1 & HF2); [intros; apply Hrs; by right|].
  destruct (Hrs r) as (text & Hl & kvs' & ls & Hj' & Hred & ->); [by left|].
  exists (ls :: parts). split; constructor; try done. eapply reduced_perm; [|exact Hred].
  by rewrite (job_pairs_perm _ _ Ha Hj' Hj).
Qed.

(** C11. A MapReduce job computes what the sequential program computes.  Of any number
    of workers in one directory, which may crash, be slow and run tasks several
    times, over calls and file operations that may fail: none ever panics; and once
    the coordinator says that the job is done, the output files of the reduce tasks
    together hold, line by line in another order, the output of every run of
    [mrsequential] on the same files, and no worker changes them any more. *)
Theorem mr_equals_sequential `{!MrLibLaws} s :
  app_ok -> input_names -> (0 < nReduce)%Z -> rtc mr_step (mkMrSys mr_start ∅) s ->
  (forall id, ms_workers s !! id <> Some Panic) /\
  (Done (mw_co (ms_world s)) = true ->
   (forall s' r, rtc mr_step s s' -> (0 <= r < nReduce)%Z ->
      mw_fs (ms_world s') !! out_name r = mw_fs (ms_world s) !! out_name r) /\
   forall w, runs alone seq_answer (mrsequential files) mr_start tt w ->
     exists parts lines, mw_fs w !! "mr-out-0" = Some (str_concat lines) /\ concat parts ≡ₚ lines /\
       Forall2 (fun r ls => mw_fs (ms_world s) !! out_name r = Some (str_concat ls)) (reduce_ids nReduce) parts).
Proof.
  intros Ha Hin Hn Hr.
  assert (mr_sys_inv (mkMrSys mr_start ∅)) as H0 by (split; [apply mr_start_inv|]; intros id p; simpl; by rewrite lookup_empty).
  pose proof (mr_run_inv _ _ Ha Hin Hn Hr H0) as Hsys. split; [intros id Hp; by apply Hsys in Hp|].
  intros Hd%bool_decide_eq_true. split.
  - intros s' r Hr' Hrange. destruct (done_stays_run _ _ Ha Hin Hn Hr' Hsys Hd) as [[Hi' _] Hd'].
    destruct (done_outputs _ r (proj1 Hsys) Hd Hrange) as (text & Hl & Ht).
    destruct (done_outputs _ r Hi' Hd' Hrange) as (text' & Hl' & Ht').
    rewrite Hl, Hl'. f_equal. by eapply output_text_det.
  - intros w Hrun. destruct (mrsequential_output mr_start w eq_refl Hrun) as (kvs & lines & Hj & Hred & Hl).
    destruct (outputs_parts (ms_world s) kvs (reduce_ids nReduce) Ha Hj) as (parts & HF1 & HF2).
    { intros r Hr2%elem_of_reduce_ids. by apply done_outputs; [apply Hsys| |]. }
    exists parts, lines. split_and!; [done| |done].
    eapply (reduced_parts (app_reduce app) nReduce kvs); [by apply app_reduce_order|apply NoDup_reduce_ids| |done|done].
    intros k. apply elem_of_reduce_ids. by apply reduce_id_range.
Qed.
End job.
