(* ===== verification/MrApps.v ===== *)
(** * MapReduce applications ([mrapps/wc.go], [mrapps/indexer.go])

    Word count and the inverted index, with the text functions of Go's library they
    use, and the proof that both are applications to which [MrSafe] applies.  The
    table behind [unicode.IsLetter] is a parameter. *)

From S2P Require Import Prelude.
From S2P Require Import GoLib.
From S2P Require Import Prog.
From S2P Require Import MrCoord.
From S2P Require Import MrWorker.
From S2P Require Import MrSpec.
From S2P Require Import MrSafe.
From Stdlib Require Import Ascii.

(** ** Runes: [unicode/utf8] *)

Definition byte_of (c : ascii) : Z := Z.of_N (N_of_ascii c).

Definition in_range (lo hi b : Z) : bool := ((lo <=? b) && (b <=? hi))%Z.

(** The rune at the start of a text and its width; an invalid first byte is
    [utf8.RuneError] of width 1. *)
Definition decode_rune (l : list ascii) : Z * nat :=
  match byte_of <$> take 4 l with
  | [] => (0xFFFD%Z, 0)
  | b0 :: r =>
      if (b0 <? 0x80)%Z then (b0, 1)
      else if in_range 0xC2 0xDF b0 then
        match r with
        | b1 :: _ => if in_range 0x80 0xBF b1 then ((Z.land b0 0x1F * 64 + Z.land b1 0x3F)%Z, 2) else (0xFFFD%Z, 1)
        | _ => (0xFFFD%Z, 1)
        end
      else if in_range 0xE0 0xEF b0 then
        let lo := if (b0 =? 0xE0)%Z then 0xA0%Z else 0x80%Z in
        let hi := if (b0 =? 0xED)%Z then 0x9F%Z else 0xBF%Z in
        match r with
        | b1 :: b2 :: _ =>
            if in_range lo hi b1 && in_range 0x80 0xBF b2 then
              ((Z.land b0 0x0F * 4096 + Z.land b1 0x3F * 64 + Z.land b2 0x3F)%Z, 3)
            else (0xFFFD%Z, 1)
        | _ => (0xFFFD%Z, 1)
        end
      else if in_range 0xF0 0xF4 b0 then
        let lo := if (b0 =? 0xF0)%Z then 0x90%Z else 0x80%Z in
        let hi := if (b0 =? 0xF4)%Z then 0x8F%Z else 0xBF%Z in
        match r with
        | [b1; b2; b3] =>
            if in_range lo hi b1 && in_range 0x80 0xBF b2 && in_range 0x80 0xBF b3 then
              ((Z.land b0 0x07 * 262144 + Z.land b1 0x3F * 4096 + Z.land b2 0x3F * 64 + Z.land b3 0x3F)%Z, 4)
            else (0xFFFD%Z, 1)
        | _ => (0xFFFD%Z, 1)
        end
      else (0xFFFD%Z, 1)
  end.

(** [strings.FieldsFunc]: the maximal runs of runes for which [f] is false.  [cur]
    is the field read so far; every step takes at least one byte. *)
Fixpoint fields_func (f : Z -> bool) (fuel : nat) (cur l : list ascii) : list (list ascii) :=
  let flush := match cur with [] => [] | _ => [cur] end in
  match l, fuel with
  | [], _ | _, O => flush
  | _, S fuel' =>
      let '(r, w) := decode_rune l in
      if f r then flush ++ fields_func f fuel' [] (drop w l)
      else fields_func f fuel' (cur ++ take w l) (drop w l)
  end.

Definition FieldsFunc (f : Z -> bool) (s : string) : list string :=
  let l := String.list_ascii_of_string s in String.string_of_list_ascii <$> fields_func f (length l) [] l.

(** [strings.Join] *)
Fixpoint join (sep : string) (l : list string) : string :=
  match l with
  | [] => ""
  | [s] => s
  | s :: l' => (s ++ sep ++ join sep l')%string
  end.

Section apps.
Context (IsLetter : Z -> bool).

(** [strings.FieldsFunc(contents, func(r rune) bool { return !unicode.IsLetter(r) })] *)
Definition words (contents : string) : list string := FieldsFunc (fun r => negb (IsLetter r)) contents.

(** ** Word count *)

Definition wc_Map (filename contents : string) : list KeyValue := (fun w => mkKeyValue w "1") <$> words contents.

Definition wc_Reduce (key : string) (values : list string) : string := itoa (zlen values).

Definition wc_app : mr_app :=
  mkMrApp (fun file content l => l = wc_Map file content) (fun k vs o => o = wc_Reduce k vs).

(** ** The index *)

(** Ranging over the map [m] gives each word once, in any order. *)
Definition indexer_Map (document value : string) (res : list KeyValue) : Prop :=
  res ≡ₚ (fun w => mkKeyValue w document) <$> remove_dups (words value).

(** [sort.Strings] has one possible result. *)
Definition indexer_Reduce (key : string) (values : list string) : string :=
  (itoa (zlen values) ++ " " ++ join "," (merge_sort String.le values))%string.

Definition indexer_app : mr_app := mkMrApp indexer_Map (fun k vs o => o = indexer_Reduce k vs).

(** ** Both keep what [MrSafe] asks of an application *)

Lemma wc_order : order_insensitive (app_reduce wc_app).
Proof. intros k vs vs' o o' Hp -> ->. simpl. unfold wc_Reduce, zlen. by rewrite (Permutation_length Hp). Qed.

Lemma wc_app_ok `{MrLibLaws} : (forall w, json_clean (mkKeyValue w "1")) -> app_ok wc_app.
Proof.
  intros Hc. split; [by intros f c l l' -> ->| |apply wc_order].
  intros f c l ->. apply Forall_fmap, Forall_true. auto.
Qed.

Lemma indexer_order : order_insensitive (app_reduce indexer_app).
Proof.
  intros k vs vs' o o' Hp -> ->. simpl. unfold indexer_Reduce, zlen. rewrite (Permutation_length Hp).
  assert (merge_sort String.le vs = merge_sort String.le vs') as ->; [|done].
  apply (Sorted_unique String.le); [by apply Sorted_merge_sort; apply _..|].
  by rewrite !merge_sort_Permutation.
Qed.

Lemma indexer_app_ok `{MrLibLaws} : (forall w d, json_clean (mkKeyValue w d)) -> app_ok indexer_app.
Proof.
  intros Hc. split; [intros f c l l' Hl Hl'; simpl in *; unfold indexer_Map in *; by rewrite Hl, Hl'| |apply indexer_order].
  intros f c l Hl. simpl in Hl. unfold indexer_Map in Hl. rewrite Hl. apply Forall_fmap, Forall_true. auto.
Qed.
End apps.

(** ** A run of word count *)

Definition ascii_letter (r : Z) : bool := in_range 65 90 r || in_range 97 122 r.

Example words_two : words ascii_letter "a b,a" = ["a"; "b"; "a"].
Proof. reflexivity. Qed.

(** A two-byte letter, and a byte that is no UTF-8. *)
Example words_utf8 :
  words (fun r => ascii_letter r || (r =? 0xE9)%Z) (String "195" (String "169" (String "255" "x"))) =
  [String "195" (String "169" ""); "x"].
Proof. vm_compute. reflexivity. Qed.
