(* ===== verification/MrSim.v ===== *)
(** * Executing MapReduce

    Concrete library functions for [MrWorker], an interpreter for programs whose
    effects all succeed, and a whole word-count job run to its end by one worker
    beside another that died holding the map task. *)

From S2P Require Import Prelude.
From S2P Require Import GoLib.
From S2P Require Import Prog.
From S2P Require Import MrCoord.
From S2P Require Import MrWorker.
From S2P Require Import MrSpec.
From S2P Require Import MrSafe.
From S2P Require Import MrApps.
From Stdlib Require Import Ascii.

(** ** A text codec and a sort *)

Fixpoint mark (s : string) : string :=
  match s with EmptyString => "0" | String c s' => String "1" (String c (mark s')) end.

Fixpoint unmark (s : string) : option (string * string) :=
  match s with
  | String f s' =>
      if decide (f = "1"%char) then
        match s' with
        | String c s'' => '(t, rest) ← unmark s''; Some (String c t, rest)
        | EmptyString => None
        end
      else Some ("", s')
  | EmptyString => None
  end.

Lemma unmark_mark s rest : unmark (mark s ++ rest) = Some (s, rest).
Proof.
  induction s as [|c s IH]; [done|].
  change (mark (String c s) ++ rest)%string with (String "1" (String c (mark s ++ rest))). simpl. by rewrite IH.
Qed.

#[global] Instance key_le_dec : RelDecision key_le.
Proof. intros a b. unfold key_le. apply _. Defined.

#[global] Instance key_le_trans : Transitive key_le.
Proof. intros a b c. unfold key_le. by intros ->. Qed.

#[global] Instance key_le_total : Total key_le.
Proof. intros a b. unfold key_le. apply (total String.le). Qed.

#[global] Instance sim_lib : MrLib := {|
  Encode kv := (mark (kv_Key kv) ++ mark (kv_Value kv))%string;
  Decode s :=
    match s with
    | EmptyString => DecEOF
    | _ => match ('(k, s1) ← unmark s; '(v, s2) ← unmark s1; Some (k, v, s2)) with
           | Some (k, v, s2) => DecVal (mkKeyValue k v) s2
           | None => DecErr
           end
    end;
  sortByKey := merge_sort key_le;
|}.

#[global] Instance sim_lib_laws : MrLibLaws.
Proof.
  refine {| json_clean := fun _ => True |}.
  - intros [k v] rest _. simpl. rewrite str_append_assoc. pose proof (unmark_mark k (mark v ++ rest)) as H1.
    destruct (mark k ++ mark v ++ rest)%string as [|c s]; [done|]. rewrite H1. simpl.
    by rewrite (unmark_mark v rest).
  - done.
  - intros l. split; [apply merge_sort_Permutation|].
    apply (StronglySorted_merge_sort key_le).
Defined.

(** ** The interpreter *)

Section exec.
Context (mapf : string -> string -> list KeyValue) (reducef : string -> list string -> string) (now : Z).

Definition exec_app : mr_app := mkMrApp (fun f c l => l = mapf f c) (fun k vs o => o = reducef k vs).

Definition exec_answer (me : nat) (w : mr_world) (e : mr_eff) : option (mr_resp e * mr_world) :=
  match e return option (mr_resp e * mr_world) with
  | ERequestTask => let '(c, r) := RequestTask (fun _ => now) (mw_co w) in Some (Replied r, set_co c w)
  | EReportTask args => Some (Replied tt, set_co (ReportTask args (mw_co w)) w)
  | ESleep => Some (tt, w)
  | EMap f c => Some (mapf f c, w)
  | EReduce k vs => Some (reducef k vs, w)
  | EReadFile name | EOpen name => Some (mw_fs w !! name, w)
  | ECreateTemp prefix =>
      let t := (prefix ++ "7")%string in
      match mw_fs w !! t with
      | None => Some (Some t, set_fs (<[t := ""]> (mw_fs w)) (<[t := (me, "")]> (mw_tmp w)) w)
      | Some _ => None
      end
  | EPrint t text =>
      match mw_tmp w !! t with
      | Some (me', acc) =>
          if decide (me' = me) then
            Some (true, set_fs (<[t := ""]> (mw_fs w)) (<[t := (me, (acc ++ text)%string)]> (mw_tmp w)) w)
          else None
      | None => None
      end
  | EFlush t =>
      match mw_tmp w !! t with
      | Some (me', acc) => if decide (me' = me) then Some (true, set_fs (<[t := acc]> (mw_fs w)) (mw_tmp w) w) else None
      | None => None
      end
  | EClose _ => Some (true, w)
  | ERename old new =>
      match mw_fs w !! old with
      | Some c => Some (true, set_fs (<[new := c]> (delete old (mw_fs w))) (delete old (mw_tmp w)) w)
      | None => None
      end
  | ERemove name => Some (tt, set_fs (delete name (mw_fs w)) (delete name (mw_tmp w)) w)
  | ECreate name => Some (true, set_fs (<[name := ""]> (mw_fs w)) (mw_tmp w) w)
  | EFprintf name text =>
      match mw_fs w !! name with
      | Some c => Some (true, set_fs (<[name := (c ++ text)%string]> (mw_fs w)) (mw_tmp w) w)
      | None => None
      end
  | EFatal => None
  end.

Lemma exec_answer_ok me w e r w' : exec_answer me w e = Some (r, w') -> manswer exec_app me w e r w'.
Proof.
  destruct e; simpl; intros H; repeat case_match; simplify_eq/=; eauto 6.
  - right. exists (fun _ => now). match goal with H : RequestTask _ _ = _ |- _ => rewrite H end. auto.
  - exists s, "", (s ++ text)%string. auto.
  - exists s, s, "". by rewrite str_append_nil.
Qed.

Fixpoint exec (me n : nat) (p : mr_prog unit) (w : mr_world) : mr_prog unit * mr_world :=
  match n, p with
  | S n', Call e k => match exec_answer me w e with Some (r, w') => exec me n' (k r) w' | None => (p, w) end
  | _, _ => (p, w)
  end.

(** An execution of a worker is a run of the system. *)
Lemma exec_steps me n : forall p w ws,
  ws !! me = Some p ->
  let '(p', w') := exec me n p w in
  rtc (mr_step exec_app) (mkMrSys w ws) (mkMrSys w' (<[me := p']> ws)).
Proof.
  assert (forall p (w : mr_world) ws, ws !! me = Some p -> rtc (mr_step exec_app) (mkMrSys w ws) (mkMrSys w (<[me := p]> ws))) as Hdone.
  { intros p w ws Hp. rewrite insert_id by done. apply rtc_refl. }
  induction n as [|n IH]; intros p w ws Hp; [by apply Hdone|].
  destruct p as [a| | |e k]; try by apply Hdone. cbn [exec].
  destruct (exec_answer me w e) as [[r w1]|] eqn:He; [|by apply Hdone].
  specialize (IH (k r) w1 (<[me := k r]> ws) (lookup_insert_eq _ _ _)). destruct (exec me n (k r) w1) as [p' w'].
  rewrite insert_insert_eq in IH. eapply rtc_l; [|exact IH].
  by apply (M_effect _ (mkMrSys w ws) me e k r w1 Hp), exec_answer_ok.
Qed.

(** A worker that starts, executes and dies. *)
Lemma exec_lifetime me n fuel w :
  rtc (mr_step exec_app) (mkMrSys w ∅) (mkMrSys (snd (exec me n (Worker fuel) w)) ∅).
Proof.
  eapply rtc_l; [apply (M_start _ (mkMrSys w ∅) me fuel); apply lookup_empty|].
  pose proof (exec_steps me n (Worker fuel) w (<[me := Worker fuel]> ∅) (lookup_insert_eq _ _ _)) as H.
  destruct (exec me n (Worker fuel) w) as [p' w']. rewrite insert_insert_eq in H. etrans; [exact H|].
  eapply rtc_l; [apply (M_crash _ _ me)|]. simpl. rewrite delete_insert_eq, delete_id by apply lookup_empty. apply rtc_refl.
Qed.

(** An execution of a program to its end is a run of it alone. *)
Lemma exec_runs n : forall p w w', exec 0 n p w = (Ret tt, w') -> runs alone (seq_answer exec_app) p w tt w'.
Proof.
  induction n as [|n IH]; intros p w w' H; destruct p as [[]| | |e k]; simpl in H; simplify_eq; try constructor.
  destruct (exec_answer 0 w e) as [[r w1]|] eqn:He; [|done]. eapply runs_call; [|by apply IH].
  pose proof (exec_answer_ok _ _ _ _ _ He) as Ha. destruct e; try exact Ha.
  - simpl in He. simplify_eq. by split.
  - simpl in He. case_match; simplify_eq. by split.
Qed.
End exec.

(** ** Word count over one file, with two reduce tasks *)

Definition sim_files : list string := ["f"].

Definition sim_fs : gmap string string := {[ "f" := "a b,a" ]}.

Definition sim_app : mr_app := exec_app (wc_Map ascii_letter) wc_Reduce.

Definition sim_exec (now : Z) := exec (wc_Map ascii_letter) wc_Reduce now.

Lemma sim_app_ok : app_ok sim_app.
Proof. by apply (wc_app_ok ascii_letter). Qed.

Definition sim_start : mr_world := mr_start sim_files 2 sim_fs.

(** Worker 1 asks for a task and dies; twenty seconds later worker 2 does the job. *)
Definition sim_world1 : mr_world := snd (sim_exec 0 1 1 (Worker 1) sim_start).

Definition sim_world2 : mr_world := snd (sim_exec (20 * second) 2 100 (Worker 5) sim_world1).

Lemma sim_run : rtc (mr_step sim_app) (mkMrSys sim_start ∅) (mkMrSys sim_world2 ∅).
Proof. etrans; apply exec_lifetime. Qed.

(** The sequential program on the same directory. *)
Definition sim_seq : mr_world := snd (sim_exec 0 0 100 (mrsequential sim_files) sim_start).

Lemma sim_seq_run : runs alone (seq_answer sim_app) (mrsequential sim_files) sim_start tt sim_seq.
Proof. apply exec_runs with (now := 0%Z) (n := 100). vm_compute. reflexivity. Qed.

Lemma mr_equals_sequential_witness :
  Done (mw_co sim_world2) = true /\
  exists parts lines, mw_fs sim_seq !! "mr-out-0" = Some (str_concat lines) /\ concat parts ≡ₚ lines /\
    Forall2 (fun r ls => mw_fs sim_world2 !! out_name r = Some (str_concat ls)) (reduce_ids 2) parts.
Proof.
  assert (Done (mw_co sim_world2) = true) as Hd by (vm_compute; reflexivity). split; [exact Hd|].
  refine (proj2 (proj2 (mr_equals_sequential sim_app sim_files 2 sim_fs (mkMrSys sim_world2 ∅) sim_app_ok _ _ sim_run) Hd) sim_seq sim_seq_run).
  - intros f Hf. apply list_elem_of_singleton in Hf as ->. intros [x Hx]. discriminate Hx.
  - reflexivity.
Defined.
